(* ===== verification/_CoqProject ===== *)
-Q . S2P
Prelude.v
Effects.v
Bytes.v
Slices.v
SetOps.v
DbCodec.v
DbMap.v
Pairs.v
Counter.v
Short.v
Compressor.v
RoomStates.v
PduId.v
Scans.v
Timeline.v
AuthChain.v
MemberCache.v
Memberships.v
RoomMeta.v
RegTokens.v
Accounts.v
Devices.v
ToDevice.v
Uiaa.v
RequestAuth.v
Json.v
DeviceKeys.v
Sending.v
Sender.v
Delivery.v
Store.v
StateMap.v
StateEvent.v
StateAuth.v
StateOrder.v
StateCache.v
StateResolve.v
FedSender.v
ShardRing.v
SlidingWindow.v
Core.v
AuditService.v
Cas.v
FedService.v
ApiModel.v
GmResolve.v
AgentPolicy.v
AgentService.v
AgentApi.v
RoomEvents.v
RoomMember.v
RoomAuth.v
Greedy.v
RoomSort.v
RoomPower.v
RoomMainline.v
RoomSubgraph.v
RoomResolve.v
RoomAgree.v
PduFormat.v
StateAccessor.v
Append.v
Incoming.v
Build.v
EventFrames.v
Entry.v
Accepted.v
Built.v
RoomExample.v
