(* ===== verification/Prelude.v ===== *)
(** * GaussMatrix verification library

    GaussMatrix is a Matrix homeserver written in Rust.  Around an inherited
    server (production database, room services, client and federation APIs)
    it adds a set of clean-room crates and the services that wire them in:
    pluggable storage, a state-resolution engine, a federation scheduler, a
    shard ring, sliding sync, a wire model, and a gateway through which AI
    agents act in rooms under capability grants and an audit log.  This
    library models those crates and services, and of the inherited server the
    state resolution, the database maps and their serialisation, the state and
    timeline storage, the membership cache, the way of events into rooms from
    other servers and from local users, accounts, devices, keys and sessions,
    and the sender, as Rocq functions and proves what makes them correct.

    ** Files

    - [Prelude], [Bytes]: results and the [?] operator, ordered iteration of
      [BTreeMap] and [BTreeSet], byte strings, machine integers, big-endian
      codecs, UTF-8, white space, splitting and parsing.  [Effects]: operations
      that keep the state they leave when they fail, with the rules for what an
      operation keeps ([keeps]), yields and guarantees ([safe]).
    - [Store]: [src/src/store].  Domains, write batches, the backend trait as
      the class [KvBackend], its documented promises as [KvContract], and the
      in-memory backend, which discharges the contract.  Every storage client
      below is verified against [KvContract] only.
    - [StateMap], [StateEvent], [StateAuth], [StateOrder], [StateCache],
      [StateResolve]: [src/src/stateres], one file per source file (with
      [event.rs] and [power.rs] together): partition of the forks, events and
      power levels, authorisation rules and iterative checks, the two
      orderings, the bounded cache, and [resolve].
    - [ApiModel]: [src/src/apimodel].  Content parsing, events from JSON and
      from a field view, endpoint templates, router, errors, versions, tokens.
    - [GmResolve]: [src/src/service/gm_resolve.rs].  Resolution over live
      events and the shadow comparison.
    - [FedSender], [ShardRing], [SlidingWindow]: [src/src/fed/sender.rs],
      [src/src/shard/ring.rs], [src/src/client/sync.rs].
    - [Core]: error values and SHA-256 entry points of [src/src/core].
    - [AuditService], [Cas], [FedService]: [src/src/service/audit],
      [src/src/service/cas] and [src/src/service/fed].
    - [Json], [AgentPolicy], [AgentService], [AgentApi]: JSON values, the
      crate [src/src/agent], the service [src/src/service/agent] and the
      endpoints [src/src/api/agent.rs].
    - [RoomEvents], [RoomMember], [RoomAuth], [RoomSort], [RoomPower],
      [RoomMainline], [RoomSubgraph], [RoomResolve]: the production state
      resolution, [src/src/service/rooms/state_res]: the views of event
      content, the rules for members and for every other event, the
      topological sort, the power and mainline sorts, the conflicted subgraph
      and [resolve].  [Greedy] holds the order the topological sort computes;
      [RoomAgree] compares the two engines.
    - [DbCodec], [DbMap], [Pairs]: [src/src/database]: the record serialiser
      and deserialiser, the map operations and scans over an ordered engine,
      and the rows keyed by pairs that the services share.  [Slices] and
      [SetOps] hold the byte-slice and sorted-set helpers of
      [src/src/core/utils].
    - [Counter]: the two-phase counter of [src/src/core/utils] and the durable
      sequence of [src/src/service/globals/data.rs], with its permits as a
      step relation.
    - [Short], [Compressor], [RoomStates]: the interning tables, the layered
      state diffs and the state of rooms,
      [src/src/service/rooms/{short,state_compressor,state}].
    - [PduId], [Timeline]: positions and keys of [src/src/core/matrix/pdu] and
      the stored timeline of [src/src/service/rooms/timeline].  [Scans] holds
      the scans that decode rows and the order of those by count.
    - [AuthChain]: [src/src/service/rooms/auth_chain].
    - [MemberCache], [Memberships]: the membership tables of
      [src/src/service/rooms/state_cache] and what holds of them.
    - [RoomMeta]: known, disabled and banned rooms, relations, referenced and
      soft-failed events and threads,
      [src/src/service/rooms/{metadata,pdu_metadata,threads}].
    - [PduFormat]: events as they are stored and as they are sent,
      [src/src/core/matrix/pdu] and [src/src/core/matrix/event].
      [StateAccessor]: [src/src/service/rooms/state_accessor], the reads of room
      states and who may see and redact.
    - [Append]: [src/src/service/rooms/timeline/{append,redact}.rs] and
      [force_state]; the record [Server] joins the services that an event
      touches.  [Incoming]: [src/src/service/rooms/event_handler], events of
      other servers.  [Build]: [src/src/service/rooms/timeline/{create,build}.rs]
      and [src/src/service/server_keys/sign.rs], events of local users.
      [EventFrames], [Accepted] and [Built] prove what holds of them, and
      [RoomExample] is a room on which the theorems are exercised.
    - [RegTokens], [Accounts], [Devices], [ToDevice], [DeviceKeys]: registration
      tokens, [src/src/service/registration_tokens], and users, profiles,
      devices, tokens, queues and keys, [src/src/service/users].
    - [Uiaa], [RequestAuth]: interactive authentication, [src/src/service/uiaa],
      and the authentication of requests, [src/src/api/router/auth], with
      refresh and logout.
    - [Sending], [Sender], [Delivery]: [src/src/service/sending]: the durable
      queue, the workers that drain it, and what holds of every run.

    ** How code becomes definitions

    A struct is a record, an enum an inductive type, a function a definition
    of the same name (prefixed where names of several files meet).  Mutation
    behind [&mut self], a lock or an [Arc] is state passing; operations that
    can fail after an effect return their result together with the state left
    behind, so partial effects of error paths are part of the model.  In
    [AgentService] a state and error monad plays this role, and the gateway
    and the audit log share one store, as their handles alias one backend.
    [str], [String] and byte vectors are Rocq strings of bytes, [u32] and
    [u64] are [N] with saturating, checked and wrapping operations written
    out, [i64] is [Z], ordered maps and sets are [gmap] and [gset] iterated in
    key order.  Time is an argument of the operation that reads the clock, and
    each lock is either held for the whole operation or poisoned.

    Concurrent parts are step relations with an invariant proved for every
    reachable state: permits of the counter, membership updates, and requests,
    responses and restarts of the sender.  Futures that run concurrently within
    one operation finish in any order ([Completion]); in [Incoming] and [Build]
    each of them runs to its end before the next, and the room lock that the
    code holds while it appends is held throughout.

    Code outside the repository is a class or an argument: SHA-256
    ([Sha256], only the digest length is assumed), base64 ([Base64]), object
    stores ([ObjectStoreContract]), [serde_json] serialisation ([JsonCodec],
    flat string objects parse back), and the transport and parsers of the
    federation drive cycle.  Services of the repository that are not modelled
    are interfaces without laws: [Rooms] (state lookup and event append) and
    [Accounts] (tokens, membership, appservices).  [Engine] is the ordered
    key-value engine under the database maps, [Ruma] the parsers, content
    types and room-version rules of the ruma crate, [Identifiers], [JsonParser],
    [PduJson], [Digest], [Lru], [Users], [Services] and [DestHash] what the
    storage services take from elsewhere.  [Formats], [RoomContents],
    [AppendContents], [HandlerContents] and [BuildContents] are the content
    types, hashes and signatures of ruma that events need, [OtherServices] and
    [BuildServices] the services they are announced to, without laws; the record
    [Env] holds what other servers answer, each answer numbered, so that nothing
    is assumed of two answers to one question; [Passwords], [DeviceJson],
    [KeyIds], [KeyTexts], [InfoJson], [UiaaJson] and [LocalUsers] belong to the
    account services.  Each class has a concrete instance
    on which the theorems about it are exercised.

    ** Fuel

    Two loops of the resolution engine are not structural: the ready-heap
    loop of the power sort and the walks along power-levels events.  They take
    fuel and return [None] when it runs out.  The power sort ends within as
    many iterations as there are ids, the walks within one more than the
    number of stored events; [power_sort_correct], [mainline_ordering_correct]
    and [resolve_correct] prove that this much fuel gives a result whenever
    auth events form no cycle, which the source assumes.  In the production
    resolution the topological sort, the mainline walk, the collection of the
    power events and the subgraph search take fuel, and
    [topological_sort_terminates], [room_mainline_sort_correct],
    [subgraph_terminates] and [production_resolve_correct] give enough of it
    in the size of the store.  The state compressor walks at most the layers a
    state has, and it keeps them few: four before they are folded.  Sizes the
    code asserts (a state below 2^26 entries, 2^30 bytes of one read) and its
    limits (48 rows taken from the queue at once) are the source's numbers.
    In [Incoming] the walk over an auth chain and the walk over previous events
    take fuel, and [Unfinished] is the error of running out.
    [fetch_chain_terminates] bounds the first by ten steps for each event the
    other server has, [prev_loop_terminates] the second by twenty for each of the
    limited number of events that are followed.  Every other function is total.

    ** What is proved

    - State resolution.  [resolve] is total and computes the two-pass
      resolution; the power sort yields the unique greedy topological order
      and the mainline ordering the sorted one; only authorised events enter
      disputed slots; fork order is irrelevant; repeating a resolution with
      its cache changes nothing.  The membership rules equal a declarative
      transition relation; power-level changes stay within the sender's
      reach; the cache is a bounded first-in-first-out map.  The bridges from
      JSON and from live events agree, and live resolution is total.
    - Storage.  Batches are atomic and last-writer-wins for every backend
      meeting the contract; the in-memory backend meets it.  Content-addressed
      blobs read back and identify their content.
    - Audit.  The log refines an append-only list; a verified log is the
      appended one, or two inputs actually hashed collide.
    - Federation.  Queued items are handed out exactly once and in order,
      durably and across restarts; backoff follows its schedule; placement on
      the shard ring depends on membership alone and moves minimally.
    - Agents.  Mediation is least privilege; every call is audited before it
      acts; the rate limit is exact within a window; a call awaiting approval
      has no result accepted before a reviewer approves it; grants and
      profiles survive storage; endpoints act for admitted callers only.
    - Production state resolution.  [resolve] is total on acyclic stores and
      decides each conflicted slot by the iterated checks in the two sorted
      orders; the member rules equal a declarative relation; every error of
      the authorisation check is one of those listed; power-level changes are
      bounded by the sender's own level.
    - Database.  Serialised records read back, decoding never reads outside
      its input, and a prefix scan yields exactly the rows below a key.
    - Room storage.  The counter never hands out a number twice and never
      shows one whose permits are pending; interned ids read back; a saved
      state loads as the set that was saved, through any number of layers;
      appending to the timeline keeps every event at one position, and reading
      yields the events in order, once each.
    - Membership.  In every reachable state the tables by room and by user
      agree, each user has one membership in a room, and the listings and
      counts are those of the tables.
    - Events into rooms.  [incoming_guarded]: whatever other servers answer, an
      event of theirs is in a timeline only after its signature, its form, its
      auth events, the state before it and the current state have been checked.
      [built_guarded]: an event of a local user only if the entries of the
      current state that its room version selects allow it, and the rules of
      this server on suspended users, the admin room, redactions and restricted
      joins.  A server that the room's access list denies is refused.  The
      format between servers reads back; the reads of a room state give exactly
      its entries, and an event is seen by those whom its state lets see it.
      Relations are listed in order, once each.
    - Accounts.  A request speaks for a user only with a live token of theirs;
      tokens, devices and sessions end together; login tokens and one-time keys
      are given out once; to-device messages arrive in order until acknowledged;
      a registration token admits no more than its limit; interactive
      authentication completes only through all stages of a flow.
    - Sending.  Every request is queued, active or delivered, in every run
      with restarts; no worker panics; with enough successes the queue drains;
      a failing destination is not tried before its window ends.
    - Routing.  Path templates and paths determine each other, and the router
      picks the first serving endpoint.

    Some theorems document behaviour that departs from its intent, among them
    [resolve_stale_cache] (the cache key omits the agreed state),
    [kick_power_lifts_ban] (lifting a ban needs only the kick level),
    [drive_once_drops_undelivered] (undelivered items leave the queue),
    [subgraph_stale_path] and [subgraph_timing] (the conflicted subgraph),
    [rev_prefix_scan_misses] (backward scans), [intersection_sorted_misses],
    [rooms_listing_leaks] (a user's rooms by a bare prefix),
    [burst_off_loses] (requests dropped unsent after a restart),
    [redaction_across_rooms] and [event_read_across_rooms] (the room of an event
    is not compared), [message_as_auth_event_panics],
    [soft_failed_prev_refuses] and [unknown_root_half_done] (an event is stored
    and its sending fails).

    ** What is not modelled

    The RocksDB backend and the production database engine (bindings to a
    native library), HTTP extraction and listeners, process start-up,
    configuration, logging and metrics, media files, network transport, the
    policy server and the arithmetic of signatures.  Within modelled services: the audit log's JSON Lines export and
    the timer loop that calls the drive cycle; of the timeline, backfilling
    over federation, and notifications, search and spaces, of which appending
    shows only the calls; of the event handler, the comparison with the second
    resolution engine, which only logs; of the sender, the
    collection of ephemeral data for a server (an argument), pushes, and the
    ids of transactions.  Where a step relation is given, its steps are the
    operations between two awaits on shared state; elsewhere concurrency is
    modelled at the granularity of whole operations.

    ** Plan

    Next come receipts, presence and typing, backfilling and joining over
    federation, and the logic-bearing helpers of [src/src/core/utils]. *)

From Stdlib Require Export Ascii String NArith ZArith Lia.
From stdpp Require Export base tactics option list sorting numbers strings
  gmap fin_maps fin_map_dom.

#[global] Open Scope string_scope.
#[global] Open Scope list_scope.
#[global] Open Scope nat_scope.
#[global] Set Default Goal Selector "!".
#[global] Arguments String.append : simpl nomatch.

(** Hint databases: [btree] for ordered iteration, [frame] for the invariants
    handlers keep. *)
Create HintDb btree.
Create HintDb frame.

(** ** Results of fallible operations *)

(** Rust's [Result<A, E>]. *)
Inductive Result (E A : Type) : Type :=
  | Ok (val : A)
  | Err (err : E).
Arguments Ok {E A} _.
Arguments Err {E A} _.

(** The [?] operator: continue with the value or return the error. *)
Declare Scope result_scope.
Delimit Scope result_scope with result.
#[global] Open Scope result_scope.
Notation "'let?' x := c 'in' k" :=
  (match c with Ok x => k | Err err => Err err end)
  (at level 10, x pattern, c at level 200, k at level 200,
   format "'let?'  x  :=  c  'in' '//' k") : result_scope.

Definition result_map {E A B} (f : A → B) (r : Result E A) : Result E B :=
  match r with Ok x => Ok (f x) | Err e => Err e end.

Definition map_err {E E' A} (f : E → E') (r : Result E A) : Result E' A :=
  match r with Ok x => Ok x | Err e => Err (f e) end.

Definition ok {E A} (r : Result E A) : option A :=
  match r with Ok x => Some x | Err _ => None end.

Definition ok_or {E A} (e : E) (o : option A) : Result E A :=
  match o with Some x => Ok x | None => Err e end.

(** ** Ordered keys: the [Ord] instances a [BTreeMap] or [BTreeSet] iterates by *)

Class OrdKey (K : Type) := {
  key_le : relation K;
  key_le_dec :: RelDecision key_le;
  key_le_po :: PartialOrder key_le;
  key_le_total :: Total key_le;
}.

(** Sorting by a total order forgets the order of the input. *)
Lemma merge_sort_perm {A} `{OrdKey A} (l l' : list A) :
  l ≡ₚ l' → merge_sort key_le l = merge_sort key_le l'.
Proof.
  intros P. apply (StronglySorted_unique key_le);
    [apply StronglySorted_merge_sort; apply _..|].
  by rewrite !merge_sort_Permutation, P.
Qed.

#[export] Instance string_ord : OrdKey string := {| key_le := String.le |}.
#[export] Instance N_ord : OrdKey N := {| key_le := N.le |}.
#[export] Instance nat_ord : OrdKey nat := {| key_le := le |}.

(** Tuples compare lexicographically. *)
Definition pair_le {A B} `{OrdKey A, OrdKey B} (x y : A * B) : Prop :=
  (x.1 ≠ y.1 ∧ key_le x.1 y.1) ∨ (x.1 = y.1 ∧ key_le x.2 y.2).

#[export] Instance pair_le_dec {A B} `{OrdKey A, OrdKey B, EqDecision A} :
  RelDecision (@pair_le A B _ _).
Proof. intros x y. unfold pair_le. apply _. Defined.

#[export] Instance pair_ord {A B} `{OrdKey A, OrdKey B, EqDecision A} : OrdKey (A * B).
Proof.
  refine {| key_le := pair_le; key_le_dec := pair_le_dec |}.
  - split; [split|].
    + intros [a b]. right. done.
    + intros [a b] [a' b'] [a'' b'']; unfold pair_le; simpl.
      intros [[? ?]|[-> ?]] [[? ?]|[-> ?]]; [|by left|by left|].
      * destruct (decide (a = a'')) as [->|]; [|left; split; [done|by etrans]].
        assert (a' = a'') as -> by (by apply (anti_symm key_le)). done.
      * right. split; [done|]. by etrans.
    + intros [a b] [a' b']; unfold pair_le; simpl.
      intros [[? ?]|[-> ?]] [[? ?]|[E ?]]; subst; try done.
      * assert (a = a') by (by apply (anti_symm key_le)). done.
      * f_equal. by apply (anti_symm key_le).
  - intros [a b] [a' b']; unfold pair_le; simpl.
    destruct (decide (a = a')) as [->|].
    + destruct (total key_le b b'); [left|right]; by right.
    + destruct (total key_le a a'); [left|right]; left; split; congruence.
Defined.

(** ** Ordered iteration of maps and sets

    [BTreeMap<K, V>] and [BTreeSet<K>] are stdpp's extensional [gmap] and
    [gset]; what the trees add, iteration in ascending key order, is
    [btree_iter] and [bset_iter]. *)

Section iteration.
Context {K V : Type} `{Countable K, OrdKey K}.
Implicit Types (m : gmap K V) (s : gset K) (l : list (K * V)).

Definition entry_le (x y : K * V) : Prop := key_le x.1 y.1.
#[export] Instance entry_le_dec : RelDecision entry_le.
Proof. intros x y. unfold entry_le. apply _. Defined.
#[export] Instance entry_le_trans : Transitive entry_le.
Proof. intros x y z. unfold entry_le. intros. by etrans. Qed.
#[export] Instance entry_le_total : Total entry_le.
Proof. intros x y. unfold entry_le. apply (total key_le). Qed.

Definition btree_iter (m : gmap K V) : list (K * V) :=
  merge_sort entry_le (map_to_list m).
Definition btree_keys (m : gmap K V) : list K := (btree_iter m).*1.
Definition bset_iter (s : gset K) : list K := merge_sort key_le (elements s).

Lemma btree_iter_perm m : btree_iter m ≡ₚ map_to_list m.
Proof. apply merge_sort_Permutation. Qed.

Lemma elem_of_btree_iter m k v : (k, v) ∈ btree_iter m ↔ m !! k = Some v.
Proof. rewrite btree_iter_perm. apply elem_of_map_to_list. Qed.

Lemma btree_iter_sorted m : StronglySorted entry_le (btree_iter m).
Proof. apply StronglySorted_merge_sort; apply _. Qed.

Lemma btree_keys_NoDup m : NoDup (btree_keys m).
Proof. unfold btree_keys. rewrite btree_iter_perm. apply NoDup_fst_map_to_list. Qed.

Lemma elem_of_btree_keys m k : k ∈ btree_keys m ↔ k ∈ dom m.
Proof.
  unfold btree_keys. rewrite elem_of_dom, list_elem_of_fmap. split.
  - intros [[k' v] [-> Hin]]. apply elem_of_btree_iter in Hin. by exists v.
  - intros [v Hv]. exists (k, v). by rewrite elem_of_btree_iter.
Qed.

Lemma length_btree_iter m : length (btree_iter m) = size m.
Proof. by rewrite btree_iter_perm, length_map_to_list. Qed.

Lemma btree_iter_NoDup m : NoDup (btree_iter m).
Proof. rewrite btree_iter_perm. apply NoDup_map_to_list. Qed.

(** A key-sorted list without duplicate keys is determined by its elements. *)
Lemma entries_unique l1 l2 :
  StronglySorted entry_le l1 → StronglySorted entry_le l2 →
  NoDup l1.*1 → l1 ≡ₚ l2 → l1 = l2.
Proof.
  intros S1 S2 ND P. apply (StronglySorted_unique_strong entry_le); try done.
  intros [k1 v1] [k2 v2] Hin1 Hin2 Hle1 Hle2.
  unfold entry_le in *; simpl in *.
  assert (k1 = k2) as -> by (by apply (anti_symm key_le)).
  rewrite <-P in Hin2.
  apply list_elem_of_lookup in Hin1 as [i Hi], Hin2 as [j Hj].
  assert (i = j) as ->; [|congruence].
  eapply (NoDup_lookup l1.*1 _ _ k2); [done| |];
    rewrite list_lookup_fmap; [rewrite Hi|rewrite Hj]; done.
Qed.

Lemma btree_iter_spec m l :
  StronglySorted entry_le l → NoDup l.*1 →
  (∀ k v, (k, v) ∈ l ↔ m !! k = Some v) → l = btree_iter m.
Proof.
  intros S ND E. apply entries_unique; [done|apply btree_iter_sorted|done|].
  apply NoDup_Permutation; [by eapply NoDup_fmap_1|apply btree_iter_NoDup|].
  intros [k v]. by rewrite E, elem_of_btree_iter.
Qed.

Lemma btree_iter_list_to_map l :
  StronglySorted entry_le l → NoDup l.*1 → btree_iter (list_to_map l) = l.
Proof.
  intros S ND. symmetry. apply btree_iter_spec; [done..|].
  intros k v. by apply elem_of_list_to_map.
Qed.

Lemma bset_iter_perm s : bset_iter s ≡ₚ elements s.
Proof. apply merge_sort_Permutation. Qed.

Lemma elem_of_bset_iter s k : k ∈ bset_iter s ↔ k ∈ s.
Proof. rewrite bset_iter_perm. apply elem_of_elements. Qed.

Lemma bset_iter_NoDup s : NoDup (bset_iter s).
Proof. rewrite bset_iter_perm. apply NoDup_elements. Qed.

Lemma bset_iter_sorted s : StronglySorted key_le (bset_iter s).
Proof. apply StronglySorted_merge_sort; apply _. Qed.

Lemma bset_iter_spec s (l : list K) :
  StronglySorted key_le l → NoDup l → (∀ k, k ∈ l ↔ k ∈ s) → l = bset_iter s.
Proof.
  intros S ND E.
  apply (StronglySorted_unique key_le); [done|apply bset_iter_sorted|].
  apply NoDup_Permutation; [done|apply bset_iter_NoDup|].
  intros k. by rewrite E, elem_of_bset_iter.
Qed.
End iteration.

#[export] Hint Resolve btree_iter_perm btree_iter_sorted btree_keys_NoDup btree_iter_NoDup
  bset_iter_perm bset_iter_NoDup bset_iter_sorted : btree.

(** [HashMap] and [HashSet] iterate over each entry once, in an order of their
    own. *)
Class HashIter := {
  hash_iter : ∀ {K V : Type} `{Countable K}, gmap K V → list (K * V);
  hash_iter_perm : ∀ {K V : Type} `{Countable K} (m : gmap K V), hash_iter m ≡ₚ map_to_list m;
  hash_set_iter : ∀ {K : Type} `{Countable K}, gset K → list K;
  hash_set_iter_perm : ∀ {K : Type} `{Countable K} (s : gset K), hash_set_iter s ≡ₚ elements s;
}.

Definition reversed_hash_iter : HashIter := {|
  hash_iter K V _ _ m := reverse (map_to_list m);
  hash_iter_perm K V _ _ m := reverse_Permutation _;
  hash_set_iter K _ _ s := reverse (elements s);
  hash_set_iter_perm K _ _ s := reverse_Permutation _;
|}.

Lemma hash_iter_map `{HashIter} {K V} `{Countable K} (m : gmap K V) :
  NoDup (hash_iter m).*1 ∧ list_to_map (hash_iter m) = m ∧ ∀ k v, (k, v) ∈ hash_iter m ↔ m !! k = Some v.
Proof.
  assert (NoDup (hash_iter m).*1) as ND by (rewrite hash_iter_perm; apply NoDup_fst_map_to_list).
  split_and!; [done| |].
  - rewrite <-(list_to_map_to_list m) at 2. apply list_to_map_proper; [done|apply hash_iter_perm].
  - intros k v. by rewrite hash_iter_perm, elem_of_map_to_list.
Qed.

Lemma btree_iter_fmap {K V W} `{Countable K, OrdKey K} (f : V → W) (m : gmap K V) :
  btree_iter (f <$> m) = (λ e, (e.1, f e.2)) <$> btree_iter m.
Proof.
  symmetry. apply btree_iter_spec.
  - pose proof (btree_iter_sorted m) as HS.
    induction HS as [|[k v] l HS IH Hall]; [constructor|]. csimpl. constructor; [done|].
    apply Forall_fmap. eapply Forall_impl; [exact Hall|]. done.
  - rewrite <-list_fmap_compose. apply btree_keys_NoDup.
  - intros k w. rewrite lookup_fmap, fmap_Some, list_elem_of_fmap. split.
    + intros ([k' v] & [= -> ->] & Hv%elem_of_btree_iter). eauto.
    + intros (v & Hv & ->). exists (k, v). by rewrite elem_of_btree_iter.
Qed.

Lemma StronglySorted_filter {A} (R : relation A) (P : A → Prop)
    `{!∀ x, Decision (P x)} (l : list A) :
  StronglySorted R l → StronglySorted R (filter P l).
Proof.
  induction 1 as [|x l S IH F]; [constructor|].
  rewrite filter_cons. case_decide; [|done]. constructor; [done|].
  rewrite Forall_forall in *. intros y [_ Hy]%list_elem_of_filter. auto.
Qed.

Lemma Forall2_choice {A B} (Q : A → B → Prop) (l : list A) : (∀ x, x ∈ l → ∃ y, Q x y) → ∃ k, Forall2 Q l k.
Proof.
  induction l as [|x l IH]; intros Hl; [by exists []|]. destruct (Hl x) as [y Hy]; [by left|].
  destruct IH as [k Hk]; [intros z Hz; apply Hl; by right|]. exists (y :: k). by constructor.
Qed.

Lemma Forall2_elem_l {A B} (Q : A → B → Prop) l k x : Forall2 Q l k → x ∈ l → ∃ y, y ∈ k ∧ Q x y.
Proof.
  intros Hf [i Hi]%list_elem_of_lookup. destruct (Forall2_lookup_l _ _ _ _ _ Hf Hi) as (y & Hy & HQ).
  exists y. split; [by eapply list_elem_of_lookup_2|done].
Qed.

Lemma Forall2_elem_r {A B} (Q : A → B → Prop) l k y : Forall2 Q l k → y ∈ k → ∃ x, x ∈ l ∧ Q x y.
Proof. intros Hf%Forall2_flip Hy. exact (Forall2_elem_l _ _ _ _ Hf Hy). Qed.

Lemma Forall2_sorted {A B} (R : A → B → Prop) (S : relation A) (T : relation B) (l : list A) (k : list B) :
  Forall2 R l k → StronglySorted S l → (∀ a a' b b', a ∈ l → a' ∈ l → S a a' → R a b → R a' b' → T b b') → StronglySorted T k.
Proof.
  intros Hf Hs. revert k Hf. induction Hs as [|a l Hs IH Hall]; intros k Hf HT; inversion Hf as [|? b ? k' Hr Hf' E1 E2]; subst; constructor.
  - apply IH; [done|]. intros a1 a2 b1 b2 H1a H2a. apply HT; by right.
  - apply Forall_forall. intros b' Hb'. destruct (Forall2_elem_r _ _ _ _ Hf' Hb') as (a' & Ha' & Hr').
    rewrite Forall_forall in Hall. apply (HT a a' b b'); [by left|by right|by apply Hall|done..].
Qed.

Lemma filter_none {A} (P : A → Prop) `{!∀ x, Decision (P x)} (l : list A) :
  (∀ x, x ∈ l → ¬ P x) → filter P l = [].
Proof.
  induction l as [|x l IH]; intros Hn; [done|].
  rewrite filter_cons_False by (apply Hn; by left). apply IH. intros y Hy. apply Hn. by right.
Qed.

Lemma filter_all {A} (P : A → Prop) `{!∀ x, Decision (P x)} (l : list A) :
  (∀ x, x ∈ l → P x) → filter P l = l.
Proof.
  induction l as [|x l IH]; intros Ha; [done|].
  rewrite filter_cons_True by (apply Ha; by left). f_equal. apply IH. intros y Hy. apply Ha. by right.
Qed.

(** Counting the elements that satisfy a predicate. *)
Lemma filter_length_pos {A} (P : A → Prop) `{!∀ x, Decision (P x)} (l : list A) :
  (0 < length (filter P l))%nat ↔ ∃ x, x ∈ l ∧ P x.
Proof.
  split.
  - destruct (filter P l) as [|x r] eqn:E; [cbn; lia|]. intros _. exists x.
    assert (x ∈ filter P l) as [? ?]%list_elem_of_filter by (rewrite E; by left). done.
  - intros (x & Hx & Hp). destruct (filter P l) eqn:E; [|cbn; lia].
    assert (x ∈ filter P l) as Hin by by apply list_elem_of_filter. rewrite E in Hin. by apply elem_of_nil in Hin.
Qed.

Lemma filter_length_lt {A} (P : A → Prop) `{!∀ x, Decision (P x)} (l : list A) :
  (length (filter P l) < length l)%nat ↔ ∃ x, x ∈ l ∧ ¬ P x.
Proof.
  split; [|intros (x & Hx & Hp); by eapply length_filter_lt].
  induction l as [|x l IH]; [cbn; lia|]. rewrite filter_cons. case_decide; [|by exists x; split; [left|]].
  cbn. intros Hlt. destruct IH as (y & Hy & Hp); [lia|]. exists y. by split; [right|].
Qed.

Lemma filter_ext_elem {A} (P Q : A → Prop) `{!∀ x, Decision (P x), !∀ x, Decision (Q x)}
    (l : list A) : (∀ x, x ∈ l → P x ↔ Q x) → filter P l = filter Q l.
Proof.
  induction l as [|x l IH]; intros Hpq; [done|]. rewrite !filter_cons.
  rewrite (decide_ext (P x) (Q x)) by (apply Hpq; by left).
  rewrite IH by (intros y Hy; apply Hpq; by right). done.
Qed.

(** [Iterator::take_while]. *)
Fixpoint take_while {A} (p : A → bool) (l : list A) : list A :=
  match l with
  | [] => []
  | x :: l' => if p x then x :: take_while p l' else []
  end.

(** On a sorted list, taking while [p] holds is filtering by [p] when [p] is
    closed downwards along the order. *)
Lemma take_while_filter {A} (R : relation A) (p : A → bool) (l : list A) :
  StronglySorted R l →
  (∀ x y, x ∈ l → y ∈ l → R x y → p y = true → p x = true) →
  take_while p l = filter (λ x, p x = true) l.
Proof.
  induction 1 as [|x l S IH F]; intros Hc; [done|].
  simpl. rewrite filter_cons. destruct (p x) eqn:E.
  - rewrite decide_True by done. f_equal. apply IH. intros y z Hy Hz. apply Hc; by right.
  - rewrite decide_False by done. symmetry. apply filter_none.
    rewrite Forall_forall in F. intros y Hy Hp.
    enough (p x = true) by congruence. apply (Hc x y); [by left|by right|auto|done].
Qed.

(** [Option::filter] and [Option::and_then] on the model's options. *)
Definition opt_filter {A} (p : A → bool) (o : option A) : option A :=
  match o with Some x => if p x then Some x else None | None => None end.

(** Rebuilding a map by inserting the images of a map's entries in iteration
    order is [omap]. *)
Section rebuild.
Context {K V W : Type} `{Countable K, OrdKey K}.
Implicit Types (m : gmap K V) (acc : gmap K W) (l : list (K * V)).

Definition insert_image (f : V → option W) (acc : gmap K W) (e : K * V) : gmap K W :=
  match f e.2 with Some w => <[e.1 := w]> acc | None => acc end.

Lemma foldl_insert_image_notin f l acc k :
  k ∉ l.*1 → foldl (insert_image f) acc l !! k = acc !! k.
Proof.
  revert acc. induction l as [|[k' v] l IH]; intros acc Hk; simpl; [done|].
  rewrite fmap_cons, not_elem_of_cons in Hk. destruct Hk as [Hne Hk]. simpl in Hne.
  rewrite IH by done. unfold insert_image; simpl.
  destruct (f v); [|done]. by rewrite lookup_insert_ne.
Qed.

Lemma foldl_insert_image_in f l acc k v :
  NoDup l.*1 → (k, v) ∈ l →
  foldl (insert_image f) acc l !! k = match f v with Some w => Some w | None => acc !! k end.
Proof.
  revert acc. induction l as [|[k' v'] l IH]; intros acc ND Hin; [by apply elem_of_nil in Hin|].
  rewrite fmap_cons in ND. apply NoDup_cons in ND as [Hni ND]. simpl in Hni |- *.
  apply elem_of_cons in Hin as [[= -> ->]|Hin].
  - rewrite foldl_insert_image_notin by done. unfold insert_image; simpl.
    destruct (f v'); [|done]. apply lookup_insert_eq.
  - assert (k ≠ k').
    { intros ->. apply Hni. apply list_elem_of_fmap. by exists (k', v). }
    rewrite IH by done. unfold insert_image; simpl.
    destruct (f v), (f v'); try done. by rewrite lookup_insert_ne.
Qed.

Lemma foldl_insert_image_acc f m acc :
  foldl (insert_image f) acc (btree_iter m) = omap f m ∪ acc.
Proof.
  apply map_eq. intros k. rewrite lookup_union, lookup_omap. destruct (m !! k) as [v|] eqn:E; simpl.
  - rewrite (foldl_insert_image_in f _ _ k v);
      [|apply btree_keys_NoDup|by apply elem_of_btree_iter].
    by destruct (f v), (acc !! k).
  - rewrite foldl_insert_image_notin; [by destruct (acc !! k)|].
    intros Hk. apply elem_of_btree_keys, elem_of_dom in Hk as [v Hv]. congruence.
Qed.

Lemma foldl_insert_image f m : foldl (insert_image f) ∅ (btree_iter m) = omap f m.
Proof. by rewrite foldl_insert_image_acc, (right_id_L ∅ (∪)). Qed.
End rebuild.

(** Traversing a permuted list gives a permuted result. *)
Lemma mapM_perm {A B} (f : A → option B) (l l' : list A) :
  l ≡ₚ l' →
  match mapM f l, mapM f l' with
  | Some a, Some b => a ≡ₚ b
  | None, None => True
  | _, _ => False
  end.
Proof.
  induction 1 as [|x l l' P IH|x y l|l1 l2 l3 P1 IH1 P2 IH2]; cbn [mapM]; [constructor|..].
  - destruct (f x); cbn; [|done]. destruct (mapM f l), (mapM f l'); cbn; try done. by constructor.
  - destruct (f x), (f y); cbn; try done; destruct (mapM f l); cbn; try done. constructor.
  - destruct (mapM f l1), (mapM f l2), (mapM f l3); try done. by etrans.
Qed.

(** [BTreeMap::extend] with the entries of another map. *)
Definition map_extend {K V} `{Countable K, OrdKey K} (m new : gmap K V) : gmap K V :=
  foldl (λ out e, <[e.1 := e.2]> out) m (btree_iter new).

Lemma map_extend_union {K V} `{Countable K, OrdKey K} (m new : gmap K V) :
  map_extend m new = new ∪ m.
Proof.
  change (map_extend m new) with (foldl (insert_image Some) m (btree_iter new)).
  rewrite foldl_insert_image_acc. f_equal. apply map_eq. intros k.
  rewrite lookup_omap. by destruct (new !! k).
Qed.

(** [filter_map] over a list. *)
Abbreviation filter_map := (omap (M := list)).
