(* ===== verification/Effects.v ===== *)
(** * Operations that fail midway

    A service handles a request by reading and writing its tables, and may fail
    after some of its writes: [Op] is a function from the state to a result and
    the state left behind.  [keeps] and [yields] are the small logic of such
    operations: what relates the states before and after, and what holds of a
    result. *)

From S2P Require Import Prelude.

(** What aborts a request, as opposed to the errors [.ok()] ignores. *)
Class Panics (E : Type) := is_panic : E → bool.

Section monad.
Context {E S : Type}.

Definition Op (A : Type) : Type := S → Result E A * S.

Definition ret {A} (a : A) : Op A := λ s, (Ok a, s).
Definition throw {A} (e : E) : Op A := λ s, (Err e, s).
Definition bind {A B} (m : Op A) (k : A → Op B) : Op B :=
  λ s, match m s with (Ok a, s') => k a s' | (Err e, s') => (Err e, s') end.
Definition lift {A} (r : Result E A) : Op A := λ s, (r, s).
Definition reading {A} (f : S → A) : Op A := λ s, (Ok (f s), s).

(** [.await.ok()] *)
Definition ignoring `{!Panics E} {A} (m : Op A) : Op (option A) :=
  λ s, match m s with
       | (Ok a, s') => (Ok (Some a), s')
       | (Err e, s') => if is_panic e then (Err e, s') else (Ok None, s')
       end.

Fixpoint for_each {A} (f : A → Op unit) (l : list A) : Op unit :=
  match l with [] => ret tt | a :: l => bind (f a) (λ _, for_each f l) end.

(** [and_then] and [try_collect] over a stream, one item after the other. *)
Fixpoint collect {A B} (f : A → Op B) (l : list A) : Op (list B) :=
  match l with
  | [] => ret []
  | a :: l => bind (f a) (λ b, bind (collect f l) (λ bs, ret (b :: bs)))
  end.
End monad.
Arguments Op : clear implicits.

Declare Scope op_scope.
Delimit Scope op_scope with op.
Notation "'do' x := m 'in' k" := (bind m (λ x, k)) (at level 10, x name, m at level 100, k at level 200) : op_scope.
Notation "m ';;' k" := (bind m (λ _, k)) (at level 100, right associativity) : op_scope.
Open Scope op_scope.

(** ** States before and after *)

Section keeps.
Context {E S : Type} (R : relation S).

Definition keeps {A} (m : Op E S A) : Prop := ∀ s, R s (m s).2.

Context `{!PreOrder R}.

Lemma keeps_lift {A} (r : Result E A) : keeps (lift r).
Proof. intros s. cbn. reflexivity. Qed.
Lemma keeps_ret {A} (a : A) : keeps (ret a).
Proof. apply (keeps_lift (Ok a)). Qed.
Lemma keeps_throw {A} (e : E) : keeps (throw (A := A) e).
Proof. apply (keeps_lift (Err e)). Qed.
Lemma keeps_reading {A} (f : S → A) : keeps (reading f).
Proof. intros s. cbn. reflexivity. Qed.

Lemma keeps_bind {A B} (m : Op E S A) (k : A → Op E S B) : keeps m → (∀ a, keeps (k a)) → keeps (bind m k).
Proof.
  intros Hm Hk s. specialize (Hm s). unfold bind. destruct (m s) as [[a|e] s'] eqn:Em; cbn in Hm |- *; [|done].
  etrans; [exact Hm|apply Hk].
Qed.

Lemma keeps_ignoring `{!Panics E} {A} (m : Op E S A) : keeps m → keeps (ignoring m).
Proof. intros Hm s. specialize (Hm s). unfold ignoring. destruct (m s) as [[a|e] s']; cbn in *; [done|]. by destruct (is_panic e). Qed.

Lemma keeps_for_each {A} (f : A → Op E S unit) l : (∀ a, keeps (f a)) → keeps (for_each f l).
Proof. intros Hf. induction l as [|a l IH]; [apply keeps_ret|]. cbn. by apply keeps_bind. Qed.

Lemma keeps_collect {A B} (f : A → Op E S B) l : (∀ a, keeps (f a)) → keeps (collect f l).
Proof.
  intros Hf. induction l as [|a l IH]; [apply keeps_ret|]. cbn. apply keeps_bind; [done|]. intros b.
  apply keeps_bind; [done|]. intros bs. apply keeps_ret.
Qed.

Lemma bind_inv {A B} (m : Op E S A) (k : A → Op E S B) s r s' :
  bind m k s = (Ok r, s') → ∃ a s1, m s = (Ok a, s1) ∧ k a s1 = (Ok r, s').
Proof. unfold bind. destruct (m s) as [[a|e] s1]; [|done]. eauto. Qed.

(** Each item was produced on the way. *)
Lemma collect_inv {A B} (f : A → Op E S B) l s bs s' :
  (∀ a, keeps (f a)) → collect f l s = (Ok bs, s') →
  R s s' ∧ Forall2 (λ a b, ∃ s1 s2, R s s1 ∧ f a s1 = (Ok b, s2) ∧ R s2 s') l bs.
Proof.
  intros Hf. revert s bs. induction l as [|a l IH]; intros s bs; cbn [collect]; [intros [= <- <-]; done|].
  intros (b & s1 & E1 & Hk)%bind_inv. apply bind_inv in Hk as (bs' & s2 & E2 & [= <- <-]).
  destruct (IH s1 bs' E2) as [HR Hall]. pose proof (Hf a s) as H1. rewrite E1 in H1. cbn in H1. split; [by etrans|]. constructor.
  - by exists s, s1.
  - eapply Forall2_impl; [exact Hall|]. cbn. intros x y (t1 & t2 & Ht1 & Ex & Ht2). exists t1, t2. split; [by etrans|done].
Qed.
End keeps.

(** ** Results *)

Section yields.
Context {E S : Type}.

(** From a state of [P] a success is in [Q], and whatever happens the state left
    behind is in [I]. *)
Definition yields {A} (P : S → Prop) (m : Op E S A) (Q : A → S → Prop) (I : S → Prop) : Prop :=
  ∀ s, P s → I (m s).2 ∧ ∀ a, (m s).1 = Ok a → Q a (m s).2.

Lemma yields_ret {A} (a : A) (Q : A → S → Prop) (I : S → Prop) : yields (λ s, Q a s ∧ I s) (ret a) Q I.
Proof. intros s [HQ HI]. split; [done|]. by intros b [= <-]. Qed.

Lemma yields_throw {A} (e : E) (Q : A → S → Prop) (I : S → Prop) : yields I (throw e) Q I.
Proof. intros s HI. split; [done|]. by intros b [=]. Qed.

Lemma yields_lift {A} (r : Result E A) (Q : A → S → Prop) (I : S → Prop) :
  yields (λ s, I s ∧ ∀ a, r = Ok a → Q a s) (lift r) Q I.
Proof. by intros s [HI HQ]. Qed.

Lemma yields_bind {A B} P (m : Op E S A) (k : A → Op E S B) Q R I :
  yields P m Q I → (∀ a, yields (Q a) (k a) R I) → yields P (bind m k) R I.
Proof.
  intros Hm Hk s Hs. destruct (Hm s Hs) as [HI HQ]. unfold bind. destruct (m s) as [[a|e] s'] eqn:Em; cbn in *.
  - apply (Hk a s'). by apply HQ.
  - split; [done|]. by intros b [=].
Qed.

Lemma yields_weaken {A} (P P' : S → Prop) (m : Op E S A) (Q Q' : A → S → Prop) (I I' : S → Prop) :
  yields P m Q I → (∀ s, P' s → P s) → (∀ a s, Q a s → Q' a s) → (∀ s, I s → I' s) → yields P' m Q' I'.
Proof. intros Hm HP HQ HI s Hs. destruct (Hm s (HP s Hs)) as [Hi Hq]. split; [by apply HI|]. intros a Ha. by apply HQ, Hq. Qed.
End yields.

(** ** Invariants *)

Section safe.
Context {E S : Type} (I : S → Prop).

(** The invariant is kept, and a result is as [Q] says. *)
Definition safe {A} (m : Op E S A) (Q : A → Prop) : Prop := ∀ s, I s → I (m s).2 ∧ ∀ a, (m s).1 = Ok a → Q a.

Lemma safe_lift {A} (r : Result E A) (Q : A → Prop) : (∀ a, r = Ok a → Q a) → safe (lift r) Q.
Proof. by intros Hr s Hs. Qed.
Lemma safe_ok_or {A} (e : E) (o : option A) : safe (lift (ok_or e o)) (λ a, o = Some a).
Proof. apply safe_lift. intros a. destruct o; cbn; congruence. Qed.
Lemma safe_map_err {A F} (f : F → E) (r : Result F A) : safe (lift (map_err f r)) (λ a, r = Ok a).
Proof. apply safe_lift. intros a. destruct r; cbn; congruence. Qed.
Lemma safe_ret {A} (a : A) (Q : A → Prop) : Q a → safe (ret a) Q.
Proof. intros Ha. apply (safe_lift (Ok a)). by intros b [= <-]. Qed.
Lemma safe_throw {A} (e : E) (Q : A → Prop) : safe (throw e) Q.
Proof. by apply (safe_lift (Err e)). Qed.
Lemma safe_reading {A} (f : S → A) (Q : A → Prop) : (∀ s, I s → Q (f s)) → safe (reading f) Q.
Proof. intros Hf s Hs. split; [done|]. intros a [= <-]. by apply Hf. Qed.
(** A check that only reads the state. *)
Lemma safe_look {A} (f : S → Result E A) (Q : A → Prop) : (∀ s a, I s → f s = Ok a → Q a) → safe (λ s, (f s, s)) Q.
Proof. intros Hf s Hs. split; [done|]. intros a. by apply Hf. Qed.

Lemma safe_bind {A B} (m : Op E S A) (k : A → Op E S B) (Q : A → Prop) (R : B → Prop) :
  safe m Q → (∀ a, Q a → safe (k a) R) → safe (bind m k) R.
Proof.
  intros Hm Hk s Hs. destruct (Hm s Hs) as [HI HQ]. unfold bind. destruct (m s) as [[a|e] s']; cbn in *.
  - apply (Hk a); [by apply HQ|done].
  - by split.
Qed.

Lemma safe_mono {A} (m : Op E S A) (Q R : A → Prop) : safe m Q → (∀ a, Q a → R a) → safe m R.
Proof. intros Hm HQ s Hs. destruct (Hm s Hs) as [HI Hr]. split; [done|]. intros a Ha. by apply HQ, Hr. Qed.

Lemma safe_ignoring `{!Panics E} {A} (m : Op E S A) (Q : A → Prop) :
  safe m Q → safe (ignoring m) (λ o, ∀ a, o = Some a → Q a).
Proof.
  intros Hm s Hs. destruct (Hm s Hs) as [HI HQ]. unfold ignoring. destruct (m s) as [[a|e] s']; cbn in *.
  - split; [done|]. intros o [= <-] b [= <-]. by apply HQ.
  - destruct (is_panic e); cbn; split; try done. by intros o [= <-].
Qed.

Lemma safe_for_each {A} (f : A → Op E S unit) l : (∀ a, a ∈ l → safe (f a) (λ _, True)) → safe (for_each f l) (λ _, True).
Proof.
  induction l as [|a l IH]; intros Hf; [by apply safe_ret|]. cbn. eapply safe_bind; [apply Hf; by left|].
  intros _ _. apply IH. intros b Hb. apply Hf. by right.
Qed.

Lemma safe_collect {A B} (f : A → Op E S B) (Q : A → B → Prop) l :
  (∀ a, a ∈ l → safe (f a) (Q a)) → safe (collect f l) (Forall2 Q l).
Proof.
  induction l as [|a l IH]; intros Hf; [by apply safe_ret|]. cbn. eapply safe_bind; [apply Hf; by left|].
  intros b Hb. eapply safe_bind; [apply IH; intros c Hc; apply Hf; by right|]. intros bs Hbs. apply safe_ret. by constructor.
Qed.

Lemma safe_keeps {A} (R : relation S) (m : Op E S A) :
  keeps R m → (∀ s s', R s s' → I s → I s') → safe m (λ _, True).
Proof. intros Hm HR s Hs. split; [|done]. eapply HR; [apply Hm|done]. Qed.
End safe.
