(* ===== verification/Bytes.v ===== *)
(** * Byte strings, machine integers and their encodings

    Rust's [&str], [String], [&[u8]] and [Vec<u8>] are all Rocq [string]s: a
    [string] is a sequence of 8-bit [ascii]s, which for a [str] is its UTF-8
    encoding (so [as_bytes] is the identity and [Ord] is bytewise
    lexicographic order).  Unsigned integers are [N] with the width written
    out; [i64] values are [Z]. *)

From S2P Require Import Prelude.

(** ** Machine integers *)

Definition U32_MAX : N := 4294967295.
Definition U64_MAX : N := 18446744073709551615.
Definition I64_MAX : Z := 9223372036854775807.
Definition I64_MIN : Z := (-9223372036854775808)%Z.

Definition u64_saturating_add (a b : N) : N := N.min (a + b) U64_MAX.
Definition u32_saturating_add (a b : N) : N := N.min (a + b) U32_MAX.
Definition u64_saturating_mul (a b : N) : N := N.min (a * b) U64_MAX.
Definition u64_wrapping_mul (a b : N) : N := (a * b) mod 2 ^ 64.

(** ** Slicing *)

Fixpoint str_take (n : nat) (s : string) : string :=
  match n, s with
  | S n', String c s' => String c (str_take n' s')
  | _, _ => EmptyString
  end.

Fixpoint str_drop (n : nat) (s : string) : string :=
  match n, s with
  | S n', String _ s' => str_drop n' s'
  | _, _ => s
  end.

(** [bytes.get(a..b)] on a byte slice, for [a <= b]. *)
Definition slice_get (s : string) (a b : nat) : option string :=
  if Nat.leb b (String.length s) then Some (str_take (b - a) (str_drop a s)) else None.

Lemma length_append s t : String.length (s +:+ t) = String.length s + String.length t.
Proof. induction s as [|c s IH]; simpl; [done|]. by f_equal. Qed.

Lemma append_assoc s t u : s +:+ t +:+ u = (s +:+ t) +:+ u.
Proof. induction s as [|c s IH]; simpl; [done|]. by f_equal. Qed.

Lemma append_nil_r s : s +:+ "" = s.
Proof. induction s as [|c s IH]; simpl; [done|]. by f_equal. Qed.

Lemma str_take_append s t : str_take (String.length s) (s +:+ t) = s.
Proof. induction s as [|c s IH]; simpl; [done|]. by f_equal. Qed.

Lemma str_drop_append s t : str_drop (String.length s) (s +:+ t) = t.
Proof. induction s as [|c s IH]; simpl; [done|]. by f_equal. Qed.

Lemma str_take_length s : str_take (String.length s) s = s.
Proof. rewrite <-(append_nil_r s) at 2. apply str_take_append. Qed.

Lemma str_take_drop n s : str_take n s +:+ str_drop n s = s.
Proof.
  revert s. induction n as [|n IH]; intros [|c s]; simpl; try done.
  by rewrite IH.
Qed.

Lemma length_str_take n s :
  n ≤ String.length s → String.length (str_take n s) = n.
Proof.
  revert s. induction n as [|n IH]; intros [|c s]; simpl; try lia.
  intros. rewrite IH; lia.
Qed.

Lemma append_inj_l s1 s2 t1 t2 :
  String.length s1 = String.length s2 →
  s1 +:+ t1 = s2 +:+ t2 → s1 = s2 ∧ t1 = t2.
Proof.
  revert s2. induction s1 as [|c s1 IH]; intros [|c2 s2] HL HE; simplify_eq/=; [done|].
  destruct (IH s2) as [-> ->]; auto.
Qed.

(** ** Prefixes: [starts_with] is [String.prefix] *)

Lemma prefix_spec p s : String.prefix p s = true ↔ ∃ t, s = p +:+ t.
Proof.
  revert s. induction p as [|c p IH]; intros s; simpl.
  - split; [by exists s|]. by destruct s.
  - destruct s as [|d s]; simpl; [split; [done|]; by intros [t ?]|].
    destruct (ascii_dec c d) as [->|].
    + rewrite IH. split; intros [t E]; exists t; congruence.
    + split; [done|]. intros [t E]. congruence.
Qed.

Lemma prefix_append p s : String.prefix p (p +:+ s) = true.
Proof. apply prefix_spec. by exists s. Qed.

Lemma prefix_nil s : String.prefix "" s = true.
Proof. by destruct s. Qed.

Fixpoint strip_prefix (p s : string) : option string :=
  match p, s with
  | EmptyString, _ => Some s
  | String c p', String d s' => if decide (c = d) then strip_prefix p' s' else None
  | _, EmptyString => None
  end.

Lemma strip_prefix_spec p s t : strip_prefix p s = Some t ↔ s = p +:+ t.
Proof.
  revert s. induction p as [|c p IH]; intros [|d s]; simpl; [naive_solver..|clear IH|].
  - naive_solver.
  - case_decide as E; [subst; rewrite IH|]; clear IH; naive_solver.
Qed.

(** ** Lexicographic order *)

Lemma key_le_compare (s t : string) : key_le s t ↔ String.compare s t ≠ Gt.
Proof.
  simpl. unfold String.le, String.leb. destruct (String.compare s t); simpl; naive_solver.
Qed.

Lemma ascii_compare_lt_trans a b c :
  Ascii.compare a b = Lt → Ascii.compare b c = Lt → Ascii.compare a c = Lt.
Proof. unfold Ascii.compare. rewrite !N.compare_lt_iff. lia. Qed.

Lemma ascii_compare_refl a : Ascii.compare a a = Eq.
Proof. unfold Ascii.compare. apply N.compare_refl. Qed.

Lemma string_compare_refl s : String.compare s s = Eq.
Proof. induction s as [|c s IH]; [done|]. simpl. by rewrite ascii_compare_refl. Qed.

Lemma ascii_compare_eq a b : Ascii.compare a b = Eq → a = b.
Proof.
  unfold Ascii.compare. rewrite N.compare_eq_iff. intros E.
  rewrite <-(ascii_N_embedding a), <-(ascii_N_embedding b). by rewrite E.
Qed.

Lemma prefix_le p s : String.prefix p s = true → key_le p s.
Proof.
  intros [t ->]%prefix_spec. apply key_le_compare.
  induction p as [|c p IH]; simpl; [by destruct t|].
  by rewrite ascii_compare_refl.
Qed.

(** The keys that start with [p] are contiguous in key order, directly after
    [p] itself. *)
Lemma prefix_convex p s t :
  key_le p s → key_le s t → String.prefix p t = true → String.prefix p s = true.
Proof.
  rewrite !key_le_compare.
  revert s t. induction p as [|c p IH]; intros s t H1 H2 Hp; [apply prefix_nil|].
  destruct s as [|d s]; [done|]. destruct t as [|e t]; [done|].
  simpl in *. destruct (ascii_dec c e) as [->|]; [|done].
  destruct (Ascii.compare e d) eqn:E1; [| |done].
  - apply ascii_compare_eq in E1 as ->. rewrite ascii_compare_refl in H2.
    destruct (ascii_dec d d); [|done]. by eapply IH.
  - assert (Ascii.compare d e = Gt) as E2; [|by rewrite E2 in H2].
    unfold Ascii.compare in *. rewrite N.compare_lt_iff in E1.
    by apply N.compare_gt_iff.
Qed.

(** ** Big-endian integers: [to_be_bytes] and [from_be_bytes] *)

Fixpoint be_encode (k : nat) (n : N) : string :=
  match k with
  | O => EmptyString
  | S k' => String (ascii_of_N ((n / 256 ^ N.of_nat k') mod 256)) (be_encode k' n)
  end.

Fixpoint be_decode (s : string) : N :=
  match s with
  | EmptyString => 0
  | String c s' => N_of_ascii c * 256 ^ N.of_nat (String.length s') + be_decode s'
  end.

Lemma length_be_encode k n : String.length (be_encode k n) = k.
Proof. induction k as [|k IH]; simpl; auto. Qed.

Lemma be_take k n t : str_take k (be_encode k n +:+ t) = be_encode k n.
Proof. rewrite <-(length_be_encode k n) at 1. apply str_take_append. Qed.

Lemma be_drop k n t : str_drop k (be_encode k n +:+ t) = t.
Proof. rewrite <-(length_be_encode k n) at 1. apply str_drop_append. Qed.

Lemma be_take_all k n : str_take k (be_encode k n) = be_encode k n.
Proof. rewrite <-(append_nil_r (be_encode k n)) at 1. apply be_take. Qed.

Lemma be_decode_encode_mod k n : be_decode (be_encode k n) = (n mod 256 ^ N.of_nat k)%N.
Proof.
  induction k as [|k IH]; [by rewrite N.mod_1_r|].
  cbn [be_encode be_decode]. rewrite length_be_encode, IH, N_ascii_embedding.
  2:{ apply N.mod_lt. lia. }
  rewrite Nat2N.inj_succ, N.pow_succ_r', N.mul_comm.
  rewrite (N.mul_comm 256), N.Div0.mod_mul_r. lia.
Qed.

Lemma be_decode_encode k n : (n < 256 ^ N.of_nat k)%N → be_decode (be_encode k n) = n.
Proof. intros. rewrite be_decode_encode_mod. by apply N.mod_small. Qed.

Lemma be_decode_lt s : (be_decode s < 256 ^ N.of_nat (String.length s))%N.
Proof.
  induction s as [|c s IH]; cbn [be_decode String.length]; [lia|].
  rewrite Nat2N.inj_succ, N.pow_succ_r'.
  pose proof (N_ascii_bounded c). nia.
Qed.

(** For equally long strings, byte order is numeric order. *)
Lemma be_decode_compare s t :
  String.length s = String.length t →
  String.compare s t = N.compare (be_decode s) (be_decode t).
Proof.
  revert t. induction s as [|c s IH]; intros [|d t] HL; simplify_eq/=; [done|].
  unfold Ascii.compare. rewrite (IH t) by done. rewrite HL.
  pose proof (be_decode_lt s) as Hs. pose proof (be_decode_lt t) as Ht. rewrite HL in Hs.
  set (B := (256 ^ N.of_nat (String.length t))%N) in *.
  destruct (N.compare_spec (N_of_ascii c) (N_of_ascii d)) as [E|E|E]; symmetry.
  - rewrite E. destruct (N.compare_spec (be_decode s) (be_decode t));
      [apply N.compare_eq_iff|apply N.compare_lt_iff|apply N.compare_gt_iff]; lia.
  - apply N.compare_lt_iff. nia.
  - apply N.compare_gt_iff. nia.
Qed.

Lemma be_encode_inj k a b :
  (a < 256 ^ N.of_nat k)%N → (b < 256 ^ N.of_nat k)%N →
  be_encode k a = be_encode k b → a = b.
Proof.
  intros Ha Hb E. rewrite <-(be_decode_encode k a), <-(be_decode_encode k b) by done.
  by rewrite E.
Qed.

Lemma be_decode_inj s t :
  String.length s = String.length t → be_decode s = be_decode t → s = t.
Proof.
  intros HL E. apply String.compare_eq_iff.
  rewrite be_decode_compare by done. by rewrite E, N.compare_refl.
Qed.

Lemma be_encode_decode k s : String.length s = k → be_encode k (be_decode s) = s.
Proof.
  intros <-. apply be_decode_inj; [apply length_be_encode|].
  apply be_decode_encode, be_decode_lt.
Qed.

Lemma be_encode_le k a b :
  (a < 256 ^ N.of_nat k)%N → (b < 256 ^ N.of_nat k)%N →
  key_le (be_encode k a) (be_encode k b) ↔ (a ≤ b)%N.
Proof.
  intros Ha Hb. rewrite key_le_compare, be_decode_compare by (by rewrite !length_be_encode).
  rewrite !be_decode_encode by done. done.
Qed.

Definition u64_to_be_bytes : N → string := be_encode 8.
Definition u32_to_be_bytes : N → string := be_encode 4.
#[global] Arguments u64_to_be_bytes : simpl never.
#[global] Arguments u32_to_be_bytes : simpl never.

(** [<[u8; n]>::try_from(slice)] followed by [from_be_bytes]. *)
Definition from_be_bytes (n : nat) (s : string) : option N :=
  if decide (String.length s = n) then Some (be_decode s) else None.

Lemma from_be_bytes_encode k n :
  (n < 256 ^ N.of_nat k)%N → from_be_bytes k (be_encode k n) = Some n.
Proof.
  intros. unfold from_be_bytes. rewrite length_be_encode, decide_True by done.
  by rewrite be_decode_encode.
Qed.

Lemma u64_width n : (n <= U64_MAX)%N → (n < 256 ^ N.of_nat 8)%N.
Proof. unfold U64_MAX. change (256 ^ N.of_nat 8)%N with 18446744073709551616%N. lia. Qed.

Lemma u32_width n : (n <= U32_MAX)%N → (n < 256 ^ N.of_nat 4)%N.
Proof. unfold U32_MAX. change (256 ^ N.of_nat 4)%N with 4294967296%N. lia. Qed.

(** ** Slicing a [str] at a byte index

    A UTF-8 continuation byte is [0b10xxxxxx]; an index is a character boundary
    when it is an end of the string or the byte there does not continue a
    character. *)
Definition is_continuation (c : ascii) : bool := N.eqb (N.land (N_of_ascii c) 0xC0) 0x80.

Definition is_char_boundary (s : string) (i : nat) : bool :=
  match String.get i s with
  | Some c => negb (is_continuation c)
  | None => Nat.eqb i (String.length s)
  end || Nat.eqb i 0.

(** [s.get(..i)]. *)
Definition str_get_to (s : string) (i : nat) : option string :=
  if is_char_boundary s i then Some (str_take i s) else None.

(** ** UTF-8: [str::from_utf8] accepts exactly the well-formed byte sequences *)

Definition in_range (lo hi : N) (c : ascii) : bool :=
  (lo <=? N_of_ascii c)%N && (N_of_ascii c <=? hi)%N.

Fixpoint utf8_valid (s : string) : bool :=
  match s with
  | EmptyString => true
  | String a s =>
      if in_range 0x00 0x7F a then utf8_valid s
      else match s with
      | EmptyString => false
      | String b s =>
          if in_range 0xC2 0xDF a then in_range 0x80 0xBF b && utf8_valid s
          else match s with
          | EmptyString => false
          | String c s =>
              let three lo hi := in_range lo hi b && in_range 0x80 0xBF c && utf8_valid s in
              if in_range 0xE0 0xE0 a then three 0xA0%N 0xBF%N
              else if in_range 0xED 0xED a then three 0x80%N 0x9F%N
              else if in_range 0xE1 0xEF a then three 0x80%N 0xBF%N
              else match s with
              | EmptyString => false
              | String d s =>
                  let four lo hi :=
                    in_range lo hi b && in_range 0x80 0xBF c && in_range 0x80 0xBF d && utf8_valid s in
                  if in_range 0xF0 0xF0 a then four 0x90%N 0xBF%N
                  else if in_range 0xF1 0xF3 a then four 0x80%N 0xBF%N
                  else if in_range 0xF4 0xF4 a then four 0x80%N 0x8F%N
                  else false
              end
          end
      end
  end.

Definition from_utf8 (s : string) : option string := if utf8_valid s then Some s else None.

(** [s.trim().is_empty()]: every character is Unicode white space.  In UTF-8
    those are the bytes 09-0D and 20, and the sequences C2 85, C2 A0, E1 9A 80,
    E2 80 80-8A, E2 80 A8, E2 80 A9, E2 80 AF, E2 81 9F and E3 80 80. *)
Definition white2 (a b : N) : bool := N.eqb a 0xC2 && (N.eqb b 0x85 || N.eqb b 0xA0).
Definition white3 (a b c : N) : bool :=
  (N.eqb a 0xE1 && N.eqb b 0x9A && N.eqb c 0x80)
  || (N.eqb a 0xE2 && N.eqb b 0x80
      && ((N.leb 0x80 c && N.leb c 0x8A) || N.eqb c 0xA8 || N.eqb c 0xA9 || N.eqb c 0xAF))
  || (N.eqb a 0xE2 && N.eqb b 0x81 && N.eqb c 0x9F)
  || (N.eqb a 0xE3 && N.eqb b 0x80 && N.eqb c 0x80).

Fixpoint is_blank (s : string) : bool :=
  match s with
  | EmptyString => true
  | String a s1 =>
      if in_range 0x09 0x0D a || in_range 0x20 0x20 a then is_blank s1
      else match s1 with
      | EmptyString => false
      | String b s2 =>
          if white2 (N_of_ascii a) (N_of_ascii b) then is_blank s2
          else match s2 with
          | EmptyString => false
          | String c s3 =>
              if white3 (N_of_ascii a) (N_of_ascii b) (N_of_ascii c) then is_blank s3 else false
          end
      end
  end.

(** ** NUL-separated keys *)

Definition NUL : string := String Ascii.zero EmptyString.

Fixpoint no_nul (s : string) : bool :=
  match s with
  | EmptyString => true
  | String c s => negb (Ascii.eqb c Ascii.zero) && no_nul s
  end.

(** The bytes before the first NUL, if there is one. *)
Fixpoint before_nul (s : string) : option string :=
  match s with
  | EmptyString => None
  | String c s =>
      if Ascii.eqb c Ascii.zero then Some EmptyString
      else match before_nul s with Some t => Some (String c t) | None => None end
  end.

Lemma before_nul_append d r : no_nul d = true → before_nul (d +:+ NUL +:+ r) = Some d.
Proof.
  induction d as [|c d IH]; [done|]. cbn [no_nul]. intros [Hc Hd]%andb_true_iff.
  rewrite negb_true_iff in Hc.
  change (String c d +:+ NUL +:+ r) with (String c (d +:+ NUL +:+ r)). cbn [before_nul].
  by rewrite Hc, IH.
Qed.

Lemma nul_prefix d d' r :
  no_nul d = true → no_nul d' = true →
  String.prefix (d +:+ NUL) (d' +:+ NUL +:+ r) = true ↔ d = d'.
Proof.
  intros Hd Hd'. rewrite prefix_spec. split.
  - intros [t E]. rewrite <-append_assoc in E.
    apply (f_equal before_nul) in E. rewrite !before_nul_append in E by done. by injection E.
  - intros ->. exists r. by rewrite <-append_assoc.
Qed.

#[global] Arguments str_take : simpl never.
#[global] Arguments str_drop : simpl never.
#[global] Arguments be_encode : simpl never.

(** ** Splitting and parsing *)

(** [str::split_once] and [str::split] on an ASCII character. *)
Fixpoint str_split_once (c : ascii) (s : string) : option (string * string) :=
  match s with
  | EmptyString => None
  | String a s =>
      if Ascii.eqb a c then Some (EmptyString, s)
      else match str_split_once c s with
           | Some (x, y) => Some (String a x, y)
           | None => None
           end
  end.

Fixpoint str_split (c : ascii) (s : string) : list string :=
  match s with
  | EmptyString => [EmptyString]
  | String a s =>
      if Ascii.eqb a c then EmptyString :: str_split c s
      else match str_split c s with
           | w :: ws => String a w :: ws
           | [] => [String a EmptyString]
           end
  end.

(** [str::parse] at an unsigned integer type with maximum [mx]: an optional
    [+], then at least one digit, failing on overflow. *)
Fixpoint parse_digits (mx acc : N) (s : string) : option N :=
  match s with
  | EmptyString => Some acc
  | String a s =>
      let c := N_of_ascii a in
      if (48 <=? c)%N && (c <=? 57)%N then
        let acc := (acc * 10 + (c - 48))%N in
        if (acc <=? mx)%N then parse_digits mx acc s else None
      else None
  end.

Definition parse_uint (mx : N) (s : string) : option N :=
  let digits := match s with String "+" rest => rest | _ => s end in
  if String.eqb digits "" then None else parse_digits mx 0 digits.

(** [str::parse] at [i64]. *)
Definition parse_i64 (s : string) : option Z :=
  match s with
  | String "-" rest =>
      if String.eqb rest "" then None else Z.opp ∘ Z.of_N <$> parse_digits (Z.to_N (- I64_MIN)) 0 rest
  | _ => Z.of_N <$> parse_uint (Z.to_N I64_MAX) s
  end.

(** [str::strip_suffix] with an ASCII character. *)
Fixpoint strip_suffix (c : ascii) (s : string) : option string :=
  match s with
  | EmptyString => None
  | String a EmptyString => if Ascii.eqb a c then Some EmptyString else None
  | String a s => String a <$> strip_suffix c s
  end.

(** [str::trim_start], [str::trim_end] and [str::trim]. *)
Fixpoint trim_start (s : string) : string :=
  match s with
  | EmptyString => EmptyString
  | String a s1 =>
      if in_range 0x09 0x0D a || in_range 0x20 0x20 a then trim_start s1
      else match s1 with
      | EmptyString => s
      | String b s2 =>
          if white2 (N_of_ascii a) (N_of_ascii b) then trim_start s2
          else match s2 with
          | EmptyString => s
          | String c s3 =>
              if white3 (N_of_ascii a) (N_of_ascii b) (N_of_ascii c) then trim_start s3 else s
          end
      end
  end.

Fixpoint trim_end (s : string) : string :=
  match s with
  | EmptyString => EmptyString
  | String a s1 => if is_blank s then EmptyString else String a (trim_end s1)
  end.

Definition trim (s : string) : string := trim_end (trim_start s).

(** ** Numbers as text *)

Fixpoint pos_bits (p : positive) : string :=
  match p with
  | xH => ""
  | xO p => String "0" (pos_bits p)
  | xI p => String "1" (pos_bits p)
  end.

Fixpoint bits_pos (s : string) : option positive :=
  match s with
  | EmptyString => Some xH
  | String "0" s => xO <$> bits_pos s
  | String "1" s => xI <$> bits_pos s
  | _ => None
  end.

Lemma bits_roundtrip p : bits_pos (pos_bits p) = Some p.
Proof. induction p as [p IH|p IH|]; simpl; rewrite ?IH; done. Qed.

Lemma bits_pos_inv s p : bits_pos s = Some p → s = pos_bits p.
Proof.
  revert p. induction s as [|c s IH]; intros p; cbn; [by intros [= <-]|].
  destruct c as [[] [] [] [] [] [] [] []]; try done; (destruct (bits_pos s) as [q|]; [|done]); intros [= <-]; cbn; by rewrite (IH q).
Qed.

Lemma pos_bits_utf8 p : utf8_valid (pos_bits p) = true.
Proof. induction p as [p IH|p IH|]; [exact IH..|reflexivity]. Qed.
