(* ===== verification/Slices.v ===== *)
(** * Slices: stable sort, de-duplication and binary search

    The slice operations of the standard library that the sources combine to
    index a vector by key: [sort_by], [dedup_by] and [binary_search_by], the
    last as the library's halving loop.  [index_lookup] is the law the callers
    rely on: in a vector sorted by key, reversed and de-duplicated, binary
    search finds the entry that came last. *)

From S2P Require Import Prelude.

(** ** Definitions *)

Section slices.
Context {A : Type}.

(** [sort_by] is stable: an element goes before the later ones not below it. *)
Fixpoint sort_insert (le : relation A) `{!RelDecision le} (x : A) (l : list A) : list A :=
  match l with
  | [] => [x]
  | y :: l' => if decide (le x y) then x :: y :: l' else y :: sort_insert le x l'
  end.

Definition sort_by (le : relation A) `{!RelDecision le} (l : list A) : list A :=
  foldr (sort_insert le) [] l.

(** [dedup_by]: an element goes when it is the same as the last one kept. *)
Fixpoint dedup_from (same : relation A) `{!RelDecision same} (kept : A) (l : list A) : list A :=
  match l with
  | [] => []
  | x :: l' =>
      if decide (same x kept) then dedup_from same kept l' else x :: dedup_from same x l'
  end.

Definition dedup_by (same : relation A) `{!RelDecision same} (l : list A) : list A :=
  match l with
  | [] => []
  | x :: l' => x :: dedup_from same x l'
  end.

(** The halving loop of [binary_search_by]; it runs while [size > 1]. *)
Fixpoint search_loop (fuel : nat) (f : A → comparison) (l : list A) (base size : nat) : option nat :=
  if (size <=? 1)%nat then Some base
  else match fuel with
  | O => None
  | S fuel =>
      let half := (size / 2)%nat in
      let mid := (base + half)%nat in
      x ← l !! mid;
      search_loop fuel f l (match f x with Gt => base | _ => mid end) (size - half)
  end.

Definition binary_search_by (f : A → comparison) (l : list A) : option nat :=
  i ← search_loop (length l) f l 0 (length l);
  x ← l !! i;
  match f x with Eq => Some i | _ => None end.
End slices.

(** [Vec::dedup]: consecutive repetitions removed. *)
Fixpoint dedup {A} `{EqDecision A} (l : list A) : list A :=
  match l with
  | x :: (y :: _) as l' => if decide (x = y) then dedup l' else x :: dedup l'
  | _ => l
  end.

Lemma dedup_cons {A} `{EqDecision A} (x y : A) l :
  dedup (x :: y :: l) = if decide (x = y) then dedup (y :: l) else x :: dedup (y :: l).
Proof. done. Qed.

Lemma elem_of_dedup {A} `{EqDecision A} (l : list A) x : x ∈ dedup l ↔ x ∈ l.
Proof.
  induction l as [|y [|z l] IH]; [done..|]. rewrite dedup_cons. case_decide as E.
  - subst y. rewrite IH. set_solver.
  - rewrite !(elem_of_cons _ x y), IH. done.
Qed.

Lemma dedup_sorted {A} `{EqDecision A} (R : relation A) `{!PartialOrder R} (l : list A) :
  StronglySorted R l → StronglySorted R (dedup l) ∧ NoDup (dedup l).
Proof.
  induction 1 as [|y l Hs IH Hy]; [split; constructor|]. destruct IH as [IHs IHn].
  destruct l as [|z l]; [split; repeat constructor; set_solver|]. rewrite dedup_cons.
  case_decide as E; [done|]. rewrite Forall_forall in Hy. split; constructor; try done.
  - apply Forall_forall. intros x Hx. apply Hy. by apply elem_of_dedup.
  - rewrite elem_of_dedup, elem_of_cons. intros [|Hin]; [done|]. destruct E.
    apply StronglySorted_inv in Hs as [_ Hz]. rewrite Forall_forall in Hz.
    apply (anti_symm R); [apply Hy; by left|by apply Hz].
Qed.

(** ** Binary search *)

Section search.
Context {A : Type} (f : A → comparison) (l : list A).
(** The elements below the target come first, those above it last. *)
Definition bisected : Prop := ∀ i j x y,
  (i < j)%nat → l !! i = Some x → l !! j = Some y → (f y = Lt → f x = Lt) ∧ (f x = Gt → f y = Gt).
Hypothesis Hb : bisected.

(** Everything before [base], and everything from [base + size], is settled. *)
Definition window (base size : nat) : Prop :=
  (base + size <= length l)%nat
  ∧ (∀ i x, l !! i = Some x → f x = Eq → ∃ j y, (base <= j < base + size)%nat ∧ l !! j = Some y ∧ f y = Eq).

Lemma window_step base size x :
  (1 < size)%nat → window base size → l !! (base + size / 2)%nat = Some x →
  window (match f x with Gt => base | _ => base + size / 2 end) (size - size / 2).
Proof.
  intros Hs [Hl Hw] Hx.
  assert (0 < size / 2 < size)%nat as Hh by (split; [apply Nat.div_str_pos; lia|apply Nat.div_lt; lia]).
  assert (size / 2 <= size - size / 2)%nat as Hhalf by (pose proof (Nat.Div0.mul_div_le size 2); lia).
  split; [destruct (f x); lia|]. intros i y Hi Hy. destruct (Hw i y Hi Hy) as (j & z & Hj & Hjz & Hz).
  destruct (f x) eqn:Efx.
  - exists (base + size / 2)%nat, x. split_and!; [lia..|done|done].
  - exists j, z. split_and!; [|lia|done|done].
    destruct (decide (j < base + size / 2)%nat) as [Hlt|]; [|lia].
    destruct (Hb _ _ _ _ Hlt Hjz Hx) as [H1 _]. specialize (H1 Efx). congruence.
  - exists j, z. split_and!; [lia| |done|done].
    destruct (decide (j < base + size / 2)%nat) as [Hlt|Hge]; [lia|].
    destruct (decide (j = base + size / 2)%nat) as [->|Hne]; [congruence|].
    destruct (Hb (base + size / 2)%nat j x z ltac:(lia) Hx Hjz) as [_ H2]. specialize (H2 Efx). congruence.
Qed.

Lemma search_loop_spec fuel base size :
  (size <= fuel)%nat → (0 < size)%nat → window base size →
  ∃ i, search_loop fuel f l base size = Some i ∧ window i 1.
Proof.
  revert base size. induction fuel as [|fuel IH]; intros base size Hf Hs Hw; [lia|].
  cbn [search_loop]. destruct (Nat.leb_spec size 1) as [Hle|Hgt].
  { exists base. split; [done|]. by replace 1%nat with size by lia. }
  assert (0 < size / 2 < size)%nat as Hh by (split; [apply Nat.div_str_pos; lia|apply Nat.div_lt; lia]).
  destruct (lookup_lt_is_Some_2 l (base + size / 2)) as [x Hx]; [destruct Hw; lia|].
  rewrite Hx. cbn [mbind option_bind]. apply IH; [lia..|]. by apply window_step.
Qed.

(** [binary_search_by] finds an element on target whenever there is one. *)
Lemma binary_search_by_spec :
  match binary_search_by f l with
  | Some i => ∃ x, l !! i = Some x ∧ f x = Eq
  | None => ∀ x, x ∈ l → f x ≠ Eq
  end.
Proof.
  unfold binary_search_by. destruct (decide (length l = 0)%nat) as [Hz|Hz].
  { apply nil_length_inv in Hz. rewrite Hz. cbn. set_solver. }
  destruct (search_loop_spec (length l) 0 (length l)) as (i & -> & [Hi Hw]); [lia..| |].
  { split; [lia|]. intros i x Hx Hf. exists i, x. apply lookup_lt_Some in Hx as ?. split_and!; [lia..|done|done]. }
  cbn [mbind option_bind]. destruct (lookup_lt_is_Some_2 l i) as [x Hx]; [lia|]. rewrite Hx. cbn.
  destruct (f x) eqn:Ef; [by exists x| |].
  all: intros y [j Hj]%list_elem_of_lookup_1 Hy; destruct (Hw j y Hj Hy) as (k & z & Hk & Hkz & ?);
    assert (k = i) as -> by lia; congruence.
Qed.
End search.

(** ** Indexing by key *)

Lemma sorted_lookup {A} (R : relation A) (l : list A) i j x y :
  StronglySorted R l → (i < j)%nat → l !! i = Some x → l !! j = Some y → R x y.
Proof.
  intros Hs Hij Hx Hy. rewrite <-(take_drop (S i) l) in Hs.
  apply (StronglySorted_app_1_elem_of _ _ _ x y Hs); apply list_elem_of_lookup.
  - exists i. by rewrite lookup_take_lt by lia.
  - exists (j - S i)%nat. rewrite lookup_drop. by replace (S i + (j - S i))%nat with j by lia.
Qed.

Section index.
Context {K V : Type} `{EqDecision K} `{!OrdKey K}.
Implicit Types (l : list (K * V)) (k : K).

Definition key_cmp (x y : K) : comparison :=
  if decide (x = y) then Eq else if decide (key_le x y) then Lt else Gt.

Definition by_key (x y : K * V) : Prop := key_le x.1 y.1.
#[export] Instance by_key_dec : RelDecision by_key.
Proof. unfold by_key. intros x y. apply _. Defined.
Definition same_key (x y : K * V) : Prop := x.1 = y.1.
#[export] Instance same_key_dec : RelDecision same_key.
Proof. unfold same_key. intros x y. apply _. Defined.

(** [sort_by], [reverse] and [dedup_by], as a vector is made an index. *)
Definition index_of l : list (K * V) := dedup_by same_key (reverse (sort_by by_key l)).

Definition index_get (index : list (K * V)) k : option V :=
  i ← binary_search_by (λ e, key_cmp k e.1) index; snd <$> index !! i.

Definition entries_at k l : list (K * V) := filter (λ e, e.1 = k) l.

Lemma sort_by_perm l : sort_by by_key l ≡ₚ l.
Proof.
  assert (∀ x l', sort_insert by_key x l' ≡ₚ x :: l') as Hins.
  { intros x l'. induction l' as [|y l' IH]; [done|]. cbn. case_decide; [done|]. rewrite IH. constructor. }
  induction l as [|x l IH]; [done|]. cbn. by rewrite Hins, IH.
Qed.

Lemma sort_by_sorted l : StronglySorted by_key (sort_by by_key l).
Proof.
  assert (∀ x l', StronglySorted by_key l' → StronglySorted by_key (sort_insert by_key x l')) as Hins.
  { intros x l' Hs. induction Hs as [|y l' Hs IH Hy]; cbn; [repeat constructor|].
    case_decide as Hle; constructor; [by constructor| |done|].
    - constructor; [done|]. eapply Forall_impl; [exact Hy|]. intros z Hz. unfold by_key in *. by etrans.
    - apply Forall_forall. intros z Hz. assert (z = x ∨ z ∈ l') as [->|Hz'].
      { revert Hz. clear. induction l' as [|a l' IH]; cbn; [set_solver|]. case_decide; set_solver. }
      + unfold by_key in *. by destruct (total key_le x.1 y.1).
      + rewrite Forall_forall in Hy. by apply Hy. }
  induction l as [|x l IH]; [constructor|]. by apply Hins.
Qed.

(** Stability: entries of one key keep their order. *)
Lemma entries_at_sort k l : entries_at k (sort_by by_key l) = entries_at k l.
Proof.
  assert (∀ x l', entries_at k (sort_insert by_key x l') = entries_at k (x :: l')) as Hins.
  { intros x l'. induction l' as [|y l' IH]; [done|]. cbn [sort_insert]. case_decide as Hle; [done|].
    unfold entries_at in *. rewrite filter_cons, IH, !filter_cons.
    destruct (decide (x.1 = k)), (decide (y.1 = k)); try done.
    exfalso. apply Hle. unfold by_key. by rewrite e, e0. }
  induction l as [|x l IH]; [done|].
  change (sort_by by_key (x :: l)) with (sort_insert by_key x (sort_by by_key l)).
  rewrite Hins. unfold entries_at in *. by rewrite !filter_cons, IH.
Qed.

Lemma entries_at_reverse k l : entries_at k (reverse l) = reverse (entries_at k l).
Proof.
  unfold entries_at. induction l as [|x l IH]; [done|].
  rewrite reverse_cons, filter_app, IH, !filter_cons. case_decide; by rewrite ?reverse_cons, ?app_nil_r.
Qed.

Definition falls (x y : K * V) : Prop := key_le y.1 x.1.
Definition strictly_falls (x y : K * V) : Prop := key_le y.1 x.1 ∧ x.1 ≠ y.1.

Lemma reverse_sorted l : StronglySorted by_key l → StronglySorted falls (reverse l).
Proof.
  induction 1 as [|x l Hs IH Hx]; [constructor|]. rewrite reverse_cons.
  apply StronglySorted_app_2; [|done|repeat constructor]. intros y z Hy ->%list_elem_of_singleton.
  rewrite elem_of_reverse in Hy. rewrite Forall_forall in Hx. by apply Hx.
Qed.

Lemma dedup_from_spec x l :
  StronglySorted falls (x :: l) →
  StronglySorted strictly_falls (x :: dedup_from same_key x l)
  ∧ ∀ k, entries_at k (x :: dedup_from same_key x l) = take 1 (entries_at k (x :: l)).
Proof.
  revert x. induction l as [|y l IH]; intros x [Hs Hx]%StronglySorted_inv.
  { split; [repeat constructor|]. intros k. unfold entries_at. cbn. by case_decide. }
  pose proof (Forall_inv Hx) as Hyx. pose proof (Forall_inv_tail Hx) as Hlx. cbn [dedup_from]. case_decide as Hk.
  - destruct (IH x) as [IH1 IH2]; [constructor; [by apply StronglySorted_inv in Hs as [? _]|done]|].
    split; [done|]. intros k. rewrite IH2. unfold entries_at. rewrite !filter_cons.
    unfold same_key in Hk. rewrite Hk. by case_decide.
  - destruct (IH y Hs) as [IH1 IH2].
    assert (strictly_falls x y) as Hxy by (split; [done|]; intros E; by apply Hk).
    split.
    + constructor; [done|]. apply StronglySorted_inv in IH1 as [_ Hf]. constructor; [done|].
      eapply Forall_impl; [exact Hf|]. intros z [Hzy Hne]. destruct Hxy as [Hle Hne'].
      split; [by etrans|]. intros E. apply Hne', (anti_symm key_le); [by rewrite E|done].
    + intros k. unfold entries_at in *. rewrite (filter_cons _ x), (filter_cons _ x (y :: l)), IH2.
      case_decide as Ek; [|done]. destruct Hxy as [_ Hne].
      cut (filter (λ e, e.1 = k) (y :: l) = []); [by intros ->|].
      apply filter_none. intros z Hz Ez. apply Hne. subst k.
      apply (anti_symm key_le); [|done].
      apply elem_of_cons in Hz as [->|Hz]; [by rewrite Ez|].
      rewrite <-Ez. apply StronglySorted_inv in Hs as [_ Hf]. rewrite Forall_forall in Hf. by apply Hf.
Qed.

Lemma index_of_spec l :
  StronglySorted strictly_falls (index_of l)
  ∧ ∀ k, entries_at k (index_of l) = take 1 (reverse (entries_at k l)).
Proof.
  unfold index_of. pose proof (reverse_sorted _ (sort_by_sorted l)) as Hs.
  assert (∀ k, entries_at k (reverse (sort_by by_key l)) = reverse (entries_at k l)) as He.
  { intros k. by rewrite entries_at_reverse, entries_at_sort. }
  destruct (reverse (sort_by by_key l)) as [|x r] eqn:Er.
  - split; [constructor|]. intros k. by rewrite <-He.
  - destruct (dedup_from_spec x r Hs) as [H1 H2]. split; [done|]. intros k. by rewrite <-He, <-H2.
Qed.

Lemma falls_bisected l k :
  StronglySorted strictly_falls l → bisected (λ e, key_cmp k e.1) l.
Proof.
  intros Hs i j x y Hij Hx Hy. destruct (sorted_lookup _ _ _ _ _ _ Hs Hij Hx Hy) as [Hle Hne].
  unfold key_cmp. split.
  - case_decide; [done|]. case_decide as Hky; [|done]. intros _.
    rewrite decide_False; [|intros ->; by apply Hne, (anti_symm key_le)].
    rewrite decide_True; [done|by etrans].
  - case_decide; [done|]. case_decide as Hkx; [done|]. intros _.
    rewrite decide_False; [|by intros ->]. rewrite decide_False; [done|]. intros Hky. apply Hkx. by etrans.
Qed.

Lemma rising_bisected (l : list K) x :
  StronglySorted key_le l → bisected (λ p, key_cmp p x) l.
Proof.
  intros Hs i j y z Hij Hy Hz.
  pose proof (sorted_lookup _ _ _ _ _ _ Hs Hij Hy Hz) as Hle.
  unfold key_cmp. split.
  - case_decide; [done|]. case_decide as Hzx; [|done]. intros _. rewrite decide_False, decide_True; [done|by etrans|].
    intros ->. assert (x = z) by by apply (anti_symm key_le). congruence.
  - case_decide; [done|]. case_decide as Hyx; [done|]. intros _. rewrite decide_False, decide_False; [done| |].
    + intros Hzx. apply Hyx. by etrans.
    + by intros ->.
Qed.

Lemma key_cmp_eq x y : key_cmp x y = Eq ↔ x = y.
Proof. unfold key_cmp. repeat case_decide; naive_solver. Qed.

(** Looking a key up in the index gives the last entry of the vector with it. *)
Lemma index_lookup l k : index_get (index_of l) k = snd <$> last (entries_at k l).
Proof.
  destruct (index_of_spec l) as [Hs He]. specialize (He k). unfold index_get.
  pose proof (binary_search_by_spec _ _ (falls_bisected _ k Hs)) as Hb.
  rewrite <-(reverse_involutive (entries_at k l)), last_reverse.
  destruct (binary_search_by (λ e, key_cmp k e.1) (index_of l)) as [i|]; cbn [mbind option_bind].
  - destruct Hb as (x & Hx & Hk%key_cmp_eq). rewrite Hx. cbn.
    assert (x ∈ entries_at k (index_of l)) as Hin.
    { apply list_elem_of_filter. split; [done|]. by eapply list_elem_of_lookup_2. }
    rewrite He in Hin. destruct (reverse (entries_at k l)) as [|z r]; [by apply elem_of_nil in Hin|].
    cbn in Hin. rewrite take_0 in Hin. apply list_elem_of_singleton in Hin. by subst.
  - destruct (reverse (entries_at k l)) as [|z r]; [done|]. exfalso.
    assert (z ∈ entries_at k (index_of l)) as [Hk Hin]%list_elem_of_filter by (rewrite He; by left).
    apply (Hb z Hin). by apply key_cmp_eq.
Qed.
End index.

(** ** Tagged lists *)

Lemma last_app_or {A} (l1 l2 : list A) :
  last (l1 ++ l2) = match last l2 with Some x => Some x | None => last l1 end.
Proof. rewrite last_app. by destruct (last l2). Qed.

Lemma tagged_last {K V} `{EqDecision K} (f : K → option V) (ts : list K) (k : K) :
  snd <$> last (entries_at k (omap (λ k, pair k <$> f k) ts)) = if decide (k ∈ ts) then f k else None.
Proof.
  unfold entries_at. induction ts as [|k' ts IH] using rev_ind; [done|].
  rewrite omap_app, filter_app, last_app_or. cbn [omap list_omap].
  destruct (decide (k' = k)) as [->|Hne].
  - rewrite decide_True by set_solver. destruct (f k) as [v|]; cbn.
    + by rewrite decide_True.
    + rewrite IH. by case_decide.
  - assert (last (filter (λ e, e.1 = k) (match pair k' <$> f k' with Some y => [y] | None => [] end)) = None) as ->.
    { destruct (f k'); [|done]. cbn. by rewrite decide_False. }
    rewrite IH. destruct (decide (k ∈ ts)); [by rewrite decide_True by set_solver|by rewrite decide_False by set_solver].
Qed.
