(* ===== verification/SetOps.v ===== *)
(** * Set operations on streams ([src/src/core/utils/set])

    Streams are lists that are always ready.  The two-stream operations are the
    source's machines: a state with a cached head of each stream, and
    [poll_next], whose loop is bounded by the elements left; [collect] polls
    until there is nothing more. *)

From S2P Require Import Prelude Slices.

(** ** Definitions *)

Section ops.
Context {A : Type} `{EqDecision A} `{!OrdKey A}.
Implicit Types (l : list A) (x t : A).

(** [intersection]: the elements of the first input that all others have. *)
Definition intersection (input : list (list A)) : list A :=
  match input with
  | [] => []
  | first :: others => filter (λ t, forallb (existsb (λ x, bool_decide (x = t))) others = true) first
  end.

(** [skip_while(..).peekable().peek()] takes the element it looks at out of the
    iterator. *)
Fixpoint skip_less t l : list A :=
  match l with
  | [] => []
  | x :: l' => match key_cmp x t with Lt => skip_less t l' | _ => l end
  end.

Definition next_is t l : bool * list A :=
  match skip_less t l with
  | [] => (false, [])
  | x :: l' => (bool_decide (x = t), l')
  end.

(** [all] stops at the first input that does not have the element. *)
Fixpoint all_next t (others : list (list A)) : bool * list (list A) :=
  match others with
  | [] => (true, [])
  | l :: others' =>
      match next_is t l with
      | (true, l') => let r := all_next t others' in (r.1, l' :: r.2)
      | (false, l') => (false, l' :: others')
      end
  end.

Fixpoint filter_all_next (first : list A) (others : list (list A)) : list A :=
  match first with
  | [] => []
  | t :: first' =>
      let r := all_next t others in
      if r.1 then t :: filter_all_next first' r.2 else filter_all_next first' r.2
  end.

Definition intersection_sorted (input : list (list A)) : list A :=
  match input with
  | [] => []
  | first :: others => filter_all_next first others
  end.

(** The state of a two-stream operation. *)
Record Streams := mkStreams { str_a : list A; str_b : list A; peeked_a : option A; peeked_b : option A }.

Definition streams_new l l' : Streams := mkStreams l l' None None.

(** Fills the cached head. *)
Definition poll_head l (peeked : option A) : option A * list A :=
  match peeked with
  | Some x => (Some x, l)
  | None => match l with [] => (None, []) | x :: l' => (Some x, l') end
  end.

Inductive Polled := Item (x : A) (s : Streams) | Done | Unfinished.

Fixpoint intersection_poll (fuel : nat) (s : Streams) : Polled :=
  match fuel with
  | O => Unfinished
  | S fuel =>
      match poll_head (str_a s) (peeked_a s) with
      | (None, _) => Done
      | (Some a, la) =>
          match poll_head (str_b s) (peeked_b s) with
          | (None, _) => Done
          | (Some b, lb) =>
              match key_cmp a b with
              | Gt => intersection_poll fuel (mkStreams la lb (Some a) None)
              | Lt => intersection_poll fuel (mkStreams la lb None (Some b))
              | Eq => Item a (mkStreams la lb None None)
              end
          end
      end
  end.

Fixpoint difference_poll (fuel : nat) (s : Streams) : Polled :=
  match fuel with
  | O => Unfinished
  | S fuel =>
      match poll_head (str_a s) (peeked_a s) with
      | (None, _) => Done
      | (Some a, la) =>
          match poll_head (str_b s) (peeked_b s) with
          | (None, lb) => Item a (mkStreams la lb None None)
          | (Some b, lb) =>
              match key_cmp a b with
              | Lt => Item a (mkStreams la lb None (Some b))
              | Gt => difference_poll fuel (mkStreams la lb (Some a) None)
              | Eq => difference_poll fuel (mkStreams la lb None None)
              end
          end
      end
  end.

(** The elements left. *)
Definition left_a (s : Streams) : list A := option_list (peeked_a s) ++ str_a s.
Definition left_b (s : Streams) : list A := option_list (peeked_b s) ++ str_b s.
Definition remaining (s : Streams) : nat := length (left_a s) + length (left_b s).

Fixpoint collect (poll : nat → Streams → Polled) (fuel : nat) (s : Streams) : option (list A) :=
  match fuel with
  | O => None
  | S fuel =>
      match poll (S (remaining s)) s with
      | Item x s' => cons x <$> collect poll fuel s'
      | Done => Some []
      | Unfinished => None
      end
  end.

Definition intersection_sorted_stream2 l l' : option (list A) :=
  collect intersection_poll (S (length l + length l')) (streams_new l l').
Definition difference_sorted_stream2 l l' : option (list A) :=
  collect difference_poll (S (length l + length l')) (streams_new l l').
End ops.
#[global] Arguments Streams : clear implicits.
#[global] Arguments Polled : clear implicits.

(** ** Multiplicities *)

Section multiplicity.
Context {A : Type} `{EqDecision A} `{!OrdKey A}.
Implicit Types (l : list A) (x y : A) (s : Streams A).

Definition copies y l : nat := length (filter (λ z, z = y) l).

Lemma copies_cons y x l : copies y (x :: l) = ((if decide (x = y) then 1 else 0) + copies y l)%nat.
Proof. unfold copies. rewrite filter_cons. by case_decide. Qed.

Lemma copies_zero y l : y ∉ l → copies y l = 0%nat.
Proof. intros Hy. unfold copies. rewrite filter_none; [done|]. by intros z Hz ->. Qed.

Lemma copies_pos y l : (0 < copies y l)%nat ↔ y ∈ l.
Proof. unfold copies. rewrite filter_length_pos. naive_solver. Qed.

Abbreviation sorted := (StronglySorted key_le).

Lemma below_absent x y l : sorted (x :: l) → key_le y x → y ≠ x → y ∉ x :: l.
Proof.
  intros [_ Hall]%StronglySorted_inv Hle Hne [?|Hin]%elem_of_cons; [done|]. rewrite Forall_forall in Hall.
  apply Hne, (anti_symm key_le); [done|by apply Hall].
Qed.

Lemma key_cmp_lt x y : key_cmp x y = Lt → key_le x y ∧ x ≠ y.
Proof. unfold key_cmp. by repeat case_decide. Qed.

Lemma key_cmp_gt x y : key_cmp x y = Gt → key_le y x ∧ y ≠ x.
Proof.
  unfold key_cmp. case_decide; [done|]. case_decide as Hle; [done|]. intros _. split; [|congruence].
  by destruct (total key_le x y).
Qed.

Lemma poll_head_some l p a l' : poll_head l p = (Some a, l') → option_list p ++ l = a :: l'.
Proof. destruct p; cbn; [by intros [= -> ->]|]. destruct l; by intros [= -> ->]. Qed.

Lemma poll_head_none l p l' : poll_head l p = (None, l') → option_list p ++ l = [] ∧ l' = [].
Proof. destruct p; cbn; [done|]. destruct l; by intros [= <-]. Qed.

(** What a poll may give when [op] tells the copies of an element that are left
    in the output from the copies in the two inputs. *)
Definition total (op : nat → nat → nat) s y : nat := op (copies y (left_a s)) (copies y (left_b s)).

Definition polled_ok (op : nat → nat → nat) s (r : Polled A) : Prop :=
  match r with
  | Item x s' => sorted (left_a s') ∧ sorted (left_b s') ∧ (remaining s' < remaining s)%nat ∧ Forall (key_le x) (left_a s')
      ∧ ∀ y, total op s y = (copies y [x] + total op s' y)%nat
  | Done => ∀ y, total op s y = 0%nat
  | Unfinished => False
  end.

Definition polls_as (op : nat → nat → nat) (poll : nat → Streams A → Polled A) : Prop :=
  ∀ fuel s, sorted (left_a s) → sorted (left_b s) → (remaining s < fuel)%nat → polled_ok op s (poll fuel s).

Lemma polled_shift op s s' r :
  (∀ y, total op s y = total op s' y) → (remaining s' <= remaining s)%nat → polled_ok op s' r → polled_ok op s r.
Proof.
  intros Ht Hl. destruct r as [x s''| |]; unfold polled_ok; [|by intros Hd y; rewrite Ht|done].
  intros (? & ? & ? & ? & Hy). split_and!; [done|done|lia|done|]. intros y. by rewrite Ht.
Qed.

(** The heads of both streams, with what is left behind them. *)
Lemma heads_left s a la b lb :
  poll_head (str_a s) (peeked_a s) = (Some a, la) → poll_head (str_b s) (peeked_b s) = (Some b, lb) →
  left_a s = a :: la ∧ left_b s = b :: lb ∧ remaining s = S (S (length la + length lb)).
Proof.
  intros Ea%poll_head_some Eb%poll_head_some. unfold remaining, left_a, left_b. rewrite Ea, Eb. cbn. split_and!; [done|done|lia].
Qed.

Lemma copies_one y x : copies y [x] = if decide (x = y) then 1%nat else 0%nat.
Proof. rewrite copies_cons. unfold copies. cbn. by case_decide. Qed.

Lemma intersection_polls : polls_as Nat.min intersection_poll.
Proof.
  intros fuel. induction fuel as [|fuel IH]; intros s Ha Hb Hf; [lia|]. cbn [intersection_poll].
  destruct (poll_head (str_a s) (peeked_a s)) as [[a|] la] eqn:Ea.
  2: { apply poll_head_none in Ea as [Ea _]. intros y. unfold total, left_a. by rewrite Ea. }
  destruct (poll_head (str_b s) (peeked_b s)) as [[b|] lb] eqn:Eb.
  2: { apply poll_head_none in Eb as [Eb _]. intros y. unfold total, left_b. rewrite Eb. cbn. lia. }
  destruct (heads_left s a la b lb Ea Eb) as (Hla & Hlb & Hl). rewrite Hla in Ha. rewrite Hlb in Hb.
  pose proof Ha as [Ha' Hall]%StronglySorted_inv. pose proof Hb as [Hb' _]%StronglySorted_inv.
  destruct (key_cmp a b) eqn:Hc.
  - apply key_cmp_eq in Hc as <-. unfold polled_ok. split_and!; [done|done|rewrite Hl; unfold remaining; cbn; lia|done|].
    intros y. unfold total. rewrite Hla, Hlb, (copies_cons y a la), (copies_cons y a lb), copies_one.
    cbn -[copies Nat.min Nat.add]. case_decide; lia.
  - apply key_cmp_lt in Hc as [Hle Hne]. pose proof (copies_zero a _ (below_absent b a lb Hb Hle Hne)) as Hn.
    apply (polled_shift _ _ (mkStreams la lb None (Some b))).
    + intros y. unfold total. rewrite Hla, Hlb, (copies_cons y a la). cbn -[copies Nat.min Nat.sub Nat.add]. case_decide; [subst y; rewrite Hn; lia|done].
    + rewrite Hl. unfold remaining. cbn. lia.
    + apply IH; [done..|]. unfold remaining in *. cbn. lia.
  - apply key_cmp_gt in Hc as [Hle Hne]. pose proof (copies_zero b _ (below_absent a b la Ha Hle Hne)) as Hn.
    apply (polled_shift _ _ (mkStreams la lb (Some a) None)).
    + intros y. unfold total. rewrite Hla, Hlb, (copies_cons y b lb). cbn -[copies Nat.min Nat.sub Nat.add]. case_decide; [subst y; rewrite Hn; lia|done].
    + rewrite Hl. unfold remaining. cbn. lia.
    + apply IH; [done..|]. unfold remaining in *. cbn. lia.
Qed.

Lemma difference_polls : polls_as Nat.sub difference_poll.
Proof.
  intros fuel. induction fuel as [|fuel IH]; intros s Ha Hb Hf; [lia|]. cbn [difference_poll].
  destruct (poll_head (str_a s) (peeked_a s)) as [[a|] la] eqn:Ea.
  2: { apply poll_head_none in Ea as [Ea _]. intros y. unfold total, left_a. by rewrite Ea. }
  destruct (poll_head (str_b s) (peeked_b s)) as [[b|] lb] eqn:Eb.
  2: { apply poll_head_some in Ea. apply poll_head_none in Eb as [Eb ->]. unfold left_a in Ha. rewrite Ea in Ha.
    apply StronglySorted_inv in Ha as [Ha' Hall]. unfold polled_ok. split_and!; [done|constructor| |done|].
    - unfold remaining, left_a, left_b. rewrite Ea, Eb. cbn. lia.
    - intros y. unfold total, left_a, left_b. rewrite Ea, Eb, (copies_cons y a la), copies_one. cbn -[copies Nat.sub Nat.add].
      change (copies y []) with 0%nat. lia. }
  destruct (heads_left s a la b lb Ea Eb) as (Hla & Hlb & Hl). rewrite Hla in Ha. rewrite Hlb in Hb.
  pose proof Ha as [Ha' Hall]%StronglySorted_inv. pose proof Hb as [Hb' _]%StronglySorted_inv.
  destruct (key_cmp a b) eqn:Hc.
  - apply key_cmp_eq in Hc as <-. apply (polled_shift _ _ (mkStreams la lb None None)).
    + intros y. unfold total. rewrite Hla, Hlb, !copies_cons. cbn -[copies Nat.sub Nat.add]. lia.
    + rewrite Hl. unfold remaining. cbn. lia.
    + apply IH; [done..|]. unfold remaining in *. cbn. lia.
  - apply key_cmp_lt in Hc as [Hle Hne]. pose proof (copies_zero a _ (below_absent b a lb Hb Hle Hne)) as Hn.
    unfold polled_ok. split_and!; [done|done|rewrite Hl; unfold remaining; cbn; lia|done|].
    intros y. unfold total. rewrite Hla, Hlb, (copies_cons y a la), copies_one. cbn -[copies Nat.min Nat.sub Nat.add]. case_decide; [subst y; rewrite Hn; lia|done].
  - apply key_cmp_gt in Hc as [Hle Hne]. pose proof (copies_zero b _ (below_absent a b la Ha Hle Hne)) as Hn.
    apply (polled_shift _ _ (mkStreams la lb (Some a) None)).
    + intros y. unfold total. rewrite Hla, Hlb, (copies_cons y b lb). cbn -[copies Nat.min Nat.sub Nat.add]. case_decide; [subst y; rewrite Hn; lia|done].
    + rewrite Hl. unfold remaining. cbn. lia.
    + apply IH; [done..|]. unfold remaining in *. cbn. lia.
Qed.

(** Collecting ends, in order, with the copies [op] gives. *)
Lemma collect_polls op poll fuel s :
  polls_as op poll → (∀ n m, op n m <= n)%nat → sorted (left_a s) → sorted (left_b s) → (remaining s < fuel)%nat →
  ∃ out, collect poll fuel s = Some out ∧ sorted out ∧ ∀ y, copies y out = total op s y.
Proof.
  intros Hp Hop. revert s. induction fuel as [|fuel IH]; intros s Ha Hb Hf; [lia|]. cbn [collect].
  pose proof (Hp (S (remaining s)) s Ha Hb ltac:(lia)) as Hs. destruct (poll (S (remaining s)) s) as [x s'| |]; unfold polled_ok in Hs; [|by exists []; split_and!; [|constructor|]|done].
  destruct Hs as (Ha' & Hb' & Hl & Hall & Ht). destruct (IH s' Ha' Hb' ltac:(lia)) as (out & -> & Hso & Hc).
  exists (x :: out). split; [done|]. split.
  - constructor; [done|]. apply Forall_forall. intros y Hy%copies_pos. rewrite Hc in Hy. unfold total in Hy.
    specialize (Hop (copies y (left_a s')) (copies y (left_b s'))). rewrite Forall_forall in Hall. apply Hall, copies_pos. lia.
  - intros y. by rewrite Ht, <-Hc, (copies_cons y x out), copies_one.
Qed.
End multiplicity.

(** ** Sorted intersection *)

Section sorted_intersection.
Context {A : Type} `{EqDecision A} `{!OrdKey A}.
Implicit Types (l : list A) (x t : A).

Lemma skip_less_sublist t l : skip_less t l `sublist_of` l.
Proof. induction l as [|x l IH]; cbn; [done|]. destruct (key_cmp x t); [done|by apply sublist_cons|done]. Qed.

Lemma next_is_sound t l : (next_is t l).2 `sublist_of` l ∧ ((next_is t l).1 = true → t ∈ l).
Proof.
  unfold next_is. pose proof (skip_less_sublist t l) as Hs. destruct (skip_less t l) as [|x l']; cbn.
  { split; [apply sublist_nil_l|done]. }
  split; [etrans; [|exact Hs]; by apply sublist_cons|]. intros ->%bool_decide_eq_true_1. eapply elem_of_submseteq; [|by apply sublist_submseteq]. by left.
Qed.

Lemma all_next_sound t others :
  Forall2 sublist (all_next t others).2 others ∧ ((all_next t others).1 = true → Forall (λ l, t ∈ l) others).
Proof.
  induction others as [|l others [IH1 IH2]]; cbn; [by repeat constructor|].
  destruct (next_is_sound t l) as [Hs Ht]. destruct (next_is t l) as [[] l']; cbn in *.
  - split; [by constructor|]. intros Hr. constructor; [by apply Ht|by apply IH2].
  - split; [|done]. constructor; [done|]. apply Forall2_same_length_lookup_2; [done|].
    intros i x y Hx Hy. by simplify_eq.
Qed.

Lemma filter_all_next_sound first others x :
  x ∈ filter_all_next first others → x ∈ first ∧ Forall (λ l, x ∈ l) others.
Proof.
  revert others. induction first as [|t first IH]; intros others; cbn; [by intros ?%elem_of_nil|].
  destruct (all_next_sound t others) as [Hsub Hall]. set (r := all_next t others) in *.
  assert (x ∈ filter_all_next first r.2 → x ∈ first ∧ Forall (λ l, x ∈ l) others) as Hrest.
  { intros [Hf Ho]%IH. split; [done|]. clear -Hsub Ho. induction Hsub as [|l l' ls ls' Hl Hsub IH]; [constructor|].
    apply Forall_cons in Ho as [Hx Ho]. constructor; [|by apply IH]. by eapply elem_of_submseteq; [|apply sublist_submseteq]. }
  destruct r.1 eqn:Hr; [|intros Hx; destruct (Hrest Hx); split; [by right|done]].
  intros [->|Hx]%elem_of_cons; [split; [by left|by apply Hall]|]. destruct (Hrest Hx). split; [by right|done].
Qed.
End sorted_intersection.

(** ** Properties *)

(** The two-stream operations are multiset operations: on ascending streams
    both end, in order, the intersection with as many copies of each element as
    the stream with fewer of them has, the difference with the copies of the
    first stream less those of the second. *)
Theorem sorted_streams_exact {A} `{EqDecision A, !OrdKey A} (a b : list A) :
  StronglySorted key_le a → StronglySorted key_le b →
  (∃ out, intersection_sorted_stream2 a b = Some out ∧ StronglySorted key_le out
    ∧ ∀ y, copies y out = Nat.min (copies y a) (copies y b))
  ∧ (∃ out, difference_sorted_stream2 a b = Some out ∧ StronglySorted key_le out
    ∧ ∀ y, copies y out = (copies y a - copies y b)%nat).
Proof.
  intros Ha Hb. split.
  - apply (collect_polls Nat.min _ _ (streams_new a b) intersection_polls); [lia|done..|unfold remaining; cbn; lia].
  - apply (collect_polls Nat.sub _ _ (streams_new a b) difference_polls); [lia|done..|unfold remaining; cbn; lia].
Qed.

Lemma sorted_streams_exact_witness :
  ∃ out, difference_sorted_stream2 [1; 1; 2; 4]%N [1; 3; 4]%N = Some out ∧ StronglySorted key_le out
    ∧ ∀ y, copies y out = (copies y [1; 1; 2; 4]%N - copies y [1; 3; 4]%N)%nat.
Proof. apply (sorted_streams_exact [1; 1; 2; 4]%N [1; 3; 4]%N); by repeat constructor. Defined.

(** The intersection of any inputs has the elements of the first that all
    others have, in the order of the first. *)
Theorem intersection_exact {A} `{EqDecision A} (first : list A) (others : list (list A)) :
  intersection (first :: others) `sublist_of` first
  ∧ ∀ x, x ∈ intersection (first :: others) ↔ x ∈ first ∧ Forall (λ l, x ∈ l) others.
Proof.
  split; [apply sublist_filter|]. intros x. cbn. rewrite list_elem_of_filter, Forall_forall, forallb_forall. split.
  - intros [Hall Hx]. split; [done|]. intros l Hl%list_elem_of_In. apply Hall, existsb_exists in Hl as (y & Hy & ->%bool_decide_eq_true_1).
    by apply list_elem_of_In.
  - intros [Hx Hall]. split; [|done]. intros l Hl%list_elem_of_In. apply existsb_exists. exists x.
    split; [by apply list_elem_of_In, Hall|by apply bool_decide_eq_true_2].
Qed.

(** The intersection of sorted inputs gives no element that is not in all
    of them, but it can miss one: looking at the next element of an input takes
    it out, so an element above the one looked for is lost to the next one. *)
Theorem intersection_sorted_misses :
  (∀ (first : list N) others x, x ∈ intersection_sorted (first :: others) → x ∈ first ∧ Forall (λ l, x ∈ l) others)
  ∧ intersection_sorted [[1; 2]; [2]]%N = [] ∧ intersection [[1; 2]; [2]]%N = [2]%N.
Proof. split; [|done]. intros first others x. apply filter_all_next_sound. Qed.
