(* ===== verification/DbCodec.v ===== *)
(** * The database key and value format
    ([src/src/database/ser.rs], [de.rs], [keyval.rs])

    The serde serializer and deserializer of the tables.  [Ser] is the sequence
    of calls a [Serialize] implementation makes, [De] the calls of a
    [Deserialize] implementation; JSON and CBOR text comes from third-party
    encoders and is carried as it is.  Buffers grow as needed.  Assertions of
    debug builds, and the [depth] and [fin] fields they use, are left out. *)

From S2P Require Import Prelude Bytes.

Local Set Warnings "-register-all".

(** [unhandled!] panics, and so does a slice out of bounds. *)
Inductive Fault := Unhandled | OutOfBounds | OutOfFuel | SerdeSer | SerdeDe | Utf8 | InvalidLength | InvalidValue.

(** Record separator: a byte no UTF-8 string has. *)
Definition SEP : ascii := "255"%char.
Definition sep_str : string := String SEP EmptyString.

(** ** [ser.rs] *)

Inductive Ser :=
  | SStr (s : string)
  | SBytes (s : string)
  | SI64 (z : Z)
  | SI32 (z : Z)
  | SU64 (n : N)
  | SU32 (n : N)
  | SU8 (n : N)
  | SNone
  | SSome (v : Ser)
  | SSeq (l : list Ser)
  | STuple (l : list Ser)
  (** [Json] and [Cbor] around a value: what the encoder makes of it. *)
  | SNewtype (name : string) (text : option string)
  | SUnitStruct (name : string)
  (** Booleans, floats, maps, structs, variants, [i8], [i16], [u16], unit. *)
  | SUnhandled.

Record Serializer := mkSerializer { ser_out : string; ser_sep : bool }.

Definition i64_to_be_bytes (z : Z) : string := be_encode 8 (Z.to_N (z mod 2 ^ 64)).
Definition i32_to_be_bytes (z : Z) : string := be_encode 4 (Z.to_N (z mod 2 ^ 32)).

Definition ser_write (st : Serializer) (buf : string) (sep : bool) : Serializer :=
  mkSerializer (ser_out st +:+ buf) sep.

Definition separator (st : Serializer) : Serializer := ser_write st sep_str (ser_sep st).

(** [record_start]: a separator where the last record calls for one. *)
Definition ser_record_start (st : Serializer) : Serializer :=
  let st' := mkSerializer (ser_out st) true in
  if ser_sep st then separator st' else st'.

Definition set_sep (b : bool) (st : Serializer) : Serializer := mkSerializer (ser_out st) b.

(** The elements of a sequence; after each one of a tuple a separator is due. *)
Fixpoint serialize_elements (tuple : bool) (l : list (Serializer → Result Fault Serializer))
    (st : Serializer) : Result Fault Serializer :=
  match l with
  | [] => Ok st
  | f :: l' =>
      let? st := f (ser_record_start st) in
      serialize_elements tuple l' (if tuple then set_sep true st else st)
  end.

Fixpoint serialize_value (v : Ser) (st : Serializer) : Result Fault Serializer :=
  match v with
  | SStr s | SBytes s => Ok (ser_write st s true)
  | SI64 z => Ok (ser_write st (i64_to_be_bytes z) false)
  | SI32 z => Ok (ser_write st (i32_to_be_bytes z) false)
  | SU64 n => Ok (ser_write st (u64_to_be_bytes n) false)
  | SU32 n => Ok (ser_write st (u32_to_be_bytes n) false)
  | SU8 n => Ok (ser_write st (be_encode 1 n) false)
  | SNone => Ok st
  | SSome v => serialize_value v st
  | SSeq l =>
      let? st := serialize_elements false (map serialize_value l) (set_sep false st) in
      Ok (set_sep false st)
  | STuple l =>
      let? st := serialize_elements true (map serialize_value l) (set_sep false st) in
      Ok (set_sep false st)
  | SNewtype name text =>
      if decide (name = "Json" ∨ name = "Cbor") then
        match text with Some t => Ok (ser_write st t (ser_sep st)) | None => Err SerdeSer end
      else Err Unhandled
  | SUnitStruct name =>
      if decide (name = "Interfix") then Ok st
      else if decide (name = "Separator") then Ok (separator st)
      else Err Unhandled
  | SUnhandled => Err Unhandled
  end.

Definition serialize_to_vec (v : Ser) : Result Fault string :=
  let? st := serialize_value v (mkSerializer "" false) in Ok (ser_out st).

(** ** [de.rs] *)

Inductive De :=
  (** [&str], [String] and the typed identifiers, which check the string. *)
  | DStr (accepts : string → bool)
  | DBytes
  | DI64
  | DU64
  | DOption (t : De)
  | DTuple (ts : list De)
  | DSeq (t : De)
  | DNewtype (t : De)
  (** [Json] and [Cbor]; a map or struct; [serde_json::Value]. *)
  | DJson
  | DMap
  | DAny
  | DIgnore
  | DIgnoreAll
  | DUnhandled.

Inductive DeValue :=
  | VStr (s : string)
  | VBytes (s : string)
  | VI64 (z : Z)
  | VU64 (n : N)
  | VNone
  | VSome (v : DeValue)
  | VTuple (l : list DeValue)
  | VSeq (l : list DeValue)
  | VJson (text : string)
  | VUnit.

Record Deserializer := mkDeserializer { de_buf : string; de_pos : nat; de_rec : nat; de_seq : nat }.

Section de.
(** Whether the third-party parser accepts a text for the target type. *)
Variable parses : string → bool.
Implicit Types (st : Deserializer).

Definition inc_pos (n : nat) st : Deserializer :=
  mkDeserializer (de_buf st) (de_pos st + n) (de_rec st) (de_seq st).
Definition inc_rec st : Deserializer :=
  mkDeserializer (de_buf st) (de_pos st) (S (de_rec st)) (de_seq st).
Definition sequence_start (len : nat) st : Deserializer :=
  mkDeserializer (de_buf st) (de_pos st) (de_rec st) len.

(** [self.buf[self.pos..]] *)
Definition de_rest st : Result Fault string :=
  if (de_pos st <=? String.length (de_buf st))%nat then Ok (str_drop (de_pos st) (de_buf st))
  else Err OutOfBounds.

(** The bytes before the first separator. *)
Fixpoint before_sep (s : string) : string :=
  match s with
  | EmptyString => EmptyString
  | String c s' => if decide (c = SEP) then EmptyString else String c (before_sep s')
  end.

Definition record_next st : Result Fault (string * Deserializer) :=
  let? rest := de_rest st in
  let record := before_sep rest in
  Ok (record, inc_pos (String.length record) st).

Definition record_trail st : Result Fault (string * Deserializer) :=
  let? rest := de_rest st in Ok (rest, inc_pos (String.length rest) st).

Definition record_ignore st : Result Fault Deserializer :=
  let? r := (if (0 <? de_seq st)%nat then record_next st else record_trail st) in Ok r.2.

Definition started st : bool := negb (de_pos st =? 0)%nat || (0 <? de_rec st)%nat.
Definition input_done st : bool := (String.length (de_buf st) <=? de_pos st)%nat.
Definition output_done st : bool := (de_seq st <=? de_rec st)%nat.

Definition record_start st : Deserializer :=
  let incomplete := input_done st && negb (output_done st) in
  inc_rec (inc_pos (if started st && negb incomplete then 1 else 0) st).

(** The byte after the separator, or the first byte of the input. *)
Definition record_peek_byte st : Result Fault (option ascii) :=
  let? rest := de_rest st in Ok (String.get (if started st then 1 else 0) rest).

(** Eight bytes; fewer are an underflow. *)
Definition take_be8 st : Result Fault (N * Deserializer) :=
  let? rest := de_rest st in
  match from_be_bytes 8 (str_take 8 rest) with
  | Some n => Ok (n, inc_pos 8 st)
  | None => Err SerdeDe
  end.

Definition i64_from_u64 (n : N) : Z := if (n <? 2 ^ 63)%N then Z.of_N n else (Z.of_N n - 2 ^ 64)%Z.

Definition deserialize_str (accepts : string → bool) st : Result Fault (DeValue * Deserializer) :=
  let? r := record_next st in
  match from_utf8 r.1 with
  | None => Err Utf8
  | Some s => if accepts s then Ok (VStr s, r.2) else Err InvalidValue
  end.

Definition deserialize_json (r : string * Deserializer) : Result Fault (DeValue * Deserializer) :=
  if parses r.1 then Ok (VJson r.1, r.2) else Err SerdeDe.

(** [next_element_seed], for an element that [de] reads. *)
Definition next_element (de : Deserializer → Result Fault (DeValue * Deserializer)) st :
    Result Fault (option DeValue * Deserializer) :=
  if input_done st && output_done st then Ok (None, st)
  else let? r := de (record_start st) in Ok (Some r.1, r.2).

(** The visitor of a [Vec] asks for elements until there are none. *)
Fixpoint seq_loop (fuel : nat) (de : Deserializer → Result Fault (DeValue * Deserializer)) st :
    Result Fault (list DeValue * Deserializer) :=
  match fuel with
  | O => Err OutOfFuel
  | S fuel =>
      let? r := next_element de st in
      match r.1 with
      | None => Ok ([], r.2)
      | Some v => let? rs := seq_loop fuel de r.2 in Ok (v :: rs.1, rs.2)
      end
  end.

(** The visitor of a tuple asks for each of its elements. *)
Fixpoint tuple_loop (des : list (Deserializer → Result Fault (DeValue * Deserializer))) st :
    Result Fault (list DeValue * Deserializer) :=
  match des with
  | [] => Ok ([], st)
  | de :: des' =>
      let? r := next_element de st in
      match r.1 with
      | None => Err InvalidLength
      | Some v => let? rs := tuple_loop des' r.2 in Ok (v :: rs.1, rs.2)
      end
  end.

Fixpoint deserialize (t : De) st : Result Fault (DeValue * Deserializer) :=
  match t with
  | DStr accepts => deserialize_str accepts st
  | DBytes => let? r := record_trail st in Ok (VBytes r.1, r.2)
  | DI64 => let? r := take_be8 st in Ok (VI64 (i64_from_u64 r.1), r.2)
  | DU64 => let? r := take_be8 st in Ok (VU64 r.1, r.2)
  | DOption t =>
      match String.get (de_pos st) (de_buf st) with
      | None => Ok (VNone, st)
      | Some c =>
          if decide (c = SEP) then Ok (VNone, st)
          else let? r := deserialize t st in Ok (VSome r.1, r.2)
      end
  | DTuple ts =>
      let? r := tuple_loop (map deserialize ts) (sequence_start (length ts) st) in
      Ok (VTuple r.1, r.2)
  | DSeq t =>
      let? r := seq_loop (S (S (String.length (de_buf st)))) (deserialize t) (sequence_start 1 st) in
      Ok (VSeq r.1, r.2)
  | DNewtype t => deserialize t st
  | DJson => let? r := record_trail st in deserialize_json r
  | DMap => let? r := record_next st in deserialize_json r
  | DAny =>
      let? b := record_peek_byte st in
      if decide (b = Some "{"%char ∨ b = Some "["%char) then let? r := record_next st in deserialize_json r
      else deserialize_str (λ _, true) st
  | DIgnore => let? next := record_ignore st in Ok (VUnit, next)
  | DIgnoreAll => let? r := record_trail st in Ok (VUnit, r.2)
  | DUnhandled => Err Unhandled
  end.

Definition from_slice (t : De) (buf : string) : Result Fault (DeValue * Deserializer) :=
  deserialize t (mkDeserializer buf 0 0 0).

(** [finished]: all bytes were consumed, but for one last separator. *)
Definition finished st : bool :=
  let remain := (String.length (de_buf st) - de_pos st)%nat in
  (remain =? 0)%nat || ((remain =? 1)%nat && bool_decide (String.get (de_pos st) (de_buf st) = Some SEP)).
End de.

(** ** Induction over formats *)

Section De_induction.
Variable P : De → Prop.
Hypotheses (HStr : ∀ f, P (DStr f)) (HBytes : P DBytes) (HI64 : P DI64) (HU64 : P DU64)
  (HOption : ∀ t, P t → P (DOption t)) (HTuple : ∀ ts, Forall P ts → P (DTuple ts))
  (HSeq : ∀ t, P t → P (DSeq t)) (HNewtype : ∀ t, P t → P (DNewtype t))
  (HJson : P DJson) (HMap : P DMap) (HAny : P DAny) (HIgnore : P DIgnore) (HIgnoreAll : P DIgnoreAll)
  (HUnhandled : P DUnhandled).

Fixpoint De_induction (t : De) : P t :=
  match t with
  | DStr f => HStr f
  | DBytes => HBytes
  | DI64 => HI64
  | DU64 => HU64
  | DOption t => HOption t (De_induction t)
  | DTuple ts => HTuple ts ((fix all (ts : list De) : Forall P ts :=
                   match ts with
                   | [] => List.Forall_nil P
                   | t :: ts' => List.Forall_cons P t ts' (De_induction t) (all ts')
                   end) ts)
  | DSeq t => HSeq t (De_induction t)
  | DNewtype t => HNewtype t (De_induction t)
  | DJson => HJson
  | DMap => HMap
  | DAny => HAny
  | DIgnore => HIgnore
  | DIgnoreAll => HIgnoreAll
  | DUnhandled => HUnhandled
  end.
End De_induction.

(** ** The cursor stays in the buffer, and every loop ends *)

Section cursor.
Variable parses : string → bool.
Implicit Types (st : Deserializer).

Definition in_bounds st : Prop := (de_pos st <= String.length (de_buf st))%nat.

(** How a successful step moves the cursor. *)
Record moves st st' : Prop := {
  moves_buf : de_buf st' = de_buf st;
  moves_pos : (de_pos st <= de_pos st')%nat;
  moves_in : in_bounds st';
  moves_rec : (de_rec st <= de_rec st')%nat;
  moves_seq : de_seq st' = de_seq st ∨ output_done st' = true;
}.

Definition steps {A} (st : Deserializer) (r : Result Fault (A * Deserializer)) : Prop :=
  match r with
  | Ok (_, st') => moves st st'
  | Err OutOfBounds | Err OutOfFuel => False
  | Err _ => True
  end.

Lemma moves_refl st : in_bounds st → moves st st.
Proof. split; [done..|by left]. Qed.

Lemma moves_done st st' : moves st st' → output_done st = true → output_done st' = true.
Proof. unfold output_done. intros [_ _ _ Hr [Hs|]] Hd; [|done]. rewrite Nat.leb_le in *. lia. Qed.

Lemma moves_trans st1 st2 st3 : moves st1 st2 → moves st2 st3 → moves st1 st3.
Proof.
  intros H1 H2. split; [by rewrite (moves_buf _ _ H2), (moves_buf _ _ H1)| | | |].
  - pose proof (moves_pos _ _ H1). pose proof (moves_pos _ _ H2). lia.
  - apply H2.
  - pose proof (moves_rec _ _ H1). pose proof (moves_rec _ _ H2). lia.
  - destruct (moves_seq _ _ H2) as [E|?]; [|by right].
    destruct (moves_seq _ _ H1) as [<-|Hd]; [by left|right]. by eapply moves_done.
Qed.

Lemma steps_bind {A B} st (r : Result Fault (A * Deserializer)) (f : A * Deserializer → Result Fault (B * Deserializer)) :
  steps st r → (∀ a st', moves st st' → steps st' (f (a, st'))) →
  steps st (let? x := r in f x).
Proof.
  intros Hr Hf. destruct r as [[a st']|[]]; try done. cbn in *. specialize (Hf a st' Hr).
  destruct (f (a, st')) as [[b st'']|[]]; try done. cbn in *. by eapply moves_trans.
Qed.

Lemma de_rest_ok st : in_bounds st → de_rest st = Ok (str_drop (de_pos st) (de_buf st)).
Proof. intros Hb. unfold de_rest. by rewrite (proj2 (Nat.leb_le _ _) Hb). Qed.

Lemma length_str_drop n s : String.length (str_drop n s) = (String.length s - n)%nat.
Proof. revert s. induction n as [|n IH]; intros [|c s]; cbn; [done..|apply IH]. Qed.

Lemma length_before_sep s : (String.length (before_sep s) <= String.length s)%nat.
Proof. induction s as [|c s IH]; [done|]. cbn. case_decide; cbn; lia. Qed.

Lemma inc_pos_moves st n :
  (de_pos st + n <= String.length (de_buf st))%nat → moves st (inc_pos n st).
Proof. intros. split; cbn; [done|lia|done|lia|by left]. Qed.

Lemma record_next_steps st : in_bounds st → steps st (record_next st).
Proof.
  intros Hb. unfold record_next. rewrite de_rest_ok by done. cbn. apply inc_pos_moves.
  pose proof (length_before_sep (str_drop (de_pos st) (de_buf st))). rewrite length_str_drop in *.
  unfold in_bounds in Hb. lia.
Qed.

Lemma record_trail_steps st : in_bounds st → steps st (record_trail st).
Proof.
  intros Hb. unfold record_trail. rewrite de_rest_ok by done. cbn. apply inc_pos_moves.
  rewrite length_str_drop. unfold in_bounds in Hb. lia.
Qed.

Lemma str_take_short n s : String.length (str_take n s) = n → (n <= String.length s)%nat.
Proof.
  revert s. induction n as [|n IH]; intros [|c s] Hl; simpl in *; [lia..|].
  injection Hl as Hl. specialize (IH s Hl). lia.
Qed.

Lemma take_be8_steps st : in_bounds st → steps st (take_be8 st).
Proof.
  intros Hb. unfold take_be8. rewrite de_rest_ok by done. unfold from_be_bytes. case_decide as Hl; [|done].
  apply str_take_short in Hl. rewrite length_str_drop in Hl. apply inc_pos_moves. lia.
Qed.

Lemma record_start_moves st :
  in_bounds st → input_done st && output_done st = false → moves st (record_start st).
Proof.
  unfold in_bounds, record_start, input_done, output_done. intros Hb Hd.
  split; cbn; [done|lia|..].
  - unfold in_bounds. cbn. revert Hd. destruct (started st); cbn; [|lia].
    destruct (Nat.leb_spec (String.length (de_buf st)) (de_pos st)); cbn; [|lia].
    destruct (de_seq st <=? de_rec st)%nat; [done|cbn; lia].
  - lia.
  - by left.
Qed.

Lemma next_element_steps st (de : Deserializer → Result Fault (DeValue * Deserializer)) :
  in_bounds st → (∀ st', in_bounds st' → steps st' (de st')) → steps st (next_element de st).
Proof.
  intros Hb Hde. unfold next_element. destruct (input_done st && output_done st) eqn:Ed.
  { by apply moves_refl. }
  pose proof (record_start_moves st Hb Ed) as Hm. specialize (Hde _ (moves_in _ _ Hm)).
  destruct (de (record_start st)) as [[v st']|[]]; try done. cbn. by eapply moves_trans.
Qed.

Lemma tuple_loop_steps (des : list (Deserializer → Result Fault (DeValue * Deserializer))) st :
  Forall (λ de, ∀ st', in_bounds st' → steps st' (de st')) des →
  in_bounds st → (de_seq st <= de_rec st + length des)%nat →
  steps st (tuple_loop des st)
  ∧ ∀ vs st', tuple_loop des st = Ok (vs, st') → output_done st' = true.
Proof.
  intros Hdes. revert st. induction Hdes as [|de des Hde Hdes IH]; intros st Hb Hs; cbn [tuple_loop].
  { split; [by apply moves_refl|]. intros vs st' [= <- <-]. unfold output_done. apply Nat.leb_le. cbn in Hs. lia. }
  pose proof (next_element_steps st de Hb Hde) as Hn. unfold next_element in *.
  destruct (input_done st && output_done st) eqn:Ed; [done|].
  destruct (de (record_start st)) as [[v st1]|[]] eqn:Ev; try done. cbn [fst snd] in *.
  assert (moves (record_start st) st1) as Hm1.
  { specialize (Hde _ (moves_in _ _ (record_start_moves st Hb Ed))). by rewrite Ev in Hde. }
  destruct (IH st1) as [IH1 IH2]; [apply Hn| |].
  { pose proof (moves_rec _ _ Hm1) as Hrec. cbn in Hrec, Hs.
    destruct (moves_seq _ _ Hm1) as [->|Hd]; [cbn; lia|]. unfold output_done in Hd. rewrite Nat.leb_le in Hd. lia. }
  destruct (tuple_loop des st1) as [[vs st2]|[]]; try done. cbn [fst snd].
  split; [by eapply moves_trans|]. intros ? ? [= <- <-]. by eapply IH2.
Qed.

Lemma seq_loop_steps (de : Deserializer → Result Fault (DeValue * Deserializer)) fuel st :
  (∀ st', in_bounds st' → steps st' (de st')) →
  in_bounds st → output_done st = true → (0 < de_rec st)%nat →
  (String.length (de_buf st) - de_pos st < fuel)%nat →
  steps st (seq_loop fuel de st) ∧ ∀ vs st', seq_loop fuel de st = Ok (vs, st') → output_done st' = true.
Proof.
  intros Hde. revert st. induction fuel as [|fuel IH]; intros st Hb Hd Hr Hf; [lia|]. cbn [seq_loop].
  unfold next_element. destruct (input_done st) eqn:Ei; cbn [andb].
  { rewrite Hd. split; [by apply moves_refl|]. by intros ? ? [= <- <-]. }
  assert (input_done st && output_done st = false) as Ed by by rewrite Ei.
  pose proof (record_start_moves st Hb Ed) as Hm.
  assert (de_pos (record_start st) = S (de_pos st)) as Hp.
  { unfold record_start. rewrite Ei. cbn. unfold started. rewrite (proj2 (Nat.ltb_lt _ _) Hr), orb_true_r. cbn. lia. }
  pose proof (Hde _ (moves_in _ _ Hm)) as Hst. destruct (de (record_start st)) as [[v st1]|[]]; try done. cbn [fst snd].
  pose proof (moves_trans _ _ _ Hm Hst) as Hm1. pose proof (moves_pos _ _ Hst) as Hpos. pose proof (moves_in _ _ Hst) as Hin.
  unfold input_done in Ei. apply Nat.leb_gt in Ei. rewrite Hp in Hpos.
  destruct (IH st1) as [IH1 IH2]; [apply Hst|by eapply moves_done| | |].
  - pose proof (moves_rec _ _ Hm1). lia.
  - rewrite (moves_buf _ _ Hm1). lia.
  - destruct (seq_loop fuel de st1) as [[vs st2]|[]]; try done. cbn [fst snd].
    split; [by eapply moves_trans|]. intros ? ? [= <- <-]. by eapply IH2.
Qed.

(** Reading a sequence resets the expected length; when it ends the count is
    complete again. *)
Lemma sequence_steps {A} st n (r : Result Fault (A * Deserializer)) :
  steps (sequence_start n st) r → (∀ vs st', r = Ok (vs, st') → output_done st' = true) → steps st r.
Proof.
  destruct r as [[vs st']|]; [|done]. intros Hs Hd. specialize (Hd vs st' eq_refl).
  destruct Hs as [Hbuf Hpos Hin Hrec _]. cbn in *. split; [done..|by right].
Qed.

Lemma steps_map {A B} st (r : Result Fault (A * Deserializer)) (f : A → B) :
  steps st r → steps st (let? x := r in Ok (f x.1, x.2)).
Proof. by destruct r as [[a st']|[]]. Qed.

Lemma deserialize_str_steps accepts st : in_bounds st → steps st (deserialize_str accepts st).
Proof.
  intros Hb. unfold deserialize_str. apply steps_bind; [by apply record_next_steps|]. cbn. intros s st' Hm.
  destruct (from_utf8 s); [|done]. destruct (accepts _); [|done]. apply moves_refl, Hm.
Qed.

Lemma deserialize_json_steps s st : in_bounds st → steps st (deserialize_json parses (s, st)).
Proof. intros Hb. unfold deserialize_json. cbn. destruct (parses s); [by apply moves_refl|done]. Qed.

Lemma deserialize_steps t st : in_bounds st → steps st (deserialize parses t st).
Proof.
  revert st. induction t as [f| | | |t IH|ts IH|t IH|t IH| | | | | |] using De_induction;
    intros st Hb; cbn [deserialize].
  - by apply deserialize_str_steps.
  - apply steps_map, record_trail_steps, Hb.
  - apply (steps_map _ _ (λ n, VI64 (i64_from_u64 n))), take_be8_steps, Hb.
  - apply steps_map, take_be8_steps, Hb.
  - destruct (String.get _ _); [|by apply moves_refl]. case_decide; [by apply moves_refl|].
    by apply steps_map, IH.
  - apply steps_map. destruct (tuple_loop_steps (map (deserialize parses) ts) (sequence_start (length ts) st)) as [Hs Hd].
    + apply Forall_fmap. eapply Forall_impl; [exact IH|]. done.
    + done.
    + cbn. rewrite length_map. lia.
    + by eapply sequence_steps.
  - apply steps_map. set (st0 := sequence_start 1 st). assert (in_bounds st0) as Hb0 by done.
    set (n := S (String.length (de_buf st))). cbn [seq_loop].
    unfold next_element. destruct (input_done st0 && output_done st0) eqn:Ed.
    { cbn [fst snd]. eapply (sequence_steps _ 1); [by apply moves_refl|].
      intros ? ? [= <- <-]. by apply andb_true_iff in Ed as [_ ?]. }
    pose proof (record_start_moves st0 Hb0 Ed) as Hm. pose proof (IH _ (moves_in _ _ Hm)) as Hst.
    destruct (deserialize parses t (record_start st0)) as [[v st1]|[]]; try exact I; try by destruct Hst. cbn [fst snd].
    pose proof (moves_trans _ _ _ Hm Hst) as Hm1.
    destruct (seq_loop_steps (deserialize parses t) n st1) as [Hs Hd].
    + done.
    + apply Hst.
    + eapply moves_done; [exact Hst|]. unfold output_done, record_start. cbn. done.
    + pose proof (moves_rec _ _ Hst). cbn in *. lia.
    + pose proof (moves_buf _ _ Hm1) as ->. subst n. cbn. lia.
    + destruct (seq_loop _ _ st1) as [[vs st2]|[]]; try exact I; try by destruct Hs. cbn [fst snd].
      eapply (sequence_steps _ 1); [by eapply (moves_trans st0 st1 st2)|].
      intros ? ? [= <- <-]. by eapply Hd.
  - by apply IH.
  - apply steps_bind; [by apply record_trail_steps|]. intros s st' Hm. apply deserialize_json_steps, Hm.
  - apply steps_bind; [by apply record_next_steps|]. intros s st' Hm. apply deserialize_json_steps, Hm.
  - unfold record_peek_byte. rewrite de_rest_ok by done. cbn beta iota. case_decide; [|by apply deserialize_str_steps].
    apply steps_bind; [by apply record_next_steps|]. intros s st' Hm. apply deserialize_json_steps, Hm.
  - unfold record_ignore. assert (steps st (if (0 <? de_seq st)%nat then record_next st else record_trail st)) as Hs.
    { case_match; [by apply record_next_steps|by apply record_trail_steps]. }
    by destruct (if (0 <? de_seq st)%nat then _ else _) as [[s st']|[]].
  - pose proof (record_trail_steps st Hb) as Hs. by destruct (record_trail st) as [[s st']|[]].
  - done.
Qed.
End cursor.

(** ** Records and their encodings *)

Fixpoint no_sep (s : string) : Prop :=
  match s with EmptyString => True | String c s' => c ≠ SEP ∧ no_sep s' end.

Lemma in_range_not_sep lo hi c : (hi < 255)%N → in_range lo hi c = true → c ≠ SEP.
Proof.
  unfold in_range. intros Hhi [_ Hc%N.leb_le]%andb_true_iff ->.
  change (N_of_ascii SEP) with 255%N in Hc. lia.
Qed.

(** UTF-8 text has no separator. *)
Lemma utf8_no_sep s : utf8_valid s = true → no_sep s.
Proof.
  induction s as [s IH] using (well_founded_induction (well_founded_ltof _ String.length)).
  destruct s as [|a s]; [done|]. cbn [utf8_valid].
  destruct (in_range 0x00 0x7F a) eqn:Ea.
  { intros Hs. split; [by apply (in_range_not_sep 0 0x7F)|]. apply IH; [unfold ltof; cbn; lia|done]. }
  destruct s as [|b s]; [done|].
  assert (∀ s', (String.length s' < String.length (String a (String b s)))%nat → utf8_valid s' = true → no_sep s') as IH'
    by (intros s' Hl; by apply IH).
  assert (∀ lo hi c, in_range lo hi c = true → (hi <= 0xF4)%N → c ≠ SEP) as Hr.
  { intros lo hi c Hc Hhi. apply (in_range_not_sep lo hi c); [lia|done]. }
  clear IH. destruct (in_range 0xC2 0xDF a) eqn:Ea2.
  { intros [Hb Hs]%andb_true_iff. do 2 (split; [by eapply Hr|]). apply IH'; [cbn; lia|done]. }
  destruct s as [|c s]; [done|]. cbv zeta.
  destruct (in_range 0xE0 0xE0 a) eqn:Ea3; [|destruct (in_range 0xED 0xED a) eqn:Ea4; [|destruct (in_range 0xE1 0xEF a) eqn:Ea5]].
  1-3: intros [[Hb Hc]%andb_true_iff Hs]%andb_true_iff; do 3 (split; [by eapply Hr|]);
    apply IH'; [cbn; lia|done].
  destruct s as [|d s]; [done|].
  destruct (in_range 0xF0 0xF0 a) eqn:Ea6; [|destruct (in_range 0xF1 0xF3 a) eqn:Ea7; [|destruct (in_range 0xF4 0xF4 a) eqn:Ea8; [|done]]].
  all: intros [[[Hb Hc]%andb_true_iff Hd]%andb_true_iff Hs]%andb_true_iff; do 4 (split; [by eapply Hr|]);
    apply IH'; [cbn; lia|done].
Qed.

(** A record ends the input, or a separator follows. *)
Definition ends_record (tail : string) : Prop := tail = "" ∨ ∃ r, tail = String SEP r.

Lemma before_sep_app s tail : no_sep s → ends_record tail → before_sep (s +:+ tail) = s.
Proof.
  intros Hs Ht. induction s as [|c s IH]; cbn.
  - destruct Ht as [->|[r ->]]; [done|]. cbn. by rewrite decide_True.
  - destruct Hs as [Hc Hs]. rewrite decide_False by done. by rewrite IH.
Qed.

Section roundtrip.
Variable parses : string → bool.
Implicit Types (st : Deserializer).

(** A field of a record: its format, the value written, the value read and the
    bytes between.  Byte strings and JSON text take the rest of the input, so
    they can only be the last field. *)
Inductive field (last : bool) : De → Ser → DeValue → string → Prop :=
  | field_str accepts s : utf8_valid s = true → accepts s = true → field last (DStr accepts) (SStr s) (VStr s) s
  | field_ignore s : utf8_valid s = true → field last DIgnore (SStr s) VUnit s
  | field_u64 n : (n <= U64_MAX)%N → field last DU64 (SU64 n) (VU64 n) (u64_to_be_bytes n)
  | field_i64 z : (I64_MIN <= z <= I64_MAX)%Z → field last DI64 (SI64 z) (VI64 z) (i64_to_be_bytes z)
  | field_none t : field last (DOption t) SNone VNone ""
  | field_some t v w c b : c ≠ SEP → field last t v w (String c b) →
      field last (DOption t) (SSome v) (VSome w) (String c b)
  | field_bytes s : last = true → field last DBytes (SBytes s) (VBytes s) s
  | field_json s : last = true → parses s = true → field last DJson (SNewtype "Json" (Some s)) (VJson s) s.

Inductive fields : list De → list Ser → list DeValue → list string → Prop :=
  | fields_nil : fields [] [] [] []
  | fields_last t v w b : field true t v w b → fields [t] [v] [w] [b]
  | fields_cons t v w b ts vs ws bs :
      field false t v w b → fields ts vs ws bs → fields (t :: ts) (v :: vs) (w :: ws) (b :: bs).

Fixpoint tail_bytes (bs : list string) : string :=
  match bs with [] => "" | b :: bs' => sep_str +:+ b +:+ tail_bytes bs' end.
Definition record_bytes (bs : list string) : string :=
  match bs with [] => "" | b :: bs' => b +:+ tail_bytes bs' end.

Lemma field_ser last t v w b :
  field last t v w b → ∀ sr, ∃ s, serialize_value v sr = Ok (mkSerializer (ser_out sr +:+ b) s).
Proof.
  induction 1 as [| | | | |? ? ? ? ? ? ? IH| |]; intros sr; cbn [serialize_value]; try by eexists.
  - exists (ser_sep sr). rewrite append_nil_r. by destruct sr.
  - apply IH.
Qed.

Lemma elements_ser ts vs ws bs o (sep : bool) :
  fields ts vs ws bs → ∃ s,
  serialize_elements true (map serialize_value vs) (mkSerializer o sep)
  = Ok (mkSerializer (o +:+ (if sep then tail_bytes bs else record_bytes bs)) s).
Proof.
  intros Hf. revert o sep. induction Hf as [|t v w b Hf|t v w b ts vs ws bs Hf Hfs IH]; intros o sep; cbn [map serialize_elements].
  { exists sep. destruct sep; by rewrite append_nil_r. }
  all: destruct (field_ser _ _ _ _ _ Hf (ser_record_start (mkSerializer o sep))) as [s Hs]; rewrite Hs.
  - exists true. cbn [serialize_elements]. unfold set_sep. cbn [ser_out]. do 2 f_equal.
    unfold ser_record_start, separator, ser_write.
    destruct sep; cbn [ser_out ser_sep tail_bytes record_bytes]; by rewrite ?append_nil_r, ?append_assoc.
  - unfold set_sep. cbn [ser_out]. destruct (IH (ser_out (ser_record_start (mkSerializer o sep)) +:+ b) true) as [s' ->].
    exists s'. do 2 f_equal. unfold ser_record_start, separator, ser_write.
    destruct sep; cbn [ser_out ser_sep tail_bytes record_bytes]; by rewrite ?append_assoc.
Qed.

(** The cursor is in bounds and [r] is what it has before it. *)
Definition at_rest st (r : string) : Prop := in_bounds st ∧ str_drop (de_pos st) (de_buf st) = r.

Lemma str_drop_drop n m s : str_drop (n + m) s = str_drop m (str_drop n s).
Proof.
  revert s. induction n as [|n IH]; intros s; [by destruct s|]. destruct s as [|c s]; simpl; [by destruct m|apply IH].
Qed.

Lemma at_rest_length st r : at_rest st r → (de_pos st + String.length r = String.length (de_buf st))%nat.
Proof. intros [Hb <-]. rewrite length_str_drop. unfold in_bounds in Hb. lia. Qed.

Lemma at_rest_inc st b r : at_rest st (b +:+ r) → at_rest (inc_pos (String.length b) st) r.
Proof.
  intros Hr. pose proof (at_rest_length _ _ Hr) as Hl. rewrite length_append in Hl.
  split; [unfold in_bounds; cbn; lia|]. cbn. rewrite str_drop_drop, (proj2 Hr). apply str_drop_append.
Qed.

Lemma at_rest_rest st r : at_rest st r → de_rest st = Ok r.
Proof. intros [Hb <-]. by apply de_rest_ok. Qed.

Lemma get_drop n s : String.get n s = String.get 0 (str_drop n s).
Proof. revert s. induction n as [|n IH]; intros [|c s]; simpl; [done..|apply IH]. Qed.

Lemma at_rest_get st r : at_rest st r → String.get (de_pos st) (de_buf st) = String.get 0 r.
Proof. intros [_ <-]. apply get_drop. Qed.

Lemma record_next_at st b tail :
  at_rest st (b +:+ tail) → no_sep b → ends_record tail →
  record_next st = Ok (b, inc_pos (String.length b) st).
Proof.
  intros Hr Hb Ht. unfold record_next. rewrite (at_rest_rest _ _ Hr). cbn beta iota.
  by rewrite before_sep_app.
Qed.

Lemma take_be8_at st n tail :
  (n < 256 ^ N.of_nat 8)%N → at_rest st (be_encode 8 n +:+ tail) → take_be8 st = Ok (n, inc_pos 8 st).
Proof.
  intros Hn Hr. unfold take_be8. rewrite (at_rest_rest _ _ Hr). cbn beta iota.
  by rewrite be_take, from_be_bytes_encode.
Qed.

Lemma i64_roundtrip z :
  (I64_MIN <= z <= I64_MAX)%Z →
  (Z.to_N (z mod 2 ^ 64) < 256 ^ N.of_nat 8)%N ∧ i64_from_u64 (Z.to_N (z mod 2 ^ 64)) = z.
Proof.
  unfold I64_MIN, I64_MAX. intros Hz. change (256 ^ N.of_nat 8)%N with (Z.to_N (2 ^ 64)).
  pose proof (Z.mod_pos_bound z (2 ^ 64) ltac:(lia)) as Hm. split; [lia|].
  unfold i64_from_u64. rewrite Z2N.id by lia.
  destruct (decide (0 <= z)%Z) as [Hp|Hp].
  - rewrite Z.mod_small by lia. destruct (N.ltb_spec (Z.to_N z) (2 ^ 63)%N); lia.
  - assert (z mod 2 ^ 64 = z + 2 ^ 64)%Z as ->.
    { symmetry. apply Z.mod_unique with (-1)%Z; lia. }
    destruct (N.ltb_spec (Z.to_N (z + 2 ^ 64)) (2 ^ 63)%N); lia.
Qed.

Lemma field_de last t v w b st tail :
  field last t v w b → at_rest st (b +:+ tail) → (0 < de_seq st)%nat →
  ends_record tail → (last = true → tail = "") →
  deserialize parses t st = Ok (w, inc_pos (String.length b) st).
Proof.
  intros Hf Hr Hs Ht Hl. induction Hf as [f s Hu Ha|s Hu|n Hn|z Hz|t|t v w c b Hc Hf IH|s El|s El Hp]; cbn [deserialize].
  - unfold deserialize_str. rewrite (record_next_at _ _ _ Hr (utf8_no_sep _ Hu) Ht). cbn [fst snd].
    unfold from_utf8. by rewrite Hu, Ha.
  - unfold record_ignore. rewrite (proj2 (Nat.ltb_lt _ _) Hs).
    by rewrite (record_next_at _ _ _ Hr (utf8_no_sep _ Hu) Ht).
  - rewrite (take_be8_at st n tail) by (by apply u64_width || done).
    unfold u64_to_be_bytes. by rewrite length_be_encode.
  - destruct (i64_roundtrip z Hz) as [Hw Hz']. rewrite (take_be8_at st _ tail Hw Hr). cbn [fst snd].
    rewrite Hz'. unfold i64_to_be_bytes. by rewrite length_be_encode.
  - rewrite (at_rest_get _ _ Hr). assert (inc_pos (String.length "") st = st) as ->.
    { destruct st. unfold inc_pos. cbn. by rewrite Nat.add_0_r. }
    destruct Ht as [->|[r ->]]; cbn; [done|by rewrite decide_True].
  - rewrite (at_rest_get _ _ Hr). cbn [String.get append]. rewrite decide_False by done.
    by rewrite (IH Hr).
  - rewrite (Hl El), append_nil_r in Hr. unfold record_trail. by rewrite (at_rest_rest _ _ Hr).
  - rewrite (Hl El), append_nil_r in Hr. unfold record_trail. rewrite (at_rest_rest _ _ Hr). cbn beta iota.
    unfold deserialize_json. cbn [fst snd]. by rewrite Hp.
Qed.

(** Formats that read an absent trailing field. *)
Inductive tolerant : De → DeValue → Prop :=
  | tolerant_str accepts : accepts "" = true → tolerant (DStr accepts) (VStr "")
  | tolerant_option t : tolerant (DOption t) VNone
  | tolerant_bytes : tolerant DBytes (VBytes "").

Lemma inc_pos_0 st : inc_pos 0 st = st.
Proof. destruct st. unfold inc_pos. cbn. by rewrite Nat.add_0_r. Qed.

Lemma tolerant_de t d st : tolerant t d → at_rest st "" → deserialize parses t st = Ok (d, st).
Proof.
  intros [f Hf|t'|] Hr; cbn [deserialize].
  - unfold deserialize_str, record_next. rewrite (at_rest_rest _ _ Hr). cbn. by rewrite Hf, inc_pos_0.
  - by rewrite (at_rest_get _ _ Hr).
  - unfold record_trail. rewrite (at_rest_rest _ _ Hr). cbn. by rewrite inc_pos_0.
Qed.

(** *** Tuples *)

(** The elements still to read. *)
Definition pending st (n : nat) : Prop := (de_rec st + n = de_seq st)%nat.

Lemma input_done_at st r : at_rest st r → input_done st = bool_decide (r = "").
Proof.
  intros Hr. pose proof (at_rest_length _ _ Hr) as Hl. unfold input_done.
  destruct r as [|c r]; cbn in Hl.
  - rewrite bool_decide_true by done. apply Nat.leb_le. lia.
  - rewrite bool_decide_false by done. apply Nat.leb_gt. lia.
Qed.

Lemma next_element_at de st n v st' :
  pending st (S n) → de (record_start st) = Ok (v, st') → next_element de st = Ok (Some v, st').
Proof.
  unfold pending, next_element. intros Hp Hd.
  assert (output_done st = false) as -> by (unfold output_done; apply Nat.leb_gt; lia).
  by rewrite andb_false_r, Hd.
Qed.

Lemma tolerant_tuple ts ds st :
  Forall2 tolerant ts ds → at_rest st "" → pending st (length ts) →
  ∃ st', tuple_loop (map (deserialize parses) ts) st = Ok (ds, st') ∧ at_rest st' "".
Proof.
  intros Ht. revert st. induction Ht as [|t d ts ds Ht Hts IH]; intros st Hr Hp; [by exists st|]. cbn [map tuple_loop].
  assert (record_start st = inc_rec st) as Hs.
  { unfold record_start. rewrite (input_done_at _ _ Hr), bool_decide_true by done.
    assert (output_done st = false) as -> by (unfold output_done, pending in *; apply Nat.leb_gt; cbn in Hp; lia).
    cbn. by rewrite andb_false_r, inc_pos_0. }
  rewrite (next_element_at _ st (length ts) d (inc_rec st) Hp) by (rewrite Hs; by apply tolerant_de).
  cbn [fst snd]. destruct (IH (inc_rec st)) as (st' & -> & Hr'); [done|unfold pending in *; cbn in *; lia|].
  by exists st'.
Qed.

(** Reading one field, the separator before it consumed. *)
Lemma field_element last t v w b n st tail :
  field last t v w b → pending st (S n) →
  at_rest (record_start st) (b +:+ tail) → ends_record tail → (last = true → tail = "") →
  ∃ st', next_element (deserialize parses t) st = Ok (Some w, st')
    ∧ at_rest st' tail ∧ pending st' n ∧ (0 < de_rec st')%nat.
Proof.
  intros Hf Hp Hr Ht Hl. exists (inc_pos (String.length b) (record_start st)).
  unfold pending in *. split_and!; [|by apply at_rest_inc|cbn; lia|cbn; lia].
  eapply next_element_at; [exact Hp|]. apply (field_de last t v w b _ tail); [done..| |done|done]. cbn. lia.
Qed.

Lemma record_start_sep st r :
  at_rest st (String SEP r) → (0 < de_rec st)%nat → at_rest (record_start st) r.
Proof.
  intros Hr Hs. unfold record_start. rewrite (input_done_at _ _ Hr), bool_decide_false by done. cbn [andb negb].
  unfold started. rewrite (proj2 (Nat.ltb_lt _ _) Hs), orb_true_r. cbn [andb].
  apply (at_rest_inc st sep_str r Hr).
Qed.

Lemma ends_record_tail bs : ends_record (tail_bytes bs).
Proof. destruct bs as [|b bs]; [by left|right]. by eexists. Qed.

Lemma fields_tuple ts vs ws bs ts' ds st :
  fields ts vs ws bs → Forall2 tolerant ts' ds →
  at_rest st (tail_bytes bs) → (0 < de_rec st)%nat → pending st (length ts + length ts') →
  ∃ st', tuple_loop (map (deserialize parses) (ts ++ ts')) st = Ok (ws ++ ds, st') ∧ at_rest st' "".
Proof.
  intros Hf Htol. revert st. induction Hf as [|t v w b Hf|t v w b ts vs ws bs Hf Hfs IH]; intros st Hr Hs Hp.
  { by apply tolerant_tuple. }
  - cbn [tail_bytes] in Hr. rewrite append_nil_r in Hr. pose proof (record_start_sep _ _ Hr Hs) as Hr1.
    destruct (field_element true t v w b (length ts') st "") as (st1 & Hn & Hr2 & Hp2 & _);
      [done|done|by rewrite append_nil_r|by left|done|].
    cbn [app map tuple_loop]. rewrite Hn. cbn [fst snd].
    destruct (tolerant_tuple ts' ds st1 Htol Hr2 Hp2) as (st' & -> & Hr'). by exists st'.
  - pose proof (record_start_sep _ _ Hr Hs) as Hr1.
    destruct (field_element false t v w b (length ts + length ts') st (tail_bytes bs)) as (st1 & Hn & Hr2 & Hp2 & Hs2);
      [done..|apply ends_record_tail|done|].
    cbn [app map tuple_loop]. rewrite Hn. cbn [fst snd].
    destruct (IH st1 Hr2 Hs2 Hp2) as (st' & -> & Hr'). by exists st'.
Qed.

Lemma record_start_first st r :
  at_rest st r → de_pos st = 0%nat → de_rec st = 0%nat → at_rest (record_start st) r.
Proof.
  intros Hr Hp Hc. unfold record_start, started. rewrite Hp, Hc. cbn [Nat.eqb Nat.ltb Nat.leb negb orb andb].
  by rewrite inc_pos_0.
Qed.

Lemma tuple_roundtrip ts vs ws bs ts' ds :
  fields ts vs ws bs → Forall2 tolerant ts' ds →
  serialize_to_vec (STuple vs) = Ok (record_bytes bs)
  ∧ ∃ st, from_slice parses (DTuple (ts ++ ts')) (record_bytes bs) = Ok (VTuple (ws ++ ds), st)
      ∧ at_rest st "".
Proof.
  intros Hf Htol. split.
  { unfold serialize_to_vec. cbn [serialize_value].
    destruct (elements_ser ts vs ws bs "" false Hf) as [s Hs]. unfold set_sep at 1. cbn [ser_out] in *. by rewrite Hs. }
  unfold from_slice. cbn [deserialize].
  set (st0 := sequence_start _ _). assert (pending st0 (length ts + length ts')) as Hp.
  { unfold pending. cbn. by rewrite length_app. }
  assert (at_rest st0 (record_bytes bs)) as Hr by (split; [unfold in_bounds; cbn; lia|by destruct (record_bytes bs)]).
  assert (∃ st, tuple_loop (map (deserialize parses) (ts ++ ts')) st0 = Ok (ws ++ ds, st) ∧ at_rest st "") as (st & -> & Hst);
    [|by exists st].
  assert (at_rest (record_start st0) (record_bytes bs)) as Hr0 by (by apply record_start_first).
  clearbody st0. destruct Hf as [|t v w b Hf|t v w b ts vs ws bs Hf Hfs].
  - by apply tolerant_tuple.
  - cbn [record_bytes tail_bytes] in *. rewrite append_nil_r in Hr0.
    destruct (field_element true t v w b (length ts') st0 "") as (st1 & Hn & Hr2 & Hp2 & _);
      [done|done|by rewrite append_nil_r|by left|done|].
    cbn [app map tuple_loop]. rewrite Hn. cbn [fst snd].
    destruct (tolerant_tuple ts' ds st1 Htol Hr2 Hp2) as (st' & -> & Hr'). by exists st'.
  - destruct (field_element false t v w b (length ts + length ts') st0 (tail_bytes bs)) as (st1 & Hn & Hr2 & Hp2 & Hs2);
      [done..|apply ends_record_tail|done|].
    cbn [app map tuple_loop]. rewrite Hn. cbn [fst snd].
    destruct (fields_tuple ts vs ws bs ts' ds st1 Hfs Htol Hr2 Hs2 Hp2) as (st' & -> & Hr'). by exists st'.
Qed.
End roundtrip.

(** *** Vectors of strings *)

Section strings.
Variables (parses : string → bool) (accepts : string → bool).
Implicit Types (st : Deserializer) (l : list string).

Definition text (s : string) : Prop := utf8_valid s = true ∧ accepts s = true.

Lemma text_read s st tail :
  text s → at_rest st (s +:+ tail) → ends_record tail →
  deserialize_str accepts st = Ok (VStr s, inc_pos (String.length s) st).
Proof.
  intros [Hu Ha] Hr Ht. unfold deserialize_str.
  rewrite (record_next_at _ _ _ Hr (utf8_no_sep _ Hu) Ht). cbn [fst snd]. unfold from_utf8. by rewrite Hu, Ha.
Qed.

Lemma seq_texts l fuel st :
  Forall text l → at_rest st (tail_bytes l) → (0 < de_rec st)%nat → output_done st = true →
  (length l < fuel)%nat →
  ∃ st', seq_loop fuel (deserialize_str accepts) st = Ok (VStr <$> l, st') ∧ at_rest st' "".
Proof.
  intros Hl. revert fuel st. induction Hl as [|s l Hs Hl IH]; intros fuel st Hr Hc Hd Hf;
    (destruct fuel as [|fuel]; [cbn in Hf; lia|]); cbn [seq_loop]; unfold next_element;
    rewrite (input_done_at _ _ Hr), Hd.
  { rewrite bool_decide_true by done. by exists st. }
  rewrite bool_decide_false by done. cbn [andb]. pose proof (record_start_sep _ _ Hr Hc) as Hr1.
  rewrite (text_read s _ (tail_bytes l) Hs Hr1 (ends_record_tail l)). cbn [fst snd].
  destruct (IH fuel (inc_pos (String.length s) (record_start st))) as (st' & -> & Hr').
  - by apply at_rest_inc.
  - cbn. lia.
  - unfold output_done in *. cbn. rewrite Nat.leb_le in *. lia.
  - cbn in Hf. lia.
  - by exists st'.
Qed.

Lemma length_tail_bytes l : (length l <= String.length (tail_bytes l))%nat.
Proof. induction l as [|s l IH]; [done|]. cbn [tail_bytes]. rewrite !length_append. cbn. lia. Qed.

Lemma vec_read s l :
  Forall text (s :: l) →
  ∃ st, from_slice parses (DSeq (DStr accepts)) (record_bytes (s :: l)) = Ok (VSeq (VStr <$> s :: l), st) ∧ at_rest st "".
Proof.
  intros [Hs Hl]%Forall_cons. unfold from_slice. cbn [deserialize]. set (n := S (String.length _)).
  set (st0 := sequence_start 1 _). change (λ st : Deserializer, deserialize_str accepts st) with (deserialize_str accepts). cbn [seq_loop]. unfold next_element.
  assert (at_rest st0 (record_bytes (s :: l))) as Hr by (split; [unfold in_bounds; cbn; lia|by destruct (record_bytes (s :: l))]).
  assert (output_done st0 = false) as -> by done. rewrite andb_false_r.
  pose proof (record_start_first _ _ Hr eq_refl eq_refl) as Hr1.
  rewrite (text_read s _ (tail_bytes l) Hs Hr1 (ends_record_tail l)). cbn [fst snd].
  destruct (seq_texts l n (inc_pos (String.length s) (record_start st0)) Hl) as (st & -> & Hst).
  - by apply at_rest_inc.
  - cbn. lia.
  - done.
  - subst n. cbn [de_buf record_bytes]. rewrite length_append. pose proof (length_tail_bytes l). lia.
  - by exists st.
Qed.

Lemma texts_ser (tuple : bool) l o (sep : bool) :
  serialize_elements tuple (map serialize_value (SStr <$> l)) (mkSerializer o sep)
  = Ok (mkSerializer (o +:+ (if sep then tail_bytes l else record_bytes l)) (match l with [] => sep | _ => true end)).
Proof.
  revert o sep. induction l as [|s l IH]; intros o sep; cbn [fmap list_fmap map serialize_elements serialize_value].
  { destruct sep; by rewrite append_nil_r. }
  unfold ser_record_start, separator, ser_write, set_sep.
  destruct sep, tuple; cbn [ser_out ser_sep]; fold (SStr <$> l); rewrite IH;
    cbn [tail_bytes record_bytes]; rewrite <-!append_assoc; by destruct l.
Qed.

Lemma serialize_elements_app tuple fs gs sr :
  serialize_elements tuple (fs ++ gs) sr
  = let? next := serialize_elements tuple fs sr in serialize_elements tuple gs next.
Proof.
  revert sr. induction fs as [|f fs IH]; intros sr; [done|]. cbn [app serialize_elements].
  destruct (f (ser_record_start sr)) as [sr'|]; [apply IH|done].
Qed.

Lemma tail_bytes_app l l' : tail_bytes (l ++ l') = tail_bytes l +:+ tail_bytes l'.
Proof. induction l as [|s l IH]; [done|]. cbn [app tail_bytes]. by rewrite IH, !append_assoc. Qed.

(** A key of strings, and the prefix that selects the keys below it. *)
Lemma key_ser s l : serialize_to_vec (STuple (SStr <$> s :: l)) = Ok (record_bytes (s :: l)).
Proof. unfold serialize_to_vec. cbn [serialize_value]. unfold set_sep at 1. by rewrite texts_ser. Qed.

Lemma prefix_ser s l :
  serialize_to_vec (STuple ((SStr <$> s :: l) ++ [SUnitStruct "Interfix"]))
  = Ok (record_bytes (s :: l) +:+ sep_str).
Proof.
  unfold serialize_to_vec. cbn [serialize_value]. unfold set_sep at 1.
  by rewrite map_app, serialize_elements_app, texts_ser.
Qed.

Lemma no_sep_split a b ta tb :
  no_sep a → no_sep b → ends_record ta → ends_record tb → a +:+ ta = b +:+ tb → a = b ∧ ta = tb.
Proof.
  intros Ha Hb Hta Htb He. assert (a = b) as <-.
  { by rewrite <-(before_sep_app a ta Ha Hta), <-(before_sep_app b tb Hb Htb), He. }
  split; [done|]. by apply append_inj_l in He as [_ He].
Qed.

Lemma tail_prefix l l' r :
  Forall no_sep l → Forall no_sep l' → tail_bytes l' = tail_bytes l +:+ sep_str +:+ r →
  ∃ s rest, l' = l ++ s :: rest.
Proof.
  intros Hl. revert l'. induction Hl as [|s l Hs Hl IH]; intros l' Hl' He.
  { destruct l' as [|s' l']; [done|]. by exists s', l'. }
  destruct Hl' as [|s' l' Hs' Hl']; [done|]. cbn [tail_bytes] in He. rewrite <-!append_assoc in He.
  injection He as He. apply no_sep_split in He as [-> He]; [|done..|apply ends_record_tail|].
  - destruct (IH l' Hl' He) as (s0 & rest & ->). by exists s0, rest.
  - destruct l; right; eexists; done.
Qed.

(** The keys that begin with the bytes of a prefix are those below it. *)
Lemma record_prefix s l s' l' :
  Forall (λ k, utf8_valid k = true) (s :: l) → Forall (λ k, utf8_valid k = true) (s' :: l') →
  (∃ r, record_bytes (s' :: l') = (record_bytes (s :: l) +:+ sep_str) +:+ r)
  ↔ ∃ k rest, s' :: l' = (s :: l) ++ k :: rest.
Proof.
  intros Hl Hl'.
  apply (Forall_impl _ no_sep) in Hl; [|apply utf8_no_sep]. apply (Forall_impl _ no_sep) in Hl'; [|apply utf8_no_sep].
  apply Forall_cons in Hl as [Hs Hl], Hl' as [Hs' Hl']. cbn [record_bytes]. split.
  - intros [r He]. rewrite <-!append_assoc in He. apply no_sep_split in He as [-> He]; [|done..|apply ends_record_tail|].
    + destruct (tail_prefix l l' r Hl Hl' He) as (k & rest & ->). by exists k, rest.
    + destruct l; right; eexists; done.
  - intros (k & rest & [= -> ->]). exists (k +:+ tail_bytes rest). rewrite tail_bytes_app. cbn [tail_bytes].
    by rewrite <-!append_assoc.
Qed.
End strings.

(** ** Properties *)



(** C28.  The deserializer is safe on any input, also corrupt: whatever the
    format asked for and the bytes, the cursor never leaves the buffer, no
    slice is taken out of bounds and every loop ends. *)
Theorem db_decode_safe (parses : string → bool) (t : De) (buf : string) :
  match from_slice parses t buf with
  | Ok (_, st) => de_buf st = buf ∧ (de_pos st <= String.length buf)%nat
  | Err OutOfBounds | Err OutOfFuel => False
  | Err _ => True
  end.
Proof.
  pose proof (deserialize_steps parses t (mkDeserializer buf 0 0 0)) as Hs.
  unfold steps, from_slice in *. specialize (Hs ltac:(unfold in_bounds; cbn; lia)).
  destruct (deserialize parses t _) as [[v st]|[]]; try done. destruct Hs as [Hb _ Hi _ _].
  unfold in_bounds in Hi. rewrite Hb in Hi. done.
Qed.

(** A non-empty list of strings round-trips as a database value; no bytes
    at all read back as an empty list, whatever the format of its elements, so
    a reader may take the last element of what it read. *)
Theorem db_string_lists (parses accepts : string → bool) :
  (∀ s l, Forall (text accepts) (s :: l) → ∃ buf st,
     serialize_to_vec (SSeq (SStr <$> s :: l)) = Ok buf
     ∧ from_slice parses (DSeq (DStr accepts)) buf = Ok (VSeq (VStr <$> s :: l), st))
  ∧ ∀ t buf st, from_slice parses (DSeq t) buf ≠ Ok (VSeq [], st).
Proof.
  split.
  - intros s l Hl. destruct (vec_read parses accepts s l Hl) as (st & Hd & _).
    exists (record_bytes (s :: l)), st. split; [|done]. unfold serialize_to_vec. cbn [serialize_value].
    unfold set_sep at 1. by rewrite texts_ser.
  - intros t buf st. unfold from_slice. cbn [deserialize]. set (n := S (String.length _)). cbn [seq_loop]. unfold next_element.
    assert (output_done (sequence_start 1 (mkDeserializer buf 0 0 0)) = false) as -> by done. rewrite andb_false_r.
    destruct (deserialize parses t _) as [[v st1]|]; cbn [fst snd]; [|done].
    destruct (seq_loop _ _ st1) as [[vs st2]|]; by intros [=].
Qed.

Lemma leading_sep n :
  (0xFF00000000000000 <= n <= U64_MAX)%N → u64_to_be_bytes n = String SEP (be_encode 7 n).
Proof.
  intros Hn. unfold u64_to_be_bytes. unfold U64_MAX in Hn.
  change (be_encode 8 n) with (String (ascii_of_N ((n / 256 ^ N.of_nat 7) mod 256)) (be_encode 7 n)).
  by rewrite <-(N.div_unique n (256 ^ N.of_nat 7) 255 (n - 255 * 256 ^ 7)) by (cbn; lia).
Qed.

(** A present integer can read back as absent: an option looks at the
    next byte and takes a separator byte for an empty record, so [Some n] with
    a leading byte of 255 is read as [None]. *)
Theorem db_option_integer_lost (parses : string → bool) (n : N) :
  (0xFF00000000000000 <= n <= U64_MAX)%N →
  ∃ buf st, serialize_to_vec (STuple [SSome (SU64 n)]) = Ok buf
    ∧ from_slice parses (DTuple [DOption DU64]) buf = Ok (VTuple [VNone], st).
Proof.
  intros Hn. exists (u64_to_be_bytes n). eexists. split; [done|]. by rewrite leading_sep.
Qed.

Lemma db_option_integer_lost_witness :
  ∃ buf st, serialize_to_vec (STuple [SSome (SU64 U64_MAX)]) = Ok buf
    ∧ from_slice (λ _, true) (DTuple [DOption DU64]) buf = Ok (VTuple [VNone], st).
Proof. apply (db_option_integer_lost (λ _, true) U64_MAX). done. Defined.
