(* ===== verification/DbMap.v ===== *)
(** * Database maps ([src/src/database/map/*.rs], [keyval.rs], [handle.rs])

    A table of the database is a column family of RocksDB; [Engine] is the part
    of RocksDB's interface the tables use, with its documented behaviour: point
    reads, writes and deletions on a map of byte strings, and cursors over the
    rows in bytewise key order from a seek position.  [ordered_engine] is an
    engine.  The table operations below serialize keys and values with
    [DbCodec]; a failed [expect] is [Panicked].  Errors of the storage medium,
    caches and notifications of watchers are left out. *)

From S2P Require Import Prelude Bytes DbCodec.

Local Set Warnings "-register-all".

(** ** The engine *)

Class Engine := {
  Table : Type;
  table_rows : Table → gmap string string;
  table_get : Table → string → option string;
  table_put : Table → string → string → Table;
  table_del : Table → string → Table;
  (** [seek] and [next]; [seek_for_prev] and [prev]. *)
  table_fwd : Table → string → list (string * string);
  table_rev : Table → string → list (string * string);
  table_get_rows t k : table_get t k = table_rows t !! k;
  table_put_rows t k v : table_rows (table_put t k v) = <[k := v]> (table_rows t);
  table_del_rows t k : table_rows (table_del t k) = base.delete k (table_rows t);
  table_fwd_rows t k : table_fwd t k = filter (λ e, key_le k e.1) (btree_iter (table_rows t));
  table_rev_rows t k : table_rev t k = reverse (filter (λ e, key_le e.1 k) (btree_iter (table_rows t)));
}.

(** Parsing of JSON text, by third-party code. *)
Class JsonParser := json_parses : string → bool.

Definition ordered_engine : Engine := {|
  Table := gmap string string;
  table_rows t := t;
  table_get t k := t !! k;
  table_put t k v := <[k := v]> t;
  table_del t k := base.delete k t;
  table_fwd t k := filter (λ e, key_le k e.1) (btree_iter t);
  table_rev t k := reverse (filter (λ e, key_le e.1 k) (btree_iter t));
  table_get_rows t k := eq_refl;
  table_put_rows t k v := eq_refl;
  table_del_rows t k := eq_refl;
  table_fwd_rows t k := eq_refl;
  table_rev_rows t k := eq_refl;
|}.

Inductive DbError := NotFound | Codec (f : Fault) | Panicked (f : Fault).

Definition expect {A} (r : Result Fault A) : Result DbError A := map_err Panicked r.

Section map.
Context `{Engine, JsonParser}.
Implicit Types (tb : Table) (key val : string).

(** ** Serialization into buffers *)

(** A stack buffer has a capacity, a heap buffer has none. *)
Definition serialize (cap : option nat) (v : Ser) : Result Fault string :=
  let? buf := serialize_to_vec v in
  match cap with
  | Some n => if (String.length buf <=? n)%nat then Ok buf else Err SerdeSer
  | None => Ok buf
  end.

Definition serialize_key (v : Ser) : Result Fault string := serialize None v.

(** ** Writing *)

Definition Map_insert tb key val : Table := table_put tb key val.
Definition Map_remove tb key : Table := table_del tb key.

Definition bput_raw tb (cap : option nat) (key : Ser) val : Result DbError Table :=
  let? k := expect (serialize cap key) in Ok (Map_insert tb k val).

Definition bput tb (cap : option nat * option nat) (key val : Ser) : Result DbError Table :=
  let? v := expect (serialize cap.2 val) in bput_raw tb cap.1 key v.

Definition raw_bput tb (cap : option nat) key (val : Ser) : Result DbError Table :=
  let? v := expect (serialize cap val) in Ok (Map_insert tb key v).

Definition put tb (key val : Ser) := bput tb (None, None) key val.
Definition put_raw tb (key : Ser) val := bput_raw tb None key val.
Definition raw_put tb key (val : Ser) := raw_bput tb None key val.
Definition put_aput tb (vmax : nat) (key val : Ser) := bput tb (None, Some vmax) key val.
Definition aput_put tb (kmax : nat) (key val : Ser) := bput tb (Some kmax, None) key val.
Definition aput tb (kmax vmax : nat) (key val : Ser) := bput tb (Some kmax, Some vmax) key val.
Definition aput_raw tb (kmax : nat) (key : Ser) val := bput_raw tb (Some kmax) key val.
Definition raw_aput tb (vmax : nat) key (val : Ser) := raw_bput tb (Some vmax) key val.

Definition bdel tb (cap : option nat) (key : Ser) : Result DbError Table :=
  let? k := expect (serialize cap key) in Ok (Map_remove tb k).
Definition del tb (key : Ser) := bdel tb None key.

(** ** Reading *)

Definition handle_from (o : option string) : Result DbError string := ok_or NotFound o.
Definition Map_get tb key : Result DbError string := handle_from (table_get tb key).

Definition bqry tb (cap : option nat) (key : Ser) : Result DbError string :=
  let? k := expect (serialize cap key) in Map_get tb k.
Definition qry tb (key : Ser) := bqry tb None key.
Definition aqry tb (max : nat) (key : Ser) := bqry tb (Some max) key.

Definition exists_row tb key : Result DbError unit := result_map (λ _, tt) (Map_get tb key).

Definition deserialize_slice (t : De) (buf : string) : Result DbError DeValue :=
  map_err Codec (result_map fst (from_slice json_parses t buf)).

(** [deserialized] *)
Definition deserialized (t : De) (r : Result DbError string) : Result DbError DeValue :=
  let? buf := r in deserialize_slice t buf.

Definition deserialized_u64 (r : Result DbError string) : Result DbError N :=
  let? v := deserialized DU64 r in
  match v with VU64 n => Ok n | _ => Err (Codec InvalidValue) end.

Definition deserialized_str (accepts : string → bool) (r : Result DbError string) : Result DbError string :=
  let? v := deserialized (DStr accepts) r in
  match v with VStr s => Ok s | _ => Err (Codec InvalidValue) end.

(** ** Scanning *)

Definition starts_with (p : string) (e : string * string) : bool := String.prefix p e.1.

Definition raw_stream_from tb key := table_fwd tb key.
Definition rev_raw_stream_from tb key := table_rev tb key.
Definition raw_keys_from tb key : list string := (table_fwd tb key).*1.
Definition rev_raw_keys_from tb key : list string := (table_rev tb key).*1.

Definition raw_stream_prefix tb (p : string) : list (string * string) :=
  take_while (starts_with p) (raw_stream_from tb p).
Definition raw_keys_prefix tb (p : string) : list string :=
  take_while (String.prefix p) (raw_keys_from tb p).
Definition rev_raw_stream_prefix tb (p : string) : list (string * string) :=
  take_while (starts_with p) (rev_raw_stream_from tb p).
Definition rev_raw_keys_prefix tb (p : string) : list string :=
  take_while (String.prefix p) (rev_raw_keys_from tb p).

Definition stream_prefix_raw tb (p : Ser) : Result DbError (list (string * string)) :=
  let? k := expect (serialize_key p) in Ok (raw_stream_prefix tb k).
Definition keys_prefix_raw tb (p : Ser) : Result DbError (list string) :=
  let? k := expect (serialize_key p) in Ok (raw_keys_prefix tb k).
Definition rev_keys_prefix_raw tb (p : Ser) : Result DbError (list string) :=
  let? k := expect (serialize_key p) in Ok (rev_raw_keys_prefix tb k).
Definition rev_keys_from_raw tb (p : Ser) : Result DbError (list string) :=
  let? k := expect (serialize_key p) in Ok (rev_raw_keys_from tb k).

(** [result_deserialize] and [result_deserialize_key], then [ignore_err]. *)
Definition deserialize_keyval (tk tv : De) (e : string * string) : Result DbError (DeValue * DeValue) :=
  let? k := deserialize_slice tk e.1 in let? v := deserialize_slice tv e.2 in Ok (k, v).

Definition ignore_err {A} (l : list (Result DbError A)) : list A := omap ok l.

Definition stream_raw_prefix tb (tk tv : De) (p : string) : list (DeValue * DeValue) :=
  ignore_err (deserialize_keyval tk tv <$> raw_stream_prefix tb p).
Definition stream_prefix tb (tk tv : De) (p : Ser) : Result DbError (list (DeValue * DeValue)) :=
  let? rows := stream_prefix_raw tb p in Ok (ignore_err (deserialize_keyval tk tv <$> rows)).
Definition keys_prefix tb (tk : De) (p : Ser) : Result DbError (list DeValue) :=
  let? keys := keys_prefix_raw tb p in Ok (ignore_err (deserialize_slice tk <$> keys)).
Definition rev_keys_prefix tb (tk : De) (p : Ser) : Result DbError (list DeValue) :=
  let? keys := rev_keys_prefix_raw tb p in Ok (ignore_err (deserialize_slice tk <$> keys)).

Definition count_prefix tb (p : Ser) : Result DbError nat :=
  result_map length (keys_prefix_raw tb p).
End map.

(** ** Prefix scans *)

Create Rewrite HintDb engine.
#[export] Hint Rewrite @table_get_rows @table_put_rows @table_del_rows @table_fwd_rows @table_rev_rows : engine.

Section scans.
Context `{Engine, JsonParser}.
Implicit Types (tb : Table) (p key : string).

Lemma raw_stream_prefix_filter tb p :
  raw_stream_prefix tb p = filter (λ e, starts_with p e = true) (btree_iter (table_rows tb)).
Proof.
  unfold raw_stream_prefix, raw_stream_from. rewrite table_fwd_rows.
  rewrite (take_while_filter entry_le).
  - rewrite list_filter_filter. apply filter_ext_elem. intros [k v] _. unfold starts_with. cbn [fst].
    split; [by intros []|]. intros Hp. split; [done|]. by apply prefix_le.
  - apply StronglySorted_filter, btree_iter_sorted.
  - intros [k v] [k' v'] [Hk _]%list_elem_of_filter _ Hle. unfold starts_with, entry_le in *. cbn [fst] in *.
    by apply prefix_convex.
Qed.

Lemma take_while_fmap {A B} (f : A → B) (q : B → bool) (l : list A) :
  take_while q (f <$> l) = f <$> take_while (λ x, q (f x)) l.
Proof. induction l as [|x l IH]; [done|]. csimpl. destruct (q (f x)); csimpl; by rewrite ?IH. Qed.

Lemma raw_keys_prefix_fst tb p : raw_keys_prefix tb p = (raw_stream_prefix tb p).*1.
Proof. exact (take_while_fmap fst (String.prefix p) _). Qed.

Lemma elem_of_raw_keys_prefix tb p key :
  key ∈ raw_keys_prefix tb p ↔ String.prefix p key = true ∧ is_Some (table_rows tb !! key).
Proof.
  rewrite raw_keys_prefix_fst, raw_stream_prefix_filter, list_elem_of_fmap. split.
  - intros ([k v] & -> & [Hp Hin]%list_elem_of_filter). apply elem_of_btree_iter in Hin. split; [done|by exists v].
  - intros [Hp [v Hv]]. exists (key, v). split; [done|]. apply list_elem_of_filter. split; [done|]. by apply elem_of_btree_iter.
Qed.

Lemma sorted_fst (l : list (string * string)) : StronglySorted entry_le l → StronglySorted key_le l.*1.
Proof.
  induction 1 as [|e l HS IH Hall]; csimpl; [constructor|]. constructor; [done|]. by apply Forall_fmap.
Qed.

Lemma raw_keys_prefix_sorted tb p : StronglySorted key_le (raw_keys_prefix tb p) ∧ NoDup (raw_keys_prefix tb p).
Proof.
  rewrite raw_keys_prefix_fst, raw_stream_prefix_filter. split.
  - apply sorted_fst, StronglySorted_filter, btree_iter_sorted.
  - eapply sublist_NoDup; [apply (btree_keys_NoDup (table_rows tb))|]. apply fmap_sublist, sublist_filter.
Qed.

(** The rows up to a key end with the row of that key. *)
Lemma rows_up_to_last tb p v :
  table_rows tb !! p = Some v →
  ∃ l, filter (λ e, key_le e.1 p) (btree_iter (table_rows tb)) = l ++ [(p, v)] ∧ Forall (λ e, e.1 ≠ p) l.
Proof.
  intros Hv. set (l := filter _ _).
  assert (StronglySorted entry_le l) as HS by apply StronglySorted_filter, btree_iter_sorted.
  assert (NoDup l.*1) as ND.
  { eapply sublist_NoDup; [apply (btree_keys_NoDup (table_rows tb))|]. apply fmap_sublist, sublist_filter. }
  assert ((p, v) ∈ l) as Hin.
  { apply list_elem_of_filter. split; [by cbn; reflexivity|]. by apply elem_of_btree_iter. }
  apply list_elem_of_split in Hin as (l1 & l2 & El). rewrite El in HS, ND.
  destruct l2 as [|e l2].
  { exists l1. split; [done|]. apply Forall_forall. intros e He ->%eq_sym.
    rewrite fmap_app in ND. apply NoDup_app in ND as (_ & Hd & _). apply (Hd e.1); [by apply list_elem_of_fmap_2|].
    by left. }
  exfalso. assert (e ∈ l) as [Hle _]%list_elem_of_filter by (rewrite El; set_solver).
  assert (entry_le (p, v) e) as Hge.
  { apply (StronglySorted_app_1_elem_of entry_le (l1 ++ [(p, v)]) (e :: l2)).
    - by rewrite <-app_assoc.
    - set_solver.
    - by left. }
  rewrite fmap_app in ND. apply NoDup_app in ND as (_ & _ & ND). apply NoDup_cons in ND as [Hn _]. apply Hn.
  assert (e.1 = p) as He by (apply (anti_symm key_le); [done|exact Hge]). cbn. rewrite <-He. by left.
Qed.

Lemma rows_below_no_prefix p (l : list (string * string)) :
  Forall (λ e, key_le e.1 p ∧ e.1 ≠ p) l → take_while (String.prefix p) l.*1 = [].
Proof.
  intros Hl. destruct Hl as [|[k v] l [Hle Hne] _]; [done|]. csimpl.
  destruct (String.prefix p k) eqn:Hp; [|done]. exfalso. apply Hne. cbn [fst] in *.
  apply (anti_symm key_le); [done|]. by apply prefix_le.
Qed.

Lemma rev_raw_keys_prefix_eq tb p :
  rev_raw_keys_prefix tb p = match table_rows tb !! p with Some _ => [p] | None => [] end.
Proof.
  unfold rev_raw_keys_prefix, rev_raw_keys_from. rewrite table_rev_rows.
  assert (Forall (λ e, key_le e.1 p) (filter (λ e, key_le e.1 p) (btree_iter (table_rows tb)))) as Hle.
  { apply Forall_forall. by intros e [He _]%list_elem_of_filter. }
  destruct (table_rows tb !! p) as [v|] eqn:Hv.
  - destruct (rows_up_to_last tb p v Hv) as (l & El & Hl). rewrite El in Hle |- *.
    rewrite reverse_snoc. csimpl. assert (String.prefix p p = true) as -> by (rewrite <-(append_nil_r p) at 2; apply prefix_append).
    f_equal. apply rows_below_no_prefix. apply Forall_reverse. apply Forall_app in Hle as [Hle _].
    apply Forall_and. done.
  - apply rows_below_no_prefix, Forall_reverse, Forall_and. split; [done|]. apply Forall_forall.
    intros [k w] [_ Hin]%list_elem_of_filter. apply elem_of_btree_iter in Hin. cbn. congruence.
Qed.
End scans.

(** ** Typed rows *)

Section typed.
Context `{Engine, JsonParser}.
Implicit Types (tb : Table) (key : string) (n : N).

Lemma serialize_u64 n : serialize (Some 8) (SU64 n) = Ok (u64_to_be_bytes n).
Proof. unfold serialize. cbn. unfold u64_to_be_bytes. by rewrite length_be_encode. Qed.

Lemma raw_aput_u64 tb key n : raw_aput tb 8 key (SU64 n) = Ok (table_put tb key (u64_to_be_bytes n)).
Proof. unfold raw_aput, raw_bput. by rewrite serialize_u64. Qed.

Lemma aput_raw_u64 tb n key : aput_raw tb 8 (SU64 n) key = Ok (table_put tb (u64_to_be_bytes n) key).
Proof. unfold aput_raw, bput_raw. by rewrite serialize_u64. Qed.

Lemma aput_u64 tb n m : aput tb 8 8 (SU64 n) (SU64 m) = Ok (table_put tb (u64_to_be_bytes n) (u64_to_be_bytes m)).
Proof. unfold aput, bput, bput_raw. cbn [fst snd]. by rewrite !serialize_u64. Qed.

Lemma serialize_strings s l : serialize None (STuple (SStr <$> s :: l)) = Ok (record_bytes (s :: l)).
Proof. unfold serialize. by rewrite key_ser. Qed.

Lemma put_aput_strings tb s l n :
  put_aput tb 8 (STuple (SStr <$> s :: l)) (SU64 n) = Ok (table_put tb (record_bytes (s :: l)) (u64_to_be_bytes n)).
Proof. unfold put_aput, bput, bput_raw. cbn [fst snd]. rewrite serialize_u64, serialize_strings. done. Qed.

Lemma aput_put_strings tb n s l :
  aput_put tb 8 (SU64 n) (STuple (SStr <$> s :: l)) = Ok (table_put tb (u64_to_be_bytes n) (record_bytes (s :: l))).
Proof. unfold aput_put, bput, bput_raw. cbn [fst snd]. rewrite serialize_u64, serialize_strings. done. Qed.

Lemma aqry_u64 tb n : aqry tb 8 (SU64 n) = handle_from (table_rows tb !! u64_to_be_bytes n).
Proof. unfold aqry, bqry, Map_get. rewrite serialize_u64. cbn [expect map_err]. by rewrite table_get_rows. Qed.

Lemma qry_strings tb s l : qry tb (STuple (SStr <$> s :: l)) = handle_from (table_rows tb !! record_bytes (s :: l)).
Proof. unfold qry, bqry, Map_get. rewrite serialize_strings. cbn [expect map_err]. by rewrite table_get_rows. Qed.

Lemma deserialize_u64 n : (n <= U64_MAX)%N → deserialize_slice DU64 (u64_to_be_bytes n) = Ok (VU64 n).
Proof.
  intros Hn. unfold deserialize_slice, from_slice. cbn [deserialize].
  rewrite (take_be8_at _ n "" (u64_width n Hn)); [done|]. split; [unfold in_bounds; cbn; lia|]. cbn. by rewrite append_nil_r.
Qed.

Lemma deserialized_u64_row (o : option string) n :
  (n <= U64_MAX)%N → o = Some (u64_to_be_bytes n) → deserialized_u64 (handle_from o) = Ok n.
Proof.
  intros Hn ->. unfold deserialized_u64, deserialized. cbn [handle_from ok_or]. by rewrite deserialize_u64.
Qed.

Lemma deserialize_string accepts s :
  utf8_valid s = true → accepts s = true → deserialize_slice (DStr accepts) s = Ok (VStr s).
Proof.
  intros Hu Ha. unfold deserialize_slice, from_slice. cbn [deserialize].
  rewrite (text_read accepts s _ ""); [done|done| |by left].
  split; [unfold in_bounds; cbn; lia|]. cbn. by rewrite append_nil_r.
Qed.

Lemma deserialized_str_row accepts s :
  utf8_valid s = true → accepts s = true → deserialized_str accepts (Ok s) = Ok s.
Proof. intros Hu Ha. unfold deserialized_str, deserialized. by rewrite deserialize_string. Qed.

Lemma fields_strings parses l :
  Forall (λ s, utf8_valid s = true) l → fields parses (const (DStr (λ _, true)) <$> l) (SStr <$> l) (VStr <$> l) l.
Proof. induction 1 as [|s l Hs Hl IH]; csimpl; constructor; [by constructor|done]. Qed.

Lemma deserialize_strings l :
  Forall (λ s, utf8_valid s = true) l →
  deserialize_slice (DTuple (const (DStr (λ _, true)) <$> l)) (record_bytes l) = Ok (VTuple (VStr <$> l)).
Proof.
  intros Hl. destruct (tuple_roundtrip json_parses _ _ _ _ [] [] (fields_strings _ l Hl)) as (_ & st & Hd & _); [constructor|].
  rewrite !app_nil_r in Hd. unfold deserialize_slice. by rewrite Hd.
Qed.
End typed.

(** ** Properties *)

(** Scanning a table by the prefix of some leading strings yields, in key
    order, exactly the rows whose key has those strings and at least one more:
    the separator that ends the prefix keeps a string from matching a longer
    one. *)
Theorem prefix_scan_exact `{Engine} (tb : Table) s l :
  Forall (λ k, utf8_valid k = true) (s :: l) →
  ∃ keys, keys_prefix_raw tb (STuple ((SStr <$> s :: l) ++ [SUnitStruct "Interfix"])) = Ok keys
    ∧ StronglySorted key_le keys
    ∧ ∀ s' l', Forall (λ k, utf8_valid k = true) (s' :: l') → ∃ key,
        serialize_key (STuple (SStr <$> s' :: l')) = Ok key
        ∧ (key ∈ keys ↔ is_Some (table_rows tb !! key) ∧ ∃ k rest, s' :: l' = (s :: l) ++ k :: rest).
Proof.
  intros Hl. unfold keys_prefix_raw, serialize_key, serialize. rewrite prefix_ser. eexists. split; [done|].
  split; [apply raw_keys_prefix_sorted|]. intros s' l' Hl'. exists (record_bytes (s' :: l')).
  rewrite key_ser. split; [done|]. rewrite elem_of_raw_keys_prefix, prefix_spec, (record_prefix s l s' l' Hl Hl'). tauto.
Qed.

#[local] Existing Instance ordered_engine.

Lemma prefix_scan_exact_witness :
  ∃ keys, keys_prefix_raw (H := ordered_engine) ∅ (STuple ([SStr "!a:ex.co"] ++ [SUnitStruct "Interfix"])) = Ok keys
    ∧ StronglySorted key_le keys
    ∧ ∀ s' l', Forall (λ k, utf8_valid k = true) (s' :: l') → ∃ key,
        serialize_key (STuple (SStr <$> s' :: l')) = Ok key
        ∧ (key ∈ keys ↔ is_Some (table_rows ∅ !! key) ∧ ∃ k rest, s' :: l' = ["!a:ex.co"] ++ k :: rest).
Proof. apply (prefix_scan_exact ∅ "!a:ex.co" []). by repeat constructor. Defined.

(** A reverse prefix scan finds no row below the prefix: it seeks
    backwards from the prefix, which sorts before all keys that extend it, so
    it yields the row whose key is the prefix itself, or nothing. *)
Theorem rev_prefix_scan_misses `{Engine} (tb : Table) (p : string) :
  rev_raw_keys_prefix tb p = match table_rows tb !! p with Some _ => [p] | None => [] end.
Proof. apply rev_raw_keys_prefix_eq. Qed.
