(* ===== verification/Pairs.v ===== *)
(** * Tables keyed by pairs of strings

    Many tables of the server relate two identifiers: the key is the pair, and a
    scan by the first component with an [Interfix] lists the second components.
    This file holds the operations such services share and what they do on a
    table all of whose keys are pairs of accepted identifiers. *)

From S2P Require Import Prelude Bytes Slices DbCodec DbMap.

(** ** Operations *)

Section operations.
Context `{Engine, JsonParser}.
Implicit Types (tb : Table) (a b : string) (ok : string → bool).

(** [(a, b)] and [(a, Interfix)] *)
Definition pair_ser a b : Ser := STuple [SStr a; SStr b].
Definition prefix_ser_of a : Ser := STuple [SStr a; SUnitStruct "Interfix"].

(** [keys_prefix(&(a, Interfix))], read as [(Ignore, &B)]: the second ones. *)
Definition second_of (v : DeValue) : option string :=
  match v with VTuple [VUnit; VStr b] => Some b | _ => None end.
Definition seconds tb ok a : Result DbError (list string) :=
  let? keys := keys_prefix tb (DTuple [DIgnore; DStr ok]) (prefix_ser_of a) in Ok (omap second_of keys).

(** [keys_raw_prefix(a)], read as [(Ignore, &B)]: no separator ends the prefix. *)
Definition seconds_raw tb ok a : list string :=
  omap second_of (ignore_err (deserialize_slice (DTuple [DIgnore; DStr ok]) <$> raw_keys_prefix tb a)).

(** [contains] *)
Definition contains_pair tb a b : bool := match qry tb (pair_ser a b) with Ok _ => true | Err _ => false end.

(** Both components of every key below a first one. *)
Definition pair_of (v : DeValue) : option (string * string) :=
  match v with VTuple [VStr a; VStr b] => Some (a, b) | _ => None end.
Definition pairs_of tb (ok1 ok2 : string → bool) a : Result DbError (list (string * string)) :=
  let? keys := keys_prefix tb (DTuple [DStr ok1; DStr ok2]) (prefix_ser_of a) in Ok (omap pair_of keys).
End operations.

(** ** Keys *)

Definition pair_key (a b : string) : string := record_bytes [a; b].
Definition below (a : string) : string := record_bytes [a] +:+ sep_str.

Lemma pair_below a b : pair_key a b = below a +:+ b.
Proof. unfold pair_key, below. cbn [record_bytes tail_bytes]. by rewrite !append_nil_r, append_assoc. Qed.

Lemma below_prefix a b : String.prefix (below a) (pair_key a b) = true.
Proof. rewrite pair_below. apply prefix_append. Qed.

Lemma append_le p (a b : string) : key_le (p +:+ a) (p +:+ b) ↔ key_le a b.
Proof. rewrite !key_le_compare. induction p as [|c p IH]; [done|]. cbn. by rewrite ascii_compare_refl. Qed.

Lemma pairs_sorted a (l : list string) : StronglySorted key_le l → StronglySorted key_le (pair_key a <$> l).
Proof.
  induction 1 as [|b l Hs IH Hall]; csimpl; [constructor|]. constructor; [done|]. apply Forall_fmap.
  eapply Forall_impl; [exact Hall|]. intros b' Hb. change (key_le (pair_key a b) (pair_key a b')). rewrite !pair_below. by apply append_le.
Qed.

Lemma pair_key_inj_r a b b' : pair_key a b = pair_key a b' → b = b'.
Proof. rewrite !pair_below. intros He. by apply append_inj_l in He as [_ ?]. Qed.

Lemma below_disjoint a a' key :
  utf8_valid a = true → utf8_valid a' = true → String.prefix (below a) key = true → String.prefix (below a') key = true → a = a'.
Proof.
  unfold below. cbn [record_bytes tail_bytes]. rewrite !append_nil_r. intros Ha Ha' [t ->]%prefix_spec [t' He]%prefix_spec.
  rewrite <-!append_assoc in He. apply no_sep_split in He as [? _]; [done|by apply utf8_no_sep..|right; by eexists|right; by eexists].
Qed.

Lemma pair_key_inj a b a' b' :
  utf8_valid a = true → utf8_valid a' = true → pair_key a b = pair_key a' b' → a = a' ∧ b = b'.
Proof.
  intros Ha Ha' E. assert (a = a') as ->.
  { apply (below_disjoint a a' (pair_key a b)); [done..|apply below_prefix|]. rewrite E. apply below_prefix. }
  split; [done|]. by apply (pair_key_inj_r a').
Qed.

Section tables.
Context `{Engine, JsonParser}.
Implicit Types (tb : Table) (a b key val : string) (ok : string → bool).

Lemma prefix_of_ser a : serialize_key (prefix_ser_of a) = Ok (below a).
Proof.
  unfold serialize_key, serialize. change (prefix_ser_of a) with (STuple ((SStr <$> [a]) ++ [SUnitStruct "Interfix"])).
  by rewrite prefix_ser.
Qed.

Lemma pair_ser_key a b : serialize None (pair_ser a b) = Ok (pair_key a b).
Proof. change (pair_ser a b) with (STuple (SStr <$> [a; b])). apply serialize_strings. Qed.

Lemma put_raw_pair tb a b val : put_raw tb (pair_ser a b) val = Ok (table_put tb (pair_key a b) val).
Proof. unfold put_raw, bput_raw. by rewrite pair_ser_key. Qed.

Lemma del_pair tb a b : del tb (pair_ser a b) = Ok (table_del tb (pair_key a b)).
Proof. unfold del, bdel. by rewrite pair_ser_key. Qed.

Lemma qry_pair tb a b : qry tb (pair_ser a b) = handle_from (table_rows tb !! pair_key a b).
Proof. unfold qry, bqry, Map_get. rewrite pair_ser_key. cbn [expect map_err]. by rewrite table_get_rows. Qed.

(** The pair is a key of the table. *)
Definition related tb a b : Prop := is_Some (table_rows tb !! pair_key a b).

Lemma contains_related tb a b : contains_pair tb a b = true ↔ related tb a b.
Proof.
  unfold contains_pair, related. rewrite qry_pair. destruct (table_rows tb !! pair_key a b); cbn; [by split|].
  split; [done|]. by intros [? ?].
Qed.

(** Every key is a pair of accepted identifiers. *)
Definition pair_table tb (ok1 ok2 : string → bool) : Prop :=
  ∀ key, is_Some (table_rows tb !! key) →
  ∃ a b, key = pair_key a b ∧ utf8_valid a = true ∧ utf8_valid b = true ∧ ok1 a = true ∧ ok2 b = true.

Lemma pair_table_put tb ok1 ok2 a b val :
  pair_table tb ok1 ok2 → utf8_valid a = true → utf8_valid b = true → ok1 a = true → ok2 b = true →
  pair_table (table_put tb (pair_key a b) val) ok1 ok2.
Proof.
  intros Ht Ha Hb Hoa Hob key. rewrite table_put_rows. destruct (decide (key = pair_key a b)) as [->|Hne].
  - intros _. by exists a, b.
  - rewrite lookup_insert_ne by done. apply Ht.
Qed.

Lemma pair_table_del tb ok1 ok2 key : pair_table tb ok1 ok2 → pair_table (table_del tb key) ok1 ok2.
Proof. intros Ht k. rewrite table_del_rows. intros [v [_ Hv]%lookup_delete_Some]. apply Ht. by exists v. Qed.

(** ** Scans *)

Lemma raw_keys_prefix_unique tb p (l : list string) :
  StronglySorted key_le l → NoDup l → (∀ k, k ∈ l ↔ String.prefix p k = true ∧ is_Some (table_rows tb !! k)) →
  raw_keys_prefix tb p = l.
Proof.
  intros Hs ND Hl. destruct (raw_keys_prefix_sorted tb p) as [Hs' ND'].
  rewrite (bset_iter_spec (list_to_set l) l); [|done..|set_solver].
  apply bset_iter_spec; [done..|]. intros k. rewrite elem_of_list_to_set, Hl. apply elem_of_raw_keys_prefix.
Qed.

Lemma remove_all_rows tb (keys : list string) key :
  table_rows (foldl Map_remove tb keys) !! key = if decide (key ∈ keys) then None else table_rows tb !! key.
Proof.
  revert tb. induction keys as [|k keys IH]; intros tb; cbn [foldl]; [by rewrite decide_False by set_solver|].
  rewrite IH. unfold Map_remove. rewrite table_del_rows. destruct (decide (key = k)) as [->|Hne].
  - rewrite lookup_delete_eq, (decide_True (P := k ∈ k :: keys)) by by left. by case_decide.
  - rewrite lookup_delete_ne by done. rewrite (decide_ext (key ∈ k :: keys) (key ∈ keys)) by set_solver. done.
Qed.

Lemma decode_second ok a b :
  utf8_valid a = true → utf8_valid b = true → ok b = true →
  deserialize_slice (DTuple [DIgnore; DStr ok]) (pair_key a b) = Ok (VTuple [VUnit; VStr b]).
Proof.
  intros Ha Hb Hok.
  destruct (tuple_roundtrip json_parses [DIgnore; DStr ok] [SStr a; SStr b] [VUnit; VStr b] [a; b] [] [])
    as (_ & st & Hd & _); [|constructor|].
  - apply fields_cons; [by apply field_ignore|]. apply fields_last. by apply field_str.
  - unfold deserialize_slice. cbn [app] in Hd. unfold pair_key. by rewrite Hd.
Qed.

Lemma decode_pair ok1 ok2 a b :
  utf8_valid a = true → utf8_valid b = true → ok1 a = true → ok2 b = true →
  deserialize_slice (DTuple [DStr ok1; DStr ok2]) (pair_key a b) = Ok (VTuple [VStr a; VStr b]).
Proof.
  intros Ha Hb Hoa Hob.
  destruct (tuple_roundtrip json_parses [DStr ok1; DStr ok2] [SStr a; SStr b] [VStr a; VStr b] [a; b] [] [])
    as (_ & st & Hd & _); [|constructor|].
  - apply fields_cons; [by apply field_str|]. apply fields_last. by apply field_str.
  - unfold deserialize_slice. cbn [app] in Hd. unfold pair_key. by rewrite Hd.
Qed.

(** The keys below a first component, as the second ones of them. *)
Lemma keys_below tb ok1 ok2 a :
  pair_table tb ok1 ok2 → utf8_valid a = true →
  ∃ l, raw_keys_prefix tb (below a) = pair_key a <$> l ∧ StronglySorted key_le l ∧ NoDup l
    ∧ (∀ b, b ∈ l ↔ related tb a b) ∧ Forall (λ b, utf8_valid b = true ∧ ok2 b = true) l.
Proof.
  intros Ht Ha. set (seconds_set := list_to_set (omap (strip_prefix (below a)) (raw_keys_prefix tb (below a))) : gset string).
  assert (∀ b, b ∈ seconds_set ↔ related tb a b) as Hin.
  { intros b. unfold seconds_set, related. rewrite elem_of_list_to_set, list_elem_of_omap. split.
    - intros (k & [_ Hk]%elem_of_raw_keys_prefix & ->%strip_prefix_spec). by rewrite pair_below.
    - intros Hr. exists (pair_key a b). rewrite elem_of_raw_keys_prefix. split; [|by rewrite pair_below; apply strip_prefix_spec].
      split; [apply below_prefix|done]. }
  exists (bset_iter seconds_set). split_and!.
  - apply raw_keys_prefix_unique.
    + apply pairs_sorted, bset_iter_sorted.
    + apply NoDup_fmap_2; [intros b b'; apply pair_key_inj_r|apply bset_iter_NoDup].
    + intros k. rewrite list_elem_of_fmap. split.
      * intros (b & -> & Hb%elem_of_bset_iter%Hin). split; [apply below_prefix|done].
      * intros [[b ->]%prefix_spec Hk]. exists b. rewrite <-pair_below in *. split; [done|]. by apply elem_of_bset_iter, Hin.
  - apply bset_iter_sorted.
  - apply bset_iter_NoDup.
  - intros b. by rewrite elem_of_bset_iter.
  - apply Forall_forall. intros b Hb%elem_of_bset_iter%Hin. destruct (Ht _ Hb) as (a' & b' & E & Ha' & Hb' & _ & Hok).
    apply pair_key_inj in E as [-> ->]; done.
Qed.

(** A scan by the first component yields its second ones, in order. *)
Lemma seconds_exact tb ok1 ok2 a :
  pair_table tb ok1 ok2 → utf8_valid a = true →
  ∃ l, seconds tb ok2 a = Ok l ∧ StronglySorted key_le l ∧ NoDup l ∧ (∀ b, b ∈ l ↔ related tb a b)
    ∧ Forall (λ b, utf8_valid b = true ∧ ok2 b = true) l.
Proof.
  intros Ht Ha. destruct (keys_below tb ok1 ok2 a Ht Ha) as (l & Hk & Hs & ND & Hin & Hl). exists l. split; [|done].
  unfold seconds, keys_prefix, keys_prefix_raw. rewrite prefix_of_ser. cbn [expect map_err]. rewrite Hk. unfold ignore_err.
  f_equal. clear Hk Hs ND Hin. induction Hl as [|b l [Hb Hok] Hl IH]; [done|]. csimpl. rewrite decode_second by done. cbn. by rewrite IH.
Qed.

Lemma pairs_exact tb ok1 ok2 a :
  pair_table tb ok1 ok2 → utf8_valid a = true → ok1 a = true →
  ∃ l, pairs_of tb ok1 ok2 a = Ok (pair a <$> l) ∧ NoDup l ∧ (∀ b, b ∈ l ↔ related tb a b)
    ∧ Forall (λ b, utf8_valid b = true ∧ ok2 b = true) l.
Proof.
  intros Ht Ha Hoa. destruct (keys_below tb ok1 ok2 a Ht Ha) as (l & Hk & Hs & ND & Hin & Hl). exists l. split; [|done].
  unfold pairs_of, keys_prefix, keys_prefix_raw. rewrite prefix_of_ser. cbn [expect map_err]. rewrite Hk. unfold ignore_err.
  f_equal. clear Hk Hs ND Hin. induction Hl as [|b l [Hb Hok] Hl IH]; [done|]. csimpl. rewrite decode_pair by done. cbn. by rewrite IH.
Qed.

(** Where no longer identifier has rows, the separator is not missed. *)
Lemma seconds_raw_exact tb ok1 ok2 a :
  pair_table tb ok1 ok2 → utf8_valid a = true →
  (∀ key, is_Some (table_rows tb !! key) → String.prefix a key = true → String.prefix (below a) key = true) →
  StronglySorted key_le (seconds_raw tb ok2 a) ∧ NoDup (seconds_raw tb ok2 a) ∧ ∀ b, b ∈ seconds_raw tb ok2 a ↔ related tb a b.
Proof.
  intros Ht Ha Halone. destruct (keys_below tb ok1 ok2 a Ht Ha) as (l & Hk & Hs & ND & Hin & Hl).
  assert (seconds_raw tb ok2 a = l) as ->; [|done].
  unfold seconds_raw. replace (raw_keys_prefix tb a) with (pair_key a <$> l).
  - clear Hk Hs ND Hin. unfold ignore_err. induction Hl as [|b l [Hb Hok] Hl IH]; [done|]. csimpl. rewrite decode_second by done.
    cbn. by rewrite IH.
  - symmetry. rewrite <-Hk. destruct (raw_keys_prefix_sorted tb (below a)) as [Hs' ND']. apply raw_keys_prefix_unique; [done..|].
    intros key. rewrite elem_of_raw_keys_prefix. split; (intros [Hp Hrow]; split; [|done]); [|by apply Halone].
    apply prefix_spec in Hp as [t ->]. apply prefix_spec. exists (sep_str +:+ t). unfold below. cbn [record_bytes tail_bytes].
    by rewrite append_nil_r, append_assoc.
Qed.

(** Without the separator, the rows of longer identifiers are listed too. *)
Lemma elem_of_seconds_raw tb ok1 ok2 a b :
  pair_table tb ok1 ok2 →
  b ∈ seconds_raw tb ok2 a ↔ ∃ a', related tb a' b ∧ utf8_valid a' = true ∧ utf8_valid b = true ∧ ok2 b = true
                               ∧ String.prefix a (pair_key a' b) = true.
Proof.
  intros Ht. unfold seconds_raw, ignore_err. rewrite list_elem_of_omap. split.
  - intros (v & Hv & Hs). apply list_elem_of_omap in Hv as (res & Hr & Hok). apply list_elem_of_fmap in Hr as (k & -> & Hk).
    apply elem_of_raw_keys_prefix in Hk as [Hp Hrow]. destruct (Ht k Hrow) as (a' & b' & -> & Ha' & Hb' & _ & Hob).
    rewrite decode_second in Hok by done. cbn in Hok. injection Hok as <-. cbn in Hs. injection Hs as <-. by exists a'.
  - intros (a' & Hr & Ha' & Hb & Hok & Hp). exists (VTuple [VUnit; VStr b]). split; [|done].
    apply list_elem_of_omap. eexists. split; [apply list_elem_of_fmap; exists (pair_key a' b); split; [done|]|].
    + by apply elem_of_raw_keys_prefix.
    + by rewrite decode_second.
Qed.
End tables.
