(* ===== verification/Counter.v ===== *)
(** * The sequence-number counter ([src/src/core/utils/two_phase_counter.rs],
    [src/src/service/globals/data.rs])

    A number is dispatched to a writer, persisted first, and stays pending
    until the writer drops its permit; readers go by the retired number, below
    the oldest pending one.  [Counter_state] is the state under the lock, so
    each operation is one step; [System] adds the permits in the hands of tasks
    and the numbers ever issued, and [step] is any task drawing or dropping a
    permit, or the process starting over from the database. *)

From S2P Require Import Prelude Bytes Slices DbCodec DbMap.

Local Set Warnings "-register-all".

(** ** [two_phase_counter.rs] *)

(** [Overflow] and a failed [commit] are returned; the rest panic. *)
Inductive CounterError := Overflow | CommitFailed | NotPending | ReleaseFailed.

Record Counter_state := mkCounter { dispatched : N; pending : list N }.
Record Permit := mkPermit { permit_retired : N; permit_id : N }.

Section counter.
(** The callbacks, on what they act on. *)
Context {W : Type} (commit release : N → W → Result CounterError W).
Implicit Types (c : Counter_state).

Definition counter_new (init : N) : Counter_state := mkCounter init [].

Definition retired c : N :=
  match pending c with
  | v :: _ => v - 1
  | [] => dispatched c
  end.

Definition pending_index c (id : N) : option nat := binary_search_by (λ v, N.compare v id) (pending c).

Definition dispatch c (w : W) : Result CounterError (Permit * (Counter_state * W)) :=
  let prev := dispatched c in
  if (prev <? U64_MAX)%N then
    let next := (prev + 1)%N in
    let? w' := commit next w in
    Ok (mkPermit (retired c) next, (mkCounter next (pending c ++ [next]), w'))
  else Err Overflow.

Definition retire (id : N) c (w : W) : Result CounterError (Counter_state * W) :=
  let? index := ok_or NotPending (pending_index c id) in
  let c' := mkCounter (dispatched c) (base.delete index (pending c)) in
  if (index =? 0)%nat then
    let? w' := release (match pending c' with [] => dispatched c | _ => id end) w in Ok (c', w')
  else Ok (c', w).

(** [range], [current] *)
Definition counter_range c : N * N := (retired c, dispatched c).
Definition counter_current c : N := retired c.
End counter.

(** ** [globals/data.rs] *)

Section data.
Context `{Engine}.

(** [retires] is the value of the watch channel. *)
Record Data := mkData { global : Table; retires : N; counter : Counter_state }.

Definition COUNTER : string := "c".

Definition store_count (count : N) (tb : Table) : Table := Map_insert tb COUNTER (u64_to_be_bytes count).
Definition stored_count (tb : Table) : Result CounterError N :=
  match Map_get tb COUNTER with
  | Ok bytes => ok_or CommitFailed (from_be_bytes 8 bytes)
  | Err _ => Ok 0%N
  end.

(** The callbacks, on the table and the channel. *)
Definition commit_count (count : N) (w : Table * N) : Result CounterError (Table * N) :=
  Ok (store_count count w.1, w.2).
Definition handle_retire (count : N) (w : Table * N) : Result CounterError (Table * N) := Ok (w.1, count).

Definition Data_new (tb : Table) : Result CounterError Data :=
  let? count := stored_count tb in Ok (mkData tb count (counter_new count)).

Definition next_count (d : Data) : Result CounterError (Permit * Data) :=
  let? r := dispatch commit_count (counter d) (global d, retires d) in
  Ok (r.1, mkData r.2.2.1 r.2.2.2 r.2.1).

(** [Drop for Permit] *)
Definition drop_permit (id : N) (d : Data) : Result CounterError Data :=
  let? r := retire handle_retire id (counter d) (global d, retires d) in
  Ok (mkData r.2.1 r.2.2 r.1).

Definition current_count (d : Data) : N := counter_current (counter d).
Definition pending_count (d : Data) : N * N := counter_range (counter d).

(** What a waiter sees: nothing until the channel reaches the count. *)
Definition wait_count (count : N) (d : Data) : option N :=
  if (count <=? retires d)%N then Some (retires d) else None.
Definition wait_pending (d : Data) : option N := wait_count (dispatched (counter d)) d.

(** ** Tasks *)

Record System := mkSystem { data : Data; held : gset N; issued : list N }.

Inductive step : System → System → Prop :=
  | step_next s p d :
      next_count (data s) = Ok (p, d) →
      step s (mkSystem d ({[permit_id p]} ∪ held s) (permit_id p :: issued s))
  | step_drop s id d :
      id ∈ held s → drop_permit id (data s) = Ok d →
      step s (mkSystem d (held s ∖ {[id]}) (issued s))
  | step_restart s d :
      Data_new (global (data s)) = Ok d → step s (mkSystem d ∅ (issued s)).

Definition initial (tb : Table) (s : System) : Prop :=
  table_rows tb !! COUNTER = None ∧ ∃ d, Data_new tb = Ok d ∧ s = mkSystem d ∅ [].

Definition reachable (s : System) : Prop := ∃ tb s0, initial tb s0 ∧ rtc step s0 s.

(** Dropping permits one after the other. *)
Fixpoint drop_all (ids : list N) (d : Data) : Result CounterError Data :=
  match ids with
  | [] => Ok d
  | id :: ids' => let? d' := drop_permit id d in drop_all ids' d'
  end.
End data.

(** ** The invariant *)

Section invariant.
Context `{Engine}.
Implicit Types (c : Counter_state) (d : Data) (s : System).

Record data_inv d (ids : gset N) : Prop := {
  inv_sorted : StronglySorted N.lt (pending (counter d));
  inv_held id : id ∈ pending (counter d) ↔ id ∈ ids;
  inv_range id : id ∈ ids → (0 < id <= dispatched (counter d))%N;
  inv_width : (dispatched (counter d) <= U64_MAX)%N;
  inv_stored : stored_count (global d) = Ok (dispatched (counter d));
  inv_watch : (retires d <= retired (counter d))%N;
  inv_drained : pending (counter d) = [] → retires d = dispatched (counter d);
}.

Record inv s : Prop := {
  inv_data : data_inv (data s) (held s);
  inv_issued id : id ∈ issued s → (id <= dispatched (counter (data s)))%N;
  inv_held_issued id : id ∈ held s → id ∈ issued s;
  inv_unique : NoDup (issued s);
}.

Lemma stored_store n tb : (n <= U64_MAX)%N → stored_count (store_count n tb) = Ok n.
Proof.
  intros Hn. unfold stored_count, store_count, Map_get, Map_insert.
  rewrite table_get_rows, table_put_rows, lookup_insert_eq. cbn [handle_from ok_or].
  unfold u64_to_be_bytes. by rewrite (from_be_bytes_encode 8 n (u64_width n Hn)).
Qed.

Lemma pending_bisected c id : StronglySorted N.lt (pending c) → bisected (λ v, N.compare v id) (pending c).
Proof.
  intros Hs i j x y Hij Hx Hy. pose proof (sorted_lookup _ _ _ _ _ _ Hs Hij Hx Hy) as Hlt.
  split; rewrite ?N.compare_lt_iff, ?N.compare_gt_iff; lia.
Qed.

Lemma pending_index_spec c id :
  StronglySorted N.lt (pending c) → id ∈ pending c → ∃ i, pending_index c id = Some i ∧ pending c !! i = Some id.
Proof.
  intros Hs Hin. pose proof (binary_search_by_spec _ _ (pending_bisected c id Hs)) as Hb. unfold pending_index.
  destruct (binary_search_by _ _) as [i|].
  - destruct Hb as (x & Hx & ->%N.compare_eq_iff). by exists i.
  - exfalso. apply (Hb id Hin). apply N.compare_refl.
Qed.

Lemma sorted_delete (l : list N) i : StronglySorted N.lt l → StronglySorted N.lt (base.delete i l).
Proof.
  intros Hs. revert i. induction Hs as [|x l Hs IH Hall]; intros i; [by destruct i; constructor|].
  destruct i as [|i]; [done|]. cbn. constructor; [apply IH|].
  rewrite Forall_forall in *. intros y Hy. apply Hall. eapply elem_of_submseteq; [exact Hy|].
  apply sublist_submseteq, sublist_delete.
Qed.

Lemma sorted_NoDup (l : list N) : StronglySorted N.lt l → NoDup l.
Proof.
  induction 1 as [|x l Hs IH Hall]; constructor; [|done]. intros Hx.
  rewrite Forall_forall in Hall. specialize (Hall x Hx). lia.
Qed.

Lemma elem_of_delete (l : list N) i x y :
  StronglySorted N.lt l → l !! i = Some x → y ∈ base.delete i l ↔ y ∈ l ∧ y ≠ x.
Proof.
  intros Hs Hx. pose proof (sorted_NoDup l Hs) as ND.
  pose proof (delete_Permutation l i x Hx) as Hp. rewrite Hp in ND. apply NoDup_cons in ND as [Hn _].
  assert (y ∈ l ↔ y = x ∨ y ∈ base.delete i l) as -> by (rewrite Hp at 1; apply elem_of_cons).
  split; [|tauto]. intros Hy. split; [by right|]. by intros ->.
Qed.

Lemma retired_le c :
  Forall (λ id, id <= dispatched c)%N (pending c) → (retired c <= dispatched c)%N.
Proof. unfold retired. intros Hl. destruct Hl; lia. Qed.

Lemma next_count_inv d ids :
  data_inv d ids → (dispatched (counter d) < U64_MAX)%N →
  ∃ p d', next_count d = Ok (p, d') ∧ permit_id p = (dispatched (counter d) + 1)%N
    ∧ dispatched (counter d') = (dispatched (counter d) + 1)%N
    ∧ retired (counter d') = retired (counter d) ∧ permit_retired p = retired (counter d)
    ∧ data_inv d' ({[permit_id p]} ∪ ids).
Proof.
  intros [Hs Hh Hr Hw Hst Hwa Hd] Hlt. unfold next_count, dispatch. rewrite (proj2 (N.ltb_lt _ _) Hlt). cbn.
  eexists _, _. split; [done|]. cbn. set (n := dispatched (counter d)) in *.
  assert (Forall (λ id, id <= n)%N (pending (counter d))) as Hle.
  { apply Forall_forall. intros id Hid%Hh. by apply Hr. }
  assert (retired (mkCounter (n + 1) (pending (counter d) ++ [(n + 1)%N])) = retired (counter d)) as Hret.
  { unfold retired. cbn. destruct (pending (counter d)); cbn; lia. }
  split_and!; [done..|]. split; cbn [counter global retires dispatched pending].
  - apply StronglySorted_app_2; [|done|repeat constructor]. intros x y Hx ->%list_elem_of_singleton.
    rewrite Forall_forall in Hle. specialize (Hle x Hx). lia.
  - intros id. rewrite elem_of_app, list_elem_of_singleton, elem_of_union, elem_of_singleton, Hh. tauto.
  - intros id [->%elem_of_singleton|Hid]%elem_of_union; [lia|]. specialize (Hr id Hid). lia.
  - lia.
  - apply stored_store. lia.
  - by rewrite Hret.
  - by destruct (pending (counter d)).
Qed.

Lemma drop_permit_inv d ids id :
  data_inv d ids → id ∈ ids →
  ∃ d', drop_permit id d = Ok d' ∧ dispatched (counter d') = dispatched (counter d)
    ∧ (retired (counter d) <= retired (counter d'))%N ∧ data_inv d' (ids ∖ {[id]}).
Proof.
  intros [Hs Hh Hr Hw Hst Hwa Hd] Hid. apply Hh in Hid as Hp.
  destruct (pending_index_spec _ _ Hs Hp) as (i & Hi & Hx). unfold drop_permit, retire. rewrite Hi. cbn [ok_or].
  set (c' := mkCounter _ _).
  assert (StronglySorted N.lt (pending c')) as Hs' by by apply sorted_delete.
  assert (∀ y, y ∈ pending c' ↔ y ∈ ids ∖ {[id]}) as Hh'.
  { intros y. unfold c'. cbn. rewrite (elem_of_delete _ _ _ y Hs Hx), Hh. set_solver. }
  assert (∀ y, y ∈ ids ∖ {[id]} → (0 < y <= dispatched c')%N) as Hr' by (intros y Hy; apply Hr; set_solver).
  destruct (Nat.eqb_spec i 0) as [->|Hi0].
  - destruct (pending (counter d)) as [|x l] eqn:Ep; [done|]. injection Hx as ->.
    assert (retired (counter d) = id - 1)%N as Hret by (unfold retired; by rewrite Ep).
    assert (Forall (λ y, id < y)%N l) as Hgt by by apply StronglySorted_inv in Hs as [_ Hgt].
    eexists. split; [done|]. cbn. split; [done|]. split.
    + rewrite Hret. unfold retired. cbn. destruct Hgt as [|y l Hy _]; [|lia]. specialize (Hr id Hid). lia.
    + split; cbn; [done..| |].
      * unfold retired. cbn. destruct Hgt as [|y l Hy _]; [done|]. lia.
      * by intros ->.
  - eexists. split; [done|]. cbn. split; [done|].
    assert (retired c' = retired (counter d)) as Hret.
    { unfold retired, c'. cbn. destruct (pending (counter d)), i; done. }
    split; [by rewrite Hret|]. split; cbn; [done..|by rewrite Hret|].
    intros Hn. destruct (pending (counter d)), i; done.
Qed.

Lemma data_new_inv tb n :
  stored_count tb = Ok n → (n <= U64_MAX)%N → ∃ d, Data_new tb = Ok d ∧ dispatched (counter d) = n
    ∧ retired (counter d) = n ∧ data_inv d ∅.
Proof.
  intros Hn Hw. unfold Data_new. rewrite Hn. eexists. split; [done|]. cbn. split_and!; [done..|].
  split; cbn; [constructor|set_solver..|done|done|done|done].
Qed.

Lemma next_count_defined d p d' : next_count d = Ok (p, d') → (dispatched (counter d) < U64_MAX)%N.
Proof. unfold next_count, dispatch. by destruct (N.ltb_spec (dispatched (counter d)) U64_MAX). Qed.

(** What a step keeps, and what it can only increase. *)
Lemma step_inv s s' :
  step s s' → inv s →
  inv s' ∧ (dispatched (counter (data s)) <= dispatched (counter (data s')))%N
  ∧ (current_count (data s) <= current_count (data s'))%N
  ∧ ∃ new, issued s' = new ++ issued s ∧ Forall (λ id, dispatched (counter (data s)) < id)%N new.
Proof.
  intros Hst [Hd Hi Hhi Hu]. destruct Hst as [s p d Hn|s id d Hid Hdr|s d Hn].
  - destruct (next_count_inv _ _ Hd (next_count_defined _ _ _ Hn)) as (p' & d' & Hn' & Hp & Hdi & Hre & _ & Hd').
    rewrite Hn in Hn'. injection Hn' as <- <-. cbn. split.
    { split; cbn; [done|rewrite Hdi; intros id|intros id [->%elem_of_singleton|Hid]%elem_of_union; [by left|right; by apply Hhi]|].
      - intros [->|Hid]%elem_of_cons; [lia|]. specialize (Hi id Hid). lia.
      - constructor; [|done]. intros Hid%Hi. lia. }
    split; [lia|]. split; [unfold current_count, counter_current; by rewrite Hre|].
    exists [permit_id p]. split; [done|]. repeat constructor. lia.
  - destruct (drop_permit_inv _ _ id Hd Hid) as (d' & Hdr' & Hdi & Hre & Hd').
    rewrite Hdr in Hdr'. injection Hdr' as <-. cbn. split.
    { split; cbn; [done|by rewrite Hdi|intros x Hx; apply Hhi; set_solver|done]. }
    split; [by rewrite Hdi|]. split; [done|]. by exists [].
  - destruct (data_new_inv _ _ (inv_stored _ _ Hd) (inv_width _ _ Hd)) as (d' & Hn' & Hdi & Hre & Hd').
    rewrite Hn in Hn'. injection Hn' as <-. cbn. split.
    { split; cbn; [done|by rewrite Hdi|set_solver|done]. }
    split; [by rewrite Hdi|]. split; [|by exists []]. unfold current_count, counter_current. rewrite Hre.
    apply retired_le, Forall_forall. intros id Hid%(inv_held _ _ Hd). by apply (inv_range _ _ Hd).
Qed.

Lemma steps_inv s s' :
  rtc step s s' → inv s →
  inv s' ∧ (dispatched (counter (data s)) <= dispatched (counter (data s')))%N
  ∧ (current_count (data s) <= current_count (data s'))%N
  ∧ ∃ new, issued s' = new ++ issued s ∧ Forall (λ id, dispatched (counter (data s)) < id)%N new.
Proof.
  induction 1 as [s|s1 s2 s3 H12 H23 IH]; intros Hi; [split_and!; [done..|by exists []]|].
  destruct (step_inv _ _ H12 Hi) as (Hi2 & Hd & Hc & new & En & Hn).
  destruct (IH Hi2) as (Hi3 & Hd' & Hc' & new' & En' & Hn'). split; [done|]. split; [lia|]. split; [lia|].
  exists (new' ++ new). split; [by rewrite En', En, app_assoc|]. apply Forall_app. split; [|done].
  eapply Forall_impl; [exact Hn'|]. cbn. lia.
Qed.

Lemma reachable_inv s : reachable s → inv s.
Proof.
  intros (tb & s0 & (Hnone & d & Hd & ->) & Hs). apply (steps_inv _ _ Hs).
  assert (stored_count tb = Ok 0%N) as H0 by (unfold stored_count, Map_get; by rewrite table_get_rows, Hnone).
  destruct (data_new_inv tb 0 H0 ltac:(done)) as (d' & Hd' & Hdi & _ & Hinv). rewrite Hd in Hd'. injection Hd' as <-.
  split; cbn; [done|set_solver..|constructor].
Qed.

Lemma drop_all_inv ids d :
  data_inv d (list_to_set ids) → NoDup ids →
  ∃ d', drop_all ids d = Ok d' ∧ dispatched (counter d') = dispatched (counter d) ∧ data_inv d' ∅.
Proof.
  revert d. induction ids as [|id ids IH]; intros d Hd ND; [by exists d|].
  apply NoDup_cons in ND as [Hn ND]. cbn [drop_all].
  destruct (drop_permit_inv d _ id Hd) as (d' & -> & Hdi & _ & Hd'); [set_solver|].
  replace (list_to_set (id :: ids) ∖ {[id]}) with (list_to_set ids : gset N) in Hd' by set_solver.
  destruct (IH d' Hd' ND) as (d'' & -> & Hdi' & Hd''). exists d''. split_and!; [done|congruence|done].
Qed.
End invariant.

(** ** Properties *)

(** C26.  In every reachable state the pending numbers are, in increasing order,
    those of the permits held; a number is never issued twice, also across
    restarts; dropping a permit that is held never panics, and drawing one
    fails only when the numbers run out. *)
Theorem counter_invariant `{Engine} s :
  reachable s →
  StronglySorted N.lt (pending (counter (data s)))
  ∧ (∀ id, id ∈ pending (counter (data s)) ↔ id ∈ held s)
  ∧ NoDup (issued s)
  ∧ (∀ id, id ∈ held s → ∃ d, drop_permit id (data s) = Ok d)
  ∧ match next_count (data s) with
    | Ok (p, _) => permit_id p ∉ issued s
    | Err e => e = Overflow ∧ dispatched (counter (data s)) = U64_MAX
    end.
Proof.
  intros Hr. pose proof (reachable_inv s Hr) as [Hd Hi _ Hu]. split_and!; [apply Hd|apply Hd|done| |].
  - intros id Hid. destruct (drop_permit_inv _ _ id Hd Hid) as (d & -> & _). by exists d.
  - destruct (decide (dispatched (counter (data s)) < U64_MAX)%N) as [Hlt|Hge].
    + destruct (next_count_inv _ _ Hd Hlt) as (p & d & -> & -> & _). intros Hin%Hi. lia.
    + pose proof (inv_width _ _ Hd). unfold next_count, dispatch.
      destruct (N.ltb_spec (dispatched (counter (data s))) U64_MAX); [lia|]. cbn. split; [done|lia].
Qed.

(** A reader that goes by the current number misses nothing: in every
    later state, whatever tasks do in between and also after a restart, no
    permit with a number up to the one read is held or gets issued, and the
    current number has not gone down. *)
Theorem counter_visibility `{Engine} s s' :
  reachable s → rtc step s s' →
  let r := current_count (data s) in
  (∀ id, id ∈ held s' → r < id)%N
  ∧ (∃ new, issued s' = new ++ issued s ∧ Forall (λ id, r < id)%N new)
  ∧ (r <= current_count (data s'))%N
  ∧ (retires (data s) <= r)%N.
Proof.
  intros Hr Hs r. pose proof (reachable_inv s Hr) as Hi.
  destruct (steps_inv s s' Hs Hi) as ([Hd' _ _ _] & _ & Hc & new & En & Hn).
  assert (r <= dispatched (counter (data s)))%N as Hle.
  { apply retired_le, Forall_forall. intros id Hid%(inv_held _ _ (inv_data _ Hi)). by apply (inv_range _ _ (inv_data _ Hi)). }
  split_and!; [| |done|apply (inv_data _ Hi)].
  - intros id Hid. apply (inv_held _ _ Hd') in Hid as Hp. pose proof (inv_range _ _ Hd' id Hid) as Hpos.
    enough (current_count (data s') < id)%N by (subst r; lia). unfold current_count, counter_current, retired.
    pose proof (inv_sorted _ _ Hd') as Hsort. destruct (pending (counter (data s'))) as [|x l] eqn:Ep; [by apply elem_of_nil in Hp|].
    apply StronglySorted_inv in Hsort as [_ Hall]. rewrite Forall_forall in Hall.
    assert (0 < x)%N by (apply (inv_range _ _ Hd'), (inv_held _ _ Hd'); rewrite Ep; by left).
    apply elem_of_cons in Hp as [->|Hp%Hall]; lia.
  - exists new. split; [done|]. eapply Forall_impl; [exact Hn|]. cbn. lia.
Qed.

(** Waiters are woken: when the tasks drop the permits they hold, in any
    order, the channel reaches the last number dispatched, so every wait for a
    number up to it ends. *)
Theorem counter_drains `{Engine} s ids :
  reachable s → ids ≡ₚ elements (held s) →
  ∃ d, drop_all ids (data s) = Ok d
    ∧ wait_pending d = Some (dispatched (counter (data s)))
    ∧ current_count d = dispatched (counter (data s)).
Proof.
  intros Hr Hp. pose proof (inv_data _ (reachable_inv s Hr)) as Hd.
  destruct (drop_all_inv ids (data s)) as (d & -> & Hdi & [_ Hh _ _ _ _ Hdr]).
  - by rewrite (list_to_set_perm_L ids (elements (held s))), list_to_set_elements_L.
  - rewrite Hp. apply NoDup_elements.
  - exists d. split; [done|]. assert (pending (counter d) = []) as Hnil.
    { destruct (pending (counter d)) as [|x l]; [done|]. exfalso.
      apply (not_elem_of_empty (C := gset N) x), Hh. by left. }
    unfold wait_pending, wait_count, current_count, counter_current, retired.
    rewrite Hnil, (Hdr Hnil), N.leb_refl, Hdi. done.
Qed.

(** A run: three numbers are drawn, the second and the first are dropped. *)
Module CounterExample.
#[local] Existing Instance ordered_engine.

Definition boot : System := mkSystem (mkData (∅ : Table) 0 (counter_new 0)) ∅ [].
Definition do_next (s : System) : System :=
  match next_count (data s) with
  | Ok (p, d) => mkSystem d ({[permit_id p]} ∪ held s) (permit_id p :: issued s)
  | Err _ => s
  end.
Definition do_drop (id : N) (s : System) : System :=
  match drop_permit id (data s) with
  | Ok d => mkSystem d (held s ∖ {[id]}) (issued s)
  | Err _ => s
  end.
Definition three : System := do_next (do_next (do_next boot)).
Definition after : System := do_drop 1 (do_drop 2 three).

Lemma boot_reachable : reachable boot.
Proof. exists ∅, boot. split; [|done]. split; [done|]. by eexists. Qed.

Lemma steps_reachable s s' : reachable s → rtc step s s' → reachable s'.
Proof. intros (tb & s0 & Hi & Hs) Hs'. exists tb, s0. split; [done|]. by etrans. Qed.

Definition succeeds {E A} (r : Result E A) : bool := match r with Ok _ => true | Err _ => false end.

Lemma do_next_step s : succeeds (next_count (data s)) = true → step s (do_next s).
Proof. unfold do_next. destruct (next_count (data s)) as [[p d]|] eqn:Hn; [|done]. intros _. by apply step_next. Qed.

Lemma do_drop_step id s :
  bool_decide (id ∈ held s) && succeeds (drop_permit id (data s)) = true → step s (do_drop id s).
Proof.
  unfold do_drop. intros [Hid%bool_decide_eq_true_1 Hd]%andb_prop.
  destruct (drop_permit id (data s)) as [d|] eqn:Hn; [|done]. by apply step_drop.
Qed.

Lemma three_steps : rtc step boot three.
Proof. do 3 (eapply rtc_l; [apply do_next_step; by vm_compute|]). apply rtc_refl. Qed.

Lemma after_steps : rtc step three after.
Proof.
  eapply rtc_l; [apply (do_drop_step 2); by vm_compute|].
  eapply rtc_l; [apply (do_drop_step 1); by vm_compute|]. apply rtc_refl.
Qed.

Lemma three_held : held three = list_to_set [3; 1; 2]%N.
Proof. by apply (bool_decide_unpack _); vm_compute. Qed.

Lemma three_reachable : reachable three.
Proof. exact (steps_reachable _ _ boot_reachable three_steps). Qed.
Lemma after_reachable : reachable after.
Proof. exact (steps_reachable _ _ three_reachable after_steps). Qed.
End CounterExample.

Lemma counter_invariant_witness : NoDup (issued (H := ordered_engine) CounterExample.after).
Proof. apply (counter_invariant (H := ordered_engine)), CounterExample.after_reachable. Defined.

Lemma counter_visibility_witness : (0 <= current_count (H := ordered_engine) (data CounterExample.after))%N.
Proof.
  apply (counter_visibility (H := ordered_engine) CounterExample.three CounterExample.after).
  - apply CounterExample.three_reachable.
  - apply CounterExample.after_steps.
Defined.

Lemma counter_drains_witness :
  ∃ d, drop_all (H := ordered_engine) [3; 1; 2]%N (data CounterExample.three) = Ok d ∧ wait_pending d = Some 3%N
    ∧ current_count d = 3%N.
Proof.
  apply (counter_drains (H := ordered_engine) CounterExample.three [3; 1; 2]%N).
  - apply CounterExample.three_reachable.
  - rewrite CounterExample.three_held. symmetry. apply elements_list_to_set. by apply (bool_decide_unpack _); vm_compute.
Defined.

(** The channel can stay behind the numbers retired: when the oldest
    permit is dropped after a later one, the callback gets the number of the
    permit and not the highest number retired, so a wait for the latter goes
    on although nothing up to it is pending. *)
Theorem counter_release_lags :
  ∃ s : System (H := ordered_engine), reachable s ∧ current_count (data s) = 2%N
    ∧ retires (data s) = 1%N ∧ wait_count 2 (data s) = None.
Proof. exists CounterExample.after. split; [apply CounterExample.after_reachable|by vm_compute]. Qed.
