(* ===== verification/Short.v ===== *)
(** * Short identifiers ([src/src/service/rooms/short/mod.rs])

    Event ids, state keys, room ids and state hashes are stored under numbers
    of the global counter.  [Short] is the service's tables with the counter;
    operations take it and return it changed.  A permit drawn in an operation is
    dropped when the operation returns. *)

From S2P Require Import Prelude Bytes Slices DbCodec DbMap Counter.

Local Set Warnings "-register-all".

Inductive ServiceError := DbErr (e : DbError) | CountErr (e : CounterError).

Definition db_ {A} (r : Result DbError A) : Result ServiceError A := map_err DbErr r.

(** Identifiers [ruma] accepts. *)
Class Identifiers := {
  event_id_ok : string → bool;
  room_id_ok : string → bool;
}.

(** Eight bytes, [size_of::<ShortId>()]. *)
Definition BUFSIZE : nat := 8.

Section short.
Context `{Engine, JsonParser, Identifiers}.

Record Short := mkShort {
  globals : Data;
  eventid_shorteventid : Table;
  shorteventid_eventid : Table;
  statekey_shortstatekey : Table;
  shortstatekey_statekey : Table;
  roomid_shortroomid : Table;
  statehash_shortstatehash : Table;
}.
Implicit Types (s : Short) (event_id room_id : string).

Definition with_globals (d : Data) s : Short :=
  mkShort d (eventid_shorteventid s) (shorteventid_eventid s) (statekey_shortstatekey s)
    (shortstatekey_statekey s) (roomid_shortroomid s) (statehash_shortstatehash s).
Definition with_events (fwd rev : Table) s : Short :=
  mkShort (globals s) fwd rev (statekey_shortstatekey s) (shortstatekey_statekey s) (roomid_shortroomid s)
    (statehash_shortstatehash s).
Definition with_statekeys (fwd rev : Table) s : Short :=
  mkShort (globals s) (eventid_shorteventid s) (shorteventid_eventid s) fwd rev (roomid_shortroomid s)
    (statehash_shortstatehash s).
Definition with_rooms (tb : Table) s : Short :=
  mkShort (globals s) (eventid_shorteventid s) (shorteventid_eventid s) (statekey_shortstatekey s)
    (shortstatekey_statekey s) tb (statehash_shortstatehash s).
Definition with_hashes (tb : Table) s : Short :=
  mkShort (globals s) (eventid_shorteventid s) (shorteventid_eventid s) (statekey_shortstatekey s)
    (shortstatekey_statekey s) (roomid_shortroomid s) tb.

(** A number for the scope of [k]: the permit is dropped at its end. *)
Definition with_count {E T} (err : CounterError → E) (get : T → Data) (set : Data → T → T) (t : T)
    (k : N → T → Result E T) : Result E (N * T) :=
  let? r := map_err err (next_count (get t)) in
  let? u := k (permit_id r.1) (set r.2 t) in
  let? d := map_err err (drop_permit (permit_id r.1) (get u)) in
  Ok (permit_id r.1, set d u).

(** ** Events *)

Definition get_shorteventid s event_id : Result DbError N :=
  deserialized_u64 (Map_get (eventid_shorteventid s) event_id).

Definition create_shorteventid s event_id : Result ServiceError (N * Short) :=
  with_count CountErr globals with_globals s (λ n s,
    let? fwd := db_ (raw_aput (eventid_shorteventid s) BUFSIZE event_id (SU64 n)) in
    let? rev := db_ (aput_raw (shorteventid_eventid s) BUFSIZE (SU64 n) event_id) in
    Ok (with_events fwd rev s)).

Definition get_or_create_shorteventid s event_id : Result ServiceError (N * Short) :=
  match get_shorteventid s event_id with
  | Ok n => Ok (n, s)
  | Err _ => create_shorteventid s event_id
  end.

(** [multi_get_or_create_shorteventid] reads ahead: a chunk of ids is looked up
    before the missing ones of the chunk are created, one after the other.
    [u64_from_u8] panics on a row that is not eight bytes. *)
Definition short_or_create (r : Result DbError string) event_id s : Result ServiceError (N * Short) :=
  match r with
  | Ok bytes => let? n := ok_or (DbErr (Panicked InvalidLength)) (from_be_bytes 8 bytes) in Ok (n, s)
  | Err _ => create_shorteventid s event_id
  end.

Fixpoint shorts_or_create (l : list (Result DbError string * string)) s : Result ServiceError (list N * Short) :=
  match l with
  | [] => Ok ([], s)
  | (r, event_id) :: l' =>
      let? a := short_or_create r event_id s in
      let? b := shorts_or_create l' a.2 in
      Ok (a.1 :: b.1, b.2)
  end.

Fixpoint multi_get_or_create_shorteventid (chunks : list (list string)) s : Result ServiceError (list N * Short) :=
  match chunks with
  | [] => Ok ([], s)
  | chunk :: chunks' =>
      let? a := shorts_or_create ((λ e, (Map_get (eventid_shorteventid s) e, e)) <$> chunk) s in
      let? b := multi_get_or_create_shorteventid chunks' a.2 in
      Ok (a.1 ++ b.1, b.2)
  end.

Definition get_eventid_from_short s (n : N) : Result DbError string :=
  deserialized_str event_id_ok (aqry (shorteventid_eventid s) BUFSIZE (SU64 n)).

(** ** State keys *)

Definition statekey (event_type state_key : string) : Ser := STuple [SStr event_type; SStr state_key].

Definition get_shortstatekey s (event_type state_key : string) : Result DbError N :=
  deserialized_u64 (qry (statekey_shortstatekey s) (statekey event_type state_key)).

Definition get_or_create_shortstatekey s (event_type state_key : string) : Result ServiceError (N * Short) :=
  match get_shortstatekey s event_type state_key with
  | Ok n => Ok (n, s)
  | Err _ =>
      let key := statekey event_type state_key in
      with_count CountErr globals with_globals s (λ n s,
        let? fwd := db_ (put_aput (statekey_shortstatekey s) BUFSIZE key (SU64 n)) in
        let? rev := db_ (aput_put (shortstatekey_statekey s) BUFSIZE (SU64 n) key) in
        Ok (with_statekeys fwd rev s))
  end.

Definition get_statekey_from_short s (n : N) : Result DbError (string * string) :=
  let? v := deserialized (DTuple [DStr (λ _, true); DStr (λ _, true)]) (aqry (shortstatekey_statekey s) BUFSIZE (SU64 n)) in
  match v with VTuple [VStr ty; VStr key] => Ok (ty, key) | _ => Err (Codec InvalidValue) end.

(** ** State hashes and rooms *)

Definition get_shortstatehash_of s (state_hash : string) : Result DbError N :=
  deserialized_u64 (Map_get (statehash_shortstatehash s) state_hash).

(** The number, and whether it existed. *)
Definition get_or_create_shortstatehash s (state_hash : string) : Result ServiceError (N * bool * Short) :=
  match get_shortstatehash_of s state_hash with
  | Ok n => Ok (n, true, s)
  | Err _ =>
      let? r := with_count CountErr globals with_globals s (λ n s,
        let? tb := db_ (raw_aput (statehash_shortstatehash s) BUFSIZE state_hash (SU64 n)) in
        Ok (with_hashes tb s)) in
      Ok (r.1, false, r.2)
  end.

Definition get_shortroomid s room_id : Result DbError N :=
  deserialized_u64 (Map_get (roomid_shortroomid s) room_id).

Definition get_or_create_shortroomid s room_id : Result ServiceError (N * Short) :=
  match get_shortroomid s room_id with
  | Ok n => Ok (n, s)
  | Err _ =>
      with_count CountErr globals with_globals s (λ n s,
        let? tb := db_ (raw_aput (roomid_shortroomid s) BUFSIZE room_id (SU64 n)) in
        Ok (with_rooms tb s))
  end.

(** All rows, and the first one with the number. *)
Definition get_roomid_from_short s (n : N) : Result DbError string :=
  let rows := ignore_err (deserialize_keyval (DStr room_id_ok) DU64 <$> raw_stream_from (roomid_shortroomid s) "") in
  match List.find (λ e, match e.2 with VU64 m => N.eqb m n | _ => false end) rows with
  | Some (VStr room_id, _) => Ok room_id
  | _ => Err NotFound
  end.

Definition delete_shortroomid s room_id : Result DbError Short :=
  match exists_row (roomid_shortroomid s) room_id with
  | Ok _ => Ok (with_rooms (Map_remove (roomid_shortroomid s) room_id) s)
  | Err _ => Err NotFound
  end.
End short.

(** ** Numbered rows *)

(** A table from keys to distinct numbers up to [d], and one back. *)
Record numbered (rows : gmap string string) (d : N) : Prop := {
  numbered_range k v : rows !! k = Some v → ∃ n, v = u64_to_be_bytes n ∧ (0 < n <= d)%N;
  numbered_inj k k' v : rows !! k = Some v → rows !! k' = Some v → k = k';
}.

Definition inverse (fwd rev : gmap string string) : Prop := ∀ k v, fwd !! k = Some v ↔ rev !! v = Some k.

Lemma u64_bytes_inj n m : (n <= U64_MAX)%N → (m <= U64_MAX)%N → u64_to_be_bytes n = u64_to_be_bytes m → n = m.
Proof. intros Hn%u64_width Hm%u64_width. by apply be_encode_inj. Qed.

Lemma numbered_mono rows d d' : numbered rows d → (d <= d')%N → numbered rows d'.
Proof.
  intros [Hr Hi] Hle. split; [|done]. intros k v Hv. destruct (Hr k v Hv) as (n & -> & Hn). exists n. split; [done|lia].
Qed.

Lemma numbered_fresh rows d n k : numbered rows d → (d < n <= U64_MAX)%N → rows !! k ≠ Some (u64_to_be_bytes n).
Proof. intros [Hr _] Hn Hv. destruct (Hr _ _ Hv) as (m & He & Hm). apply u64_bytes_inj in He; lia. Qed.

Lemma numbered_insert rows d n k :
  numbered rows d → (d < n <= U64_MAX)%N → numbered (<[k := u64_to_be_bytes n]> rows) n.
Proof.
  intros Hd Hn. split.
  - intros k' v [[_ <-]|[_ Hv]]%lookup_insert_Some; [exists n; split; [done|lia]|].
    destruct (numbered_range _ _ Hd k' v Hv) as (m & -> & Hm). exists m. split; [done|lia].
  - intros k1 k2 v [[<- <-]|[Hne Hv]]%lookup_insert_Some [[Hk Hv2]|[Hne2 Hv2]]%lookup_insert_Some; try done.
    + by apply (numbered_fresh _ _ n k2 Hd Hn) in Hv2.
    + subst v. by apply (numbered_fresh _ _ n k1 Hd Hn) in Hv.
    + by eapply (numbered_inj _ _ Hd).
Qed.

Lemma numbered_delete rows d k : numbered rows d → numbered (base.delete k rows) d.
Proof.
  intros [Hr Hi]. split; intros *; rewrite !lookup_delete_Some; [naive_solver|]. intros [_ H1] [_ H2]. by eapply Hi.
Qed.

Lemma inverse_insert fwd rev k v :
  inverse fwd rev → fwd !! k = None → (∀ k', fwd !! k' ≠ Some v) → inverse (<[k := v]> fwd) (<[v := k]> rev).
Proof.
  intros Hi Hk Hv k' v'. rewrite !lookup_insert_Some, <-(Hi k' v'). split.
  - intros [[<- <-]|[Hne Hf]]; [by left|]. right. split; [|done]. intros <-. by apply (Hv k').
  - intros [[<- <-]|[Hne Hf]]; [by left|]. right. split; [|done]. intros <-. congruence.
Qed.

(** ** Drawing numbers *)

Section drawing.
Context `{Engine}.

(** A number is drawn above all others, and the permits held stay as they are. *)
Lemma with_count_spec {E T} (err : CounterError → E) (get : T → Data) (set : Data → T → T) (t : T) k ids :
  (∀ d u, get (set d u) = d) → data_inv (get t) ids → (dispatched (counter (get t)) < U64_MAX)%N →
  (∀ d, ∃ u, k (dispatched (counter (get t)) + 1)%N (set d t) = Ok u ∧ get u = d) →
  let n := (dispatched (counter (get t)) + 1)%N in
  ∃ d d' u, k n (set d t) = Ok u ∧ with_count err get set t k = Ok (n, set d' u)
    ∧ dispatched (counter d') = n ∧ data_inv d' ids.
Proof.
  intros Hgs Hd Hlt Hk n. destruct (next_count_inv _ _ Hd Hlt) as (p & d & Hn & Hp & Hdi & _ & _ & Hd').
  destruct (Hk d) as (u & Hu & Hgu). fold n in Hu. unfold with_count. rewrite Hn. cbn [map_err fst snd].
  rewrite Hp. fold n. rewrite Hu, Hgu. rewrite Hp in Hd'. fold n in Hd', Hdi.
  destruct (drop_permit_inv d _ n Hd') as (d' & -> & Hdi' & _ & Hd''); [set_solver|]. cbn.
  exists d, d', u. split_and!; [done..|congruence|].
  replace (({[n]} ∪ ids) ∖ {[n]}) with ids in Hd''; [done|].
  assert (n ∉ ids) as Hni. { intros Hin. pose proof (inv_range _ _ Hd n Hin). lia. }
  set_solver.
Qed.
End drawing.

(** ** The invariant of the service *)

Section short_inv.
Context `{Engine, JsonParser, Identifiers}.
Implicit Types (s : Short) (ids : gset N).

Definition last_number s : N := dispatched (counter (globals s)).

(** [ids] are the permits other tasks hold. *)
Record short_inv s ids : Prop := {
  short_data : data_inv (globals s) ids;
  short_events : numbered (table_rows (eventid_shorteventid s)) (last_number s);
  short_events_inv : inverse (table_rows (eventid_shorteventid s)) (table_rows (shorteventid_eventid s));
  short_keys : numbered (table_rows (statekey_shortstatekey s)) (last_number s);
  short_keys_inv : inverse (table_rows (statekey_shortstatekey s)) (table_rows (shortstatekey_statekey s));
  short_rooms : numbered (table_rows (roomid_shortroomid s)) (last_number s);
  short_hashes : numbered (table_rows (statehash_shortstatehash s)) (last_number s);
}.

(** Numbers given out stay. *)
Record extends s s' : Prop := {
  ext_number : (last_number s <= last_number s')%N;
  ext_events : table_rows (eventid_shorteventid s) ⊆ table_rows (eventid_shorteventid s');
  ext_keys : table_rows (statekey_shortstatekey s) ⊆ table_rows (statekey_shortstatekey s');
  ext_rooms : table_rows (roomid_shortroomid s) ⊆ table_rows (roomid_shortroomid s');
  ext_hashes : table_rows (statehash_shortstatehash s) ⊆ table_rows (statehash_shortstatehash s');
}.

Lemma extends_refl s : extends s s.
Proof. by split. Qed.

Lemma extends_trans s1 s2 s3 : extends s1 s2 → extends s2 s3 → extends s1 s3.
Proof. intros [] []. split; [lia|by etrans..]. Qed.

Lemma short_width s ids : short_inv s ids → (last_number s <= U64_MAX)%N.
Proof. intros [Hd]. apply (inv_width _ _ Hd). Qed.

(** A row of a numbered table reads back as its number. *)
Lemma read_number (tb : Table) d k :
  numbered (table_rows tb) d → (d <= U64_MAX)%N →
  match deserialized_u64 (Map_get tb k) with
  | Ok n => table_rows tb !! k = Some (u64_to_be_bytes n) ∧ (0 < n <= d)%N
  | Err _ => table_rows tb !! k = None
  end.
Proof.
  intros Hn Hd. unfold Map_get. rewrite table_get_rows. destruct (table_rows tb !! k) as [v|] eqn:Hv; [|done].
  destruct (numbered_range _ _ Hn k v Hv) as (n & -> & Hr). by rewrite (deserialized_u64_row _ n) by (done || lia).
Qed.

Lemma read_number_at (tb : Table) d k n :
  numbered (table_rows tb) d → (d <= U64_MAX)%N → table_rows tb !! k = Some (u64_to_be_bytes n) → (0 < n <= d)%N →
  deserialized_u64 (Map_get tb k) = Ok n.
Proof.
  intros Hn Hd Hv Hr. unfold Map_get. rewrite table_get_rows, Hv. apply deserialized_u64_row; [lia|done].
Qed.

(** The tables after one number was drawn and one row, or a row and its
    inverse, were written under it. *)
Ltac draw s ids f :=
  destruct (with_count_spec CountErr globals with_globals s f ids) as (d & d' & u & Hu & Hw & Hdi & Hd');
  [done..|intros d; unfold BUFSIZE; rewrite ?raw_aput_u64, ?aput_raw_u64, ?put_aput_strings, ?aput_put_strings; by eexists|];
  unfold BUFSIZE in Hu; rewrite ?raw_aput_u64, ?aput_raw_u64, ?put_aput_strings, ?aput_put_strings in Hu;
  injection Hu as <-.
Ltac settle s Hdi :=
  fold (last_number s) in *; set (n := (last_number s + 1)%N) in *;
  assert (last_number s < n <= U64_MAX)%N as Hn by (subst n; lia);
  unfold last_number; cbn; rewrite Hdi;
  split_and!; [split|split|..]; unfold last_number; cbn; rewrite ?Hdi, ?table_put_rows; fold (last_number s);
  try done; try lia; try by (eapply numbered_mono; [eassumption|lia]).

Lemma create_shorteventid_spec s ids event_id :
  short_inv s ids → (last_number s < U64_MAX)%N → table_rows (eventid_shorteventid s) !! event_id = None →
  ∃ s', create_shorteventid s event_id = Ok ((last_number s + 1)%N, s') ∧ short_inv s' ids ∧ extends s s'
    ∧ last_number s' = (last_number s + 1)%N
    ∧ table_rows (eventid_shorteventid s')
      = <[event_id := u64_to_be_bytes (last_number s + 1)]> (table_rows (eventid_shorteventid s)).
Proof.
  intros Hinv Hlt Hnone. pose proof Hinv as [Hd He Hei Hk Hki Hr Hh].
  draw s ids (λ n s,
    let? fwd := db_ (raw_aput (eventid_shorteventid s) BUFSIZE event_id (SU64 n)) in
    let? rev := db_ (aput_raw (shorteventid_eventid s) BUFSIZE (SU64 n) event_id) in
    Ok (with_events fwd rev s)).
  eexists. split; [exact Hw|]. settle s Hdi.
  - by eapply numbered_insert.
  - apply inverse_insert; [done..|]. intros k'. by eapply numbered_fresh.
  - by apply insert_subseteq.
Qed.

(** What every lookup that creates gives: the number of the key in the table
    [rows], and a state that has all numbers of the one before. *)
Definition interned (rows : Short → gmap string string) s ids (key : string) (n : N) s' : Prop :=
  short_inv s' ids ∧ extends s s' ∧ rows s' !! key = Some (u64_to_be_bytes n) ∧ (0 < n <= last_number s')%N
  ∧ (rows s !! key = None → last_number s < n)%N ∧ (last_number s' <= last_number s + 1)%N.

Lemma interned_same (rows : Short → gmap string string) s ids key n :
  short_inv s ids → rows s !! key = Some (u64_to_be_bytes n) → (0 < n <= last_number s)%N → interned rows s ids key n s.
Proof. intros. unfold interned. split_and!; [done|apply extends_refl|done|lia|lia|congruence|lia]. Qed.

Lemma get_or_create_shorteventid_spec s ids event_id :
  short_inv s ids → (last_number s < U64_MAX)%N →
  ∃ n s', get_or_create_shorteventid s event_id = Ok (n, s')
    ∧ interned (λ s, table_rows (eventid_shorteventid s)) s ids event_id n s'.
Proof.
  intros Hinv Hlt. unfold get_or_create_shorteventid, get_shorteventid.
  pose proof (read_number _ _ event_id (short_events _ _ Hinv) (short_width _ _ Hinv)) as Hread.
  destruct (deserialized_u64 _) as [n|e].
  - destruct Hread as [Hv Hn]. exists n, s. split; [done|]. by apply interned_same.
  - destruct (create_shorteventid_spec s ids event_id Hinv Hlt Hread) as (s' & -> & Hinv' & Hext & Hl & Hrows).
    exists (last_number s + 1)%N, s'. split; [done|]. unfold interned. rewrite Hrows, lookup_insert_eq, Hl.
    split_and!; first [done|lia].
Qed.

Lemma get_or_create_shortstatekey_spec s ids ty key :
  short_inv s ids → (last_number s < U64_MAX)%N →
  ∃ n s', get_or_create_shortstatekey s ty key = Ok (n, s')
    ∧ interned (λ s, table_rows (statekey_shortstatekey s)) s ids (record_bytes [ty; key]) n s'.
Proof.
  intros Hinv Hlt. unfold get_or_create_shortstatekey, get_shortstatekey.
  pose proof (read_number _ _ (record_bytes [ty; key]) (short_keys _ _ Hinv) (short_width _ _ Hinv)) as Hread.
  rewrite (qry_strings _ ty [key]). unfold Map_get in Hread. rewrite table_get_rows in Hread.
  destruct (deserialized_u64 _) as [n|e].
  { destruct Hread as [Hv Hn]. exists n, s. split; [done|]. by apply interned_same. }
  pose proof Hinv as [Hd He Hei Hk Hki Hr Hh].
  draw s ids (λ n s,
    let? fwd := db_ (put_aput (statekey_shortstatekey s) BUFSIZE (STuple (SStr <$> [ty; key])) (SU64 n)) in
    let? rev := db_ (aput_put (shortstatekey_statekey s) BUFSIZE (SU64 n) (STuple (SStr <$> [ty; key]))) in
    Ok (with_statekeys fwd rev s)).
  eexists _, _. split; [exact Hw|]. unfold interned. settle s Hdi.
  - by eapply numbered_insert.
  - apply inverse_insert; [done..|]. intros k'. by eapply numbered_fresh.
  - by apply insert_subseteq.
  - apply lookup_insert_eq.
Qed.

Lemma get_or_create_shortroomid_spec s ids room_id :
  short_inv s ids → (last_number s < U64_MAX)%N →
  ∃ n s', get_or_create_shortroomid s room_id = Ok (n, s')
    ∧ interned (λ s, table_rows (roomid_shortroomid s)) s ids room_id n s'.
Proof.
  intros Hinv Hlt. unfold get_or_create_shortroomid, get_shortroomid.
  pose proof (read_number _ _ room_id (short_rooms _ _ Hinv) (short_width _ _ Hinv)) as Hread.
  destruct (deserialized_u64 _) as [n|e].
  { destruct Hread as [Hv Hn]. exists n, s. split; [done|]. by apply interned_same. }
  pose proof Hinv as [Hd He Hei Hk Hki Hr Hh].
  draw s ids (λ n s,
    let? tb := db_ (raw_aput (roomid_shortroomid s) BUFSIZE room_id (SU64 n)) in
    Ok (with_rooms tb s)).
  eexists _, _. split; [exact Hw|]. unfold interned. settle s Hdi.
  - by eapply numbered_insert.
  - by apply insert_subseteq.
  - apply lookup_insert_eq.
Qed.

Lemma get_or_create_shortstatehash_spec s ids hash :
  short_inv s ids → (last_number s < U64_MAX)%N →
  ∃ n existed s', get_or_create_shortstatehash s hash = Ok (n, existed, s')
    ∧ interned (λ s, table_rows (statehash_shortstatehash s)) s ids hash n s'
    ∧ existed = bool_decide (is_Some (table_rows (statehash_shortstatehash s) !! hash))
    ∧ (existed = true → s' = s)
    ∧ table_rows (statehash_shortstatehash s') ⊆ <[hash := u64_to_be_bytes n]> (table_rows (statehash_shortstatehash s)).
Proof.
  intros Hinv Hlt. unfold get_or_create_shortstatehash, get_shortstatehash_of.
  pose proof (read_number _ _ hash (short_hashes _ _ Hinv) (short_width _ _ Hinv)) as Hread.
  destruct (deserialized_u64 _) as [n|e].
  { destruct Hread as [Hv Hn]. exists n, true, s. split; [done|]. split; [by apply interned_same|].
    rewrite Hv, bool_decide_true by done. split_and!; [done..|]. by rewrite insert_id. }
  pose proof Hinv as [Hd He Hei Hk Hki Hr Hh].
  draw s ids (λ n s,
    let? tb := db_ (raw_aput (statehash_shortstatehash s) BUFSIZE hash (SU64 n)) in
    Ok (with_hashes tb s)).
  rewrite Hw. eexists _, false, _. split; [done|]. rewrite Hread, bool_decide_false by by intros [? ?].
  split; [|split_and!; [done..|cbn; by rewrite table_put_rows]].
  unfold interned. settle s Hdi.
  - by eapply numbered_insert.
  - by apply insert_subseteq.
  - apply lookup_insert_eq.
Qed.
End short_inv.

(** ** Reading numbers back *)

Section readback.
Context `{Engine, JsonParser, Identifiers}.
Implicit Types (s : Short) (ids : gset N).

Lemma get_shorteventid_iff s ids event_id n :
  short_inv s ids → get_shorteventid s event_id = Ok n
  ↔ table_rows (eventid_shorteventid s) !! event_id = Some (u64_to_be_bytes n) ∧ (0 < n <= last_number s)%N.
Proof.
  intros Hinv. pose proof (short_width _ _ Hinv) as Hw. unfold get_shorteventid. split.
  - intros Hg. pose proof (read_number _ _ event_id (short_events _ _ Hinv) Hw) as Hread. by rewrite Hg in Hread.
  - intros [Hv Hn]. by eapply read_number_at; [apply Hinv|..].
Qed.

Lemma get_eventid_at s ids event_id n :
  short_inv s ids → table_rows (eventid_shorteventid s) !! event_id = Some (u64_to_be_bytes n) →
  utf8_valid event_id = true → event_id_ok event_id = true → get_eventid_from_short s n = Ok event_id.
Proof.
  intros Hinv Hv%(short_events_inv _ _ Hinv) Hu Hok. unfold get_eventid_from_short, BUFSIZE.
  rewrite aqry_u64, Hv. by apply deserialized_str_row.
Qed.

Lemma get_statekey_at s ids ty key n :
  short_inv s ids → table_rows (statekey_shortstatekey s) !! record_bytes [ty; key] = Some (u64_to_be_bytes n) →
  utf8_valid ty = true → utf8_valid key = true → get_statekey_from_short s n = Ok (ty, key).
Proof.
  intros Hinv Hv%(short_keys_inv _ _ Hinv) Ht Hk. unfold get_statekey_from_short, BUFSIZE. rewrite aqry_u64, Hv.
  unfold deserialized. cbn [handle_from ok_or]. by rewrite (deserialize_strings [ty; key]) by by repeat constructor.
Qed.

Lemma get_shortstatekey_at s ids ty key n :
  short_inv s ids → table_rows (statekey_shortstatekey s) !! record_bytes [ty; key] = Some (u64_to_be_bytes n) →
  (0 < n <= last_number s)%N → get_shortstatekey s ty key = Ok n.
Proof.
  intros Hinv Hv Hn. pose proof (short_width _ _ Hinv). unfold get_shortstatekey.
  rewrite (qry_strings _ ty [key]). apply deserialized_u64_row; [lia|done].
Qed.

Lemma room_rows_number s ids n k v :
  short_inv s ids → (k, v) ∈ btree_iter (table_rows (roomid_shortroomid s)) →
  ∃ m, v = u64_to_be_bytes m ∧ (m <= U64_MAX)%N ∧ (m = n → v = u64_to_be_bytes n).
Proof.
  intros Hinv Hin%elem_of_btree_iter. destruct (numbered_range _ _ (short_rooms _ _ Hinv) _ _ Hin) as (m & -> & Hm).
  pose proof (short_width _ _ Hinv). exists m. split_and!; [done|lia|by intros ->].
Qed.

Lemma get_roomid_at s ids room_id n :
  short_inv s ids → table_rows (roomid_shortroomid s) !! room_id = Some (u64_to_be_bytes n) → (n <= U64_MAX)%N →
  utf8_valid room_id = true → room_id_ok room_id = true → get_roomid_from_short s n = Ok room_id.
Proof.
  intros Hinv Hv Hn Hu Hok. unfold get_roomid_from_short, raw_stream_from. rewrite table_fwd_rows.
  set (p := λ e : DeValue * DeValue, _). set (rows := ignore_err _).
  assert ((VStr room_id, VU64 n) ∈ rows) as Hin.
  { unfold rows, ignore_err. apply list_elem_of_omap. exists (Ok (VStr room_id, VU64 n)). split; [|done].
    apply list_elem_of_fmap. exists (room_id, u64_to_be_bytes n). split.
    - unfold deserialize_keyval. cbn [fst snd]. by rewrite deserialize_string, deserialize_u64.
    - apply list_elem_of_filter. split; [apply prefix_le, prefix_nil|]. by apply elem_of_btree_iter. }
  assert (∀ e, e ∈ rows → p e = true → e = (VStr room_id, VU64 n)) as Huniq.
  { intros e (r & [[k v] [-> [_ Hk]%list_elem_of_filter]]%list_elem_of_fmap & He)%list_elem_of_omap Hp.
    destruct (room_rows_number s ids n k v Hinv Hk) as (m & -> & Hm & _). unfold deserialize_keyval in He. cbn [fst snd] in He.
    destruct (deserialize_slice (DStr room_id_ok) k) as [w|] eqn:Hw; [|done]. rewrite (deserialize_u64 m Hm) in He.
    injection He as <-. apply N.eqb_eq in Hp as ->. apply elem_of_btree_iter in Hk.
    assert (k = room_id) as -> by by eapply (numbered_inj _ _ (short_rooms _ _ Hinv)).
    rewrite deserialize_string in Hw by done. by injection Hw as <-. }
  destruct (List.find p rows) as [e|] eqn:Hf.
  - apply List.find_some in Hf as [He Hp]. apply list_elem_of_In in He. by rewrite (Huniq e He Hp).
  - exfalso. apply list_elem_of_In in Hin. pose proof (List.find_none _ _ Hf _ Hin) as Hp. cbn in Hp. by rewrite N.eqb_refl in Hp.
Qed.
End readback.

(** ** Many events at once *)

Section multi.
Context `{Engine, JsonParser, Identifiers}.
Implicit Types (s : Short) (ids : gset N).
Abbreviation event_rows s := (table_rows (eventid_shorteventid s)).

Definition numbered_as s (event_id : string) (n : N) : Prop :=
  event_rows s !! event_id = Some (u64_to_be_bytes n) ∧ (0 < n <= last_number s)%N.

Lemma numbered_as_extends s s' event_id n : extends s s' → numbered_as s event_id n → numbered_as s' event_id n.
Proof.
  intros He [Hv Hn]. split; [by eapply lookup_weaken; [|apply He]|]. pose proof (ext_number _ _ He). lia.
Qed.

(** What has happened after the events of [l] were given numbers [ns]. *)
Definition all_numbered s ids (l : list string) (ns : list N) s' : Prop :=
  short_inv s' ids ∧ extends s s' ∧ Forall2 (numbered_as s') l ns
  ∧ (∀ e, e ∉ l → event_rows s' !! e = event_rows s !! e)
  ∧ (last_number s' <= last_number s + N.of_nat (length l))%N.

Lemma short_or_create_spec s ids event_id :
  short_inv s ids → (last_number s < U64_MAX)%N →
  ∃ n s', short_or_create (handle_from (event_rows s !! event_id)) event_id s = Ok (n, s')
    ∧ all_numbered s ids [event_id] [n] s'.
Proof.
  intros Hinv Hlt. destruct (event_rows s !! event_id) as [v|] eqn:Hv.
  - destruct (numbered_range _ _ (short_events _ _ Hinv) _ _ Hv) as (n & -> & Hn). pose proof (short_width _ _ Hinv).
    exists n, s. cbn. unfold u64_to_be_bytes. rewrite from_be_bytes_encode by (apply u64_width; lia). split; [done|].
    split_and!; [done|apply extends_refl|constructor; [done|constructor]|done|lia].
  - destruct (create_shorteventid_spec s ids event_id Hinv Hlt Hv) as (s' & Hc & Hinv' & Hext & Hl & Hrows).
    exists (last_number s + 1)%N, s'. split; [done|]. unfold all_numbered, numbered_as. rewrite Hrows, Hl.
    split_and!; [done|done| | |cbn; lia].
    + repeat constructor; cbn; [by rewrite lookup_insert_eq|lia|lia].
    + intros e He. rewrite lookup_insert_ne; [done|]. set_solver.
Qed.

Lemma shorts_or_create_spec (tb : Table) l s ids :
  short_inv s ids → (last_number s + N.of_nat (length l) <= U64_MAX)%N → NoDup l →
  (∀ e, e ∈ l → table_rows tb !! e = event_rows s !! e) →
  ∃ ns s', shorts_or_create ((λ e, (Map_get tb e, e)) <$> l) s = Ok (ns, s') ∧ all_numbered s ids l ns s'.
Proof.
  intros Hinv Hlt ND. revert s Hinv Hlt. induction ND as [|e l Hn ND IH]; intros s Hinv Hlt Htb; csimpl.
  { exists [], s. split; [done|]. split_and!; [done|apply extends_refl|constructor|done|cbn; lia]. }
  cbn [length] in Hlt. unfold Map_get at 1. rewrite table_get_rows, Htb by by left.
  destruct (short_or_create_spec s ids e Hinv ltac:(lia)) as (n & s1 & -> & Hinv1 & He1 & Hn1 & Hr1 & Hl1). cbn [fst snd].
  destruct (IH s1 Hinv1) as (ns & s2 & Hns & Hinv2 & He2 & Hn2 & Hr2 & Hl2).
  { cbn [length] in Hl1. lia. }
  { intros e' He'. rewrite Htb by by right. symmetry. apply Hr1. set_solver. }
  rewrite Hns. exists (n :: ns), s2. split; [done|]. apply Forall2_cons in Hn1 as [Hn1 _].
  split_and!; [done|by eapply extends_trans| | |cbn [length] in *; lia].
  - constructor; [by eapply numbered_as_extends|done].
  - intros e' He'. rewrite Hr2, Hr1 by set_solver. done.
Qed.

Lemma multi_spec chunks s ids :
  short_inv s ids → (last_number s + N.of_nat (length (concat chunks)) <= U64_MAX)%N → NoDup (concat chunks) →
  ∃ ns s', multi_get_or_create_shorteventid chunks s = Ok (ns, s') ∧ all_numbered s ids (concat chunks) ns s'.
Proof.
  revert s. induction chunks as [|l chunks IH]; intros s Hinv Hlt ND; cbn [multi_get_or_create_shorteventid concat].
  { exists [], s. split; [done|]. split_and!; [done|apply extends_refl|constructor|done|cbn; lia]. }
  cbn [concat] in Hlt, ND. apply NoDup_app in ND as (ND & Hd & ND'). rewrite length_app in Hlt.
  destruct (shorts_or_create_spec (eventid_shorteventid s) l s ids Hinv ltac:(lia) ND ltac:(done))
    as (ns & s1 & -> & Hinv1 & He1 & Hn1 & Hr1 & Hl1). cbn [fst snd].
  destruct (IH s1 Hinv1 ltac:(lia) ND') as (ns' & s2 & -> & Hinv2 & He2 & Hn2 & Hr2 & Hl2).
  exists (ns ++ ns'), s2. split; [done|]. split_and!; [done|by eapply extends_trans| | |rewrite length_app; lia].
  - apply Forall2_app; [|done]. eapply Forall2_impl; [exact Hn1|]. intros e n. by apply numbered_as_extends.
  - intros e He. rewrite Hr2, Hr1 by set_solver. done.
Qed.
End multi.

(** ** Properties *)

(** Event ids and state keys round-trip through their numbers: looking one
    up, created if need be, gives a number that reads back as the id or the
    pair of strings, that no other id has and that is found again, while all
    numbers given out before stay. *)
Theorem short_ids_roundtrip `{Engine, JsonParser, Identifiers} s ids :
  short_inv s ids → (last_number s < U64_MAX)%N →
  (∀ event_id, utf8_valid event_id = true → event_id_ok event_id = true →
    ∃ n s', get_or_create_shorteventid s event_id = Ok (n, s') ∧ short_inv s' ids
      ∧ get_eventid_from_short s' n = Ok event_id
      ∧ (∀ e, get_shorteventid s' e = Ok n ↔ e = event_id)
      ∧ (∀ e m, get_shorteventid s e = Ok m → get_shorteventid s' e = Ok m)
      ∧ get_or_create_shorteventid s' event_id = Ok (n, s'))
  ∧ (∀ ty key, utf8_valid ty = true → utf8_valid key = true →
    ∃ n s', get_or_create_shortstatekey s ty key = Ok (n, s') ∧ short_inv s' ids
      ∧ get_statekey_from_short s' n = Ok (ty, key)
      ∧ get_or_create_shortstatekey s' ty key = Ok (n, s')
      ∧ ∀ e m, get_shorteventid s e = Ok m → get_shorteventid s' e = Ok m).
Proof.
  intros Hinv Hlt. split.
  - intros e Hu Hok. destruct (get_or_create_shorteventid_spec s ids e Hinv Hlt) as (n & s' & Hg & Hinv' & Hext & Hv & Hn & _).
    assert (get_shorteventid s' e = Ok n) as Hget by by apply (get_shorteventid_iff s' ids).
    exists n, s'. split_and!; [done|done|by eapply get_eventid_at| | |].
    + intros e'. rewrite (get_shorteventid_iff s' ids) by done. split; [|by intros ->].
      intros [Hv' _]. by eapply (numbered_inj _ _ (short_events _ _ Hinv')).
    + intros e' m. rewrite !(get_shorteventid_iff _ ids) by done. by apply numbered_as_extends.
    + unfold get_or_create_shorteventid. by rewrite Hget.
  - intros ty key Ht Hk. destruct (get_or_create_shortstatekey_spec s ids ty key Hinv Hlt) as (n & s' & Hg & Hinv' & Hext & Hv & Hn & _).
    exists n, s'. split_and!; [done|done|by eapply get_statekey_at| |].
    + unfold get_or_create_shortstatekey. by rewrite (get_shortstatekey_at s' ids ty key n).
    + intros e' m. rewrite !(get_shorteventid_iff _ ids) by done. by apply numbered_as_extends.
Qed.

(** Numbering many events reads ahead, and still gives each its number:
    for events without repetition, cut into chunks in any way, the numbers come
    in the order of the events, each the number of its event, also for events
    that were known before. *)
Theorem short_multi_exact `{Engine, JsonParser, Identifiers} s ids chunks :
  short_inv s ids → (last_number s + N.of_nat (length (concat chunks)) <= U64_MAX)%N → NoDup (concat chunks) →
  ∃ ns s', multi_get_or_create_shorteventid chunks s = Ok (ns, s') ∧ short_inv s' ids
    ∧ Forall2 (λ e n, get_shorteventid s' e = Ok n) (concat chunks) ns
    ∧ NoDup ns
    ∧ ∀ e m, get_shorteventid s e = Ok m → get_shorteventid s' e = Ok m.
Proof.
  intros Hinv Hlt ND. destruct (multi_spec chunks s ids Hinv Hlt ND) as (ns & s' & Hm & Hinv' & Hext & Hns & _).
  exists ns, s'. split_and!; [done|done| | |].
  - eapply Forall2_impl; [exact Hns|]. intros e n. by apply (get_shorteventid_iff s' ids).
  - clear -ND Hns Hinv'. induction Hns as [|e n l ns [Hv Hn] Hns IH]; [constructor|].
    apply NoDup_cons in ND as [Hne ND]. constructor; [|by apply IH]. intros Hin. apply Hne.
    destruct (list_elem_of_lookup_1 _ _ Hin) as [i Hi]. destruct (Forall2_lookup_r _ _ _ _ _ Hns Hi) as (e' & He' & [Hv' _]).
    assert (e = e') as -> by by eapply (numbered_inj _ _ (short_events _ _ Hinv')). by eapply list_elem_of_lookup_2.
  - intros e' m. rewrite !(get_shorteventid_iff _ ids) by done. by apply numbered_as_extends.
Qed.

(** Room numbers: a room is found by its number until it is deleted, and
    deleting it leaves the numbers of the other rooms. *)
Theorem short_rooms_roundtrip `{Engine, JsonParser, Identifiers} s ids room_id :
  short_inv s ids → (last_number s < U64_MAX)%N → utf8_valid room_id = true → room_id_ok room_id = true →
  ∃ n s' s'', get_or_create_shortroomid s room_id = Ok (n, s') ∧ short_inv s' ids
    ∧ get_roomid_from_short s' n = Ok room_id
    ∧ delete_shortroomid s' room_id = Ok s'' ∧ short_inv s'' ids
    ∧ get_shortroomid s'' room_id = Err NotFound
    ∧ ∀ r m, r ≠ room_id → get_shortroomid s r = Ok m → get_shortroomid s'' r = Ok m.
Proof.
  intros Hinv Hlt Hu Hok. destruct (get_or_create_shortroomid_spec s ids room_id Hinv Hlt) as (n & s' & Hg & Hinv' & Hext & Hv & Hn & _).
  pose proof (short_width _ _ Hinv') as Hw. exists n, s'. eexists. split_and!; [done|done|eapply get_roomid_at; [done..|lia|done|done]| | | |].
  - unfold delete_shortroomid, exists_row, Map_get. by rewrite table_get_rows, Hv.
  - destruct Hinv'. split; try done. cbn. unfold Map_remove. rewrite table_del_rows. by apply numbered_delete.
  - unfold get_shortroomid, Map_get. cbn. unfold Map_remove. by rewrite table_get_rows, table_del_rows, lookup_delete_eq.
  - intros r m Hne Hr. unfold get_shortroomid in *.
    pose proof (read_number _ _ r (short_rooms _ _ Hinv) (short_width _ _ Hinv)) as Hread. rewrite Hr in Hread. destruct Hread as [Hrow Hm].
    unfold Map_get. cbn. unfold Map_remove. rewrite table_get_rows, table_del_rows, lookup_delete_ne by done.
    apply deserialized_u64_row; [pose proof (short_width _ _ Hinv); lia|]. by eapply lookup_weaken; [|apply Hext].
Qed.

(** A fresh server. *)
Module ShortExample.
#[local] Existing Instance ordered_engine.
#[export] Instance json : JsonParser := λ _, true.
#[export] Instance identifiers : Identifiers := {| event_id_ok := String.prefix "$"; room_id_ok := String.prefix "!" |}.

Definition empty : Short := mkShort (mkData (∅ : Table) 0 (counter_new 0)) (∅ : Table) (∅ : Table) (∅ : Table) (∅ : Table) (∅ : Table) (∅ : Table).

Lemma numbered_empty d : numbered ∅ d.
Proof. split; intros *; by rewrite lookup_empty. Qed.

Lemma empty_inv : short_inv empty ∅.
Proof.
  split; try apply numbered_empty; try (intros k v; cbn; by rewrite !lookup_empty).
  destruct (data_new_inv (H := ordered_engine) (∅ : Table) 0) as (d & [= <-] & _ & _ & Hd); [done..|]. exact Hd.
Qed.
End ShortExample.

Section short_witnesses.
#[local] Existing Instance ordered_engine.
Import ShortExample.

Lemma short_ids_roundtrip_witness :
  ∃ n s', get_or_create_shortstatekey empty "m.room.member" "@u:a" = Ok (n, s') ∧ get_statekey_from_short s' n = Ok ("m.room.member", "@u:a").
Proof.
  destruct (short_ids_roundtrip empty ∅ empty_inv) as [_ Hk]; [done|].
  destruct (Hk "m.room.member" "@u:a") as (n & s' & Hg & _ & Hr & _); [done..|]. exists n, s'. exact (conj Hg Hr).
Defined.

Lemma short_multi_exact_witness :
  ∃ ns s', multi_get_or_create_shorteventid [["$a"; "$b"]; ["$c"]] empty = Ok (ns, s') ∧ NoDup ns.
Proof.
  destruct (short_multi_exact empty ∅ [["$a"; "$b"]; ["$c"]] empty_inv) as (ns & s' & Hm & _ & _ & ND & _).
  - done.
  - by apply (bool_decide_unpack _); vm_compute.
  - exists ns, s'. exact (conj Hm ND).
Defined.

Lemma short_rooms_roundtrip_witness :
  ∃ n s' s'', get_or_create_shortroomid empty "!r:a" = Ok (n, s') ∧ delete_shortroomid s' "!r:a" = Ok s''.
Proof.
  destruct (short_rooms_roundtrip empty ∅ "!r:a" empty_inv) as (n & s' & s'' & Hg & _ & _ & Hd & _); [done..|].
  exists n, s', s''. exact (conj Hg Hd).
Defined.
End short_witnesses.
