(* ===== verification/Compressor.v ===== *)
(** * Compressed states ([src/src/service/rooms/state_compressor/mod.rs])

    The state of a room before an event is a set of 16-byte entries, the number
    of a state key and the number of an event.  A state is stored as a diff on
    top of another one, in at most four layers.  This file has the pure part:
    the bytes of entries and diffs, merging a diff into the layer below, and
    the choice of the layer a diff goes on.  [RoomStates] has the services. *)

From S2P Require Import Prelude Bytes Slices DbCodec DbMap Counter Short.

Local Set Warnings "-register-all".

(** ** Compressed states *)

Abbreviation CompressedState := (gset string).

Record StateDiff := mkDiff { diff_parent : option N; diff_added : CompressedState; diff_removed : CompressedState }.

Record ShortStateInfo := mkInfo {
  shortstatehash : N;
  full_state : CompressedState;
  added : CompressedState;
  removed : CompressedState;
}.

Abbreviation Stack := (list ShortStateInfo).

Record StateChange := mkChange { change_hash : N; change_added : CompressedState; change_removed : CompressedState }.

(** Errors of the service; [Arithmetic] is a failed [checked!], [Deep] a
    recursion deeper than the model allows. *)
Inductive StateError :=
  | Service (e : ServiceError)
  | Arithmetic
  | Deep
  | NoState.

Definition svc {A} (r : Result ServiceError A) : Result StateError A := map_err Service r.
Definition dbe {A} (r : Result DbError A) : Result StateError A := map_err (λ e, Service (DbErr e)) r.

Definition checked (n : N) : Result StateError N := if (n <=? U64_MAX)%N then Ok n else Err Arithmetic.

(** [size_of::<ShortStateHash>()] *)
Definition STRIDE : nat := 8.

Definition compress_state_event (shortstatekey shorteventid : N) : string :=
  u64_to_be_bytes shortstatekey +:+ u64_to_be_bytes shorteventid.

Definition parse_compressed_state_event (e : string) : option (N * N) :=
  k ← from_be_bytes 8 (str_take 8 e); v ← from_be_bytes 8 (str_drop 8 e); Some (k, v).

(** ** The bytes of a diff *)

Definition concat_bytes (l : list string) : string := foldr String.append "" l.

Definition statediff_bytes (d : StateDiff) : string :=
  u64_to_be_bytes (default 0%N (diff_parent d))
  +:+ concat_bytes (bset_iter (diff_added d))
  +:+ (if decide (diff_removed d = ∅) then ""
       else u64_to_be_bytes 0 +:+ concat_bytes (bset_iter (diff_removed d))).

(** The loop over [value], from [i]; each turn moves on by a stride at least. *)
Fixpoint read_entries (fuel : nat) (value : string) (i : nat) (add_mode : bool) (added removed : CompressedState) :
    Result StateError (CompressedState * CompressedState) :=
  match fuel with
  | O => Err Deep
  | S fuel =>
      match slice_get value i (i + 2 * STRIDE) with
      | None => Ok (added, removed)
      | Some v =>
          if add_mode && String.prefix (u64_to_be_bytes 0) v then
            read_entries fuel value (i + STRIDE) false added removed
          else if add_mode then
            read_entries fuel value (i + 2 * STRIDE) add_mode ({[v]} ∪ added) removed
          else read_entries fuel value (i + 2 * STRIDE) add_mode added ({[v]} ∪ removed)
      end
  end.

Definition parse_statediff (value : string) : Result StateError StateDiff :=
  let? head := ok_or (Service (DbErr (Panicked OutOfBounds))) (slice_get value 0 8) in
  let? r := read_entries (S (String.length value)) value STRIDE true ∅ ∅ in
  Ok (mkDiff (opt_filter (λ p, negb (N.eqb p 0)) (from_be_bytes 8 head)) r.1 r.2).

(** ** Merging a diff into the layer below *)

(** Takes an entry out of the first set, or puts it into the second. *)
Definition cancel (acc : CompressedState * CompressedState) (e : string) : CompressedState * CompressedState :=
  if decide (e ∈ acc.1) then (acc.1 ∖ {[e]}, acc.2) else (acc.1, {[e]} ∪ acc.2).

Definition merge_diff (parent : ShortStateInfo) (new rem : CompressedState) : CompressedState * CompressedState :=
  let '(parent_new, parent_removed) := foldl cancel (added parent, removed parent) (bset_iter rem) in
  let '(parent_removed, parent_new) := foldl cancel (parent_removed, parent_new) (bset_iter new) in
  (parent_new, parent_removed).

Definition set_len (x : CompressedState) : N := N.of_nat (size x).

(** Where a diff ends up: on which layer, and with which sets.  [layers] is the
    stack from its top down. *)
Fixpoint place_diff (new rem : CompressedState) (diff_to_sibling : N) (layers : Stack) : Result StateError StateDiff :=
  let? diffsum := checked (set_len new + set_len rem) in
  match layers with
  | [] => Ok (mkDiff None new rem)
  | parent :: layers' =>
      if (3 <? length layers)%nat then
        let '(parent_new, parent_removed) := merge_diff parent new rem in
        place_diff parent_new parent_removed diffsum layers'
      else
        let? parent_diff := checked (set_len (added parent) + set_len (removed parent)) in
        let? square := checked (diffsum * diffsum) in
        let? double := checked (2 * diff_to_sibling) in
        let? bound := checked (double * parent_diff) in
        if (bound <=? square)%N then
          let '(parent_new, parent_removed) := merge_diff parent new rem in
          place_diff parent_new parent_removed diffsum layers'
        else Ok (mkDiff (Some (shortstatehash parent)) new rem)
  end.

(** ** Entries and their bytes *)

(** An entry is sixteen bytes, and its state key has a number. *)
Definition entry (e : string) : Prop :=
  String.length e = 16%nat ∧ String.prefix (u64_to_be_bytes 0) e = false.

Definition entries (s : CompressedState) : Prop := ∀ e, e ∈ s → entry e.

Lemma compress_entry k n : (0 < k <= U64_MAX)%N → entry (compress_state_event k n).
Proof.
  intros Hk. unfold compress_state_event. split.
  { rewrite length_append. unfold u64_to_be_bytes. by rewrite !length_be_encode. }
  apply not_true_is_false. intros [t Ht]%prefix_spec. apply append_inj_l in Ht as [Ht _].
  - apply be_encode_inj in Ht; [lia|apply u64_width; lia|done].
  - unfold u64_to_be_bytes. by rewrite !length_be_encode.
Qed.

Lemma parse_compress k n :
  (k <= U64_MAX)%N → (n <= U64_MAX)%N → parse_compressed_state_event (compress_state_event k n) = Some (k, n).
Proof.
  intros Hk Hn. unfold parse_compressed_state_event, compress_state_event, u64_to_be_bytes.
  rewrite be_take, be_drop, !from_be_bytes_encode by by apply u64_width. done.
Qed.

Lemma concat_bytes_app l l' : concat_bytes (l ++ l') = concat_bytes l +:+ concat_bytes l'.
Proof. unfold concat_bytes. induction l as [|e l IH]; [done|]. cbn. by rewrite IH, append_assoc. Qed.

Lemma length_concat_bytes l : Forall entry l → String.length (concat_bytes l) = (16 * length l)%nat.
Proof.
  unfold concat_bytes. induction 1 as [|e l [He _] Hl IH]; [done|]. cbn [foldr length]. rewrite length_append, IH. lia.
Qed.

Lemma slice_at pre e rest :
  String.length e = 16%nat →
  slice_get (pre +:+ e +:+ rest) (String.length pre) (String.length pre + 2 * STRIDE) = Some e.
Proof.
  intros He. unfold slice_get, STRIDE. rewrite !length_append, He.
  rewrite (proj2 (Nat.leb_le _ _)) by lia. rewrite str_drop_append.
  replace (String.length pre + 2 * 8 - String.length pre)%nat with (String.length e) by lia. by rewrite str_take_append.
Qed.

Lemma slice_end value : slice_get value (String.length value) (String.length value + 2 * STRIDE) = None.
Proof. unfold slice_get, STRIDE. by rewrite (proj2 (Nat.leb_gt _ _)) by lia. Qed.

(** Reading a run of entries in either mode. *)
Lemma read_run l pre rest fuel (mode : bool) a r :
  Forall entry l →
  read_entries (length l + fuel) (pre +:+ concat_bytes l +:+ rest) (String.length pre) mode a r
  = read_entries fuel (pre +:+ concat_bytes l +:+ rest) (String.length pre + 16 * length l) mode
      (if mode then list_to_set l ∪ a else a) (if mode then r else list_to_set l ∪ r).
Proof.
  intros Hl. revert pre a r. induction Hl as [|e l [He Hp] Hl IH]; intros pre a r.
  { cbn. rewrite Nat.add_0_r. destruct mode; by rewrite union_empty_l_L. }
  cbn [length Nat.add read_entries]. change (concat_bytes (e :: l)) with (e +:+ concat_bytes l).
  rewrite <-append_assoc, (slice_at pre e) by done. rewrite Hp, andb_false_r.
  assert (String.length pre + 2 * STRIDE = String.length (pre +:+ e))%nat as Hi
    by (rewrite length_append, He; unfold STRIDE; lia).
  rewrite Hi, (append_assoc pre e). destruct mode; rewrite IH;
    (replace (String.length (pre +:+ e) + 16 * length l)%nat with (String.length pre + 16 * S (length l))%nat
      by (rewrite length_append, He; lia)); f_equal; set_solver.
Qed.

Lemma read_end fuel value mode a r : read_entries (S fuel) value (String.length value) mode a r = Ok (a, r).
Proof. cbn [read_entries]. by rewrite slice_end. Qed.

Lemma entries_Forall s : entries s → Forall entry (bset_iter s).
Proof. intros Hs. apply Forall_forall. intros e He%elem_of_bset_iter. by apply Hs. Qed.

Lemma bset_iter_set (s : CompressedState) : list_to_set (bset_iter s) = s.
Proof. apply set_eq. intros e. by rewrite elem_of_list_to_set, elem_of_bset_iter. Qed.

Lemma prefix_app_l p e rest : (String.length p <= String.length e)%nat → String.prefix p (e +:+ rest) = String.prefix p e.
Proof.
  revert e. induction p as [|c p IH]; intros e Hl; [by rewrite !prefix_nil|].
  destruct e as [|c' e]; [cbn in Hl; lia|]. cbn. case_match; [|done]. apply IH. cbn in Hl. lia.
Qed.

(** The marker stands before at least one entry, so a window at it begins with
    its eight zero bytes. *)
Lemma read_marker pre l fuel a :
  l ≠ [] → Forall entry l →
  read_entries (S fuel) (pre +:+ u64_to_be_bytes 0 +:+ concat_bytes l) (String.length pre) true a ∅
  = read_entries fuel (pre +:+ u64_to_be_bytes 0 +:+ concat_bytes l) (String.length pre + 8) false a ∅.
Proof.
  intros Hne Hl. cbn [read_entries]. unfold slice_get, STRIDE.
  rewrite !length_append, (length_concat_bytes l Hl). unfold u64_to_be_bytes at 1. rewrite length_be_encode.
  destruct l as [|e l]; [done|]. cbn [length]. rewrite (proj2 (Nat.leb_le _ _)) by lia.
  rewrite str_drop_append. replace (String.length pre + 2 * 8 - String.length pre)%nat with 16%nat by lia.
  assert (String.prefix (u64_to_be_bytes 0) (str_take 16 (u64_to_be_bytes 0 +:+ concat_bytes (e :: l))) = true) as ->; [|done].
  rewrite <-(str_take_drop 8 (concat_bytes (e :: l))) at 1. rewrite append_assoc.
  assert (String.length (u64_to_be_bytes 0 +:+ str_take 8 (concat_bytes (e :: l))) = 16%nat) as Hlen.
  { rewrite length_append, length_str_take by (rewrite (length_concat_bytes _ Hl); cbn [length]; lia).
    unfold u64_to_be_bytes. by rewrite length_be_encode. }
  rewrite <-Hlen at 1. rewrite str_take_append. apply prefix_append.
Qed.

Definition diff_ok (d : StateDiff) : Prop :=
  entries (diff_added d) ∧ entries (diff_removed d)
  ∧ match diff_parent d with Some p => (0 < p <= U64_MAX)%N | None => True end.

Lemma read_diff d :
  entries (diff_added d) → entries (diff_removed d) →
  read_entries (S (String.length (statediff_bytes d))) (statediff_bytes d) STRIDE true ∅ ∅ = Ok (diff_added d, diff_removed d).
Proof.
  intros Ha%entries_Forall Hr%entries_Forall. unfold statediff_bytes.
  set (head := u64_to_be_bytes _). set (la := bset_iter (diff_added d)) in *. set (lr := bset_iter (diff_removed d)) in *.
  assert (String.length head = STRIDE) as Hh by (unfold head, u64_to_be_bytes; by rewrite length_be_encode).
  pose proof (length_concat_bytes la Ha) as La. pose proof (length_concat_bytes lr Hr) as Lr.
  case_decide as He.
  - set (value := head +:+ _). assert (String.length value = 8 + 16 * length la)%nat as Hv.
    { unfold value. rewrite !length_append, Hh, La. cbn. unfold STRIDE. lia. }
    replace (S (String.length value)) with (length la + S (8 + 15 * length la))%nat by lia.
    rewrite <-Hh at 1. unfold value. rewrite read_run by done. fold value.
    replace (String.length head + 16 * length la)%nat with (String.length value) by (rewrite Hv, Hh; unfold STRIDE; lia).
    rewrite read_end, union_empty_r_L. unfold la. by rewrite bset_iter_set, He.
  - assert (lr ≠ []) as Hne.
    { intros Hn. apply He, set_eq. intros e. rewrite <-elem_of_bset_iter. fold lr. rewrite Hn. set_solver. }
    set (value := head +:+ _). assert (String.length value = 16 + 16 * length la + 16 * length lr)%nat as Hv.
    { unfold value. rewrite !length_append, Hh, La, Lr. unfold STRIDE, u64_to_be_bytes. rewrite length_be_encode. lia. }
    replace (S (String.length value)) with (length la + S (length lr + S (15 + 15 * length la + 15 * length lr)))%nat by lia.
    rewrite <-Hh at 1. unfold value. rewrite read_run by done.
    rewrite (append_assoc head (concat_bytes la)).
    replace (String.length head + 16 * length la)%nat with (String.length (head +:+ concat_bytes la)) by (rewrite length_append; lia).
    rewrite read_marker by done. rewrite (append_assoc (head +:+ concat_bytes la) (u64_to_be_bytes 0)).
    set (pre := (head +:+ concat_bytes la) +:+ u64_to_be_bytes 0).
    replace (String.length (head +:+ concat_bytes la) + 8)%nat with (String.length pre)
      by (unfold pre, u64_to_be_bytes; by rewrite length_append, length_be_encode).
    rewrite <-(append_nil_r (concat_bytes lr)). rewrite read_run by done.
    replace (String.length pre + 16 * length lr)%nat with (String.length (pre +:+ concat_bytes lr +:+ ""))
      by (rewrite !length_append, Lr; cbn; lia).
    rewrite read_end, !union_empty_r_L. unfold la, lr. by rewrite !bset_iter_set.
Qed.

Lemma parse_statediff_bytes d : diff_ok d → parse_statediff (statediff_bytes d) = Ok d.
Proof.
  intros (Ha & Hr & Hp). unfold parse_statediff. pose proof (read_diff d Ha Hr) as Hread.
  assert (slice_get (statediff_bytes d) 0 8 = Some (u64_to_be_bytes (default 0%N (diff_parent d)))) as ->.
  { unfold slice_get, statediff_bytes. rewrite length_append. unfold u64_to_be_bytes at 1. rewrite length_be_encode.
    rewrite (proj2 (Nat.leb_le _ _)) by lia. done. }
  cbn [ok_or]. rewrite Hread. cbn [fst snd]. unfold u64_to_be_bytes. destruct d as [[p|] da dr]; cbn in *.
  - rewrite from_be_bytes_encode by (apply u64_width; lia). cbn. destruct (N.eqb_spec p 0); [lia|done].
  - done.
Qed.

(** ** Merging *)

Lemma cancel_fold (l : list string) (a b : CompressedState) :
  NoDup l → foldl cancel (a, b) l = (a ∖ list_to_set l, b ∪ (list_to_set l ∖ a)).
Proof.
  intros ND. revert a b. induction ND as [|e l Hn ND IH]; intros a b; cbn [foldl].
  { cbn. f_equal; set_solver. }
  unfold cancel at 2. cbn [fst snd]. case_decide as He; rewrite IH; f_equal; set_unfold.
  all: intros x; destruct (decide (x = e)) as [->|]; naive_solver.
Qed.

Lemma merge_diff_sets parent new rem :
  let pr := removed parent ∪ (rem ∖ added parent) in
  merge_diff parent new rem = ((added parent ∖ rem) ∪ (new ∖ pr), pr ∖ new).
Proof.
  unfold merge_diff. rewrite cancel_fold, bset_iter_set by apply bset_iter_NoDup.
  by rewrite cancel_fold, bset_iter_set by apply bset_iter_NoDup.
Qed.

(** A stack of layers, from its top down, over the empty state: each layer adds
    entries the one below does not have and removes entries it has. *)
Inductive layered : Stack → CompressedState → Prop :=
  | layered_nil : layered [] ∅
  | layered_cons i layers full :
      layered layers full → added i ## full → removed i ⊆ full →
      full_state i = (full ∪ added i) ∖ removed i → layered (i :: layers) (full_state i).

(** The diff of a layer over the state [full], giving the state [s]. *)
Definition diff_of (full new rem s : CompressedState) : Prop :=
  new ## full ∧ rem ⊆ full ∧ s = (full ∪ new) ∖ rem.

Lemma merge_diff_of parent full new rem s :
  diff_of full (added parent) (removed parent) (full_state parent) → diff_of (full_state parent) new rem s →
  diff_of full (merge_diff parent new rem).1 (merge_diff parent new rem).2 s.
Proof.
  intros (Ha & Hr & Hf) (Hn & Hm & ->). rewrite merge_diff_sets. cbn [fst snd]. rewrite Hf in *.
  split_and!; [| |apply set_eq; intros x; destruct (decide (x ∈ full)), (decide (x ∈ added parent)), (decide (x ∈ removed parent)),
    (decide (x ∈ new)), (decide (x ∈ rem))]; set_unfold; naive_solver.
Qed.

Lemma size_union_le (x y : CompressedState) : (size (x ∪ y) <= size x + size y)%nat.
Proof. rewrite size_union_alt. pose proof (subseteq_size (y ∖ x) y ltac:(set_solver)). lia. Qed.

Lemma size_difference_le (x y : CompressedState) : (size (x ∖ y) <= size x)%nat.
Proof. apply subseteq_size. set_solver. Qed.

Lemma merge_size parent new rem :
  (set_len (merge_diff parent new rem).1 + set_len (merge_diff parent new rem).2
   <= (set_len (added parent) + set_len (removed parent)) + (set_len new + set_len rem))%N.
Proof.
  rewrite merge_diff_sets. unfold set_len. cbn [fst snd]. set (pr := removed parent ∪ (rem ∖ added parent)).
  pose proof (size_union_le (added parent ∖ rem) (new ∖ pr)). pose proof (size_difference_le (added parent) rem).
  pose proof (size_difference_le new pr). pose proof (size_difference_le pr new).
  pose proof (size_union_le (removed parent) (rem ∖ added parent)) as Hpr. fold pr in Hpr.
  pose proof (size_difference_le rem (added parent)). lia.
Qed.

Lemma merge_entries parent new rem :
  entries (added parent) → entries (removed parent) → entries new → entries rem →
  entries (merge_diff parent new rem).1 ∧ entries (merge_diff parent new rem).2.
Proof. intros Ha Hr Hn Hm. rewrite merge_diff_sets. split; intros e; cbn; set_unfold; naive_solver. Qed.

(** ** Placing a diff *)

Definition volume (layers : Stack) : N := foldr (λ i n, set_len (added i) + set_len (removed i) + n)%N 0%N layers.
Definition stack_entries (layers : Stack) : Prop := Forall (λ i, entries (added i) ∧ entries (removed i)) layers.

(** Sizes up to this do not overflow. *)
Definition MAX_VOLUME : N := 2 ^ 30.

Lemma checked_small n : (n <= U64_MAX)%N → checked n = Ok n.
Proof. intros Hn. unfold checked. by rewrite (proj2 (N.leb_le _ _) Hn). Qed.

(** The diff [d] lies over some lower part of the stack, with at most three
    layers, and gives the state [s]; [total] bounds its size and theirs. *)
Definition placed (layers : Stack) (total : N) (s : CompressedState) (d : StateDiff) : Prop :=
  ∃ base full, base `suffix_of` layers ∧ (length base <= 3)%nat
    ∧ diff_parent d = shortstatehash <$> head base ∧ layered base full
    ∧ diff_of full (diff_added d) (diff_removed d) s
    ∧ entries (diff_added d) ∧ entries (diff_removed d)
    ∧ (set_len (diff_added d) + set_len (diff_removed d) + volume base <= total)%N.

Lemma placed_lower i layers total total' s d :
  placed layers total s d → (total <= total')%N → placed (i :: layers) total' s d.
Proof.
  intros (base & full & Hs & Hl & Hp & Hlay & Hd & Ha & Hr & Hv) Hle. exists base, full.
  split_and!; try done; [by apply suffix_cons_r|lia].
Qed.

Lemma place_diff_spec layers full new rem s sibling :
  layered layers full → diff_of full new rem s → stack_entries layers → entries new → entries rem →
  (set_len new + set_len rem + volume layers <= MAX_VOLUME)%N → (sibling <= MAX_VOLUME)%N →
  ∃ d, place_diff new rem sibling layers = Ok d ∧ placed layers (set_len new + set_len rem + volume layers) s d.
Proof.
  intros Hl. revert new rem sibling. induction Hl as [|i layers full Hl IH Ha Hr Hf]; intros new rem sibling Hd Hse Hn Hm Hv Hs;
    cbn [place_diff].
  { rewrite checked_small by (unfold MAX_VOLUME, U64_MAX in *; lia). eexists. split; [done|].
    exists [], ∅. split_and!; first [done|cbn; lia|by constructor]. }
  cbn [volume foldr] in *. fold (volume layers) in *. apply Forall_cons in Hse as [[Hea Her] Hse].
  set (sum := (set_len new + set_len rem)%N) in *. set (below := (set_len (added i) + set_len (removed i))%N) in *.
  rewrite checked_small by (unfold MAX_VOLUME, U64_MAX in *; lia).
  assert (∃ d, place_diff (merge_diff i new rem).1 (merge_diff i new rem).2 sum layers = Ok d
    ∧ placed (i :: layers) (sum + (below + volume layers)) s d) as Hmerge.
  { pose proof (merge_size i new rem) as Hsz. fold sum below in Hsz.
    destruct (merge_entries i new rem Hea Her Hn Hm) as [He1 He2].
    destruct (IH (merge_diff i new rem).1 (merge_diff i new rem).2 sum) as (d & Hp & Hpl); [by eapply merge_diff_of|done..|lia|lia|].
    exists d. split; [done|]. eapply placed_lower; [done|lia]. }
  destruct (merge_diff i new rem) as [parent_new parent_removed]. cbn [fst snd] in Hmerge.
  destruct (Nat.ltb_spec 3 (length (i :: layers))) as [Hlt|Hge]; [exact Hmerge|].
  assert (sum * sum <= U64_MAX)%N as Hsq by (unfold MAX_VOLUME, U64_MAX in *; nia).
  assert (2 * sibling * below <= U64_MAX)%N as Hb by (unfold MAX_VOLUME, U64_MAX in *; nia).
  rewrite !checked_small by (unfold MAX_VOLUME, U64_MAX in *; lia). case_match; [exact Hmerge|].
  eexists. split; [done|]. exists (i :: layers), (full_state i). split_and!; first [done|by econstructor].
Qed.

(** ** Properties *)

(** The bytes of a diff are read back as the diff: for entries whose state
    key has a number above zero, the marker before the removed entries is never
    taken for an entry nor an entry for the marker. *)
Theorem statediff_roundtrip (d : StateDiff) :
  diff_ok d → parse_statediff (statediff_bytes d) = Ok d.
Proof. apply parse_statediff_bytes. Qed.

Lemma statediff_roundtrip_witness :
  let d := mkDiff (Some 7%N) {[compress_state_event 1 5; compress_state_event 2 6]} {[compress_state_event 1 3]} in
  parse_statediff (statediff_bytes d) = Ok d.
Proof.
  apply statediff_roundtrip. split_and!; [| |done].
  - intros e He. cbn in He. apply elem_of_union in He as [->%elem_of_singleton| ->%elem_of_singleton]; by apply compress_entry.
  - intros e He. cbn in He. apply elem_of_singleton in He as ->. by apply compress_entry.
Defined.

(** Placing a diff keeps the state: whether the diff becomes a layer of its
    own or is merged into the layers below, the state it gives over the layer
    it ends up on is the same; it has at most three layers below it, and its
    size with theirs has not grown.  Sizes up to 2^30 do not overflow. *)
Theorem place_diff_correct layers full new rem s sibling :
  layered layers full → diff_of full new rem s → stack_entries layers → entries new → entries rem →
  (set_len new + set_len rem + volume layers <= MAX_VOLUME)%N → (sibling <= MAX_VOLUME)%N →
  ∃ d, place_diff new rem sibling layers = Ok d ∧ placed layers (set_len new + set_len rem + volume layers) s d.
Proof. apply place_diff_spec. Qed.

Lemma place_diff_correct_witness :
  let e1 := compress_state_event 1 5 in let e2 := compress_state_event 1 6 in
  let layers := [mkInfo 3 {[e1]} {[e1]} ∅] in
  ∃ d, place_diff {[e2]} {[e1]} 2 layers = Ok d ∧ placed layers (set_len {[e2]} + set_len {[e1]} + volume layers) {[e2]} d.
Proof.
  intros e1 e2 layers. assert (e1 ≠ e2) as Hne by done.
  assert (∀ e, e = e1 ∨ e = e2 → entry e) as Hent by (intros e [-> | ->]; by apply compress_entry).
  apply (place_diff_correct layers {[e1]} {[e2]} {[e1]} {[e2]} 2).
  - refine (layered_cons (mkInfo 3 {[e1]} {[e1]} ∅) [] ∅ layered_nil _ _ _); cbn; set_solver.
  - split_and!; set_solver.
  - constructor; [|constructor]. split; intros e; cbn; set_solver.
  - intros e ->%elem_of_singleton. auto.
  - intros e ->%elem_of_singleton. auto.
  - by vm_compute.
  - done.
Defined.
