(* ===== verification/RoomStates.v ===== *)
(** * Room states ([src/src/service/rooms/state_compressor/mod.rs],
    [src/src/service/rooms/state/mod.rs])

    The two services that store the state of rooms, on top of [Compressor]:
    [RoomStates] is their tables with the cache of loaded stacks and the
    short-id service.  The cache is a third-party LRU cache: [Lru] is what the
    code relies on, that it returns what was inserted under the key or nothing.
    The mutex of a room only orders the callers and has no state here. *)

From S2P Require Import Prelude Bytes Slices DbCodec DbMap Pairs Counter Short Compressor.

Local Set Warnings "-register-all".

Class Lru := {
  Cache : Type;
  cache_rows : Cache → gmap N Stack;
  cache_get : Cache → N → option Stack * Cache;
  cache_put : Cache → N → Stack → Cache;
  cache_get_rows c k : (cache_get c k).1 = cache_rows c !! k;
  cache_get_keeps c k : cache_rows (cache_get c k).2 ⊆ cache_rows c;
  cache_put_rows c k v : cache_rows (cache_put c k v) ⊆ <[k := v]> (cache_rows c);
}.

(** ** The services *)

(** SHA-256. *)
Class Digest := sha256 : string → string.

(** [calculate_hash]: the entries, joined by 0xFF bytes. *)
Definition calculate_hash `{Digest} (l : list string) : string := sha256 (record_bytes l).

(** A stack has at most four layers. *)
Definition LAYERS : nat := 4.

Section states.
Context `{Engine, JsonParser, Identifiers, Lru, Digest}.

Record RoomStates := mkStates {
  shorts : Short;
  shortstatehash_statediff : Table;
  stateinfo_cache : Cache;
  roomid_shortstatehash : Table;
  shorteventid_shortstatehash : Table;
  roomid_pduleaves : Table;
}.
Implicit Types (st : RoomStates) (room_id event_id : string).

Definition with_shorts (x : Short) st : RoomStates :=
  mkStates x (shortstatehash_statediff st) (stateinfo_cache st) (roomid_shortstatehash st)
    (shorteventid_shortstatehash st) (roomid_pduleaves st).
Definition with_statediffs (tb : Table) st : RoomStates :=
  mkStates (shorts st) tb (stateinfo_cache st) (roomid_shortstatehash st) (shorteventid_shortstatehash st) (roomid_pduleaves st).
Definition with_cache (c : Cache) st : RoomStates :=
  mkStates (shorts st) (shortstatehash_statediff st) c (roomid_shortstatehash st) (shorteventid_shortstatehash st)
    (roomid_pduleaves st).
Definition with_room_states (tb : Table) st : RoomStates :=
  mkStates (shorts st) (shortstatehash_statediff st) (stateinfo_cache st) tb (shorteventid_shortstatehash st) (roomid_pduleaves st).
Definition with_event_states (tb : Table) st : RoomStates :=
  mkStates (shorts st) (shortstatehash_statediff st) (stateinfo_cache st) (roomid_shortstatehash st) tb (roomid_pduleaves st).
Definition with_pduleaves (tb : Table) st : RoomStates :=
  mkStates (shorts st) (shortstatehash_statediff st) (stateinfo_cache st) (roomid_shortstatehash st)
    (shorteventid_shortstatehash st) tb.

(** *** Diffs *)

Definition get_statediff st (h : N) : Result StateError StateDiff :=
  let? value := dbe (aqry (shortstatehash_statediff st) BUFSIZE (SU64 h)) in parse_statediff value.

Definition save_statediff st (h : N) (d : StateDiff) : RoomStates :=
  with_statediffs (Map_insert (shortstatehash_statediff st) (u64_to_be_bytes h) (statediff_bytes d)) st.

(** *** Loading *)

Definition new_shortstatehash_info (load : RoomStates → N → Result StateError (Stack * RoomStates)) st (h : N) :
    Result StateError (Stack * RoomStates) :=
  let? d := get_statediff st h in
  match diff_parent d with
  | None => Ok ([mkInfo h (diff_added d) (diff_added d) (diff_removed d)], st)
  | Some parent =>
      let? r := load st parent in
      match last r.1 with
      | None => Err NoState
      | Some top =>
          let full := (full_state top ∪ diff_added d) ∖ diff_removed d in
          Ok (r.1 ++ [mkInfo h full (diff_added d) (diff_removed d)], r.2)
      end
  end.

Definition cache_shortstatehash_info st (h : N) (stack : Stack) : RoomStates :=
  with_cache (cache_put (stateinfo_cache st) h stack) st.

Fixpoint load_layers (depth : nat) st (h : N) : Result StateError (Stack * RoomStates) :=
  match depth with
  | O => Err Deep
  | S depth =>
      match cache_get (stateinfo_cache st) h with
      | (Some stack, c) => Ok (stack, with_cache c st)
      | (None, c) =>
          let? r := new_shortstatehash_info (load_layers depth) (with_cache c st) h in
          Ok (r.1, cache_shortstatehash_info r.2 h r.1)
      end
  end.

Definition load_shortstatehash_info := load_layers LAYERS.

Definition clear_cache (empty : Cache) st : RoomStates := with_cache empty st.

(** *** Saving *)

Definition save_state_from_diff st (h : N) (new rem : CompressedState) (diff_to_sibling : N) (parents : Stack) :
    Result StateError RoomStates :=
  let? d := place_diff new rem diff_to_sibling (reverse parents) in Ok (save_statediff st h d).

(** The diff of a state to the top of a stack. *)
Definition diff_to_parent (parents : Stack) (new : CompressedState) : CompressedState * CompressedState :=
  match last parents with
  | Some parent => (new ∖ full_state parent, full_state parent ∖ new)
  | None => (new, ∅)
  end.

Definition get_room_shortstatehash st room_id : Result DbError N :=
  deserialized_u64 (Map_get (roomid_shortstatehash st) room_id).

(** The stack of the previous state of a room, or an empty one. *)
Definition load_previous st (previous : option N) : Result StateError (Stack * RoomStates) :=
  match previous with Some p => load_shortstatehash_info st p | None => Ok ([], st) end.

Definition save_state st room_id (new : CompressedState) : Result StateError (StateChange * RoomStates) :=
  let previous := ok (get_room_shortstatehash st room_id) in
  let? r := svc (get_or_create_shortstatehash (shorts st) (calculate_hash (bset_iter new))) in
  let '(h, already_existed, shorts') := r in
  let next := with_shorts shorts' st in
  if decide (Some h = previous) then Ok (mkChange h ∅ ∅, next)
  else
    let '(parents, next) := match load_previous next previous with Ok r => r | Err _ => ([], next) end in
    let '(statediffnew, statediffremoved) := diff_to_parent parents new in
    let? next := (if already_existed then Ok next
                  else save_state_from_diff next h statediffnew statediffremoved 2 parents) in
    Ok (mkChange h statediffnew statediffremoved, next).

(** *** Compressing *)

Definition compress_event st (shortstatekey : N) event_id : Result StateError (string * RoomStates) :=
  let? r := svc (get_or_create_shorteventid (shorts st) event_id) in
  Ok (compress_state_event shortstatekey r.1, with_shorts r.2 st).

(** The events are numbered a chunk at a time. *)
Definition compress_state_events st (chunks : list (list (N * string))) : Result StateError (list string * RoomStates) :=
  let? r := svc (multi_get_or_create_shorteventid (map snd <$> chunks) (shorts st)) in
  Ok (zip_with compress_state_event (concat chunks).*1 r.1, with_shorts r.2 st).

(** *** The state of rooms and events *)

(** The block for a state that did not exist. *)
Definition save_new_state st (h : N) (already_existed : bool) (previous : option N) (new : CompressedState) : Result StateError RoomStates :=
  if already_existed then Ok st
  else
    let? r := load_previous st previous in
    let '(statediffnew, statediffremoved) := diff_to_parent r.1 new in
    save_state_from_diff r.2 h statediffnew statediffremoved 1000000 r.1.

Definition set_event_state st event_id room_id (new : CompressedState) : Result StateError (N * RoomStates) :=
  let? r := svc (get_or_create_shorteventid (shorts st) event_id) in
  let shorteventid := r.1 in
  let next := with_shorts r.2 st in
  let previous := ok (get_room_shortstatehash next room_id) in
  let? r := svc (get_or_create_shortstatehash (shorts next) (calculate_hash (bset_iter new))) in
  let '(h, already_existed, shorts') := r in
  let? next := save_new_state (with_shorts shorts' next) h already_existed previous new in
  let? tb := dbe (aput (shorteventid_shortstatehash next) BUFSIZE BUFSIZE (SU64 shorteventid) (SU64 h)) in
  Ok (h, with_event_states tb next).

(** The entry of a state with this key. *)
Definition entry_with_key (shortstatekey : N) (s : CompressedState) : option string :=
  List.find (String.prefix (u64_to_be_bytes shortstatekey)) (bset_iter s).

Definition get_globals st : Data := globals (shorts st).
Definition set_globals (d : Data) st : RoomStates := with_shorts (with_globals d (shorts st)) st.

(** The fields of the event that are used. *)
Record NewPdu := mkPdu { pdu_event_id : string; pdu_room_id : string; pdu_kind : string; pdu_state_key : option string }.

Definition append_state_event st (pdu : NewPdu) (previous : option N) (state_key : string) : Result StateError (N * RoomStates) :=
  let? r := load_previous st previous in
  let parents := r.1 in
  let? k := svc (get_or_create_shortstatekey (shorts r.2) (pdu_kind pdu) state_key) in
  let? n := compress_event (with_shorts k.2 r.2) k.1 (pdu_event_id pdu) in
  let replaces := info ← last parents; entry_with_key k.1 (full_state info) in
  if decide (Some n.1 = replaces) then
    let? h := ok_or NoState previous in Ok (h, n.2)
  else
    with_count (λ e, Service (CountErr e)) get_globals set_globals n.2 (λ h st,
      save_state_from_diff st h {[n.1]} (match replaces with Some e => {[e]} | None => ∅ end) 2 parents).

(** The state before the event, if the room has one. *)
Definition set_event_previous st (shorteventid : N) (previous : option N) : Result StateError RoomStates :=
  match previous with
  | Some p =>
      let? tb := dbe (aput (shorteventid_shortstatehash st) BUFSIZE BUFSIZE (SU64 shorteventid) (SU64 p)) in
      Ok (with_event_states tb st)
  | None => Ok st
  end.

Definition append_to_state st (pdu : NewPdu) : Result StateError (N * RoomStates) :=
  let? r := svc (get_or_create_shorteventid (shorts st) (pdu_event_id pdu)) in
  let next := with_shorts r.2 st in
  let previous := ok (get_room_shortstatehash next (pdu_room_id pdu)) in
  let? next := set_event_previous next r.1 previous in
  match pdu_state_key pdu with
  | Some state_key => append_state_event next pdu previous state_key
  | None => let? h := ok_or NoState previous in Ok (h, next)
  end.

Definition set_room_state st room_id (h : N) : Result StateError RoomStates :=
  let? tb := dbe (raw_aput (roomid_shortstatehash st) BUFSIZE room_id (SU64 h)) in Ok (with_room_states tb st).

Definition delete_room_shortstatehash st room_id : RoomStates :=
  with_room_states (Map_remove (roomid_shortstatehash st) room_id) st.

Definition get_shortstatehash st (shorteventid : N) : Result DbError N :=
  deserialized_u64 (aqry (shorteventid_shortstatehash st) BUFSIZE (SU64 shorteventid)).

Definition pdu_shortstatehash st event_id : Result DbError N :=
  let? n := get_shorteventid (shorts st) event_id in get_shortstatehash st n.

(** *** Forward extremities *)

Definition get_forward_extremities st room_id : Result DbError (list string) :=
  seconds (roomid_pduleaves st) event_id_ok room_id.

Definition remove_leaves (tb : Table) room_id : Result DbError Table :=
  let? keys := keys_prefix_raw tb (prefix_ser_of room_id) in Ok (foldl Map_remove tb keys).

Fixpoint put_leaves (tb : Table) room_id (event_ids : list string) : Result DbError Table :=
  match event_ids with
  | [] => Ok tb
  | event_id :: event_ids' =>
      let? next := put_raw tb (pair_ser room_id event_id) event_id in put_leaves next room_id event_ids'
  end.

Definition set_forward_extremities st room_id (event_ids : list string) : Result DbError RoomStates :=
  let? cleared := remove_leaves (roomid_pduleaves st) room_id in
  let? tb := put_leaves cleared room_id event_ids in
  Ok (with_pduleaves tb st).

Definition delete_all_rooms_forward_extremities st room_id : Result DbError RoomStates :=
  let? tb := remove_leaves (roomid_pduleaves st) room_id in Ok (with_pduleaves tb st).
End states.

(** ** States in the table *)

(** Sizes of states up to this keep all sums within bounds. *)
Definition MAX_STATE : N := 2 ^ 26.
Definition small (s : CompressedState) : Prop := (set_len s <= MAX_STATE)%N.

Section stored.
Implicit Types (rows : gmap string string) (h p : N) (stack : Stack).

Definition diff_row rows h (d : StateDiff) : Prop :=
  rows !! u64_to_be_bytes h = Some (statediff_bytes d) ∧ diff_ok d ∧ (0 < h <= U64_MAX)%N.

(** The stack of a state, from its bottom layer up. *)
Inductive stored rows : N → Stack → Prop :=
  | stored_root h d :
      diff_row rows h d → diff_parent d = None →
      stored rows h [mkInfo h (diff_added d) (diff_added d) (diff_removed d)]
  | stored_layer h d p stack top :
      diff_row rows h d → diff_parent d = Some p → stored rows p stack → last stack = Some top →
      stored rows h (stack ++ [mkInfo h ((full_state top ∪ diff_added d) ∖ diff_removed d) (diff_added d) (diff_removed d)]).

Definition stack_ok stack (s : CompressedState) : Prop :=
  layered (reverse stack) s ∧ stack_entries stack ∧ Forall (λ i, small (full_state i)) stack
  ∧ (0 < length stack <= LAYERS)%nat.

(** The number [h] stands for the state [s]. *)
Definition holds rows h (s : CompressedState) : Prop := ∃ stack, stored rows h stack ∧ stack_ok stack s.

Lemma diff_row_fun rows h d d' : diff_row rows h d → diff_row rows h d' → d = d'.
Proof.
  intros (Hr & Hd & _) (Hr' & Hd' & _). rewrite Hr in Hr'. apply (inj Some) in Hr' as He.
  apply parse_statediff_bytes in Hd, Hd'. rewrite He in Hd. congruence.
Qed.

Lemma stored_fun rows h stack stack' : stored rows h stack → stored rows h stack' → stack = stack'.
Proof.
  intros Hs. revert stack'. induction Hs as [h d Hr Hp|h d p stack top Hr Hp Hs IH Ht]; intros stack' Hs';
    inversion Hs' as [h' d' Hr' Hp'|h' d' p' stack0 top' Hr' Hp' Hs0 Ht']; subst;
    pose proof (diff_row_fun _ _ _ _ Hr Hr') as <-; try congruence.
  assert (p = p') as <- by congruence. apply IH in Hs0 as <-. assert (top = top') as <- by congruence. done.
Qed.

Lemma stored_mono rows rows' h stack : rows ⊆ rows' → stored rows h stack → stored rows' h stack.
Proof.
  intros Hsub. assert (∀ h d, diff_row rows h d → diff_row rows' h d) as Hrow.
  { intros h' d (Hr & Hd). split; [|done]. by eapply lookup_weaken. }
  induction 1; [by constructor; auto|by econstructor; eauto].
Qed.

Lemma holds_mono rows rows' h s : rows ⊆ rows' → holds rows h s → holds rows' h s.
Proof. intros Hsub (stack & Hs & Hok). exists stack. split; [by eapply stored_mono|done]. Qed.

Lemma stored_top rows h stack : stored rows h stack → ∃ top, last stack = Some top ∧ shortstatehash top = h.
Proof. destruct 1; [by eexists|]. eexists. by rewrite last_snoc. Qed.

Lemma stored_range rows h stack : stored rows h stack → (0 < h <= U64_MAX)%N.
Proof. by destruct 1 as [h d (_ & _ & ?)|h d p stack top (_ & _ & ?)]. Qed.

Lemma holds_fun rows h s s' : holds rows h s → holds rows h s' → s = s'.
Proof.
  intros (stack & Hs & Hl & _) (stack' & Hs' & Hl' & _). rewrite (stored_fun _ _ _ _ Hs' Hs) in Hl'.
  by inversion Hl; inversion Hl'; congruence.
Qed.

(** The lower layers of a stack are a stack. *)
Lemma stored_prefix rows h stack lower upper :
  stored rows h stack → stack = lower ++ upper → lower ≠ [] →
  ∃ top, last lower = Some top ∧ stored rows (shortstatehash top) lower.
Proof.
  intros Hs. revert lower upper. induction Hs as [h d Hr Hp|h d p stack top Hr Hp Hs IH Ht]; intros lower upper He Hne.
  - destruct lower as [|i lower]; [done|]. injection He as <- He. apply eq_sym, app_eq_nil in He as [-> ->].
    eexists. split; [done|]. by constructor.
  - destruct upper as [|u upper _] using rev_ind.
    + rewrite app_nil_r in He. subst lower. eexists. split; [by rewrite last_snoc|]. cbn. by econstructor.
    + rewrite app_assoc in He. apply app_inj_tail in He as [He _]. by eapply IH.
Qed.
End stored.

(** ** The invariant of the services *)

Section states_inv.
Context `{Engine, JsonParser, Identifiers, Lru, Digest}.
Implicit Types (st : RoomStates) (ids : gset N) (h : N).

Definition diff_rows st : gmap string string := table_rows (shortstatehash_statediff st).

(** A value in some table is the number of a state. *)
Definition refers st (v : string) : Prop := ∃ h s, v = u64_to_be_bytes h ∧ holds (diff_rows st) h s.

Definition coherent st : Prop := ∀ h stack, cache_rows (stateinfo_cache st) !! h = Some stack → stored (diff_rows st) h stack.

Record states_inv st ids : Prop := {
  states_shorts : short_inv (shorts st) ids;
  states_rows k v : diff_rows st !! k = Some v → ∃ h s, k = u64_to_be_bytes h ∧ (h <= last_number (shorts st))%N ∧ holds (diff_rows st) h s;
  states_cache : coherent st;
  states_hashes k v : table_rows (statehash_shortstatehash (shorts st)) !! k = Some v →
    ∃ h s, v = u64_to_be_bytes h ∧ k = calculate_hash (bset_iter s) ∧ entries s ∧ holds (diff_rows st) h s;
  states_rooms k v : table_rows (roomid_shortstatehash st) !! k = Some v → refers st v;
  states_events k v : table_rows (shorteventid_shortstatehash st) !! k = Some v → refers st v;
}.

(** *** Loading *)

Lemma get_statediff_row st h d : diff_row (diff_rows st) h d → get_statediff st h = Ok d.
Proof.
  intros (Hr & Hd & _). unfold get_statediff, BUFSIZE. rewrite aqry_u64. fold (diff_rows st). rewrite Hr. cbn.
  by apply parse_statediff_bytes.
Qed.

(** Only the cache changes, and it stays coherent. *)
Definition recached st st' : Prop := (∃ c, st' = with_cache c st) ∧ coherent st'.

Lemma coherent_put st h stack :
  coherent st → stored (diff_rows st) h stack → coherent (cache_shortstatehash_info st h stack).
Proof.
  intros Hc Hs h' stack' Hl. cbn in Hl. eapply lookup_weaken in Hl; [|apply cache_put_rows].
  apply lookup_insert_Some in Hl as [[<- <-]|[_ Hl]]; [done|by apply Hc].
Qed.

Lemma coherent_get st h : coherent st → coherent (with_cache (cache_get (stateinfo_cache st) h).2 st).
Proof. intros Hc h' stack' Hl. apply Hc. eapply lookup_weaken; [exact Hl|apply cache_get_keeps]. Qed.

Lemma load_layers_spec depth st h stack :
  coherent st → stored (diff_rows st) h stack → (length stack <= depth)%nat →
  ∃ st', load_layers depth st h = Ok (stack, st') ∧ recached st st'.
Proof.
  revert st h stack. induction depth as [|depth IH]; intros st h stack Hc Hs Hl.
  { destruct Hs; cbn in Hl; [lia|]. rewrite length_app in Hl. cbn in Hl. lia. }
  cbn [load_layers]. pose proof (cache_get_rows (stateinfo_cache st) h) as Hg. pose proof (coherent_get st h Hc) as Hc'.
  destruct (cache_get (stateinfo_cache st) h) as [[hit|] c]; cbn [fst snd] in *.
  { symmetry in Hg. apply Hc in Hg. rewrite (stored_fun _ _ _ _ Hg Hs). eexists. split; [done|]. split; [by exists c|done]. }
  set (st1 := with_cache c st) in *.
  enough (∃ st2, new_shortstatehash_info (load_layers depth) st1 h = Ok (stack, st2) ∧ recached st1 st2) as (st2 & Hn & [[c' ->] Hc2]).
  { rewrite Hn. eexists. split; [done|]. split; [by eexists|]. by apply coherent_put. }
  assert (recached st1 st1) as Hrefl by (split; [by exists c|done]).
  destruct Hs as [h d Hr Hp|h d p stack top Hr Hp Hs Ht]; unfold new_shortstatehash_info;
    rewrite (get_statediff_row st1 h d Hr), Hp; [by eexists|].
  rewrite length_app in Hl. cbn in Hl. destruct (IH st1 p stack Hc' Hs ltac:(lia)) as (st2 & -> & Hc2).
  cbn [fst snd]. rewrite Ht. by exists st2.
Qed.

Lemma load_holds st h s :
  coherent st → holds (diff_rows st) h s →
  ∃ stack st', load_shortstatehash_info st h = Ok (stack, st') ∧ stored (diff_rows st) h stack ∧ stack_ok stack s ∧ recached st st'.
Proof.
  intros Hc (stack & Hs & Hok). destruct (load_layers_spec LAYERS st h stack Hc Hs) as (st' & Hl & Hr); [apply Hok|].
  by exists stack, st'.
Qed.

(** Loading a state, right or wrong, changes the cache at most. *)
Lemma load_only_caches depth st h stack st' : load_layers depth st h = Ok (stack, st') → ∃ c, st' = with_cache c st.
Proof.
  revert st h stack st'. induction depth as [|depth IH]; intros st h stack st'; cbn [load_layers]; [done|].
  destruct (cache_get (stateinfo_cache st) h) as [[hit|] c]; [intros [= _ <-]; by exists c|].
  destruct (new_shortstatehash_info _ _ h) as [r|] eqn:Hn; [|done]. intros [= _ <-].
  assert (∃ c', r.2 = with_cache c' st) as [c' ->]; [|by eexists]. unfold new_shortstatehash_info in Hn.
  destruct (get_statediff _ h) as [d|]; [|done]. destruct (diff_parent d) as [parent|]; [|injection Hn as <-; by exists c].
  destruct (load_layers depth _ parent) as [[stack' st2]|] eqn:Hl; [|done]. apply IH in Hl as [c' ->]. cbn in Hn.
  destruct (last stack') as [top|]; [|done]. injection Hn as <-. by exists c'.
Qed.

Lemma recached_inv st st' ids : recached st st' → states_inv st ids → states_inv st' ids.
Proof. intros [[c ->] Hc] [Hs Hr _ Hh Hro Hev]. by split. Qed.

(** *** Saving *)

Lemma size_small (s : CompressedState) n : (set_len s <= n)%N → ∀ x, x ⊆ s → (set_len x <= n)%N.
Proof. intros Hs x Hx. unfold set_len in *. pose proof (subseteq_size x s Hx). lia. Qed.

(** Layers of small states are small. *)
Lemma volume_small stack full :
  layered stack full → Forall (λ i, small (full_state i)) stack →
  small full ∧ (volume stack <= 2 * N.of_nat (length stack) * MAX_STATE)%N.
Proof.
  induction 1 as [|i stack full Hl IH Ha Hr Hf]; intros Hs.
  { split; [|done]. unfold small, set_len. rewrite size_empty. done. }
  apply Forall_cons in Hs as [Hi Hs]. destruct (IH Hs) as [Hfull Hv]. split; [done|].
  cbn [volume foldr length]. fold (volume stack).
  assert (set_len (added i) <= MAX_STATE)%N as Hadd by (eapply size_small; [exact Hi|]; rewrite Hf; set_solver).
  assert (set_len (removed i) <= MAX_STATE)%N as Hrem by (eapply size_small; [exact Hfull|done]). nia.
Qed.

(** The stack a diff is made against. *)
Definition parents_ok st (parents : Stack) (full : CompressedState) : Prop :=
  (parents = [] ∧ full = ∅) ∨ ∃ p, stored (diff_rows st) p parents ∧ stack_ok parents full.

Lemma parents_facts st parents full :
  parents_ok st parents full →
  layered (reverse parents) full ∧ stack_entries (reverse parents) ∧ Forall (λ i, small (full_state i)) (reverse parents)
  ∧ (length (reverse parents) <= 4)%nat.
Proof.
  intros [[-> ->]|(p & _ & Hl & He & Hs & Hn)]; [split_and!; [constructor|constructor|constructor|cbn; lia]|].
  rewrite length_reverse. unfold LAYERS in Hn. split_and!; [done|by apply Forall_reverse|by apply Forall_reverse|lia].
Qed.

Lemma info_stack_ok base full s h d :
  layered base full → diff_of full (diff_added d) (diff_removed d) s → stack_entries base →
  entries (diff_added d) → entries (diff_removed d) → Forall (λ i, small (full_state i)) base → small s → (length base <= 3)%nat →
  stack_ok (reverse base ++ [mkInfo h s (diff_added d) (diff_removed d)]) s.
Proof.
  intros Hl (Ha & Hr & ->) He Hea Her Hs Hsm Hn. unfold stack_ok, LAYERS.
  rewrite reverse_snoc, reverse_involutive, length_app, length_reverse. split_and!; [| | |cbn; lia..].
  - by eapply (layered_cons (mkInfo h _ (diff_added d) (diff_removed d))).
  - apply Forall_app. split; [by apply Forall_reverse|constructor; [done|constructor]].
  - apply Forall_app. split; [by apply Forall_reverse|constructor; [done|constructor]].
Qed.

(** The row of a diff that was placed makes its state loadable. *)
Lemma placed_holds st parents full total s h d :
  parents_ok st parents full → placed (reverse parents) total s d → small s → (0 < h <= U64_MAX)%N →
  diff_rows st !! u64_to_be_bytes h = None →
  holds (diff_rows (save_statediff st h d)) h s ∧ diff_rows st ⊆ diff_rows (save_statediff st h d).
Proof.
  intros Hp (base & full' & [k Hk] & Hlen & Hpar & Hlay & Hdo & Hea & Her & _) Hsm Hh Hfresh.
  destruct (parents_facts _ _ _ Hp) as (_ & He & Hs & _). rewrite Hk in He, Hs. apply Forall_app in He as [_ He], Hs as [_ Hs].
  assert (diff_rows st ⊆ diff_rows (save_statediff st h d)) as Hsub.
  { unfold diff_rows. cbn. unfold Map_insert. rewrite table_put_rows. by apply insert_subseteq. }
  split; [|done]. pose proof (info_stack_ok base full' s h d Hlay Hdo He Hea Her Hs Hsm Hlen) as Hok.
  eexists. split; [|exact Hok].
  assert (diff_ok d → diff_row (diff_rows (save_statediff st h d)) h d) as Hrow.
  { intros Hd. split; [|done]. unfold diff_rows. cbn. unfold Map_insert. by rewrite table_put_rows, lookup_insert_eq. }
  assert (parents = reverse base ++ reverse k) as Hpb by (rewrite <-reverse_app, <-Hk; by rewrite reverse_involutive).
  destruct Hdo as (Ha & Hr & Hs').
  destruct base as [|i base]; cbn in Hpar.
  - inversion Hlay; subst full'. assert (s = diff_added d) as -> by set_solver. apply stored_root; [|done]. apply Hrow. by unfold diff_ok; rewrite Hpar.
  - destruct Hp as [[-> _]|(p & Hst & _)].
    { apply (f_equal length) in Hpb. rewrite length_app, length_reverse in Hpb. cbn in Hpb. lia. }
    destruct (stored_prefix _ _ _ _ _ Hst Hpb) as (top & Ht & Hst'); [rewrite reverse_cons; by destruct (reverse base)|].
    rewrite reverse_cons, last_snoc in Ht. injection Ht as <-.
    inversion Hlay; subst. eapply stored_layer; [apply Hrow; unfold diff_ok; rewrite Hpar; split_and!; try done|done|by eapply stored_mono|by rewrite reverse_cons, last_snoc].
    all: by apply (stored_range _ _ _ Hst').
Qed.

Lemma save_from_diff_spec st parents full new rem s h sibling :
  parents_ok st parents full → diff_of full new rem s → entries new → entries rem → small s →
  (sibling <= MAX_VOLUME)%N → (0 < h <= U64_MAX)%N → diff_rows st !! u64_to_be_bytes h = None →
  ∃ d, place_diff new rem sibling (reverse parents) = Ok d
    ∧ holds (diff_rows (save_statediff st h d)) h s ∧ diff_rows st ⊆ diff_rows (save_statediff st h d).
Proof.
  intros Hp Hdo Hn Hm Hsm Hsib Hh Hfresh. destruct (parents_facts _ _ _ Hp) as (Hl & He & Hs & Hlen).
  destruct (volume_small _ _ Hl Hs) as [Hfull Hvol]. pose proof Hdo as (Ha & Hr & Hs').
  assert (set_len new <= MAX_STATE)%N by (eapply size_small; [exact Hsm|]; rewrite Hs'; set_solver).
  assert (set_len rem <= MAX_STATE)%N by (eapply size_small; [exact Hfull|done]).
  destruct (place_diff_spec (reverse parents) full new rem s sibling) as (d & Hpd & Hpl); try done.
  { unfold MAX_VOLUME, MAX_STATE in *. nia. }
  exists d. split; [done|]. by eapply placed_holds.
Qed.

(** *** Keeping the invariant *)

Lemma coherent_grow st st' :
  coherent st → diff_rows st ⊆ diff_rows st' → stateinfo_cache st' = stateinfo_cache st → coherent st'.
Proof. intros Hc Hsub He h stack Hl. rewrite He in Hl. eapply stored_mono; [exact Hsub|by apply Hc]. Qed.

Lemma refers_grow st st' v : diff_rows st ⊆ diff_rows st' → refers st v → refers st' v.
Proof. intros Hsub (h & s & -> & Hh). exists h, s. split; [done|]. by eapply holds_mono. Qed.

Lemma states_inv_grow st st' ids :
  states_inv st ids → short_inv (shorts st') ids → (last_number (shorts st) <= last_number (shorts st'))%N →
  diff_rows st ⊆ diff_rows st' → coherent st' →
  (∀ k v, diff_rows st' !! k = Some v → diff_rows st !! k = None →
    ∃ h s, k = u64_to_be_bytes h ∧ (h <= last_number (shorts st'))%N ∧ holds (diff_rows st') h s) →
  (∀ k v, table_rows (statehash_shortstatehash (shorts st')) !! k = Some v →
    table_rows (statehash_shortstatehash (shorts st)) !! k = None →
    ∃ h s, v = u64_to_be_bytes h ∧ k = calculate_hash (bset_iter s) ∧ entries s ∧ holds (diff_rows st') h s) →
  table_rows (statehash_shortstatehash (shorts st)) ⊆ table_rows (statehash_shortstatehash (shorts st')) →
  (∀ k v, table_rows (roomid_shortstatehash st') !! k = Some v →
    table_rows (roomid_shortstatehash st) !! k = Some v ∨ refers st' v) →
  (∀ k v, table_rows (shorteventid_shortstatehash st') !! k = Some v →
    table_rows (shorteventid_shortstatehash st) !! k = Some v ∨ refers st' v) →
  states_inv st' ids.
Proof.
  intros [Hs Hr Hc Hh Hro Hev] Hs' Hle Hsub Hc' Hr' Hh' Hhsub Hro' Hev'. split; [done| |done| | |].
  - intros k v Hv. destruct (diff_rows st !! k) as [v0|] eqn:Hk; [|by eauto].
    destruct (Hr k v0 Hk) as (h & s & -> & Hn & Hhold). exists h, s. split_and!; [done|lia|by eapply holds_mono].
  - intros k v Hv. destruct (table_rows (statehash_shortstatehash (shorts st)) !! k) as [v0|] eqn:Hk; [|by eauto].
    assert (v = v0) as -> by (eapply lookup_weaken in Hk; [|exact Hhsub]; congruence).
    destruct (Hh k v0 Hk) as (h & s & -> & -> & He & Hhold). exists h, s. split_and!; [done..|by eapply holds_mono].
  - intros k v [Hv|]%Hro'; [|done]. eapply refers_grow; [done|by eapply Hro].
  - intros k v [Hv|]%Hev'; [|done]. eapply refers_grow; [done|by eapply Hev].
Qed.

Lemma fresh_row st ids h : states_inv st ids → (last_number (shorts st) < h <= U64_MAX)%N → diff_rows st !! u64_to_be_bytes h = None.
Proof.
  intros Hinv Hh. destruct (diff_rows st !! u64_to_be_bytes h) as [v|] eqn:Hv; [|done]. exfalso.
  destruct (states_rows _ _ Hinv _ _ Hv) as (h' & s & He & Hle & _). apply u64_bytes_inj in He; lia.
Qed.

Lemma with_shorts_inv st ids x :
  states_inv st ids → short_inv x ids → extends (shorts st) x →
  table_rows (statehash_shortstatehash x) = table_rows (statehash_shortstatehash (shorts st)) →
  states_inv (with_shorts x st) ids.
Proof.
  intros Hinv Hx Hext Hh. eapply states_inv_grow; [exact Hinv|done|apply Hext|done|by apply Hinv| | |by cbn; rewrite Hh|by left..].
  - intros k v Hv Hn. change (diff_rows (with_shorts x st)) with (diff_rows st) in *. congruence.
  - cbn. rewrite Hh. congruence.
Qed.

(** The state of a room, as the table has it. *)
Lemma room_state st ids room_id :
  states_inv st ids →
  match ok (get_room_shortstatehash st room_id) with
  | Some h => table_rows (roomid_shortstatehash st) !! room_id = Some (u64_to_be_bytes h) ∧ ∃ s, holds (diff_rows st) h s
  | None => table_rows (roomid_shortstatehash st) !! room_id = None
  end.
Proof.
  intros Hinv. unfold get_room_shortstatehash, Map_get. rewrite table_get_rows.
  destruct (table_rows (roomid_shortstatehash st) !! room_id) as [v|] eqn:Hv; [|done].
  destruct (states_rooms _ _ Hinv _ _ Hv) as (h & s & -> & Hh). pose proof Hh as (stack & Hs & _).
  rewrite (deserialized_u64_row _ h); [|by apply (stored_range _ _ _ Hs)|done]. cbn. split; [done|by exists s].
Qed.

(** *** Equal hashes *)

Lemma record_bytes_inj (l l' : list string) :
  Forall entry l → Forall entry l' → record_bytes l = record_bytes l' → l = l'.
Proof.
  assert (∀ l l', Forall entry l → Forall entry l' → tail_bytes l = tail_bytes l' → l = l') as Ht.
  { intros k k' Hk. revert k'. induction Hk as [|e k [He _] Hk IH]; intros k' Hk' Heq;
      destruct Hk' as [|e' k' [He' _] Hk']; [done..|]. cbn [tail_bytes] in Heq. injection Heq as Heq.
    apply append_inj_l in Heq as [-> Heq]; [|congruence]. f_equal. by apply IH. }
  intros Hl Hl' Heq. destruct Hl as [|e l [He _] Hl], Hl' as [|e' l' [He' _] Hl']; cbn [record_bytes] in Heq; [done| | |].
  - apply (f_equal String.length) in Heq. rewrite length_append, He' in Heq. done.
  - apply (f_equal String.length) in Heq. rewrite length_append, He in Heq. done.
  - apply append_inj_l in Heq as [-> Heq]; [|congruence]. f_equal. by apply Ht.
Qed.

(** No stored state has the hash of [new] by accident. *)
Definition collision_free st (new : CompressedState) : Prop :=
  ∀ h s, holds (diff_rows st) h s →
  sha256 (record_bytes (bset_iter s)) = sha256 (record_bytes (bset_iter new)) →
  record_bytes (bset_iter s) = record_bytes (bset_iter new).

Lemma same_hash_same_state st new h s :
  collision_free st new → entries new → entries s → holds (diff_rows st) h s →
  calculate_hash (bset_iter s) = calculate_hash (bset_iter new) → s = new.
Proof.
  intros Hcf Hn Hs Hh He. apply (Hcf h s Hh) in He. apply record_bytes_inj in He; [|by apply entries_Forall..].
  by rewrite <-(bset_iter_set s), He, bset_iter_set.
Qed.

(** *** Saving a state *)

Lemma layered_entries layers full : layered layers full → stack_entries layers → entries full.
Proof.
  induction 1 as [|i layers full Hl IH Ha Hr Hf]; intros Hs; [by intros e He%elem_of_empty|].
  apply Forall_cons in Hs as [[Hea _] Hs]. intros e. rewrite Hf. intros He.
  assert (e ∈ full ∨ e ∈ added i) as [?|?] by set_solver; [by apply IH|by apply Hea].
Qed.

Lemma diff_to_parent_of st parents full new :
  parents_ok st parents full → diff_to_parent parents new = (new ∖ full, full ∖ new).
Proof.
  intros [[-> ->]|(p & Hs & Hl & _)]; unfold diff_to_parent; cbn; [f_equal; set_solver|].
  destruct (stored_top _ _ _ Hs) as (top & Ht & _). rewrite Ht.
  assert (full = full_state top) as ->; [|done].
  rewrite <-(reverse_involutive parents), last_reverse in Ht. by destruct Hl; [|injection Ht as ->].
Qed.

(** The previous state of a room, empty if it has none. *)
Definition previous_state st (previous : option N) (full : CompressedState) : Prop :=
  match previous with Some p => holds (diff_rows st) p full | None => full = ∅ end.

Lemma load_previous_spec st previous full :
  coherent st → previous_state st previous full →
  ∃ parents st', load_previous st previous = Ok (parents, st') ∧ parents_ok st' parents full ∧ recached st st'.
Proof.
  intros Hc. destruct previous as [p|]; cbn [load_previous previous_state].
  - intros Hh. destruct (load_holds st p full Hc Hh) as (stack & st' & -> & Hs & Hok & Hr).
    exists stack, st'. split_and!; [done| |done]. right. exists p. by destruct Hr as [[c ->] _].
  - intros ->. exists [], st. split_and!; [done|by left|]. split; [exists (stateinfo_cache st); by destruct st|done].
Qed.

(** A state under a number drawn for it: everything stored before stays. *)
Record saved st ids st' (h : N) (s : CompressedState) : Prop := {
  saved_inv : states_inv st' ids;
  saved_holds : holds (diff_rows st') h s;
  saved_rows : diff_rows st ⊆ diff_rows st';
  saved_shorts : extends (shorts st) (shorts st');
  saved_rooms : table_rows (roomid_shortstatehash st') = table_rows (roomid_shortstatehash st);
}.

Lemma save_diff_inv st ids x st2 parents full new rem s h sibling :
  states_inv st ids → short_inv x ids → extends (shorts st) x → recached (with_shorts x st) st2 →
  (last_number (shorts st) < h <= last_number x)%N →
  (∀ k v, table_rows (statehash_shortstatehash x) !! k = Some v →
    table_rows (statehash_shortstatehash (shorts st)) !! k = None →
    v = u64_to_be_bytes h ∧ k = calculate_hash (bset_iter s) ∧ entries s) →
  parents_ok st2 parents full → diff_of full new rem s → entries new → entries rem → small s → (sibling <= MAX_VOLUME)%N →
  ∃ d, save_state_from_diff st2 h new rem sibling parents = Ok (save_statediff st2 h d)
    ∧ saved st ids (save_statediff st2 h d) h s.
Proof.
  intros Hinv Hx Hext [[c ->] Hc] Hh Hhash Hp Hdo Hn Hm Hsm Hsib. pose proof (short_width _ _ Hx) as Hw.
  destruct (save_from_diff_spec (with_cache c (with_shorts x st)) parents full new rem s h sibling) as (d & Hs & Hhold & Hsub); try done; [lia| |].
  { apply (fresh_row st ids h Hinv). lia. }
  exists d. unfold save_state_from_diff. rewrite Hs. split; [done|]. split; [|done|done|done|done].
  eapply states_inv_grow; [exact Hinv|done|apply Hext|done| | | |apply Hext|by left..].
  - by eapply coherent_grow; [|exact Hsub|].
  - intros k v Hv Hn'. unfold diff_rows in Hv. cbn in Hv. unfold Map_insert in Hv. rewrite table_put_rows in Hv.
    apply lookup_insert_Some in Hv as [[<- _]|[_ Hv]]; [|unfold diff_rows in Hn'; congruence]. exists h, s. split_and!; [done|cbn; lia|done].
  - intros k v Hv Hn'. destruct (Hhash k v Hv Hn') as (-> & -> & He). by exists h, s.
Qed.

Lemma diff_of_difference (full new : CompressedState) : diff_of full (new ∖ full) (full ∖ new) new.
Proof.
  split_and!; [set_solver..|]. apply set_eq. intros e.
  rewrite elem_of_difference, elem_of_union, !elem_of_difference. destruct (decide (e ∈ new)), (decide (e ∈ full)); tauto.
Qed.

Lemma holds_number st ids h s : states_inv st ids → holds (diff_rows st) h s → (0 < h <= last_number (shorts st))%N.
Proof.
  intros Hinv (stack & Hs & _). pose proof (stored_range _ _ _ Hs) as Hr. split; [lia|].
  assert (∃ v, diff_rows st !! u64_to_be_bytes h = Some v) as [v Hv].
  { destruct Hs as [h d (Hv & _)|h d p stack top (Hv & _)]; eauto. }
  destruct (states_rows _ _ Hinv _ _ Hv) as (h' & s' & He & Hle & _). pose proof (short_width _ _ (states_shorts _ _ Hinv)).
  apply u64_bytes_inj in He; lia.
Qed.

Lemma previous_of_room st ids room_id :
  states_inv st ids → ∃ full, previous_state st (ok (get_room_shortstatehash st room_id)) full ∧ entries full.
Proof.
  intros Hinv. pose proof (room_state st ids room_id Hinv) as Hr.
  destruct (ok (get_room_shortstatehash st room_id)) as [h|]; [|exists ∅; split; [done|by intros e He%elem_of_empty]].
  destruct Hr as (_ & s & Hs). exists s. split; [done|]. destruct Hs as (stack & _ & Hl & He & _).
  eapply layered_entries; [exact Hl|by apply Forall_reverse].
Qed.

Lemma recached_saved st ids st' h s :
  states_inv st ids → recached st st' → holds (diff_rows st) h s → saved st ids st' h s.
Proof.
  intros Hinv Hr Hh. split; [by eapply recached_inv|..]; destruct Hr as [[c ->] _]; [done..|apply extends_refl|done].
Qed.

(** A hash that has a number has the number of its state. *)
Lemma known_hash st ids new h :
  states_inv st ids → collision_free st new → entries new → (0 < h <= last_number (shorts st))%N →
  table_rows (statehash_shortstatehash (shorts st)) !! calculate_hash (bset_iter new) = Some (u64_to_be_bytes h) →
  holds (diff_rows st) h new.
Proof.
  intros Hinv Hcf Hn Hh Hv. destruct (states_hashes _ _ Hinv _ _ Hv) as (h' & s & He & Hk & Hs & Hhold).
  assert (h = h') as <-.
  { pose proof (holds_number _ _ _ _ Hinv Hhold). pose proof (short_width _ _ (states_shorts _ _ Hinv)). apply u64_bytes_inj; [lia..|done]. }
  by rewrite <-(same_hash_same_state st new h s Hcf Hn Hs Hhold (eq_sym Hk)).
Qed.

(** The number of a state, and the state saved under it if it is new. *)
Definition save_if_new st (h : N) (existed : bool) (sibling : N) (parents : Stack) (new : CompressedState) : Result StateError RoomStates :=
  let '(statediffnew, statediffremoved) := diff_to_parent parents new in
  if existed then Ok st else save_state_from_diff st h statediffnew statediffremoved sibling parents.

Lemma numbered_state_spec st ids new room_id :
  states_inv st ids → (last_number (shorts st) < U64_MAX)%N → entries new → small new → collision_free st new →
  ∃ h existed x, get_or_create_shortstatehash (shorts st) (calculate_hash (bset_iter new)) = Ok (h, existed, x)
    ∧ (existed = true → x = shorts st ∧ holds (diff_rows st) h new)
    ∧ (existed = false → ok (get_room_shortstatehash st room_id) ≠ Some h)
    ∧ coherent (with_shorts x st)
    ∧ ∀ full parents st2 sibling, recached (with_shorts x st) st2 → parents_ok st2 parents full → entries full → (sibling <= MAX_VOLUME)%N →
      ∃ st', save_if_new st2 h existed sibling parents new = Ok st' ∧ saved st ids st' h new.
Proof.
  intros Hinv Hlt Hn Hsm Hcf.
  destruct (get_or_create_shortstatehash_spec (shorts st) ids (calculate_hash (bset_iter new)) (states_shorts _ _ Hinv) Hlt)
    as (h & existed & x & Hg & (Hx & Hext & Hrow & Hh & Hfresh & _) & Hex & Hsame & Hsub).
  exists h, existed, x. split; [done|].
  assert (existed = true → x = shorts st ∧ holds (diff_rows st) h new) as Hknown.
  { intros He. pose proof (Hsame He) as ->. split; [done|]. by eapply known_hash. }
  split; [done|]. split.
  { intros He Hp. pose proof (room_state st ids room_id Hinv) as Hr. rewrite Hp in Hr. destruct Hr as (_ & s & Hs).
    pose proof (holds_number _ _ _ _ Hinv Hs). rewrite He in Hex. symmetry in Hex. apply bool_decide_eq_false_1, eq_None_not_Some in Hex.
    specialize (Hfresh Hex). lia. }
  split; [apply Hinv|]. intros full parents st2 sibling Hr Hp Hef Hsib. unfold save_if_new.
  rewrite (diff_to_parent_of st2 parents full new Hp). destruct existed.
  - destruct (Hknown eq_refl) as [-> Hhold]. exists st2. split; [done|]. apply recached_saved; [done| |done].
    destruct Hr as [[c ->] Hc]. split; [by exists c|done].
  - symmetry in Hex. apply bool_decide_eq_false_1, eq_None_not_Some in Hex. specialize (Hfresh Hex).
    destruct (save_diff_inv st ids x st2 parents full (new ∖ full) (full ∖ new) new h sibling) as (d & Hd & Hs); try done; [lia| | | | |].
    + intros k v Hv Hnone. eapply lookup_weaken in Hv; [|exact Hsub].
      apply lookup_insert_Some in Hv as [[<- <-]|[_ Hv]]; [done|congruence].
    + apply diff_of_difference.
    + intros e He. apply Hn. set_solver.
    + intros e He. apply Hef. set_solver.
    + eauto.
Qed.

Lemma save_state_spec st ids room_id new :
  states_inv st ids → (last_number (shorts st) < U64_MAX)%N → entries new → small new → collision_free st new →
  ∃ ch st' full, save_state st room_id new = Ok (ch, st') ∧ saved st ids st' (change_hash ch) new
    ∧ previous_state st (ok (get_room_shortstatehash st room_id)) full
    ∧ change_added ch = new ∖ full ∧ change_removed ch = full ∖ new.
Proof.
  intros Hinv Hlt Hn Hsm Hcf. destruct (previous_of_room st ids room_id Hinv) as (full & Hprev & Hef).
  destruct (numbered_state_spec st ids new room_id Hinv Hlt Hn Hsm Hcf) as (h & existed & x & Hg & Hknown & Hne & Hc & Hsave).
  unfold save_state. rewrite Hg. cbn [svc map_err]. case_decide as Hd.
  { destruct existed; [|by symmetry in Hd; apply Hne in Hd]. destruct (Hknown eq_refl) as [-> Hh].
    exists (mkChange h ∅ ∅), (with_shorts (shorts st) st), full. split; [done|].
    rewrite <-Hd in Hprev |- *. cbn in Hprev. rewrite (holds_fun _ _ _ _ Hprev Hh) in *.
    split_and!; [|done|cbn; set_solver..]. apply recached_saved; [done| |done]. split; [|done]. exists (stateinfo_cache st). by destruct st. }
  destruct (load_previous_spec (with_shorts x st) (ok (get_room_shortstatehash st room_id)) full Hc Hprev)
    as (parents & st2 & -> & Hp & Hr).
  destruct (Hsave full parents st2 2%N Hr Hp Hef ltac:(done)) as (st' & Hs & Hsaved).
  unfold save_if_new in Hs. rewrite (diff_to_parent_of st2 parents full new Hp) in Hs |- *. rewrite Hs.
  by exists (mkChange h (new ∖ full) (full ∖ new)), st', full.
Qed.

(** *** The state before an event *)

Lemma get_shorteventid_saved st ids st' h s event_id n :
  states_inv st ids → saved st ids st' h s → numbered_as (shorts st) event_id n → get_shorteventid (shorts st') event_id = Ok n.
Proof.
  intros Hinv [Hinv' _ _ Hext _] Hn. apply (get_shorteventid_iff (shorts st') ids); [apply Hinv'|].
  by eapply numbered_as_extends.
Qed.

(** Writing the state of an event. *)
Lemma event_state_inv st ids n h s :
  states_inv st ids → holds (diff_rows st) h s →
  states_inv (with_event_states (table_put (shorteventid_shortstatehash st) (u64_to_be_bytes n) (u64_to_be_bytes h)) st) ids.
Proof.
  intros Hinv Hh. eapply states_inv_grow; [exact Hinv|apply Hinv|done|done|apply Hinv| | |done|by left|].
  - intros k v Hv Hn. unfold diff_rows in *. cbn in Hv. congruence.
  - intros k v Hv Hn. cbn in Hv. congruence.
  - intros k v. cbn. rewrite table_put_rows. intros [[_ <-]|[_ Hv]]%lookup_insert_Some; [right; by exists h, s|by left].
Qed.

Lemma event_state_saved st ids st1 h s n :
  states_inv st ids → saved st ids st1 h s →
  saved st ids (with_event_states (table_put (shorteventid_shortstatehash st1) (u64_to_be_bytes n) (u64_to_be_bytes h)) st1) h s.
Proof. intros Hinv [Hinv1 Hh Hrows Hext Hrooms]. split; try done. by eapply event_state_inv. Qed.

Lemma get_shortstatehash_put st n h :
  (h <= U64_MAX)%N →
  get_shortstatehash (with_event_states (table_put (shorteventid_shortstatehash st) (u64_to_be_bytes n) (u64_to_be_bytes h)) st) n = Ok h.
Proof.
  intros Hh. unfold get_shortstatehash, BUFSIZE. rewrite aqry_u64. cbn. rewrite table_put_rows, lookup_insert_eq.
  by apply deserialized_u64_row.
Qed.

(** Drawing a number changes only what the operation under it does. *)
Lemma with_count_field {E T} (f : Short → T) (err : CounterError → E) (s s' : Short) k n :
  with_count err globals with_globals s k = Ok (n, s') → (∀ d t, f (with_globals d t) = f t) →
  (∀ m t u, k m t = Ok u → f u = f t) → f s' = f s.
Proof.
  unfold with_count. intros Hw Hf Hk. destruct (next_count (globals s)) as [[p d]|]; [|done]. cbn [map_err fst snd] in Hw.
  destruct (k (permit_id p) (with_globals d s)) as [u|] eqn:Hu; [|done].
  destruct (drop_permit (permit_id p) (globals u)) as [d'|]; [|done]. injection Hw as <- <-. by rewrite Hf, (Hk _ _ _ Hu), Hf.
Qed.

Lemma create_shorteventid_field {T} (f : Short → T) (s s' : Short) e n :
  create_shorteventid s e = Ok (n, s') → (∀ d t, f (with_globals d t) = f t) → (∀ a b t, f (with_events a b t) = f t) → f s' = f s.
Proof.
  unfold create_shorteventid, BUFSIZE. intros Hw Hf He. eapply with_count_field; [exact Hw|done|]. intros m t u. cbn beta.
  rewrite raw_aput_u64, aput_raw_u64. intros [= <-]. apply He.
Qed.

Lemma get_or_create_shorteventid_hashes (s s' : Short) e n :
  get_or_create_shorteventid s e = Ok (n, s') → statehash_shortstatehash s' = statehash_shortstatehash s.
Proof.
  unfold get_or_create_shorteventid. destruct (get_shorteventid s e); [by intros [= _ <-]|]. intros Hw. by eapply create_shorteventid_field.
Qed.

Lemma get_or_create_shortstatekey_hashes (s s' : Short) ty key n :
  get_or_create_shortstatekey s ty key = Ok (n, s') → statehash_shortstatehash s' = statehash_shortstatehash s.
Proof.
  unfold get_or_create_shortstatekey, BUFSIZE. destruct (get_shortstatekey s ty key); [by intros [= _ <-]|].
  intros Hw. eapply with_count_field; [exact Hw|done|]. intros m t u. cbn beta.
  change (statekey ty key) with (STuple (SStr <$> [ty; key])). rewrite put_aput_strings, aput_put_strings. by intros [= <-].
Qed.

(** Numbering an event or a state key leaves the states as they are. *)
Lemma number_event_inv st ids e :
  states_inv st ids → (last_number (shorts st) < U64_MAX)%N →
  ∃ n x, get_or_create_shorteventid (shorts st) e = Ok (n, x) ∧ states_inv (with_shorts x st) ids ∧ extends (shorts st) x
    ∧ numbered_as x e n ∧ (last_number x <= last_number (shorts st) + 1)%N.
Proof.
  intros Hinv Hlt. destruct (get_or_create_shorteventid_spec (shorts st) ids e (states_shorts _ _ Hinv) Hlt)
    as (n & x & Hg & Hx & Hext & Hrow & Hn & _ & Hle).
  exists n, x. split_and!; try done. apply with_shorts_inv; try done. by rewrite (get_or_create_shorteventid_hashes _ _ _ _ Hg).
Qed.

Lemma number_key_inv st ids ty key :
  states_inv st ids → (last_number (shorts st) < U64_MAX)%N →
  ∃ n x, get_or_create_shortstatekey (shorts st) ty key = Ok (n, x) ∧ states_inv (with_shorts x st) ids ∧ extends (shorts st) x
    ∧ table_rows (statekey_shortstatekey x) !! record_bytes [ty; key] = Some (u64_to_be_bytes n)
    ∧ (0 < n <= U64_MAX)%N ∧ (last_number x <= last_number (shorts st) + 1)%N.
Proof.
  intros Hinv Hlt. destruct (get_or_create_shortstatekey_spec (shorts st) ids ty key (states_shorts _ _ Hinv) Hlt)
    as (n & x & Hg & Hx & Hext & Hrow & Hn & _ & Hle). pose proof (short_width _ _ Hx).
  exists n, x. split_and!; try done; try lia. apply with_shorts_inv; try done. by rewrite (get_or_create_shortstatekey_hashes _ _ _ _ _ Hg).
Qed.

Lemma saved_after st ids x st' h s : extends (shorts st) x → saved (with_shorts x st) ids st' h s → saved st ids st' h s.
Proof. intros Hext [Hi Hh Hr He Ho]. split; [done..| |done]. by eapply extends_trans. Qed.

Lemma set_event_state_spec st ids event_id room_id new :
  states_inv st ids → (last_number (shorts st) + 2 <= U64_MAX)%N → entries new → small new → collision_free st new →
  ∃ h st', set_event_state st event_id room_id new = Ok (h, st') ∧ saved st ids st' h new ∧ pdu_shortstatehash st' event_id = Ok h.
Proof.
  intros Hinv Hlt Hn Hsm Hcf. unfold set_event_state.
  destruct (number_event_inv st ids event_id Hinv ltac:(lia)) as (n & x & -> & Hinv1 & Hext & Hnum & Hle). cbn [svc map_err fst snd].
  set (st1 := with_shorts x st) in *. destruct (previous_of_room st1 ids room_id Hinv1) as (full & Hprev & Hef).
  destruct (numbered_state_spec st1 ids new room_id Hinv1) as (h & existed & x2 & Hg & Hknown & _ & Hc & Hsave); try done; [cbn; lia|].
  rewrite Hg. cbn [svc map_err].
  assert (∃ st2, save_new_state (with_shorts x2 st1) h existed (ok (get_room_shortstatehash st1 room_id)) new = Ok st2
    ∧ saved st1 ids st2 h new) as (st2 & -> & Hs2).
  { destruct (load_previous_spec (with_shorts x2 st1) (ok (get_room_shortstatehash st1 room_id)) full Hc Hprev) as (parents & st2 & Hl & Hp & Hr).
    destruct existed.
    - destruct (Hknown eq_refl) as [-> Hh]. exists (with_shorts (shorts st1) st1). split; [done|]. apply recached_saved; [done| |done].
      split; [|done]. exists (stateinfo_cache st1). done.
    - destruct (Hsave full parents st2 1000000%N Hr Hp Hef ltac:(done)) as (st' & Hs & Hsaved). exists st'. split; [|done].
      unfold save_new_state. rewrite Hl. exact Hs. }
  unfold BUFSIZE. rewrite aput_u64. cbn [dbe map_err]. eexists h, _. split; [done|].
  pose proof (event_state_saved st1 ids st2 h new n Hinv1 Hs2) as Hs3. split; [by eapply saved_after|].
  unfold pdu_shortstatehash. rewrite (get_shorteventid_saved st1 ids _ h new event_id n Hinv1 Hs3 Hnum). cbn.
  apply get_shortstatehash_put. destruct Hs2 as [_ (stack & Hst & _) _ _ _]. by apply (stored_range _ _ _ Hst).
Qed.

(** *** Appending to the state of a room *)

Lemma with_globals_inv (s : Short) ids d :
  short_inv s ids → data_inv d ids → (last_number s <= dispatched (counter d))%N →
  short_inv (with_globals d s) ids ∧ extends s (with_globals d s).
Proof.
  intros [] Hd Hle. split; split; try done; unfold last_number; cbn; by eapply numbered_mono.
Qed.

Lemma parents_ok_rows st st' parents full : diff_rows st' = diff_rows st → parents_ok st parents full → parents_ok st' parents full.
Proof. intros He. unfold parents_ok. by rewrite He. Qed.

(** Saving under a number drawn for it. *)
Lemma save_drawn st ids parents full new rem s :
  states_inv st ids → (last_number (shorts st) < U64_MAX)%N → parents_ok st parents full → diff_of full new rem s →
  entries new → entries rem → small s →
  ∃ h st', with_count (λ e, Service (CountErr e)) get_globals set_globals st (λ h st,
      save_state_from_diff st h new rem 2 parents) = Ok (h, st')
    ∧ saved st ids st' h s ∧ shorteventid_shortstatehash st' = shorteventid_shortstatehash st.
Proof.
  intros Hinv Hlt Hp Hdo Hn Hm Hsm. set (h := (last_number (shorts st) + 1)%N).
  destruct (save_from_diff_spec st parents full new rem s h 2) as (dd & Hs & Hhold & Hsub); try done; [lia|by apply (fresh_row st ids); [|lia]|].
  assert (∀ d, save_state_from_diff (set_globals d st) h new rem 2 parents = Ok (save_statediff (set_globals d st) h dd)) as Hsd
    by (intros d; unfold save_state_from_diff; by rewrite Hs).
  destruct (with_count_spec (λ e, Service (CountErr e)) get_globals set_globals st (λ h st, save_state_from_diff st h new rem 2 parents) ids)
    as (d & d' & u & Hu & Hw & Hdi & Hd'); [done|apply Hinv|done| |].
  { intros d. exists (save_statediff (set_globals d st) h dd). split; [apply Hsd|done]. }
  cbn beta in Hu. fold (get_globals st) h in Hu, Hw, Hdi. change (dispatched (counter (get_globals st)) + 1)%N with h in *.
  rewrite Hsd in Hu. injection Hu as <-. exists h. eexists. split; [exact Hw|].
  destruct (with_globals_inv (shorts st) ids d' (states_shorts _ _ Hinv) Hd') as [Hx Hext]; [rewrite Hdi; lia|].
  split; [|done]. split; [|done|done|done|done].
  eapply states_inv_grow; [exact Hinv|exact Hx|apply Hext|exact Hsub| | | |done|by left..].
  - by eapply coherent_grow; [apply Hinv|exact Hsub|].
  - intros k v Hv Hn'. unfold diff_rows in Hv. cbn in Hv. unfold Map_insert in Hv. rewrite table_put_rows in Hv.
    apply lookup_insert_Some in Hv as [[<- _]|[_ Hv]]; [|unfold diff_rows in Hn'; congruence].
    exists h, s. split_and!; [done| |done]. unfold last_number. cbn. rewrite Hdi. done.
  - intros k v Hv Hn'. cbn in Hv. congruence.
Qed.

(** The key of an entry; a state has at most one entry for a key. *)
Definition entry_key (e : string) : string := str_take 8 e.
Definition keyed (s : CompressedState) : Prop := ∀ e e', e ∈ s → e' ∈ s → entry_key e = entry_key e' → e = e'.

(** The state with the entry in place of the one with its key. *)
Definition with_entry (e : string) (s : CompressedState) : CompressedState :=
  {[e]} ∪ filter (λ e', entry_key e' ≠ entry_key e) s.

Lemma with_entry_keyed e s : keyed s → keyed (with_entry e s).
Proof.
  intros Hk x y. unfold with_entry. rewrite !elem_of_union, !elem_of_singleton, !elem_of_filter.
  intros [->|[Hx Hxs]] [->|[Hy Hys]] He; [done|congruence|congruence|by apply Hk].
Qed.

Lemma entry_key_prefix k e : entry e → String.prefix (u64_to_be_bytes k) e = true ↔ entry_key e = u64_to_be_bytes k.
Proof.
  intros [Hl _]. unfold entry_key, u64_to_be_bytes. rewrite prefix_spec. split.
  - intros [t ->]. apply be_take.
  - intros He. exists (str_drop 8 e). by rewrite <-He, str_take_drop.
Qed.

Lemma compress_key k n : entry_key (compress_state_event k n) = u64_to_be_bytes k.
Proof. apply be_take. Qed.

Lemma entry_with_key_spec k s :
  entries s →
  match entry_with_key k s with
  | Some e => e ∈ s ∧ entry_key e = u64_to_be_bytes k
  | None => ∀ e, e ∈ s → entry_key e ≠ u64_to_be_bytes k
  end.
Proof.
  intros He. unfold entry_with_key. destruct (List.find _ _) as [e|] eqn:Hf.
  - apply List.find_some in Hf as [Hin Hp]. apply list_elem_of_In, elem_of_bset_iter in Hin. split; [done|].
    by apply entry_key_prefix; [apply He|].
  - intros e Hin Hk. apply (entry_key_prefix k e (He e Hin)) in Hk.
    pose proof (List.find_none _ _ Hf e) as Hn. rewrite Hk in Hn. discriminate Hn.
    by apply list_elem_of_In, elem_of_bset_iter.
Qed.

(** Replacing an entry by another one of its key, or adding one. *)
Lemma replace_diff_of s new (replaces : option string) :
  keyed s → match replaces with
            | Some e => e ∈ s ∧ entry_key e = entry_key new
            | None => ∀ e, e ∈ s → entry_key e ≠ entry_key new
            end →
  (Some new = replaces → with_entry new s = s)
  ∧ (Some new ≠ replaces → diff_of s {[new]} (match replaces with Some e => {[e]} | None => ∅ end) (with_entry new s)).
Proof.
  intros Hk Hr. unfold with_entry. split.
  - intros <-. destruct Hr as [Hin _]. apply set_eq. intros x. rewrite elem_of_union, elem_of_singleton, elem_of_filter. split.
    + by intros [->|[_ ?]].
    + intros Hx. destruct (decide (entry_key x = entry_key new)) as [He|]; [left; by apply Hk|by right].
  - intros Hne. destruct replaces as [e|].
    + destruct Hr as [Hin He]. assert (e ≠ new) as Hen by congruence.
      assert (new ∉ s) as Hns by (intros Hn; apply Hen; by apply Hk).
      split_and!; [set_solver..|]. apply set_eq. intros x.
      rewrite elem_of_difference, !elem_of_union, !elem_of_singleton, elem_of_filter. split.
      * intros [->|[Hx Hxs]]; [split; [by right|congruence]|]. split; [by left|by intros ->].
      * intros [[Hx|Hx] Hxe]; [|by left]. right. split; [|done]. intros Hxk. apply Hxe, Hk; [done..|congruence].
    + assert (new ∉ s) as Hns by (intros Hn; by apply (Hr new Hn)). split_and!; [set_solver..|]. apply set_eq. intros x.
      rewrite elem_of_difference, !elem_of_union, !elem_of_singleton, elem_of_filter. split.
      * intros [->|[Hx Hxs]]; set_solver.
      * intros [[Hx|Hx] _]; [right; split; [by apply Hr|done]|by left].
Qed.

Lemma with_entry_size new s : (set_len (with_entry new s) <= set_len s + 1)%N.
Proof.
  unfold with_entry, set_len. pose proof (size_union_le {[new]} (filter (λ e', entry_key e' ≠ entry_key new) s)) as Hu.
  pose proof (subseteq_size (filter (λ e', entry_key e' ≠ entry_key new) s) s ltac:(set_solver)).
  rewrite size_singleton in Hu. lia.
Qed.

Lemma saved_from st ids st1 st' h s :
  diff_rows st1 = diff_rows st → extends (shorts st) (shorts st1) →
  table_rows (roomid_shortstatehash st1) = table_rows (roomid_shortstatehash st) → saved st1 ids st' h s → saved st ids st' h s.
Proof.
  intros Hd He Hr [Hi Hh Hsub Hext Hro]. split; [done|done|by rewrite <-Hd|by eapply extends_trans|by rewrite Hro].
Qed.

Lemma saved_same st ids h s : states_inv st ids → holds (diff_rows st) h s → saved st ids st h s.
Proof. intros Hinv Hh. by split. Qed.

(** The entry that is replaced, of the state [full]. *)
Lemma replaces_spec st parents full k :
  parents_ok st parents full → entries full →
  match (info ← last parents; entry_with_key k (full_state info)) with
  | Some e => e ∈ full ∧ entry_key e = u64_to_be_bytes k
  | None => ∀ e, e ∈ full → entry_key e ≠ u64_to_be_bytes k
  end.
Proof.
  intros Hp He. destruct Hp as [[-> ->]|(p & Hs & Hl & _)]; [by intros e Hin%elem_of_empty|].
  destruct (stored_top _ _ _ Hs) as (top & Ht & _).
  assert (full = full_state top) as ->.
  { rewrite <-(reverse_involutive parents), last_reverse in Ht. by destruct Hl; [|injection Ht as ->]. }
  rewrite Ht. cbn [mbind option_bind]. by apply entry_with_key_spec.
Qed.

Lemma statekey_extends (x y : Short) ids ty key k :
  short_inv x ids → short_inv y ids → extends x y →
  table_rows (statekey_shortstatekey x) !! record_bytes [ty; key] = Some (u64_to_be_bytes k) → (k <= U64_MAX)%N →
  get_shortstatekey y ty key = Ok k.
Proof.
  intros Hx Hy Hext Hrow Hk. eapply get_shortstatekey_at; [exact Hy|by eapply lookup_weaken; [exact Hrow|apply Hext]|].
  destruct (numbered_range _ _ (short_keys _ _ Hx) _ _ Hrow) as (m & Hm & Hr). pose proof (short_width _ _ Hx).
  pose proof (ext_number _ _ Hext). apply u64_bytes_inj in Hm as ->; lia.
Qed.

Lemma append_state_event_spec st ids pdu previous full key :
  states_inv st ids → (last_number (shorts st) + 3 <= U64_MAX)%N → previous_state st previous full →
  entries full → keyed full → (set_len full < MAX_STATE)%N →
  ∃ h st' k n, append_state_event st pdu previous key = Ok (h, st')
    ∧ saved st ids st' h (with_entry (compress_state_event k n) full)
    ∧ shorteventid_shortstatehash st' = shorteventid_shortstatehash st
    ∧ get_shortstatekey (shorts st') (pdu_kind pdu) key = Ok k ∧ numbered_as (shorts st') (pdu_event_id pdu) n.
Proof.
  intros Hinv Hlt Hprev Hef Hkeyed Hsz. unfold append_state_event.
  destruct (load_previous_spec st previous full (states_cache _ _ Hinv) Hprev) as (parents & st1 & -> & Hp & Hrec). cbn [fst snd].
  pose proof (recached_inv st st1 ids Hrec Hinv) as Hinv1. destruct Hrec as [[c ->] _]. set (st1 := with_cache c st) in *.
  destruct (number_key_inv st1 ids (pdu_kind pdu) key Hinv1 ltac:(cbn; lia)) as (k & x & -> & Hinv2 & Hext2 & Hrow & Hk & Hle). cbn [svc map_err fst snd].
  set (st2 := with_shorts x st1) in *. unfold compress_event.
  destruct (number_event_inv st2 ids (pdu_event_id pdu) Hinv2 ltac:(cbn in *; lia)) as (n & y & -> & Hinv3 & Hext3 & Hnum & Hle'). cbn [svc map_err fst snd].
  set (st3 := with_shorts y st2) in *. set (new := compress_state_event k n).
  pose proof (replaces_spec st1 parents full k Hp Hef) as Hrep. rewrite <-(compress_key k n) in Hrep.
  set (replaces := info ← last parents; entry_with_key k (full_state info)) in *.
  assert (entry new) as Hnew by by apply compress_entry.
  destruct (replace_diff_of full new replaces Hkeyed Hrep) as [Hsame Hdiff].
  assert (extends (shorts st) y) as Hexty by by eapply extends_trans.
  assert (∀ st' h, saved st3 ids st' h (with_entry new full) → get_shortstatekey (shorts st') (pdu_kind pdu) key = Ok k
    ∧ numbered_as (shorts st') (pdu_event_id pdu) n) as Hids.
  { intros st' h [Hi _ _ Hext' _]. split; [|by eapply numbered_as_extends].
    eapply (statekey_extends x); [apply Hinv2|apply Hi|by eapply extends_trans|done|lia]. }
  case_decide as Hd.
  - destruct previous as [p|]; cbn [previous_state] in Hprev.
    + exists p, st3, k, n. fold new. split; [done|]. rewrite (Hsame Hd) in *. assert (saved st3 ids st3 p full) as Hs3 by by apply saved_same.
      split; [by apply (saved_from st ids st3)|]. split; [done|]. by eapply Hids.
    + subst full. rewrite <-Hd in Hrep. destruct Hrep as [Hin _]. by apply elem_of_empty in Hin.
  - destruct (save_drawn st3 ids parents full {[new]} (match replaces with Some e => {[e]} | None => ∅ end) (with_entry new full))
      as (h & st' & Hw & Hs & Hev); [done|cbn in *; lia|by eapply parents_ok_rows; [|exact Hp]|by apply Hdiff|..].
    + by intros e ->%elem_of_singleton.
    + destruct replaces as [e|]; [intros e' ->%elem_of_singleton; apply Hef, Hrep|by intros e He%elem_of_empty].
    + unfold small. pose proof (with_entry_size new full). lia.
    + exists h, st', k, n. split; [exact Hw|]. split; [by apply (saved_from st ids st3)|]. split; [done|]. by eapply Hids.
Qed.

Lemma set_event_previous_spec st ids n previous full :
  states_inv st ids → previous_state st previous full →
  ∃ st', set_event_previous st n previous = Ok st' ∧ states_inv st' ids ∧ shorts st' = shorts st
    ∧ diff_rows st' = diff_rows st ∧ roomid_shortstatehash st' = roomid_shortstatehash st
    ∧ ∀ p, previous = Some p → table_rows (shorteventid_shortstatehash st') !! u64_to_be_bytes n = Some (u64_to_be_bytes p).
Proof.
  intros Hinv Hprev. destruct previous as [p|]; [|by exists st]. unfold set_event_previous, BUFSIZE. rewrite aput_u64.
  cbn [dbe map_err]. eexists. split; [done|]. split; [by eapply event_state_inv|]. split_and!; [done..|].
  intros p' [= <-]. cbn. by rewrite table_put_rows, lookup_insert_eq.
Qed.

(** Making a stored state the current one. *)
Lemma set_room_state_spec st ids room_id h s :
  states_inv st ids → holds (diff_rows st) h s →
  ∃ st', set_room_state st room_id h = Ok st' ∧ states_inv st' ids ∧ get_room_shortstatehash st' room_id = Ok h
    ∧ diff_rows st' = diff_rows st ∧ shorts st' = shorts st.
Proof.
  intros Hinv Hs. unfold set_room_state, BUFSIZE. rewrite raw_aput_u64. cbn [dbe map_err]. eexists. split; [done|]. split_and!; [|..|done|done].
  - destruct Hinv as [Hx Hr Hc Hh Hrooms Hevents]. split; try done. intros k v. cbn. rewrite table_put_rows.
    intros [[_ <-]|[_ Hv]]%lookup_insert_Some; [by exists h, s|by apply (Hrooms k)].
  - unfold get_room_shortstatehash, Map_get. cbn [roomid_shortstatehash with_room_states]. rewrite table_get_rows, table_put_rows, lookup_insert_eq.
    pose proof (holds_number _ _ _ _ Hinv Hs). pose proof (short_width _ _ (states_shorts _ _ Hinv)).
    apply (deserialized_u64_row (Some _)); [lia|done].
Qed.

Lemma append_to_state_spec st ids pdu key full :
  states_inv st ids → (last_number (shorts st) + 4 <= U64_MAX)%N → pdu_state_key pdu = Some key →
  previous_state st (ok (get_room_shortstatehash st (pdu_room_id pdu))) full →
  keyed full → (set_len full < MAX_STATE)%N →
  ∃ h st' k n, append_to_state st pdu = Ok (h, st')
    ∧ saved st ids st' h (with_entry (compress_state_event k n) full)
    ∧ get_shortstatekey (shorts st') (pdu_kind pdu) key = Ok k
    ∧ get_shorteventid (shorts st') (pdu_event_id pdu) = Ok n
    ∧ (∀ p, ok (get_room_shortstatehash st (pdu_room_id pdu)) = Some p → pdu_shortstatehash st' (pdu_event_id pdu) = Ok p).
Proof.
  intros Hinv Hlt Hkey Hprev Hkeyed Hsz. unfold append_to_state.
  destruct (number_event_inv st ids (pdu_event_id pdu) Hinv ltac:(lia)) as (n & x & -> & Hinv1 & Hext & Hnum & Hle). cbn [svc map_err fst snd].
  set (st1 := with_shorts x st) in *. rewrite Hkey.
  change (get_room_shortstatehash st1 (pdu_room_id pdu)) with (get_room_shortstatehash st (pdu_room_id pdu)).
  set (previous := ok (get_room_shortstatehash st (pdu_room_id pdu))) in *.
  assert (entries full) as Hef.
  { destruct (previous_of_room st ids (pdu_room_id pdu) Hinv) as (full' & Hp' & He'). fold previous in Hp'.
    destruct previous; cbn in Hprev, Hp'; [by rewrite (holds_fun _ _ _ _ Hprev Hp')|by subst]. }
  destruct (set_event_previous_spec st1 ids n previous full Hinv1 Hprev) as (st2 & -> & Hinv2 & Hsh2 & Hd2 & Hr2 & Hev2).
  destruct (append_state_event_spec st2 ids pdu previous full key) as (h & st' & k & m & Hap & Hs & Hev & Hgk & Hgn); try done.
  { rewrite Hsh2. cbn. lia. }
  { unfold previous_state in *. by rewrite Hd2. }
  exists h, st', k, m. pose proof (saved_inv _ _ _ _ _ Hs) as Hinv'.
  split_and!; [done|by apply (saved_from st ids st2); [|rewrite Hsh2|rewrite Hr2|]|done| |].
  - by apply (get_shorteventid_iff (shorts st') ids); [apply Hinv'|].
  - intros p Hp. unfold pdu_shortstatehash. assert (get_shorteventid (shorts st') (pdu_event_id pdu) = Ok n) as ->.
    { apply (get_shorteventid_iff (shorts st') ids); [apply Hinv'|]. eapply numbered_as_extends; [|exact Hnum].
      pose proof (saved_shorts _ _ _ _ _ Hs) as He. by rewrite Hsh2 in He. }
    unfold get_shortstatehash, BUFSIZE. rewrite aqry_u64, Hev, (Hev2 p Hp). apply deserialized_u64_row; [|done].
    rewrite Hp in Hprev. destruct Hprev as (stack & Hst & _). by apply (stored_range _ _ _ Hst).
Qed.

(** *** What loading gives *)

(** The number [h] loads as the state [s], in at most four layers. *)
Definition loads st h (s : CompressedState) : Prop :=
  ∃ stack top st', load_shortstatehash_info st h = Ok (stack, st') ∧ last stack = Some top ∧ full_state top = s
    ∧ (length stack <= LAYERS)%nat.

Lemma holds_loads st ids h s : states_inv st ids → holds (diff_rows st) h s → loads st h s.
Proof.
  intros Hinv Hh. destruct (load_holds st h s (states_cache _ _ Hinv) Hh) as (stack & st' & Hl & Hs & Hok & _).
  destruct (stored_top _ _ _ Hs) as (top & Ht & _). exists stack, top, st'. destruct Hok as (Hlay & _ & _ & Hn).
  split_and!; [done|done| |lia]. rewrite <-(reverse_involutive stack), last_reverse in Ht. by destruct Hlay; [|injection Ht as ->].
Qed.

Lemma load_row st h stack st' :
  coherent st → load_shortstatehash_info st h = Ok (stack, st') → is_Some (diff_rows st !! u64_to_be_bytes h).
Proof.
  intros Hc. unfold load_shortstatehash_info, LAYERS. generalize 3%nat. intros n. cbn [load_layers].
  pose proof (cache_get_rows (stateinfo_cache st) h) as Hg.
  destruct (cache_get (stateinfo_cache st) h) as [[hit|] c]; cbn [fst] in Hg.
  - intros _. symmetry in Hg. apply Hc in Hg. by destruct Hg as [h d (Hv & _)|h d p stack0 top (Hv & _)]; eexists.
  - unfold new_shortstatehash_info, get_statediff, BUFSIZE. rewrite aqry_u64. unfold diff_rows. cbn [shortstatehash_statediff with_cache].
    destruct (table_rows (shortstatehash_statediff st) !! u64_to_be_bytes h); [done|]. by intros [=].
Qed.

Lemma loads_holds st ids h s : states_inv st ids → (h <= U64_MAX)%N → loads st h s → holds (diff_rows st) h s.
Proof.
  intros Hinv Hh (stack & top & st' & Hl & Ht & <- & _). destruct (load_row _ _ _ _ (states_cache _ _ Hinv) Hl) as [v Hv].
  destruct (states_rows _ _ Hinv _ _ Hv) as (h' & s & He & _ & Hhold). pose proof (holds_number _ _ _ _ Hinv Hhold).
  pose proof (short_width _ _ (states_shorts _ _ Hinv)). apply u64_bytes_inj in He as <-; [|lia..].
  destruct (holds_loads st ids h s Hinv Hhold) as (stack' & top' & st'' & Hl' & Ht' & <- & _). rewrite Hl in Hl'. injection Hl' as <- <-.
  congruence.
Qed.

Lemma saved_loads st ids st' h s h' s' :
  states_inv st ids → saved st ids st' h s → (h' <= U64_MAX)%N → loads st h' s' → loads st' h' s'.
Proof.
  intros Hinv [Hinv' _ Hsub _ _] Hh Hl. eapply holds_loads; [exact Hinv'|]. eapply holds_mono; [exact Hsub|]. by eapply loads_holds.
Qed.
End states_inv.

(** ** Forward extremities *)

Section leaves.
Context `{Engine, JsonParser, Identifiers, Lru, Digest}.
Implicit Types (tb : Table) (st : RoomStates) (room_id event_id : string).

Lemma remove_leaves_spec tb room_id :
  ∃ tb', remove_leaves tb room_id = Ok tb'
    ∧ ∀ k, table_rows tb' !! k = if String.prefix (below room_id) k then None else table_rows tb !! k.
Proof.
  unfold remove_leaves, keys_prefix_raw. rewrite prefix_of_ser. cbn [expect map_err]. eexists. split; [done|]. intros k.
  rewrite remove_all_rows. destruct (String.prefix (below room_id) k) eqn:Hp.
  - case_decide as Hk; [done|]. rewrite elem_of_raw_keys_prefix in Hk. apply eq_None_not_Some. tauto.
  - rewrite decide_False; [done|]. rewrite elem_of_raw_keys_prefix, Hp. by intros [].
Qed.

Lemma put_leaves_spec tb room_id event_ids :
  ∃ tb', put_leaves tb room_id event_ids = Ok tb'
    ∧ ∀ k, is_Some (table_rows tb' !! k) ↔ is_Some (table_rows tb !! k) ∨ k ∈ pair_key room_id <$> event_ids.
Proof.
  revert tb. induction event_ids as [|e l IH]; intros tb; cbn [put_leaves].
  { exists tb. split; [done|]. intros k. set_solver. }
  rewrite put_raw_pair.
  destruct (IH (Map_insert tb (pair_key room_id e) e)) as (tb' & Hp & Hrows). exists tb'. split; [exact Hp|].
  intros k. rewrite Hrows. unfold Map_insert. rewrite table_put_rows. csimpl. rewrite elem_of_cons.
  destruct (decide (k = pair_key room_id e)) as [->|Hne]; [rewrite lookup_insert_eq; naive_solver|].
  rewrite lookup_insert_ne by done. naive_solver.
Qed.

Lemma get_leaves st room_id (l : list string) :
  raw_keys_prefix (roomid_pduleaves st) (below room_id) = pair_key room_id <$> l → utf8_valid room_id = true →
  Forall (λ e, utf8_valid e = true ∧ event_id_ok e = true) l → get_forward_extremities st room_id = Ok l.
Proof.
  intros Hk Hr Hl. unfold get_forward_extremities, seconds, keys_prefix, keys_prefix_raw. rewrite prefix_of_ser. cbn [expect map_err].
  rewrite Hk. unfold ignore_err. f_equal. clear Hk. induction Hl as [|e l [He Hok] Hl IH]; [done|]. csimpl.
  rewrite (decode_second event_id_ok room_id e) by done. cbn. by rewrite IH.
Qed.
End leaves.

(** ** Properties *)

(** C12.  Saving a state: the number returned loads as the state, in at most four
    layers; the change reported is the exact difference to the state of the
    room; and every number that loaded as some state before still does. *)
Theorem save_state_correct `{Engine, JsonParser, Identifiers, Lru, Digest} st ids room_id new :
  states_inv st ids → (last_number (shorts st) < U64_MAX)%N → entries new → small new → collision_free st new →
  ∃ ch st' full, save_state st room_id new = Ok (ch, st') ∧ states_inv st' ids
    ∧ loads st' (change_hash ch) new
    ∧ (∀ h s, (h <= U64_MAX)%N → loads st h s → loads st' h s)
    ∧ match get_room_shortstatehash st room_id with Ok p => loads st p full | Err _ => full = ∅ end
    ∧ change_added ch = new ∖ full ∧ change_removed ch = full ∖ new.
Proof.
  intros Hinv Hlt Hn Hsm Hcf.
  destruct (save_state_spec st ids room_id new Hinv Hlt Hn Hsm Hcf) as (ch & st' & full & Hs & Hsaved & Hprev & Ha & Hr).
  exists ch, st', full. split_and!; [done|apply Hsaved|eapply holds_loads; apply Hsaved| | |done|done].
  - intros h s. by eapply saved_loads.
  - destruct (get_room_shortstatehash st room_id); [|done]. by eapply holds_loads.
Qed.

(** The state before an event: the state given for an event is found again
    by the event's id, it loads as that state, and nothing stored before is
    lost. *)
Theorem set_event_state_correct `{Engine, JsonParser, Identifiers, Lru, Digest} st ids event_id room_id new :
  states_inv st ids → (last_number (shorts st) + 2 <= U64_MAX)%N → entries new → small new → collision_free st new →
  ∃ h st', set_event_state st event_id room_id new = Ok (h, st') ∧ states_inv st' ids
    ∧ pdu_shortstatehash st' event_id = Ok h ∧ loads st' h new
    ∧ ∀ h' s, (h' <= U64_MAX)%N → loads st h' s → loads st' h' s.
Proof.
  intros Hinv Hlt Hn Hsm Hcf.
  destruct (set_event_state_spec st ids event_id room_id new Hinv Hlt Hn Hsm Hcf) as (h & st' & Hs & Hsaved & Hp).
  exists h, st'. split_and!; [done|apply Hsaved|done|eapply holds_loads; apply Hsaved|]. intros h' s. by eapply saved_loads.
Qed.

(** C39.  Appending a state event to a room: the state returned is the state of
    the room with the entry of the event in place of the one for its type and
    state key; the event is bound to the state before it; and nothing stored
    before is lost. *)
Theorem append_to_state_correct `{Engine, JsonParser, Identifiers, Lru, Digest} st ids pdu key full :
  states_inv st ids → (last_number (shorts st) + 4 <= U64_MAX)%N → pdu_state_key pdu = Some key →
  match get_room_shortstatehash st (pdu_room_id pdu) with Ok p => loads st p full ∧ (p <= U64_MAX)%N | Err _ => full = ∅ end →
  keyed full → (set_len full < MAX_STATE)%N →
  ∃ h st' k n, append_to_state st pdu = Ok (h, st') ∧ states_inv st' ids
    ∧ get_shortstatekey (shorts st') (pdu_kind pdu) key = Ok k
    ∧ get_shorteventid (shorts st') (pdu_event_id pdu) = Ok n
    ∧ loads st' h (with_entry (compress_state_event k n) full) ∧ keyed (with_entry (compress_state_event k n) full)
    ∧ (∀ p, get_room_shortstatehash st (pdu_room_id pdu) = Ok p → pdu_shortstatehash st' (pdu_event_id pdu) = Ok p)
    ∧ ∀ h' s, (h' <= U64_MAX)%N → loads st h' s → loads st' h' s.
Proof.
  intros Hinv Hlt Hkey Hprev Hkeyed Hsz.
  destruct (append_to_state_spec st ids pdu key full Hinv Hlt Hkey) as (h & st' & k & n & Ha & Hsaved & Hk & Hn & Hp); [|done..|].
  - destruct (get_room_shortstatehash st (pdu_room_id pdu)); [|done]. destruct Hprev as [Hl Hw]. by eapply loads_holds.
  - exists h, st', k, n. split_and!; [done|apply Hsaved|done|done|eapply holds_loads; apply Hsaved|by apply with_entry_keyed| |].
    + intros p Hg. apply Hp. by rewrite Hg.
    + intros h' s. by eapply saved_loads.
Qed.

(** The forward extremities of a room are a set: after they are set, they
    read back as the events given, sorted and without repetition, also when
    there were others before; those of other rooms do not change, not even of a
    room whose id extends this one's. *)
Theorem forward_extremities_exact `{Engine, JsonParser, Identifiers, Lru, Digest} st room_id event_ids :
  utf8_valid room_id = true → Forall (λ e, utf8_valid e = true ∧ event_id_ok e = true) event_ids →
  ∃ st', set_forward_extremities st room_id event_ids = Ok st'
    ∧ get_forward_extremities st' room_id = Ok (bset_iter (list_to_set event_ids))
    ∧ ∀ room_id', utf8_valid room_id' = true → room_id' ≠ room_id →
      get_forward_extremities st' room_id' = get_forward_extremities st room_id'.
Proof.
  intros Hr Hl. unfold set_forward_extremities.
  destruct (remove_leaves_spec (roomid_pduleaves st) room_id) as (tb & -> & Hrm).
  destruct (put_leaves_spec tb room_id event_ids) as (tb' & -> & Hput). eexists. split; [done|].
  assert (∀ k, is_Some (table_rows tb' !! k) ↔
    (String.prefix (below room_id) k = false ∧ is_Some (table_rows (roomid_pduleaves st) !! k)) ∨ k ∈ pair_key room_id <$> event_ids) as Hrows.
  { intros k. rewrite Hput, Hrm. destruct (String.prefix (below room_id) k); [|tauto]. rewrite is_Some_alt. naive_solver. }
  assert (∀ e, String.prefix (below room_id) (pair_key room_id e) = true) as Hleaf by (intros e; rewrite pair_below; apply prefix_append).
  split.
  - apply get_leaves; [|done|].
    + apply raw_keys_prefix_unique; [apply pairs_sorted, bset_iter_sorted|apply NoDup_fmap_2; [intros e e'; apply pair_key_inj_r|apply bset_iter_NoDup]|].
      intros k. cbn [roomid_pduleaves with_pduleaves]. rewrite Hrows, !list_elem_of_fmap. split.
      * intros (e & -> & He%elem_of_bset_iter%elem_of_list_to_set). split; [apply Hleaf|]. right. by exists e.
      * intros [Hp [[Hf _]|(e & -> & He)]]; [congruence|]. exists e. split; [done|]. by apply elem_of_bset_iter, elem_of_list_to_set.
    + apply Forall_forall. intros e He%elem_of_bset_iter%elem_of_list_to_set. rewrite Forall_forall in Hl. by apply Hl.
  - intros r' Hr' Hne. unfold get_forward_extremities, seconds, keys_prefix, keys_prefix_raw. rewrite prefix_of_ser. cbn [expect map_err].
    do 4 f_equal. apply raw_keys_prefix_unique; [apply raw_keys_prefix_sorted..|]. intros k.
    rewrite elem_of_raw_keys_prefix. cbn [roomid_pduleaves with_pduleaves]. rewrite Hrows, list_elem_of_fmap.
    split; intros [Hp Hs]; (split; [done|]).
    + left. split; [|done]. apply not_true_is_false. intros Hp'. by apply Hne, (below_disjoint _ _ k).
    + destruct Hs as [[_ ?]|(e & -> & _)]; [done|]. exfalso. by apply Hne, (below_disjoint _ _ (pair_key room_id e)).
Qed.

(** A server without rooms. *)
Module StatesExample.
#[local] Existing Instance ordered_engine.
#[local] Existing Instance ShortExample.json.
#[local] Existing Instance ShortExample.identifiers.

(** A cache that keeps everything, and a hash without collisions. *)
#[export] Instance unbounded : Lru.
Proof.
  refine {|
    Cache := gmap N Stack;
    cache_rows c := c;
    cache_get c k := (c !! k, c);
    cache_put c k v := <[k := v]> c;
  |}; done.
Defined.
#[export] Instance digest : Digest := λ s, s.

Definition no_rooms : RoomStates :=
  mkStates ShortExample.empty (∅ : Table) (∅ : gmap N Stack) (∅ : Table) (∅ : Table) (∅ : Table).

Lemma no_rooms_inv : states_inv no_rooms ∅.
Proof.
  split; [apply ShortExample.empty_inv|..]; try (intros k v; cbn; by rewrite lookup_empty).
Qed.

Definition e1 : string := compress_state_event 1 2.
Lemma e1_entries : entries {[e1]}.
Proof. intros e ->%elem_of_singleton. by apply compress_entry. Qed.

Lemma nothing_held h s : ¬ holds (diff_rows no_rooms) h s.
Proof. intros (stack & Hs & _). by destruct Hs as [h d (Hv & _)|h d p stack top (Hv & _)]. Qed.
End StatesExample.

Section states_witnesses.
#[local] Existing Instance ordered_engine.
#[local] Existing Instance ShortExample.json.
#[local] Existing Instance ShortExample.identifiers.
Import StatesExample.

Lemma save_state_correct_witness :
  ∃ ch st', save_state no_rooms "!r:a" {[e1]} = Ok (ch, st') ∧ loads st' (change_hash ch) {[e1]}.
Proof.
  destruct (save_state_correct no_rooms ∅ "!r:a" {[e1]} no_rooms_inv) as (ch & st' & full & Hs & _ & Hl & _).
  - done.
  - apply e1_entries.
  - by vm_compute.
  - intros h s Hh. by apply nothing_held in Hh.
  - exists ch, st'. exact (conj Hs Hl).
Defined.

Lemma set_event_state_correct_witness :
  ∃ h st', set_event_state no_rooms "$e" "!r:a" {[e1]} = Ok (h, st') ∧ pdu_shortstatehash st' "$e" = Ok h.
Proof.
  destruct (set_event_state_correct no_rooms ∅ "$e" "!r:a" {[e1]} no_rooms_inv) as (h & st' & Hs & _ & Hp & _).
  - done.
  - apply e1_entries.
  - by vm_compute.
  - intros h s Hh. by apply nothing_held in Hh.
  - exists h, st'. exact (conj Hs Hp).
Defined.

Lemma append_to_state_correct_witness :
  ∃ h st' k n, append_to_state no_rooms (mkPdu "$e" "!r:a" "m.room.create" (Some "")) = Ok (h, st')
    ∧ loads st' h (with_entry (compress_state_event k n) ∅).
Proof.
  destruct (append_to_state_correct no_rooms ∅ (mkPdu "$e" "!r:a" "m.room.create" (Some "")) "" ∅ no_rooms_inv)
    as (h & st' & k & n & Ha & _ & _ & _ & Hl & _).
  - done.
  - done.
  - done.
  - by intros e e' He%elem_of_empty.
  - done.
  - exists h, st', k, n. exact (conj Ha Hl).
Defined.

Lemma forward_extremities_exact_witness :
  ∃ st', set_forward_extremities no_rooms "!r:a" ["$b"; "$a"; "$b"] = Ok st'
    ∧ get_forward_extremities st' "!r:a" = Ok (bset_iter (list_to_set ["$b"; "$a"; "$b"])).
Proof.
  destruct (forward_extremities_exact no_rooms "!r:a" ["$b"; "$a"; "$b"]) as (st' & Hs & Hg & _).
  - done.
  - by repeat constructor.
  - exists st'. exact (conj Hs Hg).
Defined.
End states_witnesses.
