(* ===== verification/PduId.v ===== *)
(** * Timeline positions ([src/src/core/matrix/pdu/count.rs], [id.rs],
    [raw_id.rs], [src/src/service/rooms/timeline/mod.rs])

    The position of an event in a room's timeline is a [Count], positive for
    events as they arrived and negative for events fetched from before; its
    [RawId] is the key of the event in the table.  A [u64] is an [N], an [i64]
    a [Z]. *)

From S2P Require Import Prelude Bytes DbCodec DbMap.

(** ** Counts *)

Inductive Count := Normal (n : N) | Backfilled (z : Z).

#[export] Instance count_eq_dec : EqDecision Count.
Proof. solve_decision. Defined.

Inductive Direction := Forward | Backward.

(** [as u64] *)
Definition u64_from_i64 (z : Z) : N := Z.to_N (z mod 2 ^ 64).

Definition in_i64 (z : Z) : bool := (I64_MIN <=? z)%Z && (z <=? I64_MAX)%Z.

Definition from_signed (z : Z) : Count := if (z <=? 0)%Z then Backfilled z else Normal (Z.to_N z).
Definition from_unsigned (n : N) : Count := from_signed (i64_from_u64 n).

Definition into_unsigned (c : Count) : N := match c with Normal n => n | Backfilled z => u64_from_i64 z end.
Definition into_signed (c : Count) : Z := match c with Normal n => i64_from_u64 n | Backfilled z => z end.
Definition into_normal (c : Count) : Count := match c with Normal n => Normal n | Backfilled _ => Normal 0 end.

Definition count_to_be_bytes (c : Count) : string := u64_to_be_bytes (into_unsigned c).

Definition checked_add (c : Count) (add : N) : option Count :=
  match c with
  | Normal n => if (n + add <=? U64_MAX)%N then Some (Normal (n + add)) else None
  | Backfilled z => let s := (z + i64_from_u64 add)%Z in if in_i64 s then Some (Backfilled s) else None
  end.

Definition checked_sub (c : Count) (sub : N) : option Count :=
  match c with
  | Normal n => if (sub <=? n)%N then Some (Normal (n - sub)) else None
  | Backfilled z => let s := (z - i64_from_u64 sub)%Z in if in_i64 s then Some (Backfilled s) else None
  end.

Definition checked_inc (c : Count) (dir : Direction) : option Count :=
  match dir with Forward => checked_add c 1 | Backward => checked_sub c 1 end.

Definition clamp_i64 (z : Z) : Z := Z.max I64_MIN (Z.min z I64_MAX).

Definition saturating_add (c : Count) (add : N) : Count :=
  match c with
  | Normal n => Normal (u64_saturating_add n add)
  | Backfilled z => Backfilled (clamp_i64 (z + i64_from_u64 add))
  end.

Definition saturating_sub (c : Count) (sub : N) : Count :=
  match c with
  | Normal n => Normal (n - sub)
  | Backfilled z => Backfilled (clamp_i64 (z - i64_from_u64 sub))
  end.

Definition saturating_inc (c : Count) (dir : Direction) : Count :=
  match dir with Forward => saturating_add c 1 | Backward => saturating_sub c 1 end.

Definition count_min : Count := Backfilled I64_MIN.
Definition count_max : Count := Normal (Z.to_N I64_MAX).

Definition count_cmp (c d : Count) : comparison := Z.compare (into_signed c) (into_signed d).

Definition count_from_str (token : string) : option Count := from_signed <$> parse_i64 token.

(** ** Identifiers *)

Record Id := mkId { id_shortroomid : N; id_count : Count }.

Inductive RawId := RawNormal (raw : string) | RawBackfilled (raw : string).

Definition INT_LEN : nat := 8.
Definition NORMAL_LEN : nat := 16.
Definition BACKFILLED_LEN : nat := 24.

Definition as_bytes (r : RawId) : string := match r with RawNormal raw | RawBackfilled raw => raw end.

Definition raw_shortroomid (r : RawId) : string := str_take INT_LEN (as_bytes r).
Definition raw_count (r : RawId) : string :=
  match r with
  | RawNormal raw => str_take INT_LEN (str_drop INT_LEN raw)
  | RawBackfilled raw => str_take INT_LEN (str_drop (INT_LEN * 2) raw)
  end.

Definition id_from_raw (r : RawId) : Id := mkId (be_decode (raw_shortroomid r)) (from_unsigned (be_decode (raw_count r))).

Definition raw_from_id (id : Id) : RawId :=
  match id_count id with
  | Normal n => RawNormal (u64_to_be_bytes (id_shortroomid id) +:+ u64_to_be_bytes n)
  | Backfilled z =>
      RawBackfilled (u64_to_be_bytes (id_shortroomid id) +:+ u64_to_be_bytes 0 +:+ u64_to_be_bytes (u64_from_i64 z))
  end.

(** Other lengths panic. *)
Definition raw_from_bytes (id : string) : option RawId :=
  if (String.length id =? NORMAL_LEN)%nat then Some (RawNormal id)
  else if (String.length id =? BACKFILLED_LEN)%nat then Some (RawBackfilled id)
  else None.

Definition is_room_eq (r s : RawId) : bool := String.eqb (raw_shortroomid r) (raw_shortroomid s).
Definition pdu_count (r : RawId) : Count := id_count (id_from_raw r).

(** ** Moving along a timeline *)

Section timeline.
Context `{Engine}.

Definition pdu_count_to_id (shortroomid : N) (count : Count) (dir : Direction) : RawId :=
  raw_from_id (mkId shortroomid (saturating_inc count dir)).

(** The first key, if it is one of the room. *)
Definition first_in_room (from : RawId) (keys : list string) : Result DbError Count :=
  match keys with
  | [] => Err NotFound
  | key :: _ =>
      let? raw := ok_or (Panicked InvalidLength) (raw_from_bytes key) in
      if is_room_eq raw from then Ok (pdu_count raw) else Err NotFound
  end.

Definition prev_timeline_count (pduid_pdu : Table) (before : Id) : Result DbError Count :=
  let from := pdu_count_to_id (id_shortroomid before) (id_count before) Backward in
  first_in_room from (rev_raw_keys_from pduid_pdu (as_bytes from)).

Definition next_timeline_count (pduid_pdu : Table) (after : Id) : Result DbError Count :=
  let from := pdu_count_to_id (id_shortroomid after) (id_count after) Forward in
  first_in_room from (raw_keys_from pduid_pdu (as_bytes from)).
End timeline.

(** ** Keys and their order *)

Definition valid_count (c : Count) : bool :=
  match c with
  | Normal n => (1 <=? n)%N && (n <=? Z.to_N I64_MAX)%N
  | Backfilled z => (I64_MIN <=? z)%Z && (z <? 0)%Z
  end.

Definition valid_id (id : Id) : bool := (id_shortroomid id <=? U64_MAX)%N && valid_count (id_count id).

(** What follows the room in a key. *)
Definition words (c : Count) : string :=
  match c with
  | Normal n => u64_to_be_bytes n
  | Backfilled z => u64_to_be_bytes 0 +:+ u64_to_be_bytes (u64_from_i64 z)
  end.

Definition key_of (r : N) (c : Count) : string := as_bytes (raw_from_id (mkId r c)).

Lemma key_of_words r c : key_of r c = u64_to_be_bytes r +:+ words c.
Proof. by destruct c. Qed.

Lemma length_u64 n : String.length (u64_to_be_bytes n) = 8.
Proof. apply length_be_encode. Qed.

Lemma compare_append a b s t :
  String.length a = String.length b →
  String.compare (a +:+ s) (b +:+ t) = match String.compare a b with Eq => String.compare s t | o => o end.
Proof.
  revert b. induction a as [|c a IH]; intros [|d b] HL; simplify_eq/=; [done|].
  rewrite (IH b) by done. by destruct (Ascii.compare c d).
Qed.

Lemma compare_u64 a b :
  (a <= U64_MAX)%N → (b <= U64_MAX)%N → String.compare (u64_to_be_bytes a) (u64_to_be_bytes b) = N.compare a b.
Proof.
  intros Ha%u64_width Hb%u64_width. unfold u64_to_be_bytes.
  rewrite be_decode_compare by (by rewrite !length_be_encode). by rewrite !be_decode_encode.
Qed.

Lemma compare_word a b s t :
  (a <= U64_MAX)%N → (b <= U64_MAX)%N →
  String.compare (u64_to_be_bytes a +:+ s) (u64_to_be_bytes b +:+ t)
  = match N.compare a b with Eq => String.compare s t | o => o end.
Proof. intros Ha Hb. rewrite compare_append by (by rewrite !length_u64). by rewrite compare_u64. Qed.

Lemma negative_word z : (I64_MIN <= z < 0)%Z → Z.of_N (u64_from_i64 z) = (z + 2 ^ 64)%Z.
Proof.
  unfold u64_from_i64, I64_MIN. intros Hz. rewrite <-(Z_mod_plus_full z 1), Z.mod_small by lia. lia.
Qed.

Lemma normal_signed n : (n <= Z.to_N I64_MAX)%N → i64_from_u64 n = Z.of_N n.
Proof. unfold i64_from_u64, I64_MAX. intros Hn. destruct (N.ltb_spec n (2 ^ 63)); lia. Qed.

Lemma valid_count_spec c :
  valid_count c = true →
  match c with
  | Normal n => (1 <= n <= Z.to_N I64_MAX)%N ∧ into_signed c = Z.of_N n
  | Backfilled z => (I64_MIN <= z < 0)%Z ∧ Z.of_N (u64_from_i64 z) = (z + 2 ^ 64)%Z
  end.
Proof.
  destruct c as [n|z]; cbn [valid_count into_signed]; intros [H1 H2]%andb_prop.
  - apply N.leb_le in H1, H2. split; [done|by apply normal_signed].
  - apply Z.leb_le in H1. apply Z.ltb_lt in H2. split; [done|by apply negative_word].
Qed.

Lemma signed_inj c d : valid_count c = true → valid_count d = true → into_signed c = into_signed d → c = d.
Proof.
  intros Hc%valid_count_spec Hd%valid_count_spec E. destruct c as [n|z], d as [m|w]; cbn in *; f_equal; lia.
Qed.

Lemma words_compare c d :
  valid_count c = true → valid_count d = true → String.compare (words c) (words d) = count_cmp c d.
Proof.
  intros Hc%valid_count_spec Hd%valid_count_spec. unfold count_cmp, U64_MAX, I64_MAX, I64_MIN in *.
  rewrite <-(append_nil_r (words c)), <-(append_nil_r (words d)).
  destruct c as [n|z], d as [m|w]; cbn [words]; rewrite <-?append_assoc; destruct Hc as [Hc Ec], Hd as [Hd Ed].
  - rewrite Ec, Ed, compare_word by (unfold U64_MAX; lia). rewrite N2Z.inj_compare. by destruct (n ?= m)%N.
  - rewrite Ec, compare_word by (unfold U64_MAX; lia). cbn [into_signed].
    rewrite (proj2 (N.compare_gt_iff n 0)) by lia. symmetry. apply Z.compare_gt_iff. lia.
  - rewrite Ed, compare_word by (unfold U64_MAX; lia). cbn [into_signed].
    rewrite (proj2 (N.compare_lt_iff 0 m)) by lia. symmetry. apply Z.compare_lt_iff. lia.
  - rewrite !compare_word by (unfold U64_MAX; lia). rewrite N.compare_refl, <-N2Z.inj_compare, Ec, Ed. cbn [into_signed].
    destruct (Z.compare_spec z w), (Z.compare_spec (z + 2 ^ 64) (w + 2 ^ 64)); try done; lia.
Qed.

Lemma raw_from_key r c : raw_from_bytes (key_of r c) = Some (raw_from_id (mkId r c)).
Proof.
  unfold raw_from_bytes. rewrite key_of_words, length_append, length_u64.
  destruct c as [n|z]; cbn [words]; [by rewrite length_u64|]. by rewrite length_append, !length_u64.
Qed.

Lemma room_of_raw r c : raw_shortroomid (raw_from_id (mkId r c)) = u64_to_be_bytes r.
Proof. unfold raw_shortroomid. fold (key_of r c). rewrite key_of_words. apply be_take. Qed.

Lemma id_of_raw id : valid_id id = true → id_from_raw (raw_from_id id) = id.
Proof.
  destruct id as [r c]. unfold valid_id. cbn. intros [Hr%N.leb_le Hc%valid_count_spec]%andb_prop.
  unfold id_from_raw. rewrite room_of_raw. unfold u64_to_be_bytes at 1.
  rewrite be_decode_encode by (apply u64_width; lia). f_equal.
  unfold from_unsigned, from_signed, raw_count, INT_LEN, raw_from_id, U64_MAX, I64_MAX, I64_MIN in *.
  destruct c as [n|z]; cbn [id_count id_shortroomid] in *; unfold u64_to_be_bytes.
  - rewrite be_drop, be_take_all, be_decode_encode by (apply u64_width; unfold U64_MAX; lia).
    destruct Hc as [Hn Hs]. cbn in Hs. rewrite Hs. destruct (Z.leb_spec (Z.of_N n) 0); [lia|]. f_equal. lia.
  - change (8 * 2) with (8 + 8). rewrite append_assoc.
    replace (8 + 8) with (String.length (be_encode 8 r +:+ be_encode 8 0)) by (by rewrite length_append, !length_be_encode).
    rewrite str_drop_append, be_take_all, be_decode_encode by (apply u64_width; unfold U64_MAX; lia).
    destruct Hc as [Hz Hs]. unfold i64_from_u64. destruct (N.ltb_spec (u64_from_i64 z) (2 ^ 63)); [lia|].
    rewrite Hs. replace (z + 2 ^ 64 - 2 ^ 64)%Z with z by lia. destruct (Z.leb_spec z 0); [done|lia].
Qed.

(** ** Scans along a timeline *)

Section neighbours.
Context `{Engine}.
Implicit Types (tb : Table) (r : N) (c d e : Count) (dir : Direction) (k w : string).

Definition in_timeline tb r c : Prop := is_Some (table_rows tb !! key_of r c).

(** Every key of the table is one of a valid position. *)
Definition keyed_by_position tb : Prop :=
  ∀ k, is_Some (table_rows tb !! k) → ∃ r c, valid_id (mkId r c) = true ∧ k = key_of r c.

(** What comes at or after, in the direction of a scan. *)
Definition onward dir k k' : Prop := match dir with Forward => key_le k k' | Backward => key_le k' k end.
Definition ahead dir c d : Prop :=
  match dir with Forward => (into_signed c < into_signed d)%Z | Backward => (into_signed d < into_signed c)%Z end.

Definition scan dir tb k : list string :=
  match dir with Forward => raw_keys_from tb k | Backward => rev_raw_keys_from tb k end.

Lemma elem_of_scan dir tb k k' : k' ∈ scan dir tb k ↔ is_Some (table_rows tb !! k') ∧ onward dir k k'.
Proof.
  unfold scan, raw_keys_from, rev_raw_keys_from, is_Some. autorewrite with engine.
  destruct dir; cbn; rewrite list_elem_of_fmap; setoid_rewrite <-elem_of_btree_iter; split.
  - intros ([? v] & -> & [Hle Hin]%list_elem_of_filter). eauto.
  - intros [[v Hv] Hle]. exists (k', v). by rewrite list_elem_of_filter.
  - intros ([? v] & -> & Hin). rewrite elem_of_reverse, list_elem_of_filter in Hin. destruct Hin. eauto.
  - intros [[v Hv] Hle]. exists (k', v). by rewrite elem_of_reverse, list_elem_of_filter.
Qed.

Lemma reverse_flip_sorted {A} (R : relation A) (l : list A) : StronglySorted R l → StronglySorted (flip R) (reverse l).
Proof.
  induction 1 as [|x l HS IH Hall]; [constructor|]. rewrite reverse_cons. apply StronglySorted_app_2; [|done|by repeat constructor].
  intros y z Hy ->%list_elem_of_singleton. rewrite elem_of_reverse in Hy. rewrite Forall_forall in Hall. by apply (Hall y).
Qed.

Lemma scan_sorted dir tb k : StronglySorted (onward dir) (scan dir tb k).
Proof.
  unfold scan, raw_keys_from, rev_raw_keys_from. autorewrite with engine. destruct dir.
  - apply sorted_fst, StronglySorted_filter, btree_iter_sorted.
  - rewrite fmap_reverse. apply (reverse_flip_sorted key_le), sorted_fst, StronglySorted_filter, btree_iter_sorted.
Qed.

Lemma onward_room dir r r' w w' :
  (r <= U64_MAX)%N → (r' <= U64_MAX)%N →
  onward dir (u64_to_be_bytes r +:+ w) (u64_to_be_bytes r' +:+ w')
  ↔ match dir with Forward => (r < r')%N | Backward => (r' < r)%N end ∨ r = r' ∧ onward dir w w'.
Proof.
  intros Hr Hr'. destruct dir; unfold onward; rewrite !key_le_compare, compare_word by done.
  - destruct (N.compare_spec r r') as [->|Hlt|Hlt].
    + split; [by right|]. intros [Hlt|[_ Hle]]; [lia|done].
    + split; [by left|done].
    + split; [done|]. intros [Hlt'|[-> _]]; lia.
  - destruct (N.compare_spec r' r) as [->|Hlt|Hlt].
    + split; [by right|]. intros [Hlt|[_ Hle]]; [lia|done].
    + split; [by left|done].
    + split; [done|]. intros [Hlt'|[-> _]]; lia.
Qed.

(** The first position of a room at or after a key, in a direction. *)
Lemma first_in_room_spec dir tb r from w :
  keyed_by_position tb → (r <= U64_MAX)%N → as_bytes from = u64_to_be_bytes r +:+ w →
  match first_in_room from (scan dir tb (as_bytes from)) with
  | Ok d =>
      valid_count d = true ∧ in_timeline tb r d ∧ onward dir w (words d)
      ∧ ∀ e, valid_count e = true → in_timeline tb r e → onward dir w (words e) → onward dir (words d) (words e)
  | Err err => err = NotFound ∧ ∀ e, valid_count e = true → in_timeline tb r e → ¬ onward dir w (words e)
  end.
Proof.
  intros Hk Hr Hfrom. pose proof (scan_sorted dir tb (as_bytes from)) as HS.
  assert (∀ e, in_timeline tb r e → onward dir w (words e) → key_of r e ∈ scan dir tb (as_bytes from)) as Hin.
  { intros e He Hw. apply elem_of_scan. split; [done|]. rewrite Hfrom, key_of_words. apply onward_room; [done..|by right]. }
  pose proof (elem_of_scan dir tb (as_bytes from)) as Hscan.
  destruct (scan dir tb (as_bytes from)) as [|k l]; cbn [first_in_room].
  { split; [done|]. intros e _ He Hw. by apply (Hin e He), elem_of_nil in Hw. }
  destruct (proj1 (Hscan k)) as [Hrow Hon]; [by left|]. apply Hk in Hrow as Hpos.
  destruct Hpos as (r' & d & Hv & ->). rewrite raw_from_key. cbn [ok_or].
  unfold valid_id in Hv. cbn in Hv. apply andb_prop in Hv as [Hr'%N.leb_le Hd].
  rewrite Hfrom, key_of_words, onward_room in Hon by done.
  apply StronglySorted_inv in HS as [_ Hall]. rewrite Forall_forall in Hall.
  assert (∀ e, in_timeline tb r e → onward dir w (words e) →
    match dir with Forward => (r' < r)%N | Backward => (r < r')%N end ∨ r' = r ∧ onward dir (words d) (words e)) as Hleast.
  { intros e He Hw. apply (onward_room dir r' r (words d) (words e)); [done..|]. rewrite <-!key_of_words.
    apply (Hin e He) in Hw as [->|Hl]%elem_of_cons; [|by apply Hall]. destruct dir; apply key_le_compare; by rewrite string_compare_refl. }
  unfold is_room_eq. rewrite room_of_raw. unfold raw_shortroomid at 1, INT_LEN. rewrite Hfrom.
  unfold u64_to_be_bytes at 2. rewrite be_take. fold (u64_to_be_bytes r).
  destruct (String.eqb_spec (u64_to_be_bytes r') (u64_to_be_bytes r)) as [E|E].
  - apply be_encode_inj in E as ->; [|by apply u64_width..]. unfold pdu_count. rewrite id_of_raw.
    2:{ unfold valid_id. cbn. apply andb_true_intro. split; [by apply N.leb_le|done]. }
    cbn. split_and!; [done|done|destruct Hon as [Hlt|[_ ?]]; [destruct dir; lia|done]|].
    intros e _ He Hw. destruct (Hleast e He Hw) as [Hlt|[_ ?]]; [destruct dir; lia|done].
  - assert (r ≠ r') as Hne by congruence. split; [done|]. intros e _ He Hw.
    destruct (Hleast e He Hw) as [Hlt|[<- _]]; [|done]. destruct Hon as [Hlt'|[? _]]; [|done]. destruct dir; lia.
Qed.

(** A count whose successor in a direction is the next integer. *)
Definition interior dir c : bool :=
  valid_count c &&
  match dir, c with
  | Forward, Normal n => (n <? Z.to_N I64_MAX)%N
  | Forward, Backfilled z => (z <? -1)%Z
  | Backward, Normal n => (1 <? n)%N
  | Backward, Backfilled z => (I64_MIN <? z)%Z
  end.

Lemma interior_step dir c :
  interior dir c = true →
  valid_count c = true ∧ valid_count (saturating_inc c dir) = true
  ∧ into_signed (saturating_inc c dir) = (into_signed c + match dir with Forward => 1 | Backward => -1 end)%Z.
Proof.
  unfold interior. intros [Hv Hb]%andb_prop. pose proof (valid_count_spec c Hv) as Hs. split; [done|].
  unfold I64_MAX, I64_MIN in *.
  assert (∀ d, match d with Normal n => (1 <= n <= Z.to_N I64_MAX)%N | Backfilled z => (I64_MIN <= z < 0)%Z end → valid_count d = true) as Hval.
  { intros [n|z]; cbn; intros Hr; apply andb_true_intro; split;
      rewrite ?N.leb_le, ?Z.leb_le, ?Z.ltb_lt; lia. }
  destruct dir, c as [n|z]; cbn [saturating_inc saturating_add saturating_sub]; destruct Hs as [Hs1 Hs2];
    try apply N.ltb_lt in Hb; try apply Z.ltb_lt in Hb; unfold u64_saturating_add, clamp_i64, U64_MAX, I64_MAX, I64_MIN in *;
    change (i64_from_u64 1) with 1%Z.
  - split; [apply Hval; unfold I64_MAX; lia|]. rewrite Hs2. cbn [into_signed]. rewrite normal_signed by (unfold I64_MAX; lia). lia.
  - split; [apply Hval; unfold I64_MIN; lia|]. cbn [into_signed]. lia.
  - split; [apply Hval; unfold I64_MAX; lia|]. rewrite Hs2. cbn [into_signed]. rewrite normal_signed by (unfold I64_MAX; lia). lia.
  - split; [apply Hval; unfold I64_MIN; lia|]. cbn [into_signed]. lia.
Qed.

Lemma onward_words dir c d :
  valid_count c = true → valid_count d = true →
  onward dir (words c) (words d)
  ↔ match dir with Forward => (into_signed c <= into_signed d)%Z | Backward => (into_signed d <= into_signed c)%Z end.
Proof. intros Hc Hd. destruct dir; unfold onward; rewrite key_le_compare, words_compare by done; done. Qed.

(** The least position ahead, in a direction. *)
Lemma neighbour dir tb r c :
  keyed_by_position tb → (r <= U64_MAX)%N → interior dir c = true →
  let from := pdu_count_to_id r c dir in
  match first_in_room from (scan dir tb (as_bytes from)) with
  | Ok d =>
      in_timeline tb r d ∧ ahead dir c d
      ∧ ∀ e, valid_count e = true → in_timeline tb r e → ahead dir c e → e = d ∨ ahead dir d e
  | Err err => err = NotFound ∧ ∀ e, valid_count e = true → in_timeline tb r e → ¬ ahead dir c e
  end.
Proof.
  intros Hk Hr Hi. destruct (interior_step dir c Hi) as (Hc & Hc' & Hs). cbn zeta. set (c' := saturating_inc c dir) in *.
  assert (∀ e, valid_count e = true → onward dir (words c') (words e) ↔ ahead dir c e) as Heq.
  { intros e He. rewrite onward_words by done. unfold ahead. destruct dir; lia. }
  pose proof (first_in_room_spec dir tb r (pdu_count_to_id r c dir) (words c') Hk Hr (key_of_words r c')) as Hf.
  destruct (first_in_room _ _) as [d|err].
  - destruct Hf as (Hd & Hin & Hon & Hleast). split_and!; [done|by apply Heq|]. intros e He Hine Ha.
    apply (Heq e He), (Hleast e He Hine) in Ha. rewrite onward_words in Ha by done.
    destruct (decide (into_signed e = into_signed d)) as [E|E]; [left|right; unfold ahead; destruct dir; lia].
    by apply signed_inj.
  - destruct Hf as [-> Hf]. split; [done|]. intros e He Hine Ha%(Heq e He). by apply (Hf e).
Qed.
End neighbours.

(** ** Properties *)

(** The key of a timeline position reads back as that position, and the
    bytes of keys order them by room and then by count, backfilled events
    before the ones that arrived, so a scan of the table walks each room's
    timeline in order. *)
Theorem raw_id_exact (id id' : Id) :
  valid_id id = true → valid_id id' = true →
  raw_from_bytes (as_bytes (raw_from_id id)) = Some (raw_from_id id)
  ∧ id_from_raw (raw_from_id id) = id
  ∧ String.compare (as_bytes (raw_from_id id)) (as_bytes (raw_from_id id'))
    = match N.compare (id_shortroomid id) (id_shortroomid id') with
      | Eq => count_cmp (id_count id) (id_count id')
      | o => o
      end.
Proof.
  intros Hid Hid'. split_and!; [by destruct id; apply raw_from_key|by apply id_of_raw|].
  destruct id as [r c], id' as [r' c']. fold (key_of r c) (key_of r' c'). rewrite !key_of_words.
  apply andb_prop in Hid as [Hr%N.leb_le Hc], Hid' as [Hr'%N.leb_le Hc']. cbn in *.
  rewrite compare_word by done. by rewrite words_compare.
Qed.

Lemma raw_id_exact_witness :
  raw_from_bytes (as_bytes (raw_from_id (mkId 7 (Backfilled (-3))))) = Some (raw_from_id (mkId 7 (Backfilled (-3))))
  ∧ id_from_raw (raw_from_id (mkId 7 (Backfilled (-3)))) = mkId 7 (Backfilled (-3))
  ∧ String.compare (as_bytes (raw_from_id (mkId 7 (Backfilled (-3))))) (as_bytes (raw_from_id (mkId 7 (Normal 2)))) = Lt.
Proof. exact (raw_id_exact (mkId 7 (Backfilled (-3))) (mkId 7 (Normal 2)) eq_refl eq_refl). Defined.

(** The next and the previous position of a room are the nearest ones in
    its timeline, past the boundary between backfilled and arrived events, and
    "not found" is answered exactly when there is none; the count asked from
    need not be in the room. *)
Theorem timeline_neighbours `{Engine} (tb : Table) (r : N) (c : Count) :
  keyed_by_position tb → (r <= U64_MAX)%N → interior Forward c = true → interior Backward c = true →
  match next_timeline_count tb (mkId r c) with
  | Ok d =>
      in_timeline tb r d ∧ ahead Forward c d
      ∧ ∀ e, valid_count e = true → in_timeline tb r e → ahead Forward c e → e = d ∨ ahead Forward d e
  | Err err => err = NotFound ∧ ∀ e, valid_count e = true → in_timeline tb r e → ¬ ahead Forward c e
  end
  ∧ match prev_timeline_count tb (mkId r c) with
    | Ok d =>
        in_timeline tb r d ∧ ahead Backward c d
        ∧ ∀ e, valid_count e = true → in_timeline tb r e → ahead Backward c e → e = d ∨ ahead Backward d e
    | Err err => err = NotFound ∧ ∀ e, valid_count e = true → in_timeline tb r e → ¬ ahead Backward c e
    end.
Proof.
  intros Hk Hr Hf Hb. split.
  - exact (neighbour Forward tb r c Hk Hr Hf).
  - exact (neighbour Backward tb r c Hk Hr Hb).
Qed.

#[local] Existing Instance ordered_engine.

Module PduIdExample.
(** A room with one backfilled event and one that arrived. *)
Definition timeline : gmap string string := {[key_of 7 (Backfilled (-3)) := "a"; key_of 7 (Normal 9) := "b"]}.

Lemma timeline_keyed : keyed_by_position (H := ordered_engine) timeline.
Proof.
  intros k [v Hv]. change (timeline !! k = Some v) in Hv. unfold timeline in Hv.
  apply lookup_insert_Some in Hv as [[<- _]|[_ Hv]].
  - exists 7%N, (Backfilled (-3)). split; reflexivity.
  - apply lookup_singleton_Some in Hv as [<- _]. exists 7%N, (Normal 9). split; reflexivity.
Qed.
End PduIdExample.

Lemma timeline_neighbours_witness :
  next_timeline_count PduIdExample.timeline (mkId 7 (Backfilled (-2))) = Ok (Normal 9)
  ∧ match prev_timeline_count PduIdExample.timeline (mkId 7 (Backfilled (-2))) with
    | Ok d => in_timeline (H := ordered_engine) PduIdExample.timeline 7 d ∧ ahead Backward (Backfilled (-2)) d
    | Err _ => False
    end.
Proof.
  split; [vm_compute; reflexivity|].
  pose proof (timeline_neighbours (H := ordered_engine) PduIdExample.timeline 7 (Backfilled (-2))
    PduIdExample.timeline_keyed ltac:(unfold U64_MAX; lia) eq_refl eq_refl) as [_ Hp].
  assert (prev_timeline_count PduIdExample.timeline (mkId 7 (Backfilled (-2))) = Ok (Backfilled (-3))) as E by (vm_compute; reflexivity).
  rewrite E in Hp |- *. exact (conj (proj1 Hp) (proj1 (proj2 Hp))).
Defined.

(** The keys of zero sort before those of all valid counts. *)
Lemma zero_first e w :
  valid_count e = true → w = words (Backfilled 0) ∨ w = words (Normal 0) → String.compare w (words e) = Lt.
Proof.
  assert (0 <= U64_MAX)%N as H0 by done. intros He%valid_count_spec Hw.
  assert (∃ t, w = u64_to_be_bytes 0 +:+ t ∧ (t = "" ∨ t = u64_to_be_bytes 0)) as (t & -> & Ht).
  { destruct Hw as [->| ->]; cbn [words]; [by eexists; eauto|]. exists "". rewrite append_nil_r. auto. }
  destruct e as [n|z]; cbn [words]; destruct He as [He Hz]; unfold I64_MAX, I64_MIN in *.
  - rewrite <-(append_nil_r (u64_to_be_bytes n)), compare_word by (unfold U64_MAX in *; lia).
    by rewrite (proj2 (N.compare_lt_iff 0 n)) by lia.
  - rewrite compare_word, N.compare_refl by done. rewrite <-(append_nil_r (u64_to_be_bytes (u64_from_i64 z))).
    destruct Ht as [->| ->]; [done|]. rewrite <-(append_nil_r (u64_to_be_bytes 0)), compare_word by (unfold U64_MAX in *; lia).
    by rewrite (proj2 (N.compare_lt_iff 0 (u64_from_i64 z))) by lia.
Qed.

(** At the boundary itself the successor is not the next position: from
    the newest backfilled count, -1, a forward scan starts over at the oldest
    event of the room, because the key of zero sorts before every negative
    count; and from the first arrived count, 1, a backward scan finds nothing
    although the room has backfilled events. *)
Theorem timeline_seam `{Engine} (tb : Table) (r : N) (c : Count) :
  keyed_by_position tb → (r <= U64_MAX)%N → valid_count c = true → in_timeline tb r c →
  (∃ d, next_timeline_count tb (mkId r (Backfilled (-1))) = Ok d
     ∧ ∀ e, valid_count e = true → in_timeline tb r e → (into_signed d <= into_signed e)%Z)
  ∧ prev_timeline_count tb (mkId r (Normal 1)) = Err NotFound.
Proof.
  intros Hk Hr Hc Hin.
  split.
  - pose proof (first_in_room_spec Forward tb r _ _ Hk Hr (key_of_words r (Backfilled 0))) as Hf.
    change (next_timeline_count tb (mkId r (Backfilled (-1)))) with
      (first_in_room (raw_from_id (mkId r (Backfilled 0))) (scan Forward tb (as_bytes (raw_from_id (mkId r (Backfilled 0)))))).
    destruct (first_in_room _ _) as [d|err].
    + destruct Hf as (Hd & _ & _ & Hleast). exists d. split; [done|]. intros e He Hine.
      apply (onward_words Forward d e Hd He), Hleast; [done..|]. apply key_le_compare. by rewrite zero_first by auto.
    + destruct Hf as [_ Hf]. destruct (Hf c Hc Hin). apply key_le_compare. by rewrite zero_first by auto.
  - pose proof (first_in_room_spec Backward tb r _ _ Hk Hr (key_of_words r (Normal 0))) as Hf.
    change (prev_timeline_count tb (mkId r (Normal 1))) with
      (first_in_room (raw_from_id (mkId r (Normal 0))) (scan Backward tb (as_bytes (raw_from_id (mkId r (Normal 0)))))).
    destruct (first_in_room _ _) as [d|err]; [|by destruct Hf as [-> _]].
    destruct Hf as (Hd & _ & Hon%key_le_compare & _). pose proof (zero_first d _ Hd (or_intror eq_refl)) as Hl.
    rewrite String.compare_antisym, Hl in Hon. done.
Qed.

Lemma timeline_seam_witness :
  (∃ d, next_timeline_count PduIdExample.timeline (mkId 7 (Backfilled (-1))) = Ok d
     ∧ ∀ e, valid_count e = true → in_timeline (H := ordered_engine) PduIdExample.timeline 7 e → (into_signed d <= into_signed e)%Z)
  ∧ prev_timeline_count PduIdExample.timeline (mkId 7 (Normal 1)) = Err NotFound.
Proof.
  apply (timeline_seam (H := ordered_engine) PduIdExample.timeline 7 (Backfilled (-3)) PduIdExample.timeline_keyed).
  - unfold U64_MAX. lia.
  - reflexivity.
  - exists "a". vm_compute. reflexivity.
Defined.
