(* ===== verification/Scans.v ===== *)
(** * Scans that decode rows ([src/src/database/map/stream_from.rs],
    [keys_from.rs], [rev_keys_from.rs], [stream.rs])

    Services read a run of rows from a key on, decode them, skip what does not
    decode and stop where the rows of another identifier begin.  Many tables
    have keys that end in a number of the global counter, big-endian, so that a
    scan follows the order of writing; [counted_scan] is the law of such scans. *)

From S2P Require Import Prelude Bytes Slices DbCodec DbMap Pairs Counter PduId.

(** ** Operations *)

Section operations.
Context `{Engine, JsonParser}.
Implicit Types (tb : Table).

Definition stream_from_raw tb (p : Ser) : Result DbError (list (string * string)) :=
  let? k := expect (serialize_key p) in Ok (raw_stream_from tb k).
Definition stream_from tb (tk tv : De) (p : Ser) : Result DbError (list (DeValue * DeValue)) :=
  let? rows := stream_from_raw tb p in Ok (ignore_err (deserialize_keyval tk tv <$> rows)).
Definition keys_from_raw tb (p : Ser) : Result DbError (list string) :=
  let? k := expect (serialize_key p) in Ok (raw_keys_from tb k).
Definition keys_from tb (tk : De) (p : Ser) : Result DbError (list DeValue) :=
  let? keys := keys_from_raw tb p in Ok (ignore_err (deserialize_slice tk <$> keys)).
Definition rev_keys_from tb (tk : De) (p : Ser) : Result DbError (list DeValue) :=
  let? keys := rev_keys_from_raw tb p in Ok (ignore_err (deserialize_slice tk <$> keys)).
(** [stream] and [keys], over the whole table. *)
Definition stream_all tb (tk tv : De) : list (DeValue * DeValue) :=
  ignore_err (deserialize_keyval tk tv <$> raw_stream_from tb "").
Definition keys_all tb (tk : De) : list DeValue := ignore_err (deserialize_slice tk <$> raw_keys_from tb "").
End operations.

(** ** Runs of rows *)

Section scans.
Context `{Engine}.
Implicit Types (tb : Table) (dir : Direction) (k : string).

Definition scan_rows dir tb k : list (string * string) :=
  match dir with Forward => raw_stream_from tb k | Backward => rev_raw_stream_from tb k end.

Definition row_onward dir (x y : string * string) : Prop := onward dir x.1 y.1.

Lemma elem_of_scan_rows dir tb k e : e ∈ scan_rows dir tb k ↔ table_rows tb !! e.1 = Some e.2 ∧ onward dir k e.1.
Proof.
  rewrite <-elem_of_btree_iter, <-surjective_pairing. unfold scan_rows, raw_stream_from, rev_raw_stream_from.
  autorewrite with engine. destruct dir; cbn; rewrite ?elem_of_reverse, list_elem_of_filter; tauto.
Qed.

Lemma scan_rows_sorted dir tb k : StronglySorted (row_onward dir) (scan_rows dir tb k).
Proof.
  unfold scan_rows, raw_stream_from, rev_raw_stream_from. autorewrite with engine. destruct dir.
  - apply StronglySorted_filter, btree_iter_sorted.
  - apply (reverse_flip_sorted entry_le), StronglySorted_filter, btree_iter_sorted.
Qed.

Lemma scan_rows_NoDup dir tb k : NoDup (scan_rows dir tb k).*1.
Proof.
  unfold scan_rows, raw_stream_from, rev_raw_stream_from. autorewrite with engine.
  assert (∀ P `{!∀ e, Decision (P e)}, NoDup (filter P (btree_iter (table_rows tb))).*1) as Hf.
  { intros P ?. eapply sublist_NoDup; [apply (btree_keys_NoDup (table_rows tb))|]. apply fmap_sublist, sublist_filter. }
  destruct dir; [apply Hf|]. rewrite fmap_reverse, reverse_Permutation. apply Hf.
Qed.

Lemma rows_apart dir (l : list (string * string)) :
  StronglySorted (row_onward dir) l → NoDup l.*1 → StronglySorted (λ e e', row_onward dir e e' ∧ e.1 ≠ e'.1) l.
Proof.
  induction 1 as [|e l Hs IH Hall]; intros ND; constructor; apply NoDup_cons in ND as [Hne ND]; [by apply IH|].
  rewrite Forall_forall in *. intros e' He'. split; [by apply Hall|]. intros E. apply Hne. rewrite E. by apply list_elem_of_fmap_2.
Qed.

Lemma scan_prefix dir (p k x y : string) :
  String.prefix p k = true → onward dir k x → onward dir x y → String.prefix p y = true → String.prefix p x = true.
Proof.
  intros Hk Hx Hy Hp. pose proof (prefix_le _ _ Hk). destruct dir; unfold onward in *.
  - apply (prefix_convex p x y); [|done..]. by trans k.
  - apply (prefix_convex p x k); [|done..]. apply prefix_le in Hp. by trans y.
Qed.

(** What a scan reads and keeps: the rows that decode to something wanted, where
    no unwanted one comes before a wanted one. *)
Lemma typed_scan {T} dir tb from (read : string * string → option T) (q : T → bool) :
  (∀ e e' x x', e ∈ scan_rows dir tb from → e' ∈ scan_rows dir tb from → row_onward dir e e' →
    read e = Some x → read e' = Some x' → q x' = true → q x = true) →
  ∃ rows, Forall2 (λ e x, read e = Some x) rows (take_while q (omap read (scan_rows dir tb from)))
    ∧ StronglySorted (row_onward dir) rows ∧ NoDup rows.*1
    ∧ ∀ e, e ∈ rows ↔ table_rows tb !! e.1 = Some e.2 ∧ onward dir from e.1 ∧ ∃ x, read e = Some x ∧ q x = true.
Proof.
  intros Hq. set (wanted := λ e, match read e with Some x => q x = true | None => False end).
  assert (∀ e, Decision (wanted e)) as Hdec by (intros e; unfold wanted; destruct (read e); apply _).
  exists (filter wanted (scan_rows dir tb from)). split_and!.
  - pose proof (scan_rows_sorted dir tb from) as Hs. revert Hq Hs. generalize (scan_rows dir tb from) as l.
    intros l Hq Hs. induction Hs as [|e l Hs IH Hall]; [constructor|]. cbn [omap list_omap]. rewrite filter_cons.
    assert (∀ e1 e' x x', e1 ∈ l → e' ∈ l → row_onward dir e1 e' → read e1 = Some x → read e' = Some x' → q x' = true → q x = true) as Hq'
      by (intros e1 e' x x' H1 H2; apply Hq; by right).
    destruct (read e) as [x|] eqn:He.
    + cbn [take_while]. destruct (q x) eqn:Hx.
      * rewrite decide_True by (unfold wanted; by rewrite He). constructor; [done|]. by apply IH.
      * rewrite decide_False by (unfold wanted; rewrite He; congruence).
        replace (filter wanted l) with ([] : list (string * string)); [constructor|]. symmetry. apply filter_none.
        intros e' He'. unfold wanted. destruct (read e') as [x'|] eqn:Hr; [|tauto]. intros Hx'.
        rewrite Forall_forall in Hall. pose proof (Hq e e' x x' ltac:(by left) ltac:(by right) (Hall e' He') He Hr Hx'). congruence.
    + rewrite decide_False by (unfold wanted; rewrite He; tauto). by apply IH.
  - apply StronglySorted_filter, scan_rows_sorted.
  - eapply sublist_NoDup; [apply (scan_rows_NoDup dir tb from)|]. apply fmap_sublist, sublist_filter.
  - intros e. rewrite list_elem_of_filter, elem_of_scan_rows. unfold wanted. destruct (read e) as [x|]; naive_solver.
Qed.
End scans.

(** ** Keys that end in a number *)

Definition counted (p : string) (n : N) (s : string) : string := p +:+ u64_to_be_bytes n +:+ s.

(** Further on in a direction, for numbers. *)
Definition later (dir : Direction) (n m : N) : Prop := match dir with Forward => (n < m)%N | Backward => (m < n)%N end.
Definition not_before (dir : Direction) (n m : N) : Prop := match dir with Forward => (n <= m)%N | Backward => (m <= n)%N end.

Lemma onward_append dir p k k' : onward dir (p +:+ k) (p +:+ k') ↔ onward dir k k'.
Proof. destruct dir; apply append_le. Qed.

Lemma counted_onward dir p n m s t :
  (n <= U64_MAX)%N → (m <= U64_MAX)%N →
  onward dir (counted p n s) (counted p m t) ↔ later dir n m ∨ n = m ∧ onward dir s t.
Proof. intros Hn Hm. unfold counted. rewrite onward_append, onward_room by done. by destruct dir. Qed.

Lemma counted_inj p n m s t :
  (n <= U64_MAX)%N → (m <= U64_MAX)%N → counted p n s = counted p m t → n = m ∧ s = t.
Proof.
  unfold counted. intros Hn Hm [_ E]%append_inj_l; [|done]. apply append_inj_l in E as [E ->]; [|by rewrite !length_u64].
  split; [|done]. apply be_encode_inj in E; [done|by apply u64_width..].
Qed.

Lemma counted_prefix p n s : String.prefix p (counted p n s) = true.
Proof. apply prefix_append. Qed.

Section counted_scans.
Context `{Engine} {P V : Type}.
Implicit Types (tb : Table) (dir : Direction).

(** Of the rows whose key begins with [p], one identifier, those on from a
    number and within a bound, in the order of the numbers. *)
Lemma counted_scan dir tb (p : string) (n0 : N) (s0 : string)
    (read : string * string → option (P * N * V)) (same : P → bool) (bound : N → bool) :
  (n0 <= U64_MAX)%N →
  (∀ n m, not_before dir n m → bound m = true → bound n = true) →
  (∀ e k n v, table_rows tb !! e.1 = Some e.2 → read e = Some (k, n, v) →
    (n <= U64_MAX)%N ∧ (same k = true ↔ String.prefix p e.1 = true) ∧ (same k = true → ∃ s, e.1 = counted p n s)) →
  ∃ rows, Forall2 (λ e x, read e = Some x) rows
      (take_while (λ x, same x.1.1 && bound x.1.2) (omap read (scan_rows dir tb (counted p n0 s0))))
    ∧ NoDup rows.*1 ∧ StronglySorted (row_onward dir) rows
    ∧ (∀ e, e ∈ rows ↔ table_rows tb !! e.1 = Some e.2 ∧ onward dir (counted p n0 s0) e.1
        ∧ ∃ k n v, read e = Some (k, n, v) ∧ same k = true ∧ bound n = true).
Proof.
  intros Hn0 Hb Hrd.
  destruct (typed_scan dir tb (counted p n0 s0) read (λ x, same x.1.1 && bound x.1.2)) as (rows & Hf & Hs & ND & Hin).
  - intros e e' [[k n] v] [[k' n'] v'] [Hr Ho]%elem_of_scan_rows [Hr' Ho']%elem_of_scan_rows Hon He He'. cbn.
    rewrite !andb_true_iff. intros [Hk' Hb']. destruct (Hrd e k n v Hr He) as (Hn & Hsame & Hkey).
    destruct (Hrd e' k' n' v' Hr' He') as (Hn' & Hsame' & Hkey'). apply Hsame' in Hk' as Hp'.
    assert (same k = true) as Hk.
    { apply Hsame. eapply (scan_prefix dir p); [apply (counted_prefix p n0 s0)|exact Ho|exact Hon|done]. }
    split; [done|]. destruct (Hkey Hk) as [s Es], (Hkey' Hk') as [s' Es']. unfold row_onward in Hon. rewrite Es, Es' in Hon.
    apply counted_onward in Hon; [|done..]. apply (Hb n n'); [|done]. destruct dir; unfold later, not_before in *; lia.
  - exists rows. split_and!; [done..|]. intros e. rewrite Hin. split.
    + intros (Hr & Ho & [[k n] v] & He & Hq). cbn in Hq. apply andb_true_iff in Hq as [? ?]. split_and!; [done..|]. by exists k, n, v.
    + intros (Hr & Ho & k & n & v & He & Hk & Hb'). split_and!; [done..|]. exists (k, n, v). cbn. by rewrite Hk, Hb'.
Qed.
End counted_scans.
