(* ===== verification/Timeline.v ===== *)
(** * The timeline of rooms ([src/src/service/rooms/timeline/mod.rs],
    [pdus.rs], [append.rs], [backfill.rs],
    [src/src/core/matrix/pdu/unsigned.rs])

    Events are stored as JSON text under their position ([PduId]), with an index
    from event ids to positions, one from room and timestamp to counts, and a
    table of outliers: events known but not in a timeline.  [Timeline] is these
    tables with the services they use.  The types an event is read into are a
    parser from JSON text; serde_json is third-party code and the class [PduJson]
    states what is relied on. *)

From S2P Require Import Prelude Bytes Slices DbCodec DbMap Counter Short Compressor RoomStates PduId Scans.

(** The fields of [PduEvent] that are used. *)
Record Pdu := mkPduEvent {
  event_id : string;
  room_id : string;
  sender : string;
  origin_server_ts : N;
  unsigned : option string;
}.

(** Reading and writing JSON: events, and objects with raw values. *)
Class PduJson := {
  pdu_from_json : string → option Pdu;
  map_from_json : string → option (gmap string string);
  map_to_json : gmap string string → string;
  int_to_json : Z → string;
  pdu_from_json_utf8 t p : pdu_from_json t = Some p → utf8_valid t = true;
  map_from_to_json m : map_from_json (map_to_json m) = Some m;
}.

Inductive TimelineError :=
  | Db (e : DbError)
  | CountError (e : CounterError)
  | RoomNotFound
  | NoPdu
  | InvalidJson
  | CountOverflow.

Definition tdb {A} (r : Result DbError A) : Result TimelineError A := map_err Db r.

(** ** [unsigned.rs] *)

Section unsigned.
Context `{PduJson}.

Definition set_unsigned (u : option string) (p : Pdu) : Pdu :=
  mkPduEvent (event_id p) (room_id p) (sender p) (origin_server_ts p) u.

Definition remove_transaction_id (p : Pdu) : Result TimelineError Pdu :=
  match unsigned p with
  | None => Ok p
  | Some u =>
      let? m := ok_or InvalidJson (map_from_json u) in
      Ok (set_unsigned (Some (map_to_json (base.delete "transaction_id" m))) p)
  end.

(** The age may be negative. *)
Definition add_age (now : N) (p : Pdu) : Result TimelineError Pdu :=
  let? m := match unsigned p with None => Ok ∅ | Some u => ok_or InvalidJson (map_from_json u) end in
  let age := (Z.of_N now - Z.of_N (origin_server_ts p))%Z in
  Ok (set_unsigned (Some (map_to_json (<["age" := int_to_json age]> m))) p).
End unsigned.

Fixpoint skip_while {A} (p : A → bool) (l : list A) : list A :=
  match l with
  | [] => []
  | x :: l' => if p x then skip_while p l' else l
  end.

(** ** The service *)

Section timeline.
Context `{Engine, JsonParser, Identifiers, Lru, Digest, PduJson}.

Record Timeline := mkTimeline {
  states : RoomStates;
  pduid_pdu : Table;
  eventid_pduid : Table;
  eventid_outlierpdu : Table;
  roomid_ts_pducount : Table;
}.
Implicit Types (tl : Timeline) (pdu_id : RawId) (json : string).

Definition with_states (st : RoomStates) tl : Timeline :=
  mkTimeline st (pduid_pdu tl) (eventid_pduid tl) (eventid_outlierpdu tl) (roomid_ts_pducount tl).
Definition with_pdus (tb : Table) tl : Timeline :=
  mkTimeline (states tl) tb (eventid_pduid tl) (eventid_outlierpdu tl) (roomid_ts_pducount tl).
Definition with_outliers (tb : Table) tl : Timeline :=
  mkTimeline (states tl) (pduid_pdu tl) (eventid_pduid tl) tb (roomid_ts_pducount tl).

Definition get_data tl : Data := get_globals (states tl).
Definition set_data (d : Data) tl : Timeline := with_states (set_globals d (states tl)) tl.

(** [Json(..)] *)
Definition json_ser json : Ser := SNewtype "Json" (Some json).

(** *** Writing *)

Definition replace_pdu tl pdu_id json : Result TimelineError Timeline :=
  match Map_get (pduid_pdu tl) (as_bytes pdu_id) with
  | Err NotFound => Err NoPdu
  | _ => let? tb := tdb (raw_put (pduid_pdu tl) (as_bytes pdu_id) (json_ser json)) in Ok (with_pdus tb tl)
  end.

Definition add_pdu_outlier tl (id : string) json : Result TimelineError Timeline :=
  let? tb := tdb (raw_put (eventid_outlierpdu tl) id (json_ser json)) in Ok (with_outliers tb tl).

Definition ts_key (room : string) (ts : N) : Ser := STuple [SStr room; SU64 ts].

(** [append_pdu_json] and [prepend_backfill_pdu] write the same rows. *)
Definition prepend_backfill_pdu tl pdu_id (room id : string) (ts : N) json : Result TimelineError Timeline :=
  let? pdus := tdb (raw_put (pduid_pdu tl) (as_bytes pdu_id) (json_ser json)) in
  let? counts := tdb (put_raw (roomid_ts_pducount tl) (ts_key room ts) (raw_count pdu_id)) in
  Ok (mkTimeline (states tl) pdus (Map_insert (eventid_pduid tl) id (as_bytes pdu_id))
        (Map_remove (eventid_outlierpdu tl) id) counts).

Definition append_pdu_json tl pdu_id (pdu : Pdu) json : Result TimelineError Timeline :=
  prepend_backfill_pdu tl pdu_id (room_id pdu) (event_id pdu) (origin_server_ts pdu) json.

(** The part of [append_pdu] under the insertion lock: two numbers are drawn,
    the sender's own reading position is set to the second by other services,
    and the event goes under the first.  Both permits stay with the caller. *)
Definition insert_pdu {W} (mark_read : Pdu → N → W → W) tl (w : W) (shortroomid : N) (pdu : Pdu) json :
    Result TimelineError (RawId * (N * N) * (Timeline * W)) :=
  let? p1 := map_err CountError (next_count (get_data tl)) in
  let? p2 := map_err CountError (next_count p1.2) in
  let pdu_id := raw_from_id (mkId shortroomid (Normal (permit_id p1.1))) in
  let? next := append_pdu_json (set_data p2.2 tl) pdu_id pdu json in
  Ok (pdu_id, (permit_id p1.1, permit_id p2.1), (next, mark_read pdu (permit_id p2.1) w)).

(** The part of [backfill_pdu] under the insertion lock. *)
Definition insert_backfilled tl (shortroomid : N) (room : string) (pdu : Pdu) json : Result TimelineError (N * Timeline) :=
  with_count CountError get_data set_data tl (λ n tl,
    if (n <=? Z.to_N I64_MAX)%N then
      let pdu_id := raw_from_id (mkId shortroomid (Backfilled (0 - Z.of_N n))) in
      prepend_backfill_pdu tl pdu_id room (event_id pdu) (origin_server_ts pdu) json
    else Err CountOverflow).

(** *** Reading one event *)

(** A row read as JSON into the type that [parse] makes. *)
Definition read_json {T} (parse : string → option T) (r : Result DbError string) : Result DbError T :=
  let? v := @deserialized (λ t, bool_decide (is_Some (parse t))) DMap r in
  match v with VJson t => ok_or (Codec SerdeDe) (parse t) | _ => Err (Codec InvalidValue) end.

Definition get_pdu_id tl (id : string) : Result DbError RawId :=
  let? bytes := Map_get (eventid_pduid tl) id in ok_or (Panicked InvalidLength) (raw_from_bytes bytes).

Definition get_pdu_count tl (id : string) : Result DbError Count := result_map pdu_count (get_pdu_id tl id).

Section read.
Context {T : Type} (parse : string → option T).

Definition get_from_id tl pdu_id : Result DbError T := read_json parse (Map_get (pduid_pdu tl) (as_bytes pdu_id)).
Definition get_outlier tl (id : string) : Result DbError T := read_json parse (Map_get (eventid_outlierpdu tl) id).
Definition get_non_outlier tl (id : string) : Result DbError T :=
  let? raw := get_pdu_id tl id in get_from_id tl raw.

(** [select_ok] gives the first success of two reads that run concurrently:
    [late] says that the second one finishes first. *)
Definition select_ok {A} (late : bool) (a b : Result DbError A) : Result DbError A :=
  match a, b with
  | Ok x, Ok y => Ok (if late then y else x)
  | Ok x, Err _ => Ok x
  | Err _, Ok y => Ok y
  | Err e, Err e' => Err (if late then e else e')
  end.

Definition get (late : bool) tl (id : string) : Result DbError T :=
  select_ok late (get_non_outlier tl id) (get_outlier tl id).
End read.

Definition get_pdu := get pdu_from_json.
Definition get_pdu_from_id := get_from_id pdu_from_json.

Definition non_outlier_pdu_exists tl (id : string) : Result DbError unit :=
  let? raw := get_pdu_id tl id in exists_row (pduid_pdu tl) (as_bytes raw).
Definition outlier_pdu_exists tl (id : string) : Result DbError unit := exists_row (eventid_outlierpdu tl) id.
Definition pdu_exists (late : bool) tl (id : string) : bool :=
  match select_ok late (non_outlier_pdu_exists tl id) (outlier_pdu_exists tl id) with Ok _ => true | Err _ => false end.

Definition get_event_id_from_pdu_id tl (id : Id) : Result DbError string :=
  result_map event_id (get_pdu_from_id tl (raw_from_id id)).
Definition get_shorteventid_from_pdu_id tl (id : Id) : Result DbError N :=
  let? e := get_event_id_from_pdu_id tl id in get_shorteventid (shorts (states tl)) e.

Definition get_pdu_from_shorteventid (late : bool) tl (n : N) : Result DbError Pdu :=
  let? e := get_eventid_from_short (shorts (states tl)) n in get_pdu late tl e.
Definition get_pdu_id_from_shorteventid tl (n : N) : Result DbError RawId :=
  let? e := get_eventid_from_short (shorts (states tl)) n in get_pdu_id tl e.

(** *** Reading a room *)

Definition find_room tl (room : string) : Result TimelineError N :=
  map_err (λ _, RoomNotFound) (get_shortroomid (shorts (states tl)) room).

Definition count_to_id tl (room : string) (count : Count) (dir : Direction) : Result TimelineError RawId :=
  let? r := find_room tl room in Ok (pdu_count_to_id r count dir).

(** Errors of the two updates of [unsigned] are logged. *)
Definition each_pdu (now : N) (user_id : option string) (item : RawId * Pdu) : Count * Pdu :=
  let '(pdu_id, p) := item in
  let p := if decide (Some (sender p) = user_id) then p
           else match remove_transaction_id p with Ok p' => p' | Err _ => p end in
  let p := match add_age now p with Ok p' => p' | Err _ => p end in
  (pdu_count pdu_id, p).

Definition each_slice (now : N) (user_id : option string) (item : string * string) : Result TimelineError (Count * Pdu) :=
  let? raw := ok_or (Db (Panicked InvalidLength)) (raw_from_bytes item.1) in
  let? p := ok_or InvalidJson (pdu_from_json item.2) in
  Ok (each_pdu now user_id (raw, p)).

(** The rows of the room of [current]. *)
Definition room_rows (current : RawId) (rows : list (string * string)) : list (string * string) :=
  take_while (starts_with (raw_shortroomid current)) rows.

Definition pdus (now : N) tl (user_id : option string) (room : string) (from : option Count) :
    Result TimelineError (list (Result TimelineError (Count * Pdu))) :=
  let? current := count_to_id tl room (default count_min from) Forward in
  Ok (each_slice now user_id <$> room_rows current (raw_stream_from (pduid_pdu tl) (as_bytes current))).

Definition pdus_rev (now : N) tl (user_id : option string) (room : string) (until : option Count) :
    Result TimelineError (list (Result TimelineError (Count * Pdu))) :=
  let? current := count_to_id tl room (default count_max until) Backward in
  Ok (each_slice now user_id <$> room_rows current (rev_raw_stream_from (pduid_pdu tl) (as_bytes current))).

(** [try_next] *)
Definition first_item {A} (l : list (Result TimelineError A)) : Result TimelineError A :=
  match l with [] => Err NoPdu | r :: _ => r end.

Definition first_item_in_room (now : N) tl (room : string) : Result TimelineError (Count * Pdu) :=
  let? l := pdus now tl None room None in first_item l.
Definition latest_item_in_room (now : N) tl (user_id : option string) (room : string) : Result TimelineError Pdu :=
  let? l := pdus_rev now tl user_id room None in result_map snd (first_item l).

(** The count of the latest event up to a bound; the bound is skipped past, and
    a backfilled count or none at all gives the maximum. *)
Definition last_timeline_count (now : N) tl (user_id : option string) (room : string) (upper : option Count) :
    Result TimelineError Count :=
  let bound := default count_max upper in
  let? l := pdus_rev now tl user_id room None in
  let above (x : Result TimelineError (Count * Pdu)) :=
    match x with Ok item => match count_cmp item.1 bound with Gt => true | _ => false end | Err _ => false end in
  match skip_while above l with
  | [] => Ok count_max
  | Err e :: _ => Err e
  | Ok (Normal n, _) :: _ => Ok (Normal n)
  | Ok (Backfilled _, _) :: _ => Ok count_max
  end.

(** *** By timestamp *)

Definition ts_item (r : N) (row : string * string) : Result DbError (string * (N * Id)) :=
  let? k := deserialize_slice (DTuple [DStr room_id_ok; DU64]) row.1 in
  let? v := deserialize_slice DI64 row.2 in
  match k, v with
  | VTuple [VStr room; VU64 ts], VI64 count => Ok (room, (ts, mkId r (from_signed count)))
  | _, _ => Err (Codec InvalidValue)
  end.

Definition pdu_ids_near_ts tl (room : string) (ts : N) (dir : Direction) :
    Result TimelineError (list (Result DbError (N * Id))) :=
  let? r := find_room tl room in
  let? key := tdb (expect (serialize_key (ts_key room ts))) in
  let rows := match dir with
              | Forward => raw_stream_from (roomid_ts_pducount tl) key
              | Backward => rev_raw_stream_from (roomid_ts_pducount tl) key
              end in
  let in_room (x : Result DbError (string * (N * Id))) :=
    match x with Ok item => String.eqb room item.1 | Err _ => true end in
  Ok (result_map snd <$> take_while in_room (ts_item r <$> rows)).

Definition get_pdu_id_near_ts tl (room : string) (ts : N) (dir : Direction) : Result TimelineError (N * Id) :=
  let? l := pdu_ids_near_ts tl room ts dir in
  match l with [] => Err NoPdu | x :: _ => tdb x end.

(** *** State around positions *)

Definition shortstatehash_at tl (r : N) (c : Count) : Result TimelineError N :=
  tdb (let? n := get_shorteventid_from_pdu_id tl (mkId r c) in RoomStates.get_shortstatehash (states tl) n).

Definition prev_shortstatehash tl (room : string) (before : Count) : Result TimelineError N :=
  let? r := find_room tl room in
  let? c := tdb (prev_timeline_count (pduid_pdu tl) (mkId r before)) in shortstatehash_at tl r c.

Definition next_shortstatehash tl (room : string) (after : Count) : Result TimelineError N :=
  let? r := find_room tl room in
  let? c := tdb (next_timeline_count (pduid_pdu tl) (mkId r after)) in shortstatehash_at tl r c.

(** *** Deleting a room *)

Definition delete_pdu tl (room : string) (row : string * string) : Result TimelineError Timeline :=
  let? p := ok_or InvalidJson (pdu_from_json row.2) in
  let? counts := tdb (del (roomid_ts_pducount tl) (ts_key room (origin_server_ts p))) in
  Ok (mkTimeline (states tl) (Map_remove (pduid_pdu tl) row.1) (Map_remove (eventid_pduid tl) (event_id p))
        (Map_remove (eventid_outlierpdu tl) (event_id p)) counts).

(** The rows are read from a snapshot; an error ends the loop and leaves what is
    done. *)
Fixpoint delete_rows (room : string) (rows : list (string * string)) tl : Result TimelineError unit * Timeline :=
  match rows with
  | [] => (Ok tt, tl)
  | row :: rows' =>
      match delete_pdu tl room row with
      | Ok next => delete_rows room rows' next
      | Err e => (Err e, tl)
      end
  end.

Definition delete_pdus tl (room : string) : Result TimelineError unit * Timeline :=
  match count_to_id tl room count_min Forward with
  | Err e => (Err e, tl)
  | Ok current => delete_rows room (room_rows current (raw_stream_from (pduid_pdu tl) (as_bytes current))) tl
  end.
End timeline.

(** ** Rows *)

Section rows.
Context `{Engine, JsonParser, Identifiers, Lru, Digest, PduJson}.
Implicit Types (tl : Timeline) (pdu_id : RawId) (json e k t : string) (r : N) (c d : Count).

Lemma raw_put_json (tb : Table) k json : raw_put tb k (json_ser json) = Ok (table_put tb k json).
Proof. done. Qed.

Lemma ts_put (tb : Table) (room : string) (ts : N) v :
  put_raw tb (ts_key room ts) v = Ok (table_put tb (room +:+ sep_str +:+ u64_to_be_bytes ts) v).
Proof. unfold put_raw, bput_raw, ts_key, serialize. cbn. by rewrite <-!append_assoc. Qed.

Lemma ts_del (tb : Table) (room : string) (ts : N) :
  del tb (ts_key room ts) = Ok (table_del tb (room +:+ sep_str +:+ u64_to_be_bytes ts)).
Proof. unfold del, bdel, ts_key, serialize. cbn. by rewrite <-!append_assoc. Qed.

(** What an insertion writes. *)
Definition placed_at tl pdu_id (room e : string) (ts : N) json : Timeline :=
  mkTimeline (states tl) (table_put (pduid_pdu tl) (as_bytes pdu_id) json)
    (table_put (eventid_pduid tl) e (as_bytes pdu_id)) (table_del (eventid_outlierpdu tl) e)
    (table_put (roomid_ts_pducount tl) (room +:+ sep_str +:+ u64_to_be_bytes ts) (raw_count pdu_id)).

Lemma prepend_eq tl pdu_id room e ts json :
  prepend_backfill_pdu tl pdu_id room e ts json = Ok (placed_at tl pdu_id room e ts json).
Proof. unfold prepend_backfill_pdu. by rewrite raw_put_json, ts_put. Qed.

(** A row of JSON text reads as what the parser makes of it. *)
Lemma read_json_row {T} (parse : string → option T) t v :
  utf8_valid t = true → parse t = Some v → read_json parse (Ok t) = Ok v.
Proof.
  intros Hu Hp. unfold read_json, deserialized, deserialize_slice, from_slice. cbn [deserialize].
  rewrite (record_next_at _ t ""); [| |by apply utf8_no_sep|by left].
  2:{ split; [unfold in_bounds; cbn; lia|]. cbn. by rewrite append_nil_r. }
  unfold deserialize_json, json_parses. cbn [fst snd]. rewrite bool_decide_true by (by rewrite Hp). cbn. by rewrite Hp.
Qed.

Lemma Map_get_row (tb : Table) k : Map_get tb k = handle_from (table_rows tb !! k).
Proof. unfold Map_get. by rewrite table_get_rows. Qed.

(** ** The invariant *)

(** Positions and event ids index each other, an outlier is in no timeline, and
    counts go no further than the numbers drawn, in either direction. *)
Record timeline_inv tl : Prop := {
  tl_keyed : keyed_by_position (pduid_pdu tl);
  tl_pdus k t : table_rows (pduid_pdu tl) !! k = Some t →
    ∃ p, pdu_from_json t = Some p ∧ table_rows (eventid_pduid tl) !! event_id p = Some k;
  tl_index e k : table_rows (eventid_pduid tl) !! e = Some k →
    ∃ t p, table_rows (pduid_pdu tl) !! k = Some t ∧ pdu_from_json t = Some p ∧ event_id p = e;
  tl_outliers e : is_Some (table_rows (eventid_outlierpdu tl) !! e) → table_rows (eventid_pduid tl) !! e = None;
  tl_drawn r c : valid_id (mkId r c) = true → in_timeline (pduid_pdu tl) r c →
    (Z.abs (into_signed c) <= Z.of_N (dispatched (counter (get_data tl))))%Z;
}.

Definition in_no_timeline tl e : Prop := table_rows (eventid_pduid tl) !! e = None.

(** The event [e] is stored as [p], at [c] in the timeline of [r]. *)
Definition stored_at tl r c (p : Pdu) : Prop :=
  ∃ t, table_rows (pduid_pdu tl) !! key_of r c = Some t ∧ pdu_from_json t = Some p.

Lemma key_of_inj r c r' c' :
  valid_id (mkId r c) = true → valid_id (mkId r' c') = true → key_of r c = key_of r' c' → r = r' ∧ c = c'.
Proof.
  intros Hv Hv' E. assert (raw_from_id (mkId r c) = raw_from_id (mkId r' c')) as Er.
  { pose proof (raw_from_key r c) as Hk. rewrite E, raw_from_key in Hk. congruence. }
  assert (mkId r c = mkId r' c') as Ei by (by rewrite <-(id_of_raw _ Hv), Er, id_of_raw).
  by injection Ei.
Qed.

Lemma get_pdu_id_at tl r c p :
  timeline_inv tl → stored_at tl r c p → get_pdu_id tl (event_id p) = Ok (raw_from_id (mkId r c)).
Proof.
  intros Hinv (t & Ht & Hp). destruct (tl_pdus _ Hinv _ _ Ht) as (p' & Hp' & Hi). simplify_eq.
  unfold get_pdu_id. rewrite Map_get_row, Hi. cbn [handle_from ok_or]. by rewrite raw_from_key.
Qed.

Lemma get_from_id_at tl r c p :
  stored_at tl r c p → get_pdu_from_id tl (raw_from_id (mkId r c)) = Ok p.
Proof.
  intros (t & Ht & Hp). unfold get_pdu_from_id, get_from_id. fold (key_of r c). rewrite Map_get_row, Ht. cbn [handle_from ok_or].
  eapply read_json_row; [by eapply pdu_from_json_utf8|done].
Qed.

Lemma get_outlier_none tl e : table_rows (eventid_outlierpdu tl) !! e = None → get_outlier pdu_from_json tl e = Err NotFound.
Proof. intros He. unfold get_outlier. by rewrite Map_get_row, He. Qed.

(** Whatever read finishes first. *)
Lemma get_pdu_at tl r c p late :
  timeline_inv tl → stored_at tl r c p → get_pdu late tl (event_id p) = Ok p.
Proof.
  intros Hinv Hs. unfold get_pdu, get, get_non_outlier. rewrite (get_pdu_id_at tl r c p Hinv Hs).
  fold get_pdu_from_id. rewrite (get_from_id_at tl r c p Hs), get_outlier_none; [done|].
  destruct (table_rows (eventid_outlierpdu tl) !! event_id p) eqn:Ho; [|done].
  pose proof (tl_outliers _ Hinv (event_id p) ltac:(by rewrite Ho)) as Hn.
  destruct Hs as (t & Ht & Hp). destruct (tl_pdus _ Hinv _ _ Ht) as (p' & Hp' & Hi). congruence.
Qed.

(** ** Insertion *)

Lemma placed_inv tl r c p room ts json :
  timeline_inv tl → valid_id (mkId r c) = true → pdu_from_json json = Some p → in_no_timeline tl (event_id p) →
  ¬ in_timeline (pduid_pdu tl) r c → (Z.abs (into_signed c) <= Z.of_N (dispatched (counter (get_data tl))))%Z →
  timeline_inv (placed_at tl (raw_from_id (mkId r c)) room (event_id p) ts json).
Proof.
  intros [Hk Hp Hi Ho Hd] Hv Hj Hn Hf Hc. unfold placed_at. fold (key_of r c).
  assert (table_rows (pduid_pdu tl) !! key_of r c = None) as Hfree by (by apply eq_None_not_Some).
  split; unfold in_timeline, keyed_by_position in *;
    cbn [pduid_pdu eventid_pduid eventid_outlierpdu states get_data]; autorewrite with engine.
  - intros k. destruct (decide (k = key_of r c)) as [->|Hne]; [by exists r, c|]. rewrite lookup_insert_ne by done. apply Hk.
  - intros k t. rewrite lookup_insert_Some. intros [[<- <-]|[Hne Ht]].
    + exists p. by rewrite lookup_insert_eq.
    + destruct (Hp k t Ht) as (p' & Hp' & Hi'). exists p'. split; [done|]. rewrite lookup_insert_ne; [done|].
      intros E. rewrite <-E in Hi'. unfold in_no_timeline in Hn. congruence.
  - intros e k. rewrite lookup_insert_Some. intros [[<- <-]|[Hne Ht]].
    + exists json, p. by rewrite lookup_insert_eq.
    + destruct (Hi e k Ht) as (t & p' & Ht' & Hp' & He). exists t, p'. rewrite lookup_insert_ne; [done|]. intros <-. congruence.
  - intros e [t [Hne Ht]%lookup_delete_Some]. rewrite lookup_insert_ne by done. apply Ho. by exists t.
  - intros r' c' Hv' Hin. destruct (decide (key_of r' c' = key_of r c)) as [E|Hne].
    + by destruct (key_of_inj _ _ _ _ Hv' Hv E) as [-> ->].
    + rewrite lookup_insert_ne in Hin by done. by apply (Hd r' c').
Qed.

Lemma placed_stored tl r c p room ts json :
  pdu_from_json json = Some p → stored_at (placed_at tl (raw_from_id (mkId r c)) room (event_id p) ts json) r c p.
Proof. intros Hj. exists json. unfold placed_at. cbn. fold (key_of r c). autorewrite with engine. by rewrite lookup_insert_eq. Qed.

Lemma placed_others tl r c r' c' p p' room ts json :
  key_of r' c' ≠ key_of r c →
  stored_at (placed_at tl (raw_from_id (mkId r c)) room (event_id p) ts json) r' c' p' ↔ stored_at tl r' c' p'.
Proof. intros Hne. unfold stored_at, placed_at. cbn. fold (key_of r c). autorewrite with engine. by rewrite lookup_insert_ne. Qed.

(** A count further out than every number drawn is in no timeline. *)
Lemma undrawn tl r c :
  timeline_inv tl → valid_id (mkId r c) = true →
  (Z.of_N (dispatched (counter (get_data tl))) < Z.abs (into_signed c))%Z → ¬ in_timeline (pduid_pdu tl) r c.
Proof. intros Hinv Hv Hlt Hin. pose proof (tl_drawn _ Hinv r c Hv Hin). lia. Qed.

Lemma set_data_inv tl (d : Data) :
  timeline_inv tl → (dispatched (counter (get_data tl)) <= dispatched (counter d))%N → timeline_inv (set_data d tl).
Proof.
  intros [Hk Hp Hi Ho Hd] Hle. split; cbn; [done..|]. intros r c Hv Hin. pose proof (Hd r c Hv Hin). lia.
Qed.

Lemma valid_id_spec r c : valid_id (mkId r c) = true ↔ (r <= U64_MAX)%N ∧ valid_count c = true.
Proof. unfold valid_id. cbn. by rewrite andb_true_iff, N.leb_le. Qed.
End rows.

(** ** Scans of a room *)

Section scans.
Context `{Engine}.
Implicit Types (tb : Table) (dir : Direction) (k t w : string) (r : N) (c d : Count).

(** The rows of a room at or after a key, in a direction. *)
Lemma room_rows_spec dir tb r from w :
  as_bytes from = u64_to_be_bytes r +:+ w →
  let rows := room_rows from (scan_rows dir tb (as_bytes from)) in
  StronglySorted (row_onward dir) rows ∧ NoDup rows.*1
  ∧ ∀ k t, (k, t) ∈ rows ↔ table_rows tb !! k = Some t ∧ onward dir (as_bytes from) k ∧ String.prefix (u64_to_be_bytes r) k = true.
Proof.
  intros Hfrom. assert (raw_shortroomid from = u64_to_be_bytes r) as Hr.
  { unfold raw_shortroomid. rewrite Hfrom. apply be_take. }
  cbn zeta. unfold room_rows. rewrite Hr, (take_while_filter (row_onward dir)).
  - split_and!.
    + apply StronglySorted_filter, scan_rows_sorted.
    + eapply sublist_NoDup; [apply (scan_rows_NoDup dir tb (as_bytes from))|]. apply fmap_sublist, sublist_filter.
    + intros k t. rewrite list_elem_of_filter, elem_of_scan_rows. unfold starts_with. cbn. tauto.
  - apply scan_rows_sorted.
  - intros x y [_ Hx]%elem_of_scan_rows _ Hxy Hy. eapply (scan_prefix dir _ (as_bytes from)); [|done..].
    rewrite Hfrom. apply prefix_append.
Qed.

(** A table keyed by positions has the rows of a room under its counts. *)
Lemma room_key tb r k :
  keyed_by_position tb → (r <= U64_MAX)%N → is_Some (table_rows tb !! k) → String.prefix (u64_to_be_bytes r) k = true →
  ∃ c, valid_count c = true ∧ k = key_of r c.
Proof.
  intros Hk Hr Hrow [w Hw]%prefix_spec. destruct (Hk k Hrow) as (r' & c & [Hr' Hc]%valid_id_spec & ->).
  exists c. split; [done|]. rewrite key_of_words in Hw. apply append_inj_l in Hw as [E _]; [|by rewrite !length_u64].
  apply be_encode_inj in E as ->; [done|by apply u64_width..].
Qed.

Lemma map_all_ok {E A B} (f : A → Result E B) (Q : A → B → Prop) (l : list A) :
  (∀ x, x ∈ l → ∃ y, f x = Ok y ∧ Q x y) → ∃ l', f <$> l = Ok <$> l' ∧ Forall2 Q l l'.
Proof.
  induction l as [|x l IH]; intros Hf; [by exists []; split; [|constructor]|].
  destruct (Hf x) as (y & Hy & Hq); [by left|]. destruct IH as (l' & Hl & Hqs); [intros z Hz; apply Hf; by right|].
  exists (y :: l'). csimpl. rewrite Hy, Hl. split; [done|]. by constructor.
Qed.
End scans.

(** ** A room's events *)

Section room.
Context `{Engine, JsonParser, Identifiers, Lru, Digest, PduJson}.
Implicit Types (tl : Timeline) (dir : Direction) (r : N) (c d : Count).

Definition item_ahead dir (x y : Count * Pdu) : Prop := ahead dir x.1 y.1.

(** A row of a room and the item it is shown as. *)
Definition row_shows (now : N) (u : option string) r (row : string * string) (item : Count * Pdu) : Prop :=
  ∃ d p, item = each_pdu now u (raw_from_id (mkId r d), p)
    ∧ valid_count d = true ∧ row.1 = key_of r d ∧ pdu_from_json row.2 = Some p.

Lemma row_item now u tl r k t :
  timeline_inv tl → (r <= U64_MAX)%N → table_rows (pduid_pdu tl) !! k = Some t → String.prefix (u64_to_be_bytes r) k = true →
  ∃ c p, each_slice now u (k, t) = Ok (each_pdu now u (raw_from_id (mkId r c), p))
    ∧ valid_count c = true ∧ k = key_of r c ∧ pdu_from_json t = Some p.
Proof.
  intros Hinv Hr Hk Hp. destruct (tl_pdus _ Hinv k t Hk) as (p & Hj & _).
  destruct (room_key _ r k (tl_keyed _ Hinv) Hr ltac:(by rewrite Hk) Hp) as (c & Hc & ->).
  exists c, p. split_and!; [|done..]. unfold each_slice. cbn [fst snd]. by rewrite raw_from_key, Hj.
Qed.

Lemma each_pdu_count now u r c p :
  (r <= U64_MAX)%N → valid_count c = true → (each_pdu now u (raw_from_id (mkId r c), p)).1 = c.
Proof. intros Hr Hc. unfold each_pdu. cbn [fst]. unfold pdu_count. rewrite id_of_raw; [done|]. by apply valid_id_spec. Qed.

(** The events of a room past a count, in a direction. *)
Lemma room_items dir now u tl r c :
  timeline_inv tl → (r <= U64_MAX)%N → interior dir c = true →
  let from := pdu_count_to_id r c dir in
  ∃ l, each_slice now u <$> room_rows from (scan_rows dir (pduid_pdu tl) (as_bytes from)) = Ok <$> l
    ∧ StronglySorted (item_ahead dir) l
    ∧ ∀ item, item ∈ l ↔ ∃ d p, item = each_pdu now u (raw_from_id (mkId r d), p)
        ∧ valid_count d = true ∧ stored_at tl r d p ∧ ahead dir c d.
Proof.
  intros Hinv Hr Hi. cbn zeta. set (from := pdu_count_to_id r c dir). destruct (interior_step dir c Hi) as (Hc & Hc' & Hs).
  assert (as_bytes from = u64_to_be_bytes r +:+ words (saturating_inc c dir)) as Hfrom by apply key_of_words.
  destruct (room_rows_spec dir (pduid_pdu tl) r from _ Hfrom) as (HS & ND & Hrows).
  set (rows := room_rows from _) in *.
  assert (∀ row, row ∈ rows → ∃ item, each_slice now u row = Ok item ∧ row_shows now u r row item) as Hall.
  { intros [k t] (Hk & _ & Hp)%Hrows. destruct (row_item now u tl r k t Hinv Hr Hk Hp) as (d & p & Hsl & Hd & -> & Hj).
    eexists. split; [done|]. by exists d, p. }
  destruct (map_all_ok _ _ rows Hall) as (l & Hl & HQ). exists l. split; [done|].
  assert (∀ d, valid_count d = true → onward dir (as_bytes from) (key_of r d) ↔ ahead dir c d) as Hahead.
  { intros d Hd. rewrite Hfrom, key_of_words, onward_room, onward_words by done. unfold ahead. destruct dir; lia. }
  split.
  - eapply Forall2_sorted; [exact HQ|exact (rows_apart dir rows HS ND)|].
    intros x y ? ? _ _ [Hon Hne] (d & p & -> & Hd & Ex & _) (d' & p' & -> & Hd' & Ey & _).
    unfold item_ahead. rewrite !each_pdu_count by done. unfold row_onward in Hon. rewrite Ex, Ey in *.
    rewrite !key_of_words, onward_room, onward_words in Hon by done.
    assert (into_signed d ≠ into_signed d'). { intros E. apply Hne. f_equal. apply signed_inj; done. }
    unfold ahead. destruct dir; lia.
  - intros item. split.
    + intros [i Hlk]%list_elem_of_lookup. destruct (Forall2_lookup_r _ _ _ _ _ HQ Hlk) as ([k t] & Hrow & (d & p & -> & Hd & E & Hj)).
      apply list_elem_of_lookup_2, Hrows in Hrow as (Hk & Hon & _). cbn in *. subst k.
      exists d, p. split_and!; [done|done|by exists t|by apply Hahead].
    + intros (d & p & -> & Hd & (t & Ht & Hj) & Ha).
      assert ((key_of r d, t) ∈ rows) as Hin.
      { apply Hrows. split_and!; [done|by apply Hahead|]. rewrite key_of_words. apply prefix_append. }
      apply list_elem_of_lookup in Hin as [i Hlk]. destruct (Forall2_lookup_l _ _ _ _ _ HQ Hlk) as (item & Hlk' & (d' & p' & -> & Hd' & E & Hj')).
      cbn in *. apply key_of_inj in E as [_ ->]; [|by apply valid_id_spec..]. rewrite Hj in Hj'. injection Hj' as ->.
      by eapply list_elem_of_lookup_2.
Qed.
End room.

(** ** Deleting a room *)

Section delete.
Context `{Engine, JsonParser, Identifiers, Lru, Digest, PduJson}.
Implicit Types (tl : Timeline) (r : N) (c d : Count) (k t room : string).

Lemma delete_pdu_spec tl room k t :
  timeline_inv tl → table_rows (pduid_pdu tl) !! k = Some t →
  ∃ tl', delete_pdu tl room (k, t) = Ok tl' ∧ timeline_inv tl' ∧ states tl' = states tl
    ∧ table_rows (pduid_pdu tl') = base.delete k (table_rows (pduid_pdu tl)).
Proof.
  intros [Hk Hp Hi Ho Hd] Ht. destruct (Hp k t Ht) as (p & Hj & Hidx).
  unfold delete_pdu. cbn [fst snd]. rewrite Hj. cbn [ok_or]. rewrite ts_del. cbn [tdb map_err].
  eexists. split; [done|]. cbn [states pduid_pdu]. unfold Map_remove. split; [|by autorewrite with engine].
  split; unfold in_timeline, keyed_by_position in *; cbn [pduid_pdu eventid_pduid eventid_outlierpdu states get_data]; autorewrite with engine.
  - intros k' [t' [_ Ht']%lookup_delete_Some]. apply Hk. by exists t'.
  - intros k' t' [Hne Ht']%lookup_delete_Some. destruct (Hp k' t' Ht') as (p' & Hj' & Hidx'). exists p'. split; [done|].
    apply lookup_delete_Some. split; [|done]. intros E. rewrite E in Hidx. congruence.
  - intros e k' [Hne He]%lookup_delete_Some. destruct (Hi e k' He) as (t' & p' & Ht' & Hj' & Ee). exists t', p'. split; [|done].
    apply lookup_delete_Some. split; [|done]. intros ->. congruence.
  - intros e [t' [Hne He]%lookup_delete_Some]. apply lookup_delete_None. right. apply Ho. by exists t'.
  - intros r c Hv [t' [_ Ht']%lookup_delete_Some]. apply (Hd r c Hv). by exists t'.
Qed.

Lemma delete_rows_spec room rows tl :
  timeline_inv tl → NoDup rows.*1 → (∀ k t, (k, t) ∈ rows → table_rows (pduid_pdu tl) !! k = Some t) →
  ∃ tl', delete_rows room rows tl = (Ok tt, tl') ∧ timeline_inv tl' ∧ states tl' = states tl
    ∧ ∀ k, table_rows (pduid_pdu tl') !! k = if decide (k ∈ rows.*1) then None else table_rows (pduid_pdu tl) !! k.
Proof.
  revert tl. induction rows as [|[k t] rows IH]; intros tl Hinv ND Hin.
  { exists tl. split_and!; [done..|]. intros k. by rewrite decide_False by apply not_elem_of_nil. }
  apply NoDup_cons in ND as [Hn ND]. cbn [fst] in Hn.
  destruct (delete_pdu_spec tl room k t Hinv) as (tl1 & He & Hinv1 & Hs1 & Hr1); [apply Hin; by left|].
  destruct (IH tl1 Hinv1 ND) as (tl2 & He2 & Hinv2 & Hs2 & Hr2).
  { intros k' t' Hk'. rewrite Hr1, lookup_delete_ne; [apply Hin; by right|]. intros <-. apply Hn. by apply (list_elem_of_fmap_2 fst) in Hk'. }
  exists tl2. cbn [delete_rows]. rewrite He, He2. split_and!; [done..|congruence|].
  intros k'. rewrite Hr2, Hr1. cbn. destruct (decide (k' ∈ rows.*1)) as [Hd|Hd].
  - by rewrite decide_True by (by right).
  - destruct (decide (k' = k)) as [->|Hne].
    + rewrite decide_True by (by left). by rewrite lookup_delete_eq.
    + rewrite decide_False by (rewrite elem_of_cons; tauto). by rewrite lookup_delete_ne.
Qed.
End delete.

(** ** Properties *)

Section properties.
Context `{Engine, JsonParser, Identifiers, Lru, Digest, PduJson}.
Implicit Types (tl : Timeline) (r : N) (c d : Count) (p : Pdu) (json room : string).

(** An event placed further out than every count drawn before. *)
Lemma placed_fresh tl (d : Data) r c p room ts json :
  timeline_inv tl → valid_id (mkId r c) = true → pdu_from_json json = Some p → in_no_timeline tl (event_id p) →
  (Z.of_N (dispatched (counter (get_data tl))) < Z.abs (into_signed c) <= Z.of_N (dispatched (counter d)))%Z →
  let tl' := placed_at (set_data d tl) (raw_from_id (mkId r c)) room (event_id p) ts json in
  timeline_inv tl' ∧ stored_at tl' r c p
  ∧ ∀ r' c' p', valid_id (mkId r' c') = true →
      stored_at tl' r' c' p' ↔ stored_at tl r' c' p' ∨ r' = r ∧ c' = c ∧ p' = p.
Proof.
  intros Hinv Hv Hj Hno Hc tl'.
  assert (¬ in_timeline (pduid_pdu tl) r c) as Hfresh by (apply (undrawn tl r c Hinv Hv); lia).
  assert (timeline_inv (set_data d tl)) as Hinv1 by (apply set_data_inv; [done|lia]).
  pose proof (placed_stored (set_data d tl) r c p room ts json Hj) as Hst. fold tl' in Hst.
  split_and!; [apply placed_inv; [done..|]; change (get_data (set_data d tl)) with d; lia|done|].
  intros r' c' p' Hv'. destruct (decide (key_of r' c' = key_of r c)) as [E|E].
  - destruct (key_of_inj _ _ _ _ Hv' Hv E) as [-> ->]. split.
    + intros (t & Ht & Hp'). destruct Hst as (t' & Ht' & Hp''). right. split_and!; [done..|congruence].
    + intros [(t & Ht & _)|(_ & _ & ->)]; [|done]. destruct Hfresh. by exists t.
  - unfold tl'. rewrite placed_others by done. split; [by left|]. by intros [Hs|(-> & -> & _)].
Qed.

(** C19.  An event that arrives is stored at a count above every one in the
    room's timeline and reads back by its id, whichever of the two concurrent
    reads ends first; nothing else in any timeline changes, and readers that go
    by the counter do not see the position before its permit is dropped. *)
Theorem timeline_append {W} (mark_read : Pdu → N → W → W) tl (w : W) ids r p json :
  timeline_inv tl → data_inv (get_data tl) ids → (dispatched (counter (get_data tl)) + 2 <= Z.to_N I64_MAX)%N →
  (r <= U64_MAX)%N → pdu_from_json json = Some p → in_no_timeline tl (event_id p) →
  ∃ n tl', insert_pdu mark_read tl w r p json
      = Ok (raw_from_id (mkId r (Normal n)), (n, (n + 1)%N), (tl', mark_read p (n + 1)%N w))
    ∧ timeline_inv tl' ∧ data_inv (get_data tl') ({[(n + 1)%N]} ∪ ({[n]} ∪ ids))
    ∧ (∀ late, get_pdu late tl' (event_id p) = Ok p) ∧ get_pdu_count tl' (event_id p) = Ok (Normal n)
    ∧ (∀ c, valid_count c = true → in_timeline (pduid_pdu tl) r c → ahead Forward c (Normal n))
    ∧ (∀ r' c' p', valid_id (mkId r' c') = true →
         stored_at tl' r' c' p' ↔ stored_at tl r' c' p' ∨ r' = r ∧ c' = Normal n ∧ p' = p)
    ∧ (current_count (get_data tl') < n)%N.
Proof.
  intros Hinv Hd Hlt Hr Hj Hno. set (n0 := dispatched (counter (get_data tl))) in *. unfold I64_MAX in Hlt.
  destruct (next_count_inv _ _ Hd ltac:(fold n0; unfold U64_MAX; lia)) as (p1 & d1 & E1 & Hp1 & Hn1 & Hret1 & _ & Hd1).
  fold n0 in Hp1, Hn1.
  destruct (next_count_inv _ _ Hd1 ltac:(rewrite Hn1; unfold U64_MAX; lia)) as (p2 & d2 & E2 & Hp2 & Hn2 & Hret2 & _ & Hd2).
  rewrite Hp1, Hp2, Hn1 in Hd2. set (n := (n0 + 1)%N) in *.
  assert (valid_id (mkId r (Normal n)) = true) as Hv.
  { apply valid_id_spec. split; [done|]. cbn. apply andb_true_intro. rewrite !N.leb_le. unfold I64_MAX. lia. }
  assert (into_signed (Normal n) = Z.of_N n) as Hsn by (apply normal_signed; unfold I64_MAX; lia).
  destruct (placed_fresh tl d2 r (Normal n) p (room_id p) (origin_server_ts p) json) as (Hinv' & Hst & Hiff);
    [done..|rewrite Hsn, Hn2, Hn1; fold n0; lia|].
  eexists n, _. split_and!; [|exact Hinv'|exact Hd2|..|exact Hiff|].
  - unfold insert_pdu. rewrite E1. cbn [map_err fst snd]. rewrite E2. cbn [map_err fst snd]. rewrite Hp1, Hp2, Hn1. fold n.
    unfold append_pdu_json. by rewrite prepend_eq.
  - intros late. by apply (get_pdu_at _ r (Normal n)).
  - unfold get_pdu_count. rewrite (get_pdu_id_at _ r (Normal n) p Hinv' Hst). cbn [result_map]. unfold pdu_count. by rewrite id_of_raw.
  - intros c Hc Hin. cbn [ahead]. rewrite Hsn.
    pose proof (tl_drawn _ Hinv r c (proj2 (valid_id_spec r c) (conj Hr Hc)) Hin) as Hdr. fold n0 in Hdr. lia.
  - change (current_count d2 < n)%N. unfold current_count, counter_current. rewrite Hret2, Hret1.
    assert (retired (counter (get_data tl)) <= n0)%N; [|lia]. apply retired_le, Forall_forall.
    intros id Hid%(inv_held _ _ Hd)%(inv_range _ _ Hd). apply Hid.
Qed.

(** A backfilled event is stored at a count below every one in the room's
    timeline and reads back by its id; nothing else in any timeline changes. *)
Theorem timeline_prepend tl ids r room p json :
  timeline_inv tl → data_inv (get_data tl) ids → (dispatched (counter (get_data tl)) < Z.to_N I64_MAX)%N →
  (r <= U64_MAX)%N → pdu_from_json json = Some p → in_no_timeline tl (event_id p) →
  ∃ n tl', insert_backfilled tl r room p json = Ok (n, tl')
    ∧ timeline_inv tl' ∧ data_inv (get_data tl') ids
    ∧ (∀ late, get_pdu late tl' (event_id p) = Ok p)
    ∧ (∀ c, valid_count c = true → in_timeline (pduid_pdu tl) r c → ahead Backward c (Backfilled (- Z.of_N n)))
    ∧ (∀ r' c' p', valid_id (mkId r' c') = true →
         stored_at tl' r' c' p' ↔ stored_at tl r' c' p' ∨ r' = r ∧ c' = Backfilled (- Z.of_N n) ∧ p' = p).
Proof.
  intros Hinv Hd Hlt Hr Hj Hno. set (n0 := dispatched (counter (get_data tl))) in *. unfold I64_MAX in Hlt.
  set (n := (n0 + 1)%N). set (c0 := Backfilled (- Z.of_N n)).
  assert (valid_id (mkId r c0) = true) as Hv.
  { apply valid_id_spec. split; [done|]. cbn. apply andb_true_intro. rewrite Z.leb_le, Z.ltb_lt. unfold I64_MIN. lia. }
  destruct (with_count_spec CountError get_data set_data tl (λ n tl,
    if (n <=? Z.to_N I64_MAX)%N then
      prepend_backfill_pdu tl (raw_from_id (mkId r (Backfilled (0 - Z.of_N n)))) room (event_id p) (origin_server_ts p) json
    else Err CountOverflow) ids) as (d & d' & u & Hu & He & Hn' & Hd'); [done|done|fold n0; unfold U64_MAX; lia|..].
  { intros d. fold n0. fold n. rewrite (proj2 (N.leb_le n _)) by (unfold I64_MAX; lia). rewrite prepend_eq. by eexists. }
  fold n0 in Hu, He, Hn'. fold n in Hu, He, Hn'. rewrite (proj2 (N.leb_le n _)) in Hu by (unfold I64_MAX; lia).
  rewrite prepend_eq in Hu. injection Hu as <-.
  destruct (placed_fresh tl d' r c0 p room (origin_server_ts p) json) as (Hinv' & Hst & Hiff);
    [done..|cbn [into_signed c0]; rewrite Hn'; fold n0; lia|].
  eexists n, _. split_and!; [exact He|exact Hinv'|exact Hd'|intros late; by apply (get_pdu_at _ r c0)| |exact Hiff].
  intros c Hc Hin. cbn [ahead into_signed].
  pose proof (tl_drawn _ Hinv r c (proj2 (valid_id_spec r c) (conj Hr Hc)) Hin) as Hdr. fold n0 in Hdr. lia.
Qed.
End properties.


(** Deleting a room's events empties its timeline, keeps every other
    room's and leaves the indices consistent. *)
Theorem timeline_delete `{Engine, JsonParser, Identifiers, Lru, Digest, PduJson} (tl : Timeline) (room : string) (r : N) :
  timeline_inv tl → find_room tl room = Ok r → (r <= U64_MAX)%N →
  (dispatched (counter (get_data tl)) <= Z.to_N I64_MAX)%N →
  ∃ tl', delete_pdus tl room = (Ok tt, tl') ∧ timeline_inv tl' ∧ states tl' = states tl
    ∧ ∀ r' c p, valid_id (mkId r' c) = true → stored_at tl' r' c p ↔ stored_at tl r' c p ∧ r' ≠ r.
Proof.
  intros Hinv Hroom Hr Hn. unfold delete_pdus, count_to_id. rewrite Hroom. set (from := pdu_count_to_id r count_min Forward).
  change (raw_stream_from (pduid_pdu tl) (as_bytes from)) with (scan_rows Forward (pduid_pdu tl) (as_bytes from)).
  destruct (room_rows_spec Forward (pduid_pdu tl) r from _ (key_of_words r (saturating_inc count_min Forward))) as (_ & ND & Hrows).
  set (rows := room_rows from _) in *.
  destruct (delete_rows_spec room rows tl Hinv ND) as (tl' & He & Hinv' & Hs & Hr'); [by intros k t (? & _)%Hrows|].
  exists tl'. rewrite He. split_and!; [done..|]. intros r' c p [Hr'' Hc]%valid_id_spec. unfold stored_at. rewrite Hr'.
  destruct (decide (key_of r' c ∈ rows.*1)) as [Hin|Hin].
  - apply list_elem_of_fmap in Hin as ([k t] & E & (Hk & _ & Hp)%Hrows). cbn in E. subst k.
    destruct (room_key _ r _ (tl_keyed _ Hinv) Hr ltac:(by rewrite Hk) Hp) as (c' & Hc' & E).
    apply key_of_inj in E as [-> _]; [|by apply valid_id_spec..]. naive_solver.
  - split; [|tauto]. intros (t & Ht & Hp). split; [by exists t|]. intros ->. destruct Hin.
    apply (list_elem_of_fmap_2 fst _ (key_of r c, t)), Hrows. split_and!; [done| |rewrite key_of_words; apply prefix_append].
    assert (as_bytes from = u64_to_be_bytes r +:+ words (saturating_inc count_min Forward)) as -> by apply key_of_words.
    rewrite key_of_words, onward_room, onward_words by done. right. split; [done|].
    pose proof (tl_drawn _ Hinv r c (proj2 (valid_id_spec r c) (conj Hr Hc)) (mk_is_Some _ _ Ht)) as Hdr.
    unfold I64_MAX in Hn. change (into_signed (saturating_inc count_min Forward)) with (I64_MIN + 1)%Z. unfold I64_MIN. lia.
Qed.

(** Of two events of a room with the same timestamp the index by timestamp
    keeps the later one only: the index is the one the second insertion alone
    would have left. *)
Theorem timestamp_index_collides `{Engine, JsonParser, Identifiers, Lru, Digest, PduJson}
    (tl : Timeline) (room : string) (ts : N) (id1 id2 : RawId) (e1 e2 json1 json2 : string) :
  ∃ tl1 tl2 tl2', prepend_backfill_pdu tl id1 room e1 ts json1 = Ok tl1
    ∧ prepend_backfill_pdu tl1 id2 room e2 ts json2 = Ok tl2 ∧ prepend_backfill_pdu tl id2 room e2 ts json2 = Ok tl2'
    ∧ table_rows (roomid_ts_pducount tl2) = table_rows (roomid_ts_pducount tl2').
Proof.
  eexists _, _, _. rewrite !prepend_eq. split_and!; [done..|]. cbn. autorewrite with engine. by rewrite insert_insert_eq.
Qed.

(** ** Witnesses *)

Module TimelineExample.
#[local] Existing Instance ordered_engine.
#[local] Existing Instance ShortExample.json.
#[local] Existing Instance ShortExample.identifiers.
#[local] Existing Instance StatesExample.unbounded.
#[local] Existing Instance StatesExample.digest.

Fixpoint digits (x : positive) : string :=
  match x with xH => "" | xO y => String "0" (digits y) | xI y => String "1" (digits y) end.
Fixpoint undigits (s : string) : positive :=
  match s with
  | EmptyString => xH
  | String a s' => if Ascii.eqb a "0" then xO (undigits s') else xI (undigits s')
  end.

Lemma undigits_digits x : undigits (digits x) = x.
Proof. induction x as [x IH|x IH|]; cbn; by rewrite ?IH. Qed.

(** Events whose text is their id. *)
#[export] Instance pdu_json : PduJson.
Proof.
  refine {|
    pdu_from_json t := if utf8_valid t then Some (mkPduEvent t "!r:a" "@u:a" 5 None) else None;
    map_from_json t := decode (undigits t);
    map_to_json m := digits (encode m);
    int_to_json z := digits (encode z);
  |}.
  - intros t p. by destruct (utf8_valid t).
  - intros m. by rewrite undigits_digits, decode_encode.
Defined.

Definition rooms : Short :=
  with_rooms ({["!r:a" := u64_to_be_bytes 7]} : gmap string string) ShortExample.empty.

Definition empty : Timeline :=
  mkTimeline (RoomStates.with_shorts rooms StatesExample.no_rooms) (∅ : Table) (∅ : Table) (∅ : Table) (∅ : Table).

Lemma empty_timeline_inv : timeline_inv empty.
Proof.
  split.
  - intros k [v Hv]. cbn in Hv. by rewrite lookup_empty in Hv.
  - intros k t Ht. cbn in Ht. by rewrite lookup_empty in Ht.
  - intros e k Ht. cbn in Ht. by rewrite lookup_empty in Ht.
  - intros e [t Ht]. cbn in Ht. by rewrite lookup_empty in Ht.
  - intros r c _ [t Ht]. cbn in Ht. by rewrite lookup_empty in Ht.
Qed.

Lemma empty_data : data_inv (get_data empty) ∅.
Proof. exact (short_data _ _ ShortExample.empty_inv). Qed.

(** One event, at count 9. *)
Definition one : Timeline :=
  placed_at (set_data (mkData (∅ : Table) 0 (counter_new 9)) empty) (raw_from_id (mkId 7 (Normal 9))) "!r:a" "$e" 5 "$e".

Definition e : Pdu := mkPduEvent "$e" "!r:a" "@u:a" 5 None.

Lemma one_spec : timeline_inv one ∧ stored_at one 7 (Normal 9) e.
Proof.
  destruct (placed_fresh empty (mkData (∅ : Table) 0 (counter_new 9)) 7 (Normal 9) e "!r:a" 5 "$e" empty_timeline_inv)
    as (Hinv & Hst & _); [vm_compute; reflexivity..|split; vm_compute; congruence|]. exact (conj Hinv Hst).
Qed.
End TimelineExample.

Section timeline_witnesses.
#[local] Existing Instance ordered_engine.
#[local] Existing Instance ShortExample.json.
#[local] Existing Instance ShortExample.identifiers.
#[local] Existing Instance StatesExample.unbounded.
#[local] Existing Instance StatesExample.digest.
Import TimelineExample.

Lemma timeline_append_witness :
  ∃ n tl', insert_pdu (λ _ _ w, w) empty tt 7 e "$e" = Ok (raw_from_id (mkId 7 (Normal n)), (n, (n + 1)%N), (tl', tt))
    ∧ ∀ late, get_pdu late tl' "$e" = Ok e.
Proof.
  destruct (timeline_append (λ _ _ w, w) empty tt ∅ 7 e "$e" empty_timeline_inv empty_data)
    as (n & tl' & He & _ & _ & Hget & _); [vm_compute; congruence..|vm_compute; reflexivity|vm_compute; reflexivity|].
  exists n, tl'. exact (conj He Hget).
Defined.

Lemma timeline_prepend_witness :
  ∃ n tl', insert_backfilled empty 7 "!r:a" e "$e" = Ok (n, tl') ∧ ∀ late, get_pdu late tl' "$e" = Ok e.
Proof.
  destruct (timeline_prepend empty ∅ 7 "!r:a" e "$e" empty_timeline_inv empty_data)
    as (n & tl' & He & _ & _ & Hget & _); [vm_compute; reflexivity|vm_compute; congruence|vm_compute; reflexivity..|].
  exists n, tl'. exact (conj He Hget).
Defined.


Lemma timeline_delete_witness :
  ∃ tl', delete_pdus one "!r:a" = (Ok tt, tl') ∧ ¬ stored_at tl' 7 (Normal 9) e.
Proof.
  destruct (timeline_delete one "!r:a" 7 (proj1 one_spec)) as (tl' & He & _ & _ & Hiff);
    [vm_compute; reflexivity|vm_compute; congruence..|].
  exists tl'. split; [exact He|]. intros Hs. apply Hiff in Hs; [|reflexivity]. destruct Hs as [_ Hs]. congruence.
Defined.
End timeline_witnesses.
