(* ===== verification/AuthChain.v ===== *)
(** * Auth chains ([src/src/service/rooms/auth_chain/mod.rs])

    The auth chain of an event is everything it refers to by auth events,
    directly or not.  Chains are collected by a walk whose fetches complete in
    any order, numbered with short ids, and cached under the numbers of the
    starting events.  [AuthChains] is the two cache tables with the timeline
    the events are read from and the short ids in it.

    Streams polled concurrently yield in any order: [Completion] is the order,
    and a [schedule] picks the fetch of the walk that completes next.  A lookup
    that creates a short id is one step, as in [Short]. *)

From S2P Require Import Prelude Bytes Slices DbCodec DbMap Counter Short Compressor RoomStates PduId Timeline.

(** What is read of an event: its auth events and its room; the room version
    rule that a room is named after its create event, and that event. *)
Class AuthRuma `{Identifiers} := {
  auth_from_json : string → option (list string * string);
  room_create_event_id_as_room_id : string → option bool;
  as_event_id : string → option string;
  auth_events_ok t l room : auth_from_json t = Some (l, room) →
    Forall (λ e, utf8_valid e = true ∧ event_id_ok e = true) l;
}.

(** The order in which concurrent futures finish. *)
Class Completion := {
  complete : ∀ {A : Type}, list A → list A;
  complete_perm : ∀ {A : Type} (l : list A), complete l ≡ₚ l;
}.

Inductive ChainError :=
  | UnknownVersion
  | WrongRoom
  | NotCached
  | OutOfFuel
  | ReadError (e : DbError)
  | ShortError (e : ServiceError).

(** ** Numbers in rows *)

Definition be_words (l : list N) : string := foldr (λ n s, u64_to_be_bytes n +:+ s) "" l.

(** A slice of numbers as a key or a value. *)
Definition ser_shorts (l : list N) : Ser := SSeq (SU64 <$> l).

Fixpoint chunks (count : nat) (s : string) : list string :=
  match count with
  | O => []
  | S count => str_take 8 s :: chunks count (str_drop 8 s)
  end.

(** [chunks_exact]: what is left over is not yielded. *)
Definition chunks_exact (s : string) : list string := chunks (String.length s / 8) s.

(** ** The walk *)

Section walk.
Variable fetch : string → Result ChainError (list string).

(** The fetches pending, the events seen, and those yielded. *)
Record Walk := mkWalk {
  todo : list string;
  seen : gset string;
  yielded : list string;
}.

Definition visit (w : Walk) (auth_event : string) : Walk :=
  if decide (auth_event ∈ seen w) then w
  else mkWalk (todo w ++ [auth_event]) ({[auth_event]} ∪ seen w) (yielded w ++ [auth_event]).

Definition eval (auth_events : list string) (w : Walk) : Walk := foldl visit w auth_events.

(** The [i]-th fetch completes. *)
Definition resume (i : nat) (w : Walk) : option Walk :=
  event_id ← todo w !! i;
  let w := mkWalk (base.delete i (todo w)) (seen w) (yielded w) in
  match fetch event_id with
  | Err _ => Some w
  | Ok auth_events => Some (eval auth_events w)
  end.

Fixpoint walk (fuel : nat) (schedule : nat → nat) (w : Walk) : Result ChainError (list string) :=
  match todo w with
  | [] => Ok (yielded w)
  | pending =>
      match fuel with
      | O => Err OutOfFuel
      | S fuel =>
          match resume (schedule fuel mod length pending) w with
          | Some next => walk fuel schedule next
          | None => Err OutOfFuel
          end
      end
  end.
End walk.

(** ** The service *)

Section chains.
Context `{Engine, JsonParser, Identifiers, Lru, Digest, !AuthRuma, !Completion}.

Record AuthChains := mkChains {
  timeline : Timeline;
  authchainkey_authchain : Table;
  shorteventid_authchain : Table;
}.
Implicit Types (ac : AuthChains) (room e : string).

Definition chain_shorts ac : Short := shorts (states (timeline ac)).
Definition set_shorts (s : Short) ac : AuthChains :=
  mkChains (with_states (with_shorts s (states (timeline ac))) (timeline ac)) (authchainkey_authchain ac)
    (shorteventid_authchain ac).

Definition clear_chains (empty : Table) ac : AuthChains := mkChains (timeline ac) empty empty.

Definition get_event_auth_event_ids (late : string → bool) ac room e : Result ChainError (list string) :=
  let? pdu := map_err ReadError (get auth_from_json (late e) (timeline ac) e) in
  if decide (pdu.2 = room) then Ok pdu.1 else Err WrongRoom.

(** The number of concurrent steps the walk takes, which of the pending
    fetches completes, and which of the two reads of an event finishes first. *)
Record Run := mkRun { fuel : nat; schedule : nat → nat; late : string → bool }.

Section run.
Variable run : Run.

Definition get_event_auth_chain_ids ac room e (named : bool) : Result ChainError (list string) :=
  let seen := if named then match as_event_id room with Some c => {[c]} | None => ∅ end else ∅ in
  walk (get_event_auth_event_ids (late run) ac room) (fuel run) (schedule run) (mkWalk [e] seen []).

Fixpoint number_events (l : list string) (s : Short) : Result ChainError (list N * Short) :=
  match l with
  | [] => Ok ([], s)
  | x :: l' =>
      let? a := map_err ShortError (get_or_create_shorteventid s x) in
      let? b := number_events l' a.2 in
      Ok (a.1 :: b.1, b.2)
  end.

Definition get_event_auth_chain ac room e (named : bool) : Result ChainError (list N * AuthChains) :=
  let? l := get_event_auth_chain_ids ac room e named in
  let? r := number_events (complete l) (chain_shorts ac) in
  Ok (r.1, set_shorts r.2 ac).

Definition put_cached_auth_chain ac (key chain : list N) : Result ChainError AuthChains :=
  let? tb := map_err ReadError (put (authchainkey_authchain ac) (ser_shorts key) (ser_shorts chain)) in
  Ok (mkChains (timeline ac) tb (shorteventid_authchain ac)).

(** On a miss a single event is looked up in the older table. *)
Definition get_cached_auth_chain ac (key : list N) : Result ChainError (list N) :=
  match key with
  | [] => Ok []
  | n :: rest =>
      let? bytes := match qry (authchainkey_authchain ac) (ser_shorts key) with
                    | Ok bytes => Ok bytes
                    | Err _ =>
                        match rest with
                        | [] => map_err (λ _, NotCached) (qry (shorteventid_authchain ac) (SU64 n))
                        | _ => Err NotCached
                        end
                    end in
      ok_or (ReadError (Panicked InvalidLength)) (mapM (from_be_bytes 8) (chunks_exact bytes))
  end.

Definition build_chain ac room (start : N * string) (named : bool) : Result ChainError (list N * AuthChains) :=
  match get_cached_auth_chain ac [start.1] with
  | Ok cached => Ok (cached, ac)
  | Err _ =>
      let? r := get_event_auth_chain ac room start.2 named in
      let? next := put_cached_auth_chain r.2 [start.1] r.1 in
      Ok (r.1, next)
  end.

Fixpoint build_chains (starts : list (N * string)) ac room (named : bool) : Result ChainError (list N * AuthChains) :=
  match starts with
  | [] => Ok ([], ac)
  | start :: starts' =>
      let? a := build_chain ac room start named in
      let? b := build_chains starts' a.2 room named in
      Ok (a.1 ++ b.1, b.2)
  end.

Definition sorted_dedup (l : list N) : list N := dedup (merge_sort N.le l).

Definition get_chunk_auth_chain ac room (starts : list (N * string)) (named : bool) :
    Result ChainError (list N * AuthChains) :=
  match get_cached_auth_chain ac starts.*1 with
  | Ok cached => Ok (cached, ac)
  | Err _ =>
      let? r := build_chains (complete starts) ac room named in
      let chunk := sorted_dedup r.1 in
      let? next := put_cached_auth_chain r.2 starts.*1 chunk in
      Ok (chunk, next)
  end.

Definition NUM_BUCKETS : nat := 50.

Definition add_to_bucket (buckets : list (gset (N * string))) (start : N * string) : list (gset (N * string)) :=
  alter (λ b, {[start]} ∪ b) (N.to_nat (start.1 mod N.of_nat NUM_BUCKETS)) buckets.

Fixpoint bucket_chains (buckets : list (list (N * string))) ac room (named : bool) :
    Result ChainError (list N * AuthChains) :=
  match buckets with
  | [] => Ok ([], ac)
  | bucket :: buckets' =>
      let? a := get_chunk_auth_chain ac room bucket named in
      let? b := bucket_chains buckets' a.2 room named in
      Ok (a.1 ++ b.1, b.2)
  end.

(** The starting events, as they are cut up to be looked up. *)
Definition get_auth_chain ac room (room_version : string) (starting_events : list (list string)) :
    Result ChainError (list N * AuthChains) :=
  let? named := ok_or UnknownVersion (room_create_event_id_as_room_id room_version) in
  let? r := map_err ShortError (multi_get_or_create_shorteventid starting_events (chain_shorts ac)) in
  let buckets := foldl add_to_bucket (replicate NUM_BUCKETS ∅) (zip r.1 (concat starting_events)) in
  let? all := bucket_chains (complete (bset_iter <$> buckets)) (set_shorts r.2 ac) room named in
  Ok (sorted_dedup all.1, all.2).

(** Numbers whose event id cannot be read are left out. *)
Definition event_ids_iter ac room (room_version : string) (starting_events : list (list string)) :
    Result ChainError (list string * AuthChains) :=
  let? r := get_auth_chain ac room room_version starting_events in
  Ok (omap (λ n, ok (get_eventid_from_short (chain_shorts r.2) n)) r.1, r.2).
End run.
End chains.

(** ** What the walk yields *)

Section reach.
Variables (fetch : string → Result ChainError (list string)) (known : gset string).
Implicit Types (w : Walk) (e x a : string).

(** An auth event that is followed: not one known beforehand. *)
Definition auth_link x a : Prop := ∃ l, fetch x = Ok l ∧ a ∈ l ∧ ¬ a ∈ known.
Definition in_chain : string → string → Prop := tc auth_link.

(** Every event met has its links yielded, or is still to be fetched. *)
Record walk_inv e w : Prop := {
  walk_once : NoDup (yielded w);
  walk_seen a : a ∈ seen w ↔ a ∈ known ∨ a ∈ yielded w;
  walk_new a : a ∈ yielded w → ¬ a ∈ known;
  walk_chain a : a ∈ yielded w → in_chain e a;
  walk_todo x : x ∈ todo w → x = e ∨ x ∈ yielded w;
  walk_closed x : x = e ∨ x ∈ yielded w → x ∈ todo w ∨ ∀ a, auth_link x a → a ∈ yielded w;
}.

Definition work (U : gset string) w : nat := (length (todo w) + size (U ∖ list_to_set (yielded w)))%nat.

Lemma walk_start e : walk_inv e (mkWalk [e] known []).
Proof.
  split; cbn; [constructor|set_solver|set_solver|set_solver|set_solver|].
  intros x [->|[]%elem_of_nil]. left. by left.
Qed.

Lemma in_chain_step e x a : x = e ∨ in_chain e x → auth_link x a → in_chain e a.
Proof. intros [->|Hx] Ha; [by apply tc_once|by eapply tc_r]. Qed.

(** An event visited and the work it makes; [done] is the event whose links
    are being visited. *)
Lemma visit_all (U : gset string) e x l w :
  (∀ a, a ∈ l → ¬ a ∈ known → in_chain e a) → (∀ a, in_chain e a → a ∈ U) →
  NoDup (yielded w) → (∀ a, a ∈ seen w ↔ a ∈ known ∨ a ∈ yielded w) →
  (∀ a, a ∈ yielded w → ¬ a ∈ known ∧ in_chain e a) →
  let w' := eval l w in
  NoDup (yielded w') ∧ (∀ a, a ∈ seen w' ↔ a ∈ known ∨ a ∈ yielded w')
  ∧ (∀ a, a ∈ yielded w' → ¬ a ∈ known ∧ in_chain e a)
  ∧ (∀ a, a ∈ yielded w' ↔ a ∈ yielded w ∨ (a ∈ l ∧ ¬ a ∈ known))
  ∧ (∀ a, a ∈ todo w' ↔ a ∈ todo w ∨ (a ∈ yielded w' ∧ ¬ a ∈ yielded w))
  ∧ work U w' = work U w.
Proof.
  intros Hl HU. revert w. induction l as [|y l IH]; intros w ND Hs Hy; cbn [eval foldl].
  { split_and!; try done; [set_solver|]. intros a. split; [by left|]. intros [?|[? ?]]; done. }
  fold (eval l (visit w y)). assert (∀ a, a ∈ l → ¬ a ∈ known → in_chain e a) as Hl' by (intros a Ha; apply Hl; by right). unfold visit. case_decide as Hin.
  - destruct (IH Hl' w ND Hs Hy) as (H1 & H2 & H3 & H4 & H5 & H6). split_and!; try done.
    intros a. rewrite H4, elem_of_cons. apply Hs in Hin. clear -Hin. destruct (decide (a = y)) as [->|]; tauto.
  - assert (¬ y ∈ known ∧ ¬ y ∈ yielded w) as [Hk Hny] by (rewrite Hs in Hin; tauto).
    set (w1 := mkWalk _ _ _).
    destruct (IH Hl' w1) as (H1 & H2 & H3 & H4 & H5 & H6).
    + cbn. apply NoDup_app. split_and!; [done| |apply NoDup_singleton]. by intros a Ha ->%list_elem_of_singleton.
    + intros a. cbn. rewrite elem_of_union, elem_of_singleton, elem_of_app, list_elem_of_singleton, Hs. tauto.
    + intros a. cbn. rewrite elem_of_app, list_elem_of_singleton. intros [Ha| ->]; [by apply Hy|]. split; [done|]. apply Hl; [by left|done].
    + split_and!; try done.
      * intros a. rewrite H4. cbn. rewrite elem_of_app, list_elem_of_singleton, elem_of_cons. destruct (decide (a = y)) as [->|]; tauto.
      * intros a. rewrite H5, H4. cbn. rewrite !elem_of_app, !list_elem_of_singleton.
        clear -Hny Hk. destruct (decide (a = y)) as [->|]; tauto.
      * rewrite H6. unfold work. cbn. rewrite length_app, list_to_set_app_L. cbn.
        assert ({[y]} ⊆ U ∖ list_to_set (yielded w)) as HyU.
        { apply singleton_subseteq_l, elem_of_difference. split; [apply HU, Hl; [by left|done]|by rewrite elem_of_list_to_set]. }
        rewrite union_empty_r_L, <-difference_difference_l_L.
        rewrite (size_difference _ _ HyU). rewrite size_singleton.
        apply subseteq_size in HyU. rewrite size_singleton in HyU. lia.
Qed.

Lemma resume_inv (U : gset string) e i w w' :
  (∀ a, in_chain e a → a ∈ U) → walk_inv e w → resume fetch i w = Some w' →
  walk_inv e w' ∧ (work U w' < work U w)%nat.
Proof.
  intros HU [ND Hs Hn Hc Ht Hcl]. unfold resume. destruct (todo w !! i) as [x|] eqn:Hi; [|done]. cbn [mbind option_bind].
  pose proof (delete_Permutation _ _ _ Hi) as Hp.
  assert (∀ y, y ∈ todo w ↔ y = x ∨ y ∈ base.delete i (todo w)) as Hdel by (intros y; by rewrite Hp, elem_of_cons at 1).
  set (w0 := mkWalk _ _ _). assert (work U w0 < work U w)%nat as Hw.
  { apply Permutation_length in Hp. unfold work. cbn in *. lia. }
  destruct (fetch x) as [l|err] eqn:Hf; intros [= <-].
  - destruct (visit_all U e x l w0) as (H1 & H2 & H3 & H4 & H5 & H6); try done.
    { intros a Ha Hk. apply (in_chain_step e x); [|by exists l]. destruct (Ht x) as [->|Hx]; [by eapply list_elem_of_lookup_2|by left|right; by apply Hc]. }
    { intros a Ha. split; [by apply Hn|by apply Hc]. }
    cbn in H4, H5. split; [split|lia]; try done.
    + intros a Ha. by apply H3.
    + intros a Ha. by apply H3.
    + intros y. rewrite H5. intros [Hy|[Hy _]]; [|by right]. rewrite H4.
      destruct (Ht y) as [->|]; [rewrite Hdel; by right|by left|right; by left].
    + intros y Hy. rewrite H5. destruct (decide (y = e ∨ y ∈ yielded w)) as [Hold|Hnew].
      * destruct (Hcl y Hold) as [[->|Hin]%Hdel|Hall]; [|left; by left|].
        -- right. intros a (l' & Hl' & Ha & Hk). rewrite H4. right. rewrite Hf in Hl'. by injection Hl' as <-.
        -- right. intros a Ha. rewrite H4. left. by apply Hall.
      * left. right. destruct Hy as [->|Hy]; [exfalso; by apply Hnew; left|]. split; [done|]. intros ?. by apply Hnew; right.
  - split; [split|done]; cbn; try done.
    + intros y Hy. apply Ht, Hdel. by right.
    + intros y Hy. destruct (Hcl y Hy) as [[->|Hin]%Hdel|Hall]; [|by left|by right].
      right. intros a (l' & Hl' & _). congruence.
Qed.

Lemma walk_done e w a : walk_inv e w → todo w = [] → in_chain e a → a ∈ yielded w.
Proof.
  intros [_ _ _ _ _ Hcl] Ht Ha.
  assert (∀ x, x = e ∨ x ∈ yielded w → ∀ b, auth_link x b → b ∈ yielded w) as Hall.
  { intros x Hx. destruct (Hcl x Hx) as [Hin|]; [|done]. rewrite Ht in Hin. by apply elem_of_nil in Hin. }
  clear Hcl Ht. assert (∀ x, in_chain x a → x = e ∨ x ∈ yielded w → a ∈ yielded w) as Hg; [|apply (Hg e); [done|by left]].
  clear Ha. intros x Ha. induction Ha as [x y Hl|x y z Hl _ IH]; intros Hx; [by eapply Hall|]. apply IH. right. by eapply Hall.
Qed.

Lemma walk_spec (U : gset string) e (n : nat) (sched : nat → nat) w :
  (∀ a, in_chain e a → a ∈ U) → walk_inv e w → (work U w ≤ n)%nat →
  ∃ l, walk fetch n sched w = Ok l ∧ NoDup l ∧ ∀ a, a ∈ l ↔ in_chain e a.
Proof.
  intros HU. revert w. induction n as [|n IH]; intros w Hinv Hle; cbn [walk]; destruct (todo w) as [|y pending] eqn:Ht.
  2:{ exfalso. unfold work in Hle. rewrite Ht in Hle. cbn in Hle. lia. }
  1,2: exists (yielded w); split; [done|]; split; [apply Hinv|]; intros a; split; [apply Hinv|]; by apply walk_done.
  rewrite <-Ht. pose proof (Nat.mod_upper_bound (sched n) (length (todo w)) ltac:(rewrite Ht; cbn; lia)) as Hi.
  destruct (resume fetch (sched n mod length (todo w)) w) as [w'|] eqn:Hr.
  - destruct (resume_inv U e _ w w' HU Hinv Hr) as [Hinv' Hlt]. apply IH; [done|lia].
  - exfalso. unfold resume in Hr. apply lookup_lt_is_Some in Hi as [x Hx]. rewrite Hx in Hr. cbn in Hr.
    by destruct (fetch x).
Qed.
End reach.

(** ** Rows of numbers *)

Section rows.
Context `{Engine, JsonParser}.
Implicit Types (l k v : list N).

Lemma serialize_words l out :
  serialize_elements false (map serialize_value (SU64 <$> l)) (mkSerializer out false)
  = Ok (mkSerializer (out +:+ be_words l) false).
Proof.
  revert out. induction l as [|n l IH]; intros out; cbn; [by rewrite append_nil_r|].
  rewrite append_assoc. apply IH.
Qed.

Lemma serialize_shorts l : serialize None (ser_shorts l) = Ok (be_words l).
Proof.
  unfold serialize, ser_shorts, serialize_to_vec. cbn [serialize_value]. unfold set_sep. cbn [ser_out].
  by rewrite serialize_words.
Qed.

Lemma put_shorts (tb : Table) k v : put tb (ser_shorts k) (ser_shorts v) = Ok (table_put tb (be_words k) (be_words v)).
Proof. unfold put, bput, bput_raw. cbn [fst snd]. by rewrite !serialize_shorts. Qed.

Lemma qry_shorts (tb : Table) k : qry tb (ser_shorts k) = handle_from (table_rows tb !! be_words k).
Proof. unfold qry, bqry. rewrite serialize_shorts. cbn. by rewrite Map_get_row. Qed.

Lemma qry_short (tb : Table) (n : N) : qry tb (SU64 n) = handle_from (table_rows tb !! be_words [n]).
Proof. unfold qry, bqry. cbn. by rewrite Map_get_row, append_nil_r. Qed.

Lemma length_words l : String.length (be_words l) = (8 * length l)%nat.
Proof.
  induction l as [|n l IH]; [done|]. cbn [be_words foldr length]. fold (be_words l).
  rewrite length_append, IH. unfold u64_to_be_bytes. rewrite length_be_encode. lia.
Qed.

Lemma chunks_words l :
  Forall (λ n, n <= U64_MAX)%N l → mapM (from_be_bytes 8) (chunks_exact (be_words l)) = Some l.
Proof.
  intros Hl. unfold chunks_exact. rewrite length_words, Nat.mul_comm, Nat.div_mul by done.
  induction Hl as [|n l Hn Hl IH]; [done|]. cbn [length chunks be_words foldr]. fold (be_words l).
  unfold u64_to_be_bytes at 1 2. rewrite be_take, be_drop. cbn [mapM].
  rewrite from_be_bytes_encode by by apply u64_width. cbn. fold (be_words l) in IH. by rewrite IH.
Qed.

Lemma words_inj k v :
  Forall (λ n, n <= U64_MAX)%N k → Forall (λ n, n <= U64_MAX)%N v → be_words k = be_words v → k = v.
Proof. intros Hk Hv E. apply chunks_words in Hk, Hv. rewrite E in Hk. congruence. Qed.

Lemma sorted_dedup_spec l : (∀ n, n ∈ sorted_dedup l ↔ n ∈ l) ∧ StronglySorted N.le (sorted_dedup l) ∧ NoDup (sorted_dedup l).
Proof.
  unfold sorted_dedup. split; [intros n; by rewrite elem_of_dedup, merge_sort_Permutation|].
  apply (dedup_sorted N.le). apply StronglySorted_merge_sort; apply _.
Qed.
End rows.

(** ** The caches *)

Section caches.
Context `{Engine, JsonParser, Identifiers, Lru, Digest, !AuthRuma, !Completion}.
(** The rule of the version of each room. *)
Variable named : string → bool.
Implicit Types (tl : Timeline) (ac : AuthChains) (s : Short) (room e a : string) (es : list string) (ns cs : list N).

Definition known_in room : gset string :=
  if named room then match as_event_id room with Some c => {[c]} | None => ∅ end else ∅.

Definition fetch_in tl room e : Result ChainError (list string) :=
  get_event_auth_event_ids (λ _, false) (mkChains tl (pduid_pdu tl) (pduid_pdu tl)) room e.

Definition chain_in tl room : string → string → Prop := in_chain (fetch_in tl room) (known_in room).

(** Nothing of the chain of [e], nor [e], is missing. *)
Definition whole tl room e : Prop :=
  ∀ x, x = e ∨ chain_in tl room e x → ∃ l, fetch_in tl room x = Ok l.

(** An event is an outlier or in a timeline, not both. *)
Definition one_reading tl : Prop :=
  ∀ e, (∃ err, get_non_outlier auth_from_json tl e = Err err) ∨ (∃ err, get_outlier auth_from_json tl e = Err err).

(** [cs] are the numbers of the chains of [es]. *)
Definition covers s tl room es cs : Prop :=
  (∀ e a, e ∈ es → chain_in tl room e a → ∃ c, numbered_as s a c ∧ c ∈ cs)
  ∧ (∀ c, c ∈ cs → ∃ e a, e ∈ es ∧ chain_in tl room e a ∧ numbered_as s a c).

Definition cached_row s tl (key v : string) : Prop :=
  ∃ room es ns cs, es ≠ [] ∧ key = be_words ns ∧ v = be_words cs ∧ Forall2 (numbered_as s) es ns
    ∧ Forall (whole tl room) es ∧ covers s tl room es cs.

Record chains_inv ac (ids : gset N) : Prop := {
  chains_short : short_inv (chain_shorts ac) ids;
  chains_one : one_reading (timeline ac);
  chains_rows key v : table_rows (authchainkey_authchain ac) !! key = Some v →
    cached_row (chain_shorts ac) (timeline ac) key v;
  chains_old key v : table_rows (shorteventid_authchain ac) !! key = Some v →
    cached_row (chain_shorts ac) (timeline ac) key v;
}.

(** *** Reading *)

Lemma fetch_late (late : string → bool) ac room e l :
  one_reading (timeline ac) →
  get_event_auth_event_ids late ac room e = Ok l ↔ fetch_in (timeline ac) room e = Ok l.
Proof.
  intros Hx1. unfold fetch_in, get_event_auth_event_ids, get. cbn [timeline].
  destruct (Hx1 e) as [[err E]|[err E]]; rewrite E;
    [destruct (get_outlier _ _ _)|destruct (get_non_outlier _ _ _)]; cbn; done.
Qed.

Lemma in_chain_ext (f g : string → Result ChainError (list string)) (known : gset string) e a :
  (∀ x l, f x = Ok l ↔ g x = Ok l) → in_chain f known e a ↔ in_chain g known e a.
Proof.
  intros Hfg. assert (∀ x y, auth_link f known x y ↔ auth_link g known x y) as Hl.
  { intros x y. unfold auth_link. by setoid_rewrite Hfg. }
  split; (induction 1 as [x y Hx|x y z Hx _ IH]; [apply tc_once|eapply tc_l; [|exact IH]]; by apply Hl).
Qed.

Lemma chain_ids_spec (run : Run) ac room e (U : gset string) :
  one_reading (timeline ac) → (∀ a, chain_in (timeline ac) room e a → a ∈ U) → (S (size U) ≤ fuel run)%nat →
  ∃ l, get_event_auth_chain_ids run ac room e (named room) = Ok l ∧ NoDup l
    ∧ ∀ a, a ∈ l ↔ chain_in (timeline ac) room e a.
Proof.
  intros Hx1 HU Hf. unfold get_event_auth_chain_ids. fold (known_in room).
  set (f := get_event_auth_event_ids (late run) ac room).
  assert (∀ a, in_chain f (known_in room) e a ↔ chain_in (timeline ac) room e a) as Hc.
  { intros a. apply in_chain_ext. intros x l. by apply fetch_late. }
  destruct (walk_spec f (known_in room) U e (fuel run) (schedule run) (mkWalk [e] (known_in room) []))
    as (l & Hl & ND & Hin).
  - intros a Ha. by apply HU, Hc.
  - apply walk_start.
  - unfold work. cbn. by rewrite difference_empty_L.
  - exists l. split_and!; [done..|]. intros a. by rewrite Hin.
Qed.

Lemma fetch_room tl room room' e l l' : fetch_in tl room e = Ok l → fetch_in tl room' e = Ok l' → room = room'.
Proof.
  unfold fetch_in, get_event_auth_event_ids. destruct (get _ _ _ _) as [[x r]|]; [|done]. cbn.
  by repeat case_decide; intros; simplify_eq.
Qed.

(** *** Numbering *)

Lemma number_events_spec l s ids :
  short_inv s ids → (last_number s + N.of_nat (length l) <= U64_MAX)%N →
  ∃ ns s', number_events l s = Ok (ns, s') ∧ short_inv s' ids ∧ extends s s' ∧ Forall2 (numbered_as s') l ns
    ∧ (last_number s' <= last_number s + N.of_nat (length l))%N.
Proof.
  revert s. induction l as [|e l IH]; intros s Hinv Hb; cbn [number_events length] in *.
  { exists [], s. split_and!; [done|done|apply extends_refl|constructor|lia]. }
  destruct (get_or_create_shorteventid_spec s ids e Hinv ltac:(lia)) as (n & s1 & -> & Hinv1 & He1 & Hv & Hn & _ & Hl).
  cbn [map_err fst snd]. destruct (IH s1 Hinv1 ltac:(lia)) as (ns & s2 & -> & Hinv2 & He2 & Hns & Hl2).
  exists (n :: ns), s2. split_and!; [done|done|by eapply extends_trans| |lia].
  constructor; [|done]. by eapply numbered_as_extends; [|split].
Qed.

Lemma covers_extends s s' tl room es cs : extends s s' → covers s tl room es cs → covers s' tl room es cs.
Proof.
  intros He [Hx1 Hx2]. split.
  - intros e a Hin Ha. destruct (Hx1 e a Hin Ha) as (c & Hc & Hcs). exists c. split; [by eapply numbered_as_extends|done].
  - intros c Hc. destruct (Hx2 c Hc) as (e & a & Hin & Ha & Hn). exists e, a. split_and!; [done..|by eapply numbered_as_extends].
Qed.

Lemma covers_ext s tl room es es' cs cs' :
  (∀ e, e ∈ es ↔ e ∈ es') → (∀ c, c ∈ cs ↔ c ∈ cs') → covers s tl room es cs → covers s tl room es' cs'.
Proof.
  intros Hes Hcs [Hx1 Hx2]. split.
  - intros e a He Ha. destruct (Hx1 e a (proj2 (Hes e) He) Ha) as (c & Hc & Hin). exists c. by rewrite <-Hcs.
  - intros c Hc. destruct (Hx2 c (proj2 (Hcs c) Hc)) as (e & a & He & Hrest). exists e, a. by rewrite <-Hes.
Qed.

Lemma covers_app s tl room es es' cs cs' :
  covers s tl room es cs → covers s tl room es' cs' → covers s tl room (es ++ es') (cs ++ cs').
Proof.
  intros [Hx1 Hx2] [Hx3 Hx4]. split.
  - intros e a [He|He]%elem_of_app Ha; [destruct (Hx1 e a He Ha) as (c & Hc & Hin)|destruct (Hx3 e a He Ha) as (c & Hc & Hin)];
      exists c; (split; [done|]); set_solver.
  - intros c [Hc|Hc]%elem_of_app; [destruct (Hx2 c Hc) as (e & a & He & Hr)|destruct (Hx4 c Hc) as (e & a & He & Hr)];
      exists e, a; (split; [|done]); set_solver.
Qed.

Lemma covers_nil s tl room : covers s tl room [] [].
Proof. split; [by intros e a ?%elem_of_nil|by intros c ?%elem_of_nil]. Qed.

Lemma numbered_width s ids e n : short_inv s ids → numbered_as s e n → (n <= U64_MAX)%N.
Proof. intros Hinv [_ Hn]. pose proof (short_width _ _ Hinv). lia. Qed.

Lemma numbered_unique s ids e e' n : short_inv s ids → numbered_as s e n → numbered_as s e' n → e = e'.
Proof. intros Hinv [Hv _] [Hv' _]. by eapply (numbered_inj _ _ (short_events _ _ Hinv)). Qed.

Lemma covers_width s ids tl room es cs : short_inv s ids → covers s tl room es cs → Forall (λ n, n <= U64_MAX)%N cs.
Proof.
  intros Hinv [_ Hx2]. apply Forall_forall. intros c Hc. destruct (Hx2 c Hc) as (e & a & _ & _ & Hn). by eapply numbered_width.
Qed.

Lemma numbers_width s ids es ns : short_inv s ids → Forall2 (numbered_as s) es ns → Forall (λ n, n <= U64_MAX)%N ns.
Proof. intros Hinv Hf. eapply Forall2_Forall_r; [exact Hf|]. apply Forall_forall. intros e _ n. by eapply numbered_width. Qed.

Lemma cached_row_extends s s' tl key v : extends s s' → cached_row s tl key v → cached_row s' tl key v.
Proof.
  intros He (room & es & ns & cs & Hne & -> & -> & Hns & Hw & Hc). exists room, es, ns, cs. split_and!; [done..| |done|].
  - eapply Forall2_impl; [exact Hns|]. intros e n. by apply numbered_as_extends.
  - by eapply covers_extends.
Qed.

(** *** The tables *)

(** Operations number events and leave those stored alone. *)
Definition moved ac ac' : Prop :=
  extends (chain_shorts ac) (chain_shorts ac') ∧ ∃ st, timeline ac' = with_states st (timeline ac).

Lemma moved_refl ac : moved ac ac.
Proof. split; [apply extends_refl|]. exists (states (timeline ac)). by destruct (timeline ac). Qed.

Lemma moved_trans ac1 ac2 ac3 : moved ac1 ac2 → moved ac2 ac3 → moved ac1 ac3.
Proof. intros [He [st E]] [He' [st' E']]. split; [by eapply extends_trans|]. exists st'. by rewrite E', E. Qed.

Lemma moved_chain ac ac' : moved ac ac' → chain_in (timeline ac') = chain_in (timeline ac).
Proof. by intros [_ [st ->]]. Qed.

Lemma moved_whole ac ac' : moved ac ac' → whole (timeline ac') = whole (timeline ac).
Proof. by intros [_ [st ->]]. Qed.

Lemma moved_covers ac ac' room es cs :
  moved ac ac' → covers (chain_shorts ac) (timeline ac) room es cs → covers (chain_shorts ac') (timeline ac') room es cs.
Proof. intros [He [st E]] Hc. rewrite E. by apply (covers_extends _ _ (timeline ac) room es cs He). Qed.

Lemma set_shorts_inv s ac ids :
  chains_inv ac ids → extends (chain_shorts ac) s → short_inv s ids → chains_inv (set_shorts s ac) ids ∧ moved ac (set_shorts s ac).
Proof.
  intros [Hs Hone Hr Ho] He Hinv. split; [|split; [done|by eexists]].
  split; [done|done| |]; intros key v Hv; apply (cached_row_extends _ s (timeline ac) key v He); by auto.
Qed.

Lemma row_hit ac ids room es ns v :
  chains_inv ac ids → cached_row (chain_shorts ac) (timeline ac) (be_words ns) v →
  Forall2 (numbered_as (chain_shorts ac)) es ns → Forall (whole (timeline ac) room) es →
  ∃ cs, mapM (from_be_bytes 8) (chunks_exact v) = Some cs ∧ covers (chain_shorts ac) (timeline ac) room es cs.
Proof.
  intros Hinv (room' & es' & ns' & cs & Hne & Ek & -> & Hns' & Hw' & Hc) Hns Hw. pose proof (chains_short _ _ Hinv) as Hs.
  apply words_inj in Ek as <-; [|by eapply numbers_width..].
  assert (es' = es) as ->.
  { clear -Hns Hns' Hs. revert es' Hns'. induction Hns as [|e n es ns He Hns IH]; intros es' Hns'; inversion Hns'; [done|].
    f_equal; [by eapply numbered_unique|by apply IH]. }
  assert (room' = room) as ->.
  { destruct es as [|e es]; [done|]. apply Forall_cons in Hw as [Hw _]. apply Forall_cons in Hw' as [Hw' _].
    destruct (Hw e) as [l Hl]; [by left|]. destruct (Hw' e) as [l' Hl']; [by left|]. by eapply fetch_room. }
  exists cs. split; [|done]. apply chunks_words. by eapply covers_width.
Qed.

Lemma get_cached_spec ac ids room es ns cs :
  chains_inv ac ids → Forall2 (numbered_as (chain_shorts ac)) es ns → Forall (whole (timeline ac) room) es →
  get_cached_auth_chain ac ns = Ok cs → covers (chain_shorts ac) (timeline ac) room es cs.
Proof.
  intros Hinv Hns Hw. unfold get_cached_auth_chain. destruct ns as [|n rest].
  { inversion Hns. intros [= <-]. apply covers_nil. }
  rewrite qry_shorts, qry_short.
  destruct (table_rows (authchainkey_authchain ac) !! be_words (n :: rest)) as [v|] eqn:Hv; cbn [handle_from ok_or].
  - destruct (row_hit ac ids room es (n :: rest) v) as (cs' & -> & Hc); [done|by apply (chains_rows _ _ Hinv)|done..|].
    by intros [= <-].
  - destruct rest; [|done]. destruct (table_rows (shorteventid_authchain ac) !! be_words [n]) as [v|] eqn:Ho; [|done].
    destruct (row_hit ac ids room es [n] v) as (cs' & Hm & Hc); [done|by apply (chains_old _ _ Hinv)|done..|].
    cbn [handle_from ok_or map_err]. rewrite Hm. by intros [= <-].
Qed.

Lemma put_cached_spec ac ids room es ns cs :
  chains_inv ac ids → es ≠ [] → Forall2 (numbered_as (chain_shorts ac)) es ns → Forall (whole (timeline ac) room) es →
  covers (chain_shorts ac) (timeline ac) room es cs →
  ∃ ac', put_cached_auth_chain ac ns cs = Ok ac' ∧ chains_inv ac' ids ∧ timeline ac' = timeline ac.
Proof.
  intros [Hs Hone Hr Ho] Hne Hns Hw Hc. unfold put_cached_auth_chain. rewrite put_shorts. eexists. split; [done|].
  split; [|done]. split; try done. intros key v. cbn. rewrite table_put_rows.
  intros [[<- <-]|[_ Hv]]%lookup_insert_Some; [by exists room, es, ns, cs|by apply Hr].
Qed.

(** *** Chains of events *)

Lemma same_timeline_moved ac ac' : timeline ac' = timeline ac → moved ac ac'.
Proof.
  intros E. unfold moved, chain_shorts. rewrite E. split; [apply extends_refl|]. exists (states (timeline ac)).
  by destruct (timeline ac).
Qed.

Lemma event_chain_spec (run : Run) ac ids room e (U : gset string) :
  chains_inv ac ids → (∀ a, chain_in (timeline ac) room e a → a ∈ U) → (S (size U) ≤ fuel run)%nat →
  (last_number (chain_shorts ac) + N.of_nat (size U) <= U64_MAX)%N →
  ∃ cs ac', get_event_auth_chain run ac room e (named room) = Ok (cs, ac') ∧ chains_inv ac' ids ∧ moved ac ac'
    ∧ covers (chain_shorts ac') (timeline ac') room [e] cs
    ∧ (last_number (chain_shorts ac') <= last_number (chain_shorts ac) + N.of_nat (size U))%N.
Proof.
  intros Hinv HU Hf Hb. destruct (chain_ids_spec run ac room e U (chains_one _ _ Hinv) HU Hf) as (l & Hl & ND & Hin).
  unfold get_event_auth_chain. rewrite Hl.
  assert (length (complete l) ≤ size U)%nat as Hlen.
  { rewrite complete_perm, <-(size_list_to_set (C := gset string) l) by done. apply subseteq_size.
    intros a Ha%elem_of_list_to_set. by apply HU, Hin. }
  destruct (number_events_spec (complete l) (chain_shorts ac) ids (chains_short _ _ Hinv)) as (cs & s' & -> & Hs' & He & Hns & Hb'); [lia|].
  destruct (set_shorts_inv s' ac ids Hinv He Hs') as [Hinv' Hm].
  exists cs, (set_shorts s' ac). cbn [fst snd]. split_and!; [done..| |cbn; lia].
  assert (∀ a, a ∈ complete l ↔ chain_in (timeline (set_shorts s' ac)) room e a) as Hin'.
  { intros a. rewrite complete_perm, Hin. by rewrite (moved_chain _ _ Hm). }
  split.
  - intros e' a ->%list_elem_of_singleton Ha%Hin'. apply list_elem_of_lookup in Ha as [i Hi].
    destruct (Forall2_lookup_l _ _ _ _ _ Hns Hi) as (c & Hc & Hn). exists c. split; [done|by eapply list_elem_of_lookup_2].
  - intros c Hc. apply list_elem_of_lookup in Hc as [i Hi].
    destruct (Forall2_lookup_r _ _ _ _ _ Hns Hi) as (a & Ha & Hn). exists e, a. split_and!; [by left| |done].
    apply Hin'. by eapply list_elem_of_lookup_2.
Qed.

Lemma build_chain_spec (run : Run) ac ids room (start : N * string) (U : gset string) :
  chains_inv ac ids → numbered_as (chain_shorts ac) start.2 start.1 → whole (timeline ac) room start.2 →
  (∀ a, chain_in (timeline ac) room start.2 a → a ∈ U) → (S (size U) ≤ fuel run)%nat →
  (last_number (chain_shorts ac) + N.of_nat (size U) <= U64_MAX)%N →
  ∃ cs ac', build_chain run ac room start (named room) = Ok (cs, ac') ∧ chains_inv ac' ids ∧ moved ac ac'
    ∧ covers (chain_shorts ac') (timeline ac') room [start.2] cs
    ∧ (last_number (chain_shorts ac') <= last_number (chain_shorts ac) + N.of_nat (size U))%N.
Proof.
  intros Hinv Hn Hw HU Hf Hb. unfold build_chain. destruct (get_cached_auth_chain ac [start.1]) as [cs|] eqn:Hg.
  - exists cs, ac. split_and!; [done|done|apply moved_refl| |lia].
    eapply get_cached_spec; [done| | |exact Hg]; (constructor; [done|constructor]).
  - destruct (event_chain_spec run ac ids room start.2 U Hinv HU Hf Hb) as (cs & ac1 & -> & Hinv1 & Hm & Hc & Hb1).
    cbn [fst snd].
    destruct (put_cached_spec ac1 ids room [start.2] [start.1] cs) as (ac2 & -> & Hinv2 & Ht); [done|done| | |done|].
    + constructor; [|constructor]. eapply numbered_as_extends; [apply Hm|done].
    + rewrite (moved_whole _ _ Hm). constructor; [done|constructor].
    + apply same_timeline_moved in Ht as Hm'. exists cs, ac2. split_and!; [done|done|by eapply moved_trans| |].
      * by eapply moved_covers.
      * unfold chain_shorts in *. by rewrite Ht.
Qed.

(** *** Many starting events *)

(** Starting events with their numbers, whose chains are whole and in [U]. *)
Definition starts_ok ac room (U : gset string) (starts : list (N * string)) : Prop :=
  Forall (λ p, numbered_as (chain_shorts ac) p.2 p.1 ∧ whole (timeline ac) room p.2
    ∧ ∀ a, chain_in (timeline ac) room p.2 a → a ∈ U) starts.

Lemma starts_moved ac ac' room U starts : moved ac ac' → starts_ok ac room U starts → starts_ok ac' room U starts.
Proof.
  intros Hm. unfold starts_ok. rewrite (moved_whole _ _ Hm), (moved_chain _ _ Hm). intros Hs. eapply Forall_impl; [exact Hs|]. intros p (Hn & Hrest).
  split; [|done]. eapply numbered_as_extends; [apply Hm|done].
Qed.

(** What an operation on starting events gives. *)
Definition chains_of ac ids room (U : gset string) (starts : list (N * string)) (r : Result ChainError (list N * AuthChains)) : Prop :=
  ∃ cs ac', r = Ok (cs, ac') ∧ chains_inv ac' ids ∧ moved ac ac'
    ∧ covers (chain_shorts ac') (timeline ac') room starts.*2 cs
    ∧ (last_number (chain_shorts ac') <= last_number (chain_shorts ac) + N.of_nat (length starts * size U))%N.

Definition enough (run : Run) ac (U : gset string) (count : nat) : Prop :=
  (S (size U) ≤ fuel run)%nat ∧ (last_number (chain_shorts ac) + N.of_nat (count * size U) <= U64_MAX)%N.

Lemma chains_of_nil ac ids room U : chains_inv ac ids → chains_of ac ids room U [] (Ok ([], ac)).
Proof. intros Hinv. exists [], ac. split_and!; [done|done|apply moved_refl|apply covers_nil|lia]. Qed.

(** The results of two operations in a row. *)
Lemma chains_of_app ac ids room U l l' (r : Result ChainError (list N * AuthChains)) k :
  chains_of ac ids room U l r →
  (∀ cs ac', r = Ok (cs, ac') → chains_inv ac' ids → moved ac ac' →
    (last_number (chain_shorts ac') <= last_number (chain_shorts ac) + N.of_nat (length l * size U))%N →
    chains_of ac' ids room U l' (k ac')) →
  chains_of ac ids room U (l ++ l') (let? x := r in let? y := k x.2 in Ok (x.1 ++ y.1, y.2)).
Proof.
  intros (cs & ac1 & -> & Hinv1 & Hm1 & Hc1 & Hb1) Hk. cbn [fst snd].
  destruct (Hk cs ac1 eq_refl Hinv1 Hm1 Hb1) as (cs' & ac2 & -> & Hinv2 & Hm2 & Hc2 & Hb2).
  exists (cs ++ cs'), ac2. split_and!; [done|done|by eapply moved_trans| |].
  - rewrite fmap_app. apply covers_app; [|done]. by eapply moved_covers.
  - rewrite length_app. lia.
Qed.

Lemma build_chains_spec (run : Run) starts ac ids room (U : gset string) :
  chains_inv ac ids → starts_ok ac room U starts → enough run ac U (length starts) →
  chains_of ac ids room U starts (build_chains run starts ac room (named room)).
Proof.
  revert ac. induction starts as [|p starts IH]; intros ac Hinv Hs [Hf Hb]; cbn [build_chains length] in *.
  { by apply chains_of_nil. }
  apply Forall_cons in Hs as [(Hn & Hw & HU) Hs]. apply (chains_of_app ac ids room U [p] starts _ (λ ac, build_chains run starts ac room (named room))).
  - destruct (build_chain_spec run ac ids room p U Hinv Hn Hw HU Hf ltac:(lia)) as (cs & ac1 & -> & Hinv1 & Hm1 & Hc1 & Hb1).
    exists cs, ac1. split_and!; [done..|cbn; lia].
  - intros cs ac1 _ Hinv1 Hm1 Hb1. cbn in Hb1. apply IH; [done|by eapply starts_moved|split; [done|lia]].
Qed.

Lemma numbers_of ac room U starts :
  starts_ok ac room U starts → Forall2 (numbered_as (chain_shorts ac)) starts.*2 starts.*1 ∧ Forall (whole (timeline ac) room) starts.*2.
Proof. induction 1 as [|p l (Hn & Hw & _) _ [IH1 IH2]]; csimpl; split; by constructor. Qed.

Lemma chunk_spec (run : Run) starts ac ids room (U : gset string) :
  chains_inv ac ids → starts_ok ac room U starts → enough run ac U (length starts) →
  chains_of ac ids room U starts (get_chunk_auth_chain run ac room starts (named room)).
Proof.
  intros Hinv Hs Hen. unfold get_chunk_auth_chain. destruct (numbers_of _ _ _ _ Hs) as [Hns Hw].
  destruct (get_cached_auth_chain ac starts.*1) as [cs|] eqn:Hg.
  { exists cs, ac. split_and!; [done|done|apply moved_refl| |lia]. by eapply get_cached_spec. }
  assert (starts ≠ []) as Hne by (by intros ->).
  destruct (build_chains_spec run (complete starts) ac ids room U Hinv) as (cs & ac1 & -> & Hinv1 & Hm1 & Hc1 & Hb1).
  { unfold starts_ok. by rewrite complete_perm. }
  { by rewrite complete_perm. }
  rewrite complete_perm in Hb1. cbn [fst snd]. destruct (sorted_dedup_spec cs) as [Hin _].
  assert (covers (chain_shorts ac1) (timeline ac1) room starts.*2 (sorted_dedup cs)) as Hc.
  { eapply covers_ext; [| |exact Hc1]; [intros e; by rewrite complete_perm|intros c; by rewrite Hin]. }
  destruct (numbers_of _ _ _ _ (starts_moved _ _ _ _ _ Hm1 Hs)) as [Hns1 Hw1].
  destruct (put_cached_spec ac1 ids room starts.*2 starts.*1 (sorted_dedup cs)) as (ac2 & -> & Hinv2 & Ht); [done| |done..|].
  { by destruct starts. }
  apply same_timeline_moved in Ht as Hm2. exists (sorted_dedup cs), ac2. split_and!; [done|done|by eapply moved_trans| |].
  - by eapply moved_covers.
  - unfold chain_shorts in *. by rewrite Ht.
Qed.

Lemma bucket_chains_spec (run : Run) buckets ac ids room (U : gset string) :
  chains_inv ac ids → starts_ok ac room U (concat buckets) → enough run ac U (length (concat buckets)) →
  chains_of ac ids room U (concat buckets) (bucket_chains run buckets ac room (named room)).
Proof.
  revert ac. induction buckets as [|b buckets IH]; intros ac Hinv Hs [Hf Hb]; cbn [bucket_chains concat] in *.
  { by apply chains_of_nil. }
  apply Forall_app in Hs as [Hs1 Hs2]. rewrite length_app in Hb. apply (chains_of_app _ _ _ _ _ _ _ (λ ac, bucket_chains run buckets ac room (named room))).
  - apply chunk_spec; [done..|]. split; [done|lia].
  - intros cs ac1 _ Hinv1 Hm1 Hb1. apply IH; [done|by eapply starts_moved|split; [done|lia]].
Qed.

(** *** Buckets *)

Definition bucketed (p : N * string) (buckets : list (gset (N * string))) : Prop := ∃ b, b ∈ buckets ∧ p ∈ b.

Lemma bucketed_cons (p : N * string) (b : gset (N * string)) (buckets : list (gset (N * string))) : bucketed p (b :: buckets) ↔ p ∈ b ∨ bucketed p buckets.
Proof.
  unfold bucketed. split.
  - intros (b' & [->|Hb]%elem_of_cons & Hp); [by left|right; by exists b'].
  - intros [Hp|(b' & Hb & Hp)]; [exists b|exists b']; (split; [|done]); [by left|by right].
Qed.

Lemma alter_bucket (buckets : list (gset (N * string))) (i : nat) p :
  (i < length buckets)%nat →
  let buckets' := alter (λ b, {[p]} ∪ b) i buckets in
  (∀ q, bucketed q buckets' ↔ q = p ∨ bucketed q buckets)
  ∧ (sum_list_with size buckets' ≤ S (sum_list_with size buckets))%nat.
Proof.
  revert i. induction buckets as [|b buckets IH]; intros [|i] Hi; cbn in Hi; [lia..| |].
  - cbn. split.
    + intros q. rewrite !bucketed_cons, elem_of_union, elem_of_singleton. tauto.
    + assert (size ({[p]} ∪ b) ≤ S (size b))%nat; [|lia]. rewrite size_union_alt, size_singleton.
      apply le_n_S, subseteq_size, subseteq_difference_l. done.
  - destruct (IH i ltac:(lia)) as [Hq Hsz]. cbn in *. split; [|lia].
    intros q. rewrite !bucketed_cons, Hq. tauto.
Qed.

Lemma fill_buckets (starts : list (N * string)) buckets :
  length buckets = NUM_BUCKETS →
  (∀ p, bucketed p (foldl add_to_bucket buckets starts) ↔ p ∈ starts ∨ bucketed p buckets)
  ∧ (sum_list_with size (foldl add_to_bucket buckets starts) ≤ length starts + sum_list_with size buckets)%nat.
Proof.
  revert buckets. induction starts as [|p starts IH]; intros buckets Hlen; cbn [foldl length].
  { split; [|lia]. intros p. split; [by right|]. by intros [?%elem_of_nil|]. }
  destruct (alter_bucket buckets (N.to_nat (p.1 mod N.of_nat NUM_BUCKETS)) p) as [Hq Hsz].
  { rewrite Hlen. pose proof (N.mod_lt p.1 (N.of_nat NUM_BUCKETS) ltac:(done)). lia. }
  destruct (IH (add_to_bucket buckets p)) as [Hin Hsum].
  { unfold add_to_bucket. by rewrite length_alter. }
  fold (add_to_bucket buckets p) in Hq, Hsz. split; [|lia]. intros q. rewrite Hin, Hq, elem_of_cons. tauto.
Qed.

Lemma elem_of_buckets (buckets : list (gset (N * string))) p :
  p ∈ concat (complete (bset_iter <$> buckets)) ↔ bucketed p buckets.
Proof.
  rewrite list_elem_of_In, in_concat. setoid_rewrite <-list_elem_of_In. setoid_rewrite complete_perm. unfold bucketed. split.
  - intros (l & (b & -> & Hb)%list_elem_of_fmap & Hp). exists b. by rewrite <-elem_of_bset_iter.
  - intros (b & Hb & Hp). exists (bset_iter b). split; [by apply list_elem_of_fmap_2|by apply elem_of_bset_iter].
Qed.

Lemma length_buckets (buckets : list (gset (N * string))) :
  length (concat (complete (bset_iter <$> buckets))) = sum_list_with size buckets.
Proof.
  rewrite complete_perm. induction buckets as [|b buckets IH]; [done|]. csimpl. rewrite length_app, IH.
  unfold bset_iter at 1. by rewrite merge_sort_Permutation.
Qed.

Lemma start_pairs s l ns :
  Forall2 (numbered_as s) l ns → length (zip ns l) = length l ∧ (∀ e, e ∈ l ↔ e ∈ (zip ns l).*2)
  ∧ Forall (λ p, numbered_as s p.2 p.1 ∧ p.2 ∈ l) (zip ns l).
Proof.
  induction 1 as [|e n l ns Hn _ (IH1 & IH2 & IH3)]; csimpl; [by split_and!|]. split_and!; [by rewrite IH1| |].
  - intros x. by rewrite !elem_of_cons, IH2.
  - constructor; [split; [done|by left]|]. eapply Forall_impl; [exact IH3|]. intros p [? ?]. split; [done|by right].
Qed.

Lemma get_auth_chain_spec (run : Run) ac ids room version chunks (U : gset string) :
  chains_inv ac ids → room_create_event_id_as_room_id version = Some (named room) → NoDup (concat chunks) →
  (∀ e, e ∈ concat chunks → whole (timeline ac) room e ∧ ∀ a, chain_in (timeline ac) room e a → a ∈ U) →
  enough run ac (U ∪ list_to_set (concat chunks)) (S (length (concat chunks))) →
  ∃ cs ac', get_auth_chain run ac room version chunks = Ok (cs, ac') ∧ chains_inv ac' ids ∧ moved ac ac'
    ∧ StronglySorted N.le cs ∧ NoDup cs ∧ covers (chain_shorts ac') (timeline ac') room (concat chunks) cs.
Proof.
  intros Hinv Hv ND Hst [Hf Hb]. unfold get_auth_chain. rewrite Hv. cbn [ok_or].
  set (l := concat chunks) in *. set (V := U ∪ list_to_set l) in *.
  assert (length l ≤ size V)%nat as HV.
  { rewrite <-(size_list_to_set (C := gset string) l) by done. apply subseteq_size. set_solver. }
  destruct (multi_spec chunks (chain_shorts ac) ids (chains_short _ _ Hinv)) as (ns & s1 & -> & Hs1 & He1 & Hns & _ & Hb1); [fold l; lia|done|].
  fold l in Hns, Hb1. destruct (set_shorts_inv s1 ac ids Hinv He1 Hs1) as [Hinv1 Hm1]. cbn [map_err fst snd].
  destruct (start_pairs s1 l ns Hns) as (Hlen & Hl2 & Hpairs). set (pairs := zip ns l) in *.
  destruct (fill_buckets pairs (replicate NUM_BUCKETS ∅)) as [Hin Hsum]; [apply length_replicate|].
  set (buckets := foldl _ _ _) in *. set (bs := complete (bset_iter <$> buckets)) in *.
  assert (∀ p, p ∈ concat bs ↔ p ∈ pairs) as Hbs.
  { intros p. unfold bs. rewrite elem_of_buckets, Hin. split; [|by left]. intros [|(b & Hb' & Hp)]; [done|].
    apply elem_of_replicate in Hb' as [-> _]. set_solver. }
  assert (length (concat bs) ≤ length l)%nat as Hlen'.
  { unfold bs. rewrite length_buckets. etrans; [exact Hsum|]. rewrite Hlen.
    assert (sum_list_with size (replicate NUM_BUCKETS (∅ : gset (N * string))) = 0) as -> by done. lia. }
  destruct (bucket_chains_spec run bs (set_shorts s1 ac) ids room V Hinv1) as (cs & ac2 & -> & Hinv2 & Hm2 & Hc2 & _).
  { unfold starts_ok. rewrite (moved_chain _ _ Hm1), (moved_whole _ _ Hm1). apply Forall_forall. intros p Hp%Hbs.
    rewrite Forall_forall in Hpairs. destruct (Hpairs p Hp) as [Hn Hpl]. destruct (Hst p.2 Hpl) as [Hw HU].
    split_and!; [done..|]. intros a Ha. apply elem_of_union_l. by apply HU. }
  { split; [done|]. change (chain_shorts (set_shorts s1 ac)) with s1.
    assert (length (concat bs) * size V ≤ length l * size V)%nat by (by apply Nat.mul_le_mono_r). lia. }
  destruct (sorted_dedup_spec cs) as (Hin' & Hso & ND'). cbn [fst snd].
  exists (sorted_dedup cs), ac2. split_and!; [done|done|by eapply moved_trans|done|done|].
  eapply covers_ext; [| |exact Hc2]; [|intros c; by rewrite Hin']. intros e. rewrite Hl2, !list_elem_of_fmap. by setoid_rewrite Hbs.
Qed.

(** *** A store that grows *)

(** Events are added and those read before read the same. *)
Definition grows tl tl' : Prop :=
  one_reading tl' ∧ ∀ e v, get auth_from_json false tl e = Ok v → get auth_from_json false tl' e = Ok v.

Lemma grows_fetch tl tl' room e l : grows tl tl' → fetch_in tl room e = Ok l → fetch_in tl' room e = Ok l.
Proof.
  intros [_ Hg]. unfold fetch_in, get_event_auth_event_ids. cbn [timeline].
  destruct (get auth_from_json false tl e) as [v|] eqn:Hv; [|done]. by rewrite (Hg e v Hv).
Qed.

Lemma chain_trans tl room e x a : chain_in tl room e x → chain_in tl room x a → chain_in tl room e a.
Proof. intros. by etrans. Qed.

(** The chain of a whole event stays as it is. *)
Lemma grows_chain tl tl' room e :
  grows tl tl' → whole tl room e →
  (∀ a, chain_in tl' room e a ↔ chain_in tl room e a) ∧ whole tl' room e.
Proof.
  intros Hg Hw. assert (∀ a, chain_in tl' room e a ↔ chain_in tl room e a) as Hc.
  { intros a. split.
    - intros Ha. revert Hw. induction Ha as [x y (l & Hl & Hy)|x y z (l & Hl & Hy) _ IH]; intros Hw;
        (destruct (Hw x) as [l' Hl']; [by left|]); pose proof (grows_fetch _ _ _ _ _ Hg Hl'); assert (l' = l) as -> by congruence;
        assert (chain_in tl room x y) as Hxy by (apply tc_once; by exists l); [done|].
      apply (chain_trans tl room x y z Hxy), IH. intros u [->|Hu]; apply Hw; right; [done|by eapply chain_trans].
    - induction 1 as [x y (l & Hl & Hy)|x y z (l & Hl & Hy) _ IH]; [apply tc_once|eapply tc_l; [|apply IH]];
        try (exists l; split; [by eapply grows_fetch|done]).
      intros u [->|Hu]; apply Hw; right; [|eapply chain_trans; [|exact Hu]]; apply tc_once; by exists l. }
  split; [done|]. intros x Hx. rewrite Hc in Hx. destruct (Hw x Hx) as [l Hl]. exists l. by eapply grows_fetch.
Qed.

(** A set of events that has the auth events of its members. *)
Lemma closed_whole tl room (S : gset string) e :
  (∀ x, x ∈ S → ∃ l, fetch_in tl room x = Ok l ∧ ∀ a, a ∈ l → a ∈ S) → e ∈ S →
  whole tl room e ∧ ∀ a, chain_in tl room e a → a ∈ S.
Proof.
  intros HS He. assert (∀ x, x ∈ S → ∀ a, chain_in tl room x a → a ∈ S) as Hin.
  { intros x Hx a Ha. induction Ha as [x y (l & Hl & Hy & _)|x y z (l & Hl & Hy & _) _ IH];
      destruct (HS x Hx) as (l' & Hl' & Hsub); assert (l' = l) as -> by congruence; by auto. }
  split; [|by apply Hin]. intros x Hx. destruct (HS x) as (l & Hl & _); [|by exists l].
  destruct Hx as [->|Hx]; [done|by apply (Hin e)].
Qed.

Lemma cached_row_grows s tl tl' key v : grows tl tl' → cached_row s tl key v → cached_row s tl' key v.
Proof.
  intros Hg (room & es & ns & cs & Hne & -> & -> & Hns & Hw & Hc1 & Hc2).
  assert (∀ e, e ∈ es → (∀ a, chain_in tl' room e a ↔ chain_in tl room e a) ∧ whole tl' room e) as Hsame.
  { intros e He. apply grows_chain; [done|]. rewrite Forall_forall in Hw. by apply Hw. }
  exists room, es, ns, cs. split_and!; [done..| |split].
  - apply Forall_forall. intros e He. by apply Hsame.
  - intros e a He Ha. apply (Hc1 e a He). by apply (Hsame e He).
  - intros c Hc. destruct (Hc2 c Hc) as (e & a & He & Ha & Hn). exists e, a. split_and!; [done|by apply (Hsame e He)|done].
Qed.

(** Storing an event in its timeline, whether it was known as an outlier or
    not, changes no other event. *)
Lemma timeline_one_reading tl :
  (∀ e, is_Some (table_rows (eventid_outlierpdu tl) !! e) → table_rows (eventid_pduid tl) !! e = None) → one_reading tl.
Proof.
  intros Ho e. destruct (table_rows (eventid_outlierpdu tl) !! e) as [t|] eqn:Ht.
  - left. unfold get_non_outlier, get_pdu_id. rewrite Map_get_row, (Ho e) by by rewrite Ht. by eexists.
  - right. unfold get_outlier. rewrite Map_get_row, Ht. by eexists.
Qed.

Lemma placed_grows tl pdu_id room e ts json :
  (∀ x, is_Some (table_rows (eventid_outlierpdu tl) !! x) → table_rows (eventid_pduid tl) !! x = None) →
  (∀ x k, table_rows (eventid_pduid tl) !! x = Some k → is_Some (table_rows (pduid_pdu tl) !! k)) →
  table_rows (eventid_pduid tl) !! e = None → table_rows (pduid_pdu tl) !! as_bytes pdu_id = None →
  raw_from_bytes (as_bytes pdu_id) = Some pdu_id →
  (∀ t, table_rows (eventid_outlierpdu tl) !! e = Some t → t = json) →
  grows tl (placed_at tl pdu_id room e ts json).
Proof.
  intros Ho Hix He Hk Hraw Hsame. split.
  { apply timeline_one_reading. cbn. rewrite table_put_rows, table_del_rows. intros x [t [Hne Ht]%lookup_delete_Some].
    rewrite lookup_insert_ne by done. by apply Ho. }
  intros x v. unfold get, get_non_outlier, get_pdu_id, get_from_id, get_outlier, placed_at.
  cbn [pduid_pdu eventid_pduid eventid_outlierpdu].
  rewrite !Map_get_row, table_put_rows, table_del_rows. destruct (decide (x = e)) as [->|Hne].
  - rewrite lookup_insert_eq, lookup_delete_eq, He. cbn [handle_from ok_or].
    destruct (table_rows (eventid_outlierpdu tl) !! e) as [t|] eqn:Ht; [|done]. rewrite (Hsame t eq_refl).
    rewrite Hraw. cbn [ok_or]. rewrite Map_get_row, table_put_rows, lookup_insert_eq. cbn [handle_from ok_or].
    by destruct (read_json auth_from_json (Ok json)).
  - rewrite lookup_insert_ne, lookup_delete_ne by done.
    destruct (table_rows (eventid_pduid tl) !! x) as [k|] eqn:Hx; [|done]. cbn [handle_from ok_or].
    destruct (raw_from_bytes k) as [raw|] eqn:Hr; [|done]. cbn [ok_or]. rewrite !Map_get_row, table_put_rows.
    rewrite lookup_insert_ne; [done|]. intros E. assert (k = as_bytes raw) as Ek by (revert Hr; unfold raw_from_bytes; repeat case_match; by intros [= <-]). subst k.
    rewrite <-E in Hx. destruct (Hix x _ Hx) as [t Ht]. congruence.
Qed.

(** *** Every reachable state *)

(** The events whose chain is asked for are there with their chains, [run]
    takes steps enough and numbers are left. *)
Definition askable (run : Run) ac room version (chunks : list (list string)) : Prop :=
  room_create_event_id_as_room_id version = Some (named room) ∧ NoDup (concat chunks)
  ∧ ∃ U : gset string,
      (∀ e, e ∈ concat chunks → whole (timeline ac) room e ∧ ∀ a, chain_in (timeline ac) room e a → a ∈ U)
      ∧ enough run ac (U ∪ list_to_set (concat chunks)) (S (length (concat chunks))).

(** Other services store events and number them; chains are asked for; the
    caches are cleared. *)
Inductive chains_step (ids : gset N) ac : AuthChains → Prop :=
  | step_stored tl' :
      grows (timeline ac) tl' → extends (chain_shorts ac) (shorts (states tl')) → short_inv (shorts (states tl')) ids →
      chains_step ids ac (mkChains tl' (authchainkey_authchain ac) (shorteventid_authchain ac))
  | step_asked run room version chunks cs ac' :
      askable run ac room version chunks → get_auth_chain run ac room version chunks = Ok (cs, ac') →
      chains_step ids ac ac'
  | step_cleared empty : table_rows empty = ∅ → chains_step ids ac (clear_chains empty ac).

Inductive chains_reachable (ids : gset N) : AuthChains → Prop :=
  | chains_start tl empty :
      one_reading tl → short_inv (shorts (states tl)) ids → table_rows empty = ∅ →
      chains_reachable ids (mkChains tl empty empty)
  | chains_more ac ac' : chains_reachable ids ac → chains_step ids ac ac' → chains_reachable ids ac'.

Lemma chains_reachable_inv ids ac : chains_reachable ids ac → chains_inv ac ids.
Proof.
  induction 1 as [tl empty Hone Hs He|ac ac' _ IH Hst].
  { split; [done|done| |]; cbn; rewrite He; by intros key v ?%lookup_empty_Some. }
  destruct Hst as [tl' Hg He Hs|run room version chunks cs ac' (Hv & ND & U & HU & Hen) Hget|empty He].
  - destruct IH as [Hs0 Hone Hr Ho]. split; [done|by apply Hg| |]; intros key v Hv;
      apply (cached_row_grows _ (timeline ac)), (cached_row_extends (chain_shorts ac)); by auto.
  - destruct (get_auth_chain_spec run ac ids room version chunks U IH Hv ND HU Hen) as (cs' & ac2 & Hget' & Hinv & _).
    congruence.
  - destruct IH as [Hs0 Hone Hr Ho]. split; [done|done| |]; cbn; rewrite He; by intros key v ?%lookup_empty_Some.
Qed.

(** *** Event ids *)

Lemma read_json_parsed {T} (parse : string → option T) (r : Result DbError string) v :
  read_json parse r = Ok v → ∃ t, parse t = Some v.
Proof.
  unfold read_json. destruct (deserialized _ _) as [d|]; [|done]. destruct d; try done.
  destruct (parse text) as [x|] eqn:Hp; [|done]. intros [= <-]. by exists text.
Qed.

Lemma chain_event_ok tl room e a : chain_in tl room e a → utf8_valid a = true ∧ event_id_ok a = true.
Proof.
  assert (∀ x l, fetch_in tl room x = Ok l → a ∈ l → utf8_valid a = true ∧ event_id_ok a = true) as Hl.
  { intros x l Hf Ha. unfold fetch_in, get_event_auth_event_ids in Hf.
    destruct (get auth_from_json false tl x) as [v|] eqn:Hv; cbn [timeline] in Hf; rewrite Hv in Hf; [|done]. cbn in Hf.
    destruct (decide (v.2 = room)); [|done]. injection Hf as <-.
    assert (∃ t, auth_from_json t = Some v) as [t Ht].
    { unfold get, get_non_outlier, get_from_id, get_outlier in Hv.
      destruct (let? raw := get_pdu_id tl x in _) as [y|] eqn:E1, (read_json auth_from_json _) as [z|] eqn:E2; cbn in Hv; simplify_eq.
      1,2: destruct (get_pdu_id tl x) as [raw|]; [|done]; by eapply read_json_parsed.
      by eapply read_json_parsed. }
    destruct v as [l' r]. pose proof (auth_events_ok t l' r Ht) as Hok. rewrite Forall_forall in Hok. by apply Hok. }
  intros Ha. induction Ha as [x y (l & Hf & Hy & _)|x y z _ _ IH]; [by eapply Hl|by apply IH].
Qed.

Lemma number_of s ids a c c' : short_inv s ids → numbered_as s a c → numbered_as s a c' → c = c'.
Proof.
  intros Hinv Hc Hc'. apply u64_bytes_inj; [by eapply numbered_width..|]. destruct Hc as [Hv _], Hc' as [Hv' _]. congruence.
Qed.

Lemma ids_of s ids tl room es cs :
  short_inv s ids → covers s tl room es cs → NoDup cs →
  let l := omap (λ n, ok (get_eventid_from_short s n)) cs in
  NoDup l ∧ ∀ a, a ∈ l ↔ ∃ e, e ∈ es ∧ chain_in tl room e a.
Proof.
  intros Hinv [Hc1 Hc2] ND l.
  assert (Forall2 (numbered_as s) l cs) as Hl.
  { assert (∀ c, c ∈ cs → ∃ a, get_eventid_from_short s c = Ok a ∧ numbered_as s a c) as Hrd.
    { intros c Hc. destruct (Hc2 c Hc) as (e & a & He & Ha & Hn). exists a. split; [|done].
      destruct (chain_event_ok _ _ _ _ Ha) as [Hu Hok]. eapply get_eventid_at; [done|apply Hn|done..]. }
    unfold l. clear -Hrd. induction cs as [|c cs IH]; csimpl; [constructor|].
    destruct (Hrd c) as (a & -> & Hn); [by left|]. cbn. constructor; [done|]. apply IH. intros c' Hc'. apply Hrd. by right. }
  split.
  - clear Hc1 Hc2. induction Hl as [|a c l' cs Hn Hl IH]; [constructor|]. apply NoDup_cons in ND as [Hnc ND].
    constructor; [|by apply IH]. intros Hin. apply Hnc. apply list_elem_of_lookup in Hin as [i Hi].
    destruct (Forall2_lookup_l _ _ _ _ _ Hl Hi) as (c' & Hc' & Hn'). rewrite (number_of s ids a c c' Hinv Hn Hn').
    by eapply list_elem_of_lookup_2.
  - intros a. split.
    + intros Hin. apply list_elem_of_lookup in Hin as [i Hi]. destruct (Forall2_lookup_l _ _ _ _ _ Hl Hi) as (c & Hc & Hn).
      destruct (Hc2 c) as (e & a' & He & Ha & Hn'); [by eapply list_elem_of_lookup_2|]. exists e.
      by rewrite (numbered_unique s ids a a' c Hinv Hn Hn').
    + intros (e & He & Ha). destruct (Hc1 e a He Ha) as (c & Hn & Hc). apply list_elem_of_lookup in Hc as [i Hi].
      destruct (Forall2_lookup_r _ _ _ _ _ Hl Hi) as (a' & Ha' & Hn'). rewrite (numbered_unique s ids a a' c Hinv Hn Hn').
      by eapply list_elem_of_lookup_2.
Qed.

(** ** Properties *)

End caches.

(** ** Witnesses *)

Module ChainsExample.
#[local] Existing Instance ordered_engine.
#[local] Existing Instance ShortExample.json.
#[local] Existing Instance ShortExample.identifiers.
#[local] Existing Instance StatesExample.unbounded.
#[local] Existing Instance StatesExample.digest.

(** Events whose text is their id: [$a] refers to [$b] and [$c], and [$b] to [$c]. *)
#[export] Instance auth_ruma : AuthRuma.
Proof.
  refine {|
    auth_from_json t :=
      if decide (t = "$a") then Some (["$b"; "$c"], "!r:a")
      else if decide (t = "$b") then Some (["$c"], "!r:a")
      else if decide (t = "$c") then Some ([], "!r:a") else None;
    room_create_event_id_as_room_id v := if decide (v = "11") then Some false else None;
    as_event_id _ := None;
  |}.
  intros t l room. repeat case_decide; intros [= <- <-]; repeat constructor.
Defined.

#[export] Instance reversed : Completion.
Proof. refine {| complete A l := reverse l |}. intros A l. apply reverse_Permutation. Defined.

Definition events : Timeline :=
  mkTimeline StatesExample.no_rooms (∅ : Table) (∅ : Table)
    ({["$a" := "$a"; "$b" := "$b"; "$c" := "$c"]} : gmap string string) (∅ : Table).

Definition none_stored : Timeline :=
  mkTimeline StatesExample.no_rooms (∅ : Table) (∅ : Table) (∅ : Table) (∅ : Table).

Definition uncached (tl : Timeline) : AuthChains := mkChains tl (∅ : Table) (∅ : Table).

Definition run : Run := mkRun 5 (λ n, n) (λ _, true).

Lemma events_one : one_reading events.
Proof. apply timeline_one_reading. intros e _. reflexivity. Qed.

Lemma events_whole e :
  e ∈ ({["$a"; "$b"; "$c"]} : gset string) →
  whole (λ _, false) events "!r:a" e ∧ ∀ a, chain_in (λ _, false) events "!r:a" e a → a ∈ ({["$a"; "$b"; "$c"]} : gset string).
Proof.
  apply closed_whole. intros x Hx. assert (x = "$a" ∨ x = "$b" ∨ x = "$c") as [->|[->| ->]] by set_solver;
    eexists; (split; [vm_compute; reflexivity|]); set_solver.
Qed.

Lemma events_askable : askable (λ _, false) run (uncached events) "!r:a" "11" [["$a"]].
Proof.
  split; [reflexivity|]. split; [apply NoDup_singleton|]. exists {["$a"; "$b"; "$c"]}. split.
  - intros e ->%list_elem_of_singleton. apply events_whole. set_solver.
  - split; vm_compute; [lia|congruence].
Qed.
End ChainsExample.

Section chains_witnesses.
#[local] Existing Instance ordered_engine.
#[local] Existing Instance ShortExample.json.
#[local] Existing Instance ShortExample.identifiers.
#[local] Existing Instance StatesExample.unbounded.
#[local] Existing Instance StatesExample.digest.
Import ChainsExample.


(** A chain asked for too early is cached as it was found: for an event that is
    not stored yet nothing is found, and when the event and its auth events
    have arrived the chain is still empty, until the caches are cleared. *)
Theorem early_chain_sticks :
  match event_ids_iter run (uncached none_stored) "!r:a" "11" [["$b"]] with
  | Ok (l, ac) =>
      let ac := mkChains (with_states (states (timeline ac)) events) (authchainkey_authchain ac) (shorteventid_authchain ac) in
      l = [] ∧ result_map fst (event_ids_iter run ac "!r:a" "11" [["$b"]]) = Ok []
      ∧ result_map fst (event_ids_iter run (clear_chains (∅ : gmap string string) ac) "!r:a" "11" [["$b"]]) = Ok ["$c"]
  | Err _ => False
  end.
Proof. vm_compute. split_and!; reflexivity. Qed.
End chains_witnesses.
