(* ===== verification/MemberCache.v ===== *)
(** * Memberships ([src/src/service/rooms/state_cache/mod.rs], [update.rs],
    [via.rs])

    Who has joined, been invited to, left or knocked on which room, in tables
    keyed by (user, room) and mirrored in tables keyed by (room, user); the
    counts and the servers derived from them; and the servers to route through.
    [MemberCache] is the tables by name with the cache of application services.
    The other services are the class [Services]: what they answer and how they
    change the world [W]. *)

From S2P Require Import Prelude Bytes Slices SetOps DbCodec DbMap Pairs Counter Short PduId.

(** ** Data *)

Inductive Membership := Join | Invite | Leave | Knock | Ban | Custom.

#[export] Instance membership_eq_dec : EqDecision Membership.
Proof. solve_decision. Defined.

Inductive TableName :=
  | roomid_knockedcount
  | roomid_invitedcount
  | roomid_inviteviaservers
  | roomid_joinedcount
  | roomserverids
  | roomuserid_invitecount
  | roomuserid_joinedcount
  | roomuserid_leftcount
  | roomuserid_knockedcount
  | roomuseroncejoinedids
  | serverroomids
  | userroomid_invitestate
  | userroomid_joinedcount
  | userroomid_leftstate
  | userroomid_knockedstate.

#[export] Instance table_name_eq_dec : EqDecision TableName.
Proof. solve_decision. Defined.

(** User ids and server names, of [ruma]: a user id names its server. *)
Class Users := {
  user_id_ok : string → bool;
  server_name_ok : string → bool;
  server_name : string → string;
  server_name_valid u : user_id_ok u = true → server_name_ok (server_name u) = true;
  server_name_utf8 u : utf8_valid u = true → utf8_valid (server_name u) = true;
}.

(** What the service asks of others.  [direct] is the account data that lists
    direct chats: for each user, the rooms. *)
Class Services (W E : Type) := {
  user_is_local : string → bool;
  user_exists : W → string → bool;
  create_user : W → string → Result E W;
  room_predecessor : W → string → option string;
  copy_tags : W → string → string → string → W;
  get_direct : W → string → option (list (string * list string));
  update_direct : W → string → list (string * list string) → Result E W;
  user_is_ignored : W → string → string → bool;
  forget_forced_upon_leave : bool;
  room_is_banned : W → string → bool;
  room_is_disabled : W → string → bool;
  power_levels_users : W → string → option (list (string * Z));
}.

Record Registration := mkRegistration { reg_id : string; reg_sender : string; reg_matches : string → bool }.

Section cache.
Context `{Engine, JsonParser, Identifiers, Users}.

Record MemberCache := mkCache {
  tables : TableName → Table;
  appservice_in_room_cache : gmap string (gmap string bool);
}.
Implicit Types (mc : MemberCache) (user room : string) (n : TableName).

Definition modify n (f : Table → Result DbError Table) mc : Result DbError MemberCache :=
  let? tb := f (tables mc n) in
  Ok (mkCache (λ m, if decide (m = n) then tb else tables mc m) (appservice_in_room_cache mc)).

Definition remove_row n (key : string) mc : MemberCache :=
  mkCache (λ m, if decide (m = n) then Map_remove (tables mc m) key else tables mc m) (appservice_in_room_cache mc).

(** ** Reading *)

Definition room_servers mc room := seconds (tables mc roomserverids) server_name_ok room.
Definition server_in_room mc (server room : string) : bool := contains_pair (tables mc serverroomids) server room.
Definition server_rooms mc (server : string) := seconds (tables mc serverroomids) room_id_ok server.

Definition room_members mc room := seconds (tables mc roomuserid_joinedcount) user_id_ok room.
Definition room_members_invited mc room := seconds (tables mc roomuserid_invitecount) user_id_ok room.
Definition room_members_knocked mc room := seconds (tables mc roomuserid_knockedcount) user_id_ok room.
Definition room_useroncejoined mc room := seconds (tables mc roomuseroncejoinedids) user_id_ok room.

Definition room_joined_count mc room := deserialized_u64 (Map_get (tables mc roomid_joinedcount) room).
Definition room_invited_count mc room := deserialized_u64 (Map_get (tables mc roomid_invitedcount) room).
Definition room_knocked_count mc room := deserialized_u64 (Map_get (tables mc roomid_knockedcount) room).

Definition get_invite_count mc room user := deserialized_u64 (qry (tables mc roomuserid_invitecount) (pair_ser room user)).
Definition get_knock_count mc room user := deserialized_u64 (qry (tables mc roomuserid_knockedcount) (pair_ser room user)).
Definition get_left_count mc room user := deserialized_u64 (qry (tables mc roomuserid_leftcount) (pair_ser room user)).
Definition get_joined_count mc room user := deserialized_u64 (qry (tables mc roomuserid_joinedcount) (pair_ser room user)).

Definition rooms_joined mc user := seconds_raw (tables mc userroomid_joinedcount) room_id_ok user.
Definition rooms_invited mc user := seconds_raw (tables mc userroomid_invitestate) room_id_ok user.
Definition rooms_knocked mc user := seconds_raw (tables mc userroomid_knockedstate) room_id_ok user.
Definition rooms_left mc user := seconds_raw (tables mc userroomid_leftstate) room_id_ok user.

Definition once_joined mc user room := contains_pair (tables mc roomuseroncejoinedids) user room.
Definition is_joined mc user room := contains_pair (tables mc userroomid_joinedcount) user room.
Definition is_knocked mc user room := contains_pair (tables mc userroomid_knockedstate) user room.
Definition is_invited mc user room := contains_pair (tables mc userroomid_invitestate) user room.
Definition is_left mc user room := contains_pair (tables mc userroomid_leftstate) user room.

Definition user_membership mc user room : option Membership :=
  match is_joined mc user room, is_left mc user room, is_knocked mc user room, is_invited mc user room,
        once_joined mc user room with
  | true, _, _, _, _ => Some Join
  | _, true, _, _, _ => Some Leave
  | _, _, true, _, _ => Some Knock
  | _, _, _, true, _ => Some Invite
  | false, false, false, false, true => Some Ban
  | _, _, _, _, _ => None
  end.

(** The four streams are merged as they come; here one follows the other. *)
Definition user_memberships mc user (mask : option (list Membership)) : list (Membership * string) :=
  let rooms_of (m : Membership) (rooms : list string) :=
    if match mask with None => true | Some l => bool_decide (m ∈ l) end then pair m <$> rooms else [] in
  rooms_of Join (rooms_joined mc user) ++ rooms_of Leave (rooms_left mc user)
  ++ rooms_of Invite (rooms_invited mc user) ++ rooms_of Knock (rooms_knocked mc user).

Definition get_shared_rooms mc (user_a user_b : string) : option (list string) :=
  intersection_sorted_stream2 (rooms_joined mc user_a) (rooms_joined mc user_b).

Definition user_sees_user mc (user_a user_b : string) : option bool :=
  (λ l, match l with [] => false | _ => true end) <$> get_shared_rooms mc user_a user_b.

Definition server_sees_user mc (server user : string) : Result DbError bool :=
  let? rooms := server_rooms mc server in Ok (existsb (is_joined mc user) rooms).

Definition local_users_in_room (local : string → bool) mc room : Result DbError (list string) :=
  let? l := room_members mc room in Ok (filter (λ u, local u = true) l).
Definition local_users_invited_to_room (local : string → bool) mc room : Result DbError (list string) :=
  let? l := room_members_invited mc room in Ok (filter (λ u, local u = true) l).

(** The answer is cached until the room's memberships change. *)
Definition appservice_in_room mc room (reg : Registration) : Result DbError (bool * MemberCache) :=
  match appservice_in_room_cache mc !! room ≫= λ m, m !! reg_id reg with
  | Some cached => Ok (cached, mc)
  | None =>
      let? members := room_members mc room in
      let in_room := is_joined mc (reg_sender reg) room || existsb (reg_matches reg) members in
      let entry := <[reg_id reg := in_room]> (default ∅ (appservice_in_room_cache mc !! room)) in
      Ok (in_room, mkCache (tables mc) (<[room := entry]> (appservice_in_room_cache mc)))
  end.

Definition clear_appservice_in_room_cache mc : MemberCache := mkCache (tables mc) ∅.

(** ** Writing *)

(** The keys of a user in a room, in both orders. *)
Definition userroom_id user room : Result DbError string := expect (serialize_key (pair_ser user room)).
Definition roomuser_id user room : Result DbError string := expect (serialize_key (pair_ser room user)).

Definition mark_as_joined mc user room (count : Count) : Result DbError MemberCache :=
  let? ur := userroom_id user room in
  let? ru := roomuser_id user room in
  let? next := modify userroomid_joinedcount (λ tb, raw_aput tb 8 ur (SU64 (into_unsigned count))) mc in
  let? next := modify roomuserid_joinedcount (λ tb, raw_aput tb 8 ru (SU64 (into_unsigned count))) next in
  Ok (remove_row roomuserid_knockedcount ru (remove_row userroomid_knockedstate ur
     (remove_row roomuserid_leftcount ru (remove_row userroomid_leftstate ur
     (remove_row roomuserid_invitecount ru (remove_row userroomid_invitestate ur next)))))).

Definition mark_as_left mc user room (count : Count) : Result DbError MemberCache :=
  let? ur := userroom_id user room in
  let? ru := roomuser_id user room in
  let? next := modify userroomid_leftstate (λ tb, raw_put tb ur (SNewtype "Json" (Some "[]"))) mc in
  let? next := modify roomuserid_leftcount (λ tb, raw_aput tb 8 ru (SU64 (into_unsigned count))) next in
  Ok (remove_row roomuserid_knockedcount ru (remove_row userroomid_knockedstate ur
     (remove_row roomuserid_invitecount ru (remove_row userroomid_invitestate ur
     (remove_row roomuserid_joinedcount ru (remove_row userroomid_joinedcount ur next)))))).

(** [state] is the text of the state shown to the user. *)
Definition mark_as_knocked mc user room (count : Count) (state : option string) : Result DbError MemberCache :=
  let? ur := userroom_id user room in
  let? ru := roomuser_id user room in
  let? next := modify userroomid_knockedstate (λ tb, raw_put tb ur (SNewtype "Json" (Some (default "[]" state)))) mc in
  let? next := modify roomuserid_knockedcount (λ tb, raw_aput tb 8 ru (SU64 (into_unsigned count))) next in
  Ok (remove_row roomuserid_leftcount ru (remove_row userroomid_leftstate ur
     (remove_row roomuserid_invitecount ru (remove_row userroomid_invitestate ur
     (remove_row roomuserid_joinedcount ru (remove_row userroomid_joinedcount ur next)))))).

Definition forget mc room user : Result DbError MemberCache :=
  let? next := modify userroomid_leftstate (λ tb, del tb (pair_ser user room)) mc in
  modify roomuserid_leftcount (λ tb, del tb (pair_ser room user)) next.

Definition mark_as_once_joined mc user room : Result DbError MemberCache :=
  modify roomuseroncejoinedids (λ tb, put_raw tb (pair_ser user room) "") mc.

(** *** Servers to route through *)

(** Of each row only the last server, a list that is read having one; the
    prefix has no separator. *)
Definition servers_invite_via mc room : list string :=
  omap (λ v, match v with (_, VSeq l) => match last l with Some (VStr s) => Some s | _ => None end | _ => None end)
    (stream_raw_prefix (tables mc roomid_inviteviaservers) DIgnore (DSeq (DStr server_name_ok)) room).

Definition add_servers_invite_via mc room (servers : list string) : Result DbError MemberCache :=
  let all := dedup_by eq (sort_by key_le (servers_invite_via mc room ++ servers)) in
  modify roomid_inviteviaservers (λ tb, Ok (Map_insert tb room (record_bytes all))) mc.

Definition mark_as_invited mc user room (count : Count) (state : option string) (via : option (list string)) :
    Result DbError MemberCache :=
  let? ru := roomuser_id user room in
  let? ur := userroom_id user room in
  let? next := modify userroomid_invitestate (λ tb, raw_put tb ur (SNewtype "Json" (Some (default "[]" state)))) mc in
  let? next := modify roomuserid_invitecount (λ tb, raw_aput tb 8 ru (SU64 (into_unsigned count))) next in
  let next := remove_row roomuserid_knockedcount ru (remove_row userroomid_knockedstate ur
     (remove_row roomuserid_leftcount ru (remove_row userroomid_leftstate ur
     (remove_row roomuserid_joinedcount ru (remove_row userroomid_joinedcount ur next))))) in
  match via with
  | Some ((_ :: _) as servers) => add_servers_invite_via next room servers
  | _ => Ok next
  end.

(** *** Counts *)

(** A server that is no longer in the room goes; one that still is needs no
    row. *)
Fixpoint sweep_servers room (old : list string) (joined : gset string) mc : Result DbError (gset string * MemberCache) :=
  match old with
  | [] => Ok (joined, mc)
  | server :: old' =>
      if decide (server ∈ joined) then sweep_servers room old' (joined ∖ {[server]}) mc
      else
        let? next := modify roomserverids (λ tb, del tb (pair_ser room server)) mc in
        let? next := modify serverroomids (λ tb, del tb (pair_ser server room)) next in
        sweep_servers room old' joined next
  end.

Fixpoint add_servers room (servers : list string) mc : Result DbError MemberCache :=
  match servers with
  | [] => Ok mc
  | server :: servers' =>
      let? next := modify roomserverids (λ tb, put_raw tb (pair_ser room server) "") mc in
      let? next := modify serverroomids (λ tb, put_raw tb (pair_ser server room) "") next in
      add_servers room servers' next
  end.

Definition update_joined_count `{HashIter} mc room : Result DbError MemberCache :=
  let? members := room_members mc room in
  let? invited := room_members_invited mc room in
  let? knocked := room_members_knocked mc room in
  let? next := modify roomid_joinedcount (λ tb, raw_put tb room (SU64 (N.of_nat (length members)))) mc in
  let? next := modify roomid_invitedcount (λ tb, raw_put tb room (SU64 (N.of_nat (length invited)))) next in
  let? next := modify roomid_knockedcount (λ tb, raw_put tb room (SU64 (N.of_nat (length knocked)))) next in
  let? old := room_servers next room in
  let? swept := sweep_servers room old (list_to_set (server_name <$> members)) next in
  let? next := add_servers room (hash_set_iter swept.1) swept.2 in
  Ok (mkCache (tables next) (delete room (appservice_in_room_cache next))).

(** *** Deleting a room *)

(** The rows of a room in a table, and their mirrors in another. *)
Fixpoint delete_pairs n n' (keys : list (string * string)) mc : Result DbError MemberCache :=
  match keys with
  | [] => Ok mc
  | (a, b) :: keys' =>
      let? next := modify n (λ tb, del tb (pair_ser a b)) mc in
      let? next := modify n' (λ tb, del tb (pair_ser b a)) next in
      delete_pairs n n' keys' next
  end.

Definition delete_room_join_counts (local : string → bool) mc room (force : bool) : Result DbError MemberCache :=
  let next := remove_row roomid_joinedcount room (remove_row roomid_inviteviaservers room
    (remove_row roomid_invitedcount room (remove_row roomid_knockedcount room mc))) in
  let? keys := pairs_of (tables next roomserverids) room_id_ok server_name_ok room in
  let? next := delete_pairs roomserverids serverroomids keys next in
  let? keys := pairs_of (tables next roomuserid_invitecount) room_id_ok user_id_ok room in
  let? next := delete_pairs roomuserid_invitecount userroomid_invitestate keys next in
  let? keys := pairs_of (tables next roomuserid_joinedcount) room_id_ok user_id_ok room in
  let? next := delete_pairs roomuserid_joinedcount userroomid_joinedcount keys next in
  let? keys := pairs_of (tables next roomuserid_knockedcount) room_id_ok user_id_ok room in
  let? next := delete_pairs roomuserid_knockedcount userroomid_knockedstate keys next in
  let? keys := pairs_of (tables next roomuserid_leftcount) room_id_ok user_id_ok room in
  delete_pairs roomuserid_leftcount userroomid_leftstate (filter (λ k, force || negb (local k.2) = true) keys) next.
End cache.

(** ** Updates from events *)

Inductive MemberError (E : Type) := MemberDb (e : DbError) | Other (e : E).
Arguments MemberDb {E}.
Arguments Other {E}.

Section update.
Context {W E : Type} `{Engine, JsonParser, Identifiers, Users, HashIter, !Services W E}.
Implicit Types (mc : MemberCache) (w : W) (user room sender : string).

(** The room is added wherever its predecessor is listed. *)
Definition push_room (old new : string) (d : list (string * list string)) : bool * list (string * list string) :=
  (existsb (λ e, bool_decide (old ∈ e.2)) d,
   (λ e, if bool_decide (old ∈ e.2) then (e.1, e.2 ++ [new]) else e) <$> d).

(** What a first join takes over from the room's predecessor. *)
Definition inherit_room w user room : Result E unit * W :=
  match room_predecessor w room with
  | None => (Ok tt, w)
  | Some old =>
      let w := copy_tags w old room user in
      match get_direct w user with
      | None => (Ok tt, w)
      | Some d =>
          let '(updated, d') := push_room old room d in
          if updated then match update_direct w user d' with Ok w' => (Ok tt, w') | Err e => (Err e, w) end
          else (Ok tt, w)
      end
  end.

Definition Outcome : Type := Result (MemberError E) bool * (MemberCache * W).

(** A change of the tables, with the world it leaves. *)
Definition settled mc w (r : Result DbError MemberCache) : Outcome :=
  match r with Ok next => (Ok true, (next, w)) | Err e => (Err (MemberDb e), (mc, w)) end.

Definition join_room mc w user room (count : Count) : Outcome :=
  if once_joined mc user room then settled mc w (mark_as_joined mc user room count)
  else
    match mark_as_once_joined mc user room with
    | Err e => (Err (MemberDb e), (mc, w))
    | Ok next =>
        match inherit_room w user room with
        | (Err e, w') => (Err (Other e), (next, w'))
        | (Ok _, w') => settled next w' (mark_as_joined next user room count)
        end
    end.

Definition leave_room mc w user room (count : Count) : Outcome :=
  settled mc w (
    let? next := mark_as_left mc user room count in
    if user_is_local user && (forget_forced_upon_leave || room_is_banned w room || room_is_disabled w room)
    then forget next room user else Ok next).

(** Whether the counts are to be brought up to date. *)
Definition set_membership mc w room user (m : Membership) sender (state : option string) (via : option (list string))
    (count : Count) : Outcome :=
  match m with
  | Join => join_room mc w user room count
  | Invite =>
      if user_is_ignored w sender user then (Ok false, (mc, w))
      else settled mc w (mark_as_invited mc user room count state via)
  | Leave | Ban => leave_room mc w user room count
  | Knock | Custom => (Ok true, (mc, w))
  end.

Definition update_membership mc w room user (m : Membership) sender (state : option string) (via : option (list string))
    (counted : bool) (count : Count) : Result (MemberError E) unit * (MemberCache * W) :=
  match (if user_is_local user || user_exists w user then Ok w else create_user w user) with
  | Err e => (Err (Other e), (mc, w))
  | Ok w1 =>
      match set_membership mc w1 room user m sender state via count with
      | (Err e, s) => (Err e, s)
      | (Ok go, (next, w2)) =>
          if go && counted then
            match update_joined_count next room with
            | Ok final => (Ok tt, (final, w2))
            | Err e => (Err (MemberDb e), (next, w2))
            end
          else (Ok tt, (next, w2))
      end
  end.

(** *** Servers to route through *)

(** [max_by_key]: the last of the greatest. *)
Definition most_powerful (users : list (string * Z)) : option (string * Z) :=
  foldl (λ best x, match best with
                   | Some y => if (y.2 <=? x.2)%Z then Some x else Some y
                   | None => Some x
                   end) None users.

Definition counts_by_server (users : list string) : gmap string nat :=
  foldl (λ m u, <[server_name u := S (default 0 (m !! server_name u))]> m) ∅ users.

Definition more_users (x y : string * nat) : Prop := (y.2 <= x.2)%nat.
#[export] Instance more_users_dec : RelDecision more_users.
Proof. intros x y. unfold more_users. apply _. Defined.

Definition servers_route_via mc w room : Result DbError (list string) :=
  let powerful :=
    users ← power_levels_users w room;
    best ← most_powerful users;
    if (50 <=? best.2)%Z then Some (server_name best.1) else None in
  let? members := room_members mc room in
  let popular := (sort_by more_users (hash_iter (counts_by_server members))).*1 in
  Ok (take 5 (option_list powerful ++ popular)).
End update.

(** ** Memberships in the tables *)

Inductive Kind := Joined | Invited | Left | Knocked.

#[export] Instance kind_eq_dec : EqDecision Kind.
Proof. solve_decision. Defined.

Definition user_table (k : Kind) : TableName :=
  match k with
  | Joined => userroomid_joinedcount
  | Invited => userroomid_invitestate
  | Left => userroomid_leftstate
  | Knocked => userroomid_knockedstate
  end.

Definition room_table (k : Kind) : TableName :=
  match k with
  | Joined => roomuserid_joinedcount
  | Invited => roomuserid_invitecount
  | Left => roomuserid_leftcount
  | Knocked => roomuserid_knockedcount
  end.

Definition is_membership_table (n : TableName) : bool :=
  existsb (λ k, bool_decide (n = user_table k) || bool_decide (n = room_table k)) [Joined; Invited; Left; Knocked].

Section members.
Context `{Engine, JsonParser, Identifiers, Users}.
Implicit Types (mc : MemberCache) (u r user room : string) (k : Kind) (n : TableName).

Definition user_ok u : Prop := utf8_valid u = true ∧ user_id_ok u = true.
Definition room_ok r : Prop := utf8_valid r = true ∧ room_id_ok r = true.

Definition user_rows mc k : gmap string string := table_rows (tables mc (user_table k)).
Definition room_rows mc k : gmap string string := table_rows (tables mc (room_table k)).

(** The user's membership of the room is recorded as [k]. *)
Definition member mc k u r : Prop := is_Some (user_rows mc k !! pair_key u r).

Record member_inv mc : Prop := {
  mi_user k : pair_table (tables mc (user_table k)) user_id_ok room_id_ok;
  mi_room k : pair_table (tables mc (room_table k)) room_id_ok user_id_ok;
  mi_mirror k u r : user_ok u → room_ok r → member mc k u r ↔ is_Some (room_rows mc k !! pair_key r u);
  mi_exclusive k k' key : is_Some (user_rows mc k !! key) → is_Some (user_rows mc k' !! key) → k = k';
  mi_once : pair_table (tables mc roomuseroncejoinedids) user_id_ok room_id_ok;
  mi_roomservers : pair_table (tables mc roomserverids) room_id_ok server_name_ok;
  mi_serverrooms : pair_table (tables mc serverroomids) server_name_ok room_id_ok;
  mi_servers s r : utf8_valid s = true → utf8_valid r = true →
    related (tables mc roomserverids) r s ↔ related (tables mc serverroomids) s r;
}.

(** The row of a user in a room is put into the tables of one kind and taken out
    of the others. *)
Record marked k u r (v : string) (c : N) mc mc' : Prop := {
  marked_user k' : user_rows mc' k' = if decide (k' = k) then <[pair_key u r := v]> (user_rows mc k')
                                      else base.delete (pair_key u r) (user_rows mc k');
  marked_room k' : room_rows mc' k' = if decide (k' = k) then <[pair_key r u := u64_to_be_bytes c]> (room_rows mc k')
                                      else base.delete (pair_key r u) (room_rows mc k');
  marked_others n : is_membership_table n = false → n ≠ roomid_inviteviaservers → tables mc' n = tables mc n;
}.

Lemma userroom_key u r : userroom_id u r = Ok (pair_key u r).
Proof. unfold userroom_id, serialize_key. by rewrite pair_ser_key. Qed.
Lemma roomuser_key u r : roomuser_id u r = Ok (pair_key r u).
Proof. unfold roomuser_id, serialize_key. by rewrite pair_ser_key. Qed.

Lemma raw_put_text (tb : Table) key t : raw_put tb key (SNewtype "Json" (Some t)) = Ok (table_put tb key t).
Proof. done. Qed.
End members.

(** Evaluates a chain of table updates on the tables of one kind. *)
Ltac by_tables :=
  repeat match goal with
  | |- context [decide (?a = ?b)] => first [rewrite (decide_True (P := a = b)) by reflexivity | rewrite (decide_False (P := a = b)) by discriminate]
  end.

Section marks.
Context `{Engine, JsonParser, Identifiers, Users}.
Implicit Types (mc : MemberCache) (u r user room : string) (k : Kind) (n : TableName).

Ltac marked_tables :=
  split;
  [ intros [| | |]; unfold user_rows; cbn [user_table tables remove_row]; by_tables; unfold Map_remove; by autorewrite with engine
  | intros [| | |]; unfold room_rows; cbn [room_table tables remove_row]; by_tables; unfold Map_remove; by autorewrite with engine
  | intros [] Hn Hv; try (vm_compute in Hn; discriminate); try congruence; cbn [tables remove_row]; by_tables; reflexivity ].

Lemma mark_as_joined_spec mc u r count :
  ∃ mc', mark_as_joined mc u r count = Ok mc'
    ∧ marked Joined u r (u64_to_be_bytes (into_unsigned count)) (into_unsigned count) mc mc'.
Proof.
  unfold mark_as_joined, modify. rewrite userroom_key, roomuser_key. rewrite !raw_aput_u64. eexists. split; [reflexivity|]. marked_tables.
Qed.

Lemma mark_as_left_spec mc u r count :
  ∃ mc', mark_as_left mc u r count = Ok mc' ∧ marked Left u r "[]" (into_unsigned count) mc mc'.
Proof.
  unfold mark_as_left, modify. rewrite userroom_key, roomuser_key, raw_put_text, raw_aput_u64.
  eexists. split; [reflexivity|]. marked_tables.
Qed.

Lemma mark_as_knocked_spec mc u r count state :
  ∃ mc', mark_as_knocked mc u r count state = Ok mc' ∧ marked Knocked u r (default "[]" state) (into_unsigned count) mc mc'.
Proof.
  unfold mark_as_knocked, modify. rewrite userroom_key, roomuser_key, raw_put_text, raw_aput_u64.
  eexists. split; [reflexivity|]. marked_tables.
Qed.

Lemma mark_as_invited_spec mc u r count state via :
  ∃ mc', mark_as_invited mc u r count state via = Ok mc' ∧ marked Invited u r (default "[]" state) (into_unsigned count) mc mc'.
Proof.
  unfold mark_as_invited, add_servers_invite_via, modify. rewrite userroom_key, roomuser_key, raw_put_text, raw_aput_u64.
  destruct via as [[|s via]|]; eexists; (split; [reflexivity|]); marked_tables.
Qed.

Lemma marked_member k u r v c mc mc' k' u' r' :
  marked k u r v c mc mc' → utf8_valid u = true → utf8_valid u' = true →
  member mc' k' u' r' ↔ if decide (u' = u ∧ r' = r) then k' = k else member mc k' u' r'.
Proof.
  intros [Hu _ _] Hv Hv'. unfold member. rewrite Hu. destruct (decide (u' = u ∧ r' = r)) as [[-> ->]|E].
  - case_decide as Ek.
    + rewrite lookup_insert_eq. by split.
    + rewrite lookup_delete_eq. split; [by intros [? ?]|done].
  - assert (pair_key u r ≠ pair_key u' r') as Hne by (intros [-> ->]%pair_key_inj; [by apply E|done..]).
    case_decide; by rewrite ?lookup_insert_ne, ?lookup_delete_ne.
Qed.

Lemma pair_table_rows (tb tb' : Table) ok1 ok2 :
  table_rows tb' = table_rows tb → pair_table tb ok1 ok2 → pair_table tb' ok1 ok2.
Proof. intros E Ht key. rewrite E. apply Ht. Qed.

Lemma pair_table_marked (tb tb' : Table) ok1 ok2 (b : bool) u r v :
  pair_table tb ok1 ok2 → utf8_valid u = true → utf8_valid r = true → ok1 u = true → ok2 r = true →
  table_rows tb' = (if b then <[pair_key u r := v]> (table_rows tb) else base.delete (pair_key u r) (table_rows tb)) →
  pair_table tb' ok1 ok2.
Proof.
  intros Ht Hu Hr Hou Hor E. destruct b; rewrite <-?(table_put_rows tb), <-?(table_del_rows tb) in E.
  - by eapply pair_table_rows, pair_table_put.
  - by eapply pair_table_rows, pair_table_del.
Qed.

Lemma marked_inv k u r v c mc mc' :
  member_inv mc → user_ok u → room_ok r → marked k u r v c mc mc' → member_inv mc'.
Proof.
  intros [Hu Hr Hm He Ho Hrs Hsr Hs] [Hu1 Hu2] [Hr1 Hr2] Hk. pose proof Hk as [Ku Kr Kn]. split.
  - intros k'. apply (pair_table_marked (tables mc (user_table k')) _ _ _ (bool_decide (k' = k)) u r v); [done..|].
    etrans; [exact (Ku k')|]. case_decide as E; [by rewrite bool_decide_true|by rewrite bool_decide_false].
  - intros k'. apply (pair_table_marked (tables mc (room_table k')) _ _ _ (bool_decide (k' = k)) r u (u64_to_be_bytes c)); [done..|].
    etrans; [exact (Kr k')|]. case_decide as E; [by rewrite bool_decide_true|by rewrite bool_decide_false].
  - intros k' u' r' [Hu' Hou'] [Hr' Hor']. rewrite (marked_member k u r v c mc mc' k' u' r' Hk Hu1 Hu'). rewrite Kr.
    destruct (decide (u' = u ∧ r' = r)) as [[-> ->]|E].
    + case_decide; [rewrite lookup_insert_eq; by split|]. rewrite lookup_delete_eq. split; [done|by intros [? ?]].
    + assert (pair_key r u ≠ pair_key r' u') as Hne by (intros [-> ->]%pair_key_inj; [by apply E|done..]).
      rewrite (Hm k' u' r') by done. case_decide; by rewrite ?lookup_insert_ne, ?lookup_delete_ne.
  - intros k1 k2 key. rewrite !Ku. destruct (decide (key = pair_key u r)) as [->|Hne].
    + case_decide as E1; case_decide as E2; rewrite ?lookup_insert_eq, ?lookup_delete_eq;
        [by subst|intros _ [? ?]; done|intros [? ?]; done|intros [? ?]; done].
    + assert (∀ k', is_Some ((if decide (k' = k) then <[pair_key u r:=v]> (user_rows mc k')
         else base.delete (pair_key u r) (user_rows mc k')) !! key) → is_Some (user_rows mc k' !! key)) as Hback.
      { intros k'. case_decide; by rewrite ?lookup_insert_ne, ?lookup_delete_ne by done. }
      intros Hb1%Hback Hb2%Hback. by eapply He.
  - by rewrite Kn.
  - by rewrite Kn.
  - by rewrite Kn.
  - intros s r'. rewrite (Kn roomserverids), (Kn serverroomids) by done. apply Hs.
Qed.
End marks.

(** ** Removing rows and their mirrors *)

Section removal.
Context `{Engine, JsonParser, Identifiers, Users}.
Implicit Types (mc : MemberCache) (u r s user room key : string) (k : Kind) (n : TableName) (l : list (string * string)).

Definition pair_keys l : list string := (λ p, pair_key p.1 p.2) <$> l.
Definition swapped l : list (string * string) := (λ p, (p.2, p.1)) <$> l.

Lemma elem_of_pair_keys l a b :
  Forall (λ p, utf8_valid p.1 = true) l → utf8_valid a = true → pair_key a b ∈ pair_keys l ↔ (a, b) ∈ l.
Proof.
  intros Hl Ha. unfold pair_keys. rewrite list_elem_of_fmap. split.
  - intros ([a' b'] & E & Hin). rewrite Forall_forall in Hl. specialize (Hl _ Hin). cbn in *.
    by apply pair_key_inj in E as [-> ->].
  - intros Hin. by exists (a, b).
Qed.

Lemma elem_of_swapped l a b : (a, b) ∈ swapped l ↔ (b, a) ∈ l.
Proof.
  unfold swapped. rewrite list_elem_of_fmap. split; [intros ([x y] & E & Hin); cbn in E; by simplify_eq|].
  intros Hin. by exists (b, a).
Qed.

Lemma delete_pairs_spec n n' l mc :
  n ≠ n' →
  ∃ mc', delete_pairs n n' l mc = Ok mc'
    ∧ (∀ key, table_rows (tables mc' n) !! key = if decide (key ∈ pair_keys l) then None else table_rows (tables mc n) !! key)
    ∧ (∀ key, table_rows (tables mc' n') !! key = if decide (key ∈ pair_keys (swapped l)) then None else table_rows (tables mc n') !! key)
    ∧ (∀ m, m ≠ n → m ≠ n' → tables mc' m = tables mc m).
Proof.
  intros Hne. revert mc. induction l as [|[a b] l IH]; intros mc.
  { exists mc. split; [done|]. split_and!; [..|done]; intros key; by rewrite decide_False by (apply not_elem_of_nil). }
  cbn [delete_pairs]. unfold modify. rewrite !del_pair.
  edestruct IH as (mc' & -> & Hn & Hn' & Ho). exists mc'. split; [done|]. cbn [tables] in *.
  rewrite (decide_False (P := n' = n)) in * by congruence. rewrite (decide_False (P := n = n')) in * by done.
  rewrite (decide_True (P := n = n)) in * by done. rewrite (decide_True (P := n' = n')) in * by done.
  split_and!.
  - intros key. rewrite Hn, table_del_rows. unfold pair_keys. cbn. destruct (decide (key = pair_key a b)) as [->|Hk].
    + rewrite (decide_True (P := _ ∈ _ :: _)) by by left. rewrite lookup_delete_eq. by case_decide.
    + rewrite lookup_delete_ne by done. rewrite (decide_ext (key ∈ pair_key a b :: _) (key ∈ pair_keys l)); [done|].
      unfold pair_keys. rewrite elem_of_cons. naive_solver.
  - intros key. rewrite Hn', table_del_rows. unfold pair_keys. cbn. destruct (decide (key = pair_key b a)) as [->|Hk].
    + rewrite (decide_True (P := _ ∈ _ :: _)) by by left. rewrite lookup_delete_eq. by case_decide.
    + rewrite lookup_delete_ne by done. rewrite (decide_ext (key ∈ pair_key b a :: _) (key ∈ pair_keys (swapped l))); [done|].
      unfold pair_keys, swapped. rewrite elem_of_cons. naive_solver.
  - intros m Hm Hm'. rewrite Ho by done. by rewrite !decide_False by done.
Qed.

(** Rows (user, room) of one kind are taken out of both tables. *)
Record removed k l mc mc' : Prop := {
  removed_user k' key : user_rows mc' k' !! key = if decide (k' = k ∧ key ∈ pair_keys l) then None else user_rows mc k' !! key;
  removed_room k' key : room_rows mc' k' !! key = if decide (k' = k ∧ key ∈ pair_keys (swapped l)) then None else room_rows mc k' !! key;
  removed_others n : is_membership_table n = false → tables mc' n = tables mc n;
}.

Lemma swapped_swapped l : swapped (swapped l) = l.
Proof. unfold swapped. rewrite <-list_fmap_compose. etrans; [|apply list_fmap_id]. apply list_fmap_ext. by intros ? []. Qed.

Lemma table_of_kind k k' :
  user_table k' ≠ room_table k ∧ (k' ≠ k → user_table k' ≠ user_table k ∧ room_table k' ≠ room_table k).
Proof. by destruct k, k'. Qed.

Lemma delete_kind k l mc :
  ∃ mc', delete_pairs (room_table k) (user_table k) l mc = Ok mc' ∧ removed k (swapped l) mc mc'.
Proof.
  destruct (delete_pairs_spec (room_table k) (user_table k) l mc) as (mc' & He & Hr & Hu & Ho); [by destruct k|].
  exists mc'. split; [done|]. split.
  - intros k' key. unfold user_rows. destruct (table_of_kind k k') as [Hur Hne]. destruct (decide (k' = k)) as [->|Hk].
    + rewrite Hu. apply decide_ext. naive_solver.
    + rewrite Ho by naive_solver. by rewrite decide_False by naive_solver.
  - intros k' key. rewrite swapped_swapped. unfold room_rows. destruct (table_of_kind k k') as [Hur Hne].
    destruct (table_of_kind k' k) as [Hur' _]. destruct (decide (k' = k)) as [->|Hk].
    + rewrite Hr. apply decide_ext. naive_solver.
    + rewrite Ho by naive_solver. by rewrite decide_False by naive_solver.
  - intros n Hn. apply Ho; intros ->; by destruct k.
Qed.

Lemma removed_member k l mc mc' k' u r :
  removed k l mc mc' → Forall (λ p, utf8_valid p.1 = true) l → utf8_valid u = true →
  member mc' k' u r ↔ member mc k' u r ∧ ¬ (k' = k ∧ (u, r) ∈ l).
Proof.
  intros [Hu _ _] Hl Hv. unfold member. rewrite Hu.
  destruct (decide (k' = k ∧ pair_key u r ∈ pair_keys l)) as [[Hk E]|E]; rewrite elem_of_pair_keys in E by done.
  - split; [by intros [? ?]|naive_solver].
  - naive_solver.
Qed.

Lemma pair_table_sub (tb tb' : Table) ok1 ok2 :
  pair_table tb ok1 ok2 → (∀ key, is_Some (table_rows tb' !! key) → is_Some (table_rows tb !! key)) → pair_table tb' ok1 ok2.
Proof. intros Ht Hs key Hk. by apply Ht, Hs. Qed.

Lemma removed_inv k l mc mc' :
  member_inv mc → Forall (λ p, utf8_valid p.1 = true ∧ utf8_valid p.2 = true) l → removed k l mc mc' → member_inv mc'.
Proof.
  intros [Hu Hr Hm He Ho Hrs Hsr Hs] Hl Hk. pose proof Hk as [Ku Kr Kn].
  assert (Forall (λ p, utf8_valid p.1 = true) l) as Hl1 by (eapply Forall_impl; [exact Hl|]; naive_solver).
  assert (Forall (λ p, utf8_valid p.1 = true) (swapped l)) as Hl2.
  { unfold swapped. apply Forall_fmap. eapply Forall_impl; [exact Hl|]. by intros [] []. }
  assert (∀ k' key, is_Some (user_rows mc' k' !! key) → is_Some (user_rows mc k' !! key)) as Hback.
  { intros k' key. rewrite Ku. case_decide; [by intros [? ?]|done]. }
  split.
  - intros k'. by eapply pair_table_sub; [apply Hu|apply Hback].
  - intros k'. eapply pair_table_sub; [apply Hr|]. intros key Hs'. fold (room_rows mc' k') in Hs'. rewrite Kr in Hs'.
    case_decide; [by destruct Hs'|done].
  - intros k' u r [Hu1 Hu2] [Hr1 Hr2]. rewrite (removed_member k l mc mc' k' u r Hk Hl1 Hu1), (Hm k' u r) by done. rewrite Kr.
    destruct (decide (k' = k ∧ pair_key r u ∈ pair_keys (swapped l))) as [[Ek E]|E];
      rewrite elem_of_pair_keys, elem_of_swapped in E by done.
    + split; [naive_solver|by intros [? ?]].
    + naive_solver.
  - intros k1 k2 key Hb1%Hback Hb2%Hback. by eapply He.
  - by rewrite Kn.
  - by rewrite Kn.
  - by rewrite Kn.
  - intros s r. rewrite (Kn roomserverids), (Kn serverroomids) by done. apply Hs.
Qed.

Lemma forget_spec mc u r : ∃ mc', forget mc r u = Ok mc' ∧ removed Left [(u, r)] mc mc'.
Proof.
  destruct (delete_kind Left [(r, u)] mc) as (mc' & He & Hrem). unfold forget.
  cbn [delete_pairs room_table user_table] in He. unfold modify in *. rewrite !del_pair in *.
  injection He as <-. eexists. split; [reflexivity|].
  destruct Hrem as [Ku Kr Kn]. cbn [tables] in *. split.
  - intros k key. rewrite <-Ku. unfold user_rows. cbn [tables]. destruct k; cbn [user_table]; by_tables; done.
  - intros k key. rewrite <-Kr. unfold room_rows. cbn [tables]. destruct k; cbn [room_table]; by_tables; done.
  - intros n Hn. etrans; [|exact (Kn n Hn)]. by destruct n.
Qed.
End removal.

(** ** Counts and servers *)

Section counts.
Context `{Engine, JsonParser, Identifiers, Users, HashIter}.
Implicit Types (mc : MemberCache) (u r s user room key : string) (k : Kind) (n : TableName).

(** The memberships are the same. *)
Definition same_members mc mc' : Prop :=
  (∀ n, is_membership_table n = true → tables mc' n = tables mc n) ∧ tables mc' roomuseroncejoinedids = tables mc roomuseroncejoinedids.

Lemma same_members_trans mc1 mc2 mc3 : same_members mc1 mc2 → same_members mc2 mc3 → same_members mc1 mc3.
Proof. intros [H12 E12] [H23 E23]. split; [|congruence]. intros n Hn. rewrite H23 by done. by apply H12. Qed.

Lemma sweep_eq room old joined mc :
  NoDup old →
  sweep_servers room old joined mc
  = (let? next := delete_pairs roomserverids serverroomids (pair room <$> filter (λ s, s ∉ joined) old) mc in
     Ok (joined ∖ list_to_set old, next)).
Proof.
  intros ND. revert joined mc. induction ND as [|s old Hs ND IH]; intros joined mc; cbn [sweep_servers].
  { cbn. do 2 f_equal. set_solver. }
  rewrite filter_cons. destruct (decide (s ∈ joined)) as [Hin|Hout].
  - rewrite decide_False by naive_solver. rewrite IH.
    replace (filter (λ x, x ∉ joined ∖ {[s]}) old) with (filter (λ x, x ∉ joined) old).
    2:{ apply filter_ext_elem. intros x Hx. set_solver. }
    replace (joined ∖ {[s]} ∖ list_to_set old) with (joined ∖ list_to_set (s :: old) : gset string) by set_solver. done.
  - rewrite decide_True by done. rewrite fmap_cons. cbn [delete_pairs]. unfold modify. rewrite !del_pair. rewrite IH.
    replace (joined ∖ list_to_set (s :: old)) with (joined ∖ list_to_set old : gset string) by set_solver. done.
Qed.

Lemma add_servers_spec room l mc :
  ∃ mc', add_servers room l mc = Ok mc' ∧ appservice_in_room_cache mc' = appservice_in_room_cache mc
    ∧ (∀ key, is_Some (table_rows (tables mc' roomserverids) !! key)
         ↔ is_Some (table_rows (tables mc roomserverids) !! key) ∨ key ∈ pair_keys (pair room <$> l))
    ∧ (∀ key, is_Some (table_rows (tables mc' serverroomids) !! key)
         ↔ is_Some (table_rows (tables mc serverroomids) !! key) ∨ key ∈ pair_keys (swapped (pair room <$> l)))
    ∧ ∀ n, n ≠ roomserverids → n ≠ serverroomids → tables mc' n = tables mc n.
Proof.
  revert mc. induction l as [|s l IH]; intros mc; cbn [add_servers].
  { exists mc. split_and!; [done..| | |done]; intros key; unfold pair_keys; cbn [fmap list_fmap swapped];
      rewrite ?elem_of_nil; naive_solver. }
  unfold modify. rewrite !put_raw_pair. edestruct IH as (mc' & -> & Hc & Hr & Hs & Ho). exists mc'. split; [done|].
  cbn [tables appservice_in_room_cache] in *. split; [done|]. split_and!.
  - intros key. rewrite Hr. by_tables. rewrite table_put_rows. unfold pair_keys. csimpl. rewrite elem_of_cons.
    destruct (decide (key = pair_key room s)) as [->|Hne]; [rewrite lookup_insert_eq; naive_solver|].
    rewrite lookup_insert_ne by done. naive_solver.
  - intros key. rewrite Hs. by_tables. rewrite table_put_rows. unfold pair_keys, swapped. csimpl. rewrite elem_of_cons.
    destruct (decide (key = pair_key s room)) as [->|Hne]; [rewrite lookup_insert_eq; naive_solver|].
    rewrite lookup_insert_ne by done. naive_solver.
  - intros n Hn Hn'. rewrite Ho by done. by rewrite !decide_False by done.
Qed.

Lemma raw_put_u64 (tb : Table) key (c : N) : raw_put tb key (SU64 c) = Ok (table_put tb key (u64_to_be_bytes c)).
Proof. done. Qed.

Lemma count_row (tb : Table) room (c : N) :
  (c <= U64_MAX)%N → table_rows tb !! room = Some (u64_to_be_bytes c) → deserialized_u64 (Map_get tb room) = Ok c.
Proof. intros Hn Hr. unfold Map_get. rewrite table_get_rows, Hr. by apply deserialized_u64_row. Qed.

(** The servers of a room after the sweep and the additions are the joined
    ones. *)
Lemma servers_updated room joined mc :
  member_inv mc → room_ok room → (∀ s, s ∈ joined → utf8_valid s = true ∧ server_name_ok s = true) →
  ∃ old swept mc', room_servers mc room = Ok old ∧ sweep_servers room old joined mc = Ok swept
    ∧ add_servers room (hash_set_iter swept.1) swept.2 = Ok mc'
    ∧ (∀ n, n ≠ roomserverids → n ≠ serverroomids → tables mc' n = tables mc n)
    ∧ pair_table (tables mc' roomserverids) room_id_ok server_name_ok
    ∧ pair_table (tables mc' serverroomids) server_name_ok room_id_ok
    ∧ ∀ s r, utf8_valid s = true → utf8_valid r = true →
        (related (tables mc' roomserverids) r s ↔ if decide (r = room) then s ∈ joined else related (tables mc roomserverids) r s)
        ∧ (related (tables mc' serverroomids) s r ↔ if decide (r = room) then s ∈ joined else related (tables mc serverroomids) s r).
Proof.
  intros Hinv [Hroom Hrok] Hj. unfold room_servers.
  destruct (seconds_exact _ _ _ room (mi_roomservers _ Hinv) Hroom) as (old & Hold & _ & ND & Hin & Hvalid).
  set (gone := pair room <$> filter (λ s, s ∉ joined) old).
  destruct (delete_pairs_spec roomserverids serverroomids gone mc) as (mc1 & Hd & Hr1 & Hs1 & Ho1); [done|].
  destruct (add_servers_spec room (hash_set_iter (joined ∖ list_to_set old)) mc1) as (mc2 & Ha & _ & Hr2 & Hs2 & Ho2).
  exists old, (joined ∖ list_to_set old, mc1), mc2.
  assert (∀ x, x ∈ hash_set_iter (joined ∖ list_to_set old) ↔ x ∈ joined ∧ x ∉ old) as Hnew.
  { intros x. rewrite hash_set_iter_perm, elem_of_elements. set_solver. }
  assert (Forall (λ p, utf8_valid p.1 = true) gone ∧ Forall (λ p, utf8_valid p.1 = true) (swapped gone)) as [Hg1 Hg2].
  { unfold swapped, gone. split; rewrite !Forall_fmap; apply Forall_forall; intros x Hx; cbn; [done|].
    apply list_elem_of_filter in Hx as [_ Hx]. rewrite Forall_forall in Hvalid. by apply Hvalid. }
  assert (∀ x r, (r, x) ∈ gone ↔ r = room ∧ x ∈ old ∧ x ∉ joined) as Hgone.
  { intros x r. unfold gone. rewrite list_elem_of_fmap. setoid_rewrite list_elem_of_filter. naive_solver. }
  set (fresh := pair room <$> hash_set_iter (joined ∖ list_to_set old)) in *.
  assert (Forall (λ p, utf8_valid p.1 = true) fresh ∧ Forall (λ p, utf8_valid p.1 = true) (swapped fresh)) as [Hf1 Hf2].
  { unfold swapped, fresh. split; rewrite !Forall_fmap; apply Forall_forall; intros x [Hx _]%Hnew; cbn; [done|by apply Hj]. }
  assert (∀ x r, (r, x) ∈ fresh ↔ r = room ∧ x ∈ joined ∧ x ∉ old) as Hfresh.
  { intros x r. unfold fresh. rewrite list_elem_of_fmap. setoid_rewrite Hnew. naive_solver. }
  split_and!; [done|rewrite (sweep_eq room old joined mc ND); fold gone; by rewrite Hd|done|..].
  - intros n Hn Hn'. by rewrite Ho2, Ho1.
  - intros key [Hk|Hk]%Hr2.
    + apply (mi_roomservers _ Hinv). rewrite Hr1 in Hk. case_decide; [by destruct Hk|done].
    + apply list_elem_of_fmap in Hk as ([r x] & -> & (-> & Hx & _)%Hfresh). cbn. destruct (Hj x Hx). by exists room, x.
  - intros key [Hk|Hk]%Hs2.
    + apply (mi_serverrooms _ Hinv). rewrite Hs1 in Hk. case_decide; [by destruct Hk|done].
    + apply list_elem_of_fmap in Hk as ([x r] & -> & Hx). apply elem_of_swapped, Hfresh in Hx as (-> & Hx & _). cbn.
      destruct (Hj x Hx). by exists x, room.
  - intros s r Hs Hr. unfold related.
    assert (s ∈ old ↔ is_Some (table_rows (tables mc roomserverids) !! pair_key room s)) as Hold' by apply Hin.
    pose proof (mi_servers _ Hinv s r Hs Hr) as Hmirror. unfold related in Hmirror.
    assert (¬ is_Some (None : option string)) as Hnone by (by intros [? ?]).
    pose proof (Hr2 (pair_key r s)) as Kr. pose proof (Hs2 (pair_key s r)) as Ks. rewrite Hr1 in Kr. rewrite Hs1 in Ks.
    rewrite (elem_of_pair_keys fresh r s Hf1 Hr), Hfresh in Kr.
    rewrite (elem_of_pair_keys (swapped fresh) s r Hf2 Hs), elem_of_swapped, Hfresh in Ks.
    rewrite (decide_ext _ (r = room ∧ s ∈ old ∧ s ∉ joined) _ _ (iff_trans (elem_of_pair_keys gone r s Hg1 Hr) (Hgone s r))) in Kr.
    rewrite (decide_ext _ (r = room ∧ s ∈ old ∧ s ∉ joined) _ _
      (iff_trans (elem_of_pair_keys (swapped gone) s r Hg2 Hs) (iff_trans (elem_of_swapped gone s r) (Hgone s r)))) in Ks.
    rewrite Kr, Ks. destruct (decide (r = room)) as [->|Hne].
    + clear - Hold' Hmirror Hnone.
      destruct (decide (room = room ∧ s ∈ old ∧ s ∉ joined)), (decide (s ∈ joined)), (decide (s ∈ old)); tauto.
    + clear - Hne. rewrite !(decide_False (P := r = room ∧ _)) by tauto. tauto.
Qed.

(** The users with a membership of a kind, as listed by the table of rooms. *)
Lemma members_listed mc k room :
  member_inv mc → room_ok room →
  ∃ l, seconds (tables mc (room_table k)) user_id_ok room = Ok l ∧ NoDup l ∧ Forall user_ok l
    ∧ (∀ u, u ∈ l ↔ user_ok u ∧ member mc k u room) ∧ (length l <= size (room_rows mc k))%nat.
Proof.
  intros Hinv [Hroom Hrok].
  destruct (seconds_exact _ _ _ room (mi_room _ Hinv k) Hroom) as (l & Hl & _ & ND & Hin & Hvalid). exists l.
  split_and!; [done..| |].
  - intros u. rewrite Hin. split.
    + intros Hu. pose proof (proj1 (Forall_forall _ _) Hvalid u (proj2 (Hin u) Hu)) as Hok. split; [done|].
      by apply (mi_mirror _ Hinv k u room).
    + intros [Hok Hu]. by apply (mi_mirror _ Hinv k u room) in Hu.
  - rewrite <-(length_fmap (pair_key room)). unfold room_rows. rewrite <-size_dom.
    rewrite <-(size_list_to_set (C := gset string)) by by apply NoDup_fmap_2_strong; [intros ? ? _ _; apply pair_key_inj_r|].
    apply subseteq_size. intros key Hk%elem_of_list_to_set. apply list_elem_of_fmap in Hk as (u & -> & Hu%Hin).
    by apply elem_of_dom.
Qed.

(** The counts of a room are those of its lists, and its servers those of its
    joined users. *)
Record counted room mc : Prop := {
  counted_joined : ∃ l, room_members mc room = Ok l ∧ room_joined_count mc room = Ok (N.of_nat (length l));
  counted_invited : ∃ l, room_members_invited mc room = Ok l ∧ room_invited_count mc room = Ok (N.of_nat (length l));
  counted_knocked : ∃ l, room_members_knocked mc room = Ok l ∧ room_knocked_count mc room = Ok (N.of_nat (length l));
  counted_servers s : utf8_valid s = true →
    server_in_room mc s room = true ↔ ∃ u, user_ok u ∧ member mc Joined u room ∧ server_name u = s;
  counted_uncached : appservice_in_room_cache mc !! room = None;
}.

(** No table of memberships has more rows than a count can say. *)
Definition countable_rows mc : Prop := ∀ k, (N.of_nat (size (room_rows mc k)) <= U64_MAX)%N.

Lemma same_member mc mc' k u r : same_members mc mc' → member mc' k u r ↔ member mc k u r.
Proof. intros [Ht _]. unfold member, user_rows. by rewrite Ht by by destruct k. Qed.

Lemma same_members_inv mc mc' :
  member_inv mc → same_members mc mc' →
  pair_table (tables mc' roomserverids) room_id_ok server_name_ok →
  pair_table (tables mc' serverroomids) server_name_ok room_id_ok →
  (∀ s r, utf8_valid s = true → utf8_valid r = true →
     related (tables mc' roomserverids) r s ↔ related (tables mc' serverroomids) s r) →
  member_inv mc'.
Proof.
  intros [Hu Hr Hm He Ho _ _ _] Hsame Hrs Hsr Hs. pose proof Hsame as [Ht Hone].
  assert (∀ k, tables mc' (user_table k) = tables mc (user_table k)) as Htu by (intros k; by rewrite Ht by by destruct k).
  assert (∀ k, tables mc' (room_table k) = tables mc (room_table k)) as Htr by (intros k; by rewrite Ht by by destruct k).
  split; [..|done|done|done].
  - intros k. by rewrite Htu.
  - intros k. by rewrite Htr.
  - intros k u r. rewrite (same_member mc mc') by done. unfold room_rows. rewrite Htr. apply Hm.
  - intros k k' key. unfold user_rows. rewrite !Htu. apply He.
  - by rewrite Hone.
Qed.

(** The three counts are written; nothing else changes. *)
Definition with_counts mc room (j i c : N) : MemberCache :=
  mkCache (λ m, if decide (m = roomid_knockedcount) then table_put (tables mc roomid_knockedcount) room (u64_to_be_bytes c)
                else if decide (m = roomid_invitedcount) then table_put (tables mc roomid_invitedcount) room (u64_to_be_bytes i)
                else if decide (m = roomid_joinedcount) then table_put (tables mc roomid_joinedcount) room (u64_to_be_bytes j)
                else tables mc m) (appservice_in_room_cache mc).

Lemma with_counts_same mc room (j i c : N) : same_members mc (with_counts mc room j i c).
Proof. split; [intros [] Hn; try discriminate Hn; done|done]. Qed.

Lemma with_counts_inv mc room (j i c : N) : member_inv mc → member_inv (with_counts mc room j i c).
Proof.
  intros Hinv. apply (same_members_inv mc); [done|apply with_counts_same|..]; cbn [with_counts tables]; by_tables;
    [apply Hinv..|]. exact (mi_servers _ Hinv).
Qed.

Lemma update_joined_count_unfold mc room lj li lk old swept next :
  room_members mc room = Ok lj → room_members_invited mc room = Ok li → room_members_knocked mc room = Ok lk →
  let mc1 := with_counts mc room (N.of_nat (length lj)) (N.of_nat (length li)) (N.of_nat (length lk)) in
  room_servers mc1 room = Ok old →
  sweep_servers room old (list_to_set (server_name <$> lj)) mc1 = Ok swept →
  add_servers room (hash_set_iter swept.1) swept.2 = Ok next →
  update_joined_count mc room = Ok (mkCache (tables next) (delete room (appservice_in_room_cache next))).
Proof.
  intros Hj Hi Hk mc1 Hold Hsw Had. unfold update_joined_count. rewrite Hj, Hi, Hk. unfold modify. rewrite !raw_put_u64.
  match goal with |- context [room_servers ?x room] => change x with mc1 end.
  by rewrite Hold, Hsw, Had.
Qed.

Lemma count_written (tb tb' : Table) room (l : list string) (m : gmap string string) :
  tb' = table_put tb room (u64_to_be_bytes (N.of_nat (length l))) → (length l <= size m)%nat → (N.of_nat (size m) <= U64_MAX)%N →
  deserialized_u64 (Map_get tb' room) = Ok (N.of_nat (length l)).
Proof. intros -> Hl Hm. apply count_row; [lia|]. by rewrite table_put_rows, lookup_insert_eq. Qed.

Lemma update_joined_count_spec mc room :
  member_inv mc → room_ok room →
  ∃ mc', update_joined_count mc room = Ok mc' ∧ member_inv mc' ∧ same_members mc mc' ∧ (countable_rows mc → counted room mc')
    ∧ (∀ r s, r ≠ room → utf8_valid r = true → utf8_valid s = true → server_in_room mc' s r = server_in_room mc s r)
    ∧ ∀ r, r ≠ room → room_joined_count mc' r = room_joined_count mc r ∧ room_invited_count mc' r = room_invited_count mc r
        ∧ room_knocked_count mc' r = room_knocked_count mc r.
Proof.
  intros Hinv Hroom.
  destruct (members_listed mc Joined room Hinv Hroom) as (lj & Hj & _ & Hokj & Hinj & Hlj).
  destruct (members_listed mc Invited room Hinv Hroom) as (li & Hi & _ & _ & _ & Hli).
  destruct (members_listed mc Knocked room Hinv Hroom) as (lk & Hk & _ & _ & _ & Hlk).
  set (mc1 := with_counts mc room (N.of_nat (length lj)) (N.of_nat (length li)) (N.of_nat (length lk))).
  destruct (servers_updated room (list_to_set (server_name <$> lj)) mc1) as (old & swept & next & Hold & Hsw & Had & Ho & Hrs & Hsr & Hrel);
    [by apply with_counts_inv|done|..].
  { intros s Hs%elem_of_list_to_set. apply list_elem_of_fmap in Hs as (u & -> & Hu). rewrite Forall_forall in Hokj.
    destruct (Hokj u Hu). split; [by apply server_name_utf8|by apply server_name_valid]. }
  eexists. split; [by eapply update_joined_count_unfold|].
  set (mc' := mkCache _ _).
  assert (same_members mc mc') as Hsame.
  { apply (same_members_trans _ mc1); [apply with_counts_same|]. split; [intros [] Hn; try discriminate Hn; by apply Ho|by apply Ho]. }
  assert (∀ k, tables mc' (room_table k) = tables mc (room_table k)) as Htr by (intros k; by rewrite (proj1 Hsame) by by destruct k).
  split_and!; [|done|intros Hfit; split|..].
  - apply (same_members_inv mc); [done..|]. intros s r Hs Hr. destruct (Hrel s r Hs Hr) as [E1 E2].
    etrans; [exact E1|]. symmetry. etrans; [exact E2|]. case_decide; [done|]. symmetry. exact (mi_servers mc Hinv s r Hs Hr).
  - exists lj. unfold room_members. rewrite (Htr Joined : tables mc' roomuserid_joinedcount = _). split; [done|].
    eapply (count_written (tables mc roomid_joinedcount)); [exact (Ho roomid_joinedcount ltac:(done) ltac:(done))|done|apply (Hfit Joined)].
  - exists li. unfold room_members_invited. rewrite (Htr Invited : tables mc' roomuserid_invitecount = _). split; [done|].
    eapply (count_written (tables mc roomid_invitedcount)); [exact (Ho roomid_invitedcount ltac:(done) ltac:(done))|done|apply (Hfit Invited)].
  - exists lk. unfold room_members_knocked. rewrite (Htr Knocked : tables mc' roomuserid_knockedcount = _). split; [done|].
    eapply (count_written (tables mc roomid_knockedcount)); [exact (Ho roomid_knockedcount ltac:(done) ltac:(done))|done|apply (Hfit Knocked)].
  - intros s Hs. unfold server_in_room. rewrite contains_related. etrans; [exact (proj2 (Hrel s room Hs (proj1 Hroom)))|].
    rewrite decide_True by done. rewrite elem_of_list_to_set, list_elem_of_fmap. setoid_rewrite Hinj. setoid_rewrite (same_member mc mc'); [|done..]. naive_solver.
  - cbn. apply lookup_delete_eq.
  - intros r s Hne Hr Hs. apply eq_true_iff_eq. unfold server_in_room. rewrite !contains_related. etrans; [exact (proj2 (Hrel s r Hs Hr))|]. by rewrite decide_False.
  - intros r Hne. unfold room_joined_count, room_invited_count, room_knocked_count, Map_get. cbn [mc' tables]. rewrite !Ho by done.
    cbn [mc1 with_counts tables]. by_tables. rewrite !table_get_rows, !table_put_rows, !lookup_insert_ne by done. done.
Qed.
End counts.

(** ** What an update does *)

Section updates.
Context {W E : Type} `{Engine, JsonParser, Identifiers, Users, HashIter, !Services W E}.
Implicit Types (mc : MemberCache) (w : W) (u r s user room sender key : string) (k : Kind) (n : TableName).

(** The membership of one user in one room is [o]; all others are as before. *)
Definition becomes (o : option Kind) user room mc mc' : Prop :=
  ∀ k u r, user_ok u → room_ok r →
  member mc' k u r ↔ if decide (u = user ∧ r = room) then o = Some k else member mc k u r.

Definition unchanged mc mc' : Prop := ∀ k u r, user_ok u → room_ok r → member mc' k u r ↔ member mc k u r.

Lemma becomes_same o user room mc mc1 mc2 : becomes o user room mc mc1 → same_members mc1 mc2 → becomes o user room mc mc2.
Proof. intros Hb Hs k u r Hu Hr. rewrite (same_member mc1 mc2) by done. by apply Hb. Qed.

Lemma marked_becomes k v c user room mc mc' :
  user_ok user → marked k user room v c mc mc' → becomes (Some k) user room mc mc'.
Proof.
  intros [Hu _] Hk k' u r [Hu' _] _. rewrite (marked_member _ _ _ _ _ _ _ k' u r Hk Hu Hu').
  destruct (decide (u = user ∧ r = room)); [|done]. split; [by intros ->|by intros [=]].
Qed.

(** Rows of the rooms grow by one at most. *)
Lemma marked_sizes k u r v c mc mc' k' : marked k u r v c mc mc' → (size (room_rows mc' k') <= S (size (room_rows mc k')))%nat.
Proof.
  intros [_ -> _]. case_decide; [|rewrite map_size_delete; destruct (room_rows mc k' !! _); cbn; lia].
  rewrite map_size_insert. destruct (room_rows mc k' !! _); cbn; lia.
Qed.

Definition spare_rows mc : Prop := ∀ k, (N.of_nat (size (room_rows mc k)) < U64_MAX)%N.

Lemma marked_countable k u r v c mc mc' : spare_rows mc → marked k u r v c mc mc' → countable_rows mc'.
Proof. intros Hs Hm k'. pose proof (Hs k'). pose proof (marked_sizes _ _ _ _ _ _ _ k' Hm). lia. Qed.

Lemma once_spec mc user room :
  user_ok user → room_ok room → member_inv mc →
  ∃ mc', mark_as_once_joined mc user room = Ok mc' ∧ member_inv mc'
    ∧ (∀ n, n ≠ roomuseroncejoinedids → tables mc' n = tables mc n)
    ∧ ∀ u r, user_ok u → room_ok r → once_joined mc' u r = true ↔ once_joined mc u r = true ∨ (u = user ∧ r = room).
Proof.
  intros [Hu Hou] [Hr Hor] Hinv. pose proof Hinv as [Iu Ir Im Ie Io Irs Isr Is].
  unfold mark_as_once_joined, modify. rewrite put_raw_pair. eexists. split; [reflexivity|]. split_and!.
  - split; [..|cbn [tables]; by_tables; by apply pair_table_put|done|done|done].
    + intros []; apply (Iu Joined) || apply (Iu Invited) || apply (Iu Left) || apply (Iu Knocked).
    + intros []; apply (Ir Joined) || apply (Ir Invited) || apply (Ir Left) || apply (Ir Knocked).
    + intros []; apply (Im Joined) || apply (Im Invited) || apply (Im Left) || apply (Im Knocked).
    + intros k1 k2 key H1' H2'. apply (Ie k1 k2 key); [by destruct k1|by destruct k2].
  - intros n Hn. cbn [tables]. by rewrite decide_False.
  - intros u r [Hu' _] [Hr' _]. unfold once_joined. rewrite !contains_related. unfold related. cbn [tables]. by_tables.
    rewrite table_put_rows. destruct (decide (u = user ∧ r = room)) as [[-> ->]|Hne].
    + rewrite lookup_insert_eq. naive_solver.
    + rewrite lookup_insert_ne; [naive_solver|]. intros [-> ->]%pair_key_inj; [by apply Hne|done..].
Qed.
End updates.
