(* ===== verification/Memberships.v ===== *)
(** * What the membership tables say ([src/src/service/rooms/state_cache])

    Theorems on [MemberCache]: each update of a membership changes the one user
    in the one room, in every table; the counts and servers of a room are those
    of its members; deleting a room takes exactly its rows; every state that
    the operations reach keeps the tables in agreement. *)

From S2P Require Import Prelude Bytes Slices SetOps DbCodec DbMap Pairs Counter Short PduId MemberCache.

Section transitions.
Context {W E : Type} `{Engine, JsonParser, Identifiers, Users, HashIter, !Services W E}.
Implicit Types (mc : MemberCache) (w : W) (u r s user room sender key : string) (k : Kind) (n : TableName) (m : Membership).

(** ** Updates *)

Definition leaves_no_trace w user room : bool :=
  user_is_local user && (forget_forced_upon_leave || room_is_banned w room || room_is_disabled w room).

(** What an update should leave: [None] for no change, otherwise the membership
    if there is to be one. *)
Definition intended w sender user room m : option (option Kind) :=
  match m with
  | Join => Some (Some Joined)
  | Invite => if user_is_ignored w sender user then None else Some (Some Invited)
  | Leave | Ban => Some (if leaves_no_trace w user room then None else Some Left)
  | Knock | Custom => None
  end.

Definition evolves (t : option (option Kind)) user room mc mc' : Prop :=
  match t with None => unchanged mc mc' | Some o => becomes o user room mc mc' end.

(** [evolves], with the tables in agreement and no more than one row more. *)
Definition sound_change (t : option (option Kind)) user room mc mc' : Prop :=
  member_inv mc' ∧ evolves t user room mc mc' ∧ (spare_rows mc → countable_rows mc').

Lemma unchanged_refl mc : unchanged mc mc.
Proof. by intros k u r _ _. Qed.

Lemma spare_countable mc : spare_rows mc → countable_rows mc.
Proof. intros Hs k. specialize (Hs k). lia. Qed.

Lemma marked_sound k v c user room mc mc' :
  member_inv mc → user_ok user → room_ok room → marked k user room v c mc mc' → sound_change (Some (Some k)) user room mc mc'.
Proof. intros. split_and!; [by eapply marked_inv|by eapply marked_becomes|intros; by eapply marked_countable]. Qed.

Lemma same_tables_members mc mc' :
  (∀ n, is_membership_table n = true → tables mc' n = tables mc n) →
  (∀ k u r, member mc' k u r ↔ member mc k u r) ∧ (∀ k, room_rows mc' k = room_rows mc k).
Proof.
  intros Ht. split; [intros k u r; unfold member, user_rows|intros k; unfold room_rows]; by rewrite Ht by by destruct k.
Qed.

Lemma join_room_sound mc w user room count :
  member_inv mc → user_ok user → room_ok room →
  ∃ res mc' w', join_room mc w user room count = (res, (mc', w'))
    ∧ match res with
      | Ok go => go = true ∧ sound_change (Some (Some Joined)) user room mc mc' ∧ once_joined mc' user room = true
      | Err (MemberDb _) => False
      | Err (Other _) => sound_change None user room mc mc'
      end.
Proof.
  intros Hinv Hu Hr. unfold join_room. destruct (once_joined mc user room) eqn:Ho.
  - destruct (mark_as_joined_spec mc user room count) as (mc' & -> & Hm). eexists _, _, _. split; [reflexivity|].
    split_and!; [done|by eapply marked_sound|]. unfold once_joined in *. by rewrite (marked_others _ _ _ _ _ _ _ Hm).
  - destruct (once_spec mc user room Hu Hr Hinv) as (mc1 & -> & Hinv1 & Ht & Hone).
    destruct (same_tables_members mc mc1) as [Hsame Hrows]; [intros [] Hn; try discriminate Hn; by apply Ht|].
    assert (spare_rows mc → spare_rows mc1) as Hspare by (intros Hs k; rewrite Hrows; apply Hs).
    destruct (inherit_room w user room) as [[[]|e] w'].
    + destruct (mark_as_joined_spec mc1 user room count) as (mc' & -> & Hm). eexists _, _, _. split; [reflexivity|].
      destruct (marked_sound Joined _ _ user room mc1 mc' Hinv1 Hu Hr Hm) as (Hinv' & Hb & Hc). split_and!; [done| |].
      * split_and!; [done| |by intros ?%Hspare%Hc]. intros k u r Hu' Hr'. rewrite (Hb k u r Hu' Hr'). case_decide; [done|apply Hsame].
      * unfold once_joined in *. rewrite (marked_others _ _ _ _ _ _ _ Hm) by done. apply Hone; [done..|by right].
    + eexists _, _, _. split; [reflexivity|]. split_and!; [done|by intros ????|by intros ?%Hspare%spare_countable].
Qed.

Lemma leave_room_sound mc w user room count :
  member_inv mc → user_ok user → room_ok room →
  ∃ mc', leave_room mc w user room count = (Ok true, (mc', w))
    ∧ sound_change (Some (if leaves_no_trace w user room then None else Some Left)) user room mc mc'.
Proof.
  intros Hinv Hu Hr. unfold leave_room. fold (leaves_no_trace w user room).
  destruct (mark_as_left_spec mc user room count) as (mc1 & -> & Hm). pose proof (marked_sound _ _ _ _ _ _ _ Hinv Hu Hr Hm) as (Hinv1 & Hb & Hc).
  destruct (leaves_no_trace w user room); cbn -[forget]; [|by exists mc1].
  destruct (forget_spec mc1 user room) as (mc2 & -> & Hrem). exists mc2. split; [done|].
  destruct Hu as [Hu Hou], Hr as [Hr Hor]. split_and!.
  - eapply removed_inv; [exact Hinv1| |exact Hrem]. by repeat constructor.
  - intros k u r Hu' Hr'. rewrite (removed_member _ _ _ _ k u r Hrem) by (by repeat constructor || by destruct Hu').
    rewrite (Hb k u r Hu' Hr'). rewrite list_elem_of_singleton. destruct (decide (u = user ∧ r = room)) as [[-> ->]|Hne]; naive_solver.
  - intros Hs k. specialize (Hc Hs k). etrans; [|exact Hc]. apply N2Z.inj_le. rewrite !nat_N_Z. apply inj_le.
    rewrite <-!size_dom. apply subseteq_size. intros key. rewrite !elem_of_dom, (removed_room _ _ _ _ Hrem).
    case_decide; [by intros [? ?]|done].
Qed.

Lemma set_membership_sound mc w room user m sender state via count :
  member_inv mc → user_ok user → room_ok room →
  ∃ res mc' w', set_membership mc w room user m sender state via count = (res, (mc', w'))
    ∧ match res with
      | Ok go => sound_change (intended w sender user room m) user room mc mc' ∧ (go = false → m = Invite ∧ user_is_ignored w sender user = true)
          ∧ (m = Join → once_joined mc' user room = true)
      | Err (MemberDb _) => False
      | Err (Other _) => m = Join ∧ sound_change None user room mc mc'
      end.
Proof.
  intros Hinv Hu Hr.
  assert (sound_change None user room mc mc) as Hrefl by (split_and!; [done|apply unchanged_refl|apply spare_countable]).
  unfold set_membership. destruct m; cbn [intended]; try (eexists _, _, _; by split; [reflexivity|]).
  - destruct (join_room_sound mc w user room count Hinv Hu Hr) as (res & mc' & w' & -> & Hres). eexists _, _, _. split; [reflexivity|].
    destruct res as [go|[e|e]]; [|done..]. destruct Hres as (-> & ? & ?). by split_and!.
  - destruct (user_is_ignored w sender user) eqn:Hign; [eexists _, _, _; by split; [reflexivity|]|].
    destruct (mark_as_invited_spec mc user room count state via) as (mc' & -> & Hm). eexists _, _, _. split; [reflexivity|].
    split_and!; [by eapply marked_sound|done|done].
  - destruct (leave_room_sound mc w user room count Hinv Hu Hr) as (mc' & -> & Hs). eexists _, _, _. by split; [reflexivity|].
  - destruct (leave_room_sound mc w user room count Hinv Hu Hr) as (mc' & -> & Hs). eexists _, _, _. by split; [reflexivity|].
Qed.

Lemma evolves_same t user room mc mc1 mc2 : evolves t user room mc mc1 → same_members mc1 mc2 → evolves t user room mc mc2.
Proof.
  destruct t as [o|]; [by apply becomes_same|]. intros Hu Hs k u r Hu' Hr'. rewrite (same_member mc1 mc2) by done. by apply Hu.
Qed.

(** The world with the account of the user. *)
Definition registered w user : Result E W := if user_is_local user || user_exists w user then Ok w else create_user w user.

Lemma update_membership_sound mc w room user m sender state via cnt count :
  member_inv mc → user_ok user → room_ok room →
  ∃ res mc' w', update_membership mc w room user m sender state via cnt count = (res, (mc', w')) ∧ member_inv mc'
    ∧ match res with
      | Err (MemberDb _) => False
      | Err (Other e) => unchanged mc mc' ∧ (registered w user = Err e ∨ m = Join)
      | Ok _ => ∃ w1, registered w user = Ok w1 ∧ evolves (intended w1 sender user room m) user room mc mc'
          ∧ (m = Join → once_joined mc' user room = true)
          ∧ ((m = Invite → user_is_ignored w1 sender user = false) → cnt = true → spare_rows mc → counted room mc')
      end.
Proof.
  intros Hinv Hu Hr. unfold update_membership. fold (registered w user). destruct (registered w user) as [w1|e].
  2:{ eexists _, _, _. split; [reflexivity|]. split_and!; [done|apply unchanged_refl|by left]. }
  destruct (set_membership_sound mc w1 room user m sender state via count Hinv Hu Hr) as (res & mc1 & w2 & Hset & Hres). rewrite Hset.
  destruct res as [go|[e|e]]; [|done|].
  2:{ destruct Hres as [-> (Hinv1 & Hch & _)]. eexists _, _, _. split; [reflexivity|]. split_and!; [done..|by right]. }
  destruct Hres as ((Hinv1 & Hev & Hcnt) & Hgo & Hone). destruct (go && cnt) eqn:Eg.
  - destruct (update_joined_count_spec mc1 room Hinv1 Hr) as (mc2 & -> & Hinv2 & Hsame & Hc & _).
    eexists _, _, _. split; [reflexivity|]. split; [done|]. exists w1. split_and!; [done|by eapply evolves_same| |].
    + intros Hj. unfold once_joined in *. rewrite (proj2 Hsame). by apply Hone.
    + intros _ _ Hs. by apply Hc, Hcnt.
  - eexists _, _, _. split; [reflexivity|]. split; [done|]. exists w1. split_and!; [done..|]. intros Hi -> _.
    rewrite andb_true_r in Eg. destruct (Hgo Eg) as [Hm Hign]. by rewrite (Hi Hm) in Hign.
Qed.

(** ** What the readers say *)

Lemma is_joined_member mc u r : is_joined mc u r = true ↔ member mc Joined u r.
Proof. apply contains_related. Qed.
Lemma is_left_member mc u r : is_left mc u r = true ↔ member mc Left u r.
Proof. apply contains_related. Qed.
Lemma is_knocked_member mc u r : is_knocked mc u r = true ↔ member mc Knocked u r.
Proof. apply contains_related. Qed.
Lemma is_invited_member mc u r : is_invited mc u r = true ↔ member mc Invited u r.
Proof. apply contains_related. Qed.

Definition kind_membership k : Membership :=
  match k with Joined => Join | Invited => Invite | Left => Leave | Knocked => Knock end.

(** The membership a user is said to have is the one kind recorded; with none
    recorded it is a ban of whoever once was in the room. *)
Lemma user_membership_exact mc u r :
  member_inv mc →
  (∀ k, member mc k u r → user_membership mc u r = Some (kind_membership k))
  ∧ ((∀ k, ¬ member mc k u r) → user_membership mc u r = if once_joined mc u r then Some Ban else None).
Proof.
  intros Hinv. pose proof (λ k k', mi_exclusive _ Hinv k k' (pair_key u r)) as Hex.
  pose proof (is_joined_member mc u r) as Hj. pose proof (is_left_member mc u r) as Hl.
  pose proof (is_knocked_member mc u r) as Hk. pose proof (is_invited_member mc u r) as Hi. unfold user_membership.
  assert (∀ (b : bool) (P : Prop), b = true ↔ P → ¬ P → b = false) as Hno by (intros [] P HP HN; [exfalso; naive_solver|done]).
  split.
  - intros k Hm. assert (∀ k', k' ≠ k → ¬ member mc k' u r) as Hne by (intros k' Hk' Hm'; by apply Hk', Hex).
    destruct k; rewrite ?(Hno _ _ Hj), ?(Hno _ _ Hl), ?(Hno _ _ Hk), ?(Hno _ _ Hi) by (by apply Hne);
      [rewrite (proj2 Hj Hm)|rewrite (proj2 Hi Hm)|rewrite (proj2 Hl Hm)|rewrite (proj2 Hk Hm)]; by destruct (once_joined mc u r).
  - intros Hnone. rewrite (Hno _ _ Hj), (Hno _ _ Hl), (Hno _ _ Hk), (Hno _ _ Hi) by apply Hnone. by destruct (once_joined mc u r).
Qed.

(** ** Deleting a room *)

(** The rows of one kind go for the users in [gone]. *)
Definition evicted k room (gone : list string) mc mc' : Prop :=
  member_inv mc' ∧ (∀ n, is_membership_table n = false → tables mc' n = tables mc n)
  ∧ (∀ k' u r, user_ok u → room_ok r → member mc' k' u r ↔ member mc k' u r ∧ ¬ (k' = k ∧ r = room ∧ u ∈ gone)).

Lemma evict_kind k room mc :
  member_inv mc → room_ok room →
  ∃ l, pairs_of (tables mc (room_table k)) room_id_ok user_id_ok room = Ok (pair room <$> l)
    ∧ (∀ u, user_ok u → u ∈ l ↔ member mc k u room)
    ∧ ∀ gone, gone ⊆ l → ∃ mc', delete_pairs (room_table k) (user_table k) (pair room <$> gone) mc = Ok mc' ∧ evicted k room gone mc mc'.
Proof.
  intros Hinv [Hroom Hrok].
  destruct (pairs_exact _ _ _ room (mi_room _ Hinv k) Hroom Hrok) as (l & Hl & _ & Hin & Hvalid). exists l. split_and!; [done| |].
  { intros u Hu. rewrite Hin. symmetry. by apply (mi_mirror _ Hinv k u room). }
  intros gone Hsub. destruct (delete_kind k (pair room <$> gone) mc) as (mc' & He & Hrem). exists mc'. split; [done|].
  assert (Forall (λ p, utf8_valid p.1 = true ∧ utf8_valid p.2 = true) (swapped (pair room <$> gone))) as Hok.
  { unfold swapped. rewrite !Forall_fmap. apply Forall_forall. intros u Hu%Hsub. cbn. split; [|done].
    rewrite Forall_forall in Hvalid. by apply Hvalid. }
  split_and!; [by eapply removed_inv|apply Hrem|]. intros k' u r [Hu _] _.
  rewrite (removed_member _ _ _ _ k' u r Hrem) by (done || (eapply Forall_impl; [exact Hok|]; by intros ? [])).
  rewrite elem_of_swapped, list_elem_of_fmap. naive_solver.
Qed.

Lemma evict_all k room mc :
  member_inv mc → room_ok room →
  ∃ mc', (let? keys := pairs_of (tables mc (room_table k)) room_id_ok user_id_ok room in
          delete_pairs (room_table k) (user_table k) keys mc) = Ok mc'
    ∧ member_inv mc' ∧ (∀ n, is_membership_table n = false → tables mc' n = tables mc n)
    ∧ (∀ k' u r, user_ok u → room_ok r → member mc' k' u r ↔ member mc k' u r ∧ ¬ (k' = k ∧ r = room)).
Proof.
  intros Hinv Hroom. destruct (evict_kind k room mc Hinv Hroom) as (l & -> & Hin & Hdel).
  destruct (Hdel l) as (mc' & He & Hinv' & Ho & Hm); [done|]. exists mc'. split_and!; [done..|].
  intros k' u r Hu Hr. rewrite (Hm k' u r Hu Hr). specialize (Hin u Hu).
  split; [|naive_solver]. intros [Hm' Hn]. split; [done|]. intros [-> ->]. apply Hn. naive_solver.
Qed.

Lemma filter_pairs (P : string → bool) room (l : list string) :
  filter (λ k : string * string, P k.2 = true) (pair room <$> l) = pair room <$> filter (λ u, P u = true) l.
Proof.
  induction l as [|u l IH]; [done|]. rewrite fmap_cons, !filter_cons. cbn [snd].
  destruct (decide (P u = true)); [rewrite fmap_cons; by f_equal|done].
Qed.

Lemma evict_left (local : string → bool) force room mc :
  member_inv mc → room_ok room →
  ∃ mc', (let? keys := pairs_of (tables mc (room_table Left)) room_id_ok user_id_ok room in
          delete_pairs (room_table Left) (user_table Left) (filter (λ p, force || negb (local p.2) = true) keys) mc) = Ok mc'
    ∧ member_inv mc' ∧ (∀ n, is_membership_table n = false → tables mc' n = tables mc n)
    ∧ (∀ k' u r, user_ok u → room_ok r →
         member mc' k' u r ↔ member mc k' u r ∧ ¬ (k' = Left ∧ r = room ∧ force || negb (local u) = true)).
Proof.
  intros Hinv Hroom. destruct (evict_kind Left room mc Hinv Hroom) as (l & -> & Hin & Hdel).
  rewrite (filter_pairs (λ u, force || negb (local u))).
  destruct (Hdel (filter (λ u, force || negb (local u) = true) l)) as (mc' & He & Hinv' & Ho & Hm); [by intros u [_ Hu]%list_elem_of_filter|].
  exists mc'. split_and!; [done..|]. intros k' u r Hu Hr. rewrite (Hm k' u r Hu Hr), list_elem_of_filter. specialize (Hin u Hu).
  split; [|naive_solver]. intros [Hm' Hn]. split; [done|]. intros (-> & -> & Hf). apply Hn. naive_solver.
Qed.

(** The room has no servers; the other rooms have theirs. *)
Lemma evict_servers room mc :
  member_inv mc → room_ok room →
  ∃ mc', (let? keys := pairs_of (tables mc roomserverids) room_id_ok server_name_ok room in
          delete_pairs roomserverids serverroomids keys mc) = Ok mc'
    ∧ member_inv mc' ∧ same_members mc mc' ∧ (∀ n, n ≠ roomserverids → n ≠ serverroomids → tables mc' n = tables mc n)
    ∧ ∀ s r, utf8_valid s = true → room_ok r → server_in_room mc' s r = true ↔ server_in_room mc s r = true ∧ r ≠ room.
Proof.
  intros Hinv [Hroom Hrok].
  destruct (pairs_exact _ _ _ room (mi_roomservers _ Hinv) Hroom Hrok) as (l & -> & _ & Hin & Hvalid).
  destruct (delete_pairs_spec roomserverids serverroomids (pair room <$> l) mc) as (mc' & He & Hr & Hs & Ho); [done|].
  exists mc'. split; [done|].
  assert (same_members mc mc') as Hsame by (split; [intros [] Hn; try discriminate Hn; by apply Ho|by apply Ho]).
  assert (Forall (λ p, utf8_valid p.1 = true) (pair room <$> l) ∧ Forall (λ p, utf8_valid p.1 = true) (swapped (pair room <$> l))) as [Hg1 Hg2].
  { unfold swapped. split; rewrite !Forall_fmap; [by apply Forall_forall|]. eapply Forall_impl; [exact Hvalid|]. by intros ? []. }
  assert (∀ s r, utf8_valid s = true → utf8_valid r = true →
    (related (tables mc' roomserverids) r s ↔ related (tables mc roomserverids) r s ∧ r ≠ room)
    ∧ (related (tables mc' serverroomids) s r ↔ related (tables mc serverroomids) s r ∧ r ≠ room)) as Hrel.
  { intros s r Hus Hur. pose proof (mi_servers _ Hinv s r Hus Hur) as Hmir. unfold related in *. rewrite Hr, Hs.
    pose proof (elem_of_pair_keys _ r s Hg1 Hur) as K1. pose proof (elem_of_pair_keys _ s r Hg2 Hus) as K2.
    rewrite elem_of_swapped in K2. rewrite list_elem_of_fmap in K1, K2. setoid_rewrite Hin in K1. setoid_rewrite Hin in K2. unfold related in *.
    assert (¬ is_Some (None : option string)) as Hnone by (by intros [? ?]).
    split; case_decide as D; rewrite ?K1, ?K2 in D; (split; [|naive_solver]).
    - naive_solver.
    - intros Hrow. split; [done|]. intros ->. apply D. naive_solver.
    - naive_solver.
    - intros Hrow. split; [done|]. intros ->. apply D. naive_solver. }
  split_and!; [|done|done|].
  - apply (same_members_inv mc); [done|done|..].
    + eapply pair_table_sub; [apply Hinv|]. intros key. rewrite Hr. case_decide; [by intros [? ?]|done].
    + eapply pair_table_sub; [apply Hinv|]. intros key. rewrite Hs. case_decide; [by intros [? ?]|done].
    + intros s r Hus Hur. destruct (Hrel s r Hus Hur) as [-> ->]. by rewrite (mi_servers _ Hinv s r Hus Hur).
  - intros s r Hus [Hur _]. unfold server_in_room. rewrite !contains_related. by apply Hrel.
Qed.

Definition without_counts mc room : MemberCache :=
  remove_row roomid_joinedcount room (remove_row roomid_inviteviaservers room
    (remove_row roomid_invitedcount room (remove_row roomid_knockedcount room mc))).

Lemma without_counts_spec mc room :
  member_inv mc →
  member_inv (without_counts mc room) ∧ same_members mc (without_counts mc room)
  ∧ tables (without_counts mc room) roomserverids = tables mc roomserverids
  ∧ tables (without_counts mc room) serverroomids = tables mc serverroomids
  ∧ ∀ n, n ∈ [roomid_joinedcount; roomid_invitedcount; roomid_knockedcount] →
      ∀ r, Map_get (tables (without_counts mc room) n) r = if decide (r = room) then Err NotFound else Map_get (tables mc n) r.
Proof.
  intros Hinv.
  assert (same_members mc (without_counts mc room)) as Hsame by (split; [intros [] Hn; try discriminate Hn; done|done]).
  split_and!; [|done|done|done|].
  - apply (same_members_inv mc); [done|done|apply Hinv|apply Hinv|exact (mi_servers _ Hinv)].
  - intros n Hn r. unfold Map_get. rewrite !table_get_rows.
    assert (table_rows (tables (without_counts mc room) n) = delete room (table_rows (tables mc n))) as ->.
    { rewrite !elem_of_cons, elem_of_nil in Hn. destruct Hn as [->|[->|[->|[]]]]; cbn [without_counts remove_row tables]; by_tables;
        unfold Map_remove; by autorewrite with engine. }
    case_decide as D; [subst r; by rewrite lookup_delete_eq|by rewrite lookup_delete_ne].
Qed.

Lemma delete_room_spec (local : string → bool) mc room force :
  member_inv mc → room_ok room →
  ∃ mc', delete_room_join_counts local mc room force = Ok mc' ∧ member_inv mc'
    ∧ (∀ k u r, user_ok u → room_ok r →
         member mc' k u r ↔ member mc k u r ∧ (r = room → k = Left ∧ local u = true ∧ force = false))
    ∧ (∀ s r, utf8_valid s = true → room_ok r → server_in_room mc' s r = true ↔ server_in_room mc s r = true ∧ r ≠ room)
    ∧ (∀ n, n ∈ [roomid_joinedcount; roomid_invitedcount; roomid_knockedcount] →
        ∀ r, Map_get (tables mc' n) r = if decide (r = room) then Err NotFound else Map_get (tables mc n) r)
    ∧ tables mc' roomuseroncejoinedids = tables mc roomuseroncejoinedids.
Proof.
  intros Hinv Hroom. unfold delete_room_join_counts. fold (without_counts mc room).
  destruct (without_counts_spec mc room Hinv) as (Hinv0 & Hsame0 & Hrs0 & Hsr0 & Hc0).
  destruct (evict_servers room _ Hinv0 Hroom) as (mc1 & Hd1 & Hinv1 & Hsame1 & Ho1 & Hsrv).
  destruct (evict_all Invited room _ Hinv1 Hroom) as (mc2 & Hd2 & Hinv2 & Ho2 & Hm2).
  destruct (evict_all Joined room _ Hinv2 Hroom) as (mc3 & Hd3 & Hinv3 & Ho3 & Hm3).
  destruct (evict_all Knocked room _ Hinv3 Hroom) as (mc4 & Hd4 & Hinv4 & Ho4 & Hm4).
  destruct (evict_left local force room _ Hinv4 Hroom) as (mc5 & Hd5 & Hinv5 & Ho5 & Hm5).
  cbn [room_table user_table] in Hd2, Hd3, Hd4, Hd5.
  destruct (pairs_of (tables (without_counts mc room) roomserverids) _ _ room) as [l1|]; [rewrite Hd1|done].
  destruct (pairs_of (tables mc1 roomuserid_invitecount) _ _ room) as [l2|]; [rewrite Hd2|done].
  destruct (pairs_of (tables mc2 roomuserid_joinedcount) _ _ room) as [l3|]; [rewrite Hd3|done].
  destruct (pairs_of (tables mc3 roomuserid_knockedcount) _ _ room) as [l4|]; [rewrite Hd4|done].
  exists mc5. split_and!; [exact Hd5|done|..].
  - intros k u r Hu Hr. rewrite (Hm5 k u r Hu Hr), (Hm4 k u r Hu Hr), (Hm3 k u r Hu Hr), (Hm2 k u r Hu Hr).
    rewrite (same_member (without_counts mc room) mc1), (same_member mc (without_counts mc room)) by done.
    clear. destruct (decide (r = room)) as [->|Hne]; [|clear -Hne; naive_solver].
    destruct k, force, (local u); cbn; naive_solver.
  - intros s r Hs Hr. rewrite <-(Hsrv s r Hs Hr) at 1. unfold server_in_room. by rewrite Ho5, Ho4, Ho3, Ho2.
  - intros n Hn r. assert (is_membership_table n = false ∧ n ≠ roomserverids ∧ n ≠ serverroomids) as (Hf & Hn1 & Hn2).
    { rewrite !elem_of_cons, elem_of_nil in Hn. by destruct Hn as [->|[->|[->|[]]]]. }
    rewrite Ho5, Ho4, Ho3, Ho2, Ho1 by done. by apply Hc0.
  - rewrite Ho5, Ho4, Ho3, Ho2, Ho1 by done. apply Hsame0.
Qed.

(** ** Reachable states *)

(** One call of the service, or a change of the rest of the server. *)
Inductive member_step : MemberCache * W → MemberCache * W → Prop :=
  | step_update mc w room user m sender state via cnt count (res : Result (MemberError E) unit) (next : MemberCache * W) :
      user_ok user → room_ok room → update_membership mc w room user m sender state via cnt count = (res, next) →
      member_step (mc, w) next
  | step_knocked mc w user room count state mc' :
      user_ok user → room_ok room → mark_as_knocked mc user room count state = Ok mc' → member_step (mc, w) (mc', w)
  | step_forget mc w user room mc' :
      user_ok user → room_ok room → forget mc room user = Ok mc' → member_step (mc, w) (mc', w)
  | step_delete mc w room force mc' :
      room_ok room → delete_room_join_counts (user_is_local (W := W) (E := E)) mc room force = Ok mc' → member_step (mc, w) (mc', w)
  | step_count mc w room mc' : room_ok room → update_joined_count mc room = Ok mc' → member_step (mc, w) (mc', w)
  | step_appservice mc w room reg b mc' : appservice_in_room mc room reg = Ok (b, mc') → member_step (mc, w) (mc', w)
  | step_clear mc w : member_step (mc, w) (clear_appservice_in_room_cache mc, w)
  | step_world mc w w' : member_step (mc, w) (mc, w').

(** The cache of a fresh database. *)
Definition fresh_cache mc : Prop := ∀ n, table_rows (tables mc n) = ∅.

Lemma fresh_inv mc : fresh_cache mc → member_inv mc.
Proof.
  intros Hf. assert (∀ n key, ¬ is_Some (table_rows (tables mc n) !! key)) as Hno.
  { intros n key [v Hv]. by rewrite Hf, lookup_empty in Hv. }
  split; unfold member, user_rows, room_rows, related.
  - by intros k key ?%Hno.
  - by intros k key ?%Hno.
  - intros k u r _ _. split; by intros ?%Hno.
  - by intros k k' key ?%Hno.
  - by intros key ?%Hno.
  - by intros key ?%Hno.
  - by intros key ?%Hno.
  - intros s r _ _. split; by intros ?%Hno.
Qed.

Lemma same_tables_inv mc mc' : tables mc' = tables mc → member_inv mc → member_inv mc'.
Proof. intros E' Hinv. destruct mc, mc'. cbn in E'. subst. by destruct Hinv. Qed.

Lemma member_step_inv (x y : MemberCache * W) : member_step x y → member_inv x.1 → member_inv y.1.
Proof.
  destruct 1 as [mc w room user m sender state via cnt count res s' Hu Hr He|mc w user room count state mc' Hu Hr He
    |mc w user room mc' Hu Hr He|mc w room force mc' Hr He|mc w room mc' Hr He|mc w room reg b mc' He|mc w|mc w w'];
    cbn [fst]; intros Hinv; [| | | | | | |done].
  - destruct (update_membership_sound mc w room user m sender state via cnt count Hinv Hu Hr) as (? & mc' & w' & He' & Hinv' & _).
    rewrite He in He'. by injection He' as _ ->.
  - destruct (mark_as_knocked_spec mc user room count state) as (mc1 & He' & Hm). rewrite He in He'. injection He' as ->.
    by eapply marked_inv.
  - destruct (forget_spec mc user room) as (mc1 & He' & Hm). rewrite He in He'. injection He' as ->.
    destruct Hu, Hr. eapply removed_inv; [done| |done]. by repeat constructor.
  - destruct (delete_room_spec (user_is_local (W := W) (E := E)) mc room force Hinv Hr) as (mc1 & He' & Hinv' & _). rewrite He in He'. by injection He' as ->.
  - destruct (update_joined_count_spec mc room Hinv Hr) as (mc1 & He' & Hinv' & _). rewrite He in He'. by injection He' as ->.
  - apply (same_tables_inv mc); [|done]. unfold appservice_in_room in He. destruct (_ ≫= _); [by injection He as _ <-|].
    destruct (room_members mc room); [|done]. by injection He as _ <-.
  - by apply (same_tables_inv mc).
Qed.

Lemma member_reachable_inv (x y : MemberCache * W) : rtc member_step x y → member_inv x.1 → member_inv y.1.
Proof. induction 1 as [|x1 x2 x3 Hxy _ IH]; [done|]. intros Hinv. by eapply IH, member_step_inv. Qed.

Lemma reachable_members mc0 w0 mc w : rtc member_step (mc0, w0) (mc, w) → fresh_cache mc0 → member_inv mc.
Proof. intros Hsteps Hf. exact (member_reachable_inv _ _ Hsteps (fresh_inv _ Hf)). Qed.

(** A listing names a user when its table does. *)
Lemma listed_member mc k room u :
  member_inv mc → user_ok u → room_ok room →
  (∃ l, seconds (tables mc (room_table k)) user_id_ok room = Ok l ∧ u ∈ l) ↔ member mc k u room.
Proof.
  intros Hinv Hu Hr. destruct (members_listed mc k room Hinv Hr) as (l & Hl & _ & _ & Hin & _). split.
  - intros (l' & Hl' & Hu'). rewrite Hl in Hl'. injection Hl' as <-. by apply Hin in Hu' as [_ ?].
  - intros Hm. exists l. split; [done|]. by apply Hin.
Qed.

(** No row belongs to a user whose id extends this one. *)
Definition alone mc u : Prop :=
  ∀ key, is_Some (user_rows mc Joined !! key) → String.prefix u key = true → String.prefix (below u) key = true.

Lemma alone_rows mc u (keys : list string) :
  raw_keys_prefix (tables mc userroomid_joinedcount) "" = keys →
  forallb (λ key, implb (String.prefix u key) (String.prefix (below u) key)) keys = true → alone mc u.
Proof.
  intros Hk Hall key Hrow Hp. assert (key ∈ keys) as Hin by (subst keys; apply elem_of_raw_keys_prefix; by destruct key).
  apply list_elem_of_In in Hin. pose proof (proj1 (forallb_forall _ _) Hall key Hin) as Hkey. cbn in Hkey. by rewrite Hp in Hkey.
Qed.

Lemma copies_NoDup (l : list string) : NoDup l ↔ ∀ y, (copies y l <= 1)%nat.
Proof.
  induction l as [|x l IH]; [split; [intros _ y; unfold copies; cbn; lia|constructor]|].
  rewrite NoDup_cons, IH, <-copies_pos. setoid_rewrite copies_cons. split.
  - intros [Hx Hl] y. specialize (Hl y). case_decide; [subst y|]; lia.
  - intros Hl. split; [specialize (Hl x); rewrite decide_True in Hl by done; lia|].
    intros y. specialize (Hl y). lia.
Qed.

(** ** Properties *)


(** C6.  However the service is driven from a fresh database, the tables agree: a
    user is in the listing of joined, invited or knocking users of a room
    exactly when the membership read by user says so, at most one kind holds,
    and a server lists a room when the room lists the server. *)
Theorem memberships_agree mc0 w0 mc w u r s :
  fresh_cache mc0 → rtc member_step (mc0, w0) (mc, w) → user_ok u → room_ok r → utf8_valid s = true →
  (user_membership mc u r = Some Join ↔ ∃ l, room_members mc r = Ok l ∧ u ∈ l)
  ∧ (user_membership mc u r = Some Invite ↔ ∃ l, room_members_invited mc r = Ok l ∧ u ∈ l)
  ∧ (user_membership mc u r = Some Knock ↔ ∃ l, room_members_knocked mc r = Ok l ∧ u ∈ l)
  ∧ (∀ k k', member mc k u r → member mc k' u r → k = k')
  ∧ (server_in_room mc s r = true ↔ ∃ l, room_servers mc r = Ok l ∧ s ∈ l).
Proof.
  intros Hf Hsteps Hu Hr Hs. pose proof (reachable_members _ _ _ _ Hsteps Hf) as Hinv.
  assert (∀ k, user_membership mc u r = Some (kind_membership k) ↔ member mc k u r) as Hum.
  { destruct (user_membership_exact mc u r Hinv) as [Hsome Hnone]. intros k. split; [|apply Hsome]. intros He.
    destruct (decide (is_Some (user_rows mc k !! pair_key u r))) as [Hm|Hm]; [done|].
    destruct (decide (Exists (λ k', is_Some (user_rows mc k' !! pair_key u r)) [Joined; Invited; Left; Knocked])) as [(k' & _ & Hk')%Exists_exists|Hex].
    - rewrite (Hsome k' Hk') in He. injection He as He. assert (k' = k) as -> by by destruct k, k'. done.
    - rewrite Hnone in He; [destruct (once_joined mc u r), k; done|]. intros k' Hk'. apply Hex, Exists_exists. exists k'. split; [|done].
      destruct k'; set_solver. }
  split_and!.
  - rewrite (Hum Joined). symmetry. by apply (listed_member mc Joined).
  - rewrite (Hum Invited). symmetry. by apply (listed_member mc Invited).
  - rewrite (Hum Knocked). symmetry. by apply (listed_member mc Knocked).
  - intros k k'. apply (mi_exclusive _ Hinv).
  - unfold server_in_room, room_servers. rewrite contains_related, <-(mi_servers _ Hinv s r Hs (proj1 Hr)).
    destruct (seconds_exact _ _ _ r (mi_roomservers _ Hinv) (proj1 Hr)) as (l & -> & _ & _ & Hin & _). rewrite <-Hin.
    split; [by exists l|]. intros (l' & [= <-] & Hl). done.
Qed.

(** Deleting a room takes its servers, its counts and every membership of it,
    except that a local user's having left it stays unless forced; every other
    room keeps all it had. *)
Theorem room_deletion_exact (local : string → bool) mc room force :
  member_inv mc → room_ok room →
  ∃ mc', delete_room_join_counts local mc room force = Ok mc' ∧ member_inv mc'
    ∧ (∀ k u r, user_ok u → room_ok r →
         member mc' k u r ↔ member mc k u r ∧ (r = room → k = Left ∧ local u = true ∧ force = false))
    ∧ room_members mc' room = Ok [] ∧ room_members_invited mc' room = Ok []
    ∧ (∀ s r, utf8_valid s = true → room_ok r → server_in_room mc' s r = true ↔ server_in_room mc s r = true ∧ r ≠ room)
    ∧ (∀ r, room_joined_count mc' r = if decide (r = room) then Err NotFound else room_joined_count mc r).
Proof.
  intros Hinv Hr. destruct (delete_room_spec local mc room force Hinv Hr) as (mc' & He & Hinv' & Hm & Hs & Hc & _).
  assert (∀ k, k ≠ Left → seconds (tables mc' (room_table k)) user_id_ok room = Ok []) as Hempty.
  { intros k Hk. destruct (members_listed mc' k room Hinv' Hr) as (l & -> & _ & _ & Hin & _). destruct l as [|u l]; [done|exfalso].
    destruct (proj1 (Hin u)) as [Hu Hmem]; [by left|]. apply (Hm k u room Hu Hr) in Hmem as [_ Hl]. by apply Hk, Hl. }
  exists mc'. split_and!; [done..|by apply (Hempty Joined)|by apply (Hempty Invited)|done|].
  intros r. unfold room_joined_count. rewrite Hc by (by left). by case_decide.
Qed.

(** Where no other user's id extends theirs, the rooms two users share are
    those both have joined, each once. *)
Theorem shared_rooms_exact mc a b :
  member_inv mc → user_ok a → user_ok b → alone mc a → alone mc b →
  ∃ l, get_shared_rooms mc a b = Some l ∧ NoDup l ∧ (∀ r, r ∈ l ↔ member mc Joined a r ∧ member mc Joined b r)
    ∧ (user_sees_user mc a b = Some true ↔ ∃ r, member mc Joined a r ∧ member mc Joined b r).
Proof.
  intros Hinv [Ha _] [Hb _] Haa Hab.
  destruct (seconds_raw_exact _ _ _ a (mi_user _ Hinv Joined) Ha Haa) as (Hsa & NDa & Hia).
  destruct (seconds_raw_exact _ _ _ b (mi_user _ Hinv Joined) Hb Hab) as (Hsb & NDb & Hib).

  destruct (collect_polls Nat.min intersection_poll (S (length (rooms_joined mc a) + length (rooms_joined mc b)))
    (streams_new (rooms_joined mc a) (rooms_joined mc b)) intersection_polls) as (l & Hl & _ & Hcop); [lia|done..|unfold remaining; cbn; lia|].
  exists l. assert (∀ r, r ∈ l ↔ member mc Joined a r ∧ member mc Joined b r) as Hin.
  { intros r. change (member mc Joined a r) with (related (tables mc (user_table Joined)) a r).
    change (member mc Joined b r) with (related (tables mc (user_table Joined)) b r).
    rewrite <-Hia, <-Hib, <-!copies_pos, Hcop. unfold total, left_a, left_b, rooms_joined in *. cbn -[copies Nat.min]. lia. }
  split_and!; [done| |done|].
  - apply copies_NoDup. intros y. rewrite Hcop. pose proof (proj1 (copies_NoDup (rooms_joined mc a)) NDa y). unfold total, left_a, left_b, rooms_joined in *. cbn -[copies Nat.min]. lia.
  - unfold user_sees_user, get_shared_rooms, intersection_sorted_stream2. rewrite Hl. cbn. destruct l as [|r l].
    + split; [done|]. intros [r Hr]. apply Hin in Hr. by apply elem_of_nil in Hr.
    + split; [|done]. intros _. exists r. apply Hin. by left.
Qed.
End transitions.

(** The listing of those who were ever in a room finds no one: the rows it
    scans by room are keyed by user. *)
Theorem once_joined_listing_empty `{Engine, JsonParser, Identifiers, Users} mc room :
  member_inv mc → utf8_valid room = true → user_id_ok room = false → room_useroncejoined mc room = Ok [].
Proof.
  intros Hinv Hr Hno. unfold room_useroncejoined.
  set (tb := tables mc roomuseroncejoinedids).
  assert (raw_keys_prefix tb (below room) = []) as Hk.
  { apply raw_keys_prefix_unique; [constructor|constructor|]. intros key. split; [by intros ?%elem_of_nil|].
    intros [Hp Hrow]. exfalso. destruct (mi_once _ Hinv key Hrow) as (a & b & -> & Ha & _ & Hoa & _).
    pose proof (below_disjoint room a _ Hr Ha Hp (below_prefix a b)) as ->. by rewrite Hno in Hoa. }
  unfold seconds, keys_prefix, keys_prefix_raw. rewrite prefix_of_ser. cbn [expect map_err]. by rewrite Hk.
Qed.

(** ** Examples *)

Module MembersExample.
#[local] Existing Instance ordered_engine.
#[local] Existing Instance ShortExample.json.
#[local] Existing Instance ShortExample.identifiers.
#[local] Existing Instance reversed_hash_iter.

Definition home (u : string) : string := if String.prefix "@a" u then "a" else "b".

#[export] Instance users : Users.
Proof.
  refine {| user_id_ok := String.prefix "@"; server_name_ok := λ _, true; server_name := home |}; [done|].
  intros u _. unfold home. by destruct (String.prefix "@a" u).
Defined.

(** A server that forgets the rooms its users leave, when asked to. *)
Definition services (forced : bool) : Services unit unit := {|
  user_is_local := String.prefix "@a";
  user_exists _ _ := true;
  create_user w _ := Ok w;
  room_predecessor _ _ := None;
  copy_tags w _ _ _ := w;
  get_direct _ _ := None;
  update_direct w _ _ := Ok w;
  user_is_ignored _ _ _ := false;
  forget_forced_upon_leave := forced;
  room_is_banned _ _ := false;
  room_is_disabled _ _ := false;
  power_levels_users _ _ := None;
|}.

Definition empty : MemberCache := mkCache (λ _, ∅ : Table) ∅.

Lemma empty_fresh : fresh_cache empty.
Proof. done. Qed.

Definition run (forced : bool) (mc : MemberCache) (u r : string) (m : Membership) : MemberCache :=
  (update_membership (Services0 := services forced) mc tt r u m u None None true (Normal 1)).2.1.

(** Alice's server name begins with another's. *)
Definition alice_in : MemberCache := run false empty "@a:ex.com" "!r" Join.
End MembersExample.

#[local] Existing Instance ordered_engine.
#[local] Existing Instance ShortExample.json.
#[local] Existing Instance ShortExample.identifiers.
#[local] Existing Instance reversed_hash_iter.
Import MembersExample.


Lemma alice_in_reached : rtc (member_step (Services0 := services false)) (empty, tt) (alice_in, tt).
Proof.
  apply rtc_once. unfold alice_in, run. destruct (update_membership _ _ _ _ _ _ _ _ _ _) as [res [mc' []]] eqn:He.
  apply (step_update (Services0 := services false) empty tt "!r" "@a:ex.com" Join "@a:ex.com" None None true (Normal 1) res);
    [by split|by split|exact He].
Qed.

Lemma memberships_agree_witness :
  user_membership alice_in "@a:ex.com" "!r" = Some Join ↔ ∃ l, room_members alice_in "!r" = Ok l ∧ "@a:ex.com" ∈ l.
Proof.
  apply (memberships_agree (Services0 := services false) empty tt alice_in tt "@a:ex.com" "!r" "a"
    empty_fresh alice_in_reached); [by split|by split|reflexivity].
Defined.

Lemma alice_in_inv : member_inv alice_in.
Proof. exact (reachable_members (Services0 := services false) _ _ _ _ alice_in_reached empty_fresh). Qed.

Lemma room_deletion_exact_witness :
  ∃ mc', delete_room_join_counts (String.prefix "@a") alice_in "!r" false = Ok mc' ∧ member_inv mc'.
Proof.
  destruct (room_deletion_exact (String.prefix "@a") alice_in "!r" false alice_in_inv) as (mc' & He & Hi & _); [by split|].
  exists mc'. exact (conj He Hi).
Defined.

Lemma alice_alone : alone alice_in "@a:ex.com".
Proof. apply (alone_rows alice_in "@a:ex.com" [pair_key "@a:ex.com" "!r"]); vm_compute; reflexivity. Qed.

Lemma shared_rooms_exact_witness : ∃ l, get_shared_rooms alice_in "@a:ex.com" "@a:ex.com" = Some l ∧ NoDup l.
Proof.
  destruct (shared_rooms_exact alice_in "@a:ex.com" "@a:ex.com" alice_in_inv) as (l & Hl & ND & _); [by split|by split|apply alice_alone..|].
  exists l. exact (conj Hl ND).
Defined.

Lemma once_joined_listing_empty_witness :
  room_useroncejoined alice_in "!r" = Ok [] ∧ once_joined alice_in "@a:ex.com" "!r" = true.
Proof. split; [apply (once_joined_listing_empty alice_in "!r" alice_in_inv); reflexivity|vm_compute; reflexivity]. Defined.

(** A user's rooms are scanned for by the id alone, so they include those of
    every user whose id begins with it: here a user of the server [ex] is told
    the room that a user of [ex.com] is in. *)
Theorem rooms_listing_leaks :
  rooms_joined alice_in "@a:ex" = ["!r"] ∧ is_joined alice_in "@a:ex" "!r" = false ∧ user_membership alice_in "@a:ex" "!r" = None
  ∧ user_sees_user alice_in "@a:ex" "@a:ex.com" = Some true.
Proof. vm_compute. split_and!; reflexivity. Qed.

(** A user who left a room that is then forgotten is said to be banned from it,
    and a banned user to have left. *)
Theorem forgotten_reads_as_banned :
  user_membership (run true alice_in "@a:ex.com" "!r" Leave) "@a:ex.com" "!r" = Some Ban
  ∧ user_membership (run false alice_in "@a:ex.com" "!r" Ban) "@a:ex.com" "!r" = Some Leave.
Proof. vm_compute. split; reflexivity. Qed.

(** Of the servers an invite was received through, only the last is found
    again, so adding others loses the rest. *)
Theorem invite_servers_lost :
  match add_servers_invite_via empty "!r" ["a"; "b"] with
  | Ok one => servers_invite_via one "!r" = ["b"] ∧
      match add_servers_invite_via one "!r" ["c"] with
      | Ok two => servers_invite_via two "!r" = ["c"]
          ∧ table_rows (tables two roomid_inviteviaservers) !! "!r" = Some (record_bytes ["b"; "c"])
      | Err _ => False
      end
  | Err _ => False
  end.
Proof. vm_compute. split_and!; reflexivity. Qed.
