(* ===== verification/RoomMeta.v ===== *)
(** * What is noted of rooms and events ([src/src/service/rooms/metadata/mod.rs],
    [pdu_metadata/mod.rs], [threads/mod.rs])

    Small tables beside the timeline: rooms that are disabled or banned, which
    event relates to which, the events other events refer to as previous ones,
    the events that failed softly, and who takes part in a thread.  Relations are
    between positions of the global counter, one row per pair, scanned by the
    position related to. *)

From S2P Require Import Prelude Bytes Slices DbCodec DbMap Pairs Counter Short Compressor RoomStates PduId MemberCache Scans Timeline AuthChain.

Section meta.
Context `{Engine, JsonParser, Identifiers, Users, Lru, PduJson}.

Record RoomMeta := mkMeta {
  disabledroomids : Table;
  bannedroomids : Table;
  tofrom_relation : Table;
  referencedevents : Table;
  softfailedeventids : Table;
  threadid_userids : Table;
}.
Implicit Types (m : RoomMeta) (tl : Timeline) (room event_id : string) (pdu_id : RawId).

Definition with_disabled (tb : Table) m :=
  mkMeta tb (bannedroomids m) (tofrom_relation m) (referencedevents m) (softfailedeventids m) (threadid_userids m).
Definition with_banned (tb : Table) m :=
  mkMeta (disabledroomids m) tb (tofrom_relation m) (referencedevents m) (softfailedeventids m) (threadid_userids m).
Definition with_relations (tb : Table) m :=
  mkMeta (disabledroomids m) (bannedroomids m) tb (referencedevents m) (softfailedeventids m) (threadid_userids m).
Definition with_referenced (tb : Table) m :=
  mkMeta (disabledroomids m) (bannedroomids m) (tofrom_relation m) tb (softfailedeventids m) (threadid_userids m).
Definition with_soft_failed (tb : Table) m :=
  mkMeta (disabledroomids m) (bannedroomids m) (tofrom_relation m) (referencedevents m) tb (threadid_userids m).
Definition with_threads (tb : Table) m :=
  mkMeta (disabledroomids m) (bannedroomids m) (tofrom_relation m) (referencedevents m) (softfailedeventids m) tb.

Definition has_row (tb : Table) (key : string) : bool := match Map_get tb key with Ok _ => true | Err _ => false end.

(** ** [metadata/mod.rs] *)

(** A room exists when it has a stored event. *)
Definition room_exists tl room : Result DbError bool :=
  match get_shortroomid (shorts (states tl)) room with
  | Err _ => Ok false
  | Ok r => let? keys := keys_prefix_raw (pduid_pdu tl) (SU64 r) in Ok (bool_decide (keys ≠ []))
  end.

Definition read_rooms (l : list DeValue) : list string := omap (λ v, match v with VStr s => Some s | _ => None end) l.

Definition ids_prefix tl (prefix : string) : list string :=
  read_rooms (ignore_err (deserialize_slice (DStr room_id_ok) <$> raw_keys_prefix (roomid_shortroomid (shorts (states tl))) prefix)).
Definition iter_ids tl : list string := read_rooms (keys_all (roomid_shortroomid (shorts (states tl))) (DStr room_id_ok)).

Definition disable_room m room : RoomMeta := with_disabled (Map_insert (disabledroomids m) room "") m.
Definition enable_room m room : RoomMeta := with_disabled (Map_remove (disabledroomids m) room) m.
Definition ban_room m room : RoomMeta := with_banned (Map_insert (bannedroomids m) room "") m.
Definition unban_room m room : RoomMeta := with_banned (Map_remove (bannedroomids m) room) m.
Definition list_banned_rooms m : list string := read_rooms (keys_all (bannedroomids m) (DStr room_id_ok)).
Definition is_disabled m room : bool := has_row (disabledroomids m) room.
Definition is_banned m room : bool := has_row (bannedroomids m) room.

(** ** [pdu_metadata/mod.rs] *)

(** Relations of backfilled events are not kept. *)
Definition add_relation m (from to : Count) : Result DbError RoomMeta :=
  match from, to with
  | Normal from, Normal to => let? tb := aput_raw (tofrom_relation m) 16 (ser_shorts [to; from]) "" in Ok (with_relations tb m)
  | _, _ => Ok m
  end.

Definition relations_start (target : Count) (from : option Count) (dir : Direction) : string :=
  count_to_be_bytes target +:+
  count_to_be_bytes match from with
                    | Some from => saturating_inc from dir
                    | None => match dir with Backward => count_max | Forward => Normal 0 end
                    end.

(** Slicing a key that is too short panics. *)
Definition from_of_key (key : string) : option Count :=
  if (16 <=? String.length key)%nat then Some (from_unsigned (be_decode (str_take 8 (str_drop 8 key)))) else None.

Definition relation_counts m (target : Count) (from : option Count) (dir : Direction) : Result DbError (list Count) :=
  let start := relations_start target from dir in
  let keys := match dir with
              | Backward => rev_raw_keys_from (tofrom_relation m) start
              | Forward => raw_keys_from (tofrom_relation m) start
              end in
  ok_or (Panicked InvalidLength) (mapM from_of_key (take_while (String.prefix (count_to_be_bytes target)) keys)).

Definition without_foreign_txn (user_id : option string) (p : Pdu) : Pdu :=
  if decide (Some (sender p) = user_id) then p else match remove_transaction_id p with Ok p' => p' | Err _ => p end.

Definition get_relations tl m (shortroomid : N) (target : Count) (from : option Count) (dir : Direction)
    (user_id : option string) : Result DbError (list (Count * Pdu)) :=
  let? counts := relation_counts m target from dir in
  Ok (omap (λ count, (λ p, (count, without_foreign_txn user_id p))
                     <$> ok (get_pdu_from_id tl (raw_from_id (mkId shortroomid count)))) counts).

Fixpoint mark_rows (tb : Table) room (event_ids : list string) : Result DbError Table :=
  match event_ids with
  | [] => Ok tb
  | prev :: event_ids' => let? next := put_raw tb (pair_ser room prev) "" in mark_rows next room event_ids'
  end.
Definition mark_as_referenced m room (event_ids : list string) : Result DbError RoomMeta :=
  let? tb := mark_rows (referencedevents m) room event_ids in Ok (with_referenced tb m).
Definition is_event_referenced m room event_id : bool := contains_pair (referencedevents m) room event_id.
Definition mark_event_soft_failed m event_id : RoomMeta := with_soft_failed (Map_insert (softfailedeventids m) event_id "") m.
Definition is_event_soft_failed m event_id : bool := has_row (softfailedeventids m) event_id.

Definition delete_all_referenced_for_room m room : Result DbError RoomMeta :=
  let? keys := keys_prefix_raw (referencedevents m) (prefix_ser_of room) in
  Ok (with_referenced (foldl Map_remove (referencedevents m) keys) m).

(** ** [threads/mod.rs] *)

Definition update_participants m pdu_id (participants : list string) : RoomMeta :=
  with_threads (Map_insert (threadid_userids m) (as_bytes pdu_id) (record_bytes participants)) m.

Definition get_participants m pdu_id : Result DbError (list string) :=
  let? v := deserialized (DSeq (DStr user_id_ok)) (Map_get (threadid_userids m) (as_bytes pdu_id)) in
  match v with VSeq l => Ok (read_rooms l) | _ => Err (Codec InvalidValue) end.

Definition delete_all_rooms_threads m room : Result DbError RoomMeta :=
  let? keys := keys_prefix_raw (threadid_userids m) (prefix_ser_of room) in
  Ok (with_threads (foldl Map_remove (threadid_userids m) keys) m).
End meta.

(** ** Relations *)

Definition relation_key (to from : N) : string := be_words [to; from].

Section relations.
Context `{Engine, JsonParser, Identifiers, Users, Lru, PduJson}.
Implicit Types (m : RoomMeta) (tb : Table) (t n : N) (dir : Direction).

(** Every row relates two positions of events that arrived. *)
Definition relation_table tb : Prop :=
  ∀ key, is_Some (table_rows tb !! key) → ∃ t n, key = relation_key t n ∧ (t <= U64_MAX)%N ∧ (0 < n <= Z.to_N I64_MAX)%N.

Definition relates m (from to : N) : Prop := is_Some (table_rows (tofrom_relation m) !! relation_key to from).

Lemma relation_key_inj t n t' n' :
  (t <= U64_MAX)%N → (t' <= U64_MAX)%N → (n <= U64_MAX)%N → (n' <= U64_MAX)%N → relation_key t n = relation_key t' n' → t = t' ∧ n = n'.
Proof. intros ? ? ? ? E%words_inj; [by simplify_eq|repeat constructor; done..]. Qed.

Lemma relation_onward dir t n n' :
  (n <= U64_MAX)%N → (n' <= U64_MAX)%N → onward dir (relation_key t n) (relation_key t n') ↔ not_before dir n n'.
Proof.
  intros Hn Hn'. change (relation_key t) with (λ n, counted (u64_to_be_bytes t) n ""). cbn beta. rewrite counted_onward by done.
  assert (onward dir "" "") as Hr by (destruct dir; by apply key_le_compare). destruct dir; unfold later, not_before; (split; [intros [?|[-> _]]; lia|]); intros ?;
    destruct (N.eq_dec n n') as [->|?]; [by right|left; lia|by right|left; lia].
Qed.

(** The rows of one position from another on. *)
Lemma relation_rows dir tb t n0 :
  relation_table tb → (t <= U64_MAX)%N → (n0 <= U64_MAX)%N →
  ∃ l, take_while (String.prefix (u64_to_be_bytes t)) (scan dir tb (relation_key t n0)) = relation_key t <$> l
    ∧ StronglySorted (later dir) l ∧ Forall (λ n, 0 < n <= Z.to_N I64_MAX)%N l
    ∧ ∀ n, (n <= U64_MAX)%N → n ∈ l ↔ is_Some (table_rows tb !! relation_key t n) ∧ not_before dir n0 n.
Proof.
  intros Ht Hu Hn0.
  replace (scan dir tb (relation_key t n0)) with (scan_rows dir tb (relation_key t n0)).*1 by by destruct dir.
  rewrite (take_while_fmap fst). change (λ x : string * string, String.prefix (u64_to_be_bytes t) x.1) with (starts_with (u64_to_be_bytes t)).
  destruct (typed_scan dir tb (relation_key t n0) Some (starts_with (u64_to_be_bytes t))) as (rows & Hf & Hs & ND & Hin).
  { intros e e' ? ? [_ Ho]%elem_of_scan_rows _ Hon [= <-] [= <-]. unfold starts_with.
    eapply scan_prefix; [apply (prefix_append (u64_to_be_bytes t) (u64_to_be_bytes n0 +:+ ""))|exact Ho|exact Hon]. }
  assert (omap Some (scan_rows dir tb (relation_key t n0)) = scan_rows dir tb (relation_key t n0)) as Eid
    by (generalize (scan_rows dir tb (relation_key t n0)); induction l as [|? l IH]; [done|]; csimpl; by rewrite IH).
  rewrite Eid in Hf. assert (rows = take_while (starts_with (u64_to_be_bytes t)) (scan_rows dir tb (relation_key t n0))) as <-
    by (clear -Hf; induction Hf as [|? ? ? ? [= ->]]; congruence).
  assert (∀ e, e ∈ rows → ∃ n, e.1 = relation_key t n ∧ (0 < n <= Z.to_N I64_MAX)%N ∧ not_before dir n0 n) as Hkey.
  { intros e (Hrow & Ho & ? & [= <-] & Hp)%Hin. destruct (Ht e.1) as (t' & n & E & Ht' & Hn); [by eexists|].
    apply prefix_spec in Hp as [w Hw]. rewrite E in Hw. apply append_inj_l in Hw as [E' _]; [|by rewrite !length_u64].
    apply be_encode_inj in E' as ->; [|by apply u64_width..]. exists n. split_and!; [done|lia|lia|].
    apply (relation_onward dir t); [done|unfold I64_MAX, U64_MAX in *; lia|]. by rewrite <-E. }
  destruct (Forall2_choice (λ e n, e.1 = relation_key t n ∧ (0 < n <= Z.to_N I64_MAX)%N ∧ not_before dir n0 n) rows Hkey) as [l Hl].
  exists l. split_and!.
  - clear -Hl. induction Hl as [|e n rows l (E & _) _ IH]; [done|]. csimpl. by rewrite E, IH.
  - eapply Forall2_sorted; [exact Hl|by apply (rows_apart dir)|]. intros e e' n n' _ _ [Ho Hne] (E & Hn & _) (E' & Hn' & _).
    unfold row_onward in Ho. rewrite E, E' in Ho, Hne.
    apply relation_onward in Ho; [|unfold I64_MAX, U64_MAX in *; lia..]. assert (n ≠ n') by congruence. destruct dir; unfold later, not_before in *; lia.
  - apply Forall_forall. intros n Hn. apply (Forall2_elem_r _ _ _ _ Hl) in Hn as (e & _ & _ & Hn & _). lia.
  - intros n Hn. split.
    + intros (e & He & E & _ & Hb)%(Forall2_elem_r _ _ _ _ Hl). apply Hin in He as (Hrow & _). rewrite E in Hrow. split; [by eexists|done].
    + intros [[v Hv] Hb]. assert ((relation_key t n, v) ∈ rows) as He.
      { apply Hin. split; [done|]. split; [by apply relation_onward|]. eexists. split; [done|]. apply (prefix_append (u64_to_be_bytes t)). }
      apply (Forall2_elem_l _ _ _ _ Hl) in He as (n' & Hn' & E & Hb' & _). cbn [fst] in E.
      apply relation_key_inj in E as [_ ->]; [done..|unfold I64_MAX, U64_MAX in *; lia].
Qed.

Lemma from_of_relation t n :
  (0 < n <= Z.to_N I64_MAX)%N → from_of_key (relation_key t n) = Some (Normal n).
Proof.
  intros Hn. unfold from_of_key, relation_key. rewrite length_words. cbn [length Nat.mul Nat.add Nat.leb be_words foldr].
  unfold u64_to_be_bytes. rewrite be_drop, append_nil_r, be_take_all, be_decode_encode by (unfold I64_MAX in *; cbn; lia).
  f_equal. unfold from_unsigned. rewrite normal_signed by lia. unfold from_signed. rewrite (proj2 (Z.leb_gt _ _)) by lia. by rewrite N2Z.id.
Qed.

Lemma serialize_relation to from : serialize (Some 16) (ser_shorts [to; from]) = Ok (relation_key to from).
Proof.
  pose proof (serialize_shorts [to; from]) as Hs. unfold serialize in *. destruct (serialize_to_vec _) as [buf|]; [|done].
  assert (buf = be_words [to; from]) as -> by (by injection Hs). cbv beta iota. by rewrite length_words.
Qed.

(** A relation added is one more row, unless one of the events is backfilled. *)
Lemma add_relation_spec m (from to : Count) :
  ∃ m', add_relation m from to = Ok m' ∧ disabledroomids m' = disabledroomids m ∧ softfailedeventids m' = softfailedeventids m
    ∧ referencedevents m' = referencedevents m ∧ threadid_userids m' = threadid_userids m ∧ bannedroomids m' = bannedroomids m.
Proof.
  destruct from as [from|?], to as [to|?]; unfold add_relation, aput_raw, bput_raw; rewrite ?serialize_relation; cbn; eauto 10.
Qed.

(** The relations to an event are listed once each in the order of arrival, or
    backwards, from the end or beyond a position. *)
Theorem relations_listed m t dir (from : option N) :
  relation_table (tofrom_relation m) → (t <= Z.to_N I64_MAX)%N → (∀ f, from = Some f → 0 < f <= Z.to_N I64_MAX)%N →
  ∃ l, relation_counts m (Normal t) (Normal <$> from) dir = Ok (Normal <$> l) ∧ StronglySorted (later dir) l
    ∧ ∀ n, (n <= U64_MAX)%N → n ∈ l ↔ relates m n t ∧ ∀ f, from = Some f → later dir f n.
Proof.
  intros Ht Hu Hf. assert (∀ n, n <= Z.to_N I64_MAX → n <= U64_MAX)%N as Hmax by (unfold I64_MAX, U64_MAX; lia).
  set (n0 := match from, dir with Some f, Forward => f + 1 | Some f, Backward => f - 1 | None, Forward => 0 | None, Backward => Z.to_N I64_MAX end%N).
  assert (n0 <= U64_MAX)%N as Hn0.
  { subst n0. destruct from as [f|], dir; try specialize (Hf f eq_refl); unfold I64_MAX, U64_MAX in *; lia. }
  assert (relations_start (Normal t) (Normal <$> from) dir = relation_key t n0) as Es.
  { unfold relations_start, relation_key, count_to_be_bytes. cbn [into_unsigned be_words foldr]. rewrite append_nil_r. do 2 f_equal. subst n0.
    destruct from as [f|], dir; cbn; try done. unfold u64_saturating_add. specialize (Hf f eq_refl). unfold I64_MAX, U64_MAX in *. lia. }
  destruct (relation_rows dir (tofrom_relation m) t n0) as (l & Hl & Hs & Hn & Hin); [done|by apply Hmax|done|].
  exists l. split_and!; [|done|].
  - unfold relation_counts. rewrite Es. unfold scan in Hl.
    replace (match dir with Backward => rev_raw_keys_from (tofrom_relation m) (relation_key t n0)
             | Forward => raw_keys_from (tofrom_relation m) (relation_key t n0) end) with (scan dir (tofrom_relation m) (relation_key t n0)) by by destruct dir.
    cbn [count_to_be_bytes into_unsigned]. unfold scan, count_to_be_bytes. cbn [into_unsigned]. rewrite Hl.
    assert (mapM from_of_key (relation_key t <$> l) = Some (Normal <$> l)) as ->; [|done].
    clear -Hn. induction Hn as [|n l Hn _ IH]; [done|]. rewrite !fmap_cons. cbn [mapM]. rewrite from_of_relation, IH by lia. done.
  - intros n Hle. rewrite Hin by done. fold (relates m n t).
    enough (relates m n t → not_before dir n0 n ↔ ∀ f, from = Some f → later dir f n) by tauto. intros Hrow.
    destruct (Ht _ Hrow) as (t' & n' & E & Ht' & Hn'). apply relation_key_inj in E as [-> ->]; [|by apply Hmax|done|done|apply Hmax; lia]. subst n0.
    destruct from as [f|], dir; unfold not_before, later; try specialize (Hf f eq_refl); split; intros Hx; try (intros f' [= <-]); try specialize (Hx f eq_refl); lia.
Qed.

(** ** References *)

(** Marking adds the events given, in their room. *)
Lemma mark_rows_spec tb (room : string) (event_ids : list string) :
  ∃ tb', mark_rows tb room event_ids = Ok tb'
    ∧ ∀ key, is_Some (table_rows tb' !! key) ↔ is_Some (table_rows tb !! key) ∨ ∃ e, e ∈ event_ids ∧ key = pair_key room e.
Proof.
  revert tb. induction event_ids as [|e l IH]; intros tb; cbn [mark_rows]; [exists tb; set_solver|].
  rewrite put_raw_pair. destruct (IH (table_put tb (pair_key room e) "")) as (tb' & -> & Hin). exists tb'. split; [done|].
  intros key. rewrite Hin, table_put_rows, lookup_insert_is_Some'. set_solver.
Qed.

Lemma delete_referenced_spec m (room : string) :
  ∃ m', delete_all_referenced_for_room m room = Ok m'
    ∧ ∀ key, table_rows (referencedevents m') !! key = if String.prefix (below room) key then None else table_rows (referencedevents m) !! key.
Proof.
  unfold delete_all_referenced_for_room, keys_prefix_raw. rewrite prefix_of_ser. cbn [expect map_err]. eexists. split; [done|].
  intros key. cbn [with_referenced referencedevents]. rewrite remove_all_rows. pose proof (elem_of_raw_keys_prefix (referencedevents m) (below room) key) as Hin.
  destruct (String.prefix (below room) key) eqn:Hp; case_decide as Hk; [done| |by destruct (proj1 Hin Hk)|done].
  destruct (table_rows (referencedevents m) !! key) eqn:Hr; [|done]. destruct Hk. by apply Hin.
Qed.

(** Once a room is cleared none of its events counts as referenced, and those of
    other rooms are as they were. *)
Theorem referenced_deleted m (room : string) (events : list string) :
  utf8_valid room = true →
  ∃ m1 m2, mark_as_referenced m room events = Ok m1 ∧ delete_all_referenced_for_room m1 room = Ok m2
    ∧ (∀ e, e ∈ events → is_event_referenced m1 room e = true)
    ∧ ∀ other e, utf8_valid other = true →
        is_event_referenced m2 other e = (if decide (other = room) then false else is_event_referenced m other e).
Proof.
  intros Hr. unfold mark_as_referenced. destruct (mark_rows_spec (referencedevents m) room events) as (tb & -> & Hin).
  destruct (delete_referenced_spec (with_referenced tb m) room) as (m2 & Hd & Hrows). cbn [with_referenced referencedevents] in *.
  eexists _, m2. split_and!; [done|done| |].
  - intros e He. apply contains_related, Hin. right. by exists e.
  - intros other e Ho. apply eq_bool_prop_intro. rewrite !Is_true_true. unfold is_event_referenced. rewrite contains_related. unfold related. rewrite Hrows.
    destruct (String.prefix (below room) (pair_key other e)) eqn:Hp.
    + rewrite (below_disjoint other room (pair_key other e)) in * by (done || apply below_prefix). rewrite decide_True by done. split; [by intros []|done].
    + rewrite decide_False by (intros ->; by rewrite below_prefix in Hp). rewrite contains_related, Hin. unfold related. split; [|by left].
      intros [?|(e' & _ & E)]; [done|]. apply pair_key_inj in E as [-> _]; [|done..]. by rewrite below_prefix in Hp.
Qed.

(** ** Threads *)

(** Participants are kept under positions, which begin with the number of the
    room, and deleted by the room's id: while numbers are below [2^56] deleting
    a room's threads deletes nothing. *)
Theorem threads_not_deleted m (room : string) :
  (∀ key, is_Some (table_rows (threadid_userids m) !! key) → ∃ r w, key = u64_to_be_bytes r +:+ w ∧ (r < 2 ^ 56)%N) →
  String.get 0 room = Some "!"%char → delete_all_rooms_threads m room = Ok m.
Proof.
  intros Hk Hr. unfold delete_all_rooms_threads, keys_prefix_raw. rewrite prefix_of_ser. cbn [expect map_err].
  assert (raw_keys_prefix (threadid_userids m) (below room) = []) as ->; [|by destruct m].
  apply elem_of_nil_inv. intros key [[w ->]%prefix_spec Hrow]%elem_of_raw_keys_prefix.
  destruct (Hk _ Hrow) as (r & w' & E & Hlt). destruct room as [|c room]; [done|]. injection Hr as ->.
  apply (f_equal (String.get 0)) in E. unfold below in E. cbn in E. injection E as E.
  rewrite N.div_small in E by (cbn; lia). discriminate.
Qed.
End relations.
