(* ===== verification/RegTokens.v ===== *)
(** * Registration tokens ([src/src/service/registration_tokens/mod.rs],
    [data.rs])

    A token lets somebody register: those of the configuration always, those of
    the database so many times or until a time.  The row of a token holds how
    often it was used; it is removed when it is used up or found too old.  The
    text of a row is serde's ([InfoJson]); times are nanoseconds. *)

From S2P Require Import Prelude Bytes Slices DbCodec DbMap Pairs Counter PduId Scans.

Record TokenExpires := mkExpires { max_uses : option N; max_age : option N }.
Record DatabaseTokenInfo := mkInfo { uses : N; expires : TokenExpires }.

Class InfoJson := {
  print_info : DatabaseTokenInfo → string;
  parse_info : string → option DatabaseTokenInfo;
  parse_print_info i : parse_info (print_info i) = Some i;
  print_info_utf8 i : utf8_valid (print_info i) = true;
}.

Inductive RegError := RegDb (e : DbError) | RegForbidden | RegExists | RegNotFound | RegConfigured.

Definition info_new (e : TokenExpires) : DatabaseTokenInfo := mkInfo 0 e.

Definition is_valid (now : N) (i : DatabaseTokenInfo) : bool :=
  negb (match max_uses (expires i) with Some m => (m <=? uses i)%N | None => false end)
  && negb (match max_age (expires i) with Some t => (t <? now)%N | None => false end).

Section tokens.
Context `{Engine, JsonParser, InfoJson}.
Implicit Types (tb : Table) (token : string) (now : N).

Definition info_ser (i : DatabaseTokenInfo) : Ser := SNewtype "Json" (Some (print_info i)).

(** [deserialized::<DatabaseTokenInfo>()] *)
Definition read_info (r : Result DbError string) : Result DbError DatabaseTokenInfo :=
  let? v := @deserialized (λ text, bool_decide (is_Some (parse_info text))) DMap r in
  match v with VJson text => ok_or (Codec SerdeDe) (parse_info text) | _ => Err (Codec InvalidValue) end.

Definition save_token tb token (e : TokenExpires) : Result RegError (DatabaseTokenInfo * Table) :=
  match exists_row tb token with
  | Ok _ => Err RegExists
  | Err _ => let? next := map_err RegDb (raw_put tb token (info_ser (info_new e))) in Ok (info_new e, next)
  end.

Definition revoke_row tb token : Result RegError Table :=
  match exists_row tb token with Ok _ => Ok (Map_remove tb token) | Err _ => Err RegNotFound end.

(** What is done once the row has been read. *)
Definition finish_check now (consume : bool) (info : option DatabaseTokenInfo) tb token : Result RegError (bool * Table) :=
  match info with
  | None => Ok (false, tb)
  | Some i =>
      if negb (is_valid now i) then Ok (false, Map_remove tb token)
      else if consume then
        let i' := mkInfo (u64_saturating_add (uses i) 1) (expires i) in
        if is_valid now i' then let? next := map_err RegDb (raw_put tb token (info_ser i')) in Ok (true, next)
        else Ok (true, Map_remove tb token)
      else Ok (true, tb)
  end.

Definition check_token now (consume : bool) tb token : Result RegError (bool * Table) :=
  finish_check now consume (ok (read_info (Map_get tb token))) tb token.

(** The rows that are still good; the others are removed. *)
Definition iterate_and_clean_tokens now tb : list (string * DatabaseTokenInfo) * Table :=
  let rows := omap (λ e, match e with
                         | (VStr token, VJson text) => i ← parse_info text; Some (token, i)
                         | _ => None
                         end)
                (@stream_all _ (λ text, bool_decide (is_Some (parse_info text))) tb (DStr (λ _, true)) DMap) in
  (filter (λ e, is_valid now e.2 = true) rows,
   foldl (λ tb e, if is_valid now e.2 then tb else Map_remove tb e.1) tb rows).

(** ** The service *)

(** [split_ascii_whitespace] of the file, if it is configured and read. *)
Definition is_ascii_whitespace (c : Ascii.ascii) : bool :=
  bool_decide (Ascii.nat_of_ascii c ∈ [9; 10; 12; 13; 32]).
Fixpoint split_ascii_whitespace (s word : string) : list string :=
  match s with
  | EmptyString => if decide (word = "") then [] else [word]
  | String c s =>
      if is_ascii_whitespace c then (if decide (word = "") then [] else [word]) ++ split_ascii_whitespace s ""
      else split_ascii_whitespace s (word +:+ String c "")
  end.

Definition get_config_tokens (file configured : option string) : gset string :=
  list_to_set (match file with Some text => split_ascii_whitespace text "" | None => [] end)
  ∪ match configured with Some token => {[token]} | None => ∅ end.

Definition issue_token tb (random : string) (e : TokenExpires) : Result RegError (string * DatabaseTokenInfo * Table) :=
  let? r := save_token tb random e in Ok (random, r.1, r.2).

(** The table is also changed by a check that is refused. *)
Definition check now (config : gset string) (consume : bool) tb token : Result RegError unit * Table :=
  if bool_decide (token ∈ config) then (Ok tt, tb)
  else match check_token now consume tb token with
       | Ok (true, next) => (Ok tt, next)
       | Ok (false, next) => (Err RegForbidden, next)
       | Err e => (Err e, tb)
       end.
Definition is_token_valid now (config : gset string) tb token := check now config false tb token.
Definition try_consume now (config : gset string) tb token := check now config true tb token.

Definition revoke_token (config : gset string) tb token : Result RegError Table :=
  if bool_decide (token ∈ config) then Err RegConfigured else revoke_row tb token.
End tokens.

(** ** Uses of a token *)

Lemma deserialize_map_text (parses : JsonParser) text :
  utf8_valid text = true → parses text = true → @deserialize_slice parses DMap text = Ok (VJson text).
Proof.
  intros Hu Hp. unfold deserialize_slice, from_slice. cbn [deserialize].
  rewrite (record_next_at _ text ""); [|split; [unfold in_bounds; cbn; lia|cbn; by rewrite append_nil_r]|by apply utf8_no_sep|by left].
  cbn. unfold deserialize_json, json_parses. cbn. by rewrite Hp.
Qed.

Section uses.
Context `{Engine, JsonParser, InfoJson}.
Implicit Types (tb : Table) (token : string) (now : N) (i : DatabaseTokenInfo) (config : gset string).

Definition holds tb token i : Prop := table_rows tb !! token = Some (print_info i).
Definition gone tb token : Prop := table_rows tb !! token = None.

Lemma read_holds tb token i : holds tb token i → ok (read_info (Map_get tb token)) = Some i.
Proof.
  intros Hh. unfold read_info, Map_get, deserialized. rewrite table_get_rows, Hh. cbn [handle_from ok_or].
  rewrite deserialize_map_text; [|apply print_info_utf8|].
  - cbn. by rewrite parse_print_info.
  - rewrite parse_print_info. by apply bool_decide_eq_true.
Qed.

Lemma read_gone tb token : gone tb token → ok (read_info (Map_get tb token)) = None.
Proof. intros Hg. unfold read_info, Map_get, deserialized. by rewrite table_get_rows, Hg. Qed.

Definition used i : DatabaseTokenInfo := mkInfo (u64_saturating_add (uses i) 1) (expires i).

Lemma put_info tb token i : raw_put tb token (info_ser i) = Ok (table_put tb token (print_info i)).
Proof. done. Qed.

(** A check of the token, by the row it finds. *)
Lemma check_holds now config c tb token i :
  token ∉ config → holds tb token i →
  let s := check now config c tb token in
  if is_valid now i then
    s.1 = Ok tt ∧ (if c then if is_valid now (used i) then holds s.2 token (used i) else gone s.2 token else holds s.2 token i)
  else s.1 = Err RegForbidden ∧ gone s.2 token.
Proof.
  intros Hc Hh. unfold check. rewrite bool_decide_false by done. unfold check_token. rewrite (read_holds tb token i Hh). unfold finish_check.
  destruct (is_valid now i); cbn [negb].
  - destruct c; [|done]. fold (used i). destruct (is_valid now (used i)).
    + rewrite put_info. cbn. split; [done|]. unfold holds. by rewrite table_put_rows, lookup_insert_eq.
    + cbn. split; [done|]. unfold gone, Map_remove. by rewrite table_del_rows, lookup_delete_eq.
  - cbn. split; [done|]. unfold gone, Map_remove. by rewrite table_del_rows, lookup_delete_eq.
Qed.

Lemma check_gone now config c tb token :
  token ∉ config → gone tb token → check now config c tb token = (Err RegForbidden, tb).
Proof. intros Hc Hg. unfold check. rewrite bool_decide_false by done. unfold check_token. by rewrite (read_gone tb token Hg). Qed.

(** Checks of other tokens leave the row alone. *)
Lemma check_other now config c tb token other :
  other ≠ token → table_rows (check now config c tb other).2 !! token = table_rows tb !! token.
Proof.
  intros Hne. unfold check. case_bool_decide; [done|]. unfold check_token, finish_check.
  destruct (ok (read_info (Map_get tb other))) as [i|]; [|done].
  destruct (is_valid now i); cbn [negb]; [destruct c; [|done]; destruct (is_valid now _)|];
    [rewrite put_info| |]; cbn; unfold Map_remove; rewrite ?table_put_rows, ?table_del_rows.
  - by rewrite lookup_insert_ne.
  - by rewrite lookup_delete_ne.
  - by rewrite lookup_delete_ne.
Qed.

(** ** Runs of checks *)

Record Use := mkUse { consumes : bool; at_time : N; shows : string }.

Fixpoint run_checks config tb (l : list Use) : list (Use * Result RegError unit) :=
  match l with
  | [] => []
  | a :: l => let s := check (at_time a) config (consumes a) tb (shows a) in (a, s.1) :: run_checks config s.2 l
  end.

(** How often the token was used up to register. *)
Definition spends token (a : Use) : bool := consumes a && bool_decide (shows a = token).
Definition registers token (e : Use * Result RegError unit) : bool :=
  spends token e.1 && match e.2 with Ok _ => true | Err _ => false end.
Definition registrations token (l : list (Use * Result RegError unit)) : N :=
  N.of_nat (length (filter (λ e, registers token e = true) l)).
Definition spendings token (l : list Use) : N := N.of_nat (length (filter (λ a, spends token a = true) l)).

(** Every presentation of the token is before its time. *)
Definition in_time token (age : option N) (l : list Use) : Prop :=
  Forall (λ a, shows a = token → match age with Some t => (at_time a <= t)%N | None => True end) l.

Lemma registrations_cons token e l :
  registrations token (e :: l) = ((if registers token e then 1 else 0) + registrations token l)%N.
Proof. unfold registrations. rewrite filter_cons. destruct (registers token e); [rewrite decide_True|rewrite decide_False]; cbn; try done; lia. Qed.

Lemma spendings_cons token a l : spendings token (a :: l) = ((if spends token a then 1 else 0) + spendings token l)%N.
Proof. unfold spendings. rewrite filter_cons. destruct (spends token a); [rewrite decide_True|rewrite decide_False]; cbn; try done; lia. Qed.

Lemma registrations_gone config tb token l :
  token ∉ config → gone tb token → registrations token (run_checks config tb l) = 0%N.
Proof.
  intros Hc. revert tb. induction l as [|a l IH]; intros tb Hg; [done|]. cbn [run_checks]. rewrite registrations_cons.
  destruct (decide (shows a = token)) as [E|Hne].
  - rewrite E, check_gone by done. cbn [fst snd]. rewrite IH by done. unfold registers. by rewrite andb_false_r.
  - rewrite IH by (unfold gone; by rewrite check_other). unfold registers, spends. cbn [fst]. by rewrite (bool_decide_false _ Hne), andb_false_r.
Qed.

Lemma registrations_holds config token m : ∀ l tb i,
  token ∉ config → holds tb token i → max_uses (expires i) = Some m → (uses i <= m)%N → (m <= U64_MAX)%N →
  (registrations token (run_checks config tb l) <= m - uses i)%N
  ∧ (in_time token (max_age (expires i)) l → registrations token (run_checks config tb l) = N.min (m - uses i) (spendings token l)).
Proof.
  intros l. induction l as [|a l IH]; intros tb i Hc Hh Hm Hu Hmax; [unfold registrations, spendings; cbn; lia|].
  cbn [run_checks]. rewrite registrations_cons, spendings_cons. unfold in_time in *. rewrite Forall_cons.
  destruct (decide (shows a = token)) as [E|Hne].
  2:{ assert (spends token a = false) as Hs by (unfold spends; by rewrite (bool_decide_false _ Hne), andb_false_r).
      unfold registers at 1 2. cbn [fst]. rewrite Hs. cbn [andb]. rewrite !N.add_0_l.
      destruct (IH (check (at_time a) config (consumes a) tb (shows a)).2 i) as [Hle Heq]; [done| |done..|].
      { unfold holds. by rewrite check_other. }
      split; [done|]. intros [_ Ht]. by apply Heq. }
  pose proof (check_holds (at_time a) config (consumes a) tb token i Hc Hh) as Hk. rewrite E. cbn zeta in Hk.
  assert (spends token a = consumes a) as Hs by (unfold spends; by rewrite bool_decide_true, andb_true_r).
  unfold registers at 1 2. cbn [fst snd]. rewrite Hs.
  destruct (check (at_time a) config (consumes a) tb token) as [r tb']. cbn [fst snd] in *.
  destruct (is_valid (at_time a) i) eqn:Hv.
  - destruct Hk as [-> Hk]. assert (uses i < m)%N as Hlt.
    { unfold is_valid in Hv. rewrite Hm in Hv. apply andb_true_iff in Hv as [Hv _]. apply negb_true_iff, N.leb_gt in Hv. done. }
    destruct (consumes a); cbn [andb].
    + assert (uses (used i) = uses i + 1)%N as Eu by (cbn; unfold u64_saturating_add; lia).
      destruct (is_valid (at_time a) (used i)) eqn:Hv'.
      * destruct (IH tb' (used i)) as [Hle Heq]; [done..|lia|done|]. rewrite Eu in *.
        split; [lia|]. intros [_ Ht]. rewrite Heq by done. lia.
      * rewrite registrations_gone by done. split; [lia|]. intros _.
        assert (m <= uses i + 1)%N; [|lia]. unfold is_valid in Hv, Hv'. cbn [used expires] in Hv'. rewrite Hm in *. rewrite Eu in Hv'.
        apply andb_true_iff in Hv as [_ Hv]. rewrite Hv, andb_true_r in Hv'. by apply negb_false_iff, N.leb_le in Hv'.
    + destruct (IH tb' i) as [Hle Heq]; [done..|]. split; [lia|]. intros [_ Ht]. rewrite Heq by done. lia.
  - destruct Hk as [-> Hg]. rewrite andb_false_r, registrations_gone by done. split; [lia|]. intros [Ht _].
    assert (uses i = m); [|lia]. unfold is_valid in Hv. rewrite Hm in Hv. apply andb_false_iff in Hv as [Hv|Hv].
    + apply negb_false_iff, N.leb_le in Hv. lia.
    + apply negb_false_iff in Hv. specialize (Ht eq_refl). destruct (max_age (expires i)); [|done]. apply N.ltb_lt in Hv. lia.
Qed.
End uses.

(** ** Properties *)

Section properties.
Context `{Engine, JsonParser, InfoJson}.
Implicit Types (tb : Table) (token : string) (config : gset string).

(** C32.  A token issued for so many uses registers at most that many accounts,
    whatever checks and uses of it and of others follow; and while it is in
    time each attempt registers until they are used up. *)
Theorem registration_bounded config tb token e m l :
  token ∉ config → gone tb token → max_uses e = Some m → (m <= U64_MAX)%N →
  ∃ tb', save_token tb token e = Ok (info_new e, tb')
    ∧ (registrations token (run_checks config tb' l) <= m)%N
    ∧ (in_time token (max_age e) l → registrations token (run_checks config tb' l) = N.min m (spendings token l)).
Proof.
  intros Hc Hg Hm Hmax. exists (table_put tb token (print_info (info_new e))).
  destruct (registrations_holds config token m l (table_put tb token (print_info (info_new e))) (info_new e)) as [Hle Heq];
    [done|unfold holds; by rewrite table_put_rows, lookup_insert_eq|done|cbn; lia|done|].
  cbn [uses info_new] in *. rewrite N.sub_0_r in *. split_and!; [|done..].
  unfold save_token, exists_row, Map_get. rewrite table_get_rows, Hg. cbn. by rewrite put_info.
Qed.

(** Two requests that both read the row before either writes it both register,
    and the row counts one use. *)
Theorem registration_race now tb token i :
  is_valid now i = true →
  ∃ tb1 tb2, finish_check now true (Some i) tb token = Ok (true, tb1)
    ∧ finish_check now true (Some i) tb1 token = Ok (true, tb2)
    ∧ table_rows tb2 = table_rows tb1.
Proof.
  intros Hv. unfold finish_check. rewrite Hv. cbn [negb]. fold (used i). destruct (is_valid now (used i)).
  - exists (table_put tb token (print_info (used i))), (table_put (table_put tb token (print_info (used i))) token (print_info (used i))).
    split_and!; [done..|]. by rewrite !table_put_rows, insert_insert_eq.
  - exists (table_del tb token), (table_del (table_del tb token) token). split_and!; [done..|]. by rewrite !table_del_rows, delete_delete_eq.
Qed.
End properties.

(** ** An example *)

Module TokensExample.
#[export] Instance expires_eq_dec : EqDecision TokenExpires.
Proof. solve_decision. Defined.
#[export] Instance info_eq_dec : EqDecision DatabaseTokenInfo.
Proof. solve_decision. Defined.

Definition info_tuple (i : DatabaseTokenInfo) : N * option N * option N := (uses i, max_uses (expires i), max_age (expires i)).

(** Rows written as the bits of their encoding. *)
#[export] Instance info_bits : InfoJson.
Proof.
  refine {|
    print_info i := pos_bits (encode (info_tuple i));
    parse_info t := (λ x : N * option N * option N, mkInfo x.1.1 (mkExpires x.1.2 x.2)) <$> (bits_pos t ≫= decode);
  |}.
  - intros [n [m a]]. rewrite bits_roundtrip. cbn [mbind option_bind]. by rewrite countable.decode_encode.
  - intros i. apply pos_bits_utf8.
Defined.

(** Twice within the time, once after, and another token. *)
Definition uses_of_it : list Use :=
  [mkUse true 1 "tok"; mkUse false 2 "tok"; mkUse true 3 "other"; mkUse true 4 "tok"; mkUse true 5 "tok"].
End TokensExample.

Section token_witnesses.
#[local] Existing Instance ordered_engine.
#[local] Instance any_json : JsonParser := λ _, true.
Import TokensExample.

Lemma registration_bounded_witness :
  ∃ tb', save_token (∅ : Table) "tok" (mkExpires (Some 2%N) (Some 10%N)) = Ok (info_new (mkExpires (Some 2%N) (Some 10%N)), tb')
    ∧ registrations "tok" (run_checks ∅ tb' uses_of_it) = 2%N.
Proof.
  destruct (registration_bounded ∅ (∅ : Table) "tok" (mkExpires (Some 2%N) (Some 10%N)) 2 uses_of_it) as (tb' & Hs & _ & Heq);
    [set_solver|reflexivity|reflexivity|unfold U64_MAX; lia|].
  exists tb'. split; [exact Hs|]. apply Heq. repeat constructor; intros _; vm_compute; congruence.
Defined.
End token_witnesses.
