(* ===== verification/Accounts.v ===== *)
(** * User accounts ([src/src/service/users/mod.rs], [profile.rs])

    Accounts with their password rows, origins and moderation marks, filters,
    profile fields, and the tokens that prove or grant a login.  [UserData] is
    all tables of the user service by name with the server's counter; the
    devices and keys of a user are in [Devices] and [DeviceKeys].

    The password hash is Argon2, third-party code: [Passwords] is what is relied
    on, that a hash verifies its password and that no password verifies against
    the two markers the service writes in place of one.  Random strings and the
    clock are arguments; messages leave out the values the code prints in them. *)

From S2P Require Import Prelude Bytes DbCodec DbMap Pairs Counter Short PduId Scans MemberCache Memberships.

Inductive UserTable :=
  | keychangeid_userid
  | keyid_key
  | onetimekeyid4225_otk
  | openidtoken_expiresatuserid
  | logintoken_expiresatuserid
  | todeviceid_events
  | token_userdeviceid
  | userdeviceid_metadata
  | userdeviceid_token
  | userdeviceid_refresh
  | userdeviceidalgorithm_fallback
  | oidcdevice_userdeviceid
  | oidccskeybypass_userid
  | userfilterid_filter
  | userid_avatarurl
  | userid_blurhash
  | userid_dehydrateddevice
  | userid_devicelistversion
  | userid_displayname
  | userid_lastonetimekeyupdate
  | userid_locked
  | userid_masterkeyid
  | userid_password
  | userid_origin
  | userid_selfsigningkeyid
  | userid_suspended
  | userid_usersigningkeyid
  | useridprofilekey_value.

#[export] Instance user_table_eq_dec : EqDecision UserTable.
Proof. solve_decision. Defined.

Inductive UserError :=
  | UserDb (e : DbError)
  | UserCount (e : CounterError)
  | UserInvalidParam (msg : string)
  | UserNotFound (msg : string)
  | UserForbidden (msg : string)
  | UserUnauthorized (msg : string)
  | UserDatabase (msg : string)
  | UserErr (msg : string)
  | UserPanic (msg : string).

Definition udb {A} (r : Result DbError A) : Result UserError A := map_err UserDb r.

Definition PASSWORD_SENTINEL : string := "*".
Definition PASSWORD_DISABLED : string := "".

Class Passwords := {
  hash_password : string → option string;
  verify_password : string → string → bool;
  hash_verifies p h : hash_password p = Some h → verify_password p h = true;
  hash_utf8 p h : hash_password p = Some h → utf8_valid h = true;
  disabled_never p : verify_password p PASSWORD_DISABLED = false;
  sentinel_never p : verify_password p PASSWORD_SENTINEL = false;
}.

(** The settings the user service reads. *)
Record UserConfig := mkUserConfig {
  openid_token_ttl : N;
  login_token_ttl : N;
  access_token_ttl : N;
  refresh_token_ttl : N;
  refresh_token_idle_only : bool;
  one_time_key_limit : nat;
  device_key_update_encrypted_rooms_only : bool;
}.

(** Who marked an account, and when. *)
Record Moderation := mkModeration { moderated_when : N; moderated_by : string }.

(** Reading a string; a present row that is not one is an error too. *)
Definition read_string `{JsonParser} (r : Result DbError string) : Result DbError string :=
  deserialized_str (λ _, true) r.

(** [Json<T>] after a row, read by the parser of the type. *)
Definition read_json_row `{JsonParser} {T} (parse : string → option T) (r : Result DbError string) : Result DbError T :=
  let? v := @deserialized (λ t, bool_decide (is_Some (parse t))) DJson r in
  match v with VJson text => ok_or (Codec SerdeDe) (parse text) | _ => Err (Codec InvalidValue) end.

Definition json_of (text : string) : Ser := SNewtype "Json" (Some text).

Section accounts.
Context `{Engine, JsonParser, Users, Passwords}.

Record UserData := mkUserData {
  user_counter : Data;
  user_tables : UserTable → Table;
}.
Implicit Types (u : UserData) (user token : string) (t : UserTable).

Definition with_counter (d : Data) u : UserData := mkUserData d (user_tables u).
Definition with_table t (tb : Table) u : UserData :=
  mkUserData (user_counter u) (λ t', if decide (t' = t) then tb else user_tables u t').

Definition set_row t (key val : string) u : UserData := with_table t (Map_insert (user_tables u t) key val) u.
Definition drop_row t (key : string) u : UserData := with_table t (Map_remove (user_tables u t) key) u.
Definition get_row u t (key : string) : Result DbError string := Map_get (user_tables u t) key.

(** A write that serializes: [put], [put_raw], [raw_put], [del]. *)
Definition change t (f : Table → Result DbError Table) u : Result UserError UserData :=
  let? tb := udb (f (user_tables u t)) in Ok (with_table t tb u).

(** ** Passwords *)

Definition origin u user : Result DbError string := read_string (get_row u userid_origin user).
Definition password_hash u user : Result DbError string := read_string (get_row u userid_password user).

Definition set_password u user (password : option string) : Result UserError UserData :=
  let refused :=
    match password with
    | Some p =>
        if decide (p = PASSWORD_SENTINEL) then false
        else match origin u user with
             | Ok o => negb (bool_decide (o = "password") || bool_decide (o = "sso"))
             | Err _ => false
             end
    | None => false
    end in
  if refused then Err (UserInvalidParam "Cannot change password of an user.")
  else match password with
       | None => Ok (set_row userid_password user PASSWORD_DISABLED u)
       | Some p =>
           match hash_password p with
           | None => Err (UserInvalidParam "Password does not meet the requirements")
           | Some hash =>
               if decide (p = PASSWORD_SENTINEL) then Ok (set_row userid_password user PASSWORD_SENTINEL u)
               else Ok (set_row userid_origin user "password" (set_row userid_password user hash u))
           end
       end.

(** The origin is written before the password is accepted. *)
Definition create u user (password : option string) (from : option string) : Result UserError unit * UserData :=
  let next := set_row userid_origin user (default "password" from) u in
  match set_password next user password with Ok done => (Ok tt, done) | Err e => (Err e, next) end.

Definition exists_account u user : bool := match get_row u userid_password user with Ok _ => true | Err _ => false end.

Definition is_deactivated u user : Result UserError bool :=
  match get_row u userid_password user with
  | Ok val => Ok (bool_decide (val = ""))
  | Err _ => Err (UserNotFound "User does not exist.")
  end.

Definition is_active u user : bool := negb (match is_deactivated u user with Ok b => b | Err _ => true end).
Definition is_active_local (user_is_local : string → bool) u user : bool := user_is_local user && is_active u user.

Definition has_password u user : Result DbError bool :=
  result_map (λ value, negb (bool_decide (value = PASSWORD_DISABLED)) && negb (bool_decide (value = PASSWORD_SENTINEL)))
    (password_hash u user).

Definition count_users u : nat := length (raw_keys_from (user_tables u userid_password) "").
Definition stream_users u : list string :=
  omap (λ v, match v with VStr s => Some s | _ => None end) (keys_all (user_tables u userid_password) (DStr user_id_ok)).
Definition list_local_users u : list string :=
  omap (λ e, match e with (VStr s, VBytes p) => if decide (p = "") then None else Some s | _ => None end)
    (stream_all (user_tables u userid_password) (DStr user_id_ok) DBytes).

(** ** Moderation marks *)

Definition is_suspended u user : bool := match get_row u userid_suspended user with Ok _ => true | Err _ => false end.
Definition is_locked u user : bool := match get_row u userid_locked user with Ok _ => true | Err _ => false end.
Definition get_suspension (parse : string → option Moderation) u user : option Moderation :=
  ok (read_json_row parse (get_row u userid_suspended user)).
Definition get_lock (parse : string → option Moderation) u user : option Moderation :=
  ok (read_json_row parse (get_row u userid_locked user)).
Definition set_suspended (print : Moderation → string) u user (now_ms : N) (who : string) : Result UserError UserData :=
  change userid_suspended (λ tb, raw_put tb user (json_of (print (mkModeration now_ms who)))) u.
Definition clear_suspended u user : UserData := drop_row userid_suspended user u.
Definition set_locked (print : Moderation → string) u user (now_ms : N) (who : string) : Result UserError UserData :=
  change userid_locked (λ tb, raw_put tb user (json_of (print (mkModeration now_ms who)))) u.
Definition clear_locked u user : UserData := drop_row userid_locked user u.

(** ** Filters *)

Definition create_filter u user (filter_id filter : string) : Result UserError UserData :=
  change userfilterid_filter (λ tb, put tb (pair_ser user filter_id) (json_of filter)) u.
Definition get_filter {T} (parse : string → option T) u user (filter_id : string) : Result DbError T :=
  let? v := @deserialized (λ text, bool_decide (is_Some (parse text))) DMap
              (qry (user_tables u userfilterid_filter) (pair_ser user filter_id)) in
  match v with VJson text => ok_or (Codec SerdeDe) (parse text) | _ => Err (Codec InvalidValue) end.

(** ** Tokens that expire *)

Definition create_openid_token (cfg : UserConfig) (now_ms : N) u user token : N * UserData :=
  let expires_at := u64_saturating_add now_ms (u64_saturating_mul (openid_token_ttl cfg) 1000) in
  (openid_token_ttl cfg, set_row openidtoken_expiresatuserid token (u64_to_be_bytes expires_at +:+ user) u).

(** [split_at] panics on fewer than eight bytes. *)
Definition find_from_openid_token (now_ms : N) u token : Result UserError string * UserData :=
  match get_row u openidtoken_expiresatuserid token with
  | Err _ => (Err (UserUnauthorized "OpenID token is unrecognised"), u)
  | Ok value =>
      match from_be_bytes 8 (str_take 8 value) with
      | None => (Err (UserPanic "split_at"), u)
      | Some expires_at =>
          if (expires_at <? now_ms)%N then
            (Err (UserUnauthorized "OpenID token is expired"), drop_row openidtoken_expiresatuserid token u)
          else
            let user := str_drop 8 value in
            if utf8_valid user then
              if user_id_ok user then (Ok user, u) else (Err (UserDatabase "User ID in openid_userid is invalid."), u)
            else (Err (UserDatabase "User ID in openid_userid is invalid unicode."), u)
      end
  end.

Definition login_value (expires_at : N) user : Ser := STuple [SU64 expires_at; SStr user].

Definition create_login_token (cfg : UserConfig) (now_ms : N) u user token : Result UserError (N * UserData) :=
  let? next := change logintoken_expiresatuserid
                 (λ tb, raw_put tb token (login_value (u64_saturating_add now_ms (login_token_ttl cfg)) user)) u in
  Ok (login_token_ttl cfg, next).

(** The row is awaited first; what follows is done with the value read. *)
Definition read_login_token u token : Result UserError (N * string) :=
  match get_row u logintoken_expiresatuserid token with
  | Err _ => Err (UserForbidden "Login token is unrecognised")
  | Ok value =>
      let? v := udb (deserialize_slice (DTuple [DU64; DStr user_id_ok]) value) in
      match v with
      | VTuple [VU64 expires_at; VStr user] => Ok (expires_at, user)
      | _ => Err (UserDb (Codec InvalidValue))
      end
  end.

Definition finish_login_token (consume : bool) (now_ms : N) (row : N * string) u token : Result UserError string * UserData :=
  if (row.1 <? now_ms)%N then
    (Err (UserForbidden "Login token is expired"), drop_row logintoken_expiresatuserid token u)
  else (Ok row.2, if consume then drop_row logintoken_expiresatuserid token u else u).

Definition peek_login_token (now_ms : N) u token : Result UserError string * UserData :=
  match read_login_token u token with
  | Err e => (Err e, u)
  | Ok row => finish_login_token false now_ms row u token
  end.

Definition find_from_login_token (now_ms : N) u token : Result UserError string * UserData :=
  match read_login_token u token with
  | Err e => (Err e, u)
  | Ok row => finish_login_token true now_ms row u token
  end.

(** ** Profiles *)

(** Write a field, or remove it. *)
Definition set_field t u user (value : option string) : UserData :=
  match value with Some v => set_row t user v u | None => drop_row t user u end.

Definition set_displayname u user (v : option string) : UserData := set_field userid_displayname u user v.
Definition set_avatar_url u user (v : option string) : UserData := set_field userid_avatarurl u user v.
Definition set_blurhash u user (v : option string) : UserData := set_field userid_blurhash u user v.
Definition displayname u user : Result DbError string := read_string (get_row u userid_displayname user).
Definition avatar_url u user : Result DbError string := read_string (get_row u userid_avatarurl user).
Definition blurhash u user : Result DbError string := read_string (get_row u userid_blurhash user).

Definition set_timezone u user (timezone : option string) : Result UserError UserData :=
  change useridprofilekey_value
    (λ tb, match timezone with Some v => put_raw tb (pair_ser user "m.tz") v | None => del tb (pair_ser user "m.tz") end) u.

Definition timezone u user : Result DbError string :=
  read_string (match qry (user_tables u useridprofilekey_value) (pair_ser user "m.tz") with
               | Ok v => Ok v
               | Err _ => qry (user_tables u useridprofilekey_value) (pair_ser user "us.cloke.msc4175.tz")
               end).

Definition set_profile_key u user (key : string) (value : option string) : Result UserError UserData :=
  change useridprofilekey_value
    (λ tb, match value with Some v => put tb (pair_ser user key) (json_of v) | None => del tb (pair_ser user key) end) u.

(** [Raw] takes the text of the record as it is. *)
Definition profile_key u user (key : string) : Result DbError string :=
  read_string (qry (user_tables u useridprofilekey_value) (pair_ser user key)).

Definition all_profile_keys u user : Result DbError (list (string * string)) :=
  let? rows := stream_prefix (user_tables u useridprofilekey_value)
                 (DTuple [DIgnore; DStr (λ _, true)]) (DStr (λ _, true)) (prefix_ser_of user) in
  Ok (omap (λ e, match e with (VTuple [VUnit; VStr k], VStr v) => Some (k, v) | _ => None end) rows).

(** ** Passing a profile change on to rooms *)

Inductive Propagation := All | Unchanged | NoRoom.

Definition propagation_default (preserve_room_profile_overrides : bool) : Propagation :=
  if preserve_room_profile_overrides then Unchanged else All.

(** What a member event says of a user: name, avatar and blurhash. *)
Record Profile := mkProfile { p_name : option string; p_avatar : option string; p_blurhash : option string }.

Definition profile_of u user : Profile :=
  mkProfile (ok (displayname u user)) (ok (avatar_url u user)) (ok (blurhash u user)).

(** The rooms a change goes to, by what the room shows of the user. *)
Definition keep_room (propagation : Propagation) (shown : string → option string) (current : option string) (room : string) : bool :=
  match propagation with All => true | NoRoom => false | Unchanged => bool_decide (shown room = current) end.

(** The rooms that get a new member event, with its content. *)
Definition update_displayname u user (name : option string) (rooms : list string) (propagation : Propagation)
    (shown : string → option string) : UserData * list (string * Profile) :=
  let now := profile_of u user in
  if decide (name = p_name now) then (u, [])
  else
    let next := set_displayname u user name in
    match propagation with
    | NoRoom => (next, [])
    | _ => (next, (λ room, (room, mkProfile name (p_avatar now) (p_blurhash now)))
                    <$> filter (λ room, keep_room propagation shown (p_name now) room = true) rooms)
    end.

Definition update_avatar_url u user (avatar hash : option string) (rooms : list string) (propagation : Propagation)
    (shown : string → option string) : UserData * list (string * Profile) :=
  let now := profile_of u user in
  if decide (p_avatar now = avatar ∧ p_blurhash now = hash) then (u, [])
  else
    let next := set_blurhash (set_avatar_url u user avatar) user hash in
    match propagation with
    | NoRoom => (next, [])
    | _ => (next, (λ room, (room, mkProfile (p_name now) avatar hash))
                    <$> filter (λ room, keep_room propagation shown (p_avatar now) room = true) rooms)
    end.
End accounts.

(** ** Rows *)

Section rows.
Context `{Engine, JsonParser, Users, Passwords}.
Implicit Types (u : UserData) (user token : string) (t : UserTable).

Lemma get_set_row t t' k k' v u :
  get_row (set_row t k v u) t' k' = if decide (t' = t ∧ k' = k) then Ok v else get_row u t' k'.
Proof.
  unfold get_row, set_row, with_table, Map_get, Map_insert. cbn. autorewrite with engine.
  destruct (decide (t' = t)) as [->|Ht]; autorewrite with engine.
  - destruct (decide (k' = k)) as [->|Hk]; [by rewrite lookup_insert_eq, decide_True by done|].
    rewrite lookup_insert_ne by congruence. by rewrite decide_False by tauto.
  - by rewrite decide_False by tauto.
Qed.

Lemma get_drop_row t t' k k' u :
  get_row (drop_row t k u) t' k' = if decide (t' = t ∧ k' = k) then Err NotFound else get_row u t' k'.
Proof.
  unfold get_row, drop_row, with_table, Map_get, Map_remove. cbn. autorewrite with engine.
  destruct (decide (t' = t)) as [->|Ht]; autorewrite with engine.
  - destruct (decide (k' = k)) as [->|Hk]; [by rewrite lookup_delete_eq, decide_True by done|].
    rewrite lookup_delete_ne by congruence. by rewrite decide_False by tauto.
  - by rewrite decide_False by tauto.
Qed.

Lemma hash_not_marker p h : hash_password p = Some h → h ≠ PASSWORD_DISABLED ∧ h ≠ PASSWORD_SENTINEL.
Proof.
  intros Hh%hash_verifies. split; intros ->; [by rewrite disabled_never in Hh|by rewrite sentinel_never in Hh].
Qed.
End rows.
Create Rewrite HintDb rows.
#[export] Hint Rewrite @get_set_row @get_drop_row : rows.

(** ** Logging in with tokens *)

Section logins.
Context `{Engine, JsonParser, Users, Passwords}.
Implicit Types (u : UserData) (user token : string).

(** A request that presents a login token, to use it up or only to look. *)
Record Attempt := mkAttempt { uses_up : bool; at_ms : N; presents : string }.
Implicit Types (a : Attempt).

Definition attempt u a : Result UserError string * UserData :=
  if uses_up a then find_from_login_token (at_ms a) u (presents a) else peek_login_token (at_ms a) u (presents a).

Fixpoint attempts u (l : list Attempt) : list (Attempt * Result UserError string) :=
  match l with
  | [] => []
  | a :: l => (a, (attempt u a).1) :: attempts (attempt u a).2 l
  end.

(** The logins a token got. *)
Definition granted token (e : Attempt * Result UserError string) : bool :=
  uses_up e.1 && bool_decide (presents e.1 = token) && match e.2 with Ok _ => true | Err _ => false end.

Lemma login_row_serialized (expires : N) user :
  (expires <= U64_MAX)%N → utf8_valid user = true → user_id_ok user = true →
  ∃ b, serialize None (login_value expires user) = Ok b
    ∧ deserialize_slice (DTuple [DU64; DStr user_id_ok]) b = Ok (VTuple [VU64 expires; VStr user]).
Proof.
  intros He Hu Ha.
  assert (fields json_parses [DU64; DStr user_id_ok] [SU64 expires; SStr user] [VU64 expires; VStr user]
            [u64_to_be_bytes expires; user]) as Hf by (repeat constructor; done).
  destruct (tuple_roundtrip json_parses _ _ _ _ [] [] Hf) as (Hs & st & Hd & _); [constructor|].
  eexists. split; [unfold serialize, login_value; rewrite Hs; done|].
  rewrite !app_nil_r in Hd. unfold deserialize_slice. by rewrite Hd.
Qed.

Lemma create_login_row cfg now u user token :
  utf8_valid user = true → user_id_ok user = true →
  ∃ u', create_login_token cfg now u user token = Ok (login_token_ttl cfg, u')
    ∧ read_login_token u' token = Ok (u64_saturating_add now (login_token_ttl cfg), user).
Proof.
  intros Hu Ha. destruct (login_row_serialized (u64_saturating_add now (login_token_ttl cfg)) user) as (b & Hs & Hd); [|done..|].
  { unfold u64_saturating_add. lia. }
  unfold create_login_token, change, raw_put, raw_bput. rewrite Hs. cbn. eexists. split; [done|].
  unfold read_login_token. change (with_table ?t (Map_insert _ ?k ?v) u) with (set_row t k v u).
  rewrite get_set_row, decide_True by done. by rewrite Hd.
Qed.

(** A token that is gone stays gone. *)
Lemma attempt_gone u a token :
  get_row u logintoken_expiresatuserid token = Err NotFound →
  get_row (attempt u a).2 logintoken_expiresatuserid token = Err NotFound
  ∧ granted token (a, (attempt u a).1) = false.
Proof.
  intros Hg. destruct a as [c now p]. unfold attempt, granted. cbn.
  assert (get_row (drop_row logintoken_expiresatuserid p u) logintoken_expiresatuserid token = Err NotFound) as Hd
    by (rewrite get_drop_row, Hg; by destruct (decide _)).
  assert (p = token → read_login_token u p = Err (UserForbidden "Login token is unrecognised")) as Hr
    by (intros ->; unfold read_login_token; by rewrite Hg).
  unfold find_from_login_token, peek_login_token.
  destruct (decide (p = token)) as [E|E].
  - rewrite (Hr E). by destruct c; cbn; rewrite ?andb_false_r.
  - rewrite (bool_decide_false _ E), ?andb_false_r.
    destruct c, (read_login_token u p) as [[x w]|]; unfold finish_login_token; cbn;
      repeat (destruct (_ <? _)%N); cbn; done.
Qed.

Lemma attempts_gone l u token :
  get_row u logintoken_expiresatuserid token = Err NotFound → Forall (λ e, granted token e = false) (attempts u l).
Proof.
  revert u. induction l as [|a l IH]; intros u Hg; cbn; constructor; [apply (attempt_gone u a token Hg)|].
  apply IH, (attempt_gone u a token Hg).
Qed.

(** In time and with the token, an attempt succeeds; with another token it does
    not touch this one. *)
Lemma attempt_held u a token exp user :
  read_login_token u token = Ok (exp, user) →
  if decide (presents a = token) then
    if (exp <? at_ms a)%N then (attempt u a).1 = Err (UserForbidden "Login token is expired")
      ∧ get_row (attempt u a).2 logintoken_expiresatuserid token = Err NotFound
    else (attempt u a).1 = Ok user
      ∧ (if uses_up a then get_row (attempt u a).2 logintoken_expiresatuserid token = Err NotFound else (attempt u a).2 = u)
  else read_login_token (attempt u a).2 token = Ok (exp, user).
Proof.
  intros Hr. destruct a as [c now p]. unfold attempt, find_from_login_token, peek_login_token. cbn.
  destruct (decide (p = token)) as [->|E].
  - rewrite Hr. unfold finish_login_token. cbn.
    destruct c, (exp <? now)%N; cbn; rewrite ?get_drop_row, ?decide_True by done; done.
  - assert (read_login_token (drop_row logintoken_expiresatuserid p u) token = Ok (exp, user)) as Hd.
    { unfold read_login_token in *. rewrite get_drop_row, decide_False by (intros [_ ?]; congruence). done. }
    destruct c, (read_login_token u p) as [[x w]|]; unfold finish_login_token; cbn;
      repeat (destruct (_ <? _)%N); cbn; done.
Qed.

(** At most one login, all to the user and in time. *)
Definition once token exp user (l : list (Attempt * Result UserError string)) : Prop :=
  length (filter (λ e, granted token e = true) l) ≤ 1
  ∧ ∀ e, e ∈ l → granted token e = true → e.2 = Ok user ∧ (at_ms e.1 <= exp)%N.

Lemma once_refused token exp user e l : granted token e = false → once token exp user l → once token exp user (e :: l).
Proof.
  intros Hg [Hl Hin]. unfold once. rewrite filter_cons, Hg, decide_False by done. split; [done|].
  intros e' [->|He]%elem_of_cons Hg'; [congruence|by apply Hin].
Qed.

Lemma once_granted token exp user e l :
  e.2 = Ok user → (at_ms e.1 <= exp)%N → Forall (λ e, granted token e = false) l → once token exp user (e :: l).
Proof.
  intros He Ht Hl. assert (∀ e', e' ∈ l → granted token e' ≠ true) as Hno
    by (intros e' He'; by rewrite (proj1 (Forall_forall _ _) Hl e' He')).
  unfold once. rewrite filter_cons, (filter_none _ l Hno). split; [case_decide; cbn; lia|].
  intros e' [->|He']%elem_of_cons Hg'; [done|by destruct (Hno e' He')].
Qed.

Lemma once_none token exp user l : Forall (λ e, granted token e = false) l → once token exp user l.
Proof.
  induction 1; [split; [cbn; lia|by intros e ?%elem_of_nil]|by apply once_refused].
Qed.

Lemma attempts_granted l u token exp user :
  read_login_token u token = Ok (exp, user) → once token exp user (attempts u l).
Proof.
  revert u. induction l as [|a l IH]; intros u Hr; cbn [attempts]; [split; [cbn; lia|by intros e ?%elem_of_nil]|].
  pose proof (attempt_held u a token exp user Hr) as Ha. destruct (decide (presents a = token)) as [E|E].
  - destruct (exp <? at_ms a)%N eqn:Ht.
    + destruct Ha as [Ea Hg]. apply once_refused; [|by apply once_none, attempts_gone]. unfold granted. cbn. by rewrite Ea, andb_false_r.
    + destruct Ha as [Ea Hst]. apply N.ltb_ge in Ht. destruct (uses_up a) eqn:Hc.
      * apply once_granted; [done..|]. by apply attempts_gone.
      * rewrite Hst. apply once_refused; [unfold granted; cbn; by rewrite Hc|by apply IH].
  - apply once_refused; [|by apply IH]. unfold granted. cbn. by rewrite (bool_decide_false _ E), andb_false_r.
Qed.

Lemma attempts_first l1 a l2 u token exp user :
  read_login_token u token = Ok (exp, user) →
  Forall (λ b, presents b = token → uses_up b = false ∧ (at_ms b <= exp)%N) l1 →
  presents a = token → (at_ms a <= exp)%N →
  (a, Ok user) ∈ attempts u (l1 ++ a :: l2).
Proof.
  intros Hr Hl Ea Ht. revert u Hr. induction Hl as [|b l1 Hb Hl IH]; intros u Hr; cbn [attempts app].
  - pose proof (attempt_held u a token exp user Hr) as Ha. rewrite decide_True in Ha by done.
    apply N.ltb_ge in Ht. rewrite Ht in Ha. destruct Ha as [<- _]. by left.
  - right. apply IH. pose proof (attempt_held u b token exp user Hr) as Hbb.
    destruct (decide (presents b = token)) as [Eb|]; [|done]. destruct (Hb Eb) as [Hc Hbt].
    apply N.ltb_ge in Hbt. rewrite Hbt, Hc in Hbb. destruct Hbb as [_ ->]. done.
Qed.
End logins.

(** ** Properties *)

Section properties.
Context `{Engine, JsonParser, Users, Passwords}.
Implicit Types (u : UserData) (user token : string).

(** Setting a password leaves the account in exactly the promised state: with
    none it is deactivated and no password verifies; with the sentinel it is
    active without a password; otherwise the stored hash verifies the password
    and the account is active.  It is refused only for an account of another
    origin or a password that does not hash, and no other account changes. *)
Theorem set_password_exact u user (password : option string) :
  match set_password u user password with
  | Ok u' =>
      exists_account u' user = true
      ∧ is_active u' user = bool_decide (is_Some password)
      ∧ has_password u' user = Ok (bool_decide (is_Some password ∧ password ≠ Some PASSWORD_SENTINEL))
      ∧ (∃ h, password_hash u' user = Ok h
          ∧ match password with
            | Some p => if decide (p = PASSWORD_SENTINEL) then ∀ q, verify_password q h = false else verify_password p h = true
            | None => ∀ q, verify_password q h = false
            end)
      ∧ (∀ t other, other ≠ user → get_row u' t other = get_row u t other)
  | Err _ => ∃ p, password = Some p
      ∧ (hash_password p = None
         ∨ p ≠ PASSWORD_SENTINEL ∧ ∃ o, origin u user = Ok o ∧ o ≠ "password" ∧ o ≠ "sso")
  end.
Proof.
  assert (∀ h, utf8_valid h = true → read_string (Ok h) = Ok h) as Hread by (intros h Hh; by apply deserialized_str_row).
  assert (∀ v u' (Hv : get_row u' userid_password user = Ok v), utf8_valid v = true →
    exists_account u' user = true ∧ is_active u' user = negb (bool_decide (v = ""))
    ∧ has_password u' user = Ok (negb (bool_decide (v = PASSWORD_DISABLED)) && negb (bool_decide (v = PASSWORD_SENTINEL)))
    ∧ password_hash u' user = Ok v) as Hrow.
  { intros v u' Hv Hu. unfold exists_account, is_active, is_deactivated, has_password, password_hash. rewrite Hv, (Hread v Hu). done. }
  unfold set_password. destruct password as [p|].
  2:{ destruct (Hrow "" (set_row userid_password user PASSWORD_DISABLED u)) as (-> & -> & -> & ->);
        [by rewrite get_set_row, decide_True|done|].
      split_and!; [done..| |]; [exists ""; split; [done|apply disabled_never]|].
      intros t other Ho. by rewrite get_set_row, decide_False by tauto. }
  destruct (decide (p = PASSWORD_SENTINEL)) as [->|Hp].
  - destruct (hash_password PASSWORD_SENTINEL) as [h|] eqn:Hh; [|exists PASSWORD_SENTINEL; auto].
    destruct (Hrow "*" (set_row userid_password user PASSWORD_SENTINEL u)) as (-> & -> & -> & ->);
      [by rewrite get_set_row, decide_True|done|].
    split_and!; [done..| |]; [exists "*"; split; [done|apply sentinel_never]|].
    intros t other Ho. by rewrite get_set_row, decide_False by tauto.
  - destruct (match origin u user with Ok o => _ | Err _ => false end) eqn:Href.
    { exists p. split; [done|]. right. split; [done|]. destruct (origin u user) as [o|]; [|done]. exists o. split; [done|].
      apply negb_true_iff, orb_false_iff in Href as [H1o%bool_decide_eq_false H2o%bool_decide_eq_false]. done. }
    destruct (hash_password p) as [h|] eqn:Hh; [|exists p; auto].
    destruct (hash_not_marker p h Hh) as [Hd Hs].
    destruct (Hrow h (set_row userid_origin user "password" (set_row userid_password user h u))) as (-> & -> & -> & ->);
      [rewrite get_set_row, decide_False by (intros [? _]; discriminate); by rewrite get_set_row, decide_True|by eapply hash_utf8|].
    change "" with PASSWORD_DISABLED. rewrite (bool_decide_false _ Hd), (bool_decide_false _ Hs).
    split_and!; [done|done|by rewrite bool_decide_true by (split; [by eexists|congruence])|exists h; split; [done|by apply hash_verifies]|].
    intros t other Ho. by rewrite !get_set_row, !decide_False by tauto.
Qed.

(** C33.  A login token grants one login at most, to its user and within its time,
    whatever requests present this and other tokens in whatever order; and the
    first request in time that means to use it does get it, when those before
    only looked. *)
Theorem login_token_once cfg now u user token l :
  utf8_valid user = true → user_id_ok user = true →
  ∃ u' exp, create_login_token cfg now u user token = Ok (login_token_ttl cfg, u')
    ∧ exp = u64_saturating_add now (login_token_ttl cfg)
    ∧ length (filter (λ e, granted token e = true) (attempts u' l)) ≤ 1
    ∧ (∀ e, e ∈ attempts u' l → granted token e = true → e.2 = Ok user ∧ (at_ms e.1 <= exp)%N)
    ∧ (∀ l1 a l2, l = l1 ++ a :: l2 → Forall (λ b, presents b = token → uses_up b = false ∧ (at_ms b <= exp)%N) l1 →
        presents a = token → (at_ms a <= exp)%N → (a, Ok user) ∈ attempts u' l).
Proof.
  intros Hu Ha. destruct (create_login_row cfg now u user token Hu Ha) as (u' & Hc & Hr).
  exists u', (u64_saturating_add now (login_token_ttl cfg)).
  destruct (attempts_granted l u' token _ user Hr) as [Hl Hin]. split_and!; [done..|].
  intros l1 a l2 -> Hl1 Ea Ht. by eapply attempts_first.
Qed.

(** Two requests that both read the row before either removes it both log in:
    the lookup and the removal are separate awaits. *)
Theorem login_token_race now u user token exp :
  read_login_token u token = Ok (exp, user) → (now <= exp)%N →
  let first := finish_login_token true now (exp, user) u token in
  first.1 = Ok user ∧ (finish_login_token true now (exp, user) first.2 token).1 = Ok user
  ∧ (find_from_login_token now first.2 token).1 = Err (UserForbidden "Login token is unrecognised").
Proof.
  intros Hr Ht%N.ltb_ge. unfold finish_login_token. cbn. rewrite Ht. cbn. split_and!; [done..|].
  unfold find_from_login_token, read_login_token. by rewrite get_drop_row, decide_True.
Qed.
End properties.

(** ** An example *)

Module UsersExample.
(** A hash that marks the password. *)
#[export] Instance marked : Passwords.
Proof.
  refine {|
    hash_password p := if utf8_valid (String "$" p) then Some (String "$" p) else None;
    verify_password p h := bool_decide (h = String "$" p);
  |}.
  - intros p h. destruct (utf8_valid _); [|done]. intros [= <-]. by apply bool_decide_eq_true.
  - intros p h. destruct (utf8_valid _) eqn:E; [|done]. by intros [= <-].
  - intros p. by apply bool_decide_eq_false.
  - intros p. by apply bool_decide_eq_false.
Defined.

Definition config : UserConfig := mkUserConfig 3600 120000 300 86400 false 50 false.
End UsersExample.

Section account_witnesses.
#[local] Existing Instance ordered_engine.
#[local] Existing Instance ShortExample.json.
#[local] Existing Instance MembersExample.users.
Import UsersExample.

Definition no_users : UserData := mkUserData (mkData (∅ : Table) 0 (counter_new 0)) (λ _, ∅ : Table).

Lemma no_rows t k : get_row no_users t k = Err NotFound.
Proof. exact (f_equal handle_from (lookup_empty (M := gmap string) k)). Qed.

Lemma no_users_counter : data_inv (user_counter no_users) ∅.
Proof. destruct (data_new_inv (H := ordered_engine) (∅ : Table) 0) as (d & [= <-] & _ & _ & Hd); [done..|]. exact Hd. Qed.

(** Looked at, used, and tried again. *)
Definition three_attempts : list Attempt := [mkAttempt false 5 "tok"; mkAttempt true 6 "tok"; mkAttempt true 7 "tok"].

Lemma login_token_once_witness :
  ∃ u', create_login_token config 0 no_users "@a:ex.com" "tok" = Ok (120000%N, u')
    ∧ (mkAttempt true 6 "tok", Ok "@a:ex.com") ∈ attempts u' three_attempts
    ∧ length (filter (λ e, granted "tok" e = true) (attempts u' three_attempts)) ≤ 1.
Proof.
  destruct (login_token_once config 0 no_users "@a:ex.com" "tok" three_attempts) as (u' & exp & Hc & -> & Hl & _ & Hfirst);
    [reflexivity..|].
  exists u'. split; [exact Hc|]. split; [|exact Hl].
  apply (Hfirst [mkAttempt false 5 "tok"] (mkAttempt true 6 "tok") [mkAttempt true 7 "tok"]);
    [reflexivity| |reflexivity|vm_compute; congruence].
  constructor; [|constructor]. intros _. split; [reflexivity|vm_compute; congruence].
Defined.
End account_witnesses.
