(* ===== verification/Devices.v ===== *)
(** * Devices and their tokens ([src/src/service/users/device.rs],
    [dehydrated_device.rs])

    A device has an access token and a refresh token; both kinds are rows of one
    table, from the token to the device, and two tables lead back from the device
    to its tokens.  [tokens_ok] says the three agree.  The second half is the
    queue of events to a device, keyed by the server's counter.

    An operation acts on the tables and on the services around them ([Around]:
    the rooms of a user and the pushers). *)

From S2P Require Import Prelude Effects Bytes Slices DbCodec DbMap Pairs Counter Short PduId Scans MemberCache Memberships Accounts.

#[export] Instance user_panics : Panics UserError := λ e,
  match e with UserDb (Panicked _) | UserCount _ | UserPanic _ => true | _ => false end.

(** ** Time *)

(** [SystemTime] as the nanoseconds since the epoch; its seconds are signed. *)
Definition NANOS : N := 1000000000.
Definition timepoint (ns : N) : option N := if (ns / NANOS <=? 9223372036854775807)%N then Some ns else None.
Definition timepoint_from_epoch (secs : N) : option N := timepoint (secs * NANOS).
Definition timepoint_from_now (now secs : N) : option N := timepoint (now + secs * NANOS).
Definition timepoint_has_passed (now tp : N) : bool := (tp <=? now)%N.

Definition TOKEN_LENGTH : nat := 32.

(** [utils::increment] *)
Definition increment_bytes (old : option string) : string :=
  u64_to_be_bytes ((default 0 (old ≫= from_be_bytes 8) + 1) mod (U64_MAX + 1))%N.

Record Device := mkDevice {
  device_id : string;
  display_name : option string;
  last_seen_ts : option N;
  last_seen_ip : option string;
}.

(** The text of a device, as serde prints and reads it. *)
Class DeviceJson := {
  print_device : Device → string;
  parse_device : string → option Device;
}.

(** What the service asks of others. *)
Class Around (W : Type) := {
  rooms_joined_of : W → string → list string;
  is_encrypted_room : W → string → bool;
  get_device_pushkeys : W → string → string → list string;
  delete_pusher : W → string → string → W;
}.

Section devices.
Context `{Engine, JsonParser, Users, Passwords, DeviceJson} {W : Type} `{!Around W}.
Implicit Types (u : UserData) (user device token : string) (w : W).
Notation M := (Op UserError (UserData * W)).

Definition tables {A} (f : UserData → A) : M A := λ s, (Ok (f s.1), s).
Definition writing (f : UserData → UserData) : M unit := λ s, (Ok tt, (f s.1, s.2)).
Definition trying (f : UserData → Result UserError UserData) : M unit :=
  λ s, match f s.1 with Ok u => (Ok tt, (u, s.2)) | Err e => (Err e, s) end.

(** [next_count], whose permit is dropped when the body ends. *)
Definition counting {A} (body : N → M A) : M A := λ s,
  match next_count (user_counter s.1) with
  | Err e => (Err (UserCount e), s)
  | Ok (p, d) =>
      let '(r, (u, w)) := body (permit_id p) (with_counter d s.1, s.2) in
      match drop_permit (permit_id p) (user_counter u) with
      | Err e => (Err (UserCount e), (u, w))
      | Ok d' => (r, (with_counter d' u, w))
      end
  end.

Definition increment t (key : string) : M unit :=
  writing (λ u, set_row t key (increment_bytes (ok (get_row u t key))) u).

(** [keychangeid_userid] *)
Definition change_ser (a : string) (count : N) : Ser := STuple [SStr a; SU64 count].

Definition mark_device_key_update (cfg : UserConfig) user : M unit :=
  counting (λ count,
    trying (change keychangeid_userid (λ tb, put_raw tb (change_ser user count) user)) ;;
    λ s, for_each (λ room, trying (change keychangeid_userid (λ tb, put_raw tb (change_ser room count) user)))
           (filter (λ room, negb (device_key_update_encrypted_rooms_only cfg) || is_encrypted_room s.2 room = true)
              (rooms_joined_of s.2 user)) s).

(** ** Tokens *)

Definition token_value user device (expires_at : option N) : Ser :=
  STuple [SStr user; SStr device; match expires_at with Some n => SSome (SU64 n) | None => SNone end].

Definition read_token (v : DeValue) : option (string * string * option N) :=
  match v with
  | VTuple [VStr user; VStr device; VNone] => Some (user, device, None)
  | VTuple [VStr user; VStr device; VSome (VU64 n)] => Some (user, device, Some n)
  | _ => None
  end.

(** The row of a token: user, device and the second it expires. *)
Definition token_row u token : Result DbError (string * string * option N) :=
  let? v := deserialized (DTuple [DStr user_id_ok; DStr (λ _, true); DOption DU64]) (get_row u token_userdeviceid token) in
  ok_or (Codec InvalidValue) (read_token v).

Definition find_from_token u token : Result UserError (string * string * option N) :=
  let? row := udb (token_row u token) in
  match row.2 with
  | None => Ok (row.1, None)
  | Some secs =>
      let? at_time := ok_or (UserErr "Arithmetic") (timepoint_from_epoch secs) in Ok (row.1, Some at_time)
  end.

(** Revoking by the table that leads from the device to the token. *)
Definition remove_token t user device : M unit := λ s,
  match qry (user_tables s.1 t) (pair_ser user device) with
  | Err e => (Err (UserDb e), s)
  | Ok token =>
      (trying (change t (λ tb, del tb (pair_ser user device))) ;;
       writing (drop_row token_userdeviceid token)) s
  end.

Definition remove_access_token user device : M unit := remove_token userdeviceid_token user device.
Definition remove_refresh_token user device : M unit := remove_token userdeviceid_refresh user device.

Definition remove_tokens user device : M unit :=
  ignoring (remove_access_token user device) ;; ignoring (remove_refresh_token user device) ;; ret tt.

(** The two writes of a new token. *)
Definition put_token t user device token (expires_at : option N) : M unit :=
  trying (change token_userdeviceid (λ tb, raw_put tb token (token_value user device expires_at))) ;;
  trying (change t (λ tb, put_raw tb (pair_ser user device) token)).

Definition find_refresh_token_expires_at u user device : option N :=
  old ← ok (read_string (qry (user_tables u userdeviceid_refresh) (pair_ser user device)));
  v ← ok (deserialized (DTuple [DIgnore; DIgnore; DOption DU64]) (get_row u token_userdeviceid old));
  match v with VTuple [VUnit; VUnit; VSome (VU64 secs)] => timepoint_from_epoch secs | _ => None end.

Definition set_refresh_token (cfg : UserConfig) (now : N) user device token : M unit :=
  let ttl := refresh_token_ttl cfg in
  do prior := tables (λ u, if negb (ttl =? 0)%N && negb (refresh_token_idle_only cfg)
                           then find_refresh_token_expires_at u user device else None) in
  ignoring (remove_refresh_token user device) ;;
  do expires_at := (if (ttl =? 0)%N then ret None
                    else match prior with
                         | Some p => ret (Some p)
                         | None => lift (let? tp := ok_or (UserErr "Arithmetic") (timepoint_from_now now ttl) in Ok (Some tp))
                         end) in
  put_token userdeviceid_refresh user device token ((λ tp, tp / NANOS)%N <$> expires_at).

Definition set_access_token (cfg : UserConfig) (now : N) user device token (expires_in : option N)
    (refresh : option string) : M unit :=
  if (String.length token <? TOKEN_LENGTH)%nat then throw (UserPanic "Caller must supply an access_token.")
  else
    match refresh with Some r => set_refresh_token cfg now user device r | None => ret tt end ;;
    ignoring (remove_access_token user device) ;;
    do expires_at := (match expires_in with
                      | None => ret None
                      | Some secs => lift (let? tp := ok_or (UserErr "Arithmetic") (timepoint_from_now now secs) in Ok (Some tp))
                      end) in
    put_token userdeviceid_token user device token ((λ tp, tp / NANOS)%N <$> expires_at).

Definition get_access_token u user device : Result DbError string :=
  read_string (qry (user_tables u userdeviceid_token) (pair_ser user device)).
Definition get_refresh_token u user device : Result DbError string :=
  read_string (qry (user_tables u userdeviceid_refresh) (pair_ser user device)).

Definition generate_access_token (cfg : UserConfig) (expires : bool) (random : string) : string * option N :=
  (random, if expires then Some (access_token_ttl cfg) else None).
Definition generate_refresh_token (random : string) : string := "refresh_" +:+ random.

(** ** Devices *)

Definition put_device_metadata user (notify : bool) (device : Device) : M unit :=
  trying (change userdeviceid_metadata (λ tb, put tb (pair_ser user (device_id device)) (json_of (print_device device)))) ;;
  if notify then increment userid_devicelistversion user else ret tt.

Definition get_device_metadata u user device : Result DbError Device :=
  let? v := @deserialized (λ text, bool_decide (is_Some (parse_device text))) DMap
              (qry (user_tables u userdeviceid_metadata) (pair_ser user device)) in
  match v with VJson text => ok_or (Codec SerdeDe) (parse_device text) | _ => Err (Codec InvalidValue) end.

Definition device_exists u user device : bool := contains_pair (user_tables u userdeviceid_metadata) user device.

Definition all_device_ids u user : Result DbError (list string) :=
  seconds (user_tables u userdeviceid_metadata) (λ _, true) user.

Definition all_devices_metadata u user : Result DbError (list Device) :=
  let? rows := @stream_prefix _ (λ text, bool_decide (is_Some (parse_device text)))
                 (user_tables u userdeviceid_metadata) DIgnore DMap (prefix_ser_of user) in
  Ok (omap (λ e, match e.2 with VJson text => parse_device text | _ => None end) rows).

Definition update_device_last_seen (now_ms : N) user device (ip : option string) (ts : option N) : M unit :=
  do found := (λ s, (udb (get_device_metadata s.1 user device), s)) in
  put_device_metadata user false
    (mkDevice (device_id found) (display_name found) (Some (default now_ms ts)) (ip ∪ last_seen_ip found)).

Definition create_device (cfg : UserConfig) (now : N) user (device : option string) (random : string)
    (access : option string) (expires_in : option N) (refresh name ip : option string) : M string :=
  let id := default random device in
  do known := tables (λ u, exists_account u user) in
  if known then
    put_device_metadata user true (mkDevice id name (Some (now / 1000000)%N) ip) ;;
    match access with
    | Some token => set_access_token cfg now user id token expires_in refresh
    | None => ret tt
    end ;;
    ret id
  else throw (UserInvalidParam "Called create_device for non-existent user").

(** [(user_id, device_id, Interfix)] *)
Definition device_prefix user device : Ser := STuple [SStr user; SStr device; SUnitStruct "Interfix"].

Definition remove_below t user device : M unit :=
  do keys := (λ s, (udb (keys_prefix_raw (user_tables s.1 t) (device_prefix user device)), s)) in
  writing (λ u, foldl (λ u key, drop_row t key u) u keys).

(** The dehydrated device of the user, as read from its row. *)
Record DehydratedDevice := mkDehydrated { dehydrated_id : string; dehydrated_data : string }.

Definition get_dehydrated_device (parse : string → option DehydratedDevice) u user : Result UserError DehydratedDevice :=
  let? raw := udb (read_string (get_row u userid_dehydrateddevice user)) in ok_or (UserErr "SerdeDe") (parse raw).
Definition get_dehydrated_device_id (parse : string → option DehydratedDevice) u user : Result UserError string :=
  result_map dehydrated_id (get_dehydrated_device parse u user).

Definition remove_dehydrated_device (parse : string → option DehydratedDevice) user (maybe : option string) : M string := λ s,
  match get_dehydrated_device_id parse s.1 user with
  | Err _ => (Err (UserNotFound "No dehydrated device for this user."), s)
  | Ok id =>
      if match maybe with Some other => negb (bool_decide (other = id)) | None => false end
      then (Err (UserNotFound "Not the user's dehydrated device."), s)
      else (writing (drop_row userid_dehydrateddevice user) ;; ret id) s
  end.

Definition remove_pushers user device : M unit := λ s,
  (Ok tt, (s.1, foldl (λ w key, delete_pusher w user key) s.2 (get_device_pushkeys s.2 user device))).

Definition remove_device (cfg : UserConfig) (parse : string → option DehydratedDevice) user device : M unit :=
  remove_tokens user device ;;
  remove_below todeviceid_events user device ;;
  remove_pushers user device ;;
  ignoring (remove_dehydrated_device parse user (Some device)) ;;
  remove_below userdeviceidalgorithm_fallback user device ;;
  trying (change userdeviceid_metadata (λ tb, del tb (pair_ser user device))) ;;
  trying (change oidcdevice_userdeviceid (λ tb, del tb (pair_ser user device))) ;;
  mark_device_key_update cfg user ;;
  increment userid_devicelistversion user.

(** Each device the scan yields; also what logging out everywhere does. *)
Definition remove_devices (cfg : UserConfig) (parse : string → option DehydratedDevice) user : M unit :=
  do ids := (λ s, (udb (all_device_ids s.1 user), s)) in
  for_each (remove_device cfg parse user) ids.

(** Single sign-on is revoked first, by another service. *)
Definition deactivate_account (cfg : UserConfig) (parse : string → option DehydratedDevice) (revoke : W → W) user : M unit :=
  (λ s, (Ok tt, (s.1, revoke s.2))) ;;
  remove_devices cfg parse user ;;
  trying (λ u, set_password u user None).

(** ** Marks for single sign-on *)

Definition is_oidc_device u user device : bool := contains_pair (user_tables u oidcdevice_userdeviceid) user device.
Definition mark_oidc_device user device (idp_json : string) : M unit :=
  trying (change oidcdevice_userdeviceid (λ tb, put tb (pair_ser user device) (json_of idp_json))).
Definition get_oidc_device_idp (parse : string → option string) u user device : option string :=
  ok (read_json_row parse (qry (user_tables u oidcdevice_userdeviceid) (pair_ser user device))).

(** Replacing the cross-signing keys without asking again, for ten minutes; the
    time is a CBOR value. *)
Definition allow_cross_signing_replacement (print : N → string) (now : N) user : M N :=
  match timepoint_from_now now 600 with
  | None => throw (UserPanic "failed to create timepoint from now")
  | Some expires =>
      trying (change oidccskeybypass_userid (λ tb, raw_put tb user (SNewtype "Cbor" (Some (print expires))))) ;; ret expires
  end.

Definition can_replace_cross_signing_keys (parse : string → option N) (now : N) user u : bool * UserData :=
  match read_json_row parse (get_row u oidccskeybypass_userid user) with
  | Err _ => (false, u)
  | Ok expires =>
      if negb (timepoint_has_passed now expires) then (true, u) else (false, drop_row oidccskeybypass_userid user u)
  end.

Definition get_devicelist_version u user : Result DbError N := deserialized_u64 (get_row u userid_devicelistversion user).

(** ** Events to a device *)

Definition event_ser user device (count : N) : Ser := STuple [SStr user; SStr device; SU64 count].

Definition add_to_device_event user device (event : string) : M unit :=
  counting (λ count, trying (change todeviceid_events (λ tb, put tb (event_ser user device count) (json_of event)))).

Definition event_key (v : DeValue) : option (string * string * N) :=
  match v with VTuple [VStr user; VStr device; VU64 count] => Some (user, device, count) | _ => None end.
Definition event_row (e : DeValue * DeValue) : option (string * string * N * string) :=
  match event_key e.1, e.2 with Some k, VStr event => Some (k, event) | _, _ => None end.

Definition EventKey : De := DTuple [DStr user_id_ok; DStr (λ _, true); DU64].

Definition get_to_device_events u user device (since to : option N) : Result DbError (list (N * string)) :=
  let from := match since with Some n => u64_saturating_add n 1 | None => 0%N end in
  let? rows := stream_from (user_tables u todeviceid_events) EventKey (DStr (λ _, true)) (event_ser user device from) in
  Ok ((λ e : string * string * N * string, (e.1.2, e.2)) <$>
        take_while (λ e : string * string * N * string,
            bool_decide (e.1.1 = (user, device)) && match to with Some n => (e.1.2 <=? n)%N | None => true end)
          (omap event_row rows)).

Definition remove_to_device_events user device (until : option N) : M unit :=
  do keys := (λ s, (udb (rev_keys_from (user_tables s.1 todeviceid_events) EventKey
                           (event_ser user device (default U64_MAX until))), s)) in
  for_each (λ k : string * string * N,
      trying (change todeviceid_events (λ tb, del tb (event_ser k.1.1 k.1.2 k.2))))
    (take_while (λ k : string * string * N, bool_decide (k.1 = (user, device))) (omap event_key keys)).
End devices.

(** ** Rows of tokens *)

Section token_rows.
Context `{Engine, JsonParser, Users}.
Implicit Types (u : UserData) (user device token : string) (e : option N).

(** An expiry the code can have written: its second is signed. *)
Definition stamp_ok e : Prop := match e with Some n => (n <= 9223372036854775807)%N | None => True end.
Definition stamp_bytes e : string := match e with Some n => u64_to_be_bytes n | None => "" end.
Definition token_bytes user device e : string := record_bytes [user; device; stamp_bytes e].
Definition ids_ok user device : Prop := utf8_valid user = true ∧ user_id_ok user = true ∧ utf8_valid device = true.

Lemma stamp_head n : (n <= 9223372036854775807)%N → ∃ c s, u64_to_be_bytes n = String c s ∧ c ≠ SEP.
Proof.
  intros Hn. do 2 eexists. split; [reflexivity|]. intros E%(f_equal N_of_ascii).
  rewrite N_ascii_embedding in E by (apply N.mod_lt; done). change (N_of_ascii SEP) with 255%N in E.
  assert (n / 256 ^ N.of_nat 7 <= 127)%N as Hd.
  { change 127%N with (9223372036854775807 / 256 ^ N.of_nat 7)%N. by apply N.Div0.div_le_mono. }
  rewrite N.mod_small in E by lia. lia.
Qed.

Lemma stamp_field e last :
  stamp_ok e →
  field json_parses last (DOption DU64) (match e with Some n => SSome (SU64 n) | None => SNone end)
    (match e with Some n => VSome (VU64 n) | None => VNone end) (stamp_bytes e).
Proof.
  destruct e as [n|]; cbn; intros Hn; [|constructor]. destruct (stamp_head n Hn) as (c & s & E & Hc). rewrite E.
  apply field_some; [done|]. rewrite <-E. constructor. unfold U64_MAX. lia.
Qed.

Lemma token_fields user device e :
  ids_ok user device → stamp_ok e →
  serialize None (token_value user device e) = Ok (token_bytes user device e)
  ∧ deserialize_slice (DTuple [DStr user_id_ok; DStr (λ _, true); DOption DU64]) (token_bytes user device e)
    = Ok (VTuple [VStr user; VStr device; match e with Some n => VSome (VU64 n) | None => VNone end])
  ∧ deserialize_slice (DTuple [DIgnore; DIgnore; DOption DU64]) (token_bytes user device e)
    = Ok (VTuple [VUnit; VUnit; match e with Some n => VSome (VU64 n) | None => VNone end]).
Proof.
  intros (Hu & Ha & Hd) He. pose proof (stamp_field e true He) as Hs.
  destruct (tuple_roundtrip json_parses [DStr user_id_ok; DStr (λ _, true); DOption DU64] _ _ _ [] []
    (fields_cons _ _ _ _ _ _ _ _ _ (field_str _ false _ user Hu Ha)
      (fields_cons _ _ _ _ _ _ _ _ _ (field_str _ false (λ _, true) device Hd eq_refl) (fields_last _ _ _ _ _ Hs))))
    as (Hser & st & Hde & _); [constructor|].
  destruct (tuple_roundtrip json_parses [DIgnore; DIgnore; DOption DU64] _ _ _ [] []
    (fields_cons _ _ _ _ _ _ _ _ _ (field_ignore _ false user Hu)
      (fields_cons _ _ _ _ _ _ _ _ _ (field_ignore _ false device Hd) (fields_last _ _ _ _ _ Hs))))
    as (_ & st' & Hde' & _); [constructor|].
  split_and!; [unfold serialize, token_value; by rewrite Hser|..]; unfold deserialize_slice.
  - cbn [app] in Hde. unfold token_bytes. by rewrite Hde.
  - cbn [app] in Hde'. unfold token_bytes. by rewrite Hde'.
Qed.

Lemma token_row_read u token user device e :
  ids_ok user device → stamp_ok e → get_row u token_userdeviceid token = Ok (token_bytes user device e) →
  token_row u token = Ok (user, device, e).
Proof.
  intros Hi He Hr. unfold token_row, deserialized. rewrite Hr. destruct (token_fields user device e Hi He) as (_ & -> & _).
  by destruct e.
Qed.

Lemma find_read u token user device e :
  ids_ok user device → stamp_ok e → get_row u token_userdeviceid token = Ok (token_bytes user device e) →
  find_from_token u token = Ok (user, device, (λ n, n * NANOS)%N <$> e).
Proof.
  intros Hi He Hr. unfold find_from_token. rewrite (token_row_read u token user device e Hi He Hr). cbn.
  destruct e as [n|]; [|done]. unfold timepoint_from_epoch, timepoint. cbn in He.
  rewrite N.div_mul by done. by rewrite (proj2 (N.leb_le _ _) He).
Qed.

Lemma find_unread u token : get_row u token_userdeviceid token = Err NotFound → find_from_token u token = Err (UserDb NotFound).
Proof. intros Hr. unfold find_from_token, token_row, deserialized. by rewrite Hr. Qed.

(** The two tables that lead from a device to its tokens. *)
Definition token_table (t : UserTable) : Prop := t = userdeviceid_token ∨ t = userdeviceid_refresh.

(** The three tables agree. *)
Record tokens_ok u : Prop := {
  token_owned token val : get_row u token_userdeviceid token = Ok val →
    ∃ user device e, ids_ok user device ∧ stamp_ok e ∧ val = token_bytes user device e
      ∧ ∃ t, token_table t ∧ get_row u t (pair_key user device) = Ok token;
  token_listed t user device token : token_table t → ids_ok user device →
    get_row u t (pair_key user device) = Ok token →
    ∃ e, stamp_ok e ∧ get_row u token_userdeviceid token = Ok (token_bytes user device e);
  token_apart user device token : ids_ok user device →
    get_row u userdeviceid_token (pair_key user device) = Ok token →
    get_row u userdeviceid_refresh (pair_key user device) ≠ Ok token;
}.

Lemma token_bytes_inj user device e user' device' e' :
  ids_ok user device → ids_ok user' device' → stamp_ok e → stamp_ok e' →
  token_bytes user device e = token_bytes user' device' e' → user = user' ∧ device = device' ∧ e = e'.
Proof.
  intros Hi Hi' He He' E. destruct (token_fields user device e Hi He) as (_ & Hd & _).
  destruct (token_fields user' device' e' Hi' He') as (_ & Hd' & _). rewrite E, Hd' in Hd.
  destruct e, e'; simplify_eq; done.
Qed.
End token_rows.

(** ** What the token operations do *)

Section token_ops.
Context `{Engine, JsonParser, Users} {W : Type}.
Implicit Types (u : UserData) (user device token : string) (e : option N) (w : W).

Lemma with_get_row t f u tb :
  f (user_tables u t) = Ok tb → change t f u = Ok (with_table t tb u).
Proof. intros E. unfold change, udb. by rewrite E. Qed.

Lemma qry_row u t user device : qry (user_tables u t) (pair_ser user device) = get_row u t (pair_key user device).
Proof. rewrite qry_pair. unfold get_row, Map_get. by rewrite table_get_rows. Qed.

Lemma change_put_raw_pair t user device v u :
  change t (λ tb, put_raw tb (pair_ser user device) v) u = Ok (set_row t (pair_key user device) v u).
Proof. apply with_get_row, put_raw_pair. Qed.

Lemma change_del_pair t user device u :
  change t (λ tb, del tb (pair_ser user device)) u = Ok (drop_row t (pair_key user device) u).
Proof. apply with_get_row, del_pair. Qed.

Lemma put_token_run t user device token e u w :
  ids_ok user device → stamp_ok e →
  put_token t user device token e (u, w)
  = (Ok tt, (set_row t (pair_key user device) token (set_row token_userdeviceid token (token_bytes user device e) u), w)).
Proof.
  intros Hi He. unfold put_token, bind, trying. cbn [fst snd].
  rewrite (with_get_row token_userdeviceid _ u (Map_insert (user_tables u token_userdeviceid) token (token_bytes user device e))).
  - cbn [fst snd]. by rewrite change_put_raw_pair.
  - unfold raw_put, raw_bput. by rewrite (proj1 (token_fields user device e Hi He)).
Qed.

Lemma remove_token_run t user device u w :
  remove_token t user device (u, w)
  = match get_row u t (pair_key user device) with
    | Ok token => (Ok tt, (drop_row token_userdeviceid token (drop_row t (pair_key user device) u), w))
    | Err er => (Err (UserDb er), (u, w))
    end.
Proof.
  unfold remove_token. cbn [fst snd]. rewrite qry_row. destruct (get_row u t _) as [token|er]; [|done].
  unfold bind, trying, writing. cbn [fst snd]. by rewrite change_del_pair.
Qed.

Lemma get_row_err u t k er : get_row u t k = Err er → er = NotFound.
Proof. unfold get_row, Map_get, handle_from. by destruct (table_get _ k); intros [= <-]. Qed.

(** After a removal, whether or not there was a token. *)
Definition without_token t user device u : UserData :=
  match get_row u t (pair_key user device) with
  | Ok token => drop_row token_userdeviceid token (drop_row t (pair_key user device) u)
  | Err _ => u
  end.

Lemma ignoring_remove_run t user device u w :
  ∃ r, ignoring (remove_token t user device) (u, w) = (Ok r, (without_token t user device u, w)).
Proof.
  unfold ignoring, without_token. rewrite remove_token_run.
  destruct (get_row u t _) as [token|er] eqn:E; [by eexists|]. apply get_row_err in E as ->. by eexists.
Qed.

Lemma without_token_row t user device u t' k :
  t' ≠ token_userdeviceid → (t' = t → k ≠ pair_key user device) →
  get_row (without_token t user device u) t' k = get_row u t' k.
Proof.
  intros Ht Hk. unfold without_token. destruct (get_row u t _); [|done].
  rewrite !get_drop_row, !decide_False; tauto.
Qed.

Lemma without_token_gone t user device u :
  t ≠ token_userdeviceid → get_row (without_token t user device u) t (pair_key user device) = Err NotFound.
Proof.
  intros Ht. unfold without_token. destruct (get_row u t (pair_key user device)) as [token|er] eqn:E.
  - rewrite get_drop_row, decide_False by tauto. by rewrite get_drop_row, decide_True.
  - by rewrite E, (get_row_err _ _ _ _ E).
Qed.

Lemma without_token_find t user device u token :
  t ≠ token_userdeviceid →
  get_row (without_token t user device u) token_userdeviceid token
  = if decide (ok (get_row u t (pair_key user device)) = Some token) then Err NotFound else get_row u token_userdeviceid token.
Proof.
  intros Ht. unfold without_token. destruct (get_row u t (pair_key user device)) as [token'|er] eqn:E.
  - rewrite !get_drop_row. destruct (decide (token = token')) as [->|Hne].
    + rewrite !decide_True by done. done.
    + rewrite !decide_False by naive_solver. done.
  - by rewrite decide_False by done.
Qed.
End token_ops.

(** ** The invariant *)

Section invariant.
Context `{Engine, JsonParser, Users} {W : Type}.
Implicit Types (u : UserData) (user device token : string) (e : option N) (w : W).

Lemma token_table_other t : token_table t → t ≠ token_userdeviceid.
Proof. by intros [-> | ->]. Qed.

Lemma ids_pair_inj user device user' device' :
  ids_ok user device → ids_ok user' device' → pair_key user device = pair_key user' device' → user = user' ∧ device = device'.
Proof. intros (Hu & _) (Hu' & _). by apply pair_key_inj. Qed.

(** No token is listed in both tables, or for two devices. *)
Lemma token_unique u t t' user device user' device' token :
  tokens_ok u → token_table t → token_table t' → ids_ok user device → ids_ok user' device' →
  get_row u t (pair_key user device) = Ok token → get_row u t' (pair_key user' device') = Ok token →
  t = t' ∧ user = user' ∧ device = device'.
Proof.
  intros Hok Ht Ht' Hi Hi' Hr Hr'.
  destruct (token_listed _ Hok t user device token Ht Hi Hr) as (e & He & Hv).
  destruct (token_listed _ Hok t' user' device' token Ht' Hi' Hr') as (e' & He' & Hv').
  assert (user = user' ∧ device = device') as [-> ->].
  { assert (token_bytes user device e = token_bytes user' device' e') as E by congruence.
    by apply token_bytes_inj in E as (? & ? & _). }
  split; [|done]. pose proof (token_apart _ Hok user' device' token Hi') as Hap.
  destruct Ht as [-> | ->], Ht' as [-> | ->]; try done; [by destruct (Hap Hr)|by destruct (Hap Hr')].
Qed.

Lemma without_token_ok t user device u :
  tokens_ok u → token_table t → ids_ok user device → tokens_ok (without_token t user device u).
Proof.
  intros Hok Ht Hi. pose proof (token_table_other t Ht) as Hne.
  assert (∀ t' k, token_table t' → (t' = t → k ≠ pair_key user device) →
    get_row (without_token t user device u) t' k = get_row u t' k) as Hrow.
  { intros t' k Ht'. apply without_token_row, token_table_other, Ht'. }
  assert (∀ t' user' device' token, token_table t' → ids_ok user' device' →
    get_row (without_token t user device u) t' (pair_key user' device') = Ok token →
    get_row u t' (pair_key user' device') = Ok token ∧ (t' = t → (user', device') ≠ (user, device))) as Hback.
  { intros t' user' device' token Ht' Hi' Hr.
    destruct (decide (t' = t ∧ (user', device') = (user, device))) as [[-> [= -> ->]]|Hno].
    - by rewrite without_token_gone in Hr.
    - split; [|naive_solver]. rewrite Hrow in Hr; [done..|]. intros -> E. apply Hno. split; [done|].
      by apply ids_pair_inj in E as [-> ->]. }
  split.
  - intros token val. rewrite without_token_find by done. case_decide as Hd; [done|]. intros Hv.
    destruct (token_owned _ Hok token val Hv) as (user' & device' & e & Hi' & He & -> & t' & Ht' & Hr).
    exists user', device', e. split_and!; [done..|]. exists t'. split; [done|]. rewrite Hrow; [done..|].
    intros -> E. apply Hd. rewrite <-E, Hr. done.
  - intros t' user' device' token Ht' Hi' Hr. destruct (Hback _ _ _ _ Ht' Hi' Hr) as [Hr0 Hno].
    destruct (token_listed _ Hok t' user' device' token Ht' Hi' Hr0) as (e & He & Hv). exists e. split; [done|].
    rewrite without_token_find by done. rewrite decide_False; [done|]. intros Hd.
    destruct (get_row u t (pair_key user device)) as [tk|] eqn:Hg; [|done]. injection Hd as ->.
    destruct (token_unique u t t' user device user' device' token) as (-> & -> & ->); [done..|]. by apply Hno.
  - intros user' device' token Hi' Hr Hr'.
    destruct (Hback _ _ _ _ (or_introl eq_refl) Hi' Hr) as [Hr0 _], (Hback _ _ _ _ (or_intror eq_refl) Hi' Hr') as [Hr1 _].
    by apply (token_apart _ Hok user' device' token).
Qed.

(** A fresh token for a device that has none of its kind. *)
Definition with_token t user device token e u : UserData :=
  set_row t (pair_key user device) token (set_row token_userdeviceid token (token_bytes user device e) u).

Lemma with_token_row t user device token e u t' k :
  token_table t → t' ≠ token_userdeviceid →
  get_row (with_token t user device token e u) t' k
  = if decide (t' = t ∧ k = pair_key user device) then Ok token else get_row u t' k.
Proof.
  intros Ht Hne. unfold with_token. rewrite get_set_row. case_decide; [done|]. rewrite get_set_row, decide_False; [done|]. tauto.
Qed.

Lemma with_token_find t user device token e u token' :
  token_table t →
  get_row (with_token t user device token e u) token_userdeviceid token'
  = if decide (token' = token) then Ok (token_bytes user device e) else get_row u token_userdeviceid token'.
Proof.
  intros Ht%token_table_other. unfold with_token. rewrite get_set_row, decide_False by naive_solver. rewrite get_set_row.
  destruct (decide (token' = token)); [by rewrite decide_True|by rewrite decide_False by tauto].
Qed.

Lemma with_token_ok t user device token e u :
  tokens_ok u → token_table t → ids_ok user device → stamp_ok e →
  get_row u t (pair_key user device) = Err NotFound → get_row u token_userdeviceid token = Err NotFound →
  tokens_ok (with_token t user device token e u).
Proof.
  intros Hok Ht Hi He Hnone Hfresh.
  assert (∀ t' user' device', token_table t' → ids_ok user' device' → get_row u t' (pair_key user' device') ≠ Ok token) as Hnew.
  { intros t' user' device' Ht' Hi' Hr. destruct (token_listed _ Hok t' user' device' token Ht' Hi' Hr) as (e' & _ & Hv). congruence. }
  split.
  - intros token' val. rewrite with_token_find by done. case_decide as Hd.
    + intros [= <-]. exists user, device, e. split_and!; [done..|]. exists t. split; [done|].
      rewrite with_token_row by (done || by apply token_table_other). rewrite decide_True; [by subst|done].
    + intros Hv. destruct (token_owned _ Hok token' val Hv) as (user' & device' & e' & Hi' & He' & -> & t' & Ht' & Hr).
      exists user', device', e'. split_and!; [done..|]. exists t'. split; [done|].
      rewrite with_token_row by (done || by apply token_table_other). rewrite decide_False; [done|].
      intros [-> E]. rewrite E in Hr. congruence.
  - intros t' user' device' token' Ht' Hi'. rewrite with_token_row by (done || by apply token_table_other). case_decide as Hd.
    + destruct Hd as [-> E]. apply ids_pair_inj in E as [-> ->]; [|done..]. intros [= <-]. exists e. split; [done|].
      by rewrite with_token_find, decide_True.
    + intros Hr. destruct (token_listed _ Hok t' user' device' token' Ht' Hi' Hr) as (e' & He' & Hv). exists e'. split; [done|].
      rewrite with_token_find, decide_False; [done| |done]. intros ->. congruence.
  - intros user' device' token' Hi'. rewrite !with_token_row by done. repeat case_decide; intros Hr Hr'; simplify_eq.
    + destruct Ht; naive_solver.
    + by eapply (Hnew userdeviceid_refresh user' device'); [right| |].
    + by eapply (Hnew userdeviceid_token user' device'); [left| |].
    + by apply (token_apart _ Hok user' device' token').
Qed.
End invariant.

(** ** Operations that succeed and leave rows alone *)

Section runs.
Context `{Engine, JsonParser, Users} {W : Type}.
Notation M := (Op UserError (UserData * W)).
Implicit Types (P : UserTable → string → Prop).

(** The operation succeeds with at most [n] numbers of the counter drawn and
    released, and the rows of [P] stay as they are. *)
Definition runs {A} (n : N) P (m : M A) : Prop :=
  ∀ s ids, data_inv (user_counter s.1) ids → (dispatched (counter (user_counter s.1)) + n <= U64_MAX)%N →
  ∃ a s', m s = (Ok a, s') ∧ data_inv (user_counter s'.1) ids
    ∧ (dispatched (counter (user_counter s'.1)) <= dispatched (counter (user_counter s.1)) + n)%N
    ∧ ∀ t k, P t k → get_row s'.1 t k = get_row s.1 t k.

Lemma runs_ret {A} P (a : A) : runs 0 P (ret a).
Proof. intros s ids Hd Hn. exists a, s. split_and!; [done..|lia|done]. Qed.

Lemma runs_bind {A B} n k P (m : M A) (f : A → M B) :
  runs n P m → (∀ a, runs k P (f a)) → runs (n + k) P (bind m f).
Proof.
  intros Hm Hf s ids Hd Hn. destruct (Hm s ids Hd) as (a & s1 & E1 & Hd1 & Hn1 & Hk1); [lia|].
  destruct (Hf a s1 ids Hd1) as (b & s2 & E2 & Hd2 & Hn2 & Hk2); [lia|].
  exists b, s2. unfold bind. rewrite E1, E2. split_and!; [done..|lia|]. intros t key Hp. by rewrite Hk2, Hk1.
Qed.

(** An operation that only writes tables. *)
Lemma runs_pure {A} P (m : M A) :
  (∀ s, ∃ a s', m s = (Ok a, s') ∧ user_counter s'.1 = user_counter s.1 ∧ ∀ t k, P t k → get_row s'.1 t k = get_row s.1 t k) →
  runs 0 P m.
Proof.
  intros Hm s ids Hd Hn. destruct (Hm s) as (a & s' & E & Ec & Hk). exists a, s'. rewrite Ec. split_and!; [done..|lia|done].
Qed.

Lemma runs_writing P f :
  (∀ u, user_counter (f u) = user_counter u) → (∀ u t k, P t k → get_row (f u) t k = get_row u t k) → runs 0 P (writing f : M unit).
Proof. intros Hc Hk. apply runs_pure. intros s. exists tt, (f s.1, s.2). split_and!; [done|apply Hc|apply Hk]. Qed.

Lemma runs_trying P f g :
  (∀ u, f u = Ok (g u)) → (∀ u, user_counter (g u) = user_counter u) →
  (∀ u t k, P t k → get_row (g u) t k = get_row u t k) → runs 0 P (trying f : M unit).
Proof.
  intros Hf Hc Hk. apply runs_pure. intros s. exists tt, (g s.1, s.2). unfold trying. rewrite Hf.
  split_and!; [done|apply Hc|apply Hk].
Qed.

Lemma runs_for_each {A} n P (f : A → M unit) l : (∀ a, runs n P (f a)) → runs (N.of_nat (length l) * n) P (for_each f l).
Proof.
  intros Hf. induction l as [|a l IH]; [apply runs_ret|]. cbn [for_each length].
  replace (N.of_nat (S (length l)) * n)%N with (n + N.of_nat (length l) * n)%N by lia. by apply runs_bind.
Qed.

Lemma runs_counting {A} n P (body : N → M A) : (∀ c, runs n P (body c)) → runs (n + 1) P (counting body).
Proof.
  intros Hb [u w] ids Hd Hn. cbn [fst snd] in *.
  destruct (next_count_inv (user_counter u) ids Hd) as (p & d & E & Ep & Ed & _ & _ & Hd1); [lia|].
  unfold counting. cbn [fst snd]. rewrite E.
  destruct (Hb (permit_id p) (with_counter d u, w) _ Hd1) as (a & [u' w'] & E' & Hd2 & Hn2 & Hk); cbn [fst snd with_counter user_counter] in *; [lia|].
  rewrite E'. destruct (drop_permit_inv (user_counter u') _ (permit_id p) Hd2) as (d' & -> & Ed' & _ & Hd3); [set_solver|].
  exists a, (with_counter d' u', w'). cbn [fst snd with_counter user_counter]. split_and!; [done| |lia|].
  - assert (permit_id p ∉ ids) as Hnew by (intros Hin%(inv_range _ _ Hd); lia).
    replace ids with (({[permit_id p]} ∪ ids) ∖ {[permit_id p]}); [done|]. set_solver.
  - intros t k Hp. apply (Hk t k Hp).
Qed.

(** The operation succeeds and ends in a state of [Q]. *)
Definition reaches {A} (n : N) (Q : UserData → Prop) (m : M A) : Prop :=
  ∀ s ids, data_inv (user_counter s.1) ids → (dispatched (counter (user_counter s.1)) + n <= U64_MAX)%N →
  ∃ a s', m s = (Ok a, s') ∧ Q s'.1.

Lemma reaches_bind {A B} n k P Q (m : M A) (f : A → M B) :
  runs n P m → (∀ a, reaches k Q (f a)) → reaches (n + k) Q (bind m f).
Proof.
  intros Hm Hf s ids Hd Hn. destruct (Hm s ids Hd) as (a & s1 & E1 & Hd1 & Hn1 & _); [lia|].
  destruct (Hf a s1 ids Hd1) as (b & s2 & E2 & HQ); [lia|]. exists b, s2. unfold bind. by rewrite E1.
Qed.

Lemma set_row_kept t k v u P :
  (∀ k', P t k' → k' ≠ k) → ∀ t' k', P t' k' → get_row (set_row t k v u) t' k' = get_row u t' k'.
Proof. intros Hn t' k' Hp. rewrite get_set_row, decide_False; [done|]. intros [-> ->]. by apply (Hn k). Qed.

Lemma drop_row_kept t k u P :
  (∀ k', P t k' → k' ≠ k) → ∀ t' k', P t' k' → get_row (drop_row t k u) t' k' = get_row u t' k'.
Proof. intros Hn t' k' Hp. rewrite get_drop_row, decide_False; [done|]. intros [-> ->]. by apply (Hn k). Qed.

Lemma change_ser_bytes (a : string) n : serialize None (change_ser a n) = Ok (a +:+ sep_str +:+ u64_to_be_bytes n).
Proof. unfold serialize, serialize_to_vec, change_ser. cbn. by rewrite <-append_assoc. Qed.
End runs.

(** ** Removing a device *)

Section removal.
Context `{Engine, JsonParser, Users, DeviceJson} {W : Type} `{!Around W}.
Notation M := (Op UserError (UserData * W)).
Implicit Types (u : UserData) (user device token : string) (w : W).

Lemma change_counter t f u u' : change t f u = Ok u' → user_counter u' = user_counter u.
Proof. unfold change, udb. destruct (f (user_tables u t)); cbn; by intros [= <-]. Qed.

Lemma mark_runs cfg user (P : UserTable → string → Prop) :
  (∀ k, ¬ P keychangeid_userid k) → runs 1 P (mark_device_key_update cfg user : M unit).
Proof.
  intros Hp. unfold mark_device_key_update.
  assert (∀ a c, runs 0 P (trying (change keychangeid_userid (λ tb, put_raw tb (change_ser a c) user)) : M unit)) as Hput.
  { intros a c. apply (runs_trying P _ (set_row keychangeid_userid (a +:+ sep_str +:+ u64_to_be_bytes c) user)).
    - intros u. apply with_get_row. unfold put_raw, bput_raw. by rewrite change_ser_bytes.
    - done.
    - intros u. apply set_row_kept. intros k' Hk. by destruct (Hp k'). }
  apply (runs_counting 0). intros c. apply (runs_bind 0 0); [apply Hput|]. intros [].
  intros s ids Hd Hn. cbv beta.
  match goal with |- context [for_each ?f ?l s] => pose proof (runs_for_each 0 P f l (λ a, Hput a c)) as Hl end.
  rewrite N.mul_0_r in Hl. exact (Hl s ids Hd Hn).
Qed.

Lemma increment_runs t key (P : UserTable → string → Prop) : (∀ k, ¬ P t k) → runs 0 P (increment t key : M unit).
Proof. intros Hp. apply runs_writing; [done|]. intros u. apply set_row_kept. intros k' Hk. by destruct (Hp k'). Qed.

Lemma device_prefix_ser user device : serialize_key (device_prefix user device) = Ok (pair_key user device +:+ sep_str).
Proof.
  unfold serialize_key, serialize. change (device_prefix user device) with (STuple ((SStr <$> [user; device]) ++ [SUnitStruct "Interfix"])).
  by rewrite prefix_ser.
Qed.

Lemma drop_rows_kept t (keys : list string) u (P : UserTable → string → Prop) :
  (∀ k, ¬ P t k) → ∀ t' k', P t' k' → get_row (foldl (λ u key, drop_row t key u) u keys) t' k' = get_row u t' k'.
Proof.
  intros Hp. revert u. induction keys as [|k keys IH]; intros u t' k' Hk; [done|]. cbn [foldl]. rewrite IH by done.
  apply (drop_row_kept t k u P); [|done]. intros k'' Hk''. by destruct (Hp k'').
Qed.

Lemma drop_rows_counter t (keys : list string) u : user_counter (foldl (λ u key, drop_row t key u) u keys) = user_counter u.
Proof. revert u. induction keys as [|k keys IH]; intros u; [done|]. cbn [foldl]. by rewrite IH. Qed.

Lemma remove_below_runs t user device (P : UserTable → string → Prop) :
  (∀ k, ¬ P t k) → runs 0 P (remove_below t user device : M unit).
Proof.
  intros Hp. apply runs_pure. intros [u w]. unfold remove_below, bind, keys_prefix_raw. cbn [fst snd].
  rewrite device_prefix_ser. cbn. do 2 eexists. split; [done|]. cbn. split; [apply drop_rows_counter|].
  intros t' k'. by apply (drop_rows_kept t _ u P).
Qed.

Lemma remove_pushers_runs user device (P : UserTable → string → Prop) : runs 0 P (remove_pushers user device : M unit).
Proof. apply runs_pure. intros [u w]. by do 2 eexists. Qed.

Lemma dehydrated_runs parse user maybe (P : UserTable → string → Prop) :
  (∀ k, ¬ P userid_dehydrateddevice k) → runs 0 P (ignoring (remove_dehydrated_device parse user maybe) : M (option string)).
Proof.
  intros Hp. apply runs_pure. intros [u w]. unfold ignoring, remove_dehydrated_device. cbn [fst snd].
  destruct (get_dehydrated_device_id parse u user) as [id|]; [|by do 2 eexists].
  destruct (match maybe with Some _ => _ | None => _ end); [by do 2 eexists|].
  do 2 eexists. split; [done|]. cbn. split; [done|]. intros t k. apply (drop_row_kept _ _ u P). intros k' Hk. by destruct (Hp k').
Qed.

Lemma del_pair_runs t user device (P : UserTable → string → Prop) :
  (∀ k, P t k → k ≠ pair_key user device) → runs 0 P (trying (change t (λ tb, del tb (pair_ser user device))) : M unit).
Proof.
  intros Hp. apply (runs_trying P _ (drop_row t (pair_key user device))); [intros u; apply change_del_pair|done|].
  intros u. by apply drop_row_kept.
Qed.

(** What is left alone when a device is removed, its tokens apart. *)
Definition unrelated user device (t : UserTable) (k : string) : Prop :=
  match t with
  | todeviceid_events | userid_dehydrateddevice | userdeviceidalgorithm_fallback | keychangeid_userid
  | userid_devicelistversion | oidcdevice_userdeviceid => False
  | userdeviceid_metadata => k ≠ pair_key user device
  | _ => True
  end.

Lemma after_tokens_runs cfg parse user device :
  runs 1 (unrelated user device) (
    remove_below todeviceid_events user device ;;
    remove_pushers user device ;;
    ignoring (remove_dehydrated_device parse user (Some device)) ;;
    remove_below userdeviceidalgorithm_fallback user device ;;
    trying (change userdeviceid_metadata (λ tb, del tb (pair_ser user device))) ;;
    trying (change oidcdevice_userdeviceid (λ tb, del tb (pair_ser user device))) ;;
    mark_device_key_update cfg user ;;
    increment userid_devicelistversion user : M unit).
Proof.
  refine (runs_bind 0 1 _ _ _ _ (λ _, _)); [by apply remove_below_runs; intros k []|].
  refine (runs_bind 0 1 _ _ _ _ (λ _, _)); [apply remove_pushers_runs|].
  refine (runs_bind 0 1 _ _ _ _ (λ _, _)); [by apply dehydrated_runs; intros k []|].
  refine (runs_bind 0 1 _ _ _ _ (λ _, _)); [by apply remove_below_runs; intros k []|].
  refine (runs_bind 0 1 _ _ _ _ (λ _, _)); [by apply del_pair_runs|].
  refine (runs_bind 0 1 _ _ _ _ (λ _, _)); [apply del_pair_runs; intros k []|].
  refine (runs_bind 1 0 _ _ _ _ (λ _, _)); [by apply mark_runs; intros k []|].
  by apply increment_runs; intros k [].
Qed.

(** Both tokens of a device gone. *)
Definition logged_out user device u : UserData :=
  without_token userdeviceid_refresh user device (without_token userdeviceid_token user device u).

Lemma remove_tokens_run user device u w : remove_tokens user device (u, w) = (Ok tt, (logged_out user device u, w)).
Proof.
  unfold remove_tokens, bind, logged_out.
  destruct (ignoring_remove_run (W := W) userdeviceid_token user device u w) as [r E]. unfold remove_access_token. rewrite E.
  destruct (ignoring_remove_run (W := W) userdeviceid_refresh user device (without_token userdeviceid_token user device u) w) as [r' E'].
  unfold remove_refresh_token. by rewrite E'.
Qed.

Lemma without_token_counter t user device u : user_counter (without_token t user device u) = user_counter u.
Proof. unfold without_token. by destruct (get_row u t _). Qed.

(** The row of the device goes, and nothing after brings it back. *)
Lemma metadata_gone cfg parse user device :
  reaches 1 (λ u, get_row u userdeviceid_metadata (pair_key user device) = Err NotFound) (
    remove_below todeviceid_events user device ;;
    remove_pushers user device ;;
    ignoring (remove_dehydrated_device parse user (Some device)) ;;
    remove_below userdeviceidalgorithm_fallback user device ;;
    trying (change userdeviceid_metadata (λ tb, del tb (pair_ser user device))) ;;
    trying (change oidcdevice_userdeviceid (λ tb, del tb (pair_ser user device))) ;;
    mark_device_key_update cfg user ;;
    increment userid_devicelistversion user : M unit).
Proof.
  refine (reaches_bind 0 1 (λ _ _, False) _ _ _ _ (λ _, _)); [by apply remove_below_runs; intros k []|].
  refine (reaches_bind 0 1 (λ _ _, False) _ _ _ _ (λ _, _)); [apply remove_pushers_runs|].
  refine (reaches_bind 0 1 (λ _ _, False) _ _ _ _ (λ _, _)); [by apply dehydrated_runs; intros k []|].
  refine (reaches_bind 0 1 (λ _ _, False) _ _ _ _ (λ _, _)); [by apply remove_below_runs; intros k []|].
  intros [u w] ids Hd Hn. unfold bind at 1, trying at 1. cbn [fst snd]. rewrite change_del_pair.
  assert (runs 1 (λ t _, t = userdeviceid_metadata) (
    trying (change oidcdevice_userdeviceid (λ tb, del tb (pair_ser user device))) ;;
    mark_device_key_update cfg user ;; increment userid_devicelistversion user : M unit)) as Hrest.
  { refine (runs_bind 0 1 _ _ _ _ (λ _, _)); [by apply del_pair_runs|].
    refine (runs_bind 1 0 _ _ _ _ (λ _, _)); [by apply mark_runs|by apply increment_runs]. }
  destruct (Hrest (drop_row userdeviceid_metadata (pair_key user device) u, w) ids Hd Hn) as (a & s' & E & _ & _ & Hk).
  exists a, s'. split; [exact E|]. rewrite Hk by done. cbn. by rewrite get_drop_row, decide_True.
Qed.

Lemma remove_device_run cfg parse user device u w ids :
  data_inv (user_counter u) ids → (dispatched (counter (user_counter u)) + 1 <= U64_MAX)%N →
  ∃ u' w', remove_device cfg parse user device (u, w) = (Ok tt, (u', w')) ∧ data_inv (user_counter u') ids
    ∧ (dispatched (counter (user_counter u')) <= dispatched (counter (user_counter u)) + 1)%N
    ∧ get_row u' userdeviceid_metadata (pair_key user device) = Err NotFound
    ∧ ∀ t k, unrelated user device t k → get_row u' t k = get_row (logged_out user device u) t k.
Proof.
  intros Hd Hn. unfold remove_device, bind at 1. rewrite remove_tokens_run.
  assert (user_counter (logged_out user device u) = user_counter u) as Ec
    by (unfold logged_out; by rewrite !without_token_counter).
  destruct (after_tokens_runs cfg parse user device (logged_out user device u, w) ids) as ([] & [u' w'] & E & Hd' & Hn' & Hk);
    cbn [fst snd] in *; rewrite ?Ec in *; [done..|].
  destruct (metadata_gone cfg parse user device (logged_out user device u, w) ids) as ([] & s2 & E2 & Hg);
    cbn [fst snd] in *; rewrite ?Ec in *; [done..|]. rewrite E in E2. injection E2 as <-.
  exists u', w'. done.
Qed.
End removal.

(** ** Who a token speaks for *)

Section speaks.
Context `{Engine, JsonParser, Users}.
Implicit Types (u : UserData) (user device token : string) (e : option N).

Definition token_data (t : UserTable) : Prop := token_table t ∨ t = token_userdeviceid.

Lemma tokens_ok_ext u u' :
  (∀ t k, token_data t → get_row u' t k = get_row u t k) → tokens_ok u → tokens_ok u'.
Proof.
  intros E Hok.
  assert (∀ k, get_row u' token_userdeviceid k = get_row u token_userdeviceid k) as E1 by (intros k; apply E; by right).
  assert (∀ t k, token_table t → get_row u' t k = get_row u t k) as E2 by (intros t k Ht; apply E; by left).
  split.
  - intros token val. rewrite E1. intros Hv.
    destruct (token_owned _ Hok token val Hv) as (user & device & e & Hi & He & -> & t & Ht & Hr).
    exists user, device, e. split_and!; [done..|]. exists t. split; [done|]. by rewrite E2.
  - intros t user device token Ht Hi. rewrite E2 by done. intros Hr.
    destruct (token_listed _ Hok t user device token Ht Hi Hr) as (e & He & Hv). exists e. by rewrite E1.
  - intros user device token Hi. rewrite !E2 by (by left + by right). apply (token_apart _ Hok); done.
Qed.

Lemma find_ext u u' token :
  get_row u' token_userdeviceid token = get_row u token_userdeviceid token → find_from_token u' token = find_from_token u token.
Proof. intros E. unfold find_from_token, token_row. by rewrite E. Qed.

(** A token that is found is listed for its device. *)
Lemma found_listed u token user device tp :
  tokens_ok u → find_from_token u token = Ok (user, device, tp) →
  ids_ok user device ∧ (∃ e, stamp_ok e ∧ get_row u token_userdeviceid token = Ok (token_bytes user device e) ∧ tp = (λ n, n * NANOS)%N <$> e)
  ∧ ∃ t, token_table t ∧ get_row u t (pair_key user device) = Ok token.
Proof.
  intros Hok Hf. destruct (get_row u token_userdeviceid token) as [val|er] eqn:Hg.
  - destruct (token_owned _ Hok token val Hg) as (user' & device' & e & Hi & He & -> & Ht).
    rewrite (find_read u token user' device' e Hi He Hg) in Hf. injection Hf as <- <- <-.
    split_and!; [done| |done]. by exists e.
  - rewrite (get_row_err _ _ _ _ Hg) in Hg. by rewrite (find_unread u token Hg) in Hf.
Qed.

Lemma none_found u user device :
  tokens_ok u → (∀ t, token_table t → get_row u t (pair_key user device) = Err NotFound) →
  ∀ token tp, find_from_token u token ≠ Ok (user, device, tp).
Proof.
  intros Hok Hno token tp Hf. destruct (found_listed u token user device tp Hok Hf) as (_ & _ & t & Ht & Hr).
  by rewrite (Hno t Ht) in Hr.
Qed.

Lemma without_others t user device u token user' device' tp :
  tokens_ok u → token_table t → ids_ok user device → (user', device') ≠ (user, device) →
  find_from_token (without_token t user device u) token = Ok (user', device', tp)
  ↔ find_from_token u token = Ok (user', device', tp).
Proof.
  intros Hok Ht Hi Hne. pose proof (token_table_other t Ht) as Hnt.
  destruct (decide (ok (get_row u t (pair_key user device)) = Some token)) as [Hd|Hd].
  - destruct (get_row u t (pair_key user device)) as [tk|] eqn:Hg; [|done]. injection Hd as ->.
    destruct (token_listed _ Hok t user device token Ht Hi Hg) as (e & He & Hv).
    rewrite (find_read u token user device e Hi He Hv), find_unread; [split; congruence|].
    rewrite without_token_find by done. by rewrite Hg, decide_True.
  - rewrite (find_ext u); [done|]. rewrite without_token_find by done. by rewrite decide_False.
Qed.

Lemma with_others t user device token e u token' :
  token_table t → token' ≠ token →
  find_from_token (with_token t user device token e u) token' = find_from_token u token'.
Proof. intros Ht Hne. apply find_ext. rewrite with_token_find by done. by rewrite decide_False. Qed.

Lemma with_found t user device token e u :
  token_table t → ids_ok user device → stamp_ok e →
  find_from_token (with_token t user device token e u) token = Ok (user, device, (λ n, n * NANOS)%N <$> e).
Proof. intros Ht Hi He. apply find_read; [done..|]. rewrite with_token_find by done. by rewrite decide_True. Qed.

Lemma logged_out_ok user device u : tokens_ok u → ids_ok user device → tokens_ok (logged_out user device u).
Proof. intros Hok Hi. apply without_token_ok; [apply without_token_ok|..]; try done; [by left|by right]. Qed.

Lemma logged_out_gone user device u t :
  token_table t → get_row (logged_out user device u) t (pair_key user device) = Err NotFound.
Proof.
  unfold logged_out. intros [-> | ->].
  - rewrite without_token_row by done. by apply without_token_gone.
  - by apply without_token_gone.
Qed.

Lemma logged_out_others user device u token user' device' tp :
  tokens_ok u → ids_ok user device → (user', device') ≠ (user, device) →
  find_from_token (logged_out user device u) token = Ok (user', device', tp) ↔ find_from_token u token = Ok (user', device', tp).
Proof.
  intros Hok Hi Hne. unfold logged_out. rewrite without_others; [|apply without_token_ok| | |]; try done; [|by left|by right].
  apply without_others; try done. by left.
Qed.
End speaks.

(** ** New tokens *)

Section new_tokens.
Context `{Engine, JsonParser, Users} {W : Type}.
Implicit Types (u : UserData) (user device token : string) (w : W) (now : N).

#[local] Arguments put_token : simpl never.

(** The second of a time from now. *)
Definition deadline now (secs : N) : N := ((now + secs * NANOS) / NANOS)%N.
Definition in_range (n : N) : Prop := (n <= 9223372036854775807)%N.

Lemma from_now now secs : in_range (deadline now secs) → timepoint_from_now now secs = Some (now + secs * NANOS)%N.
Proof. unfold in_range, deadline. intros Hr. unfold timepoint_from_now, timepoint. by rewrite (proj2 (N.leb_le _ _) Hr). Qed.

(** The expiry of the refresh token a device has. *)
Definition prior_stamp u user device : option N :=
  match get_row u userdeviceid_refresh (pair_key user device) with
  | Ok old => match token_row u old with Ok row => row.2 | Err _ => None end
  | Err _ => None
  end.

Lemma prior_found u user device :
  tokens_ok u → ids_ok user device →
  (∀ token, get_row u userdeviceid_refresh (pair_key user device) = Ok token → utf8_valid token = true) →
  find_refresh_token_expires_at u user device = (λ n, n * NANOS)%N <$> prior_stamp u user device
  ∧ stamp_ok (prior_stamp u user device).
Proof.
  intros Hok Hi Hutf. unfold find_refresh_token_expires_at, prior_stamp. rewrite qry_row.
  destruct (get_row u userdeviceid_refresh (pair_key user device)) as [old|] eqn:Hg; [|done].
  rewrite (deserialized_str_row (λ _, true) old (Hutf old eq_refl) eq_refl : read_string (Ok old) = Ok old). cbn [ok mbind option_bind].
  destruct (token_listed _ Hok userdeviceid_refresh user device old) as (e & He & Hv); [by right|done..|].
  rewrite (token_row_read u old user device e Hi He Hv). unfold deserialized. rewrite Hv.
  destruct (token_fields user device e Hi He) as (_ & _ & ->). cbn [ok mbind option_bind snd]. destruct e as [n|]; [|done].
  split; [|done]. unfold timepoint_from_epoch, timepoint. rewrite N.div_mul by done. by rewrite (proj2 (N.leb_le _ _) He).
Qed.

(** The expiry a new refresh token gets: none, the one before in absolute mode,
    or the time from now. *)
Definition next_stamp cfg now u user device : option N :=
  if (refresh_token_ttl cfg =? 0)%N then None
  else if refresh_token_idle_only cfg then Some (deadline now (refresh_token_ttl cfg))
  else Some (default (deadline now (refresh_token_ttl cfg)) (prior_stamp u user device)).

Definition stored_utf8 u user device : Prop :=
  ∀ token, get_row u userdeviceid_refresh (pair_key user device) = Ok token → utf8_valid token = true.

Lemma next_stamp_ok cfg now u user device :
  tokens_ok u → ids_ok user device → stored_utf8 u user device → in_range (deadline now (refresh_token_ttl cfg)) →
  stamp_ok (next_stamp cfg now u user device).
Proof.
  intros Hok Hi Hutf Hr. destruct (prior_found u user device Hok Hi Hutf) as [_ Hp]. unfold next_stamp.
  destruct (_ =? 0)%N, (refresh_token_idle_only cfg), (prior_stamp u user device); done.
Qed.

Lemma set_refresh_run cfg now user device token u w :
  tokens_ok u → ids_ok user device → stored_utf8 u user device → in_range (deadline now (refresh_token_ttl cfg)) →
  set_refresh_token cfg now user device token (u, w)
  = (Ok tt, (with_token userdeviceid_refresh user device token (next_stamp cfg now u user device)
              (without_token userdeviceid_refresh user device u), w)).
Proof.
  intros Hok Hi Hutf Hr. pose proof (next_stamp_ok cfg now u user device Hok Hi Hutf Hr) as Hs.
  destruct (prior_found u user device Hok Hi Hutf) as [Hp _].
  unfold set_refresh_token, bind at 1, tables. cbn [fst snd]. unfold bind at 1.
  destruct (ignoring_remove_run (W := W) userdeviceid_refresh user device u w) as [r E]. unfold remove_refresh_token. rewrite E. clear E.
  assert (∀ tp, tp * NANOS / NANOS = tp)%N as Hm by (intros; by apply N.div_mul).
  unfold bind. unfold next_stamp in *. destruct (refresh_token_ttl cfg =? 0)%N eqn:Ht; cbn [negb andb].
  { cbn. by rewrite put_token_run. }
  rewrite (from_now now _ Hr). destruct (refresh_token_idle_only cfg); cbn [negb].
  { cbn. by rewrite put_token_run. }
  rewrite Hp. destruct (prior_stamp u user device) as [n|]; cbn; rewrite ?Hm; by rewrite put_token_run.
Qed.
End new_tokens.

(** ** Properties of tokens *)

Section token_properties.
Context `{Engine, JsonParser, Users} {W : Type}.
Implicit Types (u : UserData) (user device token : string) (w : W) (now : N).

#[local] Arguments put_token : simpl never.

Definition unused u token : Prop := get_row u token_userdeviceid token = Err NotFound.

(** After the refresh token, if any, was replaced. *)
Definition refreshed cfg now user device (refresh : option string) u : UserData :=
  match refresh with
  | Some r => with_token userdeviceid_refresh user device r (next_stamp cfg now u user device)
                (without_token userdeviceid_refresh user device u)
  | None => u
  end.

Lemma unused_without t user device u token :
  token_table t → unused u token → unused (without_token t user device u) token.
Proof. intros Ht%token_table_other Hn. unfold unused. rewrite without_token_find by done. by case_decide. Qed.

Lemma refreshed_ok cfg now u user device refresh :
  tokens_ok u → ids_ok user device → stored_utf8 u user device → in_range (deadline now (refresh_token_ttl cfg)) →
  (∀ r, refresh = Some r → unused u r) → tokens_ok (refreshed cfg now user device refresh u).
Proof.
  intros Hok Hi Hutf Hr Hn. destruct refresh as [r|]; [|done]. apply with_token_ok; try done.
  - by apply without_token_ok; [|right|].
  - by right.
  - by apply next_stamp_ok.
  - by apply without_token_gone.
  - by apply unused_without; [right|apply Hn].
Qed.

Lemma refreshed_rows cfg now u user device refresh k :
  get_row (refreshed cfg now user device refresh u) userdeviceid_token k = get_row u userdeviceid_token k
  ∧ get_row (refreshed cfg now user device refresh u) userdeviceid_refresh (pair_key user device)
    = match refresh with Some r => Ok r | None => get_row u userdeviceid_refresh (pair_key user device) end.
Proof.
  destruct refresh as [r|]; [|done]. cbn [refreshed]. rewrite !with_token_row by (done || by right).
  rewrite decide_False by (intros [? _]; done). rewrite decide_True by done. by rewrite without_token_row.
Qed.

Lemma refreshed_others cfg now u user device refresh token' user' device' tp :
  tokens_ok u → ids_ok user device → stored_utf8 u user device → in_range (deadline now (refresh_token_ttl cfg)) →
  (∀ r, refresh = Some r → unused u r) → (user', device') ≠ (user, device) →
  find_from_token (refreshed cfg now user device refresh u) token' = Ok (user', device', tp)
  ↔ find_from_token u token' = Ok (user', device', tp).
Proof.
  intros Hok Hi Hutf Hr Hn Hne. destruct refresh as [r|]; [|done]. cbn [refreshed].
  destruct (decide (token' = r)) as [->|Hd].
  - rewrite with_found; [|by right|done|by apply next_stamp_ok]. rewrite find_unread by (by apply Hn). split; congruence.
  - rewrite with_others by (by right || done). by apply without_others; [|right|..].
Qed.

End token_properties.

(** ** Logging out *)

Section logging_out.
Context `{Engine, JsonParser, Users, Passwords, DeviceJson} {W : Type} `{!Around W}.
Implicit Types (u : UserData) (user device token : string) (w : W).

Lemma logged_out_row user device u t k :
  ¬ token_data t → get_row (logged_out user device u) t k = get_row u t k.
Proof.
  unfold token_data, token_table. intros Ht. unfold logged_out. rewrite !without_token_row; [done|..]; naive_solver.
Qed.

Lemma logged_out_token_row user device user' device' u t :
  token_table t → ids_ok user device → ids_ok user' device' → (user', device') ≠ (user, device) →
  get_row (logged_out user device u) t (pair_key user' device') = get_row u t (pair_key user' device').
Proof.
  intros Ht Hi Hi' Hne. assert (pair_key user' device' ≠ pair_key user device) as Hk
    by (intros E%ids_pair_inj; [|done..]; destruct E; congruence).
  unfold logged_out. by rewrite !without_token_row by (done || by apply token_table_other).
Qed.

Lemma removed_tokens cfg parse user device u w ids :
  tokens_ok u → ids_ok user device → data_inv (user_counter u) ids →
  (dispatched (counter (user_counter u)) + 1 <= U64_MAX)%N →
  ∃ u' w', remove_device cfg parse user device (u, w) = (Ok tt, (u', w'))
    ∧ data_inv (user_counter u') ids
    ∧ (dispatched (counter (user_counter u')) <= dispatched (counter (user_counter u)) + 1)%N
    ∧ tokens_ok u'
    ∧ get_row u' userdeviceid_metadata (pair_key user device) = Err NotFound
    ∧ (∀ t k, ¬ token_data t → unrelated user device t k → get_row u' t k = get_row u t k)
    ∧ (∀ t k, token_data t → get_row u' t k = get_row (logged_out user device u) t k).
Proof.
  intros Hok Hi Hd Hn. destruct (remove_device_run cfg parse user device u w ids Hd Hn) as (u' & w' & E & Hd' & Hn' & Hg & Hk).
  assert (∀ t k, token_data t → get_row u' t k = get_row (logged_out user device u) t k) as Ht.
  { intros t k Htd. apply Hk. destruct Htd as [[-> | ->]| ->]; done. }
  exists u', w'. split_and!; try done.
  - eapply tokens_ok_ext; [exact Ht|]. by apply logged_out_ok.
  - intros t k Hnt Hun. rewrite Hk by done. by apply logged_out_row.
Qed.

(** Logging a device out leaves no token that speaks for it, and no device; what
    speaks for another device still does, and other devices stay. *)
Theorem remove_device_exact cfg parse user device u w ids :
  tokens_ok u → ids_ok user device → data_inv (user_counter u) ids →
  (dispatched (counter (user_counter u)) + 1 <= U64_MAX)%N →
  ∃ u' w', remove_device cfg parse user device (u, w) = (Ok tt, (u', w'))
    ∧ tokens_ok u'
    ∧ device_exists u' user device = false
    ∧ (∀ token tp, find_from_token u' token ≠ Ok (user, device, tp))
    ∧ (∀ token user' device' tp, (user', device') ≠ (user, device) →
        find_from_token u' token = Ok (user', device', tp) ↔ find_from_token u token = Ok (user', device', tp))
    ∧ (∀ user' device', ids_ok user' device' → (user', device') ≠ (user, device) →
        device_exists u' user' device' = device_exists u user' device')
    ∧ ∀ other, get_row u' userid_password other = get_row u userid_password other.
Proof.
  intros Hok Hi Hd Hn.
  destruct (removed_tokens cfg parse user device u w ids Hok Hi Hd Hn) as (u' & w' & E & _ & _ & Hok' & Hg & Hrow & Htok).
  exists u', w'. split_and!; [done..| | | | |].
  - unfold device_exists, contains_pair. by rewrite qry_row, Hg.
  - apply none_found; [done|]. intros t Ht. rewrite Htok by by left. by apply logged_out_gone.
  - intros token user' device' tp Hne. rewrite (find_ext (logged_out user device u)); [by apply logged_out_others|].
    apply Htok. by right.
  - intros user' device' Hi' Hne. unfold device_exists, contains_pair. rewrite !qry_row, Hrow; [done| |].
    + unfold token_data, token_table. naive_solver.
    + cbn. intros Ek%ids_pair_inj; [|done..]. destruct Ek. congruence.
  - intros other. apply Hrow; [|done]. unfold token_data, token_table. naive_solver.
Qed.

Lemma remove_each cfg parse user l : ∀ u w ids,
  tokens_ok u → Forall (ids_ok user) l → data_inv (user_counter u) ids →
  (dispatched (counter (user_counter u)) + N.of_nat (length l) <= U64_MAX)%N →
  ∃ u' w', for_each (remove_device cfg parse user) l (u, w) = (Ok tt, (u', w'))
    ∧ tokens_ok u'
    ∧ (∀ t device, token_table t → ids_ok user device →
        get_row u' t (pair_key user device)
        = if decide (device ∈ l) then Err NotFound else get_row u t (pair_key user device))
    ∧ (∀ token user' device tp, user' ≠ user →
        find_from_token u' token = Ok (user', device, tp) ↔ find_from_token u token = Ok (user', device, tp))
    ∧ ∀ other, get_row u' userid_password other = get_row u userid_password other.
Proof.
  induction l as [|d l IH]; intros u w ids Hok Hl Hd Hn.
  { exists u, w. split_and!; [done..| |done|done]. intros t device _ _. by rewrite decide_False by set_solver. }
  apply Forall_cons in Hl as [Hi Hl]. cbn [length] in Hn.
  destruct (removed_tokens cfg parse user d u w ids Hok Hi Hd) as (u1 & w1 & E1 & Hd1 & Hn1 & Hok1 & _ & Hrow & Htok); [lia|].
  destruct (IH u1 w1 ids Hok1 Hl Hd1) as (u2 & w2 & E2 & Hok2 & Hgone & Hoth & Hpw); [lia|].
  exists u2, w2. cbn [for_each]. unfold bind at 1. rewrite E1, E2. split_and!; [done..| | |].
  - intros t device Ht Hi'. rewrite Hgone by done. destruct (decide (device ∈ l)) as [Hin|Hin].
    { by rewrite decide_True by (by right). }
    rewrite Htok by by left. destruct (decide (device = d)) as [->|Hne].
    + rewrite decide_True by (by left). by apply logged_out_gone.
    + rewrite decide_False by (by intros [?|?]%elem_of_cons). apply logged_out_token_row; try done. congruence.
  - intros token user' device tp Hne. rewrite Hoth by done. rewrite (find_ext (logged_out user d u)) by (apply Htok; by right).
    apply logged_out_others; [done..|congruence].
  - intros other. rewrite Hpw. apply Hrow; [|done]. unfold token_data, token_table. naive_solver.
Qed.

(** Every device that has a token has its row. *)
Definition tokens_known u : Prop :=
  ∀ t user device token, token_table t → ids_ok user device → get_row u t (pair_key user device) = Ok token →
  related (user_tables u userdeviceid_metadata) user device.

(** C15.  A deactivated account is locked out: no token speaks for it on any device,
    no password verifies, and it is not active; tokens and passwords of others
    are as before. *)
Theorem deactivate_account_exact cfg parse revoke user u w ids :
  tokens_ok u → tokens_known u → utf8_valid user = true → user_id_ok user = true →
  pair_table (user_tables u userdeviceid_metadata) user_id_ok (λ _, true) →
  data_inv (user_counter u) ids →
  (∀ l, all_device_ids u user = Ok l → (dispatched (counter (user_counter u)) + N.of_nat (length l) <= U64_MAX)%N) →
  ∃ u' w', deactivate_account cfg parse revoke user (u, w) = (Ok tt, (u', w'))
    ∧ tokens_ok u'
    ∧ (∀ token device tp, find_from_token u' token ≠ Ok (user, device, tp))
    ∧ is_active u' user = false
    ∧ (∃ h, password_hash u' user = Ok h ∧ ∀ p, verify_password p h = false)
    ∧ ∀ token user' device tp, user' ≠ user →
        (find_from_token u' token = Ok (user', device, tp) ↔ find_from_token u token = Ok (user', device, tp))
        ∧ get_row u' userid_password user' = get_row u userid_password user'.
Proof.
  intros Hok Hknown Hu Ha Hpt Hd Hn.
  destruct (seconds_exact (user_tables u userdeviceid_metadata) user_id_ok (λ _, true) user Hpt Hu)
    as (l & El & _ & _ & Hin & Hl).
  destruct (remove_each cfg parse user l u (revoke w) ids) as (u1 & w1 & E & Hok1 & Hgone & Hoth & Hpw); [done| |done|by apply Hn|].
  { eapply Forall_impl; [exact Hl|]. by intros d [Hd' _]. }
  exists (set_row userid_password user PASSWORD_DISABLED u1), w1.
  assert (∀ t k, t ≠ userid_password → get_row (set_row userid_password user PASSWORD_DISABLED u1) t k = get_row u1 t k) as Hset
    by (intros t k Ht; rewrite get_set_row, decide_False by tauto; done).
  assert (tokens_ok (set_row userid_password user PASSWORD_DISABLED u1)) as Hok2.
  { eapply tokens_ok_ext; [|exact Hok1]. intros t k Htd. apply Hset. destruct Htd as [[-> | ->]| ->]; done. }
  pose proof (set_password_exact u1 user None) as Hpass. cbn in Hpass. destruct Hpass as (_ & Hact & _ & Hhash & _).
  split_and!; [..|done|].
  - unfold deactivate_account, bind at 1, bind at 1. unfold remove_devices, bind at 1. cbn [fst snd].
    unfold all_device_ids. rewrite El. cbn [udb map_err]. by rewrite E.
  - done.
  - intros token device tp Hf. destruct (found_listed _ _ _ _ _ Hok2 Hf) as (Hi & _ & t & Ht & Hr).
    rewrite Hset in Hr by (by destruct Ht as [-> | ->]). rewrite Hgone in Hr by done.
    destruct (decide (device ∈ l)) as [|Hnin]; [done|]. apply Hnin, Hin. by eapply Hknown.
  - done.
  - intros token user' device tp Hne. rewrite (find_ext u1) by by apply Hset. split; [by apply Hoth|].
    rewrite get_set_row, decide_False by tauto. apply Hpw.
Qed.
End logging_out.

(** ** An example *)

Module DevicesExample.
(** A device is written as its name; nobody is in a room or has a pusher. *)
#[export] Instance plain : DeviceJson := {|
  print_device d := device_id d;
  parse_device t := Some (mkDevice t None None None);
|}.

#[export] Instance alone : Around unit := {|
  rooms_joined_of _ _ := [];
  is_encrypted_room _ _ := false;
  get_device_pushkeys _ _ _ := [];
  delete_pusher w _ _ := w;
|}.

Definition access : string := "0123456789abcdef0123456789abcdef".
Definition user : string := "@a:ex.com".
End DevicesExample.

Section device_witnesses.
#[local] Existing Instance ordered_engine.
#[local] Existing Instance ShortExample.json.
#[local] Existing Instance MembersExample.users.
Import UsersExample DevicesExample.

Lemma no_tokens : tokens_ok no_users.
Proof. split; intros *; rewrite ?no_rows; done. Qed.

Lemma example_ids : ids_ok user "DEV".
Proof. split_and!; reflexivity. Qed.


(** A user with one device, logged in. *)
Definition logged_in : UserData :=
  set_row userdeviceid_metadata (pair_key user "DEV") "DEV"
    (set_row userid_password user "$pw" (with_token userdeviceid_token user "DEV" access None no_users)).

Lemma logged_in_ok : tokens_ok logged_in.
Proof.
  apply (tokens_ok_ext (with_token userdeviceid_token user "DEV" access None no_users)).
  - intros t k Ht. unfold logged_in. rewrite !get_set_row, !decide_False; [done|..]; intros [-> _]; by destruct Ht as [[|]|].
  - apply with_token_ok; [exact no_tokens|by left|exact example_ids|done|reflexivity..].
Qed.

Lemma logged_in_metadata k : is_Some (table_rows (user_tables logged_in userdeviceid_metadata) !! k) ↔ k = pair_key user "DEV".
Proof.
  change (user_tables logged_in userdeviceid_metadata) with (<[pair_key user "DEV" := "DEV"]> (∅ : gmap string string)).
  cbn [table_rows ordered_engine]. rewrite lookup_insert_is_Some, lookup_empty. split; [intros [?|[_ [? ?]]]; [done|done]|by left].
Qed.

Lemma logged_in_access : find_from_token logged_in access = Ok (user, "DEV", None).
Proof. vm_compute. reflexivity. Qed.

Lemma logged_in_devices : all_device_ids logged_in user = Ok ["DEV"].
Proof. vm_compute. reflexivity. Qed.

Lemma logged_in_known : tokens_known logged_in.
Proof.
  intros t user' device' token Ht Hi Hr. apply logged_in_metadata.
  destruct (token_listed _ logged_in_ok t user' device' token Ht Hi Hr) as (e & He & Hv).
  apply (find_read _ _ _ _ e Hi He) in Hv as Hf.
  destruct (decide (token = access)) as [->|Hne].
  - rewrite logged_in_access in Hf. by injection Hf as <- <- _.
  - exfalso. revert Hv. unfold logged_in. rewrite !get_set_row, !decide_False by (intros [? _]; done).
    rewrite with_token_find by (by left). rewrite decide_False by done. by rewrite no_rows.
Qed.

Lemma deactivate_account_exact_witness :
  ∃ u' w', deactivate_account config (λ _, None) (λ w, w) user (logged_in, tt) = (Ok tt, (u', w'))
    ∧ find_from_token logged_in access = Ok (user, "DEV", None)
    ∧ (∀ token device tp, find_from_token u' token ≠ Ok (user, device, tp))
    ∧ is_active u' user = false.
Proof.
  destruct (deactivate_account_exact (W := unit) config (λ _, None) (λ w, w) user logged_in tt ∅)
    as (u' & w' & E & _ & Hno & Ha & _).
  - exact logged_in_ok.
  - exact logged_in_known.
  - reflexivity.
  - reflexivity.
  - intros k ->%logged_in_metadata. exists user, "DEV". by vm_compute.
  - exact no_users_counter.
  - intros l. rewrite logged_in_devices. intros [= <-]. vm_compute. congruence.
  - exists u', w'. split; [exact E|]. split; [exact logged_in_access|]. exact (conj Hno Ha).
Defined.
End device_witnesses.
