(* ===== verification/ToDevice.v ===== *)
(** * The queue of events to a device ([src/src/service/users/device.rs])

    What [Devices.add_to_device_event], [get_to_device_events] and
    [remove_to_device_events] do to the queue of a device: events are read in
    the order they were added, and acknowledging a number drops exactly the
    events up to it, of this device only. *)

From S2P Require Import Prelude Effects Bytes Slices DbCodec DbMap Pairs Counter Short PduId Scans MemberCache Memberships Accounts Devices.

Section queue.
Context `{Engine, JsonParser, Users} {W : Type}.
Implicit Types (u : UserData) (user device event : string) (n : N) (w : W).

Definition queue_prefix user device : string := pair_key user device +:+ sep_str.
Definition queue_key user device n : string := Scans.counted (queue_prefix user device) n "".

Lemma queue_key_ser user device n : serialize None (event_ser user device n) = Ok (queue_key user device n).
Proof.
  unfold serialize, serialize_to_vec, event_ser. cbn. unfold queue_key, Scans.counted, queue_prefix, pair_key. cbn.
  f_equal. by rewrite !append_nil_r, <-!append_assoc.
Qed.

Lemma queue_key_record user device n : queue_key user device n = record_bytes [user; device; u64_to_be_bytes n].
Proof. unfold queue_key, Scans.counted, queue_prefix, pair_key. cbn. by rewrite !append_nil_r, <-!append_assoc. Qed.

Lemma queue_prefix_disjoint user device user' device' (s : string) :
  utf8_valid user = true → utf8_valid device = true → utf8_valid user' = true → utf8_valid device' = true →
  String.prefix (queue_prefix user device) (queue_prefix user' device' +:+ s) = true → user' = user ∧ device' = device.
Proof.
  unfold queue_prefix, pair_key. cbn [record_bytes tail_bytes]. rewrite !append_nil_r. intros Hu Hd Hu' Hd' [t E]%prefix_spec.
  rewrite <-!append_assoc in E. apply no_sep_split in E as [-> E]; [|by apply utf8_no_sep..|right; by eexists|right; by eexists].
  cbn in E. injection E as E. apply no_sep_split in E as [-> _]; [done|by apply utf8_no_sep..|right; by eexists|right; by eexists].
Qed.

Lemma device_queue_key_inj user device n user' device' n' :
  ids_ok user device → ids_ok user' device' → (n <= U64_MAX)%N → (n' <= U64_MAX)%N →
  queue_key user device n = queue_key user' device' n' → user = user' ∧ device = device' ∧ n = n'.
Proof.
  intros (Hu & _ & Hd) (Hu' & _ & Hd') Hn Hn' E.
  destruct (queue_prefix_disjoint user' device' user device (u64_to_be_bytes n +:+ "")) as [-> ->]; [done..| |].
  { change (String.prefix (queue_prefix user' device') (queue_key user device n) = true). rewrite E. apply counted_prefix. }
  by apply counted_inj in E as [-> _].
Qed.

(** Every row is an event of a device, with a number and its text. *)
Definition queue_ok u : Prop :=
  ∀ key event, get_row u todeviceid_events key = Ok event →
  ∃ user device n, key = queue_key user device n ∧ ids_ok user device ∧ (n <= U64_MAX)%N ∧ utf8_valid event = true.

Lemma queue_key_read user device n :
  ids_ok user device → (n <= U64_MAX)%N →
  deserialize_slice EventKey (queue_key user device n) = Ok (VTuple [VStr user; VStr device; VU64 n]).
Proof.
  intros (Hu & Ha & Hd) Hn. rewrite queue_key_record.
  destruct (tuple_roundtrip json_parses [DStr user_id_ok; DStr (λ _, true); DU64] _ _ _ [] []
    (fields_cons _ _ _ _ _ _ _ _ _ (field_str _ false _ user Hu Ha)
      (fields_cons _ _ _ _ _ _ _ _ _ (field_str _ false (λ _, true) device Hd eq_refl)
        (fields_last _ _ _ _ _ (field_u64 _ true n Hn))))) as (_ & st & Hde & _); [constructor|].
  unfold deserialize_slice, EventKey. cbn [app] in Hde. by rewrite Hde.
Qed.

(** What a scan reads of a row. *)
Definition read_event (e : string * string) : option (string * string * N * string) :=
  ok (deserialize_keyval EventKey (DStr (λ _, true)) e) ≫= event_row.
Definition read_key (e : string * string) : option (string * string * N * unit) :=
  k ← ok (deserialize_slice EventKey e.1) ≫= event_key; Some (k, tt).

Lemma get_row_rows u t k v : get_row u t k = Ok v ↔ table_rows (user_tables u t) !! k = Some v.
Proof.
  unfold get_row, Map_get, handle_from. rewrite table_get_rows.
  destruct (table_rows (user_tables u t) !! k); cbn; split; congruence.
Qed.

Lemma event_read u user device n event :
  ids_ok user device → (n <= U64_MAX)%N → utf8_valid event = true →
  read_event (queue_key user device n, event) = Some (user, device, n, event)
  ∧ read_key (queue_key user device n, event) = Some (user, device, n, tt).
Proof.
  intros Hi Hn Hu. unfold read_event, read_key, deserialize_keyval. cbn [fst snd].
  rewrite queue_key_read by done. by rewrite (deserialize_string (λ _, true) event Hu eq_refl).
Qed.

(** The rows of the queue as a scan decodes them. *)
Lemma rows_read u user device (e : string * string) :
  queue_ok u → ids_ok user device → table_rows (user_tables u todeviceid_events) !! e.1 = Some e.2 →
  ∃ user' device' n, read_event e = Some (user', device', n, e.2) ∧ read_key e = Some (user', device', n, tt)
    ∧ e.1 = queue_key user' device' n ∧ ids_ok user' device' ∧ (n <= U64_MAX)%N
    ∧ (bool_decide ((user', device') = (user, device)) = true ↔ String.prefix (queue_prefix user device) e.1 = true).
Proof.
  intros Hok Hi Hr. destruct e as [key event]. cbn [fst snd] in *.
  destruct (Hok key event) as (user' & device' & n & -> & Hi' & Hn & Hu); [by apply get_row_rows|].
  exists user', device', n. destruct (event_read u user' device' n event Hi' Hn Hu) as [-> ->]. split_and!; [done..|].
  rewrite bool_decide_eq_true. split; [intros [= -> ->]; apply counted_prefix|].
  intros Hp. destruct Hi as (? & _ & ?), Hi' as (? & _ & ?).
  by destruct (queue_prefix_disjoint user device user' device' (u64_to_be_bytes n +:+ "")) as [-> ->].
Qed.

Lemma omap_ignore_err {A B C} (g : A → Result DbError B) (f : B → option C) (l : list A) :
  omap f (ignore_err (g <$> l)) = omap (λ a, ok (g a) ≫= f) l.
Proof.
  unfold ignore_err. induction l as [|a l IH]; [done|]. csimpl. destruct (g a) as [b|]; csimpl; [|done]. by rewrite IH.
Qed.

(** A number within the bounds of a request. *)
Definition wanted (since to : option N) n : Prop :=
  (∀ s, since = Some s → (s < n)%N) ∧ (∀ t, to = Some t → (n <= t)%N).

Lemma queue_onward dir user device n m :
  (n <= U64_MAX)%N → (m <= U64_MAX)%N → onward dir (queue_key user device n) (queue_key user device m) ↔ not_before dir n m.
Proof.
  intros Hn Hm. unfold queue_key. rewrite counted_onward by done. split.
  - intros [Hl|[-> _]]; destruct dir; cbn in *; lia.
  - intros Hl. destruct (decide (n = m)) as [->|Hne]; [right; split; [done|by destruct dir]|left]. destruct dir; cbn in *; lia.
Qed.

(** The events of a device on from a number and within a bound, in order. *)
Lemma queue_scan {V} dir u user device n0 (bound : N → bool) (read : string * string → option (string * string * N * V)) (value : string → V) :
  queue_ok u → ids_ok user device → (n0 <= U64_MAX)%N → (∀ n m, not_before dir n m → bound m = true → bound n = true) →
  (∀ e user' device' n, read_key e = Some (user', device', n, tt) → table_rows (user_tables u todeviceid_events) !! e.1 = Some e.2 →
    read e = Some (user', device', n, value e.2)) →
  let found := take_while (λ x, bool_decide (x.1.1 = (user, device)) && bound x.1.2)
                 (omap read (scan_rows dir (user_tables u todeviceid_events) (queue_key user device n0))) in
  StronglySorted (λ x y, later dir x.1.2 y.1.2) found
  ∧ ∀ x, x ∈ found ↔ x.1.1 = (user, device) ∧ (x.1.2 <= U64_MAX)%N ∧ not_before dir n0 x.1.2 ∧ bound x.1.2 = true
      ∧ ∃ event, get_row u todeviceid_events (queue_key user device x.1.2) = Ok event ∧ x.2 = value event.
Proof.
  intros Hok Hi Hn0 Hb Hread found. set (tb := user_tables u todeviceid_events) in *.
  assert (∀ e, table_rows tb !! e.1 = Some e.2 → ∃ user' device' n, read e = Some (user', device', n, value e.2)
    ∧ e.1 = queue_key user' device' n ∧ ids_ok user' device' ∧ (n <= U64_MAX)%N
    ∧ (bool_decide ((user', device') = (user, device)) = true ↔ String.prefix (queue_prefix user device) e.1 = true)) as Hrows.
  { intros e He. destruct (rows_read u user device e Hok Hi He) as (user' & device' & n & _ & Hk & Hrest).
    exists user', device', n. split; [by apply Hread|done]. }
  destruct (counted_scan dir tb (queue_prefix user device) n0 "" read (λ k, bool_decide (k = (user, device))) bound)
    as (rows & Hf & ND & Hs & Hin); [done..| |].
  { intros e k n v He Hr. destruct (Hrows e He) as (user' & device' & n' & Hr' & Ek & Hi' & Hn' & Hp).
    rewrite Hr in Hr'. injection Hr' as -> -> ->. split_and!; [done..|]. intros [= -> ->]%bool_decide_eq_true. by exists "". }
  assert (∀ e x, e ∈ rows → read e = Some x → x.1.1 = (user, device) ∧ (x.1.2 <= U64_MAX)%N ∧ e.1 = queue_key user device x.1.2
    ∧ x.2 = value e.2) as Hmine.
  { intros e x He Hr. apply Hin in He as (Hrow & _ & k & n & v & Hr' & Hk & _). rewrite Hr in Hr'. injection Hr' as ->.
    destruct (Hrows e Hrow) as (user' & device' & n' & Hr' & Ek & Hi' & Hn' & _). rewrite Hr in Hr'. injection Hr' as -> -> ->.
    apply bool_decide_eq_true in Hk as [= -> ->]. done. }
  change (Forall2 (λ e x, read e = Some x) rows found) in Hf. split.
  - eapply Forall2_sorted; [exact Hf|exact (rows_apart dir rows Hs ND)|]. intros e e' x x' He He' [Ho Hne] Hx Hx'.
    destruct (Hmine e x He Hx) as (_ & Hn & Ek & _), (Hmine e' x' He' Hx') as (_ & Hn' & Ek' & _).
    unfold row_onward in Ho. rewrite Ek, Ek' in Ho, Hne. apply queue_onward in Ho; [|done..].
    assert (x.1.2 ≠ x'.1.2) by congruence. destruct dir; cbn in *; lia.
  - intros x. split.
    + intros [i Hi']%list_elem_of_lookup. destruct (Forall2_lookup_r _ _ _ _ _ Hf Hi') as (e & He%list_elem_of_lookup_2 & Hx).
      destruct (Hmine e x He Hx) as (Ex & Hn & Ek & Ev). apply Hin in He as (Hrow & Ho & k & n & v & Hr & _ & Hbn).
      rewrite Hx in Hr. injection Hr as ->. cbn [fst snd] in *. rewrite Ek in Ho, Hrow. apply queue_onward in Ho; [|done..].
      split_and!; [done..|]. exists e.2. split; [by apply get_row_rows|done].
    + destruct x as [[k n] v]. cbn [fst snd]. intros (-> & Hn & Hnb & Hbn & event & Hrow%get_row_rows & ->).
      set (e := (queue_key user device n, event)).
      destruct (Hrows e Hrow) as (user' & device' & n' & Hr & Ek & Hi' & Hn' & _).
      apply device_queue_key_inj in Ek as (<- & <- & <-); [|done..].
      assert (e ∈ rows) as [i Hi'']%list_elem_of_lookup.
      { apply Hin. split_and!; [done|by apply queue_onward|]. exists (user, device), n, (value event). split_and!; [done|by apply bool_decide_eq_true|done]. }
      destruct (Forall2_lookup_l _ _ _ _ _ Hf Hi'') as (x & Hx & Hr'). rewrite Hr in Hr'. injection Hr' as <-. by eapply list_elem_of_lookup_2.
Qed.

Lemma get_events_scan u user device since to :
  queue_ok u → ids_ok user device → (∀ s, since = Some s → (s < U64_MAX)%N) →
  ∃ l, get_to_device_events u user device since to = Ok l
    ∧ StronglySorted (λ x y, (x.1 < y.1)%N) l
    ∧ ∀ n event, (n, event) ∈ l ↔ get_row u todeviceid_events (queue_key user device n) = Ok event ∧ (n <= U64_MAX)%N ∧ wanted since to n.
Proof.
  intros Hok Hi Hs. set (from := match since with Some n => u64_saturating_add n 1 | None => 0%N end).
  set (bound := λ n, match to with Some t => (n <=? t)%N | None => true end).
  assert (from <= U64_MAX)%N as Hfrom by (unfold from, u64_saturating_add; destruct since; lia).
  destruct (queue_scan Forward u user device from bound read_event (λ event, event)) as [Hsort Hin]; [done..| | |].
  { intros n m Hnm. unfold bound. destruct to; [|done]. rewrite !N.leb_le. cbn in Hnm. lia. }
  { intros e user' device' n Hk Hrow. destruct (rows_read u user device e Hok Hi Hrow) as (? & ? & ? & Hr & Hk' & _).
    rewrite Hk in Hk'. by injection Hk' as <- <- <-. }
  set (found := take_while _ _) in Hsort, Hin.
  exists ((λ e : string * string * N * string, (e.1.2, e.2)) <$> found). split_and!.
  - unfold get_to_device_events, stream_from, stream_from_raw, serialize_key. fold from. rewrite queue_key_ser.
    cbn [expect map_err]. by rewrite omap_ignore_err.
  - clear -Hsort. clearbody found. induction Hsort as [|x l Hl IH Hall]; csimpl; constructor; [done|]. by apply Forall_fmap.
  - intros n event. rewrite list_elem_of_fmap. unfold wanted. transitivity ((user, device, n, event) ∈ found).
    + split; [|intros Hx; by exists (user, device, n, event)]. intros ([[k n'] event'] & [= -> ->] & Hx). pose proof (proj1 (Hin _) Hx) as (Ek & _). cbn in Ek. by subst k.
    + rewrite Hin. cbn [fst snd not_before]. unfold bound, from, u64_saturating_add. split.
      * intros (_ & Hn & Hf & Hb & ev & Hrow & ->). split_and!; [done..| |].
        -- intros s ->. specialize (Hs s eq_refl). lia.
        -- intros t ->. by apply N.leb_le.
      * intros (Hrow & Hn & Hsn & Htn). split_and!; [done|done| | |by exists event].
        -- destruct since as [s|]; [specialize (Hsn s eq_refl); lia|lia].
        -- destruct to as [t|]; [by apply N.leb_le, Htn|done].
Qed.
End queue.

Section lifecycle.
Context `{Engine, JsonParser, Users} {W : Type}.
Implicit Types (u : UserData) (user device event : string) (n : N) (w : W).

Definition numbered_before (x y : N * string) : Prop := (x.1 < y.1)%N.

(** Lists in the order of the numbers are equal when they have the same members. *)
Lemma numbered_rows_unique (l k : list (N * string)) :
  StronglySorted numbered_before l → StronglySorted numbered_before k → (∀ x, x ∈ l ↔ x ∈ k) → l = k.
Proof.
  assert (∀ l : list (N * string), StronglySorted numbered_before l → NoDup l) as ND.
  { induction 1 as [|x l' Hs IH Hall]; constructor; [|done]. intros Hx. rewrite Forall_forall in Hall.
    specialize (Hall x Hx). unfold numbered_before in Hall. lia. }
  intros Hl Hk E. eapply (StronglySorted_unique_strong numbered_before); [|exact Hl|exact Hk|].
  - intros x y _ _ Hxy Hyx. unfold numbered_before in *. lia.
  - apply NoDup_Permutation; [by apply ND..|done].
Qed.

Lemma drop_rows_get t (keys : list string) u t' k :
  get_row (foldl (λ u key, drop_row t key u) u keys) t' k
  = if decide (t' = t ∧ k ∈ keys) then Err NotFound else get_row u t' k.
Proof.
  revert u. induction keys as [|k' keys IH]; intros u; cbn [foldl]; [by rewrite decide_False by set_solver|].
  rewrite IH, get_drop_row. destruct (decide (t' = t ∧ k ∈ keys)) as [[-> Hk]|Hn].
  { by rewrite decide_True by (split; [done|by right]). }
  destruct (decide (t' = t ∧ k = k')) as [[-> ->]|Hn'].
  { by rewrite decide_True by (split; [done|by left]). }
  rewrite decide_False; [done|]. intros [-> [->|Hk]%elem_of_cons]; tauto.
Qed.

Lemma del_events_run (l : list (string * string * N)) u w :
  for_each (λ k : string * string * N, trying (change todeviceid_events (λ tb, del tb (event_ser k.1.1 k.1.2 k.2)))) l (u, w)
  = (Ok tt, (foldl (λ u key, drop_row todeviceid_events key u) u ((λ k, queue_key k.1.1 k.1.2 k.2) <$> l), w)).
Proof.
  revert u. induction l as [|k l IH]; intros u; [done|]. cbn [for_each]. unfold bind at 1, trying at 1. cbn [fst snd].
  rewrite (with_get_row todeviceid_events _ u (Map_remove (user_tables u todeviceid_events) (queue_key k.1.1 k.1.2 k.2)));
    [apply IH|]. unfold del, bdel. by rewrite queue_key_ser.
Qed.

Lemma read_keys_fmap (rows : list (string * string)) :
  omap read_key rows = (λ k, (k, tt)) <$> omap (λ key, ok (deserialize_slice EventKey key) ≫= event_key) rows.*1.
Proof.
  induction rows as [|e rows IH]; [done|]. csimpl. unfold read_key at 1.
  destruct (ok (deserialize_slice EventKey e.1) ≫= event_key); csimpl; by rewrite IH.
Qed.

Lemma take_while_ext {A} (p q : A → bool) (l : list A) : (∀ x, p x = q x) → take_while p l = take_while q l.
Proof. intros E. induction l as [|x l IH]; [done|]. cbn. by rewrite E, IH. Qed.

(** Acknowledging drops the rows of this device up to the number. *)
Lemma remove_events_run user device (until : option N) u w :
  queue_ok u → ids_ok user device → (∀ n, until = Some n → (n <= U64_MAX)%N) →
  ∃ u' (keys : list string), remove_to_device_events user device until (u, w) = (Ok tt, (u', w)) ∧ user_counter u' = user_counter u
    ∧ (∀ t k, get_row u' t k = if decide (t = todeviceid_events ∧ k ∈ keys) then Err NotFound else get_row u t k)
    ∧ ∀ k, k ∈ keys ↔ ∃ n event, k = queue_key user device n ∧ (n <= default U64_MAX until)%N ∧ (n <= U64_MAX)%N
        ∧ get_row u todeviceid_events k = Ok event.
Proof.
  intros Hok Hi Hu. assert (default U64_MAX until <= U64_MAX)%N as Hm by (destruct until as [n|]; [by apply Hu|done]).
  destruct (queue_scan Backward u user device (default U64_MAX until) (λ _, true) read_key (λ _, tt)) as [_ Hin]; [done..| |].
  { intros e user' device' n Hk _. done. }
  cbn [scan_rows] in Hin. rewrite read_keys_fmap, take_while_fmap in Hin.
  set (found := take_while _ _) in Hin.
  exists (foldl (λ u key, drop_row todeviceid_events key u) u ((λ k, queue_key k.1.1 k.1.2 k.2) <$> found)),
    ((λ k, queue_key k.1.1 k.1.2 k.2) <$> found). split_and!.
  - unfold remove_to_device_events, bind, rev_keys_from, rev_keys_from_raw, serialize_key. cbn [fst snd]. rewrite queue_key_ser.
    cbn [expect map_err udb]. rewrite omap_ignore_err, <-del_events_run. apply (f_equal (λ l, for_each _ l (u, w))).
    apply take_while_ext. intros k. cbn. by rewrite andb_true_r.
  - apply drop_rows_counter.
  - intros t k. apply drop_rows_get.
  - intros k. rewrite list_elem_of_fmap. split.
    + intros ([[user' device'] n] & -> & Hx). pose proof (proj1 (Hin (user', device', n, tt))) as Hx'.
      cbn [fst snd not_before] in Hx'. destruct Hx' as ([= -> ->] & Hn & Hnb & _ & event & Hr & _); [apply list_elem_of_fmap; by eexists|].
      by exists n, event.
    + intros (n & event & -> & Hn & Hn' & Hr). exists (user, device, n). split; [done|].
      pose proof (proj2 (Hin (user, device, n, tt))) as Hx. cbn [fst snd not_before] in Hx.
      apply list_elem_of_fmap in Hx as ([[? ?] ?] & [= -> -> ->] & Hx); [done|]. split_and!; [done..|by exists event].
Qed.

Lemma queue_ok_drop u u' (keys : list string) :
  (∀ t k, get_row u' t k = if decide (t = todeviceid_events ∧ k ∈ keys) then Err NotFound else get_row u t k) →
  queue_ok u → queue_ok u'.
Proof. intros E Hok key event. rewrite E. case_decide; [done|]. apply Hok. Qed.

(** A number that was not drawn yet is not in the queue. *)
Definition queue_drawn u : Prop :=
  ∀ user device n event, ids_ok user device → (n <= U64_MAX)%N →
  get_row u todeviceid_events (queue_key user device n) = Ok event → (n <= dispatched (counter (user_counter u)))%N.

Lemma add_event_run user device event u w ids :
  data_inv (user_counter u) ids → (dispatched (counter (user_counter u)) < U64_MAX)%N →
  ∃ u', add_to_device_event user device event (u, w) = (Ok tt, (u', w))
    ∧ (∀ t k, get_row u' t k = if decide (t = todeviceid_events ∧ k = queue_key user device (dispatched (counter (user_counter u)) + 1))
                               then Ok event else get_row u t k)
    ∧ dispatched (counter (user_counter u')) = (dispatched (counter (user_counter u)) + 1)%N
    ∧ data_inv (user_counter u') ids.
Proof.
  intros Hd Hn. destruct (next_count_inv (user_counter u) ids Hd Hn) as (p & d & E & Ep & Ed & _ & _ & Hd1).
  unfold add_to_device_event, counting. cbn [fst snd]. rewrite E. unfold trying. cbn [fst snd].
  rewrite (with_get_row todeviceid_events _ _ (Map_insert (user_tables u todeviceid_events) (queue_key user device (permit_id p)) event)).
  2:{ unfold put, bput, bput_raw. cbn [fst snd]. by rewrite queue_key_ser. }
  destruct (drop_permit_inv d _ (permit_id p) Hd1) as (d' & Ed' & Edi & _ & Hd2); [set_solver|].
  cbn [with_table with_counter user_counter]. rewrite Ed'. eexists. split; [done|].
  split_and!; [|cbn; congruence|].
  - intros t k. rewrite Ep. apply (get_set_row todeviceid_events t (queue_key user device (dispatched (counter (user_counter u)) + 1)) k event u).
  - cbn. assert (permit_id p ∉ ids) as Hnew by (intros Hin%(inv_range _ _ Hd); lia).
    replace ids with (({[permit_id p]} ∪ ids) ∖ {[permit_id p]}); [done|]. set_solver.
Qed.
End lifecycle.

(** ** Properties *)

Section properties.
Context `{Engine, JsonParser, Users} {W : Type}.
Implicit Types (u : UserData) (user device event : string) (n : N) (w : W) (since to : option N).

(** A request within the numbers. *)
Definition since_ok since : Prop := ∀ s, since = Some s → (s < U64_MAX)%N.

(** Lists read from states whose rows agree are the same. *)
Lemma get_events_ext u u' user device since to :
  queue_ok u → queue_ok u' → ids_ok user device → since_ok since →
  (∀ n, (n <= U64_MAX)%N → get_row u' todeviceid_events (queue_key user device n) = get_row u todeviceid_events (queue_key user device n)) →
  get_to_device_events u' user device since to = get_to_device_events u user device since to.
Proof.
  intros Hok Hok' Hi Hs E. destruct (get_events_scan u user device since to Hok Hi Hs) as (l & -> & Hl & Hin).
  destruct (get_events_scan u' user device since to Hok' Hi Hs) as (l' & -> & Hl' & Hin'). f_equal.
  apply numbered_rows_unique; [done..|]. intros [n event]. rewrite Hin, Hin'.
  split; intros (Hr & Hn & Hw); (split_and!; [|done..]); [by rewrite <-E|by rewrite E].
Qed.

(** C30.  An event sent to a device is read after all those sent before, by whoever
    asks for what came since any earlier number; other devices see no change. *)
Theorem to_device_in_order user device event u w ids since :
  queue_ok u → queue_drawn u → ids_ok user device → utf8_valid event = true →
  data_inv (user_counter u) ids → (dispatched (counter (user_counter u)) < U64_MAX)%N →
  (∀ s, since = Some s → (s <= dispatched (counter (user_counter u)))%N) →
  ∃ u' l, add_to_device_event user device event (u, w) = (Ok tt, (u', w))
    ∧ queue_ok u' ∧ queue_drawn u'
    ∧ get_to_device_events u user device since None = Ok l
    ∧ get_to_device_events u' user device since None = Ok (l ++ [((dispatched (counter (user_counter u)) + 1)%N, event)])
    ∧ ∀ user' device' since' to', ids_ok user' device' → (user', device') ≠ (user, device) → since_ok since' →
        get_to_device_events u' user' device' since' to' = get_to_device_events u user' device' since' to'.
Proof.
  intros Hok Hdr Hi Hu Hd Hn Hs. set (c := (dispatched (counter (user_counter u)) + 1)%N).
  destruct (add_event_run user device event u w ids Hd Hn) as (u' & E & Hrow & Hc & _). fold c in Hrow, Hc.
  assert (c <= U64_MAX)%N as Hcm by (unfold c; lia).
  assert (since_ok since) as Hso by (intros s ->; specialize (Hs s eq_refl); lia).
  assert (∀ user' device' n, ids_ok user' device' → (n <= U64_MAX)%N →
    get_row u' todeviceid_events (queue_key user' device' n)
    = if decide ((user', device', n) = (user, device, c)) then Ok event else get_row u todeviceid_events (queue_key user' device' n)) as Hq.
  { intros user' device' n Hi' Hn'. rewrite Hrow. destruct (decide ((user', device', n) = (user, device, c))) as [[= -> -> ->]|Hne].
    - by rewrite decide_True.
    - rewrite decide_False; [done|]. intros [_ Ek%device_queue_key_inj]; [|done..]. destruct Ek as (-> & -> & ->). done. }
  assert (queue_ok u') as Hok'.
  { intros key ev. rewrite Hrow. case_decide as Hk; [destruct Hk as [_ ->]|by apply Hok]. intros [= <-]. by exists user, device, c. }
  destruct (get_events_scan u user device since None Hok Hi Hso) as (l & El & Hl & Hin).
  destruct (get_events_scan u' user device since None Hok' Hi Hso) as (l' & El' & Hl' & Hin').
  assert (∀ n ev, (n, ev) ∈ l → (n < c)%N) as Hlt.
  { intros n ev (Hr & Hn' & _)%Hin. specialize (Hdr user device n ev Hi Hn' Hr). unfold c. lia. }
  exists u', l. split_and!; [done..| |done| |].
  - intros user' device' n ev Hi' Hn'. rewrite Hq by done. case_decide as Hk; [injection Hk as -> -> ->; by rewrite Hc|].
    intros Hr. rewrite Hc. specialize (Hdr user' device' n ev Hi' Hn' Hr). unfold c. lia.
  - rewrite El'. f_equal. apply numbered_rows_unique; [done| |].
    + apply StronglySorted_app_2; [|done|repeat constructor]. intros [n ev] x Hx ->%list_elem_of_singleton. by eapply Hlt.
    + intros [n ev]. rewrite elem_of_app, list_elem_of_singleton, Hin, Hin'. split.
      * intros (Hr & Hn' & Hw). rewrite Hq in Hr by done. case_decide as Hk; [|by left]. right. congruence.
      * intros [(Hr & Hn' & Hw)|[= -> ->]].
        -- split_and!; [|done..]. rewrite Hq by done. case_decide as Hk; [|done]. injection Hk as ->.
           specialize (Hdr user device c ev Hi Hn' Hr). unfold c in Hdr. lia.
        -- rewrite Hq, decide_True by done. split_and!; [done..|]. split; [|done]. intros s ->. specialize (Hs s eq_refl). unfold c. lia.
  - intros user' device' since' to' Hi' Hne Hs'. apply get_events_ext; [done..|]. intros n Hn'. rewrite Hq by done.
    rewrite decide_False; [done|]. congruence.
Qed.

(** C31.  Acknowledging a number drops from the queue of the device the events up to
    it and no others; other devices keep theirs. *)
Theorem to_device_acknowledged user device (until : option N) u w :
  queue_ok u → ids_ok user device → (∀ n, until = Some n → (n <= U64_MAX)%N) →
  ∃ u', remove_to_device_events user device until (u, w) = (Ok tt, (u', w))
    ∧ queue_ok u'
    ∧ (∀ since to l, since_ok since → get_to_device_events u user device since to = Ok l →
        get_to_device_events u' user device since to = Ok (filter (λ x, default U64_MAX until < x.1)%N l))
    ∧ (∀ user' device' since to, ids_ok user' device' → (user', device') ≠ (user, device) → since_ok since →
        get_to_device_events u' user' device' since to = get_to_device_events u user' device' since to)
    ∧ ∀ t k, t ≠ todeviceid_events → get_row u' t k = get_row u t k.
Proof.
  intros Hok Hi Hun. destruct (remove_events_run user device until u w Hok Hi Hun) as (u' & keys & E & _ & Hrow & Hkeys).
  pose proof (queue_ok_drop u u' keys Hrow Hok) as Hok'.
  exists u'. split_and!; [done..| | |].
  - intros since to l Hs El. destruct (get_events_scan u user device since to Hok Hi Hs) as (l0 & El0 & Hl & Hin).
    rewrite El in El0. injection El0 as <-.
    destruct (get_events_scan u' user device since to Hok' Hi Hs) as (l' & -> & Hl' & Hin'). f_equal.
    apply numbered_rows_unique; [done|by apply StronglySorted_filter|].
    intros [n ev]. rewrite list_elem_of_filter, Hin, Hin', Hrow. cbn [fst]. split.
    + intros (Hr & Hn & Hw). case_decide as Hd; [done|]. split_and!; [|done..]. apply N.nle_gt. intros Hle. apply Hd. split; [done|].
      apply Hkeys. by exists n, ev.
    + intros (Hlt & Hr & Hn & Hw). split_and!; [|done..]. rewrite decide_False; [done|].
      intros [_ (n' & ev' & Ek & Hn1 & Hn2 & _)%Hkeys]. apply device_queue_key_inj in Ek as (_ & _ & ->); [|done..]. lia.
  - intros user' device' since to Hi' Hne Hs. apply get_events_ext; [done..|]. intros n Hn. rewrite Hrow, decide_False; [done|].
    intros [_ (n' & ev' & Ek & Hn1 & Hn2 & _)%Hkeys]. apply device_queue_key_inj in Ek as (-> & -> & _); done.
  - intros t k Ht. rewrite Hrow, decide_False; [done|]. tauto.
Qed.
End properties.

Section queue_witnesses.
#[local] Existing Instance ordered_engine.
#[local] Existing Instance ShortExample.json.
#[local] Existing Instance MembersExample.users.
Import DevicesExample.

(** One event waits, with number 1. *)
Definition one_event : UserData :=
  set_row todeviceid_events (queue_key user "DEV" 1) "{}"
    (mkUserData (mkData (<[COUNTER := u64_to_be_bytes 1]> ∅ : Table) 1 (counter_new 1)) (λ _, ∅ : Table)).

Lemma one_event_row k ev : get_row one_event todeviceid_events k = Ok ev → k = queue_key user "DEV" 1 ∧ ev = "{}".
Proof.
  unfold one_event. rewrite get_set_row. case_decide as Hd; [destruct Hd as [_ ->]; by intros [= <-]|].
  intros E. apply get_row_rows in E. exfalso. change ((∅ : gmap string string) !! k = Some ev) in E. by rewrite lookup_empty in E.
Qed.

Lemma one_event_ok : queue_ok one_event.
Proof. intros k ev [-> ->]%one_event_row. exists user, "DEV", 1%N. split_and!; [done|exact example_ids|done|reflexivity]. Qed.

Lemma one_event_drawn : queue_drawn one_event.
Proof. intros user' device' n ev Hi Hn [E _]%one_event_row. apply device_queue_key_inj in E as (_ & _ & ->); [done|done|exact example_ids|done|done]. Qed.

Lemma one_event_counter : data_inv (user_counter one_event) ∅.
Proof.
  destruct (data_new_inv (H := ordered_engine) (<[COUNTER := u64_to_be_bytes 1]> ∅ : Table) 1) as (d & Ed & _ & _ & Hd);
    [reflexivity|done|]. injection Ed as <-. exact Hd.
Qed.

Lemma to_device_in_order_witness :
  ∃ u', add_to_device_event user "DEV" "[]" (one_event, tt) = (Ok tt, (u', tt))
    ∧ get_to_device_events u' user "DEV" None None = Ok [(1%N, "{}"); (2%N, "[]")].
Proof.
  destruct (to_device_in_order (W := unit) user "DEV" "[]" one_event tt ∅ None) as (u' & l & E & _ & _ & El & El' & _);
    [exact one_event_ok|exact one_event_drawn|exact example_ids|reflexivity|exact one_event_counter|done|done|].
  exists u'. split; [exact E|]. rewrite El'. assert (get_to_device_events one_event user "DEV" None None = Ok [(1%N, "{}")]) as E1
    by (vm_compute; reflexivity). rewrite E1 in El. injection El as <-. reflexivity.
Defined.

Lemma to_device_acknowledged_witness :
  ∃ u', remove_to_device_events user "DEV" (Some 1%N) (one_event, tt) = (Ok tt, (u', tt))
    ∧ get_to_device_events u' user "DEV" None None = Ok [].
Proof.
  destruct (to_device_acknowledged (W := unit) user "DEV" (Some 1%N) one_event tt) as (u' & E & _ & Hl & _);
    [exact one_event_ok|exact example_ids|by intros n [= <-]|].
  exists u'. split; [exact E|]. apply (Hl None None [(1%N, "{}")]); [by intros s|]. vm_compute. reflexivity.
Defined.
End queue_witnesses.
