(* ===== verification/Uiaa.v ===== *)
(** * Interactive authentication ([src/src/service/uiaa/mod.rs])

    A sensitive request is let through when the client has completed the stages
    of one of the flows it was offered; what it has completed so far is kept in
    a session, by user, device and session identifier.  The session's text is
    serde's ([UiaaJson]); the matching of a user name and single sign-on are
    parameters.  Directory logins (LDAP) are a feature the default
    build leaves out. *)

From S2P Require Import Prelude Effects Bytes Slices DbCodec DbMap Pairs Counter Short PduId Scans MemberCache Memberships RegTokens Accounts Devices.

Inductive AuthType := Password | RegistrationToken | OAuth | Dummy | Sso | Jwt | OtherType (name : string).

#[export] Instance auth_type_eq_dec : EqDecision AuthType.
Proof. solve_decision. Defined.

Record UiaaInfo := mkUiaaInfo {
  flows : list (list AuthType);
  completed : list AuthType;
  session : option string;
  params : option string;
  auth_error : option string;
}.

(** What the client sends, with the session it goes on with. *)
Inductive AuthData :=
  | PasswordAuth (username : option string) (password : string) (sess : option string)
  | RegistrationTokenAuth (token : string) (sess : option string)
  | FallbackAcknowledgement (sess : string)
  | OAuthAuth (sess : option string)
  | DummyAuth (sess : option string)
  | OtherAuth (sess : option string).

Definition auth_session (a : AuthData) : option string :=
  match a with
  | PasswordAuth _ _ s | RegistrationTokenAuth _ s | OAuthAuth s | DummyAuth s | OtherAuth s => s
  | FallbackAcknowledgement s => Some s
  end.

Class UiaaJson := {
  print_uiaa : UiaaInfo → string;
  parse_uiaa : string → option UiaaInfo;
  parse_print_uiaa i : parse_uiaa (print_uiaa i) = Some i;
  print_uiaa_utf8 i : utf8_valid (print_uiaa i) = true;
}.

(** [UserId::parse_with_server_name] for this server, and [localpart]. *)
Class LocalUsers := {
  parse_with_server_name : string → option string;
  localpart : string → string;
}.

Inductive UiaaError :=
  | UiaaDb (e : DbError)
  | Unrecognized
  | InvalidUserId
  | IdMismatch
  | NoSession
  | UiaaPanic.

Section uiaa.
Context `{Engine, JsonParser, Users, Passwords, InfoJson, UiaaJson, LocalUsers}.
Implicit Types (user device sess : string) (info : UiaaInfo).

(** The sessions, the requests they are for, and the services asked. *)
Record UiaaState := mkUiaa {
  sessions : Table;
  requests : gmap (string * string * string) string;
  uiaa_users : UserData;
  reg_tokens : Table;
}.
Implicit Types (s : UiaaState).

Definition session_ser user device sess : Ser := STuple [SStr user; SStr device; SStr sess].

Definition with_sessions (tb : Table) s : UiaaState := mkUiaa tb (requests s) (uiaa_users s) (reg_tokens s).

Definition update_uiaa_session user device sess (info : option UiaaInfo) s : Result UiaaError UiaaState :=
  let? tb := map_err UiaaDb (match info with
                             | Some i => put (sessions s) (session_ser user device sess) (SNewtype "Json" (Some (print_uiaa i)))
                             | None => del (sessions s) (session_ser user device sess)
                             end) in
  Ok (with_sessions tb s).

Definition get_uiaa_session s user device sess : Result UiaaError UiaaInfo :=
  let row := let? v := @deserialized (λ t, bool_decide (is_Some (parse_uiaa t))) DMap
                         (qry (sessions s) (session_ser user device sess)) in
             match v with VJson t => ok_or (Codec SerdeDe) (parse_uiaa t) | _ => Err (Codec InvalidValue) end in
  map_err (λ _, NoSession) row.

Definition set_uiaa_request user device sess (request : string) s : UiaaState :=
  mkUiaa (sessions s) (<[(user, device, sess) := request]> (requests s)) (uiaa_users s) (reg_tokens s).
Definition get_uiaa_request s user (device : option string) sess : option string :=
  requests s !! (user, default "" device, sess).

Definition create_uiaa user device info (request : string) s : Result UiaaError UiaaState :=
  match session info with
  | None => Err UiaaPanic
  | Some sess => update_uiaa_session user device sess (Some info) (set_uiaa_request user device sess request s)
  end.

(** The session of an identifier, whoever it belongs to: the first in the order
    of the rows; a row that does not decode ends the search. *)
Fixpoint session_search (sess : string) s (keys : list (Result DbError DeValue)) : option (string * string * UiaaInfo) :=
  match keys with
  | Ok (VTuple [VStr user; VStr device; VStr found]) :: keys =>
      if decide (found = sess) then
        match get_uiaa_session s user device sess with Ok i => Some (user, device, i) | Err _ => session_search sess s keys end
      else session_search sess s keys
  | _ => None
  end.
Definition get_uiaa_session_by_session_id s sess : option (string * string * UiaaInfo) :=
  session_search sess s
    (deserialize_slice (DTuple [DStr user_id_ok; DStr (λ _, true); DStr (λ _, true)]) <$> raw_keys_from (sessions s) "").

(** ** A step of the authentication *)

(** What a step comes to: the stage it completes, if any; a refusal; or a pass
    at once, for an account without password whose user has signed on. *)
Inductive Step := Completes (stage : option AuthType) | Refuses (message : string) | Passes.

(** The clock, the tokens of the configuration, whether the user has signed on,
    and how the time of a mark is read. *)
Record UiaaEnv := mkUiaaEnv {
  now_ns : N;
  config_tokens : gset string;
  signed_on : string → bool;
  parse_time : string → option N;
}.

Definition step_auth (env : UiaaEnv) user (done_before : list AuthType) (a : AuthData) s : Result UiaaError Step * UiaaState :=
  match a with
  | PasswordAuth username password _ =>
      match username with
      | None => (Err Unrecognized, s)
      | Some name =>
          match parse_with_server_name name with
          | None => (Err InvalidUserId, s)
          | Some id =>
              if decide (localpart user = localpart id) then
                let hash := ok (password_hash (uiaa_users s) id) in
                let verified := match hash with Some h => verify_password password h | None => false end in
                if verified then (Ok (Completes (Some Password)), s)
                else if bool_decide (hash = Some PASSWORD_SENTINEL) && signed_on env id then (Ok Passes, s)
                else (Ok (Refuses "Invalid username or password."), s)
              else (Err IdMismatch, s)
          end
      end
  | RegistrationTokenAuth token _ =>
      let r := try_consume (now_ns env) (config_tokens env) (reg_tokens s) (trim token) in
      let s' := mkUiaa (sessions s) (requests s) (uiaa_users s) r.2 in
      match r.1 with
      | Ok _ => (Ok (Completes (Some RegistrationToken)), s')
      | Err _ => (Ok (Refuses "Invalid registration token."), s')
      end
  | OAuthAuth _ =>
      if decide (OAuth ∈ done_before) then (Ok (Completes None), s)
      else
        let r := can_replace_cross_signing_keys (parse_time env) (now_ns env) user (uiaa_users s) in
        let s' := mkUiaa (sessions s) (requests s) r.2 (reg_tokens s) in
        if r.1 then (Ok (Completes (Some OAuth)), s')
        else (Ok (Refuses "OAuth cross-signing reset not approved for this session."), s')
  | DummyAuth _ => (Ok (Completes (Some Dummy)), s)
  | FallbackAcknowledgement _ | OtherAuth _ => (Ok (Completes None), s)
  end.

Definition with_session (random : string) info : UiaaInfo :=
  mkUiaaInfo (flows info) (completed info) (Some (default random (session info))) (params info) (auth_error info).
Definition with_error (message : string) info : UiaaInfo :=
  mkUiaaInfo (flows info) (completed info) (session info) (params info) (Some message).
Definition with_stage (stage : option AuthType) info : UiaaInfo :=
  match stage with
  | Some t => mkUiaaInfo (flows info) (completed info ++ [t]) (session info) (params info) (auth_error info)
  | None => info
  end.

Definition flow_done info (flow : list AuthType) : bool := forallb (λ t, bool_decide (t ∈ completed info)) flow.

Definition try_auth (env : UiaaEnv) user device (a : AuthData) (offered : UiaaInfo) (random : string) s :
    Result UiaaError (bool * UiaaInfo) * UiaaState :=
  match match auth_session a with Some sess => get_uiaa_session s user device sess | None => Ok offered end with
  | Err e => (Err e, s)
  | Ok found =>
      let info := with_session random found in
      match step_auth env user (completed info) a s with
      | (Err e, s1) => (Err e, s1)
      | (Ok Passes, s1) => (Ok (true, info), s1)
      | (Ok (Refuses message), s1) => (Ok (false, with_error message info), s1)
      | (Ok (Completes stage), s1) =>
          let info' := with_stage stage info in
          let worked := existsb (flow_done info') (flows info') in
          match update_uiaa_session user device (default "" (session info')) (if worked then None else Some info') s1 with
          | Ok s2 => (Ok (worked, info'), s2)
          | Err e => (Err e, s1)
          end
      end
  end.

(** A user who has signed on completes a stage of the session: the end of
    [sso.rs]'s callback. *)
Definition marks info : list AuthType :=
  filter (λ t, existsb (λ f, bool_decide (t ∈ f)) (flows info) && negb (bool_decide (t ∈ completed info)) = true) [OAuth; Sso].

Definition handle_uiaa (print : N → string) (now : N) user sess s : Result UiaaError UiaaState :=
  match get_uiaa_session_by_session_id s sess with
  | Some (owner, device, info) =>
      if decide (user = owner) then
        let users := if decide (OAuth ∈ marks info)
                     then (allow_cross_signing_replacement (W := unit) print now user (uiaa_users s, tt)).2.1 else uiaa_users s in
        update_uiaa_session owner device sess
          (Some (mkUiaaInfo (flows info) (completed info ++ marks info) (session info) (params info) (auth_error info)))
          (mkUiaa (sessions s) (requests s) users (reg_tokens s))
      else Err NoSession
  | None => Err NoSession
  end.
End uiaa.

(** ** Sessions *)

Section sessions.
Context `{Engine, JsonParser, Users, Passwords, InfoJson, UiaaJson, LocalUsers}.
Implicit Types (user device sess : string) (info : UiaaInfo) (s : UiaaState).

Definition session_key user device sess : string := record_bytes [user; device; sess].
Definition names_ok user device sess : Prop := utf8_valid user = true ∧ utf8_valid device = true ∧ utf8_valid sess = true.

Lemma session_key_inj user device sess user' device' sess' :
  names_ok user device sess → names_ok user' device' sess' →
  session_key user device sess = session_key user' device' sess' → (user, device, sess) = (user', device', sess').
Proof.
  intros (Hu & Hd & Hs) (Hu' & Hd' & Hs') E.
  pose proof (deserialize_strings [user; device; sess] ltac:(repeat constructor; done)) as Hr.
  pose proof (deserialize_strings [user'; device'; sess'] ltac:(repeat constructor; done)) as Hr'.
  unfold session_key in E. rewrite E in Hr. pose proof (eq_trans (eq_sym Hr) Hr') as Hv. by injection Hv as -> -> ->.
Qed.

Lemma get_session_row s user device sess :
  get_uiaa_session s user device sess
  = match table_rows (sessions s) !! session_key user device sess with
    | Some text => match @deserialize_slice (λ t, bool_decide (is_Some (parse_uiaa t))) DMap text with
                   | Ok (VJson t) => ok_or NoSession (parse_uiaa t)
                   | _ => Err NoSession
                   end
    | None => Err NoSession
    end.
Proof.
  unfold get_uiaa_session. change (session_ser user device sess) with (STuple (SStr <$> [user; device; sess])).
  rewrite qry_strings. fold (session_key user device sess).
  destruct (table_rows (sessions s) !! session_key user device sess) as [text|]; [|done]. cbn [handle_from ok_or deserialized].
  destruct (deserialize_slice DMap text) as [[]|]; try done. cbn. by destruct (parse_uiaa _).
Qed.

Lemma update_run user device sess (o : option UiaaInfo) s :
  update_uiaa_session user device sess o s
  = Ok (with_sessions (match o with
                       | Some i => table_put (sessions s) (session_key user device sess) (print_uiaa i)
                       | None => table_del (sessions s) (session_key user device sess)
                       end) s).
Proof.
  assert (serialize None (session_ser user device sess) = Ok (session_key user device sess)) as Hs
    by apply (serialize_strings user [device; sess]).
  unfold update_uiaa_session. destruct o as [i|].
  - unfold put, bput, bput_raw. cbn [fst snd]. by rewrite Hs.
  - unfold del, bdel. by rewrite Hs.
Qed.

(** Reading a session after a write of one. *)
Lemma get_after_update user device sess (o : option UiaaInfo) s s' user' device' sess' :
  names_ok user device sess → names_ok user' device' sess' → update_uiaa_session user device sess o s = Ok s' →
  get_uiaa_session s' user' device' sess'
  = if decide ((user', device', sess') = (user, device, sess)) then ok_or NoSession o else get_uiaa_session s user' device' sess'.
Proof.
  intros Hn Hn'. rewrite update_run. intros [= <-]. rewrite !get_session_row. cbn [sessions with_sessions].
  destruct (decide ((user', device', sess') = (user, device, sess))) as [[= -> -> ->]|Hne].
  - destruct o as [i|]; rewrite ?table_put_rows, ?table_del_rows, ?lookup_insert_eq, ?lookup_delete_eq; [|done].
    rewrite deserialize_map_text; [by rewrite parse_print_uiaa|apply print_uiaa_utf8|].
    rewrite parse_print_uiaa. by apply bool_decide_eq_true.
  - assert (session_key user device sess ≠ session_key user' device' sess') as Hk
      by (intros E%session_key_inj; [congruence|done..]).
    destruct o as [i|]; rewrite ?table_put_rows, ?table_del_rows, ?lookup_insert_ne, ?lookup_delete_ne by done; done.
Qed.

(** ** What was proved *)

Definition Proof_log : Type := list (string * string * string * AuthType).

(** Every stage a stored session counts as completed was proved in it, and the
    session is stored under its identifier. *)
Definition justified (log : Proof_log) s : Prop :=
  ∀ user device sess info, names_ok user device sess → get_uiaa_session s user device sess = Ok info →
  session info = Some sess ∧ ∀ t, t ∈ completed info → (user, device, sess, t) ∈ log.

Lemma step_sessions env user before a s : sessions (step_auth env user before a s).2 = sessions s.
Proof.
  unfold step_auth. destruct a as [username password ?|token ?|?|?|?|?]; try done.
  - destruct username as [name|]; [|done]. destruct (parse_with_server_name name); [|done].
    destruct (decide _); [|done]. repeat case_match; done.
  - by destruct (try_consume _ _ _ _).1.
  - destruct (decide _); [done|]. by destruct (can_replace_cross_signing_keys _ _ _ _).1.
Qed.

Lemma get_session_ext s s' user device sess : sessions s' = sessions s → get_uiaa_session s' user device sess = get_uiaa_session s user device sess.
Proof. intros E. by rewrite !get_session_row, E. Qed.

(** The stage that a request proves. *)
Definition proves (env : UiaaEnv) user device (a : AuthData) (offered : UiaaInfo) (random : string) s : option (string * AuthType) :=
  match match auth_session a with Some sess => get_uiaa_session s user device sess | None => Ok offered end with
  | Err _ => None
  | Ok found =>
      let info := with_session random found in
      match (step_auth env user (completed info) a s).1 with
      | Ok (Completes (Some t)) => Some (default "" (session info), t)
      | _ => None
      end
  end.

Definition extend (log : Proof_log) user device (p : option (string * AuthType)) : Proof_log :=
  match p with Some (sess, t) => (user, device, sess, t) :: log | None => log end.

Lemma justified_extend log user device p s : justified log s → justified (extend log user device p) s.
Proof.
  intros Hj user' device' sess info Hn Hg. destruct (Hj user' device' sess info Hn Hg) as [Es Hc]. split; [done|].
  intros t Ht. destruct p as [[sess' t']|]; cbn; [right|]; by apply Hc.
Qed.

Lemma justified_ext log s s' : sessions s' = sessions s → justified log s → justified log s'.
Proof. intros E Hj user device sess info Hn. rewrite (get_session_ext s s') by done. by apply Hj. Qed.

Lemma justified_update log user device sess (o : option UiaaInfo) s s' :
  names_ok user device sess → update_uiaa_session user device sess o s = Ok s' → justified log s →
  (∀ i, o = Some i → session i = Some sess ∧ ∀ t, t ∈ completed i → (user, device, sess, t) ∈ log) → justified log s'.
Proof.
  intros Hn Hu Hj Ho user' device' sess' info Hn'. rewrite (get_after_update user device sess o s s') by done. case_decide as Hd.
  - injection Hd as -> -> ->. destruct o as [i|]; intros [= <-]. by apply Ho.
  - by apply Hj.
Qed.

Lemma with_stage_completed stage info t : t ∈ completed (with_stage stage info) → t ∈ completed info ∨ stage = Some t.
Proof. destruct stage as [t'|]; cbn; [|by left]. rewrite elem_of_app, list_elem_of_singleton. intros [?| ->]; auto. Qed.

Lemma with_stage_same stage info : session (with_stage stage info) = session info ∧ flows (with_stage stage info) = flows info.
Proof. by destruct stage. Qed.

(** The session a request goes on with, or starts. *)
Lemma found_justified log user device a offered random s found :
  justified log s → utf8_valid user = true → utf8_valid device = true →
  (∀ sess, auth_session a = Some sess → utf8_valid sess = true) → utf8_valid random = true →
  (∀ sess, session offered = Some sess → utf8_valid sess = true) → completed offered = [] →
  match auth_session a with Some sess => get_uiaa_session s user device sess | None => Ok offered end = Ok found →
  ∃ sess, session (with_session random found) = Some sess ∧ names_ok user device sess
    ∧ ∀ t, t ∈ completed (with_session random found) → (user, device, sess, t) ∈ log.
Proof.
  intros Hj Hu Hd Hs Hr Ho Hc. destruct (auth_session a) as [sess|] eqn:Ea.
  - intros Hg. specialize (Hs sess eq_refl). destruct (Hj user device sess found) as [Es Hl]; [done..|]. exists sess. cbn. rewrite Es. done.
  - intros [= <-]. cbn. rewrite Hc. exists (default random (session offered)). split_and!; [done| |by intros t ?%elem_of_nil].
    split_and!; [done..|]. destruct (session offered) as [sess|]; [by apply Ho|done].
Qed.
End sessions.

(** ** Properties *)

Section properties.
Context `{Engine, JsonParser, Users, Passwords, InfoJson, UiaaJson, LocalUsers}.
Implicit Types (user device : string) (s : UiaaState).

(** What it takes to prove a stage. *)
Definition evidence (env : UiaaEnv) user (a : AuthData) s (t : AuthType) : Prop :=
  match t with
  | Password => ∃ name password sess id h, a = PasswordAuth (Some name) password sess ∧ parse_with_server_name name = Some id
      ∧ localpart user = localpart id ∧ password_hash (uiaa_users s) id = Ok h ∧ verify_password password h = true
  | RegistrationToken => ∃ token sess, a = RegistrationTokenAuth token sess
      ∧ (try_consume (now_ns env) (config_tokens env) (reg_tokens s) (trim token)).1 = Ok tt
  | OAuth => (can_replace_cross_signing_keys (parse_time env) (now_ns env) user (uiaa_users s)).1 = true
  | Dummy => ∃ sess, a = DummyAuth sess
  | _ => False
  end.

Lemma step_evidence env user before a s t :
  (step_auth env user before a s).1 = Ok (Completes (Some t)) → evidence env user a s t.
Proof.
  unfold step_auth. destruct a as [username password sess|token sess|sess|sess|sess|sess]; cbn.
  - destruct username as [name|]; [|done]. destruct (parse_with_server_name name) as [id|] eqn:Hp; [|done].
    destruct (decide (localpart user = localpart id)) as [El|]; [|done].
    destruct (password_hash (uiaa_users s) id) as [h|] eqn:Hh; cbn.
    + destruct (verify_password password h) eqn:Hv; [|by case_match].
      intros [= <-]. by exists name, password, sess, id, h.
    + done.
  - destruct (try_consume _ _ _ _).1 as [[]|] eqn:Ht; [|done]. intros [= <-]. by exists token, sess.
  - done.
  - destruct (decide _); [done|]. destruct (can_replace_cross_signing_keys _ _ _ _).1 eqn:Hc; [|done]. by intros [= <-].
  - intros [= <-]. by exists sess.
  - done.
Qed.

End properties.

Section leak.
Context `{Engine, JsonParser, Users, Passwords, InfoJson, UiaaJson, LocalUsers}.
Implicit Types (user device sess : string) (s : UiaaState).

(** The body of the request is kept for good: no step of the authentication
    removes it, not the one that finishes the session. *)
Theorem uiaa_request_kept user device sess info request s s' (steps : list (UiaaEnv * string * string * AuthData * UiaaInfo * string)) :
  session info = Some sess → create_uiaa user device info request s = Ok s' →
  get_uiaa_request (foldl (λ s x, (try_auth x.1.1.1.1.1 x.1.1.1.1.2 x.1.1.1.2 x.1.1.2 x.1.2 x.2 s).2) s' steps) user (Some device) sess
  = Some request.
Proof.
  assert (∀ env u before a s0, requests (step_auth env u before a s0).2 = requests s0) as Hstep.
  { intros env u before a s0. unfold step_auth. destruct a as [username password ?|token ?|?|?|?|?]; try done.
    - destruct username as [name|]; [|done]. destruct (parse_with_server_name name); [|done].
      destruct (decide _); [|done]. repeat case_match; done.
    - by destruct (try_consume _ _ _ _).1.
    - destruct (decide _); [done|]. by destruct (can_replace_cross_signing_keys _ _ _ _).1. }
  assert (∀ x s0, requests (try_auth x.1.1.1.1.1 x.1.1.1.1.2 x.1.1.1.2 x.1.1.2 x.1.2 x.2 s0).2 = requests s0) as Htry.
  { intros [[[[[env u] d] a] offered] random] s0. cbn [fst snd]. unfold try_auth.
    destruct (match auth_session a with Some _ => _ | None => _ end) as [found|]; [|done].
    specialize (Hstep env u (completed (with_session random found)) a s0).
    destruct (step_auth _ _ _ _ _) as [[[stage|m|]|e] s1]; cbn [fst snd] in *; try done. by rewrite update_run. }
  intros Es Hc. assert (requests s' !! (user, device, sess) = Some request) as Hr.
  { unfold create_uiaa in Hc. rewrite Es, update_run in Hc. injection Hc as <-. cbn. apply lookup_insert_eq. }
  unfold get_uiaa_request. cbn. clear Hc. revert s' Hr. induction steps as [|x steps IH]; intros s' Hr; [done|].
  cbn [foldl]. apply IH. by rewrite Htry.
Qed.
End leak.

(** ** An example *)

Module UiaaExample.
Definition type_code (t : AuthType) : N * string :=
  match t with
  | Password => (0%N, "") | RegistrationToken => (1%N, "") | OAuth => (2%N, "") | Dummy => (3%N, "")
  | Sso => (4%N, "") | Jwt => (5%N, "") | OtherType name => (6%N, name)
  end.
Definition code_type (c : N * string) : AuthType :=
  match c.1 with
  | 0 => Password | 1 => RegistrationToken | 2 => OAuth | 3 => Dummy | 4 => Sso | 5 => Jwt | _ => OtherType c.2
  end%N.

Lemma code_type_code t : code_type (type_code t) = t.
Proof. by destruct t. Qed.

Definition Codes : Type := list (list (N * string)) * list (N * string) * option string * option string * option string.
Definition info_codes (i : UiaaInfo) : Codes :=
  (map (map type_code) (flows i), map type_code (completed i), session i, params i, auth_error i).
Definition codes_info (c : Codes) : UiaaInfo :=
  mkUiaaInfo (map (map code_type) c.1.1.1.1) (map code_type c.1.1.1.2) c.1.1.2 c.1.2 c.2.

Lemma codes_list (l : list AuthType) : map code_type (map type_code l) = l.
Proof. induction l as [|t l IH]; [done|]. cbn [map]. by rewrite code_type_code, IH. Qed.

Lemma codes_info_codes i : codes_info (info_codes i) = i.
Proof.
  destruct i as [f c s p e]. unfold codes_info, info_codes. cbn [fst snd flows completed session params auth_error]. rewrite codes_list. f_equal.
  induction f as [|x f IH]; [done|]. cbn [map]. by rewrite codes_list, IH.
Qed.

(** Sessions written as the bits of their encoding. *)
#[export] Instance uiaa_bits : UiaaJson.
Proof.
  refine {|
    print_uiaa i := pos_bits (encode (info_codes i));
    parse_uiaa t := codes_info <$> (bits_pos t ≫= decode);
  |}.
  - intros i. rewrite bits_roundtrip. cbn [mbind option_bind]. rewrite countable.decode_encode. cbn. by rewrite codes_info_codes.
  - intros i. apply pos_bits_utf8.
Defined.

#[export] Instance same_name : LocalUsers := {| parse_with_server_name n := Some n; localpart n := n |}.
End UiaaExample.

Section uiaa_witnesses.
#[local] Existing Instance ordered_engine.
#[local] Existing Instance ShortExample.json.
#[local] Existing Instance MembersExample.users.
Import UsersExample DevicesExample TokensExample UiaaExample.

Definition nobody_waits : UiaaState := mkUiaa (∅ : Table) ∅ logged_in (∅ : Table).
Definition password_flow : UiaaInfo := mkUiaaInfo [[Password]] [] (Some "s1") None None.
Definition calm : UiaaEnv := mkUiaaEnv 7 ∅ (λ _, false) (λ _, None).
Definition right_password : AuthData := PasswordAuth (Some user) "pw" None.

Lemma nobody_justified : justified [] nobody_waits.
Proof. intros user' device' sess info _. rewrite get_session_row. change (sessions nobody_waits) with (∅ : gmap string string). cbn [table_rows ordered_engine]. by rewrite lookup_empty. Qed.

End uiaa_witnesses.
