(* ===== verification/RequestAuth.v ===== *)
(** * Who a request speaks for ([src/src/api/router/auth.rs],
    [auth/dispatch.rs], [auth/appservice.rs], [api/client/session/refresh.rs],
    [logout.rs])

    A request carries a token or none; the token is looked up among those of the
    users and those of the application services, expired ones are told apart,
    and each endpoint's scheme says what it accepts.  Signatures of servers are
    checked elsewhere; [server_auth] is the server that signed.  On top of the token tables of [Devices]:
    who passes, and that logging out ends it. *)

From S2P Require Import Prelude Effects Bytes Slices DbCodec DbMap Pairs Counter Short PduId Scans MemberCache Memberships Accounts Devices.

(** The endpoints the code treats apart; any other is [OtherRoute]. *)
Inductive Route :=
  | GetTurnServer | GetOpenidUserinfo | LogoutOne | LogoutAll | SetDisplayName | SetAvatarUrl
  | GetProfile | GetProfileField | GetDisplayName | GetAvatarUrl | GetPublicRooms | OtherRoute.

#[export] Instance route_eq_dec : EqDecision Route.
Proof. solve_decision. Defined.

Inductive Scheme :=
  | NoScheme | AccessToken | AccessTokenOptional | AppserviceToken | AppserviceTokenOptional | ServerSignatures.

#[export] Instance scheme_eq_dec : EqDecision Scheme.
Proof. solve_decision. Defined.

(** A registered application service: its token, its user, and the pattern of
    the users it may act for, a regular expression. *)
Record RegistrationInfo := mkRegistration { as_token : string; as_sender : string; as_users : string → bool }.

Inductive Token :=
  | TokenAppservice (info : RegistrationInfo)
  | TokenUser (user device : string) (expires_at : option N)
  | TokenExpired (user device : string)
  | TokenInvalid
  | TokenNone.

Record Auth := mkAuth {
  auth_origin : option string;
  sender_user : option string;
  sender_device : option string;
  appservice_info : option RegistrationInfo;
}.

Definition auth_default : Auth := mkAuth None None None None.

Inductive AuthError :=
  | AuthUser (e : UserError)
  | UnknownToken (soft_logout : bool)
  | MissingToken
  | AuthUnauthorized
  | UserLocked
  | UserSuspended
  | InvalidUsername
  | Exclusive
  | UnknownDevice.

Record AuthConfig := mkAuthConfig {
  require_auth_for_profile_requests : bool;
  allow_public_room_directory_without_auth : bool;
  turn_allow_guests : bool;
  refresh_token_hard_logout : bool;
}.

(** The parts of a request that matter here. *)
Record Request := mkRequest {
  bearer : option string;
  query_access_token : option string;
  query_user_id : option string;
  query_device_id : option string;
}.

Section auth.
Context `{Engine, JsonParser, Users} {W : Type}.
Implicit Types (u : UserData) (w : W) (route : Route) (req : Request).

Definition is_user_match (info : RegistrationInfo) (user : string) : bool :=
  bool_decide (user = as_sender info)
  || (as_users info user && bool_decide (server_name user = server_name (as_sender info))).

(** [find_from_access_token] over the registrations. *)
Definition find_from_access_token (registered : list RegistrationInfo) (token : string) : option RegistrationInfo :=
  list_find (λ info, as_token info = token) registered ≫= λ x, Some x.2.

Definition is_not_found (e : UserError) : bool :=
  match e with UserDb NotFound | UserNotFound _ => true | _ => false end.

(** [select_ok] takes the lookup that succeeds first, or else the last error;
    [user_first] is which of the two completes first. *)
Definition find_token (registered : list RegistrationInfo) (user_first : bool) u (token : option string) : Result AuthError Token :=
  match token with
  | None => Ok TokenNone
  | Some tk =>
      match find_from_token u tk, find_from_access_token registered tk with
      | Ok (user, device, tp), None => Ok (TokenUser user device tp)
      | Ok (user, device, tp), Some info => Ok (if user_first then TokenUser user device tp else TokenAppservice info)
      | Err _, Some info => Ok (TokenAppservice info)
      | Err e, None => if user_first || is_not_found e then Ok TokenInvalid else Err (AuthUser e)
      end
  end.

Definition expire (now : N) (token : Token) : Token :=
  match token with
  | TokenUser user device (Some tp) => if (tp <? now)%N then TokenExpired user device else token
  | _ => token
  end.

Definition check_auth_still_required (cfg : AuthConfig) (token : Token) route : Result AuthError unit :=
  let is_profile := bool_decide (route ∈ [GetProfile; GetProfileField; GetDisplayName; GetAvatarUrl]) in
  let is_public_rooms := bool_decide (route = GetPublicRooms) in
  if (is_profile && require_auth_for_profile_requests cfg)
     || (is_public_rooms && negb (allow_public_room_directory_without_auth cfg))
  then match token with
       | TokenAppservice _ | TokenUser _ _ _ => Ok tt
       | _ => Err MissingToken
       end
  else Ok tt.

Definition auth_appservice u req (info : RegistrationInfo) : Result AuthError Auth :=
  let? user := match query_user_id req with
               | Some id => if user_id_ok id then Ok id else Err InvalidUsername
               | None => Ok (as_sender info)
               end in
  if is_user_match info user then
    match query_device_id req with
    | Some device =>
        if device_exists u user device then Ok (mkAuth None (Some user) (Some device) (Some info)) else Err UnknownDevice
    | None => Ok (mkAuth None (Some user) None (Some info))
    end
  else Err Exclusive.

(** An expired token costs the device its access token. *)
Definition expired_token user device u w : Result AuthError Auth * (UserData * W) :=
  (Err (UnknownToken true), (ignoring (remove_access_token user device) (u, w)).2).

Definition user_auth (user device : string) : Auth := mkAuth None (Some user) (Some device) None.
Definition info_auth (info : RegistrationInfo) : Auth := mkAuth None None None (Some info).

Definition dispatch_token (cfg : AuthConfig) (server_auth : Result AuthError string) (scheme : Scheme) req route (token : Token) u w :
    Result AuthError Auth * (UserData * W) :=
  match token, scheme with
  | TokenInvalid, NoScheme =>
      if bool_decide (is_Some (query_access_token req)) && bool_decide (route = GetOpenidUserinfo)
      then (Ok auth_default, (u, w)) else (Err (UnknownToken false), (u, w))
  | TokenInvalid, _ => (Err (UnknownToken false), (u, w))
  | TokenExpired user device, _ => expired_token user device u w
  | TokenUser user device _, (AppserviceToken | ServerSignatures) => (Err AuthUnauthorized, (u, w))
  | TokenUser user device _, _ => (Ok (user_auth user device), (u, w))
  | TokenAppservice info, AccessToken => (auth_appservice u req info, (u, w))
  | TokenAppservice info, ServerSignatures => (Err AuthUnauthorized, (u, w))
  | TokenAppservice info, _ => (Ok (info_auth info), (u, w))
  | TokenNone, AccessToken =>
      if bool_decide (route = GetTurnServer) && turn_allow_guests cfg then (Ok auth_default, (u, w)) else (Err MissingToken, (u, w))
  | TokenNone, AppserviceToken => (Err MissingToken, (u, w))
  | TokenNone, ServerSignatures => (result_map (λ origin, mkAuth (Some origin) None None None) server_auth, (u, w))
  | TokenNone, _ => (Ok auth_default, (u, w))
  end.

Definition locked_account_check u (a : Auth) route : Result AuthError unit :=
  match sender_user a with
  | Some user => if bool_decide (route ∈ [LogoutOne; LogoutAll]) || negb (is_locked u user) then Ok tt else Err UserLocked
  | None => Ok tt
  end.

Definition suspended_account_check u (a : Auth) route : Result AuthError unit :=
  match sender_user a with
  | Some user => if negb (bool_decide (route ∈ [SetDisplayName; SetAvatarUrl])) || negb (is_suspended u user) then Ok tt else Err UserSuspended
  | None => Ok tt
  end.

(** The two checks run together; the first error wins, either may be first. *)
Definition auth (cfg : AuthConfig) (registered : list RegistrationInfo) (user_first : bool) (server_auth : Result AuthError string)
    (now : N) (scheme : Scheme) req route u w : Result AuthError Auth * (UserData * W) :=
  let presented := match bearer req with Some t => Some t | None => query_access_token req end in
  match find_token registered user_first u presented with
  | Err e => (Err e, (u, w))
  | Ok found =>
      let token := expire now found in
      match (if decide (scheme = NoScheme) then check_auth_still_required cfg token route else Ok tt) with
      | Err e => (Err e, (u, w))
      | Ok _ =>
          match dispatch_token cfg server_auth scheme req route token u w with
          | (Err e, s) => (Err e, s)
          | (Ok a, (u', w')) =>
              match locked_account_check u' a route, suspended_account_check u' a route with
              | Ok _, Ok _ => (Ok a, (u', w'))
              | Err e, _ | _, Err e => (Err e, (u', w'))
              end
          end
      end
  end.
End auth.

Section session.
Context `{Engine, JsonParser, Users, DeviceJson} {W : Type} `{!Around W}.
Implicit Types (u : UserData) (w : W).

(** What the client gets: the tokens and the lifetime of the first. *)
Definition refresh_token_route (cfg : UserConfig) (acfg : AuthConfig) (parse : string → option DehydratedDevice) (now : N)
    (claim random random' : string) u w : Result AuthError (string * string * option N) * (UserData * W) :=
  if negb (String.prefix "refresh_" claim) then (Err (AuthUser (UserForbidden "Refresh token is malformed.")), (u, w))
  else
    match find_from_token u claim with
    | Err e => (Err (AuthUser (UserForbidden "Refresh token is unrecognized")), (u, w))
    | Ok (user, device, tp) =>
        if match tp with Some t => timepoint_has_passed now t | None => false end then
          let s := if refresh_token_hard_logout acfg then (remove_device cfg parse user device (u, w)).2
                   else (ignoring (remove_refresh_token user device) (u, w)).2 in
          (Err (UnknownToken (negb (refresh_token_hard_logout acfg))), s)
        else
          let refresh := generate_refresh_token random in
          let '(access, expires_in) := generate_access_token cfg true random' in
          match set_access_token cfg now user device access expires_in (Some refresh) (u, w) with
          | (Ok _, s) => (Ok (access, refresh, expires_in), s)
          | (Err e, s) => (Err (AuthUser e), s)
          end
    end.

(** The sender of an authenticated request, with the device. *)
Definition logout_route (cfg : UserConfig) (parse : string → option DehydratedDevice) (user device : string) :
    Op UserError (UserData * W) unit := remove_device cfg parse user device.
Definition logout_all_route (cfg : UserConfig) (parse : string → option DehydratedDevice) (user : string) :
    Op UserError (UserData * W) unit := remove_devices cfg parse user.
End session.

(** ** Who passes *)

Section passing.
Context `{Engine, JsonParser, Users} {W : Type}.
Implicit Types (u : UserData) (w : W) (route : Route) (req : Request) (user device token : string).

Definition presented req : option string := match bearer req with Some t => Some t | None => query_access_token req end.

(** The token is a user's, in time. *)
Definition speaks (now : N) u req user device : Prop :=
  ∃ token tp, presented req = Some token ∧ find_from_token u token = Ok (user, device, tp)
    ∧ match tp with Some t => (now <= t)%N | None => True end.

(** The token is an application service's that may act for the user. *)
Definition acts_for (registered : list RegistrationInfo) req user : Prop :=
  ∃ info, info ∈ registered ∧ presented req = Some (as_token info) ∧ is_user_match info user = true.

Lemma find_access_spec registered token info :
  find_from_access_token registered token = Some info → info ∈ registered ∧ as_token info = token.
Proof.
  unfold find_from_access_token. destruct (list_find _ registered) as [[i x]|] eqn:E; cbn; [|done]. intros [= ->].
  apply list_find_Some in E as (Hl & Ht & _). split; [by eapply list_elem_of_lookup_2|done].
Qed.

(** What a looked-up token stands for. *)
Lemma find_token_spec registered first now u req t :
  find_token registered first u (presented req) = Ok t →
  match expire now t with
  | TokenUser user device tp => speaks now u req user device
  | TokenAppservice info => info ∈ registered ∧ presented req = Some (as_token info)
  | _ => True
  end.
Proof.
  unfold find_token. destruct (presented req) as [token|] eqn:Hp; [|by intros [= <-]].
  destruct (find_from_access_token registered token) as [info|] eqn:Ha.
  - destruct (find_access_spec _ _ _ Ha) as [Hin Et].
    destruct (find_from_token u token) as [[[user device] tp]|e] eqn:Hf; [|intros [= <-]; cbn; by rewrite Et].
    destruct first; intros [= <-]; [|cbn; by rewrite Et]. cbn. destruct tp as [n|].
    + destruct (n <? now)%N eqn:Hn; [done|]. exists token, (Some n). split_and!; [done..|]. by apply N.ltb_ge.
    + by exists token, None.
  - destruct (find_from_token u token) as [[[user device] tp]|e] eqn:Hf.
    + intros [= <-]. cbn. destruct tp as [n|].
      * destruct (n <? now)%N eqn:Hn; [done|]. exists token, (Some n). split_and!; [done..|]. by apply N.ltb_ge.
      * by exists token, None.
    + destruct (first || is_not_found e); by intros [= <-].
Qed.

Lemma appservice_match u req info a :
  auth_appservice u req info = Ok a → ∃ user, sender_user a = Some user ∧ is_user_match info user = true.
Proof.
  unfold auth_appservice. destruct (match query_user_id req with Some id => _ | None => _ end) as [user|]; [|done]. cbn.
  destruct (is_user_match info user) eqn:Hm; [|done]. destruct (query_device_id req) as [device|].
  - destruct (device_exists u user device); [|done]. intros [= <-]. by exists user.
  - intros [= <-]. by exists user.
Qed.

Lemma dispatch_passes cfg server registered scheme now req route u w t a s :
  match t with
  | TokenUser user device tp => speaks now u req user device
  | TokenAppservice info => info ∈ registered ∧ presented req = Some (as_token info)
  | _ => True
  end →
  dispatch_token cfg server scheme req route t u w = (Ok a, s) →
  s = (u, w) ∧ match sender_user a with
  | Some user => (appservice_info a = None ∧ ∃ device, sender_device a = Some device ∧ speaks now u req user device)
                 ∨ acts_for registered req user
  | None => True
  end.
Proof.
  intros Ht. destruct t as [info|user device tp|user device| |]; unfold dispatch_token, expired_token.
  - destruct Ht as [Hin Hp]. destruct scheme; try (by intros [= <- <-]).
    intros [= Ha <-]. split; [done|]. destruct (appservice_match u req info a Ha) as (user & -> & Hm). right. by exists info.
  - destruct scheme; intros [= <- <-]; (split; [done|]; left; split; [done|]; by exists device).
  - by intros [=].
  - destruct scheme; try done. case_match; by intros [= <- <-].
  - destruct scheme; try (by intros [= <- <-]); [case_match; by intros [= <- <-]|].
    destruct server; by intros [= <- <-].
Qed.

Lemma checks_pass u (a : Auth) route :
  locked_account_check u a route = Ok tt → suspended_account_check u a route = Ok tt →
  match sender_user a with
  | Some user => (is_locked u user = true → route = LogoutOne ∨ route = LogoutAll)
      ∧ (is_suspended u user = true → route ≠ SetDisplayName ∧ route ≠ SetAvatarUrl)
  | None => True
  end.
Proof.
  unfold locked_account_check, suspended_account_check. destruct (sender_user a) as [user|]; [|done].
  destruct (is_locked u user), (is_suspended u user); rewrite ?orb_true_r, ?orb_false_r; cbn [negb];
    destruct route; vm_compute; intros ? ?; split; intros ?; try done; auto.
Qed.

Lemma auth_passes cfg registered first server now scheme req route u w a s :
  auth cfg registered first server now scheme req route u w = (Ok a, s) →
  s = (u, w) ∧ locked_account_check u a route = Ok tt ∧ suspended_account_check u a route = Ok tt
  ∧ match sender_user a with
    | Some user => (appservice_info a = None ∧ ∃ device, sender_device a = Some device ∧ speaks now u req user device)
                   ∨ acts_for registered req user
    | None => True
    end.
Proof.
  unfold auth. fold (presented req). destruct (find_token _ _ _ _) as [t|] eqn:Hf; [|done].
  pose proof (find_token_spec registered first now u req t Hf) as Ht.
  destruct (if decide (scheme = NoScheme) then _ else _) as [[]|]; [|done].
  destruct (dispatch_token _ _ _ _ _ _ _ _) as [[a'|e] [u' w']] eqn:Hd; [|done].
  destruct (dispatch_passes cfg server registered scheme now req route u w _ a' (u', w') Ht Hd) as [[= -> ->] Hp].
  destruct (locked_account_check u a' route) as [[]|] eqn:Hl; [|done].
  destruct (suspended_account_check u a' route) as [[]|] eqn:Hs; [|done]. by intros [= <- <-].
Qed.

(** Conversely a token in time passes where access tokens do. *)
Lemma token_passes cfg registered first server now req route u w token user device tp :
  presented req = Some token → find_from_token u token = Ok (user, device, tp) →
  match tp with Some t => (now <= t)%N | None => True end →
  find_from_access_token registered token = None → is_locked u user = false → is_suspended u user = false →
  auth cfg registered first server now AccessToken req route u w = (Ok (user_auth user device), (u, w)).
Proof.
  intros Hp Hf Ht Ha Hl Hs. unfold auth. fold (presented req). rewrite Hp. unfold find_token. rewrite Hf, Ha.
  replace (expire now (TokenUser user device tp)) with (TokenUser user device tp).
  2:{ unfold expire. destruct tp as [t|]; [|done]. by rewrite (proj2 (N.ltb_ge _ _) Ht). }
  rewrite decide_False by done. cbn. unfold locked_account_check, suspended_account_check. cbn.
  by rewrite Hl, Hs, !orb_true_r.
Qed.
End passing.

(** ** Properties *)

Section properties.
Context `{Engine, JsonParser, Users, DeviceJson} {W : Type} `{!Around W}.
Implicit Types (u : UserData) (w : W) (route : Route) (req : Request) (user device token : string).

(** C13.  A request that passes speaks for a user only with a token of that user's
    device that has not expired, or with one of an application service that may
    act for the user; a locked account can only log out, a suspended one cannot
    change its profile; and passing changes nothing. *)
Theorem auth_sound cfg registered first server now scheme req route u w a s :
  auth cfg registered first server now scheme req route u w = (Ok a, s) →
  s = (u, w)
  ∧ match sender_user a with
    | Some user =>
        ((appservice_info a = None ∧ ∃ device, sender_device a = Some device ∧ speaks now u req user device)
         ∨ acts_for registered req user)
        ∧ (is_locked u user = true → route = LogoutOne ∨ route = LogoutAll)
        ∧ (is_suspended u user = true → route ≠ SetDisplayName ∧ route ≠ SetAvatarUrl)
    | None => True
    end.
Proof.
  intros (-> & Hl & Hs & Hp)%auth_passes. split; [done|]. pose proof (checks_pass u a route Hl Hs) as Hc. by destruct (sender_user a).
Qed.

(** C16.  Logging out ends the session: whatever token a later request presents, on
    any endpoint and at any time, it does not speak for that device. *)
Theorem logout_ends_session cfg parse user device u w ids :
  tokens_ok u → ids_ok user device → data_inv (user_counter u) ids →
  (dispatched (counter (user_counter u)) + 1 <= U64_MAX)%N →
  ∃ u' w', logout_route cfg parse user device (u, w) = (Ok tt, (u', w'))
    ∧ ∀ acfg registered first server now scheme req route a s,
        auth acfg registered first server now scheme req route u' w' = (Ok a, s) →
        ¬ (sender_user a = Some user ∧ sender_device a = Some device ∧ ¬ acts_for registered req user).
Proof.
  intros Hok Hi Hd Hn.
  destruct (removed_tokens cfg parse user device u w ids Hok Hi Hd Hn) as (u' & w' & E & _ & _ & Hok' & _ & _ & Htok).
  exists u', w'. split; [done|]. intros acfg registered first server now scheme req route a s Ha (Eu & Ed & Hna).
  apply auth_passes in Ha as (_ & _ & _ & Hp). rewrite Eu in Hp. destruct Hp as [[_ (d & Ed' & Hsp)]|]; [|done].
  rewrite Ed in Ed'. injection Ed' as <-. destruct Hsp as (token & tp & _ & Hf & _). revert Hf.
  apply none_found; [done|]. intros t Ht. rewrite Htok by by left. by apply logged_out_gone.
Qed.

(** A refresh token passes for an access token: the two kinds share a table and
    nothing tells them apart, so a client whose access token expires goes on
    with the refresh token for as long as that lives. *)
Theorem refresh_token_is_bearer cfg acfg registered first server now later u w user device refresh route :
  tokens_ok u → ids_ok user device → stored_utf8 u user device → in_range (deadline now (refresh_token_ttl cfg)) →
  find_from_access_token registered refresh = None → is_locked u user = false → is_suspended u user = false →
  match next_stamp cfg now u user device with Some n => (later <= n * NANOS)%N | None => True end →
  ∃ u', set_refresh_token cfg now user device refresh (u, w) = (Ok tt, (u', w))
    ∧ auth acfg registered first server later AccessToken (mkRequest (Some refresh) None None None) route u' w
      = (Ok (user_auth user device), (u', w)).
Proof.
  intros Hok Hi Hutf Hr Ha Hl Hs Ht. eexists. split; [by apply set_refresh_run|].
  assert (∀ t k, ¬ token_data t → get_row (with_token userdeviceid_refresh user device refresh (next_stamp cfg now u user device)
    (without_token userdeviceid_refresh user device u)) t k = get_row u t k) as Hrow.
  { intros t k Htd. rewrite with_token_row; [|by right|by intros ->; apply Htd; right].
    rewrite decide_False by (intros [-> _]; apply Htd; left; by right).
    apply without_token_row; [intros ->; apply Htd; by right|intros ->; destruct Htd; left; by right]. }
  eapply token_passes; [done|apply with_found; [by right|done|by apply next_stamp_ok]| |done|..].
  - by destruct (next_stamp cfg now u user device).
  - unfold is_locked in *. rewrite Hrow; [done|]. unfold token_data, token_table. naive_solver.
  - unfold is_suspended in *. rewrite Hrow; [done|]. unfold token_data, token_table. naive_solver.
Qed.

(** An expired refresh token that is presented costs the device its access
    token, in time or not: what is revoked is the other kind. *)
Theorem expired_refresh_revokes acfg registered first server now scheme route u w user device refresh access stamp tp :
  tokens_ok u → ids_ok user device →
  find_from_access_token registered refresh = None → scheme ≠ NoScheme →
  find_from_token u refresh = Ok (user, device, Some stamp) → (stamp < now)%N →
  get_row u userdeviceid_token (pair_key user device) = Ok access →
  find_from_token u access = Ok (user, device, tp) → access ≠ refresh →
  let s := auth acfg registered first server now scheme (mkRequest (Some refresh) None None None) route u w in
  s.1 = Err (UnknownToken true)
  ∧ find_from_token s.2.1 access = Err (UserDb NotFound)
  ∧ find_from_token s.2.1 refresh = Ok (user, device, Some stamp).
Proof.
  intros Hok Hi Ha Hsch Hf Hst Hr Hfa Hne. unfold auth. cbn [bearer]. unfold find_token. rewrite Hf, Ha. cbn [expire].
  rewrite (proj2 (N.ltb_lt _ _) Hst), decide_False by done. unfold dispatch_token, expired_token, remove_access_token.
  destruct (ignoring_remove_run (W := W) userdeviceid_token user device u w) as [x E]. cbn. rewrite E. cbn.
  split_and!; [done| |].
  - apply find_unread. rewrite without_token_find by done. by rewrite Hr, decide_True.
  - rewrite (find_ext u); [done|]. rewrite without_token_find by done. rewrite Hr, decide_False; [done|]. cbn. congruence.
Qed.
End properties.

Section auth_witnesses.
#[local] Existing Instance ordered_engine.
#[local] Existing Instance ShortExample.json.
#[local] Existing Instance MembersExample.users.
Import UsersExample DevicesExample.

Definition open_server : AuthConfig := mkAuthConfig false true false false.
Definition with_bearer (token : string) : Request := mkRequest (Some token) None None None.

Lemma example_passes :
  auth open_server [] true (Err MissingToken) 7 AccessToken (with_bearer access) OtherRoute logged_in tt
  = (Ok (user_auth user "DEV"), (logged_in, tt)).
Proof. apply (token_passes open_server [] true (Err MissingToken) 7 (with_bearer access) OtherRoute logged_in tt access user "DEV" None);
  [reflexivity|exact logged_in_access|exact I|reflexivity|vm_compute; reflexivity..]. Qed.

Lemma auth_sound_witness :
  speaks 7 logged_in (with_bearer access) user "DEV".
Proof.
  destruct (auth_sound (W := unit) open_server [] true (Err MissingToken) 7 AccessToken (with_bearer access) OtherRoute logged_in tt
    (user_auth user "DEV") (logged_in, tt)) as [_ [[[_ (d & [= <-] & Hs)]|Ha] _]]; [exact example_passes|exact Hs|].
  destruct Ha as (info & Hin & _). by apply elem_of_nil in Hin.
Defined.

Lemma logout_ends_session_witness :
  ∃ u' w', logout_route config (λ _, None) user "DEV" (logged_in, tt) = (Ok tt, (u', w'))
    ∧ ∀ token a s, auth open_server [] true (Err MissingToken) 7 AccessToken (with_bearer token) OtherRoute u' w' = (Ok a, s) →
        ¬ (sender_user a = Some user ∧ sender_device a = Some "DEV").
Proof.
  destruct (logout_ends_session (W := unit) config (λ _, None) user "DEV" logged_in tt ∅) as (u' & w' & E & Hno);
    [exact logged_in_ok|exact example_ids|exact no_users_counter|vm_compute; congruence|].
  exists u', w'. split; [exact E|]. intros token a s Ha [Eu Ed]. eapply Hno; [exact Ha|]. split_and!; [exact Eu|exact Ed|].
  intros (info & Hin & _). by apply elem_of_nil in Hin.
Defined.
End auth_witnesses.
