(* ===== verification/Json.v ===== *)
(** * JSON values ([serde_json::Value])

    Objects are maps ordered by key ([serde_json] is built without
    [preserve_order]).  Integers keep their sign class as [serde_json] does;
    floating-point numbers are opaque.  Serialisation belongs to the crate and
    is the class [JsonCodec]; only what is documented of it is assumed. *)

From S2P Require Import Prelude Bytes.

Local Set Warnings "-register-all".

Inductive Number :=
  | PosInt (n : N)
  | NegInt (z : Z)
  | Float (repr : string).

Inductive Value :=
  | Null
  | Bool (b : bool)
  | Num (n : Number)
  | Str (s : string)
  | Array (l : list Value)
  | Object (m : gmap string Value).

Definition json_get (v : Value) (key : string) : option Value :=
  match v with Object m => m !! key | _ => None end.

Definition as_str (v : Value) : option string := match v with Str s => Some s | _ => None end.
Definition as_bool (v : Value) : option bool := match v with Bool b => Some b | _ => None end.
Definition as_array (v : Value) : option (list Value) := match v with Array l => Some l | _ => None end.
Definition as_object (v : Value) : option (gmap string Value) :=
  match v with Object m => Some m | _ => None end.

Definition as_u64 (v : Value) : option N := match v with Num (PosInt n) => Some n | _ => None end.

Definition as_i64 (v : Value) : option Z :=
  match v with
  | Num (PosInt n) => if (Z.of_N n <=? I64_MAX)%Z then Some (Z.of_N n) else None
  | Num (NegInt z) => Some z
  | _ => None
  end.

Definition is_null (v : Value) : bool := match v with Null => true | _ => false end.

(** [Value::from(n)] for an unsigned integer, and the object literal of
    [json!]. *)
Definition json_u64 (n : N) : Value := Num (PosInt n).
Definition obj (l : list (string * Value)) : Value := Object (list_to_map l).

(** ** Values as trees, which makes them countable *)

Definition ValueTree : Type := gen_tree (unit + bool + (N + Z + string) + string).

Fixpoint value_tree (v : Value) : ValueTree :=
  match v with
  | Null => GenLeaf (inl (inl (inl tt)))
  | Bool b => GenLeaf (inl (inl (inr b)))
  | Num (PosInt n) => GenLeaf (inl (inr (inl (inl n))))
  | Num (NegInt z) => GenLeaf (inl (inr (inl (inr z))))
  | Num (Float r) => GenLeaf (inl (inr (inr r)))
  | Str s => GenLeaf (inr s)
  | Array l => GenNode 0 (value_tree <$> l)
  | Object m => GenNode 1 (map_fold (λ k v ts, GenLeaf (inr k) :: value_tree v :: ts) [] m)
  end.

Fixpoint value_size (v : Value) : nat :=
  match v with
  | Array l => S (sum_list (value_size <$> l))
  | Object m => S (map_fold (λ _ v n, value_size v + n)%nat 0%nat m)
  | _ => 1
  end.

Fixpoint tree_value (t : ValueTree) : option Value :=
  match t with
  | GenLeaf (inl (inl (inl _))) => Some Null
  | GenLeaf (inl (inl (inr b))) => Some (Bool b)
  | GenLeaf (inl (inr (inl (inl n)))) => Some (Num (PosInt n))
  | GenLeaf (inl (inr (inl (inr z)))) => Some (Num (NegInt z))
  | GenLeaf (inl (inr (inr r))) => Some (Num (Float r))
  | GenLeaf (inr s) => Some (Str s)
  | GenNode 0 ts => Array <$> mapM tree_value ts
  | GenNode _ ts =>
      let fix fields ts :=
        match ts with
        | GenLeaf (inr k) :: t :: ts' => v ← tree_value t; m ← fields ts'; Some (<[k := v]> m)
        | _ => Some ∅
        end in
      Object <$> fields ts
  end.

Lemma value_fields_size (m : gmap string Value) k v :
  m !! k = Some v → value_size v ≤ map_fold (λ _ v n, value_size v + n)%nat 0%nat m.
Proof.
  apply (map_fold_weak_ind (λ r m, m !! k = Some v → value_size v ≤ r)%nat); [done|].
  intros k' v' m' r _ IH [[-> ->]|[_ Hv]]%lookup_insert_Some; [lia|]. specialize (IH Hv). lia.
Qed.

Lemma value_tree_value v : tree_value (value_tree v) = Some v.
Proof.
  assert (∀ n v, value_size v ≤ n → tree_value (value_tree v) = Some v) as Hall; [|by apply (Hall (value_size v))].
  clear v. induction n as [|n IH]; intros v Hn.
  { destruct v as [| | [] | | |]; cbn in Hn; lia. }
  destruct v as [|b|[]|s|l|m]; try done; cbn [value_tree tree_value].
  - assert (mapM tree_value (value_tree <$> l) = Some l) as ->; [|done]. cbn in Hn. clear -Hn IH.
    induction l as [|v l IHl]; [done|]. cbn in Hn |- *. rewrite IH by lia. cbn. by rewrite IHl by lia.
  - cbn [value_size] in Hn.
    assert (∀ k v, m !! k = Some v → tree_value (value_tree v) = Some v) as Hv.
    { intros k v Hv. apply IH. pose proof (value_fields_size m k v Hv). lia. }
    clear -Hv. match goal with |- Object <$> ?f _ = _ => set (fields := f) end.
    assert (fields (map_fold (λ k v ts, GenLeaf (inr k) :: value_tree v :: ts) [] m) = Some m) as ->; [|done].
    revert Hv. apply (map_fold_weak_ind (λ r m, (∀ k v, m !! k = Some v → tree_value (value_tree v) = Some v) → fields r = Some m)); [done|].
    intros k v m' r Hk IHm Hv. cbn. rewrite (Hv k v) by by rewrite lookup_insert_eq. cbn. rewrite IHm; [done|].
    intros k' v' Hv'. apply (Hv k'). rewrite lookup_insert_ne; [done|]. congruence.
Qed.

#[export] Instance value_eq_dec : EqDecision Value.
Proof.
  intros v v'. destruct (decide (value_tree v = value_tree v')) as [E|E]; [left|right; congruence].
  apply (inj Some). by rewrite <-!value_tree_value, E.
Defined.
#[export] Instance value_countable : Countable Value := inj_countable value_tree tree_value value_tree_value.

Class JsonCodec := {
  json_to_vec : Value → option string;
  json_from_slice : string → option Value;
  json_to_string : Value → string;
  (** An object whose values are strings serialises, and parses back. *)
  json_flat_roundtrip : ∀ m : gmap string string,
    ∃ b, json_to_vec (Object (Str <$> m)) = Some b
         ∧ json_from_slice b = Some (Object (Str <$> m));
}.

(** [serde_json::to_vec(&body).unwrap_or_default()]. *)
Definition to_vec_or_default `{JsonCodec} (v : Value) : string := default "" (json_to_vec v).

(** Look a concrete key up in an object built by insertions. *)
Ltac json_lookup :=
  unfold obj, json_get; cbn [list_to_map foldr fst snd];
  repeat first [rewrite lookup_insert_eq | rewrite lookup_insert_ne by done | rewrite lookup_empty];
  cbn [mbind option_bind as_str as_bool as_u64 as_array as_object fmap option_fmap option_map].
