(* ===== verification/DeviceKeys.v ===== *)
(** * Keys of devices and users ([src/src/service/users/keys.rs],
    [dehydrated_device.rs], [src/src/api/client/keys/claim_keys.rs])

    One-time keys wait in a pool per device, numbered in the order they were
    uploaded; a claim takes the oldest of its algorithm, and a device whose pool
    is empty answers with a fallback key.  Key identifiers are ruma's
    ([KeyIds]); the text of keys is serde's. *)

From S2P Require Import Prelude Effects Bytes Slices DbCodec DbMap Pairs Counter Short PduId Scans MemberCache Memberships Accounts Devices ToDevice Json.

(** [OneTimeKeyId]: which texts are identifiers, and the algorithm of one. *)
Class KeyIds := {
  key_id_ok : string → bool;
  key_algorithm : string → string;
}.

(** A fallback key, whether it was handed out, and its text. *)
Record FallbackEntry := mkFallback { fallback_id : string; fallback_key : string; fallback_used : bool }.

Class KeyTexts := {
  one_time_key_valid : string → bool;
  print_fallback : FallbackEntry → string;
  parse_fallback : string → option FallbackEntry;
  (** The values of [keys] of a cross-signing key. *)
  cross_signing_keys : string → option (list string);
}.

Section keys.
Context `{Engine, JsonParser, Users, DeviceJson, KeyIds, KeyTexts} {W : Type} `{!Around W}.
Implicit Types (u : UserData) (user device id : string) (w : W).
Notation M := (Op UserError (UserData * W)).

(** ** One-time keys *)

Definition otk_ser user device (count : N) id : Ser := STuple [SStr user; SStr device; SU64 count; SStr id].
Definition OtkRowKey : De := DTuple [DStr user_id_ok; DStr (λ _, true); DU64; DStr key_id_ok].

Definition otk_of (v : DeValue) : option (string * string * N * string) :=
  match v with VTuple [VStr user; VStr device; VU64 count; VStr id] => Some (user, device, count, id) | _ => None end.

Definition otk_keys u user device : Result DbError (list (string * string * N * string)) :=
  let? keys := keys_prefix (user_tables u onetimekeyid4225_otk) OtkRowKey (device_prefix user device) in Ok (omap otk_of keys).

(** [available] is whether the database has the column. *)
Definition add_one_time_key (available : bool) user device id (key : string) : M unit :=
  if negb available then throw (UserDatabase "one-time-key column unavailable")
  else
    do known := tables (λ u, device_exists u user device) in
    if negb known then throw (UserDatabase "User does not exist or device has no metadata.")
    else if negb (one_time_key_valid key) then throw (UserErr "SerdeDe")
    else
      do rows := (λ s, (udb (otk_keys s.1 user device), s)) in
      if bool_decide (id ∈ (λ r : string * string * N * string, r.2) <$> rows) then ret tt
      else counting (λ count,
        trying (change onetimekeyid4225_otk (λ tb, put tb (otk_ser user device count id) (json_of key))) ;;
        trying (change userid_lastonetimekeyupdate (λ tb, raw_put tb user (SU64 count)))).

Definition add_one_time_keys (available : bool) user device (keys : list (string * string)) : M unit :=
  for_each (λ k, ignoring (add_one_time_key available user device k.1 k.2) ;; ret tt) keys.

Definition last_one_time_keys_update u user : N :=
  match deserialized_u64 (get_row u userid_lastonetimekeyupdate user) with Ok n => n | Err _ => 0%N end.

(** The rows of the pool as the claim reads them. *)
Definition otk_rows u user device : Result DbError (list (string * string * N * string * string)) :=
  let? rows := stream_prefix (user_tables u onetimekeyid4225_otk) OtkRowKey DBytes (device_prefix user device) in
  Ok (omap (λ e, match otk_of e.1, e.2 with Some k, VBytes v => Some (k, v) | _, _ => None end) rows).

Definition next_key algorithm (rows : list (string * string * N * string * string)) : option (string * string * N * string * string) :=
  head (filter (λ r, key_algorithm r.1.2 = algorithm) rows).

(** What a claim does once it has read a row. *)
Definition finish_claim (row : option (string * string * N * string * string)) : M (string * string) :=
  match row with
  | None => throw (UserNotFound "No one-time-key found")
  | Some (user, device, count, id, val) =>
      trying (change onetimekeyid4225_otk (λ tb, del tb (otk_ser user device count id))) ;;
      if json_parses val then ret (id, val) else throw (UserErr "SerdeDe")
  end.

Definition take_one_time_key (available : bool) user device algorithm : M (string * string) :=
  if negb available then throw (UserNotFound "No one-time-key found")
  else counting (λ update_count,
    writing (set_row userid_lastonetimekeyupdate user (u64_to_be_bytes update_count)) ;;
    do rows := (λ s, (udb (otk_rows s.1 user device), s)) in
    finish_claim (next_key algorithm rows)).

Definition prune_one_time_keys (available : bool) user device (excess : nat) : M unit :=
  if negb available then ret tt
  else
    do rows := (λ s, (udb (otk_keys s.1 user device), s)) in
    for_each (λ r : string * string * N * string,
        trying (change onetimekeyid4225_otk (λ tb, del tb (otk_ser r.1.1.1 r.1.1.2 r.1.2 r.2))))
      (take excess rows).

(** [UInt] saturates at 2^53 - 1. *)
Definition uint_succ (n : N) : N := N.min (n + 1) 9007199254740991.

Definition count_one_time_keys (cfg : UserConfig) (available : bool) user device : M (gmap string N) :=
  if negb available then ret ∅
  else
    do rows := (λ s, (udb (otk_keys s.1 user device), s)) in
    let counts := foldl (λ acc r, partial_alter (λ o, Some (uint_succ (default 0%N o))) (key_algorithm r.2) acc)
                    (∅ : gmap string N) rows in
    let total := foldr (λ n acc, (N.to_nat n + acc)%nat) 0%nat (map_to_list counts).*2 in
    (if (one_time_key_limit cfg <? total)%nat
     then prune_one_time_keys available user device (total - one_time_key_limit cfg) else ret tt) ;;
    ret counts.

(** ** Fallback keys *)

Definition fallback_ser user device algorithm : Ser := STuple [SStr user; SStr device; SStr algorithm].

Definition add_fallback_key user device id (key : string) : M unit :=
  do known := tables (λ u, device_exists u user device) in
  if negb known then throw (UserDatabase "User does not exist or device has no metadata.")
  else if negb (one_time_key_valid key) then throw (UserErr "SerdeDe")
  else
    trying (change userdeviceidalgorithm_fallback (λ tb, put tb (fallback_ser user device (key_algorithm id))
                                                     (json_of (print_fallback (mkFallback id key false))))) ;;
    counting (λ count, trying (change userid_lastonetimekeyupdate (λ tb, raw_put tb user (SU64 count)))).

Definition add_fallback_keys user device (keys : list (string * string)) : M unit :=
  for_each (λ k, ignoring (add_fallback_key user device k.1 k.2) ;; ret tt) keys.

(** The row is rewritten as used, not removed. *)
Definition take_fallback_key user device algorithm : M (string * string) := λ s,
  match read_json_row parse_fallback (qry (user_tables s.1 userdeviceidalgorithm_fallback) (fallback_ser user device algorithm)) with
  | Err _ => (Err (UserNotFound "No fallback key found"), s)
  | Ok entry =>
      let updated := mkFallback (fallback_id entry) (fallback_key entry) true in
      (trying (change userdeviceidalgorithm_fallback (λ tb, put tb (fallback_ser user device algorithm) (json_of (print_fallback updated)))) ;;
       ret (fallback_id updated, fallback_key updated)) s
  end.

(** The prefix is the pair, with no separator after the device. *)
Definition unused_fallback_key_algorithms u user device : Result DbError (list string) :=
  let? rows := @stream_prefix _ (λ text, bool_decide (is_Some (parse_fallback text)))
                 (user_tables u userdeviceidalgorithm_fallback) (DTuple [DIgnore; DIgnore; DStr (λ _, true)]) DJson (pair_ser user device) in
  Ok (omap (λ e, match e with
                 | (VTuple [VUnit; VUnit; VStr algorithm], VJson text) =>
                     entry ← parse_fallback text; if fallback_used entry then None else Some algorithm
                 | _ => None
                 end) rows).

(** A claim on this server: a one-time key, or else the fallback key. *)
Definition claim_key (available : bool) user device algorithm : M (option (string * string)) :=
  do key := ignoring (take_one_time_key available user device algorithm) in
  match key with
  | Some k => ret (Some k)
  | None => ignoring (take_fallback_key user device algorithm)
  end.

(** ** Keys of devices and cross-signing keys *)

Definition add_device_keys (cfg : UserConfig) user device (keys : string) : M unit :=
  trying (change keyid_key (λ tb, put tb (pair_ser user device) (json_of keys))) ;;
  mark_device_key_update cfg user.

Definition get_device_keys u user device : Result DbError string :=
  read_string (qry (user_tables u keyid_key) (pair_ser user device)).

(** The one value of [keys], or why there is none. *)
Definition only_key (what : string) (key : string) : Result UserError string :=
  match cross_signing_keys key with
  | None => Err (UserInvalidParam ("Invalid " +:+ what))
  | Some [] => Err (UserInvalidParam (what +:+ " contained no key."))
  | Some [k] => Ok k
  | Some _ => Err (UserInvalidParam (what +:+ " contained more than one key."))
  end.

(** The row of a key: the user, the separator byte, the key. *)
Definition key_row user (k : string) : string := user +:+ sep_str +:+ k.

Definition parse_master_key user (key : string) : Result UserError string :=
  result_map (key_row user) (only_key "Master key" key).
Definition parse_user_signing_key (key : string) : Result UserError string := only_key "User signing key" key.

(** Each key that is given is written before the next is looked at. *)
Definition add_cross_signing_keys (cfg : UserConfig) user (master self_signing user_signing : option string) (notify : bool) : M unit :=
  match master with
  | Some key =>
      do k := lift (parse_master_key user key) in
      writing (set_row keyid_key k key) ;; writing (set_row userid_masterkeyid user k)
  | None => ret tt
  end ;;
  match self_signing with
  | Some key =>
      do k := lift (only_key "Self signing key" key) in
      writing (set_row keyid_key (key_row user k) key) ;; writing (set_row userid_selfsigningkeyid user (key_row user k))
  | None => ret tt
  end ;;
  match user_signing with
  | Some key =>
      do k := lift (parse_user_signing_key key) in
      trying (change keyid_key (λ tb, put_raw tb (pair_ser user k) key)) ;;
      trying (change userid_usersigningkeyid (λ tb, raw_put tb user (pair_ser user k)))
  | None => ret tt
  end ;;
  if notify then mark_device_key_update cfg user else ret tt.

(** ** Signatures *)

Context `{JsonCodec}.

Definition read_value (r : Result DbError string) : Result DbError Value :=
  let? v := @deserialized (λ text, bool_decide (is_Some (json_from_slice text))) DAny r in
  match v with
  | VJson text => ok_or (Codec SerdeDe) (json_from_slice text)
  | VStr s => Ok (Str s)
  | _ => Err (Codec InvalidValue)
  end.

(** The key with a signature of a user added, where it can take one. *)
Definition with_signature (key : Value) (sender : string) (signature : string * string) : Result UserError Value :=
  match key with
  | Object m =>
      let? signatures := ok_or (UserDatabase "key in keyid_key has no signatures field") (m !! "signatures") in
      match signatures with
      | Object sigs =>
          match default (Object ∅) (sigs !! sender) with
          | Object mine =>
              Ok (Object (<["signatures" := Object (<[sender := Object (<[signature.1 := Str signature.2]> mine)]> sigs)]> m))
          | _ => Err (UserDatabase "signatures in keyid_key for a user is invalid.")
          end
      | _ => Err (UserDatabase "key in keyid_key has invalid signatures field.")
      end
  | _ => Err (UserDatabase "key in keyid_key has no signatures field")
  end.

Definition sign_key (cfg : UserConfig) (target key_id : string) (signature : string * string) (sender : string) : M unit :=
  do raw := (λ s, (match qry (user_tables s.1 keyid_key) (pair_ser target key_id) with
                   | Ok v => Ok v
                   | Err _ => Err (UserInvalidParam "Tried to sign nonexistent key")
                   end, s)) in
  do key := lift (map_err (λ _, UserDatabase "key in keyid_key is invalid") (read_value (Ok raw))) in
  do signed := lift (with_signature key sender signature) in
  trying (change keyid_key (λ tb, put tb (pair_ser target key_id) (json_of (json_to_string signed)))) ;;
  mark_device_key_update cfg target.

(** Signatures of others than the asking user's own, the owner's and the allowed
    ones are left out; an identifier that is not one is an error. *)
Definition clean_signatures (key : Value) (sender : option string) user (allowed : string → bool) : Result UserError Value :=
  match key with
  | Object m =>
      match m !! "signatures" with
      | Some (Object sigs) =>
          if forallb (λ e : string * Value, user_id_ok e.1) (btree_iter sigs) then
            Ok (Object (<["signatures" := Object (filter (λ e, bool_decide (sender = Some user) || bool_decide (e.1 = user) || allowed e.1 = true) sigs)]> m))
          else Err (UserDatabase "Invalid user ID in database")
      | _ => Ok key
      end
  | _ => Ok key
  end.

Definition get_key u (key_id : string) (sender : option string) user (allowed : string → bool) : Result UserError string :=
  let? key := udb (read_value (get_row u keyid_key key_id)) in
  result_map json_to_string (clean_signatures key sender user allowed).
Definition get_master_key u (sender : option string) user (allowed : string → bool) : Result UserError string :=
  let? key_id := udb (get_row u userid_masterkeyid user) in get_key u key_id sender user allowed.
Definition get_self_signing_key u (sender : option string) user (allowed : string → bool) : Result UserError string :=
  let? key_id := udb (get_row u userid_selfsigningkeyid user) in get_key u key_id sender user allowed.
Definition get_user_signing_key u user : Result DbError string :=
  read_string (let? key_id := get_row u userid_usersigningkeyid user in get_row u keyid_key key_id).

(** ** Changes of keys *)

Definition change_of (e : DeValue * DeValue) : option (string * N * string) :=
  match e with (VTuple [VStr a; VU64 count], VStr user) => Some (a, count, user) | _ => None end.

(** The users whose keys changed after a number, by user or by room. *)
Definition keys_changed_user_or_room u (a : string) (from : N) (to : option N) : Result DbError (list (string * N)) :=
  let? rows := stream_from (user_tables u keychangeid_userid) (DTuple [DStr (λ _, true); DU64]) (DStr user_id_ok)
                 (change_ser a (u64_saturating_add from 1)) in
  Ok ((λ e : string * N * string, (e.2, e.1.2)) <$>
        take_while (λ e : string * N * string, bool_decide (e.1.1 = a) && (e.1.2 <=? default U64_MAX to)%N) (omap change_of rows)).
Definition keys_changed u user (from : N) (to : option N) : Result DbError (list string) :=
  result_map (fmap fst) (keys_changed_user_or_room u user from to).
Definition room_keys_changed u (room : string) (from : N) (to : option N) : Result DbError (list (string * N)) :=
  keys_changed_user_or_room u room from to.

(** ** The dehydrated device *)

Record DehydrateRequest := mkDehydrate {
  req_device : string; req_name : option string; req_data : string; req_keys : string;
  req_one_time : list (string * string); req_fallback : list (string * string);
}.

Definition set_dehydrated_device (cfg : UserConfig) (available : bool) (parse : string → option DehydratedDevice)
    (print : DehydratedDevice → string) (now : N) user (req : DehydrateRequest) : M unit :=
  do known := tables (λ u, exists_account u user) in
  if negb known then throw (UserPanic "Tried to create dehydrated device for non-existent user")
  else
    do existing := tables (λ u, get_dehydrated_device_id parse u user) in
    do clash := tables (λ u, device_exists u user (req_device req)) in
    if match existing with Ok _ => false | Err _ => clash end then throw (UserErr "A hydrated device already exists with that ID.")
    else
      match existing with Ok id => remove_device cfg parse user id | Err _ => ret tt end ;;
      create_device cfg now user (Some (req_device req)) "" None None None (req_name req) None ;;
      trying (change userid_dehydrateddevice (λ tb, raw_put tb user (json_of (print (mkDehydrated (req_device req) (req_data req)))))) ;;
      add_device_keys cfg user (req_device req) (req_keys req) ;;
      add_one_time_keys available user (req_device req) (req_one_time req) ;;
      add_fallback_keys user (req_device req) (req_fallback req).
End keys.

(** ** The pool of a device *)

Section pool.
Context `{Engine, JsonParser, Users, KeyIds} {W : Type}.
Implicit Types (u : UserData) (user device id val : string) (n : N) (w : W).

Definition otk_key user device n id : string := record_bytes [user; device; u64_to_be_bytes n; id].
Definition otk_id_ok n id : Prop := (n <= U64_MAX)%N ∧ utf8_valid id = true ∧ key_id_ok id = true.

Lemma otk_key_counted user device n id : otk_key user device n id = Scans.counted (queue_prefix user device) n (sep_str +:+ id).
Proof. unfold otk_key, Scans.counted, queue_prefix, pair_key. cbn. by rewrite !append_nil_r, <-!append_assoc. Qed.

Lemma otk_key_ser user device n id : serialize None (otk_ser user device n id) = Ok (otk_key user device n id).
Proof. unfold serialize, serialize_to_vec, otk_ser. cbn. unfold otk_key. cbn. by rewrite !append_nil_r, <-!append_assoc. Qed.

Lemma otk_key_read user device n id :
  ids_ok user device → otk_id_ok n id →
  deserialize_slice OtkRowKey (otk_key user device n id) = Ok (VTuple [VStr user; VStr device; VU64 n; VStr id]).
Proof.
  intros (Hu & Ha & Hd) (Hn & Hid & Hok).
  destruct (tuple_roundtrip json_parses [DStr user_id_ok; DStr (λ _, true); DU64; DStr key_id_ok] _ _ _ [] []
    (fields_cons _ _ _ _ _ _ _ _ _ (field_str _ false _ user Hu Ha)
      (fields_cons _ _ _ _ _ _ _ _ _ (field_str _ false (λ _, true) device Hd eq_refl)
        (fields_cons _ _ _ _ _ _ _ _ _ (field_u64 _ false n Hn)
          (fields_last _ _ _ _ _ (field_str _ true _ id Hid Hok)))))) as (_ & st & Hde & _); [constructor|].
  unfold deserialize_slice, OtkRowKey, otk_key. cbn [app] in Hde. by rewrite Hde.
Qed.

Lemma otk_key_inj user device n id user' device' n' id' :
  ids_ok user device → ids_ok user' device' → otk_id_ok n id → otk_id_ok n' id' →
  otk_key user device n id = otk_key user' device' n' id' → (user, device, n, id) = (user', device', n', id').
Proof.
  intros Hi Hi' Hk Hk' E. pose proof (otk_key_read user device n id Hi Hk) as Hr. rewrite E, otk_key_read in Hr by done. congruence.
Qed.

(** Every row is a key of a device. *)
Definition pool_ok u : Prop :=
  ∀ key val, get_row u onetimekeyid4225_otk key = Ok val →
  ∃ user device n id, key = otk_key user device n id ∧ ids_ok user device ∧ otk_id_ok n id.

Definition PoolRow : Type := string * string * N * string * string.
Definition row_key (r : PoolRow) : string := otk_key r.1.1.1.1 r.1.1.1.2 r.1.1.2 r.1.2.

(** Rows in the order of their keys, no key twice. *)
Definition key_before (x y : PoolRow) : Prop := key_le (row_key x) (row_key y) ∧ row_key x ≠ row_key y.

Definition read_row (e : string * string) : option PoolRow :=
  ok (deserialize_keyval OtkRowKey DBytes e) ≫= λ e, match otk_of e.1, e.2 with Some k, VBytes v => Some (k, v) | _, _ => None end.

Lemma deserialize_raw val : deserialize_slice DBytes val = Ok (VBytes val).
Proof.
  unfold deserialize_slice, from_slice. cbn [deserialize]. unfold record_trail, de_rest. cbn [de_pos de_buf]. by destruct val.
Qed.

Lemma row_read user device n id val :
  ids_ok user device → otk_id_ok n id → read_row (otk_key user device n id, val) = Some (user, device, n, id, val).
Proof.
  intros Hi Hk. unfold read_row, deserialize_keyval. cbn [fst snd]. rewrite otk_key_read by done. by rewrite deserialize_raw.
Qed.

(** The pool as a claim reads it: the device's rows in the order of their keys,
    which is the order of the numbers. *)
Lemma pool_exact u user device :
  pool_ok u → ids_ok user device →
  ∃ l, otk_rows u user device = Ok l ∧ StronglySorted key_before l
    ∧ ∀ r, r ∈ l ↔ r.1.1.1 = (user, device) ∧ otk_id_ok r.1.1.2 r.1.2 ∧ get_row u onetimekeyid4225_otk (row_key r) = Ok r.2.
Proof.
  intros Hok Hi. set (tb := user_tables u onetimekeyid4225_otk). set (rows := raw_stream_prefix tb (queue_prefix user device)).
  assert (∀ e, e ∈ rows ↔ String.prefix (queue_prefix user device) e.1 = true ∧ get_row u onetimekeyid4225_otk e.1 = Ok e.2) as Hin.
  { intros [k v]. unfold rows. rewrite raw_stream_prefix_filter, list_elem_of_filter, elem_of_btree_iter, get_row_rows. done. }
  assert (∀ e, e ∈ rows → ∃ r, read_row e = Some r ∧ e = (row_key r, r.2) ∧ r.1.1.1 = (user, device) ∧ otk_id_ok r.1.1.2 r.1.2) as Hrd.
  { intros [k v] [Hp Hr]%Hin. cbn [fst snd] in *. destruct (Hok k v Hr) as (user' & device' & n & id & -> & Hi' & Hk).
    exists (user', device', n, id, v). rewrite row_read by done. split_and!; [done..| |done]. cbn. rewrite otk_key_counted in Hp.
    destruct Hi as (? & _ & ?), Hi' as (? & _ & ?).
    by destruct (queue_prefix_disjoint user device user' device' (u64_to_be_bytes n +:+ sep_str +:+ id)) as [-> ->]. }
  assert (Forall2 (λ e r, e = (row_key r, r.2)) rows (omap read_row rows)) as Hf.
  { clear Hin. revert Hrd. generalize rows. intros l Hrd. induction l as [|e l IH]; [constructor|]. csimpl.
    destruct (Hrd e ltac:(by left)) as (r & -> & E & _). constructor; [done|]. apply IH. intros e' He'. apply Hrd. by right. }
  exists (omap read_row rows). split_and!.
  - unfold otk_rows, stream_prefix, stream_prefix_raw. rewrite device_prefix_ser. cbn [expect map_err]. by rewrite omap_ignore_err.
  - destruct (raw_keys_prefix_sorted tb (queue_prefix user device)) as [_ ND]. rewrite raw_keys_prefix_fst in ND. fold rows in ND.
    eapply Forall2_sorted; [exact Hf|apply (rows_apart Forward rows); [|exact ND]|].
    + unfold rows. rewrite raw_stream_prefix_filter. apply StronglySorted_filter, btree_iter_sorted.
    + intros e e' r r' _ _ [Ho Hne] -> ->. split; [exact Ho|exact Hne].
  - intros r. rewrite list_elem_of_omap. split.
    + intros (e & He & Hr). destruct (Hrd e He) as (r' & Hr' & E & Hud & Hk). rewrite Hr in Hr'. injection Hr' as <-.
      split_and!; [done..|]. apply Hin in He as [_ Hg]. by rewrite E in Hg.
    + intros (Hud & Hk & Hg). destruct r as [[[[user' device'] n] id] v]. cbn [fst snd] in *. injection Hud as -> ->.
      exists (otk_key user device n id, v). rewrite row_read by done. split; [|done]. apply Hin. split; [|done].
      cbn [fst]. rewrite otk_key_counted. apply counted_prefix.
Qed.
End pool.

Section claims.
Context `{Engine, JsonParser, Users, DeviceJson, KeyIds, KeyTexts} {W : Type} `{!Around W}.
Implicit Types (u : UserData) (user device id val : string) (n : N) (w : W).

Definition pool u user device : list PoolRow := match otk_rows u user device with Ok l => l | Err _ => [] end.

Lemma pool_spec u user device :
  pool_ok u → ids_ok user device →
  otk_rows u user device = Ok (pool u user device) ∧ StronglySorted key_before (pool u user device)
  ∧ ∀ r, r ∈ pool u user device ↔
      r.1.1.1 = (user, device) ∧ otk_id_ok r.1.1.2 r.1.2 ∧ get_row u onetimekeyid4225_otk (row_key r) = Ok r.2.
Proof. intros Hok Hi. unfold pool. by destruct (pool_exact u user device Hok Hi) as (l & -> & Hs & Hin). Qed.

Lemma pool_unique (l k : list PoolRow) :
  StronglySorted key_before l → StronglySorted key_before k → (∀ r, r ∈ l ↔ r ∈ k) → l = k.
Proof.
  assert (∀ l : list PoolRow, StronglySorted key_before l → NoDup l) as ND.
  { induction 1 as [|x l' Hs IH Hall]; constructor; [|done]. intros Hx. rewrite Forall_forall in Hall. by destruct (Hall x Hx). }
  intros Hl Hk E. eapply (StronglySorted_unique_strong key_before); [|exact Hl|exact Hk|].
  - intros x y _ _ [Hxy Hne] [Hyx _]. destruct Hne. by apply (anti_symm key_le).
  - apply NoDup_Permutation; [by apply ND..|done].
Qed.

(** A change of the pool table that drops or keeps rows. *)
Lemma pool_filter u u' user device (P : string → Prop) `{!∀ k, Decision (P k)} :
  pool_ok u → ids_ok user device →
  (∀ k, get_row u' onetimekeyid4225_otk k = if decide (P k) then get_row u onetimekeyid4225_otk k else Err NotFound) →
  pool_ok u' ∧ pool u' user device = filter (λ r, P (row_key r)) (pool u user device).
Proof.
  intros Hok Hi E. assert (pool_ok u') as Hok' by (intros k v; rewrite E; case_decide; [apply Hok|done]).
  split; [done|]. destruct (pool_spec u user device Hok Hi) as (_ & Hs & Hin), (pool_spec u' user device Hok' Hi) as (_ & Hs' & Hin').
  apply pool_unique; [done|by apply StronglySorted_filter|]. intros r. rewrite list_elem_of_filter, Hin, Hin', E.
  destruct (decide (P (row_key r))); naive_solver.
Qed.

(** Earlier in the pool is uploaded before, or at the same number. *)
Lemma pool_order u user device x y :
  pool_ok u → ids_ok user device → x ∈ pool u user device → y ∈ pool u user device → key_before x y → (x.1.1.2 <= y.1.1.2)%N.
Proof.
  intros Hok Hi. destruct (pool_spec u user device Hok Hi) as (_ & _ & Hin). rewrite !Hin.
  intros (Ex & (Hx & _) & _) (Ey & (Hy & _) & _) [Hle _]. unfold row_key in Hle. rewrite Ex, Ey, !otk_key_counted in Hle. cbn in Hle.
  pose proof (proj1 (counted_onward Forward (queue_prefix user device) _ _ _ _ Hx Hy) Hle) as Ho. cbn in Ho. lia.
Qed.

Lemma finish_claim_run (r : PoolRow) u w :
  finish_claim (Some r) (u, w)
  = (if json_parses r.2 then Ok (r.1.2, r.2) else Err (UserErr "SerdeDe"), (drop_row onetimekeyid4225_otk (row_key r) u, w)).
Proof.
  destruct r as [[[[user device] n] id] val]. unfold finish_claim, bind, trying. cbn [fst snd].
  rewrite (with_get_row onetimekeyid4225_otk _ u (Map_remove (user_tables u onetimekeyid4225_otk) (otk_key user device n id))).
  - by destruct (json_parses val).
  - unfold del, bdel. by rewrite otk_key_ser.
Qed.

(** The claim on the state with its number drawn, down to the pool. *)
Definition claimed u (u' : UserData) (r : option PoolRow) : Prop :=
  ∀ t k, t ≠ userid_lastonetimekeyupdate →
  get_row u' t k = if decide (t = onetimekeyid4225_otk ∧ Some k = row_key <$> r) then Err NotFound else get_row u t k.

Lemma take_key_run user device algorithm u w ids :
  pool_ok u → ids_ok user device → data_inv (user_counter u) ids → (dispatched (counter (user_counter u)) < U64_MAX)%N →
  let r := next_key algorithm (pool u user device) in
  ∃ u', take_one_time_key true user device algorithm (u, w)
        = (match r with
           | Some x => if json_parses x.2 then Ok (x.1.2, x.2) else Err (UserErr "SerdeDe")
           | None => Err (UserNotFound "No one-time-key found")
           end, (u', w))
    ∧ claimed u u' r
    ∧ data_inv (user_counter u') ids ∧ dispatched (counter (user_counter u')) = (dispatched (counter (user_counter u)) + 1)%N.
Proof.
  intros Hok Hi Hd Hn r. destruct (next_count_inv (user_counter u) ids Hd Hn) as (p & d & E & Ep & Ed & _ & _ & Hd1).
  destruct (drop_permit_inv d _ (permit_id p) Hd1) as (d' & Ed' & Edi & _ & Hd2); [set_solver|].
  assert (({[permit_id p]} ∪ ids) ∖ {[permit_id p]} = ids) as Eids by
    (assert (permit_id p ∉ ids) by (intros Hin%(inv_range _ _ Hd); lia); set_solver). rewrite Eids in Hd2.
  destruct (pool_spec u user device Hok Hi) as (Er & _ & _).
  unfold take_one_time_key, counting. cbn [negb fst snd]. rewrite E. unfold bind, writing. cbn [fst snd].
  change (otk_rows (set_row userid_lastonetimekeyupdate user (u64_to_be_bytes (permit_id p)) (with_counter d u)) user device)
    with (otk_rows u user device). rewrite Er. cbn [udb map_err]. fold r. destruct r as [x|] eqn:Ex.
  - rewrite finish_claim_run. cbn [user_counter drop_row set_row with_table with_counter]. rewrite Ed'. eexists.
    split_and!; [done| |done|cbn; congruence]. intros t k Ht. cbn [fmap option_fmap option_map].
    transitivity (get_row (drop_row onetimekeyid4225_otk (row_key x) (set_row userid_lastonetimekeyupdate user (u64_to_be_bytes (permit_id p)) u)) t k); [done|].
    rewrite get_drop_row, get_set_row, (decide_False (P := t = userid_lastonetimekeyupdate ∧ _)) by tauto.
    destruct (decide (t = onetimekeyid4225_otk ∧ k = row_key x)) as [[-> ->]|Hne]; [by rewrite decide_True|].
    rewrite decide_False; [done|]. intros [-> [= ->]]. tauto.
  - cbn. rewrite Ed'. eexists. split_and!; [done| |done|cbn; congruence]. intros t k Ht. rewrite decide_False by (intros [_ ?]; done).
    transitivity (get_row (set_row userid_lastonetimekeyupdate user (u64_to_be_bytes (permit_id p)) u) t k); [done|].
    rewrite get_set_row, decide_False; [done|]. tauto.
Qed.

(** What a claim leaves of the pools. *)
Lemma claimed_pool u u' r user device :
  pool_ok u → ids_ok user device → claimed u u' r →
  pool_ok u' ∧ pool u' user device = filter (λ x, Some (row_key x) ≠ row_key <$> r) (pool u user device).
Proof.
  intros Hok Hi Hc. destruct (pool_filter u u' user device (λ k, Some k ≠ row_key <$> r)) as [Hok' E]; [done..| |].
  2:{ split; [done|]. rewrite E. by apply filter_ext_elem. }
  intros k. rewrite Hc by done. destruct (decide (Some k = row_key <$> r)) as [E|E].
  - rewrite decide_True by done. by rewrite decide_False by tauto.
  - rewrite decide_False by tauto. by rewrite decide_True.
Qed.

Lemma next_key_in algorithm (l : list PoolRow) r :
  next_key algorithm l = Some r → r ∈ l ∧ key_algorithm r.1.2 = algorithm.
Proof.
  unfold next_key. match goal with |- head ?f = _ → _ => destruct f as [|y l'] eqn:Ef end; [done|]. intros [= ->].
  assert (r ∈ r :: l') as Hr by by left. rewrite <-Ef in Hr. apply list_elem_of_filter in Hr. tauto.
Qed.

Lemma pool_other u user device user' device' (r x : PoolRow) :
  pool_ok u → ids_ok user device → ids_ok user' device' → r ∈ pool u user device → x ∈ pool u user' device' →
  row_key x = row_key r → (user', device') = (user, device) ∧ x.1 = r.1.
Proof.
  intros Hok Hi Hi' Hr Hx E. destruct (pool_spec u user device Hok Hi) as (_ & _ & Hin), (pool_spec u user' device' Hok Hi') as (_ & _ & Hin').
  apply Hin in Hr as (Er & Hk & _). apply Hin' in Hx as (Ex & Hk' & _).
  destruct r as [[[[ru rd] rn] rid] rv], x as [[[[xu xd] xn] xid] xv]. cbn [fst snd] in *. simplify_eq.
  unfold row_key in E. cbn [fst snd] in E. apply otk_key_inj in E; [|done..]. injection E as -> -> -> ->. done.
Qed.
End claims.

(** ** Properties *)

Section properties.
Context `{Engine, JsonParser, Users, DeviceJson, KeyIds, KeyTexts} {W : Type} `{!Around W}.
Implicit Types (u : UserData) (user device id algorithm : string) (n : N) (w : W).

(** A claim takes the oldest key of its algorithm out of the pool of the device
    and hands out that key; without one it fails and the pool stays.  No other
    pool changes. *)
Theorem take_one_time_key_exact user device algorithm u w ids :
  pool_ok u → ids_ok user device → data_inv (user_counter u) ids → (dispatched (counter (user_counter u)) < U64_MAX)%N →
  (∀ r, r ∈ pool u user device → json_parses r.2 = true) →
  ∃ u', pool_ok u'
    ∧ (∀ user' device', ids_ok user' device' → (user', device') ≠ (user, device) → pool u' user' device' = pool u user' device')
    ∧ match filter (λ r : PoolRow, key_algorithm r.1.2 = algorithm) (pool u user device) with
      | [] => take_one_time_key true user device algorithm (u, w) = (Err (UserNotFound "No one-time-key found"), (u', w))
          ∧ pool u' user device = pool u user device
      | r :: older => take_one_time_key true user device algorithm (u, w) = (Ok (r.1.2, r.2), (u', w))
          ∧ pool u' user device = filter (λ x, row_key x ≠ row_key r) (pool u user device)
          ∧ Forall (λ x : PoolRow, (r.1.1.2 <= x.1.1.2)%N) older
      end.
Proof.
  intros Hok Hi Hd Hn Hjs. destruct (take_key_run user device algorithm u w ids Hok Hi Hd Hn) as (u' & E & Hc & _).
  remember (next_key algorithm (pool u user device)) as r eqn:Enk. symmetry in Enk.
  assert (∀ x, r = Some x → x ∈ pool u user device) as Hr by (intros x ->; by apply (next_key_in algorithm)).
  exists u'. split_and!; [by apply (claimed_pool u u' r user device)| |].
  - intros user' device' Hi' Hne. rewrite (proj2 (claimed_pool u u' r user' device' Hok Hi' Hc)).
    apply filter_all. intros x Hx Ek. destruct r as [y|] eqn:Er; [|done]. injection Ek as Ek.
    by destruct (pool_other u user device user' device' y x Hok Hi Hi' (Hr y eq_refl) Hx Ek).
  - pose proof (proj2 (claimed_pool u u' r user device Hok Hi Hc)) as Hp. unfold next_key in r.
    match goal with |- match ?f with _ => _ end => destruct f as [|y older] eqn:Ef end.
    + assert (r = None) as -> by (rewrite <-Enk; exact (f_equal head Ef)).
      split; [done|]. rewrite Hp. apply filter_all. by intros x _ ?.
    + assert (r = Some y) as -> by (rewrite <-Enk; exact (f_equal head Ef)).
      assert (y ∈ pool u user device) as Hy by by apply Hr. cbn in E. rewrite (Hjs y Hy) in E. split_and!; [done| |].
      * rewrite Hp. apply filter_ext_elem. intros x _. cbn. split; [congruence|]. by intros ? [= ?].
      * pose proof (StronglySorted_filter key_before (λ r : PoolRow, key_algorithm r.1.2 = algorithm) _ (proj1 (proj2 (pool_spec u user device Hok Hi)))) as Hs.
        rewrite Ef in Hs. apply StronglySorted_inv in Hs as [_ Hall]. rewrite Forall_forall in *.
        intros x Hx. pose proof (Hall x Hx) as Hb. eapply (pool_order u user device); [done..| |done].
        assert (x ∈ y :: older) as Hx' by by right. rewrite <-Ef in Hx'. apply list_elem_of_filter in Hx'. tauto.
Qed.

(** The keys a run of claims hands out, by device and identifier. *)
Fixpoint handed_out u w (l : list (string * string * string)) : list (string * string * string) :=
  match l with
  | [] => []
  | (user, device, algorithm) :: l =>
      let s := take_one_time_key true user device algorithm (u, w) in
      match s.1 with Ok (id, _) => [(user, device, id)] | Err _ => [] end ++ handed_out s.2.1 s.2.2 l
  end.

(** No identifier twice in a pool, as uploads see to. *)
Definition distinct_ids u : Prop :=
  ∀ user device x y, ids_ok user device → x ∈ pool u user device → y ∈ pool u user device → x.1.2 = y.1.2 → x = y.

(** What is handed out was in the pool. *)
Lemma handed_out_pool l : ∀ u w ids,
  pool_ok u → distinct_ids u → Forall (λ c : string * string * string, ids_ok c.1.1 c.1.2) l → data_inv (user_counter u) ids →
  (dispatched (counter (user_counter u)) + N.of_nat (length l) <= U64_MAX)%N →
  NoDup (handed_out u w l)
  ∧ ∀ user device id, (user, device, id) ∈ handed_out u w l → ids_ok user device ∧ ∃ r, r ∈ pool u user device ∧ r.1.2 = id.
Proof.
  induction l as [|[[user device] algorithm] l IH]; intros u w ids Hok Hdis Hl Hd Hn; cbn [handed_out].
  { split; [constructor|]. by intros user device id ?%elem_of_nil. }
  apply Forall_cons in Hl as [Hi Hl]. cbn [length fst snd] in *.
  destruct (take_key_run user device algorithm u w ids Hok Hi Hd) as (u' & E & Hc & Hd' & Hn'); [lia|]. rewrite E. cbn [fst snd].
  assert (∀ user' device' x, ids_ok user' device' → x ∈ pool u' user' device' →
    x ∈ pool u user' device' ∧ Some (row_key x) ≠ row_key <$> next_key algorithm (pool u user device)) as Hsub.
  { intros user' device' x Hi' Hx. rewrite (proj2 (claimed_pool u u' _ user' device' Hok Hi' Hc)) in Hx.
    apply list_elem_of_filter in Hx. tauto. }
  destruct (IH u' w ids) as [ND Hin]; [by apply (claimed_pool u u' _ user device Hok Hi Hc)| |done..|lia|].
  { intros user' device' x y Hi' [Hx _]%Hsub [Hy _]%Hsub; [|done..]. by apply (Hdis user' device'). }
  assert (∀ user' device' id, (user', device', id) ∈ handed_out u' w l → ids_ok user' device' ∧ ∃ r, r ∈ pool u user' device' ∧ r.1.2 = id) as Hlater.
  { intros user' device' id [Hi' (r & [Hr _]%Hsub & Er)]%Hin; [|done]. split; [done|by exists r]. }
  destruct (next_key algorithm (pool u user device)) as [y|] eqn:Ey; [|done].
  destruct (json_parses y.2); [|done]. apply next_key_in in Ey as [Hy _]. cbn [app]. split.
  - constructor; [|done]. intros [_ (r & [Hr Hne]%Hsub & Er)]%Hin; [|done]. apply Hne. cbn.
    by rewrite (Hdis user device r y Hi Hr Hy Er).
  - intros user' device' id [[= -> -> ->]|Hl']%elem_of_cons; [split; [done|by exists y]|by apply Hlater].
Qed.


(** Two claims that both read the pool before either deletes its row hand out
    the same one-time key: the lookup and the deletion are separate awaits and
    nothing holds a lock between them. *)
Theorem claim_race u w user device algorithm (r : PoolRow) :
  next_key algorithm (pool u user device) = Some r → json_parses r.2 = true →
  let first := finish_claim (Some r) (u, w) in
  first.1 = Ok (r.1.2, r.2) ∧ (finish_claim (Some r) first.2).1 = Ok (r.1.2, r.2).
Proof. intros _ Hj. cbn zeta. rewrite !finish_claim_run. cbn [fst snd]. by rewrite finish_claim_run, Hj. Qed.
End properties.

Section fallback.
Context `{Engine, JsonParser, Users, DeviceJson, KeyIds, KeyTexts} {W : Type} `{!Around W}.
Implicit Types (u : UserData) (user device algorithm : string).

Lemma deserialize_json_text (parses : JsonParser) text : parses text = true → @deserialize_slice parses DJson text = Ok (VJson text).
Proof.
  intros Hp. unfold deserialize_slice, from_slice. cbn [deserialize]. unfold record_trail, de_rest. cbn [de_pos de_buf str_drop].
  unfold deserialize_json, json_parses. cbn. replace (str_drop 0 text) with text by (by destruct text). by rewrite Hp.
Qed.

(** An unused fallback key of a device whose name merely begins with this one's
    is reported for this one: no separator ends the prefix of the scan. *)
Theorem fallback_prefix_leak u user device suffix algorithm text entry :
  utf8_valid user = true → utf8_valid (device +:+ suffix) = true → utf8_valid algorithm = true →
  get_row u userdeviceidalgorithm_fallback (record_bytes [user; device +:+ suffix; algorithm]) = Ok text →
  parse_fallback text = Some entry → fallback_used entry = false →
  ∃ l, unused_fallback_key_algorithms u user device = Ok l ∧ algorithm ∈ l.
Proof.
  intros Hu Hd Ha Hr Hp Hun. unfold unused_fallback_key_algorithms, stream_prefix, stream_prefix_raw.
  unfold serialize_key. rewrite pair_ser_key. cbn [expect map_err]. eexists. split; [done|].
  apply list_elem_of_omap. exists (VTuple [VUnit; VUnit; VStr algorithm], VJson text). split; [|by cbn; rewrite Hp; cbn; rewrite Hun].
  unfold ignore_err. apply list_elem_of_omap.
  exists (Ok (VTuple [VUnit; VUnit; VStr algorithm], VJson text)). split; [|done]. apply list_elem_of_fmap.
  exists (record_bytes [user; device +:+ suffix; algorithm], text). split.
  - unfold deserialize_keyval. cbn [fst snd].
    destruct (tuple_roundtrip (λ t, bool_decide (is_Some (parse_fallback t))) [DIgnore; DIgnore; DStr (λ _, true)] _ _ _ [] []
      (fields_cons _ _ _ _ _ _ _ _ _ (field_ignore _ false user Hu)
        (fields_cons _ _ _ _ _ _ _ _ _ (field_ignore _ false _ Hd) (fields_last _ _ _ _ _ (field_str _ true (λ _, true) algorithm Ha eq_refl)))))
      as (_ & st & Hde & _); [constructor|]. cbn [app] in Hde.
    unfold deserialize_slice at 1, json_parses. rewrite Hde. cbn. rewrite deserialize_json_text; [done|]. rewrite Hp. done.
  - rewrite raw_stream_prefix_filter. apply list_elem_of_filter. split.
    + unfold starts_with, pair_key. cbn [fst record_bytes tail_bytes]. rewrite !append_nil_r. apply prefix_spec.
      exists (suffix +:+ sep_str +:+ algorithm). by rewrite <-!append_assoc.
    + apply elem_of_btree_iter. by apply get_row_rows.
Qed.
End fallback.

(** ** An example *)

Section key_witnesses.
#[local] Existing Instance ordered_engine.
#[local] Existing Instance ShortExample.json.
#[local] Existing Instance MembersExample.users.
Import DevicesExample.

(** Identifiers of one algorithm, and texts that are all keys. *)
#[local] Instance curve : KeyIds := {| key_id_ok := String.prefix "c:"; key_algorithm _ := "c" |}.
#[local] Instance texts : KeyTexts := {|
  one_time_key_valid _ := true;
  print_fallback e := fallback_id e;
  parse_fallback t := Some (mkFallback t "" false);
  cross_signing_keys _ := None;
|}.

Definition row_of (n : N) (id : string) : PoolRow := (user, "DEV", n, id, "{}").

(** Two keys in the pool. *)
Definition two_keys : UserData :=
  set_row onetimekeyid4225_otk (row_key (row_of 2 "c:b")) "{}" (set_row onetimekeyid4225_otk (row_key (row_of 1 "c:a")) "{}" no_users).

Lemma two_keys_row k v :
  get_row two_keys onetimekeyid4225_otk k = Ok v → v = "{}" ∧ (k = row_key (row_of 1 "c:a") ∨ k = row_key (row_of 2 "c:b")).
Proof.
  unfold two_keys. rewrite !get_set_row, no_rows. repeat case_decide; intros [= <-]; naive_solver.
Qed.

Lemma two_keys_ok : pool_ok two_keys.
Proof.
  intros k v (-> & [->| ->])%two_keys_row; [exists user, "DEV", 1%N, "c:a"|exists user, "DEV", 2%N, "c:b"];
    (split; [reflexivity|]; split; [exact example_ids|split_and!; [done|reflexivity..]]).
Qed.

Lemma two_keys_pool : pool two_keys user "DEV" = [row_of 1 "c:a"; row_of 2 "c:b"].
Proof. vm_compute. reflexivity. Qed.

Lemma two_keys_distinct : distinct_ids two_keys.
Proof.
  intros user' device' x y Hi Hx Hy. destruct (pool_spec two_keys user' device' two_keys_ok Hi) as (_ & _ & Hin).
  assert (∀ z, z ∈ pool two_keys user' device' → z = row_of 1 "c:a" ∨ z = row_of 2 "c:b") as Hz.
  { intros [[[[zu zd] zn] zid] zv] (E & Hk & Hg)%Hin. apply two_keys_row in Hg as [Ev Hr]. cbn [fst snd] in *. injection E as -> ->. subst zv.
    destruct Hr as [Hr|Hr]; unfold row_key in Hr; cbn [fst snd row_of] in Hr; apply otk_key_inj in Hr;
      try exact example_ids; try done; try (split_and!; [done|reflexivity..]); injection Hr as -> -> -> ->; auto. }
  intros E. destruct (Hz x Hx) as [->| ->], (Hz y Hy) as [->| ->]; done.
Qed.

Lemma take_one_time_key_exact_witness :
  ∃ u', take_one_time_key true user "DEV" "c" (two_keys, tt) = (Ok ("c:a", "{}"), (u', tt))
    ∧ pool u' user "DEV" = [row_of 2 "c:b"].
Proof.
  destruct (take_one_time_key_exact (W := unit) user "DEV" "c" two_keys tt ∅) as (u' & _ & _ & Hm);
    [exact two_keys_ok|exact example_ids|exact no_users_counter|done|done|].
  rewrite two_keys_pool in Hm. cbn in Hm. destruct Hm as (E & Hp & _). exists u'. split; [exact E|].
  rewrite Hp. vm_compute. reflexivity.
Defined.

End key_witnesses.
