(* ===== verification/Sending.v ===== *)
(** * Outgoing queues ([src/src/service/sending/data.rs], [dest.rs], [mod.rs])

    What is to be sent to a destination is a row of [servernameevent_data] until
    a transaction takes it up, then one of [servercurrentevent_data] until that
    transaction is acknowledged.  The key is the destination's prefix with the
    id of the event, or a number for what has none.  [Sending] is the tables, the
    counter and the channels to the workers. *)

From S2P Require Import Prelude Bytes Slices SetOps DbCodec DbMap Pairs Counter Short PduId MemberCache.

(** ** Data *)

Inductive Destination :=
  | Appservice (id : string)
  | Push (user pushkey : string)
  | Federation (server : string).

Inductive SendingEvent := SPdu (id : RawId) | SEdu (buf : string) | SFlush.

#[export] Instance destination_eq_dec : EqDecision Destination.
Proof. solve_decision. Defined.
#[export] Instance raw_id_eq_dec : EqDecision RawId.
Proof. solve_decision. Defined.
#[export] Instance sending_event_eq_dec : EqDecision SendingEvent.
Proof. solve_decision. Defined.
#[export] Instance destination_countable : Countable Destination.
Proof.
  refine (inj_countable' (λ d, match d with
      | Appservice i => inl i
      | Push u k => inr (inl (u, k))
      | Federation s => inr (inr s)
      end) (λ x, match x with
      | inl i => Appservice i
      | inr (inl (u, k)) => Push u k
      | inr (inr s) => Federation s
      end) _).
  by intros [].
Defined.

Record Msg := mkMsg { msg_dest : Destination; msg_event : SendingEvent; queue_id : string }.

Inductive SendError :=
  | BadDatabase
  | ClosedChannel
  | SendCount (e : CounterError)
  | SendDb (e : DbError)
  (** [panic!], [expect] *)
  | SendPanic.

(** [DefaultHasher] of a destination. *)
Class DestHash := dest_hash : Destination → N.

Definition get_prefix (d : Destination) : string :=
  match d with
  | Federation server => server +:+ sep_str
  | Appservice server => String "+" (server +:+ sep_str)
  | Push user pushkey => String "$" (user +:+ sep_str +:+ pushkey +:+ sep_str)
  end.

(** *** Keys to destinations *)

(** What follows the first separator: the rest of [splitn(2, ..)]. *)
Fixpoint after_sep (s : string) : option string :=
  match s with
  | EmptyString => None
  | String c s' => if decide (c = SEP) then Some s' else after_sep s'
  end.

Section parse.
Context `{Users}.

Definition event_of (value event : string) : Result SendError SendingEvent :=
  match value with
  | EmptyString => let? id := ok_or SendPanic (raw_from_bytes event) in Ok (SPdu id)
  | _ => Ok (SEdu value)
  end.

Definition string_from_bytes (s : string) : Result SendError string :=
  if utf8_valid s then Ok s else Err BadDatabase.

Definition parse_servercurrentevent (key value : string) : Result SendError (Destination * SendingEvent) :=
  match key with
  | String "+" key' =>
      let? event := ok_or BadDatabase (after_sep key') in
      let? server := string_from_bytes (before_sep key') in
      let? ev := event_of value event in
      Ok (Appservice server, ev)
  | String "$" key' =>
      let? user := string_from_bytes (before_sep key') in
      let? _ := if user_id_ok user then Ok tt else Err BadDatabase in
      let? rest := ok_or BadDatabase (after_sep key') in
      let? pushkey := string_from_bytes (before_sep rest) in
      let? event := ok_or BadDatabase (after_sep rest) in
      let? ev := event_of value event in
      Ok (Push user pushkey, ev)
  | _ =>
      let? event := ok_or BadDatabase (after_sep key) in
      let? server := string_from_bytes (before_sep key) in
      let? _ := if server_name_ok server then Ok tt else Err BadDatabase in
      let? ev := event_of value event in
      Ok (Federation server, ev)
  end.
End parse.

(** ** The tables *)

Section sending.
Context `{Engine, JsonParser, Users, DestHash}.

Record Sending := mkSending {
  send_globals : Data;
  servercurrentevent_data : Table;
  servernameevent_data : Table;
  servername_educount : Table;
  (** for each worker, whether its channel is closed and what it holds *)
  channels : list (bool * list Msg);
}.
Implicit Types (s : Sending) (dest : Destination) (key val : string).

Definition with_current (tb : Table) s : Sending :=
  mkSending (send_globals s) tb (servernameevent_data s) (servername_educount s) (channels s).
Definition with_queue (tb : Table) s : Sending :=
  mkSending (send_globals s) (servercurrentevent_data s) tb (servername_educount s) (channels s).
Definition with_educount (tb : Table) s : Sending :=
  mkSending (send_globals s) (servercurrentevent_data s) (servernameevent_data s) tb (channels s).
Definition with_channels (l : list (bool * list Msg)) s : Sending :=
  mkSending (send_globals s) (servercurrentevent_data s) (servernameevent_data s) (servername_educount s) l.
Definition with_send_globals (d : Data) s : Sending :=
  mkSending d (servercurrentevent_data s) (servernameevent_data s) (servername_educount s) (channels s).

Definition delete_active_request s key : Sending := with_current (Map_remove (servercurrentevent_data s) key) s.

(** The rows of a destination are removed as the scan yields their keys. *)
Definition remove_prefix (tb : Table) (p : string) : Table := foldl Map_remove tb (raw_keys_prefix tb p).

Definition delete_all_active_requests_for s dest : Sending :=
  with_current (remove_prefix (servercurrentevent_data s) (get_prefix dest)) s.

Definition delete_all_requests_for s dest : Sending :=
  let s := with_current (remove_prefix (servercurrentevent_data s) (get_prefix dest)) s in
  with_queue (remove_prefix (servernameevent_data s) (get_prefix dest)) s.

(** The bytes stored with a key. *)
Definition event_value (e : SendingEvent) : string := match e with SEdu buf => buf | _ => "" end.

Definition mark_one_active s (item : string * SendingEvent) : Sending :=
  with_queue (Map_remove (servernameevent_data s) item.1)
    (with_current (Map_insert (servercurrentevent_data s) item.1 (event_value item.2)) s).

Definition mark_as_active s (events : list (string * SendingEvent)) : Sending :=
  foldl mark_one_active s (filter (λ item, item.1 ≠ "") events).

(** Each row of a scan, parsed. *)
Fixpoint parse_rows (rows : list (string * string)) : Result SendError (list (string * SendingEvent * Destination)) :=
  match rows with
  | [] => Ok []
  | (key, val) :: rows' =>
      let? p := map_err (λ _, SendPanic) (parse_servercurrentevent key val) in
      let? l := parse_rows rows' in
      Ok ((key, p.2, p.1) :: l)
  end.

Definition active_requests s : Result SendError (list (string * SendingEvent * Destination)) :=
  parse_rows (raw_stream_from (servercurrentevent_data s) "").

Definition active_requests_for s dest : Result SendError (list (string * SendingEvent)) :=
  let? l := parse_rows (raw_stream_prefix (servercurrentevent_data s) (get_prefix dest)) in Ok l.*1.

(** The first [n] of them: what follows is not read. *)
Definition queued_requests s dest (n : nat) : Result SendError (list (string * SendingEvent)) :=
  let? l := parse_rows (take n (raw_stream_prefix (servernameevent_data s) (get_prefix dest))) in Ok l.*1.

(** The key of one request; what is not a stored event takes a number. *)
Definition request_key s (r : SendingEvent * Destination) : Result SendError (string * Sending) :=
  match r.1 with
  | SPdu id => Ok (get_prefix r.2 +:+ as_bytes id, s)
  | _ =>
      let? p := with_count SendCount send_globals with_send_globals s (λ _ s, Ok s) in
      Ok (get_prefix r.2 +:+ u64_to_be_bytes p.1, p.2)
  end.

Fixpoint request_keys (requests : list (SendingEvent * Destination)) s : Result SendError (list string * Sending) :=
  match requests with
  | [] => Ok ([], s)
  | r :: rs =>
      let? p := request_key s r in
      let? q := request_keys rs p.2 in
      Ok (p.1 :: q.1, q.2)
  end.

Definition insert_batch (tb : Table) (rows : list (string * string)) : Table :=
  foldl (λ tb row, Map_insert tb row.1 row.2) tb rows.

Definition queue_requests s (requests : list (SendingEvent * Destination)) : Result SendError (list string * Sending) :=
  let? p := request_keys requests s in
  let rows := zip p.1 (event_value <$> requests.*1) in
  Ok (p.1, with_queue (insert_batch (servernameevent_data p.2) rows) p.2).

Definition set_latest_educount s (server : string) (last_count : N) : Result SendError Sending :=
  let? tb := map_err SendDb (raw_put (servername_educount s) server (SU64 last_count)) in Ok (with_educount tb s).

Definition get_latest_educount s (server : string) : N :=
  match deserialized_u64 (Map_get (servername_educount s) server) with Ok n => n | Err _ => 0%N end.

(** ** Handing over to the workers *)

(** 64-bit: [usize] keeps the whole hash. *)
Definition shard_id s dest : nat :=
  if (length (channels s) <=? 1)%nat then 0%nat
  else N.to_nat ((dest_hash dest `mod` 2 ^ 64) `mod` N.of_nat (Nat.max (length (channels s)) 1)).

Definition dispatch s (m : Msg) : Result SendError Sending :=
  match channels s !! shard_id s (msg_dest m) with
  | None => Err SendPanic
  | Some (true, _) => Err ClosedChannel
  | Some (false, l) => Ok (with_channels (<[shard_id s (msg_dest m) := (false, l ++ [m])]> (channels s)) s)
  end.

(** An error on the way leaves what came before: [Outcome] is the result with
    the state left. *)
Definition Sent : Type := Result SendError unit * Sending.

Fixpoint dispatch_all s (msgs : list Msg) : Sent :=
  match msgs with
  | [] => (Ok tt, s)
  | m :: ms => match dispatch s m with Ok s' => dispatch_all s' ms | Err e => (Err e, s) end
  end.

(** The requests are queued, then each is dispatched. *)
Definition send_requests s (requests : list (SendingEvent * Destination)) : Sent :=
  match queue_requests s requests with
  | Err e => (Err e, s)
  | Ok (keys, s') => dispatch_all s' (zip_with (λ r k, mkMsg r.2 r.1 k) requests keys)
  end.

Definition send_pdu_push s (id : RawId) (user pushkey : string) : Sent := send_requests s [(SPdu id, Push user pushkey)].
Definition send_pdu_appservice s (appservice : string) (id : RawId) : Sent := send_requests s [(SPdu id, Appservice appservice)].
Definition send_pdu_servers s (servers : list string) (id : RawId) : Sent :=
  send_requests s ((λ server, (SPdu id, Federation server)) <$> servers).
Definition send_edu_server s (server : string) (buf : string) : Sent := send_requests s [(SEdu buf, Federation server)].
Definition send_edu_appservice s (appservice : string) (buf : string) : Sent := send_requests s [(SEdu buf, Appservice appservice)].
Definition send_edu_servers s (servers : list string) (buf : string) : Sent :=
  send_requests s ((λ server, (SEdu buf, Federation server)) <$> servers).

Definition flush_servers s (servers : list string) : Sent :=
  dispatch_all s ((λ server, mkMsg (Federation server) SFlush "") <$> servers).

Definition cleanup_events s (appservice user push_key : option string) : Sending :=
  match appservice, user, push_key with
  | None, Some user, Some push_key => delete_all_requests_for s (Push user push_key)
  | Some appservice, None, None => delete_all_requests_for s (Appservice appservice)
  | _, _, _ => s
  end.

Definition interrupt s : Sending := with_channels ((λ c, (true, c.2)) <$> channels s) s.

(** *** By room *)

(** The servers of a room but our own. *)
Definition other_servers `{Identifiers} (ours : string → bool) (mc : MemberCache) (room : string) : Result DbError (list string) :=
  let? l := room_servers mc room in Ok (filter (λ server, ours server = false) l).

Definition send_pdu_room `{Identifiers} (ours : string → bool) (mc : MemberCache) s (room : string) (id : RawId) : Sent :=
  match other_servers ours mc room with Ok l => send_pdu_servers s l id | Err e => (Err (SendDb e), s) end.
Definition send_edu_room `{Identifiers} (ours : string → bool) (mc : MemberCache) s (room : string) (buf : string) : Sent :=
  match other_servers ours mc room with Ok l => send_edu_servers s l buf | Err e => (Err (SendDb e), s) end.
Definition flush_room `{Identifiers} (ours : string → bool) (mc : MemberCache) s (room : string) : Sent :=
  match other_servers ours mc room with Ok l => flush_servers s l | Err e => (Err (SendDb e), s) end.
End sending.

(** ** Keys and rows *)

(** The first character of a server name is not the mark of another kind. *)
Definition plain (server : string) : Prop := match server with String c _ => c ≠ "+"%char ∧ c ≠ "$"%char | EmptyString => True end.

Section rows.
Context `{Engine, JsonParser, Users}.
Implicit Types (tb : Table) (d : Destination) (e : SendingEvent) (key val : string).

Definition dest_ok d : Prop :=
  match d with
  | Appservice id => utf8_valid id = true
  | Push user pushkey => utf8_valid user = true ∧ user_id_ok user = true ∧ utf8_valid pushkey = true
  | Federation server => utf8_valid server = true ∧ server_name_ok server = true ∧ plain server
  end.

(** The row of a request: of a stored event the key says which, of an ephemeral
    one the value. *)
Inductive request_row d : SendingEvent → string → Prop :=
  | row_pdu id : raw_from_bytes (as_bytes id) = Some id → request_row d (SPdu id) (get_prefix d +:+ as_bytes id)
  | row_edu buf n : buf ≠ "" → (n <= U64_MAX)%N → request_row d (SEdu buf) (get_prefix d +:+ u64_to_be_bytes n).

Lemma after_sep_app s t : no_sep s → after_sep (s +:+ sep_str +:+ t) = Some t.
Proof.
  intros Hs. induction s as [|c s IH]; cbn; [done|]. destruct Hs as [Hc Hs]. rewrite decide_False by done. by apply IH.
Qed.

Lemma before_sep_key s t : no_sep s → before_sep (s +:+ sep_str +:+ t) = s.
Proof. intros Hs. apply before_sep_app; [done|]. right. by exists t. Qed.

Lemma parse_key d suffix val :
  dest_ok d → parse_servercurrentevent (get_prefix d +:+ suffix) val = (let? ev := event_of val suffix in Ok (d, ev)).
Proof.
  destruct d as [id|user pushkey|server]; cbn [dest_ok get_prefix].
  - intros Hu. cbn [String.append parse_servercurrentevent]. rewrite <-append_assoc.
    rewrite after_sep_app, before_sep_key by by apply utf8_no_sep. cbn [ok_or]. unfold string_from_bytes. by rewrite Hu.
  - intros (Hu & Hou & Hp). cbn [String.append parse_servercurrentevent]. rewrite <-!append_assoc.
    rewrite after_sep_app, before_sep_key by by apply utf8_no_sep. unfold string_from_bytes. rewrite Hu, Hou. cbn [ok_or].
    rewrite after_sep_app, before_sep_key by by apply utf8_no_sep. by rewrite Hp.
  - intros (Hu & Ho & Hp). rewrite <-append_assoc. pose proof (utf8_no_sep _ Hu) as Hn.
    pose proof (after_sep_app server suffix Hn) as Ha. pose proof (before_sep_key server suffix Hn) as Hb.
    set (key := server +:+ sep_str +:+ suffix) in *.
    assert (parse_servercurrentevent key val =
      (let? event := ok_or BadDatabase (after_sep key) in
       let? server := string_from_bytes (before_sep key) in
       let? _ := if server_name_ok server then Ok tt else Err BadDatabase in
       let? ev := event_of val event in Ok (Federation server, ev))) as ->.
    { unfold key. destruct server as [|c server]; [done|]. destruct Hp as [Hp1 Hp2]. cbn [String.append].
      unfold parse_servercurrentevent. destruct c as [[] [] [] [] [] [] [] []]; try reflexivity; by destruct Hp1 || by destruct Hp2. }
    rewrite Ha, Hb. cbn [ok_or]. unfold string_from_bytes. by rewrite Hu, Ho.
Qed.

(** A destination's prefix begins no other's keys. *)
Lemma prefix_dest d d' suffix :
  dest_ok d → dest_ok d' → String.prefix (get_prefix d) (get_prefix d' +:+ suffix) = true → d = d'.
Proof.
  intros Hd Hd' [t Ht]%prefix_spec. pose proof (parse_key d' suffix "x" Hd') as Hp. rewrite Ht, (parse_key d t "x" Hd) in Hp.
  cbn in Hp. by injection Hp.
Qed.

Lemma row_parse d e key : dest_ok d → request_row d e key → parse_servercurrentevent key (event_value e) = Ok (d, e).
Proof.
  intros Hd Hr. destruct Hr as [id Hid|buf n Hb Hn]; rewrite parse_key by done; cbn [event_of event_value].
  - by rewrite Hid.
  - destruct buf; [done|]. done.
Qed.

Lemma row_prefix d e key : request_row d e key → String.prefix (get_prefix d) key = true.
Proof. intros [id Hid|buf n Hb Hn]; apply prefix_append. Qed.

Lemma row_under d d' e key : dest_ok d → dest_ok d' → request_row d' e key → String.prefix (get_prefix d) key = true ↔ d = d'.
Proof.
  intros Hd Hd' Hr. split; [|intros ->; by eapply row_prefix]. intros Hp. destruct Hr; by eapply prefix_dest.
Qed.

Lemma row_nonempty d e key : request_row d e key → key ≠ "".
Proof. intros [id Hid|buf n Hb Hn]; destruct d as [i|u k|[|c s]]; done. Qed.

Lemma remove_prefix_rows tb p key :
  table_rows (remove_prefix tb p) !! key = if String.prefix p key then None else table_rows tb !! key.
Proof.
  unfold remove_prefix. rewrite remove_all_rows. destruct (String.prefix p key) eqn:Hp.
  - case_decide as Hk; [done|]. destruct (table_rows tb !! key) eqn:He; [|done]. exfalso. apply Hk, elem_of_raw_keys_prefix.
    split; [done|]. by rewrite He.
  - rewrite decide_False; [done|]. intros [Hk _]%elem_of_raw_keys_prefix. congruence.
Qed.
End rows.

Section updates.
Context `{Engine, JsonParser, Users, DestHash}.
Implicit Types (s : Sending) (d : Destination) (e : SendingEvent) (key val : string) (m : Msg).

Definition queue_rows s : gmap string string := table_rows (servernameevent_data s).
Definition current_rows s : gmap string string := table_rows (servercurrentevent_data s).

(** Nothing but the rows differs. *)
Definition same_but_rows s s' : Prop := send_globals s' = send_globals s ∧ channels s' = channels s.

Lemma mark_as_active_rows s (events : list (string * SendingEvent)) :
  let s' := mark_as_active s events in
  same_but_rows s s'
  ∧ (∀ key, queue_rows s' !! key = if decide (key ≠ "" ∧ key ∈ events.*1) then None else queue_rows s !! key)
  ∧ (∀ key, ¬ (key ≠ "" ∧ key ∈ events.*1) → current_rows s' !! key = current_rows s !! key)
  ∧ (∀ key, key ≠ "" → key ∈ events.*1 → ∃ e, (key, e) ∈ events ∧ current_rows s' !! key = Some (event_value e)).
Proof.
  unfold mark_as_active. revert s. induction events as [|[k e] events IH] using rev_ind; intros s.
  { cbn. split_and!; [done|..]; intros key; [|done|intros _ ?%elem_of_nil; done].
    by rewrite decide_False by (intros [_ ?%elem_of_nil]; done). }
  rewrite filter_app, foldl_app. specialize (IH s). cbn zeta in IH.
  set (s1 := foldl mark_one_active s (filter _ events)) in *. destruct IH as (Hg & Hq & Hc & Hin).
  rewrite filter_cons. cbn [fst]. destruct (decide (k ≠ "")) as [Hk|Hk]; cbn [filter list_filter foldl].
  - unfold mark_one_active. cbn [fst snd]. unfold queue_rows, current_rows in *.
    cbn [with_queue with_current servernameevent_data servercurrentevent_data send_globals channels]. unfold Map_insert, Map_remove.
    rewrite fmap_app. cbn [fmap list_fmap fst]. split_and!; [done|..].
    + intros key. rewrite table_del_rows. destruct (decide (key = k)) as [->|Hne].
      * rewrite lookup_delete_eq, decide_True by (split; [done|]; apply elem_of_app; right; by left). done.
      * rewrite lookup_delete_ne, Hq by done. apply decide_ext. rewrite elem_of_app, list_elem_of_singleton. naive_solver.
    + intros key Hno. rewrite elem_of_app, list_elem_of_singleton in Hno. rewrite table_put_rows, lookup_insert_ne by naive_solver.
      apply Hc. naive_solver.
    + intros key Hk' Hel. rewrite table_put_rows. destruct (decide (key = k)) as [->|Hne].
      * exists e. rewrite lookup_insert_eq, elem_of_app, list_elem_of_singleton. naive_solver.
      * rewrite lookup_insert_ne by done. rewrite elem_of_app, list_elem_of_singleton in Hel.
        destruct (Hin key Hk') as (e' & He & Hrow); [naive_solver|]. exists e'. rewrite elem_of_app. naive_solver.
  - assert (k = "") as -> by (destruct k; [done|exfalso; by apply Hk]). rewrite fmap_app. cbn [fmap list_fmap fst].
    split_and!; [done|..].
    + intros key. rewrite Hq. apply decide_ext. rewrite elem_of_app, list_elem_of_singleton. naive_solver.
    + intros key Hno. apply Hc. rewrite elem_of_app in Hno. naive_solver.
    + intros key Hk' Hel. rewrite elem_of_app, list_elem_of_singleton in Hel. destruct (Hin key Hk') as (e' & He & Hrow); [naive_solver|].
      exists e'. rewrite elem_of_app. naive_solver.
Qed.

Lemma insert_batch_rows (tb : Table) (rows : list (string * string)) :
  (∀ key, key ∉ rows.*1 → table_rows (insert_batch tb rows) !! key = table_rows tb !! key)
  ∧ (∀ key, key ∈ rows.*1 → ∃ val, (key, val) ∈ rows ∧ table_rows (insert_batch tb rows) !! key = Some val).
Proof.
  unfold insert_batch. induction rows as [|[k v] rows IH] using rev_ind; [split; [done|intros key ?%elem_of_nil; done]|].
  rewrite foldl_app. cbn [foldl fst snd]. unfold Map_insert at 1 3. setoid_rewrite table_put_rows. rewrite fmap_app. cbn [fmap list_fmap fst].
  destruct IH as [Hout Hin]. split; intros key; rewrite elem_of_app, list_elem_of_singleton.
  - intros Hno. rewrite lookup_insert_ne by naive_solver. apply Hout. naive_solver.
  - intros Hel. destruct (decide (key = k)) as [->|Hne].
    + exists v. rewrite lookup_insert_eq, elem_of_app, list_elem_of_singleton. naive_solver.
    + destruct (Hin key) as (val & Hv & Hrow); [naive_solver|]. exists val. rewrite lookup_insert_ne, elem_of_app by done. naive_solver.
Qed.

(** An ephemeral event's number was drawn before. *)
Definition drawn (n : N) d e key : Prop := match e with SEdu _ => ∃ c, key = get_prefix d +:+ u64_to_be_bytes c ∧ (c <= n)%N | _ => True end.

Definition event_ok e : Prop :=
  match e with SPdu id => raw_from_bytes (as_bytes id) = Some id | SEdu buf => buf ≠ "" | SFlush => False end.

Definition last_count s : N := dispatched (counter (send_globals s)).

(** The key made for a request is a row of it; a number is above all drawn
    before. *)
Lemma request_key_spec e d s ids :
  data_inv (send_globals s) ids → (last_count s + 1 <= U64_MAX)%N → event_ok e →
  ∃ key s1, request_key s (e, d) = Ok (key, s1) ∧ data_inv (send_globals s1) ids ∧ (last_count s <= last_count s1 <= last_count s + 1)%N
    ∧ servercurrentevent_data s1 = servercurrentevent_data s ∧ servernameevent_data s1 = servernameevent_data s ∧ channels s1 = channels s
    ∧ request_row d e key ∧ drawn (last_count s1) d e key
    ∧ match e with SEdu _ => ∃ c, key = get_prefix d +:+ u64_to_be_bytes c ∧ (last_count s < c <= U64_MAX)%N | _ => True end.
Proof.
  intros Hd Hfit He. unfold request_key. cbn [fst snd]. destruct e as [id|buf|]; [| |done].
  - eexists _, s. split_and!; try done; [lia..|by constructor].
  - destruct (with_count_spec SendCount send_globals with_send_globals s (λ _ s, Ok s) ids) as (g & g' & u & Hu & -> & Hdi & Hg');
      [by intros ? []|done|unfold last_count in Hfit; lia|intros g; by exists (with_send_globals g s)|].
    injection Hu as <-. eexists _, _. split; [reflexivity|].
    set (n := (dispatched (counter (send_globals s)) + 1)%N) in *.
    assert (last_count (with_send_globals g' (with_send_globals g s)) = n) as Hlast by exact Hdi.
    assert (n = last_count s + 1)%N as Hn by done. clearbody n.
    cbn [fst snd]. rewrite Hlast. split_and!; [exact Hg'|lia|lia|done|done|done|constructor; [done|lia]|by exists n|].
    exists n. split; [done|lia].
Qed.

(** Requests submitted, with their keys. *)
Definition Submissions : Type := list (string * (Destination * SendingEvent)).
Implicit Types (sub : Submissions).

(** A key is that of one request only. *)
Record sub_ok sub (n : N) : Prop := {
  so_row key d e : (key, (d, e)) ∈ sub → dest_ok d ∧ request_row d e key ∧ drawn n d e key;
  so_unique key d e d' e' : (key, (d, e)) ∈ sub → (key, (d', e')) ∈ sub → d = d' ∧ e = e';
}.

Lemma row_dest d d' e e' key : dest_ok d → dest_ok d' → request_row d e key → request_row d' e' key → d = d'.
Proof. intros Hd Hd' Hr Hr'. apply (row_under d d' e' key Hd Hd' Hr'). by eapply row_prefix. Qed.

Lemma raw_id_length id : raw_from_bytes (as_bytes id) = Some id → String.length (as_bytes id) ≠ 8%nat.
Proof.
  unfold raw_from_bytes. intros Hid Hl. rewrite Hl in Hid. done.
Qed.

Lemma append_same (p a b : string) : p +:+ a = p +:+ b → a = b.
Proof. intros He. by apply append_inj_l in He as [_ ?]. Qed.

(** The keys of two requests agree only if the requests do, unless both took a
    number. *)
Lemma row_same d e e' key :
  request_row d e key → request_row d e' key →
  e = e' ∨ ∃ buf buf' c, e = SEdu buf ∧ e' = SEdu buf' ∧ key = get_prefix d +:+ u64_to_be_bytes c ∧ (c <= U64_MAX)%N.
Proof.
  intros [id Hid|buf c Hb Hc] Hr.
  - remember (get_prefix d +:+ as_bytes id) as k eqn:Ek. destruct Hr as [id' Hid'|buf' c' Hb' Hc'].
    + left. apply append_same in Ek. congruence.
    + apply append_same in Ek. exfalso. apply (raw_id_length id Hid). rewrite <-Ek. apply length_u64.
  - remember (get_prefix d +:+ u64_to_be_bytes c) as k eqn:Ek. destruct Hr as [id' Hid'|buf' c' Hb' Hc'].
    + apply append_same in Ek. exfalso. apply (raw_id_length id' Hid'). rewrite Ek. apply length_u64.
    + right. exists buf, buf', c. by split_and!.
Qed.

Lemma sub_ok_one sub n n' key d e :
  sub_ok sub n → (n <= n')%N → dest_ok d → request_row d e key → drawn n' d e key →
  match e with SEdu _ => ∃ c, key = get_prefix d +:+ u64_to_be_bytes c ∧ (n < c <= U64_MAX)%N | _ => True end →
  (n <= U64_MAX)%N → sub_ok (sub ++ [(key, (d, e))]) n'.
Proof.
  intros [Hrow Huni] Hle Hd Hr Hdr Hnew Hmax.
  assert (∀ d' e', (key, (d', e')) ∈ sub → d = d' ∧ e = e') as Hcross.
  { intros d' e' Hin. destruct (Hrow _ _ _ Hin) as (Hd' & Hr' & Hdr'). pose proof (row_dest d d' e e' key Hd Hd' Hr Hr') as <-. split; [done|].
    destruct (row_same d e e' key Hr Hr') as [->|(buf & buf' & c & -> & -> & -> & Hc)]; [done|]. exfalso.
    destruct Hnew as (c1 & E1 & Hc1), Hdr' as (c2 & E2 & Hc2). apply append_same in E1, E2. rewrite E1 in E2.
    apply u64_bytes_inj in E2; lia. }
  split.
  - intros key' d' e'. rewrite elem_of_app, list_elem_of_singleton. intros [Hin|[= -> -> ->]]; [|done].
    destruct (Hrow _ _ _ Hin) as (Hd' & Hr' & Hdr'). split_and!; [done..|]. destruct e'; [done| |done].
    destruct Hdr' as (c & -> & Hc). exists c. split; [done|lia].
  - intros key' d1 e1 d2 e2. rewrite !elem_of_app, !list_elem_of_singleton.
    intros [Hin1|[= -> -> ->]] [Hin2|E2]; [by eapply Huni| |by apply Hcross|by simplify_eq].
    injection E2 as -> -> ->. by destruct (Hcross _ _ Hin1) as [-> ->].
Qed.

Lemma request_keys_spec (reqs : list (SendingEvent * Destination)) s ids sub :
  data_inv (send_globals s) ids → (last_count s + N.of_nat (length reqs) <= U64_MAX)%N → Forall (λ r, event_ok r.1 ∧ dest_ok r.2) reqs →
  sub_ok sub (last_count s) →
  ∃ keys s', request_keys reqs s = Ok (keys, s') ∧ data_inv (send_globals s') ids
    ∧ servercurrentevent_data s' = servercurrentevent_data s ∧ servernameevent_data s' = servernameevent_data s ∧ channels s' = channels s
    ∧ length keys = length reqs ∧ sub_ok (sub ++ zip keys (prod_swap <$> reqs)) (last_count s').
Proof.
  revert s sub. induction reqs as [|[e d] reqs IH]; intros s sub Hd Hfit Hok Hsub.
  { exists [], s. split_and!; try done. by rewrite app_nil_r. }
  apply Forall_cons in Hok as [[He Hde] Hok]. cbn [length] in Hfit. cbn [request_keys fst snd] in *.
  destruct (request_key_spec e d s ids Hd) as (key & s1 & -> & Hd1 & Hle & Hc1 & Hq1 & Hch1 & Hrow & Hdr & Hnew); [lia|done|].
  cbn [fst snd]. pose proof (sub_ok_one sub (last_count s) (last_count s1) key d e Hsub ltac:(lia) Hde Hrow Hdr Hnew ltac:(lia)) as Hsub1.
  destruct (IH s1 _ Hd1 ltac:(lia) Hok Hsub1) as (keys & s2 & -> & Hd2 & Hc2 & Hq2 & Hch2 & Hlen & Hsub2).
  exists (key :: keys), s2. split_and!; try done; [congruence..|cbn; by rewrite Hlen|]. cbn. by rewrite <-app_assoc in Hsub2.
Qed.
End updates.
