(* ===== verification/Sender.v ===== *)
(** * The sending workers ([src/src/service/sending/sender.rs])

    Each worker serves the destinations of one shard: a map of transaction
    statuses, the transactions in flight, and the rows of [Sending].  Requests
    come from the worker's channel, responses from the network in any order; a
    restart keeps only the tables and takes up what was in flight. *)

From S2P Require Import Prelude Bytes Slices SetOps DbCodec DbMap Pairs Counter Short PduId MemberCache Sending.

Inductive TransactionStatus :=
  | Running
  (** number of times failed, time of last failure *)
  | Failed (tries at_ : N)
  | Retrying (tries : N).

Record SenderConfig := mkConfig {
  sender_timeout : N;
  sender_retry_backoff_limit : N;
  startup_netburst : bool;
  startup_netburst_keep : Z;
}.

Definition DEQUEUE_LIMIT : nat := 48.
Definition EDU_LIMIT : nat := 100.

(** *** Backoff ([src/src/core/utils/time/exponential_backoff.rs]) *)

(** Times are nanoseconds; the longest [Duration] is [u64::MAX] seconds and a
    nanosecond less than one more. *)
Definition NANOS : N := 1000000000.
Definition DURATION_MAX : N := 2 ^ 64 * NANOS - 1.
Definition duration_saturating_mul (d n : N) : N := N.min (d * n) DURATION_MAX.

Definition continue_exponential_backoff (min max elapsed tries : N) : bool :=
  let min := duration_saturating_mul (duration_saturating_mul min tries) tries in
  (elapsed <? N.min min max)%N.

Definition continue_exponential_backoff_secs (min max elapsed tries : N) : bool :=
  continue_exponential_backoff (min * NANOS) (max * NANOS) elapsed tries.

Definition U32_MAX : N := 2 ^ 32 - 1.

Section sender.
Context `{Engine, JsonParser, Users, DestHash, HashIter} (cfg : SenderConfig).

Record Worker := mkWorker {
  sending : Sending;
  statuses : gmap Destination TransactionStatus;
  futures : list (Destination * list SendingEvent);
}.
Implicit Types (w : Worker) (s : Sending) (dest : Destination) (st : gmap Destination TransactionStatus).

(** ** Responses *)

Definition handle_response_err st (now : N) dest : Result SendError (gmap Destination TransactionStatus) :=
  match st !! dest with
  | None => Ok st
  | Some Running => Ok (<[dest := Failed 1 now]> st)
  | Some (Retrying n) => Ok (<[dest := Failed (N.min (n + 1) U32_MAX) now]> st)
  | Some (Failed _ _) => Err SendPanic
  end.

(** [futures] no longer has the transaction that was answered. *)
Definition handle_response_ok w dest : Result SendError Worker :=
  let s := delete_all_active_requests_for (sending w) dest in
  let? new_events := queued_requests s dest DEQUEUE_LIMIT in
  match new_events with
  | [] => Ok (mkWorker s (delete dest (statuses w)) (futures w))
  | _ => Ok (mkWorker (mark_as_active s new_events) (statuses w) (futures w ++ [(dest, new_events.*2)]))
  end.

(** The transaction at a position of [futures] has an answer. *)
Definition handle_response w (now : N) (i : nat) (delivered : bool) : Result SendError Worker :=
  match futures w !! i with
  | None => Ok w
  | Some (dest, _) =>
      let w := mkWorker (sending w) (statuses w) (delete i (futures w)) in
      if delivered then handle_response_ok w dest
      else let? next := handle_response_err (statuses w) now dest in Ok (mkWorker (sending w) next (futures w))
  end.

(** ** Requests *)

Definition is_appservice dest : bool := match dest with Appservice _ => true | _ => false end.

(** Whether a transaction may start, and whether it is a retry. *)
Definition select_events_current st (now : N) dest : (bool * bool) * gmap Destination TransactionStatus :=
  match st !! dest with
  | Some (Failed tries time) =>
      if continue_exponential_backoff_secs (sender_timeout cfg) (sender_retry_backoff_limit cfg) (now - time) tries
         && negb (is_appservice dest)
      then ((false, false), st)
      else ((true, true), <[dest := Retrying tries]> st)
  | Some Running | Some (Retrying _) => ((false, false), st)
  | None => ((true, false), <[dest := Running]> st)
  end.

(** [edus] is what [select_edus] finds for a server, with the count it reaches. *)
Definition select_events s st (now : N) dest (new_events : list (string * SendingEvent)) (edus : list string * N) :
    Result SendError (option (list SendingEvent) * (Sending * gmap Destination TransactionStatus)) :=
  let '((allow, retry), st) := select_events_current st now dest in
  if negb allow then Ok (None, (s, st))
  else if retry then
    let? active := active_requests_for s dest in Ok (Some active.*2, (s, st))
  else
    let s := mark_as_active s new_events in
    match dest with
    | Federation server =>
        let? next := set_latest_educount s server edus.2 in
        Ok (Some (new_events.*2 ++ (SEdu <$> edus.1)), (next, st))
    | _ => Ok (Some new_events.*2, (s, st))
    end.

Definition handle_request w (now : N) (m : Msg) (edus : list string * N) : Result SendError Worker :=
  let? r := select_events (sending w) (statuses w) now (msg_dest m) [(queue_id m, msg_event m)] edus in
  let '(events, (s, st)) := r in
  match events with
  | None => Ok (mkWorker s st (futures w))
  | Some [] => Ok (mkWorker s (delete (msg_dest m) st) (futures w))
  | Some evs => Ok (mkWorker s st (futures w ++ [(msg_dest m, evs)]))
  end.

(** ** Start and end *)

Definition keep : nat := Z.to_nat (startup_netburst_keep cfg).

(** The active requests by destination; those beyond the limit are dropped. *)
Fixpoint netburst_collect (id : nat) s (active : list (string * SendingEvent * Destination))
    (txns : gmap Destination (list SendingEvent)) : Sending * gmap Destination (list SendingEvent) :=
  match active with
  | [] => (s, txns)
  | (key, event, dest) :: active' =>
      if (shard_id s dest =? id)%nat then
        let entry := default [] (txns !! dest) in
        if (0 <=? startup_netburst_keep cfg)%Z && (keep <=? length entry)%nat
        then netburst_collect id (delete_active_request s key) active' (<[dest := entry]> txns)
        else netburst_collect id s active' (<[dest := entry ++ [event]]> txns)
      else netburst_collect id s active' txns
  end.

Definition netburst_start w (txn : Destination * list SendingEvent) : Worker :=
  match txn.2 with
  | [] => w
  | _ => if startup_netburst cfg then mkWorker (sending w) (<[txn.1 := Running]> (statuses w)) (futures w ++ [txn]) else w
  end.

Definition startup_netburst_ (id : nat) w : Result SendError Worker :=
  let? active := active_requests (sending w) in
  let '(s, txns) := netburst_collect id (sending w) active ∅ in
  Ok (foldl netburst_start (mkWorker s (statuses w) (futures w)) (hash_iter txns)).

(** A response that arrives while the worker shuts down. *)
Definition finish_response w (i : nat) (delivered : bool) : Worker :=
  match futures w !! i with
  | None => w
  | Some (dest, _) =>
      mkWorker (if delivered then delete_all_active_requests_for (sending w) dest else sending w) (statuses w) (delete i (futures w))
  end.

(** ** Transactions *)

(** What is sent to a server: the stored events that are found, formatted, and
    the ephemeral ones that are JSON. *)
Definition federation_transaction (pdu_json : RawId → option string) (format_pdu : string → string) (events : list SendingEvent) :
    list string * list string :=
  (format_pdu <$> omap (λ e, match e with SPdu id => pdu_json id | _ => None end) events,
   filter (λ t, json_parses t = true) (omap (λ e, match e with SEdu buf => Some buf | _ => None end) events)).

(** [execute] is the request over the network. *)
Definition send_events_dest_federation (pdu_json : RawId → option string) (format_pdu : string → string)
    (execute : list string * list string → bool) (events : list SendingEvent) : bool :=
  match federation_transaction pdu_json format_pdu events with
  | ([], []) => true
  | txn => execute txn
  end.

(** To an application service, if it is registered; [ephemeral] reads and
    rewrites an ephemeral event. *)
Definition send_events_dest_appservice (registered receive_ephemeral : bool) (pdu_json : RawId → option string)
    (ephemeral : string → option string) (execute : list string * list string → bool) (events : list SendingEvent) : bool :=
  registered &&
  execute (omap (λ e, match e with SPdu id => pdu_json id | _ => None end) events,
           if receive_ephemeral then omap (λ e, match e with SEdu buf => ephemeral buf | _ => None end) events else []).
End sender.

(** ** Requests and their rows *)

Section rows_inv.
Context `{Engine, JsonParser, Users, DestHash, HashIter}.
Implicit Types (s : Sending) (d : Destination) (e : SendingEvent) (key val : string) (sub : Submissions).

(** Every row is that of a request submitted, and a key that of one only. *)
Record rows_inv sub s : Prop := {
  ri_data : ∃ ids, data_inv (send_globals s) ids;
  ri_sub key d e : (key, (d, e)) ∈ sub → dest_ok d ∧ request_row d e key ∧ drawn (last_count s) d e key;
  ri_unique key d e d' e' : (key, (d, e)) ∈ sub → (key, (d', e')) ∈ sub → d = d' ∧ e = e';
  ri_queue key val : queue_rows s !! key = Some val → ∃ d e, (key, (d, e)) ∈ sub ∧ val = event_value e;
  ri_current key val : current_rows s !! key = Some val → ∃ d e, (key, (d, e)) ∈ sub ∧ val = event_value e;
}.

Definition in_queue s key : Prop := is_Some (queue_rows s !! key).
Definition in_current s key : Prop := is_Some (current_rows s !! key).

(** The parsed rows of a scan are requests. *)
Lemma parse_rows_spec sub s (rows : list (string * string)) :
  rows_inv sub s → (∀ key val, (key, val) ∈ rows → ∃ d e, (key, (d, e)) ∈ sub ∧ val = event_value e) →
  ∃ l, parse_rows rows = Ok l ∧ l.*1.*1 = rows.*1 ∧ ∀ key e d, (key, e, d) ∈ l ↔ (key, (d, e)) ∈ sub ∧ key ∈ rows.*1.
Proof.
  intros Hinv. induction rows as [|[key val] rows IH]; intros Hrows; cbn [parse_rows].
  { exists []. split_and!; [done..|]. intros key e d. rewrite !elem_of_nil. naive_solver. }
  destruct (Hrows key val) as (d & e & Hsub & ->); [by left|]. destruct (ri_sub _ _ Hinv _ _ _ Hsub) as (Hd & Hr & _).
  rewrite (row_parse d e key Hd Hr). cbn [map_err fst snd].
  destruct IH as (l & -> & Hk & Hl); [intros k v Hkv; apply Hrows; by right|].
  exists ((key, e, d) :: l). split_and!; [done|csimpl; by rewrite Hk|]. intros key' e' d'. csimpl. rewrite !elem_of_cons, Hl. split.
  - intros [[= -> -> ->]|Hin]; [by split; [|left]|]. split; [naive_solver|]. naive_solver.
  - intros [Hs [->|Hin]]; [|by right; split]. left. by destruct (ri_unique _ _ Hinv _ _ _ _ _ Hsub Hs) as [-> ->].
Qed.

Lemma elem_of_prefix_rows (tb : Table) p key val :
  (key, val) ∈ raw_stream_prefix tb p ↔ String.prefix p key = true ∧ table_rows tb !! key = Some val.
Proof. rewrite raw_stream_prefix_filter, list_elem_of_filter, elem_of_btree_iter. done. Qed.

Lemma elem_of_prefix_keys (tb : Table) p key :
  key ∈ (raw_stream_prefix tb p).*1 ↔ String.prefix p key = true ∧ is_Some (table_rows tb !! key).
Proof.
  rewrite list_elem_of_fmap. split.
  - intros ([k v] & -> & [Hp Hv]%elem_of_prefix_rows). cbn. by rewrite Hv.
  - intros [Hp [v Hv]]. exists (key, v). split; [done|]. by apply elem_of_prefix_rows.
Qed.

(** What is active for a destination. *)
Lemma active_requests_for_spec sub s d :
  rows_inv sub s → dest_ok d →
  ∃ l, active_requests_for s d = Ok l ∧ ∀ key e, (key, e) ∈ l ↔ (key, (d, e)) ∈ sub ∧ in_current s key.
Proof.
  intros Hinv Hd. unfold active_requests_for.
  destruct (parse_rows_spec sub s (raw_stream_prefix (servercurrentevent_data s) (get_prefix d)) Hinv) as (l & -> & _ & Hl).
  { intros key val [_ Hv]%elem_of_prefix_rows. by apply (ri_current _ _ Hinv). }
  exists l.*1. split; [done|]. intros key e. rewrite list_elem_of_fmap. split.
  - intros ([[k e'] d'] & [= -> ->] & [Hs [Hp Hc]%elem_of_prefix_keys]%Hl). destruct (ri_sub _ _ Hinv _ _ _ Hs) as (Hd' & Hr & _).
    apply (row_under d d' e' k Hd Hd' Hr) in Hp as ->. done.
  - intros [Hs Hc]. exists (key, e, d). split; [done|]. apply Hl. split; [done|]. apply elem_of_prefix_keys.
    destruct (ri_sub _ _ Hinv _ _ _ Hs) as (_ & Hr & _). split; [by eapply row_prefix|done].
Qed.

(** What is taken from a destination's queue. *)
Lemma queued_requests_spec sub s d (n : nat) :
  rows_inv sub s → dest_ok d →
  ∃ l, queued_requests s d n = Ok l ∧ (∀ key e, (key, e) ∈ l → (key, (d, e)) ∈ sub ∧ in_queue s key)
    ∧ l.*1 = take n (raw_stream_prefix (servernameevent_data s) (get_prefix d)).*1.
Proof.
  intros Hinv Hd. unfold queued_requests. set (rows := take n _).
  assert (∀ key val, (key, val) ∈ rows → (key, val) ∈ raw_stream_prefix (servernameevent_data s) (get_prefix d)) as Hsub
    by (intros key val; apply subseteq_take).
  destruct (parse_rows_spec sub s rows Hinv) as (l & -> & Hk & Hl).
  { intros key val [_ Hv]%Hsub%elem_of_prefix_rows. by apply (ri_queue _ _ Hinv). }
  exists l.*1. split_and!; [done| |by rewrite Hk; unfold rows; rewrite fmap_take].
  intros key e. rewrite list_elem_of_fmap. intros ([[k e'] d'] & [= -> ->] & [Hs Hin]%Hl).
  apply list_elem_of_fmap in Hin as ([k' v] & -> & Hin%Hsub%elem_of_prefix_rows). cbn in Hin. destruct Hin as [Hp Hv].
  destruct (ri_sub _ _ Hinv _ _ _ Hs) as (Hd' & Hr & _). apply (row_under d d' e' k' Hd Hd' Hr) in Hp as ->. split; [done|].
  by exists v.
Qed.

(** Taking requests up keeps every one of them. *)
Lemma mark_as_active_inv sub s (events : list (string * SendingEvent)) :
  rows_inv sub s → (∀ key e, (key, e) ∈ events → key ≠ "" → ∃ d, (key, (d, e)) ∈ sub) →
  rows_inv sub (mark_as_active s events)
  ∧ (∀ key, in_current (mark_as_active s events) key ↔ in_current s key ∨ (key ≠ "" ∧ key ∈ events.*1))
  ∧ (∀ key, in_queue (mark_as_active s events) key ↔ in_queue s key ∧ ¬ (key ≠ "" ∧ key ∈ events.*1)).
Proof.
  intros Hinv Hev. destruct (mark_as_active_rows s events) as ([Hg Hch] & Hq & Hc & Hin). set (s' := mark_as_active s events) in *.
  assert (¬ is_Some (None : option string)) as Hnone by by intros [? ?].
  split_and!.
  - destruct Hinv as [Hd Hs Hu Hqi Hci]. split; [by rewrite Hg|unfold last_count; rewrite Hg; exact Hs|exact Hu|..].
    + intros key val. rewrite Hq. case_decide; [done|apply Hqi].
    + intros key val Hv. destruct (decide (key ≠ "" ∧ key ∈ events.*1)) as [[Hk Hel]|Hno]; [|rewrite Hc in Hv by done; by apply Hci].
      destruct (Hin key Hk Hel) as (e & He & Hrow). rewrite Hrow in Hv. injection Hv as <-. destruct (Hev key e He Hk) as [d Hd'].
      by exists d, e.
  - intros key. unfold in_current. destruct (decide (key ≠ "" ∧ key ∈ events.*1)) as [[Hk Hel]|Hno].
    + destruct (Hin key Hk Hel) as (e & He & ->). naive_solver.
    + rewrite Hc by done. naive_solver.
  - intros key. unfold in_queue. rewrite Hq. case_decide; naive_solver.
Qed.

(** Removing rows. *)
Lemma remove_current_inv sub s (tb : Table) :
  rows_inv sub s → (∀ key val, table_rows tb !! key = Some val → current_rows s !! key = Some val) → rows_inv sub (with_current tb s).
Proof. intros [Hd Hs Hu Hqi Hci] Hsub. split; [exact Hd|exact Hs|exact Hu|exact Hqi|]. intros key val Hv. by apply Hci, Hsub. Qed.

Lemma delete_active_spec sub s d :
  rows_inv sub s → dest_ok d →
  let s' := delete_all_active_requests_for s d in
  rows_inv sub s' ∧ servernameevent_data s' = servernameevent_data s ∧ channels s' = channels s ∧ send_globals s' = send_globals s
  ∧ (∀ key d' e, (key, (d', e)) ∈ sub → in_current s' key ↔ in_current s key ∧ d' ≠ d).
Proof.
  intros Hinv Hd s'. assert (∀ key, current_rows s' !! key = if String.prefix (get_prefix d) key then None else current_rows s !! key) as Hrow
    by (intros key; apply remove_prefix_rows).
  split_and!; [|done|done|done|].
  - apply remove_current_inv; [done|]. intros key val Hv. fold (current_rows s') in Hv. change (current_rows s' !! key = Some val) in Hv.
    rewrite Hrow in Hv. by destruct (String.prefix _ _).
  - intros key d' e Hs. destruct (ri_sub _ _ Hinv _ _ _ Hs) as (Hd' & Hr & _). unfold in_current. rewrite Hrow.
    pose proof (row_under d d' e key Hd Hd' Hr) as Hu. destruct (String.prefix (get_prefix d) key).
    + pose proof (proj1 Hu eq_refl) as ->. split; [by intros [? ?]|naive_solver].
    + split; [|naive_solver]. intros Hc. split; [done|]. intros ->. pose proof (proj2 Hu eq_refl). done.
Qed.
End rows_inv.

(** ** The worker among its requests *)

Section world.
Context `{Engine, JsonParser, Users, DestHash, HashIter} (cfg : SenderConfig) (id : nat).
Implicit Types (s : Sending) (w : Worker) (d : Destination) (e : SendingEvent) (key val : string) (m : Msg) (sub : Submissions).

(** A worker with what was submitted to the service, the transactions that were
    acknowledged, the keys given up on purpose, and whether it is shutting
    down. *)
Record World := mkWorld {
  worker : Worker;
  submitted : Submissions;
  acknowledged : list (Destination * list SendingEvent);
  discarded : list string;
  finishing : bool;
}.
Implicit Types (x y : World).

Definition store x : Sending := sending (worker x).

Definition put_sending s w : Worker := mkWorker s (statuses w) (futures w).

(** The destinations of this worker. *)
Definition mine s d : Prop := shard_id s d = id.

(** A channel without its first message. *)
Definition pop_channel s (l : list Msg) (closed : bool) : Sending := with_channels (<[id := (closed, l)]> (channels s)) s.

(** The worker of a fresh process. *)
Definition rebooted s : Worker := mkWorker (with_channels ((λ _, (false, [])) <$> channels s) s) ∅ [].

(** Keys of the first table that the second no longer has. *)
Definition lost_keys s s' : list string :=
  filter (λ key, current_rows s' !! key = None) (map_to_list (current_rows s)).*1.

(** Keys of a destination, in either table. *)
Definition keys_of s d : list string :=
  filter (λ key, String.prefix (get_prefix d) key = true) ((map_to_list (current_rows s)).*1 ++ (map_to_list (queue_rows s)).*1).

Definition cleaned (appservice user push_key : option string) : option Destination :=
  match appservice, user, push_key with
  | None, Some user, Some push_key => Some (Push user push_key)
  | Some appservice, None, None => Some (Appservice appservice)
  | _, _, _ => None
  end.

(** What else may happen to the tables: the other workers and the rest of the
    server touch only rows of other destinations. *)
Record elsewhere sub s s' : Prop := {
  ew_data : ∃ ids, data_inv (send_globals s') ids;
  ew_count : (last_count s <= last_count s')%N;
  ew_length : length (channels s') = length (channels s);
  ew_channel : channels s' !! id = channels s !! id;
  ew_queue key : queue_rows s' !! key = queue_rows s !! key
    ∨ ∃ d e, (key, (d, e)) ∈ sub ∧ ¬ mine s d ∧ (queue_rows s' !! key = None ∨ queue_rows s' !! key = Some (event_value e));
  ew_current key : current_rows s' !! key = current_rows s !! key
    ∨ ∃ d e, (key, (d, e)) ∈ sub ∧ ¬ mine s d ∧ (current_rows s' !! key = None ∨ current_rows s' !! key = Some (event_value e));
}.

Inductive sender_step x : World → Prop :=
  (** requests are queued and dispatched by anyone *)
  | step_submit reqs keys s1 res s2 :
      Forall (λ r, event_ok r.1 ∧ dest_ok r.2) reqs → (last_count (store x) + N.of_nat (length reqs) <= U64_MAX)%N →
      queue_requests (store x) reqs = Ok (keys, s1) →
      dispatch_all s1 (zip_with (λ r k, mkMsg r.2 r.1 k) reqs keys) = (res, s2) →
      sender_step x (mkWorld (put_sending s2 (worker x)) (submitted x ++ zip keys (prod_swap <$> reqs)) (acknowledged x) (discarded x) (finishing x))
  | step_flush servers res s' :
      Forall (λ server, dest_ok (Federation server)) servers → flush_servers (store x) servers = (res, s') →
      sender_step x (mkWorld (put_sending s' (worker x)) (submitted x) (acknowledged x) (discarded x) (finishing x))
  | step_request closed m l now edus w :
      finishing x = false → channels (store x) !! id = Some (closed, m :: l) →
      handle_request cfg (put_sending (pop_channel (store x) l closed) (worker x)) now m edus = Ok w →
      sender_step x (mkWorld w (submitted x) (acknowledged x) (discarded x) false)
  | step_response i now txn (delivered : bool) w :
      finishing x = false → futures (worker x) !! i = Some txn → handle_response (worker x) now i delivered = Ok w →
      sender_step x (mkWorld w (submitted x) (if delivered then acknowledged x ++ [txn] else acknowledged x) (discarded x) false)
  | step_finish i txn (delivered : bool) :
      futures (worker x) !! i = Some txn →
      sender_step x (mkWorld (finish_response (worker x) i delivered) (submitted x)
        (if delivered then acknowledged x ++ [txn] else acknowledged x) (discarded x) true)
  | step_cleanup appservice user push_key d :
      cleaned appservice user push_key = Some d → dest_ok d →
      sender_step x (mkWorld (put_sending (cleanup_events (store x) appservice user push_key) (worker x)) (submitted x) (acknowledged x)
        (discarded x ++ keys_of (store x) d) (finishing x))
  | step_restart w :
      startup_netburst_ cfg id (rebooted (store x)) = Ok w →
      sender_step x (mkWorld w (submitted x) (acknowledged x) (discarded x ++ lost_keys (store x) (sending w)) false)
  | step_elsewhere s' :
      elsewhere (submitted x) (store x) s' →
      sender_step x (mkWorld (put_sending s' (worker x)) (submitted x) (acknowledged x) (discarded x) (finishing x)).

(** *** Invariant *)

Definition msg_ok sub m : Prop :=
  (msg_event m = SFlush ∧ queue_id m = "" ∧ dest_ok (msg_dest m)) ∨ (queue_id m, (msg_dest m, msg_event m)) ∈ sub.

(** A transaction in flight carries all that is active for its destination. *)
Definition flight_ok sub s (txn : Destination * list SendingEvent) : Prop :=
  dest_ok txn.1 ∧ mine s txn.1 ∧ ∀ key e, (key, (txn.1, e)) ∈ sub → in_current s key → e ∈ txn.2.

(** The status of a destination says whether a transaction is in flight; one
    without a status has nothing active. *)
Definition status_ok sub w d : Prop :=
  match statuses w !! d with
  | Some Running | Some (Retrying _) => d ∈ (futures w).*1
  | Some (Failed _ _) => ¬ d ∈ (futures w).*1
  | None => ¬ d ∈ (futures w).*1 ∧ ∀ key e, (key, (d, e)) ∈ sub → ¬ in_current (sending w) key
  end.

(** A request is waiting, taken up, acknowledged or given up. *)
Definition accounted x (key : string) d e : Prop :=
  in_queue (store x) key ∨ in_current (store x) key ∨ (∃ evs, (d, evs) ∈ acknowledged x ∧ e ∈ evs) ∨ key ∈ discarded x.

Record sender_inv x : Prop := {
  si_rows : rows_inv (submitted x) (store x);
  si_msgs closed l m : channels (store x) !! id = Some (closed, l) → m ∈ l → msg_ok (submitted x) m ∧ mine (store x) (msg_dest m);
  si_flight : Forall (flight_ok (submitted x) (store x)) (futures (worker x));
  si_nodup : finishing x = false → NoDup (futures (worker x)).*1;
  si_status d : finishing x = false → dest_ok d → mine (store x) d → status_ok (submitted x) (worker x) d;
  si_kept key d e : (key, (d, e)) ∈ submitted x → mine (store x) d → accounted x key d e;
}.

(** *** Transactions in flight *)

Lemma shard_length s s' d : length (channels s') = length (channels s) → shard_id s' d = shard_id s d.
Proof. unfold shard_id. by intros ->. Qed.

Lemma futures_delete (fut : list (Destination * list SendingEvent)) (i : nat) txn :
  NoDup fut.*1 → fut !! i = Some txn →
  NoDup (delete i fut).*1 ∧ (∀ d, d ∈ (delete i fut).*1 ↔ d ∈ fut.*1 ∧ d ≠ txn.1).
Proof.
  intros ND Hi. rewrite <-(take_drop_middle fut i txn Hi) in ND. rewrite fmap_app, fmap_cons in ND.
  pose proof (take_drop_middle fut i txn Hi) as E. rewrite delete_take_drop, fmap_app.
  apply NoDup_app in ND as (ND1 & Hdis & [Hni ND2]%NoDup_cons). split.
  - apply NoDup_app. split_and!; [done| |done]. intros d Hd Hd'. apply (Hdis d Hd). by right.
  - intros d. rewrite elem_of_app. split.
    + intros [Hd|Hd]; (split; [rewrite <-E, fmap_app, elem_of_app; csimpl; rewrite ?elem_of_cons; naive_solver|]).
      * intros ->. apply (Hdis _ Hd). by left.
      * intros ->. done.
    + intros [Hd Hne]. rewrite <-E, fmap_app, elem_of_app in Hd. csimpl in *. rewrite elem_of_cons in Hd. naive_solver.
Qed.

Lemma delete_subset {A} (l : list A) (i : nat) (a : A) : a ∈ delete i l → a ∈ l.
Proof. rewrite delete_take_drop, elem_of_app. intros [Hx|Hx]; [by eapply subseteq_take|by eapply subseteq_drop]. Qed.

Lemma flight_weaken sub s s' txn :
  length (channels s') = length (channels s) → (∀ key e, (key, (txn.1, e)) ∈ sub → in_current s' key → in_current s key) →
  flight_ok sub s txn → flight_ok sub s' txn.
Proof.
  intros Hl Hsub (Hd & Hm & Hin). split_and!; [done|unfold mine; by rewrite (shard_length s)|]. intros key e Hs Hc.
  exact (Hin key e Hs (Hsub key e Hs Hc)).
Qed.

(** The status of other destinations. *)
Lemma status_other sub w w' d :
  statuses w' !! d = statuses w !! d → (d ∈ (futures w').*1 ↔ d ∈ (futures w).*1) →
  (∀ key e, (key, (d, e)) ∈ sub → in_current (sending w') key → in_current (sending w) key) →
  status_ok sub w d → status_ok sub w' d.
Proof. unfold status_ok. intros -> Hf Hc. destruct (statuses w !! d) as [[]|]; rewrite Hf; naive_solver. Qed.

(** A delivered transaction takes its rows with it; what it carried is
    acknowledged. *)
Lemma delivered_kept x (i : nat) d evs key d' e :
  sender_inv x → futures (worker x) !! i = Some (d, evs) → (key, (d', e)) ∈ submitted x → mine (store x) d' →
  in_queue (store x) key ∨ (in_current (store x) key ∧ d' ≠ d)
  ∨ (∃ evs', (d', evs') ∈ acknowledged x ++ [(d, evs)] ∧ e ∈ evs') ∨ key ∈ discarded x.
Proof.
  intros Hinv Hi Hs Hm. destruct (si_kept _ Hinv key d' e Hs Hm) as [Hq|[Hc|[(evs' & Ha & He)|Hd]]]; [by left|..|by right; right; right].
  - destruct (decide (d' = d)) as [->|Hne]; [|by right; left]. right; right; left. exists evs.
    pose proof (proj1 (Forall_forall _ _) (si_flight _ Hinv) _ (list_elem_of_lookup_2 _ _ _ Hi)) as (_ & _ & Hf).
    split; [apply elem_of_app; right; by left|]. by apply (Hf key e).
  - right; right; left. exists evs'. split; [apply elem_of_app; by left|done].
Qed.

Lemma idle_after x (i : nat) d evs :
  sender_inv x → finishing x = false → futures (worker x) !! i = Some (d, evs) →
  sender_inv (mkWorld (mkWorker (delete_all_active_requests_for (store x) d) (delete d (statuses (worker x))) (delete i (futures (worker x))))
    (submitted x) (acknowledged x ++ [(d, evs)]) (discarded x) false).
Proof.
  intros Hinv Hf Hi.
  pose proof (proj1 (Forall_forall _ _) (si_flight _ Hinv) _ (list_elem_of_lookup_2 _ _ _ Hi)) as (Hd & _ & _). cbn [fst] in Hd.
  destruct (delete_active_spec _ _ d (si_rows _ Hinv) Hd) as (Hr1 & Hq1 & Hch1 & Hg1 & Hc1).
  destruct (futures_delete _ i _ (si_nodup _ Hinv Hf) Hi) as [ND Hin]. cbn [fst] in Hin.
  set (s1 := delete_all_active_requests_for (store x) d) in *.
  assert (∀ d', mine s1 d' ↔ mine (store x) d') as Hmine by done.
  split; cbn [worker submitted store sending futures finishing].
  - done.
  - intros closed l m Hc Hm. apply (si_msgs _ Hinv closed l); [by rewrite <-Hch1|done].
  - apply Forall_forall. intros txn Ht%delete_subset. apply (flight_weaken _ (store x)); [done|intros key e Hs [Hc _]%(Hc1 key _ _ Hs); done|].
    exact (proj1 (Forall_forall _ _) (si_flight _ Hinv) _ Ht).
  - done.
  - intros d' _ Hd' Hm'. destruct (decide (d' = d)) as [->|Hne].
    + unfold status_ok. cbn. rewrite lookup_delete_eq. split; [rewrite Hin; naive_solver|]. intros key e Hs [_ ?]%(Hc1 key _ _ Hs). done.
    + apply (status_other _ (worker x)); cbn [statuses futures sending].
      * by rewrite lookup_delete_ne.
      * rewrite Hin. naive_solver.
      * by intros key e Hs [Hc _]%(Hc1 key _ _ Hs).
      * by apply (si_status _ Hinv).
  - intros key d' e Hs Hm'. destruct (delivered_kept x i d evs key d' e Hinv Hi Hs Hm') as [Hq|[Hc|[Ha|Hdis]]].
    + left. exact Hq.
    + right; left. by apply (Hc1 key d' e).
    + right; right; left. exact Ha.
    + by right; right; right.
Qed.

Lemma busy_after x (i : nat) d evs (l : list (string * SendingEvent)) :
  sender_inv x → finishing x = false → futures (worker x) !! i = Some (d, evs) →
  (∀ key e, (key, e) ∈ l → (key, (d, e)) ∈ submitted x) → statuses (worker x) !! d ≠ None →
  sender_inv (mkWorld (mkWorker (mark_as_active (delete_all_active_requests_for (store x) d) l) (statuses (worker x))
    (delete i (futures (worker x)) ++ [(d, l.*2)])) (submitted x) (acknowledged x ++ [(d, evs)]) (discarded x) false).
Proof.
  intros Hinv Hf Hi Hl Hst.
  pose proof (proj1 (Forall_forall _ _) (si_flight _ Hinv) _ (list_elem_of_lookup_2 _ _ _ Hi)) as (Hd & Hm & _). cbn [fst] in Hd, Hm.
  destruct (delete_active_spec _ _ d (si_rows _ Hinv) Hd) as (Hr1 & Hq1 & Hch1 & Hg1 & Hc1).
  destruct (futures_delete _ i _ (si_nodup _ Hinv Hf) Hi) as [ND Hin]. cbn [fst] in Hin.
  set (s1 := delete_all_active_requests_for (store x) d) in *.
  destruct (mark_as_active_inv (submitted x) s1 l Hr1) as (Hr2 & Hc2 & Hq2); [intros key e Hke _; exists d; by apply Hl|].
  destruct (mark_as_active_rows s1 l) as ([_ Hch2] & _).
  set (s2 := mark_as_active s1 l) in *.
  assert (channels s2 = channels (store x)) as Hch by (by rewrite Hch2).
  assert (∀ d', mine s2 d' ↔ mine (store x) d') as Hmine by (intros d'; unfold mine; by rewrite (shard_length (store x)) by by rewrite Hch).
  assert (∀ key d' e, (key, (d', e)) ∈ submitted x → key ≠ "" ∧ key ∈ l.*1 → d' = d ∧ e ∈ l.*2) as Hl'.
  { intros key d' e Hs [_ Hk]. apply list_elem_of_fmap in Hk as ([k e'] & -> & Hk). cbn in Hs.
    destruct (ri_unique _ _ Hr1 _ _ _ _ _ Hs (Hl _ _ Hk)) as [-> ->]. split; [done|]. apply list_elem_of_fmap. by exists (k, e'). }
  split; cbn [worker submitted store sending futures finishing].
  - done.
  - intros closed l' m Hc Hm'. rewrite Hmine. apply (si_msgs _ Hinv closed l'); [by rewrite <-Hch|done].
  - apply Forall_app. split.
    + apply Forall_forall. intros txn Ht. apply (flight_weaken _ (store x)); [by rewrite Hch| |].
      * intros key e Hs [Hc|Hk]%Hc2; [by apply (Hc1 key _ _ Hs) in Hc as [? _]|]. destruct (Hl' key _ e Hs Hk) as [E _]. exfalso.
        apply (list_elem_of_fmap_2 fst) in Ht. apply Hin in Ht as [_ Hne]. done.
      * exact (proj1 (Forall_forall _ _) (si_flight _ Hinv) _ (delete_subset _ _ _ Ht)).
    + apply Forall_singleton. split_and!; [done|by apply Hmine|]. cbn [fst snd]. intros key e Hs [Hc|Hk]%Hc2.
      * by apply (Hc1 key _ _ Hs) in Hc as [_ ?].
      * by apply (Hl' key d e).
  - intros _. rewrite fmap_app. cbn. apply NoDup_app. split_and!; [done| |apply NoDup_singleton].
    intros d' [_ Hne]%Hin ->%list_elem_of_singleton. done.
  - intros d' _ Hd' Hm'%Hmine. destruct (decide (d' = d)) as [->|Hne].
    + pose proof (si_status _ Hinv d Hf Hd Hm') as Hok. unfold status_ok in *. cbn [statuses futures]. 
      assert (d ∈ (delete i (futures (worker x)) ++ [(d, l.*2)]).*1) as Hel by (rewrite fmap_app, elem_of_app; right; by left).
      assert (d ∈ (futures (worker x)).*1) as Hfd by (apply list_elem_of_fmap; exists (d, evs); split; [done|by eapply list_elem_of_lookup_2]).
      destruct (statuses (worker x) !! d) as [[]|]; done.
    + apply (status_other _ (worker x)); cbn [statuses futures sending]; [done|..|by apply (si_status _ Hinv)].
      * rewrite fmap_app, elem_of_app, Hin. cbn. rewrite list_elem_of_singleton. naive_solver.
      * intros key e Hs [Hc|Hk]%Hc2; [by apply (Hc1 key _ _ Hs) in Hc as [? _]|]. destruct (Hl' key _ e Hs Hk) as [E _]. done.
  - intros key d' e Hs Hm'%Hmine. unfold accounted, store. cbn [worker sending acknowledged discarded].
    destruct (delivered_kept x i d evs key d' e Hinv Hi Hs Hm') as [Hq|[Hc|[Ha|Hdis]]].
    + rewrite Hq2, Hc2. destruct (decide (key ≠ "" ∧ key ∈ l.*1)) as [Hk|Hk]; [by right; left; right|by left; split].
    + right; left. apply Hc2. left. by apply (Hc1 key d' e).
    + by right; right; left.
    + by right; right; right.
Qed.

Lemma response_spec x (i : nat) now txn (delivered : bool) :
  sender_inv x → finishing x = false → futures (worker x) !! i = Some txn →
  ∃ w, handle_response (worker x) now i delivered = Ok w
    ∧ sender_inv (mkWorld w (submitted x) (if delivered then acknowledged x ++ [txn] else acknowledged x) (discarded x) false).
Proof.
  intros Hinv Hf Hi. destruct txn as [d evs]. unfold handle_response. rewrite Hi.
  pose proof (proj1 (Forall_forall _ _) (si_flight _ Hinv) _ (list_elem_of_lookup_2 _ _ _ Hi)) as (Hd & Hm & _). cbn [fst] in Hd, Hm.
  pose proof (si_status _ Hinv d Hf Hd Hm) as Hst. unfold status_ok in Hst.
  assert (d ∈ (futures (worker x)).*1) as Hel by (apply list_elem_of_fmap; exists (d, evs); split; [done|by eapply list_elem_of_lookup_2]).
  destruct delivered.
  - unfold handle_response_ok. cbn [sending statuses futures]. fold (store x).
    destruct (delete_active_spec _ _ d (si_rows _ Hinv) Hd) as (Hr1 & _).
    destruct (queued_requests_spec _ _ d DEQUEUE_LIMIT Hr1 Hd) as (l & -> & Hl & _).
    destruct l as [|p l]; [eexists; split; [done|]; by apply idle_after|].
    eexists. split; [done|]. apply busy_after; [done..| |intros Hno; rewrite Hno in Hst; naive_solver].
    intros key e Hke. by apply Hl in Hke as [? _].
  - unfold handle_response_err. cbn [statuses].
    assert (∃ n, (match statuses (worker x) !! d with
      | Some Running => Ok (<[d:=Failed 1 now]> (statuses (worker x)))
      | Some (Failed _ _) => Err SendPanic
      | Some (Retrying n) => Ok (<[d:=Failed (N.min (n + 1) U32_MAX) now]> (statuses (worker x)))
      | None => Ok (statuses (worker x))
      end) = Ok (<[d := Failed n now]> (statuses (worker x)))) as [n ->].
    { destruct (statuses (worker x) !! d) as [[]|]; [by eexists|done|by eexists|naive_solver]. }
    eexists. split; [done|]. cbn [sending statuses futures].
    destruct (futures_delete _ i _ (si_nodup _ Hinv Hf) Hi) as [ND Hin]. cbn [fst] in Hin.
    destruct Hinv as [Hr Hms Hfl Hnd Hss Hk]. split; cbn [worker submitted store sending futures finishing]; [done|done| |done| |done].
    + apply Forall_forall. intros txn Ht%delete_subset. exact (proj1 (Forall_forall _ _) Hfl _ Ht).
    + intros d' _ Hd' Hm'. destruct (decide (d' = d)) as [->|Hne].
      * unfold status_ok. cbn [statuses futures]. rewrite lookup_insert_eq, Hin. naive_solver.
      * apply (status_other _ (worker x)); cbn [statuses futures sending]; [by rewrite lookup_insert_ne|rewrite Hin; naive_solver|done|by apply Hss].
Qed.

Lemma pop_inv x closed m (l : list Msg) :
  sender_inv x → channels (store x) !! id = Some (closed, m :: l) →
  sender_inv (mkWorld (put_sending (pop_channel (store x) l closed) (worker x)) (submitted x) (acknowledged x) (discarded x) (finishing x)).
Proof.
  intros [Hr Hms Hfl Hnd Hss Hk] Hch.
  assert (∀ d, mine (pop_channel (store x) l closed) d ↔ mine (store x) d) as Hmine.
  { intros d. unfold mine. rewrite (shard_length (store x)); [done|]. cbn. by rewrite length_insert. }
  split; cbn [worker put_sending submitted store sending futures finishing statuses].
  - destruct Hr as [Hd Hs Hu Hq Hc]. split; [exact Hd|exact Hs|exact Hu|exact Hq|exact Hc].
  - intros c l' m' Hc Hm'. rewrite Hmine. apply (Hms closed (m :: l)); [done|]. right.
    unfold pop_channel in Hc. cbn in Hc. rewrite list_lookup_insert_eq in Hc by (by eapply lookup_lt_Some). by injection Hc as _ <-.
  - eapply Forall_impl; [exact Hfl|]. intros txn. apply flight_weaken; [cbn; by rewrite length_insert|done].
  - done.
  - intros d Hf Hd Hm%Hmine. apply (status_other _ (worker x)); [done|done|done|]. by apply Hss.
  - intros key d e Hs Hm%Hmine. exact (Hk key d e Hs Hm).
Qed.

Definition in_flight (o : option TransactionStatus) : Prop :=
  match o with Some Running | Some (Retrying _) => True | _ => False end.

(** A transaction starts for a destination with none in flight. *)
Lemma start_inv x s' st d evs :
  sender_inv x → finishing x = false → ¬ d ∈ (futures (worker x)).*1 → dest_ok d → mine (store x) d →
  rows_inv (submitted x) s' → channels s' = channels (store x) →
  (∀ key d' e, (key, (d', e)) ∈ submitted x → d' ≠ d → in_current s' key → in_current (store x) key) →
  (∀ key e, (key, (d, e)) ∈ submitted x → in_current s' key → e ∈ evs) →
  (∀ key, in_queue (store x) key ∨ in_current (store x) key → in_queue s' key ∨ in_current s' key) →
  (∀ d', d' ≠ d → st !! d' = statuses (worker x) !! d') → in_flight (st !! d) →
  sender_inv (mkWorld (mkWorker s' st (futures (worker x) ++ [(d, evs)])) (submitted x) (acknowledged x) (discarded x) false).
Proof.
  intros [Hr Hms Hfl Hnd Hss Hk] Hf Hno Hd Hm Hr' Hch Hoth Hevs Hkeep Hst Hfly.
  assert (∀ d', mine s' d' ↔ mine (store x) d') as Hmine by (intros d'; unfold mine; by rewrite (shard_length (store x)) by by rewrite Hch).
  assert (∀ d', d' ∈ (futures (worker x) ++ [(d, evs)]).*1 ↔ d' ∈ (futures (worker x)).*1 ∨ d' = d) as Hel.
  { intros d'. rewrite fmap_app, elem_of_app. cbn. by rewrite list_elem_of_singleton. }
  split; cbn [worker submitted store sending futures finishing].
  - done.
  - intros closed l m Hc Hm'. rewrite Hmine. apply (Hms closed l); [by rewrite <-Hch|done].
  - apply Forall_app. split.
    + apply Forall_forall. intros txn Ht. apply (flight_weaken _ (store x)); [by rewrite Hch| |exact (proj1 (Forall_forall _ _) Hfl _ Ht)].
      intros key e Hs. apply (Hoth key txn.1 e Hs). intros E. apply Hno. rewrite <-E. by apply list_elem_of_fmap_2.
    + apply Forall_singleton. split_and!; [done|by apply Hmine|exact Hevs].
  - intros _. rewrite fmap_app. cbn. apply NoDup_app. split_and!; [by apply Hnd| |apply NoDup_singleton].
    by intros d' Hd' ->%list_elem_of_singleton.
  - intros d' _ Hd' Hm'%Hmine. destruct (decide (d' = d)) as [->|Hne].
    + unfold status_ok. cbn [statuses futures]. destruct (st !! d) as [[]|]; try done; apply Hel; by right.
    + apply (status_other _ (worker x)); cbn [statuses futures sending]; [by apply Hst|rewrite Hel; naive_solver| |by apply Hss].
      intros key e Hs. by apply (Hoth key d' e Hs).
  - intros key d' e Hs Hm'%Hmine. destruct (Hk key d' e Hs Hm') as [Hq|[Hc|Hrest]]; [| |by right; right].
    + destruct (Hkeep key) as [?|?]; [by left|by left|by right; left].
    + destruct (Hkeep key) as [?|?]; [by right|by left|by right; left].
Qed.

(** Whether the event of a message is to be sent or the message only wakes. *)
Lemma mark_message sub s m :
  rows_inv sub s → msg_ok sub m →
  let s' := mark_as_active s [(queue_id m, msg_event m)] in
  rows_inv sub s' ∧ channels s' = channels s
  ∧ (∀ key d e, (key, (d, e)) ∈ sub → in_current s' key → in_current s key ∨ (d = msg_dest m ∧ e = msg_event m))
  ∧ (∀ key, in_queue s key ∨ in_current s key → in_queue s' key ∨ in_current s' key).
Proof.
  intros Hr Hm s'. destruct (mark_as_active_rows s [(queue_id m, msg_event m)]) as ([_ Hch] & _).
  destruct (mark_as_active_inv sub s [(queue_id m, msg_event m)] Hr) as (Hr' & Hc & Hq).
  { intros key e [= -> ->]%list_elem_of_singleton Hk. destruct Hm as [(_ & Hq & _)|Hs]; [done|]. by eexists. }
  fold s' in Hr', Hc, Hq, Hch. cbn [fmap list_fmap fst] in Hc, Hq. split_and!; [done|done|..].
  - intros key d e Hs [Hcur|[Hk ->%list_elem_of_singleton]]%Hc; [by left|right]. destruct Hm as [(_ & Hq' & _)|Hs']; [done|].
    exact (ri_unique _ _ Hr _ _ _ _ _ Hs Hs').
  - intros key Hor. rewrite Hc, Hq. destruct (decide (key ≠ "" ∧ key ∈ [queue_id m])); tauto.
Qed.

Lemma request_inv x now m edus :
  sender_inv x → finishing x = false → msg_ok (submitted x) m → mine (store x) (msg_dest m) →
  ∃ w, handle_request cfg (worker x) now m edus = Ok w
    ∧ sender_inv (mkWorld w (submitted x) (acknowledged x) (discarded x) false).
Proof.
  intros Hinv Hf Hm Hmine. set (d := msg_dest m).
  assert (dest_ok d) as Hd.
  { destruct Hm as [(_ & _ & ?)|Hs]; [done|]. by destruct (ri_sub _ _ (si_rows _ Hinv) _ _ _ Hs). }
  pose proof (si_status _ Hinv d Hf Hd Hmine) as Hst. unfold status_ok in Hst.
  assert (mkWorld (mkWorker (store x) (statuses (worker x)) (futures (worker x))) (submitted x) (acknowledged x) (discarded x) false = x) as Hx
    by (unfold store; destruct x as [[] ? ? ? ?]; cbn in *; by subst).
  unfold handle_request, select_events. fold d. fold (store x). unfold select_events_current.
  destruct (statuses (worker x) !! d) as [[|tries at_|tries]|] eqn:Est; cbn [negb].
  - eexists. split; [done|]. by rewrite Hx.
  - destruct (_ && _); cbn [negb]; [eexists; split; [done|]; by rewrite Hx|].
    destruct (active_requests_for_spec _ _ d (si_rows _ Hinv) Hd) as (l & -> & Hl). cbn [fst snd].
    destruct l as [|p l].
    + eexists. split; [done|]. rewrite delete_insert_eq.
      destruct Hinv as [Hr Hms Hfl Hnd Hss Hk]. split; cbn [worker submitted store sending futures finishing]; [done|done|done|intros _; by apply Hnd| |done].
      intros d' _ Hd' Hm'. destruct (decide (d' = d)) as [->|Hne].
      * unfold status_ok. cbn [statuses futures sending]. rewrite lookup_delete_eq. split; [done|]. intros key e Hs Hc.
        by eapply not_elem_of_nil, Hl.
      * apply (status_other _ (worker x)); cbn [statuses futures sending]; [by rewrite lookup_delete_ne|done|done|by apply Hss].
    + eexists. split; [done|]. apply start_inv; try done.
      * by apply (si_rows _ Hinv).
      * intros key e Hs Hc. apply (list_elem_of_fmap_2 snd ((p :: l)) (key, e)), Hl. done.
      * intros d' Hne. by rewrite lookup_insert_ne.
      * by rewrite lookup_insert_eq.
  - eexists. split; [done|]. by rewrite Hx.
  - destruct Hst as [Hno Hnone]. destruct (mark_message _ _ m (si_rows _ Hinv) Hm) as (Hr' & Hch & Hcur & Hkeep).
    set (s' := mark_as_active (store x) [(queue_id m, msg_event m)]) in *.
    assert (∀ s2 evs, rows_inv (submitted x) s2 → channels s2 = channels s' → (∀ key, in_current s2 key ↔ in_current s' key) →
      (∀ key, in_queue s2 key ↔ in_queue s' key) → msg_event m ∈ evs →
      sender_inv (mkWorld (mkWorker s2 (<[d := Running]> (statuses (worker x))) (futures (worker x) ++ [(d, evs)]))
        (submitted x) (acknowledged x) (discarded x) false)) as Hgo.
    { intros s2 evs Hr2 Hch2 Hc2 Hq2 Hev. apply start_inv; try done.
      - by rewrite Hch2.
      - intros key d' e Hs Hne Hc%Hc2. destruct (Hcur key d' e Hs Hc) as [?|[-> _]]; done.
      - intros key e Hs Hc%Hc2. destruct (Hcur key d e Hs Hc) as [Hc'|[_ ->]]; [|done]. by destruct (Hnone key e Hs).
      - intros key Hor. rewrite Hc2, Hq2. by apply Hkeep.
      - intros d' Hne. by rewrite lookup_insert_ne.
      - by rewrite lookup_insert_eq. }
    destruct d as [?|? ?|server] eqn:Ed; cbn [fmap list_fmap snd app].
    + eexists. split; [done|]. apply Hgo; try done. by left.
    + eexists. split; [done|]. apply Hgo; try done. by left.
    + unfold set_latest_educount. rewrite raw_put_u64. eexists. split; [done|]. apply Hgo; try done; [|by left].
      destruct Hr' as [? ? ? ? ?]. by split.
Qed.

(** *** The other steps *)

Lemma dispatch_all_spec (msgs : list Msg) s res s' :
  dispatch_all s msgs = (res, s') →
  ∃ ch, s' = with_channels ch s ∧ length ch = length (channels s)
    ∧ ∀ i c l m, ch !! i = Some (c, l) → m ∈ l →
        (∃ c' l', channels s !! i = Some (c', l') ∧ m ∈ l') ∨ (m ∈ msgs ∧ shard_id s (msg_dest m) = i).
Proof.
  revert s. induction msgs as [|m0 msgs IH]; intros s; cbn [dispatch_all].
  { intros [= _ <-]. exists (channels s). split_and!; [by destruct s|done|]. intros i c l m Hi Hm. left. by exists c, l. }
  unfold dispatch. set (sh := shard_id s (msg_dest m0)). destruct (channels s !! sh) as [[[] l0]|] eqn:Hsh.
  - intros [= _ <-]. exists (channels s). split_and!; [by destruct s|done|]. intros i c l m Hi Hm. left. by exists c, l.
  - intros (ch & -> & Hlen & Hch)%IH. cbn [with_channels channels] in Hlen. rewrite length_insert in Hlen.
    exists ch. split_and!; [done|done|]. intros i c l m Hi Hm. destruct (Hch i c l m Hi Hm) as [(c' & l' & Hi' & Hm')|[Hm' Hs]].
    + cbn [with_channels channels] in Hi'. destruct (decide (i = sh)) as [->|Hne].
      * rewrite list_lookup_insert_eq in Hi' by by eapply lookup_lt_Some. injection Hi' as <- <-.
        apply elem_of_app in Hm' as [Hm'| ->%list_elem_of_singleton]; [left; by exists false, l0|right; split; [by left|done]].
      * rewrite list_lookup_insert_ne in Hi' by done. left. by exists c', l'.
    + right. split; [by right|]. rewrite <-Hs. symmetry. apply shard_length. cbn. by rewrite length_insert.
  - intros [= _ <-]. exists (channels s). split_and!; [by destruct s|done|]. intros i c l m Hi Hm. left. by exists c, l.
Qed.

(** The channels change, and nothing else. *)
Lemma channels_inv x sub (ch : list (bool * list Msg)) :
  sender_inv x → length ch = length (channels (store x)) → sub = submitted x →
  (∀ c l m, ch !! id = Some (c, l) → m ∈ l → msg_ok sub m ∧ mine (store x) (msg_dest m)) →
  sender_inv (mkWorld (put_sending (with_channels ch (store x)) (worker x)) sub (acknowledged x) (discarded x) (finishing x)).
Proof.
  intros [Hr Hms Hfl Hnd Hss Hk] Hlen -> Hch.
  assert (∀ d, mine (with_channels ch (store x)) d ↔ mine (store x) d) as Hmine by (intros d; unfold mine; by rewrite (shard_length (store x))).
  split; cbn [worker put_sending submitted store sending futures finishing statuses].
  - destruct Hr as [Hd Hs Hu Hq Hc]. split; [exact Hd|exact Hs|exact Hu|exact Hq|exact Hc].
  - intros c l m Hc Hm. rewrite Hmine. by apply (Hch c l m).
  - eapply Forall_impl; [exact Hfl|]. intros txn. by apply flight_weaken.
  - done.
  - intros d Hf Hd Hm%Hmine. apply (status_other _ (worker x)); [done|done|done|]. by apply Hss.
  - intros key d e Hs Hm%Hmine. exact (Hk key d e Hs Hm).
Qed.

Lemma flush_inv x servers res s' :
  sender_inv x → Forall (λ server, dest_ok (Federation server)) servers → flush_servers (store x) servers = (res, s') →
  sender_inv (mkWorld (put_sending s' (worker x)) (submitted x) (acknowledged x) (discarded x) (finishing x)).
Proof.
  intros Hinv Hall (ch & -> & Hlen & Hch)%dispatch_all_spec. apply channels_inv; [done..|].
  intros c l m Hc Hm. destruct (Hch _ _ _ _ Hc Hm) as [(c' & l' & Hc' & Hm')|[Hm' Hs]]; [by eapply (si_msgs _ Hinv)|].
  split; [|done]. apply list_elem_of_fmap in Hm' as (server & -> & Hin). left. do 2 (split; [done|]).
  exact (proj1 (Forall_forall _ _) Hall server Hin).
Qed.

Lemma finish_inv x (i : nat) txn (delivered : bool) :
  sender_inv x → futures (worker x) !! i = Some txn →
  sender_inv (mkWorld (finish_response (worker x) i delivered) (submitted x)
    (if delivered then acknowledged x ++ [txn] else acknowledged x) (discarded x) true).
Proof.
  intros Hinv Hi. destruct txn as [d evs]. unfold finish_response. rewrite Hi.
  pose proof (proj1 (Forall_forall _ _) (si_flight _ Hinv) _ (list_elem_of_lookup_2 _ _ _ Hi)) as (Hd & Hm & _). cbn [fst] in Hd, Hm.
  destruct (delete_active_spec _ _ d (si_rows _ Hinv) Hd) as (Hr1 & Hq1 & Hch1 & Hg1 & Hc1).
  destruct delivered; split; cbn [worker submitted store sending futures finishing]; try done.
  - intros closed l m Hc Hm'. by apply (si_msgs _ Hinv closed l).
  - apply Forall_forall. intros txn Ht%delete_subset. apply (flight_weaken _ (store x)); [done|intros key e Hs [Hc _]%(Hc1 key _ _ Hs); done|].
    exact (proj1 (Forall_forall _ _) (si_flight _ Hinv) _ Ht).
  - intros key d' e Hs Hm'. destruct (delivered_kept x i d evs key d' e Hinv Hi Hs Hm') as [Hq|[Hc|[Ha|Hdis]]].
    + left. exact Hq.
    + right; left. by apply (Hc1 key d' e).
    + right; right; left. exact Ha.
    + by right; right; right.
  - apply (si_rows _ Hinv).
  - intros closed l m Hc Hm'. by apply (si_msgs _ Hinv closed l).
  - apply Forall_forall. intros txn Ht%delete_subset. exact (proj1 (Forall_forall _ _) (si_flight _ Hinv) _ Ht).
  - intros key d' e Hs Hm'. exact (si_kept _ Hinv key d' e Hs Hm').
Qed.

Lemma elem_of_keys_of s d key : key ∈ keys_of s d ↔ String.prefix (get_prefix d) key = true ∧ (in_current s key ∨ in_queue s key).
Proof.
  assert (∀ rows : gmap string string, key ∈ (map_to_list rows).*1 ↔ is_Some (rows !! key)) as Hk.
  { intros rows. rewrite list_elem_of_fmap. split.
    - intros ([k v] & -> & Hkv%elem_of_map_to_list). by exists v.
    - intros [v Hv]. exists (key, v). split; [done|]. by apply elem_of_map_to_list. }
  unfold keys_of, in_current, in_queue. by rewrite list_elem_of_filter, elem_of_app, !Hk.
Qed.

Lemma cleanup_inv x appservice user push_key d :
  sender_inv x → cleaned appservice user push_key = Some d → dest_ok d →
  sender_inv (mkWorld (put_sending (cleanup_events (store x) appservice user push_key) (worker x)) (submitted x) (acknowledged x)
    (discarded x ++ keys_of (store x) d) (finishing x)).
Proof.
  intros Hinv Hc Hd.
  assert (cleanup_events (store x) appservice user push_key = delete_all_requests_for (store x) d) as ->
    by (destruct appservice, user, push_key; cbn in *; by simplify_eq).
  set (s' := delete_all_requests_for (store x) d).
  assert (∀ key, current_rows s' !! key = if String.prefix (get_prefix d) key then None else current_rows (store x) !! key) as Hcur
    by (intros key; apply remove_prefix_rows).
  assert (∀ key, queue_rows s' !! key = if String.prefix (get_prefix d) key then None else queue_rows (store x) !! key) as Hque
    by (intros key; apply remove_prefix_rows).
  assert (∀ key, in_current s' key → in_current (store x) key) as Hcs.
  { intros key. unfold in_current. rewrite Hcur. destruct (String.prefix _ _); [by intros [? ?]|done]. }
  destruct Hinv as [Hr Hms Hfl Hnd Hss Hk]. split; cbn [worker put_sending submitted store sending futures finishing statuses].
  - destruct Hr as [Hd' Hs Hu Hq Hc']. split; [exact Hd'|exact Hs|exact Hu|..].
    + intros key val. rewrite Hque. destruct (String.prefix _ _); [done|apply Hq].
    + intros key val. rewrite Hcur. destruct (String.prefix _ _); [done|apply Hc'].
  - exact Hms.
  - eapply Forall_impl; [exact Hfl|]. intros txn. apply flight_weaken; [done|]. intros key e _. apply Hcs.
  - exact Hnd.
  - intros d' Hf Hd' Hm'. apply (status_other _ (worker x)); [done|done|intros key e _; apply Hcs|by apply Hss].
  - intros key d' e Hs Hm'. unfold accounted, store. cbn [worker put_sending sending acknowledged discarded]. unfold in_queue, in_current.
    rewrite Hque, Hcur, elem_of_app, elem_of_keys_of. destruct (Hk key d' e Hs Hm') as [Hq|[Hc'|[Ha|Hdis]]]; [| |by right; right; left|naive_solver];
      unfold in_queue, in_current in *; destruct (String.prefix (get_prefix d) key); naive_solver.
Qed.

Lemma rows_sub_ok sub s : rows_inv sub s → sub_ok sub (last_count s).
Proof. intros [_ Hs Hu _ _]. by split. Qed.

(** A request that shares its key with an active row was submitted before. *)
Lemma active_submitted sub sub' n s key d e :
  rows_inv sub s → sub_ok sub' n → sub ⊆ sub' → (key, (d, e)) ∈ sub' → in_current s key → (key, (d, e)) ∈ sub.
Proof.
  intros Hr [_ Hu] Hss Hs [val Hv]. destruct (ri_current _ _ Hr key val Hv) as (d' & e' & Hs' & _).
  by destruct (Hu _ _ _ _ _ Hs (Hss _ Hs')) as [-> ->].
Qed.

Lemma elem_of_zip_index {A B} (l : list A) (k : list B) (a : A) : length l = length k → a ∈ l → ∃ b, (a, b) ∈ zip l k.
Proof.
  revert k. induction l as [|x' l IH]; intros [|y' k] Hlen Ha; try done; [by apply elem_of_nil in Ha|].
  apply elem_of_cons in Ha as [->|Ha]; [exists y'; by left|]. destruct (IH k ltac:(by injection Hlen) Ha) as [b Hb]. exists b. by right.
Qed.

Lemma zip_values (keys : list string) (reqs : list (SendingEvent * Destination)) key val :
  (key, val) ∈ zip keys (event_value <$> reqs.*1) → ∃ d e, (key, (d, e)) ∈ zip keys (prod_swap <$> reqs) ∧ val = event_value e.
Proof.
  revert reqs. induction keys as [|k keys IH]; intros [|[e d] reqs]; csimpl; try by intros ?%elem_of_nil.
  intros [[= -> ->]|Hin]%elem_of_cons; [exists d, e; split; [by left|done]|].
  destruct (IH _ Hin) as (d' & e' & Hs & ->). exists d', e'. split; [by right|done].
Qed.

Lemma zip_messages (keys : list string) (reqs : list (SendingEvent * Destination)) m :
  m ∈ zip_with (λ r k, mkMsg r.2 r.1 k) reqs keys → (queue_id m, (msg_dest m, msg_event m)) ∈ zip keys (prod_swap <$> reqs).
Proof.
  revert keys. induction reqs as [|[e d] reqs IH]; intros [|k keys]; csimpl; try by intros ?%elem_of_nil.
  intros [->|Hin]%elem_of_cons; [by left|right; by apply IH].
Qed.

Lemma queue_requests_spec x (reqs : list (SendingEvent * Destination)) keys s1 :
  sender_inv x → Forall (λ r, event_ok r.1 ∧ dest_ok r.2) reqs → (last_count (store x) + N.of_nat (length reqs) <= U64_MAX)%N →
  queue_requests (store x) reqs = Ok (keys, s1) →
  let sub' := submitted x ++ zip keys (prod_swap <$> reqs) in
  rows_inv sub' s1 ∧ channels s1 = channels (store x) ∧ (∀ key, in_current s1 key ↔ in_current (store x) key)
  ∧ (∀ key, in_queue (store x) key → in_queue s1 key) ∧ (∀ key d e, (key, (d, e)) ∈ zip keys (prod_swap <$> reqs) → in_queue s1 key).
Proof.
  intros Hinv Hok Hfit Hq. pose proof (si_rows _ Hinv) as Hr. destruct (ri_data _ _ Hr) as [ids Hd].
  destruct (request_keys_spec reqs (store x) ids (submitted x) Hd Hfit Hok (rows_sub_ok _ _ Hr))
    as (keys' & s0 & He & Hd0 & Hc0 & Hq0 & Hch0 & Hlen & Hsub).
  unfold queue_requests in Hq. rewrite He in Hq. cbn [fst snd] in Hq. rewrite Hq0 in Hq. injection Hq as <- <-.
  destruct (insert_batch_rows (servernameevent_data (store x)) (zip keys' (event_value <$> reqs.*1))) as [Hout Hin].
  set (s1 := with_queue _ s0). set (sub' := submitted x ++ zip keys' (prod_swap <$> reqs)) in *.
  assert ((zip keys' (event_value <$> reqs.*1)).*1 = keys') as Hkeys by (apply fst_zip; rewrite !length_fmap; lia).
  rewrite Hkeys in Hout, Hin.
  assert (∀ key val, queue_rows s1 !! key = Some val →
    (¬ key ∈ keys' ∧ queue_rows (store x) !! key = Some val) ∨ (key, val) ∈ zip keys' (event_value <$> reqs.*1)) as Hrow.
  { intros key val Hv. change (table_rows (insert_batch (servernameevent_data (store x)) (zip keys' (event_value <$> reqs.*1))) !! key = Some val) in Hv.
    destruct (decide (key ∈ keys')) as [Hk|Hk]; [|left; split; [done|]; by rewrite <-Hout].
    destruct (Hin key Hk) as (v & Hkv & Hrow). rewrite Hrow in Hv. injection Hv as <-. by right. }
  cbn zeta. split_and!; [|done|intros key; unfold in_current, current_rows; cbn; by rewrite Hc0|..].
  - destruct Hsub as [Hso Hun]. split; [by exists ids|exact Hso|exact Hun|..].
    + intros key val [[_ Hv]|Hz]%Hrow.
      * destruct (ri_queue _ _ Hr key val Hv) as (d & e & Hs & ->). exists d, e. split; [apply elem_of_app; by left|done].
      * destruct (zip_values _ _ _ _ Hz) as (d & e & Hs & ->). exists d, e. split; [apply elem_of_app; by right|done].
    + intros key val Hv. unfold current_rows, s1 in Hv. cbn in Hv. rewrite Hc0 in Hv.
      destruct (ri_current _ _ Hr key val Hv) as (d & e & Hs & ->). exists d, e. split; [apply elem_of_app; by left|done].
  - intros key Hk. destruct (decide (key ∈ keys')) as [Hk'|Hk'].
    + destruct (Hin key Hk') as (v & _ & Hv). by exists v.
    + unfold in_queue, queue_rows. cbn. by rewrite Hout.
  - intros key d e Hz. destruct (Hin key) as (v & _ & Hv); [by apply elem_of_zip_l in Hz|by exists v].
Qed.

Lemma submit_inv x (reqs : list (SendingEvent * Destination)) keys s1 res s2 :
  sender_inv x → Forall (λ r, event_ok r.1 ∧ dest_ok r.2) reqs → (last_count (store x) + N.of_nat (length reqs) <= U64_MAX)%N →
  queue_requests (store x) reqs = Ok (keys, s1) → dispatch_all s1 (zip_with (λ r k, mkMsg r.2 r.1 k) reqs keys) = (res, s2) →
  sender_inv (mkWorld (put_sending s2 (worker x)) (submitted x ++ zip keys (prod_swap <$> reqs)) (acknowledged x) (discarded x) (finishing x)).
Proof.
  intros Hinv Hok Hfit Hq (ch & -> & Hlen & Hch)%dispatch_all_spec.
  destruct (queue_requests_spec x reqs keys s1 Hinv Hok Hfit Hq) as (Hr1 & Hch1 & Hc1 & Hq1 & Hnew).
  set (sub' := submitted x ++ zip keys (prod_swap <$> reqs)) in *.
  assert (submitted x ⊆ sub') as Hss by (intros p Hp; apply elem_of_app; by left).
  assert (∀ key d e, (key, (d, e)) ∈ sub' → in_current s1 key → (key, (d, e)) ∈ submitted x ∧ in_current (store x) key) as Hold.
  { intros key d e Hs Hc%Hc1. split; [|done]. eapply active_submitted; [apply (si_rows _ Hinv)|exact (rows_sub_ok _ _ Hr1)|done..]. }
  assert (∀ d, shard_id s1 d = shard_id (store x) d) as Hsh by (intros d; apply shard_length; by rewrite Hch1).
  apply (channels_inv (mkWorld (put_sending s1 (worker x)) sub' (acknowledged x) (discarded x) (finishing x))); [|done|done|].
  - destruct Hinv as [Hr Hms Hfl Hnd Hss' Hk]. split; cbn [worker put_sending submitted store sending futures finishing statuses].
    + done.
    + intros c l m Hc Hm. rewrite Hch1 in Hc. destruct (Hms c l m Hc Hm) as [Hmok Hmine]. split; [|unfold mine; by rewrite Hsh].
      destruct Hmok as [?|Hs]; [by left|right; by apply Hss].
    + eapply Forall_impl; [exact Hfl|]. intros txn (Hd & Hm & Hf). split_and!; [done|unfold mine; by rewrite Hsh|].
      intros key e Hs Hc. destruct (Hold _ _ _ Hs Hc) as [Hs' Hc']. by apply (Hf key e).
    + exact Hnd.
    + intros d Hf Hd Hm. unfold mine in Hm. rewrite Hsh in Hm. specialize (Hss' d Hf Hd Hm). unfold status_ok in *. cbn [put_sending statuses futures sending].
      destruct (statuses (worker x) !! d) as [[]|]; [done..|]. destruct Hss' as [Hno Hnone]. split; [done|].
      intros key e Hs Hc. destruct (Hold _ _ _ Hs Hc) as [Hs' Hc']. by apply (Hnone key e).
    + intros key d e [Hs|Hs]%elem_of_app Hm; [|left; by eapply Hnew]. unfold mine in Hm. rewrite Hsh in Hm.
      destruct (Hk key d e Hs Hm) as [Hin|[Hc|Hrest]]; [left; by apply Hq1|right; left; by apply Hc1|by right; right].
  - intros c l m Hc Hm. destruct (Hch _ _ _ _ Hc Hm) as [(c' & l' & Hc' & Hm')|[Hm' Hs]].
    + rewrite Hch1 in Hc'. destruct (si_msgs _ Hinv c' l' m Hc' Hm') as [Hmok Hmine]. split; [|unfold mine, store; cbn; by rewrite Hsh].
      destruct Hmok as [?|Hs]; [by left|right; by apply Hss].
    + split; [|exact Hs]. right. apply elem_of_app. right. by apply zip_messages.
Qed.

Lemma elsewhere_inv x s' :
  sender_inv x → elsewhere (submitted x) (store x) s' →
  sender_inv (mkWorld (put_sending s' (worker x)) (submitted x) (acknowledged x) (discarded x) (finishing x)).
Proof.
  intros [Hr Hms Hfl Hnd Hss Hk] [Ed Ec El Ech Eq Ecu]. pose proof Hr as [Rd Rs Ru Rq Rc].
  assert (∀ d, shard_id s' d = shard_id (store x) d) as Hsh by (intros d; by apply shard_length).
  assert (∀ key d e, (key, (d, e)) ∈ submitted x → mine (store x) d →
    queue_rows s' !! key = queue_rows (store x) !! key ∧ current_rows s' !! key = current_rows (store x) !! key) as Hsame.
  { intros key d e Hs Hm. split.
    - destruct (Eq key) as [?|(d' & e' & Hs' & Hm' & _)]; [done|]. destruct (Ru _ _ _ _ _ Hs Hs') as [-> _]. done.
    - destruct (Ecu key) as [?|(d' & e' & Hs' & Hm' & _)]; [done|]. destruct (Ru _ _ _ _ _ Hs Hs') as [-> _]. done. }
  split; cbn [worker put_sending submitted store sending futures finishing statuses].
  - split; [done| |done|..].
    + intros key d e Hs. destruct (Rs _ _ _ Hs) as (Hd & Hrow & Hdr). split_and!; [done..|]. destruct e; [done| |done].
      destruct Hdr as (c & -> & Hc). exists c. split; [done|lia].
    + intros key val Hv. destruct (Eq key) as [E|(d & e & Hs & _ & [E|E])]; rewrite E in Hv; [by apply Rq|done|].
      injection Hv as <-. by exists d, e.
    + intros key val Hv. destruct (Ecu key) as [E|(d & e & Hs & _ & [E|E])]; rewrite E in Hv; [by apply Rc|done|].
      injection Hv as <-. by exists d, e.
  - intros c l m Hc Hm. rewrite Ech in Hc. destruct (Hms c l m Hc Hm). split; [done|]. unfold mine. by rewrite Hsh.
  - apply Forall_forall. intros txn Ht. pose proof (proj1 (Forall_forall _ _) Hfl _ Ht) as Hok. revert Hok.
    intros (Hd & Hm & Hf). split_and!; [done|unfold mine; by rewrite Hsh|]. intros key e Hs Hc. apply (Hf key e Hs).
    unfold in_current in *. by rewrite <-(proj2 (Hsame _ _ _ Hs Hm)).
  - done.
  - intros d Hf Hd Hm. unfold mine in Hm. rewrite Hsh in Hm. apply (status_other _ (worker x)); [done|done| |by apply Hss].
    intros key e Hs. unfold in_current. cbn [sending put_sending]. by rewrite (proj2 (Hsame _ _ _ Hs Hm)).
  - intros key d e Hs Hm. unfold mine in Hm. rewrite Hsh in Hm. destruct (Hsame _ _ _ Hs Hm) as [Eq1 Ec1].
    unfold accounted, in_queue, in_current, store. cbn [worker put_sending sending acknowledged discarded]. rewrite Eq1, Ec1.
    exact (Hk key d e Hs Hm).
Qed.

(** *** Restarting *)

Lemma netburst_collect_spec s (l : list (string * SendingEvent * Destination)) txns s' txns' :
  netburst_collect cfg id s l txns = (s', txns') →
  (servernameevent_data s' = servernameevent_data s ∧ channels s' = channels s ∧ send_globals s' = send_globals s)
  ∧ (∀ key val, current_rows s' !! key = Some val → current_rows s !! key = Some val)
  ∧ (∀ key e d, (key, e, d) ∈ l → mine s d → in_current s' key → ∃ evs, txns' !! d = Some evs ∧ e ∈ evs)
  ∧ (∀ d evs, txns !! d = Some evs → ∃ evs', txns' !! d = Some evs' ∧ evs ⊆ evs')
  ∧ (∀ d, is_Some (txns' !! d) → is_Some (txns !! d) ∨ (mine s d ∧ ∃ key e, (key, e, d) ∈ l)).
Proof.
  revert s txns. induction l as [|[[k e0] d0] l IH]; intros s txns; cbn [netburst_collect].
  { intros [= <- <-]. split_and!; [done|done|done|done|by intros * ?%elem_of_nil|intros d evs Hd; by exists evs|by left]. }
  destruct (shard_id s d0 =? id)%nat eqn:Hsh; [apply Nat.eqb_eq in Hsh|apply Nat.eqb_neq in Hsh].
  2:{ intros ((Hq & Hch & Hg) & Hc & Hin & Hm & Hd)%IH. split_and!; try done.
      - intros key e d [[= -> -> ->]|Hel]%elem_of_cons Hmine; [done|]. by apply (Hin key e d).
      - intros d Hs'. destruct (Hd d Hs') as [?|(? & key & e & ?)]; [by left|right; split; [done|exists key, e; by right]]. }
  set (entry := default [] (txns !! d0)).
  assert (∀ d evs extra, txns !! d = Some evs → ∃ evs', <[d0 := entry ++ extra]> txns !! d = Some evs' ∧ evs ⊆ evs') as Hgrow.
  { intros d evs extra Hd. destruct (decide (d = d0)) as [->|Hne].
    - exists (entry ++ extra). rewrite lookup_insert_eq. split; [done|]. unfold entry. rewrite Hd. cbn. set_solver.
    - rewrite lookup_insert_ne by done. by exists evs. }
  destruct (_ && _).
  - intros ((Hq & Hch & Hg) & Hc & Hin & Hm & Hd)%IH. cbn [delete_active_request with_current servernameevent_data channels send_globals] in Hq, Hch, Hg.
    assert (∀ key val, current_rows s' !! key = Some val → key ≠ k ∧ current_rows s !! key = Some val) as Hrow.
    { intros key val Hv%Hc. unfold current_rows in Hv. cbn in Hv. unfold Map_remove in Hv. rewrite table_del_rows, lookup_delete_Some in Hv.
      by destruct Hv. }
    split_and!; try done.
    + intros key val Hv. by apply (Hrow key val).
    + intros key e d [[= -> -> ->]|Hel]%elem_of_cons Hmine Hcur; [|by apply (Hin key e d)].
      destruct Hcur as [val Hv]. by destruct (Hrow k val Hv).
    + intros d evs Hd'. destruct (Hgrow d evs [] Hd') as (e1 & He1 & Hsub1). rewrite app_nil_r in He1.
      destruct (Hm d e1 He1) as (e2 & He2 & Hsub2). exists e2. split; [done|set_solver].
    + intros d Hs'. destruct (Hd d Hs') as [Hs1|(? & key & e & ?)]; [|right; split; [done|exists key, e; by right]].
      destruct (decide (d = d0)) as [->|Hne]; [right; split; [done|exists k, e0; by left]|left; by rewrite lookup_insert_ne in Hs1].
  - intros ((Hq & Hch & Hg) & Hc & Hin & Hm & Hd)%IH. split_and!; try done.
    + intros key e d [[= -> -> ->]|Hel]%elem_of_cons Hmine Hcur; [|by apply (Hin key e d)].
      destruct (Hm d0 (entry ++ [e0])) as (e2 & He2 & Hsub2); [by rewrite lookup_insert_eq|]. exists e2. split; [done|].
      apply Hsub2, elem_of_app. right. by left.
    + intros d evs Hd'. destruct (Hgrow d evs [e0] Hd') as (e1 & He1 & Hsub1).
      destruct (Hm d e1 He1) as (e2 & He2 & Hsub2). exists e2. split; [done|set_solver].
    + intros d Hs'. destruct (Hd d Hs') as [Hs1|(? & key & e & ?)]; [|right; split; [done|exists key, e; by right]].
      destruct (decide (d = d0)) as [->|Hne]; [right; split; [done|exists k, e0; by left]|left; by rewrite lookup_insert_ne in Hs1].
Qed.

Lemma netburst_started w (l : list (Destination * list SendingEvent)) :
  startup_netburst cfg = true →
  let started := filter (λ t : Destination * list SendingEvent, t.2 ≠ []) l in
  foldl (netburst_start cfg) w l = mkWorker (sending w) (foldl (λ st t, <[t.1 := Running]> st) (statuses w) started) (futures w ++ started).
Proof.
  intros Hnb. revert w. induction l as [|[d evs] l IH]; intros w; cbn zeta; cbn [foldl].
  { cbn. rewrite app_nil_r. by destruct w. }
  rewrite IH. unfold netburst_start. cbn [fst snd]. rewrite filter_cons. cbn [snd]. rewrite Hnb. destruct evs as [|e evs].
  - by rewrite decide_False by naive_solver.
  - rewrite decide_True by done. cbn [sending statuses futures foldl fst]. by rewrite <-app_assoc.
Qed.

Lemma running_all (l : list (Destination * list SendingEvent)) (st : gmap Destination TransactionStatus) d :
  foldl (λ st t, <[t.1 := Running]> st) st l !! d = if decide (d ∈ l.*1) then Some Running else st !! d.
Proof.
  revert st. induction l as [|[d0 evs] l IH]; intros st; cbn [foldl fst]; [by rewrite decide_False by (apply not_elem_of_nil)|].
  rewrite IH. csimpl. destruct (decide (d = d0)) as [->|Hne].
  - rewrite lookup_insert_eq, (decide_True (P := d0 ∈ d0 :: l.*1)) by by left. by case_decide.
  - rewrite lookup_insert_ne by done. apply decide_ext. rewrite elem_of_cons. naive_solver.
Qed.

Lemma rebooted_rows sub s : rows_inv sub s → rows_inv sub (sending (rebooted s)).
Proof. intros [Hd Hs Hu Hq Hc]. split; [exact Hd|exact Hs|exact Hu|exact Hq|exact Hc]. Qed.

Lemma active_requests_spec sub s :
  rows_inv sub s → ∃ l, active_requests s = Ok l ∧ ∀ key e d, (key, e, d) ∈ l ↔ (key, (d, e)) ∈ sub ∧ in_current s key.
Proof.
  intros Hr. unfold active_requests. replace (raw_stream_from (servercurrentevent_data s) "") with (raw_stream_prefix (servercurrentevent_data s) "").
  2:{ unfold raw_stream_prefix. induction (raw_stream_from _ _) as [|[[] v] rows IH]; [done|cbn; by f_equal..]. }
  destruct (parse_rows_spec sub s (raw_stream_prefix (servercurrentevent_data s) "") Hr) as (l & -> & _ & Hl).
  { intros key val [_ Hv]%elem_of_prefix_rows. by apply (ri_current _ _ Hr). }
  exists l. split; [done|]. intros key e d. rewrite Hl, elem_of_prefix_keys. unfold in_current, current_rows.
  assert (String.prefix "" key = true) by by destruct key. naive_solver.
Qed.

Lemma elem_of_lost_keys s s' key : key ∈ lost_keys s s' ↔ in_current s key ∧ ¬ in_current s' key.
Proof.
  unfold lost_keys, in_current. rewrite list_elem_of_filter, list_elem_of_fmap, <-eq_None_not_Some. split.
  - intros [Hn ([k v] & -> & Hkv%elem_of_map_to_list)]. split; [by exists v|done].
  - intros [[v Hv] Hn]. split; [done|]. exists (key, v). split; [done|]. by apply elem_of_map_to_list.
Qed.

Lemma restart_inv x :
  sender_inv x → startup_netburst cfg = true →
  ∃ w, startup_netburst_ cfg id (rebooted (store x)) = Ok w
    ∧ sender_inv (mkWorld w (submitted x) (acknowledged x) (discarded x ++ lost_keys (store x) (sending w)) false).
Proof.
  intros [Hr Hms Hfl Hnd Hss Hk] Hnb. pose proof (rebooted_rows _ _ Hr) as Hr0. set (s0 := sending (rebooted (store x))) in *.
  unfold startup_netburst_. fold s0. destruct (active_requests_spec _ _ Hr0) as (l & -> & Hl).
  destruct (netburst_collect cfg id s0 l ∅) as [s1 txns] eqn:Hcol.
  destruct (netburst_collect_spec _ _ _ _ _ Hcol) as ((Hq & Hch & Hg) & Hc & Hin & _ & Hdom).
  eexists. split; [done|]. rewrite (netburst_started _ _ Hnb). cbn [sending statuses futures rebooted app].
  set (started := filter _ _).
  assert (∀ d evs, (d, evs) ∈ started ↔ txns !! d = Some evs ∧ evs ≠ []) as Hst.
  { intros d evs. unfold started. rewrite list_elem_of_filter, hash_iter_perm, elem_of_map_to_list. naive_solver. }
  assert (NoDup started.*1) as ND.
  { unfold started. eapply sublist_NoDup; [|apply fmap_sublist, sublist_filter]. rewrite hash_iter_perm. apply NoDup_fst_map_to_list. }
  assert (length (channels s1) = length (channels (store x))) as Hlen by (rewrite Hch; cbn; by rewrite length_fmap).
  assert (∀ d, mine s1 d ↔ mine (store x) d) as Hmine by (intros d; unfold mine; by rewrite (shard_length (store x))).
  assert (∀ d, mine s0 d ↔ mine (store x) d) as Hmine0 by (intros d; unfold mine; rewrite (shard_length (store x)); [done|cbn; by rewrite length_fmap]).
  assert (∀ key, in_current s1 key → in_current s0 key) as Hsub by (intros key [v Hv%Hc]; by exists v).
  assert (∀ key d e, (key, (d, e)) ∈ submitted x → mine (store x) d → in_current s1 key → ∃ evs, (d, evs) ∈ started ∧ e ∈ evs) as Hcarry.
  { intros key d e Hs Hm Hcur. destruct (Hin key e d) as (evs & Hevs & He); [apply Hl; by split; [|apply Hsub]|by apply Hmine0|done|].
    exists evs. split; [|done]. apply Hst. split; [done|]. by destruct evs; [apply elem_of_nil in He|]. }
  assert (∀ d evs evs', (d, evs) ∈ started → (d, evs') ∈ started → evs = evs') as Hone.
  { intros d evs evs' [E1 _]%Hst [E2 _]%Hst. congruence. }
  split; cbn [worker submitted store sending futures finishing].
  - destruct Hr0 as [Rd Rs Ru Rq Rc]. split; [by rewrite Hg|unfold last_count; by rewrite Hg|exact Ru| |].
    + intros key val. unfold queue_rows. rewrite Hq. apply Rq.
    + intros key val Hv%Hc. by apply Rc.
  - intros c ms m Hi Hm. rewrite Hch in Hi. cbn in Hi. rewrite list_lookup_fmap in Hi. destruct (channels (store x) !! id); [|done].
    injection Hi as _ <-. by apply elem_of_nil in Hm.
  - apply Forall_forall. intros [d evs] Ht. pose proof (proj1 (Hst d evs) Ht) as [Hd _].
    destruct (Hdom d) as [[? Hno]|(Hm & key & e & [Hs _]%Hl)]; [by rewrite Hd|by rewrite lookup_empty in Hno|].
    destruct (ri_sub _ _ Hr0 _ _ _ Hs) as (Hdok & _). split_and!; [done|by apply Hmine, Hmine0|]. cbn [fst snd].
    intros key' e' Hs' Hcur. destruct (Hcarry key' d e' Hs') as (evs' & Ht' & He'); [by apply Hmine0|done|]. by rewrite (Hone d evs evs').
  - done.
  - intros d _ Hdok Hm%Hmine. unfold status_ok. cbn [statuses futures sending]. rewrite running_all, lookup_empty.
    destruct (decide (d ∈ started.*1)) as [Hel|Hel]; [done|]. split; [done|]. intros key e Hs Hcur.
    destruct (Hcarry key d e Hs Hm Hcur) as (evs & Ht & _). apply Hel. by apply (list_elem_of_fmap_2 fst) in Ht.
  - intros key d e Hs Hm%Hmine. unfold accounted, store. cbn [worker sending acknowledged discarded]. rewrite elem_of_app, elem_of_lost_keys.
    destruct (Hk key d e Hs Hm) as [Hiq|[Hic|[Ha|Hd]]]; [|..|naive_solver|naive_solver].
    + left. unfold in_queue, queue_rows. by rewrite Hq.
    + destruct (decide (is_Some (current_rows s1 !! key))) as [Hy|Hn]; [by right; left|]. right; right; right; right. by split.
Qed.

(** Every step from a state of the invariant leads to one, with the start-up
    burst on. *)
Lemma sender_step_inv x y : startup_netburst cfg = true → sender_step x y → sender_inv x → sender_inv y.
Proof.
  intros Hnb Hstep Hinv.
  destruct Hstep as [reqs keys s1 res s2 Hok Hfit Hq Hd|servers res s' Hall Hfl|closed m l now edus w Hf Hch Hreq|i now txn delivered w Hf Hi Hres
    |i txn delivered Hi|a u p d Hc Hd|w Hre|s' He].
  - by eapply submit_inv.
  - by eapply flush_inv.
  - destruct (si_msgs _ Hinv _ _ m Hch) as [Hm Hmine]; [by left|].
    destruct (request_inv _ now m edus (pop_inv x closed m l Hinv Hch)) as (w' & Hw & Hinv'); [done|done| |].
    + unfold mine in *. rewrite <-Hmine. apply shard_length. cbn. by rewrite length_insert.
    + cbn [worker] in Hw. rewrite Hreq in Hw. by injection Hw as ->.
  - destruct (response_spec x i now txn delivered Hinv Hf Hi) as (w' & Hw & Hinv'). rewrite Hres in Hw. by injection Hw as ->.
  - by apply finish_inv.
  - by apply cleanup_inv.
  - destruct (restart_inv x Hinv Hnb) as (w' & Hw & Hinv'). rewrite Hre in Hw. by injection Hw as ->.
  - by apply elsewhere_inv.
Qed.

Lemma sender_reachable_inv x y : startup_netburst cfg = true → rtc sender_step x y → sender_inv x → sender_inv y.
Proof. intros Hnb. induction 1 as [|x1 x2 x3 Hs _ IH]; [done|]. intros Hinv. by eapply IH, sender_step_inv. Qed.

(** Nothing has been submitted yet. *)
Record fresh_world x : Prop := {
  fw_data : ∃ ids, data_inv (send_globals (store x)) ids;
  fw_queue : queue_rows (store x) = ∅;
  fw_current : current_rows (store x) = ∅;
  fw_channel c l : channels (store x) !! id = Some (c, l) → l = [];
  fw_statuses : statuses (worker x) = ∅;
  fw_futures : futures (worker x) = [];
  fw_submitted : submitted x = [];
}.

Lemma fresh_world_inv x : fresh_world x → sender_inv x.
Proof.
  intros [Hd Hq Hc Hch Hst Hfu Hsu].
  assert (∀ key p, (key, p) ∉ submitted x) as Hno by (intros key p; rewrite Hsu; apply not_elem_of_nil).
  split.
  - split; [done|by intros key d e ?%Hno|by intros key d e d' e' ?%Hno|..]; intros key val; rewrite ?Hq, ?Hc; by rewrite lookup_empty.
  - intros c l m ->%Hch Hm. by apply elem_of_nil in Hm.
  - by rewrite Hfu.
  - intros _. rewrite Hfu. constructor.
  - intros d _ _ _. unfold status_ok. rewrite Hst, lookup_empty, Hfu. split; [apply not_elem_of_nil|]. by intros key e ?%Hno.
  - by intros key d e ?%Hno.
Qed.

(** *** Draining *)

(** A transaction to the destination is acknowledged. *)
Definition delivery d x y : Prop :=
  ∃ i evs w, finishing x = false ∧ futures (worker x) !! i = Some (d, evs) ∧ handle_response (worker x) 0 i true = Ok w
    ∧ y = mkWorld w (submitted x) (acknowledged x ++ [(d, evs)]) (discarded x) false.

Lemma delivery_step d x y : delivery d x y → sender_step x y.
Proof. intros (i & evs & w & Hf & Hi & Hw & ->). by apply (step_response _ i 0%N (d, evs) true w). Qed.

Lemma queue_shrinks s (l : list (string * SendingEvent)) p :
  (∀ key, in_queue (mark_as_active s l) key ↔ in_queue s key ∧ ¬ (key ≠ "" ∧ key ∈ l.*1)) → p ∈ l → p.1 ≠ "" → in_queue s p.1 →
  (size (queue_rows (mark_as_active s l)) < size (queue_rows s))%nat.
Proof.
  intros Hq Hp Hne Hin. rewrite <-!size_dom. apply subset_size. split.
  - intros key. rewrite !elem_of_dom. intros Hk. by apply Hq in Hk as [? _].
  - intros Hsub. assert (p.1 ∈ dom (queue_rows (mark_as_active s l))) as Hk%elem_of_dom by (apply Hsub, elem_of_dom, Hin).
    apply Hq in Hk as [_ Hno]. apply Hno. split; [done|]. by apply list_elem_of_fmap_2.
Qed.

(** An acknowledged transaction is followed by another, with less in the queue,
    or leaves nothing for the destination. *)
Lemma delivery_progress x d :
  sender_inv x → finishing x = false → d ∈ (futures (worker x)).*1 →
  ∃ y, delivery d x y ∧ sender_inv y ∧ submitted y = submitted x
    ∧ ((statuses (worker y) !! d = None ∧ ∀ key e, (key, (d, e)) ∈ submitted x → ¬ in_queue (store y) key ∧ ¬ in_current (store y) key)
       ∨ (d ∈ (futures (worker y)).*1 ∧ (size (queue_rows (store y)) < size (queue_rows (store x)))%nat)).
Proof.
  intros Hinv Hf Hel. apply list_elem_of_fmap in Hel as ([d' evs] & E & Hel). cbn in E. subst d'. apply list_elem_of_lookup in Hel as [i Hi].
  destruct (response_spec x i 0%N (d, evs) true Hinv Hf Hi) as (w & Hw & Hinv').
  eexists. split; [by exists i, evs, w|]. split_and!; [done|done|]. unfold store. cbn [worker].
  pose proof (proj1 (Forall_forall _ _) (si_flight _ Hinv) _ (list_elem_of_lookup_2 _ _ _ Hi)) as (Hd & Hm & _). cbn [fst] in Hd, Hm.
  destruct (delete_active_spec _ _ d (si_rows _ Hinv) Hd) as (Hr1 & Hq1 & _ & _ & Hc1).
  destruct (queued_requests_spec _ _ d DEQUEUE_LIMIT Hr1 Hd) as (l & Hqr & Hl & Hkeys).
  unfold handle_response in Hw. rewrite Hi in Hw. unfold handle_response_ok in Hw. cbn [sending statuses futures] in Hw. fold (store x) in Hw.
  rewrite Hqr in Hw. destruct l as [|[k e0] l]; injection Hw as <-; cbn [statuses futures sending].
  - left. split; [apply lookup_delete_eq|]. intros key e Hs. split.
    + intros Hin. assert ((raw_stream_prefix (servernameevent_data (delete_all_active_requests_for (store x) d)) (get_prefix d)).*1 = []) as Hnil.
      { revert Hkeys. destruct (raw_stream_prefix _ _); [done|]. intros Hk. discriminate Hk. }
      eapply not_elem_of_nil. rewrite <-Hnil. apply elem_of_prefix_keys. split; [|exact Hin].
      destruct (ri_sub _ _ Hr1 _ _ _ Hs) as (_ & Hrow & _). by eapply row_prefix.
    + by intros [_ ?]%(Hc1 key d e Hs).
  - right. split; [rewrite fmap_app, elem_of_app; right; by left|].
    change (queue_rows (sending (worker x))) with (queue_rows (delete_all_active_requests_for (store x) d)).
    destruct (Hl k e0) as [Hs Hin]; [by left|].
    destruct (mark_as_active_inv (submitted x) _ ((k, e0) :: l) Hr1) as (_ & _ & Hq2); [intros key e Hke _; exists d; by apply Hl|].
    apply (queue_shrinks _ ((k, e0) :: l) (k, e0) Hq2); [by left| |done]. destruct (ri_sub _ _ Hr1 _ _ _ Hs) as (_ & Hrow & _). by eapply row_nonempty.
Qed.

Lemma drains x d (n : nat) :
  sender_inv x → finishing x = false → d ∈ (futures (worker x)).*1 → (size (queue_rows (store x)) <= n)%nat →
  ∃ y, rtc (delivery d) x y ∧ sender_inv y ∧ submitted y = submitted x ∧ statuses (worker y) !! d = None
    ∧ ∀ key e, (key, (d, e)) ∈ submitted x → ¬ in_queue (store y) key ∧ ¬ in_current (store y) key.
Proof.
  revert x. induction n as [|n IH]; intros x Hinv Hf Hel Hn;
    destruct (delivery_progress x d Hinv Hf Hel) as (y & Hxy & Hy & Hsub & [[Hst Hnone]|[Hel' Hlt]]).
  - exists y. split_and!; [by apply rtc_once|done..].
  - lia.
  - exists y. split_and!; [by apply rtc_once|done..].
  - assert (finishing y = false) as Hfy by (destruct Hxy as (i & evs & w & _ & _ & _ & ->); done).
    destruct (IH y Hy Hfy Hel') as (z & Hyz & Hz & Hsz & Hst & Hnone); [lia|]. exists z. rewrite Hsub in Hsz, Hnone.
    split_and!; [by eapply rtc_l|done..].
Qed.
End world.
