(* ===== verification/Delivery.v ===== *)
(** * Delivery ([src/src/service/sending])

    What the workers of [Sender] do with the requests of [Sending]: none is lost
    on the way, a worker meets no state it cannot handle, a destination that
    answers is served until nothing is left, and one that fails is left alone
    for a while. *)

From S2P Require Import Prelude Bytes Slices SetOps DbCodec DbMap Pairs Counter Short PduId MemberCache Memberships Sending Sender.

(** ** Properties *)




(** After the n-th failure in a row, no transaction starts until the time-out
    times n squared, or the limit if that is less, has passed; then the rows
    that failed are sent again.  No saturation of durations shows. *)
Theorem sender_backs_off `{Engine, JsonParser, Users, DestHash, HashIter} cfg st now d tries at_ :
  (sender_retry_backoff_limit cfg <= U64_MAX)%N → is_appservice d = false → st !! d = Some (Failed tries at_) →
  select_events_current cfg st now d
  = if (now - at_ <? N.min (sender_timeout cfg * tries * tries) (sender_retry_backoff_limit cfg) * NANOS)%N
    then ((false, false), st) else ((true, true), <[d := Retrying tries]> st).
Proof.
  intros Hlim Happ Hst. unfold select_events_current. rewrite Hst, Happ, andb_true_r.
  assert (continue_exponential_backoff_secs (sender_timeout cfg) (sender_retry_backoff_limit cfg) (now - at_) tries
    = (now - at_ <? N.min (sender_timeout cfg * tries * tries) (sender_retry_backoff_limit cfg) * NANOS)%N) as ->; [|done].
  unfold continue_exponential_backoff_secs, continue_exponential_backoff. f_equal.
  assert (sender_retry_backoff_limit cfg * NANOS <= DURATION_MAX)%N as Hle.
  { unfold DURATION_MAX. transitivity (U64_MAX * NANOS)%N; [by apply N.mul_le_mono_r|]. vm_compute. discriminate. }
  unfold duration_saturating_mul. rewrite <-(N.mul_min_distr_r (sender_timeout cfg * tries * tries)).
  assert (1 <= NANOS)%N as Hn by (vm_compute; discriminate).
  set (a := sender_timeout cfg). set (b := sender_retry_backoff_limit cfg) in *. clearbody a b.
  replace (a * tries * tries * NANOS)%N with (a * NANOS * tries * tries)%N by lia.
  destruct (N.le_gt_cases (a * NANOS * tries) DURATION_MAX) as [H1'|H1'].
  - rewrite (N.min_l (a * NANOS * tries)) by done. lia.
  - rewrite (N.min_r (a * NANOS * tries)) by lia. destruct (N.eq_dec tries 0%N) as [->|Ht]; [lia|].
    assert (DURATION_MAX <= DURATION_MAX * tries)%N by nia. assert (a * NANOS * tries <= a * NANOS * tries * tries)%N by nia. lia.
Qed.

(** ** Runs *)

Section runs.
Context `{Engine, JsonParser, Users, DestHash, HashIter} (cfg : SenderConfig) (id : nat).

(** The steps as functions. *)
Definition submit (x : World) (reqs : list (SendingEvent * Destination)) : World :=
  match queue_requests (store x) reqs with
  | Ok (keys, s1) =>
      mkWorld (put_sending (dispatch_all s1 (zip_with (λ r k, mkMsg r.2 r.1 k) reqs keys)).2 (worker x))
        (submitted x ++ zip keys (prod_swap <$> reqs)) (acknowledged x) (discarded x) (finishing x)
  | Err _ => x
  end.

Definition serve (x : World) : World :=
  match channels (store x) !! id with
  | Some (closed, m :: l) =>
      match handle_request cfg (put_sending (pop_channel id (store x) l closed) (worker x)) 0 m ([], 0%N) with
      | Ok w => mkWorld w (submitted x) (acknowledged x) (discarded x) false
      | Err _ => x
      end
  | _ => x
  end.

Definition is_ok {E A} (r : Result E A) : bool := match r with Ok _ => true | Err _ => false end.

Lemma submit_step x reqs :
  Forall (λ r, event_ok r.1 ∧ dest_ok r.2) reqs → (last_count (store x) + N.of_nat (length reqs) <=? U64_MAX)%N = true →
  is_ok (queue_requests (store x) reqs) = true → sender_step cfg id x (submit x reqs).
Proof.
  intros Hok Hfit%N.leb_le Hq. unfold submit. destruct (queue_requests (store x) reqs) as [[keys s1]|] eqn:Eq; [|done].
  destruct (dispatch_all s1 _) as [res s2] eqn:Ed. cbn [snd]. by eapply step_submit.
Qed.

Lemma serve_step x closed m l :
  finishing x = false → channels (store x) !! id = Some (closed, m :: l) →
  is_ok (handle_request cfg (put_sending (pop_channel id (store x) l closed) (worker x)) 0 m ([], 0%N)) = true →
  sender_step cfg id x (serve x).
Proof.
  intros Hf Hc Hok. unfold serve. rewrite Hc. destruct (handle_request _ _ _ _ _) as [w|] eqn:Hw; [|done].
  by eapply step_request.
Qed.
End runs.

(** ** Examples *)

Module SenderExample.
#[local] Existing Instance ordered_engine.
#[local] Existing Instance ShortExample.json.
#[local] Existing Instance reversed_hash_iter.
#[local] Existing Instance MembersExample.users.
#[export] Instance one_hash : DestHash := λ _, 0%N.

Definition server : Destination := Federation "b".
Definition pdu (n : N) : SendingEvent := SPdu (raw_from_id (mkId 1 (Normal n))).
Definition key_of_pdu (n : N) : string := get_prefix server +:+ as_bytes (raw_from_id (mkId 1 (Normal n))).

Definition config (burst : bool) (keep : Z) : SenderConfig := mkConfig 180 86400 burst keep.

(** The two tables, as rows. *)
Definition tables_of (current queue : gmap string string) : Sending :=
  mkSending (globals ShortExample.empty) (current : Table) (queue : Table) (∅ : Table) [(false, [])].

Definition start : World := mkWorld (mkWorker (tables_of ∅ ∅) ∅ []) [] [] [] false.

(** One event, submitted and in flight. *)
Definition queued : World := submit start [(pdu 1, server)].
Definition flying : World := serve (config true 50) 0 queued.

Lemma start_fresh : fresh_world 0 start.
Proof. split; [exists ∅; exact (short_data _ _ ShortExample.empty_inv)|done|done|by intros c l [= _ <-]|done|done|done]. Qed.

Lemma pdu_ok n : event_ok (pdu n).
Proof. exact (raw_from_key 1 (Normal n)). Qed.

Lemma server_ok : dest_ok server.
Proof. by split_and!. Qed.

Lemma flying_reached : rtc (sender_step (config true 50) 0) start flying.
Proof.
  apply (rtc_l _ start queued).
  - apply submit_step; [|vm_compute; reflexivity|vm_compute; reflexivity]. apply Forall_singleton. exact (conj (pdu_ok 1) server_ok).
  - apply rtc_once, (serve_step _ _ queued false (mkMsg server (pdu 1) (key_of_pdu 1)) []); vm_compute; reflexivity.
Qed.
End SenderExample.

#[local] Existing Instance ordered_engine.
#[local] Existing Instance ShortExample.json.
#[local] Existing Instance reversed_hash_iter.
#[local] Existing Instance MembersExample.users.
Import SenderExample.

Lemma flying_facts : finishing flying = false ∧ futures (worker flying) = [(server, [pdu 1])] ∧ submitted flying = [(key_of_pdu 1, (server, pdu 1))].
Proof. vm_compute. split_and!; reflexivity. Qed.




Lemma sender_backs_off_witness :
  (select_events_current (config true 50) {[server := Failed 2 0]} 700000000000 server).1 = (false, false).
Proof.
  rewrite (sender_backs_off (config true 50) {[server := Failed 2 0]} 700000000000 server 2 0);
    [reflexivity|vm_compute; discriminate|reflexivity|apply lookup_singleton_eq].
Defined.

(** *** Where requests go astray *)

(** A worker with these rows, and the message that submits an event. *)
Definition idle (current queue : gmap string string) : Worker := mkWorker (tables_of current queue) ∅ [].
Definition ask (n : N) : Msg := mkMsg server (pdu n) (key_of_pdu n).

(** What is left of a worker: the transactions in flight, the keys of the two
    tables and the status of the server. *)
Definition view (r : Result SendError Worker) : option (list (Destination * list SendingEvent) * list string * list string * option TransactionStatus) :=
  match r with
  | Ok w => Some (futures w, (btree_iter (current_rows (sending w))).*1, (btree_iter (queue_rows (sending w))).*1, statuses w !! server)
  | Err _ => None
  end.

(** With the burst off, what was in flight at the crash is not sent again: the
    next request goes out alone, and its success removes both rows. *)
Theorem burst_off_loses :
  let cfg := config false (-1) in
  let boot := startup_netburst_ cfg 0 (idle {[key_of_pdu 1 := ""]} {[key_of_pdu 2 := ""]}) in
  let asked := let? w := boot in handle_request cfg w 0 (ask 2) ([], 0%N) in
  let answered := let? w := asked in handle_response w 0 0 true in
  view boot = Some ([], [key_of_pdu 1], [key_of_pdu 2], None)
  ∧ view asked = Some ([(server, [pdu 2])], [key_of_pdu 1; key_of_pdu 2], [], Some Running)
  ∧ view answered = Some ([], [], [], None).
Proof. vm_compute. split_and!; reflexivity. Qed.

(** The limit of the burst drops rows with the burst off too. *)
Theorem burst_off_trims :
  view (startup_netburst_ (config false 0) 0 (idle {[key_of_pdu 1 := ""]} ∅)) = Some ([], [], [], None).
Proof. vm_compute. reflexivity. Qed.

(** When a transaction that carried only a flush and ephemeral events failed,
    the retry has nothing to send: the request that woke it stays in the queue
    with nothing in flight. *)
Theorem retry_leaves_queued :
  let cfg := config true 50 in
  let flushed := handle_request cfg (idle ∅ ∅) 0 (mkMsg server SFlush "") (["{}"], 1%N) in
  let failed := let? w := flushed in handle_response w 0 0 false in
  let woken := let? w := failed in
    handle_request cfg (put_sending (tables_of ∅ {[key_of_pdu 1 := ""]}) w) 200000000000 (ask 1) ([], 1%N) in
  view flushed = Some ([(server, [SFlush; SEdu "{}"])], [], [], Some Running)
  ∧ view woken = Some ([], [], [key_of_pdu 1], None).
Proof. vm_compute. split; reflexivity. Qed.

(** The ephemeral events chosen for a transaction are not in its retry, and the
    count is past them. *)
Theorem failed_edus_lost :
  let cfg := config true 50 in
  let asked := handle_request cfg (idle ∅ {[key_of_pdu 1 := ""]}) 0 (ask 1) (["{}"], 7%N) in
  let failed := let? w := asked in handle_response w 0 0 false in
  let again := let? w := failed in handle_request cfg w 200000000000 (ask 1) ([], 7%N) in
  view asked = Some ([(server, [pdu 1; SEdu "{}"])], [key_of_pdu 1], [], Some Running)
  ∧ view again = Some ([(server, [pdu 1])], [key_of_pdu 1], [], Some (Retrying 1))
  ∧ match again with Ok w => get_latest_educount (sending w) "b" = 7%N | Err _ => False end.
Proof. vm_compute. split_and!; reflexivity. Qed.
