(* ===== verification/Store.v ===== *)
(** * gm-store: the pluggable storage abstraction ([src/src/store])

    [Domain], [Op], [WriteBatch] and [StoreError] are the source's types.  The
    trait [KvBackend] is the class [KvBackend]; interior mutability (the
    backend behind an [Arc]) is state passing, so an operation returns its
    result with the backend's next state.  [KvContract] is what the trait's
    documentation promises; the storage consumers ([AuditService], [Cas],
    [FedService], [AgentService]) are verified against it and [MemBackend],
    the repository's executable reference backend, discharges it. *)

From S2P Require Import Prelude Bytes.

(** ** Domains *)

Inductive Domain :=
  | Events
  | RoomState
  | AuthChainIndex
  | ResolvedStateCache
  | MediaMetadata
  | DeviceStore
  | KeyStore
  | AccountData
  | AuditLog
  | AgentApprovals
  | AgentRegistry
  | AgentRateLimits
  | FederationHealth
  | FederationQueue
  | MediaBlobs.

#[export] Instance domain_eq_dec : EqDecision Domain.
Proof. solve_decision. Defined.

Definition domain_ALL : list Domain :=
  [Events; RoomState; AuthChainIndex; ResolvedStateCache; MediaMetadata;
   DeviceStore; KeyStore; AccountData; AuditLog; AgentApprovals; AgentRegistry;
   AgentRateLimits; FederationHealth; FederationQueue; MediaBlobs].

Definition domain_name (d : Domain) : string :=
  match d with
  | Events => "events"
  | RoomState => "room_state"
  | AuthChainIndex => "auth_chain_index"
  | ResolvedStateCache => "resolved_state_cache"
  | MediaMetadata => "media_metadata"
  | DeviceStore => "device_store"
  | KeyStore => "key_store"
  | AccountData => "account_data"
  | AuditLog => "audit_log"
  | AgentApprovals => "agent_approvals"
  | AgentRegistry => "agent_registry"
  | AgentRateLimits => "agent_rate_limits"
  | FederationHealth => "federation_health"
  | FederationQueue => "federation_queue"
  | MediaBlobs => "media_blobs"
  end.

Definition domain_index (d : Domain) : nat :=
  match d with
  | Events => 0
  | RoomState => 1
  | AuthChainIndex => 2
  | ResolvedStateCache => 3
  | MediaMetadata => 4
  | DeviceStore => 5
  | KeyStore => 6
  | AccountData => 7
  | AuditLog => 8
  | AgentApprovals => 9
  | AgentRegistry => 10
  | AgentRateLimits => 11
  | FederationHealth => 12
  | FederationQueue => 13
  | MediaBlobs => 14
  end.

Definition domain_from_name (name : string) : option Domain :=
  List.find (λ d, String.eqb (domain_name d) name) domain_ALL.

(** ** Errors *)

Inductive StoreError :=
  | UnknownDomain (d : Domain)
  | Backend (msg : string)
  | Unavailable (msg : string)
  | Corrupt (msg : string).

Definition store_error_display (e : StoreError) : string :=
  match e with
  | UnknownDomain d => "unknown storage domain: " +:+ domain_name d
  | Backend msg => "storage backend error: " +:+ msg
  | Unavailable msg => "storage backend unavailable: " +:+ msg
  | Corrupt msg => "corrupt stored value: " +:+ msg
  end.

(** ** Write batches *)

Inductive Op :=
  | Put (d : Domain) (key val : string)
  | Delete (d : Domain) (key : string).

Record WriteBatch := mkBatch { ops : list Op }.

Definition batch_new : WriteBatch := mkBatch [].
Definition batch_put (b : WriteBatch) (d : Domain) (key val : string) : WriteBatch :=
  mkBatch (ops b ++ [Put d key val]).
Definition batch_delete (b : WriteBatch) (d : Domain) (key : string) : WriteBatch :=
  mkBatch (ops b ++ [Delete d key]).
Definition batch_len (b : WriteBatch) : nat := length (ops b).
Definition batch_is_empty (b : WriteBatch) : bool := bool_decide (ops b = []).

(** ** The backend trait and its contract *)

Abbreviation Tree := (gmap string string).

Class KvBackend (B : Type) := {
  kv_get : B → Domain → string → Result StoreError (option string);
  kv_prefix_scan : B → Domain → string → Result StoreError (list (string * string));
  kv_commit : B → WriteBatch → Result StoreError () * B;
}.

(** The provided method of the trait. *)
Definition kv_contains {B} `{KvBackend B} (b : B) (d : Domain) (key : string) :
    Result StoreError bool :=
  let? v := kv_get b d key in Ok (bool_decide (is_Some v)).

(** The abstract store: one finite map per domain. *)
Definition view := Domain → Tree.

Definition view_apply (v : view) (op : Op) : view := λ d,
  match op with
  | Put d' k x => if decide (d = d') then <[k := x]> (v d) else v d
  | Delete d' k => if decide (d = d') then delete k (v d) else v d
  end.

Definition view_commit (v : view) (w : WriteBatch) : view :=
  foldl view_apply v (ops w).

(** Every entry whose key starts with [prefix], in ascending key order. *)
Definition scan_spec (t : Tree) (prefix : string) : list (string * string) :=
  filter (λ e, String.prefix prefix e.1 = true) (btree_iter t).

(** What a backend promises.  An operation may fail; a failed commit leaves
    the store as it was.  [kv_live] is the condition under which a backend
    does not fail. *)
Class KvContract (B : Type) `{KvBackend B} := {
  kv_view : B → view;
  kv_ok : B → Prop;
  kv_live : B → Prop;
  kv_get_sound : ∀ b d k v,
    kv_ok b → kv_get b d k = Ok v → v = kv_view b d !! k;
  kv_scan_sound : ∀ b d p l,
    kv_ok b → kv_prefix_scan b d p = Ok l → l = scan_spec (kv_view b d) p;
  kv_commit_ok : ∀ b w r b', kv_ok b → kv_commit b w = (r, b') → kv_ok b';
  kv_commit_sound : ∀ b w b' d,
    kv_ok b → kv_commit b w = (Ok (), b') →
    kv_view b' d = view_commit (kv_view b) w d;
  kv_commit_abort : ∀ b w e b' d,
    kv_ok b → kv_commit b w = (Err e, b') → kv_view b' d = kv_view b d;
  kv_live_get : ∀ b d k,
    kv_ok b → kv_live b → kv_get b d k = Ok (kv_view b d !! k);
  kv_live_scan : ∀ b d p,
    kv_ok b → kv_live b → kv_prefix_scan b d p = Ok (scan_spec (kv_view b d) p);
  kv_live_commit : ∀ b w,
    kv_ok b → kv_live b → ∃ b', kv_commit b w = (Ok (), b') ∧ kv_live b';
}.

(** ** The in-memory backend *)

(** The lock is poisoned when a thread panicked while holding it. *)
Record MemBackend := mkMem { trees : list Tree; poisoned : bool }.

Definition mem_new : MemBackend := mkMem (replicate (length domain_ALL) ∅) false.

Definition mem_poisoned : StoreError := Unavailable "in-memory store lock poisoned".

(** [trees[domain.index()]]; the index is always in range ([mem_tree_in_range]). *)
Definition mem_tree (b : MemBackend) (d : Domain) : Tree :=
  default ∅ (trees b !! domain_index d).

Definition mem_get (b : MemBackend) (d : Domain) (key : string) :
    Result StoreError (option string) :=
  if poisoned b then Err mem_poisoned else Ok (mem_tree b d !! key).

Definition mem_prefix_scan (b : MemBackend) (d : Domain) (prefix : string) :
    Result StoreError (list (string * string)) :=
  if poisoned b then Err mem_poisoned else
  let range := filter (λ e, key_le prefix e.1) (btree_iter (mem_tree b d)) in
  Ok (take_while (λ e, String.prefix prefix e.1) range).

Definition mem_apply (ts : list Tree) (op : Op) : list Tree :=
  match op with
  | Put d key val => alter (λ t, <[key := val]> t) (domain_index d) ts
  | Delete d key => alter (λ t, delete key t) (domain_index d) ts
  end.

Definition mem_commit (b : MemBackend) (w : WriteBatch) :
    Result StoreError () * MemBackend :=
  if poisoned b then (Err mem_poisoned, b) else
  (Ok (), mkMem (foldl mem_apply (trees b) (ops w)) false).

#[export] Instance mem_backend : KvBackend MemBackend := {|
  kv_get := mem_get;
  kv_prefix_scan := mem_prefix_scan;
  kv_commit := mem_commit;
|}.

(** ** The [Store] and [DynStore] handles *)

Section facade.
Context {B : Type} `{KvBackend B}.

Definition store_get (s : B) (d : Domain) (key : string) := kv_get s d key.
Definition store_contains (s : B) (d : Domain) (key : string) := kv_contains s d key.
Definition store_prefix_scan (s : B) (d : Domain) (prefix : string) :=
  kv_prefix_scan s d prefix.
Definition store_commit (s : B) (w : WriteBatch) := kv_commit s w.

Definition store_put (s : B) (d : Domain) (key val : string) : Result StoreError () * B :=
  store_commit s (batch_put batch_new d key val).

Definition store_delete (s : B) (d : Domain) (key : string) : Result StoreError () * B :=
  store_commit s (batch_delete batch_new d key).

(** The blanket [impl<B: KvBackend> DynBackend for B]: the value handle is
    erased to an owned byte vector ([to_vec] on each value). *)
Definition to_vec (v : string) : string := v.

Definition dyn_get (s : B) (d : Domain) (key : string) :
    Result StoreError (option string) :=
  let? v := kv_get s d key in Ok (to_vec <$> v).
Definition dyn_contains (s : B) (d : Domain) (key : string) : Result StoreError bool :=
  kv_contains s d key.
Definition dyn_prefix_scan (s : B) (d : Domain) (prefix : string) :
    Result StoreError (list (string * string)) :=
  let? l := kv_prefix_scan s d prefix in Ok ((λ e, (e.1, to_vec e.2)) <$> l).
Definition dyn_commit (s : B) (w : WriteBatch) : Result StoreError () * B :=
  kv_commit s w.
Definition dyn_put (s : B) (d : Domain) (key val : string) : Result StoreError () * B :=
  dyn_commit s (batch_put batch_new d key val).
Definition dyn_delete (s : B) (d : Domain) (key : string) : Result StoreError () * B :=
  dyn_commit s (batch_delete batch_new d key).
End facade.

(** ** Lemmas *)

Lemma domain_index_inj d d' : domain_index d = domain_index d' → d = d'.
Proof. by destruct d, d'. Qed.

Lemma domain_index_lt d : domain_index d < length domain_ALL.
Proof. destruct d; simpl; lia. Qed.

Lemma elem_of_scan_spec t p k v :
  (k, v) ∈ scan_spec t p ↔ String.prefix p k = true ∧ t !! k = Some v.
Proof. unfold scan_spec. by rewrite list_elem_of_filter, elem_of_btree_iter. Qed.

Lemma scan_spec_all t : scan_spec t "" = btree_iter t.
Proof. apply filter_all. intros x _. apply prefix_nil. Qed.

Lemma scan_spec_sorted t p : StronglySorted entry_le (scan_spec t p).
Proof. apply StronglySorted_filter, btree_iter_sorted. Qed.

Lemma fmap_filter_NoDup {A B} (f : A → B) (P : A → Prop) `{!∀ x, Decision (P x)}
    (l : list A) : NoDup (f <$> l) → NoDup (f <$> filter P l).
Proof.
  intros ND. eapply sublist_NoDup; [exact ND|]. apply fmap_sublist, sublist_filter.
Qed.

(** [range(prefix..)] followed by [take_while(starts_with)] finds exactly the
    entries with the prefix, in order. *)
Lemma range_take_while_scan t p :
  take_while (λ e, String.prefix p e.1) (filter (λ e, key_le p e.1) (btree_iter t))
  = scan_spec t p.
Proof.
  rewrite (take_while_filter entry_le).
  - unfold scan_spec. rewrite list_filter_filter. apply list_filter_iff.
    intros e. split; [by intros [? _]|]. intros Hp. split; [done|by apply prefix_le].
  - apply StronglySorted_filter, btree_iter_sorted.
  - intros x y [Hx _]%list_elem_of_filter _ Hxy Hp. by eapply prefix_convex.
Qed.

Definition mem_wf (b : MemBackend) : Prop := length (trees b) = length domain_ALL.

Lemma mem_tree_in_range b d : mem_wf b → trees b !! domain_index d = Some (mem_tree b d).
Proof.
  intros Hwf. unfold mem_tree.
  destruct (lookup_lt_is_Some_2 (trees b) (domain_index d)) as [t Ht].
  { rewrite Hwf. apply domain_index_lt. }
  by rewrite Ht.
Qed.

Lemma length_mem_apply ts op : length (mem_apply ts op) = length ts.
Proof. destruct op; apply length_alter. Qed.

Lemma mem_apply_view ts op d b b' :
  length ts = length domain_ALL →
  mem_tree (mkMem (mem_apply ts op) b') d = view_apply (mem_tree (mkMem ts b)) op d.
Proof.
  intros HL. destruct (lookup_lt_is_Some_2 ts (domain_index d)) as [t Ht].
  { rewrite HL. apply domain_index_lt. }
  unfold view_apply, mem_tree; simpl.
  destruct op as [d' k v|d' k]; simpl; case_decide as E; subst.
  1, 3: by rewrite list_lookup_alter_eq, Ht.
  all: by rewrite list_lookup_alter_ne by (intros ?%domain_index_inj; congruence).
Qed.

Lemma foldl_view_ext os (v v' : view) :
  (∀ d, v d = v' d) → ∀ d, foldl view_apply v os d = foldl view_apply v' os d.
Proof.
  revert v v'. induction os as [|op os IH]; intros v v' Hv d; simpl; [done|].
  apply IH. intros d'. unfold view_apply. destruct op; by rewrite Hv.
Qed.

Lemma mem_fold_view os ts b d :
  length ts = length domain_ALL →
  mem_tree (mkMem (foldl mem_apply ts os) b) d
  = foldl view_apply (mem_tree (mkMem ts b)) os d
  ∧ length (foldl mem_apply ts os) = length domain_ALL.
Proof.
  revert ts. induction os as [|op os IH]; intros ts HL; simpl; [done|].
  destruct (IH (mem_apply ts op)) as [E1 E2]; [by rewrite length_mem_apply|].
  split; [|done]. rewrite E1. apply foldl_view_ext. intros d'. by apply mem_apply_view.
Qed.

Lemma mem_commit_spec b w :
  mem_wf b → poisoned b = false →
  ∃ b', mem_commit b w = (Ok (), b') ∧ mem_wf b' ∧ poisoned b' = false ∧
        ∀ d, mem_tree b' d = view_commit (mem_tree b) w d.
Proof.
  intros Hwf Hp. unfold mem_commit. rewrite Hp. eexists. split; [done|].
  destruct b as [ts pb]; simpl in *; subst pb.
  split; [by apply (mem_fold_view (ops w) ts false Events)|]. split; [done|].
  intros d. by apply (mem_fold_view (ops w) ts false d).
Qed.

#[export] Program Instance mem_contract : KvContract MemBackend := {|
  kv_view := mem_tree;
  kv_ok := mem_wf;
  kv_live := λ b, poisoned b = false;
|}.
Next Obligation. intros b d k v _. simpl. unfold mem_get. destruct (poisoned b); naive_solver. Qed.
Next Obligation.
  intros b d p l _. simpl. unfold mem_prefix_scan. rewrite range_take_while_scan.
  destruct (poisoned b); naive_solver.
Qed.
Next Obligation.
  intros b w r b' Hwf. simpl. destruct (poisoned b) eqn:Hp.
  - unfold mem_commit. rewrite Hp. by intros [= <- <-].
  - destruct (mem_commit_spec b w Hwf Hp) as (b'' & -> & ? & _). by intros [= <- <-].
Qed.
Next Obligation.
  intros b w b' d Hwf. simpl. destruct (poisoned b) eqn:Hp.
  - unfold mem_commit. by rewrite Hp.
  - destruct (mem_commit_spec b w Hwf Hp) as (b'' & -> & _ & _ & HE). by intros [= <-].
Qed.
Next Obligation.
  intros b w e b' d Hwf. simpl. unfold mem_commit. destruct (poisoned b); [|done].
  by intros [= _ <-].
Qed.
Next Obligation. intros b d k _ Hp. simpl in *. unfold mem_get. by rewrite Hp. Qed.
Next Obligation.
  intros b d p _ Hp. simpl in *. unfold mem_prefix_scan. by rewrite Hp, range_take_while_scan.
Qed.
Next Obligation.
  intros b w Hwf Hp. simpl in *. destruct (mem_commit_spec b w Hwf Hp) as (b' & ? & ? & ? & _).
  eauto.
Qed.

(** ** What a client of a [DynStore] may use *)

Section client.
Context {B : Type} `{KvContract B}.
Implicit Types (s : B) (d : Domain) (k v : string).

Lemma dyn_get_sound s d k (o : option string) : kv_ok s → dyn_get s d k = Ok o → o = kv_view s d !! k.
Proof.
  unfold dyn_get. destruct (kv_get s d k) as [o'|] eqn:E; intros Hok ?; simplify_eq/=.
  apply kv_get_sound in E; [|done]. subst. by destruct (kv_view s d !! k).
Qed.

Lemma dyn_get_live s d k : kv_ok s → kv_live s → dyn_get s d k = Ok (kv_view s d !! k).
Proof.
  intros. unfold dyn_get. rewrite kv_live_get by done. by destruct (kv_view s d !! k).
Qed.

Lemma dyn_scan_map (l : list (string * string)) : (λ e, (e.1, to_vec e.2)) <$> l = l.
Proof. induction l as [|[k v] l IH]; [done|]. csimpl. by rewrite IH. Qed.

Lemma dyn_scan_sound s d p l :
  kv_ok s → dyn_prefix_scan s d p = Ok l → l = scan_spec (kv_view s d) p.
Proof.
  unfold dyn_prefix_scan. destruct (kv_prefix_scan s d p) as [l'|] eqn:E; intros Hok ?; simplify_eq.
  rewrite dyn_scan_map. by apply kv_scan_sound in E.
Qed.

Lemma dyn_scan_live s d p :
  kv_ok s → kv_live s → dyn_prefix_scan s d p = Ok (scan_spec (kv_view s d) p).
Proof. intros. unfold dyn_prefix_scan. rewrite kv_live_scan by done. by rewrite dyn_scan_map. Qed.

Lemma dyn_contains_live s d k :
  kv_ok s → kv_live s → dyn_contains s d k = Ok (bool_decide (is_Some (kv_view s d !! k))).
Proof. intros. unfold dyn_contains, kv_contains. by rewrite kv_live_get. Qed.

Lemma dyn_contains_sound s d k r :
  kv_ok s → dyn_contains s d k = Ok r → r = bool_decide (is_Some (kv_view s d !! k)).
Proof.
  unfold dyn_contains, kv_contains. destruct (kv_get s d k) eqn:E; intros Hok ?; simplify_eq.
  by apply kv_get_sound in E as ->.
Qed.

(** The effect of a single-key write on the view. *)
Lemma dyn_put_view s d k v r s' d' :
  kv_ok s → dyn_put s d k v = (r, s') →
  kv_ok s' ∧ kv_view s' d' =
    match r with
    | Ok _ => if decide (d' = d) then <[k := v]> (kv_view s d') else kv_view s d'
    | Err _ => kv_view s d'
    end.
Proof.
  intros Hok E. split; [by eapply kv_commit_ok|].
  destruct r as [[]|e];
    [by rewrite (kv_commit_sound _ _ _ _ Hok E)|by rewrite (kv_commit_abort _ _ _ _ _ Hok E)].
Qed.

Lemma dyn_delete_view s d k r s' d' :
  kv_ok s → dyn_delete s d k = (r, s') →
  kv_ok s' ∧ kv_view s' d' =
    match r with
    | Ok _ => if decide (d' = d) then delete k (kv_view s d') else kv_view s d'
    | Err _ => kv_view s d'
    end.
Proof.
  intros Hok E. split; [by eapply kv_commit_ok|].
  destruct r as [[]|e];
    [by rewrite (kv_commit_sound _ _ _ _ Hok E)|by rewrite (kv_commit_abort _ _ _ _ _ Hok E)].
Qed.

Lemma dyn_put_live s d k v :
  kv_ok s → kv_live s →
  ∃ s', dyn_put s d k v = (Ok (), s') ∧ kv_ok s' ∧ kv_live s' ∧
        ∀ d', kv_view s' d' = if decide (d' = d) then <[k := v]> (kv_view s d') else kv_view s d'.
Proof.
  intros Hok Hl. destruct (kv_live_commit s (batch_put batch_new d k v)) as (s' & E & ?); [done..|].
  exists s'. split; [done|]. split; [by eapply kv_commit_ok|]. split; [done|].
  intros d'. by apply (dyn_put_view s d k v (Ok ()) s' d').
Qed.

Lemma dyn_delete_live s d k :
  kv_ok s → kv_live s →
  ∃ s', dyn_delete s d k = (Ok (), s') ∧ kv_ok s' ∧ kv_live s' ∧
        ∀ d', kv_view s' d' = if decide (d' = d) then delete k (kv_view s d') else kv_view s d'.
Proof.
  intros Hok Hl. destruct (kv_live_commit s (batch_delete batch_new d k)) as (s' & E & ?); [done..|].
  exists s'. split; [done|]. split; [by eapply kv_commit_ok|]. split; [done|].
  intros d'. by apply (dyn_delete_view s d k (Ok ()) s' d').
Qed.

(** The last operation of a batch that addresses [k] in [d], if any: [Some
    (Some v)] for a put, [Some None] for a delete. *)
Fixpoint last_write (os : list Op) d k : option (option string) :=
  match os with
  | [] => None
  | op :: os' =>
      match last_write os' d k with
      | Some r => Some r
      | None =>
          match op with
          | Put d' k' v => if decide (d' = d ∧ k' = k) then Some (Some v) else None
          | Delete d' k' => if decide (d' = d ∧ k' = k) then Some None else None
          end
      end
  end.

Lemma view_fold_last_write os (w : view) d k :
  foldl view_apply w os d !! k = default (w d !! k) (last_write os d k).
Proof.
  revert w. induction os as [|op os IH]; intros w; simpl; [done|].
  rewrite IH. destruct (last_write os d k) as [r|]; [done|]. simpl.
  unfold view_apply. destruct op as [d' k' v|d' k']; repeat case_decide; destruct_and?; subst;
    simplify_map_eq; try done; try tauto.
Qed.
End client.

(** ** Properties *)

(** Domain names and indices are a stable, collision-free contract: a
    name resolves to a domain exactly when it is that domain's name, and the
    array of all domains holds each domain at its own index. *)
Theorem domain_names_stable (d : Domain) (name : string) :
  (domain_from_name name = Some d ↔ domain_name d = name)
  ∧ domain_ALL !! domain_index d = Some d.
Proof.
  split; [|by destruct d]. unfold domain_from_name. split.
  - intros [_ E%String.eqb_eq]%find_some. done.
  - intros <-. by destruct d.
Qed.

(** The in-memory backend's prefix scan (a range cursor followed by
    [take_while]) returns, on an unpoisoned store, exactly the entries whose
    key starts with the prefix, each once, in ascending key order. *)
Theorem mem_prefix_scan_exact (b : MemBackend) (d : Domain) (p : string) :
  poisoned b = false →
  ∃ l, mem_prefix_scan b d p = Ok l ∧ StronglySorted entry_le l ∧ NoDup l.*1 ∧
       ∀ k v, (k, v) ∈ l ↔ String.prefix p k = true ∧ mem_get b d k = Ok (Some v).
Proof.
  intros Hp. exists (scan_spec (mem_tree b d) p).
  unfold mem_prefix_scan, mem_get. rewrite Hp, range_take_while_scan.
  split; [done|]. split; [apply scan_spec_sorted|].
  split; [apply fmap_filter_NoDup, btree_keys_NoDup|].
  intros k v. rewrite elem_of_scan_spec. split; intros [? ?]; split; congruence.
Qed.

Lemma mem_prefix_scan_exact_witness :
  let b := (dyn_put (dyn_put mem_new Events "ab" "1").2 Events "b" "2").2 in
  poisoned b = false ∧ ∃ l, mem_prefix_scan b Events "a" = Ok l ∧
    ((("ab", "1") ∈ l) ↔ String.prefix "a" "ab" = true ∧ mem_get b Events "ab" = Ok (Some "1")).
Proof.
  intros b. split; [reflexivity|].
  destruct (mem_prefix_scan_exact b Events "a" eq_refl) as (l & E & _ & _ & Hl).
  exists l. split; [exact E|]. apply (Hl "ab" "1").
Defined.

(** The in-memory backend implements the abstract store of one map per
    domain: a batch commits as a whole, every later read sees exactly the
    batch applied in order to the previous state, and a poisoned lock turns
    every operation into an error that changes nothing. *)
Theorem mem_commit_refines (b : MemBackend) (w : WriteBatch) :
  mem_wf b →
  (poisoned b = false →
     ∃ b', mem_commit b w = (Ok (), b') ∧ mem_wf b' ∧
           ∀ d k, mem_get b' d k = Ok (view_commit (mem_tree b) w d !! k))
  ∧ (poisoned b = true →
     mem_commit b w = (Err mem_poisoned, b) ∧
     ∀ d k, mem_get b d k = Err mem_poisoned ∧ mem_prefix_scan b d k = Err mem_poisoned).
Proof.
  intros Hwf. split; intros Hp.
  - destruct (mem_commit_spec b w Hwf Hp) as (b' & E & ? & Hp' & Hv).
    exists b'. repeat split; [done..|]. intros d k. unfold mem_get. by rewrite Hp', Hv.
  - unfold mem_commit, mem_get, mem_prefix_scan. by rewrite Hp.
Qed.

Lemma mem_commit_refines_witness :
  mem_wf mem_new ∧
  ∃ b', mem_commit mem_new (batch_put batch_new RoomState "k" "v") = (Ok (), b') ∧
        mem_get b' RoomState "k" = Ok (Some "v").
Proof.
  split; [reflexivity|].
  destruct (mem_commit_refines mem_new (batch_put batch_new RoomState "k" "v") eq_refl) as [H _].
  destruct (H eq_refl) as (b' & E & _ & Hg). exists b'. split; [exact E|].
  exact (Hg RoomState "k").
Defined.

(** Atomicity and last-writer-wins, for every backend that meets the
    contract: after a commit, each key holds what the last operation of the
    batch on that key and domain left (or its old value when no operation
    addressed it); after a failed commit every key holds its old value. *)
Theorem commit_last_writer_wins {B} `{KvContract B} (s s' : B) (w : WriteBatch) r
    (d : Domain) (k : string) :
  kv_ok s → dyn_commit s w = (r, s') →
  kv_view s' d !! k =
    match r with
    | Ok _ => default (kv_view s d !! k) (last_write (ops w) d k)
    | Err _ => kv_view s d !! k
    end.
Proof.
  intros Hok E. destruct r as [[]|e].
  - rewrite (kv_commit_sound _ _ _ _ Hok E). apply view_fold_last_write.
  - by rewrite (kv_commit_abort _ _ _ _ _ Hok E).
Qed.

Lemma commit_last_writer_wins_witness :
  let w := batch_delete (batch_put batch_new KeyStore "k" "v") KeyStore "k" in
  let s' := (dyn_commit mem_new w).2 in
  kv_ok mem_new ∧ kv_view s' KeyStore !! "k" = None.
Proof.
  intros w s'. split; [reflexivity|].
  exact (commit_last_writer_wins mem_new s' w (Ok ()) KeyStore "k" eq_refl eq_refl).
Defined.
