(* ===== verification/StateMap.v ===== *)
(** * gm-stateres: state maps and conflict partitioning
    ([src/src/stateres/state_map.rs]) *)

From S2P Require Import Prelude Bytes.

Abbreviation EventId := string.
Abbreviation StateKey := (string * string)%type.
Abbreviation StateMap := (gmap (string * string) string).
Abbreviation ConflictedState := (gmap (string * string) (gset string)).
Abbreviation EventStore E := (gmap string E).

Record Partitioned := mkPartitioned {
  unconflicted : StateMap;
  conflicted : ConflictedState;
}.

(** [grouped.entry(key).or_default().insert(event_id)]. *)
Definition group_insert (grouped : ConflictedState) (e : StateKey * EventId) : ConflictedState :=
  <[e.1 := {[e.2]} ∪ default ∅ (grouped !! e.1)]> grouped.

Definition group_state (grouped : ConflictedState) (state : StateMap) : ConflictedState :=
  foldl group_insert grouped (btree_iter state).

Definition group (states : list StateMap) : ConflictedState := foldl group_state ∅ states.

(** [BTreeSet::pop_first]. *)
Definition pop_first (s : gset EventId) : option EventId := head (bset_iter s).

Definition partition_slot (out : Partitioned) (e : StateKey * gset EventId) : Partitioned :=
  if Nat.eqb (size e.2) 1 then
    match pop_first e.2 with
    | Some event_id => mkPartitioned (<[e.1 := event_id]> (unconflicted out)) (conflicted out)
    | None => out
    end
  else mkPartitioned (unconflicted out) (<[e.1 := e.2]> (conflicted out)).

Definition partition (states : list StateMap) : Partitioned :=
  foldl partition_slot (mkPartitioned ∅ ∅) (btree_iter (group states)).

Definition conflicting_event_ids (c : ConflictedState) : gset EventId :=
  list_to_set (mjoin ((λ e, bset_iter e.2) <$> btree_iter c)).

(** ** Lemmas *)

(** [votes states k e]: some input map assigns [e] to slot [k]. *)
Definition votes (states : list StateMap) (k : StateKey) (e : EventId) : Prop :=
  ∃ s, s ∈ states ∧ s !! k = Some e.

Definition no_empty_group (g : ConflictedState) : Prop := ∀ k s, g !! k = Some s → s ≠ ∅.

Lemma group_insert_lookup g e k :
  default ∅ (group_insert g e !! k)
  = (if decide (e.1 = k) then {[e.2]} else ∅) ∪ default ∅ (g !! k).
Proof.
  unfold group_insert. case_decide as E; subst.
  - by rewrite lookup_insert_eq.
  - rewrite lookup_insert_ne by done. set_solver.
Qed.

Lemma group_insert_no_empty g e : no_empty_group g → no_empty_group (group_insert g e).
Proof.
  intros Hg k s. unfold group_insert. destruct (decide (e.1 = k)) as [<-|].
  - rewrite lookup_insert_eq. intros [= <-]. set_solver.
  - rewrite lookup_insert_ne by done. apply Hg.
Qed.

Lemma foldl_group_insert l g k x :
  x ∈ default ∅ (foldl group_insert g l !! k) ↔ x ∈ default ∅ (g !! k) ∨ (k, x) ∈ l.
Proof.
  revert g. induction l as [|e l IH]; intros g; simpl; [set_solver|].
  rewrite IH, group_insert_lookup, elem_of_cons, elem_of_union.
  destruct e as [k' x']; simpl. case_decide; [subst|]; set_solver.
Qed.

Lemma foldl_group_insert_no_empty l g :
  no_empty_group g → no_empty_group (foldl group_insert g l).
Proof.
  revert g. induction l as [|e l IH]; intros g Hg; [done|]. by apply IH, group_insert_no_empty.
Qed.

Lemma foldl_group_state states g k x :
  x ∈ default ∅ (foldl group_state g states !! k)
  ↔ x ∈ default ∅ (g !! k) ∨ votes states k x.
Proof.
  revert g. induction states as [|s states IH]; intros g; simpl.
  - unfold votes. set_solver.
  - rewrite IH. unfold group_state at 1. rewrite foldl_group_insert, elem_of_btree_iter.
    unfold votes. setoid_rewrite elem_of_cons. naive_solver.
Qed.

Lemma group_no_empty states : no_empty_group (group states).
Proof.
  unfold group. assert (no_empty_group ∅) as H0 by (intros k s; by rewrite lookup_empty).
  revert H0. generalize (∅ : ConflictedState). induction states as [|s states IH]; intros g Hg; [done|].
  simpl. apply IH. by apply foldl_group_insert_no_empty.
Qed.

(** The grouped map collects, per slot, exactly the events voted for. *)
Lemma group_spec states k :
  match group states !! k with
  | Some s => s ≠ ∅ ∧ ∀ x, x ∈ s ↔ votes states k x
  | None => ∀ x, ¬ votes states k x
  end.
Proof.
  assert (∀ x, x ∈ default ∅ (group states !! k) ↔ votes states k x) as E.
  { intros x. unfold group. rewrite foldl_group_state, lookup_empty. set_solver. }
  destruct (group states !! k) as [s|] eqn:Es; simpl in E.
  - split; [by eapply group_no_empty|done].
  - intros x Hx. apply E in Hx. set_solver.
Qed.

Definition singleton_event (s : gset EventId) : option EventId :=
  if Nat.eqb (size s) 1 then pop_first s else None.
Definition several_events (s : gset EventId) : option (gset EventId) :=
  if Nat.eqb (size s) 1 then None else Some s.

Lemma partition_components l out :
  unconflicted (foldl partition_slot out l)
    = foldl (insert_image singleton_event) (unconflicted out) l
  ∧ conflicted (foldl partition_slot out l)
    = foldl (insert_image several_events) (conflicted out) l.
Proof.
  revert out. induction l as [|e l IH]; intros out; simpl; [done|].
  destruct (IH (partition_slot out e)) as [-> ->].
  unfold partition_slot, insert_image, singleton_event, several_events.
  destruct (Nat.eqb (size e.2) 1); [|done]. by destruct (pop_first e.2).
Qed.

Lemma partition_unconflicted states :
  unconflicted (partition states) = omap singleton_event (group states).
Proof. unfold partition. rewrite (proj1 (partition_components _ _)). apply foldl_insert_image. Qed.

Lemma partition_conflicted states :
  conflicted (partition states) = omap several_events (group states).
Proof. unfold partition. rewrite (proj2 (partition_components _ _)). apply foldl_insert_image. Qed.

Lemma singleton_event_spec s e : singleton_event s = Some e ↔ s = {[e]}.
Proof.
  unfold singleton_event, pop_first. destruct (Nat.eqb_spec (size s) 1) as [E|E].
  - apply size_1_elem_of in E as [x E]. apply leibniz_equiv in E as ->.
    unfold bset_iter. rewrite elements_singleton. simpl.
    split; [by intros [= ->]|]. intros E. f_equal. set_solver.
  - split; [done|]. intros ->. by rewrite size_singleton in E.
Qed.

Lemma several_events_spec s s' : several_events s = Some s' ↔ s = s' ∧ size s ≠ 1.
Proof. unfold several_events. destruct (Nat.eqb_spec (size s) 1); naive_solver. Qed.

Lemma size_not_1 (s : gset EventId) :
  s ≠ ∅ → (size s ≠ 1 ↔ ∃ e1 e2, e1 ∈ s ∧ e2 ∈ s ∧ e1 ≠ e2).
Proof.
  intros Hne. split.
  - intros Hs. destruct (set_choose_L s Hne) as [x Hx].
    destruct (decide (s ∖ {[x]} = ∅)) as [E|E].
    + exfalso. apply Hs. assert (s = {[x]}) as ->; [|apply size_singleton].
      apply set_eq. intros y. rewrite elem_of_singleton. split; [|by intros ->].
      intros Hy. destruct (decide (y = x)) as [|Hn]; [done|].
      assert (y ∈ s ∖ {[x]}) as Hy' by set_solver. rewrite E in Hy'. set_solver.
    + apply set_choose_L in E as [y Hy]. exists x, y. set_solver.
  - intros (e1 & e2 & H1 & H2 & Hn) [x Ex]%size_1_elem_of. apply leibniz_equiv in Ex. set_solver.
Qed.

Lemma elem_of_conflicting_event_ids c x :
  x ∈ conflicting_event_ids c ↔ ∃ k s, c !! k = Some s ∧ x ∈ s.
Proof.
  unfold conflicting_event_ids. rewrite elem_of_list_to_set, list_elem_of_join. split.
  - intros (l & Hx & Hl). apply list_elem_of_fmap in Hl as ([k s] & -> & Hs).
    apply elem_of_btree_iter in Hs. apply elem_of_bset_iter in Hx. eauto.
  - intros (k & s & Hs & Hx). exists (bset_iter s). split; [by apply elem_of_bset_iter|].
    apply list_elem_of_fmap. exists (k, s). by rewrite elem_of_btree_iter.
Qed.

Lemma unconflicted_lookup states k e :
  unconflicted (partition states) !! k = Some e ↔
  votes states k e ∧ ∀ e', votes states k e' → e' = e.
Proof.
  rewrite partition_unconflicted, lookup_omap.
  pose proof (group_spec states k) as G. destruct (group states !! k) as [s|]; simpl.
  - destruct G as [_ G]. rewrite singleton_event_spec. setoid_rewrite <-G. split.
    + intros ->. set_solver.
    + intros [H1 H2]. apply set_eq. intros x. rewrite elem_of_singleton. naive_solver.
  - split; [done|]. intros [H1 _]. by destruct (G e).
Qed.

Lemma conflicted_lookup states k s :
  conflicted (partition states) !! k = Some s ↔
  (∀ e, e ∈ s ↔ votes states k e) ∧ ∃ e1 e2, e1 ∈ s ∧ e2 ∈ s ∧ e1 ≠ e2.
Proof.
  rewrite partition_conflicted, lookup_omap.
  pose proof (group_spec states k) as G. destruct (group states !! k) as [s'|]; simpl.
  - destruct G as [Hne G]. rewrite several_events_spec. rewrite size_not_1 by done. split.
    + intros [<- ?]. done.
    + intros [Hs Hd]. assert (s' = s) as -> by (apply set_eq; intros x; by rewrite G, Hs). done.
  - split; [done|]. intros [Hs (e1 & _ & H1 & _)]. apply Hs in H1. by apply G in H1.
Qed.

Lemma votes_perm states states' k e :
  states ≡ₚ states' → votes states k e → votes states' k e.
Proof. intros P (s & Hs & E). exists s. by rewrite <-P. Qed.

(** Only the set of votes matters: the order of the forks does not. *)
Lemma partition_perm states states' :
  states ≡ₚ states' → partition states = partition states'.
Proof.
  intros P. assert (∀ k e, votes states k e ↔ votes states' k e) as V.
  { intros k e. split; apply votes_perm; done. }
  assert (group states = group states') as E; [|unfold partition; by rewrite E].
  apply map_eq. intros k.
  pose proof (group_spec states k) as G. pose proof (group_spec states' k) as G'.
  destruct (group states !! k) as [s|], (group states' !! k) as [s'|]; try done.
  - f_equal. apply set_eq. intros x. by rewrite (proj2 G), (proj2 G'), V.
  - destruct G as [Hne G]. apply set_choose_L in Hne as [x Hx]. apply G, V in Hx. by apply G' in Hx.
  - destruct G' as [Hne G']. apply set_choose_L in Hne as [x Hx]. apply G', V in Hx. by apply G in Hx.
Qed.

(** ** Properties *)

(** Partitioning is exact: a slot is unconflicted with event [e] when some
    fork votes for [e] and no fork votes for anything else; it is conflicted
    with candidate set [s] when [s] is exactly the set of events voted for and
    has at least two members; and the split does not depend on the order of
    the forks. *)
Theorem partition_exact (states : list StateMap) (k : StateKey) :
  (∀ e, unconflicted (partition states) !! k = Some e ↔
        votes states k e ∧ ∀ e', votes states k e' → e' = e)
  ∧ (∀ s, conflicted (partition states) !! k = Some s ↔
        (∀ e, e ∈ s ↔ votes states k e) ∧ ∃ e1 e2, e1 ∈ s ∧ e2 ∈ s ∧ e1 ≠ e2)
  ∧ (∀ states', states ≡ₚ states' → partition states' = partition states).
Proof.
  split_and!; [apply unconflicted_lookup|apply conflicted_lookup|].
  intros states' P. by apply partition_perm.
Qed.
