(* ===== verification/StateEvent.v ===== *)
(** * The resolution event: power levels, the [Event] trait and its
    implementation ([src/src/stateres/event.rs], [src/src/stateres/power.rs]
    and the builders of [src/src/apimodel/event.rs])

    [Event] is the trait the resolution engine is generic over; [StateEvent]
    is the record the API model builds from the wire and the instance the
    witnesses of the engine's theorems use. *)

From S2P Require Import Prelude Bytes StateMap.

Local Open Scope Z_scope.

(** ** Power levels *)

Record PowerLevels := mkPowerLevels {
  users : gmap string Z;
  users_default : Z;
  events : gmap string Z;
  events_default : Z;
  state_default : Z;
  invite : Z;
  kick : Z;
  ban : Z;
}.

(** [#[derive(Default)]]: empty maps and zero levels. *)
Definition power_levels_default : PowerLevels := mkPowerLevels ∅ 0 ∅ 0 0 0 0 0.

Definition for_user (p : PowerLevels) (user : string) : Z :=
  default (users_default p) (users p !! user).

Definition required_for (p : PowerLevels) (event_type : string) (is_state : bool) : Z :=
  let fallback := if is_state then state_default p else events_default p in
  default fallback (events p !! event_type).

(** ** Events *)

Class Event (E : Type) := {
  event_id : E → EventId;
  event_type : E → string;
  state_key : E → string;
  power_level : E → Z;
  origin_server_ts : E → N;
  auth_event_ids : E → list EventId;
  sender : E → string;
  power_levels : E → option PowerLevels;
  membership : E → option string;
  join_rule : E → option string;
  join_authorised_via_users_server : E → option string;
}.

(** ** [StateEvent] *)

Record StateEvent := mkStateEvent {
  se_event_id : EventId;
  se_event_type : string;
  se_state_key : string;
  se_sender : string;
  se_origin_server_ts : N;
  se_auth_event_ids : list EventId;
  se_power_level : Z;
  se_power_levels : option PowerLevels;
  se_membership : option string;
  se_join_rule : option string;
  se_join_authorised : option string;
}.

Definition state_event_new (event_id event_type sender : string) : StateEvent :=
  {| se_event_id := event_id; se_event_type := event_type; se_state_key := "";
     se_sender := sender; se_origin_server_ts := 0%N; se_auth_event_ids := [];
     se_power_level := 0; se_power_levels := None; se_membership := None;
     se_join_rule := None; se_join_authorised := None |}.

Definition with_state_key (e : StateEvent) (state_key : string) : StateEvent :=
  mkStateEvent (se_event_id e) (se_event_type e) state_key (se_sender e)
    (se_origin_server_ts e) (se_auth_event_ids e) (se_power_level e) (se_power_levels e)
    (se_membership e) (se_join_rule e) (se_join_authorised e).

Definition with_origin_server_ts (e : StateEvent) (ts : N) : StateEvent :=
  mkStateEvent (se_event_id e) (se_event_type e) (se_state_key e) (se_sender e)
    ts (se_auth_event_ids e) (se_power_level e) (se_power_levels e)
    (se_membership e) (se_join_rule e) (se_join_authorised e).

Definition with_auth_events (e : StateEvent) (auth : list EventId) : StateEvent :=
  mkStateEvent (se_event_id e) (se_event_type e) (se_state_key e) (se_sender e)
    (se_origin_server_ts e) auth (se_power_level e) (se_power_levels e)
    (se_membership e) (se_join_rule e) (se_join_authorised e).

Definition with_power_level (e : StateEvent) (power_level : Z) : StateEvent :=
  mkStateEvent (se_event_id e) (se_event_type e) (se_state_key e) (se_sender e)
    (se_origin_server_ts e) (se_auth_event_ids e) power_level (se_power_levels e)
    (se_membership e) (se_join_rule e) (se_join_authorised e).

(** The projections [with_content] fills in, by event type. *)
Definition with_projections (e : StateEvent) (levels : option PowerLevels)
    (membership join_rule join_authorised : option string) : StateEvent :=
  mkStateEvent (se_event_id e) (se_event_type e) (se_state_key e) (se_sender e)
    (se_origin_server_ts e) (se_auth_event_ids e) (se_power_level e) levels
    membership join_rule join_authorised.

#[export] Instance state_event_event : Event StateEvent := {|
  event_id := se_event_id;
  event_type := se_event_type;
  state_key := se_state_key;
  power_level := se_power_level;
  origin_server_ts := se_origin_server_ts;
  auth_event_ids := se_auth_event_ids;
  sender := se_sender;
  power_levels := se_power_levels;
  membership := se_membership;
  join_rule := se_join_rule;
  join_authorised_via_users_server := se_join_authorised;
|}.
