(* ===== verification/StateAuth.v ===== *)
(** * gm-stateres: the authorisation rules ([src/src/stateres/auth.rs])

    A rule (the trait [AuthRules]) is its single method, and [iterative_auth_checks] is the fold the source's loop is. *)

From S2P Require Import Prelude Bytes StateMap StateEvent.

Local Open Scope Z_scope.

Definition POWER_LEVELS_KEY : StateKey := ("m.room.power_levels", "").
Definition CREATE_TYPE : string := "m.room.create".
Definition MEMBER_TYPE : string := "m.room.member".
Definition JOIN_RULES_KEY : StateKey := ("m.room.join_rules", "").

Section rules.
Context {E : Type} `{Event E}.
Implicit Types (event : E) (state : StateMap) (store : EventStore E).

Definition AuthRules : Type := E → StateMap → EventStore E → bool.

Definition current_power_levels state store : PowerLevels :=
  default power_levels_default
    (id ← state !! POWER_LEVELS_KEY; ev ← store !! id; power_levels ev).

Definition current_join_rule state store : string :=
  default "invite" (id ← state !! JOIN_RULES_KEY; ev ← store !! id; join_rule ev).

Definition membership_of (user : string) state store : string :=
  default "leave" (id ← state !! (MEMBER_TYPE, user); ev ← store !! id; membership ev).

Definition is_bootstrap_join event state store : bool :=
  match state !! (CREATE_TYPE, "") with
  | None => false
  | Some create_id =>
      let creator := sender <$> store !! create_id in
      bool_decide (creator = Some (sender event))
      && bool_decide (auth_event_ids event = [create_id])
  end.

Definition power_level_rules : AuthRules := λ event state store,
  let levels := current_power_levels state store in
  let required := required_for levels (event_type event) true in
  required <=? for_user levels (sender event).

Definition create_rules : AuthRules := λ event state _,
  if String.eqb (event_type event) CREATE_TYPE then
    bool_decide (auth_event_ids event = []) && bool_decide (state_key event = "")
  else bool_decide (is_Some (state !! (CREATE_TYPE, ""))).

Definition all_of (rules : list AuthRules) : AuthRules := λ event state store,
  forallb (λ rule, rule event state store) rules.

(** [matches!(s, "a" | "b" | ...)]. *)
Definition one_of (s : string) (alts : list string) : bool := existsb (String.eqb s) alts.

Definition membership_rules : AuthRules := λ event state store,
  if negb (String.eqb (event_type event) MEMBER_TYPE) then true else
  match membership event with
  | None => false
  | Some m =>
      let snd := sender event in
      let target := state_key event in
      let levels := current_power_levels state store in
      let sender_level := for_user levels snd in
      let sender_membership := membership_of snd state store in
      let target_membership := membership_of target state store in
      if String.eqb m "join" then
        if negb (String.eqb snd target) || String.eqb target_membership "ban" then false else
        if is_bootstrap_join event state store then true else
        if one_of target_membership ["invite"; "join"] then true else
        let rule := current_join_rule state store in
        if String.eqb rule "public" then true else
        if one_of rule ["restricted"; "knock_restricted"] then
          match join_authorised_via_users_server event with
          | Some authoriser =>
              String.eqb (membership_of authoriser state store) "join"
              && (invite levels <=? for_user levels authoriser)
          | None => false
          end
        else false
      else if String.eqb m "invite" then
        String.eqb sender_membership "join"
        && negb (one_of target_membership ["join"; "ban"])
        && (invite levels <=? sender_level)
      else if String.eqb m "leave" then
        if String.eqb snd target then one_of sender_membership ["join"; "invite"; "knock"]
        else String.eqb sender_membership "join"
             && (kick levels <=? sender_level)
             && (for_user levels target <? sender_level)
      else if String.eqb m "ban" then
        String.eqb sender_membership "join"
        && (ban levels <=? sender_level)
        && (for_user levels target <? sender_level)
      else if String.eqb m "knock" then
        String.eqb snd target
        && one_of (current_join_rule state store) ["knock"; "knock_restricted"]
        && negb (one_of target_membership ["join"; "ban"])
      else false
  end.

Definition changed (c : Z * Z) : bool := negb (c.1 =? c.2).

(** The entries of one map of levels, each omitted entry at its default. *)
Definition level_pairs (old new : gmap string Z) (old_default new_default : Z) : list (Z * Z) :=
  (λ key, (default old_default (old !! key), default new_default (new !! key)))
  <$> bset_iter (dom old ∪ dom new).

Definition level_changes (old new : PowerLevels) : list (Z * Z) :=
  List.filter changed
    [(users_default old, users_default new);
     (events_default old, events_default new);
     (state_default old, state_default new);
     (invite old, invite new);
     (kick old, kick new);
     (ban old, ban new)]
  ++ List.filter changed
       (level_pairs (users old) (users new) (users_default old) (users_default new))
  ++ List.filter changed
       (level_pairs (events old) (events new) (events_default old) (events_default new)).

Definition power_level_mutation_rules : AuthRules := λ event state store,
  if negb (String.eqb (event_type event) POWER_LEVELS_KEY.1) then true else
  match power_levels event with
  | None => false
  | Some new_levels =>
      let old_levels := current_power_levels state store in
      let sender_level := for_user old_levels (sender event) in
      forallb (λ c, (c.1 <=? sender_level) && (c.2 <=? sender_level))
        (level_changes old_levels new_levels)
  end.

Definition slot_of event : StateKey := (event_type event, state_key event).

Definition auth_step (store : EventStore E) (rules : AuthRules) (state : StateMap) (id : EventId) :
    StateMap :=
  match store !! id with
  | None => state
  | Some event => if rules event state store then <[slot_of event := id]> state else state
  end.

Definition iterative_auth_checks (evs : list EventId) (base : StateMap)
    (store : EventStore E) (rules : AuthRules) : StateMap :=
  foldl (auth_step store rules) base evs.

(** ** Lemmas *)

Lemma one_of_spec s alts : one_of s alts = true ↔ s ∈ alts.
Proof.
  unfold one_of. rewrite existsb_exists. split.
  - intros (x & Hx & ->%String.eqb_eq). by apply list_elem_of_In.
  - intros Hs. exists s. split; [by apply list_elem_of_In|apply String.eqb_refl].
Qed.

Lemma one_of_false s alts : one_of s alts = false ↔ s ∉ alts.
Proof. rewrite <-one_of_spec. by destruct (one_of s alts). Qed.

Lemma elem_of_level_changes old new c :
  c ∈ level_changes old new ↔
  c.1 ≠ c.2 ∧
  (c ∈ [(users_default old, users_default new); (events_default old, events_default new);
        (state_default old, state_default new); (invite old, invite new);
        (kick old, kick new); (ban old, ban new)]
   ∨ (∃ u, u ∈ dom (users old) ∪ dom (users new) ∧ c = (for_user old u, for_user new u))
   ∨ (∃ t, t ∈ dom (events old) ∪ dom (events new) ∧
           c = (required_for old t false, required_for new t false))).
Proof.
  assert (∀ l, c ∈ List.filter changed l ↔ c.1 ≠ c.2 ∧ c ∈ l) as F.
  { intros l. rewrite !list_elem_of_In, filter_In. unfold changed.
    rewrite negb_true_iff, Z.eqb_neq. tauto. }
  unfold level_changes, level_pairs. rewrite !elem_of_app, !F, !list_elem_of_fmap.
  setoid_rewrite elem_of_bset_iter. unfold for_user, required_for.
  split; [intros [?|[?|?]]|intros [? [?|[?|?]]]]; destruct_and?; naive_solver.
Qed.

Lemma iterative_auth_checks_app l1 l2 base store rules :
  iterative_auth_checks (l1 ++ l2) base store rules
  = iterative_auth_checks l2 (iterative_auth_checks l1 base store rules) store rules.
Proof. apply foldl_app. Qed.

Lemma iterative_auth_checks_snoc l id base store rules :
  iterative_auth_checks (l ++ [id]) base store rules
  = auth_step store rules (iterative_auth_checks l base store rules) id.
Proof. apply iterative_auth_checks_app. Qed.

(** [accepted l i base store rules id]: the [i]th event is [id] and passed its check
    against the state resolved from the events before it. *)
Definition accepted_at (l : list EventId) (i : nat) (base : StateMap)
    (store : EventStore E) (rules : AuthRules) (id : EventId) (slot : StateKey) : Prop :=
  l !! i = Some id ∧ ∃ ev, store !! id = Some ev ∧ slot_of ev = slot ∧
    rules ev (iterative_auth_checks (take i l) base store rules) store = true.

Lemma accepted_at_app l l' i base store rules id slot :
  accepted_at l i base store rules id slot → accepted_at (l ++ l') i base store rules id slot.
Proof.
  intros [Hi Hev]. split; [by apply lookup_app_l_Some|].
  rewrite take_app_le; [done|]. apply lookup_lt_Some in Hi. lia.
Qed.

Lemma accepted_at_snoc_inv l x i base store rules id slot :
  accepted_at (l ++ [x]) i base store rules id slot →
  accepted_at l i base store rules id slot ∨
  (i = length l ∧ id = x ∧ ∃ ev, store !! x = Some ev ∧ slot_of ev = slot ∧
     rules ev (iterative_auth_checks l base store rules) store = true).
Proof.
  intros [Hi Hev]. destruct (decide (i < length l)%nat).
  - left. rewrite lookup_app_l in Hi by done. rewrite take_app_le in Hev by lia. by split.
  - right. apply lookup_lt_Some in Hi as HL. rewrite length_app in HL. simpl in HL.
    assert (i = length l) as -> by lia. rewrite list_lookup_middle in Hi by done.
    simplify_eq. rewrite take_app_le, firstn_all in Hev by lia. done.
Qed.

(** What a slot holds after the walk: the last event accepted for it, or the
    base's entry when none was. *)
Definition resolved_slot (l : list EventId) (base : StateMap) (store : EventStore E)
    (rules : AuthRules) (slot : StateKey) (held : option EventId) : Prop :=
  (∃ i id, accepted_at l i base store rules id slot
     ∧ (∀ j id', accepted_at l j base store rules id' slot → (j ≤ i)%nat)
     ∧ held = Some id)
  ∨ ((∀ i id, ¬ accepted_at l i base store rules id slot) ∧ held = base !! slot).

Lemma resolved_slot_skip l x base store rules slot held :
  (∀ ev, store !! x = Some ev → slot_of ev = slot →
         rules ev (iterative_auth_checks l base store rules) store = false) →
  resolved_slot l base store rules slot held →
  resolved_slot (l ++ [x]) base store rules slot held.
Proof.
  intros Hx Hl. assert (∀ i id, accepted_at (l ++ [x]) i base store rules id slot →
    accepted_at l i base store rules id slot) as Hinv.
  { intros i id [?|(-> & -> & ev & ? & ? & ?)]%accepted_at_snoc_inv; [done|].
    rewrite (Hx ev) in *; done. }
  destruct Hl as [(i & id & Ha & Hm & Hl)|[Hn Hl]]; [left; exists i, id|right]; split_and!;
    [by apply accepted_at_app|naive_solver|done|naive_solver|done].
Qed.

Lemma iterative_auth_checks_lookup l base store rules slot :
  resolved_slot l base store rules slot (iterative_auth_checks l base store rules !! slot).
Proof.
  induction l as [|x l IH] using rev_ind.
  { right. split; [|done]. intros i id [Hi _]. by rewrite lookup_nil in Hi. }
  rewrite iterative_auth_checks_snoc. unfold auth_step.
  destruct (store !! x) as [ev|] eqn:Ex; [|apply resolved_slot_skip; [congruence|done]].
  destruct (rules ev _ store) eqn:Er; [|apply resolved_slot_skip; [congruence|done]].
  destruct (decide (slot_of ev = slot)) as [<-|Hne].
  - left. exists (length l), x. split_and!; [|by intros j id' [Hj%lookup_lt_Some _];
      rewrite length_app in Hj; simpl in Hj; lia|apply lookup_insert_eq].
    split; [by rewrite list_lookup_middle|]. exists ev.
    by rewrite take_app_le, firstn_all by lia.
  - rewrite lookup_insert_ne by done. apply resolved_slot_skip; [congruence|done].
Qed.
End rules.
Arguments AuthRules : clear implicits.
#[global] Arguments one_of : simpl never.

(** ** Declarative membership transitions *)

Section transitions.
Context {E : Type} `{Event E}.
Variables (event : E) (state : StateMap) (store : EventStore E).

Let levels := current_power_levels state store.
Let level (u : string) : Z := for_user levels u.
Let is_member (u m : string) : Prop := membership_of u state store = m.
Let rule := current_join_rule state store.

(** The [m.room.member] transitions the rules admit: [transition m] when
    setting the membership of the event's state key to [m] is allowed. *)
Inductive transition : string → Prop :=
  | bootstrap_join :
      sender event = state_key event → ¬ is_member (state_key event) "ban" →
      (∃ id create, state !! (CREATE_TYPE, "") = Some id ∧ store !! id = Some create
         ∧ sender create = sender event ∧ auth_event_ids event = [id]) →
      transition "join"
  | invited_join :
      sender event = state_key event →
      is_member (state_key event) "invite" ∨ is_member (state_key event) "join" →
      transition "join"
  | public_join :
      sender event = state_key event → ¬ is_member (state_key event) "ban" →
      rule = "public" → transition "join"
  | vouched_join voucher :
      sender event = state_key event → ¬ is_member (state_key event) "ban" →
      rule = "restricted" ∨ rule = "knock_restricted" →
      join_authorised_via_users_server event = Some voucher →
      is_member voucher "join" → invite levels ≤ level voucher → transition "join"
  | sent_invite :
      is_member (sender event) "join" → ¬ is_member (state_key event) "join" →
      ¬ is_member (state_key event) "ban" → invite levels ≤ level (sender event) →
      transition "invite"
  | own_leave :
      sender event = state_key event →
      is_member (sender event) "join" ∨ is_member (sender event) "invite"
        ∨ is_member (sender event) "knock" →
      transition "leave"
  | kicked :
      sender event ≠ state_key event → is_member (sender event) "join" →
      kick levels ≤ level (sender event) → level (state_key event) < level (sender event) →
      transition "leave"
  | banned :
      is_member (sender event) "join" → ban levels ≤ level (sender event) →
      level (state_key event) < level (sender event) → transition "ban"
  | knocked :
      sender event = state_key event → rule = "knock" ∨ rule = "knock_restricted" →
      ¬ is_member (state_key event) "join" → ¬ is_member (state_key event) "ban" →
      transition "knock".
End transitions.

(** Turn the boolean tests of a rule into the propositions they decide. *)
Ltac reflect_tests :=
  rewrite ?andb_true_iff, ?orb_true_iff, ?orb_false_iff, ?andb_false_iff,
    ?negb_true_iff, ?negb_false_iff,
    ?String.eqb_eq, ?String.eqb_neq, ?one_of_spec, ?one_of_false, ?elem_of_cons, ?elem_of_nil,
    ?Z.leb_le, ?Z.ltb_lt, ?Z.leb_gt, ?Z.ltb_ge, ?bool_decide_eq_true in *.

Section membership.
Context {E : Type} `{Event E}.
Implicit Types (event : E) (state : StateMap) (store : EventStore E).

Lemma is_bootstrap_join_spec event state store :
  is_bootstrap_join event state store = true ↔
  ∃ id create, state !! (CREATE_TYPE, "") = Some id ∧ store !! id = Some create
    ∧ sender create = sender event ∧ auth_event_ids event = [id].
Proof.
  unfold is_bootstrap_join. destruct (state !! (CREATE_TYPE, "")) as [id|]; [|naive_solver].
  rewrite andb_true_iff, !bool_decide_eq_true, fmap_Some. naive_solver.
Qed.

Lemma membership_rules_sound event state store m :
  event_type event = MEMBER_TYPE → membership event = Some m →
  membership_rules event state store = true → transition event state store m.
Proof.
  intros Ht Hm. unfold membership_rules. rewrite Ht, Hm, String.eqb_refl; simpl.
  repeat match goal with
  | |- (if String.eqb m ?s then _ else _) = true → _ => destruct (String.eqb_spec m s) as [->|]
  end; [..|done].
  - destruct (_ || _) eqn:E1; [done|]. reflect_tests. destruct E1 as [E1 E2].
    destruct (is_bootstrap_join _ _ _) eqn:E3.
    { intros _. apply bootstrap_join; [done..|]. by apply is_bootstrap_join_spec. }
    destruct (one_of _ ["invite"; "join"]) eqn:E4; reflect_tests.
    { intros _. apply invited_join; naive_solver. }
    destruct (String.eqb_spec (current_join_rule state store) "public").
    { intros _. by apply public_join. }
    destruct (one_of _ ["restricted"; "knock_restricted"]) eqn:E5; [|done]. reflect_tests.
    destruct (join_authorised_via_users_server event) as [a|] eqn:E6; [|done].
    reflect_tests. intros [? ?]. apply (vouched_join _ _ _ a); naive_solver.
  - reflect_tests. intros [[? ?] ?]. apply sent_invite; naive_solver.
  - destruct (String.eqb_spec (sender event) (state_key event)); reflect_tests.
    + intros ?. apply own_leave; naive_solver.
    + intros [[? ?] ?]. by apply kicked.
  - reflect_tests. intros [[? ?] ?]. by apply banned.
  - reflect_tests. intros [[? ?] ?]. apply knocked; naive_solver.
Qed.

Lemma membership_rules_complete event state store m :
  event_type event = MEMBER_TYPE → membership event = Some m →
  transition event state store m → membership_rules event state store = true.
Proof.
  intros Ht Hm Htr. unfold membership_rules. rewrite Ht, Hm, String.eqb_refl; simpl.
  assert (∀ s, s ≠ "ban" → String.eqb s "ban" = false) as Hb by (intros; by apply String.eqb_neq).
  destruct Htr as [Hs Hn Hc|Hs Hi|Hs Hn Hr|a Hs Hn Hr Ha Hj Hl|Hj Hn1 Hn2 Hl|Hs Hi|Hs Hj Hk Hl
                  |Hj Hk Hl|Hs Hr Hn1 Hn2]; simpl.
  - rewrite Hs, String.eqb_refl, (Hb _ Hn); simpl.
    by rewrite (proj2 (is_bootstrap_join_spec _ _ _)).
  - rewrite Hs, String.eqb_refl; simpl.
    rewrite (proj2 (one_of_spec _ ["invite"; "join"])) by (rewrite !elem_of_cons; naive_solver).
    rewrite Hb by (destruct Hi; congruence). by destruct (is_bootstrap_join _ _ _).
  - rewrite Hs, String.eqb_refl, (Hb _ Hn), Hr; simpl.
    destruct (is_bootstrap_join _ _ _); [done|]. by destruct (one_of _ _).
  - rewrite Hs, String.eqb_refl, (Hb _ Hn), Ha, Hj; simpl.
    rewrite (proj2 (Z.leb_le _ _) Hl).
    destruct (is_bootstrap_join _ _ _); [done|]. destruct (one_of _ ["invite"; "join"]); [done|].
    by destruct Hr as [-> | ->].
  - rewrite Hj, (proj2 (Z.leb_le _ _) Hl), (proj2 (one_of_false _ _)); [done|].
    rewrite !elem_of_cons, elem_of_nil. naive_solver.
  - rewrite Hs, String.eqb_refl. rewrite <-Hs. apply one_of_spec. rewrite !elem_of_cons. naive_solver.
  - rewrite (proj2 (String.eqb_neq _ _) Hs), Hj; simpl.
    by rewrite (proj2 (Z.leb_le _ _) Hk), (proj2 (Z.ltb_lt _ _) Hl).
  - by rewrite Hj, (proj2 (Z.leb_le _ _) Hk), (proj2 (Z.ltb_lt _ _) Hl).
  - rewrite Hs, String.eqb_refl, (proj2 (one_of_spec (current_join_rule state store) _)); simpl.
    + rewrite (proj2 (one_of_false _ _)); [done|]. rewrite !elem_of_cons, elem_of_nil. naive_solver.
    + rewrite !elem_of_cons. naive_solver.
Qed.
End membership.

(** A change is within reach when it is none, or both values are at most the
    sender's level. *)
Definition within_reach (level o n : Z) : Prop := o = n ∨ (o ≤ level ∧ n ≤ level).

Lemma level_changes_reach old new level :
  forallb (λ c, (c.1 <=? level) && (c.2 <=? level)) (level_changes old new) = true ↔
  ∀ c, c ∈ level_changes old new → within_reach level c.1 c.2.
Proof.
  rewrite forallb_forall. split; intros Hc c Hin.
  - apply list_elem_of_In, Hc in Hin. right. reflect_tests. done.
  - apply list_elem_of_In in Hin. destruct (Hc c Hin) as [E|[? ?]]; [|by reflect_tests].
    by apply elem_of_level_changes in Hin as [? _].
Qed.

Lemma for_user_default p u : u ∉ dom (users p) → for_user p u = users_default p.
Proof. intros Hu%not_elem_of_dom. unfold for_user. by rewrite Hu. Qed.

Lemma required_for_default p t : t ∉ dom (events p) → required_for p t false = events_default p.
Proof. intros Ht%not_elem_of_dom. unfold required_for. by rewrite Ht. Qed.

Lemma level_changes_within old new level :
  (∀ c, c ∈ level_changes old new → within_reach level c.1 c.2) ↔
  within_reach level (users_default old) (users_default new)
  ∧ within_reach level (events_default old) (events_default new)
  ∧ within_reach level (state_default old) (state_default new)
  ∧ within_reach level (invite old) (invite new)
  ∧ within_reach level (kick old) (kick new)
  ∧ within_reach level (ban old) (ban new)
  ∧ (∀ u, within_reach level (for_user old u) (for_user new u))
  ∧ (∀ t, within_reach level (required_for old t false) (required_for new t false)).
Proof.
  setoid_rewrite elem_of_level_changes. split.
  - intros Hc.
    assert (∀ o n, (o ≠ n → within_reach level o n) → within_reach level o n) as Hdec.
    { intros o n Hd. destruct (decide (o = n)); [by left|auto]. }
    assert (∀ o n, (o, n) ∈ [(users_default old, users_default new);
        (events_default old, events_default new); (state_default old, state_default new);
        (invite old, invite new); (kick old, kick new); (ban old, ban new)] →
        within_reach level o n) as Hs.
    { intros o n Hin. apply Hdec. intros. apply (Hc (o, n)). auto. }
    split_and!; [apply Hs; set_solver..| |].
    + intros u. destruct (decide (u ∈ dom (users old) ∪ dom (users new))) as [|Hu].
      * apply Hdec. intros. apply (Hc (for_user old u, for_user new u)). eauto 10.
      * rewrite !for_user_default by set_solver. apply Hs. set_solver.
    + intros t. destruct (decide (t ∈ dom (events old) ∪ dom (events new))) as [|Ht].
      * apply Hdec. intros. apply (Hc (required_for old t false, required_for new t false)). eauto 10.
      * rewrite !required_for_default by set_solver. apply Hs. set_solver.
  - intros (H1 & H2 & H3 & H4 & H5 & H6 & Hu & Ht) c [_ [Hin|[(u & _ & ->)|(t & _ & ->)]]];
      [|apply Hu|apply Ht].
    rewrite !elem_of_cons, elem_of_nil in Hin. naive_solver.
Qed.

(** ** A small room for the witnesses *)

Module Fixture.
Definition admin : string := "@admin:a.org".
Definition troll : string := "@troll:b.org".
Definition levels : PowerLevels :=
  mkPowerLevels {[admin := 50]} 0 {["m.room.power_levels" := 50]} 0 50 0 50 100.
Definition create : StateEvent := state_event_new "$create" CREATE_TYPE admin.
Definition power : StateEvent :=
  with_projections
    (with_auth_events (state_event_new "$power" "m.room.power_levels" admin) ["$create"])
    (Some levels) None None None.
Definition member (id who target m : string) : StateEvent :=
  with_projections
    (with_auth_events (with_state_key (state_event_new id MEMBER_TYPE who) target)
       ["$create"; "$power"]) None (Some m) None None.
Definition joined : StateEvent := member "$joined" admin admin "join".
Definition banned : StateEvent := member "$banned" admin troll "ban".
Definition store : EventStore StateEvent :=
  {["$create" := create; "$power" := power; "$joined" := joined; "$banned" := banned]}.
Definition state : StateMap :=
  {[ (CREATE_TYPE, "") := "$create"; POWER_LEVELS_KEY := "$power";
     (MEMBER_TYPE, admin) := "$joined"; (MEMBER_TYPE, troll) := "$banned" ]}.
End Fixture.

(** ** Properties *)

(** C8. The membership rules decide exactly the declarative transition
    relation: an [m.room.member] event is authorised if and only if one of the
    join, invite, leave, kick, ban or knock transitions admits it. *)
Theorem membership_rules_exact {E} `{Event E} (event : E) (state : StateMap)
    (store : EventStore E) (m : string) :
  event_type event = MEMBER_TYPE → membership event = Some m →
  membership_rules event state store = true ↔ transition event state store m.
Proof. split; [by apply membership_rules_sound|by apply membership_rules_complete]. Qed.

Lemma membership_rules_exact_witness :
  let ev := Fixture.member "$kick" Fixture.admin Fixture.troll "leave" in
  event_type ev = MEMBER_TYPE ∧
  (membership_rules ev Fixture.state Fixture.store = true ↔
   transition ev Fixture.state Fixture.store "leave").
Proof. intros ev. split; [reflexivity|]. by apply (membership_rules_exact ev). Defined.

(** A banned user stays out: while a user's membership is [ban], the only
    authorised membership events for them are a removal or a renewed ban by
    another, joined user who strictly outranks them and holds the kick or ban
    level. *)
Theorem banned_user_stays_out {E} `{Event E} (event : E) (state : StateMap)
    (store : EventStore E) (m : string) :
  event_type event = MEMBER_TYPE → membership event = Some m →
  membership_of (state_key event) state store = "ban" →
  membership_rules event state store = true →
  let levels := current_power_levels state store in
  sender event ≠ state_key event
  ∧ membership_of (sender event) state store = "join"
  ∧ for_user levels (state_key event) < for_user levels (sender event)
  ∧ (m = "leave" ∧ kick levels ≤ for_user levels (sender event)
     ∨ m = "ban" ∧ ban levels ≤ for_user levels (sender event)).
Proof.
  intros Ht Hm Hb Hr levels.
  apply (membership_rules_sound _ _ _ _ Ht Hm) in Hr.
  assert (∀ u, membership_of u state store = "join" → u ≠ state_key event) by congruence.
  destruct Hr; naive_solver congruence.
Qed.

Lemma banned_user_stays_out_witness :
  let ev := Fixture.member "$kick" Fixture.admin Fixture.troll "leave" in
  sender ev ≠ state_key ev ∧ membership_of (sender ev) Fixture.state Fixture.store = "join".
Proof.
  intros ev.
  destruct (banned_user_stays_out ev Fixture.state Fixture.store "leave") as (H1 & H2 & _);
    [vm_compute; reflexivity..|].
  split; [exact H1|exact H2].
Defined.

(** Power-level changes cannot escalate privileges: a power-levels event
    passes exactly when every level it changes (each scalar, each user's level
    and each message-event type's level, listed or defaulted) was at most, and
    stays at most, the sender's current level. *)
Theorem power_mutation_within_reach {E} `{Event E} (event : E) (state : StateMap)
    (store : EventStore E) :
  event_type event = "m.room.power_levels" →
  let old := current_power_levels state store in
  let reach := within_reach (for_user old (sender event)) in
  power_level_mutation_rules event state store = true ↔
  ∃ new, power_levels event = Some new
    ∧ reach (users_default old) (users_default new)
    ∧ reach (events_default old) (events_default new)
    ∧ reach (state_default old) (state_default new)
    ∧ reach (invite old) (invite new) ∧ reach (kick old) (kick new) ∧ reach (ban old) (ban new)
    ∧ (∀ user, reach (for_user old user) (for_user new user))
    ∧ (∀ ty, reach (required_for old ty false) (required_for new ty false)).
Proof.
  intros Ht old reach. unfold power_level_mutation_rules. rewrite Ht; simpl.
  destruct (power_levels event) as [new|]; [|naive_solver].
  rewrite level_changes_reach, level_changes_within. naive_solver.
Qed.

Lemma power_mutation_within_reach_witness :
  event_type Fixture.power = "m.room.power_levels" ∧
  ∃ new, power_levels Fixture.power = Some new.
Proof.
  split; [reflexivity|].
  destruct (power_mutation_within_reach Fixture.power Fixture.state Fixture.store) as [H _];
    [reflexivity|].
  destruct H as (new & Hn & _); [vm_compute; reflexivity|]. exists new. exact Hn.
Defined.

(** The iterative walk is sound and last-writer-wins: each slot of the
    resolved state holds the last listed event that is in the store, names
    that slot and was authorised against the state resolved from the events
    before it; a slot with no such event keeps its base entry. *)
Theorem iterative_auth_checks_sound {E} `{Event E} (evs : list EventId) (base : StateMap)
    (store : EventStore E) (rules : AuthRules E) (slot : StateKey) :
  resolved_slot evs base store rules slot
    (iterative_auth_checks evs base store rules !! slot).
Proof. apply iterative_auth_checks_lookup. Qed.

(** The create event gates the room: under any rule set that includes the
    create rule, starting from a state without [m.room.create], nothing is
    accepted unless some listed create event is the room root (no auth events
    and an empty state key). *)
Theorem create_gates_room {E} `{Event E} (evs : list EventId) (base : StateMap)
    (store : EventStore E) (rules : list (AuthRules E)) :
  base !! (CREATE_TYPE, "") = None → create_rules ∈ rules →
  (∀ id ev, id ∈ evs → store !! id = Some ev → event_type ev = CREATE_TYPE →
            auth_event_ids ev ≠ [] ∨ state_key ev ≠ "") →
  iterative_auth_checks evs base store (all_of rules) = base.
Proof.
  intros Hb Hin Hevs. induction evs as [|id evs IH] using rev_ind; [done|].
  rewrite iterative_auth_checks_snoc, IH.
  2:{ intros id' ev Hid. apply Hevs. set_solver. }
  unfold auth_step. destruct (store !! id) as [ev|] eqn:Eid; [|done].
  destruct (all_of rules ev base store) eqn:Er; [|done].
  unfold all_of in Er. rewrite forallb_forall in Er.
  specialize (Er create_rules (proj1 (list_elem_of_In _ _) Hin)). unfold create_rules in Er.
  destruct (String.eqb_spec (event_type ev) CREATE_TYPE) as [Et|]; reflect_tests.
  - destruct (Hevs id ev); [set_solver|done..| |]; naive_solver.
  - rewrite Hb in Er. by destruct Er.
Qed.

Lemma create_gates_room_witness :
  iterative_auth_checks ["$power"; "$joined"] ∅ Fixture.store
    (all_of [create_rules; power_level_rules]) = ∅.
Proof.
  apply (create_gates_room ["$power"; "$joined"] ∅ Fixture.store); [reflexivity|left|].
  intros id ev Hid Hev. vm_compute in Hev.
  assert (id = "$power" ∨ id = "$joined") as [-> | ->] by set_solver;
    injection Hev as <-; intros Hc; vm_compute in Hc; discriminate.
Defined.

(** Kick power lifts a ban: the rules authorise the removal of a banned
    user by any joined, outranking sender with the kick level, whatever the
    ban level is. *)
Theorem kick_power_lifts_ban {E} `{Event E} (event : E) (state : StateMap)
    (store : EventStore E) :
  let levels := current_power_levels state store in
  event_type event = MEMBER_TYPE → membership event = Some "leave" →
  sender event ≠ state_key event →
  membership_of (state_key event) state store = "ban" →
  membership_of (sender event) state store = "join" →
  kick levels ≤ for_user levels (sender event) < ban levels →
  for_user levels (state_key event) < for_user levels (sender event) →
  membership_rules event state store = true.
Proof. intros levels ? ? ? ? ? [? ?] ?. eapply membership_rules_complete; [done..|]. by apply kicked. Qed.

Lemma kick_power_lifts_ban_witness :
  let ev := Fixture.member "$unban" Fixture.admin Fixture.troll "leave" in
  ban (current_power_levels Fixture.state Fixture.store) = 100
  ∧ for_user (current_power_levels Fixture.state Fixture.store) (sender ev) = 50
  ∧ membership_rules ev Fixture.state Fixture.store = true.
Proof.
  intros ev. split; [vm_compute; reflexivity|]. split; [vm_compute; reflexivity|].
  apply (kick_power_lifts_ban ev); try (vm_compute; reflexivity); [discriminate|].
  split; vm_compute; [discriminate|reflexivity].
Defined.
