(* ===== verification/StateOrder.v ===== *)
(** * gm-stateres: the resolution orderings ([src/src/stateres/order.rs])

    The auth difference, the reverse topological power sort (Kahn's algorithm
    over a max-heap) and the mainline ordering.  The two [while] loops that
    follow auth links run on fuel and return [None] when it runs out; the
    theorems give the fuel that is enough on an acyclic auth graph. *)

From S2P Require Import Prelude Bytes StateMap StateEvent.

Definition POWER_LEVELS_TYPE : string := "m.room.power_levels".

(** ** Auth difference *)

Definition auth_difference (forks : list (gset EventId)) : gset EventId :=
  match forks with
  | [] => ∅
  | first :: rest =>
      let union := ⋃ (first :: rest) in
      let inter := foldl (∩) first rest in
      union ∖ inter
  end.

(** ** The heap key *)

Record PowerKey := mkPowerKey { pk_power : Z; pk_ts : N; pk_id : EventId }.

Definition power_key_cmp (a b : PowerKey) : comparison :=
  match Z.compare (pk_power a) (pk_power b) with
  | Eq =>
      match N.compare (pk_ts b) (pk_ts a) with
      | Eq => String.compare (pk_id b) (pk_id a)
      | c => c
      end
  | c => c
  end.

(** [BinaryHeap] as the bag of its elements: [pop] removes a greatest one. *)
Definition heap_push (h : list PowerKey) (k : PowerKey) : list PowerKey := k :: h.

Fixpoint heap_pop (h : list PowerKey) : option (PowerKey * list PowerKey) :=
  match h with
  | [] => None
  | k :: h' =>
      match heap_pop h' with
      | None => Some (k, [])
      | Some (m, r) =>
          match power_key_cmp m k with
          | Gt => Some (m, k :: r)
          | _ => Some (k, h')
          end
      end
  end.

(** Sort keys of the mainline ordering: [(depth, origin_server_ts, event_id)]. *)
Abbreviation MainlineKey := ((nat * N) * string)%type.

Section order.
Context {E : Type} `{Event E}.
Implicit Types (store : EventStore E) (ev : E).

(** ** Reverse topological power sort *)

Record SortState := mkSort {
  key_of : gmap EventId PowerKey;
  remaining : gmap EventId nat;
  dependents : gmap EventId (list EventId);
}.

Definition event_key ev : PowerKey := mkPowerKey (power_level ev) (origin_server_ts ev) (event_id ev).

(** The in-set auth dependencies of an event. *)
Definition event_deps (present : gset EventId) ev : gset EventId :=
  list_to_set (filter (λ a, a ∈ present) (auth_event_ids ev)).

(** [dependents.entry(dep).or_default().push(id)]. *)
Definition add_dependent (id : EventId) (d : gmap EventId (list EventId)) (dep : EventId) :
    gmap EventId (list EventId) :=
  <[dep := default [] (d !! dep) ++ [id]]> d.

Definition sort_add (present : gset EventId) (st : SortState) ev : SortState :=
  let id := event_id ev in
  let deps := event_deps present ev in
  mkSort (<[id := event_key ev]> (key_of st))
         (<[id := size deps]> (remaining st))
         (foldl (add_dependent id) (dependents st) (bset_iter deps)).

Definition sort_init (evs : list E) : SortState :=
  let present : gset EventId := list_to_set (event_id <$> evs) in
  foldl (sort_add present) (mkSort ∅ ∅ ∅) evs.

Definition sort_seed (st : SortState) : list PowerKey :=
  foldl (λ h e, match key_of st !! e.1 with Some k => heap_push h k | None => h end) []
    (filter (λ e, e.2 = 0) (btree_iter (remaining st))).

Definition release_child (keys : gmap EventId PowerKey)
    (acc : gmap EventId nat * list PowerKey) (child : EventId) :
    gmap EventId nat * list PowerKey :=
  match acc.1 !! child with
  | None => acc
  | Some count =>
      let count := count - 1 in
      let rem := <[child := count]> acc.1 in
      if Nat.eqb count 0 then
        match keys !! child with
        | Some k => (rem, heap_push acc.2 k)
        | None => (rem, acc.2)
        end
      else (rem, acc.2)
  end.

Fixpoint sort_loop (fuel : nat) (st : SortState) (rem : gmap EventId nat)
    (ready : list PowerKey) (ordered : list EventId) : option (list EventId) :=
  match heap_pop ready with
  | None => Some ordered
  | Some (key, ready) =>
      match fuel with
      | O => None
      | S fuel =>
          let children := default [] (dependents st !! pk_id key) in
          let '(rem, ready) := foldl (release_child (key_of st)) (rem, ready) children in
          sort_loop fuel st rem ready (ordered ++ [pk_id key])
      end
  end.

Definition reverse_topological_power_sort (fuel : nat) (ids : list EventId)
    (store : EventStore E) : option (list EventId) :=
  let evs := omap (λ id, store !! id) ids in
  let st := sort_init evs in
  sort_loop fuel st (remaining st) (sort_seed st) [].

(** ** Mainline ordering *)

Definition power_levels_in_auth (id : EventId) (store : EventStore E) : option EventId :=
  ev ← store !! id;
  List.find (λ auth,
    match store !! auth with
    | Some e => String.eqb (event_type e) POWER_LEVELS_TYPE
    | None => false
    end) (auth_event_ids ev).

Fixpoint mainline_walk (fuel : nat) (cursor : option EventId) (store : EventStore E) :
    option (list EventId) :=
  match cursor with
  | None => Some []
  | Some id =>
      match fuel with
      | O => None
      | S fuel => (cons id) <$> mainline_walk fuel (power_levels_in_auth id store) store
      end
  end.

Definition mainline_index (mainline : list EventId) : gmap EventId nat :=
  foldl (λ index e, <[e.2 := e.1]> index) ∅ (imap (λ p id, (p, id)) (reverse mainline)).

Fixpoint mainline_depth (fuel : nat) (cursor : option EventId) (store : EventStore E)
    (index : gmap EventId nat) : option nat :=
  match cursor with
  | None => Some 0
  | Some id =>
      match index !! id with
      | Some position => Some position
      | None =>
          match fuel with
          | O => None
          | S fuel => mainline_depth fuel (power_levels_in_auth id store) store index
          end
      end
  end.

Definition mainline_key (fuel : nat) (store : EventStore E) (index : gmap EventId nat)
    (id : EventId) : option MainlineKey :=
  depth ← mainline_depth fuel (Some id) store index;
  let ts := default 0%N (origin_server_ts <$> store !! id) in
  Some ((depth, ts), id).

Definition mainline_ordering (fuel : nat) (resolved_power_levels : option EventId)
    (to_order : list EventId) (store : EventStore E) : option (list EventId) :=
  mainline ← mainline_walk fuel resolved_power_levels store;
  let index := mainline_index mainline in
  keyed ← mapM (mainline_key fuel store index) to_order;
  Some (snd <$> merge_sort key_le keyed).
End order.

(** ** The heap order *)

Lemma power_key_cmp_spec a b :
  power_key_cmp a b ≠ Gt ↔
  (pk_power a < pk_power b)%Z ∨
  (pk_power a = pk_power b ∧ ((pk_ts b < pk_ts a)%N ∨ (pk_ts a = pk_ts b ∧ key_le (pk_id b) (pk_id a)))).
Proof.
  unfold power_key_cmp. rewrite key_le_compare.
  destruct (Z.compare_spec (pk_power a) (pk_power b)) as [E1|E1|E1].
  - destruct (N.compare_spec (pk_ts b) (pk_ts a)) as [E2|E2|E2]; intuition (try congruence; try lia).
  - intuition (congruence || lia).
  - intuition (congruence || lia).
Qed.

Lemma power_key_cmp_refl a : power_key_cmp a a = Eq.
Proof.
  unfold power_key_cmp. rewrite Z.compare_refl, N.compare_refl.
  apply string_compare_refl.
Qed.

Lemma power_key_le_trans a b c :
  power_key_cmp a b ≠ Gt → power_key_cmp b c ≠ Gt → power_key_cmp a c ≠ Gt.
Proof.
  rewrite !power_key_cmp_spec.
  intros [?|[? [?|[? ?]]]] [?|[? [?|[? ?]]]]; try lia.
  right. split; [congruence|]. right. split; [congruence|]. by etrans.
Qed.

Lemma power_key_le_antisym a b :
  power_key_cmp a b ≠ Gt → power_key_cmp b a ≠ Gt → a = b.
Proof.
  rewrite !power_key_cmp_spec. destruct a as [pa ta ia], b as [pb tb ib]; simpl.
  intros [?|[? [?|[? ?]]]] [?|[? [?|[? ?]]]]; try lia.
  f_equal; [done..|]. by apply (anti_symm key_le).
Qed.

Lemma power_key_not_gt a b : power_key_cmp a b ≠ Gt ∨ power_key_cmp b a ≠ Gt.
Proof.
  rewrite !power_key_cmp_spec.
  destruct (Z.lt_trichotomy (pk_power a) (pk_power b)) as [?|[->|?]]; [by eauto| |by eauto].
  destruct (N.lt_trichotomy (pk_ts a) (pk_ts b)) as [?|[->|?]]; [by eauto 6| |by eauto 6].
  destruct (total key_le (pk_id b) (pk_id a)); eauto 8.
Qed.

Lemma heap_pop_None h : heap_pop h = None ↔ h = [].
Proof.
  destruct h as [|k h]; [done|]. simpl.
  destruct (heap_pop h) as [[m r]|]; [|done]. by destruct (power_key_cmp m k).
Qed.

Lemma heap_pop_spec h m r :
  heap_pop h = Some (m, r) → h ≡ₚ m :: r ∧ ∀ x, x ∈ h → power_key_cmp x m ≠ Gt.
Proof.
  revert m r. induction h as [|k h IH]; intros m r; [done|]. simpl.
  destruct (heap_pop h) as [[m' r']|] eqn:Eh.
  - destruct (IH m' r' eq_refl) as [P Hmax].
    assert (∀ x, x ∈ h → power_key_cmp m' k ≠ Gt → power_key_cmp x k ≠ Gt) as Hk.
    { intros x Hx Hmk. eapply power_key_le_trans; [by apply Hmax|done]. }
    destruct (power_key_cmp m' k) eqn:Ec; intros [= <- <-].
    1, 2: split; [done|]; intros x [->|Hx]%elem_of_cons;
      [by rewrite power_key_cmp_refl|by apply Hk].
    split; [rewrite P; apply Permutation_swap|].
    intros x [->|Hx]%elem_of_cons; [|by apply Hmax].
    destruct (power_key_not_gt k m'); [done|by rewrite Ec in *].
  - apply heap_pop_None in Eh as ->. intros [= <- <-]. split; [done|].
    intros x ->%list_elem_of_singleton. by rewrite power_key_cmp_refl.
Qed.

(** ** Kahn's algorithm *)

Section kahn.
Context {E : Type} `{Event E} (store : EventStore E).

(** Each event is stored under its own id. *)
Definition coherent : Prop := ∀ id ev, store !! id = Some ev → event_id ev = id.

Hypothesis Hcoh : coherent.

(** The listed ids that the store has. *)
Definition present_ids (ids : list EventId) : list EventId :=
  filter (λ id, is_Some (store !! id)) ids.

Definition deps_in (P : gset EventId) (x : EventId) : gset EventId :=
  match store !! x with Some ev => event_deps P ev | None => ∅ end.

Definition key_in (x : EventId) : PowerKey :=
  match store !! x with Some ev => event_key ev | None => mkPowerKey 0 0 x end.

Lemma key_in_id x : pk_id (key_in x) = x.
Proof. unfold key_in. destruct (store !! x) eqn:Ex; [|done]. by apply Hcoh. Qed.

Lemma deps_in_subset P x : deps_in P x ⊆ P.
Proof.
  unfold deps_in, event_deps. destruct (store !! x); [|set_solver].
  intros a. rewrite elem_of_list_to_set, list_elem_of_filter. naive_solver.
Qed.

Lemma omap_present ids : omap (λ id, store !! id) ids = omap (λ id, store !! id) (present_ids ids).
Proof.
  unfold present_ids. induction ids as [|x ids IH]; [done|]. simpl.
  destruct (store !! x) eqn:Ex.
  - rewrite filter_cons_True by (rewrite Ex; eauto). simpl. rewrite Ex. by f_equal.
  - rewrite filter_cons_False by (rewrite Ex; by intros [? ?]). done.
Qed.

Lemma event_ids_present ids :
  event_id <$> omap (λ id, store !! id) ids = present_ids ids.
Proof.
  unfold present_ids. induction ids as [|x ids IH]; [done|]. simpl.
  destruct (store !! x) as [ev|] eqn:Ex.
  - rewrite filter_cons_True by (rewrite Ex; eauto). csimpl. by rewrite IH, (Hcoh x ev Ex).
  - rewrite filter_cons_False by (rewrite Ex; by intros [? ?]). done.
Qed.

Lemma foldl_add_dependent id dm l d :
  NoDup l →
  default [] (foldl (add_dependent id) dm l !! d)
  = default [] (dm !! d) ++ (if decide (d ∈ l) then [id] else []).
Proof.
  revert dm. induction l as [|a l IH]; intros dm ND; cbn [foldl].
  { rewrite decide_False by set_solver. by rewrite app_nil_r. }
  apply NoDup_cons in ND as [Ha ND]. rewrite IH by done. unfold add_dependent.
  destruct (decide (d = a)) as [->|Hne].
  - rewrite lookup_insert_eq, (decide_False (P := a ∈ l)) by done.
    rewrite decide_True by set_solver. simpl. by rewrite app_nil_r.
  - rewrite lookup_insert_ne by done. f_equal. apply decide_ext. set_solver.
Qed.

(** What the set-up loop has built after the events [l]. *)
Record built (P : gset EventId) (l : list EventId) (st : SortState) : Prop := {
  built_key x : key_of st !! x = if decide (x ∈ l) then Some (key_in x) else None;
  built_rem x : remaining st !! x = if decide (x ∈ l) then Some (size (deps_in P x)) else None;
  built_dependents d : default [] (dependents st !! d) = filter (λ x, d ∈ deps_in P x) l;
}.

Lemma built_sort_add P l st x ev :
  store !! x = Some ev → x ∉ l → built P l st → built P (l ++ [x]) (sort_add P st ev).
Proof.
  intros Hx Hnl [Hk Hr Hd].
  assert (key_in x = event_key ev ∧ deps_in P x = event_deps P ev) as [Ek Ed].
  { unfold key_in, deps_in. by rewrite Hx. }
  assert (∀ A (y : EventId) (a b : A) (m : option A),
    m = (if decide (y ∈ l) then Some a else None) → y ≠ x →
    m = if decide (y ∈ l ++ [x]) then Some a else None) as Hext.
  { intros A y a b m -> Hy. apply decide_ext. set_solver. }
  split; unfold sort_add; rewrite (Hcoh x ev Hx); simpl.
  - intros y. destruct (decide (y = x)) as [->|].
    + rewrite lookup_insert_eq, decide_True by set_solver. by rewrite Ek.
    + rewrite lookup_insert_ne by done. by apply (Hext _ _ _ (key_in y)).
  - intros y. destruct (decide (y = x)) as [->|].
    + rewrite lookup_insert_eq, decide_True by set_solver. by rewrite Ed.
    + rewrite lookup_insert_ne by done. by apply (Hext _ _ _ 0).
  - intros d. rewrite foldl_add_dependent by auto with btree.
    rewrite Hd, filter_app. f_equal. rewrite <-Ed.
    destruct (decide (d ∈ deps_in P x)) as [Hin|Hin].
    + rewrite filter_cons_True, filter_nil by done.
      by rewrite decide_True by (by apply elem_of_bset_iter).
    + rewrite filter_cons_False, filter_nil by done.
      by rewrite decide_False by (by rewrite elem_of_bset_iter).
Qed.

Lemma built_foldl P l :
  NoDup l → (∀ x, x ∈ l → is_Some (store !! x)) →
  built P l (foldl (sort_add P) (mkSort ∅ ∅ ∅) (omap (λ id, store !! id) l)).
Proof.
  induction l as [|x l IH] using rev_ind; intros ND Hs.
  { split; intros y; simpl; rewrite ?decide_False by set_solver; by rewrite lookup_empty. }
  apply NoDup_app in ND as (ND & Hx & _).
  destruct (Hs x) as [ev Hev]; [set_solver|].
  rewrite omap_app. simpl. rewrite Hev, foldl_app. simpl.
  apply built_sort_add; [done| |].
  - intros Hxl. apply (Hx x Hxl). set_solver.
  - apply IH; [done|]. intros y Hy. apply Hs. set_solver.
Qed.

Lemma foldl_seed_keys st (L : list (EventId * nat)) h :
  (∀ e, e ∈ L → key_of st !! e.1 = Some (key_in e.1)) →
  foldl (λ h e, match key_of st !! e.1 with Some k => heap_push h k | None => h end) h L
  ≡ₚ (key_in <$> L.*1) ++ h.
Proof.
  revert h. induction L as [|e L IH]; intros h Hk; [done|]. csimpl.
  rewrite (Hk e) by (by left). rewrite IH by (intros e' ?; apply Hk; by right).
  unfold heap_push. by rewrite <-Permutation_middle.
Qed.

Lemma sort_seed_spec P l st :
  built P l st →
  ∃ R, sort_seed st ≡ₚ key_in <$> R ∧ NoDup R ∧ ∀ x, x ∈ R ↔ x ∈ l ∧ deps_in P x = ∅.
Proof.
  intros [Hk Hr _]. set (L := filter (λ e, e.2 = 0) (btree_iter (remaining st))).
  assert (∀ x n, (x, n) ∈ L ↔ x ∈ l ∧ n = 0 ∧ deps_in P x = ∅) as HL.
  { intros x n. unfold L. rewrite list_elem_of_filter, elem_of_btree_iter, Hr. simpl.
    case_decide; [|naive_solver]. rewrite <-(leibniz_equiv_iff (deps_in P x)), <-size_empty_iff. naive_solver. }
  exists L.*1. split_and!.
  - unfold sort_seed. fold L. rewrite foldl_seed_keys; [by rewrite app_nil_r|].
    intros [x n] [Hx _]%HL. simpl. by rewrite Hk, decide_True.
  - eapply sublist_NoDup; [apply (btree_keys_NoDup (remaining st))|].
    apply fmap_sublist, sublist_filter.
  - intros x. rewrite list_elem_of_fmap. split.
    + intros ([y n] & -> & [? [_ ?]]%HL). done.
    + intros [? ?]. exists (x, 0). by rewrite HL.
Qed.

Lemma foldl_release keys rem h c :
  NoDup c →
  (∀ x, x ∈ c → is_Some (rem !! x) ∧ keys !! x = Some (key_in x)) →
  let '(rem', h') := foldl (release_child keys) (rem, h) c in
  (∀ x, rem' !! x = if decide (x ∈ c) then pred <$> rem !! x else rem !! x)
  ∧ h' ≡ₚ (key_in <$> filter (λ x, pred <$> rem !! x = Some 0) c) ++ h.
Proof.
  revert rem h. induction c as [|a c IH]; intros rem h ND Hc; cbn [foldl].
  { split; [|done]. intros x. by rewrite decide_False by set_solver. }
  apply NoDup_cons in ND as [Ha ND].
  destruct (Hc a) as [[n Hn] Hk]; [by left|].
  assert (∀ x, x ∈ c → x ≠ a) as Hca by (intros x Hx ->; done).
  set (h1 := if Nat.eqb (n - 1) 0 then heap_push h (key_in a) else h).
  replace (release_child keys (rem, h) a) with (<[a := pred n]> rem, h1).
  2:{ unfold release_child, h1. simpl. rewrite Hn, Hk, Nat.sub_1_r. by destruct (Nat.eqb (pred n) 0). }
  specialize (IH (<[a := pred n]> rem) h1 ND).
  destruct (foldl _ _ c) as [rem' h']. destruct IH as [IHr IHh].
  { intros x Hx. rewrite lookup_insert_ne by (by apply not_eq_sym, Hca). apply Hc. by right. }
  split.
  - intros x. rewrite IHr. destruct (decide (x = a)) as [->|Hne].
    + rewrite decide_False, decide_True by set_solver. by rewrite lookup_insert_eq, Hn.
    + rewrite lookup_insert_ne by done. apply decide_ext. set_solver.
  - rewrite IHh. rewrite (filter_ext_elem _ (λ x, pred <$> rem !! x = Some 0)).
    2:{ intros x Hx. by rewrite lookup_insert_ne by (by apply not_eq_sym, Hca). }
    unfold h1. rewrite Nat.sub_1_r. destruct (Nat.eqb_spec (pred n) 0) as [E0|E0].
    + rewrite filter_cons_True by (rewrite Hn; simpl; by rewrite E0). csimpl.
      unfold heap_push. by rewrite <-Permutation_middle.
    + rewrite filter_cons_False; [done|]. rewrite Hn. simpl. congruence.
Qed.

Section loop.
Context (pres : list EventId) (st : SortState).
Let P : gset EventId := list_to_set pres.
Hypothesis Hnd : NoDup pres.
Hypothesis Hb : built P pres st.

(** [x] may come next after [done]: its dependencies are placed, and no other
    unplaced event whose dependencies are placed has a greater key. *)
Definition next_after (done : list EventId) (x : EventId) : Prop :=
  deps_in P x ⊆ list_to_set done ∧
  ∀ y, y ∈ pres → y ∉ done → deps_in P y ⊆ list_to_set done →
       power_key_cmp (key_in y) (key_in x) ≠ Gt.

Record loop_inv (rem : gmap EventId nat) (ready : list PowerKey) (done : list EventId) : Prop := {
  li_ready : ∃ R, ready ≡ₚ key_in <$> R ∧ NoDup (done ++ R)
    ∧ ∀ x, x ∈ done ++ R ↔ x ∈ pres ∧ deps_in P x ⊆ list_to_set done;
  li_rem x : rem !! x =
    if decide (x ∈ pres) then Some (size (deps_in P x ∖ list_to_set done)) else None;
  li_order i x : done !! i = Some x → next_after (take i done) x;
}.

Lemma loop_inv_init : loop_inv (remaining st) (sort_seed st) [].
Proof.
  split.
  - destruct (sort_seed_spec P pres st Hb) as (R & HR & ND & Hx).
    exists R. split_and!; [done..|]. intros x. simpl. rewrite Hx. set_solver.
  - intros x. rewrite (built_rem _ _ _ Hb). case_decide; [|done].
    do 2 f_equal. set_solver.
  - intros i x. by rewrite lookup_nil.
Qed.

Lemma size_difference_snoc (D : gset EventId) done x :
  x ∈ D → x ∉ done →
  size (D ∖ list_to_set (done ++ [x])) = pred (size (D ∖ list_to_set done)).
Proof.
  intros HD Hn.
  replace (D ∖ list_to_set done) with ({[x]} ∪ D ∖ list_to_set (done ++ [x])).
  - rewrite (size_union {[x]}) by set_solver. by rewrite size_singleton.
  - apply set_eq. intros y. destruct (decide (y = x)) as [->|]; set_solver.
Qed.

(** One iteration: [x] is popped from the heap of the ready events [x :: R],
    and its dependents [C] are released. *)
Section step.
Context (rem : gmap EventId nat) (done R : list EventId) (x : EventId).
Hypothesis ND : NoDup (done ++ x :: R).
Hypothesis Hin : ∀ y, y ∈ done ++ x :: R ↔ y ∈ pres ∧ deps_in P y ⊆ list_to_set done.
Hypothesis Hrem : ∀ y, rem !! y =
  if decide (y ∈ pres) then Some (size (deps_in P y ∖ list_to_set done)) else None.
Let C : list EventId := filter (λ y, x ∈ deps_in P y) pres.
Let N : list EventId := filter (λ y, pred <$> rem !! y = Some 0) C.

Lemma step_fresh : (x ∉ done) ∧ (x ∉ R) ∧ NoDup (done ++ R).
Proof.
  revert ND. rewrite <-Permutation_middle. intros [Hn ?]%NoDup_cons.
  rewrite not_elem_of_app in Hn. naive_solver.
Qed.

Lemma step_ready : x ∈ pres ∧ deps_in P x ⊆ list_to_set done.
Proof. apply Hin, elem_of_app. right. by left. Qed.

Lemma elem_of_released_candidates y : y ∈ C ↔ y ∈ pres ∧ x ∈ deps_in P y.
Proof. unfold C. rewrite list_elem_of_filter. tauto. Qed.

Lemma candidate_count y :
  y ∈ C → pred <$> rem !! y = Some (size (deps_in P y ∖ list_to_set (done ++ [x]))).
Proof.
  intros [Hy1 Hy2]%elem_of_released_candidates. rewrite Hrem, decide_True by done. simpl.
  by rewrite size_difference_snoc by (done || apply step_fresh).
Qed.

Lemma elem_of_released y : y ∈ N ↔ y ∈ C ∧ deps_in P y ⊆ list_to_set (done ++ [x]).
Proof.
  unfold N. rewrite list_elem_of_filter. split.
  - intros [E0 Hy]. split; [done|]. rewrite candidate_count in E0 by done. simplify_eq.
    by apply empty_difference_subseteq, size_empty_inv.
  - intros [Hy Hs]. split; [|done]. rewrite candidate_count by done. f_equal.
    by apply size_empty_iff, subseteq_empty_difference.
Qed.

Lemma released_fresh y : y ∈ N → y ∉ done ++ x :: R.
Proof.
  intros [[_ Hy]%elem_of_released_candidates _]%elem_of_released [_ Hd]%Hin.
  apply Hd, elem_of_list_to_set in Hy. by apply step_fresh in Hy.
Qed.

Lemma step_NoDup : NoDup ((done ++ [x]) ++ N ++ R).
Proof.
  destruct step_fresh as (Hxd & HxR & ND').
  rewrite <-app_assoc. simpl. rewrite <-Permutation_middle, app_assoc,
    (Permutation_app_comm done N), <-app_assoc.
  apply NoDup_cons. split; [|apply NoDup_app; split_and!; [| |done]].
  - rewrite !not_elem_of_app. split_and!; [|done..]. intros Hx. apply (released_fresh x Hx).
    apply elem_of_app. right. by left.
  - apply NoDup_filter, NoDup_filter, Hnd.
  - intros y Hy%released_fresh. clear -Hy. set_solver.
Qed.

Lemma step_elems y :
  y ∈ (done ++ [x]) ++ N ++ R ↔ y ∈ pres ∧ deps_in P y ⊆ list_to_set (done ++ [x]).
Proof.
  destruct step_ready as [Hxp Hxdeps].
  rewrite <-app_assoc, !elem_of_app, list_elem_of_singleton, elem_of_released,
    elem_of_released_candidates.
  pose proof (Hin y) as Hy. rewrite elem_of_app, elem_of_cons in Hy.
  assert (deps_in P y ⊆ list_to_set (done ++ [x]) → x ∈ deps_in P y ∨ deps_in P y ⊆ list_to_set done).
  { clear. intros Hs. destruct (decide (x ∈ deps_in P y)); [by left|right]. set_solver. }
  assert (deps_in P y ⊆ list_to_set done → deps_in P y ⊆ list_to_set (done ++ [x]))
    by (clear; set_solver).
  clear -Hy H0 H1 Hxp Hxdeps. naive_solver.
Qed.

Lemma step_rem y (rem2 : gmap EventId nat) :
  rem2 !! y = (if decide (y ∈ C) then pred <$> rem !! y else rem !! y) →
  rem2 !! y =
    if decide (y ∈ pres) then Some (size (deps_in P y ∖ list_to_set (done ++ [x]))) else None.
Proof.
  intros ->. destruct (decide (y ∈ C)) as [Hy|Hy].
  - rewrite candidate_count by done.
    by apply elem_of_released_candidates in Hy as [? _]; rewrite decide_True.
  - rewrite Hrem. case_decide; [|done]. do 2 f_equal. rewrite elem_of_released_candidates in Hy.
    assert (x ∉ deps_in P y) as Hn by tauto. clear -Hn. set_solver.
Qed.

Lemma step_order i y :
  (∀ z, z ∈ x :: R → power_key_cmp (key_in z) (key_in x) ≠ Gt) →
  (∀ i y, done !! i = Some y → next_after (take i done) y) →
  (done ++ [x]) !! i = Some y → next_after (take i (done ++ [x])) y.
Proof.
  intros Hmax Hord Hi. destruct (decide (i < length done)) as [Hlt|Hge].
  - rewrite lookup_app_l in Hi by done. rewrite take_app_le by lia. by apply Hord.
  - assert (i = length done) as ->.
    { apply lookup_lt_Some in Hi. rewrite length_app in Hi. simpl in Hi. lia. }
    rewrite list_lookup_middle in Hi by done. injection Hi as <-.
    rewrite take_app_le, firstn_all by lia. split; [apply step_ready|].
    intros z Hz1 Hz2 Hz3. apply Hmax. assert (z ∈ done ++ x :: R) as Hz by (by apply Hin).
    clear -Hz Hz2. set_solver.
Qed.
End step.

Lemma loop_inv_step rem ready done m ready1 rem2 ready2 :
  loop_inv rem ready done → heap_pop ready = Some (m, ready1) →
  foldl (release_child (key_of st)) (rem, ready1) (default [] (dependents st !! pk_id m))
    = (rem2, ready2) →
  loop_inv rem2 ready2 (done ++ [pk_id m]).
Proof.
  intros [(R & HR & ND & HxR) Hrem Hord] Hpop Hfold.
  destruct (heap_pop_spec _ _ _ Hpop) as [Hperm Hmax].
  assert (m ∈ key_in <$> R) as (x & -> & HxinR)%list_elem_of_fmap.
  { rewrite <-HR, Hperm. by left. }
  rewrite key_in_id in *.
  apply elem_of_Permutation in HxinR as [R' HR'].
  assert (ready1 ≡ₚ key_in <$> R') as Hready1.
  { apply (Permutation_cons_inv (a := key_in x)). by rewrite <-Hperm, HR, HR'. }
  rewrite HR' in ND. rewrite (built_dependents _ _ _ Hb) in Hfold.
  assert (∀ y, y ∈ done ++ x :: R' ↔ y ∈ pres ∧ deps_in P y ⊆ list_to_set done) as HxR2.
  { intros y. by rewrite <-HxR, HR'. }
  pose proof (foldl_release (key_of st) rem ready1 (filter (λ y, x ∈ deps_in P y) pres)) as HF.
  rewrite Hfold in HF. destruct HF as [Hrem2 Hready2].
  { apply NoDup_filter, Hnd. }
  { intros y [Hy1 Hy2]%list_elem_of_filter.
    rewrite Hrem, (built_key _ _ _ Hb), !decide_True by done. eauto. }
  split.
  - eexists (_ ++ R'). split_and!; [by rewrite Hready2, fmap_app, Hready1|by apply step_NoDup|].
    intros y. by apply step_elems.
  - intros y. eapply step_rem; eauto.
  - intros i y. apply (step_order done R' x HxR2); [|done].
    intros z Hz. apply Hmax. rewrite HR. apply list_elem_of_fmap. exists z. by rewrite HR'.
Qed.

Lemma loop_inv_done_length rem ready done :
  loop_inv rem ready done → ready ≠ [] → length done < length pres.
Proof.
  intros [(R & HR & ND & HxR) _ _] Hne.
  assert (length (done ++ R) ≤ length pres) as HL.
  { apply submseteq_length, NoDup_submseteq; [done|]. intros x Hx. by apply HxR. }
  rewrite length_app in HL. destruct R; [|simpl in HL; lia].
  by apply Permutation_nil_r in HR.
Qed.

(** With fuel for every unplaced event the loop finishes, and it finishes in
    an order that is greedy at every position. *)
Lemma sort_loop_finishes fuel rem ready done :
  loop_inv rem ready done → length pres ≤ fuel + length done →
  ∃ rem' l, sort_loop fuel st rem ready done = Some l ∧ loop_inv rem' [] l.
Proof.
  revert rem ready done. induction fuel as [|fuel IH]; intros rem ready done Hinv Hf; simpl.
  all: destruct (heap_pop ready) as [[m ready1]|] eqn:Ep;
    [|apply heap_pop_None in Ep as ->; by eauto].
  - apply loop_inv_done_length in Hinv; [simpl in Hf; lia|]. intros ->. done.
  - destruct (foldl _ _ _) as [rem2 ready2] eqn:Ef.
    pose proof (loop_inv_step _ _ _ _ _ _ _ Hinv Ep Ef) as Hinv2.
    apply (IH _ _ _ Hinv2). rewrite length_app. simpl. lia.
Qed.
End loop.
End kahn.

Section sort_correct.
Context {E : Type} `{Event E} (store : EventStore E).

(** Following auth links strictly decreases a rank: the auth graph has no cycle. *)
Definition acyclic : Prop := ∃ rank : EventId → nat, ∀ id ev a,
  store !! id = Some ev → a ∈ auth_event_ids ev → is_Some (store !! a) → rank a < rank id.

(** The reverse topological power order of a set of ids: every id once, each
    after its in-set auth events, and at each position the greatest key among
    the events whose in-set auth events are already placed. *)
Definition power_order (pres l : list EventId) : Prop :=
  NoDup l ∧ (∀ x, x ∈ l ↔ x ∈ pres) ∧
  ∀ i x, l !! i = Some x → next_after store pres (take i l) x.

Hypothesis Hcoh : coherent store.

Lemma present_ids_NoDup ids : NoDup ids → NoDup (present_ids store ids).
Proof. apply NoDup_filter. Qed.

Lemma sort_init_built ids :
  NoDup ids →
  built store (list_to_set (present_ids store ids)) (present_ids store ids)
    (sort_init (omap (λ id, store !! id) ids)).
Proof.
  intros ND. unfold sort_init. rewrite event_ids_present by done.
  rewrite omap_present. apply built_foldl; [done|by apply present_ids_NoDup|].
  intros x. unfold present_ids. rewrite list_elem_of_filter. naive_solver.
Qed.

Lemma deps_in_rank rank P x a :
  (∀ id ev a, store !! id = Some ev → a ∈ auth_event_ids ev → is_Some (store !! a) → rank a < rank id) →
  a ∈ deps_in store P x → is_Some (store !! a) → rank a < rank x.
Proof.
  intros Hr Ha Hs. unfold deps_in, event_deps in Ha. destruct (store !! x) as [ev|] eqn:Ex; [|set_solver].
  rewrite elem_of_list_to_set, list_elem_of_filter in Ha. by eapply Hr; [..|apply Ha|].
Qed.

Lemma power_sort_spec fuel ids :
  acyclic → NoDup ids → length ids ≤ fuel →
  ∃ l, reverse_topological_power_sort fuel ids store = Some l
       ∧ power_order (present_ids store ids) l.
Proof.
  intros [rank Hrank] ND Hf. set (pres := present_ids store ids).
  pose proof (present_ids_NoDup ids ND) as NDp.
  pose proof (sort_init_built ids ND) as Hb.
  destruct (sort_loop_finishes store Hcoh pres _ NDp Hb fuel _ _ _ (loop_inv_init store Hcoh pres _ NDp Hb))
    as (rem' & l & El & [(R & HR & NDl & Hl) _ Hord]).
  { assert (length pres ≤ length ids) by apply length_filter. simpl. unfold pres in *. lia. }
  exists l. split; [done|].
  assert (R = []) as -> by (destruct R; [done|by apply Permutation_nil_l in HR]).
  rewrite app_nil_r in *. split; [done|]. split; [|done].
  intros x. split; [by intros [? _]%Hl|].
  assert (∀ n y, rank y < n → y ∈ pres → y ∈ l) as Hind; [|by apply (Hind (S (rank x))); lia].
  induction n as [|n IH]; [lia|]. intros y Hy Hyp. apply Hl. split; [done|].
  intros a Ha. apply elem_of_list_to_set.
  assert (a ∈ (list_to_set pres : gset EventId)) as Hap%elem_of_list_to_set
    by (by eapply deps_in_subset).
  apply IH; [|done]. pose proof (deps_in_rank rank _ _ _ Hrank Ha) as Hlt.
  apply list_elem_of_filter in Hap as [Has _]. specialize (Hlt Has). lia.
Qed.

(** The order is unique. *)
Lemma power_order_take pres l l' n :
  power_order pres l → power_order pres l' → n ≤ length l → n ≤ length l' → take n l = take n l'.
Proof.
  intros (ND & Hin & Ho) (ND' & Hin' & Ho'). induction n as [|n IH]; intros Hn Hn'; [done|].
  destruct (lookup_lt_is_Some_2 l n) as [x Hx]; [lia|].
  destruct (lookup_lt_is_Some_2 l' n) as [x' Hx']; [lia|].
  rewrite (take_S_r _ _ x), (take_S_r _ _ x') by done. rewrite IH by lia. do 2 f_equal.
  assert (take n l = take n l') as Et by (apply IH; lia).
  pose proof (Ho n x Hx) as [Hd Hmax]. pose proof (Ho' n x' Hx') as [Hd' Hmax'].
  assert (∀ (k : list EventId) y, NoDup k → k !! n = Some y → y ∉ take n k) as Hfresh.
  { intros k y NDk Hy (i & Hi & Hil)%elem_of_take.
    assert (i = n) by (by eapply NoDup_lookup). lia. }
  assert (key_in store x = key_in store x') as Ek.
  { apply power_key_le_antisym.
    - apply Hmax'; [|by rewrite <-Et; apply Hfresh|by rewrite <-Et].
      apply Hin, list_elem_of_lookup. eauto.
    - apply Hmax; [|by rewrite Et; apply Hfresh|by rewrite Et].
      apply Hin', list_elem_of_lookup. eauto. }
  apply (f_equal pk_id) in Ek. by rewrite !key_in_id in Ek.
Qed.

Lemma power_order_unique pres l l' : power_order pres l → power_order pres l' → l = l'.
Proof.
  intros Ho Ho'. assert (l ≡ₚ l') as P.
  { apply NoDup_Permutation; [apply Ho|apply Ho'|]. intros x.
    by rewrite (proj1 (proj2 Ho)), (proj1 (proj2 Ho')). }
  pose proof (Permutation_length P) as HL.
  rewrite <-(firstn_all l), <-(firstn_all l'), <-HL. apply (power_order_take pres); [done..|lia].
Qed.

Lemma power_order_perm pres pres' l : pres ≡ₚ pres' → power_order pres l → power_order pres' l.
Proof.
  intros P (ND & Hin & Ho). split_and!; [done|by setoid_rewrite <-P|].
  intros i x Hi. destruct (Ho i x Hi) as [Hd Hmax]. unfold next_after in *.
  assert (list_to_set pres = (list_to_set pres' : gset EventId)) as <-.
  { apply leibniz_equiv. by rewrite P. }
  split; [done|]. intros y Hy. apply Hmax. by rewrite P.
Qed.

Lemma power_sort_perm fuel ids ids' l :
  acyclic → NoDup ids → length ids ≤ fuel → ids ≡ₚ ids' →
  power_order (present_ids store ids) l →
  reverse_topological_power_sort fuel ids' store = Some l.
Proof.
  intros Ha ND Hf P Hl.
  destruct (power_sort_spec fuel ids' Ha) as (l' & -> & Hl'); [by rewrite <-P..|].
  f_equal. eapply power_order_unique; [done|]. eapply power_order_perm; [|done].
  unfold present_ids. by rewrite P.
Qed.
End sort_correct.

(** ** The mainline *)

Section mainline.
Context {E : Type} `{Event E} (store : EventStore E).

(** The chain of power-levels events reached from a cursor by auth links. *)
Inductive pl_chain : option EventId → list EventId → Prop :=
  | pl_end : pl_chain None []
  | pl_link id l : pl_chain (power_levels_in_auth id store) l → pl_chain (Some id) (id :: l).

Lemma pl_chain_fun c l l' : pl_chain c l → pl_chain c l' → l = l'.
Proof.
  intros Hl. revert l'. induction Hl as [|id l Hl IH]; intros l'; inversion 1; subst; [done|].
  f_equal. by apply IH.
Qed.

Lemma mainline_walk_chain fuel c l : mainline_walk fuel c store = Some l → pl_chain c l.
Proof.
  revert c l. induction fuel as [|fuel IH]; intros [id|] l; simpl; try done.
  - intros [= <-]. constructor.
  - intros (l' & Hl & ->)%fmap_Some. constructor. by apply IH.
  - intros [= <-]. constructor.
Qed.

Lemma power_levels_in_auth_spec id a :
  power_levels_in_auth id store = Some a →
  ∃ ev, store !! id = Some ev ∧ a ∈ auth_event_ids ev ∧ is_Some (store !! a).
Proof.
  unfold power_levels_in_auth. destruct (store !! id) as [ev|]; simpl; [|done].
  intros [Ha Hp]%find_some. exists ev. split_and!; [done|by apply list_elem_of_In|].
  by destruct (store !! a).
Qed.

Hypothesis Hac : acyclic store.

(** Cursor loops over power-levels links: with fuel for every stored event
    not yet visited, a chain ends. *)
Lemma chain_exists c : ∃ l, pl_chain c l ∧ length l ≤ S (size store).
Proof.
  destruct Hac as [rank Hrank].
  enough (∀ n (V : gset EventId) c, V ⊆ dom store → S (size store) ≤ n + size V →
    (∀ id v, c = Some id → v ∈ V → rank id < rank v) → ∃ l, pl_chain c l ∧ length l ≤ n) as Hgen.
  { apply (Hgen (S (size store)) ∅); [set_solver|lia|set_solver]. }
  induction n as [|n IH]; intros V c' HV Hn Hv.
  { apply subseteq_size in HV. rewrite size_dom in HV. lia. }
  destruct c' as [id|]; [|exists []; split; [constructor|simpl; lia]].
  destruct (power_levels_in_auth id store) as [a|] eqn:Ea.
  - destruct (power_levels_in_auth_spec _ _ Ea) as (ev & Hid & Ha & Has).
    pose proof (Hrank _ _ _ Hid Ha Has) as Hlt.
    assert (id ∉ V) as HidV by (intros Hin; specialize (Hv id id eq_refl Hin); lia).
    destruct (IH ({[id]} ∪ V) (Some a)) as (l & Hl & HL).
    + apply union_subseteq. split; [|done]. apply singleton_subseteq_l, elem_of_dom. eauto.
    + rewrite size_union, size_singleton by set_solver. lia.
    + intros id' v [= <-] [->%elem_of_singleton|Hin]%elem_of_union; [done|].
      specialize (Hv id v eq_refl Hin). lia.
    + exists (id :: l). split; [constructor; by rewrite Ea|simpl; lia].
  - exists [id]. split; [constructor; rewrite Ea; constructor|simpl; lia].
Qed.

Lemma mainline_walk_complete fuel c l :
  pl_chain c l → length l ≤ fuel → mainline_walk fuel c store = Some l.
Proof.
  intros Hl. revert fuel. induction Hl as [|id l Hl IH]; intros fuel Hf; [by destruct fuel|].
  simpl in Hf. destruct fuel as [|fuel]; [lia|]. simpl. rewrite IH by lia. done.
Qed.

Lemma mainline_depth_complete fuel c l index :
  pl_chain c l → length l ≤ fuel →
  mainline_depth fuel c store index = Some (default 0 (head (omap (λ id, index !! id) l))).
Proof.
  intros Hl. revert fuel. induction Hl as [|id l Hl IH]; intros fuel Hf; [by destruct fuel|].
  simpl in Hf. destruct fuel as [|fuel]; [lia|]. simpl.
  destruct (index !! id) eqn:Ei; [done|]. apply IH. lia.
Qed.

Lemma pl_chain_rank rank c l :
  (∀ id ev a, store !! id = Some ev → a ∈ auth_event_ids ev → is_Some (store !! a) → rank a < rank id) →
  pl_chain c l → NoDup l ∧ ∀ id x, c = Some id → x ∈ l → x = id ∨ rank x < rank id.
Proof.
  intros Hrank. induction 1 as [|id l Hl [ND IH]]; [split; [constructor|done]|].
  assert (∀ x, x ∈ l → rank x < rank id) as Hlt.
  { intros x Hx. destruct (power_levels_in_auth id store) as [a|] eqn:Ea.
    - destruct (power_levels_in_auth_spec _ _ Ea) as (ev & Hid & Ha & Has).
      pose proof (Hrank _ _ _ Hid Ha Has).
      destruct (IH a x eq_refl Hx) as [->|]; lia.
    - inversion Hl; subst. by apply elem_of_nil in Hx. }
  split.
  - constructor; [|done]. intros Hin%Hlt. lia.
  - intros id' x [= <-] [->|Hx]%elem_of_cons; [by left|right; auto].
Qed.

Lemma pl_chain_NoDup c l : pl_chain c l → NoDup l.
Proof. destruct Hac as [rank Hrank]. intros Hl. by eapply pl_chain_rank in Hl as [? _]. Qed.
End mainline.

Lemma foldl_index l (acc : gmap EventId nat) k x :
  NoDup l →
  foldl (λ index e, <[e.2 := e.1]> index) acc (imap (λ p id, (k + p, id)) l) !! x
  = match list_find (x =.) l with Some (p, _) => Some (k + p) | None => acc !! x end.
Proof.
  revert acc k. induction l as [|a l IH]; intros acc k ND; [done|].
  apply NoDup_cons in ND as [Ha ND]. cbn [imap foldl]. rewrite Nat.add_0_r.
  rewrite (imap_ext _ (λ p id, (S k + p, id))) by (intros; simpl; f_equal; lia).
  rewrite IH by done. simpl. destruct (decide (x = a)) as [->|Hne].
  - assert (list_find (a =.) l = None) as ->.
    { apply list_find_None, Forall_forall. by intros y Hy <-. }
    rewrite lookup_insert_eq. by rewrite Nat.add_0_r.
  - rewrite lookup_insert_ne by done.
    destruct (list_find (x =.) l) as [[p y]|]; simpl; [f_equal; lia|done].
Qed.

(** The index of an event: its distance from the mainline root. *)
Definition root_position (mainline : list EventId) (x : EventId) : option nat :=
  fst <$> list_find (x =.) (reverse mainline).

Lemma mainline_index_lookup mainline x :
  NoDup mainline → mainline_index mainline !! x = root_position mainline x.
Proof.
  intros ND. unfold mainline_index, root_position.
  rewrite (imap_ext _ (λ p id, (0 + p, id))) by done.
  rewrite foldl_index by (by rewrite reverse_Permutation).
  destruct (list_find (x =.) (reverse mainline)) as [[p y]|]; [done|apply lookup_empty].
Qed.

Section mainline_correct.
Context {E : Type} `{Event E} (store : EventStore E).

(** The mainline depth of an event: the root position of the first mainline
    event on its own chain of power-levels events, zero when there is none. *)
Definition anchor_depth (mainline : list EventId) (x : EventId) (d : nat) : Prop :=
  ∃ c, pl_chain store (Some x) c ∧ d = default 0 (head (omap (root_position mainline) c)).

Definition event_ts (x : EventId) : N := default 0%N (origin_server_ts <$> store !! x).

(** [ks] are the sort keys of a mainline ordering. *)
Definition mainline_keys (mainline : list EventId) (ks : list MainlineKey) : Prop :=
  StronglySorted key_le ks ∧
  ∀ d ts x, ((d, ts), x) ∈ ks → anchor_depth mainline x d ∧ ts = event_ts x.

Lemma mapM_total {A B} (f : A → option B) (g : A → B) l :
  (∀ x, f x = Some (g x)) → mapM f l = Some (g <$> l).
Proof. intros Hf. induction l as [|x l IH]; [done|]. simpl. by rewrite Hf, IH. Qed.

Lemma mainline_ordering_keys fuel rpl to_order :
  acyclic store → S (size store) ≤ fuel →
  ∃ mainline (g : EventId → MainlineKey),
    pl_chain store rpl mainline
    ∧ mainline_ordering fuel rpl to_order store = Some (snd <$> merge_sort key_le (g <$> to_order))
    ∧ ∀ x, (g x).2 = x ∧ anchor_depth mainline x (g x).1.1 ∧ (g x).1.2 = event_ts x.
Proof.
  intros Hac Hf. destruct (chain_exists store Hac rpl) as (ml & Hml & HL).
  set (key x := mainline_key fuel store (mainline_index ml) x).
  assert (∀ x, ∃ d, key x = Some ((d, event_ts x), x) ∧ anchor_depth ml x d) as Hkey.
  { intros x. destruct (chain_exists store Hac (Some x)) as (c & Hc & HLc).
    eexists. split; [|exists c; split; [done|reflexivity]].
    unfold key, mainline_key.
    rewrite (mainline_depth_complete store _ _ c) by (done || lia). simpl.
    do 5 f_equal. apply list_omap_ext, Forall_Forall2_diag, Forall_forall.
    intros y _. by apply mainline_index_lookup, (pl_chain_NoDup store Hac rpl). }
  exists ml, (λ x, default ((0, 0%N), x) (key x)). split_and!; [done| |].
  - unfold mainline_ordering. rewrite (mainline_walk_complete store _ _ ml) by (done || lia). simpl.
    rewrite (mapM_total _ (λ x, default ((0, 0%N), x) (key x))); [done|].
    intros x. destruct (Hkey x) as (d & Ex & _). unfold key in Ex |- *. by rewrite Ex.
  - intros x. by destruct (Hkey x) as (d & -> & ?).
Qed.

Lemma mainline_ordering_spec fuel rpl to_order :
  acyclic store → S (size store) ≤ fuel →
  ∃ mainline ks, pl_chain store rpl mainline ∧ mainline_keys mainline ks
    ∧ mainline_ordering fuel rpl to_order store = Some ks.*2 ∧ ks.*2 ≡ₚ to_order.
Proof.
  intros Hac Hf.
  destruct (mainline_ordering_keys fuel rpl to_order Hac Hf) as (ml & g & Hml & -> & Hg).
  exists ml, (merge_sort key_le (g <$> to_order)). split_and!; [done| |done|].
  - split; [apply StronglySorted_merge_sort; apply _|].
    intros d ts x. rewrite merge_sort_Permutation, list_elem_of_fmap.
    intros (y & Ey & _). destruct (Hg y) as (H1 & H2 & H3). rewrite <-Ey in *. simpl in *. by subst.
  - rewrite merge_sort_Permutation, <-list_fmap_compose.
    rewrite (list_fmap_ext _ id), list_fmap_id; [done|]. intros i x _. apply Hg.
Qed.

Lemma mainline_ordering_perm fuel rpl l l' :
  acyclic store → S (size store) ≤ fuel → l ≡ₚ l' →
  mainline_ordering fuel rpl l store = mainline_ordering fuel rpl l' store.
Proof.
  intros Hac Hf P. unfold mainline_ordering.
  destruct (chain_exists store Hac rpl) as (ml & Hml & HL).
  rewrite (mainline_walk_complete store _ _ ml) by (done || lia).
  cbn [mbind option_bind].
  assert (∀ x, ∃ k, mainline_key fuel store (mainline_index ml) x = Some k) as Hk.
  { intros x. destruct (chain_exists store Hac (Some x)) as (c & Hc & HLc). unfold mainline_key.
    rewrite (mainline_depth_complete store _ _ c) by (done || lia). simpl. eauto. }
  set (g x := default ((0, 0%N), x) (mainline_key fuel store (mainline_index ml) x)).
  rewrite !(mapM_total _ g) by (intros x; unfold g; by destruct (Hk x) as [k ->]).
  cbn [mbind option_bind]. rewrite (merge_sort_perm (g <$> l) (g <$> l')); [done|]. by rewrite P.
Qed.
End mainline_correct.

(** ** Auth difference *)

Lemma elem_of_foldl_inter {A} `{Countable A} (first : gset A) rest x :
  x ∈ foldl (∩) first rest ↔ x ∈ first ∧ ∀ s, s ∈ rest → x ∈ s.
Proof.
  revert first. induction rest as [|s rest IH]; intros first; simpl; [set_solver|].
  rewrite IH. set_solver.
Qed.

Lemma elem_of_auth_difference forks x :
  x ∈ auth_difference forks ↔ (∃ s, s ∈ forks ∧ x ∈ s) ∧ ¬ (∀ s, s ∈ forks → x ∈ s).
Proof.
  destruct forks as [|first rest]; simpl; [set_solver|].
  rewrite elem_of_difference, elem_of_foldl_inter.
  change (first ∪ ⋃ rest) with (⋃ (first :: rest)). rewrite elem_of_union_list.
  setoid_rewrite elem_of_cons. naive_solver.
Qed.

Lemma auth_difference_perm forks forks' :
  forks ≡ₚ forks' → auth_difference forks = auth_difference forks'.
Proof. intros P. apply set_eq. intros x. rewrite !elem_of_auth_difference. by setoid_rewrite P. Qed.

(** ** Deciding the store hypotheses on a concrete store *)

Section decide_store.
Context {E : Type} `{Event E} (store : EventStore E).

Lemma coherent_decide :
  bool_decide (map_Forall (λ id ev, event_id ev = id) store) = true → coherent store.
Proof. intros Hb%bool_decide_eq_true. exact Hb. Qed.

Lemma acyclic_decide (rank : EventId → nat) :
  bool_decide (map_Forall (λ id ev,
    Forall (λ a, is_Some (store !! a) → rank a < rank id) (auth_event_ids ev)) store) = true →
  acyclic store.
Proof.
  intros Hb%bool_decide_eq_true. exists rank. intros id ev a Hev Ha.
  by eapply (proj1 (Forall_forall _ _) (Hb id ev Hev)).
Qed.
End decide_store.

Module OrderFixture.
Definition event (id ty : string) (auth : list EventId) (ts : N) (level : Z) : StateEvent :=
  with_power_level (with_origin_server_ts
    (with_auth_events (state_event_new id ty "@admin:a.org") auth) ts) level.
Definition store : EventStore StateEvent :=
  {[ "$create" := event "$create" "m.room.create" [] 1 0;
     "$pl1" := event "$pl1" POWER_LEVELS_TYPE ["$create"] 2 100;
     "$pl2" := event "$pl2" POWER_LEVELS_TYPE ["$create"; "$pl1"] 3 100;
     "$topic" := event "$topic" "m.room.topic" ["$create"; "$pl2"] 9 0;
     "$name" := event "$name" "m.room.name" ["$create"; "$pl1"] 7 50 ]}.
Definition rank (id : EventId) : nat :=
  match store !! id with Some ev => N.to_nat (origin_server_ts ev) | None => 0 end.
End OrderFixture.

(** ** Properties *)

(** The auth difference holds exactly the events in some fork's auth chain
    but not in every fork's, whatever the order of the forks. *)
Theorem auth_difference_exact (forks : list (gset EventId)) :
  (∀ x, x ∈ auth_difference forks ↔ (∃ s, s ∈ forks ∧ x ∈ s) ∧ ¬ (∀ s, s ∈ forks → x ∈ s))
  ∧ (∀ forks', forks ≡ₚ forks' → auth_difference forks' = auth_difference forks).
Proof.
  split; [intros; apply elem_of_auth_difference|].
  intros forks' P. symmetry. by apply auth_difference_perm.
Qed.



(** The mainline ordering is total and correct on an acyclic auth graph:
    fuel for one walk over the store is enough, the result is a permutation of
    the input sorted by mainline depth, then timestamp, then id, where an
    event's depth is the distance from the mainline root of the first mainline
    event on its chain of power-levels events; and it does not depend on the
    order of the input. *)
Theorem mainline_ordering_correct {E} `{Event E} (store : EventStore E)
    (rpl : option EventId) (to_order : list EventId) (fuel : nat) :
  acyclic store → S (size store) ≤ fuel →
  ∃ mainline ks, pl_chain store rpl mainline ∧ mainline_keys store mainline ks
    ∧ mainline_ordering fuel rpl to_order store = Some ks.*2 ∧ ks.*2 ≡ₚ to_order
    ∧ ∀ to_order', to_order ≡ₚ to_order' →
        mainline_ordering fuel rpl to_order' store = Some ks.*2.
Proof.
  intros Ha Hf.
  destruct (mainline_ordering_spec store fuel rpl to_order Ha Hf) as (ml & ks & H1 & H2 & H3 & H4).
  exists ml, ks. split_and!; [done..|]. intros l' P.
  by rewrite <-(mainline_ordering_perm store fuel rpl to_order l' Ha Hf P).
Qed.

Lemma mainline_ordering_correct_witness :
  mainline_ordering 6 (Some "$pl2") ["$topic"; "$name"] OrderFixture.store
  = Some ["$name"; "$topic"]
  ∧ ∃ mainline, pl_chain OrderFixture.store (Some "$pl2") mainline.
Proof.
  split; [vm_compute; reflexivity|].
  destruct (mainline_ordering_correct OrderFixture.store (Some "$pl2") ["$topic"; "$name"] 6)
    as (ml & _ & Hml & _).
  - apply (acyclic_decide _ OrderFixture.rank). vm_compute. reflexivity.
  - apply Nat.leb_le. vm_compute. reflexivity.
  - exists ml. exact Hml.
Defined.
