(* ===== verification/StateCache.v ===== *)
(** * gm-stateres: the resolved-state cache ([src/src/stateres/cache.rs])

    The cache is modelled with its hash map, its eviction queue and its
    capacity, and shown to refine a bounded first-in-first-out association
    list. *)

From S2P Require Import Prelude Bytes StateMap.

Abbreviation CacheKey := (gset string).

Record ResolvedStateCache := mkCache {
  entries : gmap CacheKey StateMap;
  order : list CacheKey;
  capacity : nat;
}.

Definition cache_new (cap : nat) : ResolvedStateCache := mkCache ∅ [] cap.

Definition cache_get (c : ResolvedStateCache) (key : CacheKey) : option StateMap :=
  entries c !! key.

(** The [while self.order.len() > self.capacity] loop. *)
Fixpoint evict (cap : nat) (ents : gmap CacheKey StateMap) (ord : list CacheKey) :
    gmap CacheKey StateMap * list CacheKey :=
  match ord with
  | [] => (ents, [])
  | evicted :: rest =>
      if Nat.ltb cap (length ord) then evict cap (delete evicted ents) rest else (ents, ord)
  end.

Definition cache_insert (c : ResolvedStateCache) (key : CacheKey) (resolved : StateMap) :
    ResolvedStateCache :=
  if Nat.eqb (capacity c) 0 then c
  else
    let ents := <[key := resolved]> (entries c) in
    let ord := match entries c !! key with None => order c ++ [key] | Some _ => order c end in
    let '(ents, ord) := evict (capacity c) ents ord in
    mkCache ents ord (capacity c).

Definition cache_len (c : ResolvedStateCache) : nat := size (entries c).
Definition cache_is_empty (c : ResolvedStateCache) : bool := Nat.eqb (cache_len c) 0.

(** ** The abstract cache: a bounded queue of bindings *)

Abbreviation Fifo := (list (gset string * gmap (string * string) string)).

Definition fifo_get (l : Fifo) (key : CacheKey) : option StateMap :=
  snd <$> List.find (λ e, bool_decide (e.1 = key)) l.

Definition fifo_insert (cap : nat) (l : Fifo) (e : CacheKey * StateMap) : Fifo :=
  if decide (e.1 ∈ l.*1) then (λ x, if decide (x.1 = e.1) then e else x) <$> l
  else drop (S (length l) - cap) (l ++ [e]).

(** The bindings of a cache, in eviction order. *)
Definition bindings (c : ResolvedStateCache) : Fifo :=
  omap (λ k, (k,.) <$> entries c !! k) (order c).

(** Every queued key has an entry, every entry is queued once, and the queue
    is within capacity. *)
Record cache_ok (c : ResolvedStateCache) : Prop := {
  ok_nodup : NoDup (order c);
  ok_dom k : k ∈ order c ↔ is_Some (entries c !! k);
  ok_cap : length (order c) ≤ capacity c;
}.

(** ** Lemmas *)

Lemma cache_new_ok cap : cache_ok (cache_new cap).
Proof.
  split; simpl; [constructor| |lia]. intros k. rewrite lookup_empty.
  split; [by intros ?%elem_of_nil|by intros [? ?]].
Qed.

Lemma evict_spec cap ents ord :
  NoDup ord → (∀ k, k ∈ ord ↔ is_Some (ents !! k)) →
  (evict cap ents ord).2 = drop (length ord - cap) ord
  ∧ ∀ k, (evict cap ents ord).1 !! k =
         if decide (k ∈ drop (length ord - cap) ord) then ents !! k else None.
Proof.
  revert ents. induction ord as [|a ord IH]; intros ents ND Hd; cbn [evict].
  { split; [by rewrite drop_nil|]. intros k. rewrite drop_nil, decide_False by apply not_elem_of_nil.
    destruct (ents !! k) eqn:Ek; [|done]. exfalso. apply (not_elem_of_nil k), Hd. eauto. }
  apply NoDup_cons in ND as [Ha ND]. destruct (Nat.ltb_spec cap (length (a :: ord))) as [Hlt|Hge].
  - simpl in Hlt. destruct (IH (delete a ents) ND) as [E1 E2].
    { intros k. destruct (decide (k = a)) as [->|Hne].
      - rewrite lookup_delete_eq. split; [done|by intros [? ?]].
      - rewrite lookup_delete_ne, <-Hd, elem_of_cons by done. tauto. }
    replace (length (a :: ord) - cap) with (S (length ord - cap)) by (simpl; lia). simpl.
    split; [done|]. intros k. rewrite E2. case_decide as Hk; [|done].
    apply lookup_delete_ne. intros ->. apply Ha. by eapply subseteq_drop.
  - replace (length (a :: ord) - cap) with 0 by lia. split; [done|]. intros k. cbn [fst].
    case_decide as Hk; [done|]. change (drop 0 (a :: ord)) with (a :: ord) in Hk.
    rewrite Hd in Hk. by apply eq_None_not_Some.
Qed.

Lemma bindings_spec c : cache_ok c →
  (bindings c).*1 = order c ∧ ∀ k v, (k, v) ∈ bindings c ↔ entries c !! k = Some v.
Proof.
  intros [_ Hd _]. unfold bindings.
  assert (∀ k v, (k, v) ∈ omap (λ k, (k,.) <$> entries c !! k) (order c)
                 ↔ k ∈ order c ∧ entries c !! k = Some v) as Hin.
  { intros k v. rewrite list_elem_of_omap. split.
    - intros (k' & Hk & (v' & Hv & [= -> ->])%fmap_Some). done.
    - intros [Hk Hv]. exists k. by rewrite Hv. }
  split; [|intros k v; rewrite Hin, Hd; naive_solver].
  clear Hin. assert (∀ k, k ∈ order c → is_Some (entries c !! k)) as Hs by (intros; by apply Hd).
  clear Hd. induction (order c) as [|a l IH]; [done|]. simpl.
  destruct (Hs a) as [v Hv]; [by left|]. rewrite Hv. csimpl. f_equal. apply IH.
  intros k Hk. apply Hs. by right.
Qed.

Lemma fifo_get_spec (l : Fifo) k v : NoDup l.*1 → fifo_get l k = Some v ↔ (k, v) ∈ l.
Proof.
  induction l as [|[a w] l IH]; intros ND; [by rewrite elem_of_nil|].
  simpl in ND. apply NoDup_cons in ND as [Ha ND]. unfold fifo_get. simpl.
  case_bool_decide as Hk; simpl.
  - subst. rewrite elem_of_cons. split; [naive_solver|]. intros [[= ->]|Hin]; [done|].
    exfalso. apply Ha, list_elem_of_fmap. by exists (k, v).
  - rewrite elem_of_cons. etrans; [by apply IH|]. naive_solver.
Qed.

Lemma bindings_get c k : cache_ok c → fifo_get (bindings c) k = cache_get c k.
Proof.
  intros Hok. destruct (bindings_spec c Hok) as [E1 E2]. unfold cache_get.
  apply option_eq. intros v. rewrite fifo_get_spec, E2; [done|]. rewrite E1. apply Hok.
Qed.

Lemma bindings_len c : cache_ok c → length (bindings c) = cache_len c.
Proof.
  intros Hok. destruct (bindings_spec c Hok) as [E1 E2]. unfold cache_len.
  rewrite <-size_dom, <-(length_fmap fst), E1, <-(size_list_to_set (C:=gset CacheKey) (order c)) by apply Hok.
  f_equal. apply set_eq. intros k. rewrite elem_of_list_to_set, elem_of_dom. apply Hok.
Qed.

Lemma bindings_fmap c : cache_ok c →
  bindings c = (λ k, (k, default ∅ (entries c !! k))) <$> order c.
Proof.
  intros Hok. unfold bindings.
  assert (∀ k, k ∈ order c → is_Some (entries c !! k)) as Hs by (intros; by apply Hok).
  clear Hok. induction (order c) as [|a l IH]; [done|]. csimpl.
  destruct (Hs a) as [v ->]; [by left|]. csimpl. f_equal. apply IH. set_solver.
Qed.

(** The queue and the entries just before eviction. *)
Definition pushed (c : ResolvedStateCache) (key : CacheKey) : list CacheKey :=
  match entries c !! key with None => order c ++ [key] | Some _ => order c end.

Lemma pushed_spec c key v :
  cache_ok c →
  NoDup (pushed c key) ∧ ∀ k, k ∈ pushed c key ↔ is_Some (<[key := v]> (entries c) !! k).
Proof.
  intros [Hnd Hd _]. unfold pushed. destruct (entries c !! key) as [w|] eqn:Ek; split.
  - done.
  - intros k. rewrite lookup_insert_is_Some, Hd. destruct (decide (key = k)) as [->|]; [|naive_solver].
    rewrite Ek. naive_solver.
  - apply NoDup_app. split_and!; [done| |apply NoDup_singleton].
    intros x Hx%Hd ->%list_elem_of_singleton. rewrite Ek in Hx. by destruct Hx.
  - intros k. rewrite lookup_insert_is_Some, elem_of_app, Hd, list_elem_of_singleton.
    destruct (decide (key = k)); naive_solver.
Qed.

Lemma cache_insert_spec c key v :
  cache_ok c → capacity c ≠ 0 →
  let kept := drop (length (pushed c key) - capacity c) (pushed c key) in
  order (cache_insert c key v) = kept
  ∧ capacity (cache_insert c key v) = capacity c
  ∧ ∀ k, entries (cache_insert c key v) !! k =
         if decide (k ∈ kept) then <[key := v]> (entries c) !! k else None.
Proof.
  intros Hok Hcap kept. destruct (pushed_spec c key v Hok) as [ND Hd].
  destruct (evict_spec (capacity c) _ _ ND Hd) as [E1 E2].
  unfold cache_insert. destruct (Nat.eqb_spec (capacity c) 0); [done|].
  fold (pushed c key). destruct (evict _ _ _) as [ents ord]. simpl in *. by subst.
Qed.

Lemma cache_insert_ok c key v : cache_ok c → cache_ok (cache_insert c key v).
Proof.
  intros Hok. destruct (decide (capacity c = 0)) as [E0|Hcap].
  { unfold cache_insert. by rewrite (proj2 (Nat.eqb_eq _ _) E0). }
  destruct (cache_insert_spec c key v Hok Hcap) as (E1 & E2 & E3).
  destruct (pushed_spec c key v Hok) as [ND Hd].
  split; rewrite ?E1, ?E2.
  - eapply sublist_NoDup; [done|]. apply sublist_drop.
  - intros k. rewrite E3. case_decide as Hk; [|split; [done|by intros [? ?]]].
    split; [|done]. intros _. apply Hd. by eapply subseteq_drop.
  - rewrite length_drop. lia.
Qed.

Lemma cache_insert_bindings c key v :
  cache_ok c →
  bindings (cache_insert c key v) = fifo_insert (capacity c) (bindings c) (key, v).
Proof.
  intros Hok. destruct (decide (capacity c = 0)) as [E0|Hcap].
  { pose proof (ok_cap c Hok) as HL. unfold cache_insert, bindings.
    rewrite (proj2 (Nat.eqb_eq _ _) E0), E0 in *. destruct (order c); [done|simpl in HL; lia]. }
  destruct (cache_insert_spec c key v Hok Hcap) as (E1 & E2 & E3).
  pose proof (ok_cap c Hok) as HL.
  rewrite (bindings_fmap _ (cache_insert_ok c key v Hok)), E1. unfold fifo_insert. cbn [fst].
  rewrite (proj1 (bindings_spec c Hok)), (bindings_fmap c Hok), length_fmap.
  rewrite (list_fmap_ext _ (λ k, (k, default ∅ (<[key := v]> (entries c) !! k)))).
  2:{ intros i k Hi. rewrite E3, decide_True; [done|]. by apply list_elem_of_lookup; exists i. }
  clear E1 E2 E3. unfold pushed. destruct (entries c !! key) as [w|] eqn:Ek.
  - rewrite decide_True by (apply Hok; rewrite Ek; eauto).
    rewrite (proj2 (Nat.sub_0_le _ _) HL), drop_0, <-list_fmap_compose.
    apply list_fmap_ext. intros i k _. simpl. case_decide; subst.
    + by rewrite lookup_insert_eq.
    + by rewrite lookup_insert_ne.
  - rewrite decide_False by (rewrite (ok_dom c Hok), Ek; by intros [? ?]).
    rewrite length_app, fmap_drop, fmap_app. simpl. rewrite lookup_insert_eq.
    replace (length (order c) + 1) with (S (length (order c))) by lia. do 2 f_equal.
    apply list_fmap_ext. intros i k Hi. rewrite lookup_insert_ne; [done|]. intros <-.
    assert (key ∈ order c) as [? ?]%(ok_dom c Hok) by (by apply list_elem_of_lookup; exists i).
    by rewrite Ek in *.
Qed.

Lemma cache_insert_capacity c key v : capacity (cache_insert c key v) = capacity c.
Proof.
  unfold cache_insert. destruct (Nat.eqb _ 0); [done|]. by destruct (evict _ _ _).
Qed.

Lemma cache_insert_get c key v :
  cache_ok c → capacity c ≠ 0 → cache_get (cache_insert c key v) key = Some v.
Proof.
  intros Hok Hcap. destruct (cache_insert_spec c key v Hok Hcap) as (_ & _ & E3).
  unfold cache_get. rewrite E3, lookup_insert_eq. rewrite decide_True; [done|].
  pose proof (ok_cap c Hok) as HL. unfold pushed. destruct (entries c !! key) as [w|] eqn:Ek.
  - rewrite (proj2 (Nat.sub_0_le _ _) HL), drop_0. apply Hok. rewrite Ek. eauto.
  - rewrite length_app, drop_app_le by (simpl; lia). apply elem_of_app. right. by left.
Qed.

(** The cache built by a sequence of insertions, and its abstract twin. *)
Definition cache_run (cap : nat) (ops : Fifo) : ResolvedStateCache :=
  foldl (λ c e, cache_insert c e.1 e.2) (cache_new cap) ops.

Lemma cache_run_refines cap ops :
  cache_ok (cache_run cap ops) ∧ capacity (cache_run cap ops) = cap
  ∧ bindings (cache_run cap ops) = foldl (fifo_insert cap) [] ops.
Proof.
  unfold cache_run. induction ops as [|[k v] ops IH] using rev_ind.
  { split_and!; [apply cache_new_ok|done..]. }
  destruct IH as (Hok & Hcap & Hb). rewrite !foldl_app. simpl. split_and!.
  - by apply cache_insert_ok.
  - by rewrite cache_insert_capacity.
  - by rewrite cache_insert_bindings, Hb, Hcap.
Qed.

(** ** Properties *)

(** The cache refines a bounded first-in-first-out map: after any sequence
    of insertions into a fresh cache, lookups and the size agree with the
    abstract queue (a re-inserted key is updated in place, a new key is
    appended, and the oldest bindings beyond the capacity are dropped), and the
    size never exceeds the capacity; capacity zero stores nothing. *)
Theorem cache_refines_bounded_fifo (cap : nat) (ops : Fifo) :
  let c := cache_run cap ops in
  let l := foldl (fifo_insert cap) [] ops in
  (∀ key, cache_get c key = fifo_get l key) ∧ cache_len c = length l ∧ cache_len c ≤ cap
  ∧ cache_is_empty c = bool_decide (l = []).
Proof.
  intros c l. destruct (cache_run_refines cap ops) as (Hok & Hcap & Hb). fold c in Hok, Hcap, Hb.
  fold l in Hb. rewrite <-Hb. assert (length (bindings c) = cache_len c) as HL by by apply bindings_len.
  split_and!; [intros; by rewrite bindings_get|done| |].
  - rewrite <-HL, <-(length_fmap fst), (proj1 (bindings_spec c Hok)), <-Hcap. apply Hok.
  - unfold cache_is_empty. rewrite <-HL. by destruct (bindings c).
Qed.
