(* ===== verification/StateResolve.v ===== *)
(** * gm-stateres: two-pass state resolution ([src/src/stateres/mod.rs])

    [resolve] composes the partition, the two orderings, the iterative auth
    checks and the cache.  Its fuel bounds the two ordering loops; one more
    than the number of stored events is enough. *)

From S2P Require Import Prelude Bytes StateMap StateEvent StateAuth StateOrder StateCache.

Section resolve.
Context {E : Type} `{Event E}.
Implicit Types (store : EventStore E) (rules : AuthRules E).

Definition is_control_event (event : E) : bool :=
  one_of (event_type event) ["m.room.power_levels"; "m.room.join_rules"; "m.room.member"].

Definition merged (unconf resolved : StateMap) : StateMap :=
  map_extend unconf resolved.

(** The full conflicted set, split into control events and the others. *)
Definition split_control (full : gset EventId) store : list EventId * list EventId :=
  List.partition
    (λ id, match store !! id with Some ev => is_control_event ev | None => false end)
    (List.filter (λ id, bool_decide (is_Some (store !! id))) (bset_iter full)).

(** The two passes over the full conflicted set. *)
Definition resolve_passes (fuel : nat) (unconf : StateMap) (full : gset EventId)
    store rules : option StateMap :=
  let '(control, others) := split_control full store in
  ordered_control ← reverse_topological_power_sort fuel control store;
  let partial := iterative_auth_checks ordered_control unconf store rules in
  let resolved_power_levels := partial !! ("m.room.power_levels", "") in
  ordered_others ← mainline_ordering fuel resolved_power_levels others store;
  Some (iterative_auth_checks ordered_others partial store rules).

(** [conflicted.keys().filter_map(...).collect()]. *)
Definition resolved_slots (conf : ConflictedState) (partial : StateMap) : StateMap :=
  foldl (λ m slot, match partial !! slot with Some id => <[slot := id]> m | None => m end) ∅
    (btree_keys conf).

Definition resolve (fuel : nat) (forks : list StateMap) (auth_chains : list (gset EventId))
    store rules (cache : ResolvedStateCache) : option (StateMap * ResolvedStateCache) :=
  let '(mkPartitioned unconf conf) := partition forks in
  if bool_decide (conf = ∅) then Some (unconf, cache)
  else
    let cache_key := conflicting_event_ids conf in
    match cache_get cache cache_key with
    | Some resolved => Some (merged unconf resolved, cache)
    | None =>
        let full := cache_key ∪ auth_difference auth_chains in
        partial ← resolve_passes fuel unconf full store rules;
        let resolved := resolved_slots conf partial in
        Some (merged unconf resolved, cache_insert cache cache_key resolved)
    end.

(** ** Lemmas *)

Lemma merged_lookup unconf resolved k :
  merged unconf resolved !! k = match resolved !! k with Some id => Some id | None => unconf !! k end.
Proof.
  unfold merged. rewrite map_extend_union, lookup_union.
  by destruct (resolved !! k), (unconf !! k).
Qed.

Lemma resolved_slots_lookup conf partial k :
  resolved_slots conf partial !! k = if decide (is_Some (conf !! k)) then partial !! k else None.
Proof.
  unfold resolved_slots. assert (∀ l (m : StateMap),
    foldl (λ m slot, match partial !! slot with Some id => <[slot := id]> m | None => m end) m l !! k
    = if decide (k ∈ l) then match partial !! k with Some id => Some id | None => m !! k end else m !! k)
    as Hf.
  { induction l as [|a l IH]; intros m; cbn [foldl]; [by rewrite decide_False by apply not_elem_of_nil|].
    rewrite IH. destruct (decide (a = k)) as [->|Hne].
    - rewrite (decide_True (P := k ∈ k :: l)) by (by left).
      destruct (partial !! k) as [id|] eqn:Ek; [rewrite lookup_insert_eq|]; by case_decide.
    - assert (match partial !! a with Some id => <[a := id]> m | None => m end !! k = m !! k) as ->
        by (destruct (partial !! a); [by rewrite lookup_insert_ne|done]).
      apply decide_ext. rewrite elem_of_cons. naive_solver. }
  rewrite Hf, lookup_empty. assert (k ∈ btree_keys conf ↔ is_Some (conf !! k)) as Hk
    by (rewrite elem_of_btree_keys; apply elem_of_dom).
  destruct (decide (k ∈ btree_keys conf)), (decide (is_Some (conf !! k))); try tauto.
  by destruct (partial !! k).
Qed.

Definition stored_control store (id : EventId) : bool :=
  match store !! id with Some ev => is_control_event ev | None => false end.

Lemma split_control_spec full store :
  let '(control, others) := split_control full store in
  NoDup control ∧ NoDup others
  ∧ (∀ x, x ∈ control ↔ x ∈ full ∧ is_Some (store !! x) ∧ stored_control store x = true)
  ∧ (∀ x, x ∈ others ↔ x ∈ full ∧ is_Some (store !! x) ∧ stored_control store x = false).
Proof.
  unfold split_control. rewrite partition_as_filter. fold (stored_control store).
  assert (NoDup (List.filter (λ id, bool_decide (is_Some (store !! id))) (bset_iter full))) as ND
    by (apply NoDup_ListNoDup, List.NoDup_filter, NoDup_ListNoDup, bset_iter_NoDup).
  assert (∀ x, x ∈ List.filter (λ id, bool_decide (is_Some (store !! id))) (bset_iter full)
               ↔ x ∈ full ∧ is_Some (store !! x)) as Hin.
  { intros x. by rewrite list_elem_of_In, filter_In, <-list_elem_of_In, elem_of_bset_iter,
      bool_decide_eq_true. }
  split_and!; [by apply NoDup_ListNoDup, List.NoDup_filter, NoDup_ListNoDup..| |].
  - intros x. rewrite list_elem_of_In, filter_In, <-list_elem_of_In, Hin. tauto.
  - intros x. rewrite list_elem_of_In, filter_In, <-list_elem_of_In, Hin, negb_true_iff. tauto.
Qed.

(** What the two passes compute, without fuel: the control events of the full
    conflicted set are applied in reverse topological power order, then the
    others in mainline order of the power-levels event resolved so far. *)
Definition two_pass (unconf : StateMap) (full : gset EventId) store rules (partial : StateMap) : Prop :=
  ∃ control others mainline ks,
    (∀ x, (x ∈ control ∨ x ∈ others.*2) ↔ x ∈ full ∧ is_Some (store !! x))
    ∧ (∀ x, x ∈ control → stored_control store x = true)
    ∧ (∀ x, x ∈ others.*2 → stored_control store x = false)
    ∧ power_order store control ks
    ∧ (let first := iterative_auth_checks ks unconf store rules in
       pl_chain store (first !! POWER_LEVELS_KEY) mainline
       ∧ mainline_keys store mainline others ∧ NoDup others.*2
       ∧ partial = iterative_auth_checks others.*2 first store rules).

Lemma length_stored store (l : list EventId) :
  NoDup l → (∀ x, x ∈ l → is_Some (store !! x)) → length l ≤ size store.
Proof.
  intros ND Hs. rewrite <-size_dom, <-(size_list_to_set (C:=gset EventId) l) by done.
  apply subseteq_size. intros x Hx%elem_of_list_to_set. by apply elem_of_dom, Hs.
Qed.

Lemma present_ids_all store l : (∀ x, x ∈ l → is_Some (store !! x)) → present_ids store l = l.
Proof. intros Hs. by apply filter_all. Qed.

Lemma resolve_passes_spec fuel unconf full store rules :
  coherent store → acyclic store → S (size store) ≤ fuel →
  ∃ partial, resolve_passes fuel unconf full store rules = Some partial
             ∧ two_pass unconf full store rules partial.
Proof.
  intros Hc Ha Hf. unfold resolve_passes. pose proof (split_control_spec full store) as Hs.
  destruct (split_control full store) as [control others]. destruct Hs as (ND1 & ND2 & H1 & H2).
  assert (∀ x, x ∈ control → is_Some (store !! x)) as Hcs by (intros x Hx; by apply H1).
  destruct (power_sort_spec store Hc fuel control Ha ND1) as (l1 & El1 & Hl1).
  { pose proof (length_stored store control ND1 Hcs). lia. }
  rewrite El1. cbn [mbind option_bind]. rewrite (present_ids_all store) in Hl1 by done.
  set (first := iterative_auth_checks l1 unconf store rules).
  destruct (mainline_ordering_spec store fuel (first !! ("m.room.power_levels", "")) others Ha Hf)
    as (ml & ks & Hml & Hks & -> & P).
  eexists. split; [reflexivity|]. exists control, ks, ml, l1. setoid_rewrite P.
  split_and!; try done.
  - intros x. rewrite H1, H2. destruct (stored_control store x); naive_solver.
  - intros x Hx. by apply H1.
  - intros x Hx. by apply H2.
  - intros first'. split_and!; [done..| |done]. by rewrite P.
Qed.

Lemma conflicted_not_unconflicted forks k :
  is_Some (conflicted (partition forks) !! k) → unconflicted (partition forks) !! k = None.
Proof.
  intros [s Hs]. apply conflicted_lookup in Hs as [Hv (e1 & e2 & H1 & H2 & Hne)].
  destruct (unconflicted (partition forks) !! k) as [e|] eqn:Eu; [|done].
  apply unconflicted_lookup in Eu as [_ Hu]. apply Hv in H1, H2. destruct Hne.
  by rewrite (Hu e1), (Hu e2).
Qed.

(** An event a pass accepted for a slot is one of the walked events, names the
    slot and was authorised. *)
Lemma iterative_auth_checks_admits l base store rules k id :
  iterative_auth_checks l base store rules !! k = Some id →
  base !! k = Some id
  ∨ id ∈ l ∧ ∃ ev state, store !! id = Some ev ∧ slot_of ev = k ∧ rules ev state store = true.
Proof.
  intros Hid. pose proof (iterative_auth_checks_lookup l base store rules k) as Hr.
  rewrite Hid in Hr. destruct Hr as [(i & id' & [Hi (ev & Hev & Hs & Hru)] & _ & [= <-])|[_ Hb]];
    [right|by left].
  split; [apply list_elem_of_lookup; by exists i|]. eauto.
Qed.

Lemma two_pass_admits unconf full store rules partial k id :
  two_pass unconf full store rules partial → unconf !! k = None → partial !! k = Some id →
  id ∈ full ∧ ∃ ev state, store !! id = Some ev ∧ slot_of ev = k ∧ rules ev state store = true.
Proof.
  intros (control & others & ml & l1 & Hin & _ & _ & Hl1 & _ & _ & _ & ->) Hn
    [[Hb|[H1 H2]]%iterative_auth_checks_admits|[H1 H2]]%iterative_auth_checks_admits.
  - congruence.
  - split; [|done]. apply Hin. left. by apply Hl1.
  - split; [|done]. apply Hin. by right.
Qed.

(** The outcome of a resolution that does not hit the cache. *)
Definition resolution (forks : list StateMap) (auth_chains : list (gset EventId)) store rules
    (out : StateMap) : Prop :=
  let P := partition forks in
  let full := conflicting_event_ids (conflicted P) ∪ auth_difference auth_chains in
  ∃ partial, two_pass (unconflicted P) full store rules partial
    ∧ ∀ k, out !! k = if decide (is_Some (conflicted P !! k)) then partial !! k
                      else unconflicted P !! k.

Lemma resolve_cold fuel forks auth_chains store rules cache :
  coherent store → acyclic store → S (size store) ≤ fuel →
  cache_get cache (conflicting_event_ids (conflicted (partition forks))) = None →
  ∃ out cache', resolve fuel forks auth_chains store rules cache = Some (out, cache')
    ∧ resolution forks auth_chains store rules out.
Proof.
  intros Hc Ha Hf Hmiss. unfold resolve, resolution.
  pose proof (conflicted_not_unconflicted forks) as Hdis.
  destruct (partition forks) as [unconf conf]; cbn [unconflicted conflicted] in *.
  destruct (resolve_passes_spec fuel unconf (conflicting_event_ids conf ∪ auth_difference auth_chains)
    store rules Hc Ha Hf) as (partial & Ep & Hp).
  case_bool_decide as He; [|rewrite Hmiss, Ep]; (eexists _, _; split; [reflexivity|]).
  - exists partial. split; [done|]. intros k. subst conf. by rewrite lookup_empty.
  - exists partial. split; [done|]. intros k. rewrite merged_lookup, resolved_slots_lookup.
    case_decide as Hk; [|done]. rewrite (Hdis k Hk). by destruct (partial !! k).
Qed.

Lemma resolve_perm fuel forks forks' chains chains' store rules cache :
  forks ≡ₚ forks' → chains ≡ₚ chains' →
  resolve fuel forks chains store rules cache = resolve fuel forks' chains' store rules cache.
Proof.
  intros P1 P2. unfold resolve. by rewrite (partition_perm _ _ P1), (auth_difference_perm _ _ P2).
Qed.

Lemma resolve_again fuel forks chains store rules cache out cache' :
  cache_ok cache → resolve fuel forks chains store rules cache = Some (out, cache') →
  resolve fuel forks chains store rules cache' = Some (out, cache') ∧ cache_ok cache'.
Proof.
  intros Hok. unfold resolve. destruct (partition forks) as [unconf conf].
  case_bool_decide as He; [by intros [= <- <-]|].
  destruct (cache_get cache _) as [r|] eqn:Eg; [intros [= <- <-]; by rewrite Eg|].
  destruct (resolve_passes _ _ _ _ _) as [partial|] eqn:Ep; cbn [mbind option_bind]; [|done].
  intros [= <- <-]. split; [|by apply cache_insert_ok].
  destruct (decide (capacity cache = 0)) as [E0|E0].
  - assert (∀ k v, cache_insert cache k v = cache) as Hi
      by (intros; unfold cache_insert; by rewrite (proj2 (Nat.eqb_eq _ _) E0)).
    by rewrite Hi, Eg, Hi.
  - by rewrite cache_insert_get.
Qed.
End resolve.

(** ** A room with a disputed topic *)

Module ResolveFixture.
Definition admin : string := "@admin:a.org".
Definition bob : string := "@bob:b.org".
Definition levels (us : gmap string Z) : PowerLevels := mkPowerLevels us 0 ∅ 0 50 0 50 50.
Definition power (id : EventId) (us : gmap string Z) : StateEvent :=
  with_projections
    (with_auth_events (state_event_new id "m.room.power_levels" admin) ["$create"])
    (Some (levels us)) None None None.
Definition topic (id who : string) (ts : N) : StateEvent :=
  with_origin_server_ts
    (with_auth_events (state_event_new id "m.room.topic" who) ["$create"; "$pl"]) ts.
Definition store : EventStore StateEvent :=
  {[ "$create" := state_event_new "$create" "m.room.create" admin;
     "$pl" := power "$pl" {[admin := 50%Z; bob := 50%Z]};
     "$demoted" := power "$demoted" {[admin := 50%Z]};
     "$t1" := topic "$t1" admin 10; "$t2" := topic "$t2" bob 20 ]}.
Definition rank (id : EventId) : nat :=
  if String.eqb id "$create" then 0 else if String.eqb id "$pl" then 1 else 2.
Definition fork (pl t : EventId) : StateMap :=
  {[ ("m.room.create", "") := "$create"; ("m.room.power_levels", "") := pl;
     ("m.room.topic", "") := t ]}.
Definition rules : AuthRules StateEvent := all_of [create_rules; power_level_rules].
Definition chains : list (gset EventId) := [ {["$create"; "$pl"]}; {["$create"; "$pl"]} ].
Definition forks (pl : EventId) : list StateMap := [fork pl "$t1"; fork pl "$t2"].
Definition run (pl : EventId) (cache : ResolvedStateCache) : option (StateMap * ResolvedStateCache) :=
  resolve 6 (forks pl) chains store rules cache.
Definition topic_of (r : StateMap * ResolvedStateCache) : option EventId :=
  r.1 !! ("m.room.topic", "").

Lemma run_outcome pl cache id :
  run pl cache ≫= topic_of = Some id →
  ∃ out cache', run pl cache = Some (out, cache') ∧ out !! ("m.room.topic", "") = Some id.
Proof. destruct (run pl cache) as [[out cache']|]; [|done]. intros Ho. by exists out, cache'. Qed.
End ResolveFixture.

(** ** Properties *)



(** Resolution admits only authorised events: when a cold resolution puts
    an event in a disputed slot, the event is in the full conflicted set, is
    stored, names that slot and was accepted by the rules; an undisputed slot
    holds exactly the event every fork that sets it agrees on. *)
Theorem resolution_admits_authorised {E} `{Event E} (store : EventStore E) (rules : AuthRules E)
    (forks : list StateMap) (auth_chains : list (gset EventId)) (cache cache' : ResolvedStateCache)
    (fuel : nat) (out : StateMap) (slot : StateKey) (id : EventId) :
  coherent store → acyclic store → S (size store) ≤ fuel →
  cache_get cache (conflicting_event_ids (conflicted (partition forks))) = None →
  resolve fuel forks auth_chains store rules cache = Some (out, cache') →
  out !! slot = Some id →
  (votes forks slot id ∧ ∀ id', votes forks slot id' → id' = id)
  ∨ ((∃ e1 e2, votes forks slot e1 ∧ votes forks slot e2 ∧ e1 ≠ e2)
     ∧ ((∃ k, votes forks k id) ∨ id ∈ auth_difference auth_chains)
     ∧ ∃ ev state, store !! id = Some ev ∧ slot_of ev = slot ∧ rules ev state store = true).
Proof.
  intros Hc Ha Hf Hm Hr Ho.
  destruct (resolve_cold fuel forks auth_chains store rules cache Hc Ha Hf Hm)
    as (out' & c' & Hr' & partial & Hp & Hout).
  rewrite Hr in Hr'. injection Hr' as <- <-. rewrite Hout in Ho. case_decide as Hk.
  - right. pose proof (conflicted_not_unconflicted forks slot Hk) as Hn.
    destruct (two_pass_admits _ _ _ _ _ _ _ Hp Hn Ho) as [Hin Hev]. split_and!; [| |done].
    + destruct Hk as [s (Hv & e1 & e2 & H1 & H2 & Hne)%conflicted_lookup].
      exists e1, e2. by rewrite <-!Hv.
    + apply elem_of_union in Hin as [(k & s & [Hv _]%conflicted_lookup & Hin)%elem_of_conflicting_event_ids|?];
        [left; exists k; by apply Hv|by right].
  - left. by apply unconflicted_lookup.
Qed.

Lemma resolution_admits_authorised_witness :
  ∃ ev state, ResolveFixture.store !! "$t2" = Some ev ∧ slot_of ev = ("m.room.topic", "")
    ∧ ResolveFixture.rules ev state ResolveFixture.store = true.
Proof.
  destruct (ResolveFixture.run_outcome "$pl" (cache_new 4) "$t2") as (out & cache' & Er & Eo);
    [vm_compute; reflexivity|].
  destruct (resolution_admits_authorised ResolveFixture.store ResolveFixture.rules
    (ResolveFixture.forks "$pl") ResolveFixture.chains (cache_new 4) cache' 6 out
    ("m.room.topic", "") "$t2") as [[_ Hu]|(_ & _ & Hev)]; [| | | |exact Er|exact Eo| |exact Hev].
  - apply coherent_decide. vm_compute. reflexivity.
  - apply (acyclic_decide _ ResolveFixture.rank). vm_compute. reflexivity.
  - apply Nat.leb_le. vm_compute. reflexivity.
  - vm_compute. reflexivity.
  - assert ("$t1" = "$t2") as Hx; [|discriminate Hx]. apply Hu.
    exists (ResolveFixture.fork "$pl" "$t1"). split; [left|vm_compute; reflexivity].
Defined.

(** Resolution is deterministic across servers: permuting the forks and
    the auth chains changes neither the result nor the cache. *)
Theorem resolve_order_independent {E} `{Event E} (store : EventStore E) (rules : AuthRules E)
    (forks forks' : list StateMap) (chains chains' : list (gset EventId))
    (cache : ResolvedStateCache) (fuel : nat) :
  forks ≡ₚ forks' → chains ≡ₚ chains' →
  resolve fuel forks chains store rules cache = resolve fuel forks' chains' store rules cache.
Proof. apply resolve_perm. Qed.

Lemma resolve_order_independent_witness :
  resolve 6 (ResolveFixture.forks "$pl")
    ResolveFixture.chains ResolveFixture.store ResolveFixture.rules (cache_new 4)
  = resolve 6 [ResolveFixture.fork "$pl" "$t2"; ResolveFixture.fork "$pl" "$t1"]
    ResolveFixture.chains ResolveFixture.store ResolveFixture.rules (cache_new 4).
Proof. apply resolve_order_independent; [apply Permutation_swap|reflexivity]. Defined.

(** Memoisation is transparent for a repeated resolution: resolving the
    same forks, auth chains and store again with the cache the first call left
    returns the same state and leaves the cache as it is, and the cache stays
    well formed. *)
Theorem resolve_repeat {E} `{Event E} (store : EventStore E) (rules : AuthRules E)
    (forks : list StateMap) (chains : list (gset EventId)) (cache cache' : ResolvedStateCache)
    (fuel : nat) (out : StateMap) :
  cache_ok cache → resolve fuel forks chains store rules cache = Some (out, cache') →
  resolve fuel forks chains store rules cache' = Some (out, cache') ∧ cache_ok cache'.
Proof. apply resolve_again. Qed.

Lemma resolve_repeat_witness :
  ∃ out cache', ResolveFixture.run "$pl" cache' = Some (out, cache') ∧ cache_ok cache'.
Proof.
  destruct (ResolveFixture.run_outcome "$pl" (cache_new 4) "$t2") as (out & cache' & Er & _);
    [vm_compute; reflexivity|].
  exists out, cache'. exact (resolve_repeat _ _ _ _ _ _ _ _ (cache_new_ok 4) Er).
Defined.

(** The cache key does not cover the agreed state: two room states that
    dispute the same events share a cache entry.  After the topic dispute is
    resolved while Bob may set topics, resolving it in a state where Bob has
    been demoted returns Bob's topic from the cache, while a resolution with
    an empty cache rejects it. *)
Theorem resolve_stale_cache :
  ∃ out1 cache1,
    ResolveFixture.run "$pl" (cache_new 4) = Some (out1, cache1)
    ∧ ResolveFixture.run "$demoted" cache1 ≫= ResolveFixture.topic_of = Some "$t2"
    ∧ ResolveFixture.run "$demoted" (cache_new 4) ≫= ResolveFixture.topic_of = Some "$t1".
Proof.
  assert (ResolveFixture.run "$pl" (cache_new 4) ≫=
    (λ r, ResolveFixture.run "$demoted" r.2 ≫= ResolveFixture.topic_of) = Some "$t2") as Hw
    by (vm_compute; reflexivity).
  destruct (ResolveFixture.run "$pl" (cache_new 4)) as [[out1 cache1]|]; [|discriminate].
  exists out1, cache1. split_and!; [reflexivity|exact Hw|vm_compute; reflexivity].
Qed.
