(* ===== verification/FedSender.v ===== *)
(** * gm-fed: per-destination outbound scheduling ([src/src/fed/sender.rs])

    The sender's queues and backoff table, its operations as state passing,
    and the delivery guarantees over arbitrary sequences of operations: items
    leave in order and exactly once, and destinations do not affect each
    other. *)

From S2P Require Import Prelude Bytes.

Abbreviation Destination := string.
Abbreviation Item := string.

Definition BASE_BACKOFF_MS : N := 1000.
Definition CAP_BACKOFF_MS : N := 60000.

Record Backoff := mkBackoff { attempt : N; available_at : N }.

Definition backoff_default : Backoff := mkBackoff 0 0.

Record FederationSender := mkSender {
  queues : gmap Destination (list Item);
  backoff : gmap Destination Backoff;
}.

Definition sender_new : FederationSender := mkSender ∅ ∅.

(** [u64::checked_shl]: [None] when the shift is at least the width; bits
    shifted out are lost. *)
Definition u64_checked_shl (a n : N) : option N :=
  if (n <? 64)%N then Some (N.shiftl a n mod 2 ^ 64)%N else None.

Definition backoff_delay (attempt : N) : N :=
  let factor := default U64_MAX (u64_checked_shl 1 (N.min (attempt - 1) 16)) in
  N.min (u64_saturating_mul BASE_BACKOFF_MS factor) CAP_BACKOFF_MS.

Definition queue (s : FederationSender) (destination : Destination) (item : Item) : FederationSender :=
  mkSender (<[destination := default [] (queues s !! destination) ++ [item]]> (queues s)) (backoff s).

Definition pending (s : FederationSender) (destination : Destination) : nat :=
  match queues s !! destination with Some q => length q | None => 0 end.

Definition nonempty (q : list Item) : bool := match q with [] => false | _ => true end.

Definition queue_depths (s : FederationSender) : list (Destination * nat) :=
  (λ e, (e.1, length e.2)) <$> List.filter (λ e, nonempty e.2) (btree_iter (queues s)).

Definition backoff_state (s : FederationSender) (now : N) : list (Destination * N * N) :=
  (λ e, (e.1, attempt e.2, available_at e.2))
    <$> List.filter (λ e, (now <? available_at e.2)%N) (btree_iter (backoff s)).

(** The private accessor [FederationSender::available_at]. *)
Definition sender_available_at (s : FederationSender) (destination : Destination) : N :=
  match backoff s !! destination with Some b => available_at b | None => 0%N end.

Definition ready (s : FederationSender) (now : N) : list Destination :=
  fst <$> List.filter (λ e, (sender_available_at s e.1 <=? now)%N)
    (List.filter (λ e, nonempty e.2) (btree_iter (queues s))).

Definition take_queue (s : FederationSender) (destination : Destination) :
    list Item * FederationSender :=
  (default [] (queues s !! destination), mkSender (delete destination (queues s)) (backoff s)).

Definition mark_success (s : FederationSender) (destination : Destination) : FederationSender :=
  mkSender (queues s) (delete destination (backoff s)).

Definition mark_failure (s : FederationSender) (destination : Destination) (now : N) :
    FederationSender :=
  let state := default backoff_default (backoff s !! destination) in
  let att := u32_saturating_add (attempt state) 1 in
  let at' := u64_saturating_add now (backoff_delay att) in
  mkSender (queues s) (<[destination := mkBackoff att at']> (backoff s)).

Definition backoff_for (s : FederationSender) (destination : Destination) : option (N * N) :=
  (λ b, (attempt b, available_at b)) <$> backoff s !! destination.

Definition restore (s : FederationSender) (destination : Destination) (att at' : N) :
    FederationSender :=
  mkSender (queues s) (<[destination := mkBackoff att at']> (backoff s)).

(** ** Traces of operations *)

Inductive SenderOp :=
  | Queue (d : Destination) (item : Item)
  | Take (d : Destination)
  | Success (d : Destination)
  | Failure (d : Destination) (now : N)
  | Restore (d : Destination) (att at' : N).

Definition op_dest (o : SenderOp) : Destination :=
  match o with
  | Queue d _ | Take d | Success d | Failure d _ | Restore d _ _ => d
  end.

(** One operation: the items it hands out, and the next state. *)
Definition sender_step (s : FederationSender) (o : SenderOp) : list Item * FederationSender :=
  match o with
  | Queue d item => ([], queue s d item)
  | Take d => take_queue s d
  | Success d => ([], mark_success s d)
  | Failure d now => ([], mark_failure s d now)
  | Restore d att at' => ([], restore s d att at')
  end.

Definition sender_run (s : FederationSender) (ops : list SenderOp) : FederationSender :=
  foldl (λ s o, (sender_step s o).2) s ops.

(** The items handed out for [d] along a trace, in order. *)
Fixpoint delivered (s : FederationSender) (ops : list SenderOp) (d : Destination) : list Item :=
  match ops with
  | [] => []
  | o :: ops =>
      (if decide (op_dest o = d) then (sender_step s o).1 else [])
      ++ delivered (sender_step s o).2 ops d
  end.

(** The items queued for [d] along a trace, in order. *)
Definition queued_for (d : Destination) (ops : list SenderOp) : list Item :=
  omap (λ o, match o with Queue d' i => if decide (d' = d) then Some i else None | _ => None end) ops.

(** All a destination's behaviour depends on. *)
Definition dest_view (s : FederationSender) (d : Destination) : list Item * option Backoff :=
  (default [] (queues s !! d), backoff s !! d).

Definition view_ready (v : list Item * option Backoff) (now : N) : Prop :=
  v.1 ≠ [] ∧ (match v.2 with Some b => available_at b | None => 0 end <= now)%N.

(** ** Lemmas *)

Lemma backoff_delay_closed att :
  backoff_delay att = N.min (1000 * 2 ^ (att - 1)) 60000.
Proof.
  unfold backoff_delay, u64_checked_shl, u64_saturating_mul, BASE_BACKOFF_MS, CAP_BACKOFF_MS, U64_MAX.
  destruct (N.ltb_spec (N.min (att - 1) 16) 64); [|lia]. cbn [default from_option id].
  rewrite N.shiftl_1_l, N.mod_small by (apply N.pow_lt_mono_r; lia).
  destruct (N.le_gt_cases (att - 1) 16) as [Hle|Hgt].
  - rewrite (N.min_l (att - 1)) by done.
    assert (2 ^ (att - 1) <= 2 ^ 16)%N by (apply N.pow_le_mono_r; lia).
    change (2 ^ 16)%N with 65536%N in *. lia.
  - rewrite (N.min_r (att - 1)) by lia.
    assert (2 ^ 16 <= 2 ^ (att - 1))%N by (apply N.pow_le_mono_r; lia).
    change (2 ^ 16)%N with 65536%N in *. lia.
Qed.

Lemma sender_step_other s o d :
  op_dest o ≠ d → dest_view (sender_step s o).2 d = dest_view s d.
Proof.
  intros Hne. unfold dest_view.
  destruct o; simpl in *; rewrite ?lookup_insert_ne, ?lookup_delete_ne by done; done.
Qed.

(** A destination's next view and hand-out are functions of its view. *)
Lemma sender_step_view s s' o :
  dest_view s (op_dest o) = dest_view s' (op_dest o) →
  dest_view (sender_step s o).2 (op_dest o) = dest_view (sender_step s' o).2 (op_dest o)
  ∧ (sender_step s o).1 = (sender_step s' o).1.
Proof.
  unfold dest_view. intros [= Hq Hb].
  destruct o; simpl in *; rewrite ?lookup_insert_eq, ?lookup_delete_eq, ?Hq, ?Hb; done.
Qed.

Lemma sender_run_view s s' ops d :
  dest_view s d = dest_view s' d →
  dest_view (sender_run s ops) d = dest_view (sender_run s' (filter (λ o, op_dest o = d) ops)) d
  ∧ delivered s ops d = delivered s' (filter (λ o, op_dest o = d) ops) d.
Proof.
  revert s s'. induction ops as [|o ops IH]; intros s s' Hv; [done|].
  cbn [sender_run delivered foldl]. destruct (decide (op_dest o = d)) as [Hd|Hd].
  - rewrite filter_cons_True by done. cbn [delivered foldl]. rewrite decide_True by done.
    rewrite <-Hd in Hv. destruct (sender_step_view s s' o Hv) as [Hv' ->]. rewrite Hd in Hv'.
    destruct (IH _ _ Hv') as [IH1 ->]. by split.
  - rewrite filter_cons_False by done. apply (IH (sender_step s o).2 s').
    by rewrite sender_step_other.
Qed.

Lemma delivered_conserves s ops d :
  delivered s ops d ++ (dest_view (sender_run s ops) d).1 = (dest_view s d).1 ++ queued_for d ops.
Proof.
  revert s. induction ops as [|o ops IH]; intros s; [by rewrite app_nil_r|].
  cbn [sender_run delivered foldl queued_for omap list_omap]. fold (queued_for d ops).
  fold (sender_run (sender_step s o).2 ops). rewrite <-app_assoc, IH.
  destruct (decide (op_dest o = d)) as [Hd|Hd].
  - unfold dest_view. destruct o; simpl in *; subst;
      rewrite ?lookup_insert_eq, ?lookup_delete_eq, ?decide_True by done; simpl; try done.
    by rewrite <-app_assoc.
  - rewrite sender_step_other by done.
    destruct o; simpl in *; rewrite ?decide_False by done; done.
Qed.

Lemma elem_of_ready s now d : d ∈ ready s now ↔ view_ready (dest_view s d) now.
Proof.
  unfold ready, view_ready, dest_view, sender_available_at. rewrite list_elem_of_fmap.
  setoid_rewrite list_elem_of_In. setoid_rewrite filter_In. setoid_rewrite filter_In.
  setoid_rewrite <-list_elem_of_In. split.
  - intros ([d' q] & -> & [[Hq Hne] Hle]). apply elem_of_btree_iter in Hq. simpl in *.
    rewrite Hq. split; [by destruct q|by apply N.leb_le].
  - simpl. intros [Hne Hle]. destruct (queues s !! d) as [q|] eqn:Eq; [|done].
    exists (d, q). rewrite elem_of_btree_iter. simpl. split_and!; [done..| |by apply N.leb_le].
    by destruct q.
Qed.

(** [n] consecutive failures at the given times. *)
Lemma failures_backoff s d (times : list N) (now : N) :
  backoff s !! d = None → (N.of_nat (length times) < U32_MAX)%N →
  backoff (sender_run s (Failure d <$> (times ++ [now]))) !! d
  = Some (mkBackoff (N.of_nat (S (length times)))
      (u64_saturating_add now (backoff_delay (N.of_nat (S (length times)))))).
Proof.
  intros Hb. revert now. induction times as [|t times IH] using rev_ind; intros now HL.
  - simpl. unfold mark_failure. simpl. by rewrite lookup_insert_eq, Hb.
  - rewrite length_app in *. simpl in HL |- *. unfold sender_run in *. rewrite fmap_app, foldl_app.
    specialize (IH t ltac:(lia)). simpl.
    replace (length times + 1) with (S (length times)) by lia.
    rewrite lookup_insert_eq. fold (sender_run s (Failure d <$> times ++ [t])) in *.
    rewrite IH. cbn [default from_option id attempt].
    replace (u32_saturating_add (N.of_nat (S (length times))) 1)
      with (N.of_nat (S (S (length times)))); [done|].
    unfold u32_saturating_add. lia.
Qed.

(** ** Properties *)

(** Exactly-once, in-order hand-out: along any sequence of operations on a
    fresh sender, the items handed out for a destination followed by the items
    still pending are precisely the items queued for it, in queueing order. *)
Theorem delivery_fifo_exactly_once (ops : list SenderOp) (d : Destination) :
  delivered sender_new ops d ++ default [] (queues (sender_run sender_new ops) !! d)
    = queued_for d ops
  ∧ pending (sender_run sender_new ops) d
    = length (queued_for d ops) - length (delivered sender_new ops d).
Proof.
  pose proof (delivered_conserves sender_new ops d) as Hc. unfold dest_view in Hc. simpl in Hc.
  rewrite lookup_empty in Hc. simpl in Hc. split; [done|]. rewrite <-Hc, length_app. unfold pending. destruct (queues _ !! d); simpl; lia.
Qed.

(** Destinations are isolated: what a destination receives, its backoff and
    whether it is ready at any time depend only on the operations addressed to
    it, so a failing peer cannot hold up another; and a destination is ready
    exactly when it has queued items and its backoff has elapsed. *)
Theorem destination_isolation (ops : list SenderOp) (d : Destination) (now : N) :
  let own := filter (λ o, op_dest o = d) ops in
  delivered sender_new ops d = delivered sender_new own d
  ∧ backoff_for (sender_run sender_new ops) d = backoff_for (sender_run sender_new own) d
  ∧ (d ∈ ready (sender_run sender_new ops) now ↔ d ∈ ready (sender_run sender_new own) now)
  ∧ (d ∈ ready (sender_run sender_new ops) now ↔
      pending (sender_run sender_new ops) d ≠ 0
      ∧ (sender_available_at (sender_run sender_new ops) d <= now)%N).
Proof.
  intros own. destruct (sender_run_view sender_new sender_new ops d eq_refl) as [Hv Hd].
  fold own in Hv, Hd. split_and!.
  - done.
  - unfold backoff_for. f_equal. exact (f_equal snd Hv).
  - by rewrite !elem_of_ready, Hv.
  - rewrite elem_of_ready. unfold view_ready, dest_view, pending, sender_available_at. simpl.
    destruct (queues _ !! d) as [[|]|]; simpl; naive_solver.
Qed.

(** Consecutive failures back off exponentially up to the cap: after
    [n + 1] failures in a row, the last at [now], a healthy destination is
    unavailable for exactly [min (1000 * 2^n) 60000] ms (within the clock's
    range), is listed as backed off until then, and a success makes it
    available at once. *)
Theorem backoff_schedule (s : FederationSender) (d : Destination) (times : list N) (now t : N) :
  let n := N.of_nat (length times) in
  let s' := sender_run s (Failure d <$> (times ++ [now])) in
  let until := (now + N.min (1000 * 2 ^ n) 60000)%N in
  backoff s !! d = None → (n < U32_MAX)%N → (until <= U64_MAX)%N →
  queues s !! d ≠ None → queues s !! d ≠ Some [] →
  (d ∈ ready s' t ↔ (until <= t)%N)
  ∧ ((d, (n + 1)%N, until) ∈ backoff_state s' t ↔ (t < until)%N)
  ∧ d ∈ ready (mark_success s' d) t.
Proof.
  intros n s' until Hb Hn Hmax Hq Hq'.
  assert (queues s' = queues s) as Eq.
  { unfold s'. clear. generalize (times ++ [now]). intros l. revert s.
    induction l as [|x l IH]; intros s; [done|]. csimpl. unfold sender_run. simpl.
    etrans; [apply IH|done]. }
  assert (backoff s' !! d = Some (mkBackoff (n + 1) until)) as Eb.
  { unfold s'. rewrite failures_backoff by done. do 2 f_equal; [lia|].
    unfold u64_saturating_add. rewrite backoff_delay_closed. unfold until.
    replace (N.of_nat (S (length times)) - 1)%N with n by lia. lia. }
  split_and!.
  - rewrite elem_of_ready. unfold view_ready, dest_view. rewrite Eb, Eq. simpl.
    split; [tauto|]. intros Ht. split; [|done]. by destruct (queues s !! d) as [[|]|].
  - unfold backoff_state. rewrite list_elem_of_fmap.
    setoid_rewrite list_elem_of_In. setoid_rewrite filter_In. setoid_rewrite <-list_elem_of_In. split.
    + intros ([d' b] & [= <- E1 E2] & [_ Hlt%N.ltb_lt]). simpl in *. lia.
    + intros Hlt. exists (d, mkBackoff (n + 1) until). rewrite elem_of_btree_iter, N.ltb_lt. done.
  - rewrite elem_of_ready. unfold view_ready, dest_view, mark_success. simpl.
    rewrite lookup_delete_eq, Eq. split; [|lia]. by destruct (queues s !! d) as [[|]|].
Qed.

Lemma backoff_schedule_witness :
  let s := queue sender_new "b.org" "pdu" in
  "b.org" ∈ ready (sender_run s (Failure "b.org" <$> [10; 2000; 9000]%N)) 13000.
Proof.
  intros s. apply (backoff_schedule s "b.org" [10; 2000]%N 9000 13000); vm_compute; congruence.
Defined.
