(* ===== verification/ShardRing.v ===== *)
(** * gm-shard: the consistent-hash placement ring ([src/src/shard/ring.rs])

    The hash is executable (FNV-1a with a splitmix64 finalizer on 64-bit
    words).  Placement is characterised as the first virtual node clockwise
    from the room's point, and its stability under membership changes is
    proved for every ring; that the ring is a function of the membership alone
    needs the virtual nodes of distinct shards to be distinct points, which is
    the hypothesis [spread]. *)

From S2P Require Import Prelude Bytes.

Abbreviation ShardId := string.

Record Reassignment := mkReassignment { room : string; from : ShardId; to : ShardId }.

Definition VIRTUAL_NODES : nat := 128.
Definition FNV_OFFSET : N := 0xCBF29CE484222325.
Definition FNV_PRIME : N := 0x00000100000001B3.

(** splitmix64 finalizing mix. *)
Definition finalize (z : N) : N :=
  let z := u64_wrapping_mul (N.lxor z (N.shiftr z 30)) 0xBF58476D1CE4E5B9 in
  let z := u64_wrapping_mul (N.lxor z (N.shiftr z 27)) 0x94D049BB133111EB in
  N.lxor z (N.shiftr z 31).

Fixpoint fnv1a (state : N) (data : string) : N :=
  match data with
  | EmptyString => state
  | String byte data => fnv1a (u64_wrapping_mul (N.lxor state (N_of_ascii byte)) FNV_PRIME) data
  end.

Definition hash (data : string) : N := finalize (fnv1a FNV_OFFSET data).

Definition virtual_node_hash (shard : ShardId) (vnode : nat) : N :=
  hash (shard +:+ "#" +:+ u32_to_be_bytes (N.of_nat vnode)).

Record ShardRing := mkRing {
  ring : gmap N ShardId;
  shards : gset ShardId;
}.

Definition ring_new : ShardRing := mkRing ∅ ∅.

Definition add_shard (r : ShardRing) (shard : ShardId) : ShardRing :=
  if decide (shard ∈ shards r) then r
  else mkRing
    (foldl (λ m vnode, <[virtual_node_hash shard vnode := shard]> m) (ring r) (seq 0 VIRTUAL_NODES))
    ({[shard]} ∪ shards r).

Definition remove_shard (r : ShardRing) (shard : ShardId) : ShardRing :=
  if decide (shard ∈ shards r) then
    mkRing (filter (λ e, e.2 ≠ shard) (ring r)) (shards r ∖ {[shard]})
  else r.

(** [ring.range(point..).next().or_else(|| ring.iter().next())]. *)
Definition successor (m : gmap N ShardId) (point : N) : option (N * ShardId) :=
  match List.find (λ e, (point <=? e.1)%N) (btree_iter m) with
  | Some e => Some e
  | None => head (btree_iter m)
  end.

Definition shard_for (r : ShardRing) (room_id : string) : option ShardId :=
  snd <$> successor (ring r) (hash room_id).

Definition ring_shards (r : ShardRing) : list ShardId := bset_iter (shards r).

Definition reassignments (r target : ShardRing) (rooms : list string) : list Reassignment :=
  omap (λ room,
    from ← shard_for r room;
    to ← shard_for target room;
    if String.eqb from to then None else Some (mkReassignment room from to)) rooms.

Definition ring_len (r : ShardRing) : nat := size (shards r).
Definition ring_is_empty (r : ShardRing) : bool := Nat.eqb (size (shards r)) 0.

(** ** Clockwise order *)

(** From [point], [h] comes no later than [h'] going clockwise. *)
Definition clockwise (point h h' : N) : Prop :=
  (point <= h /\ h' < point)%N ∨ ((point <= h ↔ point <= h') ∧ h <= h')%N.

(** [h] is the first key of [m] clockwise from [point]. *)
Definition first_from (m : gmap N ShardId) (point h : N) : Prop :=
  ∀ h', is_Some (m !! h') → clockwise point h h'.

Lemma clockwise_antisym point h h' : clockwise point h h' → clockwise point h' h → h = h'.
Proof. unfold clockwise. lia. Qed.

Lemma successor_first m point h o :
  successor m point = Some (h, o) → m !! h = Some o ∧ first_from m point h.
Proof.
  unfold successor, first_from. pose proof (btree_iter_sorted m) as HS.
  destruct (List.find _ (btree_iter m)) as [e|] eqn:Ef.
  - intros [= ->].
    assert (∀ l, StronglySorted entry_le l → List.find (λ e, (point <=? e.1)%N) l = Some (h, o) →
      (h, o) ∈ l ∧ (point <= h)%N ∧ ∀ e, e ∈ l → (point <= e.1)%N → (h <= e.1)%N) as Hl.
    { clear. induction l as [|[h1 o1] l IH]; intros HS Hf; [done|].
      apply StronglySorted_inv in HS as [HS Hall]. simpl in Hf.
      destruct (N.leb_spec point h1) as [Hle|Hgt].
      - injection Hf as -> ->. split_and!; [by left|done|].
        intros e [->|He]%elem_of_cons _; [done|]. by apply (proj1 (Forall_forall _ _) Hall e He).
      - destruct (IH HS Hf) as (H1 & H2 & H3). split_and!; [by right|done|].
        intros e [->|He]%elem_of_cons Hp; [simpl in Hp; lia|by apply H3]. }
    destruct (Hl _ HS Ef) as (H1 & H2 & H3). apply elem_of_btree_iter in H1. split; [done|].
    intros h' [o' Ho']. apply elem_of_btree_iter in Ho'. unfold clockwise.
    destruct (N.le_gt_cases point h') as [Hle|Hgt]; [right|by left].
    specialize (H3 (h', o') Ho' Hle). simpl in H3. lia.
  - pose proof (find_none _ _ Ef) as Hn. destruct (btree_iter m) as [|e l] eqn:El; [done|].
    intros [= ->]. apply StronglySorted_inv in HS as [_ Hall]. split.
    { apply elem_of_btree_iter. rewrite El. by left. }
    assert (∀ x, x ∈ (h, o) :: l → (x.1 < point)%N ∧ (h <= x.1)%N) as Hx.
    { intros x Hx. split; [by apply N.leb_gt, Hn, list_elem_of_In|].
      apply elem_of_cons in Hx as [->|Hx]; [done|]. by apply (proj1 (Forall_forall _ _) Hall x Hx). }
    intros h' [o' Ho']. apply elem_of_btree_iter in Ho'. rewrite El in Ho'.
    destruct (Hx _ Ho') as [? ?]. destruct (Hx (h, o)) as [? _]; [by left|]. simpl in *.
    right. lia.
Qed.

Lemma successor_None m point : successor m point = None ↔ m = ∅.
Proof.
  unfold successor. split.
  - destruct (List.find _ _); [done|]. intros Hh. apply map_eq. intros k. rewrite lookup_empty.
    destruct (m !! k) as [o|] eqn:Ek; [|done]. apply elem_of_btree_iter in Ek.
    destruct (btree_iter m); [by apply elem_of_nil in Ek|done].
  - intros ->. unfold btree_iter. by rewrite map_to_list_empty.
Qed.

Lemma successor_spec m point h o :
  successor m point = Some (h, o) ↔ m !! h = Some o ∧ first_from m point h.
Proof.
  split; [apply successor_first|]. intros [Hh Hf].
  destruct (successor m point) as [[h' o']|] eqn:E.
  - apply successor_first in E as [Hh' Hf'].
    assert (h' = h) as -> by (eapply clockwise_antisym; [apply Hf'; eauto|apply Hf; eauto]). congruence.
  - apply successor_None in E as ->. by rewrite lookup_empty in Hh.
Qed.

(** Shrinking the ring to a part that keeps the owner's point keeps the owner. *)
Lemma successor_mono m m' point h o :
  (∀ k, is_Some (m' !! k) → is_Some (m !! k)) → m' !! h = Some o →
  (∃ o', successor m point = Some (h, o')) → successor m' point = Some (h, o).
Proof.
  intros Hsub Hh [o' [_ Hf]%successor_spec]. apply successor_spec. split; [done|].
  intros h' Hh'. by apply Hf, Hsub.
Qed.

(** ** Membership changes *)

Lemma place_lookup shard l (m : gmap N ShardId) h :
  foldl (λ m vnode, <[virtual_node_hash shard vnode := shard]> m) m l !! h
  = if decide (h ∈ virtual_node_hash shard <$> l) then Some shard else m !! h.
Proof.
  revert m. induction l as [|v l IH]; intros m; cbn [foldl].
  { by rewrite decide_False by apply not_elem_of_nil. }
  rewrite IH, fmap_cons. destruct (decide (h = virtual_node_hash shard v)) as [->|Hne].
  - rewrite lookup_insert_eq. destruct (decide (_ ∈ _ :: _)) as [_|Hn]; [by case_decide|].
    destruct Hn. by left.
  - rewrite lookup_insert_ne by done. apply decide_ext. rewrite elem_of_cons. naive_solver.
Qed.

Lemma add_shard_lookup r shard h :
  shard ∉ shards r →
  ring (add_shard r shard) !! h
  = if decide (h ∈ virtual_node_hash shard <$> seq 0 VIRTUAL_NODES) then Some shard
    else ring r !! h.
Proof. intros Hn. unfold add_shard. rewrite decide_False by done. apply place_lookup. Qed.

Lemma remove_shard_lookup r shard h o :
  shard ∈ shards r →
  ring (remove_shard r shard) !! h = Some o ↔ ring r !! h = Some o ∧ o ≠ shard.
Proof. intros Hs. unfold remove_shard. rewrite decide_True by done. apply map_lookup_filter_Some. Qed.

Lemma add_shard_placement r shard room_id :
  shard_for (add_shard r shard) room_id = shard_for r room_id
  ∨ shard_for (add_shard r shard) room_id = Some shard.
Proof.
  destruct (decide (shard ∈ shards r)) as [Hs|Hs].
  { left. unfold add_shard. by rewrite decide_True. }
  unfold shard_for. set (p := hash room_id).
  destruct (successor (ring (add_shard r shard)) p) as [[h o]|] eqn:E.
  - pose proof E as [Hh _]%successor_spec. rewrite add_shard_lookup in Hh by done.
    case_decide as Hv; [right; by injection Hh as <-|left].
    rewrite (successor_mono (ring (add_shard r shard)) (ring r) p h o); [done| |done|eauto].
    intros k Hk. rewrite add_shard_lookup by done. by case_decide.
  - left. apply successor_None in E. f_equal. symmetry. apply successor_None.
    apply map_eq. intros k. rewrite lookup_empty.
    pose proof (f_equal (lookup k) E) as Ek. rewrite add_shard_lookup, lookup_empty in Ek by done.
    by case_decide.
Qed.

Lemma remove_shard_placement r shard room_id o :
  shard_for r room_id = Some o → o ≠ shard → shard_for (remove_shard r shard) room_id = Some o.
Proof.
  intros Ho Hne. destruct (decide (shard ∈ shards r)) as [Hs|Hs].
  2:{ unfold remove_shard. by rewrite decide_False. }
  unfold shard_for in *. apply fmap_Some in Ho as ([h o'] & E & ->). simpl in Hne.
  pose proof E as [Hh _]%successor_spec.
  rewrite (successor_mono (ring r) _ _ h o'); [done| | |eauto].
  - intros k [x [? _]%remove_shard_lookup]; [eauto|done].
  - by apply remove_shard_lookup.
Qed.

(** Every point on the ring is a virtual node of the member that owns it. *)
Definition ring_wf (r : ShardRing) : Prop := ∀ h s, ring r !! h = Some s →
  s ∈ shards r ∧ ∃ v, v < VIRTUAL_NODES ∧ h = virtual_node_hash s v.

Lemma elem_of_vnodes s h :
  h ∈ virtual_node_hash s <$> seq 0 VIRTUAL_NODES
  ↔ ∃ v, v < VIRTUAL_NODES ∧ h = virtual_node_hash s v.
Proof.
  rewrite list_elem_of_fmap. setoid_rewrite elem_of_seq. split.
  - intros (v & -> & Hv). exists v. split; [lia|done].
  - intros (v & Hv & ->). exists v. split; [done|lia].
Qed.

Lemma shards_add r s : shards (add_shard r s) = {[s]} ∪ shards r.
Proof. unfold add_shard. case_decide; simpl; [set_solver|done]. Qed.

Lemma shards_remove r s : shards (remove_shard r s) = shards r ∖ {[s]}.
Proof. unfold remove_shard. case_decide; simpl; [done|set_solver]. Qed.

Lemma add_shard_wf r s : ring_wf r → ring_wf (add_shard r s).
Proof.
  intros Hr. destruct (decide (s ∈ shards r)) as [Hs|Hs].
  { unfold add_shard. by rewrite decide_True. }
  intros h t. rewrite add_shard_lookup, shards_add by done. case_decide as Hv.
  - intros [= <-]. split; [|by apply elem_of_vnodes]. by apply elem_of_union_l, elem_of_singleton.
  - intros [? ?]%Hr. split; [by apply elem_of_union_r|done].
Qed.

Lemma remove_shard_wf r s : ring_wf r → ring_wf (remove_shard r s).
Proof.
  intros Hr. destruct (decide (s ∈ shards r)) as [Hs|Hs].
  2:{ unfold remove_shard. by rewrite decide_False. }
  intros h t [Ht Hne]%remove_shard_lookup; [|done]. rewrite shards_remove.
  apply Hr in Ht as [? ?]. split; [set_solver|done].
Qed.

Lemma shard_for_member r room_id s : ring_wf r → shard_for r room_id = Some s → s ∈ shards r.
Proof.
  intros Hr ([h o] & [Hh _]%successor_spec & ->)%fmap_Some. by apply Hr in Hh as [? _].
Qed.

Lemma elem_of_reassignments r target rooms x :
  x ∈ reassignments r target rooms ↔
  room x ∈ rooms ∧ shard_for r (room x) = Some (from x)
  ∧ shard_for target (room x) = Some (to x) ∧ from x ≠ to x.
Proof.
  unfold reassignments. rewrite list_elem_of_omap. split.
  - intros (rm & Hrm & Hx). destruct (shard_for r rm) as [f|] eqn:Ef; [|done].
    destruct (shard_for target rm) as [t|] eqn:Et; [|done]. simpl in Hx.
    destruct (String.eqb_spec f t); [done|]. by injection Hx as <-.
  - destruct x as [rm f t]; simpl. intros (Hrm & Hf & Ht & Hne). exists rm. split; [done|].
    rewrite Hf, Ht. simpl. by rewrite (proj2 (String.eqb_neq f t) Hne).
Qed.

(** ** Rings built by membership changes *)

Inductive RingOp := Add (s : ShardId) | Remove (s : ShardId).

Definition op_shard (o : RingOp) : ShardId := match o with Add s | Remove s => s end.

Definition ring_step (r : ShardRing) (o : RingOp) : ShardRing :=
  match o with Add s => add_shard r s | Remove s => remove_shard r s end.

Definition ring_run (ops : list RingOp) : ShardRing := foldl ring_step ring_new ops.

Definition mentioned (ops : list RingOp) : gset ShardId := list_to_set (op_shard <$> ops).

(** Distinct shards of [S] have distinct virtual nodes. *)
Definition spread (S : gset ShardId) : Prop := ∀ s t v w,
  s ∈ S → t ∈ S → v < VIRTUAL_NODES → w < VIRTUAL_NODES →
  virtual_node_hash s v = virtual_node_hash t w → s = t.

(** The ring holds exactly the virtual nodes of its members. *)
Definition ring_exact (r : ShardRing) : Prop := ∀ h s, ring r !! h = Some s ↔
  s ∈ shards r ∧ ∃ v, v < VIRTUAL_NODES ∧ h = virtual_node_hash s v.

Lemma ring_run_wf ops : ring_wf (ring_run ops).
Proof.
  unfold ring_run. induction ops as [|o ops IH] using rev_ind.
  { intros h s. cbn [foldl ring ring_new]. by rewrite lookup_empty. }
  rewrite foldl_app. destruct o; [by apply add_shard_wf|by apply remove_shard_wf].
Qed.

Lemma ring_step_exact S r o :
  spread S → shards r ⊆ S → op_shard o ∈ S → ring_exact r → ring_exact (ring_step r o).
Proof.
  intros Hsp Hsub Ho Hr h t. destruct o as [s|s]; simpl in *.
  - rewrite shards_add. destruct (decide (s ∈ shards r)) as [Hs|Hs].
    { unfold add_shard. rewrite decide_True by done. rewrite (Hr h t). set_solver. }
    rewrite add_shard_lookup by done. case_decide as Hv.
    + apply elem_of_vnodes in Hv as (v & Hv & ->). split.
      * intros [= <-]. split; [set_solver|eauto].
      * intros [Ht (w & Hw & E)]. f_equal. apply (Hsp s t v w); set_solver.
    + rewrite elem_of_vnodes in Hv. rewrite (Hr h t), elem_of_union, elem_of_singleton. naive_solver.
  - rewrite shards_remove. destruct (decide (s ∈ shards r)) as [Hs|Hs].
    + rewrite remove_shard_lookup, (Hr h t) by done. set_solver.
    + unfold remove_shard. rewrite decide_False by done. rewrite (Hr h t). set_solver.
Qed.

Lemma shards_mentioned ops : shards (ring_run ops) ⊆ mentioned ops.
Proof.
  unfold ring_run, mentioned. induction ops as [|o ops IH] using rev_ind; [done|].
  rewrite foldl_app, fmap_app, list_to_set_app. simpl.
  destruct o; simpl; [rewrite shards_add|rewrite shards_remove]; set_solver.
Qed.

Lemma ring_run_exact ops S : spread S → mentioned ops ⊆ S → ring_exact (ring_run ops).
Proof.
  intros Hsp. unfold ring_run. induction ops as [|o ops IH] using rev_ind; intros Hm.
  { intros h s. cbn [foldl ring shards ring_new]. rewrite lookup_empty. set_solver. }
  unfold mentioned in Hm. rewrite fmap_app, list_to_set_app in Hm.
  rewrite foldl_app. apply (ring_step_exact S); [done| |set_solver|apply IH; unfold mentioned; set_solver].
  etrans; [apply shards_mentioned|]. unfold mentioned. set_solver.
Qed.

Lemma ring_exact_eq r r' : ring_exact r → ring_exact r' → shards r = shards r' → r = r'.
Proof.
  intros Hr Hr' Hs. destruct r as [m S], r' as [m' S']; simpl in *; subst. f_equal.
  apply map_eq. intros h. apply option_eq. intros s. by rewrite (Hr h s), (Hr' h s).
Qed.

Lemma ring_exact_placement r room_id s :
  ring_exact r →
  shard_for r room_id = Some s ↔
  s ∈ shards r ∧ ∃ v, v < VIRTUAL_NODES ∧ ∀ t w, t ∈ shards r → w < VIRTUAL_NODES →
    clockwise (hash room_id) (virtual_node_hash s v) (virtual_node_hash t w).
Proof.
  intros Hr. unfold shard_for. rewrite fmap_Some. split.
  - intros ([h o] & [Hh Hf]%successor_spec & ->). apply Hr in Hh as [Hs (v & Hv & ->)].
    split; [done|]. exists v. split; [done|]. intros t w Ht Hw. apply Hf. exists t. apply Hr. eauto.
  - intros [Hs (v & Hv & Hc)]. exists (virtual_node_hash s v, s). split; [|done].
    apply successor_spec. split; [apply Hr; eauto|].
    intros h' [t [Ht (w & Hw & ->)]%Hr]. by apply Hc.
Qed.

Lemma ring_exact_total r room_id : ring_exact r → shard_for r room_id = None ↔ shards r = ∅.
Proof.
  intros Hr. unfold shard_for. rewrite fmap_None, successor_None. split.
  - intros He. apply set_eq. intros s. split; [|set_solver]. intros Hs.
    assert (ring r !! virtual_node_hash s 0 = Some s) as Hv.
    { apply Hr. split; [done|]. exists 0. split; [unfold VIRTUAL_NODES; lia|done]. }
    rewrite He in Hv. by rewrite lookup_empty in Hv.
  - intros He. apply map_eq. intros h. rewrite lookup_empty.
    destruct (ring r !! h) as [s|] eqn:Eh; [|done]. apply Hr in Eh as [Hs _]. set_solver.
Qed.

Definition vnodes (s : ShardId) : list N := virtual_node_hash s <$> seq 0 VIRTUAL_NODES.

Lemma elem_of_vnodes_join (l : list ShardId) s v :
  s ∈ l → v < VIRTUAL_NODES → virtual_node_hash s v ∈ mjoin (vnodes <$> l).
Proof.
  intros Hs Hv. apply list_elem_of_join. exists (vnodes s). split; [apply elem_of_vnodes; eauto|].
  apply list_elem_of_fmap. eauto.
Qed.

Lemma spread_decide (l : list ShardId) :
  bool_decide (NoDup (mjoin (vnodes <$> l))) = true → spread (list_to_set l).
Proof.
  rewrite bool_decide_eq_true. intros ND s t v w Hs%elem_of_list_to_set Ht%elem_of_list_to_set Hv Hw E.
  induction l as [|a l IH]; [by apply elem_of_nil in Hs|]. rewrite fmap_cons in ND.
  apply NoDup_app in ND as (_ & Hdis & ND).
  assert (∀ x, x < VIRTUAL_NODES → virtual_node_hash a x ∈ vnodes a) as Ha
    by (intros x Hx; apply elem_of_vnodes; eauto).
  apply elem_of_cons in Hs as [->|Hs], Ht as [->|Ht]; [done|exfalso..|by apply IH].
  - apply (Hdis _ (Ha v Hv)). rewrite E. by apply elem_of_vnodes_join.
  - apply (Hdis _ (Ha w Hw)). rewrite <-E. by apply elem_of_vnodes_join.
Qed.

(** ** Properties *)

(** Membership changes disrupt no placement they do not have to: adding a
    shard moves a room only onto that shard, and removing a shard leaves every
    room owned by another shard where it was and places nothing on the removed
    shard. *)
Theorem membership_change_minimal (ops : list RingOp) (shard : ShardId) (room_id : string) :
  let r := ring_run ops in
  (shard_for (add_shard r shard) room_id = shard_for r room_id
   ∨ shard_for (add_shard r shard) room_id = Some shard)
  ∧ (∀ owner, owner ≠ shard → shard_for r room_id = Some owner →
       shard_for (remove_shard r shard) room_id = Some owner)
  ∧ shard_for (remove_shard r shard) room_id ≠ Some shard.
Proof.
  intros r. split_and!; [apply add_shard_placement|by intros; apply remove_shard_placement|].
  intros Hs%shard_for_member; [|by apply remove_shard_wf, ring_run_wf].
  rewrite shards_remove in Hs. set_solver.
Qed.

(** Placement is a function of the membership: if the virtual nodes of the
    shards involved do not collide, any two histories of additions and removals
    that end with the same members build the same ring; a room is unplaced only
    when there are no members, and otherwise belongs to the member owning the
    first virtual node clockwise from the room's point. *)
Theorem placement_by_membership (ops ops' : list RingOp) (room_id : string) (s : ShardId) :
  spread (mentioned ops ∪ mentioned ops') → shards (ring_run ops) = shards (ring_run ops') →
  let r := ring_run ops in
  ring_run ops' = r
  ∧ (shard_for r room_id = None ↔ shards r = ∅)
  ∧ (shard_for r room_id = Some s ↔
     s ∈ shards r ∧ ∃ v, v < VIRTUAL_NODES ∧ ∀ t w, t ∈ shards r → w < VIRTUAL_NODES →
       clockwise (hash room_id) (virtual_node_hash s v) (virtual_node_hash t w)).
Proof.
  intros Hsp Hs r.
  assert (ring_exact r) as Hr by (apply (ring_run_exact _ _ Hsp); set_solver).
  assert (ring_exact (ring_run ops')) as Hr' by (apply (ring_run_exact _ _ Hsp); set_solver).
  split_and!; [by apply ring_exact_eq|by apply ring_exact_total|by apply ring_exact_placement].
Qed.

Lemma placement_by_membership_witness :
  ring_run [Add "w2"; Add "w3"; Add "w1"; Remove "w3"] = ring_run [Add "w1"; Add "w2"].
Proof.
  apply (placement_by_membership [Add "w1"; Add "w2"] [Add "w2"; Add "w3"; Add "w1"; Remove "w3"]
    "!room:a.org" "w1").
  - replace (mentioned [Add "w1"; Add "w2"] ∪ mentioned [Add "w2"; Add "w3"; Add "w1"; Remove "w3"])
      with (list_to_set ["w1"; "w2"; "w3"] : gset ShardId) by (vm_compute; reflexivity).
    apply spread_decide. vm_compute. reflexivity.
  - vm_compute. reflexivity.
Defined.

(** The reassignment plan is exact: it lists, for the given rooms, exactly
    those whose owner differs between the two rings, with both owners; and the
    plan for draining a shard only moves rooms off that shard. *)
Theorem reassignments_exact (r target : ShardRing) (rooms : list string) (x : Reassignment) :
  (x ∈ reassignments r target rooms ↔
   room x ∈ rooms ∧ shard_for r (room x) = Some (from x)
   ∧ shard_for target (room x) = Some (to x) ∧ from x ≠ to x)
  ∧ ∀ shard, x ∈ reassignments r (remove_shard r shard) rooms → from x = shard.
Proof.
  split; [apply elem_of_reassignments|].
  intros shard (_ & Hf & Ht & Hne)%elem_of_reassignments.
  destruct (decide (from x = shard)) as [|Hn]; [done|].
  rewrite (remove_shard_placement r shard _ _ Hf Hn) in Ht. by injection Ht.
Qed.
