(* ===== verification/SlidingWindow.v ===== *)
(** * gm-client: the sliding-sync window ([src/src/client/sync.rs])

    Room lists, inclusive index ranges, and the rooms that become visible when
    the ranges or the ordering change. *)

From S2P Require Import Prelude Bytes.

Record SlidingWindow := mkWindow {
  rooms : list string;
  ranges : list (nat * nat);
}.

Definition window_new (rs : list string) : SlidingWindow := mkWindow rs [].
Definition window_len (w : SlidingWindow) : nat := length (rooms w).
Definition window_is_empty (w : SlidingWindow) : bool := Nat.eqb (length (rooms w)) 0.

(** The indices [start..=end] of one range, clamped to [count] rooms. *)
Definition range_indices (count : nat) (r : nat * nat) : list nat :=
  let '(start, end_) := r in
  if Nat.leb count start then []
  else
    let end_ := Nat.min end_ (count - 1) in
    seq start (S end_ - start).

Definition visible_indices (w : SlidingWindow) : gset nat :=
  foldl (λ indices r, foldl (λ s i, {[i]} ∪ s) indices (range_indices (length (rooms w)) r))
    ∅ (ranges w).

Definition request (w : SlidingWindow) (rs : list (nat * nat)) : list string * SlidingWindow :=
  let previous := visible_indices w in
  let w := mkWindow (rooms w) rs in
  let current := visible_indices w in
  (omap (λ i, rooms w !! i) (bset_iter (current ∖ previous)), w).

Definition visible (w : SlidingWindow) : list string :=
  omap (λ i, rooms w !! i) (bset_iter (visible_indices w)).

Definition reorder (w : SlidingWindow) (rs : list string) : list string * SlidingWindow :=
  let previous : gset string := list_to_set (visible w) in
  let w := mkWindow rs (ranges w) in
  (List.filter (λ room, negb (bool_decide (room ∈ previous))) (visible w), w).

(** ** Lemmas *)

(** Index [i] is in the window: it names a room and some range covers it. *)
Definition covered (w : SlidingWindow) (i : nat) : Prop :=
  i < length (rooms w) ∧ ∃ r, r ∈ ranges w ∧ r.1 ≤ i ≤ r.2.

Lemma elem_of_range_indices count r i :
  i ∈ range_indices count r ↔ i < count ∧ r.1 ≤ i ≤ r.2.
Proof.
  destruct r as [a b]. unfold range_indices. simpl. destruct (Nat.leb_spec count a).
  - rewrite elem_of_nil. lia.
  - rewrite elem_of_seq. lia.
Qed.

Lemma elem_of_foldl_insert (l : list nat) (s : gset nat) i :
  i ∈ foldl (λ s i, {[i]} ∪ s) s l ↔ i ∈ l ∨ i ∈ s.
Proof. revert s. induction l as [|x l IH]; intros s; simpl; [set_solver|]. rewrite IH. set_solver. Qed.

Lemma elem_of_visible_indices w i : i ∈ visible_indices w ↔ covered w i.
Proof.
  unfold visible_indices, covered. destruct w as [rs l]; simpl.
  assert (∀ s : gset nat, i ∈ foldl (λ indices r, foldl (λ s i, {[i]} ∪ s) indices
      (range_indices (length rs) r)) s l ↔ i ∈ s ∨ ∃ r, r ∈ l ∧ i ∈ range_indices (length rs) r) as Hf.
  { induction l as [|r l IH]; intros s; simpl; [set_solver|].
    rewrite IH, elem_of_foldl_insert. setoid_rewrite elem_of_cons. naive_solver. }
  rewrite Hf. setoid_rewrite elem_of_range_indices. set_solver.
Qed.

(** The rooms at a set of in-range indices, ascending. *)
Lemma rooms_at (l : list string) (s : gset nat) :
  (∀ i, i ∈ s → i < length l) → (λ i, l !!! i) <$> bset_iter s = omap (λ i, l !! i) (bset_iter s).
Proof.
  intros Hs. assert (∀ i, i ∈ bset_iter s → i < length l) as Hi
    by (intros i ?; by apply Hs, elem_of_bset_iter).
  induction (bset_iter s) as [|i l0 IH]; [done|]. csimpl.
  destruct (lookup_lt_is_Some_2 l i) as [x Hx]; [apply Hi; by left|].
  rewrite (list_lookup_total_correct _ _ _ Hx), Hx. f_equal. apply IH. set_solver.
Qed.

Lemma visible_rooms w : visible w = (λ i, rooms w !!! i) <$> bset_iter (visible_indices w).
Proof. symmetry. apply rooms_at. by intros i [? _]%elem_of_visible_indices. Qed.

(** ** Properties *)

(** The window materialises exactly the rooms of the requested ranges, in
    order and once per index however the ranges overlap: a request returns the
    rooms at the indices newly covered, after it the visible rooms are those at
    the covered indices, and no more rooms are visible than the ranges ask
    for. *)
Theorem request_exact (w : SlidingWindow) (rs : list (nat * nat)) :
  let '(fresh, w') := request w rs in
  ∃ new all : list nat,
    fresh = (λ i, rooms w !!! i) <$> new
    ∧ visible w' = (λ i, rooms w !!! i) <$> all
    ∧ (∀ i, i ∈ new ↔ covered (mkWindow (rooms w) rs) i ∧ ¬ covered w i)
    ∧ (∀ i, i ∈ all ↔ covered (mkWindow (rooms w) rs) i)
    ∧ StronglySorted le new ∧ StronglySorted le all ∧ NoDup new ∧ NoDup all
    ∧ length all ≤ sum_list_with (λ r, S r.2 - r.1) rs.
Proof.
  unfold request. set (w' := mkWindow (rooms w) rs).
  exists (bset_iter (visible_indices w' ∖ visible_indices w)), (bset_iter (visible_indices w')).
  split_and!; [|apply (visible_rooms w')| | |exact (bset_iter_sorted (K:=nat) _)..|apply bset_iter_NoDup
    |apply bset_iter_NoDup|].
  - symmetry. apply (rooms_at (rooms w')).
    by intros i [[? _]%elem_of_visible_indices _]%elem_of_difference.
  - intros i. by rewrite elem_of_bset_iter, elem_of_difference, !elem_of_visible_indices.
  - intros i. by rewrite elem_of_bset_iter, elem_of_visible_indices.
  - rewrite bset_iter_perm. change (length (elements ?s)) with (size s).
    assert (visible_indices w' ⊆ ⋃ ((λ r, list_to_set (seq r.1 (S r.2 - r.1))) <$> rs)) as Hsub.
    { intros i (_ & r & Hr & Hi)%elem_of_visible_indices. apply elem_of_union_list.
      eexists. split; [apply list_elem_of_fmap; by exists r|]. apply elem_of_list_to_set, elem_of_seq. lia. }
    etrans; [apply (subseteq_size _ _ Hsub)|]. clear. induction rs as [|r rs IH]; [done|]. csimpl.
    rewrite size_union_alt, size_list_to_set, length_seq by apply NoDup_seq.
    apply Nat.add_le_mono_l. etrans; [|done]. apply subseteq_size. set_solver.
Qed.

(** A server reorder reports exactly the rooms that came into view: the
    returned rooms are the visible rooms of the new ordering that were not
    visible before, in window order, and the ranges stay. *)
Theorem reorder_exact (w : SlidingWindow) (rs : list string) :
  let '(fresh, w') := reorder w rs in
  rooms w' = rs ∧ ranges w' = ranges w
  ∧ sublist fresh (visible w')
  ∧ ∀ room, room ∈ fresh ↔ room ∈ visible w' ∧ room ∉ visible w.
Proof.
  unfold reorder. split_and!; [done..| |].
  - generalize (visible (mkWindow rs (ranges w))). intros l.
    induction l as [|x l IH]; [constructor|]. simpl. destruct (negb _); by constructor.
  - intros x. rewrite list_elem_of_In, filter_In, <-list_elem_of_In, negb_true_iff,
      bool_decide_eq_false, elem_of_list_to_set. done.
Qed.
