(* ===== verification/Core.v ===== *)
(** * gaussmatrix_core: errors and hashing used by the services
    ([src/src/core/error], [src/src/core/utils/hash/sha256.rs])

    [Error] has the variants the modelled services construct.  The SHA-256
    primitive itself belongs to the [ring] crate and is the parameter of the
    class [Sha256], of which only the digest length is assumed; collision
    freedom is never assumed, statements that need it exhibit a collision among
    the inputs that were actually hashed. *)

From stdpp Require Export pretty.
From S2P Require Import Prelude Bytes.

Inductive ErrorKind :=
  | InvalidParam | Forbidden | NotFound | MissingToken | TooLarge | UnsupportedRoomVersion | BadJson | UserSuspended | Unknown.

(** [ErrMsg] is [Error::Err]; [Error::Request] always carries status 400 where
    [err!] builds it. *)
Inductive Error :=
  | ErrMsg (msg : string)
  | Database (msg : string)
  | Request (kind : ErrorKind) (msg : string)
  | AuthCheck (e : Error).

#[export] Instance error_kind_eq_dec : EqDecision ErrorKind.
Proof. solve_decision. Defined.
#[export] Instance error_eq_dec : EqDecision Error.
Proof. solve_decision. Defined.

(** [Error::is_not_found]: the status code is 404.  Of the variants here only a
    [Request] of kind [NotFound] maps to it. *)
Definition is_not_found (e : Error) : bool :=
  match e with Request NotFound _ => true | _ => false end.

(** [[0_u8; n]]. *)
Definition zeros (n : nat) : string := Nat.iter n (String Ascii.zero) EmptyString.

Lemma length_zeros n : String.length (zeros n) = n.
Proof. induction n as [|n IH]; [done|]. simpl. by f_equal. Qed.

Definition DIGEST_LEN : nat := 32.

Class Sha256 := {
  digest : string → string;
  digest_len : ∀ s, String.length (digest s) = DIGEST_LEN;
}.

Section sha256.
Context `{Sha256}.

(** [sha256::hash]. *)
Definition sha256_hash (input : string) : string := digest input.

(** [sha256::concat]: the context absorbs the inputs one after the other. *)
Definition sha256_concat (inputs : list string) : string :=
  digest (foldl String.append "" inputs).

(** [sha256::delimited]: the inputs joined by [0xFF] bytes. *)
Definition sha256_delimited (inputs : list string) : string :=
  digest (String.concat (String (ascii_of_N 255) EmptyString) inputs).

(** Two different inputs, one of each list, with the same digest. *)
Definition collision_between (xs ys : list string) : Prop :=
  ∃ x y, x ∈ xs ∧ y ∈ ys ∧ x ≠ y ∧ digest x = digest y.
End sha256.

(** A digest for the witnesses: the input cut or padded with zeros to 32 bytes. *)
Module ToySha.
Definition toy_digest (s : string) : string := str_take DIGEST_LEN (s +:+ zeros DIGEST_LEN).

#[export] Program Instance toy_sha : Sha256 := {| digest := toy_digest |}.
Next Obligation.
  intros s. apply length_str_take. rewrite length_append, length_zeros. lia.
Qed.
End ToySha.
