(* ===== verification/AuditService.v ===== *)
(** * The tamper-evident audit log ([src/src/service/audit/mod.rs])

    The service over any store meeting [KvContract] and any digest.  It is
    shown to refine an append-only list of payloads, and [verify] is shown to
    accept a persisted log only if it is the appended one, or else two of the
    inputs hashed for the two logs collide. *)

From S2P Require Import Prelude Bytes Store Core.

Definition HASH_LEN : nat := 32.
Abbreviation Hash := string.
Definition GENESIS : Hash := zeros HASH_LEN.

Record ChainHead := mkHead { next_seq : N; head_hash_of : Hash }.

(** A raw entry: sequence number, predecessor hash, payload. *)
Abbreviation RawEntry := (N * string * string)%type.

Section service.
Context {B : Type} `{KvBackend B} `{Sha256}.

(** The store handle and the head behind its mutex. *)
Record Service := mkService { store : B; head : ChainHead; head_poisoned : bool }.

Definition lock_poisoned : Error := Database "audit log lock poisoned".

Definition entry_hash (seq : N) (prev payload : string) : Hash :=
  sha256_concat [u64_to_be_bytes seq; prev; payload].

Definition decode_seq (key : string) : Result Error N :=
  ok_or (Database "audit log key is not an 8-byte sequence") (from_be_bytes 8 key).

Definition decode_entry (e : string * string) : Result Error RawEntry :=
  let '(key, value) := e in
  let? seq := decode_seq key in
  if Nat.ltb (String.length value) HASH_LEN then
    Err (Database ("audit log entry " +:+ pretty seq +:+ " is too short"))
  else
    let prev := str_take HASH_LEN value in
    let payload := str_drop HASH_LEN value in
    if Nat.eqb (String.length prev) HASH_LEN then Ok ((seq, prev), payload)
    else Err (Database ("audit log entry " +:+ pretty seq +:+ " has a malformed link")).

Fixpoint decode_entries (l : list (string * string)) : Result Error (list RawEntry) :=
  match l with
  | [] => Ok []
  | e :: l =>
      let? x := decode_entry e in
      let? xs := decode_entries l in
      Ok (x :: xs)
  end.

Definition read_raw (s : B) : Result Error (list RawEntry) :=
  let? scanned := map_err (λ e, Database ("audit log scan failed: " +:+ store_error_display e))
                    (dyn_prefix_scan s AuditLog "") in
  decode_entries scanned.

Definition read_entries (s : B) : Result Error (list (N * string)) :=
  let? raw := read_raw s in
  Ok ((λ e : RawEntry, (e.1.1, e.2)) <$> raw).

Definition recover_step (_ : ChainHead) (e : RawEntry) : ChainHead :=
  let '((seq, prev), payload) := e in
  mkHead (u64_saturating_add seq 1) (entry_hash seq prev payload).

Definition recover_head (s : B) : Result Error ChainHead :=
  let? raw := read_raw s in
  Ok (foldl recover_step (mkHead 0 GENESIS) raw).

Definition build (s : B) : Result Error Service :=
  let? h := recover_head s in
  Ok (mkService s h false).

Definition append (svc : Service) (payload : string) : Result Error N * Service :=
  if head_poisoned svc then (Err lock_poisoned, svc)
  else
    let seq := next_seq (head svc) in
    let this_hash := entry_hash seq (head_hash_of (head svc)) payload in
    let value := head_hash_of (head svc) +:+ payload in
    match dyn_put (store svc) AuditLog (u64_to_be_bytes seq) value with
    | (Err e, s) =>
        (Err (Database ("audit log append failed: " +:+ store_error_display e)),
         mkService s (head svc) false)
    | (Ok _, s) => (Ok seq, mkService s (mkHead (u64_saturating_add seq 1) this_hash) false)
    end.

Definition entries (svc : Service) : Result Error (list (N * string)) := read_entries (store svc).

Definition tail (svc : Service) (n : nat) : Result Error (list (N * string)) :=
  let? all := read_entries (store svc) in
  Ok (drop (length all - n) all).

Definition count (svc : Service) : Result Error nat :=
  let? all := read_entries (store svc) in
  Ok (length all).

Definition head_hash (svc : Service) : Result Error Hash :=
  if head_poisoned svc then Err lock_poisoned else Ok (head_hash_of (head svc)).

(** The checking loop of [verify]: the hash and sequence number expected next. *)
Fixpoint verify_loop (raw : list RawEntry) (expected_seq : N) (expected_prev : Hash) :
    Result Error (N * Hash) :=
  match raw with
  | [] => Ok (expected_seq, expected_prev)
  | ((seq, prev), payload) :: raw =>
      if negb (N.eqb seq expected_seq) then
        Err (Database ("audit log sequence gap at " +:+ pretty seq))
      else if negb (String.eqb prev expected_prev) then
        Err (Database ("audit log broken link at seq " +:+ pretty seq))
      else verify_loop raw (u64_saturating_add seq 1) (entry_hash seq prev payload)
  end.

Definition verify (svc : Service) : Result Error () :=
  let? raw := read_raw (store svc) in
  let? expected := verify_loop raw 0 GENESIS in
  if head_poisoned svc then Err lock_poisoned
  else if negb (String.eqb expected.2 (head_hash_of (head svc)))
       || negb (N.eqb expected.1 (next_seq (head svc)))
  then Err (Database "audit log head mismatch — tampering detected")
  else Ok ().

(** ** The abstract log *)

(** The raw entries of a list of payloads appended from [seq] on [prev]. *)
Fixpoint chain_from (seq : N) (prev : Hash) (ps : list string) : list RawEntry :=
  match ps with
  | [] => []
  | p :: ps => ((seq, prev), p) :: chain_from (seq + 1) (entry_hash seq prev p) ps
  end.

Fixpoint chain_end (seq : N) (prev : Hash) (ps : list string) : ChainHead :=
  match ps with
  | [] => mkHead seq prev
  | p :: ps => chain_end (seq + 1) (entry_hash seq prev p) ps
  end.

(** What is hashed for each entry. *)
Definition hash_input (e : RawEntry) : string :=
  foldl String.append "" [u64_to_be_bytes e.1.1; e.1.2; e.2].

Definition encode_entry (e : RawEntry) : string * string :=
  (u64_to_be_bytes e.1.1, e.1.2 +:+ e.2).

Definition log_tree (ps : list string) : Tree :=
  list_to_map (encode_entry <$> chain_from 0 GENESIS ps).

Definition numbered (ps : list string) : list (N * string) :=
  imap (λ i p, (N.of_nat i, p)) ps.
End service.
Arguments Service : clear implicits.

(** ** Lemmas *)

Section codec.
Context `{Sha256}.
Implicit Types (e : RawEntry) (ps : list string).

Definition raw_ok (e : RawEntry) : Prop :=
  (e.1.1 <= U64_MAX)%N ∧ String.length e.1.2 = HASH_LEN.

Lemma decode_seq_encode seq : (seq <= U64_MAX)%N → decode_seq (u64_to_be_bytes seq) = Ok seq.
Proof.
  intros Hs. unfold decode_seq, u64_to_be_bytes.
  by rewrite from_be_bytes_encode by (by apply u64_width).
Qed.

Lemma decode_encode e : raw_ok e → decode_entry (encode_entry e) = Ok e.
Proof.
  destruct e as [[seq prev] payload]. intros [Hs HL]; simpl in Hs, HL.
  unfold decode_entry, encode_entry. rewrite decode_seq_encode by done; simpl.
  rewrite length_append. destruct (Nat.ltb_spec (String.length prev + String.length payload) HASH_LEN);
    [lia|]. rewrite <-HL, str_take_append, str_drop_append, Nat.eqb_refl. done.
Qed.

Lemma encode_decode kv e : decode_entry kv = Ok e → encode_entry e = kv ∧ raw_ok e.
Proof.
  destruct kv as [k v]. unfold decode_entry, decode_seq, from_be_bytes.
  destruct (decide (String.length k = 8)) as [Hk|]; simpl; [|done].
  destruct (Nat.ltb_spec (String.length v) HASH_LEN) as [|HL]; [done|].
  destruct (Nat.eqb_spec (String.length (str_take HASH_LEN v)) HASH_LEN) as [HP|]; [|done].
  intros [= <-]. unfold encode_entry, raw_ok; simpl. split_and!; [| |done].
  - unfold u64_to_be_bytes. by rewrite be_encode_decode, str_take_drop.
  - pose proof (be_decode_lt k) as Hlt. rewrite Hk in Hlt.
    change (256 ^ N.of_nat 8)%N with 18446744073709551616%N in Hlt. unfold U64_MAX. lia.
Qed.

Lemma decode_entries_sound l es :
  decode_entries l = Ok es → encode_entry <$> es = l ∧ Forall raw_ok es.
Proof.
  revert es. induction l as [|kv l IH]; intros es; simpl; [by intros [= <-]|].
  destruct (decode_entry kv) as [e|] eqn:E; simpl; [|done].
  destruct (decode_entries l) as [es'|]; simpl; [|done]. intros [= <-].
  destruct (encode_decode kv e E) as [<- ?]. destruct (IH es' eq_refl) as [<- ?].
  split; [done|]. by constructor.
Qed.

Lemma decode_entries_complete es : Forall raw_ok es → decode_entries (encode_entry <$> es) = Ok es.
Proof.
  induction 1 as [|e es He _ IH]; [done|]. rewrite fmap_cons. cbn [decode_entries].
  by rewrite decode_encode, IH.
Qed.

Lemma entry_hash_len seq prev p : String.length (entry_hash seq prev p) = HASH_LEN.
Proof. apply digest_len. Qed.

Lemma chain_from_ok seq prev ps :
  String.length prev = HASH_LEN → (seq + N.of_nat (length ps) <= U64_MAX)%N →
  Forall raw_ok (chain_from seq prev ps)
  ∧ Forall (λ e, (seq <= e.1.1)%N) (chain_from seq prev ps).
Proof.
  revert seq prev. induction ps as [|p ps IH]; intros seq prev HL Hb; simpl; [done|].
  simpl in Hb. destruct (IH (seq + 1)%N (entry_hash seq prev p)) as [H1 H2];
    [apply entry_hash_len|lia|].
  split; constructor; [split; simpl; [lia|done]|done|simpl; lia|].
  eapply Forall_impl; [exact H2|]. simpl. intros e He. lia.
Qed.

Lemma chain_from_sorted seq prev ps :
  String.length prev = HASH_LEN → (seq + N.of_nat (length ps) <= U64_MAX)%N →
  StronglySorted entry_le (encode_entry <$> chain_from seq prev ps)
  ∧ NoDup (encode_entry <$> chain_from seq prev ps).*1.
Proof.
  revert seq prev. induction ps as [|p ps IH]; intros seq prev HL Hb; [split; constructor|].
  simpl in Hb. csimpl. destruct (IH (seq + 1)%N (entry_hash seq prev p)) as [H1 H2];
    [apply entry_hash_len|lia|].
  destruct (chain_from_ok (seq + 1) (entry_hash seq prev p) ps) as [Hok Hge];
    [apply entry_hash_len|lia|].
  rewrite Forall_forall in Hok, Hge. split; constructor; try done.
  - apply Forall_forall. intros kv (e & -> & He)%list_elem_of_fmap.
    destruct (Hok e He) as [Hu _]. specialize (Hge e He). unfold entry_le; simpl.
    apply be_encode_le; [apply u64_width; lia|by apply u64_width|lia].
  - intros (kv & Ek & (e & -> & He)%list_elem_of_fmap)%list_elem_of_fmap.
    destruct (Hok e He) as [Hu _]. specialize (Hge e He). simpl in Ek.
    apply be_encode_inj in Ek; [lia|apply u64_width; lia|by apply u64_width].
Qed.

Lemma chain_from_app seq prev ps p :
  chain_from seq prev (ps ++ [p])
  = chain_from seq prev ps
    ++ [((next_seq (chain_end seq prev ps), head_hash_of (chain_end seq prev ps)), p)].
Proof. revert seq prev. induction ps as [|q ps IH]; intros seq prev; simpl; [done|]. by rewrite IH. Qed.

Lemma chain_end_app seq prev ps p :
  chain_end seq prev (ps ++ [p])
  = mkHead (next_seq (chain_end seq prev ps) + 1)
      (entry_hash (next_seq (chain_end seq prev ps)) (head_hash_of (chain_end seq prev ps)) p).
Proof. revert seq prev. induction ps as [|q ps IH]; intros seq prev; simpl; [done|]. by rewrite IH. Qed.

Lemma chain_end_seq seq prev ps : next_seq (chain_end seq prev ps) = (seq + N.of_nat (length ps))%N.
Proof.
  revert seq prev. induction ps as [|q ps IH]; intros seq prev; simpl; [lia|]. rewrite IH. lia.
Qed.

Lemma chain_end_len seq prev ps :
  String.length prev = HASH_LEN → String.length (head_hash_of (chain_end seq prev ps)) = HASH_LEN.
Proof.
  revert seq prev. induction ps as [|q ps IH]; intros seq prev HL; simpl; [done|].
  apply IH, entry_hash_len.
Qed.

Lemma chain_payloads seq prev ps :
  (λ e : RawEntry, (e.1.1, e.2)) <$> chain_from seq prev ps
  = imap (λ i p, ((seq + N.of_nat i)%N, p)) ps.
Proof.
  revert seq prev. induction ps as [|p ps IH]; intros seq prev; [done|]. csimpl. rewrite IH.
  f_equal; [by rewrite N.add_0_r|]. apply imap_ext. intros i x _. simpl. f_equal. lia.
Qed.

(** The loop accepts exactly the chains. *)
Lemma verify_loop_chain seq prev ps :
  (seq + N.of_nat (length ps) <= U64_MAX)%N →
  verify_loop (chain_from seq prev ps) seq prev
  = Ok (next_seq (chain_end seq prev ps), head_hash_of (chain_end seq prev ps)).
Proof.
  revert seq prev. induction ps as [|p ps IH]; intros seq prev Hb; simpl; [done|].
  simpl in Hb. rewrite N.eqb_refl, String.eqb_refl. simpl.
  assert (u64_saturating_add seq 1 = seq + 1)%N as -> by (unfold u64_saturating_add; lia).
  apply IH. lia.
Qed.

Lemma verify_loop_inv es seq prev s h :
  verify_loop es seq prev = Ok (s, h) → (s < U64_MAX)%N →
  ∃ ps, es = chain_from seq prev ps ∧ chain_end seq prev ps = mkHead s h.
Proof.
  revert seq prev. induction es as [|[[sq pv] p] es IH]; intros seq prev; simpl.
  { intros [= <- <-] _. by exists []. }
  destruct (N.eqb_spec sq seq) as [->|]; [|done].
  destruct (String.eqb_spec pv prev) as [->|]; [|done]. simpl. intros Hv Hs.
  assert (u64_saturating_add seq 1 = seq + 1)%N as Hadd.
  { destruct (IH _ _ Hv Hs) as (ps & _ & He). apply (f_equal next_seq) in He.
    rewrite chain_end_seq in He. simpl in He. unfold u64_saturating_add in *. lia. }
  rewrite Hadd in Hv. destruct (IH _ _ Hv Hs) as (ps & -> & He). by exists (p :: ps).
Qed.

Lemma recover_chain seq prev ps :
  (seq + N.of_nat (length ps) <= U64_MAX)%N →
  foldl recover_step (mkHead seq prev) (chain_from seq prev ps) = chain_end seq prev ps.
Proof.
  revert seq prev. induction ps as [|p ps IH]; intros seq prev Hb; simpl; [done|]. simpl in Hb.
  assert (u64_saturating_add seq 1 = seq + 1)%N as -> by (unfold u64_saturating_add; lia).
  apply IH. lia.
Qed.

(** Equal chain ends come from equal payloads, or from a collision among the
    hashed entries. *)
Lemma chain_end_inj ps qs :
  length ps = length qs →
  head_hash_of (chain_end 0 GENESIS ps) = head_hash_of (chain_end 0 GENESIS qs) →
  ps = qs ∨ collision_between (hash_input <$> chain_from 0 GENESIS ps)
              (hash_input <$> chain_from 0 GENESIS qs).
Proof.
  revert qs. induction ps as [|p ps IH] using rev_ind; intros qs HL.
  { left. by destruct qs. }
  destruct qs as [|q qs _] using rev_ind; rewrite !length_app in HL; simpl in HL; [lia|].
  assert (length ps = length qs) as HL' by lia.
  rewrite !chain_end_app, !chain_from_app, !fmap_app, !chain_end_seq, HL'. cbn [head_hash_of].
  set (n := (0 + _)%N). unfold entry_hash, sha256_concat.
  change (foldl String.append "" [u64_to_be_bytes n; ?h; ?p]) with (hash_input ((n, h), p)).
  intros He. match type of He with digest ?x = digest ?y => destruct (decide (x = y)) as [Exy|Hne] end.
  - unfold hash_input in Exy. cbn [foldl fst snd] in Exy. apply append_inj_l in Exy as [Exy ->];
      [|by rewrite !length_append, !(chain_end_len 0 GENESIS) by apply length_zeros].
    apply append_inj_l in Exy as [_ Eh]; [|done].
    destruct (IH qs HL' Eh) as [->|(x & y & Hx & Hy & Hxy)]; [by left|right].
    exists x, y. rewrite !elem_of_app. naive_solver.
  - right. eexists _, _. rewrite !elem_of_app. split_and!; [right; by left|right; by left|done|done].
Qed.
End codec.

Section refinement.
Context {B : Type} `{KvContract B} `{Sha256}.
Implicit Types (s : B) (svc : Service B) (ps : list string).

(** [svc] holds the log of payloads [ps]: the store's audit domain is its
    encoding, the head is its end, and the sequence numbers fit. *)
Record audit_log svc ps : Prop := {
  al_ok : kv_ok (store svc);
  al_tree : kv_view (store svc) AuditLog = log_tree ps;
  al_head : head svc = chain_end 0 GENESIS ps;
  al_poison : head_poisoned svc = false;
  al_bound : (N.of_nat (length ps) < U64_MAX)%N;
}.

Lemma genesis_len : String.length GENESIS = HASH_LEN.
Proof. apply length_zeros. Qed.

Lemma scan_log_tree ps :
  (N.of_nat (length ps) < U64_MAX)%N →
  scan_spec (log_tree ps) "" = encode_entry <$> chain_from 0 GENESIS ps.
Proof.
  intros Hb. rewrite scan_spec_all.
  destruct (chain_from_sorted 0 GENESIS ps) as [HS ND]; [apply genesis_len|lia|].
  by apply btree_iter_list_to_map.
Qed.

Lemma decode_log_tree ps :
  (N.of_nat (length ps) < U64_MAX)%N →
  decode_entries (scan_spec (log_tree ps) "") = Ok (chain_from 0 GENESIS ps).
Proof.
  intros Hb. rewrite scan_log_tree by done. apply decode_entries_complete.
  apply chain_from_ok; [apply genesis_len|lia].
Qed.

Lemma read_raw_live s ps :
  kv_ok s → kv_live s → kv_view s AuditLog = log_tree ps → (N.of_nat (length ps) < U64_MAX)%N →
  read_raw s = Ok (chain_from 0 GENESIS ps).
Proof.
  intros Hok Hl Ht Hb. unfold read_raw. rewrite dyn_scan_live by done. simpl.
  rewrite Ht. by apply decode_log_tree.
Qed.

Lemma read_entries_live s ps :
  kv_ok s → kv_live s → kv_view s AuditLog = log_tree ps → (N.of_nat (length ps) < U64_MAX)%N →
  read_entries s = Ok (numbered ps).
Proof.
  intros. unfold read_entries. rewrite (read_raw_live s ps) by done. simpl. f_equal.
  by rewrite chain_payloads.
Qed.

Lemma log_tree_snoc ps p :
  (N.of_nat (length ps) + 1 < U64_MAX)%N →
  log_tree (ps ++ [p])
  = <[u64_to_be_bytes (N.of_nat (length ps)) := head_hash_of (chain_end 0 GENESIS ps) +:+ p]>
      (log_tree ps).
Proof.
  intros Hb. unfold log_tree.
  destruct (chain_from_sorted 0 GENESIS (ps ++ [p])) as [_ ND];
    [apply genesis_len|rewrite length_app; simpl; lia|].
  rewrite chain_from_app in *. rewrite fmap_app in *. simpl in ND |- *.
  unfold encode_entry at 2 in ND. unfold encode_entry at 2. simpl in *. rewrite chain_end_seq in *.
  rewrite list_to_map_snoc; [done|]. rewrite fmap_app in ND.
  apply NoDup_app in ND as (_ & Hd & _). intros Hin. apply (Hd _ Hin). by left.
Qed.

Lemma audit_append svc ps p r svc' :
  audit_log svc ps → (N.of_nat (length ps) + 1 < U64_MAX)%N →
  append svc p = (r, svc') →
  match r with
  | Ok seq => seq = N.of_nat (length ps) ∧ audit_log svc' (ps ++ [p])
  | Err _ => audit_log svc' ps
  end
  ∧ (∀ d, d ≠ AuditLog → kv_view (store svc') d = kv_view (store svc) d).
Proof.
  intros [Hok Ht Hh Hp Hb] Hn. unfold append. rewrite Hp, Hh, chain_end_seq. simpl.
  destruct (dyn_put _ _ _ _) as [r' s'] eqn:Ep. assert (Hv := λ d, dyn_put_view _ _ _ _ _ _ d Hok Ep).
  destruct (Hv AuditLog) as [Hok' Ht']. rewrite Ht in Ht'.
  destruct r' as [[]|e]; intros [= <- <-]; simpl in *; (split; [|intros d Hd; by rewrite (proj2 (Hv d)), ?decide_False]).
  - split; [done|]. split; simpl; [done| | |done|rewrite length_app; simpl; lia].
    + by rewrite Ht', log_tree_snoc.
    + rewrite chain_end_app, chain_end_seq. simpl. f_equal. unfold u64_saturating_add. lia.
  - by split.
Qed.

Lemma audit_append_live svc ps p :
  audit_log svc ps → kv_live (store svc) →
  ∃ svc', append svc p = (Ok (N.of_nat (length ps)), svc') ∧ kv_live (store svc').
Proof.
  intros [Hok Ht Hh Hp Hb] Hl. unfold append. rewrite Hp, Hh, chain_end_seq. simpl.
  edestruct (dyn_put_live (store svc)) as (s' & -> & _ & Hl' & _); [done..|]. by eexists.
Qed.

Lemma verify_log svc ps : audit_log svc ps → kv_live (store svc) → verify svc = Ok ().
Proof.
  intros [Hok Ht Hh Hp Hb] Hl. unfold verify. rewrite (read_raw_live _ ps) by done. simpl.
  rewrite verify_loop_chain by lia. simpl. by rewrite Hp, Hh, String.eqb_refl, N.eqb_refl.
Qed.

Lemma build_log s ps :
  kv_ok s → kv_live s → kv_view s AuditLog = log_tree ps → (N.of_nat (length ps) < U64_MAX)%N →
  ∃ svc, build s = Ok svc ∧ store svc = s ∧ audit_log svc ps.
Proof.
  intros Hok Hl Ht Hb. unfold build, recover_head. rewrite (read_raw_live _ ps) by done. simpl.
  rewrite recover_chain by lia. eexists. split; [done|]. by split.
Qed.

(** Whatever the store holds, a verified log is the appended one, or the
    inputs hashed for the two logs collide. *)
Lemma verify_sound s h ps :
  kv_ok s → (N.of_nat (length ps) < U64_MAX)%N → h = chain_end 0 GENESIS ps →
  verify (mkService s h false) = Ok () →
  ∃ raw, read_raw s = Ok raw ∧ (kv_view s AuditLog = log_tree ps
    ∨ collision_between (hash_input <$> chain_from 0 GENESIS ps) (hash_input <$> raw)).
Proof.
  intros Hok Hb -> Hv. unfold verify, read_raw in *. simpl in Hv.
  destruct (dyn_prefix_scan s AuditLog "") as [l|] eqn:Es; simpl in Hv; [|done].
  apply dyn_scan_sound in Es as ->; [|done].
  destruct (decode_entries _) as [es|] eqn:Ed; simpl in Hv; [|done].
  exists es. split; [by simpl; rewrite Ed|]. apply decode_entries_sound in Ed as [Ed _].
  destruct (verify_loop es 0 GENESIS) as [[sq hh]|] eqn:El; simpl in Hv; [|done].
  destruct (String.eqb_spec hh (head_hash_of (chain_end 0 GENESIS ps))) as [->|]; [|done].
  destruct (N.eqb_spec sq (next_seq (chain_end 0 GENESIS ps))) as [->|]; [|done].
  rewrite chain_end_seq in *. apply verify_loop_inv in El as (qs & -> & Eq); [|lia].
  assert (length ps = length qs) as HL.
  { apply (f_equal next_seq) in Eq. rewrite chain_end_seq in Eq. simpl in Eq. lia. }
  destruct (chain_end_inj ps qs) as [<-|]; [done|by rewrite Eq| |by right].
  left. rewrite <-scan_log_tree, !scan_spec_all in Ed by done.
  apply map_eq. intros k. apply option_eq. intros v. by rewrite <-!elem_of_btree_iter, Ed.
Qed.
End refinement.

(** ** A service over the in-memory backend *)

Import ToySha.

Module AuditFixture.
Definition fresh : Service MemBackend := mkService mem_new (mkHead 0 GENESIS) false.
Definition one : Service MemBackend := (append fresh "login @a:b").2.

Lemma fresh_log : audit_log fresh [].
Proof. by split. Qed.

Lemma one_log : audit_log one ["login @a:b"].
Proof.
  destruct (append fresh "login @a:b") as [r svc'] eqn:E.
  destruct (audit_append fresh [] "login @a:b" r svc' fresh_log) as [Hr _];
    [vm_compute; reflexivity|done|].
  unfold one. rewrite E. destruct r as [n|e]; [by destruct Hr|]. vm_compute in E. discriminate.
Qed.
End AuditFixture.

(** ** Properties *)

(** C10. The audit log is tamper evident: with the head of the appended payloads
    [ps], if [verify] accepts, then whatever was done to the store its audit
    domain is byte for byte the log of [ps], or an input hashed for [ps] and
    another one hashed for the stored entries have the same digest; and an
    intact log is accepted. *)
Theorem audit_tamper_evident {B} `{KvContract B} `{Sha256} (svc : Service B) (ps : list string) (s : B) :
  audit_log svc ps → kv_ok s →
  let svc' := mkService s (head svc) false in
  (verify svc' = Ok () →
   ∃ raw, read_raw s = Ok raw ∧ (kv_view s AuditLog = log_tree ps
     ∨ collision_between (hash_input <$> chain_from 0 GENESIS ps) (hash_input <$> raw)))
  ∧ (kv_live s → kv_view s AuditLog = log_tree ps → verify svc' = Ok ()).
Proof.
  intros Hl Hok svc'. split; [intros Hv; eapply verify_sound; [done|apply Hl..|done]|].
  intros Hlive Ht. apply (verify_log svc' ps); [|done]. destruct Hl. by split.
Qed.

Lemma audit_tamper_evident_witness :
  ∃ raw, read_raw (store AuditFixture.one) = Ok raw
    ∧ (kv_view (store AuditFixture.one) AuditLog = log_tree ["login @a:b"]
       ∨ collision_between (hash_input <$> chain_from 0 GENESIS ["login @a:b"]) (hash_input <$> raw)).
Proof.
  apply (audit_tamper_evident AuditFixture.one ["login @a:b"] (store AuditFixture.one)).
  - apply AuditFixture.one_log.
  - apply AuditFixture.one_log.
  - vm_compute. reflexivity.
Defined.

(** Appending implements an append-only list: a successful append returns
    the payload's position and extends the log by exactly that payload, a
    failed one leaves the log as it was, no other domain is touched, and on a
    working store appending succeeds. *)
Theorem audit_append_refines {B} `{KvContract B} `{Sha256} (svc svc' : Service B)
    (ps : list string) (p : string) (r : Result Error N) :
  audit_log svc ps → (N.of_nat (length ps) + 1 < U64_MAX)%N → append svc p = (r, svc') →
  match r with
  | Ok seq => seq = N.of_nat (length ps) ∧ audit_log svc' (ps ++ [p])
  | Err _ => audit_log svc' ps
  end
  ∧ (∀ d, d ≠ AuditLog → kv_view (store svc') d = kv_view (store svc) d)
  ∧ (kv_live (store svc) → r = Ok (N.of_nat (length ps)) ∧ kv_live (store svc')).
Proof.
  intros Hl Hb Ha. destruct (audit_append _ _ _ _ _ Hl Hb Ha) as [Hr Hd].
  split_and!; [done..|]. intros Hlive.
  destruct (audit_append_live svc ps p Hl Hlive) as (svc2 & E & Hl2). rewrite Ha in E. by injection E as -> ->.
Qed.

Lemma audit_append_refines_witness :
  let '(r, svc') := append AuditFixture.one "logout" in
  r = Ok 1%N.
Proof.
  destruct (append AuditFixture.one "logout") as [r svc'] eqn:E.
  destruct (audit_append_refines AuditFixture.one svc' ["login @a:b"] "logout" r) as (_ & _ & Hl).
  - apply AuditFixture.one_log.
  - vm_compute. reflexivity.
  - exact E.
  - apply Hl. vm_compute. reflexivity.
Defined.

(** Reads and restarts agree with the appended list: on a working store
    [entries], [tail], [count] and [head_hash] report it, [verify] accepts it,
    and rebuilding the service from the store recovers the same log and
    head. *)
Theorem audit_reads_refine {B} `{KvContract B} `{Sha256} (svc : Service B) (ps : list string) (n : nat) :
  audit_log svc ps → kv_live (store svc) →
  entries svc = Ok (numbered ps)
  ∧ tail svc n = Ok (drop (length ps - n) (numbered ps))
  ∧ count svc = Ok (length ps)
  ∧ head_hash svc = Ok (head_hash_of (chain_end 0 GENESIS ps))
  ∧ verify svc = Ok ()
  ∧ build (store svc) = Ok svc.
Proof.
  intros Hl Hlive. pose proof Hl as [Hok Ht Hh Hp Hb].
  unfold entries, tail, count, head_hash. rewrite (read_entries_live _ ps), Hp, Hh by done. simpl.
  assert (length (numbered ps) = length ps) as -> by apply length_imap.
  split_and!; [done..|by eapply verify_log|].
  destruct (build_log (store svc) ps) as (svc2 & -> & Es & [_ _ Hh2 Hp2 _]); [done..|].
  destruct svc, svc2; simpl in *. by subst.
Qed.

Lemma audit_reads_refine_witness :
  entries AuditFixture.one = Ok [(0%N, "login @a:b")]
  ∧ verify AuditFixture.one = Ok ().
Proof.
  destruct (audit_reads_refine AuditFixture.one ["login @a:b"] 1) as (H1 & _ & _ & _ & H5 & _).
  - apply AuditFixture.one_log.
  - vm_compute. reflexivity.
  - split; [exact H1|exact H5].
Defined.
