(* ===== verification/Cas.v ===== *)
(** * The content-addressed media store ([src/src/service/cas/mod.rs])

    Both backends: the local gm-store domain and the shared object store.  The
    base64 engine and the object store are third-party code and appear as the
    classes [Base64] and [ObjectStore] with the laws their documentation
    states. *)

From S2P Require Import Prelude Bytes Store Core.

(** The URL-safe, unpadded base64 engine: strict decoding accepts exactly the
    encodings. *)
Class Base64 := {
  b64_encode : string → string;
  b64_decode : string → option string;
  b64_decode_encode : ∀ x, b64_decode (b64_encode x) = Some x;
  b64_canonical : ∀ s x, b64_decode s = Some x → b64_encode x = s;
}.

(** A shared object store: [put_one] and [get] on paths. *)
Class ObjectStore (P : Type) := {
  os_put : P → string → string → Result string () * P;
  os_get : P → string → Result string string;
}.

(** Its contract: an acknowledged put is visible, a failed put changes no other
    object and leaves the object old or new, and reads return what is there. *)
Class ObjectStoreContract (P : Type) `{ObjectStore P} := {
  os_view : P → gmap string string;
  os_live : P → Prop;
  os_put_ok : ∀ p path bytes p',
    os_put p path bytes = (Ok (), p') → os_view p' = <[path := bytes]> (os_view p);
  os_put_err : ∀ p path bytes e p',
    os_put p path bytes = (Err e, p') →
    os_view p' = os_view p ∨ os_view p' = <[path := bytes]> (os_view p);
  os_get_sound : ∀ p path bytes, os_get p path = Ok bytes → os_view p !! path = Some bytes;
  os_get_live : ∀ p path bytes,
    os_live p → os_view p !! path = Some bytes → os_get p path = Ok bytes;
}.

Section cas.
Context {B P : Type} `{KvBackend B} `{ObjectStore P} `{Sha256} `{Base64}.

(** The store, the configured provider name and the provider instances. *)
Record CasService := mkCas {
  cas_store : B;
  media_cas_provider : option string;
  cas_providers : gmap string P;
}.

(** [services.storage.provider(id)]. *)
Definition provider (svc : CasService) (id : string) : Result Error P :=
  ok_or (Request NotFound "No instance of provider") (cas_providers svc !! id).

(** The shared provider with its name, when one is configured. *)
Definition shared_provider (svc : CasService) : Result Error (option (string * P)) :=
  match media_cas_provider svc with
  | None => Ok None
  | Some name =>
      if String.eqb name "" then Ok None
      else let? p := provider svc name in Ok (Some (name, p))
  end.

Definition content_id (bytes : string) : string := b64_encode (sha256_hash bytes).

Definition decode_id (id : string) : Result Error string :=
  ok_or (Request InvalidParam "invalid media content id") (b64_decode id).

Definition blob_path (id : string) : string :=
  let shard := default "__" (str_get_to id 2) in
  "media_cas/" +:+ shard +:+ "/" +:+ id.

Definition local_store_blob (s : B) (bytes : string) : Result Error string * B :=
  let id := content_id bytes in
  let key := sha256_hash bytes in
  match dyn_put s MediaBlobs key bytes with
  | (Err e, s') => (Err (Database ("media blob write failed: " +:+ store_error_display e)), s')
  | (Ok _, s') => (Ok id, s')
  end.

Definition local_load_blob (s : B) (id : string) : Result Error (option string) :=
  let? key := decode_id id in
  map_err (λ e, Database ("media blob read failed: " +:+ store_error_display e))
    (dyn_get s MediaBlobs key).

Definition local_has_blob (s : B) (id : string) : Result Error bool :=
  let? key := decode_id id in
  map_err (λ e, Database ("media blob lookup failed: " +:+ store_error_display e))
    (dyn_contains s MediaBlobs key).

Definition store_blob (svc : CasService) (bytes : string) : Result Error string * CasService :=
  match shared_provider svc with
  | Err e => (Err e, svc)
  | Ok (Some (name, p)) =>
      let id := content_id bytes in
      let path := blob_path id in
      let '(r, p') := os_put p path bytes in
      let svc' := mkCas (cas_store svc) (media_cas_provider svc)
                    (<[name := p']> (cas_providers svc)) in
      match r with
      | Err e => (Err (Database ("media blob write failed: " +:+ e)), svc')
      | Ok _ => (Ok id, svc')
      end
  | Ok None =>
      let '(r, s') := local_store_blob (cas_store svc) bytes in
      (r, mkCas s' (media_cas_provider svc) (cas_providers svc))
  end.

Definition load_blob (svc : CasService) (id : string) : Result Error (option string) :=
  let? shared := shared_provider svc in
  match shared with
  | Some (_, p) =>
      let? _ := decode_id id in
      Ok (ok (os_get p (blob_path id)))
  | None => local_load_blob (cas_store svc) id
  end.

Definition has_blob (svc : CasService) (id : string) : Result Error bool :=
  let? shared := shared_provider svc in
  match shared with
  | Some (_, p) =>
      let? _ := decode_id id in
      Ok (match os_get p (blob_path id) with Ok _ => true | Err _ => false end)
  | None => local_has_blob (cas_store svc) id
  end.

Definition blob_count (svc : CasService) : Result Error nat :=
  map_err (λ e, Database ("media blob scan failed: " +:+ store_error_display e))
    (result_map length (dyn_prefix_scan (cas_store svc) MediaBlobs "")).
End cas.
Arguments CasService : clear implicits.

(** ** Lemmas *)

Lemma length_shard id : String.length (default "__" (str_get_to id 2)) = 2.
Proof.
  unfold str_get_to, is_char_boundary. rewrite orb_false_r.
  destruct (String.get 2 id) as [c|] eqn:Eg.
  - destruct (is_continuation c); [done|]. simpl. apply length_str_take.
    destruct id as [|? [|? [|? ?]]]; simpl in *; [done..|lia].
  - destruct (Nat.eqb_spec 2 (String.length id)) as [E|]; [|done]. simpl.
    apply length_str_take. lia.
Qed.

Lemma blob_path_inj id id' : blob_path id = blob_path id' → id = id'.
Proof.
  unfold blob_path. intros E. apply append_inj_l in E as [_ E]; [|done].
  apply append_inj_l in E as [_ E]; [|by rewrite !length_shard].
  by apply append_inj_l in E as [_ E].
Qed.

Section contents.
Context {B P : Type} `{KvContract B} `{ObjectStoreContract P} `{Sha256} `{Base64}.
Implicit Types (svc : CasService B P) (id bytes b : string).

(** The content the backend in use keeps for a content id. *)
Definition holds svc id b : Prop :=
  ∃ key, b64_decode id = Some key ∧
  match shared_provider svc with
  | Ok (Some (_, p)) => os_view p !! blob_path id = Some b
  | Ok None => kv_view (cas_store svc) MediaBlobs !! key = Some b
  | Err _ => False
  end.

(** Every blob is kept under the id of its content. *)
Definition addressed svc : Prop := ∀ id b, holds svc id b → content_id b = id.

(** The backend in use answers reads. *)
Definition cas_live svc : Prop :=
  match shared_provider svc with
  | Ok (Some (_, p)) => os_live p
  | Ok None => kv_live (cas_store svc)
  | Err _ => False
  end.

Lemma shared_after_put svc name p p' :
  shared_provider svc = Ok (Some (name, p)) →
  shared_provider (mkCas (cas_store svc) (media_cas_provider svc) (<[name := p']> (cas_providers svc)))
  = Ok (Some (name, p')).
Proof.
  unfold shared_provider, provider. simpl. destruct (media_cas_provider svc) as [n|]; [|done].
  destruct (String.eqb n ""); [done|]. destruct (cas_providers svc !! n) as [q|]; simpl; [|done].
  intros [= <- <-]. by rewrite lookup_insert_eq.
Qed.

Lemma decode_content_id bytes : b64_decode (content_id bytes) = Some (sha256_hash bytes).
Proof. apply b64_decode_encode. Qed.

(** What storing [bytes] does to the contents. *)
Record stored svc bytes (r : Result Error string) svc' : Prop := {
  st_ok : kv_ok (cas_store svc');
  st_other id b : id ≠ content_id bytes → holds svc' id b ↔ holds svc id b;
  st_same b : holds svc' (content_id bytes) b → b = bytes ∨ holds svc (content_id bytes) b;
  st_done id : r = Ok id → id = content_id bytes ∧ ∀ b, holds svc' id b ↔ b = bytes;
}.

Lemma store_shared_contents svc bytes r svc' name p :
  kv_ok (cas_store svc) → shared_provider svc = Ok (Some (name, p)) →
  store_blob svc bytes = (r, svc') → stored svc bytes r svc'.
Proof.
  intros Hok Es. unfold store_blob. rewrite Es.
  destruct (os_put p (blob_path (content_id bytes)) bytes) as [rp p'] eqn:Ep.
  intros Hr. set (svc2 := mkCas _ _ _) in Hr.
  assert (svc' = svc2) as -> by (destruct rp; by injection Hr).
  assert (shared_provider svc2 = Ok (Some (name, p'))) as Es2 by (by eapply shared_after_put).
  assert (os_view p' = <[blob_path (content_id bytes) := bytes]> (os_view p)
    ∨ os_view p' = os_view p ∧ ∀ id, r ≠ Ok id) as Hv.
  { destruct rp as [[]|e]; [left; by apply os_put_ok in Ep|].
    injection Hr as <-. destruct (os_put_err _ _ _ _ _ Ep); [right; by split|by left]. }
  split; unfold holds; rewrite ?Es, ?Es2; [done| | |].
  - intros id b Hne. destruct Hv as [->|[-> _]]; [|done].
    rewrite lookup_insert_ne; [done|]. by intros ?%blob_path_inj.
  - intros b (key & Hk & Hb). destruct Hv as [Hv|[Hv _]]; rewrite Hv in Hb.
    + rewrite lookup_insert_eq in Hb. left. congruence.
    + right. eauto.
  - intros id ->. destruct rp as [[]|e]; [|done]. injection Hr as <-. split; [done|].
    apply os_put_ok in Ep as ->. rewrite lookup_insert_eq, decode_content_id. intros b. naive_solver.
Qed.

Lemma other_key bytes id key :
  id ≠ content_id bytes → b64_decode id = Some key → sha256_hash bytes ≠ key.
Proof. intros Hne Hd <-. apply Hne. by rewrite <-(b64_canonical _ _ Hd). Qed.

Lemma store_local_contents svc bytes r svc' :
  kv_ok (cas_store svc) → shared_provider svc = Ok None →
  store_blob svc bytes = (r, svc') → stored svc bytes r svc'.
Proof.
  intros Hok Es. unfold store_blob, local_store_blob. rewrite Es.
  destruct (dyn_put _ _ _ _) as [rp s'] eqn:Ep.
  destruct (dyn_put_view _ _ _ _ _ _ MediaBlobs Hok Ep) as [Hok' Hv].
  assert (shared_provider (mkCas s' (media_cas_provider svc) (cas_providers svc)) = Ok None)
    as Es' by (by rewrite <-Es).
  destruct rp as [[]|e]; intros [= <- <-]; split; unfold holds; rewrite ?Es, ?Es'; simpl;
    rewrite ?Hv; simpl; try done.
  - intros id b Hne. f_equiv. intros key. split; intros [Hd Hb]; (split; [done|]);
      rewrite lookup_insert_ne in * by (by eapply other_key); done.
  - intros b (key & Hd & Hb). rewrite decode_content_id in Hd. injection Hd as <-.
    rewrite lookup_insert_eq in Hb. left. congruence.
  - intros id [= <-]. split; [done|]. intros b. rewrite decode_content_id. split.
    + intros (key & [= <-] & Hb). rewrite lookup_insert_eq in Hb. congruence.
    + intros ->. exists (sha256_hash bytes). by rewrite lookup_insert_eq.
  - by right.
Qed.

Lemma store_blob_contents svc bytes r svc' :
  kv_ok (cas_store svc) → store_blob svc bytes = (r, svc') → stored svc bytes r svc'.
Proof.
  intros Hok. destruct (shared_provider svc) as [[[name p]|]|e] eqn:Es.
  - by eapply store_shared_contents.
  - by eapply store_local_contents.
  - unfold store_blob. rewrite Es. intros [= <- <-]. split; [done|done|by right|done].
Qed.

Lemma load_blob_sound svc id b :
  kv_ok (cas_store svc) → load_blob svc id = Ok (Some b) → holds svc id b.
Proof.
  intros Hok. unfold load_blob, local_load_blob, holds, decode_id.
  destruct (shared_provider svc) as [[[name p]|]|e]; simpl; [| |done];
    destruct (b64_decode id) as [key|]; simpl; try done.
  - destruct (os_get p (blob_path id)) as [b'|] eqn:Eg; simpl; [|done]. intros [= ->].
    apply os_get_sound in Eg. eauto.
  - destruct (dyn_get _ _ _) as [o|] eqn:Eg; simpl; [|done]. intros [= ->].
    apply dyn_get_sound in Eg; [|done]. eauto.
Qed.

Lemma load_blob_live svc id b :
  kv_ok (cas_store svc) → cas_live svc → holds svc id b →
  load_blob svc id = Ok (Some b) ∧ has_blob svc id = Ok true.
Proof.
  intros Hok. unfold load_blob, local_load_blob, has_blob, local_has_blob, holds, decode_id, cas_live.
  destruct (shared_provider svc) as [[[name p]|]|e]; simpl; [| |done]; intros Hl (key & -> & Hb); simpl.
  - by rewrite (os_get_live _ _ _ Hl Hb).
  - by rewrite dyn_get_live, dyn_contains_live, Hb by done.
Qed.
End contents.

(** ** Instances for the witnesses: a hexadecimal codec and a map *)

Module CasFixture.
Definition hex_digit (n : N) : ascii := ascii_of_N (n + 65).
Definition hex_value (c : ascii) : option N :=
  let n := N_of_ascii c in if (65 <=? n)%N && (n <? 81)%N then Some (n - 65)%N else None.

Fixpoint hex_encode (s : string) : string :=
  match s with
  | EmptyString => EmptyString
  | String c s => String (hex_digit (N_of_ascii c / 16)) (String (hex_digit (N_of_ascii c mod 16)) (hex_encode s))
  end.

Fixpoint hex_decode (s : string) : option string :=
  match s with
  | EmptyString => Some EmptyString
  | String a (String b s) =>
      hi ← hex_value a; lo ← hex_value b; rest ← hex_decode s;
      Some (String (ascii_of_N (hi * 16 + lo)) rest)
  | _ => None
  end.

Lemma hex_value_digit n : (n < 16)%N → hex_value (hex_digit n) = Some n.
Proof.
  intros Hn. unfold hex_value, hex_digit. rewrite N_ascii_embedding by lia.
  rewrite (proj2 (N.leb_le _ _)), (proj2 (N.ltb_lt _ _)) by lia. simpl. f_equal. lia.
Qed.

Lemma hex_digit_value c n : hex_value c = Some n → hex_digit n = c ∧ (n < 16)%N.
Proof.
  unfold hex_value, hex_digit. destruct (N.leb_spec 65 (N_of_ascii c)); [|done].
  destruct (N.ltb_spec (N_of_ascii c) 81); [|done]. simpl. intros [= <-]. split; [|lia].
  replace (N_of_ascii c - 65 + 65)%N with (N_of_ascii c) by lia. apply ascii_N_embedding.
Qed.

Lemma hex_roundtrip s : hex_decode (hex_encode s) = Some s.
Proof.
  induction s as [|c s IH]; [done|]. cbn [hex_encode hex_decode]. pose proof (N_ascii_bounded c).
  rewrite !hex_value_digit by (apply N.Div0.div_lt_upper_bound || apply N.mod_lt; lia). simpl. rewrite IH. simpl.
  do 2 f_equal. rewrite N.mul_comm, <-N.div_mod by lia. apply ascii_N_embedding.
Qed.

Lemma hex_canonical_len n s x : String.length s ≤ n → hex_decode s = Some x → hex_encode x = s.
Proof.
  revert s x. induction n as [|n IH]; intros [|a [|b s]] x HL; simpl in HL; try lia;
    cbn [hex_decode]; try (by intros [= <-]); try done.
  destruct (hex_value a) as [hi|] eqn:Ea; simpl; [|done].
  destruct (hex_value b) as [lo|] eqn:Eb; simpl; [|done].
  destruct (hex_decode s) as [r|] eqn:Er; simpl; [|done]. intros [= <-].
  apply hex_digit_value in Ea as [<- Hhi], Eb as [<- Hlo]. cbn [hex_encode].
  rewrite N_ascii_embedding, N.div_add_l, N.div_small, N.add_0_r by lia.
  rewrite N.add_comm, N.Div0.mod_add, N.mod_small by lia.
  rewrite (IH s r); [done|lia|done].
Qed.

#[export] Program Instance hex_base64 : Base64 := {| b64_encode := hex_encode; b64_decode := hex_decode |}.
Next Obligation. apply hex_roundtrip. Qed.
Next Obligation. intros s x. by eapply hex_canonical_len. Qed.

#[export] Instance map_objects : ObjectStore (gmap string string) :=
  {| os_put := λ p path bytes, (Ok (), <[path := bytes]> p);
     os_get := λ p path, ok_or "not found" (p !! path) |}.

#[export] Program Instance map_objects_contract : ObjectStoreContract (gmap string string) :=
  {| os_view := id; os_live := λ _, True |}.
Next Obligation. simpl. by intros p path bytes p' [= <-]. Qed.
Next Obligation. done. Qed.
Next Obligation. simpl. intros p path bytes. unfold id. by destruct (p !! path); simpl; intros [= ->]. Qed.
Next Obligation. simpl. unfold id. by intros p path bytes _ ->. Qed.

Definition shared : CasService MemBackend (gmap string string) :=
  mkCas mem_new (Some "s3") {["s3" := ∅]}.
End CasFixture.

(** ** Properties *)

(** Stored content reads back under its content id on either backend: a
    successful [store_blob] returns the content id, under which exactly those
    bytes are then kept; on a working backend [load_blob] returns them and
    [has_blob] confirms them; and every other content id is unaffected. *)
Theorem cas_store_load {B P} `{KvContract B} `{ObjectStoreContract P} `{Sha256} `{Base64}
    (svc svc' : CasService B P) (bytes id : string) :
  kv_ok (cas_store svc) → store_blob svc bytes = (Ok id, svc') →
  id = content_id bytes
  ∧ (cas_live svc' → load_blob svc' id = Ok (Some bytes) ∧ has_blob svc' id = Ok true)
  ∧ (∀ b, holds svc' id b ↔ b = bytes)
  ∧ (∀ id' b, id' ≠ id → holds svc' id' b ↔ holds svc id' b).
Proof.
  intros Hok Hs. destruct (store_blob_contents _ _ _ _ Hok Hs) as [Hok' Ho _ Hd].
  destruct (Hd id eq_refl) as [-> Hb]. split_and!; [done| |done|done].
  intros Hl. apply load_blob_live; [done..|]. by apply Hb.
Qed.

Import ToySha CasFixture.

Lemma cas_store_load_witness :
  let '(r, svc') := store_blob CasFixture.shared "hello" in
  r = Ok (content_id "hello") ∧ load_blob svc' (content_id "hello") = Ok (Some "hello").
Proof.
  destruct (cas_store_load CasFixture.shared (store_blob CasFixture.shared "hello").2 "hello"
    (content_id "hello")) as (_ & Hl & _);
    [reflexivity|vm_compute; reflexivity|].
  split; [reflexivity|]. apply Hl. exact I.
Defined.

(** Content ids are self-verifying: on a store where every blob is kept
    under the id of its content, storing anything, successfully or not, keeps
    it so, and whatever [load_blob] returns for an id has that id as its
    content id. *)
Theorem cas_load_integrity {B P} `{KvContract B} `{ObjectStoreContract P} `{Sha256} `{Base64}
    (svc svc' : CasService B P) (bytes : string) (r : Result Error string) :
  kv_ok (cas_store svc) → addressed svc → store_blob svc bytes = (r, svc') →
  addressed svc' ∧ ∀ id b, load_blob svc' id = Ok (Some b) → content_id b = id.
Proof.
  intros Hok Ha Hs. destruct (store_blob_contents _ _ _ _ Hok Hs) as [Hok' Ho Hsame _].
  assert (addressed svc') as Ha'.
  { intros id b Hb. destruct (decide (id = content_id bytes)) as [->|Hne].
    - apply Hsame in Hb as [->|Hb]; [done|by apply Ha].
    - by apply Ha, Ho. }
  split; [done|]. intros id b Hl. by apply Ha', load_blob_sound.
Qed.

Lemma cas_load_integrity_witness : addressed (store_blob CasFixture.shared "hello").2.
Proof.
  apply (cas_load_integrity CasFixture.shared _ "hello" (Ok (content_id "hello")));
    [reflexivity| |vm_compute; reflexivity].
  intros id b (key & _ & Hb). vm_compute in Hb. discriminate.
Defined.
