(* ===== verification/FedService.v ===== *)
(** * The durable federation scheduler ([src/src/service/fed/mod.rs])

    The service over any store meeting [KvContract]: the outbound queue keyed
    [destination \0 seq_be], the persisted health records, the restart path
    and the drive cycle.  The clock is an argument of the operations that read
    it; parsing, formatting and the transport of [drive_once] are arguments of
    the operations that use them. *)

From S2P Require Import Prelude Bytes Store Core FedSender Cas.

Section service.
Context {B : Type} `{KvBackend B}.

Record FedService := mkFed {
  fed_sender : FederationSender;
  fed_store : B;
  fed_seq : N;
  gm_fed_authoritative_sender : bool;
}.

Definition queue_key (destination : Destination) (seq : N) : string :=
  destination +:+ NUL +:+ u64_to_be_bytes seq.

Definition queue_prefix (destination : Destination) : string := destination +:+ NUL.

Definition queue_scan_failed (e : StoreError) : Error :=
  Database ("federation queue scan failed: " +:+ store_error_display e).

Definition queue_depth (s : B) (destination : Destination) : Result Error nat :=
  map_err queue_scan_failed
    (result_map length (dyn_prefix_scan s FederationQueue (queue_prefix destination))).

(** The deleting loop of [drain_queue]. *)
Fixpoint drain_items (s : B) (scanned : list (string * string)) : Result Error (list Item) * B :=
  match scanned with
  | [] => (Ok [], s)
  | (key, value) :: scanned =>
      match dyn_delete s FederationQueue key with
      | (Err e, s) =>
          (Err (Database ("federation queue delete failed: " +:+ store_error_display e)), s)
      | (Ok _, s) =>
          let '(r, s) := drain_items s scanned in
          (result_map (cons value) r, s)
      end
  end.

Definition drain_queue (s : B) (destination : Destination) : Result Error (list Item) * B :=
  match map_err queue_scan_failed
          (dyn_prefix_scan s FederationQueue (queue_prefix destination)) with
  | Err e => (Err e, s)
  | Ok scanned => drain_items s scanned
  end.

(** The counter is at most the number of scanned keys, so its saturating
    [usize] increment never saturates. *)
Definition count_key (depths : gmap Destination nat) (key : string) : gmap Destination nat :=
  match before_nul key ≫= from_utf8 with
  | Some destination =>
      <[destination := S (default 0 (depths !! destination))]> depths
  | None => depths
  end.

Definition all_queue_depths (s : B) : Result Error (list (Destination * nat)) :=
  let? scanned := map_err queue_scan_failed (dyn_prefix_scan s FederationQueue "") in
  Ok (btree_iter (foldl count_key ∅ scanned.*1)).

Fixpoint due_loop (s : B) (backed_off : gset Destination) (depths : list (Destination * nat)) :
    Result Error (list (Destination * list Item)) * B :=
  match depths with
  | [] => (Ok [], s)
  | (destination, depth) :: depths =>
      if Nat.ltb 0 depth && negb (bool_decide (destination ∈ backed_off)) then
        match drain_queue s destination with
        | (Err e, s) => (Err e, s)
        | (Ok items, s) =>
            let '(r, s) := due_loop s backed_off depths in
            (result_map (λ batches, if nonempty items then (destination, items) :: batches
                                    else batches) r, s)
        end
      else due_loop s backed_off depths
  end.

Definition due_batches (s : B) (backed_off : gset Destination) :
    Result Error (list (Destination * list Item)) * B :=
  match all_queue_depths s with
  | Err e => (Err e, s)
  | Ok depths => due_loop s backed_off depths
  end.

(** One key's contribution to [max_queue_seq]: its last eight bytes. *)
Definition max_key_seq (max : N) (key : string) : N :=
  let len := String.length key in
  if Nat.leb 8 len then
    match from_be_bytes 8 (str_drop (len - 8) key) with
    | Some seq => N.max max seq
    | None => max
    end
  else max.

Definition max_queue_seq (s : B) : Result Error N :=
  let? scanned := map_err queue_scan_failed (dyn_prefix_scan s FederationQueue "") in
  Ok (foldl max_key_seq 0%N scanned.*1).

(** Health records: [attempt_be(4) || available_at_be(8)]. *)
Definition encode_health (att at' : N) : string := u32_to_be_bytes att +:+ u64_to_be_bytes at'.

Definition decode_health (bytes : string) : option (N * N) :=
  att ← slice_get bytes 0 4 ≫= from_be_bytes 4;
  at' ← slice_get bytes 4 12 ≫= from_be_bytes 8;
  Some (att, at').

Definition restore_record (sender : FederationSender) (e : string * string) : FederationSender :=
  match from_utf8 e.1, decode_health e.2 with
  | Some destination, Some (att, at') => restore sender destination att at'
  | _, _ => sender
  end.

Definition restore_health (s : B) (sender : FederationSender) : Result Error FederationSender :=
  let? scanned := map_err (λ e, Database ("federation health scan failed: " +:+ store_error_display e))
                    (dyn_prefix_scan s FederationHealth "") in
  Ok (foldl restore_record sender scanned).

Definition build (s : B) (authoritative : bool) : Result Error FedService :=
  let? sender := restore_health s sender_new in
  let? max := max_queue_seq s in
  Ok (mkFed sender s (u64_saturating_add max 1) authoritative).

(** [AtomicU64::fetch_add] wraps around. *)
Definition fed_queue (svc : FedService) (destination : Destination) (item : Item) : FedService :=
  let seq := fed_seq svc in
  let '(_, s) := dyn_put (fed_store svc) FederationQueue (queue_key destination seq) item in
  mkFed (fed_sender svc) s ((seq + 1) mod 2 ^ 64)%N (gm_fed_authoritative_sender svc).

Definition fed_pending (svc : FedService) (destination : Destination) : nat :=
  match queue_depth (fed_store svc) destination with Ok n => n | Err _ => 0 end.

Definition with_store (svc : FedService) (s : B) : FedService :=
  mkFed (fed_sender svc) s (fed_seq svc) (gm_fed_authoritative_sender svc).

Definition fed_take (svc : FedService) (destination : Destination) : list Item * FedService :=
  let '(r, s) := drain_queue (fed_store svc) destination in
  (match r with Ok items => items | Err _ => [] end, with_store svc s).

Definition backed_off_at (svc : FedService) (now : N) : gset Destination :=
  list_to_set ((λ x, x.1.1) <$> backoff_state (fed_sender svc) now).

Definition fed_ready (svc : FedService) (now : N) : list Destination :=
  let backed_off := backed_off_at svc now in
  fst <$> List.filter (λ e, Nat.ltb 0 e.2 && negb (bool_decide (e.1 ∈ backed_off)))
    (match all_queue_depths (fed_store svc) with Ok l => l | Err _ => [] end).

Definition tick (svc : FedService) (now : N) : list (Destination * list Item) * FedService :=
  let '(r, s) := due_batches (fed_store svc) (backed_off_at svc now) in
  (match r with Ok batches => batches | Err _ => [] end, with_store svc s).

Definition fed_mark_success (svc : FedService) (destination : Destination) : FedService :=
  let '(_, s) := dyn_delete (fed_store svc) FederationHealth destination in
  mkFed (mark_success (fed_sender svc) destination) s (fed_seq svc) (gm_fed_authoritative_sender svc).

Definition fed_mark_failure (svc : FedService) (destination : Destination) (now : N) : FedService :=
  let sender := mark_failure (fed_sender svc) destination now in
  match backoff_for sender destination with
  | Some (att, at') =>
      let '(_, s) := dyn_put (fed_store svc) FederationHealth destination (encode_health att at') in
      mkFed sender s (fed_seq svc) (gm_fed_authoritative_sender svc)
  | None => mkFed sender (fed_store svc) (fed_seq svc) (gm_fed_authoritative_sender svc)
  end.

Definition fed_queue_depths (svc : FedService) : list (Destination * nat) :=
  match all_queue_depths (fed_store svc) with Ok l => l | Err _ => [] end.

Definition failing (svc : FedService) (now : N) : list (Destination * N * N) :=
  backoff_state (fed_sender svc) now.

(** ** The drive cycle *)

(** The fields of [send_transaction_message::v1::Request]. *)
Record Transaction := mkTransaction {
  transaction_id_of : string;
  origin : string;
  origin_ts : N;
  pdus : list string;
  edus : list string;
}.

Section drive.
Context `{Sha256} `{Base64} {Pdu : Type}.
Variables
  (server_name : string)
  (parse_server : string → option string)
  (parse_pdu : string → option Pdu)
  (format_pdu : Pdu → string)
  (execute_on : string → Transaction → Result Error ()).

(** Content-addressed: the base64 of the hash of the delimited PDUs and EDUs. *)
Definition transaction_id (ps es : list string) : string := b64_encode (sha256_delimited (ps ++ es)).

Definition build_transaction (origin : string) (ps es : list string) (now : N) : Transaction :=
  mkTransaction (transaction_id ps es) origin now ps es.

Definition dispatch_transaction (dest : string) (pdu_jsons : list Pdu) (now : N) : Result Error bool :=
  match pdu_jsons with
  | [] => Ok false
  | _ =>
      let? _ := execute_on dest (build_transaction server_name (format_pdu <$> pdu_jsons) [] now) in
      Ok true
  end.

Definition drive_batch (now : N) (acc : nat * FedService) (batch : Destination * list Item) :
    nat * FedService :=
  let '(driven, svc) := acc in
  match parse_server batch.1 with
  | None => acc
  | Some server =>
      match dispatch_transaction server (omap parse_pdu batch.2) now with
      | Ok _ => (S driven, fed_mark_success svc server)
      | Err _ => (S driven, fed_mark_failure svc server now)
      end
  end.

Definition drive_once (svc : FedService) (now : N) : Result Error nat * FedService :=
  if gm_fed_authoritative_sender svc then
    let '(batches, svc) := tick svc now in
    let '(driven, svc) := foldl (drive_batch now) (0, svc) batches in
    (Ok driven, svc)
  else
    (Err (ErrMsg "gm-fed authoritative sender is disabled; set gm_fed_authoritative_sender = true"),
     svc).
End drive.
End service.
Arguments FedService : clear implicits.

(** ** The pending log *)

(** A pending item with its sequence number and destination. *)
Abbreviation Pending := (N * string * string)%type.

Definition seq_of (x : Pending) : N := x.1.1.
Definition dest_of (x : Pending) : Destination := x.1.2.
Definition item_of (x : Pending) : Item := x.2.
Definition entry_of (x : Pending) : string * string := (queue_key (dest_of x) (seq_of x), item_of x).

Definition wf_dest (d : Destination) : Prop := no_nul d = true ∧ utf8_valid d = true.

Definition seq_lt (x y : Pending) : Prop := (seq_of x < seq_of y)%N.

Record log_ok (log : list Pending) : Prop := {
  lo_sorted : StronglySorted seq_lt log;
  lo_bound : Forall (λ x, (seq_of x <= U64_MAX)%N) log;
  lo_dest : Forall (λ x, wf_dest (dest_of x)) log;
}.

Definition queue_tree (log : list Pending) : Tree := list_to_map (entry_of <$> log).

Definition for_dest (d : Destination) (log : list Pending) : list Pending :=
  filter (λ x, dest_of x = d) log.

Lemma queue_key_inj d d' n n' :
  wf_dest d → wf_dest d' → (n <= U64_MAX)%N → (n' <= U64_MAX)%N →
  queue_key d n = queue_key d' n' → d = d' ∧ n = n'.
Proof.
  intros [Hd _] [Hd' _] Hn Hn' E. unfold queue_key in E.
  assert (d = d') as ->.
  { apply (f_equal before_nul) in E. rewrite !before_nul_append in E by done. by injection E. }
  split; [done|]. apply append_inj_l in E as [_ E]; [|done]. apply append_inj_l in E as [_ E]; [|done].
  apply be_encode_inj in E; [done|by apply u64_width..].
Qed.

Lemma queue_key_le d n n' :
  (n <= U64_MAX)%N → (n' <= U64_MAX)%N → (n <= n')%N → key_le (queue_key d n) (queue_key d n').
Proof.
  intros Hn Hn' Hle. rewrite key_le_compare. unfold queue_key.
  assert (∀ p s t, String.compare (p +:+ s) (p +:+ t) = String.compare s t) as Hp.
  { intros p s t. induction p as [|c p IH]; [done|]. simpl.
    unfold Ascii.compare. by rewrite N.compare_refl. }
  rewrite !Hp. apply key_le_compare. by apply be_encode_le; [apply u64_width..|].
Qed.

Lemma log_ok_sublist log log' : sublist log' log → log_ok log → log_ok log'.
Proof.
  intros Hs [H1 H2 H3]. split.
  - clear H2 H3. revert H1. induction Hs as [|x l l' Hs IH|x l l' Hs IH]; intros H1; [done| |].
    + apply StronglySorted_inv in H1 as [H1 Hall]. constructor; [by apply IH|].
      rewrite Forall_forall in Hall |- *. intros y Hy. apply Hall. by eapply sublist_subseteq.
    + apply StronglySorted_inv in H1 as [H1 _]. by apply IH.
  - rewrite Forall_forall in H2 |- *. intros y Hy. apply H2. by eapply sublist_subseteq.
  - rewrite Forall_forall in H3 |- *. intros y Hy. apply H3. by eapply sublist_subseteq.
Qed.

Lemma log_ok_keys log : log_ok log → NoDup (entry_of <$> log).*1.
Proof.
  intros [HS HB HD]. induction log as [|x log IH]; [constructor|].
  apply StronglySorted_inv in HS as [HS Hall]. apply Forall_cons in HB as [Hb HB].
  apply Forall_cons in HD as [Hd HD]. csimpl. constructor; [|by apply IH].
  intros (kv & E & (y & -> & Hy)%list_elem_of_fmap)%list_elem_of_fmap.
  rewrite Forall_forall in Hall, HB, HD. specialize (Hall y Hy). unfold seq_lt in Hall.
  simpl in E. apply queue_key_inj in E as [_ E]; [lia|by auto..].
Qed.

Lemma queue_tree_lookup log k v :
  log_ok log → queue_tree log !! k = Some v ↔ (k, v) ∈ entry_of <$> log.
Proof. intros Hl. symmetry. apply elem_of_list_to_map. by apply log_ok_keys. Qed.

Lemma dest_sorted d log : log_ok log → (∀ x, x ∈ log → dest_of x = d) →
  StronglySorted entry_le (entry_of <$> log).
Proof.
  intros [HS HB _] Hd. induction log as [|x log IH]; [constructor|].
  apply StronglySorted_inv in HS as [HS Hall]. apply Forall_cons in HB as [Hb HB]. csimpl.
  constructor; [apply IH; [done..|set_solver]|]. apply Forall_forall.
  intros kv (y & -> & Hy)%list_elem_of_fmap. rewrite Forall_forall in Hall, HB.
  specialize (Hall y Hy). unfold seq_lt in Hall. unfold entry_le; simpl.
  rewrite (Hd x), (Hd y) by set_solver. apply queue_key_le; [done|by apply HB|lia].
Qed.

(** Scanning a destination's prefix yields its items in queueing order. *)
Lemma scan_dest d log :
  log_ok log → wf_dest d →
  scan_spec (queue_tree log) (queue_prefix d) = entry_of <$> for_dest d log.
Proof.
  intros Hl Hd. pose proof (log_ok_sublist log (for_dest d log) (sublist_filter _ _) Hl) as Hf.
  apply entries_unique; [apply scan_spec_sorted| |apply fmap_filter_NoDup, btree_keys_NoDup|].
  - apply (dest_sorted d); [done|]. by intros x [? _]%list_elem_of_filter.
  - apply NoDup_Permutation.
    + eapply NoDup_fmap_1, (fmap_filter_NoDup fst), btree_keys_NoDup.
    + eapply NoDup_fmap_1. by apply log_ok_keys.
    + intros [k v]. rewrite elem_of_scan_spec, queue_tree_lookup, !list_elem_of_fmap by done.
      unfold for_dest. setoid_rewrite list_elem_of_filter. destruct Hl as [_ _ HD].
      rewrite Forall_forall in HD. unfold entry_of, queue_key, queue_prefix. split.
      * intros [Hp (x & [= -> ->] & Hx)]. apply nul_prefix in Hp; [|apply Hd|by apply HD]. eauto.
      * intros (x & [= -> ->] & Hx & Hin). split; [|eauto].
        apply nul_prefix; [apply Hd|by apply HD|done].
Qed.

Lemma queue_tree_eq (t : Tree) log :
  log_ok log → (∀ k v, t !! k = Some v ↔ (k, v) ∈ entry_of <$> log) → t = queue_tree log.
Proof.
  intros Hl Ht. apply map_eq. intros k. apply option_eq. intros v.
  by rewrite Ht, queue_tree_lookup.
Qed.

Section live.
Context {B : Type} `{KvContract B}.
Implicit Types (s : B) (log : list Pending).

Lemma drain_items_live s l :
  kv_ok s → kv_live s →
  ∃ s', drain_items s l = (Ok l.*2, s') ∧ kv_ok s' ∧ kv_live s'
    ∧ (∀ d, d ≠ FederationQueue → kv_view s' d = kv_view s d)
    ∧ ∀ k, kv_view s' FederationQueue !! k
           = if decide (k ∈ l.*1) then None else kv_view s FederationQueue !! k.
Proof.
  revert s. induction l as [|[k v] l IH]; intros s Hok Hl; cbn [drain_items].
  { exists s. split_and!; [done..|]. intros k. by rewrite decide_False by apply not_elem_of_nil. }
  destruct (dyn_delete_live s FederationQueue k Hok Hl) as (s1 & -> & Hok1 & Hl1 & Hv1).
  destruct (IH s1 Hok1 Hl1) as (s2 & -> & Hok2 & Hl2 & Ho2 & Hv2).
  exists s2. split_and!; [done..| |].
  - intros d Hd. by rewrite Ho2, Hv1, decide_False.
  - intros j. rewrite Hv2, Hv1, fmap_cons. cbn [fst].
    rewrite (decide_True (P := FederationQueue = FederationQueue)) by done.
    destruct (decide (j ∈ l.*1)) as [Hj|Hj]; [by rewrite decide_True by (by right)|].
    destruct (decide (j = k)) as [->|Hne].
    + rewrite lookup_delete_eq, decide_True by (by left). done.
    + rewrite lookup_delete_ne, decide_False by (done || rewrite elem_of_cons; tauto). done.
Qed.

(** Draining a destination hands out its items and removes exactly them. *)
Lemma drain_queue_live s log d :
  kv_ok s → kv_live s → log_ok log → wf_dest d →
  kv_view s FederationQueue = queue_tree log →
  ∃ s', drain_queue s d = (Ok (item_of <$> for_dest d log), s') ∧ kv_ok s' ∧ kv_live s'
    ∧ (∀ d', d' ≠ FederationQueue → kv_view s' d' = kv_view s d')
    ∧ kv_view s' FederationQueue = queue_tree (filter (λ x, dest_of x ≠ d) log).
Proof.
  intros Hok Hl Hlog Hd Ht. unfold drain_queue. rewrite dyn_scan_live, Ht, scan_dest by done. simpl.
  destruct (drain_items_live s (entry_of <$> for_dest d log) Hok Hl)
    as (s' & E & Hok' & Hl' & Ho & Hv).
  exists s'. split_and!; [by rewrite E, <-list_fmap_compose|done..|].
  assert (log_ok (filter (λ x, dest_of x ≠ d) log)) as Hf
    by (eapply log_ok_sublist; [apply sublist_filter|done]).
  apply queue_tree_eq; [done|]. intros k v. rewrite Hv, Ht.
  pose proof Hlog as [_ HB HD]. rewrite Forall_forall in HB, HD.
  assert (k ∈ (entry_of <$> for_dest d log).*1 ↔ ∃ x, x ∈ log ∧ dest_of x = d ∧ k = (entry_of x).1) as Hk.
  { unfold for_dest. rewrite <-list_fmap_compose, list_elem_of_fmap.
    setoid_rewrite list_elem_of_filter. naive_solver. }
  case_decide as Hin; rewrite list_elem_of_fmap; setoid_rewrite list_elem_of_filter.
  - split; [done|]. intros (y & Ey & Hy & Hyl). apply Hk in Hin as (x & Hx & Hxd & ->).
    injection Ey as Ek _. apply queue_key_inj in Ek as [Ed _]; [congruence|by auto..].
  - rewrite queue_tree_lookup, list_elem_of_fmap by done. split.
    + intros (y & [= -> ->] & Hy). exists y. split_and!; [done| |done]. intros Hyd.
      apply Hin, Hk. by exists y.
    + intros (y & -> & _ & Hy). by exists y.
Qed.

(** The per-destination counts do not depend on the scan order. *)
Definition key_dest (key : string) : option Destination := before_nul key ≫= from_utf8.

Lemma foldl_count_key (ks : list string) (m : gmap Destination nat) d :
  default 0 (foldl count_key m ks !! d)
  = default 0 (m !! d) + length (filter (d =.) (omap key_dest ks))
  ∧ (is_Some (foldl count_key m ks !! d) ↔ is_Some (m !! d) ∨ d ∈ omap key_dest ks).
Proof.
  revert m. induction ks as [|k ks IH]; intros m; cbn [foldl omap list_omap].
  { split; [simpl; lia|]. rewrite elem_of_nil. tauto. }
  destruct (IH (count_key m k)) as [-> ->]. unfold count_key. fold (key_dest k).
  destruct (key_dest k) as [e|]; [|done]. destruct (decide (d = e)) as [->|Hne].
  - rewrite lookup_insert_eq, filter_cons_True by done. cbn [default from_option id length].
    split; [lia|]. rewrite elem_of_cons. naive_solver.
  - rewrite lookup_insert_ne, filter_cons_False by done. rewrite elem_of_cons. naive_solver.
Qed.

Lemma key_dest_queue_key d n : wf_dest d → key_dest (queue_key d n) = Some d.
Proof.
  intros [Hn Hu]. unfold key_dest, queue_key. rewrite before_nul_append by done. simpl.
  unfold from_utf8. by rewrite Hu.
Qed.

(** The queue depth of every destination with pending items, by destination. *)
Definition depths_of (log : list Pending) : list (Destination * nat) :=
  (λ d, (d, length (for_dest d log))) <$> bset_iter (list_to_set (dest_of <$> log)).

Lemma key_dests log : log_ok log → omap key_dest (entry_of <$> log).*1 = dest_of <$> log.
Proof.
  intros [_ _ HD]. induction log as [|x log IH]; [done|]. apply Forall_cons in HD as [Hx HD].
  rewrite !fmap_cons. cbn [omap list_omap entry_of fst]. rewrite key_dest_queue_key by done.
  f_equal. by apply IH.
Qed.

Lemma count_dest d log : length (filter (d =.) (dest_of <$> log)) = length (for_dest d log).
Proof.
  unfold for_dest. induction log as [|x log IH]; [done|]. rewrite fmap_cons.
  destruct (decide (dest_of x = d)) as [E|E].
  - rewrite !filter_cons_True by done. simpl. by f_equal.
  - rewrite !filter_cons_False by congruence. done.
Qed.

Lemma all_queue_depths_live s log :
  kv_ok s → kv_live s → log_ok log → kv_view s FederationQueue = queue_tree log →
  all_queue_depths s = Ok (depths_of log).
Proof.
  intros Hok Hl Hlog Ht. unfold all_queue_depths. rewrite dyn_scan_live, Ht, scan_spec_all by done. simpl.
  f_equal. symmetry. set (ks := (btree_iter (queue_tree log)).*1).
  assert (omap key_dest ks ≡ₚ dest_of <$> log) as P.
  { rewrite <-key_dests by done. apply omap_Permutation, fmap_Permutation.
    rewrite btree_iter_perm. by apply map_to_list_to_map, log_ok_keys. }
  apply btree_iter_spec.
  - unfold depths_of. pose proof (bset_iter_sorted (list_to_set (dest_of <$> log) : gset string)) as HS.
    induction HS as [|d l HS IH Hall]; [constructor|]. csimpl. constructor; [done|].
    apply Forall_fmap. eapply Forall_impl; [exact Hall|]. done.
  - unfold depths_of. rewrite <-list_fmap_compose. simpl. rewrite list_fmap_id. auto with btree.
  - intros d n. destruct (foldl_count_key ks ∅ d) as [Hc Hs]. rewrite lookup_empty, P in Hs.
    assert (length (filter (d =.) (omap key_dest ks)) = length (for_dest d log)) as HL
      by (by rewrite P, count_dest). rewrite HL, lookup_empty in Hc. simpl in Hc.
    unfold depths_of. rewrite list_elem_of_fmap. setoid_rewrite elem_of_bset_iter.
    setoid_rewrite elem_of_list_to_set. split.
    + intros (d' & [= <- ->] & Hd). destruct (foldl count_key ∅ ks !! d) as [c|] eqn:Ec.
      * simpl in Hc. by subst.
      * destruct (proj2 Hs (or_intror Hd)) as [? ?]. done.
    + intros Ed. exists d. rewrite Ed in Hc, Hs. simpl in Hc. subst. split; [done|].
      destruct (proj1 Hs) as [[? ?]|]; [by eauto|done|done].
Qed.
(** ** Due batches *)

(** The batches of the destinations in [l] that are not backed off. *)
Definition due_of (bo : gset Destination) (l : list Destination) (log : list Pending) :
    list (Destination * list Item) :=
  (λ d, (d, item_of <$> for_dest d log)) <$> filter (λ d, (d ∉ bo) ∧ for_dest d log ≠ []) l.

Lemma for_dest_other d d' log :
  d' ≠ d → for_dest d' (filter (λ x, dest_of x ≠ d) log) = for_dest d' log.
Proof.
  intros Hne. unfold for_dest. rewrite list_filter_filter_l; [done|]. intros x. by intros ->.
Qed.

Lemma due_loop_live s bo l log0 log :
  kv_ok s → kv_live s → log_ok log → kv_view s FederationQueue = queue_tree log →
  NoDup l → Forall wf_dest l → (∀ d, d ∈ l → for_dest d log = for_dest d log0) →
  ∃ s', due_loop s bo ((λ d, (d, length (for_dest d log0))) <$> l) = (Ok (due_of bo l log0), s')
    ∧ kv_ok s' ∧ kv_live s'
    ∧ (∀ d, d ≠ FederationQueue → kv_view s' d = kv_view s d)
    ∧ kv_view s' FederationQueue = queue_tree (filter (λ x, dest_of x ∈ bo ∨ (dest_of x ∉ l)) log).
Proof.
  revert s log. induction l as [|d l IH]; intros s log Hok Hl Hlog Ht ND HW Hag.
  { exists s. split_and!; [done..|]. rewrite filter_all; [done|]. intros x _. right. apply not_elem_of_nil. }
  apply NoDup_cons in ND as [Hd ND]. apply Forall_cons in HW as [Hw HW].
  rewrite fmap_cons. cbn [due_loop].
  assert (for_dest d log = for_dest d log0) as Hfd by (apply Hag; by left).
  destruct (decide (d ∈ bo)) as [Hbo|Hbo]; [|destruct (for_dest d log0) as [|x0 q0] eqn:Eq].
  - rewrite bool_decide_eq_true_2, andb_false_r by done.
    destruct (IH s log) as (s' & E & ? & ? & Ho & Hv); [done..|set_solver|].
    exists s'. unfold due_of in *. rewrite filter_cons_False by tauto. split_and!; [done..|].
    rewrite Hv. f_equal. apply list_filter_iff. intros x. rewrite elem_of_cons.
    destruct (decide (dest_of x = d)) as [->|]; tauto.
  - destruct (IH s log) as (s' & E & ? & ? & Ho & Hv); [done..|set_solver|].
    exists s'. unfold due_of in *. rewrite filter_cons_False by (rewrite Eq; tauto). split_and!; [done..|].
    rewrite Hv. f_equal. apply filter_ext_elem. intros x Hx. rewrite elem_of_cons.
    assert (dest_of x ≠ d); [|tauto]. intros Hxd.
    assert (x ∈ for_dest d log) as Hin by (by apply list_elem_of_filter). rewrite Hfd in Hin. by apply elem_of_nil in Hin.
  - rewrite bool_decide_eq_false_2 by done. cbn [length Nat.ltb Nat.leb andb negb].
    destruct (drain_queue_live s log d) as (s1 & -> & Hok1 & Hl1 & Ho1 & Hv1); [done..|].
    assert (log_ok (filter (λ x, dest_of x ≠ d) log)) as Hlog1
      by (eapply log_ok_sublist; [apply sublist_filter|done]).
    assert (∀ d', d' ∈ l → for_dest d' (filter (λ x, dest_of x ≠ d) log) = for_dest d' log0) as Hag1.
    { intros d' Hd'. rewrite for_dest_other by (by intros ->). apply Hag. by right. }
    destruct (IH s1 _ Hok1 Hl1 Hlog1 Hv1 ND HW Hag1) as (s' & -> & ? & ? & Ho & Hv).
    exists s'. unfold due_of in *. rewrite filter_cons_True by (rewrite Eq; done). split_and!.
    + rewrite Hfd, !fmap_cons. cbv beta. by rewrite Eq, fmap_cons.
    + done.
    + done.
    + intros d' Hd'. by rewrite Ho, Ho1.
    + rewrite Hv, list_filter_filter. f_equal. apply list_filter_iff. intros x. rewrite elem_of_cons.
      destruct (decide (dest_of x = d)) as [->|]; tauto.
Qed.
End live.

(** ** Sequence numbers and health records *)

Lemma max_key_seq_key m d n : (n <= U64_MAX)%N → max_key_seq m (queue_key d n) = N.max m n.
Proof.
  intros Hn. unfold max_key_seq, queue_key, u64_to_be_bytes.
  rewrite append_assoc, length_append, length_be_encode.
  destruct (Nat.leb_spec 8 (String.length (d +:+ NUL) + 8)); [|lia].
  replace (String.length (d +:+ NUL) + 8 - 8) with (String.length (d +:+ NUL)) by lia.
  by rewrite str_drop_append, from_be_bytes_encode by (by apply u64_width).
Qed.

Lemma foldl_max_key_seq l m :
  Forall (λ x, (seq_of x <= U64_MAX)%N) l →
  let r := foldl max_key_seq m (entry_of <$> l).*1 in
  (m <= r)%N ∧ (∀ x, x ∈ l → (seq_of x <= r)%N) ∧ (r = m ∨ ∃ x, x ∈ l ∧ r = seq_of x).
Proof.
  revert m. induction l as [|x l IH]; intros m HB; cbn zeta.
  { split_and!; [done|by intros x ?%elem_of_nil|by left]. }
  apply Forall_cons in HB as [Hx HB]. rewrite !fmap_cons. cbn [foldl fst entry_of].
  rewrite max_key_seq_key by done. destruct (IH (N.max m (seq_of x)) HB) as (H1 & H2 & H3).
  split_and!; [lia| |].
  - intros y [->|Hy]%elem_of_cons; [lia|by apply H2].
  - destruct H3 as [->|(y & Hy & ->)]; [|right; exists y; split; [by right|done]].
    destruct (N.max_spec m (seq_of x)) as [[_ ->]|[_ ->]]; [right; exists x; split; [by left|done]|by left].
Qed.

Lemma decode_encode_health att at' :
  (att <= U32_MAX)%N → (at' <= U64_MAX)%N → decode_health (encode_health att at') = Some (att, at').
Proof.
  intros Ha Ht. unfold decode_health, encode_health, slice_get, u32_to_be_bytes, u64_to_be_bytes.
  rewrite length_append, !length_be_encode. cbn [Nat.add Nat.leb Nat.sub].
  change (str_drop 0 ?s) with s.
  rewrite be_take, be_drop. cbn [mbind option_bind].
  rewrite from_be_bytes_encode by (by apply u32_width). cbn [mbind option_bind].
  rewrite be_take_all.
  by rewrite from_be_bytes_encode by (by apply u64_width).
Qed.

Definition encode_backoff (b : Backoff) : string := encode_health (attempt b) (available_at b).

Definition health_ok (d : Destination) (b : Backoff) : Prop :=
  utf8_valid d = true ∧ (attempt b <= U32_MAX)%N ∧ (available_at b <= U64_MAX)%N.

Lemma restore_records (m : gmap Destination Backoff) s :
  map_Forall health_ok m →
  foldl restore_record s (btree_iter (encode_backoff <$> m)) = mkSender (queues s) (m ∪ backoff s).
Proof.
  intros Hm. rewrite btree_iter_fmap, <-map_extend_union. unfold map_extend.
  assert (Forall (λ e, health_ok e.1 e.2) (btree_iter m)) as Hl.
  { apply Forall_forall. intros [d b] Hd%elem_of_btree_iter. by apply Hm. }
  revert s. induction Hl as [|[d b] l (Hu & Ha & Ht) Hl IH]; intros s; [by destruct s|].
  rewrite fmap_cons. cbn [foldl fst snd]. rewrite IH. unfold restore_record, from_utf8, encode_backoff.
  cbn [fst snd] in *. rewrite Hu, decode_encode_health by done. unfold restore. simpl. by destruct b.
Qed.

(** ** The service state *)

Record fed_state {B} `{KvContract B} (svc : FedService B) (log : list Pending) : Prop := {
  fs_ok : kv_ok (fed_store svc);
  fs_live : kv_live (fed_store svc);
  fs_log : log_ok log;
  fs_tree : kv_view (fed_store svc) FederationQueue = queue_tree log;
  fs_seq : Forall (λ x, (seq_of x < fed_seq svc)%N) log;
  fs_bound : (1 <= fed_seq svc <= U64_MAX)%N;
  fs_health : kv_view (fed_store svc) FederationHealth = encode_backoff <$> backoff (fed_sender svc);
  fs_health_ok : map_Forall health_ok (backoff (fed_sender svc));
}.

Section state.
Context {B : Type} `{KvContract B}.
Implicit Types (svc : FedService B) (log : list Pending).

Lemma log_ok_snoc log n d i :
  log_ok log → Forall (λ x, (seq_of x < n)%N) log → (n <= U64_MAX)%N → wf_dest d →
  log_ok (log ++ [((n, d), i)]).
Proof.
  intros [HS HB HD] Hlt Hn Hd. split.
  - apply StronglySorted_app_2; [|done|repeat constructor].
    rewrite Forall_forall in Hlt. intros x y Hx ->%list_elem_of_singleton. by apply Hlt.
  - apply Forall_app. split; [done|]. by apply Forall_singleton.
  - apply Forall_app. split; [done|]. by apply Forall_singleton.
Qed.

Lemma fed_queue_state svc log d i :
  fed_state svc log → (fed_seq svc < U64_MAX)%N → wf_dest d →
  fed_state (fed_queue svc d i) (log ++ [((fed_seq svc, d), i)])
  ∧ fed_seq (fed_queue svc d i) = (fed_seq svc + 1)%N.
Proof.
  intros [Hok Hl Hlog Ht Hs Hb Hh Hho] Hlt Hd. unfold fed_queue.
  destruct (dyn_put_live (fed_store svc) FederationQueue (queue_key d (fed_seq svc)) i Hok Hl)
    as (s' & -> & Hok' & Hl' & Hv).
  assert ((fed_seq svc + 1) mod 2 ^ 64 = fed_seq svc + 1)%N as ->.
  { apply N.mod_small. unfold U64_MAX in *. change (2 ^ 64)%N with 18446744073709551616%N. lia. }
  pose proof (log_ok_snoc log (fed_seq svc) d i Hlog Hs ltac:(lia) Hd) as Hlog'.
  split; [|done]. split; simpl; [done..| | |lia|by rewrite Hv|done].
  - rewrite Hv, decide_True, Ht by done. unfold queue_tree. rewrite fmap_app.
    change (entry_of <$> [((fed_seq svc, d), i)]) with [(queue_key d (fed_seq svc), i)].
    pose proof (log_ok_keys _ Hlog') as ND. rewrite fmap_app, fmap_app in ND.
    apply NoDup_app in ND as (_ & Hdis & _).
    rewrite list_to_map_snoc; [done|]. intros Hin. apply (Hdis _ Hin). by left.
  - apply Forall_app. split; [|repeat constructor; unfold seq_of; simpl; lia].
    eapply Forall_impl; [exact Hs|]. simpl. lia.
Qed.

Lemma fed_state_with svc log log' s' :
  fed_state svc log → sublist log' log → kv_ok s' → kv_live s' →
  (∀ d, d ≠ FederationQueue → kv_view s' d = kv_view (fed_store svc) d) →
  kv_view s' FederationQueue = queue_tree log' →
  fed_state (with_store svc s') log'.
Proof.
  intros [Hok Hl Hlog Ht Hs Hb Hh Hho] Hsub Hok' Hl' Ho Ht'. split; simpl; try done.
  - by eapply log_ok_sublist.
  - rewrite Forall_forall in Hs |- *. intros x Hx. apply Hs. by eapply sublist_subseteq.
  - by rewrite Ho.
Qed.

Lemma fed_take_state svc log d :
  fed_state svc log → wf_dest d →
  (fed_take svc d).1 = item_of <$> for_dest d log
  ∧ fed_state (fed_take svc d).2 (filter (λ x, dest_of x ≠ d) log).
Proof.
  intros Hst Hd. unfold fed_take.
  destruct (drain_queue_live (fed_store svc) log d) as (s' & -> & Hok' & Hl' & Ho & Hv);
    [apply Hst..|done|apply Hst|].
  split; [done|]. by eapply fed_state_with; [|apply sublist_filter|..].
Qed.

Lemma depths_of_due log : depths_of log
  = (λ d, (d, length (for_dest d log))) <$> bset_iter (list_to_set (dest_of <$> log)).
Proof. done. Qed.

Lemma tick_state svc log now :
  fed_state svc log →
  (tick svc now).1 = due_of (backed_off_at svc now) (bset_iter (list_to_set (dest_of <$> log))) log
  ∧ fed_state (tick svc now).2 (filter (λ x, dest_of x ∈ backed_off_at svc now) log).
Proof.
  intros Hst. pose proof Hst as [Hok Hl Hlog Ht _ _ _ _]. unfold tick, due_batches.
  rewrite (all_queue_depths_live _ log), depths_of_due by done.
  set (bo := backed_off_at svc now). set (l := bset_iter (list_to_set (dest_of <$> log))).
  assert (∀ x, x ∈ log → dest_of x ∈ l) as Hin.
  { intros x Hx. apply elem_of_bset_iter, elem_of_list_to_set, list_elem_of_fmap. by exists x. }
  destruct (due_loop_live (fed_store svc) bo l log log) as (s' & E & Hok' & Hl' & Ho & Hv); try done.
  { apply bset_iter_NoDup. }
  { apply Forall_forall. intros d Hd%elem_of_bset_iter%elem_of_list_to_set%list_elem_of_fmap.
    destruct Hd as (x & -> & Hx). by apply (proj1 (Forall_forall _ _) (lo_dest _ Hlog)). }
  rewrite E. split; [done|]. apply (fed_state_with svc log _ s'); [done|apply sublist_filter|done..|].
  rewrite Hv. f_equal. apply filter_ext_elem. intros x Hx. specialize (Hin x Hx). tauto.
Qed.

Lemma fed_restart svc log auth :
  fed_state svc log →
  ∃ svc', build (fed_store svc) auth = Ok svc' ∧ fed_state svc' log
    ∧ backoff (fed_sender svc') = backoff (fed_sender svc) ∧ (fed_seq svc' <= fed_seq svc)%N.
Proof.
  intros [Hok Hl Hlog Ht Hs Hb Hh Hho]. unfold build, restore_health, max_queue_seq.
  rewrite !dyn_scan_live, !scan_spec_all, Hh, Ht by done. simpl.
  rewrite restore_records by done. simpl. rewrite (right_id_L ∅ (∪)).
  set (ks := (btree_iter (queue_tree log)).*1).
  assert (∃ l, l ≡ₚ log ∧ ks = (entry_of <$> l).*1) as (l & Pl & Ek).
  { assert (btree_iter (queue_tree log) ≡ₚ entry_of <$> log) as P
      by (rewrite btree_iter_perm; by apply map_to_list_to_map, log_ok_keys).
    apply Permutation_map_inv in P as (l & El & Pl). exists l. split; [done|]. unfold ks. by rewrite El. }
  rewrite Ek. destruct (foldl_max_key_seq l 0) as (_ & Hmax & Hr); [rewrite Pl; apply Hlog|].
  set (r := foldl max_key_seq 0%N (entry_of <$> l).*1) in *.
  rewrite Forall_forall in Hs.
  assert (r < fed_seq svc)%N as Hlt.
  { destruct Hr as [->|(x & Hx & ->)]; [lia|]. apply Hs. by rewrite <-Pl. }
  assert (u64_saturating_add r 1 = r + 1)%N as -> by (unfold u64_saturating_add; lia).
  eexists. split_and!; [done| |done|simpl; lia]. split; simpl; try done; [|lia].
  apply Forall_forall. intros x Hx. specialize (Hmax x). rewrite Pl in Hmax. specialize (Hmax Hx). lia.
Qed.
End state.

(** ** Health updates *)

Section marks.
Context {B : Type} `{KvContract B}.
Implicit Types (svc : FedService B) (log : list Pending).

Lemma fed_mark_success_state svc log d :
  fed_state svc log → fed_state (fed_mark_success svc d) log.
Proof.
  intros [Hok Hl Hlog Ht Hs Hb Hh Hho]. unfold fed_mark_success.
  destruct (dyn_delete_live (fed_store svc) FederationHealth d Hok Hl) as (s' & -> & Hok' & Hl' & Hv).
  split; simpl; try done; rewrite ?Hv; simpl; [done| |].
  - by rewrite Hh, fmap_delete.
  - by apply map_Forall_delete.
Qed.

Lemma fed_mark_failure_state svc log d now :
  fed_state svc log → utf8_valid d = true → fed_state (fed_mark_failure svc d now) log.
Proof.
  intros [Hok Hl Hlog Ht Hs Hb Hh Hho] Hd. unfold fed_mark_failure, backoff_for, mark_failure. simpl.
  rewrite lookup_insert_eq. simpl.
  set (b := mkBackoff _ _). change (encode_health _ _) with (encode_backoff b).
  destruct (dyn_put_live (fed_store svc) FederationHealth d (encode_backoff b) Hok Hl)
    as (s' & -> & Hok' & Hl' & Hv).
  split; simpl; try done; rewrite ?Hv; simpl; [done| |].
  - by rewrite Hh, fmap_insert.
  - apply map_Forall_insert_2; [|done]. unfold health_ok, b; simpl.
    unfold u32_saturating_add, u64_saturating_add. split_and!; [done|lia..].
Qed.
End marks.

(** ** Operation sequences *)

Inductive FedOp :=
  | FQueue (d : Destination) (item : Item)
  | FTake (d : Destination)
  | FTick (now : N)
  | FSuccess (d : Destination)
  | FFailure (d : Destination) (now : N)
  | FRestart.

(** The destination an operation names, if any, is a server name. *)
Definition fed_op_ok (o : FedOp) : Prop :=
  match o with
  | FQueue d _ | FTake d | FSuccess d | FFailure d _ => wf_dest d
  | FTick _ | FRestart => True
  end.

Definition fed_queued (d : Destination) (o : FedOp) : list Item :=
  match o with FQueue d' i => if decide (d' = d) then [i] else [] | _ => [] end.

Section trace.
Context {B : Type} `{KvContract B}.
Implicit Types (svc : FedService B) (log : list Pending) (o : FedOp).

(** One operation: the batches it hands out, and the next state.  A restart
    rebuilds the service from its store. *)
Definition fed_step svc o : list (Destination * list Item) * FedService B :=
  match o with
  | FQueue d i => ([], fed_queue svc d i)
  | FTake d => let '(items, svc') := fed_take svc d in ([(d, items)], svc')
  | FTick now => tick svc now
  | FSuccess d => ([], fed_mark_success svc d)
  | FFailure d now => ([], fed_mark_failure svc d now)
  | FRestart =>
      match build (fed_store svc) (gm_fed_authoritative_sender svc) with
      | Ok svc' => ([], svc')
      | Err _ => ([], svc)
      end
  end.

Definition fed_run svc (os : list FedOp) : FedService B := foldl (λ s o, (fed_step s o).2) svc os.

(** The items of [d] in a list of batches. *)
Definition handed (d : Destination) (out : list (Destination * list Item)) : list Item :=
  mjoin ((λ b, if decide (b.1 = d) then b.2 else []) <$> out).

Fixpoint fed_delivered svc (os : list FedOp) (d : Destination) : list Item :=
  match os with
  | [] => []
  | o :: os => handed d (fed_step svc o).1 ++ fed_delivered (fed_step svc o).2 os d
  end.

Definition items_for (d : Destination) log : list Item := item_of <$> for_dest d log.

Lemma handed_cons d b out :
  handed d (b :: out) = (if decide (b.1 = d) then b.2 else []) ++ handed d out.
Proof. done. Qed.

Lemma handed_fmap d (f : Destination → list Item) l :
  NoDup l → handed d ((λ x, (x, f x)) <$> l) = if decide (d ∈ l) then f d else [].
Proof.
  induction l as [|x l IH]; intros ND.
  { by rewrite decide_False by apply not_elem_of_nil. }
  apply NoDup_cons in ND as [Hx ND]. rewrite fmap_cons, handed_cons. cbn [fst snd].
  rewrite IH by done. destruct (decide (x = d)) as [->|Hne].
  - rewrite (decide_False (P := d ∈ l)), app_nil_r by done. by rewrite decide_True by (by left).
  - simpl. apply decide_ext. rewrite elem_of_cons. naive_solver.
Qed.

Lemma handed_due d bo log :
  handed d (due_of bo (bset_iter (list_to_set (dest_of <$> log))) log)
  = if decide (d ∈ bo) then [] else items_for d log.
Proof.
  unfold due_of. rewrite handed_fmap by apply NoDup_filter, bset_iter_NoDup.
  fold (items_for d log).
  assert (for_dest d log ≠ [] → d ∈ bset_iter (list_to_set (dest_of <$> log) : gset Destination)) as Hin.
  { intros Hne. apply elem_of_bset_iter, elem_of_list_to_set, list_elem_of_fmap.
    destruct (for_dest d log) as [|x l] eqn:E; [done|]. exists x.
    assert (x ∈ for_dest d log) as [? ?]%list_elem_of_filter by (rewrite E; by left). done. }
  destruct (decide (d ∈ bo)) as [Hbo|Hbo].
  - rewrite decide_False; [done|]. rewrite list_elem_of_filter. tauto.
  - destruct (decide (for_dest d log = [])) as [E|E].
    + unfold items_for. rewrite E. by case_decide.
    + rewrite decide_True; [done|]. apply list_elem_of_filter. auto.
Qed.

Lemma items_for_filter (Q : Destination → Prop) `{!∀ d, Decision (Q d)}
    `{!∀ x : Pending, Decision (Q (dest_of x))} d log :
  items_for d (filter (λ x, Q (dest_of x)) log) = if decide (Q d) then items_for d log else [].
Proof.
  unfold items_for, for_dest. rewrite list_filter_filter. case_decide as HQ.
  - f_equal. apply list_filter_iff. intros x. naive_solver.
  - rewrite filter_none; [done|]. naive_solver.
Qed.

Lemma fed_step_sim svc log o :
  fed_state svc log → fed_op_ok o → (fed_seq svc < U64_MAX)%N →
  ∃ log', fed_state (fed_step svc o).2 log' ∧ (fed_seq (fed_step svc o).2 <= fed_seq svc + 1)%N
    ∧ ∀ d, handed d (fed_step svc o).1 ++ items_for d log' = items_for d log ++ fed_queued d o.
Proof.
  intros Hst Ho Hlt. destruct o as [d i|d|now|d|d now|]; cbn [fed_step fed_op_ok fed_queued fst snd] in *.
  - destruct (fed_queue_state svc log d i Hst Hlt Ho) as [Hst' Eq].
    eexists. split_and!; [exact Hst'|by rewrite Eq|]. intros d'. unfold items_for, for_dest.
    rewrite filter_app, fmap_app. change (handed d' [] ++ ?l) with l. f_equal.
    destruct (decide (d = d')) as [->|Hne].
    + by rewrite filter_cons_True.
    + by rewrite filter_cons_False.
  - destruct (fed_take_state svc log d Hst Ho) as [Hi Hst'].
    unfold fed_take in *. destruct (drain_queue (fed_store svc) d) as [r s']. cbn [fst snd] in *.
    eexists. split_and!; [exact Hst'|simpl; lia|]. intros d'. rewrite handed_cons, Hi. cbn [fst snd].
    rewrite (items_for_filter (λ x, x ≠ d)), !app_nil_r.
    destruct (decide (d = d')) as [->|Hne].
    + rewrite decide_False by tauto. by rewrite app_nil_r.
    + by rewrite decide_True by done.
  - destruct (tick_state svc log now Hst) as [Eb Hst']. eexists. split_and!; [exact Hst'| |].
    + unfold tick. destruct (due_batches _ _). simpl. lia.
    + intros d. rewrite Eb, handed_due, (items_for_filter (λ x, x ∈ backed_off_at svc now)), app_nil_r.
      case_decide; [done|]. apply app_nil_r.
  - exists log. split_and!; [by apply fed_mark_success_state| |intros; by rewrite app_nil_r].
    unfold fed_mark_success. destruct (dyn_delete _ _ _). simpl. lia.
  - exists log. split_and!; [apply fed_mark_failure_state; [done|apply Ho]| |intros; by rewrite app_nil_r].
    unfold fed_mark_failure. destruct (backoff_for _ _) as [[]|]; [destruct (dyn_put _ _ _ _)|]; simpl; lia.
  - destruct (fed_restart svc log (gm_fed_authoritative_sender svc) Hst) as (svc' & -> & Hst' & _ & Hs).
    exists log. split_and!; [done|simpl; lia|intros; by rewrite app_nil_r].
Qed.

Lemma fed_run_sim svc log os :
  fed_state svc log → Forall fed_op_ok os → (fed_seq svc + N.of_nat (length os) < U64_MAX)%N →
  ∃ log', fed_state (fed_run svc os) log' ∧ ∀ d,
    fed_delivered svc os d ++ items_for d log' = items_for d log ++ mjoin (fed_queued d <$> os).
Proof.
  intros Hst Hos. revert svc log Hst. induction Hos as [|o os Ho Hos IH]; intros svc log Hst Hlt.
  { exists log. split; [done|]. intros d. by rewrite app_nil_r. }
  cbn [length] in Hlt.
  destruct (fed_step_sim svc log o Hst Ho) as (log1 & Hst1 & Hs1 & Hd1); [lia|].
  destruct (IH (fed_step svc o).2 log1 Hst1) as (log' & Hst' & Hd'); [lia|].
  exists log'. split; [done|]. intros d. cbn [fed_delivered]. rewrite fmap_cons.
  change (mjoin (fed_queued d o :: ?l)) with (fed_queued d o ++ mjoin l).
  by rewrite <-app_assoc, Hd', app_assoc, Hd1, <-app_assoc.
Qed.

Lemma fed_pending_state svc log d :
  fed_state svc log → wf_dest d → fed_pending svc d = length (items_for d log).
Proof.
  intros Hst Hd. unfold fed_pending, queue_depth.
  rewrite dyn_scan_live, (fs_tree _ _ Hst), scan_dest by (done || apply Hst). simpl.
  unfold items_for. by rewrite !length_fmap.
Qed.

Lemma build_empty (s : B) auth :
  kv_ok s → kv_live s → kv_view s FederationQueue = ∅ → kv_view s FederationHealth = ∅ →
  ∃ svc, build s auth = Ok svc ∧ fed_state svc [] ∧ fed_seq svc = 1%N.
Proof.
  intros Hok Hl Hq Hh. unfold build, restore_health, max_queue_seq.
  rewrite !dyn_scan_live, Hq, Hh by done. rewrite !scan_spec_all.
  unfold btree_iter. rewrite map_to_list_empty. simpl. eexists. split; [done|]. split; [|done].
  split; simpl; try done. by repeat constructor.
Qed.
End trace.

Section drive_lemmas.
Context {B : Type} `{KvContract B} `{Sha256} `{Base64} {Pdu : Type}.
Variables
  (server_name : string) (parse_server : string → option string) (parse_pdu : string → option Pdu)
  (format_pdu : Pdu → string) (execute_on : string → Transaction → Result Error ()).
Hypothesis parse_server_id : ∀ d s, parse_server d = Some s → s = d.

Lemma drive_batches_state now n (svc : FedService B) log batches :
  fed_state svc log → Forall (λ b, wf_dest b.1) batches →
  fed_state (foldl (drive_batch server_name parse_server parse_pdu format_pdu execute_on now)
               (n, svc) batches).2 log.
Proof.
  intros Hst HW. revert n svc Hst. induction HW as [|b batches [_ Hu] HW IH]; intros n svc Hst; [done|].
  cbn [foldl]. unfold drive_batch at 2. destruct (parse_server b.1) as [server|] eqn:Ep; [|by apply IH].
  apply parse_server_id in Ep as ->.
  destruct (dispatch_transaction _ _ _ _ _ _) as [ok'|e]; apply IH;
    [by apply fed_mark_success_state|by apply fed_mark_failure_state].
Qed.

Lemma due_of_wf bo log : log_ok log →
  Forall (λ b, wf_dest b.1) (due_of bo (bset_iter (list_to_set (dest_of <$> log))) log).
Proof.
  intros Hlog. apply Forall_forall. intros b (d & -> & [_ Hd]%list_elem_of_filter)%list_elem_of_fmap.
  apply elem_of_bset_iter, elem_of_list_to_set, list_elem_of_fmap in Hd as (x & -> & Hx).
  by apply (proj1 (Forall_forall _ _) (lo_dest _ Hlog)).
Qed.

Lemma drive_once_state (svc : FedService B) log now :
  fed_state svc log → gm_fed_authoritative_sender svc = true →
  ∃ n svc', drive_once server_name parse_server parse_pdu format_pdu execute_on svc now = (Ok n, svc')
    ∧ fed_state svc' (filter (λ x, dest_of x ∈ backed_off_at svc now) log).
Proof.
  intros Hst Hg. unfold drive_once. rewrite Hg. destruct (tick_state svc log now Hst) as [Eb Hst'].
  destruct (tick svc now) as [batches svc1]. cbn [fst snd] in *.
  pose proof (drive_batches_state now 0 svc1 _ batches Hst') as Hf.
  destruct (foldl _ _ batches) as [n svc2]. exists n, svc2. split; [done|]. apply Hf.
  rewrite Eb. apply due_of_wf, Hst.
Qed.
End drive_lemmas.

(** ** Properties *)



(** The scheduler survives a restart: rebuilding the service from its store
    restores every destination's backoff exactly, so the failing and ready
    views at any time are unchanged, keeps all pending items, and resumes with
    sequence numbers above every pending one. *)
Theorem fed_restart_transparent {B} `{KvContract B} (svc : FedService B) (log : list Pending)
    (auth : bool) (now : N) :
  fed_state svc log →
  ∃ svc', build (fed_store svc) auth = Ok svc' ∧ fed_state svc' log
    ∧ (∀ d, backoff_for (fed_sender svc') d = backoff_for (fed_sender svc) d)
    ∧ failing svc' now = failing svc now ∧ fed_ready svc' now = fed_ready svc now
    ∧ fed_store svc' = fed_store svc.
Proof.
  intros Hst. destruct (fed_restart svc log auth Hst) as (svc' & Eb & Hst' & Ebo & _).
  exists svc'. unfold failing, fed_ready, backed_off_at, backoff_for, backoff_state. rewrite Ebo.
  assert (fed_store svc' = fed_store svc) as ->.
  { revert Eb. unfold build. destruct (restore_health _ _); [|done].
    destruct (max_queue_seq _); [|done]. by intros [= <-]. }
  done.
Qed.

Module FedFixture.
Definition base : FedService MemBackend := mkFed sender_new mem_new 1 true.
Lemma base_state : fed_state base [].
Proof. destruct (build_empty mem_new true) as (svc & [= <-] & Hst & _); done. Qed.
Definition queued : FedService MemBackend := fed_queue base "b.org" "{}".
Lemma queued_state : fed_state queued [((1%N, "b.org"), "{}")].
Proof. by apply (fed_queue_state base [] "b.org" "{}" base_state). Qed.
End FedFixture.

Lemma fed_restart_transparent_witness :
  ∃ svc', build (fed_store FedFixture.queued) true = Ok svc' ∧ fed_ready svc' 7 = ["b.org"].
Proof.
  destruct (fed_restart_transparent FedFixture.queued [((1%N, "b.org"), "{}")] true 7)
    as (svc' & Eb & _ & _ & _ & Hr & _); [apply FedFixture.queued_state|].
  exists svc'. split; [exact Eb|]. rewrite Hr. vm_compute. reflexivity.
Defined.

(** A drive cycle discards what it could not deliver: the due items of a
    destination leave the durable queue before dispatch, so when the transport
    rejects the transaction the items are neither delivered nor pending any
    more. *)
Theorem drive_once_drops_undelivered {B} `{KvContract B} `{Sha256} `{Base64} {Pdu : Type}
    (server_name : string) (parse_server : string → option string) (parse_pdu : string → option Pdu)
    (format_pdu : Pdu → string) (execute_on : string → Transaction → Result Error ())
    (svc : FedService B) (log : list Pending) (d : Destination) (now : N) (e : Error) :
  (∀ x s, parse_server x = Some s → s = x) →
  fed_state svc log → gm_fed_authoritative_sender svc = true → wf_dest d →
  d ∉ backed_off_at svc now → items_for d log ≠ [] →
  dispatch_transaction server_name format_pdu execute_on d (omap parse_pdu (items_for d log)) now = Err e →
  ∃ n svc', drive_once server_name parse_server parse_pdu format_pdu execute_on svc now = (Ok n, svc')
    ∧ fed_pending svc d = length (items_for d log) ∧ fed_pending svc' d = 0.
Proof.
  intros Hp Hst Hg Hd Hbo Hne He.
  destruct (drive_once_state server_name parse_server parse_pdu format_pdu execute_on Hp svc log now Hst Hg)
    as (n & svc' & -> & Hst').
  exists n, svc'. split; [done|]. rewrite (fed_pending_state svc log) by done. split; [done|].
  rewrite (fed_pending_state svc' _ d Hst' Hd).
  by rewrite (items_for_filter (λ x, x ∈ backed_off_at svc now)), decide_False.
Qed.

Import ToySha CasFixture.

Lemma drive_once_drops_undelivered_witness :
  ∃ n svc', drive_once "a.org" Some (Some : string → option string) id
      (λ _ _, Err (ErrMsg "connection refused")) FedFixture.queued 9 = (Ok n, svc')
    ∧ fed_pending FedFixture.queued "b.org" = 1 ∧ fed_pending svc' "b.org" = 0.
Proof.
  apply (drive_once_drops_undelivered "a.org" Some (Some : string → option string) id
    (λ _ _, Err (ErrMsg "connection refused")) FedFixture.queued [((1%N, "b.org"), "{}")] "b.org" 9
    (ErrMsg "connection refused")).
  - intros x s Hs. injection Hs as <-. reflexivity.
  - apply FedFixture.queued_state.
  - reflexivity.
  - split; reflexivity.
  - apply (bool_decide_unpack _). vm_compute. exact I.
  - discriminate.
  - vm_compute. reflexivity.
Defined.
