(* ===== verification/ApiModel.v ===== *)
(** * gm-api: the Matrix wire model ([src/src/apimodel])

    Content parsing, the construction of resolution events from JSON and from
    a field view, endpoint templates and the router, the error model, the
    versions response and bearer-token extraction. *)

From S2P Require Import Prelude Bytes Json StateMap StateEvent.

(** ** Content ([content.rs]) *)

Definition DEFAULT_STATE : Z := 50.
Definition DEFAULT_BAN : Z := 50.
Definition DEFAULT_KICK : Z := 50.

Definition parse_level (value : option Value) : option Z :=
  v ← value;
  match v with
  | Num _ => as_i64 v
  | Str s => parse_i64 s
  | _ => None
  end.

Definition parse_level_map (value : option Value) : gmap string Z :=
  default ∅ ((λ o : gmap string Value,
    foldl (insert_image (λ v, parse_level (Some v))) ∅ (btree_iter o)) <$> (value ≫= as_object)).

Definition power_levels_from_content (content : Value) : PowerLevels :=
  {| users := parse_level_map (json_get content "users");
     users_default := default 0%Z (parse_level (json_get content "users_default"));
     events := parse_level_map (json_get content "events");
     events_default := default 0%Z (parse_level (json_get content "events_default"));
     state_default := default DEFAULT_STATE (parse_level (json_get content "state_default"));
     invite := default 0%Z (parse_level (json_get content "invite"));
     kick := default DEFAULT_KICK (parse_level (json_get content "kick"));
     ban := default DEFAULT_BAN (parse_level (json_get content "ban")) |}.

Definition membership_from_content (content : Value) : option string :=
  json_get content "membership" ≫= as_str.

Definition join_rule_from_content (content : Value) : option string :=
  json_get content "join_rule" ≫= as_str.

Definition join_authorised_from_content (content : Value) : option string :=
  json_get content "join_authorised_via_users_server" ≫= as_str.

(** ** Events ([event.rs], [view.rs]) *)

Definition with_content (e : StateEvent) (content : Value) : StateEvent :=
  let ty := se_event_type e in
  if String.eqb ty "m.room.power_levels" then
    with_projections e (Some (power_levels_from_content content)) (se_membership e) (se_join_rule e)
      (se_join_authorised e)
  else if String.eqb ty "m.room.member" then
    with_projections e (se_power_levels e) (membership_from_content content) (se_join_rule e)
      (join_authorised_from_content content)
  else if String.eqb ty "m.room.join_rules" then
    with_projections e (se_power_levels e) (se_membership e) (join_rule_from_content content)
      (se_join_authorised e)
  else e.

Definition auth_event_id (entry : Value) : option string :=
  match entry with
  | Str id => Some id
  | Array entry => head entry ≫= as_str
  | _ => None
  end.

Definition from_event_json (id : string) (event : Value) : option StateEvent :=
  ty ← json_get event "type" ≫= as_str;
  from ← json_get event "sender" ≫= as_str;
  ts ← json_get event "origin_server_ts" ≫= as_u64;
  let state := with_origin_server_ts (state_event_new id ty from) ts in
  let state := match json_get event "state_key" ≫= as_str with
               | Some k => with_state_key state k
               | None => state
               end in
  let auth := default [] (filter_map auth_event_id <$> (json_get event "auth_events" ≫= as_array)) in
  let state := with_auth_events state auth in
  Some (match json_get event "content" with Some c => with_content state c | None => state end).

(** The fields an [EventView] exposes. *)
Record EventView := mkView {
  v_event_id : string;
  v_event_type : string;
  v_sender : string;
  v_state_key : option string;
  v_origin_server_ts : N;
  v_auth_event_ids : list string;
  v_content : Value;
}.

Definition from_view (v : EventView) (power : Z) : StateEvent :=
  let state := with_content (with_power_level (with_origin_server_ts
    (state_event_new (v_event_id v) (v_event_type v) (v_sender v)) (v_origin_server_ts v)) power)
    (v_content v) in
  let state := match v_state_key v with Some k => with_state_key state k | None => state end in
  with_auth_events state (v_auth_event_ids v).

(** ** Endpoints ([endpoint.rs]) *)

Inductive Method := Get | MPut | Post | MDelete.
Inductive AuthScope := NoAuth | User | AppService | Server.

#[export] Instance method_eq_dec : EqDecision Method.
Proof. solve_decision. Defined.

Abbreviation PathParams := (gmap string string).

Record Endpoint := mkEndpoint { method : Method; path : string; auth : AuthScope }.

(** The name of a [{name}] segment. *)
Definition param_name (segment : string) : option string :=
  inner ← strip_prefix "{" segment; strip_suffix "}" inner.

Fixpoint match_segments (template path : list string) (params : PathParams) : option PathParams :=
  match template, path with
  | t :: template, p :: path =>
      match param_name t with
      | Some name => match_segments template path (<[name := p]> params)
      | None => if String.eqb t p then match_segments template path params else None
      end
  | [], [] => Some params
  | _, _ => None
  end.

Definition match_template (template path : string) : option PathParams :=
  match_segments (str_split "/" template) (str_split "/" path) ∅.

Definition endpoint_matches (e : Endpoint) (m : Method) (p : string) : option PathParams :=
  if bool_decide (m ≠ method e) then None else match_template (path e) p.

(** ** The router ([router.rs]) *)

Inductive Route :=
  | Matched (endpoint : Endpoint) (params : PathParams)
  | MethodNotAllowed
  | RouteNotFound.

Record Router := mkRouter { endpoints : list Endpoint }.

Definition router_new : Router := mkRouter [].

Definition register (r : Router) (e : Endpoint) : Router := mkRouter (endpoints r ++ [e]).

(** The scan of [resolve]; [path_matched] is its flag. *)
Fixpoint resolve_loop (es : list Endpoint) (m : Method) (p : string) (path_matched : bool) : Route :=
  match es with
  | [] => if path_matched then MethodNotAllowed else RouteNotFound
  | e :: es =>
      match match_template (path e) p with
      | Some params =>
          if bool_decide (method e = m) then Matched e params else resolve_loop es m p true
      | None => resolve_loop es m p path_matched
      end
  end.

Definition route_resolve (r : Router) (m : Method) (p : string) : Route :=
  resolve_loop (endpoints r) m p false.

(** ** The error model ([error.rs]) *)

Inductive ErrorCode :=
  | EForbidden | UnknownToken | EMissingToken | Unauthorized | BadJson | NotJson | ENotFound
  | Unrecognized | LimitExceeded | UserInUse | InvalidUsername | RoomInUse
  | UnsupportedRoomVersion | MissingParam | EInvalidParam | TooLarge | EUnknown.

Definition errcode (c : ErrorCode) : string :=
  match c with
  | EForbidden => "M_FORBIDDEN"
  | UnknownToken => "M_UNKNOWN_TOKEN"
  | EMissingToken => "M_MISSING_TOKEN"
  | Unauthorized => "M_UNAUTHORIZED"
  | BadJson => "M_BAD_JSON"
  | NotJson => "M_NOT_JSON"
  | ENotFound => "M_NOT_FOUND"
  | Unrecognized => "M_UNRECOGNIZED"
  | LimitExceeded => "M_LIMIT_EXCEEDED"
  | UserInUse => "M_USER_IN_USE"
  | InvalidUsername => "M_INVALID_USERNAME"
  | RoomInUse => "M_ROOM_IN_USE"
  | UnsupportedRoomVersion => "M_UNSUPPORTED_ROOM_VERSION"
  | MissingParam => "M_MISSING_PARAM"
  | EInvalidParam => "M_INVALID_PARAM"
  | TooLarge => "M_TOO_LARGE"
  | EUnknown => "M_UNKNOWN"
  end.

Definition code_http_status (c : ErrorCode) : N :=
  match c with
  | Unauthorized | UnknownToken | EMissingToken => 401
  | EForbidden => 403
  | ENotFound | Unrecognized => 404
  | TooLarge => 413
  | LimitExceeded => 429
  | EUnknown => 500
  | BadJson | NotJson | UserInUse | InvalidUsername | RoomInUse | UnsupportedRoomVersion
  | MissingParam | EInvalidParam => 400
  end.

Record MatrixError := mkMatrixError { code : ErrorCode; message : string; retry_after_ms : option N }.

Definition matrix_error_new (c : ErrorCode) (msg : string) : MatrixError := mkMatrixError c msg None.

Definition rate_limited (msg : string) (ms : N) : MatrixError := mkMatrixError LimitExceeded msg (Some ms).

Definition http_status (e : MatrixError) : N := code_http_status (code e).

Definition error_to_json (e : MatrixError) : Value :=
  let body := <["error" := Str (message e)]> (<["errcode" := Str (errcode (code e))]> ∅) in
  Object (match retry_after_ms e with Some ms => <["retry_after_ms" := json_u64 ms]> body | None => body end).

Definition error_display (e : MatrixError) : string := errcode (code e) +:+ ": " +:+ message e.

(** ** Versions ([versions.rs]) and tokens ([auth.rs]) *)

Record Versions := mkVersions { versions : list string; unstable_features : gmap string bool }.

Definition versions_new (vs : list string) : Versions := mkVersions vs ∅.

Definition with_unstable_feature (v : Versions) (name : string) (enabled : bool) : Versions :=
  mkVersions (versions v) (<[name := enabled]> (unstable_features v)).

Definition versions_to_json (v : Versions) : Value :=
  let features := foldl (insert_image (λ b, Some (Bool b))) ∅ (btree_iter (unstable_features v)) in
  Object (<["unstable_features" := Object features]>
    (<["versions" := Array (Str <$> versions v)]> ∅)).

Definition nonempty_token (s : string) : bool := negb (String.eqb s "").

Definition extract_access_token (authorization query_token : option string) : option string :=
  match authorization with
  | Some header => opt_filter nonempty_token (trim <$> strip_prefix "Bearer " header)
  | None => opt_filter nonempty_token query_token
  end.

(** ** Lemmas *)

(** *** Paths and segments *)

Fixpoint lacks (c : ascii) (s : string) : bool :=
  match s with EmptyString => true | String a s => negb (Ascii.eqb a c) && lacks c s end.

Definition join_path (l : list string) : string := String.concat "/" l.

Lemma join_path_cons s t l : join_path (s :: t :: l) = s +:+ "/" +:+ join_path (t :: l).
Proof. done. Qed.

Lemma split_cons_ne c s : ∃ w ws, str_split c s = w :: ws.
Proof. destruct s as [|a s]; simpl; [eauto|]. destruct (Ascii.eqb a c); [eauto|]. destruct (str_split c s); eauto. Qed.

Lemma split_lacks c s : Forall (λ w, lacks c w = true) (str_split c s).
Proof.
  induction s as [|a s IH]; simpl; [by repeat constructor|].
  destruct (Ascii.eqb a c) eqn:E; [by constructor|].
  destruct (str_split c s) as [|w ws]; [constructor; [simpl; by rewrite E|constructor]|].
  inversion IH; subst. constructor; [simpl; by rewrite E|done].
Qed.

Lemma join_split s : join_path (str_split "/" s) = s.
Proof.
  induction s as [|a s IH]; [done|]. cbn [str_split].
  destruct (split_cons_ne "/" s) as (w & ws & E). rewrite E in *.
  destruct (Ascii.eqb_spec a "/") as [->|_].
  - by rewrite join_path_cons, IH.
  - destruct ws as [|v ws]; [unfold join_path in *; simpl in *; by subst|].
    rewrite join_path_cons in *. by rewrite <-IH.
Qed.

Lemma split_lacks_single c w : lacks c w = true → str_split c w = [w].
Proof.
  induction w as [|a w IH]; [done|]. cbn [lacks str_split]. intros [Ha Hw]%andb_true_iff.
  apply negb_true_iff in Ha as ->. by rewrite IH.
Qed.

Lemma split_append w s : lacks "/" w = true → str_split "/" (w +:+ "/" +:+ s) = w :: str_split "/" s.
Proof.
  induction w as [|a w IH]; [done|]. cbn [lacks]. intros [Ha Hw]%andb_true_iff.
  apply negb_true_iff in Ha. change (String a w +:+ "/" +:+ s) with (String a (w +:+ "/" +:+ s)).
  cbn [str_split]. by rewrite Ha, IH.
Qed.

Lemma split_join l :
  l ≠ [] → Forall (λ w, lacks "/" w = true) l → str_split "/" (join_path l) = l.
Proof.
  intros Hne Hl. induction Hl as [|w l Hw Hl IH]; [done|]. destruct l as [|v l].
  - by apply split_lacks_single.
  - by rewrite join_path_cons, split_append, IH.
Qed.

(** The parameter names of a template, and the path a valuation gives. *)
Definition param_names (template : string) : list string :=
  omap param_name (str_split "/" template).

Definition fill_segment (params : PathParams) (t : string) : string :=
  match param_name t with Some name => default "" (params !! name) | None => t end.

Definition fill_template (template : string) (params : PathParams) : string :=
  join_path (fill_segment params <$> str_split "/" template).

Lemma match_segments_spec ts ps acc m :
  NoDup (omap param_name ts) → (∀ n, n ∈ omap param_name ts → acc !! n = None) →
  match_segments ts ps acc = Some m ↔
  ps = fill_segment m <$> ts
  ∧ (∀ n, is_Some (m !! n) ↔ n ∈ omap param_name ts ∨ is_Some (acc !! n))
  ∧ (∀ n, n ∉ omap param_name ts → m !! n = acc !! n).
Proof.
  revert ps acc. induction ts as [|t ts IH]; intros ps acc ND Hacc.
  { destruct ps as [|p ps]; simpl; [|naive_solver]. split.
    - intros [= ->]. split_and!; [done|intros n; set_solver|done].
    - intros (_ & _ & Heq). f_equal. apply map_eq. intros n. symmetry. apply Heq. set_solver. }
  destruct ps as [|p ps]; [simpl; naive_solver|]. cbn [match_segments]. rewrite fmap_cons.
  unfold fill_segment at 1. simpl in ND, Hacc. simpl (omap param_name (t :: ts)).
  destruct (param_name t) as [name|] eqn:Et.
  - apply NoDup_cons in ND as [Hn ND]. rewrite IH; [|done|].
    2: { intros n Hin. rewrite lookup_insert_ne by (intros <-; done). apply Hacc. by right. }
    assert (∀ x, m !! x = <[name := p]> acc !! x ↔ m !! x = if decide (x = name) then Some p else acc !! x)
      as Hx by (intros x; destruct (decide (x = name)) as [->|]; by rewrite ?lookup_insert_eq, ?lookup_insert_ne).
    split.
    + intros (-> & Hs & Hr). assert (m !! name = Some p) as Hm by (by rewrite Hr, lookup_insert_eq).
      split_and!.
      * by rewrite Hm.
      * intros n. rewrite Hs, elem_of_cons. destruct (decide (n = name)) as [->|];
          [rewrite lookup_insert_eq|rewrite lookup_insert_ne by done]; naive_solver.
      * intros n Hni. rewrite not_elem_of_cons in Hni. destruct Hni as [? ?].
        by rewrite Hr, lookup_insert_ne.
    + intros ([= Hp Hps] & Hs & Hr).
      assert (is_Some (m !! name)) as [q Hq] by (apply Hs; left; by left).
      rewrite Hq in Hp. simpl in Hp. subst q. split_and!; [done| |].
      * intros n. rewrite Hs, elem_of_cons. destruct (decide (n = name)) as [->|];
          [rewrite lookup_insert_eq|rewrite lookup_insert_ne by done]; naive_solver.
      * intros n Hni. rewrite Hx. case_decide; [by subst|]. apply Hr. by rewrite not_elem_of_cons.
  - destruct (String.eqb_spec t p) as [->|Hne].
    + rewrite IH by done. split; [naive_solver|]. intros ([=] & ? & ?). done.
    + split; [done|]. intros ([= Hp _] & _). by destruct Hne.
Qed.

Lemma fill_lacks template (m : PathParams) :
  map_Forall (λ _ v, lacks "/" v = true) m →
  Forall (λ w, lacks "/" w = true) (fill_segment m <$> str_split "/" template).
Proof.
  intros Hm. apply Forall_fmap. eapply Forall_impl; [apply split_lacks|]. intros t Ht. simpl.
  unfold fill_segment. destruct (param_name t) as [n|]; [|done].
  destruct (m !! n) as [v|] eqn:E; [|done]. by apply (Hm n v).
Qed.

Lemma match_template_spec t p m :
  NoDup (param_names t) →
  match_template t p = Some m ↔
  p = fill_template t m ∧ dom m = list_to_set (param_names t)
  ∧ map_Forall (λ _ v, lacks "/" v = true) m.
Proof.
  intros ND. unfold match_template. rewrite match_segments_spec; [|done|intros; apply lookup_empty].
  assert (∀ n, is_Some ((∅ : PathParams) !! n) ↔ False) as He
    by (intros n; rewrite lookup_empty; split; [by intros [? ?]|done]).
  setoid_rewrite He. fold (param_names t). split.
  - intros (Hp & Hs & _). split_and!.
    + unfold fill_template. by rewrite <-Hp, join_split.
    + apply set_eq. intros n. rewrite elem_of_dom, elem_of_list_to_set, Hs. tauto.
    + intros n v Hv. assert (n ∈ param_names t) as Hn
        by (destruct (Hs n) as [Hn _]; destruct Hn as [|[]]; [by eexists|done]).
      apply list_elem_of_omap in Hn as (t' & Ht' & Hname).
      pose proof (split_lacks "/" p) as Hl. rewrite Hp, Forall_forall in Hl.
      specialize (Hl (fill_segment m t') (list_elem_of_fmap_2 _ _ _ Ht')).
      unfold fill_segment in Hl. by rewrite Hname, Hv in Hl.
  - intros (-> & Hd & Hl). split_and!.
    + unfold fill_template. apply split_join; [|by apply fill_lacks].
      destruct (split_cons_ne "/" t) as (w & ws & ->). done.
    + intros n. rewrite <-elem_of_dom, Hd, elem_of_list_to_set. tauto.
    + intros n Hn. rewrite lookup_empty. apply not_elem_of_dom. by rewrite Hd, elem_of_list_to_set.
Qed.

(** *** The router *)

(** The endpoint serves the path, whatever the method. *)
Definition serves (p : string) (e : Endpoint) : Prop := is_Some (match_template (path e) p).

Definition route_spec (es : list Endpoint) (m : Method) (p : string) (seen : bool) (r : Route) : Prop :=
  match r with
  | Matched e params => ∃ before after, es = before ++ e :: after ∧ method e = m
      ∧ match_template (path e) p = Some params ∧ Forall (λ e', serves p e' → method e' ≠ m) before
  | MethodNotAllowed => (seen = true ∨ Exists (serves p) es) ∧ Forall (λ e, serves p e → method e ≠ m) es
  | RouteNotFound => seen = false ∧ Forall (λ e, ¬ serves p e) es
  end.

Lemma resolve_loop_spec es m p seen : route_spec es m p seen (resolve_loop es m p seen).
Proof.
  revert seen. induction es as [|e es IH]; intros seen; cbn [resolve_loop].
  { destruct seen; simpl; eauto. }
  destruct (match_template (path e) p) as [params|] eqn:Em.
  - case_bool_decide as Hm; [by exists [], es|].
    assert (serves p e) as Hs by (by eexists). specialize (IH true).
    destruct (resolve_loop es m p true) as [e' params'| |]; simpl in *.
    + destruct IH as (b & a & -> & ? & ? & ?). exists (e :: b), a. split_and!; try done. by constructor.
    + split; [right; by constructor|]. by constructor; [|apply IH].
    + by destruct IH.
  - assert (¬ serves p e) as Hs by (unfold serves; rewrite Em; by intros [? ?]). specialize (IH seen).
    destruct (resolve_loop es m p seen) as [e' params'| |]; simpl in *.
    + destruct IH as (b & a & -> & ? & ? & ?). exists (e :: b), a. split_and!; try done. by constructor.
    + destruct IH as [Hx Ha]. split; [destruct Hx; [by left|right; by apply Exists_cons_tl]|].
      by constructor.
    + destruct IH. split; [done|]. by constructor.
Qed.

(** ** Properties *)

(** Templates and paths determine each other: a template with distinct
    parameter names matches a path with captures [m] exactly when the path is
    the template filled in with [m], [m] captures exactly the template's
    parameters, and no captured value contains a slash. *)
Theorem match_template_exact (template path : string) (m : PathParams) :
  NoDup (param_names template) →
  match_template template path = Some m ↔
  path = fill_template template m ∧ dom m = list_to_set (param_names template)
  ∧ map_Forall (λ _ v, lacks "/" v = true) m.
Proof. apply match_template_spec. Qed.

Lemma match_template_exact_witness :
  let m : PathParams := {["roomId" := "!r:a.org"]} in
  match_template "/rooms/{roomId}/state" "/rooms/!r:a.org/state" = Some m.
Proof.
  intros m. apply (match_template_exact "/rooms/{roomId}/state").
  - apply (bool_decide_unpack _). vm_compute. exact I.
  - split; [vm_compute; reflexivity|]. split; [vm_compute; reflexivity|].
    apply map_Forall_singleton. reflexivity.
Defined.

(** Routing is exact: the first registered endpoint serving the path with
    the request's method is chosen with its captures; a wrong-method answer
    means some endpoint serves the path but none with this method; not-found
    means none serves it. *)
Theorem route_resolve_exact (es : list Endpoint) (m : Method) (p : string) :
  match route_resolve (foldl register router_new es) m p with
  | Matched e params => ∃ before after, es = before ++ e :: after ∧ method e = m
      ∧ match_template (path e) p = Some params
      ∧ Forall (λ e', is_Some (match_template (path e') p) → method e' ≠ m) before
  | MethodNotAllowed => Exists (λ e, is_Some (match_template (path e) p)) es
      ∧ Forall (λ e, is_Some (match_template (path e) p) → method e ≠ m) es
  | RouteNotFound => Forall (λ e, match_template (path e) p = None) es
  end.
Proof.
  assert (∀ r, endpoints (foldl register r es) = endpoints r ++ es) as Hr.
  { induction es as [|e es' IH]; intros r; simpl; [by rewrite app_nil_r|].
    rewrite IH. simpl. by rewrite <-app_assoc. }
  unfold route_resolve. rewrite Hr. simpl.
  pose proof (resolve_loop_spec es m p false) as Hs.
  destruct (resolve_loop es m p false) as [e params| |]; simpl in Hs; [done| |].
  - destruct Hs as [[|Hx] Ha]; [done|]. by split.
  - destruct Hs as [_ Ha]. eapply Forall_impl; [exact Ha|]. intros e He. by apply eq_None_not_Some.
Qed.

(** An auth-events entry, in the string form or in the older pair form. *)
Definition auth_entry (hashes : string → option Value) (id : string) : Value :=
  match hashes id with Some h => Array [Str id; h] | None => Str id end.

(** The wire form of the event a view exposes. *)
Definition view_json (hashes : string → option Value) (v : EventView) : Value :=
  let m : gmap string Value := list_to_map
    [("type", Str (v_event_type v)); ("sender", Str (v_sender v));
     ("origin_server_ts", json_u64 (v_origin_server_ts v));
     ("auth_events", Array (auth_entry hashes <$> v_auth_event_ids v)); ("content", v_content v)] in
  Object (match v_state_key v with Some k => <["state_key" := Str k]> m | None => m end).

(** The two bridges into the resolution model agree: an event read from its
    canonical JSON, with auth events in either wire form, is the event built
    from the field view of the same event at power level zero. *)
Theorem event_bridges_agree (v : EventView) (hashes : string → option Value) :
  from_event_json (v_event_id v) (view_json hashes v) = Some (from_view v 0).
Proof.
  destruct v as [eid ty from key ts auth c]. unfold from_event_json, from_view, view_json.
  cbn [v_event_id v_event_type v_sender v_state_key v_origin_server_ts v_auth_event_ids v_content].
  assert (filter_map auth_event_id (auth_entry hashes <$> auth) = auth) as Ha.
  { induction auth as [|a auth IH]; [done|]. csimpl. unfold auth_entry at 1.
    destruct (hashes a); simpl; by rewrite IH. }
  destruct key as [k|]; json_lookup; cbn [default from_option id]; rewrite Ha; f_equal;
    unfold with_content; simpl; repeat case_match; done.
Qed.
