(* ===== verification/GmResolve.v ===== *)
(** * State resolution over live events ([src/src/service/gm_resolve.rs])

    The adoption seam of the resolution engine: events fetched from the
    timeline are bridged into the resolution model, the forks are resolved
    with the composed room rules and a fresh cache, and the outcome is
    compared with the production result.  The timeline's [get_pdu] is an
    argument; live state-event types are their strings. *)

From S2P Require Import Prelude Bytes Slices Json StateMap StateEvent StateAuth StateOrder StateCache StateResolve ApiModel.

Section live.
Context (get_pdu : string → option EventView).

(** The store-building loop of [resolve_forks]. *)
Definition add_event (store : EventStore StateEvent) (id : string) : EventStore StateEvent :=
  match get_pdu id with
  | Some v => let ev := from_view v 0 in <[event_id ev := ev]> store
  | None => store
  end.

Definition live_store (event_ids : list string) : EventStore StateEvent := foldl add_event ∅ event_ids.

Definition room_rules : AuthRules StateEvent :=
  all_of [create_rules; power_level_rules; power_level_mutation_rules; membership_rules].

Definition resolve_forks (fuel : nat) (forks : list StateMap) (auth_chains : list (gset EventId))
    (event_ids : list string) : option StateMap :=
  fst <$> resolve fuel forks auth_chains (live_store event_ids) room_rules (cache_new 256).

(** Every event referenced by a fork or an auth chain. *)
Definition referenced (forks : list StateMap) (auth_chains : list (gset EventId)) : gset EventId :=
  foldl (λ acc chain, acc ∪ chain)
    (foldl (λ acc fork, acc ∪ list_to_set (btree_iter fork).*2) ∅ forks) auth_chains.

Definition diverging_keys (expected shadow : StateMap) : list StateKey :=
  dedup (merge_sort key_le
    (filter (λ key, expected !! key ≠ shadow !! key) (btree_keys expected ++ btree_keys shadow))).

(** What [shadow_compare] reports: the keys on which the shadow result
    diverges from the authoritative one. *)
Definition shadow_compare (fuel : nat) (forks : list StateMap) (auth_chains : list (gset EventId))
    (authoritative : StateMap) : option (list StateKey) :=
  diverging_keys authoritative <$>
    resolve_forks fuel forks auth_chains (bset_iter (referenced forks auth_chains)).

(** ** Lemmas *)

Lemma live_store_lookup event_ids id ev :
  live_store event_ids !! id = Some ev →
  event_id ev = id ∧ ∃ x v, x ∈ event_ids ∧ get_pdu x = Some v ∧ ev = from_view v 0.
Proof.
  unfold live_store. enough (∀ m : EventStore StateEvent,
    foldl add_event m event_ids !! id = Some ev →
    m !! id = Some ev ∨ event_id ev = id
      ∧ ∃ x v, x ∈ event_ids ∧ get_pdu x = Some v ∧ ev = from_view v 0) as Hf.
  { intros [Hm|]%Hf; [by rewrite lookup_empty in Hm|done]. }
  induction event_ids as [|x l IH]; intros m; cbn [foldl]; [by left|].
  intros [Hm|(He & y & v & Hy & Hv)]%IH; [|right; split; [done|]; exists y, v; set_solver].
  unfold add_event in Hm. destruct (get_pdu x) as [v|] eqn:Ev; [|by left].
  apply lookup_insert_Some in Hm as [[<- <-]|[_ Hm]]; [|by left].
  right. split; [done|]. exists x, v. set_solver.
Qed.

Lemma live_store_coherent event_ids : coherent (live_store event_ids).
Proof. intros id ev Hev. by apply live_store_lookup in Hev as [<- _]. Qed.
End live.

(** ** Properties *)

(** The shadow comparison is exact: the reported keys are, in ascending
    order without repetition, exactly the state keys on which the two maps
    differ, so an empty report means equal states. *)
Theorem diverging_keys_exact (expected shadow : StateMap) :
  (∀ k, k ∈ diverging_keys expected shadow ↔ expected !! k ≠ shadow !! k)
  ∧ StronglySorted key_le (diverging_keys expected shadow) ∧ NoDup (diverging_keys expected shadow)
  ∧ (diverging_keys expected shadow = [] ↔ expected = shadow).
Proof.
  assert (∀ k, k ∈ diverging_keys expected shadow ↔ expected !! k ≠ shadow !! k) as Hin.
  { intros k. unfold diverging_keys.
    rewrite elem_of_dedup, merge_sort_Permutation, list_elem_of_filter, elem_of_app,
      !elem_of_btree_keys, !elem_of_dom.
    split; [naive_solver|]. intros Hne. split; [done|].
    destruct (expected !! k), (shadow !! k); naive_solver. }
  split; [done|]. split_and!.
  - apply dedup_sorted; [apply _|]. apply StronglySorted_merge_sort; apply _.
  - apply (dedup_sorted key_le). apply StronglySorted_merge_sort; apply _.
  - split.
    + intros He. apply map_eq. intros k. destruct (decide (expected !! k = shadow !! k)); [done|].
      apply Hin in n. rewrite He in n. by apply elem_of_nil in n.
    + intros <-. destruct (diverging_keys expected expected) as [|k l] eqn:E; [done|].
      assert (k ∈ k :: l) as Hk by left. by apply Hin in Hk.
Qed.

(** Resolution over live events is total and correct: when the auth events
    of the fetched events form no cycle, [resolve_forks] returns the two-pass
    resolution of the forks under the composed room rules, over a store in
    which each event sits under its own id and is the bridge of a fetched
    one. *)
Theorem resolve_forks_correct (get_pdu : string → option EventView) (fuel : nat) (forks : list StateMap)
    (auth_chains : list (gset EventId)) (event_ids : list string) :
  let store := live_store get_pdu event_ids in
  acyclic store → S (size store) ≤ fuel →
  (∃ out, resolve_forks get_pdu fuel forks auth_chains event_ids = Some out
    ∧ resolution forks auth_chains store room_rules out)
  ∧ ∀ id ev, store !! id = Some ev →
      event_id ev = id ∧ ∃ x v, x ∈ event_ids ∧ get_pdu x = Some v ∧ ev = from_view v 0.
Proof.
  intros store Ha Hf. split; [|intros id ev; apply live_store_lookup].
  destruct (resolve_cold fuel forks auth_chains store room_rules (cache_new 256))
    as (out & c & Hr & Hres); [apply live_store_coherent|done|done|apply lookup_empty|].
  exists out. split; [|done]. unfold resolve_forks. fold store. by rewrite Hr.
Qed.

Module LiveFixture.
(** A create event and two conflicting topics. *)
Definition pdu (id : string) : option EventView :=
  if String.eqb id "$c" then Some (mkView "$c" "m.room.create" "@a:x" (Some "") 1 [] Null)
  else if String.eqb id "$t1" then Some (mkView "$t1" "m.room.topic" "@a:x" (Some "") 2 ["$c"] Null)
  else if String.eqb id "$t2" then Some (mkView "$t2" "m.room.topic" "@a:x" (Some "") 3 ["$c"] Null)
  else None.

Definition fork (topic : string) : StateMap :=
  <[("m.room.create", "") := "$c"]> (<[("m.room.topic", "") := topic]> ∅).

Definition rank (id : string) : nat := if String.eqb id "$c" then 0 else 1.
End LiveFixture.

Lemma resolve_forks_correct_witness :
  ∃ out, resolve_forks LiveFixture.pdu 4 [LiveFixture.fork "$t1"; LiveFixture.fork "$t2"] []
           ["$c"; "$t1"; "$t2"; "$missing"] = Some out.
Proof.
  destruct (resolve_forks_correct LiveFixture.pdu 4 [LiveFixture.fork "$t1"; LiveFixture.fork "$t2"] []
    ["$c"; "$t1"; "$t2"; "$missing"]) as [(out & E & _) _].
  - apply (acyclic_decide _ LiveFixture.rank). vm_compute. reflexivity.
  - apply Nat.leb_le. vm_compute. reflexivity.
  - exists out. exact E.
Defined.
