(* ===== verification/AgentPolicy.v ===== *)
(** * gm-agent: the agent policy core ([src/src/agent])

    Capability grants and mediation, the in-band event model, the MCP bridge,
    the gateway and the provisioning record. *)

From stdpp Require Export pretty.
From S2P Require Import Prelude Bytes Json.

(** ** Capabilities ([capability.rs]) *)

Definition CAPABILITY_GRANT_TYPE : string := "m.gauss.agent.capability".

Inductive Action := Auto | Review | ActForbidden.

#[export] Instance action_eq_dec : EqDecision Action.
Proof. solve_decision. Defined.

Definition action_default : Action := Review.

Definition action_label (a : Action) : string :=
  match a with Auto => "auto" | Review => "review" | ActForbidden => "forbidden" end.

Definition action_from_label (label : string) : option Action :=
  if String.eqb label "auto" then Some Auto
  else if String.eqb label "review" then Some Review
  else if String.eqb label "forbidden" then Some ActForbidden
  else None.

Inductive DenyReason := RoomNotInScope | ToolNotGranted | ToolForbidden | RateLimited.

Record RateLimit := mkRateLimit { max : N; window_secs : N }.

Inductive Decision := Execute | RequiresApproval | Denied (reason : DenyReason).

#[export] Instance deny_reason_eq_dec : EqDecision DenyReason.
Proof. solve_decision. Defined.
#[export] Instance decision_eq_dec : EqDecision Decision.
Proof. solve_decision. Defined.

Definition reason_label (r : DenyReason) : string :=
  match r with
  | RoomNotInScope => "room_not_in_scope"
  | ToolNotGranted => "tool_not_granted"
  | ToolForbidden => "tool_forbidden"
  | RateLimited => "rate_limited"
  end.

Definition decision_label (d : Decision) : string :=
  match d with
  | Execute => "execute"
  | RequiresApproval => "requires_approval"
  | Denied reason => "denied:" +:+ reason_label reason
  end.

Definition is_denied (d : Decision) : bool := match d with Denied _ => true | _ => false end.

Record CapabilityGrant := mkGrant {
  permitted_tools : gset string;
  accessible_rooms : gset string;
  tool_actions : gmap string Action;
  rate_limits : gmap string RateLimit;
  default_action : Action;
  version : N;
}.

Definition grant_new : CapabilityGrant := mkGrant ∅ ∅ ∅ ∅ action_default 0.

Definition with_version (g : CapabilityGrant) (v : N) : CapabilityGrant :=
  mkGrant (permitted_tools g) (accessible_rooms g) (tool_actions g) (rate_limits g) (default_action g) v.

Definition with_default_action (g : CapabilityGrant) (a : Action) : CapabilityGrant :=
  mkGrant (permitted_tools g) (accessible_rooms g) (tool_actions g) (rate_limits g) a (version g).

Definition allow_room (g : CapabilityGrant) (room : string) : CapabilityGrant :=
  mkGrant (permitted_tools g) ({[room]} ∪ accessible_rooms g) (tool_actions g) (rate_limits g)
    (default_action g) (version g).

Definition allow_tool (g : CapabilityGrant) (tool : string) (a : Action) : CapabilityGrant :=
  mkGrant ({[tool]} ∪ permitted_tools g) (accessible_rooms g) (<[tool := a]> (tool_actions g))
    (rate_limits g) (default_action g) (version g).

Definition with_rate_limit (g : CapabilityGrant) (tool : string) (mx window : N) : CapabilityGrant :=
  mkGrant (permitted_tools g) (accessible_rooms g) (tool_actions g)
    (<[tool := mkRateLimit mx window]> (rate_limits g)) (default_action g) (version g).

Definition rate_limit_for (g : CapabilityGrant) (tool : string) : option RateLimit :=
  rate_limits g !! tool.

(** The classification of a permitted tool. *)
Definition tool_action (g : CapabilityGrant) (tool : string) : Action :=
  default (default_action g) (tool_actions g !! tool).

Definition mediate (g : CapabilityGrant) (tool room : string) : Decision :=
  if negb (bool_decide (room ∈ accessible_rooms g)) then Denied RoomNotInScope
  else if negb (bool_decide (tool ∈ permitted_tools g)) then Denied ToolNotGranted
  else
    match tool_action g tool with
    | Auto => Execute
    | Review => RequiresApproval
    | ActForbidden => Denied ToolForbidden
    end.

Definition grant_rooms (g : CapabilityGrant) : list string := bset_iter (accessible_rooms g).

Definition grant_tools (g : CapabilityGrant) : list (string * Action) :=
  (λ tool, (tool, tool_action g tool)) <$> bset_iter (permitted_tools g).

Definition grant_rate_limits (g : CapabilityGrant) : list (string * RateLimit) :=
  btree_iter (rate_limits g).

(** [Map::insert] of the images of some keys, in order. *)
Definition insert_all {A} (f : A → string * Value) (l : list A) : gmap string Value :=
  foldl (λ m x, <[(f x).1 := (f x).2]> m) ∅ l.

Definition limit_content (l : RateLimit) : Value :=
  obj [("max", json_u64 (max l)); ("window_secs", json_u64 (window_secs l))].

Definition grant_to_content (g : CapabilityGrant) : Value :=
  let rooms := Str <$> bset_iter (accessible_rooms g) in
  let tools := insert_all (λ tool, (tool, Str (action_label (tool_action g tool))))
                 (bset_iter (permitted_tools g)) in
  let limits := insert_all (λ e, (e.1, limit_content e.2)) (btree_iter (rate_limits g)) in
  obj [("rooms", Array rooms); ("tools", Object tools); ("rate_limits", Object limits);
       ("default_action", Str (action_label (default_action g))); ("version", json_u64 (version g))].

(** The [for (tool, action) in tools] loop. *)
Definition add_tool (g : CapabilityGrant) (e : string * Value) : CapabilityGrant :=
  allow_tool g e.1 (default (default_action g) (as_str e.2 ≫= action_from_label)).

(** The [for (tool, limit) in limits] loop; [u32::try_from] rejects a [max]
    that does not fit. *)
Definition add_limit (g : CapabilityGrant) (e : string * Value) : CapabilityGrant :=
  match json_get e.2 "max" ≫= as_u64 with
  | Some m =>
      if (m <=? U32_MAX)%N then
        with_rate_limit g e.1 m (default 0%N (json_get e.2 "window_secs" ≫= as_u64))
      else g
  | None => g
  end.

Definition grant_from_content (content : Value) : CapabilityGrant :=
  let g := with_version grant_new (default 0%N (json_get content "version" ≫= as_u64)) in
  let g := match (json_get content "default_action" ≫= as_str) ≫= action_from_label with
           | Some d => with_default_action g d
           | None => g
           end in
  let g := match json_get content "rooms" ≫= as_array with
           | Some rooms => foldl allow_room g (omap as_str rooms)
           | None => g
           end in
  let g := match json_get content "tools" ≫= as_object with
           | Some tools => foldl add_tool g (btree_iter tools)
           | None => g
           end in
  match json_get content "rate_limits" ≫= as_object with
  | Some limits => foldl add_limit g (btree_iter limits)
  | None => g
  end.

Section records.
Context `{JsonCodec}.

Definition mediation_record (agent tool room : string) (decision : Decision) : string :=
  to_vec_or_default (obj [("agent", Str agent); ("tool", Str tool); ("room", Str room);
    ("decision", Str (decision_label decision))]).

(** ** In-band events ([events.rs]) *)

Record ToolCall := mkCall { call_id : string; tool : string; arguments : Value }.

Definition call_to_content (c : ToolCall) : Value :=
  Object (<["arguments" := arguments c]> (<["tool" := Str (tool c)]>
    (<["call_id" := Str (call_id c)]> ∅))).

Record ToolResult := mkToolResult {
  res_call_id : string;
  output : option Value;
  res_error : option string;
}.

Definition result_success (id : string) (out : Value) : ToolResult := mkToolResult id (Some out) None.
Definition result_failure (id error : string) : ToolResult := mkToolResult id None (Some error).

(** Inserting an optional field. *)
Definition insert_opt (key : string) (v : option Value) (m : gmap string Value) : gmap string Value :=
  match v with Some v => <[key := v]> m | None => m end.

Definition result_to_content (r : ToolResult) : Value :=
  Object (insert_opt "error" (Str <$> res_error r)
    (insert_opt "output" (output r) (<["call_id" := Str (res_call_id r)]> ∅))).

Definition result_from_content (content : Value) : option ToolResult :=
  id ← json_get content "call_id" ≫= as_str;
  let out := opt_filter (λ v, negb (is_null v)) (json_get content "output") in
  let error := json_get content "error" ≫= as_str in
  Some (mkToolResult id out error).

Record ToolApproval := mkApproval {
  app_call_id : string;
  approved : bool;
  reviewer : string;
  reason : option string;
}.

Definition approval_to_content (a : ToolApproval) : Value :=
  Object (insert_opt "reason" (Str <$> reason a) (<["reviewer" := Str (reviewer a)]>
    (<["approved" := Bool (approved a)]> (<["call_id" := Str (app_call_id a)]> ∅)))).

Definition approval_from_content (content : Value) : option ToolApproval :=
  id ← json_get content "call_id" ≫= as_str;
  appr ← json_get content "approved" ≫= as_bool;
  rev ← json_get content "reviewer" ≫= as_str;
  let reason := json_get content "reason" ≫= as_str in
  Some (mkApproval id appr rev reason).

Definition approval_audit_record (a : ToolApproval) : string :=
  to_vec_or_default (obj [("reviewer", Str (reviewer a)); ("call_id", Str (app_call_id a));
    ("decision", Str (if approved a then "approved" else "rejected"))]).

(** ** The gateway ([gateway.rs]) *)

Record Mediation := mkMediation {
  decision : Decision;
  audit_record : string;
  event : option Value;
}.

Record Gateway := mkGateway { agent : string; grant : CapabilityGrant }.

Definition gateway_process (gw : Gateway) (call : ToolCall) (room : string) : Mediation :=
  let d := mediate (grant gw) (tool call) room in
  let record := mediation_record (agent gw) (tool call) room d in
  let ev := match d with
            | Denied _ => None
            | Execute | RequiresApproval => Some (call_to_content call)
            end in
  mkMediation d record ev.

Definition gateway_result_event (_ : Gateway) (r : ToolResult) : Value := result_to_content r.

(** ** The MCP bridge ([mcp.rs]) *)

Definition MCP_FORBIDDEN : Z := (-32004)%Z.

Definition tool_entry (e : string * Action) : Value :=
  obj [("name", Str e.1); ("annotations", obj [("action", Str (action_label e.2))])].

Definition listable (e : string * Action) : bool := negb (bool_decide (e.2 = ActForbidden)).

Definition tools_list_result (g : CapabilityGrant) : Value :=
  obj [("tools", Array (tool_entry <$> List.filter listable (grant_tools g)))].

Definition resource_entry (room : string) : Value :=
  obj [("uri", Str ("matrix://room/" +:+ room)); ("name", Str room)].

Definition resources_list_result (g : CapabilityGrant) : Value :=
  obj [("resources", Array (resource_entry <$> grant_rooms g))].

Definition handle_mcp (g : CapabilityGrant) (request : Value) : option Value :=
  method ← json_get request "method" ≫= as_str;
  result ← (if String.eqb method "tools/list" then Some (tools_list_result g)
            else if String.eqb method "resources/list" then Some (resources_list_result g)
            else None);
  let id := default Null (json_get request "id") in
  Some (obj [("jsonrpc", Str "2.0"); ("id", id); ("result", result)]).

Definition number_to_string (n : Number) : string :=
  match n with
  | PosInt n => pretty n
  | NegInt z => pretty z
  | Float repr => repr
  end.

Definition request_id (id : option Value) : string :=
  match id with
  | Some (Str s) => s
  | Some (Num n) => number_to_string n
  | _ => ""
  end.

Definition tool_call_from_mcp (request : Value) : option ToolCall :=
  if bool_decide (json_get request "method" ≫= as_str = Some "tools/call") then
    params ← json_get request "params";
    name ← json_get params "name" ≫= as_str;
    let args := default Null (json_get params "arguments") in
    Some (mkCall (request_id (json_get request "id")) name args)
  else None.

Definition tool_result_to_mcp (r : ToolResult) : Value :=
  let '(text, is_error) :=
    match output r, res_error r with
    | Some out, _ => (json_to_string out, false)
    | None, Some error => (error, true)
    | None, None => ("", false)
    end in
  obj [("jsonrpc", Str "2.0"); ("id", Str (res_call_id r));
       ("result", obj [("content", Array [obj [("type", Str "text"); ("text", Str text)]]);
                       ("isError", Bool is_error)])].

Definition mcp_call_ack (call : ToolCall) (d : Decision) : Value :=
  let id := Str (call_id call) in
  if is_denied d then
    obj [("jsonrpc", Str "2.0"); ("id", id);
         ("error", obj [("code", Num (NegInt MCP_FORBIDDEN)); ("message", Str (decision_label d))])]
  else
    obj [("jsonrpc", Str "2.0"); ("id", id);
         ("result", obj [("status", Str (decision_label d));
            ("content", Array [obj [("type", Str "text");
               ("text", Str ("tool call '" +:+ tool call +:+ "' " +:+ decision_label d))]]);
            ("isError", Bool false)])].

(** ** Provisioning ([provisioning.rs]) *)

Definition DEFAULT_AGENT_NAMESPACE : string := "@gauss.agent.".

Definition is_agent_id (user_id prefix : string) : bool := String.prefix prefix user_id.

Inductive ProvisionError := NotInNamespace | MissingSigningKey.

Definition provision_error_label (e : ProvisionError) : string :=
  match e with
  | NotInNamespace => "agent id is not in the agent namespace"
  | MissingSigningKey => "a cross-signing public key is required"
  end.

Record AgentProfile := mkProfile {
  agent_id : string;
  operator : string;
  signing_key : string;
  display_name : option string;
}.

Definition provision (id namespace op key : string) (name : option string) :
    Result ProvisionError AgentProfile :=
  if negb (is_agent_id id namespace) then Err NotInNamespace
  else if is_blank key then Err MissingSigningKey
  else Ok (mkProfile id op key name).

Definition profile_to_content (p : AgentProfile) : Value :=
  Object (insert_opt "display_name" (Str <$> display_name p)
    (<["signing_key" := Str (signing_key p)]> (<["operator" := Str (operator p)]>
      (<["agent_id" := Str (agent_id p)]> ∅)))).

Definition profile_from_content (content : Value) : option AgentProfile :=
  id ← json_get content "agent_id" ≫= as_str;
  op ← json_get content "operator" ≫= as_str;
  key ← json_get content "signing_key" ≫= as_str;
  let name := json_get content "display_name" ≫= as_str in
  Some (mkProfile id op key name).
End records.

(** ** Lemmas *)

Lemma action_roundtrip a : action_from_label (action_label a) = Some a.
Proof. by destruct a. Qed.

Lemma insert_all_set (F : string → Value) l (t : string) :
  insert_all (λ t, (t, F t)) l !! t = if decide (t ∈ l) then Some (F t) else None.
Proof.
  unfold insert_all. enough (∀ m : gmap string Value,
    foldl (λ m x, <[x := F x]> m) m l !! t = if decide (t ∈ l) then Some (F t) else m !! t) as Hf
    by (etrans; [apply Hf|by rewrite lookup_empty]).
  induction l as [|x l IH]; intros m; cbn [foldl].
  { by rewrite decide_False by apply not_elem_of_nil. }
  rewrite IH. destruct (decide (x = t)) as [->|Hne].
  - rewrite lookup_insert_eq, (decide_True (P := t ∈ t :: l)) by (by left). by case_decide.
  - rewrite lookup_insert_ne by done. apply decide_ext. rewrite elem_of_cons. naive_solver.
Qed.

Lemma insert_all_map {V} (G : V → Value) (m : gmap string V) :
  insert_all (λ e, (e.1, G e.2)) (btree_iter m) = G <$> m.
Proof.
  unfold insert_all.
  change (foldl (insert_image (λ v, Some (G v))) ∅ (btree_iter m) = G <$> m).
  rewrite foldl_insert_image. apply map_eq. intros k. rewrite lookup_omap, lookup_fmap.
  by destruct (m !! k).
Qed.

Lemma foldl_allow_room g l :
  foldl allow_room g l = mkGrant (permitted_tools g) (list_to_set l ∪ accessible_rooms g)
    (tool_actions g) (rate_limits g) (default_action g) (version g).
Proof.
  revert g. induction l as [|r l IH]; intros g; cbn [foldl].
  - destruct g; simpl. f_equal. set_solver.
  - rewrite IH. unfold allow_room; simpl. f_equal. set_solver.
Qed.

(** The action a tool entry of the content carries. *)
Definition entry_action (d : Action) (v : Value) : Action :=
  default d (as_str v ≫= action_from_label).

Lemma foldl_add_tool g l :
  foldl add_tool g l = mkGrant (list_to_set l.*1 ∪ permitted_tools g) (accessible_rooms g)
    (foldl (insert_image (λ v, Some (entry_action (default_action g) v))) (tool_actions g) l)
    (rate_limits g) (default_action g) (version g).
Proof.
  revert g. induction l as [|[t v] l IH]; intros g; cbn [foldl].
  - destruct g; simpl. f_equal. set_solver.
  - rewrite IH. unfold add_tool, allow_tool; simpl. f_equal. set_solver.
Qed.

Definition entry_limit (v : Value) : option RateLimit :=
  m ← json_get v "max" ≫= as_u64;
  if (m <=? U32_MAX)%N then Some (mkRateLimit m (default 0%N (json_get v "window_secs" ≫= as_u64)))
  else None.

Lemma foldl_add_limit g l :
  foldl add_limit g l = mkGrant (permitted_tools g) (accessible_rooms g) (tool_actions g)
    (foldl (insert_image entry_limit) (rate_limits g) l) (default_action g) (version g).
Proof.
  revert g. induction l as [|[t v] l IH]; intros g; cbn [foldl]; [by destruct g|].
  rewrite IH. unfold add_limit, insert_image, entry_limit, with_rate_limit. cbn [fst snd].
  destruct (json_get v "max" ≫= as_u64) as [m|]; [|done]. simpl. by destruct (m <=? U32_MAX)%N.
Qed.

(** What a grant read from any content holds. *)
Lemma grant_from_content_spec c :
  let d := default Review ((json_get c "default_action" ≫= as_str) ≫= action_from_label) in
  let tools := default ∅ (json_get c "tools" ≫= as_object) in
  grant_from_content c = mkGrant (dom tools)
    (list_to_set (omap as_str (default [] (json_get c "rooms" ≫= as_array))))
    (entry_action d <$> tools)
    (omap entry_limit (default ∅ (json_get c "rate_limits" ≫= as_object)))
    d (default 0%N (json_get c "version" ≫= as_u64)).
Proof.
  intros d tools. unfold grant_from_content.
  set (g0 := with_version grant_new _).
  assert (match (json_get c "default_action" ≫= as_str) ≫= action_from_label with
          | Some a => with_default_action g0 a | None => g0 end
          = mkGrant ∅ ∅ ∅ ∅ d (version g0)) as ->.
  { subst d. by destruct ((json_get c "default_action" ≫= as_str) ≫= action_from_label). }
  assert (∀ g l, (match l with Some rooms => foldl allow_room g (omap as_str rooms) | None => g end)
    = foldl allow_room g (omap as_str (default [] l))) as -> by (by intros g [l|]).
  rewrite foldl_allow_room. cbn [permitted_tools accessible_rooms tool_actions rate_limits default_action version].
  rewrite (right_id_L ∅ (∪)).
  assert (∀ {V} (m : option (gmap string V)) {G} (f : G → string * V → G) g,
    (match m with Some t => foldl f g (btree_iter t) | None => g end)
    = foldl f g (btree_iter (default ∅ m))) as Hfold.
  { intros V [m|] G f g; [done|]. simpl. unfold btree_iter. by rewrite map_to_list_empty. }
  rewrite !Hfold. fold tools. rewrite foldl_add_tool, foldl_add_limit.
  cbn [permitted_tools accessible_rooms tool_actions rate_limits default_action version].
  rewrite !foldl_insert_image, (right_id_L ∅ (∪)). f_equal.
  - apply set_eq. intros t. rewrite elem_of_list_to_set. apply elem_of_btree_keys.
  - apply map_eq. intros t. rewrite lookup_omap, lookup_fmap. by destruct (tools !! t).
Qed.

(** Grants the builders produce: every permitted tool is classified, and the
    limits fit their width. *)
Definition grant_wf (g : CapabilityGrant) : Prop :=
  dom (tool_actions g) = permitted_tools g ∧ map_Forall (λ _ l, (max l <= U32_MAX)%N) (rate_limits g).

Lemma omap_as_str (l : list string) : omap as_str (Str <$> l) = l.
Proof. induction l as [|s l IH]; [done|]. csimpl. by f_equal. Qed.

Lemma entry_limit_content l : (max l <= U32_MAX)%N → entry_limit (limit_content l) = Some l.
Proof.
  intros Hl. unfold entry_limit, limit_content. json_lookup. simpl.
  rewrite (proj2 (N.leb_le _ _) Hl). by destruct l.
Qed.

Lemma grant_roundtrip g : grant_wf g → grant_from_content (grant_to_content g) = g.
Proof.
  intros [Hd Hl]. rewrite grant_from_content_spec. unfold grant_to_content. json_lookup.
  cbn [default from_option id]. rewrite action_roundtrip, omap_as_str, insert_all_map.
  cbn [default from_option id].
  destruct g as [pt ar ta rl da v]; simpl in *. f_equal.
  - apply set_eq. intros t. rewrite elem_of_dom, insert_all_set, <-elem_of_bset_iter.
    case_decide; [naive_solver|]. split; [by intros [? ?]|done].
  - apply set_eq. intros r. by rewrite elem_of_list_to_set, elem_of_bset_iter.
  - apply map_eq. intros t. rewrite lookup_fmap, insert_all_set.
    destruct (decide (t ∈ bset_iter pt)) as [Ht|Ht]; rewrite elem_of_bset_iter, <-Hd, elem_of_dom in Ht.
    + destruct Ht as [a Ha]. unfold tool_action; simpl. rewrite Ha. simpl.
      unfold entry_action; simpl. by rewrite action_roundtrip.
    + apply eq_None_not_Some in Ht as ->. done.
  - apply map_eq. intros t. rewrite lookup_omap, lookup_fmap.
    destruct (rl !! t) as [l|] eqn:Et; [|done]. simpl. apply entry_limit_content. by apply (Hl t).
Qed.

(** A response of the MCP bridge lists [name] under [key]. *)
Definition listed (resp : Value) (key name : string) : Prop :=
  ∃ result entries e, json_get resp "result" = Some result
    ∧ json_get result key = Some (Array entries) ∧ e ∈ entries
    ∧ json_get e "name" = Some (Str name).

Lemma listed_array resp result key {A} (f : A → Value) (n : A → string) l name :
  json_get resp "result" = Some result → json_get result key = Some (Array (f <$> l)) →
  (∀ x, json_get (f x) "name" = Some (Str (n x))) →
  listed resp key name ↔ ∃ x, x ∈ l ∧ n x = name.
Proof.
  intros Hr Hk Hn. unfold listed. split.
  - intros (r & es & e & Hr' & Hk' & He & Hname). rewrite Hr in Hr'. injection Hr' as <-.
    rewrite Hk in Hk'. injection Hk' as <-.
    apply list_elem_of_fmap in He as (x & -> & Hx). rewrite Hn in Hname. simplify_eq. eauto.
  - intros (x & Hx & <-). exists result, (f <$> l), (f x). split_and!; [done..| |done].
    apply list_elem_of_fmap. eauto.
Qed.

Lemma mediate_granted g tool room :
  is_denied (mediate g tool room) = false ↔
  room ∈ accessible_rooms g ∧ tool ∈ permitted_tools g ∧ tool_action g tool ≠ ActForbidden.
Proof.
  unfold mediate. do 2 (case_bool_decide; simpl; [|naive_solver]).
  destruct (tool_action g tool); simpl; naive_solver.
Qed.

Lemma grant_tools_listed g tool :
  (∃ x, x ∈ List.filter listable (grant_tools g) ∧ x.1 = tool) ↔
  tool ∈ permitted_tools g ∧ tool_action g tool ≠ ActForbidden.
Proof.
  setoid_rewrite list_elem_of_In. setoid_rewrite filter_In. setoid_rewrite <-list_elem_of_In.
  unfold grant_tools, listable. setoid_rewrite list_elem_of_fmap.
  setoid_rewrite elem_of_bset_iter. setoid_rewrite negb_true_iff. setoid_rewrite bool_decide_eq_false.
  split.
  - by intros (x & [(t & -> & Ht) Ha] & <-).
  - intros [Ht Ha]. exists (tool, tool_action g tool). naive_solver.
Qed.

Lemma handle_mcp_tools g request :
  json_get request "method" = Some (Str "tools/list") →
  ∃ resp, handle_mcp g request = Some resp ∧ ∀ tool,
    listed resp "tools" tool ↔ tool ∈ permitted_tools g ∧ tool_action g tool ≠ ActForbidden.
Proof.
  intros Hm. unfold handle_mcp. rewrite Hm. cbn. eexists. split; [done|]. intros tool.
  rewrite (listed_array _ (tools_list_result g) "tools" tool_entry fst
    (List.filter listable (grant_tools g))); [apply grant_tools_listed|done..].
Qed.

Lemma handle_mcp_resources g request :
  json_get request "method" = Some (Str "resources/list") →
  ∃ resp, handle_mcp g request = Some resp ∧ ∀ room,
    listed resp "resources" room ↔ room ∈ accessible_rooms g.
Proof.
  intros Hm. unfold handle_mcp. rewrite Hm. cbn. eexists. split; [done|]. intros room.
  rewrite (listed_array _ (resources_list_result g) "resources" resource_entry id (grant_rooms g));
    [|done..].
  unfold grant_rooms. setoid_rewrite elem_of_bset_iter. naive_solver.
Qed.

Lemma profile_roundtrip p : profile_from_content (profile_to_content p) = Some p.
Proof.
  destruct p as [id op key nm]. unfold profile_from_content, profile_to_content. simpl.
  by destruct nm; unfold insert_opt; json_lookup.
Qed.

(** ** Properties *)

(** Mediation is least privilege: a call executes, or awaits approval,
    exactly when its room is in scope and its tool is permitted with that
    classification; an empty grant denies everything; and a grant read from
    any state-event content lets nothing through that the content does not
    list. *)
Theorem mediation_least_privilege (g : CapabilityGrant) (tool room : string) (content : Value) :
  (mediate g tool room = Execute ↔
   room ∈ accessible_rooms g ∧ tool ∈ permitted_tools g ∧ tool_action g tool = Auto)
  ∧ (mediate g tool room = RequiresApproval ↔
     room ∈ accessible_rooms g ∧ tool ∈ permitted_tools g ∧ tool_action g tool = Review)
  ∧ is_denied (mediate grant_new tool room) = true
  ∧ (is_denied (mediate (grant_from_content content) tool room) = false →
     (∃ rooms, json_get content "rooms" = Some (Array rooms) ∧ Str room ∈ rooms)
     ∧ ∃ tools, json_get content "tools" = Some (Object tools) ∧ is_Some (tools !! tool)).
Proof.
  split_and!.
  - unfold mediate. do 2 (case_bool_decide; simpl; [|naive_solver]).
    destruct (tool_action g tool); naive_solver.
  - unfold mediate. do 2 (case_bool_decide; simpl; [|naive_solver]).
    destruct (tool_action g tool); naive_solver.
  - done.
  - rewrite mediate_granted, grant_from_content_spec. simpl.
    rewrite elem_of_list_to_set, list_elem_of_omap, elem_of_dom. intros ((v & Hv & Hr) & [a Ha] & _). split.
    + destruct (json_get content "rooms") as [[]|]; simpl in Hv; try by apply elem_of_nil in Hv.
      eexists. split; [done|]. by destruct v; simpl in Hr; simplify_eq.
    + destruct (json_get content "tools") as [[]|]; simpl in Ha; try done. eauto.
Qed.

(** Grants survive the wire: serialising a well-formed grant to its state
    event content and reading it back gives the same grant. *)
Theorem grant_content_roundtrip (g : CapabilityGrant) :
  grant_wf g → grant_from_content (grant_to_content g) = g.
Proof. apply grant_roundtrip. Qed.

Lemma grant_content_roundtrip_witness :
  let g := with_rate_limit (allow_tool (allow_room (with_version grant_new 3) "!r:a") "search" Auto)
             "search" 5 60 in
  grant_from_content (grant_to_content g) = g.
Proof.
  intros g. apply (grant_content_roundtrip g). split; [vm_compute; reflexivity|].
  apply map_Forall_singleton. vm_compute. discriminate.
Defined.

(** The MCP listings are scoped to the grant: [tools/list] names exactly
    the tools a call in an accessible room would not be denied for, and
    [resources/list] exactly the accessible rooms. *)
Theorem mcp_listing_scoped (g : CapabilityGrant) (request : Value) :
  (json_get request "method" = Some (Str "tools/list") →
   ∃ resp, handle_mcp g request = Some resp ∧ ∀ tool room, room ∈ accessible_rooms g →
     (listed resp "tools" tool ↔ is_denied (mediate g tool room) = false))
  ∧ (json_get request "method" = Some (Str "resources/list") →
     ∃ resp, handle_mcp g request = Some resp ∧ ∀ room,
       listed resp "resources" room ↔ room ∈ accessible_rooms g).
Proof.
  split; intros Hm; [|by apply handle_mcp_resources].
  destruct (handle_mcp_tools g request Hm) as (resp & E & Hl). exists resp. split; [done|].
  intros tool room Hr. rewrite Hl, mediate_granted. tauto.
Qed.

(** The in-band records parse back: tool approvals and provisioning
    profiles always, tool results whenever their output is not a JSON null
    (which is read as no output). *)
Theorem in_band_roundtrips (r : ToolResult) (a : ToolApproval) (p : AgentProfile) :
  (result_from_content (result_to_content r) = Some r ↔ output r ≠ Some Null)
  ∧ approval_from_content (approval_to_content a) = Some a
  ∧ profile_from_content (profile_to_content p) = Some p.
Proof.
  split_and!.
  - destruct r as [id o e]. unfold result_from_content, result_to_content. simpl.
    destruct o as [v|], e as [e|]; unfold insert_opt; json_lookup; simpl; split; try naive_solver;
      destruct v; simpl; naive_solver.
  - destruct a as [id ok rv rs]. unfold approval_from_content, approval_to_content. simpl.
    by destruct rs; unfold insert_opt; json_lookup.
  - apply profile_roundtrip.
Qed.
