(* ===== verification/AgentService.v ===== *)
(** * The agentic gateway service ([src/src/service/agent/mod.rs])

    The live mediation loop over any store meeting [KvContract], any digest and
    any room services.  The gateway and the audit log hold clones of one store
    handle: the state keeps that store once, inside the audit service.  The
    room services the gateway calls are the class [Rooms]; the clock is an
    argument of the operations that read it. *)

From S2P Require Import Prelude Bytes Store Core Json AgentPolicy AuditService.

Definition APPROVAL_PENDING : string := "P".
Definition APPROVAL_APPROVED : string := "A".
Definition APPROVAL_REJECTED : string := "R".

Definition TOOL_CALL_TYPE : string := "m.gauss.agent.tool_call".
Definition TOOL_RESULT_TYPE : string := "m.gauss.agent.tool_result".
Definition TOOL_APPROVAL_TYPE : string := "m.gauss.agent.tool_approval".

(** The fields of a [PduBuilder] the gateway sets. *)
Record PduBuilder := mkPdu { event_type : string; content : string; state_key : option string }.

(** The room services: the current state event of a room (its raw content),
    and [build_and_append_pdu], which answers the event id. *)
Class Rooms (R : Type) := {
  room_state_get : R → string → string → string → Result Error string;
  build_and_append_pdu : R → PduBuilder → string → string → Result Error string * R;
}.

Definition approval_key (room_id id : string) : string := room_id +:+ NUL +:+ id.

Definition rate_limit_key (agent room tool : string) : string :=
  agent +:+ NUL +:+ room +:+ NUL +:+ tool.

Definition encode_window (window_start count : N) : string :=
  u64_to_be_bytes window_start +:+ u32_to_be_bytes count.

Definition decode_window (bytes : string) : option (N * N) :=
  start ← slice_get bytes 0 8 ≫= from_be_bytes 8;
  count ← slice_get bytes 8 12 ≫= from_be_bytes 4;
  Some (start, count).

Record ToolQuota := mkQuota {
  q_tool : string;
  q_max : N;
  q_used : N;
  q_remaining : N;
  q_window_secs : N;
  q_resets_in_secs : N;
}.

Definition invalid (msg : string) : Error := Request InvalidParam msg.

(** The loops of [set_grant_from_spec]. *)
Fixpoint add_tool_specs (g : CapabilityGrant) (specs : list string) : Result Error CapabilityGrant :=
  match specs with
  | [] => Ok g
  | spec :: specs =>
      let? p := ok_or (invalid "tool must be given as name:action") (str_split_once ":" spec) in
      let? a := ok_or (invalid "unknown tool action; use auto|review|forbidden")
                  (action_from_label p.2) in
      add_tool_specs (allow_tool g p.1 a) specs
  end.

Fixpoint add_rate_specs (g : CapabilityGrant) (specs : list string) : Result Error CapabilityGrant :=
  match specs with
  | [] => Ok g
  | spec :: specs =>
      match str_split ":" spec with
      | [tool; mx; window] =>
          let? mx := ok_or (invalid "rate max must be a non-negative integer") (parse_uint U32_MAX mx) in
          let? window := ok_or (invalid "rate window_secs must be a non-negative integer")
                           (parse_uint U64_MAX window) in
          add_rate_specs (with_rate_limit g tool mx window) specs
      | _ => Err (invalid "rate must be given as tool:max:window_secs")
      end
  end.

Definition grant_of_spec (next : N) (rooms tools rates : list string) (default_action : option string) :
    Result Error CapabilityGrant :=
  let g := with_version grant_new next in
  let? g := match default_action with
            | Some label =>
                let? a := ok_or (invalid "unknown default action; use auto|review|forbidden")
                            (action_from_label label) in
                Ok (with_default_action g a)
            | None => Ok g
            end in
  let g := foldl allow_room g rooms in
  let? g := add_tool_specs g tools in
  add_rate_specs g rates.

Section service.
Context {B R : Type} `{KvBackend B} `{Sha256} `{JsonCodec} `{Rooms R}.

(** [services.audit] (whose store is [services.store]) and the room services. *)
Record AgentState := mkAgent { audit : Service B; rooms : R }.

(** Handlers: a result, or an error with the effects made before it. *)
Definition M (A : Type) : Type := AgentState → Result Error A * AgentState.

Definition m_ret {A} (x : A) : M A := λ st, (Ok x, st).
Definition m_lift {A} (r : Result Error A) : M A := λ st, (r, st).
Definition m_bind {A C} (m : M A) (k : A → M C) : M C := λ st,
  match m st with (Ok x, st) => k x st | (Err e, st) => (Err e, st) end.

Local Notation "'let!' x := m 'in' k" := (m_bind m (λ x, k))
  (at level 10, x pattern, m at level 200, k at level 200).

(** ** The services the gateway calls *)

Definition with_store (st : AgentState) (s : B) : AgentState :=
  mkAgent (mkService s (head (audit st)) (head_poisoned (audit st))) (rooms st).

Definition context (what : string) (e : StoreError) : Error :=
  Database (what +:+ " failed: " +:+ store_error_display e).

Definition read_store (what : string) (d : Domain) (key : string) : M (option string) := λ st,
  (map_err (context what) (dyn_get (store (audit st)) d key), st).

Definition write_store (what : string) (d : Domain) (key value : string) : M () := λ st,
  let '(r, s) := dyn_put (store (audit st)) d key value in (map_err (context what) r, with_store st s).

Definition audit_append_m (record : string) : M N := λ st,
  let '(r, a) := append (audit st) record in (r, mkAgent a (rooms st)).

Definition append_pdu (b : PduBuilder) (sender room_id : string) : M string := λ st,
  let '(r, rs) := build_and_append_pdu (rooms st) b sender room_id in (r, mkAgent (audit st) rs).

Definition post_agent_event (sender room_id ty : string) (c : Value) : M string :=
  append_pdu (mkPdu ty (json_to_string c) None) sender room_id.

(** ** Grants *)

Definition grant_for (st : AgentState) (room_id : string) : CapabilityGrant :=
  match room_state_get (rooms st) room_id CAPABILITY_GRANT_TYPE "" with
  | Ok raw => default grant_new (grant_from_content <$> json_from_slice raw)
  | Err _ => grant_new
  end.

Definition set_grant (server_user room_id : string) (g : CapabilityGrant) : M string :=
  let b := mkPdu CAPABILITY_GRANT_TYPE (json_to_string (grant_to_content g)) (Some "") in
  let! event_id := append_pdu b server_user room_id in
  let record := to_vec_or_default (obj [("editor", Str server_user); ("room", Str room_id);
    ("version", json_u64 (version g)); ("action", Str "grant_set")]) in
  let! _ := audit_append_m record in
  m_ret event_id.

Definition set_grant_from_spec (server_user room_id : string) (rooms tools rates : list string)
    (default_action : option string) (ver : option N) : M N := λ st,
  let next := default (u64_saturating_add (version (grant_for st room_id)) 1) ver in
  (let! g := m_lift (grant_of_spec next rooms tools rates default_action) in
   let! _ := set_grant server_user room_id g in
   m_ret next) st.

(** ** Mediation *)

(** The window a stored counter stands for at [now]: a new one once
    [window_secs] have elapsed. *)
Definition current_window (limit : RateLimit) (now : N) (stored : option string) : N * N :=
  let '(window_start, count) := default (now, 0%N) (stored ≫= decode_window) in
  if (window_secs limit <=? now - window_start)%N then (now, 0%N) else (window_start, count).

Definition rate_limit_exceeded (agent room tool : string) (limit : RateLimit) (now : N) : M bool :=
  let key := rate_limit_key agent room tool in
  let! stored := read_store "rate-limit read" AgentRateLimits key in
  let '(window_start, count) := current_window limit now stored in
  if (max limit <=? count)%N then m_ret true
  else
    let! _ := write_store "rate-limit write" AgentRateLimits key
                (encode_window window_start (u32_saturating_add count 1)) in
    m_ret false.

(** The guard of the override: the grant lets the call proceed, limits the
    tool, and the limit is exceeded. *)
Definition over_limit (agent : string) (g : CapabilityGrant) (room : string) (call : ToolCall) (now : N)
    (d : Decision) : M bool :=
  if negb (is_denied d) then
    match rate_limit_for g (tool call) with
    | Some limit => rate_limit_exceeded agent room (tool call) limit now
    | None => m_ret false
    end
  else m_ret false.

Definition limited (agent room : string) (call : ToolCall) : Mediation :=
  let d := Denied RateLimited in mkMediation d (mediation_record agent (tool call) room d) None.

Definition mediate_tool_call (agent : string) (g : CapabilityGrant) (room : string) (call : ToolCall)
    (now : N) : M Mediation :=
  let mediation := gateway_process (mkGateway agent g) call room in
  let! exceeded := over_limit agent g room call now (decision mediation) in
  let mediation := if exceeded : bool then limited agent room call else mediation in
  let! _ := audit_append_m (audit_record mediation) in
  m_ret mediation.

(** [if let Some(event) = &mediation.event { post_agent_event(..)?; }] *)
Definition post_call (agent room_id : string) (m : Mediation) : M () :=
  match event m with
  | Some e => let! _ := post_agent_event agent room_id TOOL_CALL_TYPE e in m_ret ()
  | None => m_ret ()
  end.

Definition handle_tool_call (agent room_id : string) (call : ToolCall) (now : N) : M Mediation := λ st,
  (let! m := mediate_tool_call agent (grant_for st room_id) room_id call now in
   let! _ := post_call agent room_id m in
   m_ret m) st.

Definition set_approval_status (room_id id status : string) : M () :=
  write_store "agent approval write" AgentApprovals (approval_key room_id id) status.

Definition approval_status (room_id id : string) : M (option string) :=
  read_store "agent approval read" AgentApprovals (approval_key room_id id).

Definition handle_mcp_request (agent room_id : string) (request : Value) (now : N) :
    M (option Value) := λ st,
  let g := grant_for st room_id in
  match tool_call_from_mcp request with
  | Some call =>
      (let! m := mediate_tool_call agent g room_id call now in
       let! _ := post_call agent room_id m in
       let! _ := if bool_decide (decision m = RequiresApproval)
                 then set_approval_status room_id (call_id call) APPROVAL_PENDING
                 else m_ret () in
       m_ret (Some (mcp_call_ack call (decision m)))) st
  | None => (Ok (handle_mcp g request), st)
  end.

Definition record_tool_result (agent room_id : string) (r : ToolResult) : M string :=
  post_agent_event agent room_id TOOL_RESULT_TYPE (result_to_content r).

Definition ingest_tool_result (agent room_id : string) (c : Value) : M string :=
  let! r := m_lift (ok_or (invalid "tool result requires a call_id") (result_from_content c)) in
  let! status := approval_status room_id (res_call_id r) in
  if bool_decide (status = Some APPROVAL_PENDING) then
    m_lift (Err (Request Forbidden "Tool call is awaiting human approval."))
  else if bool_decide (status = Some APPROVAL_REJECTED) then
    m_lift (Err (Request Forbidden "Tool call was rejected by a reviewer."))
  else record_tool_result agent room_id r.

Definition record_approval (rev room_id id : string) (ok : bool) (why : option string) : M string :=
  let a := mkApproval id ok rev why in
  let! _ := audit_append_m (approval_audit_record a) in
  let! _ := set_approval_status room_id id (if ok then APPROVAL_APPROVED else APPROVAL_REJECTED) in
  post_agent_event rev room_id TOOL_APPROVAL_TYPE (approval_to_content a).

(** ** Provisioning *)

Definition is_agent (user_id : string) : bool := is_agent_id user_id DEFAULT_AGENT_NAMESPACE.

Definition provision_agent (id op key : string) (name : option string) : M AgentProfile :=
  let! profile := m_lift (map_err
    (λ e, invalid ("cannot provision agent: " +:+ provision_error_label e))
    (provision id DEFAULT_AGENT_NAMESPACE op key name)) in
  let! value := m_lift (ok_or (Database "agent profile serialization failed")
                  (json_to_vec (profile_to_content profile))) in
  let! _ := write_store "agent registry write" AgentRegistry id value in
  let record := to_vec_or_default (obj [("operator", Str op); ("agent", Str id);
    ("action", Str "provision")]) in
  let! _ := audit_append_m record in
  m_ret profile.

(** [serde_json]'s own message is left out of the error text. *)
Definition profile_corrupt : Error := Database "agent profile is corrupt".

Definition agent_profile (id : string) : M (option AgentProfile) :=
  let! stored := read_store "agent registry read" AgentRegistry id in
  match stored with
  | None => m_ret None
  | Some bytes =>
      let! c := m_lift (ok_or profile_corrupt (json_from_slice bytes)) in
      m_ret (profile_from_content c)
  end.

Definition is_provisioned (id : string) : M bool := λ st,
  (map_err (context "agent registry lookup") (dyn_contains (store (audit st)) AgentRegistry id), st).

Definition deprovision_agent (id : string) : M bool :=
  let! present := is_provisioned id in
  if negb present then m_ret false
  else
    let! _ := (λ st, let '(r, s) := dyn_delete (store (audit st)) AgentRegistry id in
                     (map_err (context "agent registry delete") r, with_store st s)) in
    let! _ := audit_append_m (to_vec_or_default (obj [("agent", Str id); ("action", Str "deprovision")])) in
    m_ret true.

Fixpoint decode_profiles (l : list (string * string)) : Result Error (list AgentProfile) :=
  match l with
  | [] => Ok []
  | (_, value) :: l =>
      let? c := ok_or profile_corrupt (json_from_slice value) in
      let? out := decode_profiles l in
      Ok (match profile_from_content c with Some p => p :: out | None => out end)
  end.

Definition provisioned_agents : M (list AgentProfile) := λ st,
  ((let? scanned := map_err (context "agent registry scan")
                      (dyn_prefix_scan (store (audit st)) AgentRegistry "") in
    decode_profiles scanned), st).

(** ** Quotas *)

Definition tool_quota (tool : string) (limit : RateLimit) (stored : option string) (now : N) : ToolQuota :=
  let '(used, resets) :=
    match stored ≫= decode_window with
    | Some (start, count) =>
        if (now - start <? window_secs limit)%N then (count, window_secs limit - (now - start))%N
        else (0%N, window_secs limit)
    | None => (0%N, window_secs limit)
    end in
  mkQuota tool (max limit) used (max limit - used) (window_secs limit) resets.

Fixpoint quotas (agent room_id : string) (now : N) (l : list (string * RateLimit)) : M (list ToolQuota) :=
  match l with
  | [] => m_ret []
  | (tool, limit) :: l =>
      let! stored := read_store "rate-limit read" AgentRateLimits (rate_limit_key agent room_id tool) in
      let! out := quotas agent room_id now l in
      m_ret (tool_quota tool limit stored now :: out)
  end.

Definition quota (agent room_id : string) (now : N) : M (list ToolQuota) := λ st,
  quotas agent room_id now (grant_rate_limits (grant_for st room_id)) st.

(** ** The signed audit manifest *)

(** [encode], [sign] and [print] stand for the base64 engine, the server's
    [sign_json] and [to_string_pretty]. *)
Definition sign_audit_export (server_name : string) (encode : string → string)
    (sign : gmap string Value → Result Error (gmap string Value)) (print : Value → Result Error string)
    (st : AgentState) : Result Error string :=
  let? _ := verify (audit st) in
  let? n := count (audit st) in
  let? h := head_hash (audit st) in
  let manifest := <["head_hash_base64" := Str (encode h)]> (<["entry_count" := Str (pretty n)]>
    (<["server_name" := Str server_name]> (<["algorithm" := Str "sha256-hash-chain"]> ∅))) in
  let? signed := sign manifest in
  print (Object signed).
End service.
Arguments AgentState : clear implicits.

(** ** Lemmas *)

(** [with_window] is what the encoded counter decodes to. *)
Lemma decode_encode_window start n :
  (start <= U64_MAX)%N → (n <= U32_MAX)%N → decode_window (encode_window start n) = Some (start, n).
Proof.
  intros Hs Hn. unfold decode_window, encode_window, slice_get, u64_to_be_bytes, u32_to_be_bytes.
  rewrite length_append, !length_be_encode. cbn [Nat.add Nat.leb Nat.sub].
  change (str_drop 0 ?s) with s. rewrite be_take, be_drop. cbn [mbind option_bind].
  rewrite from_be_bytes_encode by (by apply u64_width). cbn [mbind option_bind].
  rewrite be_take_all. by rewrite from_be_bytes_encode by (by apply u32_width).
Qed.

Lemma approval_key_inj room room' id id' :
  no_nul room = true → no_nul room' = true →
  approval_key room id = approval_key room' id' → room = room' ∧ id = id'.
Proof.
  unfold approval_key. intros H1 H2 E. assert (room = room') as <-.
  { apply (f_equal before_nul) in E. rewrite !before_nul_append in E by done. by injection E. }
  split; [done|]. apply append_inj_l in E as [_ E]; [|done]. by apply append_inj_l in E as [_ E].
Qed.

Section invariants.
Context {B R : Type} `{KvContract B} `{Sha256} `{JsonCodec} `{Rooms R}.
Implicit Types (st : AgentState B R).

(** [m] keeps [I], whether it succeeds or fails. *)
Definition preserves (I : AgentState B R → Prop) {A} (m : M A) : Prop :=
  ∀ st r st', I st → m st = (r, st') → I st'.

(** An invariant of the contents of one domain. *)
Definition domain_inv (d : Domain) (P : Tree → Prop) (st : AgentState B R) : Prop :=
  kv_ok (store (audit st)) ∧ P (kv_view (store (audit st)) d).

Lemma preserves_ret I {A} (x : A) : preserves I (m_ret x).
Proof. by intros st r st' HI [= <- <-]. Qed.

Lemma preserves_lift I {A} (x : Result Error A) : preserves I (m_lift x).
Proof. by intros st r st' HI [= <- <-]. Qed.

Lemma preserves_bind I {A C} (m : M A) (k : A → M C) :
  preserves I m → (∀ x, preserves I (k x)) → preserves I (m_bind m k).
Proof.
  intros Hm Hk st r st' HI. unfold m_bind. destruct (m st) as [[x|e] st1] eqn:E.
  - intros E2. eapply Hk; [|exact E2]. by eapply Hm.
  - intros [= <- <-]. by eapply Hm.
Qed.

Lemma preserves_get I what d k : preserves I (read_store what d k).
Proof. by intros st r st' HI [= <- <-]. Qed.

Lemma preserves_put d P what d' k v :
  (d' = d → ∀ t, P t → P (<[k := v]> t)) → preserves (domain_inv d P) (write_store what d' k v).
Proof.
  intros HP st r st' [Hok HI]. unfold write_store. destruct (dyn_put _ _ _ _) as [r' s'] eqn:E.
  intros [= <- <-]. unfold domain_inv. simpl.
  destruct (dyn_put_view _ _ _ _ _ _ d Hok E) as [Hok' Hv]. split; [done|]. rewrite Hv.
  destruct r'; [|done]. case_decide; naive_solver.
Qed.

Lemma preserves_audit d P record : d ≠ AuditLog → preserves (domain_inv d P) (audit_append_m record).
Proof.
  intros Hd st r st' [Hok HI]. unfold audit_append_m, append.
  destruct (head_poisoned (audit st)); [by intros [= <- <-]|].
  destruct (dyn_put _ _ _ _) as [r' s'] eqn:E.
  destruct (dyn_put_view _ _ _ _ _ _ d Hok E) as [Hok' Hv]. unfold domain_inv.
  destruct r'; intros [= <- <-]; simpl; rewrite Hv, ?decide_False by done; done.
Qed.

Lemma preserves_pdu d P b sender room : preserves (domain_inv d P) (append_pdu b sender room).
Proof.
  intros st r st' HI. unfold append_pdu. destruct (build_and_append_pdu _ _ _ _).
  by intros [= <- <-].
Qed.

Lemma preserves_delete d P id :
  d ≠ AgentRegistry → d ≠ AuditLog → preserves (domain_inv d P) (deprovision_agent id).
Proof.
  intros Hd Ha. apply preserves_bind.
  { by intros st r st' HI [= <- <-]. }
  intros []; simpl; [|apply preserves_ret]. apply preserves_bind.
  - intros st r st' [Hok HI]. destruct (dyn_delete _ _ _) as [r' s'] eqn:E. intros [= <- <-].
    destruct (dyn_delete_view _ _ _ _ _ d Hok E) as [Hok' Hv]. unfold domain_inv; simpl.
    rewrite Hv. destruct r'; rewrite ?decide_False by done; done.
  - intros _. apply preserves_bind; [by apply preserves_audit|intros; apply preserves_ret].
Qed.

(** Reading the state first. *)
Lemma preserves_read I {A C} (f : AgentState B R → C) (k : C → M A) :
  (∀ x, preserves I (k x)) → preserves I (λ st, k (f st) st).
Proof. intros Hk st. apply Hk. Qed.
End invariants.

#[export] Hint Resolve preserves_ret preserves_lift preserves_get : frame.
#[export] Hint Extern 1 (preserves _ (approval_status _ _)) => apply preserves_get : frame.
#[export] Hint Extern 1 (preserves _ (append_pdu _ _ _)) => apply preserves_pdu : frame.
#[export] Hint Extern 1 (preserves _ (audit_append_m _)) => apply preserves_audit; done : frame.
#[export] Hint Extern 1 (preserves _ (write_store _ _ _ _)) => apply preserves_put; done : frame.

(** Walk a handler, discharging the calls the hints cover. *)
Ltac frame :=
  repeat first [apply preserves_bind; [|intros] | solve [auto with frame] | case_match].

Section calls.
Context {B R : Type} `{KvContract B} `{Sha256} `{JsonCodec} `{Rooms R}.

Lemma preserves_mediate P a g r c now :
  preserves (domain_inv (B := B) (R := R) AgentApprovals P) (mediate_tool_call a g r c now).
Proof. unfold mediate_tool_call, over_limit, rate_limit_exceeded. frame. Qed.

Lemma preserves_post_call P a r m :
  preserves (domain_inv (B := B) (R := R) AgentApprovals P) (post_call a r m).
Proof. unfold post_call, post_agent_event. frame. Qed.
End calls.

#[export] Hint Extern 1 (preserves _ (mediate_tool_call _ _ _ _ _)) => apply preserves_mediate : frame.
#[export] Hint Extern 1 (preserves _ (post_call _ _ _)) => apply preserves_post_call : frame.

(** *** The approval gate *)

Section gate.
Context {B R : Type} `{KvContract B} `{Sha256} `{JsonCodec} `{Rooms R}.
Context (room id : string).

(** The call is awaiting, or was refused by, a reviewer. *)
Definition refused (t : Tree) : Prop :=
  t !! approval_key room id = Some APPROVAL_PENDING ∨ t !! approval_key room id = Some APPROVAL_REJECTED.

Definition gated : AgentState B R → Prop := domain_inv AgentApprovals refused.

(** The operations the endpoints and the operator commands perform. *)
Inductive AgentOp :=
  | OpMcp (agent room' : string) (request : Value) (now : N)
  | OpToolCall (agent room' : string) (call : ToolCall) (now : N)
  | OpResult (agent room' : string) (c : Value)
  | OpApproval (rev room' id' : string) (ok : bool) (why : option string)
  | OpProvision (agent op key : string) (name : option string)
  | OpDeprovision (agent : string)
  | OpSetGrant (server_user room' : string) (rooms tools rates : list string)
      (default_action : option string) (ver : option N).

Definition agent_step (st : AgentState B R) (o : AgentOp) : AgentState B R :=
  match o with
  | OpMcp a r q now => (handle_mcp_request a r q now st).2
  | OpToolCall a r c now => (handle_tool_call a r c now st).2
  | OpResult a r c => (ingest_tool_result a r c st).2
  | OpApproval v r i ok w => (record_approval v r i ok w st).2
  | OpProvision a op k n => (provision_agent a op k n st).2
  | OpDeprovision a => (deprovision_agent a st).2
  | OpSetGrant u r rs ts ls d v => (set_grant_from_spec u r rs ts ls d v st).2
  end.

Definition agent_run : AgentState B R → list AgentOp → AgentState B R := foldl agent_step.

(** Every operation but an approval of this very call. *)
Definition not_approving (o : AgentOp) : Prop :=
  match o with
  | OpMcp _ r _ _ => no_nul r = true
  | OpApproval _ r i ok _ => no_nul r = true ∧ (ok = true → (r, i) ≠ (room, id))
  | _ => True
  end.

Context (Hroom : no_nul room = true).

Lemma refused_put room' id' status t :
  no_nul room' = true →
  ((room', id') = (room, id) → status = APPROVAL_PENDING ∨ status = APPROVAL_REJECTED) →
  refused t → refused (<[approval_key room' id' := status]> t).
Proof.
  unfold refused. intros Hr Hs Ht.
  destruct (decide (approval_key room' id' = approval_key room id)) as [E|Hne].
  - rewrite E, lookup_insert_eq. apply approval_key_inj in E as [-> ->]; [|done..]. naive_solver.
  - by rewrite lookup_insert_ne.
Qed.

Lemma set_status_gated room' id' status :
  no_nul room' = true →
  ((room', id') = (room, id) → status = APPROVAL_PENDING ∨ status = APPROVAL_REJECTED) →
  preserves gated (set_approval_status room' id' status).
Proof. intros ? Hs. apply preserves_put. intros _ t. by apply refused_put. Qed.

Lemma handle_mcp_gated a r q now : no_nul r = true → preserves gated (handle_mcp_request a r q now).
Proof.
  intros Hr. unfold handle_mcp_request. destruct (tool_call_from_mcp q) as [c|].
  - refine (preserves_read gated (λ st, grant_for st r) (λ g, m_bind (mediate_tool_call a g r c now) _) _).
    intros g.
    apply preserves_bind; [apply preserves_mediate|intros m].
    apply preserves_bind; [apply preserves_post_call|intros _].
    apply preserves_bind; [|intros _; apply preserves_ret].
    case_bool_decide; [|apply preserves_ret]. apply set_status_gated; [done|by left].
  - by intros st x st' HI [= <- <-].
Qed.

Lemma step_gated st o : not_approving o → gated st → gated (agent_step st o).
Proof.
  intros Ho Hg.
  enough (∀ {A} (m : M A), preserves gated m → gated (m st).2) as Hm.
  { destruct o as [a r q now|a r c now|a r c|v r i ok w|a op k n|a|u r rs ts ls d v];
      simpl in *; apply Hm.
    - by apply handle_mcp_gated.
    - refine (preserves_read gated (λ st, grant_for st r) (λ g, m_bind (mediate_tool_call a g r c now) _) _).
      intros g.
      apply preserves_bind; [apply preserves_mediate|intros m].
      apply preserves_bind; [apply preserves_post_call|intros _; apply preserves_ret].
    - unfold ingest_tool_result, record_tool_result, post_agent_event. frame.
    - unfold record_approval, post_agent_event. destruct Ho as [Hr Ho].
      apply preserves_bind; [by apply preserves_audit|intros _].
      apply preserves_bind; [|intros _; apply preserves_pdu].
      apply set_status_gated; [done|]. intros Heq. destruct ok; [|by right]. by destruct Ho.
    - unfold provision_agent. frame.
    - by apply preserves_delete.
    - unfold set_grant_from_spec.
      refine (preserves_read gated (λ st, default (u64_saturating_add (version (grant_for st r)) 1) v)
        (λ next, m_bind (m_lift (grant_of_spec next rs ts ls d))
          (λ g, m_bind (set_grant u r g) (λ _, m_ret next))) _).
      intros next. unfold set_grant. frame. }
  intros A m Hp. destruct (m st) as [r st'] eqn:E. by apply (Hp st r st').
Qed.

Lemma run_gated st os : Forall not_approving os → gated st → gated (agent_run st os).
Proof.
  intros Hos. revert st. induction Hos as [|o os Ho _ IH]; intros st Hg; [done|].
  apply IH. by apply step_gated.
Qed.

(** A gated call has no result accepted. *)
Lemma ingest_gated st a c r :
  gated st → result_from_content c = Some r → res_call_id r = id →
  ∃ e, ingest_tool_result a room c st = (Err e, st).
Proof.
  intros [Hok Hg] Hc Hid. unfold ingest_tool_result, m_bind, m_lift, approval_status, read_store.
  rewrite Hc. simpl. rewrite Hid. destruct (dyn_get _ _ _) as [o|e] eqn:E; simpl; [|by eexists].
  apply dyn_get_sound in E as ->; [|done].
  destruct Hg as [->| ->]; [rewrite bool_decide_true by done; by eexists|].
  rewrite bool_decide_false, bool_decide_true by done. by eexists.
Qed.
End gate.

(** *** Auditing *)

Section auditing.
Context {B R : Type} `{KvContract B} `{Sha256} `{JsonCodec} `{Rooms R}.
Implicit Types (st : AgentState B R) (log : list string).

(** The log holds [log] and the rooms are [rs]. *)
Definition audited log (rs : R) st : Prop := audit_log (audit st) log ∧ rooms st = rs.

Lemma audited_put log rs what d k v :
  d ≠ AuditLog → preserves (audited log rs) (write_store what d k v).
Proof.
  intros Hd st r st' [[Hok Ht Hh Hp Hb] Hr]. unfold write_store.
  destruct (dyn_put _ _ _ _) as [r' s'] eqn:E. intros [= <- <-].
  destruct (dyn_put_view _ _ _ _ _ _ AuditLog Hok E) as [Hok' Hv].
  split; [|done]. split; simpl; try done. rewrite Hv. destruct r'; rewrite ?decide_False; done.
Qed.

Lemma over_limit_audited log rs a g r c now d : preserves (audited log rs) (over_limit a g r c now d).
Proof. unfold over_limit, rate_limit_exceeded. repeat (frame; try by apply audited_put). Qed.

Lemma over_limit_denied a g r c now d st :
  is_denied d = true → over_limit a g r c now d st = (Ok false, st).
Proof. intros Hd. unfold over_limit. by rewrite Hd. Qed.

(** Every mediation that answers has been recorded, once. *)
Lemma mediate_audited st log rs a g r c now x st' :
  audited log rs st → (N.of_nat (length log) + 1 < U64_MAX)%N →
  mediate_tool_call a g r c now st = (x, st') →
  match x with
  | Err _ => audited log rs st'
  | Ok m => audited (log ++ [audit_record m]) rs st'
      ∧ (m = gateway_process (mkGateway a g) c r
         ∨ m = limited a r c ∧ is_denied (mediate g (tool c) r) = false)
  end.
Proof.
  intros Ha Hb. unfold mediate_tool_call, m_bind at 1.
  destruct (over_limit _ _ _ _ _ _ st) as [[ex|e] st1] eqn:E;
    apply (over_limit_audited log rs) in E as Ha1; [|done| |done]; [|by intros [= <- <-]].
  set (m := if ex then _ else _). unfold m_bind, audit_append_m.
  destruct (append (audit st1) (audit_record m)) as [r' a'] eqn:Ep.
  destruct Ha1 as [Hl1 Hr1]. destruct (audit_append _ _ _ _ _ Hl1 Hb Ep) as [Hl' _].
  destruct r' as [n|e]; intros [= <- <-]; [|by split].
  split; [by split; [apply Hl'|]|]. subst m. destruct ex; [right|by left]. split; [done|].
  destruct (is_denied (mediate g (tool c) r)) eqn:Ed; [|done].
  by rewrite over_limit_denied in E.
Qed.
End auditing.

(** *** Rate limiting *)

Section limits.
Context {B R : Type} `{KvContract B} `{Sha256} `{JsonCodec} `{Rooms R}.
Implicit Types (st : AgentState B R) (log : list string).

(** A healthy gateway: the log holds [log] and the store does not fail. *)
Definition healthy log st : Prop := audit_log (audit st) log ∧ kv_live (store (audit st)).

(** The stored counter of a tool. *)
Definition counter st (key : string) : option string :=
  kv_view (store (audit st)) AgentRateLimits !! key.

Lemma read_store_live log st what d k :
  healthy log st → read_store what d k st = (Ok (kv_view (store (audit st)) d !! k), st).
Proof. intros [[Hok _ _ _ _] Hl]. unfold read_store. by rewrite dyn_get_live. Qed.

Lemma write_store_live log st what d k v :
  healthy log st → d ≠ AuditLog →
  ∃ st', write_store what d k v st = (Ok (), st') ∧ healthy log st'
    ∧ kv_view (store (audit st')) d = <[k := v]> (kv_view (store (audit st)) d)
    ∧ ∀ d', d' ≠ d → kv_view (store (audit st')) d' = kv_view (store (audit st)) d'.
Proof.
  intros [[Hok Ht Hh Hp Hb] Hl] Hd. unfold write_store.
  destruct (dyn_put_live (store (audit st)) d k v Hok Hl) as (s' & -> & Hok' & Hl' & Hv).
  eexists. split; [done|]. simpl. split_and!.
  - split; [|done]. split; simpl; try done. by rewrite Hv, decide_False.
  - by rewrite Hv, decide_True.
  - intros d' Hd'. by rewrite Hv, decide_False.
Qed.

Lemma audit_append_healthy log st p :
  healthy log st → (N.of_nat (length log) + 1 < U64_MAX)%N →
  ∃ n st', audit_append_m p st = (Ok n, st') ∧ healthy (log ++ [p]) st'
    ∧ ∀ d, d ≠ AuditLog → kv_view (store (audit st')) d = kv_view (store (audit st)) d.
Proof.
  intros [Hlog Hl] Hb. destruct (audit_append_live _ _ p Hlog Hl) as (a' & E & Hl').
  unfold audit_append_m. rewrite E. destruct (audit_append _ _ _ _ _ Hlog Hb E) as [[_ Hlog'] Hv].
  eexists _, (mkAgent a' (rooms st)). split; [done|]. split; [by split|done].
Qed.

Lemma exceeded_live log st a r t limit now :
  healthy log st →
  let key := rate_limit_key a r t in
  let w := current_window limit now (counter st key) in
  let full := (max limit <=? w.2)%N in
  ∃ st', rate_limit_exceeded a r t limit now st = (Ok full, st') ∧ healthy log st'
    ∧ counter st' key = if full then counter st key
                        else Some (encode_window w.1 (u32_saturating_add w.2 1)).
Proof.
  intros Hh key w full. unfold rate_limit_exceeded, m_bind at 1.
  rewrite (read_store_live log) by done. subst full w key.
  change (kv_view _ AgentRateLimits !! ?k) with (counter st k).
  destruct (current_window _ _ _) as [ws n]; cbn [fst snd].
  destruct (max limit <=? n)%N; [by exists st|]. unfold m_bind.
  edestruct (write_store_live log st) as (st' & -> & Hh' & Hv & _); [done..|].
  eexists. split; [done|]. split; [done|]. unfold counter. by rewrite Hv, lookup_insert_eq.
Qed.

(** One mediated call of a limited tool. *)
Lemma mediate_limited log st a g r c now limit :
  healthy log st → (N.of_nat (length log) + 1 < U64_MAX)%N →
  is_denied (mediate g (tool c) r) = false → rate_limit_for g (tool c) = Some limit →
  let key := rate_limit_key a r (tool c) in
  let w := current_window limit now (counter st key) in
  let full := (max limit <=? w.2)%N in
  let m := if full then limited a r c else gateway_process (mkGateway a g) c r in
  ∃ st', mediate_tool_call a g r c now st = (Ok m, st') ∧ healthy (log ++ [audit_record m]) st'
    ∧ counter st' key = if full then counter st key
                        else Some (encode_window w.1 (u32_saturating_add w.2 1)).
Proof.
  intros Hh Hb Hd Hlim key w full m. unfold mediate_tool_call, m_bind at 1, over_limit.
  cbn [gateway_process decision grant agent]. rewrite Hd, Hlim. cbn [negb].
  destruct (exceeded_live log st a r (tool c) limit now Hh) as (st1 & E & Hh1 & Hc1).
  rewrite E. fold key w full in Hc1 |- *. fold m. unfold m_bind.
  destruct (audit_append_healthy log st1 (audit_record m) Hh1 Hb) as (n & st2 & -> & Hh2 & Hv).
  eexists. split; [done|]. split; [done|]. rewrite <-Hc1. unfold counter. by rewrite Hv.
Qed.

Lemma current_window_fresh limit now stored :
  (∀ s n, stored ≫= decode_window = Some (s, n) → (window_secs limit <= now - s)%N) →
  current_window limit now stored = (now, 0%N).
Proof.
  unfold current_window. destruct (stored ≫= decode_window) as [[s n]|]; simpl; intros Hexp.
  - by rewrite (proj2 (N.leb_le _ _) (Hexp s n eq_refl)).
  - by case_match.
Qed.

(** The calls [cs] at their times, one after the other. *)
Fixpoint mediate_all (a : string) (g : CapabilityGrant) (r : string) (cs : list (ToolCall * N)) :
    M (B := B) (R := R) (list Mediation) :=
  match cs with
  | [] => m_ret []
  | (c, now) :: cs => m_bind (mediate_tool_call a g r c now)
      (λ m, m_bind (mediate_all a g r cs) (λ ms, m_ret (m :: ms)))
  end.

(** The decisions of a fixed window with [left] calls remaining. *)
Definition window_decisions (d : Decision) (left n : nat) : list Decision :=
  replicate (left `min` n) d ++ replicate (n - left) (Denied RateLimited).

Lemma mediate_all_window log st a g r t limit d start n cs :
  healthy log st → (N.of_nat (length log + length cs) < U64_MAX)%N →
  mediate g t r = d → is_denied d = false → rate_limit_for g t = Some limit →
  (max limit <= U32_MAX)%N → (start <= U64_MAX)%N → (n <= max limit)%N →
  counter st (rate_limit_key a r t) = Some (encode_window start n) →
  Forall (λ c, tool c.1 = t ∧ (c.2 - start < window_secs limit)%N) cs →
  ∃ ms st', mediate_all a g r cs st = (Ok ms, st') ∧ healthy (log ++ (audit_record <$> ms)) st'
    ∧ decision <$> ms = window_decisions d (N.to_nat (max limit - n)) (length cs).
Proof.
  intros Hh Hb Hd Hnd Hlim Hmax Hs Hn Hc Hcs. revert log st n Hh Hb Hn Hc.
  induction Hcs as [|[c now] cs [Ht Hw] _ IH]; intros log st n Hh Hb Hn Hc; simpl in *.
  { eexists _, st. split; [done|]. rewrite app_nil_r. split; [done|].
    unfold window_decisions. by rewrite Nat.min_0_r. }
  subst t. destruct (mediate_limited log st a g r c now limit Hh) as (st1 & E & Hh1 & Hc1);
    [lia|by rewrite Hd|done|].
  assert (current_window limit now (counter st (rate_limit_key a r (tool c))) = (start, n)) as Ew.
  { rewrite Hc. unfold current_window. cbn [mbind option_bind].
    rewrite decode_encode_window by lia. cbn [default from_option id].
    by rewrite (proj2 (N.leb_gt _ _)). }
  rewrite Ew in Hc1, Hh1, E. cbn [fst snd] in *.
  edestruct (IH _ st1 (if (max limit <=? n)%N then n else n + 1)%N Hh1) as (ms & st' & E' & Hh' & Hds).
  - rewrite length_app. simpl. lia.
  - destruct (N.leb_spec (max limit) n); lia.
  - rewrite Hc1. destruct (N.leb_spec (max limit) n); [done|].
    unfold u32_saturating_add. by rewrite (N.min_l (n + 1)) by lia.
  - unfold m_bind. rewrite E, E'. eexists _, st'. split; [done|]. split.
    + by rewrite <-app_assoc in Hh'.
    + csimpl. rewrite Hds. unfold window_decisions. destruct (N.leb_spec (max limit) n).
      * replace (N.to_nat (max limit - n)) with 0 by lia. by rewrite !Nat.sub_0_r.
      * replace (N.to_nat (max limit - n)) with (S (N.to_nat (max limit - (n + 1)))) by lia.
        simpl. by rewrite Hd.
Qed.
End limits.

(** *** The gateway's answers *)

Section answers.
Context {B R : Type} `{KvContract B} `{Sha256} `{JsonCodec} `{Rooms R}.
Implicit Types (st : AgentState B R).

Lemma ack_pending (c : ToolCall) d : mcp_call_ack c d = mcp_call_ack c RequiresApproval → d = RequiresApproval.
Proof.
  intros E. destruct d as [| |reason]; [|done|].
  - apply (f_equal (λ v, json_get v "result" ≫= λ w, json_get w "status")) in E.
    unfold mcp_call_ack in E. simpl in E. revert E. json_lookup. by intros [=].
  - apply (f_equal (λ v, json_get v "error")) in E. revert E. unfold mcp_call_ack. simpl.
    json_lookup. by intros [=].
Qed.

Definition store_ok : AgentState B R → Prop := domain_inv AgentApprovals (λ _, True).

Lemma store_ok_intro st : kv_ok (store (audit st)) → store_ok st.
Proof. by split. Qed.

Lemma set_status_ok st room id status st' :
  store_ok st → set_approval_status room id status st = (Ok (), st') →
  kv_ok (store (audit st')) ∧ kv_view (store (audit st')) AgentApprovals !! approval_key room id = Some status.
Proof.
  intros [Hok _]. unfold set_approval_status, write_store.
  destruct (dyn_put _ _ _ _) as [r s'] eqn:E. destruct (dyn_put_view _ _ _ _ _ _ AgentApprovals Hok E) as [Hok' Hv].
  destruct r as [[]|]; [|done]. intros [= <-]. simpl. split; [done|].
  by rewrite Hv, decide_True, lookup_insert_eq.
Qed.

(** A call acknowledged as awaiting approval is gated. *)
Lemma pending_gated st a room q now c st' :
  kv_ok (store (audit st)) → tool_call_from_mcp q = Some c →
  handle_mcp_request a room q now st = (Ok (Some (mcp_call_ack c RequiresApproval)), st') →
  gated room (call_id c) st'.
Proof.
  intros Hok Hc. unfold handle_mcp_request. rewrite Hc. unfold m_bind, m_ret.
  destruct (mediate_tool_call _ _ _ _ _ st) as [[m|] st1] eqn:E1; [|done].
  destruct (post_call a room m st1) as [[[]|] st2] eqn:E2; [|done].
  assert (store_ok st2) as Hok2.
  { eapply preserves_post_call; [|exact E2].
    eapply preserves_mediate; [|exact E1]. by apply store_ok_intro. }
  case_bool_decide as Hd.
  - destruct (set_approval_status _ _ _ st2) as [[[]|] st3] eqn:E3; [|done]. intros Ha.
    assert (st3 = st') as <- by congruence. apply set_status_ok in E3 as [Hok3 Hs]; [|done]. split; [done|]. by left.
  - intros Ha. destruct Hd. apply (ack_pending c). congruence.
Qed.

(** An approved call's result is posted. *)
Lemma approved_ingest st rev room id why e st' a c r :
  kv_ok (store (audit st)) → record_approval rev room id true why st = (Ok e, st') →
  kv_live (store (audit st')) → result_from_content c = Some r → res_call_id r = id →
  ingest_tool_result a room c st' = record_tool_result a room r st'.
Proof.
  intros Hok. unfold record_approval, m_bind.
  destruct (audit_append_m _ st) as [[n|] st1] eqn:E1; [|done].
  apply (preserves_audit AgentApprovals (λ _, True)) in E1 as Hok1; [|done|by apply store_ok_intro].
  destruct (set_approval_status _ _ _ st1) as [[[]|] st2] eqn:E2; [|done].
  apply set_status_ok in E2 as [Hok2 Hs]; [|done]. intros E3 Hl Hc Hid.
  apply (preserves_pdu AgentApprovals (λ t, t !! approval_key room id = Some APPROVAL_APPROVED)) in E3
    as [Hok3 Hs3]; [|by split].
  unfold ingest_tool_result, m_bind, m_lift, approval_status, read_store. rewrite Hc. simpl.
  by rewrite dyn_get_live, Hid, Hs3 by done.
Qed.

Definition profile_fields (p : AgentProfile) : gmap string string :=
  let m := <["signing_key" := signing_key p]> (<["operator" := operator p]>
             (<["agent_id" := agent_id p]> ∅)) in
  match display_name p with Some n => <["display_name" := n]> m | None => m end.

Lemma profile_flat p : profile_to_content p = Object (Str <$> profile_fields p).
Proof.
  unfold profile_to_content, profile_fields. f_equal.
  destruct (display_name p); simpl; by rewrite !fmap_insert, fmap_empty.
Qed.

(** A provisioned agent reads back; nothing but an accepted identity is
    written. *)
Lemma provision_ok log st id op key nm :
  healthy log st → (N.of_nat (length log) + 1 < U64_MAX)%N →
  is_agent id = true → is_blank key = false →
  let p := mkProfile id op key nm in
  ∃ st', provision_agent id op key nm st = (Ok p, st')
    ∧ agent_profile id st' = (Ok (Some p), st') ∧ is_provisioned id st' = (Ok true, st')
    ∧ ∃ record, healthy (log ++ [record]) st'.
Proof.
  intros Hh Hb Hid Hkey p. unfold provision_agent, m_bind, m_lift.
  unfold provision. unfold is_agent in Hid. rewrite Hid, Hkey. cbn [negb map_err]. fold p.
  rewrite profile_flat. destruct (json_flat_roundtrip (profile_fields p)) as (v & -> & Hv). cbn [ok_or].
  edestruct (write_store_live log st) as (st1 & -> & Hh1 & Hs1 & _); [done..|].
  edestruct (audit_append_healthy log st1) as (n & st2 & -> & Hh2 & Hs2); [done..|].
  exists st2. assert (kv_view (store (audit st2)) AgentRegistry !! id = Some v) as Hreg.
  { by rewrite Hs2, Hs1, lookup_insert_eq by done. }
  split; [done|]. split_and!; [| |by eexists].
  - unfold agent_profile, m_bind. rewrite (read_store_live _ _ _ _ _ Hh2), Hreg.
    unfold m_lift. rewrite Hv. cbn [ok_or]. by rewrite <-profile_flat, profile_roundtrip.
  - unfold is_provisioned. destruct Hh2 as [[Hok2 _ _ _ _] Hl2].
    by rewrite dyn_contains_live, Hreg.
Qed.

Lemma deprovision_ok log st id :
  healthy log st → (N.of_nat (length log) + 1 < U64_MAX)%N →
  let present := bool_decide (is_Some (kv_view (store (audit st)) AgentRegistry !! id)) in
  ∃ st', deprovision_agent id st = (Ok present, st')
    ∧ agent_profile id st' = (Ok None, st') ∧ is_provisioned id st' = (Ok false, st').
Proof.
  intros Hh Hb present. unfold deprovision_agent, m_bind at 1, is_provisioned at 1.
  pose proof Hh as [[Hok Ht Hhd Hp Hbd] Hl]. rewrite dyn_contains_live by done. cbn [map_err].
  fold present. enough (∃ st' log', (if negb present then m_ret false else _) st = (Ok present, st')
    ∧ healthy log' st' ∧ kv_view (store (audit st')) AgentRegistry !! id = None)
    as (st' & log' & -> & Hh' & Hn).
  { exists st'. split; [done|]. destruct (Hh') as [[Hok' _ _ _ _] Hl'].
    unfold agent_profile, m_bind, is_provisioned.
    by rewrite (read_store_live _ _ _ _ _ Hh'), dyn_contains_live, Hn by done. }
  subst present. case_bool_decide as Hs; cbn [negb].
  - unfold m_bind. destruct (dyn_delete_live (store (audit st)) AgentRegistry id Hok Hl)
      as (s' & -> & Hok' & Hl' & Hv). cbn [map_err].
    edestruct (audit_append_healthy log (with_store st s')) as (n & st2 & -> & Hh2 & Hs2); [|done|].
    { split; [|done]. split; simpl; try done. by rewrite Hv, decide_False. }
    eexists st2, _. split; [done|]. split; [done|]. rewrite Hs2 by done. simpl.
    by rewrite Hv, decide_True, lookup_delete_eq.
  - exists st, log. split; [done|]. split; [done|]. by apply eq_None_not_Some.
Qed.
(** What a tool call leaves behind, whatever the outcome. *)
Lemma handle_mcp_trace st log a room q now c x st' :
  audit_log (audit st) log → (N.of_nat (length log) + 1 < U64_MAX)%N →
  tool_call_from_mcp q = Some c → handle_mcp_request a room q now st = (x, st') →
  (audit_log (audit st') log ∧ rooms st' = rooms st ∧ ∃ e, x = Err e)
  ∨ ∃ d, (d = mediate (grant_for st room) (tool c) room
          ∨ d = Denied RateLimited ∧ is_denied (mediate (grant_for st room) (tool c) room) = false)
     ∧ audit_log (audit st') (log ++ [mediation_record a (tool c) room d])
     ∧ (x = Ok (Some (mcp_call_ack c d)) ∨ ∃ e, x = Err e)
     ∧ rooms st' = if is_denied d then rooms st
         else (build_and_append_pdu (rooms st)
                 (mkPdu TOOL_CALL_TYPE (json_to_string (call_to_content c)) None) a room).2.
Proof.
  intros Hl Hb Hc. unfold handle_mcp_request. rewrite Hc. set (g := grant_for st room).
  unfold m_bind at 1. destruct (mediate_tool_call _ _ _ _ _ st) as [rm st1] eqn:E1.
  apply (mediate_audited _ log (rooms st)) in E1; [|done..].
  destruct rm as [m|e]; [|left; simplify_eq; destruct E1; by eauto].
  destruct E1 as [[Hl1 Hr1] Hm]. intros E2. right. exists (decision m).
  assert (is_denied (decision m) = true ∧ event m = None
          ∨ is_denied (decision m) = false ∧ event m = Some (call_to_content c)) as Hev.
  { destruct Hm as [->|[-> _]]; [|by left]. simpl. by destruct (mediate g (tool c) room); eauto. }
  assert (audit_record m = mediation_record a (tool c) room (decision m)) as Hrec
    by (by destruct Hm as [->|[-> _]]).
  rewrite <-Hrec. split; [destruct Hm as [->|[-> ?]]; eauto|].
  revert E2. unfold m_bind, post_call, post_agent_event, append_pdu, m_ret.
  destruct Hev as [[Hd ->]|[Hd ->]]; rewrite Hd.
  - rewrite bool_decide_false by (intros Heq; by rewrite Heq in Hd). intros [= <- <-]. eauto.
  - unfold m_bind. rewrite Hr1.
    destruct (build_and_append_pdu _ _ _ _) as [[ev|e] rs]; [|by intros [= <- <-]; eauto].
    case_bool_decide; [|intros [= <- <-]; eauto].
    destruct (set_approval_status _ _ _ _) as [y st2] eqn:E3.
    apply (audited_put (log ++ [audit_record m]) rs) in E3 as [Hl2 Hr2]; [|done|by split].
    destruct y; intros [= <- <-]; eauto.
Qed.
End answers.

(** ** Concrete instances for the witnesses *)

Module AgentFixture.
(** The room's grant: [search] is reviewed, [ping] is automatic and limited to
    two calls a minute. *)
Definition demo_grant : CapabilityGrant :=
  with_rate_limit (allow_tool (allow_tool (allow_room grant_new "!r:a.org") "search" Review) "ping" Auto)
    "ping" 2 60.

(** Flat objects are written as the bits of their encoding; the text [grant]
    stands for the content of the room's grant. *)
Definition toy_to_vec (v : Value) : option string :=
  match v with Object m => Some (pos_bits (encode (omap as_str m : gmap string string))) | _ => None end.

Definition toy_from_slice (s : string) : option Value :=
  if String.eqb s "grant" then Some (grant_to_content demo_grant)
  else (λ m : gmap string string, Object (Str <$> m)) <$> (bits_pos s ≫= decode).

Lemma pos_bits_not_grant p : String.eqb (pos_bits p) "grant" = false.
Proof. by destruct p. Qed.

#[export] Program Instance toy_codec : JsonCodec := {|
  json_to_vec := toy_to_vec;
  json_from_slice := toy_from_slice;
  json_to_string := λ v, default "" (toy_to_vec v);
|}.
Next Obligation.
  intros m. eexists. split; [done|]. unfold toy_from_slice.
  rewrite pos_bits_not_grant, bits_roundtrip. cbn [mbind option_bind]. rewrite countable.decode_encode.
  simpl. do 3 f_equal. apply map_eq. intros k. rewrite lookup_omap, lookup_fmap. by destruct (m !! k).
Qed.

(** Rooms that keep the posted events. *)
#[export] Instance demo_rooms : Rooms (list (string * PduBuilder)) := {|
  room_state_get := λ _ _ _ _, Ok "grant";
  build_and_append_pdu := λ l b sender room, (Ok "$event", l ++ [(sender, b)]);
|}.

Import ToySha.
Definition demo : AgentState MemBackend (list (string * PduBuilder)) :=
  mkAgent (mkService mem_new (mkHead 0 GENESIS) false) [].

Lemma demo_healthy : healthy [] demo.
Proof. split; [|done]. by split. Qed.

Definition mcp_call (id tool : string) : Value :=
  obj [("method", Str "tools/call"); ("id", Str id); ("params", obj [("name", Str tool)])].

Definition search_call : ToolCall := mkCall "1" "search" Null.
End AgentFixture.

(** ** Properties *)

(** C11. The approval gate holds: once the gateway has acknowledged a call as
    awaiting approval, then after any sequence of gateway operations by anyone
    in which that call is not approved, a result reported for it is refused
    and nothing is posted; once a reviewer approves it, its result is posted. *)
Theorem approval_gate {B R} `{KvContract B} `{Sha256} `{JsonCodec} `{Rooms R} (st st1 : AgentState B R)
    (agent room : string) (request : Value) (now : N) (call : ToolCall) (ops : list AgentOp)
    (agent' : string) (c : Value) (r : ToolResult) :
  no_nul room = true → kv_ok (store (audit st)) → tool_call_from_mcp request = Some call →
  handle_mcp_request agent room request now st
    = (Ok (Some (mcp_call_ack call RequiresApproval)), st1) →
  Forall (not_approving room (call_id call)) ops →
  result_from_content c = Some r → res_call_id r = call_id call →
  let st2 := agent_run st1 ops in
  (∃ e, ingest_tool_result agent' room c st2 = (Err e, st2))
  ∧ ∀ rev why e st3, record_approval rev room (call_id call) true why st2 = (Ok e, st3) →
      kv_live (store (audit st3)) →
      ingest_tool_result agent' room c st3 = record_tool_result agent' room r st3.
Proof.
  intros Hroom Hok Hc Hm Hos Hr Hid st2.
  assert (gated room (call_id call) st2) as Hg
    by (apply run_gated; [done..|by eapply pending_gated]).
  split; [by eapply ingest_gated|]. intros rev why e st3 Ha Hl.
  eapply approved_ingest; [apply Hg|done..].
Qed.

Import ToySha AgentFixture.

Lemma approval_gate_witness :
  let st1 := (handle_mcp_request "@gauss.agent.x:a.org" "!r:a.org" (mcp_call "1" "search") 100 demo).2 in
  let c := obj [("call_id", Str "1"); ("output", Str "42")] in
  let st2 := agent_run st1 [OpApproval "@u:a.org" "!r:a.org" "1" false None] in
  ∃ e, ingest_tool_result "@gauss.agent.x:a.org" "!r:a.org" c st2 = (Err e, st2).
Proof.
  intros st1 c st2.
  refine (proj1 (approval_gate demo st1 "@gauss.agent.x:a.org" "!r:a.org" (mcp_call "1" "search") 100
    search_call [OpApproval "@u:a.org" "!r:a.org" "1" false None] "@gauss.agent.x:a.org" c
    (mkToolResult "1" (Some (Str "42")) None) _ _ _ _ _ _ _)).
  - reflexivity.
  - reflexivity.
  - vm_compute. reflexivity.
  - vm_compute. reflexivity.
  - repeat constructor. intros Hf. discriminate Hf.
  - vm_compute. reflexivity.
  - reflexivity.
Defined.

(** Every tool call is audited before it acts: whatever fails, a tools/call
    request appends at most one record to the audit log; unless the record of
    its decision is in the log nothing is posted and the caller gets an error;
    with it, the call is posted in-band exactly when the decision is not a
    denial, and the caller is told that same decision. *)
Theorem tool_call_audited {B R} `{KvContract B} `{Sha256} `{JsonCodec} `{Rooms R} (st st' : AgentState B R)
    (log : list string) (agent room : string) (request : Value) (now : N) (call : ToolCall)
    (x : Result Error (option Value)) :
  audit_log (audit st) log → (N.of_nat (length log) + 1 < U64_MAX)%N →
  tool_call_from_mcp request = Some call → handle_mcp_request agent room request now st = (x, st') →
  (audit_log (audit st') log ∧ rooms st' = rooms st ∧ ∃ e, x = Err e)
  ∨ ∃ d, (d = mediate (grant_for st room) (tool call) room
          ∨ d = Denied RateLimited ∧ is_denied (mediate (grant_for st room) (tool call) room) = false)
     ∧ audit_log (audit st') (log ++ [mediation_record agent (tool call) room d])
     ∧ (x = Ok (Some (mcp_call_ack call d)) ∨ ∃ e, x = Err e)
     ∧ rooms st' = if is_denied d then rooms st
         else (build_and_append_pdu (rooms st)
                 (mkPdu TOOL_CALL_TYPE (json_to_string (call_to_content call)) None) agent room).2.
Proof. apply handle_mcp_trace. Qed.

Lemma tool_call_audited_witness :
  let st' := (handle_mcp_request "@gauss.agent.x:a.org" "!r:a.org" (mcp_call "1" "search") 100 demo).2 in
  ∃ d, audit_log (audit st') [mediation_record "@gauss.agent.x:a.org" "search" "!r:a.org" d].
Proof.
  intros st'.
  destruct (tool_call_audited demo st' [] "@gauss.agent.x:a.org" "!r:a.org" (mcp_call "1" "search") 100
    search_call (Ok (Some (mcp_call_ack search_call RequiresApproval)))) as [(_ & _ & [e He])|(d & _ & Hl & _)].
  - apply demo_healthy.
  - reflexivity.
  - vm_compute. reflexivity.
  - vm_compute. reflexivity.
  - discriminate He.
  - exists d. exact Hl.
Defined.

(** The rate limit is exact: of any number of calls of a limited tool made
    within one window, the first [max] get the grant's decision and all later
    ones are denied as rate-limited, and each is audited, in order. *)
Theorem rate_limit_window {B R} `{KvContract B} `{Sha256} `{JsonCodec} `{Rooms R} (st : AgentState B R)
    (log : list string) (agent : string) (g : CapabilityGrant) (room : string) (limit : RateLimit)
    (call : ToolCall) (start : N) (calls : list (ToolCall * N)) :
  healthy log st → (N.of_nat (length log + S (length calls)) < U64_MAX)%N →
  is_denied (mediate g (tool call) room) = false → rate_limit_for g (tool call) = Some limit →
  (0 < max limit <= U32_MAX)%N → (start <= U64_MAX)%N →
  (∀ s n, counter st (rate_limit_key agent room (tool call)) ≫= decode_window = Some (s, n) →
     (window_secs limit <= start - s)%N) →
  Forall (λ c, tool c.1 = tool call ∧ (c.2 - start < window_secs limit)%N) calls →
  ∃ ms st', mediate_all agent g room ((call, start) :: calls) st = (Ok ms, st')
    ∧ healthy (log ++ (audit_record <$> ms)) st'
    ∧ decision <$> ms = window_decisions (mediate g (tool call) room) (N.to_nat (max limit))
                          (S (length calls)).
Proof.
  intros Hh Hb Hd Hlim Hmax Hs Hexp Hcs.
  destruct (mediate_limited log st agent g room call start limit Hh) as (st1 & E & Hh1 & Hc1);
    [lia|done..|].
  rewrite (current_window_fresh limit start _ Hexp) in E, Hh1, Hc1. cbn [fst snd] in *.
  rewrite (proj2 (N.leb_gt (max limit) 0)) in E, Hh1, Hc1 by lia.
  destruct (mediate_all_window _ st1 agent g room (tool call) limit (mediate g (tool call) room) start 1 calls Hh1)
    as (ms & st' & E' & Hh' & Hds); [rewrite length_app; simpl; lia|done..|lia|done|lia|by rewrite Hc1|done|].
  cbn [mediate_all]. unfold m_bind. rewrite E, E'. eexists _, st'. split; [done|].
  rewrite <-app_assoc in Hh'. split; [done|]. csimpl. rewrite Hds. unfold window_decisions.
  by replace (N.to_nat (max limit)) with (S (N.to_nat (max limit - 1))) by lia.
Qed.

Lemma rate_limit_window_witness :
  let ping := mkCall "7" "ping" Null in
  ∃ ms st', mediate_all "@gauss.agent.x:a.org" demo_grant "!r:a.org"
      [(ping, 100%N); (ping, 110%N); (ping, 159%N)] demo = (Ok ms, st')
    ∧ decision <$> ms = [Execute; Execute; Denied RateLimited].
Proof.
  intros ping.
  destruct (rate_limit_window demo [] "@gauss.agent.x:a.org" demo_grant "!r:a.org" (mkRateLimit 2 60) ping
    100 [(ping, 110%N); (ping, 159%N)]) as (ms & st' & E & _ & Hd).
  - exact demo_healthy.
  - reflexivity.
  - vm_compute. reflexivity.
  - vm_compute. reflexivity.
  - split; [reflexivity|discriminate].
  - discriminate.
  - intros s n Hc. discriminate Hc.
  - repeat constructor.
  - exists ms, st'. split; [exact E|]. rewrite Hd. vm_compute. reflexivity.
Defined.

(** The agent registry: provisioning an identity of the agent namespace
    with a signing key makes exactly that profile readable; any other request
    changes nothing; and deprovisioning reports whether the agent was present
    and leaves it unprovisioned. *)
Theorem provisioning_lifecycle {B R} `{KvContract B} `{Sha256} `{JsonCodec} `{Rooms R} (st : AgentState B R)
    (log : list string) (id op key : string) (name : option string) :
  healthy log st → (N.of_nat (length log) + 2 < U64_MAX)%N →
  if is_agent id && negb (is_blank key) then
    ∃ st' st'', provision_agent id op key name st = (Ok (mkProfile id op key name), st')
      ∧ agent_profile id st' = (Ok (Some (mkProfile id op key name)), st')
      ∧ is_provisioned id st' = (Ok true, st')
      ∧ deprovision_agent id st' = (Ok true, st'')
      ∧ agent_profile id st'' = (Ok None, st'') ∧ is_provisioned id st'' = (Ok false, st'')
  else ∃ msg, provision_agent id op key name st = (Err (Request InvalidParam msg), st).
Proof.
  intros Hh Hb. destruct (is_agent id) eqn:Hid, (is_blank key) eqn:Hkey; cbn [negb andb].
  2: {
    destruct (provision_ok log st id op key name Hh) as (st' & E1 & E2 & E3 & record & Hh'); [lia|done..|].
    destruct (deprovision_ok _ st' id Hh') as (st'' & E4 & E5 & E6); [rewrite length_app; simpl; lia|].
    exists st', st''. split_and!; try done. rewrite E4.
    unfold is_provisioned in E3. destruct Hh' as [[Hok' _ _ _ _] Hl'].
    rewrite dyn_contains_live in E3 by done. cbn [map_err] in E3. by injection E3 as ->. }
  all: unfold provision_agent, m_bind, m_lift, provision; unfold is_agent in Hid; rewrite Hid, ?Hkey;
    by eexists.
Qed.

Lemma provisioning_lifecycle_witness :
  ∃ st' st'', provision_agent "@gauss.agent.x:a.org" "svc" "key" None demo
      = (Ok (mkProfile "@gauss.agent.x:a.org" "svc" "key" None), st')
    ∧ deprovision_agent "@gauss.agent.x:a.org" st' = (Ok true, st'').
Proof.
  destruct (provisioning_lifecycle demo [] "@gauss.agent.x:a.org" "svc" "key" None)
    as (st' & st'' & E1 & _ & _ & E2 & _).
  - exact demo_healthy.
  - reflexivity.
  - exists st', st''. split; [exact E1|exact E2].
Defined.
