(* ===== verification/AgentApi.v ===== *)
(** * The agentic gateway endpoints ([src/src/api/agent.rs])

    The HTTP handlers over the gateway service: admission of the caller, then
    the service operation.  Token lookup, room membership and the appservice
    registry belong to other services and are the class [Accounts].  A request
    reads the clock when it is admitted ([auth_now]) and when it is served
    ([now], in seconds). *)

From S2P Require Import Prelude Bytes Store Core Json AgentPolicy AuditService AgentService.

Record RegistrationInfo := mkReg { reg_id : string; is_user_match : string → bool }.

(** [find_from_token] answers the user and the expiry of its token. *)
Class Accounts (R : Type) := {
  find_from_token : R → string → Result Error (string * option N);
  is_joined : R → string → string → bool;
  find_from_access_token : R → string → Result Error RegistrationInfo;
}.

Local Notation "'let!' x := m 'in' k" := (m_bind m (λ x, k))
  (at level 10, x pattern, m at level 200, k at level 200).

Section api.
Context {B R : Type} `{KvBackend B} `{Sha256} `{JsonCodec} `{Rooms R} `{Accounts R}.
Local Abbreviation M := (M (B := B) (R := R)).

Definition forbidden {A} (msg : string) : M A := m_lift (Err (Request Forbidden msg)).

Definition authenticate_member (token room_id : string) (auth_now : N) : M string := λ st,
  (let! p := m_lift (map_err (λ _, Request MissingToken "Invalid access token.")
                      (find_from_token (rooms st) token)) in
   let '(agent, expires_at) := p in
   if default false ((λ expiry, (expiry <=? auth_now)%N) <$> expires_at) then
     m_lift (Err (Request MissingToken "Access token has expired."))
   else if negb (is_joined (rooms st) agent room_id) then
     forbidden "Agent is not joined to the target room."
   else m_ret agent) st.

Definition authenticate_agent (token room_id : string) (auth_now : N) : M string :=
  let! agent := authenticate_member token room_id auth_now in
  let! present := is_provisioned agent in
  if negb present then forbidden "Caller is not a provisioned agent." else m_ret agent.

Definition authorize_appservice (token user_id : string) : M RegistrationInfo := λ st,
  (let! info := m_lift (map_err (λ _, Request Forbidden "A valid appservice token is required.")
                  (find_from_access_token (rooms st) token)) in
   if negb (is_user_match info user_id) then
     forbidden "Agent id is outside the appservice's namespace."
   else m_ret info) st.

Definition mcp_gateway_route (room_id token : string) (request : Value) (auth_now now : N) : M Value :=
  let! agent := authenticate_agent token room_id auth_now in
  let! response := handle_mcp_request agent room_id request now in
  match response with
  | Some v => m_ret v
  | None => m_lift (Err (invalid "Unsupported MCP method."))
  end.

Definition opt_str (s : option string) : Value := match s with Some s => Str s | None => Null end.

Definition provision_route (user_id token signing_key : string) (name : option string) : M Value :=
  let! info := authorize_appservice token user_id in
  let! p := provision_agent user_id (reg_id info) signing_key name in
  m_ret (obj [("agent_id", Str (agent_id p)); ("operator", Str (operator p));
              ("display_name", opt_str (display_name p))]).

Definition get_profile_route (user_id token : string) : M Value :=
  let! _ := authorize_appservice token user_id in
  let! p := agent_profile user_id in
  match p with
  | Some p => m_ret (profile_to_content p)
  | None => m_lift (Err (Request NotFound "No such provisioned agent."))
  end.

Definition revoke_route (user_id token : string) : M Value :=
  let! _ := authorize_appservice token user_id in
  let! deprovisioned := deprovision_agent user_id in
  m_ret (obj [("deprovisioned", Bool deprovisioned)]).

Definition approval_route (room_id token id : string) (ok : bool) (why : option string) (auth_now : N) :
    M Value :=
  let! rev := authenticate_member token room_id auth_now in
  if is_agent rev then
    forbidden "Tool-call approval is human-in-the-loop; agent identities cannot approve."
  else
    let! event_id := record_approval rev room_id id ok why in
    m_ret (obj [("event_id", Str event_id)]).

Definition tool_result_route (room_id token : string) (c : Value) (auth_now : N) : M Value :=
  let! agent := authenticate_agent token room_id auth_now in
  let! event_id := ingest_tool_result agent room_id c in
  m_ret (obj [("event_id", Str event_id)]).

Definition get_grant_route (room_id token : string) (auth_now : N) : M Value :=
  let! _ := authenticate_member token room_id auth_now in
  (λ st, (Ok (grant_to_content (grant_for st room_id)), st)).

Definition quota_content (q : ToolQuota) : Value :=
  obj [("tool", Str (q_tool q)); ("max", json_u64 (q_max q)); ("used", json_u64 (q_used q));
       ("remaining", json_u64 (q_remaining q)); ("window_secs", json_u64 (q_window_secs q));
       ("resets_in_secs", json_u64 (q_resets_in_secs q))].

Definition get_quota_route (room_id token : string) (auth_now now : N) : M Value :=
  let! agent := authenticate_agent token room_id auth_now in
  let! qs := quota agent room_id now in
  m_ret (obj [("quota", Array (quota_content <$> qs))]).
End api.

(** ** Lemmas *)

Section admission.
Context {B R : Type} `{KvContract B} `{Sha256} `{JsonCodec} `{Rooms R} `{Accounts R}.
Implicit Types (st : AgentState B R).

(** [token] is a live token of a user joined to the room. *)
Definition member st (token room_id : string) (auth_now : N) (user : string) : Prop :=
  ∃ expires_at, find_from_token (rooms st) token = Ok (user, expires_at)
    ∧ (∀ expiry, expires_at = Some expiry → (auth_now < expiry)%N)
    ∧ is_joined (rooms st) user room_id = true.

(** [token] identifies an appservice whose namespace holds [user_id]. *)
Definition owner st (token user_id : string) (info : RegistrationInfo) : Prop :=
  find_from_access_token (rooms st) token = Ok info ∧ is_user_match info user_id = true.

Definition provisioned st (user : string) : Prop :=
  is_Some (kv_view (store (audit st)) AgentRegistry !! user).

(** [m] changes nothing and answers only a value satisfying [P]. *)
Definition admits {A} st (m : M (B := B) (R := R) A) (P : A → Prop) : Prop :=
  (m st).2 = st ∧ ∀ x, (m st).1 = Ok x → P x.

Lemma member_admits st token room now :
  admits st (authenticate_member token room now) (member st token room now).
Proof.
  unfold admits, authenticate_member, member, m_bind, m_lift, forbidden, m_ret.
  destruct (find_from_token (rooms st) token) as [[u ex]|e]; simpl; [|done].
  destruct ex as [ex|]; simpl.
  - destruct (N.leb_spec ex now); simpl; [done|]. destruct (is_joined _ u room) eqn:Ej; simpl; [|done].
    split; [done|]. intros x [= <-]. exists (Some ex). naive_solver.
  - destruct (is_joined _ u room) eqn:Ej; simpl; [|done]. split; [done|]. intros x [= <-]. by exists None.
Qed.

Lemma agent_admits st token room now :
  kv_ok (store (audit st)) →
  admits st (authenticate_agent token room now) (λ u, member st token room now u ∧ provisioned st u).
Proof.
  intros Hok. destruct (member_admits st token room now) as [Hs Hm].
  unfold admits, authenticate_agent, m_bind, m_lift, forbidden, m_ret, is_provisioned.
  destruct (authenticate_member token room now st) as [[u|e] st1]; simpl in *; subst st1; [|done].
  destruct (dyn_contains _ _ _) as [p|] eqn:E; simpl; [|done].
  apply dyn_contains_sound in E as ->; [|done]. case_bool_decide; simpl; [|done].
  split; [done|]. intros x [= <-]. split; [by apply Hm|done].
Qed.

Lemma owner_admits st token user : admits st (authorize_appservice token user) (owner st token user).
Proof.
  unfold admits, authorize_appservice, owner, m_bind, m_lift, forbidden, m_ret.
  destruct (find_from_access_token (rooms st) token) as [i|e]; simpl; [|done].
  destruct (is_user_match i user) eqn:Em; simpl; [|done]. split; [done|]. by intros x [= <-].
Qed.

(** A handler that starts with an admission check runs its body for an
    admitted caller, or fails and changes nothing. *)
Lemma admits_bind {A C} st (m : M A) (k : A → M C) P r st' :
  admits st m P → m_bind m k st = (r, st') →
  (∃ x, P x ∧ k x st = (r, st')) ∨ ((∃ e, r = Err e) ∧ st' = st).
Proof.
  intros [Hs Hm]. unfold m_bind. destruct (m st) as [[x|e] st1]; simpl in *; subst st1; [by eauto|].
  intros [= <- <-]. eauto.
Qed.
End admission.

Section admission_properties.
Context {B R : Type} `{KvContract B} `{Sha256} `{JsonCodec} `{Rooms R} `{Accounts R}.
Implicit Types (st : AgentState B R).

(** The endpoint answered, or changed something. *)
Definition acted {A} (m : M (B := B) (R := R) A) st : Prop :=
  (m st).2 ≠ st ∨ ∃ v, (m st).1 = Ok v.

Lemma acted_admitted {A C} st (m : M A) (k : A → M C) P :
  admits st m P → acted (m_bind m k) st → ∃ x, P x ∧ acted (k x) st.
Proof.
  intros Ha Hact. destruct (m_bind m k st) as [r st'] eqn:E.
  destruct (admits_bind st m k P r st' Ha E) as [(x & HP & Ek)|[[e ->] ->]].
  - exists x. split; [done|]. unfold acted in *. by rewrite E in Hact; rewrite Ek.
  - unfold acted in Hact. rewrite E in Hact. simpl in Hact. naive_solver.
Qed.
End admission_properties.

(** ** Properties *)

(** Admission: an endpoint answers or changes anything only for an admitted
    caller.  The action endpoints require a live token of a joined, provisioned
    agent; approval requires a joined member outside the agent namespace;
    provisioning and revocation require an appservice whose namespace holds
    the agent. *)
Theorem endpoints_admission {B R} `{KvContract B} `{Sha256} `{JsonCodec} `{Rooms R} `{Accounts R}
    (st : AgentState B R) (room token user id key : string) (v : Value) (ok : bool)
    (why name : option string) (auth_now now : N) :
  kv_ok (store (audit st)) →
  (acted (mcp_gateway_route room token v auth_now now) st ∨ acted (tool_result_route room token v auth_now) st
     ∨ acted (get_quota_route room token auth_now now) st →
   ∃ agent, member st token room auth_now agent ∧ provisioned st agent)
  ∧ (acted (approval_route room token id ok why auth_now) st →
     ∃ rev, member st token room auth_now rev ∧ is_agent rev = false)
  ∧ (acted (get_grant_route room token auth_now) st → ∃ u, member st token room auth_now u)
  ∧ (acted (provision_route user token key name) st ∨ acted (revoke_route user token) st
       ∨ acted (get_profile_route user token) st →
     ∃ info, owner st token user info).
Proof.
  intros Hok. split_and!.
  - intros [Ha|[Ha|Ha]];
      (eapply acted_admitted in Ha; [|by apply agent_admits]); destruct Ha as (x & Hx & _); by exists x.
  - intros Ha. eapply acted_admitted in Ha; [|by apply member_admits]. destruct Ha as (x & Hx & Ha).
    exists x. split; [done|]. destruct (is_agent x); [|done].
    unfold acted, forbidden, m_lift in Ha. simpl in Ha. naive_solver.
  - intros Ha. eapply acted_admitted in Ha; [|by apply member_admits]. destruct Ha as (x & Hx & _). by exists x.
  - intros [Ha|[Ha|Ha]];
      (eapply acted_admitted in Ha; [|by apply owner_admits]); destruct Ha as (x & Hx & _); by exists x.
Qed.

Import ToySha AgentFixture.

(** Tokens are user ids, everybody has joined, and there is no appservice. *)
#[local] Instance demo_accounts : Accounts (list (string * PduBuilder)) := {|
  find_from_token := λ _ token, Ok (token, Some 50%N);
  is_joined := λ _ _ _, true;
  find_from_access_token := λ _ _, Err (ErrMsg "unknown token");
|}.

Lemma endpoints_admission_witness :
  ∃ rev, member demo "@u:a.org" "!r:a.org" 10 rev ∧ is_agent rev = false.
Proof.
  refine (proj1 (proj2 (endpoints_admission demo "!r:a.org" "@u:a.org" "" "1" "" Null true None None 10 10 _)) _).
  - reflexivity.
  - right. eexists. vm_compute. reflexivity.
Defined.
