(* ===== verification/RoomEvents.v ===== *)
(** * Room events as the authorisation rules read them
    ([src/src/core/matrix/pdu.rs], [src/src/service/rooms/state_res/events],
    [events.rs], [fetch_state.rs])

    The helpers that read single fields of the content of create, join-rules,
    member, power-levels and third-party-invite events, the power-event test,
    and the typed view of a state lookup.  Identifiers, number parsing,
    canonical JSON and signatures belong to [ruma]: the class [Ruma] lists what
    is used of it, without laws.  The content of an event is its parsed JSON
    value; a [struct] with derived [Deserialize] reads an object by field names
    or an array by position. *)

From S2P Require Import Prelude Bytes Core Json.

Local Set Warnings "-register-all".

(** The keys of the integer maps of a power-levels event. *)
Inductive LevelKey := EventTypes | Notifications | UserIds.

Class Ruma := {
  (** [UserId::try_from], [UserId::server_name], [RoomId::server_name],
      [RoomId::as_event_id], [EventId::server_name], [RoomVersionId::try_from]. *)
  user_id_valid : string → bool;
  user_server_name : string → string;
  room_server_name : string → option string;
  room_as_event_id : string → option string;
  event_server_name : string → option string;
  room_version_valid : string → bool;
  (** [from_json_value::<Int>], [deserialize_v1_powerlevel], and the two
      [vec_deserialize_*_powerlevel_values] for each type of key. *)
  int_from_value : Value → option Z;
  deserialize_v1_powerlevel : Value → option Z;
  vec_deserialize_int_powerlevel_values : LevelKey → Value → option (list (string * Z));
  vec_deserialize_v1_powerlevel_values : LevelKey → Value → option (list (string * Z));
  (** [CanonicalJsonObject] and its signing form. *)
  canonical_object : Value → option (gmap string Value);
  to_canonical_json_string_for_signing : gmap string Value → option string;
  (** [SigningKeyId::try_from] followed by [algorithm], [Base64::parse],
      [IdentityServerBase64PublicKey::decode], [verify_canonical_json_bytes]. *)
  signing_key_algorithm : string → option string;
  base64_parse : string → option string;
  public_key_decode : string → option string;
  verify_canonical_json_bytes : string → string → string → string → bool;
  (** [StateEventType]'s [Ord]. *)
  state_type_ord : OrdKey string;
}.

(** [ruma]'s [AuthorizationRules] and the state resolution rules of a room
    version, restricted to the flags the code reads. *)
Record AuthorizationRules := mkRules {
  special_case_room_aliases : bool;
  special_case_room_redaction : bool;
  use_room_create_sender : bool;
  limit_notifications_power_levels : bool;
  integer_power_levels : bool;
  knocking : bool;
  restricted_join_rule : bool;
  knock_restricted_join_rule : bool;
  explicitly_privilege_room_creators : bool;
  additional_room_creators : bool;
  room_create_event_id_as_room_id : bool;
}.

Record StateResolutionV2Rules := mkV2 {
  begin_iterative_auth_checks_with_empty_state_map : bool;
  consider_conflicted_state_subgraph : bool;
}.

Record RoomVersionRules := mkVersion {
  authorization : AuthorizationRules;
  v2_rules : option StateResolutionV2Rules;
}.

(** The fields of a PDU that the [Event] trait exposes to resolution. *)
Record Pdu := mkPdu {
  pdu_event_id : string;
  pdu_room_id : string;
  pdu_sender : string;
  pdu_kind : string;
  pdu_state_key : option string;
  pdu_content : Value;
  pdu_ts : N;
  pdu_prev_events : list string;
  pdu_auth_events : list string;
  pdu_redacts : option string;
  pdu_rejected : bool;
}.

Abbreviation TypeStateKey := (string * string)%type.

Definition ROOM_CREATE : string := "m.room.create".
Definition ROOM_MEMBER : string := "m.room.member".
Definition ROOM_POWER_LEVELS : string := "m.room.power_levels".
Definition ROOM_JOIN_RULES : string := "m.room.join_rules".
Definition ROOM_THIRD_PARTY_INVITE : string := "m.room.third_party_invite".
Definition ROOM_ALIASES : string := "m.room.aliases".
Definition ROOM_REDACTION : string := "m.room.redaction".

(** [Event::is_type_and_state_key] and [TypeExt::with_state_key]. *)
Definition is_type_and_state_key (e : Pdu) (kind state_key : string) : bool :=
  bool_decide (pdu_kind e = kind) && bool_decide (pdu_state_key e = Some state_key).

Definition with_state_key (kind state_key : string) : TypeStateKey := (kind, state_key).

(** ** Derived deserialisation

    [de_struct fields v] gives the fields of [v]; [true] marks a field with
    [#[serde(default)]], which an array may omit. *)
Definition de_struct (fields : list (string * bool)) (v : Value) : option (gmap string Value) :=
  match v with
  | Object m => Some m
  | Array l =>
      if (length l <=? length fields)%nat && forallb snd (drop (length l) fields)
      then Some (list_to_map (zip fields.*1 l)) else None
  | _ => None
  end.

(** An [Option<T>] field: absent and [null] are both [None]. *)
Definition de_option {A} (de : Value → option A) (o : option Value) : option (option A) :=
  match o with
  | None | Some Null => Some None
  | Some v => Some <$> de v
  end.

Definition de_default {A} (d : A) (de : Value → option A) (o : option Value) : option A :=
  match o with None => Some d | Some v => de v end.

Definition de_vec {A} (de : Value → option A) (v : Value) : option (list A) :=
  as_array v ≫= mapM de.

Section events.
Context `{Ruma}.
Implicit Types (rules : AuthorizationRules) (e : Pdu).

Definition de_user_id (v : Value) : option string := opt_filter user_id_valid (as_str v).

(** ** [events/create.rs] *)

Definition room_version e : Result Error string :=
  match de_struct [("room_version", false)] (pdu_content e) ≫= λ m,
        de_option (λ v, opt_filter room_version_valid (as_str v)) (m !! "room_version") with
  | None => Err (ErrMsg "invalid `room_version` field in `m.room.create` event")
  | Some v => Ok (default "1" v)
  end.

Definition federate e : Result Error bool :=
  match de_struct [("m.federate", false)] (pdu_content e) ≫= λ m,
        de_option as_bool (m !! "m.federate") with
  | None => Err (ErrMsg "invalid `m.federate` field in `m.room.create` event")
  | Some f => Ok (default true f)
  end.

Definition creator e rules : Result Error string :=
  if use_room_create_sender rules then Ok (pdu_sender e)
  else ok_or (ErrMsg "missing or invalid `creator` field in `m.room.create` event")
         (de_struct [("creator", false)] (pdu_content e) ≫= λ m,
          m !! "creator" ≫= de_user_id).

(** [sort] followed by [dedup]. *)
Definition sort_dedup (l : list string) : list string :=
  bset_iter (list_to_set (C := gset string) l).

Definition additional_creators e rules : Result Error (list string) :=
  if additional_room_creators rules then
    match de_struct [("additional_creators", true)] (pdu_content e) ≫= λ m,
          de_default [] (de_vec de_user_id) (m !! "additional_creators") with
    | None => Err (ErrMsg "invalid `additional_creators` field in `m.room.create` event")
    | Some l => Ok (sort_dedup l)
    end
  else Ok [].

Definition creators e rules : Result Error (list string) :=
  let? initial := creator e rules in
  let? additional := additional_creators e rules in
  Ok (initial :: additional).

Definition has_creator e : Result Error bool :=
  match de_struct [("creator", false)] (pdu_content e) ≫= λ m,
        de_option Some (m !! "creator") with
  | None => Err (ErrMsg "invalid `creator` field in `m.room.create` event")
  | Some c => Ok (bool_decide (is_Some c))
  end.

(** ** [events/join_rules.rs] *)

Inductive JoinRule :=
  | Public | Invite | Knock | Restricted | KnockRestricted
  | CustomRule (s : string).

#[export] Instance join_rule_eq_dec : EqDecision JoinRule.
Proof. solve_decision. Defined.

Definition join_rule_from_str (s : string) : JoinRule :=
  if decide (s = "public") then Public
  else if decide (s = "invite") then Invite
  else if decide (s = "knock") then Knock
  else if decide (s = "restricted") then Restricted
  else if decide (s = "knock_restricted") then KnockRestricted
  else CustomRule s.

Definition join_rule_of e : Result Error JoinRule :=
  ok_or (ErrMsg "missing or invalid `join_rule` field in `m.room.join_rules` event")
    (de_struct [("join_rule", false)] (pdu_content e) ≫= λ m,
     m !! "join_rule" ≫= λ v, join_rule_from_str <$> as_str v).

(** ** [events/third_party_invite.rs] *)

Definition de_public_key (v : Value) : option string :=
  de_struct [("public_key", false)] v ≫= λ m, m !! "public_key" ≫= as_str.

Definition public_keys e : Result Error (list string) :=
  match de_struct [("public_key", false); ("public_keys", true)] (pdu_content e) ≫= λ m,
        de_option as_str (m !! "public_key") ≫= λ key,
        de_default [] (de_vec de_public_key) (m !! "public_keys") ≫= λ keys,
        Some (option_list key ++ keys) with
  | None => Err (ErrMsg "invalid `public_key` or `public_keys` in `m.room.third_party_invite` event")
  | Some l => Ok (sort_dedup l)
  end.

(** ** [events/member.rs] *)

Inductive MembershipState :=
  | MBan | MInvite | MJoin | MKnock | MLeave
  | MCustom (s : string).

#[export] Instance membership_state_eq_dec : EqDecision MembershipState.
Proof. solve_decision. Defined.

Definition membership_from_str (s : string) : MembershipState :=
  if decide (s = "ban") then MBan
  else if decide (s = "invite") then MInvite
  else if decide (s = "join") then MJoin
  else if decide (s = "knock") then MKnock
  else if decide (s = "leave") then MLeave
  else MCustom s.

Definition content_membership (content : Value) : Result Error MembershipState :=
  ok_or (Request InvalidParam "missing or invalid `membership` field in `m.room.member` event")
    (de_struct [("membership", false)] content ≫= λ m,
     m !! "membership" ≫= λ v, membership_from_str <$> as_str v).

Definition content_join_authorised_via_users_server (content : Value) : Result Error (option string) :=
  ok_or (Request InvalidParam
           "invalid `join_authorised_via_users_server` field in `m.room.member` event")
    (de_struct [("join_authorised_via_users_server", false)] content ≫= λ m,
     de_option de_user_id (m !! "join_authorised_via_users_server")).

(** [ThirdPartyInvite], by its [signed] object. *)
Record ThirdPartyInvite := mkTpi { signed : gmap string Value }.

Definition de_third_party_invite (v : Value) : option ThirdPartyInvite :=
  de_struct [("signed", false)] v ≫= λ m, m !! "signed" ≫= λ s, mkTpi <$> canonical_object s.

Definition content_third_party_invite (content : Value) : Result Error (option ThirdPartyInvite) :=
  ok_or (Request InvalidParam "invalid `third_party_invite` field in `m.room.member` event")
    (de_struct [("third_party_invite", false)] content ≫= λ m,
     de_option de_third_party_invite (m !! "third_party_invite")).

Definition membership e : Result Error MembershipState := content_membership (pdu_content e).
Definition join_authorised_via_users_server e : Result Error (option string) :=
  content_join_authorised_via_users_server (pdu_content e).
Definition third_party_invite e : Result Error (option ThirdPartyInvite) :=
  content_third_party_invite (pdu_content e).

(** [RoomMemberEventResultExt::membership]: no member event means [leave]. *)
Definition result_membership (r : Result Error Pdu) : Result Error MembershipState :=
  match r with
  | Ok e => membership e
  | Err _ => Ok MLeave
  end.

Definition tpi_token (t : ThirdPartyInvite) : Result Error string :=
  match signed t !! "token" with
  | None => Err (Request InvalidParam "missing `token` field in `third_party_invite.signed`")
  | Some v => ok_or (Request InvalidParam "unexpected format of `token` field") (as_str v)
  end.

Definition tpi_mxid (t : ThirdPartyInvite) : Result Error string :=
  match signed t !! "mxid" with
  | None => Err (Request InvalidParam "missing `mxid` field in `third_party_invite.signed`")
  | Some v => ok_or (Request InvalidParam "unexpected format of `mxid` field") (as_str v)
  end.

Definition tpi_signatures (t : ThirdPartyInvite) : Result Error (gmap string Value) :=
  match signed t !! "signatures" with
  | None => Err (Request InvalidParam "missing `signatures` field in `third_party_invite.signed`")
  | Some v => ok_or (Request InvalidParam "unexpected format of `signatures` field") (as_object v)
  end.

Definition tpi_signed_canonical_json (t : ThirdPartyInvite) : Result Error string :=
  ok_or (Request InvalidParam "invalid `third_party_invite.signed` field in `m.room.member` event")
    (to_canonical_json_string_for_signing (signed t)).

(** ** [events/power_levels.rs] *)

(** [ruma]'s [UserPowerLevel]: creators of newer rooms rank above every level. *)
Inductive UserPowerLevel := Infinite | Level (z : Z).

#[export] Instance user_power_level_eq_dec : EqDecision UserPowerLevel.
Proof. solve_decision. Defined.

Definition upl_ltb (a b : UserPowerLevel) : bool :=
  match a, b with
  | Infinite, _ => false
  | Level _, Infinite => true
  | Level x, Level y => (x <? y)%Z
  end.

Inductive RoomPowerLevelsIntField :=
  | UsersDefault | EventsDefault | StateDefault | Ban | Redact | Kick | InviteField.

#[export] Instance int_field_eq_dec : EqDecision RoomPowerLevelsIntField.
Proof. solve_decision. Defined.

Definition int_field_ALL : list RoomPowerLevelsIntField :=
  [UsersDefault; EventsDefault; StateDefault; Ban; Redact; Kick; InviteField].

Definition int_field_as_str (f : RoomPowerLevelsIntField) : string :=
  match f with
  | UsersDefault => "users_default"
  | EventsDefault => "events_default"
  | StateDefault => "state_default"
  | Ban => "ban"
  | Redact => "redact"
  | Kick => "kick"
  | InviteField => "invite"
  end.

Definition default_value (f : RoomPowerLevelsIntField) : Z :=
  match f with
  | UsersDefault | EventsDefault | InviteField => 0
  | StateDefault | Kick | Ban | Redact => 50
  end.

Definition DEFAULT_CREATOR_POWER_LEVEL : Z := 100.

Definition position {V} (vec : list (string * V)) (key : string) : option nat :=
  fst <$> list_find (λ kv, kv.1 = key) vec.

Definition get_value {V} (vec : list (string * V)) (key : string) : option V :=
  position vec key ≫= λ i, snd <$> vec !! i.

Definition contains_key {V} (vec : list (string * V)) (key : string) : bool :=
  bool_decide (is_Some (position vec key)).

Definition deserialized_content e : Result Error (gmap string Value) :=
  ok_or (Request InvalidParam "malformed `m.room.power_levels` content") (as_object (pdu_content e)).

Definition get_as_int e (field : RoomPowerLevelsIntField) rules : Result Error (option Z) :=
  let? content := deserialized_content e in
  match content !! int_field_as_str field with
  | None => Ok None
  | Some value =>
      let res := if integer_power_levels rules then int_from_value value
                 else deserialize_v1_powerlevel value in
      ok_or (Request InvalidParam "unexpected format of an integer field of `m.room.power_levels`")
        (Some <$> res)
  end.

Definition get_as_int_or_default e (field : RoomPowerLevelsIntField) rules : Result Error Z :=
  let? o := get_as_int e field rules in Ok (default (default_value field) o).

Definition get_as_int_map e (k : LevelKey) (field : string) rules :
    Result Error (option (list (string * Z))) :=
  let? content := deserialized_content e in
  match content !! field with
  | None => Ok None
  | Some value =>
      let res := if integer_power_levels rules then vec_deserialize_int_powerlevel_values k value
                 else vec_deserialize_v1_powerlevel_values k value in
      ok_or (Request InvalidParam "unexpected format of a map field of `m.room.power_levels`")
        (Some <$> res)
  end.

Definition pl_events e rules := get_as_int_map e EventTypes "events" rules.
Definition pl_notifications e rules := get_as_int_map e Notifications "notifications" rules.
Definition pl_users e rules := get_as_int_map e UserIds "users" rules.

Definition user_power_level e (user_id : string) rules : Result Error UserPowerLevel :=
  let? users := pl_users e rules in
  let? power_level :=
    match users ≫= (λ u, get_value u user_id) with
    | Some power_level => Ok power_level
    | None => get_as_int_or_default e UsersDefault rules
    end in
  Ok (Level power_level).

Definition default_event_field (state_key : option string) : RoomPowerLevelsIntField :=
  if decide (is_Some state_key) then StateDefault else EventsDefault.

Definition event_power_level e (event_type : string) (state_key : option string) rules :
    Result Error Z :=
  let? events := pl_events e rules in
  match events ≫= (λ ev, get_value ev event_type) with
  | Some power_level => Ok power_level
  | None => get_as_int_or_default e (default_event_field state_key) rules
  end.

(** The [filter_map] and [collect] of [int_fields_map]: the first error wins. *)
Fixpoint collect_int_fields e rules (fields : list RoomPowerLevelsIntField) :
    Result Error (list (string * Z)) :=
  match fields with
  | [] => Ok []
  | f :: fields' =>
      let? v := get_as_int e f rules in
      let? rest := collect_int_fields e rules fields' in
      Ok (match v with Some z => (int_field_as_str f, z) :: rest | None => rest end)
  end.

Definition int_fields_map e rules : Result Error (list (string * Z)) :=
  collect_int_fields e rules int_field_ALL.

(** [RoomPowerLevelsEventOptionExt]: the same readings when the room may have
    no power-levels event. *)
Definition opt_user_power_level (o : option Pdu) (user_id : string) (creators : list string) rules :
    Result Error UserPowerLevel :=
  if explicitly_privilege_room_creators rules && bool_decide (user_id ∈ creators) then Ok Infinite
  else match o with
  | Some e => user_power_level e user_id rules
  | None => Ok (Level (if bool_decide (user_id ∈ creators) then DEFAULT_CREATOR_POWER_LEVEL
                       else default_value UsersDefault))
  end.

Definition opt_get_as_int_or_default (o : option Pdu) (field : RoomPowerLevelsIntField) rules :
    Result Error Z :=
  match o with
  | Some e => get_as_int_or_default e field rules
  | None => Ok (default_value field)
  end.

Definition opt_event_power_level (o : option Pdu) (event_type : string) (state_key : option string)
    rules : Result Error Z :=
  match o with
  | Some e => event_power_level e event_type state_key rules
  | None => Ok (default_value (default_event_field state_key))
  end.

(** ** [events.rs] *)

Definition is_power_event e : bool :=
  let k := pdu_kind e in
  if decide (k = ROOM_POWER_LEVELS ∨ k = ROOM_JOIN_RULES ∨ k = ROOM_CREATE) then
    bool_decide (pdu_state_key e = Some "")
  else if decide (k = ROOM_MEMBER) then
    match content_membership (pdu_content e) with
    | Ok MLeave | Ok MBan => bool_decide (Some (pdu_sender e) ≠ pdu_state_key e)
    | _ => false
    end
  else false.

(** ** [fetch_state.rs]: the typed view of a state lookup *)

Definition FetchState : Type := string → string → Result Error Pdu.
Definition FetchEvent : Type := string → Result Error Pdu.
Implicit Types (fetch_state : FetchState).

Definition room_create_event fetch_state : Result Error Pdu :=
  map_err (λ _, ErrMsg "no `m.room.create` event in current state") (fetch_state ROOM_CREATE "").

Definition user_membership fetch_state (user_id : string) : Result Error MembershipState :=
  result_membership (fetch_state ROOM_MEMBER user_id).

Definition room_power_levels_event fetch_state : option Pdu := ok (fetch_state ROOM_POWER_LEVELS "").

Definition join_rule fetch_state : Result Error JoinRule :=
  let? rules_event := map_err (λ _, ErrMsg "no `m.room.join_rules` event in current state")
              (fetch_state ROOM_JOIN_RULES "") in
  join_rule_of rules_event.

Definition room_third_party_invite_event fetch_state (token : string) : option Pdu :=
  ok (fetch_state ROOM_THIRD_PARTY_INVITE token).
End events.

(** ** Orders on power levels *)

(** [Infinite] is the greatest level, and an integer compares as itself. *)
Definition upl_le (a b : UserPowerLevel) : Prop := upl_ltb b a = false.

Lemma upl_ltb_spec a b : upl_ltb a b = true ↔ upl_le a b ∧ a ≠ b.
Proof.
  unfold upl_le. destruct a as [|x], b as [|y]; simpl; try naive_solver.
  rewrite Z.ltb_lt, Z.ltb_ge. split; [|intros [? Hn]; assert (x ≠ y) by congruence; lia].
  intros ?. split; [lia|]. intros [= ->]. lia.
Qed.

#[export] Instance upl_le_po : PartialOrder upl_le.
Proof.
  unfold upl_le. split; [split|].
  - intros [|z]; simpl; [done|]. by apply Z.ltb_irrefl.
  - intros [|x] [|y] [|z]; simpl; try done. rewrite !Z.ltb_ge. lia.
  - intros [|x] [|y]; simpl; try done. rewrite !Z.ltb_ge. intros. f_equal. lia.
Qed.

#[export] Instance upl_le_total : Total upl_le.
Proof.
  unfold upl_le. intros [|x] [|y]; simpl; auto. rewrite !Z.ltb_ge. lia.
Qed.

Lemma get_value_spec {V} (vec : list (string * V)) key v :
  get_value vec key = Some v ↔
  ∃ i, vec !! i = Some (key, v) ∧ ∀ j kv, vec !! j = Some kv → (j < i)%nat → kv.1 ≠ key.
Proof.
  unfold get_value, position. rewrite bind_Some. split.
  - intros (i & Hi & Hv). apply fmap_Some in Hi as ([i' kv] & Hf & ->).
    apply list_find_Some in Hf as (Hl & Hk & Hbefore). cbn [fst] in *.
    rewrite Hl in Hv. destruct kv as [k w]. simplify_eq/=. exists i'. split; [done|].
    intros j kv Hj Hlt. by apply (Hbefore j kv).
  - intros (i & Hl & Hbefore). exists i. split.
    + apply fmap_Some. exists (i, (key, v)). split; [|done].
      apply list_find_Some. split_and!; [done..|]. intros j y Hj Hlt. by eapply Hbefore.
    + by rewrite Hl.
Qed.

Lemma get_value_None {V} (vec : list (string * V)) key :
  get_value vec key = None ↔ key ∉ vec.*1.
Proof.
  split.
  - intros Hn Hin. apply list_elem_of_fmap in Hin as ([k v] & -> & Hin). cbn [fst] in Hn.
    destruct (list_find (λ kv, kv.1 = k) vec) as [[i kv]|] eqn:E.
    + unfold get_value, position in Hn. rewrite E in Hn. simpl in Hn.
      apply list_find_Some in E as (Hl & _). by rewrite Hl in Hn.
    + apply list_find_None in E. rewrite Forall_forall in E. by apply (E _ Hin).
  - intros Hn. destruct (get_value vec key) as [v|] eqn:E; [|done].
    apply get_value_spec in E as (i & Hi & _). destruct Hn.
    apply list_elem_of_fmap. exists (key, v). split; [done|]. by eapply list_elem_of_lookup_2.
Qed.

(** Concrete functions for the parameters, used by the witnesses. *)
Module ToyRuma.
Definition after_colon (s : string) : option string := snd <$> str_split_once ":" s.

Definition level_entries (_ : LevelKey) (v : Value) : option (list (string * Z)) :=
  as_object v ≫= λ m, mapM (λ e, (e.1,.) <$> as_i64 e.2) (btree_iter m).

#[export] Instance toy_ruma : Ruma := {|
  user_id_valid s := String.prefix "@" s && bool_decide (is_Some (after_colon s));
  user_server_name s := default "" (after_colon s);
  room_server_name := after_colon;
  room_as_event_id s := String.append "$" <$> Bytes.strip_prefix "!" s;
  event_server_name := after_colon;
  room_version_valid _ := true;
  int_from_value := as_i64;
  deserialize_v1_powerlevel := as_i64;
  vec_deserialize_int_powerlevel_values := level_entries;
  vec_deserialize_v1_powerlevel_values := level_entries;
  canonical_object := as_object;
  to_canonical_json_string_for_signing _ := Some "{}";
  signing_key_algorithm s := fst <$> str_split_once ":" s;
  base64_parse := Some;
  public_key_decode := Some;
  verify_canonical_json_bytes _ key signature _ := String.eqb key signature;
  state_type_ord := string_ord;
|}.

(** The rules of room version 11, and a public room with a moderator. *)
Definition v11 : AuthorizationRules :=
  mkRules false false true true true true true true false false false.

Definition pdu (id kind : string) (sender : string) (state_key : option string)
    (content : list (string * Value)) (auth : list string) : Pdu :=
  mkPdu id "!r:a" sender kind state_key (obj content) 1 [] auth None false.

Definition create : Pdu := pdu "$c" ROOM_CREATE "@ann:a" (Some "") [] [].
Definition member (id sender user m : string) : Pdu :=
  pdu id ROOM_MEMBER sender (Some user) [("membership", Str m)] ["$c"].
Definition levels : Pdu := pdu "$p" ROOM_POWER_LEVELS "@ann:a" (Some "")
  [("users", obj [("@ann:a", json_u64 100); ("@mod:a", json_u64 50)]); ("ban", json_u64 60)] ["$c"].
Definition rules_event : Pdu :=
  pdu "$j" ROOM_JOIN_RULES "@ann:a" (Some "") [("join_rule", Str "public")] ["$c"].

(** A state lookup over a list of events. *)
Definition state_of (events : list Pdu) : FetchState := λ ty key,
  ok_or (Request NotFound "missing")
    (snd <$> list_find (λ e, pdu_kind e = ty ∧ pdu_state_key e = Some key) events).

(** A store of events, and its basic facts. *)
Definition store_of (events : list Pdu) : FetchEvent := λ id,
  ok_or (Request NotFound "missing") (snd <$> list_find (λ e, pdu_event_id e = id) events).

Lemma store_of_some events id e : store_of events id = Ok e → e ∈ events ∧ pdu_event_id e = id.
Proof.
  unfold store_of. destruct (list_find _ events) as [[i e']|] eqn:Ef; [|done]. intros [= <-].
  apply list_find_Some in Ef as (Hi & ? & _). split; [by eapply list_elem_of_lookup_2|done].
Qed.

Lemma store_of_ranked events (rank : string → nat) :
  Forall (λ e, Forall (λ a, rank a < rank (pdu_event_id e))%nat (pdu_auth_events e)) events →
  ∀ x e a, store_of events x = Ok e → a ∈ pdu_auth_events e → (rank a < rank x)%nat.
Proof.
  intros Hall x e a [Hin <-]%store_of_some Ha. rewrite Forall_forall in Hall.
  specialize (Hall e Hin). rewrite Forall_forall in Hall. by apply Hall.
Qed.
End ToyRuma.
