(* ===== verification/RoomMember.v ===== *)
(** * Membership rules of the production resolver
    ([src/src/service/rooms/state_res/event_auth/room_member.rs])

    The checks of an [m.room.member] event by target membership, in the order
    of the source, and a declarative transition relation [member_allowed] that
    they decide. *)

From S2P Require Import Prelude Bytes Core Json RoomEvents.

Local Set Warnings "-register-all".

Section member.
Context `{Ruma}.
Implicit Types (rules : AuthorizationRules) (fetch_state : FetchState).

Definition prev_event_is_only_room_create_event (event create : Pdu) : bool :=
  match pdu_prev_events event with
  | [event_id] => bool_decide (event_id = pdu_event_id create)
  | _ => false
  end.

Definition check_room_member_join (event : Pdu) (target_user : string) rules
    (create : Pdu) fetch_state : Result Error unit :=
  let? room_creator := creator create rules in
  let? room_creators := creators create rules in
  if prev_event_is_only_room_create_event event create && bool_decide (target_user = room_creator) then Ok tt
  else if decide (pdu_sender event ≠ target_user) then
    Err (ErrMsg "sender of join event must match target user")
  else
  let? current_membership := user_membership fetch_state target_user in
  if decide (current_membership = MBan) then Err (ErrMsg "banned user cannot join room")
  else
  let? rule := join_rule fetch_state in
  if (bool_decide (rule = Invite) || knocking rules && bool_decide (rule = Knock))
     && bool_decide (current_membership = MInvite ∨ current_membership = MJoin) then Ok tt
  else if restricted_join_rule rules && bool_decide (rule = Restricted)
     || knock_restricted_join_rule rules && bool_decide (rule = KnockRestricted) then
    if decide (current_membership = MJoin ∨ current_membership = MInvite) then Ok tt
    else
    let? via := join_authorised_via_users_server event in
    match via with
    | None => Err (ErrMsg "cannot join restricted room without `join_authorised_via_users_server`")
    | Some authorized_via_user =>
        let? m := user_membership fetch_state authorized_via_user in
        if decide (m ≠ MJoin) then
          Err (ErrMsg "`join_authorised_via_users_server` is not joined")
        else
        let pl := room_power_levels_event fetch_state in
        let? user_level := opt_user_power_level pl authorized_via_user room_creators rules in
        let? invite_level := opt_get_as_int_or_default pl InviteField rules in
        if upl_ltb user_level (Level invite_level) then
          Err (ErrMsg "`join_authorised_via_users_server` does not have enough power")
        else Ok tt
    end
  else if decide (rule ≠ Public) then Err (ErrMsg "cannot join a room that is not `public`")
  else Ok tt.

(** Whether one entry of an entity's signatures verifies under one of the keys. *)
Definition signature_verifies (keys : list string) (signed_json : string)
    (entry : string * Value) : bool :=
  match signing_key_algorithm entry.1, as_str entry.2 ≫= base64_parse with
  | Some algorithm, Some signature =>
      existsb (λ encoded_public_key,
        match public_key_decode encoded_public_key with
        | Some public_key => verify_canonical_json_bytes algorithm public_key signature signed_json
        | None => false
        end) keys
  | _, _ => false
  end.

Fixpoint check_signatures (keys : list string) (signed_json : string) (entities : list Value) :
    Result Error unit :=
  match entities with
  | [] => Err (ErrMsg "no signature on third-party invite matches a public key")
  | entity_signatures_value :: entities' =>
      match as_object entity_signatures_value with
      | None => Err (Request InvalidParam "unexpected format of `signatures` field")
      | Some entity_signatures =>
          if existsb (signature_verifies keys signed_json) (btree_iter entity_signatures) then Ok tt
          else check_signatures keys signed_json entities'
      end
  end.

Definition check_third_party_invite (event : Pdu) (invite : ThirdPartyInvite)
    (target_user : string) fetch_state : Result Error unit :=
  let? current := user_membership fetch_state target_user in
  if decide (current = MBan) then Err (ErrMsg "cannot invite user that is banned")
  else
  let? token := tpi_token invite in
  let? mxid := tpi_mxid invite in
  if decide (target_user ≠ mxid) then
    Err (ErrMsg "third-party invite mxid does not match target user")
  else
  match room_third_party_invite_event fetch_state token with
  | None => Err (ErrMsg "no `m.room.third_party_invite` in room state matches the token")
  | Some invite_event =>
      if decide (pdu_sender event ≠ pdu_sender invite_event) then
        Err (ErrMsg "sender of `m.room.third_party_invite` does not match sender of `m.room.member`")
      else
      let? signatures := tpi_signatures invite in
      let? keys := public_keys invite_event in
      let? signed_canonical_json := tpi_signed_canonical_json invite in
      check_signatures keys signed_canonical_json (btree_iter signatures).*2
  end.

Definition check_room_member_invite (event : Pdu) (target_user : string) rules
    (create : Pdu) fetch_state : Result Error unit :=
  let? invite := third_party_invite event in
  match invite with
  | Some tpi => check_third_party_invite event tpi target_user fetch_state
  | None =>
      let pl := room_power_levels_event fetch_state in
      let? sender_membership := user_membership fetch_state (pdu_sender event) in
      if decide (sender_membership ≠ MJoin) then
        Err (ErrMsg "cannot invite user if sender is not joined")
      else
      let? current := user_membership fetch_state target_user in
      if decide (current = MJoin ∨ current = MBan) then
        Err (ErrMsg "cannot invite user that is joined or banned")
      else
      let? room_creators := creators create rules in
      let? sender_level := opt_user_power_level pl (pdu_sender event) room_creators rules in
      let? invite_level := opt_get_as_int_or_default pl InviteField rules in
      if upl_ltb sender_level (Level invite_level) then
        Err (ErrMsg "sender does not have enough power to invite")
      else Ok tt
  end.

Definition check_room_member_leave (event : Pdu) (target_user : string) rules
    (create : Pdu) fetch_state : Result Error unit :=
  let pl := room_power_levels_event fetch_state in
  let? sender_membership := user_membership fetch_state (pdu_sender event) in
  if decide (pdu_sender event = target_user) then
    if bool_decide (sender_membership = MJoin ∨ sender_membership = MInvite)
       || knocking rules && bool_decide (sender_membership = MKnock) then Ok tt
    else Err (ErrMsg "cannot leave if not joined, invited or knocked")
  else if decide (sender_membership ≠ MJoin) then
    Err (ErrMsg "cannot kick if sender is not joined")
  else
  let? room_creators := creators create rules in
  let? current := user_membership fetch_state target_user in
  let? sender_level := opt_user_power_level pl (pdu_sender event) room_creators rules in
  let? ban_level := opt_get_as_int_or_default pl Ban rules in
  if bool_decide (current = MBan) && upl_ltb sender_level (Level ban_level) then
    Err (ErrMsg "sender does not have enough power to unban")
  else
  let? kick_level := opt_get_as_int_or_default pl Kick rules in
  let? target_level := opt_user_power_level pl target_user room_creators rules in
  if negb (upl_ltb sender_level (Level kick_level)) && upl_ltb target_level sender_level then Ok tt
  else Err (ErrMsg "sender does not have enough power to kick target user").

Definition check_room_member_ban (event : Pdu) (target_user : string) rules
    (create : Pdu) fetch_state : Result Error unit :=
  let pl := room_power_levels_event fetch_state in
  let? sender_membership := user_membership fetch_state (pdu_sender event) in
  if decide (sender_membership ≠ MJoin) then Err (ErrMsg "cannot ban if sender is not joined")
  else
  let? room_creators := creators create rules in
  let? sender_level := opt_user_power_level pl (pdu_sender event) room_creators rules in
  let? ban_level := opt_get_as_int_or_default pl Ban rules in
  let? target_level := opt_user_power_level pl target_user room_creators rules in
  if negb (upl_ltb sender_level (Level ban_level)) && upl_ltb target_level sender_level then Ok tt
  else Err (ErrMsg "sender does not have enough power to ban target user").

Definition check_room_member_knock (event : Pdu) (target_user : string) rules
    fetch_state : Result Error unit :=
  let? rule := join_rule fetch_state in
  let supports_knock := bool_decide (rule = Knock)
    || knock_restricted_join_rule rules && bool_decide (rule = KnockRestricted) in
  if negb supports_knock then
    Err (ErrMsg "join rule is not set to knock or knock_restricted, knocking is not allowed")
  else if decide (pdu_sender event ≠ target_user) then
    Err (ErrMsg "cannot make another user knock, sender does not match target user")
  else
  let? m := user_membership fetch_state (pdu_sender event) in
  if decide (m = MBan ∨ m = MInvite ∨ m = MJoin) then
    Err (ErrMsg "cannot knock if user is banned, invited or joined")
  else Ok tt.

Definition check_room_member (event : Pdu) rules (create : Pdu) fetch_state : Result Error unit :=
  match pdu_state_key event with
  | None => Err (ErrMsg "missing `state_key` field in `m.room.member` event")
  | Some target_user =>
      if negb (user_id_valid target_user) then
        Err (ErrMsg "invalid `state_key` field in `m.room.member` event")
      else
      let? federated := federate create in
      if negb federated
         && bool_decide (user_server_name target_user ≠ user_server_name (pdu_sender create)) then
        Err (ErrMsg "MSC4361: room is not federated and target user domain does not match")
      else
      let? target_membership := membership event in
      match target_membership with
      | MJoin => check_room_member_join event target_user rules create fetch_state
      | MInvite => check_room_member_invite event target_user rules create fetch_state
      | MLeave => check_room_member_leave event target_user rules create fetch_state
      | MBan => check_room_member_ban event target_user rules create fetch_state
      | MKnock => if knocking rules
                  then check_room_member_knock event target_user rules fetch_state
                  else Err (ErrMsg "unknown membership")
      | MCustom _ => Err (ErrMsg "unknown membership")
      end
  end.

(** ** The rules as a relation *)

Variables (rules : AuthorizationRules) (create : Pdu) (fetch_state : FetchState).

(** The level a user holds in the current state, and the level an action needs. *)
Definition holds_level (user : string) (p : UserPowerLevel) : Prop :=
  ∃ cs, creators create rules = Ok cs
        ∧ opt_user_power_level (room_power_levels_event fetch_state) user cs rules = Ok p.

Definition needs_level (field : RoomPowerLevelsIntField) (n : Z) : Prop :=
  opt_get_as_int_or_default (room_power_levels_event fetch_state) field rules = Ok n.

Definition has_power (user : string) (field : RoomPowerLevelsIntField) : Prop :=
  ∃ p n, holds_level user p ∧ needs_level field n ∧ upl_le (Level n) p.

Definition outranks (a b : string) : Prop :=
  ∃ p q, holds_level a p ∧ holds_level b q ∧ upl_ltb q p = true.

Definition is_in (user : string) (m : MembershipState) : Prop := user_membership fetch_state user = Ok m.

Definition restricted (r : JoinRule) : Prop :=
  (restricted_join_rule rules = true ∧ r = Restricted)
  ∨ (knock_restricted_join_rule rules = true ∧ r = KnockRestricted).

(** The join rules under which an invited or joined user may join. *)
Definition invite_suffices (r : JoinRule) : Prop :=
  r = Invite ∨ (knocking rules = true ∧ r = Knock) ∨ restricted r.

Definition third_party_verified (event : Pdu) (tpi : ThirdPartyInvite) (target : string) : Prop :=
  ∃ token inv sigs keys json,
    tpi_token tpi = Ok token ∧ tpi_mxid tpi = Ok target
    ∧ room_third_party_invite_event fetch_state token = Some inv
    ∧ pdu_sender event = pdu_sender inv
    ∧ tpi_signatures tpi = Ok sigs ∧ public_keys inv = Ok keys
    ∧ tpi_signed_canonical_json tpi = Ok json
    ∧ check_signatures keys json (btree_iter sigs).*2 = Ok tt.

Inductive member_allowed (event : Pdu) : string → MembershipState → Prop :=
  | bootstrap_join u cs :
      creator create rules = Ok u → creators create rules = Ok cs →
      pdu_prev_events event = [pdu_event_id create] →
      member_allowed event u MJoin
  | invited_join m r cs :
      creators create rules = Ok cs →
      is_in (pdu_sender event) m → m = MInvite ∨ m = MJoin →
      join_rule fetch_state = Ok r → invite_suffices r →
      member_allowed event (pdu_sender event) MJoin
  | vouched_join m r v cs :
      creators create rules = Ok cs →
      is_in (pdu_sender event) m → m ≠ MBan → m ≠ MInvite → m ≠ MJoin →
      join_rule fetch_state = Ok r → restricted r →
      join_authorised_via_users_server event = Ok (Some v) →
      is_in v MJoin → has_power v InviteField →
      member_allowed event (pdu_sender event) MJoin
  | public_join m cs :
      creators create rules = Ok cs →
      is_in (pdu_sender event) m → m ≠ MBan → join_rule fetch_state = Ok Public →
      member_allowed event (pdu_sender event) MJoin
  | ordinary_invite u m :
      third_party_invite event = Ok None →
      is_in (pdu_sender event) MJoin → is_in u m → m ≠ MJoin → m ≠ MBan →
      has_power (pdu_sender event) InviteField →
      member_allowed event u MInvite
  | third_party_invited u m tpi :
      third_party_invite event = Ok (Some tpi) →
      is_in u m → m ≠ MBan → third_party_verified event tpi u →
      member_allowed event u MInvite
  | own_leave m :
      is_in (pdu_sender event) m →
      m = MJoin ∨ m = MInvite ∨ (knocking rules = true ∧ m = MKnock) →
      member_allowed event (pdu_sender event) MLeave
  | kick u m n :
      pdu_sender event ≠ u → is_in (pdu_sender event) MJoin → is_in u m →
      needs_level Ban n → (m = MBan → has_power (pdu_sender event) Ban) →
      has_power (pdu_sender event) Kick → outranks (pdu_sender event) u →
      member_allowed event u MLeave
  | ban u :
      is_in (pdu_sender event) MJoin →
      has_power (pdu_sender event) Ban → outranks (pdu_sender event) u →
      member_allowed event u MBan
  | knock m r :
      join_rule fetch_state = Ok r →
      r = Knock ∨ (knock_restricted_join_rule rules = true ∧ r = KnockRestricted) →
      is_in (pdu_sender event) m → m ≠ MBan → m ≠ MInvite → m ≠ MJoin →
      member_allowed event (pdu_sender event) MKnock.
End member.


Lemma only_room_create_spec event create :
  prev_event_is_only_room_create_event event create = true ↔
  pdu_prev_events event = [pdu_event_id create].
Proof.
  unfold prev_event_is_only_room_create_event.
  destruct (pdu_prev_events event) as [|x [|y l]]; [done| |done].
  rewrite bool_decide_eq_true. naive_solver.
Qed.

Lemma only_room_create_false event create :
  prev_event_is_only_room_create_event event create = false ↔
  pdu_prev_events event ≠ [pdu_event_id create].
Proof. by rewrite <-not_true_iff_false, only_room_create_spec. Qed.

(** Case analysis along the reads and tests of a rule, outermost first; the
    tests become propositions. *)
Ltac reflect_guards :=
  repeat progress (rewrite ?andb_true_iff, ?orb_true_iff, ?andb_false_iff, ?orb_false_iff,
    ?negb_true_iff, ?negb_false_iff, ?bool_decide_eq_true, ?bool_decide_eq_false,
    ?only_room_create_spec, ?only_room_create_false in *).

Ltac crack H :=
  cbv zeta in H;
  repeat (lazymatch type of H with
    | (if @decide ?P ?d then _ else _) = _ => destruct (@decide P d)
    | match ?x with _ => _ end = _ => destruct x eqn:?
    end; try discriminate H);
  reflect_guards;
  repeat match goal with Hn : ¬ (?x ≠ ?y) |- _ => apply dec_stable in Hn; subst end.

Create HintDb rules.
#[local] Hint Unfold is_in holds_level needs_level has_power outranks restricted invite_suffices
  third_party_verified upl_le : rules.

(** Reduce a passed rule to its premises, read off the context. *)
Ltac premises :=
  repeat autounfold with rules in *; naive_solver.

(** Two results of the same read agree. *)
Ltac merge_reads :=
  repeat match goal with
    | H1 : ?c = Ok _, H2 : ?c = Ok _ |- _ => rewrite H1 in H2; simplify_eq
    end.

(** Evaluate a rule along the known results of its reads, branching on its tests. *)
Ltac evaluate :=
  repeat autounfold with rules in *; cbv zeta;
  repeat match goal with Hx : ex _ |- _ => destruct Hx | Hx : _ ∧ _ |- _ => destruct Hx end;
  merge_reads;
  repeat match goal with
    | He : ?c = Ok _ |- match ?c with _ => _ end = _ => rewrite He
    | He : ?c = Some _ |- match ?c with _ => _ end = _ => rewrite He
    | |- (if @decide ?P ?d then _ else _) = _ => destruct (@decide P d)
    | |- (if ?b then _ else _) = _ => destruct b eqn:?
    end; try done; exfalso; reflect_guards.

Section exact.
Context `{Ruma}.
Variables (rules : AuthorizationRules) (create : Pdu) (fetch_state : FetchState).
Implicit Types (event : Pdu).
Local Notation allowed := (member_allowed rules create fetch_state).

Lemma join_sound event u :
  check_room_member_join event u rules create fetch_state = Ok tt → allowed event u MJoin.
Proof.
  unfold check_room_member_join. intros Hc. crack Hc.
  - destruct Heqb as [? ->]. by eapply bootstrap_join.
  - eapply invited_join; [eassumption..| |eassumption|]; premises.
  - eapply invited_join; [eassumption..| |eassumption|]; premises.
  - eapply vouched_join; [eassumption..| | | |eassumption| |eassumption| |]; premises.
  - by eapply public_join.
Qed.

Lemma creators_creator cs : creators create rules = Ok cs → ∃ c, creator create rules = Ok c.
Proof. unfold creators. destruct (creator create rules); naive_solver. Qed.

Lemma join_complete event u :
  allowed event u MJoin → check_room_member_join event u rules create fetch_state = Ok tt.
Proof.
  inversion_clear 1; unfold check_room_member_join;
    match goal with Hc : creators _ _ = Ok _ |- _ => destruct (creators_creator _ Hc) end;
    evaluate; intuition congruence.
Qed.

Lemma third_party_exact event tpi u :
  check_third_party_invite event tpi u fetch_state = Ok tt ↔
  ∃ m, is_in fetch_state u m ∧ m ≠ MBan ∧ third_party_verified fetch_state event tpi u.
Proof.
  unfold check_third_party_invite. split.
  - intros Hc. crack Hc. premises.
  - intros (m & ? & ? & Hv). unfold third_party_verified in Hv. evaluate; intuition congruence.
Qed.

Lemma invite_exact event u :
  check_room_member_invite event u rules create fetch_state = Ok tt ↔ allowed event u MInvite.
Proof.
  unfold check_room_member_invite. split.
  - intros Hc. crack Hc.
    + apply third_party_exact in Hc as (m & ? & ? & ?). by eapply third_party_invited.
    + eapply ordinary_invite; [done..| |eassumption| | |]; premises.
  - inversion_clear 1 as [| | | |? ? Hi|? ? ? Hi| | | |]; rewrite Hi.
    + evaluate; intuition congruence.
    + apply third_party_exact. eauto.
Qed.

Lemma leave_exact event u :
  check_room_member_leave event u rules create fetch_state = Ok tt ↔ allowed event u MLeave.
Proof.
  unfold check_room_member_leave. split.
  - intros Hc. crack Hc.
    + subst u. eapply own_leave; [eassumption|]. tauto.
    + eapply kick; [done..| | eassumption | | | |]; premises.
  - inversion_clear 1 as [| | | | | | |? m ? ? ? ? ? Hb| |].
    + evaluate; intuition congruence.
    + destruct (decide (m = MBan)) as [->|]; [specialize (Hb eq_refl)|clear Hb];
        evaluate; intuition congruence.
Qed.

Lemma ban_exact event u :
  check_room_member_ban event u rules create fetch_state = Ok tt ↔ allowed event u MBan.
Proof.
  unfold check_room_member_ban. split.
  - intros Hc. crack Hc. eapply ban; premises.
  - inversion_clear 1; evaluate; intuition congruence.
Qed.

Lemma knock_exact event u :
  check_room_member_knock event u rules fetch_state = Ok tt ↔ allowed event u MKnock.
Proof.
  unfold check_room_member_knock. split.
  - intros Hc. crack Hc. eapply knock; [eassumption|tauto|eassumption|..]; tauto.
  - inversion_clear 1; evaluate; intuition congruence.
Qed.

Lemma member_exact event :
  check_room_member event rules create fetch_state = Ok tt ↔
  ∃ u m federated,
    pdu_state_key event = Some u ∧ user_id_valid u = true
    ∧ federate create = Ok federated
    ∧ (federated = false → user_server_name u = user_server_name (pdu_sender create))
    ∧ membership event = Ok m ∧ (m = MKnock → knocking rules = true)
    ∧ allowed event u m.
Proof.
  unfold check_room_member. split.
  - intros Hc. crack Hc.
    all: eexists _, _, _; split_and!; [done..| |done| |]; try done;
      [intros ->; destruct Heqb0 as [?|Hn]; [done|by apply dec_stable in Hn]|].
    + by apply ban_exact.
    + by apply invite_exact.
    + by apply join_sound.
    + by apply knock_exact.
    + by apply leave_exact.
  - intros (u & m & f & Hk & Hv & Hf & Hs & Hm & Hkn & Ha). rewrite Hk, Hv, Hf, Hm. simpl.
    assert (negb f && bool_decide (user_server_name u ≠ user_server_name (pdu_sender create)) = false)
      as ->.
    { destruct f; [done|]. apply bool_decide_eq_false. intros Hne. by apply Hne, Hs. }
    destruct m.
    + by apply ban_exact.
    + by apply invite_exact.
    + by apply join_complete.
    + rewrite Hkn by done. by apply knock_exact.
    + by apply leave_exact.
    + inversion Ha.
Qed.

(** What may happen to a banned user. *)
Lemma banned_transitions event u m :
  is_in fetch_state u MBan → allowed event u m →
  match m with
  | MJoin => creator create rules = Ok u ∧ pdu_prev_events event = [pdu_event_id create]
  | MLeave => pdu_sender event ≠ u ∧ is_in fetch_state (pdu_sender event) MJoin
              ∧ has_power rules create fetch_state (pdu_sender event) Ban
              ∧ has_power rules create fetch_state (pdu_sender event) Kick
              ∧ outranks rules create fetch_state (pdu_sender event) u
  | MBan => has_power rules create fetch_state (pdu_sender event) Ban
            ∧ outranks rules create fetch_state (pdu_sender event) u
  | _ => False
  end.
Proof.
  intros Hb Ha. revert Hb. destruct Ha; unfold is_in in *; intros Hb; merge_reads; naive_solver.
Qed.
End exact.

(** C9.  The membership checks decide the transition relation: an
    [m.room.member] event passes exactly when its target is a valid user id (of
    the creator's server, in a room that does not federate), its membership is
    known in the room version, and the relation [member_allowed] permits the
    change in the current state; every malformed read makes it fail. *)
Theorem check_room_member_exact `{Ruma} (rules : AuthorizationRules) (create : Pdu)
    (fetch_state : FetchState) (event : Pdu) :
  check_room_member event rules create fetch_state = Ok tt ↔
  ∃ u m federated,
    pdu_state_key event = Some u ∧ user_id_valid u = true
    ∧ federate create = Ok federated
    ∧ (federated = false → user_server_name u = user_server_name (pdu_sender create))
    ∧ membership event = Ok m ∧ (m = MKnock → knocking rules = true)
    ∧ member_allowed rules create fetch_state event u m.
Proof. apply member_exact. Qed.

(** A ban holds.  While a user is banned, no event can make them knock or
    be invited, the only join that passes is the room creator's first one, and
    the ban is lifted only by a joined sender of higher rank who has both the
    ban and the kick level. *)
Theorem ban_holds `{Ruma} (rules : AuthorizationRules) (create : Pdu)
    (fetch_state : FetchState) (event : Pdu) (u : string) (m : MembershipState) :
  pdu_state_key event = Some u → user_membership fetch_state u = Ok MBan →
  membership event = Ok m →
  check_room_member event rules create fetch_state = Ok tt →
  match m with
  | MJoin => creator create rules = Ok u ∧ pdu_prev_events event = [pdu_event_id create]
  | MLeave => pdu_sender event ≠ u ∧ user_membership fetch_state (pdu_sender event) = Ok MJoin
              ∧ has_power rules create fetch_state (pdu_sender event) Ban
              ∧ has_power rules create fetch_state (pdu_sender event) Kick
              ∧ outranks rules create fetch_state (pdu_sender event) u
  | MBan => has_power rules create fetch_state (pdu_sender event) Ban
            ∧ outranks rules create fetch_state (pdu_sender event) u
  | _ => False
  end.
Proof.
  intros Hk Hb Hm (u' & m' & _ & Hk' & _ & _ & _ & Hm' & _ & Ha)%member_exact.
  assert (u' = u) as -> by congruence. assert (m' = m) as -> by congruence.
  by apply banned_transitions in Ha.
Qed.

Module BanExample.
Import ToyRuma.
Definition banned : FetchState :=
  state_of [create; levels; member "$a" "@ann:a" "@ann:a" "join"; member "$m" "@mod:a" "@mod:a" "join";
            member "$b" "@ann:a" "@bob:a" "ban"].
Definition unban (sender : string) : Pdu := member "$u" sender "@bob:a" "leave".
End BanExample.

#[local] Existing Instance ToyRuma.toy_ruma.

Lemma ban_holds_witness :
  check_room_member (BanExample.unban "@ann:a") ToyRuma.v11 ToyRuma.create BanExample.banned = Ok tt
  ∧ has_power ToyRuma.v11 ToyRuma.create BanExample.banned "@ann:a" Ban
  ∧ check_room_member (BanExample.unban "@mod:a") ToyRuma.v11 ToyRuma.create BanExample.banned
    = Err (ErrMsg "sender does not have enough power to unban").
Proof.
  split_and!; [by vm_compute| |by vm_compute].
  apply (ban_holds ToyRuma.v11 ToyRuma.create BanExample.banned (BanExample.unban "@ann:a")
           "@bob:a" MLeave); by vm_compute.
Defined.
