(* ===== verification/RoomAuth.v ===== *)
(** * Event authorisation of the production server
    ([src/src/service/rooms/state_res/event_auth.rs],
    [event_auth/auth_types.rs])

    The selection of auth events, the state-independent and the
    state-dependent rules, and their combination.  The two checks run
    concurrently in the source; their reads are immediate here, so the
    state-independent check, polled first, reports first. *)

From S2P Require Import Prelude Bytes Core Json RoomEvents RoomMember.

Local Set Warnings "-register-all".

(** The capacity of [AuthTypes]; pushing beyond it panics. *)
Definition MAX_AUTH_EVENTS : nat := 10.

Section auth.
Context `{Ruma}.
Implicit Types (rules : AuthorizationRules).

(** ** [auth_types.rs] *)

Definition push_new (auth_types : list TypeStateKey) (key : TypeStateKey) : list TypeStateKey :=
  if decide (key ∈ auth_types) then auth_types else auth_types ++ [key].

Definition auth_types_for_member_event (auth_types : list TypeStateKey)
    (state_key : option string) (content : Value) rules : Result Error (list TypeStateKey) :=
  match state_key with
  | None => Err (ErrMsg "missing `state_key` field for `m.room.member` event")
  | Some state_key =>
      let auth_types := push_new auth_types (ROOM_MEMBER, state_key) in
      let? m := content_membership content in
      let auth_types :=
        if decide (m = MJoin ∨ m = MInvite ∨ m = MKnock)
        then push_new auth_types (ROOM_JOIN_RULES, "") else auth_types in
      let? auth_types :=
        if decide (m = MInvite) then
          let? tpi := content_third_party_invite content in
          match tpi with
          | Some tpi =>
              let? token := tpi_token tpi in
              Ok (push_new auth_types (ROOM_THIRD_PARTY_INVITE, token))
          | None => Ok auth_types
          end
        else Ok auth_types in
      if bool_decide (m = MJoin) && restricted_join_rule rules then
        let? via := content_join_authorised_via_users_server content in
        match via with
        | Some user_id => Ok (push_new auth_types (ROOM_MEMBER, user_id))
        | None => Ok auth_types
        end
      else Ok auth_types
  end.

(** The entries of every event but the create event. *)
Definition base_auth_types (event_type sender : string) rules (always_create : bool) :
    list TypeStateKey :=
  if decide (event_type ≠ ROOM_CREATE) then
    (if negb (room_create_event_id_as_room_id rules) || always_create
     then [(ROOM_CREATE, "")] else [])
    ++ [(ROOM_POWER_LEVELS, ""); (ROOM_MEMBER, sender)]
  else [].

Definition auth_types_for_event (event_type sender : string) (state_key : option string)
    (content : Value) rules (always_create : bool) : Result Error (list TypeStateKey) :=
  let auth_types := base_auth_types event_type sender rules always_create in
  if decide (event_type = ROOM_MEMBER)
  then auth_types_for_member_event auth_types state_key content rules
  else Ok auth_types.

(** ** [event_auth.rs] *)

Definition check_room_create (event : Pdu) rules : Result Error unit :=
  if decide (pdu_prev_events event ≠ []) then
    Err (ErrMsg "`m.room.create` event cannot have previous events")
  else
  let? _ :=
    if room_create_event_id_as_room_id rules then
      match room_as_event_id (pdu_room_id event) with
      | None => Err (Request InvalidParam
                  "Failed to create `event_id` out of `m.room.create` synthetic `room_id`")
      | Some id =>
          if decide (id ≠ pdu_event_id event) then
            Err (Request InvalidParam
                   "`m.room.create` has mismatching synthetic `room_id` and `event_id`")
          else Ok tt
      end
    else
      match room_server_name (pdu_room_id event) with
      | None => Err (ErrMsg "Invalid `ServerName` for `room_id` in `m.room.create` event")
      | Some name =>
          if decide (name ≠ user_server_name (pdu_sender event)) then
            Err (ErrMsg "Mismatched `ServerName` for `room_id` in `m.room.create` with `sender`")
          else Ok tt
      end in
  if use_room_create_sender rules then Ok tt
  else
  let? has := has_creator event in
  if negb has then Err (ErrMsg "missing `creator` field in `m.room.create` event") else Ok tt.

(** One step of the fold over the auth events. *)
Definition check_auth_event (event : Pdu) (expected seen : list TypeStateKey) (auth_event : Pdu) :
    Result Error (list TypeStateKey) :=
  if decide (pdu_room_id auth_event ≠ pdu_room_id event) then
    Err (ErrMsg "auth event not in the same room")
  else match pdu_state_key auth_event with
  | None => Err (ErrMsg "auth event has no `state_key`")
  | Some state_key =>
      let key := (pdu_kind auth_event, state_key) in
      if decide (key ∈ seen) then Err (ErrMsg "duplicate auth event")
      else if decide (key ∉ expected) then Err (ErrMsg "unexpected auth event")
      else if pdu_rejected auth_event then Err (ErrMsg "rejected auth event")
      else Ok (seen ++ [key])
  end.

Definition fetch_auth_event (fetch_event : FetchEvent) (id : string) : Result Error Pdu :=
  match fetch_event id with
  | Ok e => Ok e
  | Err e => if is_not_found e then Err (Request NotFound "auth event not found") else Err e
  end.

Fixpoint check_auth_events (event : Pdu) (fetch_event : FetchEvent) (expected : list TypeStateKey)
    (seen : list TypeStateKey) (ids : list string) : Result Error (list TypeStateKey) :=
  match ids with
  | [] => Ok seen
  | id :: ids' =>
      let? auth_event := fetch_auth_event fetch_event id in
      let? seen' := check_auth_event event expected seen auth_event in
      check_auth_events event fetch_event expected seen' ids'
  end.

Definition check_state_independent_auth_rules (rules : RoomVersionRules) (event : Pdu)
    (fetch_event : FetchEvent) : Result Error unit :=
  let auth := authorization rules in
  if decide (pdu_kind event = ROOM_CREATE) then check_room_create event auth
  else
  let? expected := auth_types_for_event (pdu_kind event) (pdu_sender event) (pdu_state_key event)
                     (pdu_content event) auth false in
  let? seen := check_auth_events event fetch_event expected [] (pdu_auth_events event) in
  if negb (room_create_event_id_as_room_id auth)
     && negb (existsb (λ key : TypeStateKey, bool_decide (key.1 = ROOM_CREATE)) seen) then
    Err (ErrMsg "no `m.room.create` event in auth events")
  else if room_create_event_id_as_room_id auth then
    match room_as_event_id (pdu_room_id event) with
    | None => Err (Request InvalidParam
                "could not construct `m.room.create` event ID from room ID")
    | Some id =>
        match fetch_event id with
        | Err _ => Err (Request NotFound "failed to find `m.room.create` event")
        | Ok create => if pdu_rejected create then Err (ErrMsg "rejected `m.room.create` event")
                       else Ok tt
        end
    end
  else Ok tt.

(** The verdict of [check_power_level_maps] on one key: an unchanged entry
    passes. *)
Definition level_change_rejected (sender_power_level : UserPowerLevel) (reject : Z → bool)
    (current_power_level new_power_level : option Z) : bool :=
  if decide (current_power_level = new_power_level) then false
  else
  let current_power_level_change_rejected :=
    match current_power_level with Some z => reject z | None => false end in
  let new_power_level_too_big :=
    match new_power_level with Some z => upl_ltb sender_power_level (Level z) | None => false end in
  current_power_level_change_rejected || new_power_level_too_big.

Definition level_in (m : option (list (string * Z))) (key : string) : option Z :=
  m ≫= λ l, get_value l key.

(** The loop over the keys of both maps. *)
Fixpoint check_level_keys (current new : option (list (string * Z)))
    (sender_power_level : UserPowerLevel) (reject : string → Z → bool) (keys : list string) :
    Result Error unit :=
  match keys with
  | [] => Ok tt
  | key :: keys' =>
      if level_change_rejected sender_power_level (reject key) (level_in current key)
           (level_in new key)
      then Err (ErrMsg "sender does not have enough power to change a power level")
      else check_level_keys current new sender_power_level reject keys'
  end.

Definition check_power_level_maps (current new : option (list (string * Z)))
    (sender_power_level : UserPowerLevel) (reject : string → Z → bool) : Result Error unit :=
  check_level_keys current new sender_power_level reject
    ((default [] current).*1 ++ (default [] new).*1).

(** The verdict on one integer field, and the loop over the fields. *)
Definition int_change_rejected (sender_power_level : UserPowerLevel) (field : RoomPowerLevelsIntField)
    (current_power_level new_power_level : option Z) : bool :=
  if decide (current_power_level = new_power_level) then false
  else upl_ltb sender_power_level (Level (default (default_value field) current_power_level))
       || upl_ltb sender_power_level (Level (default (default_value field) new_power_level)).

Fixpoint check_int_fields (current : Pdu) (new_int_fields : list (string * Z)) rules
    (sender_power_level : UserPowerLevel) (fields : list RoomPowerLevelsIntField) :
    Result Error unit :=
  match fields with
  | [] => Ok tt
  | field :: fields' =>
      let? current_power_level := get_as_int current field rules in
      if int_change_rejected sender_power_level field current_power_level
           (get_value new_int_fields (int_field_as_str field))
      then Err (ErrMsg "sender does not have enough power to change the power level of a field")
      else check_int_fields current new_int_fields rules sender_power_level fields'
  end.

Definition check_room_power_levels (event : Pdu) (current : option Pdu) rules
    (sender_power_level : UserPowerLevel) (room_creators : list string) : Result Error unit :=
  let? new_int_fields := int_fields_map event rules in
  let? new_events := pl_events event rules in
  let? new_notifications := pl_notifications event rules in
  let? new_users := pl_users event rules in
  if explicitly_privilege_room_creators rules
     && match new_users with
        | Some users => existsb (contains_key users) room_creators
        | None => false
        end then
    Err (Request InvalidParam "creator user IDs are not allowed in the `users` field")
  else match current with
  | None => Ok tt
  | Some current =>
      let? _ := check_int_fields current new_int_fields rules sender_power_level int_field_ALL in
      let? current_events := pl_events current rules in
      let? _ := check_power_level_maps current_events new_events sender_power_level
                  (λ _ z, upl_ltb sender_power_level (Level z)) in
      let? _ :=
        if limit_notifications_power_levels rules then
          let? current_notifications := pl_notifications current rules in
          check_power_level_maps current_notifications new_notifications sender_power_level
            (λ _ z, upl_ltb sender_power_level (Level z))
        else Ok tt in
      let? current_users := pl_users current rules in
      check_power_level_maps current_users new_users sender_power_level
        (λ user_id z, bool_decide (user_id ≠ pdu_sender event)
                      && negb (upl_ltb (Level z) sender_power_level))
  end.

Definition check_room_redaction (event : Pdu) (current : option Pdu) rules
    (sender_level : UserPowerLevel) : Result Error unit :=
  let? redact_level := opt_get_as_int_or_default current Redact rules in
  if negb (upl_ltb sender_level (Level redact_level)) then Ok tt
  else if decide (event_server_name (pdu_event_id event) = (pdu_redacts event ≫= event_server_name))
  then Ok tt
  else Err (ErrMsg "`m.room.redaction` event did not pass any of the allow rules").

Definition check_state_dependent_auth_rules (rules : RoomVersionRules) (event : Pdu)
    (fetch_state : FetchState) : Result Error unit :=
  let auth := authorization rules in
  if decide (pdu_kind event = ROOM_CREATE) then Ok tt
  else
  let sender := pdu_sender event in
  let levels := room_power_levels_event fetch_state in
  let? create := room_create_event fetch_state in
  let? federated := federate create in
  if negb federated
     && bool_decide (user_server_name (pdu_sender create) ≠ user_server_name sender) then
    Err (ErrMsg "room is not federated and event's sender domain does not match")
  else if special_case_room_aliases auth && bool_decide (pdu_kind event = ROOM_ALIASES) then
    if decide (pdu_state_key event ≠ Some (user_server_name sender)) then
      Err (ErrMsg "server name of the `state_key` of `m.room.aliases` event does not match")
    else Ok tt
  else if decide (pdu_kind event = ROOM_MEMBER) then check_room_member event auth create fetch_state
  else
  let? sender_membership := user_membership fetch_state sender in
  if decide (sender_membership ≠ MJoin) then Err (ErrMsg "sender's membership is not `join`")
  else
  let? room_creators := creators create auth in
  let? sender_power_level := opt_user_power_level levels sender room_creators auth in
  if decide (pdu_kind event = ROOM_THIRD_PARTY_INVITE) then
    let? invite_power_level := opt_get_as_int_or_default levels InviteField auth in
    if upl_ltb sender_power_level (Level invite_power_level) then
      Err (ErrMsg "sender does not have enough power to send invites in this room")
    else Ok tt
  else
  let? event_type_power_level :=
    opt_event_power_level levels (pdu_kind event) (pdu_state_key event) auth in
  if upl_ltb sender_power_level (Level event_type_power_level) then
    Err (ErrMsg "sender does not have enough power for event type")
  else if match pdu_state_key event with Some k => String.prefix "@" k | None => false end
          && bool_decide (pdu_state_key event ≠ Some sender) then
    Err (ErrMsg "sender cannot send event with `state_key` matching another user's ID")
  else if decide (pdu_kind event = ROOM_POWER_LEVELS) then
    check_room_power_levels event levels auth sender_power_level room_creators
  else if special_case_room_redaction auth && bool_decide (pdu_kind event = ROOM_REDACTION) then
    check_room_redaction event levels auth sender_power_level
  else Ok tt.

Definition auth_check (rules : RoomVersionRules) (event : Pdu) (fetch_event : FetchEvent)
    (fetch_state : FetchState) : Result Error unit :=
  let wrap e := match e with Request InvalidParam _ => e | _ => AuthCheck e end in
  match check_state_independent_auth_rules rules event fetch_event with
  | Err e => Err (wrap e)
  | Ok _ =>
      match check_state_dependent_auth_rules rules event fetch_state with
      | Err e => Err (wrap e)
      | Ok _ => Ok tt
      end
  end.

(** ** Auth event selection *)

Lemma push_new_length l k : (length (push_new l k) <= S (length l))%nat.
Proof. unfold push_new. case_decide; [lia|]. rewrite length_app. simpl. lia. Qed.

Lemma push_new_NoDup l k : NoDup l → NoDup (push_new l k).
Proof.
  unfold push_new. case_decide as Hk; [done|]. intros Hl. apply NoDup_app. split_and!; [done| |].
  - intros x Hx ->%list_elem_of_singleton. done.
  - apply NoDup_singleton.
Qed.

Lemma elem_of_push_new l k x : x ∈ push_new l k ↔ x ∈ l ∨ x = k.
Proof.
  unfold push_new. case_decide; [naive_solver|]. by rewrite elem_of_app, list_elem_of_singleton.
Qed.

(** The entries a member event adds. *)
Definition member_auth_type (state_key : string) (content : Value) rules (k : TypeStateKey) : Prop :=
  k = (ROOM_MEMBER, state_key)
  ∨ ∃ m, content_membership content = Ok m ∧
      ( (k = (ROOM_JOIN_RULES, "") ∧ (m = MJoin ∨ m = MInvite ∨ m = MKnock))
      ∨ (m = MInvite ∧ ∃ tpi token, content_third_party_invite content = Ok (Some tpi)
                         ∧ tpi_token tpi = Ok token ∧ k = (ROOM_THIRD_PARTY_INVITE, token))
      ∨ (m = MJoin ∧ restricted_join_rule rules = true
         ∧ ∃ u, content_join_authorised_via_users_server content = Ok (Some u)
                ∧ k = (ROOM_MEMBER, u))).
End auth.
Section select.
Context `{Ruma}.
Implicit Types (rules : AuthorizationRules).

Lemma foldl_push_new l ks :
  NoDup l →
  NoDup (foldl push_new l ks) ∧ (length (foldl push_new l ks) <= length l + length ks)%nat
  ∧ ∀ k, k ∈ foldl push_new l ks ↔ k ∈ l ∨ k ∈ ks.
Proof.
  revert l. induction ks as [|k' ks IH]; intros l Hl; simpl.
  - split_and!; [done|lia|]. intros k. rewrite elem_of_nil. tauto.
  - destruct (IH (push_new l k')) as (? & ? & Hin); [by apply push_new_NoDup|].
    pose proof (push_new_length l k'). split_and!; [done|lia|].
    intros k. rewrite Hin, elem_of_push_new, elem_of_cons. tauto.
Qed.

Lemma member_auth_types_fold l sk content rules l' :
  auth_types_for_member_event l (Some sk) content rules = Ok l' →
  ∃ ks, l' = foldl push_new l ks ∧ (length ks <= 3)%nat
        ∧ ∀ k, k ∈ ks ↔ member_auth_type sk content rules k.
Proof.
  unfold auth_types_for_member_event, member_auth_type. cbv zeta.
  destruct (content_membership content) as [m|] eqn:Em; [|done].
  destruct m; simpl; intros Hc; repeat case_match; simplify_eq.
  all: first [eexists [_]; split; [reflexivity|] | eexists [_; _]; split; [reflexivity|]
             | eexists [_; _; _]; split; [reflexivity|]].
  all: split; [simpl; lia|]; intros k; rewrite ?elem_of_cons, elem_of_nil.
  all: clear l; try naive_solver.
  split; [naive_solver|].
  intros [?|(m & [= <-] & [?|[(_ & tpi & token & [= <-] & Ht & ->)|?]])];
    [naive_solver..| |naive_solver]. assert (token = val1) by congruence. naive_solver.
Qed.

(** The entries every event but the create event selects. *)
Definition base_auth_type (event_type sender : string) rules (always : bool) (k : TypeStateKey) : Prop :=
  event_type ≠ ROOM_CREATE
  ∧ ((k = (ROOM_CREATE, "") ∧ (room_create_event_id_as_room_id rules = false ∨ always = true))
     ∨ k = (ROOM_POWER_LEVELS, "") ∨ k = (ROOM_MEMBER, sender)).

Lemma base_auth_types_spec event_type sender rules always :
  NoDup (base_auth_types event_type sender rules always)
  ∧ (length (base_auth_types event_type sender rules always) <= 3)%nat
  ∧ ∀ k, k ∈ base_auth_types event_type sender rules always ↔
         base_auth_type event_type sender rules always k.
Proof.
  unfold base_auth_types, base_auth_type. case_decide.
  - destruct (room_create_event_id_as_room_id rules), always; simpl.
    all: split_and!; [rewrite !NoDup_cons, ?elem_of_cons, !elem_of_nil; split_and!;
           try apply NoDup_nil_2; unfold ROOM_CREATE, ROOM_POWER_LEVELS, ROOM_MEMBER; 
           intuition congruence|lia|].
    all: intros k; rewrite !elem_of_cons, elem_of_nil; intuition congruence.
  - split_and!; [constructor|simpl; lia|]. intros k. rewrite elem_of_nil. tauto.
Qed.

Lemma auth_types_spec event_type sender sk content rules always l :
  auth_types_for_event event_type sender sk content rules always = Ok l →
  NoDup l ∧ (length l <= 6)%nat
  ∧ ∀ k, k ∈ l ↔ base_auth_type event_type sender rules always k
                 ∨ (event_type = ROOM_MEMBER ∧ ∃ s, sk = Some s ∧ member_auth_type s content rules k).
Proof.
  unfold auth_types_for_event. intros Hc.
  destruct (base_auth_types_spec event_type sender rules always) as (Hn & Hlen & Hin).
  case_decide as Hm.
  - destruct sk as [s|]; [|done].
    apply member_auth_types_fold in Hc as (ks & -> & ? & Hks).
    destruct (foldl_push_new _ ks Hn) as (? & ? & Hf). split_and!; [done|lia|].
    intros k. rewrite Hf, Hin, Hks. naive_solver.
  - simplify_eq. split_and!; [done|lia|]. intros k. rewrite Hin. tauto.
Qed.
End select.

(** ** The state-independent rules *)

Section independent.
Context `{Ruma}.
Implicit Types (event : Pdu) (fetch_event : FetchEvent) (seen keys : list TypeStateKey).

Definition auth_key_of (e : Pdu) (k : TypeStateKey) : Prop :=
  pdu_kind e = k.1 ∧ pdu_state_key e = Some k.2.

(** [evs] are acceptable auth events of [event], for the slots [keys]. *)
Definition acceptable_auth_events event (evs : list Pdu) (expected keys : list TypeStateKey) : Prop :=
  Forall2 auth_key_of evs keys
  ∧ Forall (λ e, pdu_room_id e = pdu_room_id event ∧ pdu_rejected e = false) evs
  ∧ NoDup keys ∧ (∀ k, k ∈ keys → k ∈ expected).

Lemma check_auth_event_spec event expected seen e seen' :
  check_auth_event event expected seen e = Ok seen' ↔
  ∃ k, auth_key_of e k ∧ pdu_room_id e = pdu_room_id event ∧ pdu_rejected e = false
       ∧ (k ∉ seen) ∧ k ∈ expected ∧ seen' = seen ++ [k].
Proof.
  unfold check_auth_event, auth_key_of. split.
  - intros Hc. crack Hc. simplify_eq. eexists (_, _); split_and!; try done.
    by apply dec_stable.
  - intros ([ty sk] & [? Hk] & ? & Hr & ? & ? & ->). simplify_eq/=.
    rewrite decide_False by naive_solver. rewrite Hk, decide_False by done.
    rewrite decide_False by naive_solver. by rewrite Hr.
Qed.

Lemma fetch_auth_event_ok fetch_event id e :
  fetch_auth_event fetch_event id = Ok e ↔ fetch_event id = Ok e.
Proof.
  unfold fetch_auth_event. destruct (fetch_event id) as [e'|err]; [done|]. by destruct (is_not_found err).
Qed.

Lemma check_auth_events_spec event fetch_event expected seen ids seen' :
  check_auth_events event fetch_event expected seen ids = Ok seen' ↔
  ∃ evs keys, Forall2 (λ id e, fetch_event id = Ok e) ids evs
    ∧ acceptable_auth_events event evs expected keys
    ∧ (∀ k, k ∈ keys → k ∉ seen) ∧ seen' = seen ++ keys.
Proof.
  unfold acceptable_auth_events. revert seen.
  induction ids as [|id ids IH]; intros seen; simpl.
  { split.
    - intros [= ->]. exists [], []. rewrite app_nil_r. split_and!; try constructor; set_solver.
    - intros (evs & keys & ->%Forall2_nil_inv_l & (->%Forall2_nil_inv_l & _) & _ & ->).
      by rewrite app_nil_r. }
  split; [intros Hc|].
  - crack Hc. rename val into e, val0 into seen1.
    rewrite fetch_auth_event_ok in Heqr. apply check_auth_event_spec in Heqr0
      as (k & Hk & Hroom & Hrej & Hseen & Hexp & ->).
    apply IH in Hc as (evs & keys & Hf & (Hkeys & Hall & Hnd & Hin) & Hfresh & ->).
    exists (e :: evs), (k :: keys). rewrite <-app_assoc. split_and!; try done.
    + by constructor.
    + by constructor.
    + by constructor.
    + apply NoDup_cons. set_solver.
    + set_solver.
    + set_solver.
  - intros (evs & keys & Hf & (Hkeys & Hall & Hnd & Hin) & Hfresh & ->).
    destruct evs as [|e evs]; [by inversion Hf|]. destruct keys as [|k keys]; [by inversion Hkeys|].
    apply Forall2_cons in Hf as [He Hf], Hkeys as [Hk Hkeys].
    apply Forall_cons in Hall as [[Hroom Hrej] Hall]. apply NoDup_cons in Hnd as [Hk' Hnd].
    rewrite (proj2 (fetch_auth_event_ok _ _ _) He).
    rewrite (proj2 (check_auth_event_spec event expected seen e (seen ++ [k]))) by
      (exists k; split_and!; try done; set_solver).
    apply IH. exists evs, keys. rewrite <-app_assoc. split_and!; try done; set_solver.
Qed.

Lemma has_create_spec keys :
  existsb (λ key : TypeStateKey, bool_decide (key.1 = ROOM_CREATE)) keys = true ↔
  ∃ k, k ∈ keys ∧ k.1 = ROOM_CREATE.
Proof.
  rewrite existsb_exists. by setoid_rewrite bool_decide_eq_true; setoid_rewrite <-list_elem_of_In.
Qed.
End independent.

(** ** Changes of power levels *)

Section levels.
Context `{Ruma}.
Implicit Types (rules : AuthorizationRules) (p : UserPowerLevel).

(** What a sender of level [p] may do to an entry of a level map. *)
Definition change_allowed p (reject : Z → bool) (old new : option Z) : Prop :=
  old = new ∨ ((∀ z, old = Some z → reject z = false) ∧ (∀ z, new = Some z → upl_le (Level z) p)).

Lemma level_change_rejected_spec p reject old new :
  level_change_rejected p reject old new = false ↔ change_allowed p reject old new.
Proof.
  unfold level_change_rejected, change_allowed, upl_le. case_decide; [tauto|].
  rewrite orb_false_iff. destruct old, new; naive_solver.
Qed.

Lemma check_level_keys_spec cur new p reject keys :
  check_level_keys cur new p reject keys = Ok tt ↔
  ∀ k, k ∈ keys → change_allowed p (reject k) (level_in cur k) (level_in new k).
Proof.
  setoid_rewrite <-level_change_rejected_spec. induction keys as [|k keys IH]; simpl.
  { split; [set_solver|done]. }
  destruct (level_change_rejected _ _ _ _) eqn:E.
  - split; [done|]. intros Hall. rewrite Hall in E by (by left). done.
  - rewrite IH. setoid_rewrite elem_of_cons. naive_solver.
Qed.

Lemma level_in_None m k : k ∉ (default [] m).*1 → level_in m k = None.
Proof. destruct m as [l|]; [|done]. simpl. apply get_value_None. Qed.

Lemma check_power_level_maps_spec cur new p reject :
  check_power_level_maps cur new p reject = Ok tt ↔
  ∀ k, change_allowed p (reject k) (level_in cur k) (level_in new k).
Proof.
  unfold check_power_level_maps. rewrite check_level_keys_spec. split; [|by eauto].
  intros Hall k. destruct (decide (k ∈ (default [] cur).*1 ++ (default [] new).*1)) as [Hk|Hk]; [by apply Hall|].
  rewrite elem_of_app in Hk. left. rewrite !level_in_None; tauto.
Qed.

Lemma int_change_rejected_spec p f old new :
  int_change_rejected p f old new = false ↔
  old = new ∨ (upl_le (Level (default (default_value f) old)) p
               ∧ upl_le (Level (default (default_value f) new)) p).
Proof. unfold int_change_rejected, upl_le. case_decide; [tauto|]. rewrite orb_false_iff. tauto. Qed.

Lemma get_value_cons {V} k (v : V) l k' :
  get_value ((k, v) :: l) k' = if decide (k = k') then Some v else get_value l k'.
Proof.
  unfold get_value, position. cbn [list_find fst]. case_decide; [done|].
  by destruct (list_find _ l) as [[i kv]|].
Qed.

#[local] Instance int_field_as_str_inj : Inj (=) (=) int_field_as_str.
Proof. intros [] []; done. Qed.

Lemma collect_int_fields_get e rules fs l f :
  collect_int_fields e rules fs = Ok l →
  (f ∈ fs → get_as_int e f rules = Ok (get_value l (int_field_as_str f)))
  ∧ (f ∉ fs → get_value l (int_field_as_str f) = None).
Proof.
  revert l. induction fs as [|f' fs IH]; intros l; simpl; [naive_solver set_solver|].
  destruct (get_as_int e f' rules) as [v|] eqn:Ev; [|done].
  destruct (collect_int_fields e rules fs) as [rest|] eqn:Er; [|done].
  intros [= <-]. destruct (IH rest eq_refl) as [IH1 IH2]. rewrite elem_of_cons.
  destruct v as [z|]; [rewrite get_value_cons; case_decide as Hf|].
  - apply (inj int_field_as_str) in Hf as ->. naive_solver.
  - assert (f ≠ f') by congruence. tauto.
  - split; [|tauto]. intros [->|Hin]; [|by apply IH1].
    destruct (decide (f' ∈ fs)); [by apply IH1|]. by rewrite IH2.
Qed.

Lemma elem_of_int_field_ALL f : f ∈ int_field_ALL.
Proof. destruct f; set_solver. Qed.

Lemma int_fields_map_get e rules l f :
  int_fields_map e rules = Ok l → get_as_int e f rules = Ok (get_value l (int_field_as_str f)).
Proof. intros Hl. eapply collect_int_fields_get; [exact Hl|]. apply elem_of_int_field_ALL. Qed.

Lemma check_int_fields_spec cur l rules p fs :
  check_int_fields cur l rules p fs = Ok tt →
  ∀ f old, f ∈ fs → get_as_int cur f rules = Ok old →
    int_change_rejected p f old (get_value l (int_field_as_str f)) = false.
Proof.
  induction fs as [|f' fs IH]; simpl; [set_solver|]. intros Hc f old. crack Hc.
  rewrite elem_of_cons. intros [->|Hin]; [|by apply IH]. congruence.
Qed.
End levels.

Section changes.
Context `{Ruma}.
Variables (rules : AuthorizationRules) (event cur : Pdu) (p : UserPowerLevel).

(** Every integer field the event changes, or adds or removes against its
    default, is within the sender's level before and after. *)
Definition fields_within : Prop := ∀ f old new,
  get_as_int cur f rules = Ok old → get_as_int event f rules = Ok new → old ≠ new →
  upl_le (Level (default (default_value f) old)) p ∧ upl_le (Level (default (default_value f) new)) p.

(** So is every entry of the events map it changes. *)
Definition events_within : Prop := ∀ old new ty,
  pl_events cur rules = Ok old → pl_events event rules = Ok new →
  level_in old ty ≠ level_in new ty → ∀ z,
  level_in old ty = Some z ∨ level_in new ty = Some z → upl_le (Level z) p.

(** And of the users map, where the other users it affects were strictly below
    the sender. *)
Definition users_within : Prop := ∀ old new u,
  pl_users cur rules = Ok old → pl_users event rules = Ok new →
  level_in old u ≠ level_in new u →
  (∀ z, level_in new u = Some z → upl_le (Level z) p)
  ∧ (∀ z, level_in old u = Some z → u ≠ pdu_sender event → upl_ltb (Level z) p = true).

Lemma power_levels_checked cs :
  check_room_power_levels event (Some cur) rules p cs = Ok tt →
  fields_within ∧ events_within ∧ users_within
  ∧ (explicitly_privilege_room_creators rules = true →
     ∀ users u, pl_users event rules = Ok (Some users) → u ∈ cs → u ∉ users.*1).
Proof.
  unfold check_room_power_levels. intros Hc. crack Hc.
  destruct val3, val5. rewrite check_power_level_maps_spec in Heqr5.
  rewrite check_power_level_maps_spec in Hc. split_and!.
  - intros f old new Ho Hn Hne. rewrite (int_fields_map_get _ _ _ f Heqr) in Hn. simplify_eq.
    pose proof (check_int_fields_spec _ _ _ _ _ Heqr3 f old (elem_of_int_field_ALL f) Ho) as Hf.
    apply int_change_rejected_spec in Hf. naive_solver.
  - intros old new ty Ho Hn Hne z Hz. merge_reads.
    destruct (Heqr5 ty) as [|[Hold Hnew]]; [congruence|]. destruct Hz as [Hz|Hz]; [exact (Hold z Hz)|exact (Hnew z Hz)].
  - intros old new u Ho Hn Hne. merge_reads.
    destruct (Hc u) as [|[Hold Hnew]]; [congruence|].
    split; [done|]. intros z Hz Hu. specialize (Hold z Hz).
    rewrite bool_decide_eq_true_2 in Hold by done. by apply negb_false_iff in Hold.
  - intros Hp users u [= ->] Hu Hin. destruct Heqb as [?|Hex]; [congruence|].
    apply not_true_iff_false in Hex. apply Hex, existsb_exists. exists u.
    split; [by apply list_elem_of_In|]. apply bool_decide_eq_true.
    unfold position. destruct (list_find _ users) as [[i kv]|] eqn:Ef; [done|].
    apply list_find_None in Ef. rewrite Forall_forall in Ef.
    apply list_elem_of_fmap in Hin as (kv & -> & Hin). by destruct (Ef kv Hin).
Qed.
End changes.

(** C24.  Power cannot be escalated.  An [m.room.power_levels] event that the
    state-dependent rules accept, in a room that already has one, comes from a
    joined sender; every integer field and every entry of the events and users
    maps it adds, changes or removes stays within the sender's own level, and
    every other user it affects was strictly below the sender. *)
Theorem power_change_bounded `{Ruma} (rules : RoomVersionRules) (event cur : Pdu)
    (fetch_state : FetchState) :
  pdu_kind event = ROOM_POWER_LEVELS →
  room_power_levels_event fetch_state = Some cur →
  check_state_dependent_auth_rules rules event fetch_state = Ok tt →
  ∃ create p,
    room_create_event fetch_state = Ok create
    ∧ user_membership fetch_state (pdu_sender event) = Ok MJoin
    ∧ holds_level (authorization rules) create fetch_state (pdu_sender event) p
    ∧ fields_within (authorization rules) event cur p
    ∧ events_within (authorization rules) event cur p
    ∧ users_within (authorization rules) event cur p.
Proof.
  intros Hk Hcur. unfold check_state_dependent_auth_rules. rewrite Hk, Hcur.
  intros Hc. crack Hc; try done.
  - destruct Heqb0 as [_ ?]; done.
  - apply power_levels_checked in Hc as (? & ? & ? & _). do 2 eexists. split_and!; [done..| |done|done|done].
    eexists. by rewrite Hcur.
Qed.

(** The state-independent rules accept an event other than the create
    event exactly when each of its auth events is known, belongs to the same
    room, was not rejected and fills a slot that the selection algorithm
    expects, no slot twice, and the room's create event is accounted for: among
    the auth events, or through the room id in rooms named after it. *)
Theorem independent_rules_exact `{Ruma} (rules : RoomVersionRules) (event : Pdu)
    (fetch_event : FetchEvent) :
  pdu_kind event ≠ ROOM_CREATE →
  check_state_independent_auth_rules rules event fetch_event = Ok tt ↔
  ∃ expected evs keys,
    auth_types_for_event (pdu_kind event) (pdu_sender event) (pdu_state_key event)
      (pdu_content event) (authorization rules) false = Ok expected
    ∧ Forall2 (λ id e, fetch_event id = Ok e) (pdu_auth_events event) evs
    ∧ acceptable_auth_events event evs expected keys
    ∧ if room_create_event_id_as_room_id (authorization rules) then
        ∃ id create, room_as_event_id (pdu_room_id event) = Some id
                     ∧ fetch_event id = Ok create ∧ pdu_rejected create = false
      else ∃ k, k ∈ keys ∧ k.1 = ROOM_CREATE.
Proof.
  intros Hk. unfold check_state_independent_auth_rules. rewrite decide_False by done. split.
  - intros Hc. crack Hc; apply check_auth_events_spec in Heqr0 as (evs & keys & ? & ? & _ & ->).
    + exists val, evs, keys. split_and!; [done..|]. eauto.
    + destruct Heqb as [?|Hc']; [done|]. apply has_create_spec in Hc'.
      exists val, evs, keys. split_and!; done.
  - intros (expected & evs & keys & He & Hf & Ha & Hcreate). rewrite He.
    rewrite (proj2 (check_auth_events_spec event fetch_event expected [] _ keys)).
    2:{ exists evs, keys. split_and!; [done..| |done]. set_solver. }
    destruct (room_create_event_id_as_room_id (authorization rules)); simpl.
    + destruct Hcreate as (id & create & -> & -> & ->). done.
    + by rewrite (proj2 (has_create_spec keys) Hcreate).
Qed.

#[local] Existing Instance ToyRuma.toy_ruma.

Lemma independent_rules_exact_witness :
  let join := ToyRuma.member "$m" "@bob:a" "@bob:a" "join" in
  let fetch id := if decide (id = "$c") then Ok ToyRuma.create else Err (Request NotFound "missing") in
  check_state_independent_auth_rules (mkVersion ToyRuma.v11 None) join fetch = Ok tt
  ∧ ∃ keys, acceptable_auth_events join [ToyRuma.create] [(ROOM_CREATE, ""); (ROOM_POWER_LEVELS, "");
              (ROOM_MEMBER, "@bob:a"); (ROOM_JOIN_RULES, "")] keys.
Proof.
  intros join fetch. assert (Hok : check_state_independent_auth_rules (mkVersion ToyRuma.v11 None) join fetch = Ok tt)
    by (by vm_compute).
  split; [done|].
  apply (independent_rules_exact (mkVersion ToyRuma.v11 None) join fetch) in Hok
    as (expected & evs & keys & He & Hf & Ha & _); [|by vm_compute].
  assert (Ok (E := Error) expected = Ok [(ROOM_CREATE, ""); (ROOM_POWER_LEVELS, "");
            (ROOM_MEMBER, "@bob:a"); (ROOM_JOIN_RULES, "")]) as [= ->]
    by (rewrite <-He; by vm_compute).
  assert (evs = [ToyRuma.create]) as ->.
  { apply Forall2_cons_inv_l in Hf as (e & evs' & H1 & ->%Forall2_nil_inv_l & ->).
    change (Ok (E := Error) ToyRuma.create = Ok e) in H1. congruence. }
  by exists keys.
Defined.

Module LevelExample.
Import ToyRuma.
Definition room : FetchState :=
  state_of [create; levels; member "$a" "@ann:a" "@ann:a" "join"; member "$m" "@mod:a" "@mod:a" "join"].
(** The moderator makes [@bob:a] a moderator, or an administrator. *)
Definition promote (level : N) : Pdu := pdu "$q" ROOM_POWER_LEVELS "@mod:a" (Some "")
  [("users", obj [("@ann:a", json_u64 100); ("@mod:a", json_u64 50); ("@bob:a", json_u64 level)]);
   ("ban", json_u64 60)] ["$c"; "$p"; "$m"].
End LevelExample.

Lemma power_change_bounded_witness :
  check_state_dependent_auth_rules (mkVersion ToyRuma.v11 None) (LevelExample.promote 50)
    LevelExample.room = Ok tt
  ∧ check_state_dependent_auth_rules (mkVersion ToyRuma.v11 None) (LevelExample.promote 51)
    LevelExample.room = Err (ErrMsg "sender does not have enough power to change a power level")
  ∧ ∃ create p, holds_level ToyRuma.v11 create LevelExample.room "@mod:a" p
      ∧ users_within ToyRuma.v11 (LevelExample.promote 50) ToyRuma.levels p.
Proof.
  split_and!; [by vm_compute..|].
  destruct (power_change_bounded (mkVersion ToyRuma.v11 None) (LevelExample.promote 50)
              ToyRuma.levels LevelExample.room) as (create & p & _ & _ & Hp & _ & _ & Hu);
    [by vm_compute..|]. by exists create, p.
Defined.

(** The auth event selection never overflows its fixed-size vector: it
    yields at most six distinct slots, fewer than the ten the vector holds, and
    they are the ones the specification names for the event. *)
Theorem auth_types_bounded `{Ruma} (event_type sender : string) (state_key : option string)
    (content : Value) (rules : AuthorizationRules) (always_create : bool) (l : list TypeStateKey) :
  auth_types_for_event event_type sender state_key content rules always_create = Ok l →
  NoDup l ∧ (length l < MAX_AUTH_EVENTS)%nat
  ∧ ∀ k, k ∈ l ↔
      base_auth_type event_type sender rules always_create k
      ∨ (event_type = ROOM_MEMBER
         ∧ ∃ s, state_key = Some s ∧ member_auth_type s content rules k).
Proof.
  intros (? & Hlen & ?)%auth_types_spec. split_and!; [done| |done]. unfold MAX_AUTH_EVENTS. lia.
Qed.

Lemma auth_types_bounded_witness :
  auth_types_for_event ROOM_MEMBER "@bob:a" (Some "@bob:a")
    (obj [("membership", Str "join"); ("join_authorised_via_users_server", Str "@mod:a")])
    ToyRuma.v11 false
  = Ok [(ROOM_CREATE, ""); (ROOM_POWER_LEVELS, ""); (ROOM_MEMBER, "@bob:a"); (ROOM_JOIN_RULES, "");
        (ROOM_MEMBER, "@mod:a")]
  ∧ NoDup [(ROOM_CREATE, ""); (ROOM_POWER_LEVELS, ""); (ROOM_MEMBER, "@bob:a"); (ROOM_JOIN_RULES, "");
        (ROOM_MEMBER, "@mod:a")].
Proof.
  split; [by vm_compute|].
  apply (auth_types_bounded ROOM_MEMBER "@bob:a" (Some "@bob:a")
    (obj [("membership", Str "join"); ("join_authorised_via_users_server", Str "@mod:a")])
    ToyRuma.v11 false). by vm_compute.
Defined.


(** Only members with enough power speak.  Apart from the create event,
    membership changes and the aliases of early rooms, an accepted event comes
    from a joined sender (of the creator's server, where the room does not
    federate) whose level reaches what the event's type requires, and its state
    key names no other user. *)
Theorem send_requires_power `{Ruma} (rules : RoomVersionRules) (event : Pdu)
    (fetch_state : FetchState) :
  pdu_kind event ≠ ROOM_CREATE → pdu_kind event ≠ ROOM_MEMBER →
  pdu_kind event ≠ ROOM_ALIASES → pdu_kind event ≠ ROOM_THIRD_PARTY_INVITE →
  check_state_dependent_auth_rules rules event fetch_state = Ok tt →
  ∃ create p n,
    room_create_event fetch_state = Ok create
    ∧ (federate create = Ok false →
       user_server_name (pdu_sender event) = user_server_name (pdu_sender create))
    ∧ user_membership fetch_state (pdu_sender event) = Ok MJoin
    ∧ holds_level (authorization rules) create fetch_state (pdu_sender event) p
    ∧ opt_event_power_level (room_power_levels_event fetch_state) (pdu_kind event)
        (pdu_state_key event) (authorization rules) = Ok n
    ∧ upl_le (Level n) p
    ∧ (∀ k, pdu_state_key event = Some k → String.prefix "@" k = true → k = pdu_sender event).
Proof.
  intros Hc1 Hc2 Hc3 Hc4. unfold check_state_dependent_auth_rules.
  rewrite decide_False by done. intros Hc. cbv zeta in Hc.
  destruct (room_create_event fetch_state) as [create|] eqn:Ecreate; [|done].
  destruct (federate create) as [f|] eqn:Ef; [|done].
  destruct (negb f && _) eqn:Efed; [done|].
  destruct (special_case_room_aliases _ && _) eqn:Eal; [reflect_guards; naive_solver|].
  rewrite decide_False in Hc by done.
  destruct (user_membership _ _) as [m|] eqn:Em; [|done]. case_decide as Hj; [done|].
  subst m.
  destruct (creators create _) as [cs|] eqn:Ecs; [|done].
  destruct (opt_user_power_level _ _ _ _) as [p|] eqn:Ep; [|done].
  rewrite decide_False in Hc by done.
  destruct (opt_event_power_level _ _ _ _) as [n|] eqn:En; [|done].
  destruct (upl_ltb p (Level n)) eqn:Elt; [done|].
  destruct (match pdu_state_key event with Some k => _ | None => _ end && _) eqn:Ekey; [done|].
  exists create, p, n. reflect_guards. split_and!; try done.
  - intros Hf. assert (f = false) as -> by congruence. destruct Efed as [?|Hs]; [done|]. by apply dec_stable in Hs.
  - by exists cs.
  - intros k Hk Hp. rewrite Hk in Ekey. destruct Ekey as [?|Hn]; [congruence|].
    apply dec_stable in Hn. congruence.
Qed.

Lemma send_requires_power_witness :
  check_state_dependent_auth_rules (mkVersion ToyRuma.v11 None)
    (ToyRuma.pdu "$t" "m.room.topic" "@mod:a" (Some "") [] []) LevelExample.room = Ok tt
  ∧ ∃ create p, holds_level ToyRuma.v11 create LevelExample.room "@mod:a" p ∧ upl_le (Level 50) p.
Proof.
  split; [by vm_compute|].
  destruct (send_requires_power (mkVersion ToyRuma.v11 None)
    (ToyRuma.pdu "$t" "m.room.topic" "@mod:a" (Some "") [] []) LevelExample.room)
    as (create & p & n & _ & _ & _ & Hp & Hn & Hle & _); [done|done|done|done|by vm_compute|].
  exists create, p. split; [done|].
  assert (Ok (E := Error) n = Ok 50%Z) as [= ->] by (rewrite <-Hn; by vm_compute). done.
Defined.
