(* ===== verification/Greedy.v ===== *)
(** * Greedy topological orders

    The order Kahn's algorithm produces when it always takes the least ready
    node: every node once, each after the nodes it depends on, and at each
    position the least of the nodes that could come next.  The facts here are
    about node lists only; an implementation keeps a [frontier] and advances it
    with [frontier_step]. *)

From S2P Require Import Prelude.

Section greedy.
Context {A : Type} `{Countable A}.
Variables (le : relation A) (nodes : list A) (deps : A → gset A).
Implicit Types (l done R : list A) (x y : A).

(** [x] may come next after [done]. *)
Definition next_greedy done x : Prop :=
  deps x ⊆ list_to_set done
  ∧ ∀ y, y ∈ nodes → y ∉ done → deps y ⊆ list_to_set done → le x y.

Definition greedy_order l : Prop :=
  NoDup l ∧ (∀ x, x ∈ l ↔ x ∈ nodes) ∧ ∀ i x, l !! i = Some x → next_greedy (take i l) x.

(** [done] has been placed, and [R] are the nodes that could come next. *)
Record frontier done R : Prop := {
  frontier_NoDup : NoDup (done ++ R);
  frontier_elems x : x ∈ done ++ R ↔ x ∈ nodes ∧ deps x ⊆ list_to_set done;
  frontier_order i x : done !! i = Some x → next_greedy (take i done) x;
}.

Lemma frontier_init R :
  NoDup R → (∀ x, x ∈ R ↔ x ∈ nodes ∧ deps x = ∅) → frontier [] R.
Proof.
  intros ND HR. split; simpl; [done| |by intros i x; rewrite lookup_nil].
  intros x. rewrite HR. set_solver.
Qed.

Lemma frontier_perm done R R' : R ≡ₚ R' → frontier done R → frontier done R'.
Proof. intros P [ND Hin Ho]. split; [by rewrite <-P|intros x; by rewrite <-P|done]. Qed.

Lemma frontier_length done R : frontier done R → (length done + length R <= length nodes)%nat.
Proof.
  intros [ND Hin _]. rewrite <-length_app. apply submseteq_length, NoDup_submseteq; [done|].
  intros x Hx. by apply Hin.
Qed.

Section step.
Context (done R N : list A) (x : A).
Hypothesis Hfr : frontier done (x :: R).
Hypothesis Hmin : ∀ y, y ∈ R → le x y.
Hypothesis Hrefl : le x x.
Hypothesis HN : NoDup N.
(** [N] are the nodes that [x] releases. *)
Hypothesis Hrel : ∀ y, y ∈ N ↔ y ∈ nodes ∧ x ∈ deps y ∧ deps y ⊆ list_to_set (done ++ [x]).

Lemma frontier_fresh : (x ∉ done) ∧ (x ∉ R) ∧ NoDup (done ++ R).
Proof.
  pose proof (frontier_NoDup _ _ Hfr) as ND. rewrite <-Permutation_middle in ND.
  apply NoDup_cons in ND as [Hn ?]. rewrite not_elem_of_app in Hn. naive_solver.
Qed.

Lemma frontier_ready : x ∈ nodes ∧ deps x ⊆ list_to_set done.
Proof. apply (frontier_elems _ _ Hfr), elem_of_app. right. by left. Qed.

Lemma next_released_fresh y : y ∈ N → y ∉ done ++ x :: R.
Proof.
  intros (_ & Hxy & _)%Hrel [_ Hd]%(frontier_elems _ _ Hfr).
  apply Hd, elem_of_list_to_set in Hxy. by apply frontier_fresh in Hxy.
Qed.

Lemma frontier_step_NoDup : NoDup ((done ++ [x]) ++ N ++ R).
Proof.
  destruct frontier_fresh as (Hxd & HxR & ND').
  rewrite <-app_assoc. simpl. rewrite <-Permutation_middle, app_assoc,
    (Permutation_app_comm done N), <-app_assoc.
  apply NoDup_cons. split; [|apply NoDup_app; split_and!; [done| |done]].
  - rewrite !not_elem_of_app. split_and!; [|done..]. intros Hx. apply (next_released_fresh x Hx).
    apply elem_of_app. right. by left.
  - intros y Hy%next_released_fresh. clear -Hy. set_solver.
Qed.

Lemma frontier_step_elems y :
  y ∈ (done ++ [x]) ++ N ++ R ↔ y ∈ nodes ∧ deps y ⊆ list_to_set (done ++ [x]).
Proof.
  destruct frontier_ready as [Hxp Hxdeps].
  rewrite <-app_assoc, !elem_of_app, list_elem_of_singleton, Hrel.
  pose proof (frontier_elems _ _ Hfr y) as Hy. rewrite elem_of_app, elem_of_cons in Hy.
  assert (deps y ⊆ list_to_set (done ++ [x]) → x ∈ deps y ∨ deps y ⊆ list_to_set done) as H1.
  { clear. intros Hs. destruct (decide (x ∈ deps y)); [by left|right]. set_solver. }
  assert (deps y ⊆ list_to_set done → deps y ⊆ list_to_set (done ++ [x])) as H2
    by (clear; set_solver).
  clear -Hy H1 H2 Hxp Hxdeps. naive_solver.
Qed.

Lemma frontier_step : frontier (done ++ [x]) (N ++ R).
Proof.
  split; [apply frontier_step_NoDup|apply frontier_step_elems|].
  intros i y Hi. destruct (decide (i < length done)%nat) as [Hlt|Hge].
  - rewrite lookup_app_l in Hi by done. rewrite take_app_le by lia.
    by apply (frontier_order _ _ Hfr).
  - assert (i = length done) as ->.
    { apply lookup_lt_Some in Hi. rewrite length_app in Hi. simpl in Hi. lia. }
    rewrite list_lookup_middle in Hi by done. injection Hi as <-.
    rewrite take_app_le, firstn_all by lia. split; [apply frontier_ready|].
    intros z Hz1 Hz2 Hz3. assert (z ∈ done ++ x :: R) as Hz by (by apply (frontier_elems _ _ Hfr)).
    rewrite elem_of_app, elem_of_cons in Hz. destruct Hz as [?|[->|?]]; [done..|by apply Hmin].
Qed.
End step.

(** When no node can come next and the dependencies are well founded within
    the nodes, all nodes have been placed. *)
Lemma frontier_final (rank : A → nat) done :
  frontier done [] → (∀ x y, x ∈ nodes → y ∈ deps x → y ∈ nodes ∧ (rank y < rank x)%nat) →
  greedy_order done.
Proof.
  intros [ND Hin Ho] Hrank. rewrite app_nil_r in ND, Hin. split_and!; [done| |done].
  intros x. split; [by intros [? _]%Hin|].
  assert (∀ n y, (rank y < n)%nat → y ∈ nodes → y ∈ done) as Hind;
    [|by apply (Hind (S (rank x))); lia].
  induction n as [|n IH]; [lia|]. intros y Hy Hyn. apply Hin. split; [done|].
  intros a Ha. apply elem_of_list_to_set. destruct (Hrank y a Hyn Ha). apply IH; [lia|done].
Qed.

(** The order is unique. *)
Context `{!AntiSymm (=) le}.

Lemma greedy_take l l' n :
  greedy_order l → greedy_order l' → (n <= length l)%nat → (n <= length l')%nat →
  take n l = take n l'.
Proof.
  intros (ND & Hin & Ho) (ND' & Hin' & Ho'). induction n as [|n IH]; intros Hn Hn'; [done|].
  destruct (lookup_lt_is_Some_2 l n) as [x Hx]; [lia|].
  destruct (lookup_lt_is_Some_2 l' n) as [x' Hx']; [lia|].
  rewrite (take_S_r _ _ x), (take_S_r _ _ x') by done. rewrite IH by lia. do 2 f_equal.
  assert (take n l = take n l') as Et by (apply IH; lia).
  pose proof (Ho n x Hx) as [Hd Hmax]. pose proof (Ho' n x' Hx') as [Hd' Hmax'].
  assert (∀ (k : list A) y, NoDup k → k !! n = Some y → y ∉ take n k) as Hfresh.
  { intros k y NDk Hy (i & Hi & Hil)%elem_of_take.
    assert (i = n) by (by eapply NoDup_lookup). lia. }
  apply (anti_symm le).
  - apply Hmax; [|by rewrite Et; apply Hfresh|by rewrite Et].
    apply Hin', list_elem_of_lookup. eauto.
  - apply Hmax'; [|by rewrite <-Et; apply Hfresh|by rewrite <-Et].
    apply Hin, list_elem_of_lookup. eauto.
Qed.

Lemma greedy_unique l l' : greedy_order l → greedy_order l' → l = l'.
Proof.
  intros Hl Hl'. assert (l ≡ₚ l') as P.
  { apply NoDup_Permutation; [apply Hl|apply Hl'|]. intros x.
    by rewrite (proj1 (proj2 Hl)), (proj1 (proj2 Hl')). }
  pose proof (Permutation_length P) as HL.
  rewrite <-(firstn_all l), <-(firstn_all l'), <-HL. apply greedy_take; [done..|lia|lia].
Qed.
End greedy.

(** Only the order and the dependencies of the nodes themselves matter. *)
Lemma greedy_ext {A} `{Countable A} (le le' : relation A) (nodes nodes' : list A)
    (deps deps' : A → gset A) l :
  (∀ x, x ∈ nodes ↔ x ∈ nodes') →
  (∀ x, x ∈ nodes → deps x = deps' x) →
  (∀ x y, x ∈ nodes → y ∈ nodes → le x y → le' x y) →
  greedy_order le nodes deps l → greedy_order le' nodes' deps' l.
Proof.
  intros Hn Hd Hle (ND & Hin & Ho). split_and!; [done|by intros x; rewrite Hin, Hn|].
  intros i x Hi. assert (x ∈ nodes) as Hx by (apply Hin, list_elem_of_lookup; eauto).
  destruct (Ho i x Hi) as [Hdx Hmin]. split; [by rewrite <-Hd|].
  intros y Hy%Hn Hyl Hdy. rewrite <-Hd in Hdy by done. auto.
Qed.
