(* ===== verification/RoomSort.v ===== *)
(** * Orderings of the production resolver
    ([src/src/service/rooms/state_res/topological_sort.rs],
    [resolve/power_sort.rs], [resolve/mainline_sort.rs])

    The reverse topological power ordering by Kahn's algorithm over an explicit
    graph, the graph of power events and the levels of their senders, and the
    mainline ordering.  A [HashMap] is the list of its entries in whatever order
    it iterates, without duplicate keys; the theorems hold for every order.
    Asynchronous reads are immediate and the fetched events do not change while
    a resolution runs. *)

From S2P Require Import Prelude Bytes Core Json Greedy RoomEvents RoomMember RoomAuth.

Local Set Warnings "-register-all".

(** ** [topological_sort.rs] *)

Abbreviation ReferencedIds := (list string).
Abbreviation PduInfo := (UserPowerLevel * N)%type.

Record TieBreaker := mkTie {
  tie_event_id : string;
  tie_power_level : UserPowerLevel;
  tie_ts : N;
}.

(** [UserPowerLevel]'s order, for which [Infinite] is greatest. *)
Definition upl_compare (a b : UserPowerLevel) : comparison :=
  match a, b with
  | Infinite, Infinite => Eq
  | Infinite, Level _ => Gt
  | Level _, Infinite => Lt
  | Level x, Level y => Z.compare x y
  end.

Definition tie_cmp (a b : TieBreaker) : comparison :=
  match upl_compare (tie_power_level b) (tie_power_level a) with
  | Eq =>
      match N.compare (tie_ts a) (tie_ts b) with
      | Eq => String.compare (tie_event_id a) (tie_event_id b)
      | c => c
      end
  | c => c
  end.

Definition tie_le (a b : TieBreaker) : Prop := tie_cmp a b ≠ Gt.

(** [BinaryHeap<Reverse<TieBreaker>>] as the bag of its elements: [pop] removes
    a least one. *)
Fixpoint tie_heap_pop (h : list TieBreaker) : option (TieBreaker * list TieBreaker) :=
  match h with
  | [] => None
  | k :: h' =>
      match tie_heap_pop h' with
      | None => Some (k, [])
      | Some (m, r) =>
          match tie_cmp k m with
          | Gt => Some (m, k :: r)
          | _ => Some (k, h')
          end
      end
  end.

Section topological.
Variable query : string → Result Error PduInfo.


Definition query_tie (event_id : string) : Result Error TieBreaker :=
  let? info := query event_id in
  Ok (mkTie event_id info.1 info.2).

(** The reversed edges. *)
Definition add_incoming (incoming : gmap string ReferencedIds) (edge : string * string) :
    gmap string ReferencedIds :=
  let '(event_id, reference) := edge in
  let references := default [] (incoming !! reference) in
  <[reference := if decide (event_id ∈ references) then references else references ++ [event_id]]>
    incoming.

Definition edges (entries : list (string * ReferencedIds)) : list (string * string) :=
  entries ≫= λ e, (e.1,.) <$> e.2.

Definition incoming_edges (entries : list (string * ReferencedIds)) : gmap string ReferencedIds :=
  foldl add_incoming ∅ (edges entries).

(** The events without references, with their tie breakers. *)
Fixpoint horizon (entries : list (string * ReferencedIds)) : Result Error (list TieBreaker) :=
  match entries with
  | [] => Ok []
  | (event_id, references) :: entries' =>
      if decide (references = []) then
        let? tie := query_tie event_id in
        let? heap := horizon entries' in
        Ok (tie :: heap)
      else horizon entries'
  end.

(** The references of [event_id] from its parents are removed; a parent left
    without references enters the heap. *)
Fixpoint release_parents (event_id : string) (parents : ReferencedIds)
    (st : list TieBreaker * gmap string ReferencedIds) :
    Result Error (list TieBreaker * gmap string ReferencedIds) :=
  match parents with
  | [] => Ok st
  | parent_id :: parents' =>
      match st.2 !! parent_id with
      | None => Err (ErrMsg "contains all parent_ids")
      | Some out =>
          let out := filter (λ r, r ≠ event_id) out in
          let graph := <[parent_id := out]> st.2 in
          if decide (out = []) then
            let? tie := query_tie parent_id in
            release_parents event_id parents' (tie :: st.1, graph)
          else release_parents event_id parents' (st.1, graph)
      end
  end.

Fixpoint kahn_sort (fuel : nat) (incoming : gmap string ReferencedIds)
    (st : list TieBreaker * gmap string ReferencedIds) (sorted : list string) :
    option (Result Error (list string)) :=
  match tie_heap_pop st.1 with
  | None => Some (Ok sorted)
  | Some (item, heap) =>
      match fuel with
      | O => None
      | S fuel =>
          match release_parents (tie_event_id item)
                  (default [] (incoming !! tie_event_id item)) (heap, st.2) with
          | Err e => Some (Err e)
          | Ok st => kahn_sort fuel incoming st (sorted ++ [tie_event_id item])
          end
      end
  end.

Definition topological_sort (fuel : nat) (entries : list (string * ReferencedIds)) :
    option (Result Error (list string)) :=
  match horizon entries with
  | Err e => Some (Err e)
  | Ok heap => kahn_sort fuel (incoming_edges entries) (heap, list_to_map entries) []
  end.
End topological.

(** ** The heap order *)

Lemma upl_compare_spec a b :
  match upl_compare a b with
  | Eq => a = b
  | Lt => upl_ltb a b = true
  | Gt => upl_ltb b a = true
  end.
Proof.
  destruct a as [|x], b as [|y]; simpl; try done.
  destruct (Z.compare_spec x y); [by subst|by apply Z.ltb_lt..].
Qed.

Lemma upl_ltb_irrefl a : upl_ltb a a = false.
Proof. destruct a; simpl; [done|]. apply Z.ltb_irrefl. Qed.

Lemma upl_ltb_asym a b : upl_ltb a b = true → upl_ltb b a = true → False.
Proof. destruct a, b; simpl; try done. rewrite !Z.ltb_lt. lia. Qed.

Lemma upl_ltb_trans a b c : upl_ltb a b = true → upl_ltb b c = true → upl_ltb a c = true.
Proof. destruct a, b, c; simpl; try done. rewrite !Z.ltb_lt. lia. Qed.

Lemma tie_le_spec a b :
  tie_le a b ↔
  upl_ltb (tie_power_level b) (tie_power_level a) = true
  ∨ (tie_power_level a = tie_power_level b
     ∧ ((tie_ts a < tie_ts b)%N ∨ (tie_ts a = tie_ts b ∧ key_le (tie_event_id a) (tie_event_id b)))).
Proof.
  unfold tie_le, tie_cmp. rewrite key_le_compare.
  pose proof (upl_compare_spec (tie_power_level b) (tie_power_level a)) as Hp.
  destruct (upl_compare _ _).
  - rewrite Hp, upl_ltb_irrefl.
    destruct (N.compare_spec (tie_ts a) (tie_ts b)); intuition (congruence || lia).
  - intuition congruence.
  - split; [done|]. intros [?|[Heq _]]; [by destruct (upl_ltb_asym _ _ Hp)|].
    rewrite Heq, upl_ltb_irrefl in Hp. done.
Qed.

#[export] Instance tie_le_po : PartialOrder tie_le.
Proof.
  split; [split|].
  - intros a. apply tie_le_spec. right. split; [done|]. right. by split.
  - intros a b c. rewrite !tie_le_spec.
    intros [H1|[E1 H1]] [H2|[E2 H2]].
    + left. by eapply upl_ltb_trans.
    + left. by rewrite <-E2.
    + left. by rewrite E1.
    + right. split; [congruence|]. destruct H1 as [H1|[T1 H1]], H2 as [H2|[T2 H2]]; [left; lia..|].
      right. split; [congruence|]. by etrans.
  - intros a b. rewrite !tie_le_spec. destruct a as [ia pa ta], b as [ib pb tb]; simpl.
    intros [H1|[E1 [H1|[T1 H1]]]] [H2|[E2 [H2|[T2 H2]]]]; subst.
    all: try (by destruct (upl_ltb_asym _ _ H1 H2)).
    all: try (rewrite upl_ltb_irrefl in *; done).
    all: try lia. f_equal. by apply (anti_symm key_le).
Qed.

#[export] Instance tie_le_total : Total tie_le.
Proof.
  intros a b. rewrite !tie_le_spec.
  pose proof (upl_compare_spec (tie_power_level a) (tie_power_level b)) as Hp.
  destruct (upl_compare _ _); [|by eauto..].
  destruct (N.lt_trichotomy (tie_ts a) (tie_ts b)) as [?|[?|?]]; [by eauto 6| |by eauto 6].
  destruct (total key_le (tie_event_id a) (tie_event_id b)); [left|right]; right;
    (split; [done|]); right; done.
Qed.

Lemma tie_heap_pop_None h : tie_heap_pop h = None ↔ h = [].
Proof.
  destruct h as [|k h]; [done|]. simpl.
  destruct (tie_heap_pop h) as [[m r]|]; [|done]. by destruct (tie_cmp k m).
Qed.

Lemma tie_heap_pop_spec h m r :
  tie_heap_pop h = Some (m, r) → h ≡ₚ m :: r ∧ ∀ x, x ∈ h → tie_le m x.
Proof.
  revert m r. induction h as [|k h IH]; intros m r; [done|]. simpl.
  destruct (tie_heap_pop h) as [[m' r']|] eqn:Eh.
  - destruct (IH m' r' eq_refl) as [P Hmin]. destruct (decide (tie_cmp k m' = Gt)) as [Ec|Hk].
    + rewrite Ec. intros [= <- <-]. split; [rewrite P; apply Permutation_swap|].
      intros x [->|Hx]%elem_of_cons; [|by auto]. by destruct (total tie_le m' k).
    + assert (Some (m, r) = Some (k, h) → k :: h ≡ₚ m :: r ∧ ∀ x, x ∈ k :: h → tie_le m x) as Hgoal.
      { intros [= -> ->]. split; [done|].
        intros x [->|Hx]%elem_of_cons; [done|]. etrans; [exact Hk|by apply Hmin]. }
      destruct (tie_cmp k m'); intros Heq; try done; by apply Hgoal.
  - apply tie_heap_pop_None in Eh as ->. intros [= <- <-]. split; [done|].
    by intros x ->%list_elem_of_singleton.
Qed.

(** ** The loop *)

Lemma elem_of_add_incoming inc x r r' y :
  y ∈ default [] (add_incoming inc (x, r) !! r') ↔ y ∈ default [] (inc !! r') ∨ (y = x ∧ r' = r).
Proof.
  unfold add_incoming. destruct (decide (r' = r)) as [->|].
  - rewrite lookup_insert_eq. simpl. case_decide; [set_solver|].
    rewrite elem_of_app, list_elem_of_singleton. naive_solver.
  - rewrite lookup_insert_ne by done. naive_solver.
Qed.

Lemma add_incoming_NoDup inc e r :
  (∀ r, NoDup (default [] (inc !! r))) → NoDup (default [] (add_incoming inc e !! r)).
Proof.
  intros Hn. destruct e as [x r0]. unfold add_incoming. destruct (decide (r = r0)) as [->|].
  - rewrite lookup_insert_eq. simpl. case_decide as Hx; [apply Hn|].
    apply NoDup_app. split_and!; [apply Hn|set_solver|apply NoDup_singleton].
  - rewrite lookup_insert_ne by done. apply Hn.
Qed.

Lemma foldl_add_incoming es inc :
  (∀ r, NoDup (default [] (inc !! r))) →
  (∀ r, NoDup (default [] (foldl add_incoming inc es !! r)))
  ∧ ∀ r y, y ∈ default [] (foldl add_incoming inc es !! r) ↔
           y ∈ default [] (inc !! r) ∨ (y, r) ∈ es.
Proof.
  revert inc. induction es as [|[x r0] es IH]; intros inc Hn; cbn [foldl].
  { split; [done|]. intros r y. rewrite elem_of_nil. tauto. }
  destruct (IH (add_incoming inc (x, r0))) as [IHn IHe].
  { intros r. by apply add_incoming_NoDup. }
  split; [done|]. intros r y. rewrite IHe, elem_of_add_incoming, elem_of_cons. naive_solver.
Qed.

Section kahn.
Variables (query : string → Result Error PduInfo) (entries : list (string * ReferencedIds)).
Hypothesis Hnd : NoDup entries.*1.

Definition tie_of (x : string) : TieBreaker :=
  match query x with Ok info => mkTie x info.1 info.2 | Err _ => mkTie x Infinite 0 end.

Definition refs_of (x : string) : ReferencedIds :=
  default [] ((list_to_map entries : gmap string ReferencedIds) !! x).

(** The events an event refers to, and the order the heap takes events in. *)
Definition graph_deps (x : string) : gset string := list_to_set (refs_of x).
Definition sooner (x y : string) : Prop := tie_le (tie_of x) (tie_of y).

Lemma tie_of_id x : tie_event_id (tie_of x) = x.
Proof. unfold tie_of. by destruct (query x). Qed.

Lemma query_tie_ok x t : query_tie query x = Ok t → t = tie_of x.
Proof. unfold query_tie, tie_of. destruct (query x); naive_solver. Qed.

Lemma query_tie_err x e : query_tie query x = Err e → query x = Err e.
Proof. unfold query_tie. destruct (query x); naive_solver. Qed.

#[local] Instance sooner_antisymm : AntiSymm (=) sooner.
Proof.
  intros x y H1 H2. assert (tie_of x = tie_of y) as He by (by apply (anti_symm tie_le)).
  apply (f_equal tie_event_id) in He. by rewrite !tie_of_id in He.
Qed.

Lemma elem_of_edges x r : (x, r) ∈ edges entries ↔ x ∈ entries.*1 ∧ r ∈ refs_of x.
Proof.
  unfold edges, refs_of. rewrite list_elem_of_bind. split.
  - intros ([y refs] & (r' & [= -> ->] & Hr)%list_elem_of_fmap & Hin).
    split; [apply list_elem_of_fmap; by exists (y, refs)|].
    by rewrite (elem_of_list_to_map_1 _ _ _ Hnd Hin).
  - intros [([y refs] & -> & Hin)%list_elem_of_fmap Hr]. exists (y, refs). split; [|done].
    cbn [fst] in Hr. rewrite (elem_of_list_to_map_1 _ _ _ Hnd Hin) in Hr.
    apply list_elem_of_fmap. by exists r.
Qed.

Lemma incoming_spec r :
  NoDup (default [] (incoming_edges entries !! r))
  ∧ ∀ y, y ∈ default [] (incoming_edges entries !! r) ↔ y ∈ entries.*1 ∧ r ∈ refs_of y.
Proof.
  destruct (foldl_add_incoming (edges entries) ∅) as [Hn He].
  { intros r'. rewrite lookup_empty. apply NoDup_nil_2. }
  split; [apply Hn|]. intros y. unfold incoming_edges.
  rewrite He, lookup_empty, elem_of_edges. set_solver.
Qed.

Lemma horizon_spec es :
  match horizon query es with
  | Ok heap => heap = tie_of <$> (filter (λ e, e.2 = []) es).*1
  | Err e => ∃ y, y ∈ es.*1 ∧ query y = Err e
  end.
Proof.
  induction es as [|[x refs] es IH]; [reflexivity|]. cbn [horizon].
  destruct (decide (refs = [])) as [Hr|Hr];
    [rewrite filter_cons_True by done|rewrite filter_cons_False by done].
  - destruct (query_tie query x) as [t|e] eqn:Et.
    + apply query_tie_ok in Et as ->. destruct (horizon query es); [by subst|].
      destruct IH as (y & ? & ?). exists y. split; [by right|done].
    + apply query_tie_err in Et. exists x. split; [by left|done].
  - destruct (horizon query es); [done|]. destruct IH as (y & ? & ?). exists y. split; [by right|done].
Qed.

Lemma release_spec x ps heap g :
  NoDup ps → (∀ y, y ∈ ps → is_Some (g !! y)) →
  match release_parents query x ps (heap, g) with
  | Ok (heap', g') =>
      (∀ y, g' !! y = if decide (y ∈ ps) then filter (λ r, r ≠ x) <$> g !! y else g !! y)
      ∧ heap' ≡ₚ (tie_of <$> filter (λ y, filter (λ r, r ≠ x) <$> g !! y = Some []) ps) ++ heap
  | Err e => ∃ y, y ∈ ps ∧ query y = Err e
  end.
Proof.
  revert heap g. induction ps as [|p ps IH]; intros heap g ND Hg; cbn [release_parents].
  { split; [|done]. intros y. by rewrite decide_False by set_solver. }
  apply NoDup_cons in ND as [Hp ND]. cbn [fst snd].
  destruct (Hg p) as [out Hout]; [by left|]. rewrite Hout.
  set (out' := filter (λ r, r ≠ x) out).
  assert (∀ y, y ∈ ps → <[p := out']> g !! y = g !! y) as Hother.
  { intros y Hy. rewrite lookup_insert_ne; [done|]. intros ->. done. }
  assert (∀ heap, match release_parents query x ps (heap, <[p := out']> g) with
    | Ok (heap', g') =>
        (∀ y, g' !! y = if decide (y ∈ p :: ps) then filter (λ r, r ≠ x) <$> g !! y else g !! y)
        ∧ heap' ≡ₚ (tie_of <$> filter (λ y, filter (λ r, r ≠ x) <$> g !! y = Some []) ps) ++ heap
    | Err e => ∃ y, y ∈ p :: ps ∧ query y = Err e
    end) as IH'.
  { intros heap0. specialize (IH heap0 (<[p := out']> g) ND).
    destruct (release_parents _ _ _ _) as [[heap' g']|e].
    - destruct IH as [IHg IHh]; [intros y Hy; rewrite Hother by done; apply Hg; by right|]. split.
      + intros y. rewrite IHg. destruct (decide (y = p)) as [->|Hne].
        * rewrite decide_False by done. rewrite decide_True by (by left).
          by rewrite lookup_insert_eq, Hout.
        * rewrite lookup_insert_ne by done. apply decide_ext. set_solver.
      + rewrite IHh. by rewrite (filter_ext_elem _ (λ y, filter (λ r, r ≠ x) <$> g !! y = Some []))
          by (intros y Hy; by rewrite Hother).
    - destruct IH as (y & ? & ?); [intros y Hy; rewrite Hother by done; apply Hg; by right|].
      exists y. split; [by right|done]. }
  case_decide as Hempty.
  - rewrite filter_cons_True by (rewrite Hout; simpl; by rewrite <-Hempty).
    destruct (query_tie query p) as [t|e] eqn:Et.
    + apply query_tie_ok in Et as ->. specialize (IH' (tie_of p :: heap)).
      destruct (release_parents _ _ _ _) as [[heap' g']|e]; [|done].
      destruct IH' as [? IHh]. split; [done|]. rewrite IHh. csimpl. by rewrite <-Permutation_middle.
    + apply query_tie_err in Et. exists p. split; [by left|done].
  - rewrite filter_cons_False by (rewrite Hout; simpl; intros [= ?]; done). apply IH'.
Qed.

(** The heap holds the events that could come next, and the graph what is left
    of the references. *)
Record kahn_inv (st : list TieBreaker * gmap string ReferencedIds) (sorted R : list string) : Prop := {
  ki_frontier : frontier sooner entries.*1 graph_deps sorted R;
  ki_heap : st.1 ≡ₚ tie_of <$> R;
  ki_graph y : st.2 !! y =
    filter (λ r, r ∉ sorted) <$> (list_to_map entries : gmap string ReferencedIds) !! y;
}.

Lemma lookup_entries y :
  y ∈ entries.*1 → (list_to_map entries : gmap string ReferencedIds) !! y = Some (refs_of y).
Proof.
  intros ([y' refs] & -> & Hin)%list_elem_of_fmap. unfold refs_of. cbn [fst].
  by rewrite (elem_of_list_to_map_1 _ _ _ Hnd Hin).
Qed.

Lemma lookup_entries_None y :
  y ∉ entries.*1 → (list_to_map entries : gmap string ReferencedIds) !! y = None.
Proof. apply not_elem_of_list_to_map_1. Qed.

Lemma filter_empty_subset (l done : list string) :
  filter (λ r, r ∉ done) l = [] ↔ (list_to_set l : gset string) ⊆ list_to_set done.
Proof.
  split.
  - intros He r. rewrite !elem_of_list_to_set. intros Hr.
    destruct (decide (r ∈ done)) as [|Hd]; [done|].
    assert (r ∈ filter (λ r, r ∉ done) l) as Hin by (by apply list_elem_of_filter).
    rewrite He in Hin. set_solver.
  - intros Hs. apply filter_none. intros r Hr Hd. specialize (Hs r).
    rewrite !elem_of_list_to_set in Hs. auto.
Qed.

Lemma filter_not_snoc (sorted l : list string) x :
  filter (λ r, r ≠ x) (filter (λ r, r ∉ sorted) l) = filter (λ r, r ∉ sorted ++ [x]) l.
Proof. rewrite list_filter_filter. apply filter_ext_elem. set_solver. Qed.

Lemma kahn_step item heap heap' g g' sorted R :
  kahn_inv (item :: heap, g) sorted R → (∀ t, t ∈ item :: heap → tie_le item t) →
  release_parents query (tie_event_id item)
    (default [] (incoming_edges entries !! tie_event_id item)) (heap, g) = Ok (heap', g') →
  ∃ R', kahn_inv (heap', g') (sorted ++ [tie_event_id item]) R'.
Proof.
  intros [Hfr Hheap Hg] Hmin Hrel. cbn [fst snd] in *.
  assert (item ∈ tie_of <$> R) as (x & -> & Hx)%list_elem_of_fmap by (rewrite <-Hheap; by left).
  rewrite tie_of_id in *. destruct (incoming_spec x) as [HCnd HC].
  set (C := default [] (incoming_edges entries !! x)) in *.
  apply elem_of_Permutation in Hx as [R1 HR1].
  assert (heap ≡ₚ tie_of <$> R1) as Hheap1.
  { apply (Permutation_cons_inv (a := tie_of x)). by rewrite Hheap, HR1. }
  apply (frontier_perm _ _ _ _ _ _ HR1) in Hfr.
  pose proof (release_spec x C heap g HCnd) as Hs. rewrite Hrel in Hs.
  destruct Hs as [Hg' Hheap'].
  { intros y [Hy _]%HC. rewrite Hg, lookup_entries by done. done. }
  exists (filter (λ y, filter (λ r, r ≠ x) <$> g !! y = Some []) C ++ R1). split; cbn [fst snd].
  - eapply frontier_step; [exact Hfr| |by unfold sooner|by apply NoDup_filter|].
    + intros y Hy. apply Hmin. right. rewrite Hheap1. by apply list_elem_of_fmap_2.
    + intros y. rewrite list_elem_of_filter, HC. unfold graph_deps. rewrite elem_of_list_to_set.
      rewrite <-filter_empty_subset, <-filter_not_snoc.
      assert (y ∈ entries.*1 → g !! y = Some (filter (λ r, r ∉ sorted) (refs_of y))) as Hgy.
      { intros Hy. by rewrite Hg, lookup_entries. }
      split.
      * intros (He & Hy & Hr). rewrite Hgy in He by done. simpl in He. by simplify_eq.
      * intros (Hy & Hr & He). split; [|done]. rewrite Hgy by done. simpl. by rewrite He.
  - by rewrite Hheap', fmap_app, Hheap1.
  - intros y. rewrite Hg', !Hg. destruct (decide (y ∈ entries.*1)) as [Hy|Hy].
    + rewrite !lookup_entries by done. simpl. case_decide as HyC; rewrite <-filter_not_snoc; [done|].
      f_equal. symmetry. apply filter_all. intros r [_ Hr]%list_elem_of_filter ->.
      by apply HyC, HC.
    + rewrite !lookup_entries_None by done. by case_decide.
Qed.

Lemma kahn_inv_length st sorted R :
  kahn_inv st sorted R → st.1 ≠ [] → (length sorted < length entries)%nat.
Proof.
  intros [Hfr Hheap _] Hne. apply frontier_length in Hfr. rewrite length_fmap in Hfr.
  destruct R as [|x R]; [|simpl in Hfr; lia]. by apply Permutation_nil_r in Hheap.
Qed.

(** Fuel for every unplaced event is enough, and the only errors are those of
    the query. *)
Lemma kahn_sort_finishes fuel st sorted R :
  kahn_inv st sorted R → (length entries <= fuel + length sorted)%nat →
  ∃ r, kahn_sort query fuel (incoming_edges entries) st sorted = Some r
    ∧ match r with
      | Ok l => ∃ g, kahn_inv ([], g) l []
      | Err e => ∃ y, y ∈ entries.*1 ∧ query y = Err e
      end.
Proof.
  revert st sorted R. induction fuel as [|fuel IH]; intros [heap g] sorted R Hinv Hf; cbn [kahn_sort fst snd].
  all: destruct (tie_heap_pop heap) as [[item heap1]|] eqn:Ep.
  - apply kahn_inv_length in Hinv; [simpl in *; lia|]. simpl. by intros ->.
  - apply tie_heap_pop_None in Ep as ->. eexists. split; [done|].
    destruct R as [|x R]; [by exists g|]. by destruct (Permutation_nil_cons (ki_heap _ _ _ Hinv)).
  - destruct (tie_heap_pop_spec _ _ _ Ep) as [Hperm Hmin].
    assert (kahn_inv (item :: heap1, g) sorted R) as Hinv1.
    { destruct Hinv as [? Hh ?]. split; [done|by simpl; rewrite <-Hperm|done]. }
    destruct (release_parents _ _ _ _) as [[heap' g']|e] eqn:Er.
    + eapply kahn_step in Er as [R' Hinv']; [|exact Hinv1|intros t; rewrite <-Hperm; apply Hmin].
      eapply IH; [exact Hinv'|]. rewrite length_app. simpl. lia.
    + eexists. split; [done|].
      destruct (incoming_spec (tie_event_id item)) as [HCnd HC].
      pose proof (release_spec (tie_event_id item) _ heap1 g HCnd) as Hs. rewrite Er in Hs.
      destruct Hs as (y & [Hy _]%HC & ?); [|by exists y].
      intros y [Hy _]%HC. rewrite (ki_graph _ _ _ Hinv). by rewrite lookup_entries.
  - apply tie_heap_pop_None in Ep as ->. eexists. split; [done|].
    destruct R as [|x R]; [by exists g|]. by destruct (Permutation_nil_cons (ki_heap _ _ _ Hinv)).
Qed.

Lemma kahn_inv_init heap :
  horizon query entries = Ok heap →
  kahn_inv (heap, list_to_map entries) [] (filter (λ e, e.2 = []) entries).*1.
Proof.
  intros Hh. pose proof (horizon_spec entries) as Hs. rewrite Hh in Hs. subst heap. split; cbn [fst snd].
  - apply frontier_init.
    + eapply sublist_NoDup; [exact Hnd|]. apply fmap_sublist, sublist_filter.
    + intros x. unfold graph_deps. rewrite list_elem_of_fmap. split.
      * intros ([x' refs] & -> & [Hr Hin]%list_elem_of_filter). cbn [fst snd] in *. subst refs.
        split; [apply list_elem_of_fmap; by exists (x', [])|].
        unfold refs_of. by rewrite (elem_of_list_to_map_1 _ _ _ Hnd Hin).
      * intros [([x' refs] & -> & Hin)%list_elem_of_fmap He]. exists (x', refs). split; [done|].
        apply list_elem_of_filter. split; [|done]. cbn [fst snd] in *.
        unfold refs_of in He. rewrite (elem_of_list_to_map_1 _ _ _ Hnd Hin) in He.
        destruct refs; [done|]. simpl in He. set_solver.
  - done.
  - intros y. destruct ((list_to_map entries : gmap string ReferencedIds) !! y) as [l|]; [|done].
    simpl. rewrite filter_all; [done|]. set_solver.
Qed.

Lemma topological_sort_finishes fuel :
  (length entries <= fuel)%nat →
  ∃ r, topological_sort query fuel entries = Some r
    ∧ match r with
      | Ok l => frontier sooner entries.*1 graph_deps l []
      | Err e => ∃ y, y ∈ entries.*1 ∧ query y = Err e
      end.
Proof.
  intros Hf. unfold topological_sort. pose proof (horizon_spec entries) as Hs.
  destruct (horizon query entries) as [heap|e] eqn:Eh; [|by eauto].
  destruct (kahn_sort_finishes fuel (heap, list_to_map entries) [] _ (kahn_inv_init heap Eh))
    as (r & -> & Hr); [simpl; lia|].
  exists r. split; [done|]. destruct r as [l|e]; [|done]. by destruct Hr as [g [? _ _]].
Qed.
End kahn.

(** C22.  The sort always ends.  Whatever the graph, cyclic or with references
    outside it, and whatever the query answers, one iteration per event is
    enough; the only errors are those of the query, so the lookup the source
    guards with [expect] never fails. *)
Theorem topological_sort_terminates (query : string → Result Error PduInfo)
    (entries : list (string * ReferencedIds)) (fuel : nat) :
  NoDup entries.*1 → (length entries <= fuel)%nat →
  ∃ r, topological_sort query fuel entries = Some r
    ∧ ∀ e, r = Err e → ∃ y, y ∈ entries.*1 ∧ query y = Err e.
Proof.
  intros Hnd Hf. destruct (topological_sort_finishes query entries Hnd fuel Hf) as (r & Hr & Hs).
  exists r. split; [done|]. intros e ->. exact Hs.
Qed.

Lemma topological_sort_spec (query : string → Result Error PduInfo)
    (entries : list (string * ReferencedIds)) (rank : string → nat) :
  NoDup entries.*1 →
  (∀ x refs r, (x, refs) ∈ entries → r ∈ refs → r ∈ entries.*1 ∧ (rank r < rank x)%nat) →
  (∀ x, x ∈ entries.*1 → ∃ info, query x = Ok info) →
  ∃ l, greedy_order (sooner query) entries.*1 (graph_deps entries) l
    ∧ ∀ fuel, (length entries <= fuel)%nat → topological_sort query fuel entries = Some (Ok l).
Proof.
  intros Hnd Hrank Hq.
  assert (∀ fuel, (length entries <= fuel)%nat → ∃ l, topological_sort query fuel entries = Some (Ok l)
    ∧ greedy_order (sooner query) entries.*1 (graph_deps entries) l) as Hone.
  { intros fuel Hf.
    destruct (topological_sort_finishes query entries Hnd fuel Hf) as ([l|e] & Hr & Hs).
    - exists l. split; [done|]. apply (frontier_final _ _ _ rank); [done|].
      intros x y ([x' refs] & -> & Hin)%list_elem_of_fmap Hy.
      apply (Hrank x' refs); [done|]. unfold graph_deps, refs_of in Hy. cbn [fst] in Hy.
      rewrite (elem_of_list_to_map_1 _ _ _ Hnd Hin) in Hy. by apply elem_of_list_to_set in Hy.
    - destruct Hs as (y & Hy & He). destruct (Hq y Hy) as [info Hi]. congruence. }
  destruct (Hone (length entries)) as (l & _ & Hl); [done|]. exists l. split; [done|].
  intros fuel (l' & -> & Hl')%Hone. do 2 f_equal.
  eapply greedy_unique; [apply sooner_antisymm|done..].
Qed.

(** C23.  On a graph without cycles or dangling references the sort returns the
    reverse topological power ordering: every event once, each after the events
    it refers to, and at each position the first of the events that could come
    next by sender power, timestamp and id.  It is the only such order, so the
    iteration order of the hash maps is irrelevant. *)
Theorem topological_sort_correct (query : string → Result Error PduInfo)
    (entries : list (string * ReferencedIds)) (rank : string → nat) (fuel : nat) :
  NoDup entries.*1 → (length entries <= fuel)%nat →
  (∀ x refs r, (x, refs) ∈ entries → r ∈ refs → r ∈ entries.*1 ∧ (rank r < rank x)%nat) →
  (∀ x, x ∈ entries.*1 → ∃ info, query x = Ok info) →
  ∃ l, topological_sort query fuel entries = Some (Ok l)
    ∧ greedy_order (sooner query) entries.*1 (graph_deps entries) l
    ∧ ∀ l', greedy_order (sooner query) entries.*1 (graph_deps entries) l' → l' = l.
Proof.
  intros Hnd Hf Hrank Hq. destruct (topological_sort_spec query entries rank Hnd Hrank Hq) as (l & Hl & Hs).
  exists l. split_and!; [by apply Hs|done|]. intros l' Hl'. eapply greedy_unique; [apply sooner_antisymm|done..].
Qed.

Module SortExample.
Definition entries : list (string * list string) := [("$d", ["$b"; "$c"]); ("$b", ["$a"]); ("$a", []); ("$c", ["$a"])].
Definition query (x : string) : Result Error (UserPowerLevel * N) :=
  if decide (x = "$z") then Err (Request NotFound "missing")
  else Ok (if decide (x = "$c") then Infinite else Level 50, 7%N).
Definition rank (x : string) : nat :=
  if decide (x = "$d") then 2 else if decide (x = "$a") then 0 else 1.
End SortExample.

Lemma topological_sort_terminates_witness :
  topological_sort SortExample.query 2 [("$y", ["$z"]); ("$z", [])]
    = Some (Err (Request NotFound "missing"))
  ∧ ∃ y, y ∈ ["$y"; "$z"] ∧ SortExample.query y = Err (Request NotFound "missing").
Proof.
  destruct (topological_sort_terminates SortExample.query [("$y", ["$z"]); ("$z", [])] 2)
    as (r & Hr & He); [by apply (bool_decide_unpack _); vm_compute|simpl; lia|].
  split; [by vm_compute|]. apply He.
  assert (Some r = Some (Err (Request NotFound "missing"))) as [= ->]; [|done].
  rewrite <-Hr. by vm_compute.
Defined.

Lemma topological_sort_correct_witness :
  topological_sort SortExample.query 4 SortExample.entries = Some (Ok ["$a"; "$c"; "$b"; "$d"])
  ∧ greedy_order (sooner SortExample.query) SortExample.entries.*1
      (graph_deps SortExample.entries) ["$a"; "$c"; "$b"; "$d"].
Proof.
  destruct (topological_sort_correct SortExample.query SortExample.entries SortExample.rank 4)
    as (l & Hl & Hg & _).
  - by apply (bool_decide_unpack _); vm_compute.
  - simpl. lia.
  - assert (Forall (λ e, Forall (λ r, r ∈ SortExample.entries.*1
      ∧ (SortExample.rank r < SortExample.rank e.1)%nat) e.2) SortExample.entries) as Hall
      by (by apply (bool_decide_unpack _); vm_compute).
    intros x refs r Hin Hr. rewrite Forall_forall in Hall. specialize (Hall _ Hin).
    rewrite Forall_forall in Hall. by apply Hall.
  - intros x Hx. unfold SortExample.query. destruct (decide (x = "$z")) as [->|]; [|eauto].
    exfalso. revert Hx. by apply (bool_decide_unpack _); vm_compute.
  - assert (Some (Ok (E := Error) l) = Some (Ok ["$a"; "$c"; "$b"; "$d"])) as [= ->]
      by (rewrite <-Hl; by vm_compute).
    by split.
Defined.
