(* ===== verification/RoomPower.v ===== *)
(** * Sorting the power events
    ([src/src/service/rooms/state_res/resolve/power_sort.rs])

    The graph of the power events of the full conflicted set and their auth
    chains, the power level of an event's sender, and the sort.  Auth events are
    fetched concurrently and may complete in any order: [chain_step] takes any
    pending fetch, [chain_loop] the latest one, and every run ends in the same
    graph. *)

From S2P Require Import Prelude Bytes Core Json Greedy RoomEvents RoomMember RoomAuth RoomSort.

Local Set Warnings "-register-all".

Section power.
Context `{Ruma}.
Variables (rules : RoomVersionRules) (fetch : FetchEvent).
Implicit Types (full : gset string) (graph : gmap string ReferencedIds).

(** A member of the auth events of [event_id]: fetched unless the graph has it,
    and recorded as a reference. *)
Definition chain_reference (event_id : string) (st : list string * gmap string ReferencedIds)
    (auth_event_id : string) : list string * gmap string ReferencedIds :=
  let todo := if decide (is_Some (st.2 !! auth_event_id)) then st.1 else auth_event_id :: st.1 in
  let references := default [] (st.2 !! event_id) in
  (todo, <[event_id := if decide (auth_event_id ∈ references) then references
                       else references ++ [auth_event_id]]> st.2).

(** The body of the loop for a fetched event. *)
Definition chain_visit full (event : Pdu) (st : list string * gmap string ReferencedIds) :
    list string * gmap string ReferencedIds :=
  let event_id := pdu_event_id event in
  let graph := match st.2 !! event_id with
               | Some _ => st.2
               | None => <[event_id := []]> st.2
               end in
  foldl (chain_reference event_id) (st.1, graph)
    (filter (λ id, id ∈ full) (pdu_auth_events event)).

(** One completion of a pending fetch. *)
Definition chain_complete full (id : string) (st : list string * gmap string ReferencedIds) :
    list string * gmap string ReferencedIds :=
  match fetch id with
  | Ok event => chain_visit full event st
  | Err _ => st
  end.

(** Any pending fetch may complete next. *)
Inductive chain_step full :
    list string * gmap string ReferencedIds → list string * gmap string ReferencedIds → Prop :=
  | chain_step_intro todo id rest graph :
      todo ≡ₚ id :: rest →
      chain_step full (todo, graph) (chain_complete full id (rest, graph)).

Fixpoint chain_loop (fuel : nat) full (st : list string * gmap string ReferencedIds) :
    option (gmap string ReferencedIds) :=
  match st.1 with
  | [] => Some st.2
  | id :: todo =>
      match fuel with
      | O => None
      | S fuel => chain_loop fuel full (chain_complete full id (todo, st.2))
      end
  end.

Definition add_event_auth_chain (fuel : nat) full graph (event_id : string) :
    option (gmap string ReferencedIds) :=
  chain_loop fuel full ([event_id], graph).

Definition is_power_event_id (event_id : string) : bool :=
  match fetch event_id with Ok e => is_power_event e | Err _ => false end.

(** The graph, from the set in its iteration order. *)
Fixpoint add_chains (fuel : nat) full graph (ids : list string) : option (gmap string ReferencedIds) :=
  match ids with
  | [] => Some graph
  | id :: ids' => g ← add_event_auth_chain fuel full graph id; add_chains fuel full g ids'
  end.

Definition power_graph (fuel : nat) (ids : list string) : option (gmap string ReferencedIds) :=
  add_chains fuel (list_to_set ids) ∅ (filter (λ id, is_power_event_id id = true) ids).

(** The create event and the power-levels event among the auth events; the loop
    stops when both are known. *)
Fixpoint scan_auth_events (hydra_room_id : bool) (create levels : option Pdu) (ids : list string) :
    option Pdu * option Pdu :=
  match ids with
  | [] => (create, levels)
  | id :: ids' =>
      match fetch id with
      | Err _ => scan_auth_events hydra_room_id create levels ids'
      | Ok auth_event =>
          let '(create, levels) :=
            if negb hydra_room_id && is_type_and_state_key auth_event ROOM_CREATE "" then
              (Some (default auth_event create), levels)
            else if is_type_and_state_key auth_event ROOM_POWER_LEVELS "" then
              (create, Some (default auth_event levels))
            else (create, levels) in
          if bool_decide (is_Some levels) && bool_decide (is_Some create) then (create, levels)
          else scan_auth_events hydra_room_id create levels ids'
      end
  end.

Definition power_level_for_sender (event_id : string) : Result Error UserPowerLevel :=
  let auth := authorization rules in
  let event := fetch event_id in
  let hydra_room_id := room_create_event_id_as_room_id auth in
  let? create :=
    match hydra_room_id, event with
    | true, Ok event =>
        let? create_id := ok_or (ErrMsg "room id is not an event id") (room_as_event_id (pdu_room_id event)) in
        let? fetched := fetch create_id in
        Ok (Some fetched)
    | _, _ => Ok None
    end in
  let '(create, levels) :=
    scan_auth_events hydra_room_id create None
      (match event with Ok event => pdu_auth_events event | Err _ => [] end) in
  match ok event, create ≫= λ c, ok (creators c auth) with
  | Some event, Some cs => opt_user_power_level levels (pdu_sender event) cs auth
  | _, _ =>
      let? n := opt_get_as_int_or_default levels UsersDefault auth in Ok (Level n)
  end.

(** The levels are read for every event of the graph before the sort. *)
Fixpoint collect_levels (ids : list string) : Result Error (gmap string UserPowerLevel) :=
  match ids with
  | [] => Ok ∅
  | id :: ids' =>
      let? level := map_err (λ _, Request NotFound "Missing PL for sender") (power_level_for_sender id) in
      let? levels := collect_levels ids' in
      Ok (<[id := level]> levels)
  end.

Definition power_query (event_to_power_level : gmap string UserPowerLevel) (event_id : string) :
    Result Error PduInfo :=
  match event_to_power_level !! event_id with
  | None => Err (Request NotFound "Missing PL event")
  | Some power_level =>
      let? event := fetch event_id in
      Ok (power_level, pdu_ts event)
  end.

(** [ids] is the full conflicted set in its iteration order. *)
Definition power_sort (fuel : nat) (ids : list string) : option (Result Error (list string)) :=
  graph ← power_graph fuel ids;
  let entries := map_to_list graph in
  match collect_levels entries.*1 with
  | Err e => Some (Err e)
  | Ok levels => topological_sort (power_query levels) fuel entries
  end.
End power.

(** ** The graph of the power events *)

Section graph.
Variables (fetch : FetchEvent) (full : gset string).
Implicit Types (graph g : gmap string ReferencedIds) (todo : list string).

(** Events are stored under their own ids. *)
Definition fetch_coherent : Prop := ∀ id e, fetch id = Ok e → pdu_event_id e = id.

Definition add_ref (refs : ReferencedIds) (a : string) : ReferencedIds :=
  if decide (a ∈ refs) then refs else refs ++ [a].

(** The references of an event: its auth events in the full conflicted set. *)
Definition event_refs (e : Pdu) : ReferencedIds :=
  foldl add_ref [] (filter (λ id, id ∈ full) (pdu_auth_events e)).

Definition child (x a : string) : Prop :=
  ∃ e, fetch x = Ok e ∧ a ∈ pdu_auth_events e ∧ a ∈ full.

Definition fetchable (x : string) : Prop := ∃ e, fetch x = Ok e.

(** The graph that the events [starts] generate. *)
Definition graph_of (starts : list string) graph : Prop := ∀ x refs,
  graph !! x = Some refs ↔
  ∃ e s, s ∈ starts ∧ rtc child s x ∧ fetch x = Ok e ∧ refs = event_refs e.

Lemma graph_of_unique starts g g' : graph_of starts g → graph_of starts g' → g = g'.
Proof. intros Hg Hg'. apply map_eq. intros x. apply option_eq. intros refs. by rewrite (Hg x refs), (Hg' x refs). Qed.

Lemma graph_of_perm starts starts' g :
  (∀ s, s ∈ starts ↔ s ∈ starts') → graph_of starts g → graph_of starts' g.
Proof. intros Hs Hg x refs. rewrite (Hg x refs). by setoid_rewrite Hs. Qed.

Lemma elem_of_add_refs l acc a : a ∈ foldl add_ref acc l ↔ a ∈ acc ∨ a ∈ l.
Proof.
  revert acc. induction l as [|b l IH]; intros acc; simpl; [rewrite elem_of_nil; tauto|].
  rewrite IH. unfold add_ref. case_decide; set_solver.
Qed.

Lemma elem_of_event_refs e a : a ∈ event_refs e ↔ a ∈ pdu_auth_events e ∧ a ∈ full.
Proof. unfold event_refs. rewrite elem_of_add_refs, list_elem_of_filter. set_solver. Qed.

Lemma add_refs_known l acc : (∀ a, a ∈ l → a ∈ acc) → foldl add_ref acc l = acc.
Proof.
  induction l as [|b l IH]; intros Hl; [done|]. simpl. unfold add_ref at 2.
  rewrite decide_True by (apply Hl; by left). apply IH. intros a Ha. apply Hl. by right.
Qed.

Lemma foldl_chain_reference x l todo g acc :
  g !! x = Some acc →
  foldl (chain_reference x) (todo, g) l
  = (reverse (filter (λ a, g !! a = None) l) ++ todo, <[x := foldl add_ref acc l]> g).
Proof.
  revert todo g acc. induction l as [|a l IH]; intros todo g acc Hx; cbn [foldl].
  { by rewrite insert_id. }
  unfold chain_reference at 2. cbn [fst snd]. rewrite Hx. cbn [default from_option].
  set (g' := <[x := _]> g).
  assert (∀ b, g' !! b = None ↔ g !! b = None) as Hdom.
  { intros b. unfold g'. destruct (decide (b = x)) as [->|].
    - rewrite lookup_insert_eq, Hx. naive_solver.
    - by rewrite lookup_insert_ne. }
  rewrite (IH _ g' (add_ref acc a)) by (unfold g'; by rewrite lookup_insert_eq).
  f_equal; [|unfold g'; by rewrite insert_insert_eq].
  rewrite (filter_ext_elem _ (λ b, g !! b = None)) by (intros b _; apply Hdom).
  rewrite filter_cons. destruct (decide (is_Some (g !! a))) as [[refs Ha]|Ha].
  - by rewrite decide_False by congruence.
  - rewrite decide_True by (by apply eq_None_not_Some). rewrite reverse_cons, <-app_assoc. done.
Qed.

Hypothesis Hcoh : fetch_coherent.

Lemma chain_visit_spec x e todo g :
  fetch x = Ok e → (∀ refs, g !! x = Some refs → refs = event_refs e) →
  chain_visit full e (todo, g)
  = (reverse (filter (λ a, <[x := event_refs e]> g !! a = None)
                (filter (λ id, id ∈ full) (pdu_auth_events e))) ++ todo, <[x := event_refs e]> g).
Proof.
  intros Hx Hg. unfold chain_visit. rewrite (Hcoh x e Hx). cbn [fst snd].
  set (l := filter (λ id, id ∈ full) (pdu_auth_events e)).
  destruct (g !! x) as [refs|] eqn:Egx.
  - specialize (Hg refs eq_refl) as ->. rewrite (foldl_chain_reference x l todo g _ Egx).
    rewrite add_refs_known; [|intros a Ha; unfold event_refs; apply elem_of_add_refs; by right].
    by rewrite insert_id.
  - rewrite (foldl_chain_reference x l todo _ []) by (by rewrite lookup_insert_eq).
    rewrite insert_insert_eq. f_equal. f_equal. f_equal. apply filter_ext_elem. intros a _.
    destruct (decide (a = x)) as [->|]; [by rewrite !lookup_insert_eq|by rewrite !lookup_insert_ne].
Qed.

(** What holds while the chain of [start] is added to the graph of [starts]. *)
Record chain_inv (starts : list string) (start : string)
    (st : list string * gmap string ReferencedIds) : Prop := {
  ci_sound x refs : st.2 !! x = Some refs →
    ∃ e s, s ∈ start :: starts ∧ rtc child s x ∧ fetch x = Ok e ∧ refs = event_refs e;
  ci_todo x : x ∈ st.1 → rtc child start x;
  ci_closed x a : is_Some (st.2 !! x) → child x a → fetchable a → is_Some (st.2 !! a) ∨ a ∈ st.1;
  ci_starts s : s ∈ start :: starts → fetchable s → is_Some (st.2 !! s) ∨ (s = start ∧ s ∈ st.1);
}.

Lemma chain_inv_init starts start g :
  graph_of starts g → chain_inv starts start ([start], g).
Proof.
  intros Hg. split; cbn [fst snd].
  - intros x refs (e & s & ? & ?)%(Hg x refs). exists e, s. split; [by right|done].
  - intros x ->%list_elem_of_singleton. done.
  - intros x a [refs (e & s & Hs & Hr & He & _)%(Hg x refs)] Hc [e' He']. left.
    exists (event_refs e'). apply (Hg a). exists e', s. split_and!; [done| |done..].
    by eapply rtc_r.
  - intros s [->|Hs]%elem_of_cons [e He]; [right; by split; [|left]|left].
    exists (event_refs e). apply (Hg s). by exists e, s.
Qed.

Lemma chain_inv_step starts start st st' :
  chain_inv starts start st → chain_step fetch full st st' → chain_inv starts start st'.
Proof.
  intros [Hsound Htodo Hclosed Hstarts] Hstep. destruct Hstep as [todo id rest g P]. cbn [fst snd] in *.
  unfold chain_complete. destruct (fetch id) as [e|err] eqn:Ef.
  - rewrite (chain_visit_spec id e rest g Ef).
    2:{ intros refs (e' & _ & _ & _ & He' & ->)%Hsound. congruence. }
    set (g' := <[id := event_refs e]> g). set (new := reverse _).
    assert (∀ x, is_Some (g !! x) → is_Some (g' !! x)) as Hmono.
    { intros x Hx. unfold g'. destruct (decide (x = id)) as [->|]; [by rewrite lookup_insert_eq|].
      by rewrite lookup_insert_ne. }
    assert (is_Some (g' !! id)) as Hid by (unfold g'; by rewrite lookup_insert_eq).
    assert (∀ a, a ∈ new ↔ child id a ∧ g' !! a = None) as Hnew.
    { intros a. unfold new. rewrite elem_of_reverse, !list_elem_of_filter. split.
      - intros (? & ? & ?). split; [by exists e|done].
      - intros [(e' & He' & ? & ?) ?]. assert (e' = e) as -> by congruence. done. }
    split; cbn [fst snd].
    + intros x refs. unfold g'. destruct (decide (x = id)) as [->|].
      * rewrite lookup_insert_eq. intros [= <-]. exists e, start. split_and!; [by left| |done..].
        apply Htodo. rewrite P. by left.
      * rewrite lookup_insert_ne by done. apply Hsound.
    + intros x [[Hc _]%Hnew|Hx]%elem_of_app.
      * eapply rtc_r; [|exact Hc]. apply Htodo. rewrite P. by left.
      * apply Htodo. rewrite P. by right.
    + intros x a Hx Hc Ha. destruct (decide (g' !! a = None)) as [Hn|?%not_eq_None_Some]; [|by left].
      destruct (decide (x = id)) as [->|Hne]; [right; apply elem_of_app; left; by apply Hnew|].
      unfold g' in Hx. rewrite lookup_insert_ne in Hx by done.
      destruct (Hclosed x a Hx Hc Ha) as [?%Hmono|Hin]; [by left|].
      rewrite P in Hin. apply elem_of_cons in Hin as [->|Hin]; [by left|]. right. apply elem_of_app. by right.
    + intros s Hs Hf. destruct (Hstarts s Hs Hf) as [?%Hmono|[-> Hin]]; [by left|].
      rewrite P in Hin. apply elem_of_cons in Hin as [->|Hin]; [by left|].
      right. split; [done|]. apply elem_of_app. by right.
  - assert (¬ fetchable id) as Hnf by (intros [e He]; congruence).
    split; cbn [fst snd]; [done| | |].
    + intros x Hx. apply Htodo. rewrite P. by right.
    + intros x a Hx Hc Ha. destruct (Hclosed x a Hx Hc Ha) as [?|Hin]; [by left|].
      rewrite P in Hin. apply elem_of_cons in Hin as [->|Hin]; [done|by right].
    + intros s Hs Hf. destruct (Hstarts s Hs Hf) as [?|[-> Hin]]; [by left|].
      rewrite P in Hin. apply elem_of_cons in Hin as [->|Hin]; [done|by right].
Qed.

Lemma chain_inv_final starts start g :
  chain_inv starts start ([], g) → graph_of (start :: starts) g.
Proof.
  intros [Hsound _ Hclosed Hstarts] x refs. cbn [fst snd] in *. split; [apply Hsound|].
  intros (e & s & Hs & Hr & He & ->).
  assert (fetchable s → is_Some (g !! s)) as Hstart.
  { intros Hf. destruct (Hstarts s Hs Hf) as [?|[_ []%elem_of_nil]]. done. }
  assert (∀ x, rtc child s x → fetchable x → is_Some (g !! x)) as Hall.
  { apply (rtc_ind_r (λ y, fetchable y → is_Some (g !! y)) s); [done|].
    intros y z _ Hc IH Hz. assert (is_Some (g !! y)) as Hgy by (apply IH; destruct Hc as (e' & ? & _); by exists e').
    by destruct (Hclosed y z Hgy Hc Hz) as [?|[]%elem_of_nil]. }
  destruct (Hall x Hr) as [refs Hx]; [by exists e|].
  destruct (Hsound x refs Hx) as (e' & _ & _ & _ & He' & ->). by assert (e' = e) as -> by congruence.
Qed.

(** ** Every run ends *)

(** Pending fetches of events the graph already has. *)
Definition repeats (st : list string * gmap string ReferencedIds) : nat :=
  length (filter (λ a, is_Some (st.2 !! a)) st.1).

Definition chain_wf (U : gset string) (st : list string * gmap string ReferencedIds) : Prop :=
  full ⊆ U ∧ (∀ x, x ∈ st.1 → x ∈ U)
  ∧ ∀ x refs, st.2 !! x = Some refs → ∃ e, fetch x = Ok e ∧ refs = event_refs e.

(** Each completion adds an event to the graph, or drops a repeated fetch, or
    drops a fetch that failed. *)
Lemma chain_step_measure U st st' :
  chain_wf U st → chain_step fetch full st st' →
  chain_wf U st' ∧
  (size (U ∖ dom st'.2) < size (U ∖ dom st.2)
   ∨ st'.2 = st.2 ∧ (repeats st' < repeats st ∨ repeats st' = repeats st ∧ length st'.1 < length st.1))%nat.
Proof.
  intros (HfU & HtU & Href) Hstep. destruct Hstep as [todo id rest g P]. cbn [fst snd] in *.
  unfold chain_complete. destruct (fetch id) as [e|err] eqn:Ef.
  - assert (id ∈ U) as HidU by (apply HtU; rewrite P; by left).
    rewrite (chain_visit_spec id e rest g Ef).
    2:{ intros refs (e' & He' & ->)%Href. congruence. }
    set (g' := <[id := event_refs e]> g). set (new := reverse _).
    assert (∀ a, a ∈ new → a ∈ full ∧ g' !! a = None) as Hnew.
    { intros a. unfold new. rewrite elem_of_reverse, !list_elem_of_filter. tauto. }
    split; [split_and!; [done| |]|]; cbn [fst snd].
    + intros x [[Hx _]%Hnew|Hx]%elem_of_app; [by apply HfU|]. apply HtU. rewrite P. by right.
    + intros x refs. unfold g'. destruct (decide (x = id)) as [->|].
      * rewrite lookup_insert_eq. intros [= <-]. eauto.
      * rewrite lookup_insert_ne by done. apply Href.
    + destruct (g !! id) as [refs|] eqn:Eid.
      * right. assert (g' = g) as Hg'.
        { unfold g'. apply insert_id. destruct (Href id refs Eid) as (e' & He' & ->). congruence. }
        rewrite Hg' in *. split; [done|]. left. unfold repeats. cbn [fst snd].
        rewrite filter_app, (filter_none _ new) by (intros a [_ Ha]%Hnew; rewrite Ha; by intros []).
        rewrite P, filter_cons_True by eauto. simpl. lia.
      * left. apply subset_size. split; [unfold g'; set_solver|]. intros Hs.
        assert (id ∈ U ∖ dom g) as Hin by (apply elem_of_difference; rewrite not_elem_of_dom; done).
        apply Hs in Hin. unfold g' in Hin. set_solver.
  - split; [split_and!; [done| |done]|]; cbn [fst snd].
    + intros x Hx. apply HtU. rewrite P. by right.
    + right. split; [done|]. right. unfold repeats. cbn [fst snd]. rewrite P, filter_cons_False.
      * split; [done|]. simpl. lia.
      * intros [refs (e & He & _)%Href]. congruence.
Qed.

Lemma chain_terminates U st : chain_wf U st → Acc (flip (chain_step fetch full)) st.
Proof.
  remember (size (U ∖ dom st.2)) as n eqn:Hn. revert st Hn.
  induction (lt_wf n) as [n _ IHn]. intros st Hn.
  remember (repeats st) as m eqn:Hm. revert st Hn Hm.
  induction (lt_wf m) as [m _ IHm]. intros st Hn Hm.
  remember (length st.1) as k eqn:Hk. revert st Hn Hm Hk.
  induction (lt_wf k) as [k _ IHk]. intros st Hn Hm Hk Hwf.
  constructor. intros st' Hstep.
  destruct (chain_step_measure U st st' Hwf Hstep) as [Hwf' [Hlt|[Hg [Hlt|[Heq Hlt]]]]].
  - by eapply (IHn (size (U ∖ dom st'.2))); [lia|..].
  - eapply (IHm (repeats st')); [lia|by rewrite Hg|done|done].
  - eapply (IHk (length st'.1)); [lia|by rewrite Hg|congruence|done|done].
Qed.

(** The executable loop is one of the runs. *)
Lemma chain_loop_step fuel id todo g :
  chain_loop fetch (S fuel) full (id :: todo, g) = chain_loop fetch fuel full (chain_complete fetch full id (todo, g)).
Proof. done. Qed.

Lemma chain_loop_run st :
  Acc (flip (chain_step fetch full)) st →
  ∃ n g, rtc (chain_step fetch full) st ([], g) ∧ ∀ fuel, (n <= fuel)%nat → chain_loop fetch fuel full st = Some g.
Proof.
  induction 1 as [[[|id todo] g] _ IH].
  - exists 0%nat, g. split; [done|]. by intros [|fuel].
  - assert (chain_step fetch full (id :: todo, g) (chain_complete fetch full id (todo, g))) as Hs
      by (by constructor).
    destruct (IH _ Hs) as (n & g' & Hrun & Hfuel). exists (S n), g'. split; [by eapply rtc_l|].
    intros [|fuel] Hf; [lia|]. rewrite chain_loop_step. apply Hfuel. lia.
Qed.
End graph.

Section power_graph.
Variable fetch : FetchEvent.
Hypothesis Hcoh : fetch_coherent fetch.
Implicit Types (full : gset string) (g : gmap string ReferencedIds).

Lemma graph_wf full starts start g :
  graph_of fetch full starts g → chain_wf fetch full ({[start]} ∪ full) ([start], g).
Proof.
  intros Hg. split_and!; cbn [fst snd]; [set_solver..|].
  intros x refs (e & s & _ & _ & ? & ?)%(Hg x refs). eauto.
Qed.

Lemma chain_run full starts start g st :
  graph_of fetch full starts g → rtc (chain_step fetch full) ([start], g) st →
  chain_inv fetch full starts start st.
Proof.
  intros Hg Hrun. pose proof (chain_inv_init fetch full starts start g Hg) as Hinv. clear Hg.
  remember ([start], g) as st0 eqn:E. clear E.
  induction Hrun as [|st1 st2 st3 Hstep _ IH]; [done|]. apply IH. by eapply chain_inv_step.
Qed.

Lemma add_event_auth_chain_spec full starts start g :
  graph_of fetch full starts g →
  ∃ n g', graph_of fetch full (start :: starts) g'
    ∧ ∀ fuel, (n <= fuel)%nat → add_event_auth_chain fetch fuel full g start = Some g'.
Proof.
  intros Hg. pose proof (chain_terminates fetch full Hcoh _ _ (graph_wf full starts start g Hg)) as Hacc.
  destruct (chain_loop_run fetch full _ Hacc) as (n & g' & Hrun & Hfuel).
  exists n, g'. split; [|done]. apply chain_inv_final. by eapply chain_run.
Qed.

Lemma add_chains_spec full starts g ids :
  graph_of fetch full starts g →
  ∃ n g', graph_of fetch full (reverse ids ++ starts) g'
    ∧ ∀ fuel, (n <= fuel)%nat → add_chains fetch fuel full g ids = Some g'.
Proof.
  revert starts g. induction ids as [|id ids IH]; intros starts g Hg.
  { exists 0%nat, g. by split. }
  destruct (add_event_auth_chain_spec full starts id g Hg) as (n & g1 & Hg1 & Hf1).
  destruct (IH (id :: starts) g1 Hg1) as (m & g2 & Hg2 & Hf2).
  exists (n `max` m)%nat, g2. split; [by rewrite reverse_cons, <-app_assoc|].
  intros fuel Hfuel. simpl. rewrite Hf1 by lia. simpl. apply Hf2. lia.
Qed.

Definition power_ids (ids : list string) : list string :=
  filter (λ id, is_power_event_id fetch id = true) ids.

Lemma power_graph_spec ids :
  ∃ n g, graph_of fetch (list_to_set ids) (power_ids ids) g
    ∧ ∀ fuel, (n <= fuel)%nat → power_graph fetch fuel ids = Some g.
Proof.
  destruct (add_chains_spec (list_to_set ids) [] ∅ (power_ids ids)) as (n & g & Hg & Hf).
  { intros x refs. rewrite lookup_empty. split; [done|]. intros (e & s & []%elem_of_nil & _). }
  exists n, g. split; [|done]. eapply graph_of_perm; [|exact Hg].
  intros s. by rewrite app_nil_r, elem_of_reverse.
Qed.
End power_graph.

(** The graph of the power events does not depend on timing.  However the
    pending fetches interleave, adding an event's auth chain ends, and it ends
    with the graph generated by the events added so far: the fetched events
    reachable from them through auth events of the conflicted set, each with
    its references in the set. *)
Theorem auth_chain_confluent (fetch : FetchEvent) (full : gset string) (starts : list string)
    (start : string) (g : gmap string ReferencedIds) :
  fetch_coherent fetch → graph_of fetch full starts g →
  Acc (flip (chain_step fetch full)) ([start], g)
  ∧ (∀ g', rtc (chain_step fetch full) ([start], g) ([], g') → graph_of fetch full (start :: starts) g')
  ∧ ∃ n g', ∀ fuel, (n <= fuel)%nat →
      add_event_auth_chain fetch fuel full g start = Some g'
      ∧ ∀ g'', rtc (chain_step fetch full) ([start], g) ([], g'') → g'' = g'.
Proof.
  intros Hcoh Hg. split_and!.
  - by eapply chain_terminates, graph_wf.
  - intros g' Hrun. apply chain_inv_final. by eapply chain_run.
  - destruct (add_event_auth_chain_spec fetch Hcoh full starts start g Hg) as (n & g' & Hg' & Hf).
    exists n, g'. intros fuel Hfuel. split; [by apply Hf|]. intros g'' Hrun.
    eapply graph_of_unique; [|exact Hg']. apply chain_inv_final. by eapply chain_run.
Qed.

(** ** The sort *)

Section sort.
Context `{Ruma}.
Variables (rules : RoomVersionRules) (fetch : FetchEvent).

Definition sender_level (x : string) : UserPowerLevel :=
  match power_level_for_sender rules fetch x with Ok l => l | Err _ => Infinite end.
Definition fetched_ts (x : string) : N := match fetch x with Ok e => pdu_ts e | Err _ => 0 end.

(** The order of two events that could both come next, and the auth events of
    an event within the conflicted set. *)
Definition power_before (x y : string) : Prop :=
  tie_le (mkTie x (sender_level x) (fetched_ts x)) (mkTie y (sender_level y) (fetched_ts y)).
Definition conflicted_auth (ids : list string) (x : string) : gset string :=
  match fetch x with
  | Ok e => list_to_set (filter (λ a, a ∈ ids) (pdu_auth_events e))
  | Err _ => ∅
  end.

(** The power events of [ids] with their auth chains within [ids]. *)
Definition power_closure (ids : list string) (x : string) : Prop :=
  ∃ p, p ∈ power_ids fetch ids ∧ rtc (child fetch (list_to_set ids)) p x.

Lemma collect_levels_ok ids :
  (∀ x, x ∈ ids → ∃ l, power_level_for_sender rules fetch x = Ok l) →
  ∃ m, collect_levels rules fetch ids = Ok m ∧ ∀ x, x ∈ ids → m !! x = Some (sender_level x).
Proof.
  induction ids as [|id ids IH]; intros Hl.
  { exists ∅. split; [done|]. set_solver. }
  cbn [collect_levels].
  destruct (Hl id) as [l El]; [by left|]. rewrite El. cbn [map_err].
  destruct IH as (m & -> & Hm); [intros x Hx; apply Hl; by right|].
  eexists. split; [done|]. intros x Hx. destruct (decide (x = id)) as [->|Hne].
  - rewrite lookup_insert_eq. unfold sender_level. by rewrite El.
  - rewrite lookup_insert_ne by done. apply Hm. by apply elem_of_cons in Hx as [?|?].
Qed.

Lemma collect_levels_err ids x e :
  x ∈ ids → power_level_for_sender rules fetch x = Err e →
  collect_levels rules fetch ids = Err (Request NotFound "Missing PL for sender").
Proof.
  induction ids as [|id ids IH]; [set_solver|]. cbn [collect_levels].
  intros [->|Hx]%elem_of_cons He; [by rewrite He|].
  destruct (power_level_for_sender rules fetch id); [|done]. cbn [map_err]. by rewrite IH.
Qed.

Lemma power_closure_ids ids x : power_closure ids x → x ∈ ids.
Proof.
  intros (p & [_ Hp]%list_elem_of_filter & Hr).
  revert Hp. induction Hr as [|a b c (e & _ & _ & Hb) _ IH]; [done|]. intros _. apply IH.
  by apply elem_of_list_to_set in Hb.
Qed.

Section graph_nodes.
Context (ids : list string) (g : gmap string ReferencedIds).
Hypothesis Hall : ∀ id, id ∈ ids → fetchable fetch id.
Hypothesis Hg : graph_of fetch (list_to_set ids) (power_ids fetch ids) g.

Lemma elem_of_graph_nodes x : x ∈ (map_to_list g).*1 ↔ power_closure ids x.
Proof.
  rewrite list_elem_of_fmap. split.
  - intros ([y refs] & -> & (e & p & ? & ? & _)%elem_of_map_to_list%(Hg y refs)). by exists p.
  - intros Hx. destruct (Hall x) as [e He]; [by apply power_closure_ids|].
    destruct Hx as (p & Hp & Hr). exists (x, event_refs (list_to_set ids) e). split; [done|].
    apply elem_of_map_to_list, Hg. by exists e, p.
Qed.

Lemma graph_nodes_deps x :
  power_closure ids x → graph_deps (map_to_list g) x = conflicted_auth ids x.
Proof.
  intros Hx. destruct (Hall x) as [e He]; [by apply power_closure_ids|].
  unfold graph_deps, refs_of, conflicted_auth. rewrite list_to_map_to_list, He.
  assert (g !! x = Some (event_refs (list_to_set ids) e)) as ->.
  { destruct Hx as (p & Hp & Hr). apply Hg. by exists e, p. }
  apply set_eq. intros a. simpl. rewrite !elem_of_list_to_set.
  rewrite elem_of_event_refs, list_elem_of_filter, elem_of_list_to_set. tauto.
Qed.
End graph_nodes.
End sort.

Lemma room_power_sort_spec `{Ruma} (rules : RoomVersionRules) (fetch : FetchEvent)
    (ids : list string) (rank : string → nat) :
  fetch_coherent fetch →
  (∀ id, id ∈ ids → fetchable fetch id) →
  (∀ x e a, fetch x = Ok e → a ∈ pdu_auth_events e → (rank a < rank x)%nat) →
  (∀ x, power_closure fetch ids x → ∃ l, power_level_for_sender rules fetch x = Ok l) →
  ∃ n nodes l, (∀ x, x ∈ nodes ↔ power_closure fetch ids x)
    ∧ greedy_order (power_before rules fetch) nodes (conflicted_auth fetch ids) l
    ∧ ∀ fuel, (n <= fuel)%nat → power_sort rules fetch fuel ids = Some (Ok l).
Proof.
  intros Hcoh Hall Hrank Hlev. destruct (power_graph_spec fetch Hcoh ids) as (n & g & Hg & Hf).
  pose proof (elem_of_graph_nodes fetch ids g Hall Hg) as Hnodes.
  pose proof (graph_nodes_deps fetch ids g Hall Hg) as Hdeps.
  destruct (collect_levels_ok rules fetch (map_to_list g).*1) as (m & Hm & Hml).
  { intros x Hx. by apply Hlev, Hnodes. }
  set (entries := map_to_list g) in *.
  assert (∀ x, x ∈ entries.*1 → power_query fetch m x = Ok (sender_level rules fetch x, fetched_ts fetch x)) as Hq.
  { intros x Hx. unfold power_query. rewrite Hml by done.
    destruct (Hall x) as [e He]; [by eapply power_closure_ids, Hnodes|].
    unfold fetched_ts. by rewrite He. }
  destruct (topological_sort_spec (power_query fetch m) entries rank) as (l & Hl & Hs).
  - apply NoDup_fst_map_to_list.
  - intros x refs r Hin%elem_of_map_to_list Hr.
    destruct (proj1 (Hg x refs) Hin) as (e & p & Hp & Hrtc & He & ->).
    apply elem_of_event_refs in Hr as [Hr Hfull]. split; [|by eapply Hrank].
    apply Hnodes. exists p. split; [done|]. eapply rtc_r; [done|]. by exists e.
  - intros x Hx. eauto.
  - exists (n `max` length entries)%nat, entries.*1, l. split_and!; [done| |].
    + eapply greedy_ext; [done|..|exact Hl].
      * intros x Hx. by apply Hdeps, Hnodes.
      * intros x y Hx Hy. unfold sooner, tie_of, power_before. by rewrite !Hq.
    + intros fuel Hfuel. unfold power_sort. rewrite Hf by lia. cbn [mbind option_bind].
      fold entries. rewrite Hm. apply Hs. lia.
Qed.

(** The power sort returns the reverse topological power ordering of the
    power events of the conflicted set with their auth chains in it: there is
    enough fuel, and the result is the greedy order by the power of the sender
    (as its auth events give it), the timestamp and the id, each event after its
    auth events of the set. *)
Theorem room_power_sort_correct `{Ruma} (rules : RoomVersionRules) (fetch : FetchEvent)
    (ids : list string) (rank : string → nat) :
  fetch_coherent fetch →
  (∀ id, id ∈ ids → fetchable fetch id) →
  (∀ x e a, fetch x = Ok e → a ∈ pdu_auth_events e → (rank a < rank x)%nat) →
  (∀ x, power_closure fetch ids x → ∃ l, power_level_for_sender rules fetch x = Ok l) →
  ∃ n nodes l, (∀ x, x ∈ nodes ↔ power_closure fetch ids x)
    ∧ greedy_order (power_before rules fetch) nodes (conflicted_auth fetch ids) l
    ∧ ∀ fuel, (n <= fuel)%nat → power_sort rules fetch fuel ids = Some (Ok l).
Proof. apply room_power_sort_spec. Qed.

#[local] Existing Instance ToyRuma.toy_ruma.

(** Two power-levels events that compete, with a join between them and the
    create event. *)
Module PowerExample.
Import ToyRuma.
Definition levels_by (id sender : string) (auth : list string) : Pdu :=
  pdu id ROOM_POWER_LEVELS sender (Some "")
    [("users", obj [("@ann:a", json_u64 100); ("@mod:a", json_u64 50)])] auth.
Definition events : list Pdu :=
  [create; member "$a" "@ann:a" "@ann:a" "join";
   levels_by "$p" "@ann:a" ["$c"; "$a"]; member "$m" "@mod:a" "@mod:a" "join";
   levels_by "$q" "@mod:a" ["$c"; "$p"; "$m"]; levels_by "$r" "@ann:a" ["$c"; "$p"; "$a"]].
Definition fetch : FetchEvent := store_of events.
Definition ids : list string := ["$q"; "$r"; "$m"].
Definition rank (x : string) : nat :=
  if decide (x = "$q" ∨ x = "$r") then 3 else if decide (x = "$p") then 2
  else if decide (x = "$a" ∨ x = "$m") then 1 else 0.

Lemma coherent : fetch_coherent fetch.
Proof. by intros id e [_ ?]%store_of_some. Qed.

Lemma ranked x e a : fetch x = Ok e → a ∈ pdu_auth_events e → (rank a < rank x)%nat.
Proof. apply store_of_ranked. by apply (bool_decide_unpack _); vm_compute. Qed.
End PowerExample.

Lemma auth_chain_confluent_witness :
  add_event_auth_chain PowerExample.fetch 9 {["$q"; "$r"; "$m"]} ∅ "$q"
    = Some (<["$q" := ["$m"]]> {["$m" := []]})
  ∧ ∃ g', add_event_auth_chain PowerExample.fetch 9 {["$q"; "$r"; "$m"]} ∅ "$q" = Some g'
      ∧ ∀ g'', rtc (chain_step PowerExample.fetch {["$q"; "$r"; "$m"]}) (["$q"], ∅) ([], g'') →
               graph_of PowerExample.fetch {["$q"; "$r"; "$m"]} ["$q"] g''.
Proof.
  split; [by vm_compute|].
  destruct (auth_chain_confluent PowerExample.fetch {["$q"; "$r"; "$m"]} [] "$q" ∅)
    as (_ & Hrun & _).
  - apply PowerExample.coherent.
  - intros x refs. rewrite lookup_empty. split; [done|]. by intros (e & s & []%elem_of_nil & _).
  - eexists. split; [by vm_compute|]. exact Hrun.
Defined.

Lemma room_power_sort_correct_witness :
  power_sort (mkVersion ToyRuma.v11 None) PowerExample.fetch 20 PowerExample.ids
    = Some (Ok ["$r"; "$m"; "$q"])
  ∧ ∃ n l, ∀ fuel, (n <= fuel)%nat →
      power_sort (mkVersion ToyRuma.v11 None) PowerExample.fetch fuel PowerExample.ids = Some (Ok l).
Proof.
  split; [by vm_compute|].
  destruct (room_power_sort_correct (mkVersion ToyRuma.v11 None) PowerExample.fetch PowerExample.ids
              PowerExample.rank) as (n & nodes & l & _ & _ & Hl).
  - apply PowerExample.coherent.
  - intros id Hid. assert (Forall (λ id, is_Some (ok (PowerExample.fetch id))) PowerExample.ids) as Hall
      by (by apply (bool_decide_unpack _); vm_compute).
    rewrite Forall_forall in Hall. specialize (Hall id Hid).
    unfold fetchable. destruct (PowerExample.fetch id) as [e|]; [by exists e|by destruct Hall].
  - apply PowerExample.ranked.
  - intros x Hx. assert (x ∈ PowerExample.ids) as Hid.
    { by eapply power_closure_ids. }
    clear Hx. revert x Hid.
    assert (Forall (λ x, is_Some (ok (power_level_for_sender (mkVersion ToyRuma.v11 None) PowerExample.fetch x)))
              PowerExample.ids) as Hall by (by apply (bool_decide_unpack _); vm_compute).
    rewrite Forall_forall in Hall. intros x Hx. specialize (Hall x Hx).
    destruct (power_level_for_sender _ _ x) as [lv|]; [by exists lv|by destruct Hall].
  - by exists n, l.
Defined.
