(* ===== verification/RoomMainline.v ===== *)
(** * Mainline ordering of the production resolver
    ([src/src/service/rooms/state_res/resolve/mainline_sort.rs])

    The mainline of a power-levels event, the position of an event relative to
    it, and the ordering of the remaining events.  The two walks follow auth
    links, so they take fuel; an acyclic event graph bounds it. *)

From S2P Require Import Prelude Bytes Core Json RoomEvents RoomMember RoomAuth RoomSort RoomPower.

Local Set Warnings "-register-all".

(** Sort keys: [(position, origin_server_ts, event_id)]. *)
Abbreviation PositionKey := ((nat * N) * string)%type.

Section mainline.
Variable fetch : FetchEvent.

(** The first power-levels event among the auth events; a fetch that fails
    before it is found fails the search. *)
Fixpoint get_power_levels_auth_event (auth_events : list string) : Result Error (option Pdu) :=
  match auth_events with
  | [] => Ok None
  | id :: auth_events' =>
      let? auth_event := fetch id in
      if is_type_and_state_key auth_event ROOM_POWER_LEVELS "" then Ok (Some auth_event)
      else get_power_levels_auth_event auth_events'
  end.

(** The mainline, from the given event towards the root. *)
Fixpoint mainline (fuel : nat) (power_level_event_id : option string) :
    option (Result Error (list string)) :=
  match power_level_event_id with
  | None => Some (Ok [])
  | Some id =>
      match fuel with
      | O => None
      | S fuel =>
          match fetch id with
          | Err e => Some (Err e)
          | Ok event =>
              match get_power_levels_auth_event (pdu_auth_events event) with
              | Err e => Some (Err e)
              | Ok next =>
                  rest ← mainline fuel (pdu_event_id <$> next);
                  Some (let? l := rest in Ok (pdu_event_id event :: l))
              end
          end
      end
  end.

(** [rev] is the mainline from its root, as [mainline_sort] passes it. *)
Fixpoint mainline_position (fuel : nat) (current_event : option Pdu) (rev : list string) :
    option (Result Error nat) :=
  match current_event with
  | None => Some (Ok 0)
  | Some event =>
      match list_find (λ id, id = pdu_event_id event) rev with
      | Some (position, _) => Some (Ok (S position))
      | None =>
          match fuel with
          | O => None
          | S fuel =>
              match get_power_levels_auth_event (pdu_auth_events event) with
              | Err e => Some (Err e)
              | Ok next => mainline_position fuel next rev
              end
          end
      end
  end.

(** The key of one event; events that cannot be placed are dropped. *)
Definition position_key (fuel : nat) (rev : list string) (event_id : string) :
    option (option PositionKey) :=
  match fetch event_id with
  | Err _ => Some None
  | Ok event =>
      r ← mainline_position fuel (Some event) rev;
      Some (match r with Ok position => Some ((position, pdu_ts event), event_id) | Err _ => None end)
  end.

Definition mainline_sort (fuel : nat) (power_level_event_id : option string)
    (events : list string) : option (Result Error (list string)) :=
  ml ← mainline fuel power_level_event_id;
  match ml with
  | Err e => Some (Err e)
  | Ok ml =>
      keys ← mapM (position_key fuel (reverse ml)) events;
      Some (Ok (merge_sort key_le (omap (λ k, k) keys)).*2)
  end.

(** ** What the walks compute *)

(** The chain of power-levels events an event descends from. *)
Inductive mainline_of : option string → list string → Prop :=
  | mainline_end : mainline_of None []
  | mainline_link x e next l :
      fetch x = Ok e → get_power_levels_auth_event (pdu_auth_events e) = Ok next →
      mainline_of (pdu_event_id <$> next) l → mainline_of (Some x) (x :: l).

(** The position of the first event of [x]'s chain on the mainline [rev],
    counted from the root; 0 when there is none. *)
Inductive positioned (rev : list string) : string → nat → Prop :=
  | on_mainline x i : rev !! i = Some x → (∀ j, rev !! j = Some x → (i <= j)%nat) → positioned rev x (S i)
  | off_mainline x e e' n :
      x ∉ rev → fetch x = Ok e → get_power_levels_auth_event (pdu_auth_events e) = Ok (Some e') →
      positioned rev (pdu_event_id e') n → positioned rev x n
  | no_mainline x e :
      x ∉ rev → fetch x = Ok e → get_power_levels_auth_event (pdu_auth_events e) = Ok None →
      positioned rev x 0.

Hypothesis Hcoh : fetch_coherent fetch.
Variable rank : string → nat.
Hypothesis Hrank : ∀ x e a, fetch x = Ok e → a ∈ pdu_auth_events e → (rank a < rank x)%nat.

Lemma levels_auth_event_spec ids e :
  get_power_levels_auth_event ids = Ok (Some e) →
  pdu_event_id e ∈ ids ∧ fetch (pdu_event_id e) = Ok e ∧ is_type_and_state_key e ROOM_POWER_LEVELS "" = true.
Proof.
  induction ids as [|id ids IH]; [done|]. cbn [get_power_levels_auth_event].
  destruct (fetch id) as [a|] eqn:Ef; [|done].
  destruct (is_type_and_state_key a ROOM_POWER_LEVELS "") eqn:Et.
  - intros [= <-]. rewrite (Hcoh id a Ef). split_and!; [by left|done..].
  - intros (? & ? & ?)%IH. split; [by right|done].
Qed.

Lemma mainline_spec fuel c :
  (∀ x, c = Some x → rank x < fuel)%nat →
  ∃ r, mainline fuel c = Some r ∧ ∀ l, r = Ok l → mainline_of c l.
Proof.
  revert c. induction fuel as [|fuel IH]; intros [x|] Hf; cbn [mainline].
  - specialize (Hf x eq_refl). lia.
  - eexists. split; [done|]. intros l [= <-]. constructor.
  - destruct (fetch x) as [e|] eqn:Ef; [|by eexists; split; [done|]; intros l [=]].
    destruct (get_power_levels_auth_event (pdu_auth_events e)) as [next|] eqn:En;
      [|by eexists; split; [done|]; intros l [=]].
    destruct (IH (pdu_event_id <$> next)) as (r & -> & Hr).
    { intros y. destruct next as [e'|]; [|done]. intros [= <-].
      apply levels_auth_event_spec in En as (Hin & _). specialize (Hrank x e _ Ef Hin).
      specialize (Hf x eq_refl). lia. }
    eexists. split; [done|]. intros l. destruct r as [l'|]; [|done]. intros [= <-].
    rewrite (Hcoh x e Ef). econstructor; [done..|by apply Hr].
  - eexists. split; [done|]. intros l [= <-]. constructor.
Qed.

Lemma mainline_complete fuel c l :
  mainline_of c l → (∀ x, c = Some x → rank x < fuel)%nat → mainline fuel c = Some (Ok l).
Proof.
  intros Hm. revert fuel. induction Hm as [|x e next l He Hn Hm IH]; intros [|fuel] Hf; [done..| |].
  { specialize (Hf x eq_refl). lia. }
  cbn [mainline]. rewrite He, Hn, IH; [by rewrite (Hcoh x e He)|].
  intros y. destruct next as [e'|]; [|done]. intros [= <-].
  apply levels_auth_event_spec in Hn as (Hin & _). specialize (Hrank x e _ He Hin).
  specialize (Hf x eq_refl). lia.
Qed.

Lemma mainline_position_spec fuel x e rev :
  fetch x = Ok e → (rank x < fuel)%nat →
  ∃ r, mainline_position fuel (Some e) rev = Some r ∧ ∀ n, r = Ok n ↔ positioned rev x n.
Proof.
  revert x e. induction fuel as [|fuel IH]; intros x e He Hf; [lia|]. cbn [mainline_position].
  rewrite (Hcoh x e He). destruct (list_find (λ id, id = x) rev) as [[i y]|] eqn:Efind.
  - apply list_find_Some in Efind as (Hi & -> & Hb). eexists. split; [done|]. intros n. split.
    + intros [= <-]. apply on_mainline; [done|]. intros j Hj. destruct (decide (j < i)%nat); [|lia].
      by destruct (Hb j x Hj).
    + intros Hp. inversion Hp as [? j Hj Hmin| |]; subst.
      * do 2 f_equal. apply Nat.le_antisymm; [|by apply Hmin].
        destruct (decide (j < i)%nat); [|lia]. by destruct (Hb j x Hj).
      * exfalso. by eapply H, list_elem_of_lookup_2.
      * exfalso. by eapply H, list_elem_of_lookup_2.
  - apply list_find_None in Efind. assert (x ∉ rev) as Hx.
    { intros Hin. rewrite Forall_forall in Efind. by apply (Efind x Hin). }
    destruct (get_power_levels_auth_event (pdu_auth_events e)) as [[e'|]|err] eqn:En.
    + pose proof (levels_auth_event_spec _ _ En) as (Hin & He' & _).
      destruct (IH (pdu_event_id e') e' He') as (r & -> & Hr).
      { specialize (Hrank x e _ He Hin). lia. }
      exists r. split; [done|]. intros n. rewrite Hr. split; [by apply off_mainline with e|].
      intros Hp. inversion Hp; subst; try congruence.
      exfalso. by eapply Hx, list_elem_of_lookup_2.
    + exists (Ok 0). destruct fuel; (split; [done|]).
      all: intros n; split; [intros [= <-]; by eapply no_mainline|].
      all: intros Hp; inversion Hp; subst; try congruence.
      all: exfalso; by eapply Hx, list_elem_of_lookup_2.
    + eexists. split; [done|]. intros n. split; [done|]. intros Hp. inversion Hp; subst; try congruence.
      exfalso. by eapply Hx, list_elem_of_lookup_2.
Qed.
End mainline.

(** ** More fuel, and another order of the events, change nothing *)

Section stable.
Variable fetch : FetchEvent.

Lemma mainline_mono n m c r :
  (n <= m)%nat → mainline fetch n c = Some r → mainline fetch m c = Some r.
Proof.
  revert m c r. induction n as [|n IH]; intros m c r Hm.
  { destruct c; cbn; [done|]. by destruct m. }
  destruct m as [|m]; [lia|]. destruct c as [x|]; cbn [mainline]; [|done].
  destruct (fetch x) as [e|]; [|done]. destruct (get_power_levels_auth_event fetch _) as [next|]; [|done].
  destruct (mainline fetch n (pdu_event_id <$> next)) as [rest|] eqn:Er; [|done].
  by rewrite (IH m _ rest ltac:(lia) Er).
Qed.

Lemma mainline_position_mono n m e rev r :
  (n <= m)%nat → mainline_position fetch n e rev = Some r → mainline_position fetch m e rev = Some r.
Proof.
  revert m e r. induction n as [|n IH]; intros m e r Hm.
  { destruct e as [e|]; [|by destruct m]. cbn. destruct (list_find _ rev) as [[i y]|] eqn:Ef; [|done].
    destruct m; cbn; by rewrite Ef. }
  destruct m as [|m]; [lia|]. destruct e as [e|]; cbn [mainline_position]; [|done].
  destruct (list_find _ rev) as [[i y]|]; [done|].
  destruct (get_power_levels_auth_event fetch _) as [next|]; [|done]. apply IH. lia.
Qed.

Lemma position_keys_mono n m rev ids keys :
  (n <= m)%nat → mapM (position_key fetch n rev) ids = Some keys →
  mapM (position_key fetch m rev) ids = Some keys.
Proof.
  intros Hm. revert keys. induction ids as [|id ids IH]; intros keys; [done|]. cbn [mapM].
  destruct (position_key fetch n rev id) as [o|] eqn:Eo; [|done]. cbn [mbind option_bind].
  assert (position_key fetch m rev id = Some o) as ->.
  { revert Eo. unfold position_key. destruct (fetch id) as [e|]; [|done].
    destruct (mainline_position fetch n (Some e) rev) as [r|] eqn:Ep; [|done].
    by rewrite (mainline_position_mono n m _ _ _ Hm Ep). }
  cbn [mbind option_bind]. destruct (mapM (position_key fetch n rev) ids) as [ks|]; [|done].
  by rewrite (IH ks eq_refl).
Qed.

Lemma mainline_sort_mono n m p ids r :
  (n <= m)%nat → mainline_sort fetch n p ids = Some r → mainline_sort fetch m p ids = Some r.
Proof.
  intros Hm. unfold mainline_sort. destruct (mainline fetch n p) as [ml|] eqn:Em; [|done].
  rewrite (mainline_mono n m _ _ Hm Em). cbn [mbind option_bind]. destruct ml as [ml|]; [|done].
  destruct (mapM (position_key fetch n (reverse ml)) ids) as [ks|] eqn:Ek; [|done].
  by rewrite (position_keys_mono n m _ _ _ Hm Ek).
Qed.

Lemma mainline_sort_perm fuel p ids ids' :
  ids ≡ₚ ids' → mainline_sort fetch fuel p ids = mainline_sort fetch fuel p ids'.
Proof.
  intros P. unfold mainline_sort. destruct (mainline fetch fuel p) as [[ml|]|]; [|done..].
  cbn [mbind option_bind]. pose proof (mapM_perm (position_key fetch fuel (reverse ml)) _ _ P) as Hk.
  destruct (mapM _ ids) as [ks|], (mapM _ ids') as [ks'|]; try done. cbn [mbind option_bind].
  do 3 f_equal. apply merge_sort_perm. by rewrite Hk.
Qed.
End stable.

(** Only the given events are returned. *)
Lemma mainline_sort_ids (fetch : FetchEvent) fuel p ids l :
  mainline_sort fetch fuel p ids = Some (Ok l) → ∀ x, x ∈ l → x ∈ ids.
Proof.
  unfold mainline_sort. destruct (mainline fetch fuel p) as [[ml|]|]; [|done..]. cbn [mbind option_bind].
  destruct (mapM _ ids) as [ks|] eqn:Ek; [|done]. cbn [mbind option_bind]. intros [= <-] x.
  rewrite list_elem_of_fmap. intros (key & -> & Hk). rewrite merge_sort_Permutation in Hk.
  apply list_elem_of_omap in Hk as (o & Ho & ->). apply mapM_Some in Ek.
  apply list_elem_of_lookup in Ho as [i Ho].
  destruct (Forall2_lookup_r _ _ _ _ _ Ek Ho) as (id & Hid & Hp). revert Hp. unfold position_key.
  destruct (fetch id) as [e|]; [|done]. destruct (mainline_position _ _ _ _) as [[n|]|]; [|done..].
  intros [= <-]. by eapply list_elem_of_lookup_2.
Qed.

(** The mainline can be read when the auth events of stored events are stored. *)
Section readable.
Variables (fetch : FetchEvent) (rank : string → nat) (stored : gset string).
Hypothesis Hcoh : fetch_coherent fetch.
Hypothesis Hrank : ∀ x e a, fetch x = Ok e → a ∈ pdu_auth_events e → (rank a < rank x)%nat.
Hypothesis Hstored : ∀ x, x ∈ stored → ∃ e, fetch x = Ok e ∧ ∀ a, a ∈ pdu_auth_events e → a ∈ stored.

Lemma levels_auth_event_readable ids :
  (∀ a, a ∈ ids → a ∈ stored) → ∃ o, get_power_levels_auth_event fetch ids = Ok o.
Proof.
  induction ids as [|id ids IH]; intros Hin; [by exists None|]. cbn [get_power_levels_auth_event].
  destruct (Hstored id) as (e & -> & _); [apply Hin; by left|].
  destruct (is_type_and_state_key _ _ _); [by eexists|]. apply IH. intros a Ha. apply Hin. by right.
Qed.

Lemma mainline_readable x : x ∈ stored → ∃ ml, mainline_of fetch (Some x) ml.
Proof.
  induction x as [x IH] using (well_founded_induction (well_founded_ltof _ rank)). intros Hx.
  destruct (Hstored x Hx) as (e & He & Hauth).
  destruct (levels_auth_event_readable _ Hauth) as [[e'|] Hn].
  - destruct (levels_auth_event_spec fetch Hcoh _ _ Hn) as (Hin & _).
    destruct (IH (pdu_event_id e')) as [ml Hml]; [by eapply Hrank|by apply Hauth|].
    exists (x :: ml). by eapply mainline_link.
  - exists [x]. by eapply mainline_link; [done..|constructor].
Qed.
End readable.

Section sort_correct.
Variables (fetch : FetchEvent) (rank : string → nat) (fuel : nat).
Hypothesis Hcoh : fetch_coherent fetch.
Hypothesis Hrank : ∀ x e a, fetch x = Ok e → a ∈ pdu_auth_events e → (rank a < rank x)%nat.
Hypothesis Hfuel : ∀ x, (rank x < fuel)%nat.

Lemma position_key_spec rev x :
  ∃ o, position_key fetch fuel rev x = Some o
    ∧ ∀ n ts y, o = Some ((n, ts), y) ↔
        y = x ∧ ∃ e, fetch x = Ok e ∧ ts = pdu_ts e ∧ positioned fetch rev x n.
Proof.
  unfold position_key. destruct (fetch x) as [e|err] eqn:Ex.
  - destruct (mainline_position_spec fetch Hcoh rank Hrank fuel x e rev Ex (Hfuel x)) as (r & -> & Hr).
    eexists. split; [done|]. intros n ts y. destruct r as [n'|err].
    + split.
      * intros [= <- <- <-]. split; [done|]. exists e. split_and!; [done..|]. by apply Hr.
      * intros (-> & e' & [= <-] & -> & Hp). apply Hr in Hp as [= ->]. done.
    + split; [done|]. intros (_ & e' & _ & _ & Hp). by apply Hr in Hp.
  - exists None. split; [done|]. intros n ts y. split; [done|]. intros (_ & e & ? & _). done.
Qed.

Lemma position_keys_spec rev ids :
  NoDup ids →
  ∃ keys, mapM (position_key fetch fuel rev) ids = Some keys
    ∧ NoDup (omap (λ k, k) keys).*2
    ∧ ∀ n ts x, ((n, ts), x) ∈ omap (λ k, k) keys ↔
        x ∈ ids ∧ ∃ e, fetch x = Ok e ∧ ts = pdu_ts e ∧ positioned fetch rev x n.
Proof.
  induction ids as [|id ids IH]; intros ND.
  { exists []. split_and!; [done|constructor|set_solver]. }
  apply NoDup_cons in ND as [Hid ND]. destruct (IH ND) as (keys & Hk & NDk & Hin).
  destruct (position_key_spec rev id) as (o & Ho & Hok).
  exists (o :: keys). split; [simpl; by rewrite Ho, Hk|].
  assert (∀ n ts x, ((n, ts), x) ∈ omap (λ k : option PositionKey, k) (o :: keys) ↔
            o = Some ((n, ts), x) ∨ ((n, ts), x) ∈ omap (λ k : option PositionKey, k) keys) as Hcons.
  { intros n ts x. simpl. destruct o; [rewrite elem_of_cons|]; naive_solver. }
  split.
  - simpl. destruct o as [[[n ts] x]|]; [|done]. simpl. apply NoDup_cons. split; [|done].
    destruct (proj1 (Hok n ts x) eq_refl) as [-> _].
    intros ([[n' ts'] y] & -> & [? _]%Hin)%list_elem_of_fmap. done.
  - intros n ts x. rewrite Hcons, Hok, Hin, elem_of_cons. naive_solver.
Qed.
End sort_correct.

Lemma room_mainline_sort_spec (fetch : FetchEvent) (rank : string → nat) (fuel : nat)
    (power_levels : option string) (ids : list string) :
  fetch_coherent fetch →
  (∀ x e a, fetch x = Ok e → a ∈ pdu_auth_events e → (rank a < rank x)%nat) →
  (∀ x, rank x < fuel)%nat → NoDup ids →
  ∃ r, mainline_sort fetch fuel power_levels ids = Some r
    ∧ match r with
      | Err _ => ∀ ml, ¬ mainline_of fetch power_levels ml
      | Ok l => ∃ ml keys, mainline_of fetch power_levels ml ∧ l = keys.*2
          ∧ NoDup l ∧ StronglySorted key_le keys
          ∧ ∀ n ts x, ((n, ts), x) ∈ keys ↔
              x ∈ ids ∧ ∃ e, fetch x = Ok e ∧ ts = pdu_ts e ∧ positioned fetch (reverse ml) x n
      end.
Proof.
  intros Hcoh Hrank Hfuel ND. unfold mainline_sort.
  destruct (mainline_spec fetch Hcoh rank Hrank fuel power_levels) as (r & Hr & Hml); [by auto|].
  rewrite Hr. cbn [mbind option_bind]. destruct r as [ml|err].
  - destruct (position_keys_spec fetch rank fuel Hcoh Hrank Hfuel (reverse ml) ids ND)
      as (keys & -> & NDk & Hin).
    eexists. split; [done|]. exists ml, (merge_sort key_le (omap (λ k, k) keys)).
    split_and!; [by apply Hml|done| |apply StronglySorted_merge_sort; apply _|].
    + by rewrite merge_sort_Permutation.
    + intros n ts x. by rewrite merge_sort_Permutation.
  - eexists. split; [done|]. intros ml Hm.
    rewrite (mainline_complete fetch Hcoh rank Hrank fuel _ _ Hm) in Hr by auto. congruence.
Qed.


