(* ===== verification/RoomSubgraph.v ===== *)
(** * The conflicted state subgraph
    ([src/src/service/rooms/state_res/resolve/conflicted_subgraph.rs])

    A depth-first descent from every conflicted event, the descents sharing one
    map of visited events and running concurrently: a schedule picks which
    pending fetch completes next.  Vectors are kept with their last element
    first, so that [push] and [pop] work on the head. *)

From S2P Require Import Prelude Bytes Slices Core Json RoomEvents.

Local Set Warnings "-register-all".

(** One descent: the events on the way to the current one, and for each of
    them the auth events still to visit. *)
Record Local := mkLocal {
  local_path : list string;
  local_stack : list (list string);
}.

Record Substate := mkSubstate {
  in_subgraph : bool;
  seen : bool;
}.

Abbreviation Subgraph := (gmap string Substate).

(** The descents whose fetch is pending, each with the event it fetches; those
    not yet started; and the events emitted so far. *)
Record Global := mkGlobal {
  g_subgraph : Subgraph;
  g_todo : list (Local * option string);
  g_inputs : list (Local * option string);
  g_outputs : list string;
}.

Definition local_new (conflicted_event_id : string) : Local :=
  mkLocal [conflicted_event_id] [[conflicted_event_id]].

Fixpoint local_pop_from (path : list string) (stack : list (list string)) :
    option (Local * string) :=
  match stack with
  | [] => None
  | [] :: stack' => local_pop_from (tail path) stack'
  | (event_id :: frame) :: stack' => Some (mkLocal (event_id :: path) (frame :: stack'), event_id)
  end.

Definition local_pop (local : Local) : option (Local * string) :=
  local_pop_from (local_path local) (local_stack local).

Definition local_push (fetch : FetchEvent) (local : Local) (event_id : option string) : Local :=
  match event_id with
  | None => local
  | Some id =>
      match fetch id with
      | Ok event => mkLocal (local_path local) (reverse (pdu_auth_events event) :: local_stack local)
      | Err _ => local
      end
  end.

(** [insert_path_filter]: mark an event, and say whether it was unmarked. *)
Definition mark (sg : Subgraph) (event_id : string) : Subgraph * bool :=
  match sg !! event_id with
  | Some state =>
      if in_subgraph state then (sg, false)
      else (<[event_id := mkSubstate true (seen state)]> sg, true)
  | None => (<[event_id := mkSubstate true false]> sg, true)
  end.

(** [insert_path], over the path from its first element. *)
Fixpoint mark_path (sg : Subgraph) (path : list string) : Subgraph * list string :=
  match path with
  | [] => (sg, [])
  | event_id :: path' =>
      let '(sg, fresh) := mark sg event_id in
      let '(sg, rest) := mark_path sg path' in
      (sg, if fresh then event_id :: rest else rest)
  end.

Definition insert_path (sg : Subgraph) (local : Local) : Subgraph * list string :=
  if (1 <? length (local_path local))%nat then mark_path sg (reverse (local_path local))
  else (sg, []).

(** The vector of conflicted ids is sorted. *)
Definition is_conflicted (conflicted : list string) (event_id : string) : bool :=
  bool_decide (is_Some (binary_search_by (λ id, key_cmp id event_id) conflicted)).

Definition local_eval (conflicted : list string) (sg : Subgraph) (local : Local) (event_id : string) :
    Subgraph * (Local * option string * list string) :=
  match sg !! event_id with
  | Some state =>
      if in_subgraph state then
        let '(sg, out) := insert_path sg local in
        (sg, (mkLocal (tail (local_path local)) (local_stack local), None, out))
      else (<[event_id := mkSubstate (in_subgraph state) true]> sg, (local, None, []))
  | None =>
      let sg := <[event_id := mkSubstate false true]> sg in
      let '(sg, out) := if is_conflicted conflicted event_id then insert_path sg local else (sg, []) in
      let next_id := if decide (event_id ∈ tail (local_path local)) then None else Some event_id in
      (sg, (local, next_id, out))
  end.

Section dfs.
Variables (fetch : FetchEvent) (conflicted : list string) (width : nat).
Implicit Types (st : Global).

(** Pending descents are topped up to the width. *)
Definition fill st : Global :=
  let n := (width - length (g_todo st))%nat in
  mkGlobal (g_subgraph st) (g_todo st ++ take n (g_inputs st)) (drop n (g_inputs st)) (g_outputs st).

(** One completion: the [i]-th pending descent continues. *)
Definition advance st (i : nat) : option Global :=
  '(local, next_id) ← g_todo st !! i;
  let rest := delete i (g_todo st) in
  match local_pop (local_push fetch local next_id) with
  | None => Some (mkGlobal (g_subgraph st) rest (g_inputs st) (g_outputs st))
  | Some (local, event_id) =>
      let '(sg, (local, next_id, out)) := local_eval conflicted (g_subgraph st) local event_id in
      let todo := match local_stack local with [] => rest | _ => rest ++ [(local, next_id)] end in
      Some (mkGlobal sg todo (g_inputs st) (g_outputs st ++ out))
  end.

(** Any pending descent may continue; the stream ends when none is pending. *)
Inductive dfs_step : Global → Global → Prop :=
  | dfs_step_intro st st' i : advance (fill st) i = Some st' → dfs_step st st'.

Definition dfs_inputs : list (Local * option string) :=
  omap (λ c, '(local, event_id) ← local_pop (local_new c); Some (local, Some event_id)) conflicted.

Definition dfs_init : Global := mkGlobal ∅ [] dfs_inputs [].

(** The run in which the scheduler completes [schedule n] of the pending
    fetches at iteration [n]. *)
Fixpoint dfs_run (fuel : nat) (schedule : nat → nat) st : option (list string) :=
  match g_todo (fill st) with
  | [] => Some (g_outputs st)
  | todo =>
      match fuel with
      | O => None
      | S fuel =>
          st' ← advance (fill st) (schedule fuel mod length todo);
          dfs_run fuel schedule st'
      end
  end.

Definition conflicted_subgraph_dfs (fuel : nat) (schedule : nat → nat) : option (list string) :=
  dfs_run fuel schedule dfs_init.
End dfs.

(** ** Termination and reach *)

Section bound.
Variables (fetch : FetchEvent) (conflicted : list string) (width : nat).
Implicit Types (st : Global) (sg : Subgraph) (l : Local).

Definition auth_link (x a : string) : Prop := ∃ e, fetch x = Ok e ∧ a ∈ pdu_auth_events e.
Definition descends (x : string) : Prop := ∃ c, c ∈ conflicted ∧ rtc auth_link c x.

Lemma descends_link x a : descends x → auth_link x a → descends a.
Proof. intros (c & Hc & Hr) Ha. exists c. split; [done|]. by eapply rtc_r. Qed.

(** All a descent holds descends from the conflicted events. *)
Definition local_ok (p : Local * option string) : Prop :=
  Forall descends (local_path p.1) ∧ Forall (Forall descends) (local_stack p.1)
  ∧ ∀ x, p.2 = Some x → descends x.

Definition dfs_ok st : Prop :=
  Forall local_ok (g_todo st ++ g_inputs st) ∧ Forall descends (g_outputs st).

(** The number of auth events of an event, of items on a stack, and what a
    pending descent can still visit without finding new events. *)
Definition fan (x : string) : nat :=
  match fetch x with Ok e => length (pdu_auth_events e) | Err _ => 0 end.
Definition items l : nat := sum_list_with length (local_stack l).
Definition weight (p : Local * option string) : nat :=
  S (items p.1 + match p.2 with Some x => fan x | None => 0 end).

(** The work left: that of the pending descents, and of the unseen events. *)
Definition potential (U : gset string) st : nat :=
  (sum_list_with weight (g_todo st ++ g_inputs st)
   + sum_list_with (λ x, S (fan x)) (elements (U ∖ dom (g_subgraph st))))%nat.

Lemma local_push_ok p :
  local_ok p → local_ok (local_push fetch p.1 p.2, None)
  ∧ (items (local_push fetch p.1 p.2) < weight p)%nat.
Proof.
  destruct p as [l n]. intros (Hp & Hs & Hn). unfold local_push, weight, items, fan, local_ok. cbn [fst snd] in *.
  destruct n as [x|]; [|by split; [split_and!|lia]].
  destruct (fetch x) as [e|] eqn:Ef; [|by split; [split_and!|lia]].
  simpl. rewrite length_reverse. split; [|lia]. split_and!; [done| |done].
  constructor; [|done]. apply Forall_forall. intros a Ha. rewrite elem_of_reverse in Ha.
  apply (descends_link x); [by apply Hn|by exists e].
Qed.

Lemma local_pop_ok l l' x :
  local_ok (l, None) → local_pop l = Some (l', x) →
  local_ok (l', None) ∧ descends x ∧ items l = S (items l') ∧ local_stack l' ≠ []
  ∧ ∃ path, local_path l' = x :: path.
Proof.
  unfold local_pop, local_ok, items. destruct l as [path stack]. cbn [fst snd local_path local_stack].
  intros (Hp & Hs & _). revert path Hp. induction Hs as [|f stack Hf Hs IH]; intros path Hp; [done|].
  cbn [local_pop_from]. destruct f as [|y f].
  - intros Hpop. apply (IH (tail path)); [|done]. destruct Hp; [constructor|done].
  - intros [= <- <-]. cbn [local_path local_stack]. apply Forall_cons in Hf as [Hy Hf].
    split_and!; try done; by eauto.
Qed.

Lemma mark_path_ok sg path sg' out :
  mark_path sg path = (sg', out) → Forall descends path → Forall descends out ∧ dom sg ⊆ dom sg'.
Proof.
  revert sg sg' out. induction path as [|x path IH]; intros sg sg' out; cbn [mark_path].
  { by intros [= <- <-]. }
  destruct (mark sg x) as [sg1 fresh] eqn:Em. destruct (mark_path sg1 path) as [sg2 rest] eqn:Er.
  intros [= <- <-] [Hx Hp]%Forall_cons. destruct (IH _ _ _ Er Hp) as [Ho Hd].
  assert (dom sg ⊆ dom sg1) as Hd1.
  { unfold mark in Em. destruct (sg !! x) as [s|]; [destruct (in_subgraph s)|]; simplify_eq; set_solver. }
  split; [destruct fresh; [by constructor|done]|set_solver].
Qed.

Lemma insert_path_ok sg l sg' out :
  insert_path sg l = (sg', out) → Forall descends (local_path l) →
  Forall descends out ∧ dom sg ⊆ dom sg'.
Proof.
  unfold insert_path. destruct (Nat.ltb _ _); [|by intros [= <- <-]].
  intros Hm Hp. eapply mark_path_ok; [exact Hm|]. by apply Forall_reverse.
Qed.

Lemma local_eval_ok sg l x sg' l' n out :
  local_ok (l, None) → descends x →
  local_eval conflicted sg l x = (sg', (l', n, out)) →
  local_ok (l', n) ∧ Forall descends out ∧ local_stack l' = local_stack l ∧ dom sg ⊆ dom sg'
  ∧ (n = None ∨ (n = Some x ∧ sg !! x = None ∧ x ∈ dom sg')).
Proof.
  intros (Hp & Hs & Hn) Hx. unfold local_eval. cbn [fst snd] in *.
  destruct (sg !! x) as [s|] eqn:Es; [destruct (in_subgraph s)|].
  - destruct (insert_path sg l) as [sg1 o] eqn:Ei. intros [= <- <- <- <-].
    destruct (insert_path_ok _ _ _ _ Ei Hp).
    split; [|split; [done|split; [done|split; [done|by left]]]]. split_and!; [|done..]. cbn. destruct Hp; [constructor|done].
  - intros [= <- <- <- <-]. split; [done|]. split; [constructor|].
    split; [done|]. split; [set_solver|by left].
  - destruct (if is_conflicted conflicted x then _ else _) as [sg1 o] eqn:Ei. intros [= <- <- <- <-].
    assert (Forall descends o ∧ dom (<[x := mkSubstate false true]> sg) ⊆ dom sg1) as [Ho Hd].
    { revert Ei. case_match; [intros Ei; by eapply insert_path_ok|by intros [= <- <-]]. }
    split; [|split; [done|split; [done|split; [set_solver|]]]].
    + split_and!; [done..|]. intros y. cbn [snd]. intros Hy. assert (y = x) as -> by (revert Hy; repeat case_match; congruence). done.
    + destruct (decide (x ∈ tail _)); [by left|right]. split_and!; [done..|set_solver].
Qed.

(** What is left of [U] shrinks, by the fan of an event newly seen. *)
Lemma sum_elements_le (f : string → nat) (X Y : gset string) :
  X ⊆ Y → (sum_list_with f (elements X) ≤ sum_list_with f (elements Y))%nat.
Proof.
  intros Hs. rewrite (union_difference_L _ _ Hs), elements_disj_union, sum_list_with_app by set_solver. lia.
Qed.

Lemma sum_elements_lt (f : string → nat) (X Y : gset string) x :
  X ⊆ Y → x ∈ Y → x ∉ X →
  (f x + sum_list_with f (elements X) ≤ sum_list_with f (elements Y))%nat.
Proof.
  intros Hs Hy Hx. transitivity (sum_list_with f (elements ({[x]} ∪ X))).
  - by rewrite elements_union_singleton by done.
  - apply sum_elements_le. set_solver.
Qed.

Lemma sum_delete {A} (f : A → nat) (l : list A) i x :
  l !! i = Some x → sum_list_with f l = (f x + sum_list_with f (delete i l))%nat.
Proof. intros Hi. by rewrite (delete_Permutation _ _ _ Hi) at 1. Qed.

Lemma fill_pending st :
  g_todo (fill width st) ++ g_inputs (fill width st) = g_todo st ++ g_inputs st.
Proof. cbn. by rewrite <-(assoc_L (++)), take_drop. Qed.

(** A completion of a descent keeps the invariant and uses up work. *)
Lemma advance_ok (U : gset string) st i st' :
  (∀ x, descends x → x ∈ U) → dfs_ok st → advance fetch conflicted st i = Some st' →
  dfs_ok st' ∧ (potential U st' < potential U st)%nat.
Proof.
  intros HU [Hl Ho]. unfold advance. destruct (g_todo st !! i) as [p|] eqn:Ei; [|done].
  apply Forall_app in Hl as [Ht Hi].
  pose proof (Forall_lookup_1 _ _ _ _ Ht Ei) as Hp. pose proof (Forall_delete _ _ i Ht) as Hd.
  pose proof (sum_delete weight _ _ _ Ei) as Hw. destruct (local_push_ok p Hp) as [Hpush Hlt].
  destruct p as [l n]. cbn [fst snd mbind option_bind] in *.
  destruct (local_pop (local_push fetch l n)) as [[l2 x]|] eqn:Epop.
  - destruct (local_pop_ok _ _ _ Hpush Epop) as (Hl2 & Hx & Hitems & Hne & _).
    destruct (local_eval conflicted (g_subgraph st) l2 x) as [sg [[l3 n3] out]] eqn:Ee.
    destruct (local_eval_ok _ _ _ _ _ _ _ Hl2 Hx Ee) as (Hl3 & Hout & Hstack & Hdom & Hn3).
    intros [= <-]. rewrite Hstack. destruct (local_stack l2) as [|f2 s2] eqn:Es2; [done|].
    split; [split; cbn; rewrite ?Forall_app, ?Forall_singleton; by auto|].
    unfold potential. cbn [g_todo g_inputs g_subgraph]. rewrite !sum_list_with_app, Hw.
    cbn [sum_list_with]. assert (weight (l3, n3) = S (items l2 + match n3 with Some y => fan y | None => 0 end))%nat as ->.
    { unfold weight, items. cbn [fst snd]. by rewrite Hstack, Es2. }
    destruct Hn3 as [->|(-> & Hnone & Hin)].
    + pose proof (sum_elements_le (λ x, S (fan x)) (U ∖ dom sg) (U ∖ dom (g_subgraph st)) ltac:(set_solver)).
      lia.
    + pose proof (sum_elements_lt (λ x, S (fan x)) (U ∖ dom sg) (U ∖ dom (g_subgraph st)) x
                    ltac:(set_solver) ltac:(apply elem_of_difference; split; [by apply HU|by apply not_elem_of_dom])
                    ltac:(set_solver)).
      cbv beta in *. lia.
  - intros [= <-]. split; [split; cbn; [by apply Forall_app|done]|].
    unfold potential. cbn [g_todo g_inputs g_subgraph]. rewrite !sum_list_with_app, Hw. lia.
Qed.

(** Each event is emitted when it enters the subgraph, so once. *)
Definition marked sg (x : string) : Prop := ∃ s, sg !! x = Some s ∧ in_subgraph s = true.

Definition emits sg (sg' : Subgraph) (out : list string) : Prop :=
  NoDup out ∧ ∀ x, (x ∈ out → ¬ marked sg x) ∧ (marked sg' x ↔ marked sg x ∨ x ∈ out).

Definition emitted st : Prop :=
  NoDup (g_outputs st) ∧ ∀ x, x ∈ g_outputs st ↔ marked (g_subgraph st) x.

Lemma marked_insert sg x s y :
  marked (<[x := s]> sg) y ↔ (x = y ∧ in_subgraph s = true) ∨ (x ≠ y ∧ marked sg y).
Proof.
  unfold marked. destruct (decide (x = y)) as [->|Hne].
  - rewrite lookup_insert_eq. naive_solver.
  - rewrite lookup_insert_ne by done. naive_solver.
Qed.

Lemma emits_nil sg sg' : (∀ x, marked sg' x ↔ marked sg x) → emits sg sg' [].
Proof. intros H. split; [constructor|]. intros x. specialize (H x). set_solver. Qed.

Lemma emits_after sg sg1 sg2 out :
  (∀ x, marked sg1 x ↔ marked sg x) → emits sg1 sg2 out → emits sg sg2 out.
Proof. intros H [Hn He]. split; [done|]. intros x. destruct (He x). by rewrite <-(H x). Qed.

Lemma mark_emits sg x sg' fresh :
  mark sg x = (sg', fresh) → emits sg sg' (if fresh then [x] else []).
Proof.
  unfold mark. destruct (sg !! x) as [s|] eqn:Es; [destruct (in_subgraph s) eqn:Eg|];
    intros [= <- <-].
  1: by apply emits_nil.
  all: split; [apply NoDup_singleton|]; intros y; rewrite marked_insert, list_elem_of_singleton; cbn;
    assert (¬ marked sg x) by (intros (? & ? & ?); simplify_eq; congruence);
    destruct (decide (x = y)); subst; intuition congruence.
Qed.

Lemma mark_path_emits sg path sg' out : mark_path sg path = (sg', out) → emits sg sg' out.
Proof.
  revert sg sg' out. induction path as [|x path IH]; intros sg sg' out; cbn [mark_path].
  { intros [= <- <-]. by apply emits_nil. }
  destruct (mark sg x) as [sg1 fresh] eqn:Em. destruct (mark_path sg1 path) as [sg2 rest] eqn:Er.
  intros [= <- <-]. apply mark_emits in Em as [_ Hm]. apply IH in Er as [Hn Hr].
  destruct fresh; split; [apply NoDup_cons; split; [|done]|intros y|done|intros y].
  - intros Hx. destruct (Hr x) as [Hr1 _], (Hm x) as [_ Hm2]. apply (Hr1 Hx), Hm2. right. by left.
  - specialize (Hm y). specialize (Hr y). set_solver.
  - specialize (Hm y). specialize (Hr y). set_solver.
Qed.

Lemma insert_path_emits sg l sg' out : insert_path sg l = (sg', out) → emits sg sg' out.
Proof.
  unfold insert_path. destruct (Nat.ltb _ _); [apply mark_path_emits|].
  intros [= <- <-]. by apply emits_nil.
Qed.

Lemma local_eval_emits sg l x sg' r out :
  local_eval conflicted sg l x = (sg', (r, out)) → emits sg sg' out.
Proof.
  unfold local_eval. destruct (sg !! x) as [s|] eqn:Es; [destruct (in_subgraph s) eqn:Eg|].
  - destruct (insert_path sg l) as [sg1 o] eqn:Ei. intros [= <- <- <-]. by eapply insert_path_emits.
  - intros [= <- <- <-]. apply emits_nil. intros y. rewrite marked_insert. cbn.
    destruct (decide (x = y)) as [<-|]; [unfold marked|]; naive_solver.
  - destruct (if is_conflicted conflicted x then _ else _) as [sg1 o] eqn:Ei. intros [= <- <- <-].
    apply (emits_after _ (<[x:=mkSubstate false true]> sg)).
    + intros y. rewrite marked_insert. destruct (decide (x = y)) as [<-|]; [unfold marked|]; naive_solver.
    + revert Ei. case_match; [apply insert_path_emits|]. intros [= <- <-]. by apply emits_nil.
Qed.

Lemma advance_emitted st i st' :
  emitted st → advance fetch conflicted st i = Some st' → emitted st'.
Proof.
  intros [Hn Ho]. unfold advance. destruct (g_todo st !! i) as [[l n]|]; [|done].
  cbn [mbind option_bind]. destruct (local_pop _) as [[l2 x]|]; [|by intros [= <-]].
  destruct (local_eval _ _ _ _) as [sg [[l3 n3] out]] eqn:Ee. intros [= <-].
  apply local_eval_emits in Ee as [Hnd He]. split; cbn.
  - apply NoDup_app. split_and!; [done| |done]. intros y Hy Hout. by apply (He y), Ho.
  - intros y. destruct (He y). specialize (Ho y). set_solver.
Qed.

Lemma dfs_run_ok (U : gset string) fuel schedule st :
  (∀ x, descends x → x ∈ U) → dfs_ok st → emitted st → (potential U st ≤ fuel)%nat →
  ∃ out, dfs_run fetch conflicted width fuel schedule st = Some out ∧ NoDup out ∧ Forall descends out.
Proof.
  intros HU. revert st. induction fuel as [|fuel IH]; intros st Hok He Hp;
    cbn [dfs_run]; destruct (g_todo (fill width st)) as [|q todo] eqn:Et;
    [by exists (g_outputs st); destruct He, Hok| |by exists (g_outputs st); destruct He, Hok|].
  { exfalso. assert (g_todo st ++ g_inputs st ≠ []) as Hne by (rewrite <-fill_pending, Et; done).
    unfold potential in Hp. destruct (g_todo st ++ g_inputs st); [done|]. cbn in Hp. lia. }
  destruct (lookup_lt_is_Some_2 (q :: todo) (schedule fuel mod length (q :: todo))) as [p Hi].
  { by apply Nat.mod_upper_bound. }
  destruct (advance fetch conflicted (fill width st) (schedule fuel mod length (q :: todo))) as [st'|] eqn:Ea.
  - cbn [mbind option_bind].
    assert (dfs_ok (fill width st)) as Hf by (unfold dfs_ok; rewrite fill_pending; exact Hok).
    destruct (advance_ok U _ _ _ HU Hf Ea) as [Hok' Hlt]. apply IH; [done|exact (advance_emitted (fill width st) _ _ He Ea)|].
    unfold potential in *. rewrite fill_pending in Hlt. cbn [g_subgraph fill] in Hlt. lia.
  - exfalso. revert Ea. unfold advance. rewrite Et, Hi. cbn. destruct p. by repeat case_match.
Qed.

Lemma dfs_init_ok : dfs_ok (dfs_init conflicted) ∧ emitted (dfs_init conflicted).
Proof.
  split; split; cbn; [|done|constructor|].
  - apply Forall_forall. intros p (c & Hc & Hp)%list_elem_of_omap. injection Hp as <-.
    assert (descends c) by (by exists c). split_and!; cbn; repeat constructor; naive_solver.
  - intros x. unfold marked. set_solver.
Qed.
End bound.

(** The conflicted subgraph search terminates, whatever the number of
    concurrent descents and the order in which their fetches complete, within
    a number of completions bounded by the auth links of the events reachable
    from the conflicted ones; what it yields are distinct events, each
    reachable from a conflicted event through auth links. *)
Theorem subgraph_terminates fetch conflicted width (U : gset string) fuel schedule :
  (∀ x, descends fetch conflicted x → x ∈ U) →
  (potential fetch U (dfs_init conflicted) ≤ fuel)%nat →
  ∃ out, conflicted_subgraph_dfs fetch conflicted width fuel schedule = Some out
         ∧ NoDup out ∧ Forall (descends fetch conflicted) out.
Proof. intros HU Hf. destruct (dfs_init_ok fetch conflicted). by eapply dfs_run_ok. Qed.

Module SubgraphExample.
#[local] Existing Instance ToyRuma.toy_ruma.
Definition ev (id : string) (auth : list string) : Pdu :=
  ToyRuma.pdu id "t" "@a:a" (Some "") [] auth.

(** Two conflicted events share a path to a third. *)
Definition shared : FetchEvent :=
  ToyRuma.store_of [ev "$c0" ["$p"]; ev "$p" ["$x"]; ev "$x" ["$c2"]; ev "$c1" ["$x"]; ev "$c2" []].
Definition shared_ids : list string := ["$c0"; "$c1"; "$c2"].

(** [$b] is visited twice and leads nowhere. *)
Definition twice : FetchEvent :=
  ToyRuma.store_of [ev "$c1" ["$c2"; "$b"; "$x"]; ev "$x" ["$b"]; ev "$b" []; ev "$c2" []].

Lemma shared_reach x :
  descends shared shared_ids x → x ∈ (list_to_set ["$c0"; "$c1"; "$c2"; "$p"; "$x"] : gset string).
Proof.
  intros (c & Hc & Hr). apply elem_of_list_to_set. apply rtc_nsteps_1 in Hr as [n Hr].
  assert (c ∈ ["$c0"; "$c1"; "$c2"; "$p"; "$x"]) as Hc' by (unfold shared_ids in Hc; set_solver).
  clear Hc. revert c Hc' Hr. induction n as [|n IH]; intros c Hc Hr; [by inversion Hr; subst|].
  inversion Hr as [|? ? y ? (e & He & Ha) Hr']; subst. apply (IH y); [|done].
  apply ToyRuma.store_of_some in He as [He _].
  repeat (apply elem_of_cons in He as [->|He]; [cbn in Ha; set_solver|]). set_solver.
Qed.
End SubgraphExample.

Lemma subgraph_terminates_witness :
  ∃ out, conflicted_subgraph_dfs SubgraphExample.shared SubgraphExample.shared_ids 8 50 (λ _, 1) = Some out
         ∧ NoDup out ∧ Forall (descends SubgraphExample.shared SubgraphExample.shared_ids) out.
Proof.
  apply (subgraph_terminates _ _ _ _ _ _ SubgraphExample.shared_reach).
  apply Nat.leb_le. by vm_compute.
Defined.

(** What the search yields depends on the order in which fetches
    complete: with the same conflicted events and the same store, [$c0] and
    [$p], which lie on a path from one conflicted event to another, are
    yielded under one completion order and not under another. *)
Theorem subgraph_timing :
  conflicted_subgraph_dfs SubgraphExample.shared SubgraphExample.shared_ids 8 50 (λ _, 0)
    = Some ["$c1"; "$x"; "$c2"]
  ∧ conflicted_subgraph_dfs SubgraphExample.shared SubgraphExample.shared_ids 8 50 (λ _, 1)
    = Some ["$c1"; "$x"; "$c2"; "$c0"; "$p"].
Proof. split; by vm_compute. Qed.

(** The search yields events on no path between conflicted events: an
    event visited a second time is left on the path of the descent that met it,
    so [$b], which has no auth events and is not conflicted, is yielded with
    the next conflicted event found. *)
Theorem subgraph_stale_path :
  conflicted_subgraph_dfs SubgraphExample.twice ["$c1"; "$c2"] 1 50 (λ _, 0)
    = Some ["$c1"; "$b"; "$c2"]
  ∧ ∀ x, ¬ auth_link SubgraphExample.twice "$b" x.
Proof.
  split; [by vm_compute|]. intros x (e & He & Ha).
  assert (Ok e = Ok (SubgraphExample.ev "$b" []) :> Result Error Pdu) as [= ->] by (rewrite <-He; by vm_compute).
  cbn in Ha. set_solver.
Qed.
