(* ===== verification/RoomResolve.v ===== *)
(** * The production resolver
    ([src/src/service/rooms/state_res/resolve.rs] and, under [resolve/],
    [split_conflicted.rs], [auth_difference.rs], [iterative_auth_check.rs])

    The split of the forks into agreed and conflicted state, the auth
    difference, the iterative auth checks and their composition with the two
    sorts and the subgraph search.  Hash maps iterate in an arbitrary order
    ([HashIter]); the event store and the [exists] query are arguments. *)

From S2P Require Import Prelude Bytes Slices StateMap Core Json RoomEvents RoomMember RoomAuth Greedy RoomSort RoomPower RoomMainline RoomSubgraph.

Local Set Warnings "-register-all".

Abbreviation RoomState := (gmap TypeStateKey string).
Abbreviation AuthSet := (gset string).
Abbreviation ConflictMap := (gmap TypeStateKey (list string)).
Abbreviation Occurrences := (gmap TypeStateKey (gmap string nat)).

(** State maps are ordered by event type, then state key. *)
#[export] Instance slot_ord `{Ruma} : OrdKey TypeStateKey | 0 := @pair_ord _ _ state_type_ord string_ord _.

(** ** [split_conflicted.rs] *)

Section split.
Context `{Ruma, HashIter}.

Definition count_occurrence (occurrences : Occurrences) (e : TypeStateKey * string) : Occurrences :=
  let ids := default ∅ (occurrences !! e.1) in
  <[e.1 := <[e.2 := S (default 0 (ids !! e.2))]> ids]> occurrences.

(** The maps are flattened one after the other. *)
Definition count_occurrences (state_maps : list RoomState) : Occurrences :=
  foldl count_occurrence ∅ (mjoin (btree_iter <$> state_maps)).

Definition split_id (state_set_count : nat) (k : TypeStateKey) (acc : RoomState * ConflictMap)
    (e : string * nat) : RoomState * ConflictMap :=
  if (e.2 =? state_set_count)%nat then (<[k := e.1]> acc.1, acc.2)
  else (acc.1, <[k := default [] (acc.2 !! k) ++ [e.1]]> acc.2).

Definition split_slot (state_set_count : nat) (acc : RoomState * ConflictMap)
    (e : TypeStateKey * gmap string nat) : RoomState * ConflictMap :=
  foldl (split_id state_set_count e.1) acc (hash_iter e.2).

Definition split_conflicted_state (state_maps : list RoomState) : RoomState * ConflictMap :=
  foldl (split_slot (length state_maps)) (∅, ∅) (hash_iter (count_occurrences state_maps)).
End split.

(** ** [auth_difference.rs] *)

Record Counts := mkCounts { by_id : gmap string nat; total : nat }.

Definition count_id (by_id : gmap string nat) (id : string) : gmap string nat :=
  <[id := S (default 0 (by_id !! id))]> by_id.

Definition counts_merge (c : Counts) (set : AuthSet) : Counts :=
  mkCounts (foldl count_id (by_id c) (bset_iter set)) (S (total c)).

Definition auth_difference (auth_sets : list AuthSet) : list string :=
  let c := foldl counts_merge (mkCounts ∅ 0) auth_sets in
  omap (λ e, if (e.2 <? total c)%nat then Some e.1 else None) (btree_iter (by_id c)).

(** ** [iterative_auth_check.rs] *)

Section check.
Context `{Ruma}.
Variables (rules : RoomVersionRules) (fetch : FetchEvent).

(** The events the state has for the slots the check needs. *)
Definition state_auth_event (state : RoomState) (key : TypeStateKey) : option Pdu :=
  id ← state !! key;
  auth_event ← ok (fetch id);
  if pdu_rejected auth_event then None else Some auth_event.

Definition state_auth_events (state : RoomState) (auth_types : list TypeStateKey) :
    list (TypeStateKey * Pdu) :=
  omap (λ key, pair key <$> state_auth_event state key) auth_types.

(** The auth events of the event itself; those that cannot be fetched are
    skipped, one that is not a state event is an error. *)
Fixpoint own_auth_events (ids : list string) : Result Error (list (TypeStateKey * Pdu)) :=
  match ids with
  | [] => Ok []
  | id :: ids' =>
      match fetch id with
      | Err _ => own_auth_events ids'
      | Ok auth_event =>
          let? state_key := ok_or (Request InvalidParam "Missing state_key") (pdu_state_key auth_event) in
          let? rest := own_auth_events ids' in
          Ok (if pdu_rejected auth_event then rest
              else (with_state_key (pdu_kind auth_event) state_key, auth_event) :: rest)
      end
  end.

(** The create event, where its id is the room's and not among the auth events. *)
Definition also_create_id (event : Pdu) : list string :=
  if bool_decide (pdu_kind event ≠ ROOM_CREATE) && room_create_event_id_as_room_id (authorization rules)
  then option_list (room_as_event_id (pdu_room_id event)) else [].

Definition indexed_state (auth_events : list (TypeStateKey * Pdu)) : FetchState := λ ty key,
  ok_or (Request NotFound "Missing auth_event") (index_get auth_events (ty, key)).

Definition resolve_auth_check (state : RoomState) (event_id state_key : string) (event : Pdu) :
    Result Error RoomState :=
  match auth_types_for_event (pdu_kind event) (pdu_sender event) (Some state_key) (pdu_content event)
          (authorization rules) true with
  | Err _ => Ok state
  | Ok auth_types =>
      let? own := own_auth_events (pdu_auth_events event ++ also_create_id event) in
      let auth_events := index_of (own ++ state_auth_events state auth_types) in
      match check_state_dependent_auth_rules rules event (indexed_state auth_events) with
      | Ok _ => Ok (<[with_state_key (pdu_kind event) state_key := event_id]> state)
      | Err _ => Ok state
      end
  end.

Fixpoint iterative_auth_check (events : list string) (state : RoomState) : Result Error RoomState :=
  match events with
  | [] => Ok state
  | event_id :: events' =>
      let? event := fetch event_id in
      let? state_key := ok_or (Request InvalidParam "Missing state_key") (pdu_state_key event) in
      let? state := resolve_auth_check state event_id state_key event in
      iterative_auth_check events' state
  end.
End check.

(** ** [resolve.rs] *)

Section resolve.
Context `{Ruma, HashIter}.
Variables (rules : RoomVersionRules) (fetch : FetchEvent) (exists_ : string → bool).
(** The subgraph search runs [width] descents at once, their fetches completing
    as [schedule] says, with fuel of its own. *)
Variables (width css_fuel : nat) (schedule : nat → nat).

Definition consider_conflicted_subgraph (backport_css : bool) : bool :=
  match v2_rules rules with Some r => consider_conflicted_state_subgraph r | None => false end
  || backport_css.

Definition conflicted_state_set (conflicted_states : ConflictMap) : list string :=
  sort_dedup (mjoin (btree_iter conflicted_states).*2).

Definition full_conflicted_set (conflicted_states : ConflictMap)
    (auth_sets : list AuthSet) (backport_css : bool) : option (gset string) :=
  let ids := conflicted_state_set conflicted_states in
  subgraph ← (if consider_conflicted_subgraph backport_css
              then conflicted_subgraph_dfs fetch ids width css_fuel schedule else Some []);
  Some (list_to_set (filter (λ id, exists_ id = true) (auth_difference auth_sets ++ ids) ++ subgraph)).

Definition start_with_incoming_state : bool :=
  match v2_rules rules with
  | None => true
  | Some r => negb (begin_iterative_auth_checks_with_empty_state_map r)
  end.

(** The events of the full set that the power sort left, looked up in its
    sorted result. *)
Definition remaining_events (full sorted_power_set : list string) : list string :=
  let power_set_event_ids := merge_sort key_le sorted_power_set in
  filter (λ id, binary_search_by (λ p, key_cmp p id) power_set_event_ids = None) full.

(** Steps 2 to 5, from the sorted power events. *)
Definition resolve_remaining (fuel : nat) (unconflicted : RoomState) (full power_set : list string) :
    option (Result Error RoomState) :=
  let initial_state := if start_with_incoming_state then unconflicted else ∅ in
  match iterative_auth_check rules fetch power_set initial_state with
  | Err e => Some (Err e)
  | Ok partial =>
      let power_event := partial !! (ROOM_POWER_LEVELS, "") in
      let remaining := remaining_events full power_set in
      sorted ← (if decide (remaining = []) then Some (Ok [])
                else mainline_sort fetch fuel power_event remaining);
      match sorted with
      | Err e => Some (Err e)
      | Ok sorted =>
          Some (let? resolved := iterative_auth_check rules fetch sorted partial in
                Ok (map_extend resolved unconflicted))
      end
  end.

(** Steps 1 to 5, on the full conflicted set in its iteration order. *)
Definition resolve_conflicts (fuel : nat) (unconflicted : RoomState) (full : list string) :
    option (Result Error RoomState) :=
  power_set ← power_sort rules fetch fuel full;
  match power_set with
  | Err e => Some (Err e)
  | Ok power_set => resolve_remaining fuel unconflicted full power_set
  end.

Definition resolve (fuel : nat) (state_maps : list RoomState) (auth_sets : list AuthSet)
    (backport_css : bool) : option (Result Error RoomState) :=
  let '(unconflicted, conflicted_states) := split_conflicted_state state_maps in
  if decide (conflicted_states = ∅) then Some (Ok unconflicted)
  else
    full ← full_conflicted_set conflicted_states auth_sets backport_css;
    resolve_conflicts fuel unconflicted (hash_set_iter full).
End resolve.

(** ** The split *)

Section split_facts.
Context `{Ruma, HashIter}.
Implicit Types (k : TypeStateKey) (v : string).

Definition occurs (occ : Occurrences) k v : nat := default 0 (occ !! k ≫= λ ids, ids !! v).

(** No count is zero. *)
Definition counted (occ : Occurrences) : Prop := ∀ k ids v n, occ !! k = Some ids → ids !! v = Some n → (0 < n)%nat.

Lemma occurs_count occ e k v :
  occurs (count_occurrence occ e) k v = ((if decide (e = (k, v)) then 1 else 0) + occurs occ k v)%nat.
Proof.
  destruct e as [k' v']. unfold occurs, count_occurrence. cbn [fst snd].
  destruct (decide (k' = k)) as [->|Hk].
  - rewrite lookup_insert_eq. cbn [mbind option_bind]. destruct (decide (v' = v)) as [->|Hv].
    + rewrite lookup_insert_eq, decide_True by done. cbn [default from_option id]. destruct (occ !! k); done.
    + rewrite lookup_insert_ne, decide_False by congruence. by destruct (occ !! k).
  - rewrite lookup_insert_ne, decide_False by congruence. done.
Qed.

Lemma counted_count occ e : counted occ → counted (count_occurrence occ e).
Proof.
  destruct e as [k' v']. intros Hc k ids v n. unfold count_occurrence. cbn [fst snd].
  destruct (decide (k' = k)) as [->|Hk]; [rewrite lookup_insert_eq|rewrite lookup_insert_ne by done; apply Hc].
  intros [= <-]. destruct (decide (v' = v)) as [->|Hv]; [rewrite lookup_insert_eq; intros [= <-]; lia|].
  rewrite lookup_insert_ne by done. destruct (occ !! k) as [ids|] eqn:Eo; [by apply (Hc k)|done].
Qed.

Lemma count_entries (l : list (TypeStateKey * string)) occ :
  counted occ →
  counted (foldl count_occurrence occ l)
  ∧ ∀ k v, occurs (foldl count_occurrence occ l) k v
           = (length (filter (λ e, e = (k, v)) l) + occurs occ k v)%nat.
Proof.
  revert occ. induction l as [|e l IH]; intros occ Hc; [done|].
  destruct (IH _ (counted_count occ e Hc)) as [Hc' Hn]. split; [done|]. intros k v. cbn [foldl].
  rewrite Hn, occurs_count, filter_cons. case_decide; cbn; lia.
Qed.

(** How many maps assign [v] to [k]. *)
Definition holders (maps : list RoomState) k v : nat :=
  length (filter (λ m : RoomState, m !! k = Some v) maps).

Lemma holders_entries maps k v :
  length (filter (λ e, e = (k, v)) (mjoin (btree_iter <$> maps))) = holders maps k v.
Proof.
  unfold holders. induction maps as [|m maps IH]; [done|]. 
  change (mjoin (btree_iter <$> m :: maps)) with (btree_iter m ++ mjoin (btree_iter <$> maps)).
  rewrite filter_app, length_app, IH, filter_cons. case_decide as Hm.
  - cut (filter (λ e, e = (k, v)) (btree_iter m) ≡ₚ [(k, v)]); [by intros ->|].
    apply NoDup_Permutation; [apply NoDup_filter, btree_iter_NoDup|apply NoDup_singleton|].
    intros e. rewrite list_elem_of_filter, list_elem_of_singleton. split; [by intros [? _]|].
    intros ->. by rewrite elem_of_btree_iter.
  - rewrite filter_none; [done|]. intros e He ->. by rewrite elem_of_btree_iter in He.
Qed.

Lemma occurrences_spec maps k v n :
  (∃ ids, count_occurrences maps !! k = Some ids ∧ ids !! v = Some n) ↔
  n = holders maps k v ∧ (0 < n)%nat.
Proof.
  destruct (count_entries (mjoin (btree_iter <$> maps)) ∅) as [Hc Hn]; [by intros ????|].
  specialize (Hn k v). rewrite holders_entries in Hn.
  change (foldl count_occurrence ∅ (mjoin (btree_iter <$> maps))) with (count_occurrences maps) in *.
  unfold occurs in Hn. rewrite lookup_empty in Hn. cbn in Hn. rewrite Nat.add_0_r in Hn. split.
  - intros (ids & Hk & Hv). rewrite Hk in Hn. cbn in Hn. rewrite Hv in Hn. cbn in Hn.
    split; [done|]. by eapply Hc.
  - intros [-> Hpos]. destruct (count_occurrences maps !! k) as [ids|]; cbn in Hn; [|lia].
    destruct (ids !! v) as [n|] eqn:Ev; cbn in Hn; [|lia]. exists ids. by rewrite Ev, Hn.
Qed.

(** What one slot contributes. *)
Lemma split_ids (n : nat) k (u : RoomState) (c : ConflictMap) (l : list (string * nat)) :
  foldl (split_id n k) (u, c) l =
  (match last (filter (λ e, e.2 = n) l) with Some e => <[k := e.1]> u | None => u end,
   match filter (λ e, e.2 ≠ n) l with [] => c | _ => <[k := default [] (c !! k) ++ (filter (λ e, e.2 ≠ n) l).*1]> c end).
Proof.
  induction l as [|e l IH] using rev_ind; [done|].
  rewrite foldl_snoc, IH. unfold split_id at 1. cbn [fst snd]. rewrite !filter_app, !filter_cons, !filter_nil.
  destruct (Nat.eqb_spec e.2 n) as [He|He].
  - rewrite decide_True, decide_False, last_snoc, app_nil_r by auto. f_equal.
    destruct (last _); [by rewrite insert_insert_eq|done].
  - rewrite decide_False, decide_True, app_nil_r by auto. f_equal.
    destruct (filter (λ e, e.2 ≠ n) l) as [|e' r] eqn:Er; [done|]. cbn [app].
    rewrite lookup_insert_eq, insert_insert_eq. cbn [default from_option id].
    change (e' :: r ++ [e]) with ((e' :: r) ++ [e]). by rewrite fmap_app, (assoc_L (++)).
Qed.

Definition slot_agreed (n : nat) (ids : gmap string nat) : option string :=
  fst <$> last (filter (λ e, e.2 = n) (hash_iter ids)).
Definition slot_conflicts (n : nat) (ids : gmap string nat) : list string :=
  (filter (λ e, e.2 ≠ n) (hash_iter ids)).*1.
Definition non_empty {A} (l : list A) : option (list A) := match l with [] => None | _ => Some l end.

Lemma split_slot_spec (n : nat) (u : RoomState) (c : ConflictMap) k ids :
  u !! k = None → c !! k = None →
  ∃ u' c', split_slot n (u, c) (k, ids) = (u', c')
    ∧ u' !! k = slot_agreed n ids ∧ c' !! k = non_empty (slot_conflicts n ids)
    ∧ ∀ k', k' ≠ k → u' !! k' = u !! k' ∧ c' !! k' = c !! k'.
Proof.
  intros Hu Hc. unfold split_slot, slot_agreed, slot_conflicts. rewrite split_ids. cbn [fst snd].
  eexists _, _. split; [done|]. rewrite Hc. split_and!.
  - destruct (last _); [by rewrite lookup_insert_eq|done].
  - destruct (filter (λ e, e.2 ≠ n) (hash_iter ids)); [done|by rewrite lookup_insert_eq].
  - intros k' Hk'. split; case_match; by rewrite ?lookup_insert_ne.
Qed.

Lemma split_slots (n : nat) (l : list (TypeStateKey * gmap string nat)) (u : RoomState) (c : ConflictMap) :
  NoDup l.*1 → (∀ k, k ∈ l.*1 → u !! k = None ∧ c !! k = None) →
  ∀ k, (foldl (split_slot n) (u, c) l).1 !! k
       = match (list_to_map l : gmap _ _) !! k with Some ids => slot_agreed n ids | None => u !! k end
     ∧ (foldl (split_slot n) (u, c) l).2 !! k
       = match (list_to_map l : gmap _ _) !! k with
         | Some ids => non_empty (slot_conflicts n ids) | None => c !! k end.
Proof.
  revert u c. induction l as [|[k0 ids] l IH]; intros u c ND Hfresh k; [done|].
  apply NoDup_cons in ND as [Hk0 ND]. cbn [fst] in Hk0.
  destruct (Hfresh k0) as [Hu Hc]; [by left|].
  destruct (split_slot_spec n u c k0 ids Hu Hc) as (u' & c' & E & Hu' & Hc' & Hoth).
  cbn [foldl]. rewrite E. destruct (IH u' c' ND) with (k := k) as [-> ->].
  { intros k' Hk'. destruct (Hoth k') as [-> ->]; [by intros ->|]. apply Hfresh. by right. }
  rewrite list_to_map_cons. destruct (decide (k0 = k)) as [->|Hne].
  - rewrite lookup_insert_eq, not_elem_of_list_to_map_1 by done. done.
  - rewrite !lookup_insert_ne by done. destruct (Hoth k) as [-> ->]; done.
Qed.

Lemma split_lookup maps k :
  (split_conflicted_state maps).1 !! k
    = count_occurrences maps !! k ≫= slot_agreed (length maps)
  ∧ (split_conflicted_state maps).2 !! k
    = ids ← count_occurrences maps !! k; non_empty (slot_conflicts (length maps) ids).
Proof.
  destruct (hash_iter_map (count_occurrences maps)) as (ND & Hm & _).
  destruct (split_slots (length maps) _ ∅ ∅ ND) with (k := k) as [E1 E2]; [by intros ? _; rewrite !lookup_empty|].
  unfold split_conflicted_state. rewrite E1, E2, Hm, !lookup_empty.
  by destruct (count_occurrences maps !! k).
Qed.

(** Every map assigns [v] to [k]. *)
Definition agreed (maps : list RoomState) k v : Prop :=
  maps ≠ [] ∧ ∀ m, m ∈ maps → m !! k = Some v.

Lemma holders_pos maps k v : (0 < holders maps k v)%nat ↔ votes maps k v.
Proof. apply filter_length_pos. Qed.

Lemma holders_all maps k v : (holders maps k v = length maps ∧ 0 < holders maps k v)%nat ↔ agreed maps k v.
Proof.
  rewrite holders_pos. unfold holders, agreed, votes. split.
  - intros [Hl (m & Hm & _)]. split; [by intros ->; apply elem_of_nil in Hm|]. intros m' Hm'.
    destruct (decide (m' !! k = Some v)) as [|Hn]; [done|].
    destruct (filter_length_lt (λ m : RoomState, m !! k = Some v) maps) as [_ Hlt].
    specialize (Hlt (ex_intro _ m' (conj Hm' Hn))). lia.
  - intros [Hne Hall]. rewrite filter_all by done. split; [done|].
    destruct maps as [|m maps]; [done|]. exists m. split; [by left|]. apply Hall. by left.
Qed.

Lemma agreed_votes maps k v : agreed maps k v → votes maps k v.
Proof. rewrite <-holders_all, <-holders_pos. tauto. Qed.

Lemma agreed_unique maps k v v' : agreed maps k v → votes maps k v' → v' = v.
Proof. intros [_ Ha] (m & Hm & Hv). apply Ha in Hm. congruence. Qed.

Lemma slot_entry maps k ids v n :
  count_occurrences maps !! k = Some ids → (v, n) ∈ hash_iter ids →
  n = holders maps k v ∧ (0 < n)%nat.
Proof.
  intros Hk Hv. destruct (hash_iter_map ids) as (_ & _ & Hi). apply Hi in Hv.
  apply occurrences_spec. by exists ids.
Qed.

Lemma voted_entry maps k v :
  votes maps k v → ∃ ids, count_occurrences maps !! k = Some ids ∧ (v, holders maps k v) ∈ hash_iter ids.
Proof.
  intros Hv%holders_pos. destruct (occurrences_spec maps k v (holders maps k v)) as [_ (ids & Hk & Hi)]; [done|].
  exists ids. split; [done|]. destruct (hash_iter_map ids) as (_ & _ & ->). done.
Qed.

Lemma unconflicted_spec maps k v :
  (split_conflicted_state maps).1 !! k = Some v ↔ agreed maps k v.
Proof.
  destruct (split_lookup maps k) as [-> _].
  assert (∀ ids e, count_occurrences maps !! k = Some ids →
            last (filter (λ e, e.2 = length maps) (hash_iter ids)) = Some e → agreed maps k e.1) as Hlast.
  { intros ids [v' n] Hk [Hn Hin]%last_Some_elem_of%list_elem_of_filter. cbn in Hn. subst n.
    destruct (slot_entry _ _ _ _ _ Hk Hin). apply holders_all. cbn. lia. }
  split.
  - destruct (count_occurrences maps !! k) as [ids|] eqn:Ek; [cbn|done]. unfold slot_agreed.
    destruct (last _) as [e|] eqn:El; [|done]. intros [= <-]. by eapply Hlast.
  - intros Ha. assert (Hh := Ha). apply holders_all in Hh as [Hl Hpos]. apply holders_pos in Hpos as Hv.
    destruct (voted_entry maps k v Hv) as (ids & Hk & Hin). rewrite Hk. cbn. unfold slot_agreed.
    destruct (last (filter (λ e, e.2 = length maps) (hash_iter ids))) as [e|] eqn:El.
    + cbn. f_equal. specialize (Hlast ids e Hk El). symmetry. by eapply agreed_unique.
    + exfalso. apply last_None in El. rewrite <-Hl in El.
      assert ((v, holders maps k v) ∈ filter (λ e, e.2 = holders maps k v) (hash_iter ids)) as Hf
        by by apply list_elem_of_filter.
      rewrite El in Hf. by apply elem_of_nil in Hf.
Qed.

Lemma conflicted_spec maps k :
  match (split_conflicted_state maps).2 !! k with
  | Some l => l ≠ [] ∧ NoDup l ∧ ∀ v, v ∈ l ↔ votes maps k v ∧ ¬ agreed maps k v
  | None => ∀ v, votes maps k v → agreed maps k v
  end.
Proof.
  destruct (split_lookup maps k) as [_ ->].
  assert (∀ ids v, count_occurrences maps !! k = Some ids →
            v ∈ slot_conflicts (length maps) ids ↔ votes maps k v ∧ ¬ agreed maps k v) as Hc.
  { intros ids v Hk. unfold slot_conflicts. rewrite list_elem_of_fmap. split.
    - intros ([v' n] & -> & [Hn Hin]%list_elem_of_filter). cbn in *.
      destruct (slot_entry _ _ _ _ _ Hk Hin) as [-> Hpos]. split; [by apply holders_pos|].
      intros [? _]%holders_all. done.
    - intros [Hv Hna]. destruct (voted_entry maps k v Hv) as (ids' & Hk' & Hin). rewrite Hk in Hk'.
      injection Hk' as <-. exists (v, holders maps k v). split; [done|]. apply list_elem_of_filter.
      split; [|done]. cbn. intros Hl. apply Hna, holders_all. split; [done|]. by apply holders_pos. }
  destruct (count_occurrences maps !! k) as [ids|] eqn:Ek; cbn.
  - specialize (Hc ids). assert (NoDup (slot_conflicts (length maps) ids)) as ND.
    { unfold slot_conflicts. destruct (hash_iter_map ids) as [ND _]. eapply sublist_NoDup; [exact ND|].
      apply fmap_sublist, sublist_filter. }
    destruct (slot_conflicts (length maps) ids) as [|x l]; cbn.
    + intros v Hv. destruct (decide (holders maps k v = length maps ∧ 0 < holders maps k v)%nat) as [Ha|Ha];
        rewrite holders_all in Ha; [done|]. exfalso.
      destruct (Hc v eq_refl) as [_ Hc2]. by apply (elem_of_nil v), Hc2.
    + split_and!; [done..|]. intros v. by apply Hc.
  - intros v Hv. destruct (voted_entry maps k v Hv) as (ids & Hk & _). congruence.
Qed.
End split_facts.

(** ** The auth difference *)

Section difference.
Implicit Types (x : string) (sets : list AuthSet).

(** How many of the sets have [x]. *)
Definition members sets x : nat := length (filter (λ s : AuthSet, x ∈ s) sets).

Lemma count_ids (l : list string) (m : gmap string nat) x :
  NoDup l → foldl count_id m l !! x = if decide (x ∈ l) then Some (S (default 0 (m !! x))) else m !! x.
Proof.
  revert m. induction l as [|y l IH]; intros m ND; [done|]. apply NoDup_cons in ND as [Hy ND].
  cbn [foldl]. rewrite IH by done. unfold count_id. destruct (decide (y = x)) as [->|Hne].
  - rewrite lookup_insert_eq, decide_False, decide_True by set_solver. done.
  - rewrite lookup_insert_ne by done. destruct (decide (x ∈ l)) as [Hx|Hx].
    + by rewrite decide_True by set_solver.
    + by rewrite decide_False by set_solver.
Qed.

Definition tallied sets (c : Counts) : Prop :=
  total c = length sets
  ∧ ∀ x, by_id c !! x = if decide (members sets x = 0) then None else Some (members sets x).

Lemma counts_tallied sets : tallied sets (foldl counts_merge (mkCounts ∅ 0) sets).
Proof.
  induction sets as [|s sets [IH1 IH2]] using rev_ind; [done|]. rewrite foldl_snoc. split; cbn.
  - rewrite IH1, length_app. cbn. lia.
  - intros x. rewrite count_ids, IH2 by apply bset_iter_NoDup.
    unfold members. rewrite filter_app, length_app, filter_cons, filter_nil.
    destruct (decide (x ∈ bset_iter s)) as [Hx|Hx]; rewrite elem_of_bset_iter in Hx.
    + rewrite (decide_True (P := x ∈ s)) by done. rewrite Nat.add_1_r. case_decide as Hz; [by rewrite Hz|done].
    + rewrite (decide_False (P := x ∈ s)) by done. by rewrite Nat.add_0_r.
Qed.

(** An id is in the difference when some set has it and some does not. *)
Lemma auth_difference_spec sets x :
  x ∈ auth_difference sets ↔ (∃ s, s ∈ sets ∧ x ∈ s) ∧ ∃ s, s ∈ sets ∧ x ∉ s.
Proof.
  unfold auth_difference. destruct (counts_tallied sets) as [Ht Hb].
  set (c := foldl counts_merge (mkCounts ∅ 0) sets) in *.
  pose proof (filter_length_pos (λ s : AuthSet, x ∈ s) sets) as <-.
  pose proof (filter_length_lt (λ s : AuthSet, x ∈ s) sets) as <-. fold (members sets x).
  rewrite list_elem_of_omap. split.
  - intros ([y n] & Hin & Hy). cbn [fst snd] in Hy. rewrite elem_of_btree_iter, Hb in Hin.
    destruct (Nat.ltb_spec n (total c)); [|done]. injection Hy as ->. case_decide; [done|].
    injection Hin as <-. lia.
  - intros [Hpos Hlt]. exists (x, members sets x). rewrite elem_of_btree_iter, Hb, decide_False by lia.
    split; [done|]. cbn [fst snd]. by rewrite (proj2 (Nat.ltb_lt _ _)) by lia.
Qed.
End difference.

(** ** The iterative auth checks *)

Section check_facts.
Context `{Ruma} (rules : RoomVersionRules) (fetch : FetchEvent).
Implicit Types (k : TypeStateKey) (e : Pdu) (state : RoomState).

(** The event a state gives the check for a slot it needs. *)
Definition state_event state (auth_types : list TypeStateKey) k : option Pdu :=
  if decide (k ∈ auth_types) then state_auth_event fetch state k else None.

(** The state the rules see: the state's event for a slot the check needs, or
    else the last of the event's own auth events for the slot. *)
Lemma indexed_state_spec (own : list (TypeStateKey * Pdu)) state auth_types ty key :
  indexed_state (index_of (own ++ state_auth_events fetch state auth_types)) ty key
  = ok_or (Request NotFound "Missing auth_event")
      (match state_event state auth_types (ty, key) with
       | Some e => Some e
       | None => snd <$> last (entries_at (ty, key) own)
       end).
Proof.
  unfold indexed_state. rewrite index_lookup. f_equal. unfold state_event. rewrite <-tagged_last.
  fold (state_auth_events fetch state auth_types). unfold entries_at.
  rewrite filter_app, last_app_or. by destruct (last (filter _ (state_auth_events _ _ _))).
Qed.

(** The rules accept [e] against [state]. *)
Definition admits state e : Prop := ∃ state_key auth_types own,
  pdu_state_key e = Some state_key
  ∧ auth_types_for_event (pdu_kind e) (pdu_sender e) (Some state_key) (pdu_content e)
      (authorization rules) true = Ok auth_types
  ∧ own_auth_events fetch (pdu_auth_events e ++ also_create_id rules e) = Ok own
  ∧ check_state_dependent_auth_rules rules e
      (indexed_state (index_of (own ++ state_auth_events fetch state auth_types))) = Ok tt.

(** Events checked one after the other, each against the state that those before
    it left: one that is admitted takes its slot, the others change nothing. *)
Inductive checked_through : RoomState → list string → RoomState → Prop :=
  | through_end state : checked_through state [] state
  | through_admitted state id e state_key events r :
      fetch id = Ok e → pdu_state_key e = Some state_key → admits state e →
      checked_through (<[(pdu_kind e, state_key) := id]> state) events r → checked_through state (id :: events) r
  | through_refused state id e events r :
      fetch id = Ok e → is_Some (pdu_state_key e) → ¬ admits state e →
      checked_through state events r → checked_through state (id :: events) r.

Lemma resolve_auth_check_spec state id state_key e r :
  pdu_state_key e = Some state_key →
  resolve_auth_check rules fetch state id state_key e = Ok r →
  r = state ∧ ¬ admits state e ∨ (r = <[(pdu_kind e, state_key) := id]> state ∧ admits state e).
Proof.
  intros Hk. unfold resolve_auth_check, admits.
  destruct (auth_types_for_event _ _ _ _ _ _) as [types|] eqn:Et.
  2:{ intros [= <-]. left. split; [done|]. intros (sk & types & own & Hsk & Ht & _). congruence. }
  destruct (own_auth_events _ _) as [own|] eqn:Eo; [|done].
  destruct (check_state_dependent_auth_rules _ _ _) as [[]|] eqn:Ec; intros [= <-]; [right|left]; (split; [done|]).
  - by exists state_key, types, own.
  - intros (sk & types' & own' & Hsk & Ht & [= <-] & Hc). assert (sk = state_key) as -> by congruence. congruence.
Qed.

Lemma iterative_auth_check_spec events state r :
  iterative_auth_check rules fetch events state = Ok r → checked_through state events r.
Proof.
  revert state. induction events as [|id events IH]; intros state; cbn [iterative_auth_check].
  { intros [= <-]. constructor. }
  destruct (fetch id) as [e|] eqn:Ef; [|done].
  destruct (pdu_state_key e) as [sk|] eqn:Ek; [|done]. cbn [ok_or].
  destruct (resolve_auth_check _ _ _ _ _ _) as [state'|] eqn:Ec; [|done].
  intros Hr. destruct (resolve_auth_check_spec _ _ _ _ _ Ek Ec) as [[-> Hn]|[-> Ha]].
  - eapply through_refused; [done|by eexists|done|by apply IH].
  - eapply through_admitted; [done..|by apply IH].
Qed.

(** What is in the state was there, or is among the events. *)
Lemma checked_through_ids state events r k v :
  checked_through state events r → r !! k = Some v → state !! k = Some v ∨ v ∈ events.
Proof.
  induction 1 as [state|state id e sk events r Hf Hk Ha _ IH|state id e events r Hf Hk Ha _ IH]; intros Hv; [by left|..].
  - destruct (IH Hv) as [[[_ <-]|[_ Hs]]%lookup_insert_Some|Hin]; [right; by left|by left|right; by right].
  - destruct (IH Hv) as [Hs|Hin]; [by left|right; by right].
Qed.
End check_facts.

(** ** Resolution *)

Section resolve_facts.
Context `{Ruma, HashIter}.
Variables (rules : RoomVersionRules) (fetch : FetchEvent).
Implicit Types (maps : list RoomState) (sets : list AuthSet) (x : string).

Lemma elem_of_sort_dedup (l : list string) x : x ∈ sort_dedup l ↔ x ∈ l.
Proof. unfold sort_dedup. by rewrite elem_of_bset_iter, elem_of_list_to_set. Qed.

Lemma sort_dedup_sorted (l : list string) : StronglySorted key_le (sort_dedup l).
Proof. apply bset_iter_sorted. Qed.

(** The conflicted events: those some map assigns to a slot without all maps
    agreeing. *)
Definition disputed maps x : Prop := ∃ k, votes maps k x ∧ ¬ agreed maps k x.

Lemma elem_of_conflicted_state_set maps x :
  x ∈ conflicted_state_set (split_conflicted_state maps).2 ↔ disputed maps x.
Proof.
  unfold conflicted_state_set. rewrite elem_of_sort_dedup, list_elem_of_join. split.
  - intros (l & Hx & ([k l'] & -> & Hk)%list_elem_of_fmap). cbn in Hx. rewrite elem_of_btree_iter in Hk.
    pose proof (conflicted_spec maps k) as Hc. rewrite Hk in Hc. exists k. by apply Hc.
  - intros (k & Hv & Hna). pose proof (conflicted_spec maps k) as Hc.
    destruct ((split_conflicted_state maps).2 !! k) as [l|] eqn:Ek; [|by destruct Hna; apply Hc].
    exists l. split; [by apply Hc|]. apply list_elem_of_fmap. exists (k, l). by rewrite elem_of_btree_iter.
Qed.

Lemma no_conflict maps :
  (split_conflicted_state maps).2 = ∅ ↔ ∀ x, ¬ disputed maps x.
Proof.
  split.
  - intros He x (k & Hv & Hna). pose proof (conflicted_spec maps k) as Hc. rewrite He, lookup_empty in Hc.
    by apply Hna, Hc.
  - intros Hn. apply map_empty. intros k. pose proof (conflicted_spec maps k) as Hc.
    destruct ((split_conflicted_state maps).2 !! k) as [[|x l]|]; [by destruct Hc| |done].
    destruct Hc as (_ & _ & Hc). exfalso. apply (Hn x). exists k. apply Hc. by left.
Qed.


(** *** The sorted power events *)

(** [l] is the reverse topological power order of the power events of [ids]. *)
Definition power_ordered (ids l : list string) : Prop :=
  ∃ nodes, (∀ x, x ∈ nodes ↔ power_closure fetch ids x)
    ∧ greedy_order (power_before rules fetch) nodes (conflicted_auth fetch ids) l.

#[local] Instance power_before_antisym : AntiSymm (=) (power_before rules fetch).
Proof. intros x y Hxy Hyx. by assert (mkTie x _ _ = mkTie y _ _) as [= ?] by by apply (anti_symm tie_le). Qed.

Lemma power_ordered_unique ids ids' l l' :
  ids ≡ₚ ids' → power_ordered ids l → power_ordered ids' l' → l = l'.
Proof.
  intros P (nodes & Hn & Hl) (nodes' & Hn' & Hl').
  assert (∀ x, power_closure fetch ids x ↔ power_closure fetch ids' x) as Hc.
  { intros x. unfold power_closure, power_ids.
    assert (list_to_set (C := gset string) ids = list_to_set ids') as -> by (apply set_eq; intros y; rewrite !elem_of_list_to_set; by rewrite P).
    setoid_rewrite list_elem_of_filter. by setoid_rewrite P. }
  apply (greedy_unique (power_before rules fetch) nodes (conflicted_auth fetch ids)); [done|].
  eapply greedy_ext; [| |done|exact Hl'].
  - intros x. by rewrite Hn, Hn', Hc.
  - intros x _. unfold conflicted_auth. destruct (fetch x) as [e|]; [|done].
    apply set_eq. intros a. rewrite !elem_of_list_to_set, !list_elem_of_filter. by rewrite P.
Qed.

Lemma power_ordered_ids ids l x : power_ordered ids l → x ∈ l → x ∈ ids.
Proof.
  intros (nodes & Hn & (_ & Hin & _)) Hx. eapply power_closure_ids, Hn. by apply Hin.
Qed.

(** *** The remaining events *)

Lemma elem_of_remaining full power x :
  x ∈ remaining_events full power ↔ x ∈ full ∧ x ∉ power.
Proof.
  unfold remaining_events. rewrite list_elem_of_filter.
  assert (StronglySorted key_le (merge_sort key_le power)) as Hs by (apply StronglySorted_merge_sort; apply _).
  pose proof (binary_search_by_spec _ _ (rising_bisected _ x Hs)) as Hb.
  assert (∀ y, y ∈ merge_sort key_le power ↔ y ∈ power) as Hin by (intros y; by rewrite merge_sort_Permutation).
  destruct (binary_search_by (λ p, key_cmp p x) (merge_sort key_le power)) as [i|].
  - destruct Hb as (y & Hy & ->%key_cmp_eq). split; [by intros []|]. intros [_ Hx]. exfalso.
    apply Hx, Hin. by eapply list_elem_of_lookup_2.
  - split; [|tauto]. intros [_ Hx]. split; [done|]. intros Hp. apply Hin, Hb in Hp. apply Hp.
    by apply key_cmp_eq.
Qed.

Lemma remaining_perm full full' power :
  full ≡ₚ full' → remaining_events full power ≡ₚ remaining_events full' power.
Proof. intros P. unfold remaining_events. by rewrite P. Qed.

(** *** Totality, and what the result holds *)

(** The store around a resolution: events are under their own ids and without
    cycles of auth events, and the [stored] ones are state events whose auth
    events are stored and whose senders' power can be read. *)
Record complete_store (rank : string → nat) (bound : nat) (stored : gset string) : Prop := {
  store_coherent : fetch_coherent fetch;
  store_ranked : ∀ x e a, fetch x = Ok e → a ∈ pdu_auth_events e → (rank a < rank x)%nat;
  store_bounded : ∀ x, (rank x < bound)%nat;
  store_closed : ∀ x, x ∈ stored → ∃ e, fetch x = Ok e ∧ ∀ a, a ∈ pdu_auth_events e → a ∈ stored;
  store_state : ∀ x e, x ∈ stored → fetch x = Ok e → is_Some (pdu_state_key e);
  store_create : ∀ x e c e', x ∈ stored → fetch x = Ok e →
    c ∈ also_create_id rules e → fetch c = Ok e' → is_Some (pdu_state_key e');
  store_levels : ∀ x, x ∈ stored → ∃ l, power_level_for_sender rules fetch x = Ok l;
}.

Lemma remaining_run (n : nat) unconflicted full power :
  (∀ p, ∃ r, mainline_sort fetch n p (remaining_events full power) = Some r) →
  ∃ r, ∀ fuel full', (n <= fuel)%nat → full ≡ₚ full' →
    resolve_remaining rules fetch fuel unconflicted full' power = Some r.
Proof.
  intros Hml. unfold resolve_remaining.
  destruct (iterative_auth_check rules fetch power _) as [partial|err]; [|by exists (Err err)].
  destruct (decide (remaining_events full power = [])) as [He|He].
  - eexists. intros fuel full' _ P. rewrite decide_True; [done|].
    apply Permutation_nil_r. by rewrite <-(remaining_perm _ _ _ P), He.
  - destruct (Hml (partial !! (ROOM_POWER_LEVELS, ""))) as [r Hr].
    destruct r as [sorted|err]; eexists; intros fuel full' Hf P.
    all: rewrite decide_False by (intros He'; apply He, Permutation_nil_r; by rewrite (remaining_perm _ _ _ P), He').
    all: rewrite <-(mainline_sort_perm fetch fuel _ _ _ (remaining_perm _ _ power P)).
    all: by rewrite (mainline_sort_mono fetch n fuel _ _ _ Hf Hr).
Qed.

(** [l] lists the events of [P] that can be placed on the mainline of the power
    levels, by position, timestamp and id. *)
Definition mainline_ordered (power_levels : option string) (P : string → Prop) (l : list string) : Prop :=
  ∃ ml (keys : list (nat * N * string)), mainline_of fetch power_levels ml ∧ l = keys.*2 ∧ NoDup l ∧ StronglySorted key_le keys
    ∧ ∀ n ts x, ((n, ts), x) ∈ keys ↔ P x ∧ ∃ e, fetch x = Ok e ∧ ts = pdu_ts e ∧ positioned fetch (reverse ml) x n.

(** The two passes: the power events in their order from the agreed state, or
    from nothing in versions that say so; the others in mainline order from what
    this leaves.  The agreed slots are put back. *)
Definition two_passes (unconflicted : RoomState) (full power : list string) (state : RoomState) : Prop :=
  ∃ partial rest final,
    checked_through rules fetch (if start_with_incoming_state rules then unconflicted else ∅) power partial
    ∧ mainline_ordered (partial !! (ROOM_POWER_LEVELS, "")) (λ x, x ∈ full ∧ x ∉ power) rest
    ∧ checked_through rules fetch partial rest final ∧ state = unconflicted ∪ final.

Section total.
Variables (rank : string → nat) (bound : nat) (stored : gset string).
Hypothesis Hstore : complete_store rank bound stored.

Lemma own_auth_events_ok ids :
  (∀ a e, a ∈ ids → fetch a = Ok e → is_Some (pdu_state_key e)) → ∃ l, own_auth_events fetch ids = Ok l.
Proof.
  induction ids as [|id ids IH]; intros Hk; [by exists []|]. cbn [own_auth_events].
  destruct IH as [l Hl]; [intros a e Ha; apply Hk; by right|].
  destruct (fetch id) as [e|] eqn:Ef; [|by exists l].
  destruct (Hk id e) as [sk ->]; [by left|done|]. cbn [ok_or]. rewrite Hl. by eexists.
Qed.

Lemma iterative_auth_check_ok events state :
  (∀ x, x ∈ events → x ∈ stored) → ∃ r, iterative_auth_check rules fetch events state = Ok r.
Proof.
  revert state. induction events as [|id events IH]; intros state Hin; [by eexists|].
  cbn [iterative_auth_check]. assert (id ∈ stored) as Hid by (apply Hin; by left).
  destruct (store_closed _ _ _ Hstore id Hid) as (e & He & Hauth). rewrite He.
  destruct (store_state _ _ _ Hstore id e Hid He) as [sk ->]. cbn [ok_or].
  assert (∃ s, resolve_auth_check rules fetch state id sk e = Ok s) as [s ->].
  { unfold resolve_auth_check. destruct (auth_types_for_event _ _ _ _ _ _); [|by eexists].
    destruct (own_auth_events_ok (pdu_auth_events e ++ also_create_id rules e)) as [own ->].
    { intros a ea [Ha|Ha]%elem_of_app Hea; [|by eapply (store_create _ _ _ Hstore)].
      eapply (store_state _ _ _ Hstore); [by apply Hauth|done]. }
    destruct (check_state_dependent_auth_rules _ _ _); by eexists. }
  apply IH. intros x Hx. apply Hin. by right.
Qed.

Lemma mainline_ok power_levels full power :
  (∀ x, power_levels = Some x → x ∈ stored) → NoDup full →
  ∃ rest, (if decide (remaining_events full power = []) then Some (Ok [])
           else mainline_sort fetch bound power_levels (remaining_events full power)) = Some (Ok rest)
    ∧ mainline_ordered power_levels (λ x, x ∈ full ∧ x ∉ power) rest.
Proof.
  intros Hpl ND. assert (∃ ml, mainline_of fetch power_levels ml) as [ml Hml].
  { destruct power_levels as [x|]; [|exists []; constructor].
    apply (mainline_readable fetch rank stored (store_coherent _ _ _ Hstore) (store_ranked _ _ _ Hstore) (store_closed _ _ _ Hstore)). by apply Hpl. }
  case_decide as He.
  - exists []. split; [done|]. exists ml, []. split_and!; [done..|constructor|constructor|]. intros n ts x. split; [by intros Hx%elem_of_nil|].
    intros [Hx%elem_of_remaining _]. rewrite He in Hx. by apply elem_of_nil in Hx.
  - destruct (room_mainline_sort_spec fetch rank bound power_levels (remaining_events full power)) as ([rest|err] & Hr & Hs);
      [apply Hstore..|by apply NoDup_filter| |by destruct (Hs ml)].
    exists rest. split; [done|]. destruct Hs as (ml' & keys & Hml' & -> & NDk & Hsort & Hin). exists ml', keys. split_and!; [done..|].
    intros n ts x. by rewrite Hin, elem_of_remaining.
Qed.

Lemma mainline_ordered_ids power_levels P l x : mainline_ordered power_levels P l → x ∈ l → P x.
Proof. intros (ml & keys & _ & -> & _ & _ & Hin) ([[n ts] y] & -> & Hx)%list_elem_of_fmap. by apply Hin in Hx as [? _]. Qed.

Lemma remaining_ok unconflicted full power :
  (∀ x, x ∈ full → x ∈ stored) → (∀ x, x ∈ power → x ∈ full) → NoDup full →
  (∀ k v, unconflicted !! k = Some v → v ∈ stored) →
  ∃ state, resolve_remaining rules fetch bound unconflicted full power = Some (Ok state) ∧ two_passes unconflicted full power state.
Proof.
  intros Hfull Hp ND Hun. unfold resolve_remaining.
  destruct (iterative_auth_check_ok power (if start_with_incoming_state rules then unconflicted else ∅))
    as [partial Hpart]; [by auto|]. rewrite Hpart. apply iterative_auth_check_spec in Hpart.
  destruct (mainline_ok (partial !! (ROOM_POWER_LEVELS, "")) full power) as (rest & -> & Hrest); [|done|].
  { intros x Hx. destruct (checked_through_ids _ _ _ _ _ _ _ Hpart Hx) as [Hi|Hin]; [|by auto].
    revert Hi. destruct (start_with_incoming_state rules); [apply Hun|by rewrite lookup_empty]. }
  cbn [mbind option_bind]. destruct (iterative_auth_check_ok rest partial) as [r Hr].
  { intros x Hx. by apply Hfull, (mainline_ordered_ids _ _ _ _ Hrest Hx). }
  rewrite Hr. apply iterative_auth_check_spec in Hr. eexists. split; [done|]. exists partial, rest, r. by rewrite map_extend_union.
Qed.

(** The conflicted part succeeds, with the same result whatever the iteration
    order of the full conflicted set. *)
Lemma conflicts_run unconflicted (full : gset string) :
  (∀ x, x ∈ full → x ∈ stored) → (∀ k v, unconflicted !! k = Some v → v ∈ stored) →
  ∃ state, (∃ power, power_ordered (elements full) power ∧ two_passes unconflicted (elements full) power state)
    ∧ ∀ ids, ids ≡ₚ elements full → ∃ n, ∀ fuel, (n <= fuel)%nat →
        resolve_conflicts rules fetch fuel unconflicted ids = Some (Ok state).
Proof.
  intros Hfull Hun.
  assert (∀ ids, ids ≡ₚ elements full → ∃ n l, power_ordered ids l
            ∧ ∀ fuel, (n <= fuel)%nat → power_sort rules fetch fuel ids = Some (Ok l)) as Hps.
  { intros ids P. assert (∀ id, id ∈ ids → id ∈ stored) as Hids.
    { intros id Hid. rewrite P, elem_of_elements in Hid. by apply Hfull. }
    destruct (room_power_sort_spec rules fetch ids rank) as (n & nodes & l & Hn & Hl & Hf); [apply Hstore| |apply Hstore|..].
    - intros id Hid. destruct (store_closed _ _ _ Hstore id) as (e & He & _); [by apply Hids|by exists e].
    - intros x Hx. by eapply Hstore, Hids, power_closure_ids.
    - exists n, l. split; [by exists nodes|done]. }
  destruct (Hps (elements full) ltac:(done)) as (n0 & power & Hpower & _).
  assert (∀ x, x ∈ power → x ∈ elements full) as Hpin by (intros x; by apply power_ordered_ids).
  destruct (remaining_ok unconflicted (elements full) power) as (state & Hst & Hpass); [set_solver|done|apply NoDup_elements|done|].
  destruct (remaining_run bound unconflicted (elements full) power) as [r Hr].
  { intros p. destruct (room_mainline_sort_spec fetch rank bound p (remaining_events (elements full) power)) as (r & Hr & _);
      [apply Hstore..| |by exists r]. apply NoDup_filter, NoDup_elements. }
  rewrite (Hr bound (elements full)) in Hst by done. injection Hst as ->.
  exists state. split; [by exists power|].
  intros ids P. destruct (Hps ids P) as (n & l & Hl & Hf).
  assert (l = power) as -> by (by eapply power_ordered_unique; [exact P|..]).
  exists (n `max` bound)%nat. intros fuel Hfuel. unfold resolve_conflicts. rewrite Hf by lia.
  cbn [mbind option_bind]. apply Hr; [lia|done].
Qed.
End total.

(** *** The full conflicted set *)

Variables (exists_ : string → bool) (width css_fuel : nat) (schedule : nat → nat).

Lemma disputed_stored maps (stored : gset string) x :
  (∀ k v, votes maps k v → v ∈ stored) → disputed maps x → x ∈ stored.
Proof. intros Hv (k & Hk & _). by eapply Hv. Qed.

Lemma descends_stored rank bound (stored : gset string) (ids : list string) x :
  complete_store rank bound stored → (∀ y, y ∈ ids → y ∈ stored) → descends fetch ids x → x ∈ stored.
Proof.
  intros Hstore Hids (c & Hc & Hr). apply Hids in Hc. induction Hr as [|a b d (e & He & Ha) _ IH]; [done|].
  apply IH. destruct (store_closed _ _ _ Hstore a Hc) as (e' & He' & Hauth). rewrite He in He'. injection He' as <-. by apply Hauth.
Qed.

(** What enters the full conflicted set. *)
Definition in_scope maps sets css x : Prop :=
  (exists_ x = true ∧ (x ∈ auth_difference sets ∨ disputed maps x))
  ∨ (consider_conflicted_subgraph rules css = true
     ∧ descends fetch (conflicted_state_set (split_conflicted_state maps).2) x).

Lemma full_conflicted_set_spec rank bound stored maps sets css :
  complete_store rank bound stored → (∀ k v, votes maps k v → v ∈ stored) →
  (consider_conflicted_subgraph rules css = true →
   potential fetch stored (dfs_init (conflicted_state_set (split_conflicted_state maps).2)) ≤ css_fuel)%nat →
  ∃ full, full_conflicted_set rules fetch exists_ width css_fuel schedule (split_conflicted_state maps).2 sets css
          = Some full
    ∧ (∀ x, exists_ x = true → x ∈ auth_difference sets ∨ disputed maps x → x ∈ full)
    ∧ ∀ x, x ∈ full → in_scope maps sets css x.
Proof.
  intros Hstore Hvotes Hfuel. unfold full_conflicted_set, in_scope.
  set (ids := conflicted_state_set _) in *.
  assert (∀ y, y ∈ ids ↔ disputed maps y) as Hids by apply elem_of_conflicted_state_set.
  assert (∃ sub, (if consider_conflicted_subgraph rules css
                  then conflicted_subgraph_dfs fetch ids width css_fuel schedule else Some []) = Some sub
            ∧ ∀ x, x ∈ sub → consider_conflicted_subgraph rules css = true ∧ descends fetch ids x)
    as (sub & -> & Hsub).
  { destruct (consider_conflicted_subgraph rules css); [|by exists []; split; [|intros x ?%elem_of_nil]].
    destruct (dfs_init_ok fetch ids) as [Hok Hem].
    destruct (dfs_run_ok fetch ids width stored css_fuel schedule (dfs_init ids)) as (sub & Hrun & _ & Hd);
      [|exact Hok|exact Hem|by apply Hfuel|].
    - intros x Hx. eapply descends_stored; [done| |done]. intros y Hy. apply Hids in Hy. by eapply disputed_stored.
    - exists sub. split; [done|]. intros x Hx. split; [done|]. rewrite Forall_forall in Hd. by apply Hd. }
  cbn [mbind option_bind]. eexists. split; [done|].
  split; intros x; rewrite elem_of_list_to_set, elem_of_app, list_elem_of_filter, elem_of_app, Hids.
  - tauto.
  - intros [?|Hx]; [by left|right; by apply Hsub].
Qed.

Lemma in_scope_stored rank bound stored maps sets css x :
  complete_store rank bound stored → (∀ k v, votes maps k v → v ∈ stored) →
  (∀ s, s ∈ sets → s ⊆ stored) → in_scope maps sets css x → x ∈ stored.
Proof.
  intros Hstore Hvotes Hsets [[_ [Hx|Hx]]|[_ Hx]].
  - apply auth_difference_spec in Hx as [(s & Hs & Hx) _]. by eapply Hsets.
  - by eapply disputed_stored.
  - eapply descends_stored; [done| |exact Hx]. intros y Hy%elem_of_conflicted_state_set. by eapply disputed_stored.
Qed.

Lemma resolve_unfold fuel maps sets css full :
  full_conflicted_set rules fetch exists_ width css_fuel schedule (split_conflicted_state maps).2 sets css = Some full →
  resolve rules fetch exists_ width css_fuel schedule fuel maps sets css
  = if decide ((split_conflicted_state maps).2 = ∅) then Some (Ok (split_conflicted_state maps).1)
    else resolve_conflicts rules fetch fuel (split_conflicted_state maps).1 (hash_set_iter full).
Proof.
  intros Hf. unfold resolve. destruct (split_conflicted_state maps) as [u c]. cbn [fst snd] in *.
  case_decide; [done|]. by rewrite Hf.
Qed.

(** Without dispute the state is what all agree on; otherwise the two passes over
    the full conflicted set give it. *)
Definition resolved_by maps (full : list string) (state : RoomState) : Prop :=
  ∃ base : RoomState, (∀ k v, base !! k = Some v ↔ agreed maps k v)
    ∧ ((∀ x, ¬ disputed maps x) ∧ state = base
       ∨ (∃ x, disputed maps x) ∧ ∃ power, power_ordered full power ∧ two_passes base full power state).

(** Resolution succeeds, given the full conflicted set. *)
Lemma resolve_run rank bound stored maps sets css full :
  complete_store rank bound stored → (∀ k v, votes maps k v → v ∈ stored) →
  (∀ x, x ∈ full → x ∈ stored) →
  full_conflicted_set rules fetch exists_ width css_fuel schedule (split_conflicted_state maps).2 sets css = Some full →
  ∃ state, resolved_by maps (elements full) state
    ∧ ∃ n, ∀ fuel, (n <= fuel)%nat →
        resolve rules fetch exists_ width css_fuel schedule fuel maps sets css = Some (Ok state).
Proof.
  intros Hstore Hvotes Hin Hfull.
  destruct (decide ((split_conflicted_state maps).2 = ∅)) as [He|He].
  - exists (split_conflicted_state maps).1. split; [exists (split_conflicted_state maps).1; split; [apply unconflicted_spec|left; by rewrite <-no_conflict]|]. exists 0%nat. intros fuel _.
    by rewrite (resolve_unfold _ _ _ _ _ Hfull), decide_True.
  - destruct (conflicts_run rank bound stored Hstore (split_conflicted_state maps).1 full) as (state & Hka & Hrun).
    + done.
    + intros k v Ha%unconflicted_spec. apply (Hvotes k). by apply agreed_votes.
    + destruct (Hrun (hash_set_iter full)) as [n Hn]; [apply hash_set_iter_perm|].
      exists state. split; [exists (split_conflicted_state maps).1; split; [apply unconflicted_spec|right; split; [|done]]|].
      { destruct (conflicted_state_set (split_conflicted_state maps).2) as [|x l] eqn:Es.
        - destruct He. apply no_conflict. intros x. rewrite <-elem_of_conflicted_state_set, Es. by intros ?%elem_of_nil.
        - exists x. apply elem_of_conflicted_state_set. rewrite Es. by left. }
      exists n. intros fuel Hfuel.
      rewrite (resolve_unfold _ _ _ _ _ Hfull), decide_False by done. by apply Hn.
Qed.
End resolve_facts.

(** ** Properties *)


(** What the split and the difference depend on. *)
Lemma agreed_perm (maps maps' : list RoomState) k v : maps ≡ₚ maps' → agreed maps k v → agreed maps' k v.
Proof.
  intros P [Hne Hall]. split; [|intros m Hm; apply Hall; by rewrite P].
  intros ->. apply Hne. by apply Permutation_nil_r.
Qed.

Lemma disputed_perm (maps maps' : list RoomState) x : maps ≡ₚ maps' → disputed maps x → disputed maps' x.
Proof.
  intros P (k & Hv & Ha). exists k. split; [by eapply votes_perm|]. contradict Ha. by eapply agreed_perm.
Qed.

Lemma counted_difference_perm sets sets' x :
  sets ≡ₚ sets' → x ∈ auth_difference sets → x ∈ auth_difference sets'.
Proof. intros P. rewrite !auth_difference_spec. by setoid_rewrite P. Qed.

Lemma split_perm `{Ruma} (HI HI' : HashIter) (maps maps' : list RoomState) :
  maps ≡ₚ maps' →
  (@split_conflicted_state _ HI maps).1 = (@split_conflicted_state _ HI' maps').1
  ∧ ((@split_conflicted_state _ HI maps).2 = ∅ ↔ (@split_conflicted_state _ HI' maps').2 = ∅).
Proof.
  intros P. split.
  - apply map_eq. intros k. apply option_eq. intros v. rewrite !unconflicted_spec.
    split; by apply agreed_perm.
  - rewrite !no_conflict. split; intros Hn x Hx; apply (Hn x); by eapply disputed_perm.
Qed.

(** Without the subgraph search, production resolution is a function of
    the forks: the order of the forks and of the auth chains, and the iteration
    order of every hash map and set, leave the resolved state as it is. *)
Theorem production_resolve_deterministic `{Ruma} (rules : RoomVersionRules) (fetch : FetchEvent)
    (exists_ : string → bool) (rank : string → nat) (bound : nat) (stored : gset string)
    (maps : list RoomState) (sets : list AuthSet) (css : bool) :
  complete_store rules fetch rank bound stored →
  (∀ k v, votes maps k v → v ∈ stored) → (∀ s, s ∈ sets → s ⊆ stored) →
  consider_conflicted_subgraph rules css = false →
  ∃ state, ∀ (HI : HashIter) maps' sets' width css_fuel schedule,
    maps ≡ₚ maps' → sets ≡ₚ sets' → ∃ n, ∀ fuel, (n <= fuel)%nat →
    @resolve _ HI rules fetch exists_ width css_fuel schedule fuel maps' sets' css = Some (Ok state).
Proof.
  intros Hstore Hvotes Hsets Hcss. pose (H0 := reversed_hash_iter).
  set (u := (split_conflicted_state maps).1).
  set (full := list_to_set (C := gset string) (filter (λ id, exists_ id = true)
                 (auth_difference sets ++ conflicted_state_set (split_conflicted_state maps).2))).
  assert (∀ x, x ∈ full ↔ exists_ x = true ∧ (x ∈ auth_difference sets ∨ disputed maps x)) as Hfull.
  { intros x. unfold full.
    by rewrite elem_of_list_to_set, list_elem_of_filter, elem_of_app, elem_of_conflicted_state_set. }
  destruct (conflicts_run rules fetch rank bound stored Hstore u full) as (state & _ & Hrun).
  { intros x [_ Hx]%Hfull. eapply (in_scope_stored _ _ (λ _, true) _ _ _ maps sets css); [done..|].
    left. by split. }
  { intros k v Ha%unconflicted_spec. apply (Hvotes k). by apply agreed_votes. }
  assert (∀ (HI : HashIter) maps' sets' width css_fuel schedule, maps ≡ₚ maps' → sets ≡ₚ sets' →
            full_conflicted_set rules fetch exists_ width css_fuel schedule
              (@split_conflicted_state _ HI maps').2 sets' css = Some full) as Hset.
  { intros HI maps' sets' width css_fuel schedule P1 P2. unfold full_conflicted_set. rewrite Hcss.
    cbn [mbind option_bind]. f_equal. apply set_eq. intros x.
    rewrite app_nil_r, elem_of_list_to_set, list_elem_of_filter, elem_of_app, elem_of_conflicted_state_set, Hfull.
    split; intros [? Hd]; (split; [done|]); destruct Hd as [Hx|Hx];
      [left; by eapply counted_difference_perm|right; by eapply disputed_perm|
       left; by eapply counted_difference_perm|right; by eapply disputed_perm]. }
  destruct (decide ((split_conflicted_state maps).2 = ∅)) as [He|He].
  - exists u. intros HI maps' sets' width css_fuel schedule P1 P2. exists 0%nat. intros fuel _.
    destruct (split_perm H0 HI maps maps' P1) as [Hu Hc].
    rewrite (resolve_unfold _ _ _ _ _ _ _ _ _ _ _ (Hset _ _ _ _ _ _ P1 P2)), decide_True by (by apply Hc).
    by rewrite <-Hu.
  - exists state. intros HI maps' sets' width css_fuel schedule P1 P2.
    destruct (split_perm H0 HI maps maps' P1) as [Hu Hc].
    destruct (Hrun (hash_set_iter full)) as [n Hn]; [apply hash_set_iter_perm|]. exists n. intros fuel Hfuel.
    rewrite (resolve_unfold _ _ _ _ _ _ _ _ _ _ _ (Hset _ _ _ _ _ _ P1 P2)), decide_False by (by rewrite <-Hc).
    rewrite <-Hu. by apply Hn.
Qed.

(** The split into agreed and conflicted state, for every iteration order
    of the hash maps: a slot is unconflicted with [v] exactly when every fork
    assigns [v] to it; the conflicted slots list, once each, the events that
    some fork assigns to the slot without all forks agreeing. *)
Theorem split_exact `{Ruma, HashIter} (maps : list RoomState) (k : TypeStateKey) :
  (∀ v, (split_conflicted_state maps).1 !! k = Some v ↔ agreed maps k v)
  ∧ match (split_conflicted_state maps).2 !! k with
    | Some l => l ≠ [] ∧ NoDup l ∧ ∀ v, v ∈ l ↔ votes maps k v ∧ ¬ agreed maps k v
    | None => ∀ v, votes maps k v → agreed maps k v
    end.
Proof. split; [intros v; apply unconflicted_spec|apply conflicted_spec]. Qed.

(** The state an event is checked against during resolution: for a slot
    the check needs, the event the partial state has there if it can be fetched
    and is not rejected; otherwise the last of the event's own auth events for
    the slot; otherwise the slot is reported missing.  Sorting, reversing and
    de-duplicating the candidates makes the binary search find just that one. *)
Theorem effective_state `{Ruma} (fetch : FetchEvent) (own : list (TypeStateKey * Pdu)) (state : RoomState)
    (auth_types : list TypeStateKey) (ty key : string) :
  indexed_state (index_of (own ++ state_auth_events fetch state auth_types)) ty key
  = match (if decide ((ty, key) ∈ auth_types) then state_auth_event fetch state (ty, key) else None) with
    | Some e => Ok e
    | None =>
        match last (entries_at (ty, key) own) with
        | Some (_, e) => Ok e
        | None => Err (Request NotFound "Missing auth_event")
        end
    end.
Proof.
  rewrite indexed_state_spec. unfold state_event. destruct (if decide _ then _ else _); [done|].
  by destruct (last (entries_at (ty, key) own)) as [[k e]|].
Qed.

(** Two forks that differ in the power-levels event. *)
Module ResolveExample.
#[local] Existing Instance ToyRuma.toy_ruma.
Definition fork (levels : string) : RoomState :=
  list_to_map [((ROOM_CREATE, ""), "$c"); ((ROOM_MEMBER, "@ann:a"), "$a");
               ((ROOM_MEMBER, "@mod:a"), "$m"); ((ROOM_POWER_LEVELS, ""), levels)].
Definition forks : list RoomState := [fork "$q"; fork "$r"].
Definition chains : list AuthSet :=
  [list_to_set ["$c"; "$p"; "$a"; "$m"]; list_to_set ["$c"; "$p"; "$a"]].
Definition version (css : bool) : RoomVersionRules := mkVersion ToyRuma.v11 (Some (mkV2 false css)).
Definition stored : gset string := list_to_set ["$c"; "$a"; "$p"; "$m"; "$q"; "$r"].

Lemma stored_cases (f : string → bool) x :
  forallb f ["$c"; "$a"; "$p"; "$m"; "$q"; "$r"] = true → x ∈ stored → f x = true.
Proof.
  rewrite forallb_forall. intros Hall Hx. apply Hall, list_elem_of_In. by apply elem_of_list_to_set in Hx.
Qed.

Lemma store_complete css : complete_store (version css) PowerExample.fetch PowerExample.rank 4 stored.
Proof.
  split.
  - apply PowerExample.coherent.
  - apply PowerExample.ranked.
  - intros x. unfold PowerExample.rank. repeat case_decide; lia.
  - intros x Hx. pose proof (stored_cases (λ x, match PowerExample.fetch x with
      | Ok e => forallb (λ a, bool_decide (a ∈ stored)) (pdu_auth_events e) | Err _ => false end) x
      ltac:(by vm_compute) Hx) as Hc. cbv beta in Hc.
    destruct (PowerExample.fetch x) as [e|]; [|done]. exists e. split; [done|]. intros a Ha.
    rewrite forallb_forall in Hc. by eapply bool_decide_eq_true, Hc, list_elem_of_In.
  - intros x e _ He. apply ToyRuma.store_of_some in He as [He _]. revert e He.
    apply Forall_forall. by apply (bool_decide_unpack _); vm_compute.
  - intros x e c e' _ _ Hc. unfold also_create_id in Hc. cbn [authorization version] in Hc.
    rewrite andb_false_r in Hc. by apply elem_of_nil in Hc.
  - intros x Hx. pose proof (stored_cases (λ x, bool_decide (is_Some (ok
      (power_level_for_sender (version css) PowerExample.fetch x)))) x
      ltac:(destruct css; by vm_compute) Hx) as Hl%bool_decide_eq_true.
    destruct (power_level_for_sender _ _ x) as [l|]; [by exists l|by destruct Hl].
Qed.

Lemma voted k v : votes forks k v → v ∈ stored.
Proof.
  intros (m & Hm & Hv). apply elem_of_map_to_list in Hv as Hv. change v with (k, v).2. revert Hv.
  generalize (k, v). apply Forall_forall. revert m Hm. apply Forall_forall.
  by apply (bool_decide_unpack _); vm_compute.
Qed.

Lemma chained s : s ∈ chains → s ⊆ stored.
Proof. revert s. apply Forall_forall. by apply (bool_decide_unpack _); vm_compute. Qed.
End ResolveExample.


Lemma production_resolve_deterministic_witness :
  ∃ state, ∀ HI : HashIter, ∃ n,
    @resolve ToyRuma.toy_ruma HI (ResolveExample.version false) PowerExample.fetch (λ _, true) 1 0 (λ _, 0) n
      (reverse ResolveExample.forks) ResolveExample.chains false = Some (Ok state).
Proof.
  destruct (@production_resolve_deterministic ToyRuma.toy_ruma (ResolveExample.version false)
              PowerExample.fetch (λ _, true) PowerExample.rank 4 ResolveExample.stored
              ResolveExample.forks ResolveExample.chains false) as (state & Hs).
  - apply ResolveExample.store_complete.
  - apply ResolveExample.voted.
  - apply ResolveExample.chained.
  - done.
  - exists state. intros HI. destruct (Hs HI (reverse ResolveExample.forks) ResolveExample.chains 1%nat 0%nat (λ _, 0%nat))
      as [n Hn]; [by rewrite reverse_Permutation|done|]. exists n. by apply Hn.
Defined.
