(* ===== verification/RoomAgree.v ===== *)
(** * The two resolvers side by side

    The repository has two implementations of state resolution: the production
    one ([src/src/service/rooms/state_res/]) and the clean-room crate
    ([src/src/stateres/]).  This file relates their first two steps: the auth
    differences are the same, and the splits are the same on forks that have
    the same slots, and differ on others. *)

From S2P Require Import Prelude Bytes StateMap StateEvent StateOrder Core Json RoomEvents RoomResolve.

Local Set Warnings "-register-all".

(** The production auth difference, which counts the sets an id is in, is
    the clean-room one, the union without the intersection. *)
Theorem auth_differences_agree (sets : list (gset string)) :
  list_to_set (RoomResolve.auth_difference sets) = StateOrder.auth_difference sets.
Proof.
  apply set_eq. intros x. rewrite elem_of_list_to_set, auth_difference_spec, elem_of_auth_difference.
  split; intros [Hin Hout]; (split; [done|]).
  - destruct Hout as (s & Hs & Hx). intros Hall. by apply Hx, Hall.
  - rewrite <-Forall_forall in Hout. apply not_Forall_Exists, Exists_exists in Hout; [|apply _].
    by destruct Hout as (s & Hs & Hx); exists s.
Qed.

(** All forks assign an event to the same slots. *)
Definition same_slots (forks : list (gmap TypeStateKey string)) : Prop :=
  ∀ s s' k, s ∈ forks → s' ∈ forks → is_Some (s !! k) → is_Some (s' !! k).

Lemma agreed_iff forks k e :
  same_slots forks → agreed forks k e ↔ votes forks k e ∧ ∀ e', votes forks k e' → e' = e.
Proof.
  intros Hsame. split.
  - intros Ha. split; [by apply agreed_votes|]. intros e'. by apply agreed_unique.
  - intros [(s & Hs & Hk) Hu]. split; [by intros ->; apply elem_of_nil in Hs|]. intros s' Hs'.
    destruct (Hsame s s' k Hs Hs') as [e' He']; [by eexists|]. rewrite He'. f_equal.
    apply Hu. by exists s'.
Qed.

(** A slot with votes is on one side of the partition. *)
Lemma partition_cases forks k e :
  votes forks k e →
  (∃ e', unconflicted (StateMap.partition forks) !! k = Some e')
  ∨ ∃ s, conflicted (StateMap.partition forks) !! k = Some s ∧ e ∈ s.
Proof.
  intros Hv. rewrite partition_unconflicted, partition_conflicted, !lookup_omap.
  pose proof (group_spec forks k) as G. destruct (group forks !! k) as [s|]; [|by destruct (G e)].
  destruct G as [Hne G]. cbn. destruct (decide (size s = 1)) as [Hs|Hs].
  - left. apply size_1_elem_of in Hs as [x Hx]. exists x. apply singleton_event_spec. by apply leibniz_equiv.
  - right. exists s. split; [by apply several_events_spec|by apply G].
Qed.

(** On forks with the same slots the production split and the clean-room
    partition agree: the same unconflicted state and the same conflicted
    events, for every iteration order of the hash maps.  In general the
    production split finds fewer slots unconflicted. *)
Theorem splits_agree `{Ruma, HashIter} (forks : list (gmap TypeStateKey string)) :
  (split_conflicted_state forks).1 ⊆ unconflicted (StateMap.partition forks)
  ∧ (same_slots forks →
     (split_conflicted_state forks).1 = unconflicted (StateMap.partition forks)
     ∧ list_to_set (conflicted_state_set (split_conflicted_state forks).2)
       = conflicting_event_ids (conflicted (StateMap.partition forks))).
Proof.
  split.
  - apply map_subseteq_spec. intros k e Ha%unconflicted_spec. apply unconflicted_lookup.
    split; [by apply agreed_votes|]. intros e'. by apply agreed_unique.
  - intros Hsame. split.
    + apply map_eq. intros k. apply option_eq. intros e.
      by rewrite unconflicted_spec, unconflicted_lookup, agreed_iff.
    + apply set_eq. intros x. rewrite elem_of_list_to_set, elem_of_conflicted_state_set,
        elem_of_conflicting_event_ids. unfold disputed. split.
      * intros (k & Hv & Hna). rewrite agreed_iff in Hna by done. exists k.
        destruct (partition_cases forks k x Hv) as [[e He]|Hc]; [|done].
        apply unconflicted_lookup in He as [_ Hu]. destruct Hna. split; [done|].
        intros e' He'. by rewrite (Hu e' He'), (Hu x Hv).
      * intros (k & s & [Hs (e1 & e2 & H1 & H2 & Hne)]%conflicted_lookup & Hx). exists k.
        split; [by apply Hs|]. intros Ha. apply Hne. apply Hs in H1, H2.
        by rewrite (agreed_unique _ _ _ _ Ha H1), (agreed_unique _ _ _ _ Ha H2).
Qed.

(** The splits differ on a slot that some forks have not: with one fork
    assigning an event to a slot and another that lacks the slot, the
    production split reports a conflict and the clean-room partition does not. *)
Theorem splits_diverge `{Ruma, HashIter} (k : TypeStateKey) (e : string) :
  (split_conflicted_state [{[k := e]}; ∅]).1 !! k = None
  ∧ (split_conflicted_state [{[k := e]}; ∅]).2 !! k = Some [e]
  ∧ unconflicted (StateMap.partition [{[k := e]}; ∅]) !! k = Some e.
Proof.
  set (forks := [{[k := e]}; ∅] : list (gmap TypeStateKey string)).
  assert (∀ x, votes forks k x ↔ x = e) as Hv.
  { intros x. unfold votes, forks. split.
    - intros (s & Hs & Hx). apply elem_of_cons in Hs as [->|Hs]; [|apply list_elem_of_singleton in Hs as ->].
      + rewrite lookup_singleton_eq in Hx. congruence.
      + by rewrite lookup_empty in Hx.
    - intros ->. exists {[k := e]}. split; [by left|]. by rewrite lookup_singleton_eq. }
  assert (∀ x, ¬ agreed forks k x) as Hna.
  { intros x [_ Ha]. specialize (Ha ∅ ltac:(by right; left)). by rewrite lookup_empty in Ha. }
  split_and!.
  - apply eq_None_ne_Some. intros x Hx%unconflicted_spec. by apply (Hna x).
  - pose proof (conflicted_spec forks k) as Hc. destruct ((split_conflicted_state forks).2 !! k) as [l|].
    + destruct Hc as (Hne & ND & Hin). f_equal.
      apply Permutation_singleton_r, NoDup_Permutation; [done|apply NoDup_singleton|].
      intros x. rewrite Hin, Hv, list_elem_of_singleton. naive_solver.
    + by destruct (Hna e), (Hc e), (Hv e); auto.
  - apply unconflicted_lookup. split; [by apply Hv|]. intros e'. by rewrite Hv.
Qed.
