(* ===== verification/PduFormat.v ===== *)
(** * The format of events ([src/src/core/matrix/pdu.rs],
    [pdu/format.rs], [pdu/format/check.rs], [event/id.rs], [event/redact.rs])

    An event travels between servers as a canonical JSON object, whose shape
    depends on the version of its room, and is stored in one shape; the checks
    of sizes and types; the event id; and the object read into a [Pdu].  The
    version rules, the reference hash and the text of an object are [ruma]'s and
    serde's: the class [Formats] lists what is used of them. *)

From S2P Require Import Prelude Bytes Short MemberCache Json Core RoomEvents.

Abbreviation CanonicalJsonObject := (gmap string Value).

(** [EventFormatRules] and the other flags of a room version that are read. *)
Record EventFormatRules := mkFormat {
  require_event_id : bool;
  require_room_create_room_id : bool;
  allow_room_create_in_auth_events : bool;
}.

Record PduRules := mkPduRules {
  version_rules : RoomVersionRules;
  event_format : EventFormatRules;
  (** [EventsReferenceFormatVersion::V1] *)
  references_v1 : bool;
  content_field_redacts : bool;
}.

Class Formats := {
  (** [RoomVersionId::rules] *)
  rules_of : string → option PduRules;
  (** [serde_json::to_string], and an object read back from its text. *)
  object_text : CanonicalJsonObject → string;
  text_object : string → option CanonicalJsonObject;
  text_object_text o : text_object (object_text o) = Some o;
  text_object_utf8 t o : text_object t = Some o → utf8_valid t = true;
  (** [signatures::reference_hash] *)
  reference_hash : CanonicalJsonObject → PduRules → option string;
  (** The [redacts] of [RoomRedactionEventContent], when the content is one. *)
  redaction_redacts : Value → option (option string);
}.

Definition MAX_PDU_BYTES : N := 65535.
Definition MAX_PREV_EVENTS : nat := 20.
Definition MAX_AUTH_EVENTS : nat := 10.
(** Of [ruma]. *)
Definition ID_MAX_BYTES : nat := 255.

(** ** [format.rs] *)

Definition outgoing_reference (v : Value) : Value :=
  match as_str v with
  | Some event_id => Array [Str event_id; Object {["" := Str ""]}]
  | None => v
  end.
Definition mutate_outgoing_reference_format (v : Value) : Value :=
  match v with Array l => Array (outgoing_reference <$> l) | _ => v end.

Definition incoming_reference (v : Value) : Value := Str (default "" (l ← as_array v; x ← head l; as_str x)).
Definition mutate_incoming_reference_format (v : Value) : Value :=
  match v with Array l => Array (incoming_reference <$> l) | _ => v end.

Definition mutate_references (f : Value → Value) (pdu_json : CanonicalJsonObject) : CanonicalJsonObject :=
  alter f "prev_events" (alter f "auth_events" pdu_json).

Definition without_transaction_id (v : Value) : Value :=
  match v with Object unsigned => Object (base.delete "transaction_id" unsigned) | _ => v end.

Section format.
Context `{Identifiers, Users, Formats}.
Implicit Types (pdu_json object : CanonicalJsonObject) (rules : PduRules).

Definition into_outgoing_federation pdu_json (room_version : string) : CanonicalJsonObject :=
  let pdu_json := alter without_transaction_id "unsigned" pdu_json in
  match rules_of room_version with
  | None => base.delete "event_id" pdu_json
  | Some rules =>
      let pdu_json := if require_event_id (event_format rules) then pdu_json else base.delete "event_id" pdu_json in
      let pdu_json := if negb (require_room_create_room_id (event_format rules))
                         && bool_decide (pdu_json !! "type" ≫= as_str = Some "m.room.create")
                      then base.delete "room_id" pdu_json else pdu_json in
      if references_v1 rules then mutate_references mutate_outgoing_reference_format pdu_json else pdu_json
  end.

(** Indexing by "type" panics without that field. *)
Definition from_incoming_federation (room_id event_id : string) pdu_json rules : option CanonicalJsonObject :=
  let pdu_json := if references_v1 rules then mutate_references mutate_incoming_reference_format pdu_json else pdu_json in
  let named pdu_json :=
    if require_event_id (event_format rules) then pdu_json else <["event_id" := Str event_id]> pdu_json in
  if require_room_create_room_id (event_format rules) then Some (named pdu_json)
  else kind ← pdu_json !! "type";
       Some (named (if bool_decide (as_str kind = Some "m.room.create")
                    then <["room_id" := Str room_id]> pdu_json else pdu_json)).

(** ** [check.rs] *)

Definition field_error (kind : ErrorKind) (what field : string) : Error :=
  Request kind (what +:+ " `" +:+ field +:+ "` field in PDU").

Definition extract_optional_string_field object (field : string) : Result Error (option string) :=
  match object !! field with
  | Some (Str value) =>
      if (ID_MAX_BYTES <? String.length value)%nat then Err (field_error TooLarge "invalid" field) else Ok (Some value)
  | Some _ => Err (field_error InvalidParam "unexpected format of" field)
  | None => Ok None
  end.

Definition extract_required_string_field object (field : string) : Result Error string :=
  let? o := extract_optional_string_field object field in ok_or (field_error InvalidParam "missing" field) o.

Definition extract_required_array_field object (field : string) (max_len : nat) : Result Error (list Value) :=
  match object !! field with
  | Some (Array value) => if (max_len <? length value)%nat then Err (field_error TooLarge "invalid" field) else Ok value
  | Some _ => Err (field_error InvalidParam "unexpected format of" field)
  | None => Err (field_error InvalidParam "missing" field)
  end.

Definition check_room_id (pdu : Pdu) (room_id : string) : Result Error unit :=
  if decide (pdu_room_id pdu = room_id) then Ok tt else Err (Request InvalidParam "Event in wrong room").

(** No auth event is the create event that the room is named after. *)
Fixpoint check_no_create (create_hash : string) (auth_events : list Value) : Result Error unit :=
  match auth_events with
  | [] => Ok tt
  | v :: rest =>
      let? event_id := ok_or (field_error InvalidParam "unexpected format of array item in" "auth_events") (as_str v) in
      let? hash := ok_or (field_error InvalidParam "unexpected format of array item in" "auth_events")
                         (Bytes.strip_prefix "$" event_id) in
      if decide (hash = create_hash) then Err (field_error InvalidParam "invalid" "auth_events")
      else check_no_create create_hash rest
  end.

Definition check_depth object : Result Error unit :=
  match object !! "depth" with
  | Some (Num (PosInt _)) => Ok tt
  | Some (Num (NegInt z)) => if (z <? 0)%Z then Err (field_error InvalidParam "invalid" "depth") else Ok tt
  | Some _ => Err (field_error InvalidParam "unexpected format of" "depth")
  | None => Err (field_error InvalidParam "missing" "depth")
  end.

Definition check_rules object (rules : EventFormatRules) : Result Error unit :=
  if (MAX_PDU_BYTES <? N.of_nat (String.length (object_text object)))%N
  then Err (Request TooLarge "PDU is larger than the maximum") else
  let? event_type := extract_required_string_field object "type" in
  let? _ := extract_required_string_field object "sender" in
  let? room_id := (if negb (bool_decide (event_type = "m.room.create")) || require_room_create_room_id rules
                   then result_map Some (extract_required_string_field object "room_id") else Ok None) in
  let? _ := (if require_event_id rules then result_map Some (extract_required_string_field object "event_id") else Ok None) in
  let? _ := extract_optional_string_field object "state_key" in
  let? _ := extract_required_array_field object "prev_events" MAX_PREV_EVENTS in
  let? auth_events := extract_required_array_field object "auth_events" MAX_AUTH_EVENTS in
  let? _ := (match room_id with
             | Some room_id =>
                 if allow_room_create_in_auth_events rules then Ok tt
                 else if room_id_ok room_id then check_no_create (str_drop 1 room_id) auth_events
                 else Err (ErrMsg "invalid `room_id` field in PDU")
             | None => Ok tt
             end) in
  check_depth object.

(** ** [id.rs] *)

Definition unsupported_version : Error := Request UnsupportedRoomVersion "Unknown or unsupported room version".

Definition room_version_rules (room_version : string) : Result Error PduRules :=
  ok_or unsupported_version (rules_of room_version).

Definition gen_event_id (value : CanonicalJsonObject) (room_version_id : string) : Result Error string :=
  let? found := room_version_rules room_version_id in
  let given field := if require_event_id (event_format found) then value !! field ≫= as_str else None in
  let valid id := if event_id_ok id then Ok id else Err (ErrMsg "invalid event id") in
  match given "event_id" with
  | Some id => valid id
  | None =>
      let? hash := ok_or (ErrMsg "reference hash") (reference_hash value found) in
      valid ("$" +:+ hash +:+ match given "origin" with Some server => ":" +:+ server | None => "" end)
  end.

(** ** [pdu.rs] *)

Definition SHA256_LEN : nat := 43.

(** [js_int::UInt] *)
Definition UINT_MAX : N := 2 ^ 53 - 1.

Definition de_id (ok : string → bool) (v : Value) : option string := opt_filter ok (as_str v).
Definition de_uint (v : Value) : option N := n ← as_u64 v; if (n <=? UINT_MAX)%N then Some n else None.

(** The derived [Deserialize] of [Pdu], from an object; the fields that are
    only stored ([depth], [hashes], [origin]) must be readable too. *)
Definition pdu_from_object (json : CanonicalJsonObject) : option Pdu :=
  kind ← json !! "type" ≫= as_str;
  content ← json !! "content";
  event_id ← json !! "event_id" ≫= de_id event_id_ok;
  room_id ← json !! "room_id" ≫= de_id room_id_ok;
  sender ← json !! "sender" ≫= de_id user_id_ok;
  state_key ← de_option as_str (json !! "state_key");
  redacts ← de_option (de_id event_id_ok) (json !! "redacts");
  prev_events ← json !! "prev_events" ≫= de_vec (de_id event_id_ok);
  auth_events ← json !! "auth_events" ≫= de_vec (de_id event_id_ok);
  origin_server_ts ← json !! "origin_server_ts" ≫= de_uint;
  _ ← json !! "depth" ≫= de_uint;
  hashes ← json !! "hashes" ≫= de_struct [("sha256", false)];
  _ ← hashes !! "sha256" ≫= de_id (λ s, String.length s <=? SHA256_LEN)%nat;
  _ ← de_option (de_id server_name_ok) (json !! "origin");
  Some (mkPdu event_id room_id sender kind state_key content origin_server_ts prev_events auth_events redacts false).

Definition from_object (json : CanonicalJsonObject) : Result Error Pdu := ok_or (ErrMsg "invalid PDU") (pdu_from_object json).

Definition from_object_checked (json : CanonicalJsonObject) (rules : EventFormatRules) : Result Error Pdu :=
  let? _ := check_rules json rules in from_object json.

(** [None] is a panic. *)
Definition from_object_federation (room_id event_id : string) (json : CanonicalJsonObject) rules :
    option (Result Error (Pdu * CanonicalJsonObject)) :=
  json ← from_incoming_federation room_id event_id json rules;
  Some (let? pdu := from_object_checked json (event_format rules) in
        let? _ := check_room_id pdu room_id in
        Ok (pdu, json)).

(** ** [redact.rs] *)

Definition redacts_id (event : Pdu) rules : option string :=
  if decide (pdu_kind event = ROOM_REDACTION) then
    if content_field_redacts rules then default None (redaction_redacts (pdu_content event)) else pdu_redacts event
  else None.
End format.

(** ** Events between servers *)

Section roundtrip.
Context `{Identifiers, Users, Formats}.
Implicit Types (o : CanonicalJsonObject) (rules : PduRules).

Lemma references_roundtrip l :
  Forall (λ v, is_Some (as_str v)) l → incoming_reference <$> (outgoing_reference <$> l) = l.
Proof. induction 1 as [|v l [s Hv] Hl IH]; [done|]. cbn. rewrite IH. by destruct v; simplify_eq/=. Qed.

(** References as stored: event ids. *)
Definition plain_references o : Prop :=
  ∀ field l, field = "auth_events" ∨ field = "prev_events" → o !! field = Some (Array l) → Forall (λ v, is_Some (as_str v)) l.

Lemma mutate_roundtrip (v : Value) :
  (∀ l, v = Array l → Forall (λ x, is_Some (as_str x)) l) →
  mutate_incoming_reference_format (mutate_outgoing_reference_format v) = v.
Proof. intros Hv. destruct v as [| | | |l|]; try done. cbn. by rewrite references_roundtrip by by apply Hv. Qed.

Lemma mutate_references_lookup f o field :
  mutate_references f o !! field
  = (if decide (field = "auth_events" ∨ field = "prev_events") then f else id) <$> o !! field.
Proof.
  unfold mutate_references. destruct (decide (field = "prev_events")) as [->|Hp].
  { rewrite lookup_alter_eq, lookup_alter_ne by done. by rewrite decide_True by tauto. }
  rewrite lookup_alter_ne by done. destruct (decide (field = "auth_events")) as [->|Ha].
  - rewrite lookup_alter_eq. by rewrite decide_True by tauto.
  - rewrite lookup_alter_ne by done. rewrite decide_False by tauto. by destruct (o !! field).
Qed.

Lemma references_restored o :
  plain_references o →
  mutate_references mutate_incoming_reference_format (mutate_references mutate_outgoing_reference_format o) = o.
Proof.
  intros Ho. apply map_eq. intros field. rewrite !mutate_references_lookup. destruct (o !! field) as [v|] eqn:Hv; [|done].
  cbn. case_decide as Hf; [|done]. f_equal. apply mutate_roundtrip. intros l ->. by apply (Ho field).
Qed.

(** An event as it is stored, in a room of these rules. *)
Record stored_shape rules (room_id event_id : string) o : Prop := {
  shape_id : require_event_id (event_format rules) = false → o !! "event_id" = Some (Str event_id);
  shape_kind : require_room_create_room_id (event_format rules) = false → is_Some (o !! "type");
  shape_create : require_room_create_room_id (event_format rules) = false →
    o !! "type" ≫= as_str = Some "m.room.create" → o !! "room_id" = Some (Str room_id);
  shape_references : references_v1 rules = true → plain_references o;
}.

(** C34.  An event sent to another server in the format of its room, and read from
    that format, is the event stored, without the transaction id that only
    concerns the sending client. *)
Theorem federation_roundtrip rules (version room_id event_id : string) o :
  rules_of version = Some rules → stored_shape rules room_id event_id o →
  from_incoming_federation room_id event_id (into_outgoing_federation o version) rules
  = Some (alter without_transaction_id "unsigned" o).
Proof.
  intros Hr [Hid Hkind Hcreate Hrefs]. unfold into_outgoing_federation. rewrite Hr. set (u := alter without_transaction_id "unsigned" o).
  assert (∀ field, field ≠ "unsigned" → u !! field = o !! field) as Hu by (intros field Hne; by apply lookup_alter_ne).
  set (e1 := if require_event_id _ then u else _).
  assert (∀ field, field ≠ "event_id" → e1 !! field = u !! field) as He1.
  { intros field Hne. unfold e1. destruct (require_event_id _); [done|]. by apply lookup_delete_ne. }
  set (e2 := if _ && _ then base.delete "room_id" e1 else e1).
  assert (∀ field, field ≠ "room_id" → e2 !! field = e1 !! field) as He2.
  { intros field Hne. unfold e2. destruct (_ && _); [|done]. by apply lookup_delete_ne. }
  assert ((if references_v1 rules
           then mutate_references mutate_incoming_reference_format
                  (if references_v1 rules then mutate_references mutate_outgoing_reference_format e2 else e2)
           else if references_v1 rules then mutate_references mutate_outgoing_reference_format e2 else e2) = e2) as Hm.
  { destruct (references_v1 rules) eqn:Hv; [|done]. apply references_restored. intros field l Hf Hl.
    apply (Hrefs eq_refl field l Hf). rewrite <-Hl, He2, He1, Hu; [done|..]; by destruct Hf as [-> | ->]. }
  unfold from_incoming_federation. rewrite Hm.
  assert (∀ x, (∀ field, field ≠ "event_id" → x !! field = u !! field) →
    (require_event_id (event_format rules) = true → x = u) →
    (if require_event_id (event_format rules) then x else <["event_id" := Str event_id]> x) = u) as Hnamed.
  { intros x Hx Hxu. destruct (require_event_id _) eqn:Hreq; [by apply Hxu|]. apply map_eq. intros field.
    destruct (decide (field = "event_id")) as [->|Hne]; [by rewrite lookup_insert_eq, Hu, Hid|].
    by rewrite lookup_insert_ne, Hx. }
  destruct (require_room_create_room_id _) eqn:Hroom; cbn [negb andb] in e2.
  - f_equal. apply Hnamed; [done|]. unfold e2, e1. by intros ->.
  - destruct (Hkind eq_refl) as [kind Hk]. assert (e1 !! "type" = Some kind) as Hk1 by by rewrite He1, Hu.
    rewrite He2, Hk1 by done. cbn [mbind option_bind]. f_equal.
    unfold e2. rewrite Hk1. cbn [mbind option_bind]. case_bool_decide as Hc.
    + apply Hnamed.
      * intros field Hne. destruct (decide (field = "room_id")) as [->|Hnr]; [|by rewrite lookup_insert_ne, lookup_delete_ne, He1].
        rewrite lookup_insert_eq, Hu by done. symmetry. apply Hcreate; [done|]. by rewrite Hk.
      * unfold e1. intros ->. rewrite insert_delete_eq. apply insert_id. rewrite Hu by done. apply Hcreate; [done|]. by rewrite Hk.
    + apply Hnamed; [done|]. unfold e1. by intros ->.
Qed.
End roundtrip.

(** ** Witnesses *)

Module FormatExample.
(** Room version 1, where references are pairs, and room version 12. *)
Definition v1 : PduRules := mkPduRules (mkVersion ToyRuma.v11 None) (mkFormat true true true) true false.
Definition v12 : PduRules :=
  mkPduRules (mkVersion ToyRuma.v11 (Some (mkV2 true true))) (mkFormat false false false) false true.

#[export] Instance texts : Formats.
Proof.
  refine {|
    rules_of v := if String.eqb v "1" then Some v1 else if String.eqb v "12" then Some v12 else None;
    object_text o := pos_bits (encode (Object o));
    text_object t := p ← bits_pos t; v ← decode p; as_object v;
    reference_hash _ _ := Some "hash";
    redaction_redacts v := match v with Object m => Some (m !! "redacts" ≫= as_str) | _ => None end;
  |}.
  - intros o. rewrite bits_roundtrip. cbn [mbind option_bind]. by rewrite countable.decode_encode.
  - intros t o. destruct (bits_pos t) as [p|] eqn:Hp; [|done]. intros _. apply bits_pos_inv in Hp as ->. apply pos_bits_utf8.
Defined.

Definition event : CanonicalJsonObject :=
  list_to_map [("type", Str "m.room.message"); ("room_id", Str "!r:a"); ("event_id", Str "$e:a");
               ("auth_events", Array [Str "$c:a"; Str "$m:a"]); ("prev_events", Array [Str "$m:a"]);
               ("unsigned", obj [("transaction_id", Str "t1")])].
Definition new_create : CanonicalJsonObject :=
  list_to_map [("type", Str "m.room.create"); ("room_id", Str "!hash"); ("event_id", Str "$hash")].
End FormatExample.

Section format_witnesses.
#[local] Existing Instance ShortExample.identifiers.
#[local] Existing Instance FormatExample.texts.
Import FormatExample.

Lemma federation_roundtrip_witness :
  from_incoming_federation "!r:a" "$e:a" (into_outgoing_federation event "1") v1
    = Some (alter without_transaction_id "unsigned" event)
  ∧ from_incoming_federation "!hash" "$hash" (into_outgoing_federation new_create "12") v12
    = Some (alter without_transaction_id "unsigned" new_create)
  ∧ into_outgoing_federation new_create "12" = {["type" := Str "m.room.create"]}.
Proof.
  split_and!.
  - apply (federation_roundtrip v1 "1"); [done|]. split; try done. intros _ field l [-> | ->] [= <-]; repeat constructor; by eexists.
  - apply (federation_roundtrip v12 "12"); [done|]. split; try done; by eexists.
  - by vm_compute.
Defined.
End format_witnesses.
