(* ===== verification/StateAccessor.v ===== *)
(** * Reading the state of rooms ([src/src/service/rooms/state_accessor],
    [src/src/service/rooms/state/mod.rs])

    A state is a set of compressed entries under a number; these operations find
    the event of a type and state key in it, list it, compare two states, and
    decide from it what a user or a server may see or redact.  Loading a state
    goes through the cache of [RoomStates], so an operation may change the cache.
    The contents of events are types of [ruma]: the class [RoomContents] has the
    fields that are read of them. *)

From S2P Require Import Prelude Effects Bytes Slices DbCodec DbMap Pairs Counter Short Compressor RoomStates PduId Timeline MemberCache Json Core RoomEvents RoomAuth PduFormat.

Inductive HistoryVisibility := WorldReadable | VisibleInvited | VisibleJoined | VisibleShared | VisibleCustom.

#[export] Instance visibility_eq_dec : EqDecision HistoryVisibility.
Proof. solve_decision. Defined.

Class RoomContents := {
  (** [RoomHistoryVisibilityEventContent], [RoomMemberEventContent],
      [RoomCreateEventContent]. *)
  content_visibility : Value → option HistoryVisibility;
  content_member : Value → option MembershipState;
  content_room_version : Value → option string;
  (** [RoomPowerLevels::new], then [user_can_redact_event_of_other] and
      [user_can_redact_own_event]. *)
  can_redact_other : option Value → AuthorizationRules → list string → string → bool;
  can_redact_own : option Value → AuthorizationRules → list string → string → bool;
  (** [power_levels.for_user(user) >= power_levels.redact] *)
  has_redact_level : option Value → AuthorizationRules → list string → string → bool;
  (** Whether the content is one of [RoomPowerLevelsEventContent]. *)
  is_power_levels : Value → bool;
}.

(** [AccessPanic] is an [expect] that fails. *)
Inductive AccessError :=
  | AccessDb (e : DbError)
  | MissingStateIds (e : StateError)
  | NotInState
  | BadContent
  | Refused (e : Error)
  | AccessPanic.

#[export] Instance access_panics : Panics AccessError := λ e,
  match e with AccessDb (Panicked _) | AccessPanic => true | _ => false end.

Section accessor.
Context `{Engine, JsonParser, Identifiers, Users, Lru, Digest, Formats, Ruma, !RoomContents}.
(** Which of the two reads of an event finishes first. *)
Variable late : string → bool.
Implicit Types (tl : Timeline) (h k : N) (room user : string).
Notation M := (Op AccessError Timeline).

Definition parse_pdu (t : string) : option Pdu := text_object t ≫= pdu_from_object.

Definition fetch_pdu tl (id : string) : Result AccessError Pdu := map_err AccessDb (Timeline.get parse_pdu (late id) tl id).

Definition shorts_of tl : Short := shorts (states tl).

(** ** [state.rs] *)

Definition load_full_state h : M CompressedState := λ tl,
  match load_shortstatehash_info (states tl) h with
  | Err e => (Err (MissingStateIds e), tl)
  | Ok (stack, st) =>
      match last stack with
      | Some top => (Ok (full_state top), with_states st tl)
      | None => (Err AccessPanic, tl)
      end
  end.

Definition parse_entries (s : CompressedState) : list (N * N) := omap parse_compressed_state_event (bset_iter s).

Definition state_full_shortids h : M (list (N * N)) :=
  do s := load_full_state h in ret (parse_entries s).

(** [.ignore_err()] on the stream that a failed load becomes. *)
Definition or_nothing {A} (m : M (list A)) : M (list A) := do r := ignoring m in ret (default [] r).

Definition multi_get_eventid_from_short (s : Short) (l : list N) : list (Result DbError string) := get_eventid_from_short s <$> l.
Definition multi_get_statekey_from_short (s : Short) (l : list N) : list (Result DbError (string * string)) :=
  get_statekey_from_short s <$> l.

Definition named_id (s : Short) (x : N * N) : option (N * string) := (x.1,.) <$> ok (get_eventid_from_short s x.2).

Definition state_full_ids h : M (list (N * string)) :=
  do l := or_nothing (state_full_shortids h) in
  reading (λ tl, omap (named_id (shorts_of tl)) l).

Definition state_full_pdus h : M (list Pdu) :=
  do l := or_nothing (state_full_shortids h) in
  reading (λ tl, omap (λ id, ok (fetch_pdu tl id)) (omap ok (multi_get_eventid_from_short (shorts_of tl) l.*2))).

Definition keyed_pdu (p : Pdu) : option (TypeStateKey * Pdu) := (λ key, (with_state_key (pdu_kind p) key, p)) <$> pdu_state_key p.

Definition state_full h : M (list (TypeStateKey * Pdu)) := do l := state_full_pdus h in ret (omap keyed_pdu l).

(** The first entry with a key, by its range of bytes. *)
Definition entry_in_range k (s : CompressedState) : option string :=
  head (filter (λ e, key_le (compress_state_event k 0) e ∧ key_le e (compress_state_event k U64_MAX)) (bset_iter s)).

Definition find_statekey (event_type state_key : string) : M N := λ tl,
  (map_err AccessDb (get_shortstatekey (shorts_of tl) event_type state_key), tl).

Definition state_get_shortid h (event_type state_key : string) : M N :=
  do k := find_statekey event_type state_key in
  do s := load_full_state h in
  lift (ok_or NotInState (e ← entry_in_range k s; snd <$> parse_compressed_state_event e)).

Definition state_get_id h (event_type state_key : string) : M string :=
  do n := state_get_shortid h event_type state_key in
  λ tl, (map_err AccessDb (get_eventid_from_short (shorts_of tl) n), tl).

Definition state_get h (event_type state_key : string) : M Pdu :=
  do id := state_get_id h event_type state_key in λ tl, (fetch_pdu tl id, tl).

(** [get_content], for the reader of a type of content. *)
Definition get_content {T} (read : Value → option T) (p : Pdu) : Result AccessError T := ok_or BadContent (read (pdu_content p)).

Definition state_get_content {T} (read : Value → option T) h (event_type state_key : string) : M T :=
  do p := state_get h event_type state_key in lift (get_content read p).

Definition state_contains_shortstatekey h k : M bool :=
  do r := ignoring (load_full_state h) in ret (bool_decide (is_Some (r ≫= entry_in_range k))).

Definition state_contains h (event_type state_key : string) : M bool :=
  do k := ignoring (find_statekey event_type state_key) in
  match k with Some k => state_contains_shortstatekey h k | None => ret false end.

Definition of_type (s : Short) (event_type : string) (x : N * N) : option (string * N) :=
  match get_statekey_from_short s x.1 with
  | Ok (ty, key) => if decide (ty = event_type) then Some (key, x.2) else None
  | Err _ => None
  end.

Definition state_keys_with_shortids h (event_type : string) : M (list (string * N)) :=
  do l := or_nothing (state_full_shortids h) in
  reading (λ tl, omap (of_type (shorts_of tl) event_type) l).

Definition state_keys h (event_type : string) : M (list string) :=
  do l := state_keys_with_shortids h event_type in ret l.*1.

Definition state_contains_type h (event_type : string) : M bool :=
  do l := state_keys h event_type in ret (bool_decide (l ≠ [])).

Definition state_keys_with_ids h (event_type : string) : M (list (string * string)) :=
  do l := state_keys_with_shortids h event_type in
  reading (λ tl, omap (λ x : string * N, (x.1,.) <$> ok (get_eventid_from_short (shorts_of tl) x.2)) l).

Definition state_type_pdus h (event_type : string) : M (list Pdu) :=
  do l := state_keys_with_ids h event_type in
  reading (λ tl, omap (λ x : string * string, ok (fetch_pdu tl x.2)) l).

(** What is in the second state and not in the first. *)
Definition state_added h h' : M (list (N * N)) :=
  or_nothing (do a := load_full_state h in do b := load_full_state h' in ret (parse_entries (b ∖ a))).
Definition state_removed h h' : M (list (N * N)) := state_added h' h.

Definition user_membership h user : M MembershipState :=
  do r := ignoring (state_get_content content_member h ROOM_MEMBER user) in ret (default MLeave r).
Definition user_was_joined h user : M bool := do m := user_membership h user in ret (bool_decide (m = MJoin)).
Definition user_was_invited h user : M bool :=
  do m := user_membership h user in ret (bool_decide (m = MJoin ∨ m = MInvite)).

Definition state_at tl (id : string) : Result DbError N := pdu_shortstatehash (states tl) id.

Definition user_membership_at_pdu user (p : Pdu) : M MembershipState := λ tl,
  match (if bool_decide (pdu_kind p = ROOM_MEMBER ∧ pdu_state_key p = Some user) then content_member (pdu_content p) else None) with
  | Some m => (Ok m, tl)
  | None =>
      match state_at tl (pdu_event_id p) with
      | Ok h => user_membership h user tl
      | Err _ => (Ok MLeave, tl)
      end
  end.

(** ** [room_state.rs] *)

Definition room_state_hash room : M N := λ tl, (map_err AccessDb (get_room_shortstatehash (states tl) room), tl).

Definition room_state_get room (event_type state_key : string) : M Pdu :=
  do h := room_state_hash room in state_get h event_type state_key.
Definition room_state_get_id room (event_type state_key : string) : M string :=
  do h := room_state_hash room in state_get_id h event_type state_key.
Definition room_state_get_content {T} (read : Value → option T) room (event_type state_key : string) : M T :=
  do p := room_state_get room event_type state_key in lift (get_content read p).
Definition room_state_full room : M (list (TypeStateKey * Pdu)) := do h := room_state_hash room in state_full h.
Definition room_state_full_pdus room : M (list Pdu) := do h := room_state_hash room in state_full_pdus h.
Definition room_state_keys room (event_type : string) : M (list string) :=
  do h := room_state_hash room in state_keys h event_type.
Definition room_state_keys_with_ids room (event_type : string) : M (list (string * string)) :=
  do h := room_state_hash room in state_keys_with_ids h event_type.
Definition room_state_type_pdus room (event_type : string) : M (list Pdu) :=
  do h := room_state_hash room in state_type_pdus h event_type.

(** ** [mod.rs] *)

Definition get_create room : M Pdu := room_state_get room ROOM_CREATE "".

(** The content of the power levels, when there is one, with the rules of the
    room's version and its creators. *)
Definition get_power_levels room : M (option Value * (AuthorizationRules * list string)) :=
  do create := get_create room in
  do levels := ignoring (room_state_get_content (λ v, if is_power_levels v then Some v else None) room ROOM_POWER_LEVELS "") in
  lift (map_err Refused
    (let? version := room_version create in
     let? found := room_version_rules version in
     let? l := creators create (authorization (version_rules found)) in
     Ok (levels, (authorization (version_rules found), l)))).

(** ** [state/mod.rs] *)

Definition get_room_version room : M string :=
  do r := ignoring (room_state_get_content content_room_version room ROOM_CREATE "") in
  lift (ok_or (Refused (Request NotFound "No create event found")) r).
Definition get_room_version_rules room : M PduRules :=
  do version := get_room_version room in lift (map_err Refused (room_version_rules version)).

(** The entries of the current state that authorise an event. *)
Definition get_auth_events room (kind sender : string) (state_key : option string) (content : Value)
    (rules : AuthorizationRules) (include_create : bool) : M (gmap TypeStateKey Pdu) := λ tl,
  match get_room_shortstatehash (states tl) room with
  | Err _ => (Ok ∅, tl)
  | Ok h =>
      (do types := lift (map_err Refused (auth_types_for_event kind sender state_key content rules include_create)) in
       do sauthevents := reading (λ tl, list_to_map (M := gmap N TypeStateKey)
         (omap (λ t : TypeStateKey, (., t) <$> ok (get_shortstatekey (shorts_of tl) t.1 t.2)) types)) in
       do l := or_nothing (state_full_shortids h) in
       reading (λ tl, list_to_map
         (omap (λ x : N * N, t ← sauthevents !! x.1; id ← ok (get_eventid_from_short (shorts_of tl) x.2);
                             p ← ok (fetch_pdu tl id); Some (t, p)) l))) tl
  end.

(** ** [user_can.rs], [server_can.rs] *)

Definition ROOM_SERVER_ACL : string := "m.room.server_acl".
Definition ROOM_HISTORY_VISIBILITY : string := "m.room.history_visibility".

Definition is_kind (r : Result AccessError Pdu) (kind : string) : bool :=
  match r with Ok p => bool_decide (pdu_kind p = kind) | Err _ => false end.

Definition user_can_redact (redacts sender room : string) (federation : bool) : M bool := λ tl,
  let redacting_event := fetch_pdu tl redacts in
  if is_kind redacting_event ROOM_CREATE then
    (Err (Refused (Request Forbidden "Redacting m.room.create is not safe, forbidding.")), tl)
  else if is_kind redacting_event ROOM_SERVER_ACL then
    (Err (Refused (Request Forbidden "Redacting m.room.server_acl will result in the room being inaccessible")), tl)
  else
    (do levels := ignoring (get_power_levels room) in
     match levels with
     | Some (levels, (rules, creators)) =>
         ret (can_redact_other levels rules creators sender
              || can_redact_own levels rules creators sender
                 && match redacting_event with
                    | Ok p => if federation then bool_decide (server_name (pdu_sender p) = server_name sender)
                              else bool_decide (pdu_sender p = sender)
                    | Err _ => false
                    end)
     | None =>
         do create := ignoring (get_create room) in
         match create with
         | Some create =>
             ret (bool_decide (pdu_sender create = sender)
                  || match redacting_event with Ok p => bool_decide (pdu_sender p = sender) | Err _ => false end)
         | None => throw (Refused (Database "No m.room.power_levels or m.room.create events in database for room"))
         end
     end) tl.

Definition visibility_at h : M HistoryVisibility :=
  do r := ignoring (state_get_content content_visibility h ROOM_HISTORY_VISIBILITY "") in ret (default VisibleShared r).

Definition user_can_see_event (mc : MemberCache) user room (event_id : string) : M bool := λ tl,
  match state_at tl event_id with
  | Err _ => (Ok true, tl)
  | Ok h =>
      (do visibility := visibility_at h in
       match visibility with
       | WorldReadable => ret true
       | VisibleInvited => user_was_invited h user
       | VisibleJoined => user_was_joined h user
       | _ => ret (is_joined mc user room)
       end) tl
  end.

Definition user_can_see_state_events (mc : MemberCache) user room : M bool :=
  if is_joined mc user room then ret true
  else
    do r := ignoring (room_state_get_content content_visibility room ROOM_HISTORY_VISIBILITY "") in
    ret match default VisibleShared r with
        | WorldReadable => true
        | VisibleInvited => is_invited mc user room
        | VisibleShared => once_joined mc user room
        | _ => false
        end.

(** [any], which stops at the first. *)
Fixpoint any_of (f : string → M bool) (l : list string) : M bool :=
  match l with
  | [] => ret false
  | x :: l => do b := f x in if b then ret true else any_of f l
  end.

Definition server_can_see_event (mc : MemberCache) (origin room event_id : string) : M bool := λ tl,
  match state_at tl event_id with
  | Err _ => (Ok true, tl)
  | Ok h =>
      (do visibility := visibility_at h in
       let any f := do l := lift (map_err AccessDb (room_members mc room)) in
                    any_of f (filter (λ u, server_name u = origin) l) in
       match visibility with
       | VisibleInvited => any (user_was_invited h)
       | VisibleJoined => any (user_was_joined h)
       | _ => ret true
       end) tl
  end.

(** ** [src/src/api/client/room/event.rs]

    The original of a redacted event, kept by the retention service, whether
    events are redacted or from an ignored sender, and the server's settings are
    arguments; the assertion on the room of the event is not in release builds. *)

Record EventRequest := mkEventRequest {
  req_sender : string;
  req_room : string;
  req_event : string;
  include_unredacted_content : bool;
}.

Record EventSettings := mkEventSettings {
  user_is_admin : string → bool;
  allow_room_admins_to_request_unredacted_events : bool;
  original_pdu : string → option Pdu;
  is_redacted : Pdu → bool;
  is_ignored : Pdu → string → bool;
}.

Definition retained_event (cfg : EventSettings) (req : EventRequest) : M (option (Result AccessError Pdu)) :=
  if include_unredacted_content req then
    do can_redact := (if allow_room_admins_to_request_unredacted_events cfg then
                        do levels := ignoring (get_power_levels (req_room req)) in
                        ret match levels with
                            | Some (levels, (rules, creators)) => has_redact_level levels rules creators (req_sender req)
                            | None => false
                            end
                      else ret false) in
    ret (Some (if user_is_admin cfg (req_sender req) || can_redact
               then ok_or (Refused (Request NotFound "Event not found.")) (original_pdu cfg (req_event req))
               else Err (Refused (Request Forbidden "You are not allowed to see the original event"))))
  else ret None.

Definition get_room_event_route (cfg : EventSettings) (mc : MemberCache) (req : EventRequest) : M Pdu :=
  do event := reading (λ tl, map_err (λ _, Refused (Request NotFound "Event not found.")) (fetch_pdu tl (req_event req))) in
  do retained := retained_event cfg req in
  do visible := user_can_see_event mc (req_sender req) (req_room req) (req_event req) in
  let wants_original := match event with Ok p => is_redacted cfg p | Err _ => true end in
  do event := lift (match retained with Some original => if wants_original then original else event | None => event end) in
  if negb visible then throw (Refused (Request Forbidden "You don't have permission to view this event."))
  else if is_ignored cfg event (req_sender req) then throw (Refused (Request NotFound "You have ignored the user that sent this event"))
  else ret event.
End accessor.

(** ** States as maps *)

Section maps.
Context `{Engine, JsonParser, Identifiers, Users, Lru, Digest, Formats, Ruma, !RoomContents}.
Implicit Types (tl : Timeline) (h k n : N) (s : CompressedState) (x : Short) (m : gmap TypeStateKey string) (t : TypeStateKey) (ids : gset N).

(** The numbers of a type and state key, and of an event id, that read back. *)
Definition key_as x t k : Prop :=
  table_rows (statekey_shortstatekey x) !! record_bytes [t.1; t.2] = Some (u64_to_be_bytes k)
  ∧ (0 < k <= last_number x)%N ∧ utf8_valid t.1 = true ∧ utf8_valid t.2 = true.
Definition id_as x (id : string) n : Prop := numbered_as x id n ∧ utf8_valid id = true ∧ event_id_ok id = true.

(** The entries of a state are those of a map from types and state keys to events. *)
Record describes x s m : Prop := {
  described t id : m !! t = Some id → ∃ k n, key_as x t k ∧ id_as x id n ∧ compress_state_event k n ∈ s;
  describing e : e ∈ s → ∃ t id k n, e = compress_state_event k n ∧ key_as x t k ∧ id_as x id n ∧ m !! t = Some id;
}.

Lemma key_reads x ids t k :
  short_inv x ids → key_as x t k → get_shortstatekey x t.1 t.2 = Ok k ∧ get_statekey_from_short x k = Ok t.
Proof.
  intros Hx (Hr & Hk & Hu1 & Hu2). split; [by eapply get_shortstatekey_at|]. destruct t. by eapply get_statekey_at.
Qed.

Lemma key_as_fun x ids t t' k : short_inv x ids → key_as x t k → key_as x t' k → t = t'.
Proof. intros Hx Ht Ht'. destruct (key_reads x ids t k Hx Ht), (key_reads x ids t' k Hx Ht'). congruence. Qed.

Lemma key_as_same x ids t k k' : short_inv x ids → key_as x t k → key_as x t k' → k = k'.
Proof. intros Hx Ht Ht'. destruct (key_reads x ids t k Hx Ht), (key_reads x ids t k' Hx Ht'). congruence. Qed.

Lemma id_reads x ids id n : short_inv x ids → id_as x id n → get_eventid_from_short x n = Ok id.
Proof. intros Hx ([Hr _] & Hu & Hok). by eapply get_eventid_at. Qed.

Lemma id_as_width x ids id n : short_inv x ids → id_as x id n → (n <= U64_MAX)%N.
Proof. intros Hx ([_ Hn] & _). pose proof (short_width _ _ Hx). lia. Qed.
Lemma key_as_width x ids t k : short_inv x ids → key_as x t k → (k <= U64_MAX)%N.
Proof. intros Hx (_ & Hk & _). pose proof (short_width _ _ Hx). lia. Qed.

Lemma parse_entry x ids t id k n :
  short_inv x ids → key_as x t k → id_as x id n → parse_compressed_state_event (compress_state_event k n) = Some (k, n).
Proof. intros Hx Hk Hn. apply parse_compress; [by eapply key_as_width|by eapply id_as_width]. Qed.

Lemma elem_of_parse_entries x ids s m k n :
  short_inv x ids → describes x s m →
  (k, n) ∈ parse_entries s ↔ ∃ t id, key_as x t k ∧ id_as x id n ∧ m !! t = Some id.
Proof.
  intros Hx [Hd He]. unfold parse_entries. rewrite list_elem_of_omap. setoid_rewrite elem_of_bset_iter. split.
  - intros (e & Hin & Hp). destruct (He e Hin) as (t & id & k' & n' & -> & Hk & Hn & Hm).
    rewrite (parse_entry x ids t id) in Hp by done. injection Hp as <- <-. by exists t, id.
  - intros (t & id & Hk & Hn & Hm). destruct (Hd t id Hm) as (k' & n' & Hk' & Hn' & Hin).
    rewrite (key_as_same x ids t k k') in * by done. exists (compress_state_event k' n'). split; [done|].
    assert (n = n') as ->; [|by eapply parse_entry].
    destruct Hn as [Hn _], Hn' as [Hn' _]. eapply (get_shorteventid_iff x ids id) in Hn, Hn'; [|done..]. congruence.
Qed.

Lemma in_range k n k' : (k <= U64_MAX)%N → (n <= U64_MAX)%N → (k' <= U64_MAX)%N →
  key_le (compress_state_event k' 0) (compress_state_event k n) ∧ key_le (compress_state_event k n) (compress_state_event k' U64_MAX)
  ↔ k = k'.
Proof.
  intros Hk Hn Hk'. unfold compress_state_event. split.
  - intros [Hl Hu]. assert (String.prefix (u64_to_be_bytes k') (u64_to_be_bytes k +:+ u64_to_be_bytes n) = true) as [z Hz]%prefix_spec.
    { eapply prefix_convex; [|exact Hu|apply prefix_append]. etrans; [|exact Hl]. apply prefix_le, prefix_append. }
    apply append_inj_l in Hz as [Hz _]; [by apply u64_bytes_inj|]. unfold u64_to_be_bytes. by rewrite !length_be_encode.
  - intros ->. rewrite !append_le. unfold u64_to_be_bytes. rewrite !be_encode_le by (by apply u64_width). lia.
Qed.

(** The entry of a key is found, and none for a key without one. *)
Lemma entry_in_range_spec x ids s m t k :
  short_inv x ids → describes x s m → key_as x t k →
  match entry_in_range k s with
  | Some e => ∃ id n, m !! t = Some id ∧ id_as x id n ∧ parse_compressed_state_event e = Some (k, n)
  | None => m !! t = None
  end.
Proof.
  intros Hx Hds Hk. unfold entry_in_range. set (l := filter _ _).
  assert (∀ e, e ∈ l ↔ e ∈ s ∧ ∃ id n, m !! t = Some id ∧ id_as x id n ∧ e = compress_state_event k n) as Hl.
  { intros e. unfold l. rewrite list_elem_of_filter, elem_of_bset_iter. pose proof (key_as_width x ids t k Hx Hk) as Hw. split.
    - intros [Hr Hin]. split; [done|]. destruct (describing _ _ _ Hds e Hin) as (t' & id & k' & n & -> & Hk' & Hn & Hm).
      apply in_range in Hr as ->; [|by eapply key_as_width|by eapply id_as_width|done].
      rewrite (key_as_fun x ids t t' k Hx Hk Hk'). by exists id, n.
    - intros [Hin (id & n & Hm & Hn & ->)]. split; [|done]. apply in_range; [done|by eapply id_as_width|done|done]. }
  destruct l as [|e l'] eqn:El; cbn.
  - destruct (m !! t) as [id|] eqn:Hm; [|done]. destruct (described _ _ _ Hds t id Hm) as (k' & n & Hk' & Hn & Hin).
    rewrite (key_as_same x ids t k k' Hx Hk Hk') in Hl. exfalso. eapply not_elem_of_nil, Hl. split; [exact Hin|]. by exists id, n.
  - assert (e ∈ e :: l') as (_ & id & n & Hm & Hn & ->)%Hl by by left. exists id, n. split_and!; [done..|]. by eapply parse_entry.
Qed.

(** *** Loading *)

(** Only the cache of loaded states has changed. *)
Definition cached tl tl' : Prop := ∃ st, tl' = with_states st tl ∧ recached (states tl) st.

Lemma cached_shorts tl tl' : cached tl tl' → shorts_of tl' = shorts_of tl.
Proof. by intros (st & -> & [[c ->] _]). Qed.

Lemma cached_inv tl tl' ids : cached tl tl' → states_inv (states tl) ids → states_inv (states tl') ids.
Proof. intros (st & -> & Hr) Hi. by eapply recached_inv. Qed.

Lemma cached_rows tl tl' : cached tl tl' → diff_rows (states tl') = diff_rows (states tl).
Proof. by intros (st & -> & [[c ->] _]). Qed.

Lemma cached_fetch late tl tl' id : cached tl tl' → fetch_pdu late tl' id = fetch_pdu late tl id.
Proof. by intros (st & -> & _). Qed.

Lemma cached_trans tl1 tl2 tl3 : cached tl1 tl2 → cached tl2 tl3 → cached tl1 tl3.
Proof. intros (st & -> & [[c ->] _]) (st' & -> & [[c' ->] Hc]). eexists. split; [done|]. split; [by exists c'|done]. Qed.

Lemma load_full_spec tl ids h s :
  states_inv (states tl) ids → holds (diff_rows (states tl)) h s →
  ∃ tl', load_full_state h tl = (Ok s, tl') ∧ cached tl tl'.
Proof.
  intros Hi Hh. destruct (load_holds (states tl) h s (states_cache _ _ Hi) Hh) as (stack & st & Hl & Hs & (Hlay & _) & Hr).
  destruct (stored_top _ _ _ Hs) as (top & Ht & _). unfold load_full_state. rewrite Hl, Ht.
  rewrite <-(reverse_involutive stack), last_reverse in Ht.
  assert (full_state top = s) as -> by by destruct Hlay; [|injection Ht as ->].
  eexists. split; [done|]. by exists st.
Qed.

Lemma find_statekey_spec tl ids t :
  states_inv (states tl) ids → utf8_valid t.1 = true → utf8_valid t.2 = true →
  (∃ k, find_statekey t.1 t.2 tl = (Ok k, tl) ∧ key_as (shorts_of tl) t k)
  ∨ find_statekey t.1 t.2 tl = (Err (AccessDb DbMap.NotFound), tl) ∧ ∀ k, ¬ key_as (shorts_of tl) t k.
Proof.
  intros Hi Hu1 Hu2. pose proof (states_shorts _ _ Hi) as Hx. unfold find_statekey, get_shortstatekey.
  pose proof (read_number _ _ (record_bytes [t.1; t.2]) (short_keys _ _ Hx) (short_width _ _ Hx)) as Hread.
  rewrite (qry_strings _ t.1 [t.2]). unfold Map_get in Hread. rewrite table_get_rows in Hread. fold (shorts_of tl) in Hread.
  destruct (table_rows _ !! _) as [v|] eqn:Hv.
  - destruct (deserialized_u64 _) as [k|e] eqn:Ek; [|done]. left. exists k. split; [done|]. destruct Hread as [Hr Hk].
    unfold key_as, shorts_of in *. by split; [congruence|].
  - right. split; [done|]. intros k (Hr & _). unfold shorts_of in Hr, Hv. congruence.
Qed.

Lemma bind_ok {A B} (c : Op AccessError Timeline A) (f : A → Op AccessError Timeline B) tl a tl' :
  c tl = (Ok a, tl') → bind c f tl = f a tl'.
Proof. intros E. unfold bind. by rewrite E. Qed.

(** An event is found in a state exactly when the map has it. *)
Lemma state_get_id_spec tl ids h s m t :
  states_inv (states tl) ids → holds (diff_rows (states tl)) h s → describes (shorts_of tl) s m →
  utf8_valid t.1 = true → utf8_valid t.2 = true →
  ∃ tl', cached tl tl' ∧
    match m !! t with
    | Some id => state_get_id h t.1 t.2 tl = (Ok id, tl')
    | None => ∃ e, state_get_id h t.1 t.2 tl = (Err e, tl') ∧ is_panic e = false
    end.
Proof.
  intros Hi Hh Hds Hu1 Hu2. pose proof (states_shorts _ _ Hi : short_inv (shorts_of tl) ids) as Hx. destruct (load_full_spec tl ids h s Hi Hh) as (tl' & Hl & Hc).
  destruct (find_statekey_spec tl ids t Hi Hu1 Hu2) as [(k & Ef & Hk)|[Ef Hno]].
  - exists tl'. split; [done|]. pose proof (entry_in_range_spec _ ids s m t k Hx Hds Hk) as He.
    assert (state_get_shortid h t.1 t.2 tl = (ok_or NotInState (e ← entry_in_range k s; snd <$> parse_compressed_state_event e), tl')) as Es.
    { unfold state_get_shortid. by rewrite (bind_ok _ _ _ _ _ Ef), (bind_ok _ _ _ _ _ Hl). }
    unfold state_get_id, bind. rewrite Es. destruct (entry_in_range k s) as [e|].
    + destruct He as (id & n & -> & Hn & Hp). cbn. rewrite Hp. cbn. rewrite (cached_shorts _ _ Hc).
      by rewrite (id_reads _ ids id n Hx Hn).
    + rewrite He. by exists NotInState.
  - exists tl. split; [by exists (states tl); split; [destruct tl|split; [exists (stateinfo_cache (states tl)); by destruct (states tl)|apply Hi]]|].
    destruct (m !! t) as [id|] eqn:Hm.
    { destruct (described _ _ _ Hds t id Hm) as (k & _ & Hk & _). by destruct (Hno k). }
    exists (AccessDb DbMap.NotFound). split; [|done]. unfold state_get_id, state_get_shortid, bind. by rewrite Ef.
Qed.

Lemma or_nothing_ok {A} (c : Op AccessError Timeline (list A)) tl l tl' : c tl = (Ok l, tl') → or_nothing c tl = (Ok l, tl').
Proof. intros E. unfold or_nothing, bind, ignoring. by rewrite E. Qed.

Lemma shortids_spec tl ids h s :
  states_inv (states tl) ids → holds (diff_rows (states tl)) h s →
  ∃ tl', or_nothing (state_full_shortids h) tl = (Ok (parse_entries s), tl') ∧ cached tl tl'.
Proof.
  intros Hi Hh. destruct (load_full_spec tl ids h s Hi Hh) as (tl' & Hl & Hc). exists tl'. split; [|done].
  apply or_nothing_ok. unfold state_full_shortids. by rewrite (bind_ok _ _ _ _ _ Hl).
Qed.

(** A state is listed with every key and event of the map. *)
Lemma state_full_ids_spec tl ids h s m :
  states_inv (states tl) ids → holds (diff_rows (states tl)) h s → describes (shorts_of tl) s m →
  ∃ l tl', state_full_ids h tl = (Ok l, tl') ∧ cached tl tl'
    ∧ ∀ k id, (k, id) ∈ l ↔ ∃ t, key_as (shorts_of tl) t k ∧ m !! t = Some id.
Proof.
  intros Hi Hh Hds. pose proof (states_shorts _ _ Hi : short_inv (shorts_of tl) ids) as Hx. destruct (shortids_spec tl ids h s Hi Hh) as (tl' & El & Hc).
  eexists _, tl'. split; [unfold state_full_ids; rewrite (bind_ok _ _ _ _ _ El); done|]. split; [done|].
  intros k id. rewrite (cached_shorts _ _ Hc), list_elem_of_omap. unfold named_id. split.
  - intros ([k' n] & Hin & Hn). apply (elem_of_parse_entries _ ids s m k' n Hx Hds) in Hin as (t & id' & Hk & Hid & Hm).
    cbn [fst snd] in Hn. rewrite (id_reads _ ids id' n Hx Hid) in Hn. injection Hn as <- <-. by exists t.
  - intros (t & Hk & Hm). destruct (described _ _ _ Hds t id Hm) as (k' & n & Hk' & Hid & _).
    rewrite <-(key_as_same _ ids t k k' Hx Hk Hk') in Hk'. exists (k, n). cbn [fst snd]. rewrite (id_reads _ ids id n Hx Hid).
    split; [|done]. apply (elem_of_parse_entries _ ids s m k n Hx Hds). by exists t, id.
Qed.

(** A list of pairs in which a key has one value is the map of these pairs. *)
Lemma list_to_map_fun {K A} `{Countable K} (l : list (K * A)) (i : K) (a : A) :
  (∀ j b c, (j, b) ∈ l → (j, c) ∈ l → b = c) → (list_to_map l : gmap K A) !! i = Some a ↔ (i, a) ∈ l.
Proof.
  intros Hf. split; [apply elem_of_list_to_map_2|]. intros Hin. apply elem_of_list_to_map_1'; [|done].
  intros b Hb. by apply (Hf i).
Qed.

(** The events that authorise an event are those of the current state for the
    types the rules select, when they can be read. *)
Theorem get_auth_events_exact late tl ids room h s m (kind sender : string) state_key content rules include_create types :
  states_inv (states tl) ids → get_room_shortstatehash (states tl) room = Ok h →
  holds (diff_rows (states tl)) h s → describes (shorts_of tl) s m →
  auth_types_for_event kind sender state_key content rules include_create = Ok types →
  Forall (λ t, utf8_valid t.1 = true ∧ utf8_valid t.2 = true) types →
  ∃ found tl', get_auth_events late room kind sender state_key content rules include_create tl = (Ok found, tl') ∧ cached tl tl'
    ∧ ∀ t p, found !! t = Some p ↔ t ∈ types ∧ ∃ id, m !! t = Some id ∧ fetch_pdu late tl id = Ok p.
Proof.
  intros Hi Hroom Hh Hds Htypes Hutf. pose proof (states_shorts _ _ Hi : short_inv (shorts_of tl) ids) as Hx.
  destruct (shortids_spec tl ids h s Hi Hh) as (tl' & El & Hc).
  unfold get_auth_events. rewrite Hroom, Htypes. cbn [map_err]. unfold bind at 1, lift. unfold bind at 1, reading at 1.
  set (keys := list_to_map _).
  rewrite (bind_ok _ _ _ _ _ El). unfold reading. eexists _, tl'. split; [done|]. split; [done|].
  assert (∀ k t, keys !! k = Some t ↔ t ∈ types ∧ key_as (shorts_of tl) t k) as Hkeys.
  { assert (∀ k t, (k, t) ∈ omap (λ t : TypeStateKey, (., t) <$> ok (get_shortstatekey (shorts_of tl) t.1 t.2)) types
      ↔ t ∈ types ∧ key_as (shorts_of tl) t k) as Hin.
    { intros k t. rewrite list_elem_of_omap. split.
      - intros (t' & Ht & E). rewrite Forall_forall in Hutf. destruct (Hutf t' Ht) as [Hu1 Hu2].
        destruct (find_statekey_spec tl ids t' Hi Hu1 Hu2) as [(k' & [= Ek]%(f_equal fst) & Hk)|[[= Ek]%(f_equal fst) _]];
          destruct (get_shortstatekey _ _ _); cbn in E, Ek; [|done..|done]. by simplify_eq.
      - intros [Ht Hk]. exists t. split; [done|]. destruct (key_reads _ ids t k Hx Hk) as [-> _]. done. }
    intros k t. unfold keys. rewrite list_to_map_fun; [apply Hin|]. intros j b c [_ Hb]%Hin [_ Hc']%Hin. by eapply key_as_fun. }
  rewrite (cached_shorts _ _ Hc).
  assert (∀ t p, (t, p) ∈ omap (λ x : N * N, t ← keys !! x.1; id ← ok (get_eventid_from_short (shorts_of tl) x.2);
      p ← ok (fetch_pdu late tl' id); Some (t, p)) (parse_entries s)
    ↔ t ∈ types ∧ ∃ id, m !! t = Some id ∧ fetch_pdu late tl id = Ok p) as Hin.
  { intros t p. rewrite list_elem_of_omap. split.
    - intros ([k n] & Hkn & E). apply (elem_of_parse_entries _ ids s m k n Hx Hds) in Hkn as (t' & id & Hk & Hid & Hm).
      cbn [fst snd] in E. destruct (keys !! k) as [t''|] eqn:Et; [|done]. cbn [mbind option_bind] in E.
      rewrite (id_reads _ ids id n Hx Hid) in E. cbn [ok mbind option_bind] in E. rewrite (cached_fetch late _ _ id Hc) in E.
      destruct (fetch_pdu late tl id) as [p'|] eqn:Ep; [|done]. injection E as -> ->. apply Hkeys in Et as [Ht Hk'].
      rewrite (key_as_fun _ ids t t' k Hx Hk' Hk) in *. split; [done|]. by exists id.
    - intros [Ht (id & Hm & Hp)]. destruct (described _ _ _ Hds t id Hm) as (k & n & Hk & Hid & _). exists (k, n). cbn [fst snd]. split.
      + apply (elem_of_parse_entries _ ids s m k n Hx Hds). by exists t, id.
      + rewrite (proj2 (Hkeys k t)) by done. cbn [mbind option_bind].
        rewrite (id_reads _ ids id n Hx Hid). cbn [ok mbind option_bind]. by rewrite (cached_fetch late _ _ id Hc), Hp. }
  intros t p. rewrite list_to_map_fun; [apply Hin|]. intros t' b c [_ (id & Hm & Hb)]%Hin [_ (id' & Hm' & Hc')]%Hin. congruence.
Qed.
End maps.

(** ** Who may see an event *)

Section visibility.
Context `{Engine, JsonParser, Identifiers, Users, Lru, Digest, Formats, Ruma, !RoomContents}.
Variable late : string → bool.
Implicit Types (tl : Timeline) (h : N) (s : CompressedState) (m : gmap TypeStateKey string) (t : TypeStateKey) (ids : gset N) (user room : string).

(** Rows of events that are there can be read. *)
Definition readable tl : Prop := ∀ id e, fetch_pdu late tl id = Err e → is_panic e = false.

(** The content of an event of the state, as some type. *)
Definition content_in {T} (read : Value → option T) tl m t : option T :=
  id ← m !! t; p ← ok (fetch_pdu late tl id); read (pdu_content p).

Lemma state_content_spec {T} (read : Value → option T) tl ids h s m t :
  states_inv (states tl) ids → holds (diff_rows (states tl)) h s → describes (shorts_of tl) s m → readable tl →
  utf8_valid t.1 = true → utf8_valid t.2 = true →
  ∃ tl', cached tl tl' ∧ ignoring (state_get_content late read h t.1 t.2) tl = (Ok (content_in read tl m t), tl').
Proof.
  intros Hi Hh Hds Hrd Hu1 Hu2. destruct (state_get_id_spec tl ids h s m t Hi Hh Hds Hu1 Hu2) as (tl' & Hc & E).
  exists tl'. split; [done|]. unfold content_in, ignoring, state_get_content, state_get, bind, lift, get_content.
  destruct (m !! t) as [id|]; cbn [mbind option_bind].
  - rewrite E, (cached_fetch late _ _ id Hc). destruct (fetch_pdu late tl id) as [p|e] eqn:Ep; [|by rewrite (Hrd id e Ep)].
    cbn. by destruct (read (pdu_content p)).
  - destruct E as (e & -> & ->). done.
Qed.

Lemma cached_readable tl tl' : cached tl tl' → readable tl → readable tl'.
Proof. intros Hc Hr id e. rewrite (cached_fetch late _ _ id Hc). apply Hr. Qed.

Lemma cached_content {T} (read : Value → option T) tl tl' m t : cached tl tl' → content_in read tl' m t = content_in read tl m t.
Proof. intros Hc. unfold content_in. destruct (m !! t) as [id|]; [|done]. cbn. by rewrite (cached_fetch late _ _ id Hc). Qed.

(** What the visibility of history at an event allows. *)
Definition may_see (visibility : HistoryVisibility) (membership : MembershipState) (joined_now : bool) : bool :=
  match visibility with
  | WorldReadable => true
  | VisibleInvited => bool_decide (membership = MJoin ∨ membership = MInvite)
  | VisibleJoined => bool_decide (membership = MJoin)
  | _ => joined_now
  end.

(** A user sees an event of known state exactly when the visibility in that
    state allows it for the user's membership there, or now. *)
Theorem user_can_see_event_exact (mc : MemberCache) user room (event_id : string) tl ids h s m :
  states_inv (states tl) ids → state_at tl event_id = Ok h → holds (diff_rows (states tl)) h s →
  describes (shorts_of tl) s m → readable tl → utf8_valid user = true →
  (user_can_see_event late mc user room event_id tl).1
  = Ok (may_see (default VisibleShared (content_in content_visibility tl m (ROOM_HISTORY_VISIBILITY, "")))
          (default MLeave (content_in content_member tl m (ROOM_MEMBER, user))) (is_joined mc user room)).
Proof.
  intros Hi Hst Hh Hds Hrd Hu. unfold user_can_see_event. rewrite Hst. unfold visibility_at.
  destruct (state_content_spec content_visibility tl ids h s m (ROOM_HISTORY_VISIBILITY, "") Hi Hh Hds Hrd) as (tl1 & Hc1 & E1); [done..|].
  cbn [fst snd] in E1. unfold bind at 1. unfold bind at 1. rewrite E1. unfold ret at 1.
  destruct (state_content_spec content_member tl1 ids h s m (ROOM_MEMBER, user)) as (tl2 & Hc2 & E2);
    [by eapply cached_inv|by rewrite (cached_rows _ _ Hc1)|by rewrite (cached_shorts _ _ Hc1)|by eapply cached_readable|done|done|].
  cbn [fst snd] in E2. rewrite (cached_content content_member _ _ m _ Hc1) in E2.
  destruct (default VisibleShared _); try done; unfold user_was_invited, user_was_joined, user_membership, bind, ret; by rewrite E2.
Qed.

(** An event whose state is not known is shown to everyone. *)
Theorem unknown_state_visible (mc : MemberCache) user room (event_id : string) tl e :
  state_at tl event_id = Err e → (user_can_see_event late mc user room event_id tl).1 = Ok true.
Proof. intros E. unfold user_can_see_event. by rewrite E. Qed.

(** An event of any room whose history is shared can be read by naming a room
    one is joined to: the room of the event is not compared with the room of
    the request. *)
Theorem event_read_across_rooms (cfg : EventSettings) (mc : MemberCache) user room (event_id : string) tl ids h s m p :
  states_inv (states tl) ids → state_at tl event_id = Ok h → holds (diff_rows (states tl)) h s →
  describes (shorts_of tl) s m → readable tl → utf8_valid user = true →
  fetch_pdu late tl event_id = Ok p → content_in content_visibility tl m (ROOM_HISTORY_VISIBILITY, "") = None →
  is_ignored cfg p user = false → is_joined mc user room = true →
  (get_room_event_route late cfg mc (mkEventRequest user room event_id false) tl).1 = Ok p.
Proof.
  intros Hi Hst Hh Hds Hrd Hu Hp Hv Hig Hj.
  pose proof (user_can_see_event_exact mc user room event_id tl ids h s m Hi Hst Hh Hds Hrd Hu) as Hs. rewrite Hv, Hj in Hs. cbn in Hs.
  unfold get_room_event_route, retained_event, reading, bind, ret. cbn [req_event req_sender req_room include_unredacted_content].
  rewrite Hp. cbn [map_err]. destruct (user_can_see_event late mc user room event_id tl) as [r tl']. cbn in Hs. subst r. cbn. by rewrite Hig.
Qed.
End visibility.
