(* ===== verification/Append.v ===== *)
(** * Adding events to rooms ([src/src/service/rooms/timeline/append.rs],
    [redact.rs], [src/src/service/rooms/threads/mod.rs],
    [src/src/service/rooms/state/mod.rs])

    An event that has been authorised goes into the timeline of its room and
    has its effects: a redaction replaces another event, a member event changes
    the membership tables, relations and threads are recorded.  [Server] is
    what these services share: the timeline with room states, short ids and auth
    chains, the notes of [RoomMeta], the membership tables, and what other
    services hold, of which only the calls are seen ([OtherServices]).  An
    operation may fail after some of its writes, so it is an [Op]. *)

From S2P Require Import Prelude Effects Bytes Slices SetOps DbCodec DbMap Pairs Counter Short Compressor RoomStates PduId Timeline AuthChain MemberCache RoomMeta Json Core RoomEvents RoomAuth PduFormat StateAccessor.

Local Open Scope op_scope.

(** What is read of contents: the body of a message, the event related to, and
    the kind of relation. *)
Inductive Relation := Reply (in_reply_to : string) | Thread (root : string) | OtherRelation.

Class AppendContents := {
  (** [ExtractBody], [ExtractRelatesToEventId], [ExtractRelatesTo] *)
  content_body : Value → option (option string);
  content_relates_event : Value → option string;
  content_relation : Value → option Relation;
  (** The [BundledThread] of a root, from the one it has, with an event added. *)
  thread_bundle : option Value → Pdu → Value;
  (** [redact_in_place], for a reason. *)
  redact_because : CanonicalJsonObject → PduRules → Pdu → option CanonicalJsonObject;
}.

(** The other services that appending an event calls. *)
Class OtherServices (W : Type) := {
  (** [private_read_set] and [reset_notification_counts_for_thread] *)
  set_read : string → string → N → W → W;
  (** [pusher.append_pdu], [appservice.append_pdu]; their errors are logged. *)
  push_event : RawId → Pdu → W → W;
  notify_appservices : RawId → Pdu → W → W;
  (** [spaces.cache_evict] *)
  evict_space : string → W → W;
  (** [search.index_pdu], [search.deindex_pdu] *)
  index_message : N → RawId → string → W → W;
  deindex_message : N → RawId → string → W → W;
  (** [is_admin_command], then [command]: [None] where it fails. *)
  admin_command : Pdu → string → W → option W;
  (** [retention.save_original_pdu] *)
  save_original : string → CanonicalJsonObject → W → W;
  (** [summary_stripped] *)
  stripped_state : Pdu → W → string;
}.

Section append.
Context {W E : Type} `{Engine, JsonParser, Identifiers, Users, Lru, Digest, Formats, Ruma, !RoomContents, HashIter}.
Context `{!Services W E, !AppendContents, !OtherServices W}.

(** [ServerPanic] is a panic, [Unfinished] a loop of the model that ran out. *)
Inductive ServerError :=
  | Failed (e : Error)
  | OfDb (e : DbError)
  | OfStates (e : StateError)
  | OfTimeline (e : TimelineError)
  | OfAccess (e : AccessError)
  | OfChains (e : ChainError)
  | OfMembers (e : MemberError E)
  | OfShorts (e : ServiceError)
  | ServerPanic
  | Unfinished.

Definition db_panics (e : DbError) : bool := match e with Panicked _ => true | _ => false end.
Definition service_panics (e : ServiceError) : bool := match e with DbErr e => db_panics e | CountErr _ => true end.

#[export] Instance server_panics : Panics ServerError := λ e,
  match e with
  | Failed _ => false
  | OfDb e | OfTimeline (Db e) | OfMembers (MemberDb e) | OfChains (ReadError e) => db_panics e
  | OfTimeline (CountError _) | OfChains OutOfFuel | ServerPanic | Unfinished => true
  | OfTimeline _ | OfMembers (Other _) => false
  | OfStates (Service e) | OfShorts e | OfChains (ShortError e) => service_panics e
  | OfStates _ | OfChains _ => false
  | OfAccess e => is_panic e
  end.

Record Server := mkServer {
  chains : AuthChains;
  meta : RoomMeta;
  members : MemberCache;
  (** Events that failed: when last, and how often. *)
  bad_event_ratelimiter : gmap string (N * N);
  (** How many answers came from outside: of other servers, and of the clock. *)
  answered : nat;
  outside : W;
}.
Implicit Types (s : Server) (p : Pdu) (room : string).
Notation M := (Op ServerError Server).

(** Which of the two reads of an event finishes first. *)
Variable late : string → bool.

Definition with_timeline (tl : Timeline) s : Server :=
  mkServer (mkChains tl (authchainkey_authchain (chains s)) (shorteventid_authchain (chains s))) (meta s) (members s)
    (bad_event_ratelimiter s) (answered s) (outside s).
Definition timeline_of s : Timeline := timeline (chains s).
Definition with_meta (m : RoomMeta) s : Server :=
  mkServer (chains s) m (members s) (bad_event_ratelimiter s) (answered s) (outside s).
Definition with_members (mc : MemberCache) (w : W) s : Server :=
  mkServer (chains s) (meta s) mc (bad_event_ratelimiter s) (answered s) w.

(** ** Calls of the services *)

Definition accessing {A} (m : Op AccessError Timeline A) : M A := λ s,
  let '(r, tl) := m (timeline_of s) in (map_err OfAccess r, with_timeline tl s).

Definition on_timeline {A} (f : Timeline → Result TimelineError (A * Timeline)) : M A := λ s,
  match f (timeline_of s) with Ok (a, tl) => (Ok a, with_timeline tl s) | Err e => (Err (OfTimeline e), s) end.

Definition on_states {A} (f : RoomStates → Result StateError (A * RoomStates)) : M A := λ s,
  match f (states (timeline_of s)) with
  | Ok (a, st) => (Ok a, with_timeline (with_states st (timeline_of s)) s)
  | Err e => (Err (OfStates e), s)
  end.

Definition on_shorts {A} (f : Short → Result ServiceError (A * Short)) : M A := λ s,
  match f (shorts_of (timeline_of s)) with
  | Ok (a, sh) => (Ok a, with_timeline (with_states (with_shorts sh (states (timeline_of s))) (timeline_of s)) s)
  | Err e => (Err (OfShorts e), s)
  end.

Definition on_meta (f : RoomMeta → Result DbError RoomMeta) : M unit := λ s,
  match f (meta s) with Ok m => (Ok tt, with_meta m s) | Err e => (Err (OfDb e), s) end.

Definition asking (f : W → W) : M unit := λ s, (Ok tt, with_members (members s) (f (outside s)) s).

Definition looking {A} (f : Timeline → Result DbError A) (err : DbError → ServerError) : M A := λ s,
  (map_err err (f (timeline_of s)), s).

Definition event_fetch s (id : string) : Result AccessError Pdu := fetch_pdu late (timeline_of s) id.

Definition invalid (msg : string) : ServerError := Failed (Request InvalidParam msg).

(** ** [threads/mod.rs] *)

Definition with_thread (event : Pdu) (unsigned : CanonicalJsonObject) : CanonicalJsonObject :=
  let known := (relations ← unsigned !! "m.relations"; o ← as_object relations; o !! "m.thread") in
  <["m.relations" := Object {["m.thread" := thread_bundle known event]}]> unsigned.

Definition add_to_thread (root_event_id : string) (event : Pdu) : M unit :=
  do root_id := looking (λ tl, get_pdu_id tl root_event_id) (λ _, invalid "Invalid event_id in thread message") in
  do root_pdu := looking (λ tl, get_from_id parse_pdu tl root_id) (λ _, invalid "Thread root not found") in
  do root_pdu_json := looking (λ tl, get_from_id text_object tl root_id) (λ _, invalid "Thread root pdu not found") in
  (match default (Object ∅) (root_pdu_json !! "unsigned") with
   | Object unsigned =>
       let json := <["unsigned" := Object (with_thread event unsigned)]> root_pdu_json in
       on_timeline (λ tl, let? next := replace_pdu tl root_id (object_text json) in Ok (tt, next))
   | _ => ret tt
   end) ;;
  on_meta (λ m,
    let users := match get_participants m root_id with Ok l => l | Err _ => [pdu_sender root_pdu] end in
    Ok (update_participants m root_id (users ++ [pdu_sender event]))).

(** ** [redact.rs] *)

Definition redact_pdu (event_id : string) (reason : Pdu) (shortroomid : N) : M unit := λ s,
  match get_pdu_id (timeline_of s) event_id with
  | Err (Panicked f) => (Err (OfDb (Panicked f)), s)
  | Err _ => (Ok tt, s)
  | Ok pdu_id =>
      (do pdu := looking (λ tl, get_from_id text_object tl pdu_id) (λ _, Failed (Database "PDU ID points to invalid PDU.")) in
       asking (save_original event_id pdu) ;;
       do content := lift (ok_or ServerPanic (pdu !! "content")) in
       (match (o ← as_object content; o !! "body" ≫= as_str) with
        | Some body => asking (deindex_message shortroomid pdu_id body)
        | None => ret tt
        end) ;;
       do room := lift (ok_or (Failed (ErrMsg "invalid room_id")) (pdu !! "room_id" ≫= de_id room_id_ok)) in
       do rules := accessing (get_room_version_rules late room) in
       do redacted := lift (ok_or (Failed (ErrMsg "invalid event")) (redact_because pdu rules reason)) in
       on_timeline (λ tl, let? next := replace_pdu tl pdu_id (object_text redacted) in Ok (tt, next))) s
  end.

(** ** [append.rs] *)

Definition ROOM_MESSAGE : string := "m.room.message".
Definition SPACE_CHILD : string := "m.space.child".

Definition updating (room user : string) (m : MembershipState) (sender : string) (state : option string) (counted : bool)
    (count : Count) : M unit := λ s,
  let kind := match m with
              | MJoin => MemberCache.Join | MInvite => MemberCache.Invite | MLeave => MemberCache.Leave
              | MKnock => MemberCache.Knock | MBan => MemberCache.Ban | MCustom _ => MemberCache.Custom
              end in
  let '(r, (mc, w)) := update_membership (members s) (outside s) room user kind sender state None counted count in
  (map_err OfMembers r, with_members mc w s).

Definition redaction_effects (shortroomid : N) p : M unit :=
  do rules := accessing (get_room_version_rules late (pdu_room_id p)) in
  match redacts_id p rules with
  | None => ret tt
  | Some id =>
      do may := accessing (user_can_redact late id (pdu_sender p) (pdu_room_id p) false) in
      if may then redact_pdu id p shortroomid else ret tt
  end.

Definition member_effects (count : Count) p : M unit :=
  match pdu_state_key p with
  | None => ret tt
  | Some state_key =>
      if user_id_ok state_key then
        do m := lift (map_err OfAccess (get_content content_member p)) in
        do w := reading outside in
        let state := if bool_decide (m = MInvite ∨ m = MKnock) then Some (stripped_state p w) else None in
        updating (pdu_room_id p) state_key m (pdu_sender p) state true count
      else throw ServerPanic
  end.

Definition message_effects (pdu_id : RawId) (shortroomid : N) p : M unit :=
  do body := lift (map_err OfAccess (get_content content_body p)) in
  match body with
  | None => ret tt
  | Some body =>
      asking (index_message shortroomid pdu_id body) ;;
      do w := reading outside in
      match admin_command p body w with
      | Some w => asking (λ _, w)
      | None => throw (Failed (ErrMsg "admin command"))
      end
  end.

(** A relation to an event that is not in a timeline is not kept. *)
Definition relate (count : Count) (event_id : string) : M unit := λ s,
  match get_pdu_count (timeline_of s) event_id with
  | Ok related => on_meta (λ m, add_relation m count related) s
  | Err (Panicked f) => (Err (OfDb (Panicked f)), s)
  | Err _ => (Ok tt, s)
  end.

Definition append_pdu_effects (pdu_id : RawId) p (shortroomid : N) (count : Count) : M unit :=
  (if decide (pdu_kind p = ROOM_REDACTION) then redaction_effects shortroomid p
   else if decide (pdu_kind p = SPACE_CHILD) then
     match pdu_state_key p with Some _ => asking (evict_space (pdu_room_id p)) | None => ret tt end
   else if decide (pdu_kind p = ROOM_MEMBER) then member_effects count p
   else if decide (pdu_kind p = ROOM_MESSAGE) then message_effects pdu_id shortroomid p
   else ret tt) ;;
  (match content_relates_event (pdu_content p) with Some id => relate count id | None => ret tt end) ;;
  match content_relation (pdu_content p) with
  | Some (Reply id) => relate count id
  | Some (Thread root) => add_to_thread root p
  | _ => ret tt
  end.

(** The content, sender and id of the state event that the event replaces. *)
Definition replaced_fields (prev_state : Pdu) (unsigned : CanonicalJsonObject) : option CanonicalJsonObject :=
  content ← canonical_object (pdu_content prev_state);
  Some (<["replaces_state" := Str (pdu_event_id prev_state)]>
       (<["prev_sender" := Str (pdu_sender prev_state)]> (<["prev_content" := Object content]> unsigned))).

Definition correct_unsigned p (pdu_json : CanonicalJsonObject) : M CanonicalJsonObject :=
  match pdu_state_key p with
  | None => ret pdu_json
  | Some state_key =>
      match default (Object ∅) (pdu_json !! "unsigned") with
      | Object unsigned =>
          do prev := accessing (ignoring (λ tl,
            match state_at tl (pdu_event_id p) with
            | Ok h => state_get late h (pdu_kind p) state_key tl
            | Err e => (Err (AccessDb e), tl)
            end)) in
          match prev with
          | None => ret (<["unsigned" := Object unsigned]> pdu_json)
          | Some prev_state =>
              do unsigned := lift (ok_or (Failed (Database "Failed to convert prev_state to canonical JSON"))
                                         (replaced_fields prev_state unsigned)) in
              ret (<["unsigned" := Object unsigned]> pdu_json)
          end
      | _ => ret pdu_json
      end
  end.

(** The permits of two numbers are dropped when the scope ends, in the other
    order on an early return. *)
Definition holding {A} (n1 n2 : N) (m : M A) : M A := λ s,
  let '(r, s') := m s in
  let order := match r with Ok _ => [n1; n2] | Err _ => [n2; n1] end in
  match Counter.drop_all order (get_data (timeline_of s')) with
  | Ok d => (r, with_timeline (set_data d (timeline_of s')) s')
  | Err _ => (Err ServerPanic, s')
  end.

Definition timeline_pdu p : Timeline.Pdu := mkPduEvent (pdu_event_id p) (pdu_room_id p) (pdu_sender p) (pdu_ts p) None.

Definition inserting (shortroomid : N) p (pdu_json : CanonicalJsonObject) : M (RawId * (N * N)) := λ s,
  match insert_pdu (λ event n, set_read (room_id event) (sender event) n) (timeline_of s) (outside s) shortroomid (timeline_pdu p)
          (object_text pdu_json) with
  | Ok (x, (tl, w)) => (Ok x, with_members (members s) w (with_timeline tl s))
  | Err e => (Err (OfTimeline e), s)
  end.

Definition set_leaves room (leafs : list string) : M unit :=
  on_states (λ st, let? next := dbe (set_forward_extremities st room leafs) in Ok (tt, next)).

Definition append_pdu p (pdu_json : CanonicalJsonObject) (leafs : list string) : M RawId :=
  do shortroomid := looking (λ tl, get_shortroomid (shorts_of tl) (pdu_room_id p)) (λ _, Failed (Database "Room does not exist")) in
  do pdu_json := correct_unsigned p pdu_json in
  on_meta (λ m, mark_as_referenced m (pdu_room_id p) (pdu_prev_events p)) ;;
  set_leaves (pdu_room_id p) leafs ;;
  do x := inserting shortroomid p pdu_json in
  let '(pdu_id, (n1, n2)) := x in
  holding n1 n2
    (asking (push_event pdu_id p) ;;
     append_pdu_effects pdu_id p shortroomid (Normal n1)) ;;
  asking (notify_appservices pdu_id p) ;;
  ret pdu_id.

Definition append_incoming_pdu p (pdu_json : CanonicalJsonObject) (new_room_leafs : list string) (state : CompressedState)
    (soft_fail : bool) : M (option RawId) :=
  on_states (λ st, set_event_state st (pdu_event_id p) (pdu_room_id p) state) ;;
  if soft_fail then
    on_meta (λ m, mark_as_referenced m (pdu_room_id p) (pdu_prev_events p)) ;;
    set_leaves (pdu_room_id p) new_room_leafs ;;
    ret None
  else
    do pdu_id := append_pdu p pdu_json new_room_leafs in
    ret (Some pdu_id).

(** ** [force_state] *)

(** The events of the entries, in their order. *)
Definition added_events s (added : CompressedState) : list Pdu :=
  omap (λ x : N * N, id ← ok (get_eventid_from_short (shorts_of (timeline_of s)) x.2); ok (event_fetch s id)) (parse_entries added).

Definition counting {A} (m : N → M A) : M A := λ s,
  match next_count (get_data (timeline_of s)) with
  | Err _ => (Err ServerPanic, s)
  | Ok (permit, d) =>
      let '(r, s') := m (permit_id permit) (with_timeline (set_data d (timeline_of s)) s) in
      match drop_permit (permit_id permit) (get_data (timeline_of s')) with
      | Ok d => (r, with_timeline (set_data d (timeline_of s')) s')
      | Err _ => (Err ServerPanic, s')
      end
  end.

Definition force_event room p : M unit :=
  if decide (pdu_kind p = ROOM_MEMBER) then
    match (state_key ← pdu_state_key p; if user_id_ok state_key then Some state_key else None), content_member (pdu_content p) with
    | Some user, Some m => counting (λ count, updating room user m (pdu_sender p) None false (Normal count))
    | _, _ => ret tt
    end
  else if decide (pdu_kind p = SPACE_CHILD) then asking (evict_space (pdu_room_id p))
  else ret tt.

Definition recount room : M unit := λ s,
  match update_joined_count (members s) room with
  | Ok mc => (Ok tt, with_members mc (outside s) s)
  | Err e => (Err (OfDb e), s)
  end.

Definition force_state room (shortstatehash : N) (added : CompressedState) : M unit :=
  do l := reading (λ s, added_events s added) in
  for_each (force_event room) l ;;
  recount room ;;
  on_states (λ st, let? next := set_room_state st room shortstatehash in Ok (tt, next)).
End append.
