(* ===== verification/Incoming.v ===== *)
(** * Events from other servers ([src/src/service/rooms/event_handler])

    An event that another server sends is parsed, its signature and the rules of
    its format are checked, its auth events are fetched and it is authorised on
    them; it is then kept as an outlier.  To enter the timeline its previous
    events are fetched and handled first, the state before it is found or asked
    for, the event is authorised on that state and on the current one, and the
    new state of the room is resolved.

    [Env] is what is not of this server, or not of these services: the answers of
    other servers, numbered as they come ([answered]), keys and signatures, the
    policy server, the clock and the settings.  Futures that the code runs
    concurrently run one after the other here, in any order ([Completion]). *)

From S2P Require Import Prelude Effects Bytes Slices SetOps DbCodec DbMap Pairs Counter Short Compressor RoomStates PduId Timeline AuthChain MemberCache RoomMeta Json Sender Core RoomEvents RoomAuth RoomSort RoomResolve PduFormat StateAccessor Append.

Local Open Scope op_scope.

Inductive Verified := VerifiedAll | VerifiedSignatures.

(** [RoomServerAclEventContent] and its [is_allowed]. *)
Record Acl := mkAcl { acl_allow : list string; acl_deny : list string; acl_ip_literals : bool }.

Class HandlerContents := {
  content_acl : Value → option Acl;
  acl_is_allowed : Acl → string → bool;
}.

Record Env := mkEnv {
  (** [get_event], the text of the event; [get_room_state_ids]. *)
  federation_event : nat → string → string → option string;
  federation_state_ids : nat → string → string → string → option (list string);
  (** [server_keys.verify_event], [ruma::canonical_json::redact]. *)
  verify_event : nat → CanonicalJsonObject → string → option Verified;
  redact : CanonicalJsonObject → PduRules → option CanonicalJsonObject;
  (** [verify_or_fetch_inbound_policy_signature]: whether it is invalid, and the
      event with the signature that was fetched. *)
  policy_invalid : nat → CanonicalJsonObject → Pdu → bool * CanonicalJsonObject;
  (** Nanoseconds, and whether the server is not shutting down. *)
  clock : nat → N;
  running : nat → bool;
  max_fetch_prev_events : N;
  hydra_backports : bool;
  (** Which reads finish first, and how fetches of walks are scheduled. *)
  chain_run : Run;
  subgraph_width : nat;
  subgraph_fuel : nat;
  subgraph_schedule : nat → nat;
  sort_fuel : nat;
  loop_fuel : nat;
  (** How a list is cut into batches. *)
  cut : ∀ A : Type, list A → list (list A);
}.

Section incoming.
Context {W E : Type} `{Engine, JsonParser, Identifiers, Users, Lru, Digest, Formats, Ruma, !RoomContents, HashIter}.
Context `{!Services W E, !AppendContents, !OtherServices W, !HandlerContents, !AuthRuma, !Completion, PduJson}.
Variable env : Env.
Implicit Types (s : Server (W := W)) (p : Pdu) (room origin version : string) (json : CanonicalJsonObject).
Notation M := (Op (ServerError (E := E)) (Server (W := W))).
Let late := AuthChain.late (chain_run env).

(** ** [mod.rs] *)

Definition with_limits (l : gmap string (N * N)) s : Server :=
  mkServer (chains s) (meta s) (members s) l (answered s) (outside s).

(** The number of the next answer from outside. *)
Definition ask : M nat := λ s,
  (Ok (answered s), mkServer (chains s) (meta s) (members s) (bad_event_ratelimiter s) (S (answered s)) (outside s)).

Definition check_running : M bool := do n := ask in ret (running env n).

Definition cancel_back_off (event_id : string) : M bool := λ s,
  (Ok (bool_decide (is_Some (bad_event_ratelimiter s !! event_id))), with_limits (delete event_id (bad_event_ratelimiter s)) s).

Definition back_off (event_id : string) : M bool :=
  do n := ask in
  λ s, match bad_event_ratelimiter s !! event_id with
       | None => (Ok true, with_limits (<[event_id := (clock env n, 1%N)]> (bad_event_ratelimiter s)) s)
       | Some (_, tries) =>
           (Ok false, with_limits (<[event_id := (clock env n, N.min (tries + 1) U32_MAX)]> (bad_event_ratelimiter s)) s)
       end.

(** The range of delays, in seconds. *)
Definition is_backed_off (event_id : string) (range : N * N) : M bool :=
  do n := ask in
  λ s, match bad_event_ratelimiter s !! event_id with
       | None => (Ok false, s)
       | Some (time, tries) => (Ok (continue_exponential_backoff_secs range.1 range.2 (clock env n - time) tries), s)
       end.

Definition event_exists s (id : string) : bool := pdu_exists (late id) (timeline_of s) id.

Definition error_of (e : AccessError) : Error :=
  match e with
  | AccessDb DbMap.NotFound => Request NotFound "Not found"
  | Refused e => e
  | _ => Database "unreadable event"
  end.

Definition fetching s : FetchEvent := λ id, map_err error_of (event_fetch late s id).

(** ** [acl_check.rs] *)

Definition acl_check (server room : string) : M unit :=
  do content := accessing (ignoring (room_state_get_content late content_acl room ROOM_SERVER_ACL "")) in
  match content with
  | None => ret tt
  | Some acl =>
      if bool_decide (acl_allow acl = []) then ret tt
      else if bool_decide ("*" ∈ acl_deny acl ∧ "*" ∈ acl_allow acl) then ret tt
      else if acl_is_allowed acl server then ret tt
      else throw (Failed (Request Forbidden "Server was denied by room ACL"))
  end.

(** ** [parse_incoming_pdu.rs] *)

Definition parse_incoming_pdu (pdu : string) : M (string * string * CanonicalJsonObject) :=
  do value := lift (ok_or (Failed (ErrMsg "Error parsing incoming event")) (text_object pdu)) in
  do room := lift (ok_or (invalid "Invalid room_id in pdu") (value !! "room_id" ≫= de_id room_id_ok)) in
  do version := (λ s, match accessing (get_room_version late room) s with
                      | (Err e, s') => (Err (if is_panic e then e else Failed (ErrMsg "Server is not in room")), s')
                      | r => r
                      end) in
  do event_id := lift (map_err (λ _, invalid "Could not convert event to canonical json") (gen_event_id value version)) in
  ret (room, event_id, value).

(** ** [fetch_auth.rs] *)

Definition gen_event_id_canonical_json (pdu version : string) : Result Error (string * CanonicalJsonObject) :=
  let? value := ok_or (ErrMsg "Error parsing canonical event") (text_object pdu) in
  let? event_id := gen_event_id value version in
  Ok (event_id, value).

(** The auth events named by an event as it came. *)
Definition named_auth_events json : list string :=
  take MAX_AUTH_EVENTS (omap (de_id event_id_ok) (default [] (json !! "auth_events" ≫= as_array))).

(** The event that the server answers for an id, when it is the one. *)
Definition fetch_event origin version (next_id : string) : M (option CanonicalJsonObject) :=
  do n := ask in
  match federation_event env n origin next_id with
  | None => do _ := back_off next_id in ret None
  | Some text =>
      do _ := cancel_back_off next_id in
      match gen_event_id_canonical_json text version with
      | Err _ => do _ := back_off next_id in ret None
      | Ok (calculated_event_id, value) =>
          if decide (calculated_event_id = next_id) then do _ := cancel_back_off next_id in ret (Some value)
          else do _ := back_off next_id in ret None
      end
  end.

Definition MINUTE : N := 60.
Definition HOUR : N := 3600.

Fixpoint fetch_chain (fuel : nat) origin version (todo : list string) (all : gset string)
    (found : list (string * CanonicalJsonObject)) : M (list (string * CanonicalJsonObject)) :=
  match todo with
  | [] => ret found
  | next_id :: todo' =>
      match fuel with
      | O => throw Unfinished
      | S fuel =>
          if decide (next_id ∈ all) then fetch_chain fuel origin version todo' all found
          else
            do backed_off := is_backed_off next_id (2 * MINUTE, 8 * HOUR)%N in
            if backed_off : bool then fetch_chain fuel origin version todo' all found
            else
              do known := reading (λ s, event_exists s next_id) in
              if known : bool then fetch_chain fuel origin version todo' all found
              else
                do up := check_running in
                if negb up then ret found
                else
                  do value := fetch_event origin version next_id in
                  match value with
                  | None => fetch_chain fuel origin version todo' all found
                  | Some value =>
                      fetch_chain fuel origin version (todo' ++ named_auth_events value) ({[next_id]} ∪ all)
                        (found ++ [(next_id, value)])
                  end
      end
  end.

(** The event, from the database or with what has to be handled before it. *)
Definition fetch_auth_chain origin version (event_id : string) :
    M (string * (option Pdu * list (string * CanonicalJsonObject))) := λ s,
  match event_fetch late s event_id with
  | Ok local_pdu => (Ok (event_id, (Some local_pdu, [])), s)
  | Err e =>
      if is_panic e then (Err (OfAccess e), s)
      else (do found := fetch_chain (loop_fuel env) origin version [event_id] ∅ [] in ret (event_id, (None, found))) s
  end.

(** ** [handle_outlier_pdu.rs] *)

(** The event with a good signature, redacted where its hash does not match. *)
Definition verify_pdu (event_id : string) json version : M CanonicalJsonObject :=
  do n := ask in
  match verify_event env n json version with
  | Some VerifiedAll => ret json
  | Some VerifiedSignatures =>
      do rules := lift (ok_or (Failed unsupported_version) (rules_of version)) in
      do redacted := lift (ok_or (invalid "Redaction failed") (redact env json rules)) in
      do known := reading (λ s, event_exists s event_id) in
      if known : bool then throw (invalid "Event was redacted and we already knew about it") else ret redacted
  | None => throw (invalid "Signature verification failed")
  end.

Definition hydra_create_id (rules : PduRules) p : option string :=
  if negb (bool_decide (pdu_kind p = ROOM_CREATE)) && negb (allow_room_create_in_auth_events (event_format rules))
  then room_as_event_id (pdu_room_id p) else None.

(** The auth events that can be read; one without a state key is a panic. *)
Definition own_auth_events s (rules : PduRules) p : option (list (TypeStateKey * Pdu)) :=
  mapM keyed_pdu (omap (λ id, ok (event_fetch late s id)) (pdu_auth_events p ++ option_list (hydra_create_id rules p))).

Definition state_of (auth_events : list (TypeStateKey * Pdu)) : FetchState := λ ty key,
  ok_or (Request NotFound "state not found") (snd <$> List.find (λ x, bool_decide (x.1 = with_state_key ty key)) auth_events).

Definition authorise s (rules : PduRules) p (fetch_state : FetchState) : Result (ServerError (E := E)) unit :=
  map_err Failed (auth_check (version_rules rules) p (fetching s) fetch_state).

(** [fetch] gets the missing auth events, unless they are known. *)
Definition handle_outlier_with (fetch : Pdu → M unit) room (event_id : string) json version : M (Pdu * CanonicalJsonObject) :=
  do verified := verify_pdu event_id (delete "unsigned" json) version in
  do rules := lift (map_err Failed (room_version_rules version)) in
  do parsed := lift (ok_or ServerPanic (from_object_federation room event_id verified rules)) in
  do event := lift (map_err Failed parsed) in
  fetch event.1 ;;
  (λ s, (let? auth_events := ok_or ServerPanic (own_auth_events s rules event.1) in
         authorise s rules event.1 (state_of auth_events), s)) ;;
  on_timeline (λ tl, let? next := add_pdu_outlier tl (pdu_event_id event.1) (object_text event.2) in Ok (tt, next)) ;;
  ret event.

(** The events of a chain, those that others refer to first; what fails is
    backed off from. *)
Fixpoint handle_chain room version (id : string) (events : list (string * CanonicalJsonObject))
    (pdus : list (Pdu * option CanonicalJsonObject)) : M (list (Pdu * option CanonicalJsonObject)) :=
  match events with
  | [] => ret pdus
  | (next_id, value) :: events' =>
      do backed_off := is_backed_off next_id (5 * MINUTE, 24 * HOUR)%N in
      if backed_off : bool then handle_chain room version id events' pdus
      else
        do outlier := ignoring (handle_outlier_with (λ _, ret tt) room next_id value version) in
        match outlier with
        | Some (pdu, json) =>
            do _ := cancel_back_off next_id in
            handle_chain room version id events' (if decide (next_id = id) then pdus ++ [(pdu, Some json)] else pdus)
        | None => do _ := back_off next_id in handle_chain room version id events' pdus
        end
  end.

Fixpoint handle_chains room version (l : list (string * (option Pdu * list (string * CanonicalJsonObject))))
    (pdus : list (Pdu * option CanonicalJsonObject)) : M (list (Pdu * option CanonicalJsonObject)) :=
  match l with
  | [] => ret pdus
  | (id, (local_pdu, events_in_reverse_order)) :: l' =>
      do up := check_running in
      if negb up then handle_chains room version l' pdus
      else
        do pdus := handle_chain room version id (reverse events_in_reverse_order)
                     (match local_pdu with Some p => pdus ++ [(p, None)] | None => pdus end) in
        handle_chains room version l' pdus
  end.

Definition fetch_auth origin room (events : list string) version : M (list (Pdu * option CanonicalJsonObject)) :=
  do l := Effects.collect (fetch_auth_chain origin version) (complete events) in
  handle_chains room version l [].

Definition handle_outlier_pdu origin room (event_id : string) json version : M (Pdu * CanonicalJsonObject) :=
  handle_outlier_with (λ event, do _ := fetch_auth origin room (pdu_auth_events event) version in ret tt)
    room event_id json version.

(** ** [fetch_prev.rs] *)

Record PrevWalk := mkPrevWalk {
  prev_todo : list string;
  prev_amount : N;
  prev_graph : gmap string (list string);
  prev_info : gmap string (Pdu * CanonicalJsonObject);
}.
Implicit Types (w : PrevWalk).

(** Nothing more is known of an event. *)
Definition prev_unknown (id : string) w : PrevWalk :=
  mkPrevWalk (prev_todo w) (prev_amount w) (<[id := []]> (prev_graph w)) (prev_info w).

(** An event newer than the room's first is followed further. *)
Definition prev_known (first_ts : N) (id : string) p json w : PrevWalk :=
  if (first_ts <? pdu_ts p)%N then
    mkPrevWalk (prev_todo w ++ filter (λ prev_prev, prev_graph w !! prev_prev = None) (pdu_prev_events p)) (N.min (prev_amount w + 1) 65535)%N
      (<[id := pdu_prev_events p]> (prev_graph w)) (<[id := (p, json)]> (prev_info w))
  else
    mkPrevWalk (prev_todo w) (prev_amount w) (<[id := []]> (prev_graph w)) (<[id := (p, json)]> (prev_info w)).

Definition prev_step origin room version (first_ts : N) (id : string) w : M PrevWalk :=
  do outlier := fetch_auth origin room [id] version in
  do up := check_running in
  if negb up then throw (Failed (ErrMsg "Server is shutting down."))
  else
    match last outlier with
    | None => ret (prev_unknown id w)
    | Some (p, json_opt) =>
        lift (map_err Failed (check_room_id p room)) ;;
        if (max_fetch_prev_events env <? prev_amount w)%N then ret (prev_unknown id w)
        else
          do json_opt := (match json_opt with
                          | Some json => ret (Some json)
                          | None => reading (λ s, ok (get_outlier text_object (timeline_of s) id))
                          end) in
          ret match json_opt with Some json => prev_known first_ts id p json w | None => prev_unknown id w end
    end.

Fixpoint prev_loop (fuel : nat) origin room version (first_ts : N) w : M PrevWalk :=
  match prev_todo w with
  | [] => ret w
  | id :: todo =>
      match fuel with
      | O => throw Unfinished
      | S fuel =>
          do next := prev_step origin room version first_ts id
                       (mkPrevWalk todo (prev_amount w) (prev_graph w) (prev_info w)) in
          prev_loop fuel origin room version first_ts next
      end
  end.

Definition prev_query w (id : string) : Result Error PduInfo :=
  Ok (Level 0, default 0%N ((λ x, pdu_ts x.1) <$> prev_info w !! id)).

Definition missing_prev s (id : string) : bool :=
  match non_outlier_pdu_exists (timeline_of s) id with Ok _ => false | Err _ => true end.

Definition fetch_prev origin room version (initial_set : list string) (first_ts : N) :
    M (list string * gmap string (Pdu * CanonicalJsonObject)) :=
  do todo := reading (λ s, filter (λ id, missing_prev s id = true) initial_set) in
  do w := prev_loop (loop_fuel env) origin room version first_ts (mkPrevWalk todo 0 ∅ ∅) in
  do sorted := lift (ok_or Unfinished (topological_sort (prev_query w) (sort_fuel env) (hash_iter (prev_graph w)))) in
  do sorted := lift (map_err (λ _, Failed (Database "Error sorting prev events")) sorted) in
  ret (sorted, prev_info w).

(** ** [resolve_state.rs] *)

Definition on_chains {A} (f : AuthChains → Result ChainError (A * AuthChains)) : M A := λ s,
  match f (chains s) with
  | Ok (a, ac) => (Ok a, mkServer ac (meta s) (members s) (bad_event_ratelimiter s) (answered s) (outside s))
  | Err e => (Err (OfChains e), s)
  end.

Definition auth_set room version (starting_events : list string) : M AuthSet :=
  do l := on_chains (λ ac, event_ids_iter (chain_run env) ac room version (cut env _ starting_events)) in
  ret (list_to_set l).

(** [collect] into a map: a later entry replaces an earlier one. *)
Definition collect_map {K A} `{Countable K} (l : list (K * A)) : gmap K A := list_to_map (reverse l).

Definition number_statekey (ty key : string) : M N := on_shorts (λ x, get_or_create_shortstatekey x ty key).

Definition state_resolution version (state_sets : list RoomState) (auth_chains : list AuthSet) : M RoomState :=
  do rules := lift (map_err Failed (room_version_rules version)) in
  λ s, match resolve (version_rules rules) (fetching s) (event_exists s) (subgraph_width env) (subgraph_fuel env)
               (subgraph_schedule env) (sort_fuel env) state_sets auth_chains (hydra_backports env) with
       | None => (Err Unfinished, s)
       | Some (Err _) => (Err (Failed (ErrMsg "State resolution failed")), s)
       | Some (Ok state) => (Ok state, s)
       end.

(** The entries whose key can be read. *)
Definition keyed_state (l : list (N * string)) : M RoomState :=
  reading (λ s, collect_map (omap (λ x : N * string, (., x.2) <$> ok (get_statekey_from_short (shorts_of (timeline_of s)) x.1)) l)).

Definition number_state (state : RoomState) : M (list (N * string)) :=
  Effects.collect (λ x, do k := number_statekey x.1.1 x.1.2 in ret (k, x.2)) (btree_iter state).

Definition compress_all (l : list (N * string)) : M CompressedState :=
  do entries := on_states (λ st, compress_state_events st (cut env _ l)) in ret (list_to_set entries).

(** Forks whose auth chain cannot be had count without it. *)
Definition resolve_state room version (incoming_state : gmap N string) : M CompressedState :=
  do current := looking (λ tl, get_room_shortstatehash (states tl) room) (λ _, Failed (Database "No state for room")) in
  do current_ids := accessing (state_full_ids current) in
  let forks := hash_iter <$> [collect_map current_ids; incoming_state] in
  do auth_chain_sets := Effects.collect (λ fork, ignoring (auth_set room version fork.*2)) forks in
  do fork_states := Effects.collect keyed_state forks in
  do state := state_resolution version fork_states (omap id auth_chain_sets) in
  do state_events := number_state state in
  compress_all state_events.

(** ** [state_at_incoming.rs] *)

Definition state_after (prev_event : Pdu) (state : list (N * string)) : M (list (N * string)) :=
  match pdu_state_key prev_event with
  | None => ret state
  | Some state_key =>
      do k := number_statekey (pdu_kind prev_event) state_key in ret (state ++ [(k, pdu_event_id prev_event)])
  end.

Definition state_at_incoming_degree_one p : M (option (gmap N string)) := λ s,
  match head (pdu_prev_events p) with
  | None => (Err ServerPanic, s)
  | Some prev_event_id =>
      match state_at (timeline_of s) prev_event_id with
      | Err e => if db_panics e then (Err (OfDb e), s) else (Ok None, s)
      | Ok h =>
          (do prev_event := lift (map_err (λ e, if is_panic e then OfAccess e
                                                else Failed (Database "Could not find prev_event, but we know the state"))
                                          (event_fetch late s prev_event_id)) in
           do state := accessing (state_full_ids h) in
           do state := state_after prev_event state in
           ret (Some (collect_map state))) s
      end
  end.

(** The keys are read in any order: where the event replaces an entry, either of
    the two can be the one that is kept. *)
Definition state_at_incoming_fork room version (fork : N * Pdu) : M (RoomState * AuthSet) :=
  do state := accessing (state_full_ids fork.1) in
  do state := state_after fork.2 state in
  do auth_chain := auth_set room version state.*2 in
  do fork_state := keyed_state (complete state) in
  ret (fork_state, auth_chain).

(** The state before a previous event, with the event. *)
Definition extremity s (prev_event_id : string) : Result (ServerError (E := E)) (N * Pdu) :=
  let? h := map_err OfDb (state_at (timeline_of s) prev_event_id) in
  let? prev_event := map_err OfAccess (event_fetch late s prev_event_id) in
  Ok (h, prev_event).

(** One previous event is kept for each state before them. *)
Definition state_at_incoming_resolved p room version : M (option (gmap N string)) :=
  do extremities := ignoring (Effects.collect (λ id s, (extremity s id, s)) (complete (pdu_prev_events p))) in
  match extremities with
  | None => ret None
  | Some l =>
      do forks := Effects.collect (state_at_incoming_fork room version) (hash_iter (collect_map l)) in
      do new_state := ignoring (state_resolution version forks.*1 forks.*2) in
      match new_state with
      | None => ret None
      | Some new_state =>
          do state := Effects.collect (λ x, do k := number_statekey x.1.1 x.1.2 in ret (k, x.2)) (complete (btree_iter new_state)) in
          ret (Some (collect_map state))
      end
  end.

(** ** [fetch_state.rs] *)

Fixpoint gather_state (l : list Pdu) (state : gmap N string) : M (gmap N string) :=
  match l with
  | [] => ret state
  | p :: l' =>
      do state_key := lift (ok_or (Failed (Database "Found non-state pdu in state events.")) (pdu_state_key p)) in
      do k := number_statekey (pdu_kind p) state_key in
      match state !! k with
      | None => gather_state l' (<[k := pdu_event_id p]> state)
      | Some _ => throw (invalid "State event's type and state_key exists multiple times.")
      end
  end.

Definition fetch_state origin room (event_id : string) version (create_event_id : string) : M (gmap N string) :=
  do n := ask in
  do ids := lift (ok_or (Failed (ErrMsg "Fetching state for event failed")) (federation_state_ids env n origin room event_id)) in
  do state_vec := fetch_auth origin room ids version in
  do state := gather_state state_vec.*1 ∅ in
  do create_shortstatekey := looking (λ tl, get_shortstatekey (shorts_of tl) ROOM_CREATE "") OfDb in
  if decide (state !! create_shortstatekey = Some create_event_id) then ret state
  else throw (Failed (Database "Incoming event refers to wrong create event.")).

(** ** [upgrade_outlier_pdu.rs] *)

Definition resolve_state_at_incoming_event origin room p version (create_event_id : string) : M (gmap N string) :=
  do known := (if decide (length (pdu_prev_events p) = 1) then state_at_incoming_degree_one p
               else state_at_incoming_resolved p room version) in
  match known with
  | Some state => ret state
  | None => fetch_state origin room (pdu_event_id p) version create_event_id
  end.

(** The event of a type and state key in the state before the event. *)
Definition state_before s (state : gmap N string) : FetchState := λ ty key,
  let? k := map_err (λ e, error_of (AccessDb e)) (get_shortstatekey (shorts_of (timeline_of s)) ty key) in
  let? id := ok_or (Request NotFound "shortstatekey not found") (state !! k) in
  fetching s id.

Definition state_among (auth_events : gmap TypeStateKey Pdu) : FetchState := λ ty key,
  ok_or (Request NotFound "state event not found") (auth_events !! with_state_key ty key).

Definition auth_check_outlier_pdu room p (rules : PduRules) (state : gmap N string) : M unit :=
  (λ s, (authorise s rules p (state_before s state), s)) ;;
  do auth_events := accessing (get_auth_events late room (pdu_kind p) (pdu_sender p) (pdu_state_key p) (pdu_content p)
                                 (authorization (version_rules rules)) true) in
  (λ s, (authorise s rules p (state_among auth_events), s)).

(** Whether the event fails softly, and the event with the policy signature. *)
Definition compute_soft_fail p (rules : PduRules) json : M (bool * CanonicalJsonObject) :=
  do may := (match redacts_id p rules with
             | None => ret true
             | Some id => accessing (user_can_redact late id (pdu_sender p) (pdu_room_id p) true)
             end) in
  if may : bool then do n := ask in ret (policy_invalid env n json p) else ret (true, json).

Definition compute_remaining_extremities room p : M (list string) := λ s,
  (let? leaves := map_err OfDb (get_forward_extremities (states (timeline_of s)) room) in
   Ok (complete (filter (λ id, is_event_referenced (meta s) room id = false) (filter (λ id, ¬ id ∈ pdu_prev_events p) leaves))), s).

Definition resolve_and_force_state_after room version p (state : gmap N string) : M unit :=
  do state_after := (match pdu_state_key p with
                     | None => ret state
                     | Some state_key =>
                         do k := number_statekey (pdu_kind p) state_key in ret (<[k := pdu_event_id p]> state)
                     end) in
  do new_room_state := resolve_state room version state_after in
  do change := on_states (λ st, save_state st room new_room_state) in
  force_state late room (change_hash change) (change_added change).

Definition soft_failed : ServerError (E := E) := invalid "Event has been soft failed".

(** From the checks on: the room is locked. *)
Definition upgrade_checked room p json version (state : gmap N string) (soft_fail : bool) : M (option (RawId * bool)) :=
  do extremities := compute_remaining_extremities room p in
  do state_ids_compressed := compress_all (hash_iter state) in
  (match pdu_state_key p with
   | Some _ => resolve_and_force_state_after room version p state
   | None => ret tt
   end) ;;
  do pdu_id := append_incoming_pdu late p json (extremities ++ (if soft_fail then [] else [pdu_event_id p]))
                 state_ids_compressed soft_fail in
  if soft_fail then
    on_meta (λ m, Ok (mark_event_soft_failed m (pdu_event_id p))) ;;
    throw soft_failed
  else ret ((., true) <$> pdu_id).

Definition upgrade_outlier_to_timeline_pdu origin room p json version (create_event_id : string) : M (option (RawId * bool)) := λ s,
  match get_pdu_id (timeline_of s) (pdu_event_id p) with
  | Ok pdu_id => (Ok (Some (pdu_id, false)), s)
  | Err e =>
      if db_panics e then (Err (OfDb e), s)
      else if is_event_soft_failed (meta s) (pdu_event_id p) then (Err soft_failed, s)
      else
        (do rules := lift (map_err Failed (room_version_rules version)) in
         lift (map_err Failed (check_rules json (event_format rules))) ;;
         do state := resolve_state_at_incoming_event origin room p version create_event_id in
         auth_check_outlier_pdu room p rules state ;;
         do x := compute_soft_fail p rules json in
         upgrade_checked room p x.2 version state x.1) s
  end.

(** ** [handle_prev_pdu.rs] *)

Definition handle_prev_pdu origin room (info : option (Pdu * CanonicalJsonObject)) version (first_ts : N) (prev_id create_event_id : string) :
    M (option (RawId * bool)) :=
  do disabled := reading (λ s, is_disabled (meta s) room) in
  if disabled : bool then throw (Failed (Request Forbidden "Federaton of room is currently disabled on this server."))
  else
    match info with
    | None => ret None
    | Some (p, json) =>
        if (pdu_ts p <? first_ts)%N then ret None
        else
          do backed_off := is_backed_off prev_id (5 * MINUTE, 24 * HOUR)%N in
          if backed_off : bool then ret None
          else upgrade_outlier_to_timeline_pdu origin room p json version create_event_id
    end.

(** ** [handle_incoming_pdu.rs] *)

(** A failure is kept until all previous events have been handled. *)
Definition handle_one_prev origin room version (first_ts : N) (create_event_id : string)
    (info : gmap string (Pdu * CanonicalJsonObject)) (prev_id : string) : M (option (ServerError (E := E))) :=
  do up := check_running in
  if negb up then throw (Failed (ErrMsg "Server is shutting down."))
  else λ s,
    match handle_prev_pdu origin room (info !! prev_id) version first_ts prev_id create_event_id s with
    | (Ok (Some _), s') => (do _ := cancel_back_off prev_id in ret None) s'
    | (Ok None, s') => (Ok None, s')
    | (Err e, s') => if is_panic e then (Err e, s') else (do _ := back_off prev_id in ret (Some e)) s'
    end.

Definition handle_prevs origin room version (first_ts : N) (create_event_id : string) (sorted : list string)
    (info : gmap string (Pdu * CanonicalJsonObject)) : M unit :=
  do results := Effects.collect (handle_one_prev origin room version first_ts create_event_id info) (complete sorted) in
  match omap id results with [] => ret tt | e :: _ => throw e end.

(** The checks before an event is looked at: those of the room and of the
    servers it comes from. *)
Definition admit_event origin room json : M Pdu :=
  do exists_ := looking (λ tl, room_exists tl room) OfDb in
  do disabled := reading (λ s, is_disabled (meta s) room) in
  do sender := lift (ok_or (invalid "PDU does not have a valid sender key") (json !! "sender" ≫= de_id user_id_ok)) in
  acl_check origin room ;;
  (if decide (server_name sender = origin) then ret tt else acl_check (server_name sender) room) ;;
  do create_event := accessing (room_state_get late room ROOM_CREATE "") in
  if negb exists_ then throw (Failed (Request NotFound "Room is unknown to this server"))
  else if disabled : bool then throw (Failed (Request Forbidden "Federation of this room is disabled by this server."))
  else ret create_event.

Definition handle_timeline_event origin room p json version (create_event_id : string) : M (option (RawId * bool)) :=
  do n := ask in
  do first := (λ s, (map_err OfTimeline (first_item_in_room (clock env n) (timeline_of s) room), s)) in
  let first_ts := origin_server_ts first.2 in
  if (pdu_ts p <? first_ts)%N then ret None
  else
    do prevs := fetch_prev origin room version (pdu_prev_events p) first_ts in
    handle_prevs origin room version first_ts create_event_id prevs.1 prevs.2 ;;
    upgrade_outlier_to_timeline_pdu origin room p json version create_event_id.

Definition handle_incoming_pdu origin room (event_id : string) json (is_timeline_event : bool) : M (option (RawId * bool)) := λ s,
  match get_pdu_id (timeline_of s) event_id with
  | Ok pdu_id => (Ok (Some (pdu_id, false)), s)
  | Err e =>
      if db_panics e then (Err (OfDb e), s)
      else
        (do create_event := admit_event origin room json in
         do version := lift (map_err OfAccess (get_content content_room_version create_event)) in
         do event := handle_outlier_pdu origin room event_id json version in
         if is_timeline_event then
           handle_timeline_event origin room event.1 event.2 version (pdu_event_id create_event)
         else ret None) s
  end.
End incoming.
