(* ===== verification/Build.v ===== *)
(** * Events of this server ([src/src/service/rooms/timeline/create.rs],
    [build.rs], [src/src/service/server_keys/sign.rs])

    An event that a user of this server sends is built on the forward extremities
    of its room with the auth events that the current state selects, authorised
    on them, hashed and signed; then the rules of this server are applied (of
    suspended senders, of the admin room, of redactions and of restricted joins),
    the event is added to the state and the timeline, and it is queued for the
    servers of the room. *)

From S2P Require Import Prelude Effects Bytes Slices SetOps DbCodec DbMap Pairs Counter Short Compressor RoomStates PduId Timeline AuthChain MemberCache RoomMeta Json Core RoomEvents RoomAuth PduFormat StateAccessor Append Incoming.

Local Open Scope op_scope.

(** [PduBuilder]; its content and the unsigned part are JSON. *)
Record PduBuilder := mkBuilder {
  b_type : string;
  b_content : Value;
  b_unsigned : option (gmap string Value);
  b_state_key : option string;
  b_redacts : option string;
  b_timestamp : option N;
}.

(** [ruma::signatures::JsonError] *)
Inductive SignError := PduTooLarge | OtherJsonError.

Class BuildContents := {
  (** Of [ruma]: [RoomIdFormatVersion::V2], and [OwnedRoomId::from_parts] with the
      localpart of an event id. *)
  room_id_format_v2 : PduRules → bool;
  room_id_of_event : string → option string;
  (** [ruma::signatures::hash_event], [sign_event] with the keys of a server. *)
  hash_event : CanonicalJsonObject → Result SignError CanonicalJsonObject;
  sign_event : string → CanonicalJsonObject → PduRules → Result SignError CanonicalJsonObject;
  (** [join_authorized_via_users_server] of a [RoomMemberEventContent]. *)
  content_authorised_via : Value → option string;
}.

Class BuildServices (W : Type) := {
  (** [globals.server_name], [globals.server_user] *)
  own_server_name : string;
  server_user : string;
  (** [users.is_suspended], [admin.is_admin_room] *)
  sender_suspended : W → string → bool;
  is_admin_room : W → string → bool;
  (** [event_handler.sign_outgoing_pdu] *)
  sign_outgoing_pdu : CanonicalJsonObject → Pdu → W → Result Error CanonicalJsonObject * W;
  (** [sending.send_pdu_servers] *)
  send_pdu_servers : list string → RawId → W → Result Error unit * W;
}.

Section build.
Context {W E : Type} `{Engine, JsonParser, Identifiers, Users, Lru, Digest, Formats, Ruma, !RoomContents, HashIter}.
Context `{!Services W E, !AppendContents, !OtherServices W, !BuildContents, !BuildServices W}.
Implicit Types (s : Server (W := W)) (p : Pdu) (room version sender : string) (b : PduBuilder) (json : CanonicalJsonObject).
Notation M := (Op (ServerError (E := E)) (Server (W := W))).
(** Which of the two reads of an event finishes first, and milliseconds since
    the epoch. *)
Variables (late : string → bool) (now : N).

(** ** [sign.rs] *)

Definition sign_error (e : SignError) : Error :=
  match e with
  | PduTooLarge => Request TooLarge "PDU exceeds 65535 bytes"
  | OtherJsonError => Request Unknown "Signing event failed"
  end.

Definition hash_and_sign_event json version : Result Error CanonicalJsonObject :=
  let? rules := room_version_rules version in
  let? hashed := map_err sign_error (hash_event json) in
  map_err sign_error (sign_event own_server_name hashed rules).

Definition gen_id_hash_and_sign_event_v1 json version : Result Error (string * CanonicalJsonObject) :=
  let? id := gen_event_id json version in
  let? signed := hash_and_sign_event (<["event_id" := Str id]> json) version in
  Ok (id, signed).

Definition gen_id_hash_and_sign_event_v3 json version : Result Error (string * CanonicalJsonObject) :=
  let? signed := hash_and_sign_event json version in
  let? id := gen_event_id signed version in
  Ok (id, <["event_id" := Str id]> signed).

Definition gen_id_hash_and_sign_event json version : Result Error (string * CanonicalJsonObject) :=
  let object := delete "event_id" json in
  let? rules := room_version_rules version in
  if require_event_id (event_format rules) then gen_id_hash_and_sign_event_v1 object version
  else gen_id_hash_and_sign_event_v3 object version.

(** ** [create.rs] *)

(** A field that is left out when it is [None]. *)
Definition some_field {A} (key : string) (f : A → Value) (o : option A) : list (string * Value) := option_list ((λ a, (key, f a)) <$> o).

(** The derived [Serialize] of [Pdu] for an event that is not yet hashed and
    signed, with the fields that [Pdu] here leaves out. *)
Definition pdu_fields p (depth : N) (unsigned : option (gmap string Value)) : gmap string Value :=
  list_to_map
    ([("type", Str (pdu_kind p)); ("content", pdu_content p); ("event_id", Str (pdu_event_id p)); ("room_id", Str (pdu_room_id p));
      ("sender", Str (pdu_sender p))]
     ++ some_field "state_key" Str (pdu_state_key p) ++ some_field "redacts" Str (pdu_redacts p)
     ++ [("prev_events", Array (Str <$> pdu_prev_events p)); ("auth_events", Array (Str <$> pdu_auth_events p));
         ("origin_server_ts", Num (PosInt (pdu_ts p))); ("depth", Num (PosInt depth)); ("hashes", Object {["sha256" := Str ""]});
         ("origin", Str own_server_name)]
     ++ some_field "unsigned" Object unsigned).

(** The depth of a stored event. *)
Definition parse_depth (t : string) : option N :=
  o ← text_object t; _ ← pdu_from_object o; o !! "depth" ≫= de_uint.

Definition next_depth (prev_events : list string) : M N :=
  do depths := Effects.collect (λ id, ignoring (looking (λ tl, Timeline.get parse_depth (late id) tl id) OfDb)) prev_events in
  ret (N.min (foldl N.max 0 (omap id depths) + 1) UINT_MAX)%N.

Definition version_for b room : M (string * PduRules) :=
  do known := ignoring (accessing (get_room_version late room)) in
  do version := (match known with
                 | Some found => ret found
                 | None =>
                     if decide (b_type b = ROOM_CREATE) then lift (ok_or (OfAccess BadContent) (content_room_version (b_content b)))
                     else throw (Failed (ErrMsg "non-create event for room of unknown version"))
                 end) in
  do rules := lift (map_err Failed (room_version_rules version)) in
  ret (version, rules).

Definition unsigned_for b room : M (option (gmap string Value)) :=
  let given := default ∅ (b_unsigned b) in
  do prev := (match b_state_key b with
              | Some key => ignoring (accessing (room_state_get late room (b_type b) key))
              | None => ret None
              end) in
  let fields := match prev with
                | Some q => <["replaces_state" := Str (pdu_event_id q)]>
                              (<["prev_sender" := Str (pdu_sender q)]> (<["prev_content" := pdu_content q]> given))
                | None => given
                end in
  ret (if decide (fields = ∅) then None else Some fields).

Definition timestamp_for b : M N :=
  match b_timestamp b with
  | Some ts => ret ts
  | None => if (now <=? UINT_MAX)%N then ret now else throw ServerPanic
  end.

Definition auth_ids (format : EventFormatRules) (auth_events : gmap TypeStateKey Pdu) : list string :=
  omap (λ x : TypeStateKey * Pdu,
    if allow_room_create_in_auth_events format || negb (bool_decide (pdu_kind x.2 = ROOM_CREATE)) then Some (pdu_event_id x.2) else None)
    (btree_iter auth_events).

Definition auth_fetch (auth_events : gmap TypeStateKey Pdu) : FetchState := λ ty key,
  ok_or (Request NotFound "Missing auth events") (auth_events !! with_state_key ty key).

Definition drafted b sender room ts (prev_events auth_events : list string) : Pdu :=
  mkPdu "$thiswillbereplaced" room sender (b_type b) (b_state_key b) (b_content b) ts prev_events auth_events (b_redacts b) false.

(** The event with its id, in its room. *)
Definition renamed p (event_id room : string) : Pdu :=
  mkPdu event_id room (pdu_sender p) (pdu_kind p) (pdu_state_key p) (pdu_content p) (pdu_ts p) (pdu_prev_events p) (pdu_auth_events p)
    (pdu_redacts p) (pdu_rejected p).

(** The hash, the signature and the id, and the room of a create event that
    names it. *)
Definition sign_pdu p (fields : gmap string Value) version rules : M (Pdu * CanonicalJsonObject) :=
  let is_create := bool_decide (pdu_kind p = ROOM_CREATE) in
  do object := lift (ok_or (Failed (Request BadJson "Failed to convert PDU to canonical JSON")) (canonical_object (Object fields))) in
  let pdu_json := if negb (require_room_create_room_id (event_format rules)) && is_create then delete "room_id" object else object in
  do signed := lift (map_err Failed (gen_id_hash_and_sign_event pdu_json version)) in
  if room_id_format_v2 rules && is_create then
    do new_room := lift (ok_or (Failed (ErrMsg "invalid room id")) (room_id_of_event signed.1)) in
    ret (renamed p signed.1 new_room, <["room_id" := Str new_room]> signed.2)
  else ret (renamed p signed.1 (pdu_room_id p), signed.2).

Definition create_hash_and_sign_event b sender room : M (Pdu * CanonicalJsonObject) :=
  do leaves := (λ s, (map_err OfDb (get_forward_extremities (states (timeline_of s)) room), s)) in
  let prev_events := take 20 leaves in
  do v := version_for b room in
  do auth_events := accessing (get_auth_events late room (b_type b) sender (b_state_key b) (b_content b)
                                 (authorization (version_rules v.2)) true) in
  do depth := next_depth prev_events in
  do unsigned := unsigned_for b room in
  do ts := timestamp_for b in
  let p := drafted b sender room ts prev_events (auth_ids (event_format v.2) auth_events) in
  (λ s, (map_err Failed (auth_check (version_rules v.2) p (λ id, map_err error_of (event_fetch late s id)) (auth_fetch auth_events)), s)) ;;
  do event := sign_pdu p (pdu_fields p depth unsigned) v.1 v.2 in
  lift (map_err Failed (check_rules event.2 (event_format v.2))) ;;
  do _ := on_shorts (λ x, get_or_create_shorteventid x (pdu_event_id event.1)) in
  ret event.

(** ** [build.rs] *)

Definition is_self_redaction p : M bool :=
  do rules := accessing (get_room_version_rules late (pdu_room_id p)) in
  match redacts_id p rules with
  | None => ret false
  | Some target_id =>
      do target := ignoring (λ s, (map_err OfAccess (event_fetch late s target_id), s)) in
      ret (match target with Some q => bool_decide (pdu_sender q = pdu_sender p) | None => false end)
  end.

Definition check_pdu_for_suspended_sender p : M unit :=
  do suspended := reading (λ s, sender_suspended (outside s) (pdu_sender p)) in
  if negb suspended then ret tt
  else
    do allowed := (if decide (pdu_kind p = ROOM_REDACTION) then is_self_redaction p
                   else if decide (pdu_kind p = ROOM_MEMBER) then
                     do m := lift (map_err OfAccess (get_content content_member p)) in
                     ret (bool_decide (m = MLeave ∧ pdu_state_key p = Some (pdu_sender p)))
                   else ret false) in
    if allowed then ret tt else throw (Failed (Request UserSuspended "Account is suspended.")).

(** The local members of a room other than one of them. *)
Definition other_admins s room (target : string) : Result DbError (list string) :=
  result_map (List.filter (λ u, user_is_local u && negb (bool_decide (u = target)))) (room_members (members s) room).

Definition forbid_losing_admins room target (of_server of_last : string) : M unit :=
  if decide (target = server_user) then throw (Failed (Request Forbidden of_server))
  else
    do l := (λ s, (map_err OfDb (other_admins s room target), s)) in
    if length l <? 2 then throw (Failed (Request Forbidden of_last)) else ret tt.

Definition ROOM_ENCRYPTION : string := "m.room.encryption".

(** Whom a member event is about. *)
Definition admin_target p sender : string :=
  match pdu_state_key p with Some key => if String.prefix "@" key then key else sender | None => sender end.

Definition check_pdu_for_admin_room p sender : M unit :=
  if decide (pdu_kind p = ROOM_ENCRYPTION) then throw (Failed (Request Forbidden "Encryption not supported in admins room."))
  else if decide (pdu_kind p = ROOM_MEMBER) then
    do m := lift (map_err OfAccess (get_content content_member p)) in
    match m, pdu_state_key p with
    | MLeave, _ =>
        forbid_losing_admins (pdu_room_id p) (admin_target p sender) "Server user cannot leave the admins room."
          "Last admin cannot leave the admins room."
    | MBan, Some _ =>
        forbid_losing_admins (pdu_room_id p) (admin_target p sender) "Server cannot be banned from admins room."
          "Last admin cannot be banned from admins room."
    | _, _ => ret tt
    end
  else ret tt.

Definition check_redaction p : M unit :=
  if decide (pdu_kind p = ROOM_REDACTION) then
    do rules := accessing (get_room_version_rules late (pdu_room_id p)) in
    match redacts_id p rules with
    | None => ret tt
    | Some id =>
        do may := accessing (user_can_redact late id (pdu_sender p) (pdu_room_id p) false) in
        if may then ret tt else throw (Failed (Request Forbidden "User cannot redact this event."))
    end
  else ret tt.

Definition check_authorised_join p : M unit :=
  if decide (pdu_kind p = ROOM_MEMBER) then
    do m := lift (map_err OfAccess (get_content content_member p)) in
    match content_authorised_via (pdu_content p) with
    | None => ret tt
    | Some user =>
        if negb (bool_decide (m = MJoin)) then
          throw (Failed (Request BadJson "join_authorised_via_users_server is only for member joins"))
        else if negb (user_is_local user) then
          throw (Failed (Request InvalidParam "Authorising user does not belong to this homeserver"))
        else ret tt
    end
  else ret tt.

(** The checks between the creation of the event and its first trace. *)
Definition check_built p sender : M unit :=
  check_pdu_for_suspended_sender p ;;
  (if bool_decide (pdu_kind p = ROOM_CREATE) && bool_decide (room_server_name (pdu_room_id p) = None) then
     do _ := on_shorts (λ x, get_or_create_shortroomid x (pdu_room_id p)) in ret tt
   else ret tt) ;;
  do admin := reading (λ s, is_admin_room (outside s) (pdu_room_id p)) in
  (if (admin : bool) then check_pdu_for_admin_room p sender else ret tt) ;;
  check_redaction p ;;
  check_authorised_join p.

Definition policy_signed p json : M CanonicalJsonObject := λ s,
  let '(r, w) := sign_outgoing_pdu json p (outside s) in (map_err Failed r, with_members (members s) w s).

Definition new_pdu p : NewPdu := RoomStates.mkPdu (pdu_event_id p) (pdu_room_id p) (pdu_kind p) (pdu_state_key p).

(** The servers that are told of an event. *)
Definition told_servers p (in_room : list string) : gset string :=
  let target := if decide (pdu_kind p = ROOM_MEMBER) then
                  match pdu_state_key p with
                  | Some key => if user_id_ok key then {[server_name key]} else ∅
                  | None => ∅
                  end
                else ∅ in
  (list_to_set in_room ∪ target) ∖ {[own_server_name]}.

Definition federate p (pdu_id : RawId) : M unit :=
  do in_room := (λ s, (map_err OfDb (room_servers (members s) (pdu_room_id p)), s)) in
  λ s, let '(r, w) := send_pdu_servers (hash_set_iter (told_servers p in_room)) pdu_id (outside s) in
       (map_err Failed r, with_members (members s) w s).

Definition build_and_append_pdu b sender room : M string :=
  do event := create_hash_and_sign_event b sender room in
  let p := event.1 in
  check_built p sender ;;
  do pdu_json := policy_signed p event.2 in
  do statehashid := on_states (λ st, append_to_state st (new_pdu p)) in
  do pdu_id := append_pdu late p pdu_json [pdu_event_id p] in
  on_states (λ st, let? next := set_room_state st (pdu_room_id p) statehashid in Ok (tt, next)) ;;
  federate p pdu_id ;;
  ret (pdu_event_id p).
End build.
