(* ===== verification/EventFrames.v ===== *)
(** * Operations that leave the stored events as they are

    Most of what [Append] and [Incoming] do reads events, counts, numbers and
    notes; the index of timelines and the outliers stay as they are.  The hint
    database [keeps] and the tactic [keep] show this of an operation from its
    parts. *)

From S2P Require Import Prelude Effects Bytes Slices SetOps DbCodec DbMap Pairs Counter Short Compressor RoomStates PduId Timeline AuthChain MemberCache RoomMeta Json Sender Core RoomEvents RoomAuth RoomSort RoomResolve PduFormat StateAccessor Append Incoming.

Create HintDb keeps.
#[export] Hint Resolve keeps_ignoring : keeps.

(** ** Operations that leave the events as they are *)

Ltac keep_step :=
  first [ solve [eauto with keeps]
        | apply keeps_ret; apply _ | apply keeps_throw; apply _ | apply keeps_lift; apply _ | apply keeps_reading; apply _
        | apply keeps_bind; [apply _| |intros ?]
        | apply keeps_ignoring
        | apply keeps_collect; [apply _|intros ?]
        | apply keeps_for_each; [apply _|intros ?]
        | case_match ].
Ltac keep := repeat keep_step.
(** From a state on. *)
Ltac keep_here := match goal with |- ?R ?s (snd (?m ?s)) => cut (keeps R m); [intros Hkeeps; apply Hkeeps|keep] end.

Section numbering.
Context `{Engine, JsonParser, Identifiers}.
Implicit Types (x : Short) (ty key : string).

(** Types and state keys keep their numbers. *)
Definition more_keys x x' : Prop := ∀ ty key k, get_shortstatekey x ty key = Ok k → get_shortstatekey x' ty key = Ok k.

#[export] Instance more_keys_preorder : PreOrder more_keys.
Proof. split; [by intros x ty key k|]. intros x y z Hxy Hyz ty key k Hk. by apply Hyz, Hxy. Qed.

Lemma same_keys x x' : statekey_shortstatekey x' = statekey_shortstatekey x → more_keys x x'.
Proof. intros He ty key k. unfold get_shortstatekey. by rewrite He. Qed.

(** A type and state key can be looked up once they are numbered. *)
Lemma number_key x ty key n x' :
  get_or_create_shortstatekey x ty key = Ok (n, x') → get_shortstatekey x' ty key = Ok n ∧ more_keys x x'.
Proof.
  unfold get_or_create_shortstatekey, BUFSIZE. destruct (get_shortstatekey x ty key) as [k|e] eqn:Hk; [by intros [= <- <-]|].
  unfold with_count. destruct (next_count (globals x)) as [[p d]|] eqn:Hn; [|done]. cbn [map_err fst snd].
  change (statekey ty key) with (STuple (SStr <$> [ty; key])). rewrite put_aput_strings, aput_put_strings. cbn [db_ map_err].
  destruct (drop_permit _ _) as [d'|]; [|done]. cbn [map_err]. intros [= <- <-].
  assert (permit_id p <= U64_MAX)%N as Hp.
  { revert Hn. unfold next_count, dispatch. destruct (_ <? U64_MAX)%N eqn:Hlt; [|done]. apply N.ltb_lt in Hlt.
    destruct (commit_count _ _); [|done]. cbn. intros [= <- _]. cbn. lia. }
  unfold more_keys, get_shortstatekey in *. cbn [with_globals with_statekeys statekey_shortstatekey].
  rewrite (qry_strings _ ty [key]) in Hk. rewrite (qry_strings _ ty [key]), table_put_rows.
  split; [rewrite lookup_insert_eq; by apply deserialized_u64_row|]. intros ty' key' k.
  rewrite !(qry_strings _ ty' [key']), table_put_rows.
  destruct (decide (record_bytes [ty'; key'] = record_bytes [ty; key])) as [->|]; [congruence|by rewrite lookup_insert_ne].
Qed.

Lemma create_event_keys x e n x' : create_shorteventid x e = Ok (n, x') → more_keys x x'.
Proof. intros Hc. apply same_keys. by eapply (create_shorteventid_field statekey_shortstatekey). Qed.
Lemma number_event_keys x e n x' : get_or_create_shorteventid x e = Ok (n, x') → more_keys x x'.
Proof. unfold get_or_create_shorteventid. destruct (get_shorteventid x e); [by intros [= _ <-]|]. apply create_event_keys. Qed.

Lemma number_room_keys x room n x' : get_or_create_shortroomid x room = Ok (n, x') → more_keys x x'.
Proof.
  unfold get_or_create_shortroomid, BUFSIZE. destruct (get_shortroomid x room); [by intros [= _ <-]|]. intros Hw. apply same_keys.
  eapply (with_count_field statekey_shortstatekey); [exact Hw|done|]. intros m t u. cbn beta. rewrite raw_aput_u64. by intros [= <-].
Qed.

Lemma create_events_keys l x r : shorts_or_create l x = Ok r → more_keys x r.2.
Proof.
  revert x r. induction l as [|[h e] l IH]; intros x r; cbn; [by intros [= <-]|]. destruct (short_or_create h e x) as [[n x1]|] eqn:Hs; [|done]. cbn.
  destruct (shorts_or_create l x1) as [r'|] eqn:Hl; [|done]. intros [= <-]. cbn. etrans; [|by apply (IH x1 r')]. unfold short_or_create in Hs.
  destruct h as [bytes|]; [|by eapply create_event_keys]. destruct (from_be_bytes 8 bytes); [|done]. by injection Hs as _ <-.
Qed.
Lemma number_chunks_keys chunks x r : multi_get_or_create_shorteventid chunks x = Ok r → more_keys x r.2.
Proof.
  revert x r. induction chunks as [|chunk chunks IH]; intros x r; cbn; [by intros [= <-]|].
  destruct (shorts_or_create _ x) as [r1|] eqn:H1a; [|done]. destruct (multi_get_or_create_shorteventid chunks r1.2) as [r2|] eqn:H2a; [|done].
  intros [= <-]. cbn. etrans; [by eapply create_events_keys|by eapply IH].
Qed.

Lemma number_events_keys l x r : number_events l x = Ok r → more_keys x r.2.
Proof.
  revert x r. induction l as [|e l IH]; intros x r; cbn; [by intros [= <-]|]. destruct (get_or_create_shorteventid x e) as [[n x1]|] eqn:Hn; [|done]. cbn.
  destruct (number_events l x1) as [r'|] eqn:Hl; [|done]. intros [= <-]. cbn. etrans; [by eapply number_event_keys|by apply (IH x1 r')].
Qed.
End numbering.

Section kept.
Context `{Engine, JsonParser, Identifiers, Lru}.
Implicit Types (tl : Timeline).

(** The same ids are in timelines and among outliers, and no row of an event
    is gone. *)
Record events_kept tl tl' : Prop := {
  kept_index : table_rows (eventid_pduid tl') = table_rows (eventid_pduid tl);
  kept_outliers : table_rows (eventid_outlierpdu tl') = table_rows (eventid_outlierpdu tl);
  kept_rows k : is_Some (table_rows (pduid_pdu tl) !! k) → is_Some (table_rows (pduid_pdu tl') !! k);
}.

#[export] Instance events_kept_preorder : PreOrder events_kept.
Proof.
  split; [by intros tl|]. intros x y z [Hi Ho Hr] [Hi' Ho' Hr']. split; [congruence|congruence|eauto].
Qed.

(** Nothing but new numbers and the cache of loaded states: all events, the
    states of rooms and those before events are as they were. *)
Definition settled tl tl' : Prop :=
  ∃ x c, tl' = with_states (with_cache c (with_shorts x (states tl))) tl ∧ more_keys (shorts_of tl) x.

#[export] Instance settled_preorder : PreOrder settled.
Proof.
  split.
  - intros tl. exists (shorts_of tl), (stateinfo_cache (states tl)). split; [|done]. by destruct tl as [[]].
  - intros t1 t2 t3 (x & c & -> & Hx) (x' & c' & -> & Hx'). exists x', c'. split; [done|]. by etrans.
Qed.

Lemma settled_loaded tl c : settled tl (with_states (with_cache c (states tl)) tl).
Proof. exists (shorts_of tl), c. split; [|done]. by destruct tl as [[]]. Qed.
Lemma settled_numbered tl x : more_keys (shorts_of tl) x → settled tl (with_states (with_shorts x (states tl)) tl).
Proof. intros Hx. exists x, (stateinfo_cache (states tl)). split; [|done]. by destruct tl as [[]]. Qed.
Lemma settled_cached tl tl' : cached tl tl' → settled tl tl'.
Proof. intros (st & -> & [[c ->] _]). apply settled_loaded. Qed.
Lemma settled_kept tl tl' : settled tl tl' → events_kept tl tl'.
Proof. by intros (x & c & -> & _). Qed.
End kept.

Section accessor_keeps.
Context `{Engine, JsonParser, Identifiers, Users, Lru, Digest, Formats, Ruma, !RoomContents}.
Variable late : string → bool.
Implicit Types (tl : Timeline).

Lemma keeps_load h : keeps settled (load_full_state h).
Proof.
  intros tl. unfold load_full_state. destruct (load_shortstatehash_info _ h) as [[stack st]|] eqn:Hl; [|done].
  apply load_only_caches in Hl as [c ->]. destruct (last stack); [apply settled_loaded|done].
Qed.
#[local] Hint Resolve keeps_load : keeps.

(** An operation that only reads. *)
Lemma keeps_look {E A} (f : Timeline → Result E A) : keeps settled (λ tl, (f tl, tl)).
Proof. by intros tl. Qed.
#[local] Hint Resolve keeps_look : keeps.

Lemma keeps_full_ids h : keeps settled (state_full_ids h).
Proof. unfold state_full_ids, or_nothing, state_full_shortids. keep. Qed.
Lemma keeps_state_get h ty key : keeps settled (state_get late h ty key).
Proof. unfold state_get, state_get_id, state_get_shortid, find_statekey. keep. Qed.
#[local] Hint Resolve keeps_full_ids keeps_state_get : keeps.
Lemma keeps_room_state_get room ty key : keeps settled (room_state_get late room ty key).
Proof. unfold room_state_get, room_state_hash. keep. Qed.
#[local] Hint Resolve keeps_room_state_get : keeps.
Lemma keeps_room_content {T} (read : Value → option T) room ty key : keeps settled (room_state_get_content late read room ty key).
Proof. unfold room_state_get_content. keep. Qed.
#[local] Hint Resolve keeps_room_content : keeps.
Lemma keeps_room_version room : keeps settled (get_room_version late room).
Proof. unfold get_room_version. keep. Qed.
#[local] Hint Resolve keeps_room_version : keeps.
Lemma keeps_version_rules room : keeps settled (get_room_version_rules late room).
Proof. unfold get_room_version_rules. keep. Qed.
Lemma keeps_power_levels room : keeps settled (get_power_levels late room).
Proof. unfold get_power_levels, get_create. keep. Qed.
#[local] Hint Resolve keeps_version_rules keeps_power_levels : keeps.
Lemma keeps_can_redact id sender room federation : keeps settled (user_can_redact late id sender room federation).
Proof.
  intros tl. unfold user_can_redact. destruct (is_kind _ ROOM_CREATE); [done|]. destruct (is_kind _ ROOM_SERVER_ACL); [done|].
  unfold get_create. keep_here.
Qed.
Lemma keeps_auth_events room kind sender state_key content rules include_create :
  keeps settled (get_auth_events late room kind sender state_key content rules include_create).
Proof.
  intros tl. unfold get_auth_events. case_match; [|done].
  unfold or_nothing, state_full_shortids. keep_here.
Qed.
End accessor_keeps.
#[export] Hint Resolve keeps_full_ids keeps_state_get keeps_room_state_get keeps_room_content keeps_room_version keeps_version_rules keeps_can_redact keeps_auth_events : keeps.

Section chains_keep.
Context `{Engine, JsonParser, Identifiers, Lru, Digest, !AuthRuma, !Completion}.
Variable run : Run.
Implicit Types (ac : AuthChains) (room : string).

Definition chains_kept {A} ac (r : Result ChainError (A * AuthChains)) : Prop :=
  ∀ x, r = Ok x → settled (timeline ac) (timeline x.2).

Lemma set_shorts_kept x ac : more_keys (chain_shorts ac) x → settled (timeline ac) (timeline (set_shorts x ac)).
Proof. apply settled_numbered. Qed.

Lemma chain_kept ac room e named : chains_kept ac (get_event_auth_chain run ac room e named).
Proof.
  unfold get_event_auth_chain. intros x. case_match; [|done]. destruct (number_events _ _) as [r|] eqn:Hn; [|done]. intros [= <-].
  by eapply set_shorts_kept, number_events_keys.
Qed.

Lemma put_cached_kept ac key chain ac' : put_cached_auth_chain ac key chain = Ok ac' → settled (timeline ac) (timeline ac').
Proof. unfold put_cached_auth_chain. case_match; [|done]. by intros [= <-]. Qed.

Lemma build_chain_kept ac room start named : chains_kept ac (build_chain run ac room start named).
Proof.
  unfold build_chain. intros x. destruct (get_cached_auth_chain ac [start.1]); [by intros [= <-]|].
  destruct (get_event_auth_chain _ _ _ _ _) as [r|] eqn:Er; [|done]. destruct (put_cached_auth_chain _ _ _) as [ac'|] eqn:Ep; [|done].
  intros [= <-]. cbn. etrans; [by eapply chain_kept|by eapply put_cached_kept].
Qed.

Lemma build_chains_kept starts ac room named : chains_kept ac (build_chains run starts ac room named).
Proof.
  revert ac. induction starts as [|start starts IH]; intros ac x; cbn; [by intros [= <-]|].
  destruct (build_chain _ _ _ _ _) as [a|] eqn:Ea; [|done]. destruct (build_chains _ _ _ _ _) as [b|] eqn:Eb; [|done].
  intros [= <-]. cbn. etrans; [by eapply build_chain_kept|]. by apply (IH a.2).
Qed.

Lemma chunk_kept ac room starts named : chains_kept ac (get_chunk_auth_chain run ac room starts named).
Proof.
  unfold get_chunk_auth_chain. intros x. destruct (get_cached_auth_chain ac _); [by intros [= <-]|].
  destruct (build_chains _ _ _ _ _) as [r|] eqn:Er; [|done]. destruct (put_cached_auth_chain _ _ _) as [ac'|] eqn:Ep; [|done].
  intros [= <-]. cbn. etrans; [by eapply build_chains_kept|by eapply put_cached_kept].
Qed.

Lemma bucket_chains_kept buckets ac room named : chains_kept ac (bucket_chains run buckets ac room named).
Proof.
  revert ac. induction buckets as [|bucket buckets IH]; intros ac x; cbn; [by intros [= <-]|].
  destruct (get_chunk_auth_chain _ _ _ _ _) as [a|] eqn:Ea; [|done]. destruct (bucket_chains _ _ _ _ _) as [b|] eqn:Eb; [|done].
  intros [= <-]. cbn. etrans; [by eapply chunk_kept|]. by apply (IH a.2).
Qed.

Lemma event_ids_kept ac room version l : chains_kept ac (event_ids_iter run ac room version l).
Proof.
  unfold event_ids_iter, get_auth_chain. intros x. destruct (ok_or _ _); [|done]. destruct (multi_get_or_create_shorteventid _ _) as [r|] eqn:Hm; [|done]. cbn [map_err].
  destruct (bucket_chains _ _ _ _ _) as [all|] eqn:Ea; [|done]. intros [= <-]. cbn [snd].
  etrans; [by eapply (set_shorts_kept r.2), number_chunks_keys|by eapply bucket_chains_kept].
Qed.
End chains_keep.

(** ** The server *)

Section server_keeps.
Context {W E : Type} `{Engine, JsonParser, Identifiers, Users, Lru, Digest, Formats, Ruma, !RoomContents, HashIter}.
Context `{!Services W E, !AppendContents, !OtherServices W, !HandlerContents, !AuthRuma, !Completion, PduJson}.
Variable late : string → bool.
Implicit Types (s : Server (W := W)) (p : Pdu) (room : string).
Notation M := (Op (ServerError (E := E)) (Server (W := W))).

Definition same_events s s' : Prop := events_kept (timeline_of s) (timeline_of s').

#[export] Instance same_events_preorder : PreOrder same_events.
Proof. split; [by intros s|]. intros x y z. unfold same_events. apply transitivity. Qed.

Lemma keeps_same {A} (f : Server (W := W) → Result (ServerError (E := E)) A * Server (W := W)) :
  (∀ s, timeline_of (f s).2 = timeline_of s) → keeps same_events f.
Proof. intros Hf s. unfold same_events. by rewrite Hf. Qed.

(** *** Reading and numbering *)

(** Events, states, notes, members and the other services are as they were. *)
Record steady s s' : Prop := {
  steady_timeline : settled (timeline_of s) (timeline_of s');
  steady_meta : meta s' = meta s;
  steady_members : members s' = members s;
  steady_outside : outside s' = outside s;
}.

#[export] Instance steady_preorder : PreOrder steady.
Proof. split; [by intros s; split|]. intros x y z [Ht] [Ht']. split; [by etrans|congruence..]. Qed.

Lemma steady_same s s' : steady s s' → same_events s s'.
Proof. intros [Ht _ _ _]. by apply settled_kept. Qed.
Lemma keeps_steady {A} (m : M A) : keeps steady m → keeps same_events m.
Proof. intros Hm s. apply steady_same, Hm. Qed.
Lemma steady_after {A} (m : M A) s r s' : keeps steady m → m s = (r, s') → steady s s'.
Proof. intros Hm Hr. specialize (Hm s). by rewrite Hr in Hm. Qed.

Lemma steady_fetch s s' id : steady s s' → event_fetch late s' id = event_fetch late s id.
Proof. intros [(x & c & Ht & _) _ _ _]. unfold event_fetch. by rewrite Ht. Qed.
Lemma steady_keys s s' : steady s s' → more_keys (shorts_of (timeline_of s)) (shorts_of (timeline_of s')).
Proof. intros [(x & c & Ht & Hx) _ _ _]. by rewrite Ht. Qed.

Lemma steady_accessing {A} (m : Op AccessError Timeline A) : keeps settled m → keeps steady (accessing m : M A).
Proof. intros Hm s. unfold accessing. specialize (Hm (timeline_of s)). by destruct (m (timeline_of s)) as [r tl]. Qed.
Lemma accessing_inv {A} (m : Op AccessError Timeline A) s a s' :
  (accessing m : M A) s = (Ok a, s') → (m (timeline_of s)).1 = Ok a.
Proof. unfold accessing. destruct (m (timeline_of s)) as [[x|e] tl]; cbn; congruence. Qed.
Lemma steady_number_event e : keeps steady (on_shorts (λ x, get_or_create_shorteventid x e) : M N).
Proof.
  intros s. unfold on_shorts. destruct (get_or_create_shorteventid _ e) as [[n x]|] eqn:Hn; [|done]. split; [|done..].
  by eapply settled_numbered, number_event_keys.
Qed.
Lemma steady_number_room room : keeps steady (on_shorts (λ x, get_or_create_shortroomid x room) : M N).
Proof.
  intros s. unfold on_shorts. destruct (get_or_create_shortroomid _ room) as [[n x]|] eqn:Hn; [|done]. split; [|done..].
  by eapply settled_numbered, number_room_keys.
Qed.
Lemma steady_looking {A} (f : Server (W := W) → Result (ServerError (E := E)) A) : keeps steady (λ s, (f s, s)).
Proof. by intros s. Qed.
Lemma steady_reads {A} (f : Timeline → Result DbError A) err : keeps steady (looking f err : M A).
Proof. by intros s. Qed.

(** *** Writing elsewhere *)

Lemma keeps_on_states {A} (f : RoomStates → Result StateError (A * RoomStates)) : keeps same_events (on_states f : M A).
Proof. intros s. unfold on_states. by destruct (f _) as [[a st]|]. Qed.
Lemma keeps_on_shorts {A} (f : Short → Result ServiceError (A * Short)) : keeps same_events (on_shorts f : M A).
Proof. intros s. unfold on_shorts. by destruct (f _) as [[a x]|]. Qed.
Lemma keeps_on_meta f : keeps same_events (on_meta f : M unit).
Proof. apply keeps_same. intros s. unfold on_meta. by destruct (f _). Qed.
Lemma keeps_asking f : keeps same_events (asking f : M unit).
Proof. by apply keeps_same. Qed.
Lemma replace_kept tl pdu_id json tl' : replace_pdu tl pdu_id json = Ok tl' → events_kept tl tl'.
Proof.
  unfold replace_pdu. rewrite raw_put_json. cbn. intros Hr.
  assert (tl' = with_pdus (table_put (pduid_pdu tl) (as_bytes pdu_id) json) tl) as -> by (repeat case_match; by simplify_eq).
  split; [done..|]. intros k Hk. cbn. rewrite table_put_rows, lookup_insert_is_Some'. by right.
Qed.

Lemma keeps_replace pdu_id json :
  keeps same_events (on_timeline (λ tl, let? next := replace_pdu tl pdu_id json in Ok (tt, next)) : M unit).
Proof. intros s. unfold on_timeline. destruct (replace_pdu _ _ _) eqn:Er; [|done]. by eapply replace_kept. Qed.
End server_keeps.
#[export] Hint Resolve keeps_steady steady_accessing steady_number_event steady_number_room steady_looking steady_reads : keeps.
#[export] Hint Resolve keeps_on_states keeps_on_shorts keeps_on_meta keeps_asking keeps_replace : keeps.

Section append_keeps.
Context {W E : Type} `{Engine, JsonParser, Identifiers, Users, Lru, Digest, Formats, Ruma, !RoomContents, HashIter}.
Context `{!Services W E, !AppendContents, !OtherServices W}.
Variable late : string → bool.
Implicit Types (s : Server (W := W)) (p : Pdu) (room : string).
Notation M := (Op (ServerError (E := E)) (Server (W := W))).

Lemma keeps_add_to_thread root p : keeps same_events (add_to_thread root p : M unit).
Proof. unfold add_to_thread. keep. Qed.

Lemma keeps_redact_pdu id p n : keeps same_events (redact_pdu late id p n : M unit).
Proof.
  intros s. unfold redact_pdu. destruct (get_pdu_id _ _) as [pdu_id|[]]; [keep_here|done..].
Qed.
#[local] Hint Resolve keeps_add_to_thread keeps_redact_pdu : keeps.

Lemma keeps_updating room user m sender state counted count : keeps same_events (updating room user m sender state counted count : M unit).
Proof. apply keeps_same. intros s. unfold updating. by destruct (update_membership _ _ _ _ _ _ _ _ _ _) as [r [mc w]]. Qed.
Lemma keeps_relate count id : keeps same_events (relate count id : M unit).
Proof. apply keeps_same. intros s. unfold relate, on_meta. repeat case_match; done. Qed.
#[local] Hint Resolve keeps_updating keeps_relate : keeps.

Lemma keeps_append_effects pdu_id p n count : keeps same_events (append_pdu_effects late pdu_id p n count : M unit).
Proof. unfold append_pdu_effects, redaction_effects, member_effects, message_effects. keep. Qed.

Lemma keeps_correct_unsigned p json : keeps same_events (correct_unsigned late p json : M _).
Proof.
  unfold correct_unsigned. do 2 (case_match; try solve [keep]). apply keeps_bind; [apply _| |intros; keep].
  apply keeps_steady, steady_accessing, keeps_ignoring. intros tl. case_match; [apply keeps_state_get|done].
Qed.

Lemma keeps_holding {A} n1 n2 (m : M A) : keeps same_events m → keeps same_events (holding n1 n2 m).
Proof.
  intros Hm s. specialize (Hm s). unfold holding. destruct (m s) as [r s']. cbn in Hm. case_match; [|done]. etrans; [exact Hm|done].
Qed.

Lemma keeps_counting {A} (m : N → M A) : (∀ n, keeps same_events (m n)) → keeps same_events (counting m).
Proof.
  intros Hm s. unfold counting. destruct (next_count _) as [[permit d]|]; [|done].
  specialize (Hm (permit_id permit) (with_timeline (set_data d (timeline_of s)) s)). destruct (m _ _) as [r s']. cbn in Hm.
  assert (same_events s s') by (etrans; [|exact Hm]; done). case_match; [|done]. etrans; [eassumption|done].
Qed.
#[local] Hint Resolve keeps_counting : keeps.

Lemma keeps_recount room : keeps same_events (recount room : M unit).
Proof. apply keeps_same. intros s. unfold recount. by case_match. Qed.
#[local] Hint Resolve keeps_recount : keeps.

Lemma keeps_force_state room h added : keeps same_events (force_state late room h added : M unit).
Proof. unfold force_state, force_event. keep. Qed.
End append_keeps.
#[export] Hint Resolve keeps_redact_pdu keeps_updating keeps_relate keeps_append_effects keeps_correct_unsigned keeps_holding keeps_force_state : keeps.

Section incoming_keeps.
Context {W E : Type} `{Engine, JsonParser, Identifiers, Users, Lru, Digest, Formats, Ruma, !RoomContents, HashIter}.
Context `{!Services W E, !AppendContents, !OtherServices W, !HandlerContents, !AuthRuma, !Completion, PduJson}.
Variable env : Env.
Implicit Types (s : Server (W := W)) (p : Pdu) (room origin version : string).
Notation M := (Op (ServerError (E := E)) (Server (W := W))).
Let late := AuthChain.late (chain_run env).

Lemma steady_ask : keeps steady (ask : M nat).
Proof. by intros s. Qed.
#[local] Hint Resolve steady_ask : keeps.
Lemma steady_check_running : keeps steady (check_running env : M bool).
Proof. unfold check_running. keep. Qed.
Lemma steady_cancel_back_off id : keeps steady (cancel_back_off id : M bool).
Proof. by intros s. Qed.
Lemma steady_back_off id : keeps steady (back_off env id : M bool).
Proof. apply keeps_bind; [apply _|keep|]. intros n s. by repeat case_match. Qed.
Lemma steady_is_backed_off id range : keeps steady (is_backed_off env id range : M bool).
Proof. apply keeps_bind; [apply _|keep|]. intros n s. by repeat case_match. Qed.
#[local] Hint Resolve steady_check_running steady_cancel_back_off steady_back_off steady_is_backed_off : keeps.

Lemma steady_acl_check server room : keeps steady (acl_check env server room : M unit).
Proof. unfold acl_check. keep. Qed.
#[local] Hint Resolve steady_acl_check : keeps.

Lemma steady_fetch_event origin version id : keeps steady (fetch_event env origin version id : M _).
Proof. unfold fetch_event. keep. Qed.
#[local] Hint Resolve steady_fetch_event : keeps.

Lemma steady_fetch_chain fuel origin version todo all found : keeps steady (fetch_chain env fuel origin version todo all found : M _).
Proof.
  revert todo all found. induction fuel as [|fuel IH]; intros [|next_id todo] all found; cbn [fetch_chain]; [keep..|]. keep.
Qed.
#[local] Hint Resolve steady_fetch_chain : keeps.

Lemma steady_fetch_auth_chain origin version id : keeps steady (fetch_auth_chain env origin version id : M _).
Proof. intros s. unfold fetch_auth_chain. do 2 (case_match; [done|]). keep_here. Qed.

Lemma steady_on_chains {A} (f : AuthChains → Result ChainError (A * AuthChains)) :
  (∀ ac, chains_kept ac (f ac)) → keeps steady (on_chains f : M A).
Proof. intros Hf s. unfold on_chains. destruct (f (chains s)) as [[a ac]|] eqn:Ef; [|done]. split; [exact (Hf _ _ Ef)|done..]. Qed.

Lemma steady_auth_set room version l : keeps steady (auth_set env room version l : M _).
Proof. unfold auth_set. apply keeps_bind; [apply _| |keep]. apply steady_on_chains. intros ac. apply event_ids_kept. Qed.
Lemma steady_number_statekey ty key : keeps steady (number_statekey ty key : M N).
Proof.
  intros s. unfold number_statekey, on_shorts. destruct (get_or_create_shortstatekey _ ty key) as [[n x]|] eqn:Hn; [|done]. split; [|done..].
  by eapply settled_numbered, number_key.
Qed.
Lemma steady_state_resolution version sets chains : keeps steady (state_resolution env version sets chains : M _).
Proof. unfold state_resolution. apply keeps_bind; [apply _|keep|]. intros rules s. by repeat case_match. Qed.
#[local] Hint Resolve steady_auth_set steady_number_statekey steady_state_resolution : keeps.
Lemma steady_state_after p l : keeps steady (state_after p l : M _).
Proof. unfold state_after. keep. Qed.
#[local] Hint Resolve steady_state_after : keeps.
Lemma steady_fork room version fork : keeps steady (state_at_incoming_fork env room version fork : M _).
Proof. unfold state_at_incoming_fork, keyed_state. keep. Qed.
#[local] Hint Resolve steady_fork : keeps.
Lemma steady_degree_one p : keeps steady (state_at_incoming_degree_one env p : M _).
Proof. intros s. unfold state_at_incoming_degree_one. case_match; [|done]. case_match; [keep_here|by case_match]. Qed.
Lemma steady_resolved p room version : keeps steady (state_at_incoming_resolved env p room version : M _).
Proof. unfold state_at_incoming_resolved. keep. Qed.
Lemma steady_gather_state l state : keeps steady (gather_state l state : M _).
Proof. revert state. induction l as [|p l IH]; intros state; cbn [gather_state]; keep. Qed.

Lemma steady_auth_check_outlier room p rules state : keeps steady (auth_check_outlier_pdu env room p rules state : M _).
Proof. unfold auth_check_outlier_pdu. keep. Qed.
Lemma steady_compute_soft_fail p rules json : keeps steady (compute_soft_fail env p rules json : M _).
Proof. unfold compute_soft_fail. keep. Qed.
Lemma steady_extremities room p : keeps steady (compute_remaining_extremities room p : M _).
Proof. unfold compute_remaining_extremities. keep. Qed.
Lemma steady_admit origin room json : keeps steady (admit_event env origin room json : M _).
Proof. unfold admit_event. keep. Qed.

Lemma keeps_compress_all l : keeps same_events (compress_all env l : M _).
Proof. unfold compress_all. keep. Qed.
#[local] Hint Resolve keeps_compress_all : keeps.
Lemma keeps_resolve_state room version state : keeps same_events (resolve_state env room version state : M _).
Proof. unfold resolve_state, keyed_state, number_state. keep. Qed.
#[local] Hint Resolve keeps_resolve_state : keeps.
Lemma keeps_resolve_and_force room version p state : keeps same_events (resolve_and_force_state_after env room version p state : M _).
Proof. unfold resolve_and_force_state_after. keep. Qed.
End incoming_keeps.
#[export] Hint Resolve steady_ask steady_check_running steady_cancel_back_off steady_back_off steady_is_backed_off steady_fetch_event steady_fetch_chain steady_fetch_auth_chain steady_auth_set steady_number_statekey steady_state_resolution steady_state_after steady_fork steady_degree_one steady_resolved steady_gather_state steady_auth_check_outlier steady_compute_soft_fail steady_extremities steady_admit keeps_compress_all keeps_resolve_and_force : keeps.
