(* ===== verification/Entry.v ===== *)
(** * How an event of another server comes into a room

    The steps of [Incoming] as a relation.  The state is the server with the
    events that have been checked so far.  An event is first kept as an outlier,
    when its signature, its form and its own auth events allow it ([storing]);
    it enters a timeline from there, when the state before it and the current
    state of the room allow it too ([handling]).  All is read from the server
    as it is at that step.

    [tracked] relates operations to these steps. *)

From S2P Require Import Prelude Effects Bytes Slices SetOps DbCodec DbMap Pairs Counter Short Compressor RoomStates PduId Timeline AuthChain MemberCache RoomMeta Json Sender Core RoomEvents RoomAuth RoomSort RoomResolve PduFormat StateAccessor Append Incoming EventFrames.

Section entry.
Context {W E : Type} `{Engine, JsonParser, Identifiers, Users, Lru, Digest, Formats, Ruma, !RoomContents, HashIter}.
Context `{!Services W E, !AppendContents, !OtherServices W, !HandlerContents, !AuthRuma, !Completion, PduJson}.
Variable env : Env.
Implicit Types (s t : Server (W := W)) (p q : Pdu) (room origin version create : string) (json : CanonicalJsonObject) (rules : PduRules).
Notation M := (Op (ServerError (E := E)) (Server (W := W))).
Notation Events := (list (Pdu * CanonicalJsonObject)).
Implicit Types (v : Events).
Let late := AuthChain.late (chain_run env).

Definition placed s (id : string) : Prop := is_Some (table_rows (eventid_pduid (timeline_of s)) !! id).
Definition outlier s (id text : string) : Prop := table_rows (eventid_outlierpdu (timeline_of s)) !! id = Some text.

(** ** Outliers *)

(** The event was read from an object whose id is its own and which has a good
    signature, from the redacted object where the hash is wrong; it is
    well-formed for its room, and the auth events it names, as [t] has them,
    allow it. *)
Definition checked version t p json : Prop :=
  ∃ rules n object verified auth_events,
    rules_of version = Some rules
    ∧ gen_event_id object version = Ok (pdu_event_id p)
    ∧ match verify_event env n (delete "unsigned" object) version with
      | Some VerifiedAll => verified = delete "unsigned" object
      | Some VerifiedSignatures => redact env (delete "unsigned" object) rules = Some verified
      | None => False
      end
    ∧ from_object_federation (pdu_room_id p) (pdu_event_id p) verified rules = Some (Ok (p, json))
    ∧ own_auth_events env t rules p = Some auth_events
    ∧ authorise (E := E) env t rules p (state_of auth_events) = Ok tt.

(** A step leaves timelines and outliers as they are, or keeps an outlier that
    it has checked. *)
Inductive storing room version : relation (Events * Server (W := W)) :=
  | store_nothing v t t' : same_events t t' → storing room version (v, t) (v, t')
  | store_outlier v t p json tl :
      checked version t p json → pdu_room_id p = room → ¬ placed t (pdu_event_id p) →
      add_pdu_outlier (timeline_of t) (pdu_event_id p) (object_text json) = Ok tl →
      storing room version (v, t) ((p, json) :: v, with_timeline tl t).

(** ** The state before an event *)

Definition numbered_as t (ty key : string) (k : N) : Prop := get_shortstatekey (shorts_of (timeline_of t)) ty key = Ok k.

(** The state after [q], when the state before it has the number [h]: as read
    in [t], with [q] in its place if it is a state event. *)
Definition state_past t t' (h : N) q (l : list (N * string)) : Prop :=
  steady t t' ∧ ∃ before, (state_full_ids h (timeline_of t)).1 = Ok before
    ∧ match pdu_state_key q with
      | None => l = before
      | Some key => ∃ k, numbered_as t' (pdu_kind q) key k ∧ l = before ++ [(k, pdu_event_id q)]
      end.

(** The state after a previous event by types and state keys, and the events
    its auth chains have. *)
Definition fork_state room version t t' (fork : N * Pdu) (x : RoomState * AuthSet) : Prop :=
  ∃ t1 t2 t3 l ids ac,
    steady t t1 ∧ state_past t1 t2 fork.1 fork.2 l
    ∧ event_ids_iter (chain_run env) (chains t2) room version (cut env _ l.*2) = Ok (ids, ac) ∧ x.2 = list_to_set ids
    ∧ steady t2 t3 ∧ keyed_state (E := E) (complete l) t3 = (Ok x.1, t3) ∧ steady t3 t'.

(** A previous event for each of the states before previous events. *)
Definition one_each t (prevs : list string) (forks : list (N * Pdu)) : Prop :=
  (∀ x, x ∈ forks → ∃ e, e ∈ prevs ∧ state_at (timeline_of t) e = Ok x.1 ∧ event_fetch late t e = Ok x.2)
  ∧ (∀ e, e ∈ prevs → ∃ x, x ∈ forks ∧ state_at (timeline_of t) e = Ok x.1)
  ∧ NoDup forks.*1.

(** The entries of a state under the numbers of their types and state keys. *)
Definition state_numbered t (state : RoomState) (numbered : gmap N string) : Prop :=
  (∀ k id, numbered !! k = Some id → ∃ x, state !! x = Some id ∧ numbered_as t x.1 x.2 k)
  ∧ ∀ x id, state !! x = Some id → ∃ k, numbered_as t x.1 x.2 k ∧ is_Some (numbered !! k).

(** State events, each the only one in its place. *)
Definition state_gathered t (l : list Pdu) (numbered : gmap N string) : Prop :=
  (∀ q, q ∈ l → ∃ key k, pdu_state_key q = Some key ∧ numbered_as t (pdu_kind q) key k ∧ numbered !! k = Some (pdu_event_id q))
  ∧ ∀ k id, numbered !! k = Some id → ∃ q, q ∈ l ∧ pdu_event_id q = id.

(** The state before [p]: the state after its previous event; the resolution of
    the states after its previous events; or, where that is not to be had, the
    state that the other server names, of events that are known or checked now,
    which has the room's own create event. *)
Inductive before_event origin room version create v t p : gmap N string → Events → Server (W := W) → Prop :=
  | before_one e h q l t' :
      pdu_prev_events p = [e] → state_at (timeline_of t) e = Ok h → event_fetch late t e = Ok q →
      state_past t t' h q l → before_event origin room version create v t p (collect_map l) v t'
  | before_forks rules forks sets new state t' :
      length (pdu_prev_events p) ≠ 1 → one_each t (pdu_prev_events p) forks → Forall2 (fork_state room version t t') forks sets →
      steady t t' → rules_of version = Some rules →
      resolve (version_rules rules) (fetching env t) (event_exists env t) (subgraph_width env) (subgraph_fuel env)
        (subgraph_schedule env) (sort_fuel env) sets.*1 sets.*2 (hydra_backports env) = Some (Ok new) →
      state_numbered t' new state → before_event origin room version create v t p state v t'
  | before_asked n ids l state k v' t' :
      (∀ e h, pdu_prev_events p = [e] → state_at (timeline_of t) e ≠ Ok h) →
      federation_state_ids env n origin room (pdu_event_id p) = Some ids →
      (∀ q, q ∈ l → ∃ id, id ∈ ids ∧ (event_fetch late t id = Ok q ∨ pdu_event_id q = id ∧ ∃ json, (q, json) ∈ v')) →
      rtc (storing room version) (v, t) (v', t') →
      state_gathered t' l state → numbered_as t' ROOM_CREATE "" k → state !! k = Some create →
      before_event origin room version create v t p state v' t'.

(** ** Timelines *)

(** A checked event enters the timeline when it is allowed by the state before
    it and, at the same time, by the current state of the room; when its sender
    may redact what it redacts; and when the policy server does not object. *)
Inductive entering origin room version create p : relation (Events * Server (W := W)) :=
  | enter v t json rules state v1 t1 auth_events t2 t3 n json' x t4 :
      (p, json) ∈ v → pdu_room_id p = room → ¬ placed t (pdu_event_id p) → rules_of version = Some rules →
      before_event origin room version create v t p state v1 t1 →
      authorise (E := E) env t1 rules p (state_before env t1 state) = Ok tt →
      accessing (E := E) (get_auth_events late room (pdu_kind p) (pdu_sender p) (pdu_state_key p) (pdu_content p)
        (authorization (version_rules rules)) true) t1 = (Ok auth_events, t2) →
      authorise (E := E) env t2 rules p (state_among auth_events) = Ok tt →
      (∀ id, redacts_id p rules = Some id → (user_can_redact late id (pdu_sender p) room true (timeline_of t2)).1 = Ok true) →
      (policy_invalid env (answered t2) json p).1 = false →
      same_events t2 t3 → inserting (E := E) n p json' t3 = (Ok x, t4) →
      entering origin room version create p (v, t) (v1, t4).

Inductive handling origin room version create : relation (Events * Server (W := W)) :=
  | handle_stored c c' : storing room version c c' → handling origin room version create c c'
  | handle_entered p c c' : entering origin room version create p c c' → handling origin room version create c c'.

(** ** Admission *)

(** The access list of the room, if there is one, lets the server in. *)
Definition acl_allows s room (server : string) : Prop :=
  ∃ t, steady s t ∧ ∀ acl, (room_state_get_content late content_acl room ROOM_SERVER_ACL "" (timeline_of t)).1 = Ok acl →
    acl_allow acl = [] ∨ "*" ∈ acl_deny acl ∧ "*" ∈ acl_allow acl ∨ acl_is_allowed acl server = true.

(** The room is known and open to other servers, the access list lets in the
    server that sends the event and the one of its sender, and [create] is the
    create event in the current state of the room. *)
Record admitted s origin room json (create : Pdu) : Prop := {
  admitted_known : room_exists (timeline_of s) room = Ok true;
  admitted_open : is_disabled (meta s) room = false;
  admitted_servers : ∃ sender, json !! "sender" ≫= de_id user_id_ok = Some sender
    ∧ acl_allows s room origin ∧ acl_allows s room (server_name sender);
  admitted_create : ∃ t, steady s t ∧ (room_state_get late room ROOM_CREATE "" (timeline_of t)).1 = Ok create;
}.

(** ** Soundness *)

(** Events in a timeline have a row there and are not outliers; outliers are
    among the events that have been checked. *)
Record sound v s : Prop := {
  sound_index id raw : table_rows (eventid_pduid (timeline_of s)) !! id = Some raw →
    is_Some (raw_from_bytes raw) ∧ is_Some (table_rows (pduid_pdu (timeline_of s)) !! raw);
  sound_apart id text : outlier s id text → ¬ placed s id;
  sound_outlier id text : outlier s id text → ∃ p json, (p, json) ∈ v ∧ pdu_event_id p = id ∧ text = object_text json;
  sound_checked p json : (p, json) ∈ v → ∃ version t, checked version t p json;
}.

Lemma same_placed s s' id : same_events s s' → placed s' id ↔ placed s id.
Proof. intros [Hi _ _]. unfold placed. by rewrite Hi. Qed.
Lemma same_sound v s s' : same_events s s' → sound v s → sound v s'.
Proof.
  intros [Hi Ho Hr] [H1a H2a H3a H4a]. unfold placed, outlier in *. split; [| | |done].
  - intros id raw. rewrite Hi. intros Hid. destruct (H1a id raw Hid). eauto.
  - unfold outlier, placed. rewrite Hi, Ho. apply H2a.
  - unfold outlier. rewrite Ho. apply H3a.
Qed.

(** What [storing] leads to: more events are checked, and none is in a timeline
    that was not. *)
Record stored (c c' : Events * Server (W := W)) : Prop := {
  stored_more x : x ∈ c.1 → x ∈ c'.1;
  stored_placed id : placed c'.2 id ↔ placed c.2 id;
  stored_sound : sound c.1 c.2 → sound c'.1 c'.2;
}.

#[local] Instance stored_preorder : PreOrder stored.
Proof.
  split; [by intros c|]. intros x y z [Hm Hp Hs] [Hm' Hp' Hs']. split; [auto| |auto]. intros id. by rewrite Hp'.
Qed.

Lemma storing_stored room version c c' : storing room version c c' → stored c c'.
Proof.
  intros [v t t' Hsame|v t p json tl Hc Hroom Hn Hadd].
  - split; [done|intros id; by apply same_placed|by apply same_sound].
  - unfold add_pdu_outlier in Hadd. rewrite raw_put_json in Hadd. injection Hadd as <-. split; cbn [fst snd]; [by right|done|].
    intros [Hi Ha Ho Hv]. split; [done|..].
    + intros id text. unfold outlier, placed in *. cbn. rewrite table_put_rows. destruct (decide (id = pdu_event_id p)) as [->|]; [by intros _|].
      rewrite lookup_insert_ne by done. apply Ha.
    + intros id text. unfold outlier in *. cbn. rewrite table_put_rows. destruct (decide (id = pdu_event_id p)) as [->|].
      * rewrite lookup_insert_eq. intros [= <-]. exists p, json. split_and!; [by left|done..].
      * rewrite lookup_insert_ne by done. intros (q & json' & Hin & Hq)%Ho. exists q, json'. split; [by right|done].
    + intros q json' [[= -> ->]|Hin]%elem_of_cons; [by exists version, t|by apply Hv].
Qed.

Lemma rtc_stored room version c c' : rtc (storing room version) c c' → stored c c'.
Proof. induction 1 as [|x y z Hxy _ IH]; [done|]. etrans; [by eapply storing_stored|exact IH]. Qed.

Lemma steady_storing room version v t t' : steady t t' → rtc (storing room version) (v, t) (v, t').
Proof. intros Hs. by apply rtc_once, store_nothing, steady_same. Qed.

Lemma before_stored origin room version create v t p state v' t' :
  before_event origin room version create v t p state v' t' → rtc (storing room version) (v, t) (v', t').
Proof. intros [????? ??? [Hs _]| |]; [by apply steady_storing..|done]. Qed.

(** An event that enters is in a timeline, and no other. *)
Lemma inserting_placed n p json s x s' :
  inserting n p json s = (Ok x (E := ServerError (E := E)), s') → ∀ id, placed s' id ↔ id = pdu_event_id p ∨ placed s id.
Proof.
  unfold inserting, insert_pdu, append_pdu_json. destruct (next_count _) as [p1|]; [|done]. cbn [map_err].
  destruct (next_count p1.2) as [p2|]; [|done]. cbn [map_err]. rewrite prepend_eq. intros [= _ <-] id. unfold placed. cbn.
  rewrite table_put_rows, lookup_insert_is_Some'. split; (intros [?|?]; [left; congruence|by right]).
Qed.

Lemma inserting_sound v n p json s x s' :
  inserting n p json s = (Ok x (E := ServerError (E := E)), s') → sound v s → sound v s'.
Proof.
  unfold inserting, insert_pdu, append_pdu_json. destruct (next_count _) as [p1|]; [|done]. cbn [map_err].
  destruct (next_count p1.2) as [p2|]; [|done]. cbn [map_err]. rewrite prepend_eq. cbn [snd]. set (raw := raw_from_id _).
  assert (raw_from_bytes (as_bytes raw) = Some raw) as Hraw by apply raw_from_key. clearbody raw. intros [= _ <-] [Hi Ha Ho Hv]. split; [| | |done].
  - intros id k. cbn. rewrite !table_put_rows. destruct (decide (id = pdu_event_id p)) as [->|].
    + rewrite lookup_insert_eq. intros [= <-]. rewrite Hraw, lookup_insert_eq. done.
    + rewrite lookup_insert_ne by done. intros [? ?]%Hi. split; [done|]. rewrite lookup_insert_is_Some'. by right.
  - intros id text. unfold outlier, placed. cbn. rewrite table_del_rows, table_put_rows. intros [Hne Hid]%lookup_delete_Some.
    rewrite lookup_insert_ne by done. by eapply Ha.
  - intros id text. unfold outlier. cbn. rewrite table_del_rows. intros [_ Hid]%lookup_delete_Some. by apply Ho.
Qed.

(** Steps keep soundness, and no event is forgotten to have been checked. *)
Lemma entering_sound origin room version create p c c' : entering origin room version create p c c' →
  (∀ x, x ∈ c.1 → x ∈ c'.1) ∧ (sound c.1 c.2 → sound c'.1 c'.2) ∧ ∀ id, placed c'.2 id ↔ id = pdu_event_id p ∨ placed c.2 id.
Proof.
  intros [v t json rules state v1 t1 auth_events t2 t3 n json' x t4 Hp Hroom Hn Hr Hb _ Ha _ _ _ Hs Hi]. cbn [fst snd].
  apply before_stored, rtc_stored in Hb. assert (same_events t1 t2) as S2 by (eapply steady_same, steady_after; [|exact Ha]; eauto with keeps).
  split_and!; [apply (stored_more _ _ Hb)| |].
  - intros Hsound. eapply inserting_sound; [exact Hi|]. eapply same_sound; [exact Hs|]. eapply same_sound; [exact S2|]. by apply (stored_sound _ _ Hb).
  - intros id. rewrite (inserting_placed _ _ _ _ _ _ Hi), (same_placed _ _ _ Hs), (same_placed _ _ _ S2). by rewrite (stored_placed _ _ Hb).
Qed.

Lemma handling_sound origin room version create c c' :
  rtc (handling origin room version create) c c' → (∀ x, x ∈ c.1 → x ∈ c'.1) ∧ (sound c.1 c.2 → sound c'.1 c'.2).
Proof.
  induction 1 as [|x y z [c1 c2 Hst%storing_stored|p c1 c2 (Hm & Hs & _)%entering_sound] _ [IHm IHs]]; [done|..].
  - destruct Hst as [Hm _ Hs]. split; auto.
  - split; auto.
Qed.

(** An event that is in a timeline after some steps was there before, or has
    entered on the way. *)
Lemma handling_placed origin room version create c c' id :
  rtc (handling origin room version create) c c' → placed c'.2 id →
  placed c.2 id ∨ ∃ c1 c2 p, pdu_event_id p = id ∧ rtc (handling origin room version create) c c1
    ∧ entering origin room version create p c1 c2 ∧ rtc (handling origin room version create) c2 c'.
Proof.
  induction 1 as [c|x y z Hxy Hyz IH]; [by left|]. intros [Hy|(c1 & c2 & p & Hp & R1 & He & R2)]%IH.
  - destruct Hxy as [c1 c2 Hst%storing_stored|p c1 c2 He]; [left; by apply (stored_placed _ _ Hst)|].
    pose proof (entering_sound _ _ _ _ _ _ _ He) as (_ & _ & Hpl). apply Hpl in Hy as [->|Hy]; [|by left]. right. by exists c1, c2, p.
  - right. exists c1, c2, p. split_and!; [done| |done..]. by eapply rtc_l.
Qed.

(** ** Operations *)

(** The operation goes from [s] by such steps, with a postcondition on what has
    been checked, the result and the server after it. *)
Definition tracked {A} (step : relation (Events * Server (W := W))) v s (m : M A) (Q : Events → A → Server (W := W) → Prop) : Prop :=
  ∃ v', rtc step (v, s) (v', (m s).2) ∧ ∀ a, (m s).1 = Ok a → Q v' a (m s).2.

Section tracked.
Variable step : relation (Events * Server (W := W)).
Context {A B : Type}.
Implicit Types (Q : Events → A → Server (W := W) → Prop) (R : Events → B → Server (W := W) → Prop).

Lemma tracked_bind v s (m : M A) (k : A → M B) Q R :
  tracked step v s m Q → (∀ v1 a s1, rtc step (v, s) (v1, s1) → Q v1 a s1 → tracked step v1 s1 (k a) R) → tracked step v s (bind m k) R.
Proof.
  intros (v1 & Hs & HQ) Hk. unfold tracked, bind. destruct (m s) as [[a|e] s1]; cbn in Hs, HQ.
  - destruct (Hk v1 a s1 Hs (HQ a eq_refl)) as (v2 & Hs2 & HR). exists v2. split; [by etrans|done].
  - by exists v1.
Qed.
Lemma tracked_mono v s (m : M A) Q Q' :
  tracked step v s m Q → (∀ v1 a s1, rtc step (v, s) (v1, s1) → Q v1 a s1 → Q' v1 a s1) → tracked step v s m Q'.
Proof. intros (v1 & Hs & HQ) Hm. exists v1. split; [done|]. intros a Ha. apply Hm; [done|by apply HQ]. Qed.
Lemma tracked_ret v s (a : A) Q : Q v a s → tracked step v s (ret a) Q.
Proof. intros HQ. exists v. split; [done|]. by intros b [= <-]. Qed.
Lemma tracked_throw v s e Q : tracked step v s (throw e) Q.
Proof. by exists v. Qed.
Lemma tracked_ok_or v s e (o : option A) : tracked step v s (lift (ok_or e o)) (λ v' a s', v' = v ∧ s' = s ∧ o = Some a).
Proof. exists v. split; [done|]. destruct o; by intros b [= <-]. Qed.
Lemma tracked_map_err {F} v s (f : F → ServerError (E := E)) (r : Result F A) :
  tracked step v s (lift (map_err f r)) (λ v' a s', v' = v ∧ s' = s ∧ r = Ok a).
Proof. exists v. split; [done|]. destruct r; by intros b [= <-]. Qed.
Lemma tracked_look v s (f : Server (W := W) → Result (ServerError (E := E)) A) : tracked step v s (λ s, (f s, s)) (λ v' a s', v' = v ∧ s' = s ∧ f s = Ok a).
Proof. by exists v. Qed.

Lemma tracked_ignoring v s (m : M A) Q :
  tracked step v s m Q → tracked step v s (ignoring m) (λ v' o s', ∀ a, o = Some a → Q v' a s').
Proof.
  intros (v1 & Hs & HQ). exists v1. unfold ignoring. destruct (m s) as [[a|e] s1]; cbn in *.
  - split; [done|]. intros o [= <-] b [= <-]. by apply HQ.
  - destruct (is_panic e); (split; [done|]); [done|by intros o [= <-]].
Qed.
End tracked.

(** Steps that change no event. *)
Class Idle (step : relation (Events * Server (W := W))) := idle v t t' : same_events t t' → step (v, t) (v, t').
#[export] Instance storing_idle room version : Idle (storing room version).
Proof. intros v t t'. apply store_nothing. Qed.
#[export] Instance handling_idle origin room version create : Idle (handling origin room version create).
Proof. intros v t t' Hs. by apply handle_stored, store_nothing. Qed.

Lemma tracked_keeps {A} step `{!Idle step} v s (m : M A) :
  keeps same_events m → tracked step v s m (λ v' a s', v' = v ∧ m s = (Ok a, s')).
Proof.
  intros Hm. exists v. split; [by apply rtc_once, idle|]. intros a Ha. split; [done|]. by destruct (m s) as [r s']; cbn in *; subst.
Qed.

Lemma tracked_handling {A} origin room version create v s (m : M A) Q :
  tracked (storing room version) v s m Q → tracked (handling origin room version create) v s m Q.
Proof. intros (v' & Hs & HQ). exists v'. split; [|done]. eapply rtc_subrel; [|exact Hs]. apply handle_stored. Qed.

End entry.

(** ** Operations that may add an event *)

Section adding.
Context {W E : Type} `{Engine, JsonParser, Identifiers, Users, Lru, Digest, Formats, Ruma, !RoomContents, HashIter}.
Context `{!Services W E, !AppendContents, !OtherServices W}.
Implicit Types (s t : Server (W := W)) (p : Pdu) (json : CanonicalJsonObject).
Notation M := (Op (ServerError (E := E)) (Server (W := W))).

(** [p] and no other event is put into its timeline, once, or none is. *)
Definition adds {A} p (m : M A) : Prop := ∀ s,
  same_events s (m s).2
  ∨ ∃ t n json x t', same_events s t ∧ inserting n p json t = (Ok x (E := ServerError (E := E)), t') ∧ same_events t' (m s).2.

Lemma adds_keeps {A} p (m : M A) : keeps same_events m → adds p m.
Proof. intros Hm s. left. apply Hm. Qed.
Lemma adds_later {A B} p (m : M A) (k : A → M B) : keeps same_events m → (∀ a, adds p (k a)) → adds p (bind m k).
Proof.
  intros Hm Hk s. specialize (Hm s). unfold bind. destruct (m s) as [[a|e] s1]; cbn in Hm; [|by left].
  destruct (Hk a s1) as [Hs|(t & n & json & x & t' & Ht & Hi & Ht')]; [left; by etrans|]. right. exists t, n, json, x, t'. split; [by etrans|done].
Qed.
Lemma adds_first {A B} p (m : M A) (k : A → M B) : adds p m → (∀ a, keeps same_events (k a)) → adds p (bind m k).
Proof.
  intros Hm Hk s. specialize (Hm s). unfold bind. destruct (m s) as [[a|e] s1]; cbn in Hm; [|done]. specialize (Hk a s1).
  destruct Hm as [Hs|(t & n & json & x & t' & Ht & Hi & Ht')]; [left; by etrans|]. right. exists t, n, json, x, t'. split_and!; [done..|by etrans].
Qed.

Lemma adds_append (late : string → bool) p json leafs : adds p (append_pdu late p json leafs : M _).
Proof.
  unfold append_pdu, set_leaves. repeat (apply adds_later; [solve [keep]|intros ?]).
  apply adds_first; [|intros [pdu_id [n1 n2]]; apply keeps_bind; [apply _|apply keeps_holding; keep|intros _; keep]].
  intros s. destruct (inserting _ p _ s) as [[x|e] s'] eqn:Hi; [right; by eexists s, _, _, x, s'|left].
  revert Hi. unfold inserting. destruct (insert_pdu _ _ _ _ _ _) as [[x [tl w]]|]; [done|]. by intros [= _ <-].
Qed.

Lemma adds_placed {A} p (m : M A) s id : adds p m → placed (m s).2 id → placed s id ∨ id = pdu_event_id p.
Proof.
  intros Hm. destruct (Hm s) as [Hs|(t & n & json & x & t' & Ht & Hi & Ht')]; [rewrite (same_placed _ _ _ Hs); by left|].
  rewrite (same_placed _ _ _ Ht'), (inserting_placed _ _ _ _ _ _ Hi), (same_placed _ _ _ Ht). tauto.
Qed.
End adding.
