(* ===== verification/Accepted.v ===== *)
(** * What it takes for an event to enter a room

    The theorems on [Incoming]: whatever other servers answer, the handler goes
    by the steps of [Entry], so that an event of another server is in a timeline
    only after its signature, its format, its auth events, the state before it
    and the current state have been checked; and the loops that fetch events
    end. *)

From S2P Require Import Prelude Effects Bytes Slices SetOps DbCodec DbMap Pairs Counter Short Compressor RoomStates PduId Timeline AuthChain MemberCache RoomMeta Json Sender Core RoomEvents RoomAuth RoomSort RoomResolve PduFormat StateAccessor Append Incoming EventFrames Entry.

Section accepted.
Context {W E : Type} `{Engine, JsonParser, Identifiers, Users, Lru, Digest, Formats, Ruma, !RoomContents, HashIter}.
Context `{!Services W E, !AppendContents, !OtherServices W, !HandlerContents, !AuthRuma, !Completion, PduJson}.
Variable env : Env.
(** Redaction keeps the id that an event of an old room version carries. *)
Hypothesis redact_event_id : ∀ json rules json', redact env json rules = Some json' → json' !! "event_id" = json !! "event_id".
Implicit Types (s t : Server (W := W)) (p q : Pdu) (room origin version create : string) (json : CanonicalJsonObject) (rules : PduRules).
Notation M := (Op (ServerError (E := E)) (Server (W := W))).
Notation Events := (list (Pdu * CanonicalJsonObject)).
Implicit Types (v : Events).
Notation sound := (sound (E := E) env).
Notation checked := (checked (E := E) env).
Notation storing := (storing (E := E) env).
Notation handling := (handling (E := E) env).
Notation before_event := (before_event (E := E) env).
Notation tracked := (tracked (E := E)).
Let late := AuthChain.late (chain_run env).

(** ** The id of an event *)

(** An event of a room version whose events carry their ids has this one. *)
Definition names_event version json (id : string) : Prop :=
  ∀ rules x, rules_of version = Some rules → require_event_id (event_format rules) = true →
    json !! "event_id" ≫= as_str = Some x → x = id.

Lemma gen_names version json id : gen_event_id json version = Ok id → names_event version json id.
Proof.
  unfold gen_event_id, room_version_rules. intros Hg rules x Hr Hq Hv. rewrite Hr in Hg. cbn in Hg. rewrite Hq, Hv in Hg.
  by destruct (event_id_ok x); [injection Hg|].
Qed.

Lemma incoming_field room id json rules json' :
  from_incoming_federation room id json rules = Some json' →
  json' !! "event_id" = if require_event_id (event_format rules) then json !! "event_id" else Some (Str id).
Proof.
  unfold from_incoming_federation.
  assert ((if references_v1 rules then mutate_references mutate_incoming_reference_format json else json) !! "event_id" = json !! "event_id") as Hm.
  { destruct (references_v1 rules); [|done]. unfold mutate_references. by rewrite !lookup_alter_ne. }
  destruct (require_room_create_room_id _).
  - intros [= <-]. destruct (require_event_id _); [done|]. by rewrite lookup_insert_eq.
  - destruct (_ !! "type"); [|done]. intros [= <-]. destruct (require_event_id _); [|by rewrite lookup_insert_eq].
    destruct (bool_decide _); [|done]. by rewrite lookup_insert_ne.
Qed.

(** The event is read from the object that is kept, and by the rules. *)
Lemma federation_parsed room id json rules p json' :
  from_object_federation room id json rules = Some (Ok (p, json')) →
  from_incoming_federation room id json rules = Some json' ∧ check_rules json' (event_format rules) = Ok tt
  ∧ pdu_from_object json' = Some p ∧ pdu_room_id p = room.
Proof.
  unfold from_object_federation. destruct (from_incoming_federation room id json rules) as [j|]; [|done]. cbn [mbind option_bind].
  unfold from_object_checked, check_room_id, from_object. destruct (check_rules _ _) as [[]|] eqn:Hr; [|done]. cbn.
  destruct (pdu_from_object j) as [p'|] eqn:Hp; [|done]. cbn. destruct (decide (pdu_room_id p' = room)) as [Hroom|]; [|done]. by intros [= -> ->].
Qed.

(** The event read has the id it was asked by. *)
Lemma federation_event_id version room id json rules p json' :
  rules_of version = Some rules → names_event version json id → from_object_federation room id json rules = Some (Ok (p, json')) →
  pdu_event_id p = id.
Proof.
  intros Hr Hn (Hj & _ & Hp & _)%federation_parsed. apply incoming_field in Hj. unfold pdu_from_object in Hp.
  destruct (json' !! "event_id" ≫= de_id event_id_ok) as [e|] eqn:He.
  2:{ destruct (json' !! "type" ≫= as_str); [|done]. destruct (json' !! "content"); done. }
  assert (pdu_event_id p = e) as ->.
  { clear -Hp. repeat match type of Hp with context [mbind (M := option) _ ?x] => destruct x; cbn [mbind option_bind] in Hp; [|done] end. by injection Hp as <-. }
  destruct (require_event_id (event_format rules)) eqn:Hq.
  - apply (Hn rules); [done..|]. rewrite <-Hj. destruct (json' !! "event_id") as [x|]; [|done]. cbn in He |- *. unfold de_id, opt_filter in He.
    destruct (as_str x); [|done]. cbn in He |- *. case_match; by simplify_eq.
  - rewrite Hj in He. cbn in He. unfold de_id, opt_filter in He. cbn in He. case_match; by simplify_eq.
Qed.

Lemma checked_parsed version t p json : checked version t p json → pdu_from_object json = Some p.
Proof. intros (rules & n & object & verified & l & _ & _ & _ & Hf & _). by apply federation_parsed in Hf as (_ & _ & Hp & _). Qed.

Lemma rules_found version rules : room_version_rules version = Ok rules → rules_of version = Some rules.
Proof. unfold room_version_rules. destruct (rules_of version); cbn; congruence. Qed.

(** ** Reading *)

Lemma raw_from_bytes_as raw pdu_id : raw_from_bytes raw = Some pdu_id → as_bytes pdu_id = raw.
Proof. unfold raw_from_bytes. intros Hr. repeat case_match; by simplify_eq. Qed.

Lemma exists_not v s id : sound v s → event_exists env s id = false → ¬ placed s id.
Proof.
  intros Hs He [raw Hraw]. destruct (sound_index _ _ _ Hs id raw Hraw) as [[pdu_id Hid] [x Hx]].
  revert He. unfold event_exists, pdu_exists, non_outlier_pdu_exists, get_pdu_id. rewrite Map_get_row, Hraw. cbn [handle_from ok_or]. rewrite Hid.
  cbn [ok_or]. unfold exists_row. rewrite !Map_get_row. apply raw_from_bytes_as in Hid as ->. rewrite Hx. cbn. by destruct (outlier_pdu_exists _ _).
Qed.

Lemma get_pdu_id_not v s id e : sound v s → get_pdu_id (timeline_of s) id = Err e → ¬ placed s id.
Proof.
  intros Hs Hg [raw Hraw]. destruct (sound_index _ _ _ Hs id raw Hraw) as [[pdu_id Hid] _]. unfold get_pdu_id in Hg.
  rewrite Map_get_row, Hraw in Hg. cbn in Hg. by rewrite Hid in Hg.
Qed.

(** An outlier is read as the event that was checked. *)
Lemma outlier_read v s id text : sound v s → outlier s id text → ∃ p json, (p, json) ∈ v ∧ pdu_event_id p = id
  ∧ event_fetch late s id = Ok p ∧ get_outlier text_object (timeline_of s) id = Ok json.
Proof.
  intros Hs Ho. pose proof (sound_apart _ _ _ Hs id text Ho) as Hn. destruct (sound_outlier _ _ _ Hs id text Ho) as (p & json & Hin & Hid & ->).
  destruct (sound_checked _ _ _ Hs p json Hin) as (version & t & Hp%checked_parsed). exists p, json.
  assert (∀ {T} (parse : string → option T) (x : T), parse (object_text json) = Some x → get_outlier parse (timeline_of s) id = Ok x) as Hread.
  { intros T parse x Hx. unfold get_outlier. rewrite Map_get_row, Ho. apply read_json_row; [|done]. eapply text_object_utf8, text_object_text. }
  split_and!; [done..| |apply Hread; by rewrite text_object_text]. unfold event_fetch, fetch_pdu, get, get_non_outlier, get_pdu_id. rewrite Map_get_row.
  destruct (table_rows (eventid_pduid (timeline_of s)) !! id) eqn:Hi; [destruct Hn; by eexists|]. cbn [handle_from ok_or select_ok].
  rewrite (Hread _ parse_pdu p); [done|]. unfold parse_pdu. by rewrite text_object_text.
Qed.

(** ** Outliers *)

(** What the verification of an event gives. *)
Definition verified_as version json (verified : CanonicalJsonObject) : Prop :=
  ∃ n, match verify_event env n json version with
       | Some VerifiedAll => verified = json
       | Some VerifiedSignatures => ∃ rules, rules_of version = Some rules ∧ redact env json rules = Some verified
       | None => False
       end.

Lemma verify_inv id json version s verified s' :
  verify_pdu env id json version s = (Ok verified (E := ServerError (E := E)), s') → steady s s' ∧ verified_as version json verified.
Proof.
  unfold verify_pdu. intros (n & s1 & Hn & Hk)%bind_inv. pose proof (steady_after _ _ _ _ steady_ask Hn) as S1.
  destruct (verify_event env n json version) as [[]|] eqn:Hv; [injection Hk as <- <-; split; [done|exists n; by rewrite Hv]| |done].
  apply bind_inv in Hk as (rules & s2 & Hr & Hk). apply bind_inv in Hk as (j & s3 & Hj & Hk). apply bind_inv in Hk as (known & s4 & [= _ <-] & Hk).
  destruct (rules_of version) as [rules'|] eqn:Hrules; [|done]. injection Hr as <- <-. destruct (redact env json rules') as [j'|] eqn:Hred; [|done].
  injection Hj as <- <-. destruct known; [done|]. injection Hk as <- <-. split; [done|]. exists n. rewrite Hv. by exists rules'.
Qed.

Lemma keeps_verify id json version : keeps same_events (verify_pdu env id json version : M _).
Proof. unfold verify_pdu. keep. Qed.

Lemma verified_names version json verified id : verified_as version json verified → names_event version json id → names_event version verified id.
Proof.
  intros [n Hv] Hn. destruct (verify_event env n json version) as [[]|]; [by subst| |done]. destruct Hv as (rules & _ & Hr).
  intros rules' x. rewrite (redact_event_id _ _ _ Hr). apply Hn.
Qed.

(** An event handled as an outlier was checked. *)
Lemma tracked_handle_outlier v s (fetch : Pdu → M unit) room id json version :
  sound v s → ¬ placed s id → gen_event_id json version = Ok id →
  (∀ v1 s1 p, sound v1 s1 → tracked (storing room version) v1 s1 (fetch p) (λ _ _ _, True)) →
  tracked (storing room version) v s (handle_outlier_with env fetch room id json version)
    (λ v' x _, x ∈ v' ∧ pdu_event_id x.1 = id ∧ pdu_room_id x.1 = room).
Proof.
  intros Hs Hn Hgen Hf. unfold handle_outlier_with. eapply tracked_bind; [apply tracked_keeps; [apply _|apply keeps_verify]|].
  intros ? verified s1 R1 [-> [S1 Hv]%verify_inv]. assert (names_event version verified id) as Hnv.
  { eapply verified_names; [exact Hv|]. intros rules x Hr Hq. rewrite lookup_delete_ne by done. exact (gen_names _ _ _ Hgen rules x Hr Hq). }
  eapply tracked_bind; [apply tracked_map_err|]. intros ? rules ? _ (-> & -> & Hr%rules_found).
  eapply tracked_bind; [apply tracked_ok_or|]. intros ? r ? _ (-> & -> & Hfed).
  eapply tracked_bind; [apply tracked_map_err|]. intros ? [p json'] ? _ (-> & -> & ->). cbn [fst snd].
  pose proof (federation_event_id _ _ _ _ _ _ _ Hr Hnv Hfed) as Hid. pose proof (federation_parsed _ _ _ _ _ _ Hfed) as (_ & _ & _ & Hroom).
  eapply tracked_bind; [apply Hf; eapply same_sound; [by apply steady_same|done]|]. intros v2 [] s2 R2 _.
  eapply tracked_bind; [apply (tracked_look _ _ _ (λ s, let? auth_events := ok_or ServerPanic (own_auth_events env s rules p) in authorise env s rules p (state_of auth_events)))|].
  intros ? [] ? _ (-> & -> & Hauth). destruct (own_auth_events env s2 rules p) as [l|] eqn:Hown; [|done]. cbn in Hauth.
  assert (checked version s2 p json') as Hc.
  { destruct Hv as [n Hv]. exists rules, n, json, verified, l. rewrite Hid, Hroom. split_and!; [done..| |done|done|done].
    destruct (verify_event _ _ _ _) as [[]|]; [done| |done]. destruct Hv as (rules' & Hr' & Hred). congruence. }
  assert (rtc (storing room version) (v, s) (v2, s2)) as R by by etrans.
  eapply tracked_bind with (Q := λ v' _ _, (p, json') ∈ v'); [|intros v3 [] s3 _ Hin; by apply tracked_ret].
  exists ((p, json') :: v2). unfold on_timeline, add_pdu_outlier. rewrite raw_put_json. cbn. split; [|intros _ _; by left].
  apply rtc_once, store_outlier; [done..| |]; [|unfold add_pdu_outlier; by rewrite raw_put_json].
  rewrite Hid. by rewrite (stored_placed _ _ _ (rtc_stored _ _ _ _ _ R)).
Qed.

(** ** Fetching *)

(** An event to be handled: it is in no timeline and has the id it is handled by. *)
Definition to_handle s version (x : string * CanonicalJsonObject) : Prop := ¬ placed s x.1 ∧ gen_event_id x.2 version = Ok x.1.

Lemma steady_placed s s' id : steady s s' → placed s' id ↔ placed s id.
Proof. intros Hs. by apply same_placed, steady_same. Qed.

Lemma steady_keeps {A} s (m : M A) : keeps steady m → safe (steady s) m (λ _, True).
Proof. intros Hm. eapply safe_keeps; [exact Hm|]. intros s1 s2 Hs1 Hs2. by etrans. Qed.

Lemma safe_fetch_event s origin version id :
  safe (steady s) (fetch_event env origin version id : M _) (λ o, ∀ value, o = Some value → gen_event_id value version = Ok id).
Proof.
  unfold fetch_event. eapply safe_bind; [apply steady_keeps; keep|]. intros n _.
  assert (∀ (m : M bool) o, keeps steady m → (∀ value, o = Some value → gen_event_id value version = Ok id) →
    safe (steady s) (bind m (λ _, ret o)) (λ o, ∀ value, o = Some value → gen_event_id value version = Ok id)) as Hend.
  { intros m o Hm Ho. eapply safe_bind; [by apply steady_keeps|]. intros _ _. by apply safe_ret. }
  destruct (federation_event env n origin id) as [text|]; [|apply Hend; [keep|done]].
  eapply safe_bind; [apply steady_keeps; keep|]. intros _ _. unfold gen_event_id_canonical_json.
  destruct (text_object text) as [value|]; cbn [ok_or]; [|apply Hend; [keep|done]].
  destruct (gen_event_id value version) as [id'|] eqn:Hg; [|apply Hend; [keep|done]].
  destruct (decide (id' = id)) as [->|]; apply Hend; [keep| |keep|done]. by intros value' [= <-].
Qed.

Lemma safe_fetch_chain v s fuel origin version todo all found :
  sound v s → Forall (to_handle s version) found →
  safe (steady s) (fetch_chain env fuel origin version todo all found : M _) (Forall (to_handle s version)).
Proof.
  intros Hs. revert todo all found. induction fuel as [|fuel IH]; intros [|next_id todo] all found Hf; cbn [fetch_chain];
    [by apply safe_ret|apply safe_throw|by apply safe_ret|].
  destruct (decide (next_id ∈ all)); [by apply IH|]. eapply safe_bind; [apply steady_keeps; keep|]. intros [] _; [by apply IH|].
  eapply (safe_bind _ _ _ (λ b, b = false → ¬ placed s next_id)).
  { apply safe_reading. intros s1 H1a He. rewrite <-(steady_placed s s1) by done. eapply exists_not; [|done].
    eapply same_sound; [by apply steady_same|done]. }
  intros [] Hk; [by apply IH|]. eapply safe_bind; [apply steady_keeps; keep|].
  intros up _. destruct (negb up); [by apply safe_ret|]. eapply safe_bind; [apply safe_fetch_event|].
  intros [value|] Hv; [|by apply IH]. apply IH. apply Forall_app. split; [done|]. apply Forall_singleton. split; [by apply Hk|by apply Hv].
Qed.

(** What is found of an event: itself in the database, or what is to be handled. *)
Definition chain_found s version (id : string) (x : string * (option Pdu * list (string * CanonicalJsonObject))) : Prop :=
  x.1 = id ∧ Forall (to_handle s version) x.2.2 ∧ ∀ p, x.2.1 = Some p → event_fetch late s id = Ok p.

Lemma safe_fetch_auth_chain v s origin version id :
  sound v s → safe (steady s) (fetch_auth_chain env origin version id : M _) (chain_found s version id).
Proof.
  intros Hsound s1 H1a. unfold fetch_auth_chain. destruct (event_fetch _ s1 id) as [p|e] eqn:Hf.
  - split; [done|]. intros x [= <-]. split_and!; [done|constructor|]. intros p' [= <-]. by rewrite <-(steady_fetch _ s s1).
  - destruct (is_panic e); [done|]. clear Hf. revert s1 H1a.
    change (safe (steady s) (bind (fetch_chain env (loop_fuel env) origin version [id] ∅ []) (λ found, ret (id, (None, found))) : M _) (chain_found s version id)).
    eapply safe_bind; [by eapply safe_fetch_chain|]. intros found Hfound. by apply safe_ret.
Qed.

(** An event that a fetch from [s] gives: checked now, or known before. *)
Definition fetched s v (events : list string) (x : Pdu * option CanonicalJsonObject) : Prop :=
  match x.2 with
  | Some json => (x.1, json) ∈ v ∧ pdu_event_id x.1 ∈ events
  | None => ∃ id, id ∈ events ∧ event_fetch late s id = Ok x.1
  end.

Lemma fetched_more s v v' events l : (∀ x, x ∈ v → x ∈ v') → Forall (fetched s v events) l → Forall (fetched s v' events) l.
Proof. intros Hv Hl. eapply Forall_impl; [exact Hl|]. intros [p [json|]]; unfold fetched; cbn; [|done]. intros [? ?]. auto. Qed.
Lemma to_handle_later s s' version l :
  (∀ id, placed s' id ↔ placed s id) → Forall (to_handle s version) l → Forall (to_handle s' version) l.
Proof. intros Hp Hl. eapply Forall_impl; [exact Hl|]. intros x [Hn Hg]. split; [by rewrite Hp|done]. Qed.

Lemma tracked_handle_chain s0 events v s room version id l pdus :
  sound v s → id ∈ events → Forall (to_handle s version) l → Forall (fetched s0 v events) pdus →
  tracked (storing room version) v s (handle_chain env room version id l pdus) (λ v' l _, Forall (fetched s0 v' events) l).
Proof.
  intros Hs Hid. revert v s pdus Hs. induction l as [|[next_id value] l IH]; intros v s pdus Hs Hl Hp; cbn [handle_chain]; [by apply tracked_ret|].
  apply Forall_cons in Hl as [[Hn Hg] Hl].
  assert (∀ v1 s1 pdus, rtc (storing room version) (v, s) (v1, s1) → Forall (fetched s0 v1 events) pdus →
    tracked (storing room version) v1 s1 (handle_chain env room version id l pdus) (λ v' l _, Forall (fetched s0 v' events) l)) as Hnext.
  { intros v1 s1 pdus1 R1%rtc_stored Hp1. apply IH; [by apply (stored_sound _ _ _ R1)| |done].
    eapply to_handle_later; [|done]. apply (stored_placed _ _ _ R1). }
  eapply tracked_bind; [apply tracked_keeps; [apply _|keep]|]. intros ? off s1 R1 [-> _]. destruct off; [by apply Hnext|].
  eapply tracked_bind.
  { apply tracked_ignoring, tracked_handle_outlier; [by apply (stored_sound _ _ _ (rtc_stored _ _ _ _ _ R1))| |done|].
    - by rewrite (stored_placed _ _ _ (rtc_stored _ _ _ _ _ R1)).
    - intros v2 s2 p _. by apply tracked_ret. }
  intros v2 o s2 R2 Ho. assert (Forall (fetched s0 v2 events) pdus) as Hp2.
  { eapply fetched_more; [|exact Hp]. apply (stored_more _ _ _ (rtc_stored _ _ _ _ _ R2)). }
  assert (rtc (storing room version) (v, s) (v2, s2)) as R by by etrans.
  destruct o as [[p json]|]; (eapply tracked_bind; [apply tracked_keeps; [apply _|keep]|]); intros ? b s3 R3 [-> _].
  - apply Hnext; [by etrans|]. destruct (decide (next_id = id)) as [->|]; [|done]. apply Forall_app. split; [done|]. apply Forall_singleton.
    destruct (Ho _ eq_refl) as (Hin & Hpid & _). cbn in Hpid. split; [done|]. cbn. by rewrite Hpid.
  - apply Hnext; [by etrans|done].
Qed.

Lemma tracked_handle_chains s0 events v s room version l pdus :
  sound v s → Forall (λ x, x.1 ∈ events ∧ Forall (to_handle s version) x.2.2 ∧ ∀ p, x.2.1 = Some p → event_fetch late s0 x.1 = Ok p) l →
  Forall (fetched s0 v events) pdus →
  tracked (storing room version) v s (handle_chains env room version l pdus) (λ v' l _, Forall (fetched s0 v' events) l).
Proof.
  revert v s pdus. induction l as [|[id [local_pdu found]] l IH]; intros v s pdus Hs Hl Hp; cbn [handle_chains]; [by apply tracked_ret|].
  apply Forall_cons in Hl as [(Hid & Hfound & Hloc) Hl]. cbn in Hid, Hfound, Hloc.
  assert (∀ v1 s1 pdus, rtc (storing room version) (v, s) (v1, s1) → Forall (fetched s0 v1 events) pdus →
    tracked (storing room version) v1 s1 (handle_chains env room version l pdus) (λ v' l _, Forall (fetched s0 v' events) l)) as Hnext.
  { intros v1 s1 pdus1 R1%rtc_stored Hp1. apply IH; [by apply (stored_sound _ _ _ R1)| |done]. eapply Forall_impl; [exact Hl|].
    cbn. intros x (Hx & Hh & Hx2). split_and!; [done| |done]. eapply to_handle_later; [|done]. apply (stored_placed _ _ _ R1). }
  eapply tracked_bind; [apply tracked_keeps; [apply _|keep]|]. intros ? up s1 R1 [-> _]. destruct (negb up); [by apply Hnext|].
  pose proof (rtc_stored _ _ _ _ _ R1) as St1.
  eapply tracked_bind; [apply (tracked_handle_chain s0 events); [by apply (stored_sound _ _ _ St1)|done| |]|].
  - rewrite reverse_Permutation. eapply to_handle_later; [|done]. apply (stored_placed _ _ _ St1).
  - destruct local_pdu as [p|]; [|done]. apply Forall_app. split; [done|]. apply Forall_singleton. exists id. split; [done|]. by apply Hloc.
  - intros v2 l2 s2 R2 Hl2. apply Hnext; [by etrans|done].
Qed.

Lemma tracked_fetch_auth v s origin room events version :
  sound v s → tracked (storing room version) v s (fetch_auth env origin room events version) (λ v' l _, Forall (fetched s v' events) l).
Proof.
  intros Hs. unfold fetch_auth. eapply tracked_bind; [apply tracked_keeps; [apply _|keep]|]. intros ? l s1 R1 [-> Hc].
  apply (collect_inv steady) in Hc as [S1 Hl]; [|keep]. apply tracked_handle_chains; [|  |constructor].
  { eapply same_sound; [by apply steady_same|done]. }
  apply Forall_forall. intros x Hx. destruct (Forall2_elem_r _ _ _ _ Hl Hx) as (id & Hid & (t1 & t2 & St1 & Ef & _)).
  rewrite complete_perm in Hid. destruct (safe_fetch_auth_chain v s origin version id Hs t1 St1) as [_ Hf]. rewrite Ef in Hf.
  destruct (Hf x eq_refl) as (<- & Hh & Hloc). split_and!; [done| |done]. eapply to_handle_later; [|done]. intros id. by apply steady_placed.
Qed.

(** ** Previous events *)

Lemma steady_outlier {T} (parse : string → option T) s s' id :
  steady s s' → get_outlier parse (timeline_of s') id = get_outlier parse (timeline_of s) id.
Proof. intros [(x & c & Ht & _) _ _ _]. by rewrite Ht. Qed.

(** A known event is not fetched. *)
Lemma fetch_auth_known s origin room id version q r s' :
  event_fetch late s id = Ok q → fetch_auth (E := E) env origin room [id] version s = (r, s') →
  steady s s' ∧ ∀ l x, r = Ok l → last l = Some x → x = (q, None).
Proof.
  intros Hq. unfold fetch_auth. assert (complete [id] = [id]) as -> by (apply Permutation_singleton_r, complete_perm).
  cbn [Effects.collect]. unfold bind, ret, fetch_auth_chain. fold late. rewrite Hq. cbn [handle_chains]. unfold bind.
  destruct (check_running env s) as [[up|e] s1] eqn:Hup; pose proof (steady_after _ _ _ _ (steady_check_running env) Hup) as S1.
  - destruct (negb up); cbn; intros [= <- <-]; (split; [done|]); intros l x [= <-]; [done|]. by intros [= <-].
  - by intros [= <- <-].
Qed.

(** The event with the object it was kept as, when it comes with one or there
    is one. *)
Definition comes_with v s (id : string) (x : Pdu * option CanonicalJsonObject) : Prop :=
  match x.2 with
  | Some json => (x.1, json) ∈ v
  | None => ∀ json, get_outlier text_object (timeline_of s) id = Ok json → (x.1, json) ∈ v
  end.

Lemma tracked_fetch_one v s origin room id version : sound v s →
  tracked (storing room version) v s (fetch_auth env origin room [id] version) (λ v' l s', ∀ x, last l = Some x → comes_with v' s' id x).
Proof.
  intros Hs. destruct (event_fetch late s id) as [q|e] eqn:Hq.
  - destruct (fetch_auth (E := E) env origin room [id] version s) as [r s'] eqn:Hr. destruct (fetch_auth_known _ _ _ _ _ _ _ _ Hq Hr) as [S1 Hl].
    exists v. rewrite Hr. split; [by apply steady_storing|]. cbn [fst snd]. intros l -> x Hx. rewrite (Hl l x eq_refl Hx). intros json. cbn.
    rewrite (steady_outlier text_object s s' id S1). intros Hj. destruct (table_rows (eventid_outlierpdu (timeline_of s)) !! id) as [text|] eqn:Ho.
    + destruct (outlier_read v s id text Hs Ho) as (p & json' & Hin & _ & Hp & Hj'). congruence.
    + unfold get_outlier in Hj. by rewrite Map_get_row, Ho in Hj.
  - eapply tracked_mono; [by apply tracked_fetch_auth|]. intros v1 l s1 _ Hl x Hx. rewrite Forall_forall in Hl.
    specialize (Hl x (last_Some_elem_of _ _ Hx)). unfold fetched, comes_with in *. destruct x as [p [json|]]; cbn in *; [by destruct Hl|].
    destruct Hl as (id' & ->%list_elem_of_singleton & Hf). congruence.
Qed.

Lemma check_room_id_ok p room u : check_room_id p room = Ok u → pdu_room_id p = room.
Proof. unfold check_room_id. by case_decide. Qed.

(** A step over previous events finds nothing more of the event, or an event of
    the room that was checked. *)
Definition prev_found room first_ts id w v w' : Prop :=
  w' = prev_unknown id w
  ∨ ∃ p json, (p, json) ∈ v ∧ pdu_room_id p = room ∧ (prev_amount w <= max_fetch_prev_events env)%N ∧ w' = prev_known first_ts id p json w.

Lemma tracked_prev_step v s origin room version first_ts id w : sound v s →
  tracked (storing room version) v s (prev_step env origin room version first_ts id w) (λ v' w' _, prev_found room first_ts id w v' w').
Proof.
  intros Hs. unfold prev_step. eapply tracked_bind; [by apply tracked_fetch_one|]. intros v1 l s1 R1 Hl.
  eapply tracked_bind; [apply tracked_keeps; [apply _|keep]|]. intros ? up s2 R2 [-> Hup].
  apply (steady_after _ _ _ _ (steady_check_running env)) in Hup as S2. destruct (negb up); [apply tracked_throw|].
  destruct (last l) as [[p json_opt]|] eqn:Hlast; [|apply tracked_ret; by left]. cbv beta in Hl. specialize (Hl _ Hlast).
  eapply tracked_bind; [apply tracked_map_err|]. intros ? [] ? _ (-> & -> & Hroom%check_room_id_ok).
  destruct (_ <? _)%N eqn:Hlim; [apply tracked_ret; by left|]. apply N.ltb_ge in Hlim.
  eapply (tracked_bind _ _ _ _ _ (λ v' o _, ∀ json, o = Some json → (p, json) ∈ v')).
  - destruct json_opt as [json|]; cbn in Hl; [apply tracked_ret; by intros json' [= <-]|].
    exists v1. split; [done|]. intros o [= <-] json. rewrite (steady_outlier _ s1 s2 id S2).
    destruct (get_outlier _ _ id) as [json'|] eqn:Hj; [|done]. cbn. intros [= ->]. by apply Hl.
  - intros v3 o s3 _ Ho. apply tracked_ret. destruct o as [json|]; [right; exists p, json; split; [by apply Ho|done]|by left].
Qed.

Definition info_checked room v (info : gmap string (Pdu * CanonicalJsonObject)) : Prop :=
  ∀ id x, info !! id = Some x → x ∈ v ∧ pdu_room_id x.1 = room.

Lemma prev_found_checked room first_ts id w v w' :
  prev_found room first_ts id w v w' → info_checked room v (prev_info w) → info_checked room v (prev_info w').
Proof.
  intros [->|(p & json & Hin & Hroom & _ & ->)] Hw; [done|]. unfold prev_known. intros id' x. case_match; cbn; (destruct (decide (id' = id)) as [->|];
    [rewrite lookup_insert_eq; by intros [= <-]|rewrite lookup_insert_ne by done; apply Hw]).
Qed.
Lemma info_checked_more room v v' info : (∀ x, x ∈ v → x ∈ v') → info_checked room v info → info_checked room v' info.
Proof. intros Hv Hi id x Hx. destruct (Hi id x Hx). auto. Qed.

Lemma tracked_prev_loop v s fuel origin room version first_ts w :
  sound v s → info_checked room v (prev_info w) →
  tracked (storing room version) v s (prev_loop env fuel origin room version first_ts w) (λ v' w' _, info_checked room v' (prev_info w')).
Proof.
  revert v s w. induction fuel as [|fuel IH]; intros v s w Hs Hw; cbn [prev_loop]; destruct (prev_todo w) as [|id todo];
    [by apply tracked_ret|apply tracked_throw|by apply tracked_ret|].
  eapply tracked_bind; [by apply tracked_prev_step|]. intros v1 next s1 R1%rtc_stored Hn. apply IH; [by apply (stored_sound _ _ _ R1)|].
  eapply prev_found_checked; [exact Hn|]. cbn. eapply info_checked_more; [|exact Hw]. apply (stored_more _ _ _ R1).
Qed.

Lemma tracked_fetch_prev v s origin room version initial first_ts : sound v s →
  tracked (storing room version) v s (fetch_prev env origin room version initial first_ts) (λ v' x _, info_checked room v' x.2).
Proof.
  intros Hs. unfold fetch_prev. eapply tracked_bind; [apply tracked_keeps; [apply _|keep]|]. intros ? todo s1 R1 [-> [= _ <-]].
  eapply tracked_bind; [by apply tracked_prev_loop|]. intros v2 w s2 _ Hw. eapply tracked_bind; [apply tracked_ok_or|]. intros ? r ? _ (-> & -> & _).
  eapply tracked_bind; [apply tracked_map_err|]. intros ? sorted ? _ (-> & -> & _). by apply tracked_ret.
Qed.

(** ** The state before an event *)

Lemma number_statekey_inv ty key s k s' : number_statekey (E := E) ty key s = (Ok k, s') → steady s s' ∧ numbered_as s' ty key k.
Proof.
  intros Hk. split; [by eapply steady_after; [apply steady_number_statekey|]|]. revert Hk. unfold number_statekey, on_shorts.
  destruct (get_or_create_shortstatekey _ ty key) as [[n x]|] eqn:Hn; [|done]. intros [= <- <-]. by apply number_key in Hn as [Hn _].
Qed.

Lemma steady_numbered s s' ty key k : steady s s' → numbered_as s ty key k → numbered_as s' ty key k.
Proof. intros Hs. by apply steady_keys. Qed.

Lemma state_past_inv h q l0 l s s1 s2 :
  accessing (E := E) (state_full_ids h) s = (Ok l0, s1) → state_after (E := E) q l0 s1 = (Ok l, s2) → state_past s s2 h q l.
Proof.
  intros H1a H2a. assert (steady s s1) as S1 by (eapply steady_after; [|exact H1a]; eauto with keeps).
  assert (steady s1 s2) as S2 by (eapply steady_after; [|exact H2a]; eauto with keeps). split; [by etrans|]. exists l0.
  split; [by eapply accessing_inv|]. unfold state_after in H2a. destruct (pdu_state_key q) as [key|]; [|by injection H2a as <- _].
  apply bind_inv in H2a as (k & s3 & Hk & [= <- <-]). apply number_statekey_inv in Hk as [_ Hk]. by exists k.
Qed.

Lemma degree_one_inv origin room version create v s p o s' :
  length (pdu_prev_events p) = 1 → state_at_incoming_degree_one (E := E) env p s = (Ok o, s') →
  match o with
  | Some state => before_event origin room version create v s p state v s'
  | None => s' = s ∧ ∀ e h, pdu_prev_events p = [e] → state_at (timeline_of s) e ≠ Ok h
  end.
Proof.
  intros Hlen. unfold state_at_incoming_degree_one. destruct (pdu_prev_events p) as [|e [|]] eqn:Hprev; [done| |done]. cbn [head].
  destruct (state_at (timeline_of s) e) as [h|err] eqn:Hh.
  - intros (q & s1 & Hq & Hk)%bind_inv. apply bind_inv in Hk as (l0 & s2 & Hl0 & Hk). apply bind_inv in Hk as (l & s3 & Hl & [= <- <-]).
    fold late in Hq. destruct (event_fetch late s e) as [q'|] eqn:Hf; [|done]. injection Hq as <- <-.
    eapply before_one; [done|done|done|]. by eapply state_past_inv.
  - destruct (db_panics err); [done|]. intros [= <- <-]. split; [done|]. intros e' h [= <-]. congruence.
Qed.

Lemma fork_inv room version s t t' fork x : 
  steady s t → state_at_incoming_fork (E := E) env room version fork t = (Ok x, t') → ∀ s', steady t' s' → fork_state (E := E) env room version s s' fork x.
Proof.
  intros St (l0 & t1 & Hl0 & Hk)%bind_inv s' St'. apply bind_inv in Hk as (l & t2 & Hl & Hk).
  apply bind_inv in Hk as (chain & t3 & Hc & Hk). apply bind_inv in Hk as (st & t4 & Hst & [= <- <-]).
  assert (steady t2 t3) as S3 by (eapply steady_after; [|exact Hc]; eauto with keeps).
  apply bind_inv in Hc as (ids & t5 & Hc & [= <- <-]). unfold on_chains in Hc.
  destruct (event_ids_iter _ _ _ _ _) as [[ids' ac]|] eqn:Hids; [|done]. injection Hc as <- Ht5.
  injection Hst as Hst <-. exists t, t2, t5, l, ids', ac. split_and!; [done|by eapply state_past_inv|done|done|done| |done].
  by rewrite <-Hst.
Qed.

Lemma collect_map_in {K A} `{Countable K} (l : list (K * A)) k a : collect_map l !! k = Some a → (k, a) ∈ l.
Proof. unfold collect_map. intros Hk%elem_of_list_to_map_2. by rewrite elem_of_reverse in Hk. Qed.
Lemma collect_map_has {K A} `{Countable K} (l : list (K * A)) k a : (k, a) ∈ l → is_Some (collect_map l !! k).
Proof.
  intros Hin. destruct (collect_map l !! k) eqn:Hk; [done|]. unfold collect_map in Hk. apply not_elem_of_list_to_map in Hk. destruct Hk.
  rewrite fmap_reverse, elem_of_reverse. by apply (list_elem_of_fmap_2 fst) in Hin.
Qed.

Lemma extremities_inv s p l :
  Forall2 (λ id x, extremity env s id = Ok x (E := ServerError (E := E))) (complete (pdu_prev_events p)) l →
  one_each env s (pdu_prev_events p) (hash_iter (collect_map l)).
Proof.
  intros Hl. assert (∀ id x, extremity env s id = Ok x (E := ServerError (E := E)) → state_at (timeline_of s) id = Ok x.1 ∧ event_fetch late s id = Ok x.2) as Hx.
  { intros id x. unfold extremity. fold late. destruct (state_at _ id) as [h|]; [|done]. cbn. destruct (event_fetch late s id) as [q|]; [|done]. cbn. by intros [= <-]. }
  split_and!.
  - intros [h q]. rewrite hash_iter_perm, elem_of_map_to_list. intros Hin%collect_map_in.
    destruct (Forall2_elem_r _ _ _ _ Hl Hin) as (e & He & Hex). rewrite complete_perm in He. exists e. split; [done|]. by apply Hx in Hex.
  - intros e He. rewrite <-(complete_perm (pdu_prev_events p)) in He. destruct (Forall2_elem_l _ _ _ _ Hl He) as ([h q] & Hin & [Hh _]%Hx).
    destruct (collect_map_has _ _ _ Hin) as [q' Hq']. exists (h, q'). rewrite hash_iter_perm, elem_of_map_to_list. done.
  - rewrite hash_iter_perm. apply NoDup_fst_map_to_list.
Qed.

Lemma numbered_inv new l s s' :
  Effects.collect (λ x : TypeStateKey * string, bind (number_statekey (E := E) x.1.1 x.1.2) (λ k, ret (k, x.2))) (complete (btree_iter new)) s = (Ok l, s') →
  steady s s' ∧ state_numbered s' new (collect_map l).
Proof.
  intros Hc. apply (collect_inv steady) in Hc as [Hs Hl]; [|intros x; keep]. split; [done|].
  assert (∀ (x : TypeStateKey * string) (y : N * string), (∃ s1 s2, steady s s1 ∧ bind (number_statekey (E := E) x.1.1 x.1.2) (λ k, ret (k, x.2)) s1 = (Ok y, s2) ∧ steady s2 s') →
    numbered_as s' x.1.1 x.1.2 y.1 ∧ y.2 = x.2) as Hone.
  { intros x y (s1 & s2 & _ & (k & s3 & [_ Hk]%number_statekey_inv & [= <- <-])%bind_inv & S2). split; [|done]. by eapply steady_numbered. }
  split.
  - intros k id Hin%collect_map_in. destruct (Forall2_elem_r _ _ _ _ Hl Hin) as ([x id'] & Hx & [Hn Hid]%Hone).
    cbn in *. subst id'. rewrite complete_perm, elem_of_btree_iter in Hx. by exists x.
  - intros x id Hx. rewrite <-elem_of_btree_iter, <-(complete_perm (btree_iter new)) in Hx.
    destruct (Forall2_elem_l _ _ _ _ Hl Hx) as ([k id'] & Hin & [Hn _]%Hone). exists k. split; [done|]. by eapply collect_map_has.
Qed.

Lemma ignoring_inv {A} (m : M A) s a s' : ignoring m s = (Ok (Some a), s') → m s = (Ok a, s').
Proof. unfold ignoring. destruct (m s) as [[b|e] s1]; [by intros [= <- <-]|]. by destruct (is_panic e). Qed.

Lemma steady_fetching_env s s' : steady s s' → fetching env s' = fetching env s ∧ event_exists env s' = event_exists env s.
Proof. intros [(x & c & Ht & _) _ _ _]. unfold fetching, event_fetch, event_exists. by rewrite Ht. Qed.

Lemma resolved_inv origin room version create v s p state s' :
  length (pdu_prev_events p) ≠ 1 → state_at_incoming_resolved (E := E) env p room version s = (Ok (Some state), s') →
  before_event origin room version create v s p state v s'.
Proof.
  intros Hlen (o & s1 & Ho & Hk)%bind_inv. destruct o as [l|]; [|done]. apply ignoring_inv in Ho.
  apply (collect_inv eq) in Ho as [<- Hl]; [|by intros id t].
  apply bind_inv in Hk as (sets & s2 & Hsets & Hk). apply (collect_inv steady) in Hsets as [S2 Hsets]; [|keep].
  apply bind_inv in Hk as (o & s3 & Ho & Hk). destruct o as [new|]; [|done]. apply ignoring_inv in Ho.
  apply bind_inv in Hk as (numbers & s4 & [S4 Hnum]%numbered_inv & [= <- <-]).
  apply bind_inv in Ho as (rules & s5 & Hr & Hres). destruct (room_version_rules version) as [rules'|] eqn:Hv; [|done].
  injection Hr as <- <-. apply rules_found in Hv. destruct (steady_fetching_env s s2 S2) as [Hf He]. rewrite Hf, He in Hres.
  destruct (resolve _ _ _ _ _ _ _ _ _ _) as [[new'|]|] eqn:Hresolve; [|done..]. injection Hres as <- <-.
  eapply before_forks; [done| | |by etrans|done|exact Hresolve|done].
  - apply extremities_inv. eapply Forall2_impl; [exact Hl|]. intros id x (t1 & t2 & <- & Hx & _). congruence.
  - eapply Forall2_impl; [exact Hsets|]. cbn. intros fork x (t1 & t2 & St1 & Hx & St2). eapply fork_inv; [exact St1|exact Hx|]. by etrans.
Qed.

Lemma gather_inv l state s state' s' :
  gather_state (E := E) l state s = (Ok state', s') →
  state ⊆ state' ∧ (∀ q, q ∈ l → ∃ key k, pdu_state_key q = Some key ∧ numbered_as s' (pdu_kind q) key k ∧ state' !! k = Some (pdu_event_id q))
  ∧ ∀ k id, state' !! k = Some id → state !! k = Some id ∨ ∃ q, q ∈ l ∧ pdu_event_id q = id.
Proof.
  revert state s. induction l as [|q l IH]; intros state s; cbn [gather_state].
  { intros [= <- <-]. split_and!; [done|by intros q Hq%elem_of_nil|by left]. }
  intros (key & s1 & Hkey & Hk)%bind_inv. destruct (pdu_state_key q) as [key'|] eqn:Hq; [|done]. injection Hkey as <- <-.
  apply bind_inv in Hk as (k & s2 & [_ Hn]%number_statekey_inv & Hk). destruct (state !! k) as [|] eqn:Hfree; [done|].
  assert (steady s2 s') as S2 by (eapply steady_after; [|exact Hk]; apply steady_gather_state).
  apply IH in Hk as (Hsub & Hall & Hback). split_and!.
  - etrans; [by apply insert_subseteq|exact Hsub].
  - intros q' [->|Hq']%elem_of_cons; [|by apply Hall]. exists key', k. split_and!; [done|by eapply steady_numbered|].
    eapply lookup_weaken; [|exact Hsub]. apply lookup_insert_eq.
  - intros k' id [Hin|(q' & Hq' & Hid)]%Hback; [|right; exists q'; split; [by right|done]].
    apply lookup_insert_Some in Hin as [[<- <-]|[_ Hin]]; [right; exists q; split; [by left|done]|by left].
Qed.

Lemma tracked_fetch_state v s0 s origin room p version create :
  sound v s → steady s0 s → (∀ e h, pdu_prev_events p = [e] → state_at (timeline_of s0) e ≠ Ok h) →
  tracked (storing room version) v s (fetch_state env origin room (pdu_event_id p) version create)
    (λ v' state s', before_event origin room version create v s0 p state v' s').
Proof.
  intros Hs S0 Hun. unfold fetch_state. eapply tracked_bind; [apply tracked_keeps; [apply _|keep]|]. intros ? n s1 R1 [-> Hn].
  assert (steady s0 s1) as S1 by (etrans; [exact S0|]; eapply steady_after; [apply steady_ask|exact Hn]).
  eapply tracked_bind; [apply tracked_ok_or|]. intros ? ids ? _ (-> & -> & Hids).
  eapply tracked_bind; [apply tracked_fetch_auth; by apply (stored_sound _ _ _ (rtc_stored _ _ _ _ _ R1))|]. intros v2 l s2 R2 Hl.
  eapply tracked_bind; [apply tracked_keeps; [apply _|keep]|]. intros ? state s3 R3 [-> Hg]. apply gather_inv in Hg as (_ & Hall & Hback).
  eapply tracked_bind; [apply (tracked_look _ _ _ (λ s, map_err OfDb (get_shortstatekey (shorts_of (timeline_of s)) ROOM_CREATE "")))|].
  intros ? k ? _ (-> & -> & Hk). destruct (decide _) as [Hcreate|]; [|apply tracked_throw]. apply tracked_ret.
  eapply (before_asked _ _ _ _ _ _ _ _ _ ids l.*1); [done|exact Hids| | | |..].
  - intros q ([q' o] & -> & Hq)%list_elem_of_fmap. rewrite Forall_forall in Hl. specialize (Hl _ Hq). unfold fetched in Hl. cbn in Hl |- *.
    destruct o as [json|]; [exists (pdu_event_id q'); split; [apply Hl|]; right; split; [done|]; exists json; apply Hl|].
    destruct Hl as (id & Hid & Hf). exists id. split; [done|]. left. by rewrite <-(steady_fetch _ s0 s1).
  - etrans; [by apply steady_storing|]. etrans; [exact R2|exact R3].
  - split; [exact Hall|]. intros j id [Hj|Hq]%Hback; [by rewrite lookup_empty in Hj|done].
  - unfold numbered_as. destruct (get_shortstatekey _ _ _) as [k'|]; [|done]. by injection Hk as <-.
  - done.
Qed.

Lemma tracked_state_before v s origin room p version create : sound v s →
  tracked (storing room version) v s (resolve_state_at_incoming_event env origin room p version create)
    (λ v' state s', before_event origin room version create v s p state v' s').
Proof.
  intros Hs. unfold resolve_state_at_incoming_event.
  eapply (tracked_bind _ _ _ _ _ (λ v' o s', v' = v ∧ steady s s' ∧ match o with
    | Some state => before_event origin room version create v s p state v s'
    | None => ∀ e h, pdu_prev_events p = [e] → state_at (timeline_of s) e ≠ Ok h end)).
  - destruct (decide _) as [Hlen|Hlen].
    + eapply tracked_mono; [apply tracked_keeps; [apply _|keep]|]. intros ? o s1 _ [-> Ho].
      pose proof (steady_after _ _ _ _ (steady_degree_one env p) Ho) as S1. split_and!; [done..|].
      apply (degree_one_inv origin room version create v) in Ho; [|done]. destruct o; [done|]. by destruct Ho.
    + eapply tracked_mono; [apply tracked_keeps; [apply _|keep]|]. intros ? o s1 _ [-> Ho].
      pose proof (steady_after _ _ _ _ (steady_resolved env p room version) Ho) as S1. split_and!; [done..|].
      destruct o as [state|]; [by eapply resolved_inv|]. intros e h Hp. by rewrite Hp in Hlen.
  - intros v1 [state|] s1 R1 (-> & S1 & Hb); [by apply tracked_ret|]. apply tracked_fetch_state; [|done..].
    by apply (stored_sound _ _ _ (rtc_stored _ _ _ _ _ R1)).
Qed.

(** ** Entering a timeline *)

Lemma adds_upgrade_checked room p json version state soft_fail : adds p (upgrade_checked env room p json version state soft_fail : M _).
Proof.
  unfold upgrade_checked. do 3 (apply adds_later; [solve [keep]|intros ?]).
  apply adds_first; [|intros r; destruct soft_fail; keep]. unfold append_incoming_pdu. apply adds_later; [keep|intros _].
  destruct soft_fail; [apply adds_keeps; unfold set_leaves; keep|]. apply adds_first; [apply adds_append|intros r; keep].
Qed.

(** What fails softly enters no timeline. *)
Lemma keeps_soft_failed room p json version state : keeps same_events (upgrade_checked env room p json version state true : M _).
Proof. unfold upgrade_checked, append_incoming_pdu, set_leaves. keep. Qed.

Lemma auth_check_inv room p rules state s u s' :
  auth_check_outlier_pdu (E := E) env room p rules state s = (Ok u, s') →
  authorise (E := E) env s rules p (state_before env s state) = Ok tt
  ∧ ∃ auth_events, accessing (E := E) (get_auth_events late room (pdu_kind p) (pdu_sender p) (pdu_state_key p) (pdu_content p)
        (authorization (version_rules rules)) true) s = (Ok auth_events, s')
    ∧ authorise (E := E) env s' rules p (state_among auth_events) = Ok tt.
Proof.
  unfold auth_check_outlier_pdu. intros ([] & s1 & [= H1a <-] & Hk)%bind_inv. apply bind_inv in Hk as (auth_events & s2 & H2a & [= H3a <-]). destruct u. eauto.
Qed.

Lemma soft_fail_inv p rules json s json' s' :
  compute_soft_fail (E := E) env p rules json s = (Ok (false, json'), s') →
  (∀ id, redacts_id p rules = Some id → (user_can_redact late id (pdu_sender p) (pdu_room_id p) true (timeline_of s)).1 = Ok true)
  ∧ (policy_invalid env (answered s) json p).1 = false.
Proof.
  unfold compute_soft_fail. intros (may & s1 & Hmay & Hk)%bind_inv. destruct may; [|done]. apply bind_inv in Hk as (n & s2 & [= <- <-] & [= Hn]). destruct (redacts_id p rules) as [id|].
  - assert (answered s1 = answered s) as Ha. { revert Hmay. unfold accessing. destruct (user_can_redact _ _ _ _ _ _) as [r tl]. by intros [= _ <-]. }
    apply accessing_inv in Hmay. split; [by intros id' [= <-]|]. by rewrite <-Ha, Hn.
  - injection Hmay as <-. split; [done|]. by rewrite Hn.
Qed.

(** From the checks on: the event enters by them, or none does. *)
Lemma upgrade_enters origin room version create v s p json rules state v1 s1 :
  (p, json) ∈ v → pdu_room_id p = room → ¬ placed s (pdu_event_id p) → rules_of version = Some rules →
  before_event origin room version create v s p state v1 s1 →
  let m := bind (auth_check_outlier_pdu (E := E) env room p rules state) (λ _,
    bind (compute_soft_fail env p rules json) (λ x, upgrade_checked env room p x.2 version state x.1)) in
  rtc (handling origin room version create) (v, s) (v1, (m s1).2).
Proof.
  intros Hin Hroom Hn Hr Hb m. assert (rtc (handling origin room version create) (v, s) (v1, s1)) as R1.
  { eapply rtc_subrel; [|by eapply before_stored]. apply handle_stored. }
  assert (same_events s1 (m s1).2 → rtc (handling origin room version create) (v, s) (v1, (m s1).2)) as Hidle.
  { intros Hs. eapply rtc_r; [exact R1|]. by apply idle. }
  revert Hidle. subst m. unfold bind at 1 3 5. destruct (auth_check_outlier_pdu env room p rules state s1) as [[u|e] s2] eqn:Ha; cbn [snd].
  2:{ intros Hidle. apply Hidle. specialize (steady_auth_check_outlier (E := E) env room p rules state s1). rewrite Ha. apply steady_same. }
  assert (same_events s1 s2) as S2 by (eapply steady_same, steady_after; [|exact Ha]; apply steady_auth_check_outlier).
  apply auth_check_inv in Ha as (Hbefore & auth_events & Hread & Hnow).
  unfold bind. destruct (compute_soft_fail env p rules json s2) as [[[soft_fail json']|e] s3] eqn:Hsoft; cbn [snd fst].
  2:{ intros Hidle. apply Hidle. etrans; [exact S2|]. eapply steady_same, steady_after; [|exact Hsoft]. apply steady_compute_soft_fail. }
  assert (same_events s2 s3) as S3 by (eapply steady_same, steady_after; [|exact Hsoft]; apply steady_compute_soft_fail).
  intros Hidle. destruct soft_fail; [apply Hidle; etrans; [exact S2|]; etrans; [exact S3|apply keeps_soft_failed]|].
  destruct (adds_upgrade_checked room p json' version state false s3) as [S4|(t & n & json2 & x & t' & St & Hi & St')].
  { apply Hidle. etrans; [exact S2|]. by etrans. }
  apply soft_fail_inv in Hsoft as [Hredact Hpolicy]. subst room. etrans; [|by apply rtc_once, idle]. apply rtc_once. eapply handle_entered, enter with (t3 := t); try done. by etrans.
Qed.

Lemma tracked_upgrade v s origin room p json version create :
  sound v s → (p, json) ∈ v → pdu_room_id p = room →
  tracked (handling origin room version create) v s (upgrade_outlier_to_timeline_pdu env origin room p json version create) (λ _ _ _, True).
Proof.
  intros Hs Hin Hroom. unfold tracked. unfold upgrade_outlier_to_timeline_pdu. destruct (get_pdu_id _ _) as [pdu_id|e] eqn:Hid; [by exists v|].
  apply (get_pdu_id_not _ _ _ _ Hs) in Hid. destruct (db_panics e); [by exists v|]. destruct (is_event_soft_failed _ _); [by exists v|].
  unfold bind at 1 3, lift at 1 3. destruct (room_version_rules version) as [rules|] eqn:Hr; [|by exists v]. apply rules_found in Hr. cbn [map_err].
  unfold bind at 1 2, lift at 1 2. destruct (check_rules json _) as [[]|]; [|by exists v]. cbn [map_err].
  destruct (tracked_state_before v s origin room p version create Hs) as (v1 & R1 & Hb).
  unfold bind at 1 3. destruct (resolve_state_at_incoming_event env origin room p version create s) as [[state|e'] s1]; cbn [fst snd] in *.
  - exists v1. split; [|done]. apply (upgrade_enters origin room version create v s p json rules state v1 s1); [done..|]. by apply Hb.
  - exists v1. split; [|done]. eapply rtc_subrel; [|exact R1]. apply handle_stored.
Qed.

Lemma tracked_handle_prev v s origin room info version first_ts id create :
  sound v s → (∀ x, info = Some x → x ∈ v ∧ pdu_room_id x.1 = room) →
  tracked (handling origin room version create) v s (handle_prev_pdu env origin room info version first_ts id create) (λ _ _ _, True).
Proof.
  intros Hs Hi. unfold handle_prev_pdu. eapply tracked_bind; [apply tracked_keeps; [apply _|keep]|]. intros ? disabled s1 _ [-> [= _ <-]].
  destruct disabled; [apply tracked_throw|]. destruct info as [[p json]|]; [|by apply tracked_ret]. destruct (Hi _ eq_refl).
  case_match; [by apply tracked_ret|]. eapply tracked_bind; [apply tracked_keeps; [apply _|keep]|]. intros ? off s1 R1 [-> _].
  destruct off; [by apply tracked_ret|]. apply tracked_upgrade; [|done..]. by apply (handling_sound _ _ _ _ _ _ _ R1).
Qed.

Lemma tracked_handle_one_prev v s origin room version first_ts create info id :
  sound v s → info_checked room v info →
  tracked (handling origin room version create) v s (handle_one_prev env origin room version first_ts create info id) (λ _ _ _, True).
Proof.
  intros Hs Hi. unfold handle_one_prev. eapply tracked_bind; [apply tracked_keeps; [apply _|keep]|]. intros ? up s1 R1 [-> _].
  apply (handling_sound _ _ _ _ _ _ _ R1) in Hs as Hs1. destruct (negb up); [apply tracked_throw|].
  destruct (tracked_handle_prev v s1 origin room (info !! id) version first_ts id create Hs1 (Hi id)) as (v2 & R2 & _).
  exists v2. destruct (handle_prev_pdu _ _ _ _ _ _ _ _ s1) as [[[handled|]|e] s2]; cbn [snd] in R2; (split; [|done]); [|done|].
  - etrans; [exact R2|]. apply rtc_once, idle. keep_here.
  - destruct (is_panic e); [done|]. etrans; [exact R2|]. apply rtc_once, idle. keep_here.
Qed.

Lemma tracked_handle_prevs v s origin room version first_ts create sorted info :
  sound v s → info_checked room v info →
  tracked (handling origin room version create) v s (handle_prevs env origin room version first_ts create sorted info) (λ _ _ _, True).
Proof.
  intros Hs Hi. unfold handle_prevs. eapply (tracked_bind _ _ _ _ _ (λ _ _ _, True)); [|intros v1 l s1 _ _; destruct (omap _ l); [by apply tracked_ret|apply tracked_throw]].
  revert v s Hs Hi. induction (complete sorted) as [|id l IH]; intros v s Hs Hi; cbn [Effects.collect]; [by apply tracked_ret|].
  eapply tracked_bind; [by apply tracked_handle_one_prev|]. intros v1 o s1 [Hm1 Hs1]%handling_sound _.
  eapply tracked_bind; [apply IH; [by apply Hs1|by eapply info_checked_more]|]. intros v2 os s2 _ _. by apply tracked_ret.
Qed.

Lemma tracked_timeline_event v s origin room p json version create :
  sound v s → (p, json) ∈ v → pdu_room_id p = room →
  tracked (handling origin room version create) v s (handle_timeline_event env origin room p json version create) (λ _ _ _, True).
Proof.
  intros Hs Hin Hroom. unfold handle_timeline_event. eapply tracked_bind; [apply tracked_keeps; [apply _|keep]|]. intros ? n s1 R1 [-> _].
  apply (handling_sound _ _ _ _ _ _ _ R1) in Hs as Hs1.
  eapply tracked_bind; [apply (tracked_look _ _ _ (λ s, map_err OfTimeline (first_item_in_room (clock env n) (timeline_of s) room)))|].
  intros ? first ? _ (-> & -> & _). cbv zeta. destruct (_ <? _)%N; [by apply tracked_ret|].
  eapply tracked_bind; [by apply tracked_handling, tracked_fetch_prev|]. intros v2 prevs s2 R2 Hi. destruct (handling_sound _ _ _ _ _ _ _ R2) as [Hm2 Hs2].
  eapply tracked_bind; [apply tracked_handle_prevs; [by apply Hs2|done]|]. intros v3 [] s3 R3 _. destruct (handling_sound _ _ _ _ _ _ _ R3) as [Hm3 Hs3].
  apply tracked_upgrade; [by apply Hs3, Hs2|by apply Hm3, Hm2|done].
Qed.

(** ** Admission *)

Lemma acl_check_inv s t room server t' :
  steady s t → acl_check (E := E) env server room t = (Ok tt, t') → acl_allows env s room server.
Proof.
  intros St. unfold acl_check. fold late. intros (o & t1 & Ho & Hk)%bind_inv. exists t. split; [done|]. intros acl Hacl.
  revert Ho. unfold accessing, ignoring. fold late in Hacl. destruct (room_state_get_content late content_acl room ROOM_SERVER_ACL "" (timeline_of t)) as [r tl].
  cbn in Hacl. subst r. intros [= <- <-]. case_bool_decide as H1a; [by left|]. case_bool_decide as H2a; [by right; left|].
  destruct (acl_is_allowed acl server) eqn:Hal; [by right; right|done].
Qed.

Lemma admit_inv s origin room json (create : Pdu) t :
  admit_event (E := E) env origin room json s = (Ok create, t) → steady s t ∧ admitted env s origin room json create.
Proof.
  intros Hadmit. split; [by eapply steady_after; [apply steady_admit|exact Hadmit]|]. revert Hadmit. unfold admit_event. fold late.
  intros (known & s1 & Hknown & Hk)%bind_inv. unfold looking in Hknown. destruct (room_exists (timeline_of s) room) as [known'|] eqn:He; [|done].
  injection Hknown as -> <-. apply bind_inv in Hk as (disabled & s1 & [= <- <-] & Hk). apply bind_inv in Hk as (sender & s1 & Hsender & Hk).
  destruct (json !! "sender" ≫= de_id user_id_ok) as [sender'|] eqn:Hs; [|done]. injection Hsender as -> <-.
  apply bind_inv in Hk as ([] & s1 & Ha & Hk). pose proof (steady_after _ _ _ _ (steady_acl_check env origin room) Ha) as S1.
  apply bind_inv in Hk as ([] & s2 & Hb & Hk). assert (steady s s2) as S2.
  { etrans; [exact S1|]. eapply steady_after; [|exact Hb]. keep. }
  apply bind_inv in Hk as (create' & s3 & Hc & Hk). destruct known; [|done]. cbn [negb] in Hk. destruct (is_disabled (meta s) room) eqn:Hd; [done|].
  injection Hk as -> _. split; [done|done| |].
  - exists sender. split; [done|]. pose proof (acl_check_inv s s room origin s1 (reflexivity s) Ha) as Ho. split; [done|].
    destruct (decide (server_name sender = origin)) as [->|]; [done|]. exact (acl_check_inv s s1 room _ s2 S1 Hb).
  - exists s2. split; [done|]. by eapply accessing_inv.
Qed.

Lemma incoming_steps v s origin room event_id json is_timeline_event s' :
  sound v s →
  (∀ (create : Pdu) version, (admit_event env origin room json s : _ * _).1 = Ok create (E := ServerError (E := E)) →
    content_room_version (pdu_content create) = Some version → gen_event_id json version = Ok event_id) →
  (handle_incoming_pdu env origin room event_id json is_timeline_event s : Result (ServerError (E := E)) _ * _).2 = s' →
  same_events s s'
  ∨ ∃ (create : Pdu) version v', admitted env s origin room json create ∧ content_room_version (pdu_content create) = Some version
    ∧ rtc (handling origin room version (pdu_event_id create)) (v, s) (v', s').
Proof.
  intros Hs Hgen. unfold handle_incoming_pdu. destruct (get_pdu_id _ event_id) as [pdu_id|e] eqn:Hid; [intros <-; by left|].
  apply (get_pdu_id_not _ _ _ _ Hs) in Hid. destruct (db_panics e); [intros <-; by left|]. unfold bind at 1.
  destruct (admit_event env origin room json s) as [[create|err] s1] eqn:Hadmit.
  2:{ intros <-. left. specialize (steady_admit (E := E) env origin room json s). rewrite Hadmit. apply steady_same. }
  apply admit_inv in Hadmit as [S1 Hadm]. unfold bind at 1, lift, get_content.
  destruct (content_room_version _) as [version|] eqn:Hv; [|intros <-; left; by apply steady_same].
  cbn [ok_or map_err]. intros Hrun. right. exists create, version. specialize (Hgen create version eq_refl Hv).
  assert (sound v s1) as Hs1 by (eapply same_sound; [by apply steady_same|done]).
  match type of Hrun with (?m s1).2 = _ => assert (tracked (handling origin room version (pdu_event_id create)) v s1 m (λ _ _ _, True)) as (v' & R & _) end.
  - eapply tracked_bind.
    { apply tracked_handling, tracked_handle_outlier; [done|by rewrite (steady_placed s s1)|done|]. intros v1 t1 p Ht1.
      eapply tracked_bind; [by apply tracked_fetch_auth|]. intros v2 l t2 _ _. by apply tracked_ret. }
    intros v1 [p json'] s2 R2 (Hin & _ & Hroom). destruct is_timeline_event; [|by apply tracked_ret].
    apply tracked_timeline_event; [by apply (handling_sound _ _ _ _ _ _ _ R2)|done..].
  - exists v'. split_and!; [done..|]. rewrite Hrun in R. eapply rtc_l; [|exact R]. apply idle. by apply steady_same.
Qed.


(** ** Refusals *)

(** An event from a server that the room's access list denies is refused before
    anything is stored. *)
Theorem denied_server_refused s s1 origin room event_id json is_timeline_event known sender acl :
  get_pdu_id (timeline_of s) event_id = Err DbMap.NotFound → room_exists (timeline_of s) room = Ok known →
  json !! "sender" ≫= de_id user_id_ok = Some sender →
  accessing (E := E) (ignoring (room_state_get_content late content_acl room ROOM_SERVER_ACL "")) s = (Ok (Some acl), s1) →
  acl_allow acl ≠ [] → ¬ ("*" ∈ acl_deny acl ∧ "*" ∈ acl_allow acl) → acl_is_allowed acl origin = false →
  handle_incoming_pdu env origin room event_id json is_timeline_event s
  = (Err (Failed (Request Forbidden "Server was denied by room ACL")), s1) ∧ same_events s s1.
Proof.
  intros Hid Hex Hsender Hacl Ha Hb Hden.
  assert (same_events s s1) as Hsame.
  { replace s1 with (accessing (E := E) (ignoring (room_state_get_content late content_acl room ROOM_SERVER_ACL "")) s).2 by (by rewrite Hacl).
    apply steady_same, steady_accessing, keeps_ignoring. keep. }
  split; [|done]. unfold handle_incoming_pdu. rewrite Hid. cbn [db_panics]. unfold admit_event, acl_check, looking, reading, lift, bind. rewrite Hex, Hsender. cbn [ok_or map_err].
  fold late. rewrite Hacl. rewrite bool_decide_false by done. rewrite bool_decide_false by done. by rewrite Hden.
Qed.

(** An event of another server that names a known event without a state key as
    an auth event makes the handler panic. *)
Theorem message_as_auth_event_panics s s1 room id json version rules verified p json' a q :
  verify_pdu (E := E) env id (delete "unsigned" json) version s = (Ok verified, s1) → rules_of version = Some rules →
  from_object_federation room id verified rules = Some (Ok (p, json')) →
  a ∈ pdu_auth_events p → event_fetch late s1 a = Ok q → pdu_state_key q = None →
  handle_outlier_with (E := E) env (λ _, ret tt) room id json version s = (Err ServerPanic, s1).
Proof.
  intros Hv Hr Hf Ha Hq Hk. unfold handle_outlier_with, lift, bind. rewrite Hv. unfold room_version_rules. rewrite Hr. cbn [ok_or map_err].
  rewrite Hf. cbn [ok_or map_err fst snd ret].
  assert (own_auth_events env s1 rules p = None) as ->; [|done].
  unfold own_auth_events. apply mapM_None. apply Exists_exists. exists q. split; [|unfold keyed_pdu; by rewrite Hk].
  apply list_elem_of_omap. exists a. fold late. rewrite Hq. split; [|done]. apply elem_of_app. by left.
Qed.

Lemma soft_failed_prev s origin room version first_ts create id p json :
  get_pdu_id (timeline_of s) (pdu_event_id p) = Err DbMap.NotFound →
  is_event_soft_failed (meta s) (pdu_event_id p) = true → is_disabled (meta s) room = false → (first_ts <= pdu_ts p)%N →
  bad_event_ratelimiter s !! id = None →
  ∃ s', handle_prev_pdu (E := E) env origin room (Some (p, json)) version first_ts id create s = (Err soft_failed, s').
Proof.
  intros Hp Hsoft Hd Ht Hl. unfold handle_prev_pdu, reading. unfold bind at 1. rewrite Hd, (proj2 (N.ltb_ge _ _)) by done.
  unfold bind at 1, is_backed_off, ask. unfold bind at 1. cbn [bad_event_ratelimiter]. rewrite Hl.
  unfold upgrade_outlier_to_timeline_pdu. unfold timeline_of in *. cbn [chains meta]. rewrite Hp. cbn [db_panics]. rewrite Hsoft. by eexists.
Qed.

(** An event whose previous event once failed softly is refused, and so on along
    everything that comes after. *)
Theorem soft_failed_prev_refuses s origin room version first_ts create id p json info :
  info !! id = Some (p, json) → get_pdu_id (timeline_of s) (pdu_event_id p) = Err DbMap.NotFound →
  is_event_soft_failed (meta s) (pdu_event_id p) = true → is_disabled (meta s) room = false → (first_ts <= pdu_ts p)%N →
  bad_event_ratelimiter s !! id = None → running env (answered s) = true →
  (handle_prevs (E := E) env origin room version first_ts create [id] info s).1 = Err soft_failed.
Proof.
  intros Hi Hp Hsoft Hd Ht Hl Hrun. unfold handle_prevs.
  assert (complete [id] = [id]) as -> by (apply Permutation_singleton_r, complete_perm).
  assert (∃ s', handle_one_prev (E := E) env origin room version first_ts create info id s = (Ok (Some soft_failed), s')) as [s' Hone].
  { unfold handle_one_prev, check_running, ask. unfold bind at 1. unfold bind at 1. unfold ret at 1. rewrite Hrun. cbn [negb]. rewrite Hi.
    set (s1 := mkServer _ _ _ _ _ _). destruct (soft_failed_prev s1 origin room version first_ts create id p json) as [s2 ->]; [done..|].
    change (is_panic (soft_failed (E := E))) with false. cbv iota. unfold back_off, ask, bind, ret. cbn [bad_event_ratelimiter].
    destruct (bad_event_ratelimiter s2 !! id) as [[]|]; by eexists. }
  unfold bind. cbn. unfold bind. rewrite Hone. done.
Qed.

(** ** The loops end *)

(** An operation that never fails, with what its result is. *)
Definition total {A} (m : M A) (Q : A → Prop) : Prop := ∀ s, ∃ a s', m s = (Ok a, s') ∧ Q a.

Lemma total_ret {A} (a : A) (Q : A → Prop) : Q a → total (ret a) Q.
Proof. intros Ha s. by exists a, s. Qed.
Lemma total_bind {A B} (m : M A) (k : A → M B) (Q : A → Prop) (R : B → Prop) :
  total m Q → (∀ a, Q a → total (k a) R) → total (bind m k) R.
Proof. intros Hm Hk s. destruct (Hm s) as (a & s1 & E1 & HQ). unfold bind. rewrite E1. by apply Hk. Qed.

Lemma total_ask : total ask (λ _, True).
Proof. intros s. by eexists _, _. Qed.
Lemma total_running : total (check_running env) (λ _, True).
Proof. eapply total_bind; [apply total_ask|]. intros n _. by apply total_ret. Qed.
Lemma total_cancel id : total (cancel_back_off id) (λ _, True).
Proof. intros s. by eexists _, _. Qed.
Lemma total_back_off id : total (back_off env id) (λ _, True).
Proof. eapply total_bind; [apply total_ask|]. intros n _ s. destruct (bad_event_ratelimiter s !! id) as [[]|]; by eexists _, _. Qed.
Lemma total_backed_off id range : total (is_backed_off env id range) (λ _, True).
Proof. eapply total_bind; [apply total_ask|]. intros n _ s. destruct (bad_event_ratelimiter s !! id) as [[]|]; by eexists _, _. Qed.

Section finite.
Variables (origin : string) (U : gset string).
(** The server has only these events. *)
Hypothesis answers : ∀ n id text, federation_event env n origin id = Some text → id ∈ U.

Lemma total_fetch_event version id : total (fetch_event env origin version id) (λ o, is_Some o → id ∈ U).
Proof.
  unfold fetch_event. eapply total_bind; [apply total_ask|]. intros n _. destruct (federation_event env n origin id) as [text|] eqn:Hf.
  - apply answers in Hf. eapply total_bind; [apply total_cancel|]. intros _ _. destruct (gen_event_id_canonical_json text version) as [[id' value]|].
    + case_decide; (eapply total_bind; [apply total_cancel || apply total_back_off|]); intros _ _; by apply total_ret.
    + eapply total_bind; [apply total_back_off|]. intros _ _. by apply total_ret.
  - eapply total_bind; [apply total_back_off|]. intros _ _. apply total_ret. by intros [? ?].
Qed.

(** Walking an auth chain takes at most ten steps for each event the other
    server has; nothing else bounds it. *)
Theorem fetch_chain_terminates version fuel todo all found :
  length todo + MAX_AUTH_EVENTS * size (U ∖ all) ≤ fuel →
  total (fetch_chain env fuel origin version todo all found) (λ _, True).
Proof.
  revert todo all found. induction fuel as [|fuel IH]; intros [|next_id todo] all found Hfuel; cbn [fetch_chain length] in *;
    [by apply total_ret|lia|by apply total_ret|].
  assert (∀ found, total (fetch_chain env fuel origin version todo all found) (λ _, True)) as Hskip by (intros; apply IH; lia).
  destruct (decide (next_id ∈ all)) as [|Hnew]; [done|]. eapply total_bind; [apply total_backed_off|]. intros [] _; [done|].
  eapply (total_bind _ _ (λ _, True)); [by intros s; eexists _, _|]. intros [] _; [done|]. eapply total_bind; [apply total_running|].
  intros up _. destruct (negb up); [by apply total_ret|]. eapply total_bind; [apply total_fetch_event|]. intros [value|] Hv; [|done].
  apply IH. rewrite length_app. specialize (Hv ltac:(by eexists)).
  assert (length (named_auth_events value) ≤ MAX_AUTH_EVENTS) by (unfold named_auth_events; rewrite length_take; lia).
  replace (U ∖ ({[next_id]} ∪ all)) with ((U ∖ all) ∖ {[next_id]}) by set_solver.
  rewrite size_difference, size_singleton by set_solver.
  assert (size (U ∖ all) ≠ 0) by (apply size_non_empty_iff; set_solver). nia.
Qed.
End finite.

Definition finishes {A} (m : M A) : Prop := ∀ s, (m s).1 ≠ Err Unfinished.

Lemma finishes_bind {A B} (m : M A) (k : A → M B) : finishes m → (∀ a, finishes (k a)) → finishes (bind m k).
Proof. intros Hm Hk s. specialize (Hm s). unfold bind. destruct (m s) as [[a|e] s']; cbn in *; [apply Hk|]. congruence. Qed.
Lemma finishes_ret {A} (a : A) : finishes (ret a).
Proof. by intros s. Qed.
Lemma finishes_throw {A} e : e ≠ Unfinished → finishes (throw (A := A) e).
Proof. intros He s. cbn. congruence. Qed.
Lemma finishes_ok_or {A} e (o : option A) : e ≠ Unfinished → finishes (lift (ok_or e o)).
Proof. intros He s. destruct o; cbn; congruence. Qed.
Lemma finishes_map_err {A F} (f : F → ServerError (E := E)) (r : Result F A) : (∀ e, f e ≠ Unfinished) → finishes (lift (map_err f r)).
Proof. intros Hf s. destruct r as [a|e]; cbn; [done|]. specialize (Hf e). congruence. Qed.
Lemma finishes_total {A} (m : M A) Q : total m Q → finishes m.
Proof. intros Hm s. destruct (Hm s) as (a & s' & -> & _). done. Qed.
Lemma finishes_reading {A} (f : Server → A) : finishes (reading f).
Proof. by intros s. Qed.
Lemma finishes_ignoring {A} (m : M A) : finishes m → finishes (ignoring m).
Proof. intros Hm s. specialize (Hm s). unfold ignoring. destruct (m s) as [[a|e] s']; cbn in *; [done|]. destruct (is_panic e); cbn; congruence. Qed.
Lemma finishes_collect {A B} (f : A → M B) l : (∀ a, finishes (f a)) → finishes (Effects.collect f l).
Proof.
  intros Hf. induction l as [|a l IH]; cbn; [apply finishes_ret|]. apply finishes_bind; [done|]. intros b.
  apply finishes_bind; [done|]. intros bs. apply finishes_ret.
Qed.

Lemma finishes_verify id json version : finishes (verify_pdu env id json version).
Proof.
  unfold verify_pdu. apply finishes_bind; [by eapply finishes_total, total_ask|]. intros n.
  destruct (verify_event env n json version) as [[]|]; [apply finishes_ret| |by apply finishes_throw].
  do 2 (apply finishes_bind; [by apply finishes_ok_or|intros ?]). apply finishes_bind; [apply finishes_reading|]. intros []; [by apply finishes_throw|apply finishes_ret].
Qed.

Lemma finishes_handle_outlier fetch room id json version :
  (∀ p, finishes (fetch p)) → finishes (handle_outlier_with env fetch room id json version).
Proof.
  intros Hf. unfold handle_outlier_with. apply finishes_bind; [apply finishes_verify|]. intros verified.
  apply finishes_bind; [by apply finishes_map_err|]. intros rules. apply finishes_bind; [by apply finishes_ok_or|]. intros parsed.
  apply finishes_bind; [by apply finishes_map_err|]. intros [p json']. cbn [fst snd]. apply finishes_bind; [apply Hf|]. intros _.
  apply finishes_bind; [|intros _; apply finishes_bind; [|intros _; apply finishes_ret]].
  - intros s. destruct (own_auth_events env s rules p); [|done]. cbn. unfold authorise. by destruct (auth_check _ _ _ _).
  - intros s. unfold on_timeline, add_pdu_outlier. by rewrite raw_put_json.
Qed.

Lemma finishes_handle_chains room version l pdus : finishes (handle_chains env room version l pdus).
Proof.
  assert (∀ id events pdus, finishes (handle_chain env room version id events pdus)) as Hchain.
  { intros id events. induction events as [|[next_id value] events IH]; intros pdus'; cbn [handle_chain]; [apply finishes_ret|].
    apply finishes_bind; [by eapply finishes_total, total_backed_off|]. intros []; [apply IH|].
    apply finishes_bind; [apply finishes_ignoring, finishes_handle_outlier; intros p; apply finishes_ret|].
    intros [[p json]|]; (apply finishes_bind; [eapply finishes_total; apply total_cancel || apply total_back_off|]); intros _; apply IH. }
  revert pdus. induction l as [|[id [local_pdu found]] l IH]; intros pdus; cbn [handle_chains]; [apply finishes_ret|].
  apply finishes_bind; [by eapply finishes_total, total_running|]. intros up. destruct (negb up); [apply IH|]. apply finishes_bind; [apply Hchain|]. intros pdus'. apply IH.
Qed.

Section finite_prev.
Variables (origin : string) (U : gset string).
Hypothesis answers : ∀ n id text, federation_event env n origin id = Some text → id ∈ U.
Hypothesis enough : 1 + MAX_AUTH_EVENTS * size U ≤ loop_fuel env.

Lemma finishes_fetch_auth room events version : finishes (fetch_auth env origin room events version).
Proof.
  unfold fetch_auth. apply finishes_bind; [|intros l; apply finishes_handle_chains]. apply finishes_collect. intros id s. unfold fetch_auth_chain.
  destruct (event_fetch _ s id) as [p|e]; [done|]. destruct (is_panic e); [done|]. revert s.
  match goal with |- ∀ s, (?m s).1 ≠ _ => change (finishes m) end. apply finishes_bind; [|intros found; apply finishes_ret].
  eapply finishes_total, (fetch_chain_terminates origin U); [done|]. cbn [length]. replace (U ∖ ∅) with U by set_solver. done.
Qed.

(** The count of events followed stops at the largest 16-bit number: a limit of
    that size would never be passed. *)
Hypothesis limited : (max_fetch_prev_events env < 65535)%N.

(** What is left to do: the events to look at, and those that may still follow. *)
Definition prev_work (w : PrevWalk) : nat :=
  length (prev_todo w) + MAX_PREV_EVENTS * N.to_nat (max_fetch_prev_events env + 1 - prev_amount w).

Lemma array_field_short json field n (v : list Value) : extract_required_array_field json field n = Ok v → json !! field = Some (Array v) ∧ length v ≤ n.
Proof.
  unfold extract_required_array_field. intros Hv. repeat case_match; simplify_eq. split; [done|]. by apply Nat.ltb_ge.
Qed.

Lemma rules_prev json (format : EventFormatRules) p : check_rules json format = Ok tt → pdu_from_object json = Some p → length (pdu_prev_events p) ≤ MAX_PREV_EVENTS.
Proof.
  unfold check_rules. intros Hr Hp. destruct (extract_required_array_field json "prev_events" MAX_PREV_EVENTS) as [v|] eqn:Hv;
    [|repeat case_match; simplify_eq]. apply array_field_short in Hv as [Hv Hlen]. clear Hr. unfold pdu_from_object in Hp. rewrite Hv in Hp. cbn [mbind option_bind] in Hp.
  assert (∃ l, mapM (de_id event_id_ok) v = Some l ∧ pdu_prev_events p = l) as (l & Hl & ->).
  { unfold de_vec in Hp. cbn [as_array mbind option_bind] in Hp. destruct (mapM (de_id event_id_ok) v) as [l|]; cbn [mbind option_bind] in Hp.
    - exists l. split; [done|]. clear -Hp.
      repeat match type of Hp with context [mbind (M := option) _ ?x] => destruct x; cbn [mbind option_bind] in Hp; [|done] end. by injection Hp as <-.
    - repeat match type of Hp with context [mbind (M := option) _ ?x] => destruct x; cbn [mbind option_bind] in Hp; [|done] end. done. }
  by rewrite <-(length_mapM _ _ _ Hl).
Qed.

Lemma checked_prev version t p json : checked version t p json → length (pdu_prev_events p) ≤ MAX_PREV_EVENTS.
Proof.
  intros (rules & n & object & verified & l & _ & _ & _ & (_ & Hr & Hp & _)%federation_parsed & _). by eapply rules_prev.
Qed.

Lemma prev_found_work room first_ts id w v s w' : sound v s → prev_found room first_ts id w v w' → prev_work w' ≤ prev_work w.
Proof.
  intros Hs [->|(p & json & Hin & _ & Ha & ->)]; [done|]. destruct (sound_checked _ _ _ Hs p json Hin) as (version & t & Hc%checked_prev).
  unfold prev_known, prev_work. case_match; cbn; [|done]. rewrite length_app.
  pose proof (length_filter (λ prev_prev, prev_graph w !! prev_prev = None) (pdu_prev_events p)). unfold MAX_PREV_EVENTS in *. lia.
Qed.

Lemma finishes_prev_step room version first_ts id w : finishes (prev_step env origin room version first_ts id w).
Proof.
  unfold prev_step. apply finishes_bind; [apply finishes_fetch_auth|]. intros l. apply finishes_bind; [by eapply finishes_total, total_running|].
  intros up. destruct (negb up); [by apply finishes_throw|]. destruct (last l) as [[p json_opt]|]; [|apply finishes_ret].
  apply finishes_bind; [by apply finishes_map_err|]. intros _. destruct (_ <? _)%N; [apply finishes_ret|].
  apply finishes_bind; [|intros o; apply finishes_ret]. destruct json_opt; [apply finishes_ret|apply finishes_reading].
Qed.

End finite_prev.
End accepted.
