(* ===== verification/Built.v ===== *)
(** * What it takes for a user of this server to add an event to a room

    The theorems on [Build]: an event that is built here is authorised on the
    entries of the current state that its room version selects, and only one that
    passes this and the rules of this server enters a timeline. *)

From S2P Require Import Prelude Effects Bytes Slices SetOps DbCodec DbMap Pairs Counter Short Compressor RoomStates PduId Timeline AuthChain MemberCache RoomMeta Json Sender Core RoomEvents RoomAuth PduFormat StateAccessor Append Incoming Build EventFrames Entry.

Local Open Scope op_scope.

Section built.
Context {W E : Type} `{Engine, JsonParser, Identifiers, Users, Lru, Digest, Formats, Ruma, !RoomContents, HashIter}.
Context `{!Services W E, !AppendContents, !OtherServices W, !BuildContents, !BuildServices W}.
Variables (late : string → bool) (now : N).
Implicit Types (s : Server (W := W)) (p : Pdu) (room version sender : string) (b : PduBuilder) (json : CanonicalJsonObject) (rules : PduRules).
Notation M := (Op (ServerError (E := E)) (Server (W := W))).

(** ** Operations that only number and load *)

Lemma steady_fetching s s' : steady s s' →
  (λ id, map_err error_of (event_fetch late s' id)) = (λ id, map_err error_of (event_fetch late s id)).
Proof. intros [(x & c & Ht & _) _ _ _]. unfold event_fetch. by rewrite Ht. Qed.

Lemma steady_depth prev_events : keeps steady (next_depth late prev_events : M N).
Proof. unfold next_depth. keep. Qed.
Lemma steady_unsigned b room : keeps steady (unsigned_for late b room : M _).
Proof. unfold unsigned_for. keep. Qed.
Lemma steady_version b room : keeps steady (version_for late b room : M _).
Proof. unfold version_for. keep. Qed.
Lemma steady_timestamp b : keeps steady (timestamp_for now b : M N).
Proof. unfold timestamp_for. keep. Qed.
Lemma steady_sign p fields version rules : keeps steady (sign_pdu p fields version rules : M _).
Proof. unfold sign_pdu. keep. Qed.
#[local] Hint Resolve steady_depth steady_unsigned steady_version steady_timestamp steady_sign : keeps.

Lemma steady_create b sender room : keeps steady (create_hash_and_sign_event late now b sender room : M _).
Proof. unfold create_hash_and_sign_event. keep. Qed.

Lemma steady_suspended p : keeps steady (check_pdu_for_suspended_sender late p : M unit).
Proof. unfold check_pdu_for_suspended_sender, is_self_redaction. keep. Qed.
Lemma steady_admin p sender : keeps steady (check_pdu_for_admin_room p sender : M unit).
Proof. unfold check_pdu_for_admin_room, forbid_losing_admins. keep. Qed.
Lemma steady_redaction p : keeps steady (check_redaction late p : M unit).
Proof. unfold check_redaction. keep. Qed.
Lemma steady_join p : keeps steady (check_authorised_join p : M unit).
Proof. unfold check_authorised_join. keep. Qed.
#[local] Hint Resolve steady_suspended steady_admin steady_redaction steady_join : keeps.
Lemma steady_check p sender : keeps steady (check_built late p sender : M unit).
Proof. unfold check_built. keep. Qed.

(** ** Creation *)

(** The current state of a room: the ids of its entries. *)
Record current (tl : Timeline) (ids : gset N) room (m : gmap TypeStateKey string) : Prop := {
  current_inv : states_inv (states tl) ids;
  current_hash : ∃ h x, get_room_shortstatehash (states tl) room = Ok h ∧ holds (diff_rows (states tl)) h x ∧ describes (shorts_of tl) x m;
  current_readable : readable late tl;
}.

Lemma current_cached tl tl' ids room m : cached tl tl' → current tl ids room m → current tl' ids room m.
Proof.
  intros Hc [Hi (h & x & Hh & Hx & Hd) Hr]. split; [by eapply cached_inv| |by eapply cached_readable].
  exists h, x. rewrite (cached_rows _ _ Hc), (cached_shorts _ _ Hc). split; [|done]. by destruct Hc as (st & -> & [[c ->] _]).
Qed.

Lemma room_content_spec {T} (read : Value → option T) tl ids room m t :
  current tl ids room m → utf8_valid t.1 = true → utf8_valid t.2 = true →
  ∃ tl', cached tl tl' ∧ ignoring (room_state_get_content late read room t.1 t.2) tl = (Ok (content_in late read tl m t), tl').
Proof.
  intros [Hi (h & x & Hh & Hx & Hd) Hr] Hu1 Hu2. destruct (state_content_spec late read tl ids h x m t) as (tl' & Hc & Es); [done..|].
  exists tl'. split; [done|]. rewrite <-Es. unfold ignoring, room_state_get_content, state_get_content, room_state_get, room_state_hash, bind.
  rewrite Hh. done.
Qed.

Lemma version_spec b s ids room m version rules :
  current (timeline_of s) ids room m → content_in late content_room_version (timeline_of s) m (ROOM_CREATE, "") = Some version →
  rules_of version = Some rules →
  ∃ tl, version_for late b room s = (Ok (version, rules) (E := ServerError (E := E)), with_timeline tl s) ∧ cached (timeline_of s) tl.
Proof.
  intros Hcur Hv Hr. destruct (room_content_spec content_room_version _ ids room m (ROOM_CREATE, "") Hcur) as (tl & Hc & Es); [done..|].
  exists tl. split; [|done]. unfold version_for, get_room_version, ignoring at 1, accessing, bind at 1 2. cbn [fst snd] in Es.
  unfold bind at 1. rewrite Es, Hv. cbn. unfold room_version_rules. by rewrite Hr.
Qed.

(** The event is allowed by the entries of the current state that the rules
    select, and is built on the forward extremities. *)
Definition authorised_now s b sender room rules (types : list TypeStateKey) (m : gmap TypeStateKey string) p : Prop :=
  ∃ found leaves ts,
    (∀ t q, found !! t = Some q ↔ t ∈ types ∧ ∃ id, m !! t = Some id ∧ event_fetch late s id = Ok q)
    ∧ get_forward_extremities (states (timeline_of s)) room = Ok leaves
    ∧ let draft := drafted b sender room ts (take 20 leaves) (auth_ids (event_format rules) found) in
      auth_check (version_rules rules) draft (λ id, map_err error_of (event_fetch late s id)) (auth_fetch found) = Ok tt
      ∧ p = renamed draft (pdu_event_id p) (pdu_room_id p)
      ∧ (b_type b ≠ ROOM_CREATE → pdu_room_id p = room).

Lemma sign_renamed q fields version rules s p json s' :
  sign_pdu q fields version rules s = (Ok (p, json) (E := ServerError (E := E)), s') →
  p = renamed q (pdu_event_id p) (pdu_room_id p) ∧ (pdu_kind q ≠ ROOM_CREATE → pdu_room_id p = pdu_room_id q).
Proof.
  unfold sign_pdu. intros (object & s1 & _ & Hk)%bind_inv. apply bind_inv in Hk as (signed & s2 & _ & Hk).
  destruct (room_id_format_v2 rules && bool_decide (pdu_kind q = ROOM_CREATE)) eqn:Ec; [|by injection Hk as <- _ _].
  apply bind_inv in Hk as (new_room & s3 & _ & Hk). injection Hk as <- _ _. split; [done|]. by apply andb_prop in Ec as [_ ?%bool_decide_eq_true_1].
Qed.

Lemma create_authorised s ids room m version rules types b sender p json s' :
  current (timeline_of s) ids room m → content_in late content_room_version (timeline_of s) m (ROOM_CREATE, "") = Some version →
  rules_of version = Some rules →
  auth_types_for_event (b_type b) sender (b_state_key b) (b_content b) (authorization (version_rules rules)) true = Ok types →
  Forall (λ t, utf8_valid t.1 = true ∧ utf8_valid t.2 = true) types →
  create_hash_and_sign_event late now b sender room s = (Ok (p, json) (E := ServerError (E := E)), s') →
  authorised_now s b sender room rules types m p ∧ check_rules json (event_format rules) = Ok tt.
Proof.
  intros Hcur Hv Hr Ht Hu. unfold create_hash_and_sign_event. intros (leaves & s1 & Hl & Hk)%bind_inv.
  destruct (get_forward_extremities _ room) as [leaves'|] eqn:Hleaves; [|done]. injection Hl as <- <-. cbv zeta in Hk.
  apply bind_inv in Hk as (v & s1 & Ev & Hk). destruct (version_spec b s ids room m version rules Hcur Hv Hr) as (tl1 & Ev' & Hc1).
  rewrite Ev' in Ev. injection Ev as <- <-. apply bind_inv in Hk as (found & s2 & Ef & Hk). cbn [fst snd] in *.
  destruct (current_cached _ _ _ _ _ Hc1 Hcur) as [Hi1 (h & x & Hh & Hx & Hd) _].
  destruct (get_auth_events_exact late tl1 ids room h x m (b_type b) sender (b_state_key b) (b_content b)
    (authorization (version_rules rules)) true types Hi1 Hh Hx Hd Ht Hu) as (found' & tl2 & Ef' & Hc2 & Hfound).
  unfold accessing in Ef. change (timeline_of (with_timeline tl1 s)) with tl1 in Ef. rewrite Ef' in Ef. injection Ef as <- <-.
  pose proof (cached_trans _ _ _ Hc1 Hc2) as Hc. assert (steady s (with_timeline tl2 (with_timeline tl1 s))) as Hsteady.
  { split; [|done..]. by apply settled_cached. }
  apply bind_inv in Hk as (depth & s3 & E3 & Hk). apply bind_inv in Hk as (unsigned & s4 & E4 & Hk).
  apply bind_inv in Hk as (ts & s5 & E5 & Hk). apply bind_inv in Hk as ([] & s6 & E6 & Hk).
  assert (steady s s5) as Hs5.
  { etrans; [exact Hsteady|]. pose proof (steady_depth (take 20 leaves') (with_timeline tl2 (with_timeline tl1 s))) as K3. rewrite E3 in K3. etrans; [exact K3|].
    pose proof (steady_unsigned b room s3) as K4. rewrite E4 in K4. etrans; [exact K4|]. pose proof (steady_timestamp b s4) as K5. by rewrite E5 in K5. }
  rewrite (steady_fetching s s5 Hs5) in E6. destruct (auth_check _ _ _ _) as [[]|] eqn:Ea; [|done].
  apply bind_inv in Hk as ([p' json'] & s7 & E7 & Hk). apply bind_inv in Hk as ([] & s8 & E8 & Hk).
  apply bind_inv in Hk as (n & s9 & _ & Hk). injection Hk as -> -> _. apply sign_renamed in E7 as [Hp Hroom].
  split; [|by destruct (check_rules _ _) as [[]|]]. exists found', leaves', ts. split_and!; [|done..].
  intros t q. rewrite Hfound. unfold event_fetch. by setoid_rewrite (cached_fetch late _ _ _ Hc1).
Qed.

(** ** The rules of this server *)

(** The event that a redaction names, by the rules of its room. *)
Definition redacts_now s p (id : string) : Prop :=
  ∃ s1 rules, steady s s1 ∧ (get_room_version_rules late (pdu_room_id p) (timeline_of s1)).1 = Ok rules ∧ redacts_id p rules = Some id.

(** A suspended user may take back an own event, and leave. *)
Definition taken_back s p : Prop :=
  pdu_kind p = ROOM_REDACTION ∧ (∃ id q, redacts_now s p id ∧ event_fetch late s id = Ok q ∧ pdu_sender q = pdu_sender p)
  ∨ pdu_kind p = ROOM_MEMBER ∧ content_member (pdu_content p) = Some MLeave ∧ pdu_state_key p = Some (pdu_sender p).

(** The server user and another local user stay. *)
Definition admins_stay s p sender : Prop :=
  admin_target p sender ≠ server_user ∧ ∃ l, other_admins s (pdu_room_id p) (admin_target p sender) = Ok l ∧ 2 ≤ length l.

Record permitted s sender p : Prop := {
  permitted_suspended : sender_suspended (outside s) (pdu_sender p) = true → taken_back s p;
  permitted_admin : is_admin_room (outside s) (pdu_room_id p) = true →
    pdu_kind p ≠ ROOM_ENCRYPTION
    ∧ (pdu_kind p = ROOM_MEMBER →
       content_member (pdu_content p) = Some MLeave ∨ content_member (pdu_content p) = Some MBan ∧ is_Some (pdu_state_key p) →
       admins_stay s p sender);
  permitted_redaction : pdu_kind p = ROOM_REDACTION →
    ∃ s1 rules, steady s s1 ∧ (get_room_version_rules late (pdu_room_id p) (timeline_of s1)).1 = Ok rules
      ∧ ∀ id, redacts_id p rules = Some id →
        ∃ s2, steady s s2 ∧ (user_can_redact late id (pdu_sender p) (pdu_room_id p) false (timeline_of s2)).1 = Ok true;
  permitted_join user : pdu_kind p = ROOM_MEMBER → content_authorised_via (pdu_content p) = Some user →
    content_member (pdu_content p) = Some MJoin ∧ user_is_local user = true;
}.

Lemma content_inv {A} (read : Value → option A) p s a s' :
  (lift (map_err OfAccess (get_content read p)) : M A) s = (Ok a, s') → read (pdu_content p) = Some a ∧ s' = s.
Proof. unfold lift, get_content. destruct (read (pdu_content p)); cbn; intros [=]; by subst. Qed.

Lemma suspended_spec p s s' :
  check_pdu_for_suspended_sender late p s = (Ok tt (E := ServerError (E := E)), s') →
  sender_suspended (outside s) (pdu_sender p) = true → taken_back s p.
Proof.
  intros Hk Hsusp. unfold check_pdu_for_suspended_sender, bind at 1, reading in Hk. rewrite Hsusp in Hk. cbn [negb] in Hk.
  apply bind_inv in Hk as ([] & s1 & Ha & Hk); [|done]. destruct (decide (pdu_kind p = ROOM_REDACTION)) as [Hr|_].
  - left. split; [done|]. unfold is_self_redaction in Ha. apply bind_inv in Ha as (rules & s2 & Hrules & Ha).
    destruct (redacts_id p rules) as [id|] eqn:Hid; [|done]. apply bind_inv in Ha as (target & s3 & Htarget & [= Ha _]).
    destruct target as [q|]; [|done]. apply bool_decide_eq_true_1 in Ha. exists id, q.
    assert (steady s s2) as Hs2 by (eapply steady_after; [|exact Hrules]; eauto with keeps).
    split_and!; [|rewrite <-(steady_fetch late s s2) by done|done].
    + exists s, rules. split_and!; [done| |done]. by eapply accessing_inv.
    + revert Htarget. unfold ignoring. destruct (event_fetch late s2 id) as [q'|e]; cbn; [congruence|]. by destruct (is_panic e).
  - right. destruct (decide (pdu_kind p = ROOM_MEMBER)) as [Hm|]; [|done]. apply bind_inv in Ha as (m & s2 & [Hc ->]%content_inv & [= Ha _]).
    by apply bool_decide_eq_true_1 in Ha as [-> Hkey].
Qed.

Lemma admin_spec p sender s s' :
  check_pdu_for_admin_room p sender s = (Ok tt (E := ServerError (E := E)), s') →
  pdu_kind p ≠ ROOM_ENCRYPTION
  ∧ (pdu_kind p = ROOM_MEMBER →
     content_member (pdu_content p) = Some MLeave ∨ content_member (pdu_content p) = Some MBan ∧ is_Some (pdu_state_key p) →
     admins_stay s p sender).
Proof.
  unfold check_pdu_for_admin_room. destruct (decide (pdu_kind p = ROOM_ENCRYPTION)); [done|]. intros Hk. split; [done|].
  intros Hm. destruct (decide (pdu_kind p = ROOM_MEMBER)); [|done]. apply bind_inv in Hk as (m & s1 & [Hc ->]%content_inv & Hk).
  intros Hl. unfold admins_stay. set (target := admin_target p sender) in *.
  assert (∃ a c, forbid_losing_admins (pdu_room_id p) target a c s = (Ok tt (E := ServerError (E := E)), s')) as (a & c & Hf).
  { rewrite Hc in Hl. destruct Hl as [[= ->]|[[= ->] [key Hkey]]]; [by eexists _, _|]. rewrite Hkey in Hk. by eexists _, _. }
  unfold forbid_losing_admins in Hf. destruct (decide (target = server_user)); [done|]. split; [done|].
  apply bind_inv in Hf as (l & s2 & Hl' & Hf). destruct (other_admins s _ _) as [l'|]; [|done]. injection Hl' as <- <-.
  exists l'. split; [done|]. destruct (length l' <? 2) eqn:Hn; [done|]. by apply Nat.ltb_ge.
Qed.

Lemma redaction_spec p s s' :
  check_redaction late p s = (Ok tt (E := ServerError (E := E)), s') → pdu_kind p = ROOM_REDACTION →
  ∃ rules, (get_room_version_rules late (pdu_room_id p) (timeline_of s)).1 = Ok rules
    ∧ ∀ id, redacts_id p rules = Some id →
      ∃ s2, steady s s2 ∧ (user_can_redact late id (pdu_sender p) (pdu_room_id p) false (timeline_of s2)).1 = Ok true.
Proof.
  unfold check_redaction. intros Hk Hr. destruct (decide (pdu_kind p = ROOM_REDACTION)); [|done].
  apply bind_inv in Hk as (rules & s1 & Hrules & Hk). exists rules. split; [by eapply accessing_inv|]. intros id Hid. rewrite Hid in Hk.
  apply bind_inv in Hk as ([] & s2 & Hmay%accessing_inv & Hk); [|done]. exists s1. split; [|done].
  eapply steady_after; [|exact Hrules]. eauto with keeps.
Qed.

Lemma join_spec p s s' user :
  check_authorised_join p s = (Ok tt (E := ServerError (E := E)), s') → pdu_kind p = ROOM_MEMBER →
  content_authorised_via (pdu_content p) = Some user → content_member (pdu_content p) = Some MJoin ∧ user_is_local user = true.
Proof.
  unfold check_authorised_join. intros Hk Hm Hu. destruct (decide (pdu_kind p = ROOM_MEMBER)); [|done].
  apply bind_inv in Hk as (m & s1 & [Hc ->]%content_inv & Hk). rewrite Hu in Hk. case_bool_decide as Hj; [|done]. cbn [negb] in Hk.
  destruct (user_is_local user); [|done]. by subst.
Qed.

Lemma check_permitted p sender s s' :
  check_built late p sender s = (Ok tt (E := ServerError (E := E)), s') → permitted s sender p.
Proof.
  unfold check_built. intros ([] & s1 & E1 & Hk)%bind_inv. pose proof (steady_suspended p s) as S1. rewrite E1 in S1. cbn in S1.
  apply bind_inv in Hk as ([] & s2 & E2 & Hk). assert (steady s1 s2) as S2.
  { match type of E2 with ?m s1 = _ => assert (keeps steady m) as Hkeep by keep end. specialize (Hkeep s1). by rewrite E2 in Hkeep. }
  unfold bind at 1, reading in Hk. apply bind_inv in Hk as ([] & s3 & E3 & Hk). assert (steady s2 s3) as S3.
  { match type of E3 with ?m s2 = _ => assert (keeps steady m) as Hkeep by keep end. specialize (Hkeep s2). by rewrite E3 in Hkeep. }
  apply bind_inv in Hk as ([] & s4 & E4 & E5). assert (steady s s2) as S02 by by etrans. assert (steady s s3) as S03 by by etrans. split.
  - intros Hsu. by eapply suspended_spec.
  - rewrite (steady_outside _ _ S02) in E3. intros Ha. rewrite Ha in E3. apply admin_spec in E3 as [He Hm]. split; [done|].
    intros Hk Hc. destruct (Hm Hk Hc) as [Ht (l & Hl & Hn)]. split; [done|]. exists l. split; [|done].
    revert Hl. unfold other_admins. by rewrite (steady_members _ _ S02).
  - intros Hr. destruct (redaction_spec _ _ _ E4 Hr) as (rules & Hrules & Hmay). exists s3, rules. split_and!; [done..|].
    intros id Hid. destruct (Hmay id Hid) as (s5 & S5 & Hu). exists s5. split; [by etrans|done].
  - intros user. by apply (join_spec p s4 s').
Qed.

(** Nothing that the rules read changes before they are checked. *)
Lemma steady_permitted s s1 sender p : steady s s1 → permitted s1 sender p → permitted s sender p.
Proof.
  intros Hs [Hsu Ha Hr Hj]. assert (∀ s2, steady s1 s2 → steady s s2) as Htr by (intros s2; by etrans). split.
  - rewrite <-(steady_outside _ _ Hs). intros [[Hk (id & q & (s2 & rules & ? & ? & ?) & Hf & Hq)]|Hl]%Hsu; [left|by right]. split; [done|].
    exists id, q. rewrite <-(steady_fetch late s s1) by done. split_and!; [exists s2, rules; auto|done..].
  - rewrite <-(steady_outside _ _ Hs). intros [He Hm]%Ha. split; [done|]. intros Hk Hc. destruct (Hm Hk Hc) as [Ht (l & Hl & Hn)].
    split; [done|]. exists l. split; [|done]. revert Hl. unfold other_admins. by rewrite (steady_members _ _ Hs).
  - intros (s2 & rules & ? & ? & Hmay)%Hr. exists s2, rules. split_and!; [auto..|]. intros id (s3 & ? & ?)%Hmay. exists s3. auto.
  - done.
Qed.

(** ** Entering a timeline *)

Lemma keeps_policy_signed p json : keeps same_events (policy_signed p json : M _).
Proof. apply keeps_same. intros s. unfold policy_signed. by destruct (sign_outgoing_pdu _ _ _). Qed.
Lemma keeps_federate p pdu_id : keeps same_events (federate p pdu_id : M unit).
Proof.
  unfold federate. apply keeps_bind; [apply _|apply keeps_steady, steady_looking|]. intros l. apply keeps_same. intros s. by destruct (send_pdu_servers _ _ _).
Qed.

(** An event is in a timeline after an attempt to build one only if it was
    before, or if it is the one built. *)
Lemma build_places s b sender room id :
  placed (build_and_append_pdu late now b sender room s : Result (ServerError (E := E)) _ * _).2 id →
  placed s id ∨ ∃ p json s1 s2, create_hash_and_sign_event late now b sender room s = (Ok (p, json) (E := ServerError (E := E)), s1)
    ∧ check_built late p sender s1 = (Ok tt (E := ServerError (E := E)), s2) ∧ id = pdu_event_id p.
Proof.
  unfold build_and_append_pdu, bind at 1. pose proof (steady_same _ _ (steady_create b sender room s)) as K1.
  destruct (create_hash_and_sign_event _ _ _ _ _ s) as [[[p json]|e] s1]; cbn [fst snd] in *; [|rewrite (same_placed s s1) by done; by left].
  unfold bind at 1. pose proof (steady_same _ _ (steady_check p sender s1)) as K2.
  destruct (check_built late p sender s1) as [[[]|e] s2] eqn:Ec; cbn [fst snd] in *;
    [|rewrite (same_placed s1 s2), (same_placed s s1) by done; by left].
  match goal with |- placed (snd (?k s2)) _ → _ => assert (adds (E := E) p k) as Hk end.
  - apply adds_later; [apply keeps_policy_signed|]. intros signed. apply adds_later; [keep|]. intros h.
    apply adds_first; [apply adds_append|]. intros pdu_id. apply keeps_bind; [apply _|keep|]. intros _.
    apply keeps_bind; [apply _|apply keeps_federate|]. intros _. keep.
  - intros Hpl. destruct (adds_placed p _ s2 id Hk Hpl) as [Hid| ->]; [left|right; by exists p, json, s1, s2]. by rewrite (same_placed s1 s2), (same_placed s s1) in Hid.
Qed.

(** C4.  Whatever a user of this server sends, and whether the request succeeds: an
    event that enters a timeline is of this user, is allowed by exactly those
    entries of the current state that the rules of the room select for it, and
    keeps the rules of this server. *)
Theorem built_guarded s ids room m version rules types b sender id :
  current (timeline_of s) ids room m → content_in late content_room_version (timeline_of s) m (ROOM_CREATE, "") = Some version →
  rules_of version = Some rules →
  auth_types_for_event (b_type b) sender (b_state_key b) (b_content b) (authorization (version_rules rules)) true = Ok types →
  Forall (λ t, utf8_valid t.1 = true ∧ utf8_valid t.2 = true) types →
  placed (build_and_append_pdu late now b sender room s : Result (ServerError (E := E)) _ * _).2 id →
  placed s id ∨ ∃ p, pdu_event_id p = id ∧ authorised_now s b sender room rules types m p ∧ permitted s sender p.
Proof.
  intros Hcur Hv Hr Ht Hu Hp. apply build_places in Hp as [Hp|(p & json & s1 & s2 & Hcreate & Hcheck & ->)]; [by left|]. right.
  exists p. split; [done|]. pose proof (steady_create b sender room s) as K1. rewrite Hcreate in K1. split.
  - by eapply create_authorised.
  - eapply steady_permitted; [exact K1|]. by eapply check_permitted.
Qed.

(** ** Redactions *)

Lemma room_get_spec tl ids room m (t : TypeStateKey) id p :
  current tl ids room m → utf8_valid t.1 = true → utf8_valid t.2 = true → m !! t = Some id → fetch_pdu late tl id = Ok p →
  ∃ tl', cached tl tl' ∧ room_state_get late room t.1 t.2 tl = (Ok p, tl').
Proof.
  intros [Hi (h & x & Hh & Hx & Hd) Hr] Hu1 Hu2 Hm Hp. destruct (state_get_id_spec tl ids h x m t Hi Hx Hd Hu1 Hu2) as (tl' & Hc & Es).
  rewrite Hm in Es. exists tl'. split; [done|]. unfold room_state_get, room_state_hash, bind at 1. rewrite Hh. cbn [map_err].
  unfold state_get, bind. by rewrite Es, (cached_fetch late _ _ id Hc), Hp.
Qed.

(** What the current state says of power: its create event, the power levels. *)
Definition levels_read (v : Value) : option Value := if is_power_levels v then Some v else None.

Lemma power_levels_spec tl ids room m cid create version rules l :
  current tl ids room m → m !! (ROOM_CREATE, "") = Some cid → fetch_pdu late tl cid = Ok create →
  room_version create = Ok version → rules_of version = Some rules → creators create (authorization (version_rules rules)) = Ok l →
  ∃ tl', cached tl tl' ∧ get_power_levels late room tl
    = (Ok (content_in late levels_read tl m (ROOM_POWER_LEVELS, ""), (authorization (version_rules rules), l)), tl').
Proof.
  intros Hcur Hm Hp Hv Hr Hl. destruct (room_get_spec tl ids room m (ROOM_CREATE, "") cid create Hcur) as (tl1 & Hc1 & Es1); [done..|].
  destruct (room_content_spec levels_read tl1 ids room m (ROOM_POWER_LEVELS, "")) as (tl2 & Hc2 & Es2);
    [by eapply current_cached|done..|]. rewrite (cached_content late levels_read _ _ m _ Hc1) in Es2.
  exists tl2. split; [by eapply cached_trans|]. unfold get_power_levels, get_create, bind at 1. cbn [fst snd] in *. rewrite Es1.
  unfold bind. fold levels_read. rewrite Es2. unfold lift. rewrite Hv. unfold room_version_rules. rewrite Hr. cbn. by rewrite Hl.
Qed.

Lemma version_rules_spec tl ids room m version rules :
  current tl ids room m → content_in late content_room_version tl m (ROOM_CREATE, "") = Some version → rules_of version = Some rules →
  ∃ tl', cached tl tl' ∧ get_room_version_rules late room tl = (Ok rules, tl').
Proof.
  intros Hcur Hv Hr. destruct (room_content_spec content_room_version tl ids room m (ROOM_CREATE, "") Hcur) as (tl' & Hc & Es); [done..|].
  exists tl'. split; [done|]. unfold get_room_version_rules, get_room_version, bind. cbn [fst snd] in Es. rewrite Es, Hv. cbn.
  unfold room_version_rules. by rewrite Hr.
Qed.

Lemma can_redact_spec tl ids room m cid create version rules l sender (id : string) q :
  current tl ids room m → m !! (ROOM_CREATE, "") = Some cid → fetch_pdu late tl cid = Ok create →
  room_version create = Ok version → rules_of version = Some rules → creators create (authorization (version_rules rules)) = Ok l →
  fetch_pdu late tl id = Ok q → pdu_kind q ≠ ROOM_CREATE → pdu_kind q ≠ ROOM_SERVER_ACL →
  let levels := content_in late levels_read tl m (ROOM_POWER_LEVELS, "") in
  ∃ tl', cached tl tl' ∧ user_can_redact late id sender room false tl
    = (Ok (can_redact_other levels (authorization (version_rules rules)) l sender
           || can_redact_own levels (authorization (version_rules rules)) l sender && bool_decide (pdu_sender q = sender)), tl').
Proof.
  intros Hcur Hm Hp Hv Hr Hl Hq Hk1 Hk2 levels. destruct (power_levels_spec tl ids room m cid create version rules l) as (tl' & Hc & Es); [done..|].
  exists tl'. split; [done|]. unfold user_can_redact. rewrite Hq. unfold is_kind. rewrite !bool_decide_eq_false_2 by done.
  unfold bind, ignoring. by rewrite Es.
Qed.

Lemma run_bind {A B} (m : M A) (k : A → M B) s a r (Q P : Server (W := W) → Prop) :
  (∃ s1, m s = (Ok a, s1) ∧ Q s1) → (∀ s1, Q s1 → ∃ s', k a s1 = (Ok r, s') ∧ P s') → ∃ s', bind m k s = (Ok r, s') ∧ P s'.
Proof. intros (s1 & E1 & HQ) Hk. unfold bind. rewrite E1. auto. Qed.

(** The stored event is replaced by its redacted form. *)
Lemma redact_spec s ids n p (id : string) pdu_id json content room' m' version' rules' redacted :
  get_pdu_id (timeline_of s) id = Ok pdu_id → get_from_id text_object (timeline_of s) pdu_id = Ok json →
  json !! "content" = Some content → json !! "room_id" ≫= de_id room_id_ok = Some room' →
  current (timeline_of s) ids room' m' → content_in late content_room_version (timeline_of s) m' (ROOM_CREATE, "") = Some version' →
  rules_of version' = Some rules' → redact_because json rules' p = Some redacted →
  ∃ s', redact_pdu late id p n s = (Ok tt (E := ServerError (E := E)), s')
    ∧ table_rows (pduid_pdu (timeline_of s')) !! as_bytes pdu_id = Some (object_text redacted).
Proof.
  intros Hpid Hjson Hcontent Hroom Hcur Hv Hr Hred. destruct (version_rules_spec _ ids room' m' version' rules' Hcur Hv Hr) as (tl & Hc & Es).
  unfold redact_pdu. rewrite Hpid. unfold bind at 1, looking. rewrite Hjson. cbn [map_err]. unfold bind at 1, asking at 1.
  unfold bind at 1, lift at 1. rewrite Hcontent. cbn [ok_or]. eapply (run_bind _ _ _ tt _ (λ s1, timeline_of s1 = timeline_of s)).
  { case_match; by eexists. }
  intros s1 Ht. unfold bind at 1, lift at 1. rewrite Hroom. cbn [ok_or]. unfold bind at 1, accessing. rewrite Ht, Es. cbn [map_err].
  unfold bind, lift. rewrite Hred. cbn [ok_or]. unfold on_timeline. change (timeline_of (with_timeline tl s1)) with tl.
  unfold replace_pdu. rewrite raw_put_json. cbn [tdb map_err].
  destruct (Map_get (pduid_pdu tl) (as_bytes pdu_id)) as [row|e] eqn:Erow; cycle 1.
  { exfalso. revert Hjson. destruct Hc as (st & -> & _). unfold get_from_id. cbn in Erow. by rewrite Erow. }
  eexists. split; [done|]. cbn. rewrite table_put_rows. by apply lookup_insert_eq.
Qed.

(** A redaction applies to the event it names in whatever room that is: the
    power to redact is that of the redaction's own room. *)
Theorem redaction_across_rooms s ids n p m cid create version rules l id q pdu_id json content room' m' version' rules' redacted :
  let tl := timeline_of s in
  current tl ids (pdu_room_id p) m → m !! (ROOM_CREATE, "") = Some cid → fetch_pdu late tl cid = Ok create →
  room_version create = Ok version → content_room_version (pdu_content create) = Some version →
  rules_of version = Some rules → creators create (authorization (version_rules rules)) = Ok l →
  can_redact_other (content_in late levels_read tl m (ROOM_POWER_LEVELS, "")) (authorization (version_rules rules)) l (pdu_sender p) = true →
  redacts_id p rules = Some id → fetch_pdu late tl id = Ok q → pdu_kind q ≠ ROOM_CREATE → pdu_kind q ≠ ROOM_SERVER_ACL →
  get_pdu_id tl id = Ok pdu_id → get_from_id text_object tl pdu_id = Ok json →
  json !! "content" = Some content → json !! "room_id" ≫= de_id room_id_ok = Some room' →
  current tl ids room' m' → content_in late content_room_version tl m' (ROOM_CREATE, "") = Some version' → rules_of version' = Some rules' →
  redact_because json rules' p = Some redacted →
  ∃ s', redaction_effects late n p s = (Ok tt (E := ServerError (E := E)), s')
    ∧ table_rows (pduid_pdu (timeline_of s')) !! as_bytes pdu_id = Some (object_text redacted).
Proof.
  intros tl Hcur Hm Hcreate Hv Hv' Hr Hl Hmay Hid Hq Hk1 Hk2 Hpid Hjson Hcontent Hroom Hcur' Hversion' Hr' Hred.
  destruct (version_rules_spec tl ids (pdu_room_id p) m version rules Hcur) as (tl1 & Hc1 & Es1); [|done|].
  { unfold content_in. rewrite Hm. cbn. by rewrite Hcreate. }
  destruct (can_redact_spec tl1 ids (pdu_room_id p) m cid create version rules l (pdu_sender p) id q) as (tl2 & Hc2 & Es2);
    rewrite ?(cached_fetch late _ _ _ Hc1); [by eapply current_cached|done..|].
  rewrite (cached_content late levels_read _ _ m _ Hc1), Hmay in Es2. cbn [orb] in Es2. pose proof (cached_trans _ _ _ Hc1 Hc2) as Hc12.
  unfold redaction_effects, bind at 1, accessing at 1. fold tl. rewrite Es1. cbn [map_err]. rewrite Hid.
  unfold bind at 1, accessing at 1. change (timeline_of (with_timeline tl1 s)) with tl1. rewrite Es2. cbn [map_err].
  assert (∀ f, (∃ st, f = with_states st tl) → get_pdu_id f id = Ok pdu_id ∧ get_from_id text_object f pdu_id = Ok json) as Hreads.
  { by intros f [st ->]. }
  destruct (Hreads tl2) as [Hp2 Hj2]; [destruct Hc12 as (st & -> & _); by exists st|].
  apply (redact_spec (with_timeline tl2 (with_timeline tl1 s)) ids n p id pdu_id json content room' m' version' rules' redacted Hp2 Hj2 Hcontent Hroom); [by eapply current_cached| |done..].
  by rewrite <-Hversion'; apply cached_content.
Qed.

(** ** Failures after the event is stored *)

Definition always_fails {A} (I : Server (W := W) → Prop) (m : M A) : Prop := ∀ s, I s → ∃ e, (m s).1 = Err e.

Lemma fails_later {A B} I (m : M A) (k : A → M B) :
  safe I m (λ _, True) → (∀ a, always_fails I (k a)) → always_fails I (bind m k).
Proof.
  intros Hm Hk s Hs. destruct (Hm s Hs) as [Hi _]. unfold bind. destruct (m s) as [[a|e] s1]; cbn in *; [by apply Hk|by exists e].
Qed.
Lemma fails_first {A B} I (m : M A) (k : A → M B) : always_fails I m → always_fails I (bind m k).
Proof. intros Hm s Hs. destruct (Hm s Hs) as [e He]. unfold bind. destruct (m s) as [r s1]. cbn in He. subst r. by exists e. Qed.

Lemma fails_holding {A} I n1 n2 (m : M A) : always_fails I m → always_fails I (holding n1 n2 m).
Proof.
  intros Hm s Hs. destruct (Hm s Hs) as [e He]. unfold holding. destruct (m s) as [r s1]. cbn in He. subst r.
  destruct (Counter.drop_all _ _); by eexists.
Qed.

(** A message in a thread whose root is not known is stored, and sending it
    fails. *)
Theorem unknown_root_half_done s s1 s2 s3 n p json leafs root x :
  pdu_state_key p = None → content_relation (pdu_content p) = Some (Thread root) → root ≠ pdu_event_id p → ¬ placed s root →
  get_shortroomid (shorts_of (timeline_of s)) (pdu_room_id p) = Ok n →
  (on_meta (λ mt, mark_as_referenced mt (pdu_room_id p) (pdu_prev_events p)) : M unit) s = (Ok tt, s1) →
  (set_leaves (pdu_room_id p) leafs : M unit) s1 = (Ok tt, s2) →
  inserting n p json s2 = (Ok x (E := ServerError (E := E)), s3) →
  ∃ e s', append_pdu late p json leafs s = (Err e (E := ServerError (E := E)), s') ∧ placed s' (pdu_event_id p).
Proof.
  intros Hkey Hrel Hne Hroot Hn E1 E2 E3. pose proof (inserting_placed _ _ _ _ _ _ E3) as Hplaced.
  pose proof (keeps_on_meta (E := E) (λ mt, mark_as_referenced mt (pdu_room_id p) (pdu_prev_events p)) s) as K1. rewrite E1 in K1.
  assert (same_events s1 s2) as K2. { unfold set_leaves in E2. match type of E2 with ?m s1 = _ => assert (keeps same_events m) as Hk by keep end.
    specialize (Hk s1). by rewrite E2 in Hk. }
  set (I := λ s4 : Server (W := W), placed s4 (pdu_event_id p) ∧ ¬ placed s4 root).
  assert (I s3) as HI.
  { split; [by apply Hplaced; left|]. intros [->|Hr]%Hplaced; [done|]. by rewrite (same_placed s1 s2), (same_placed s s1) in Hr. }
  assert (∀ {A} (m : M A), keeps same_events m → safe I m (λ _, True)) as Hsafe.
  { intros A m Hm. eapply safe_keeps; [exact Hm|]. intros s4 s5 Hs. unfold I. by rewrite !(same_placed s4 s5). }
  unfold append_pdu, bind at 1, looking. rewrite Hn. cbn [map_err]. unfold bind at 1, correct_unsigned. rewrite Hkey. unfold ret at 1.
  unfold bind at 1. rewrite E1. unfold bind at 1. rewrite E2. unfold bind at 1. rewrite E3. destruct x as [pdu_id [n1 n2]].
  match goal with |- ∃ e s', ?m s3 = _ ∧ _ => assert (always_fails I m ∧ safe I m (λ _, True)) as [Hf Hs] end.
  - split; [|apply Hsafe; apply keeps_bind; [apply _|apply keeps_holding; keep|intros _; keep]].
    apply fails_first, fails_holding.
    apply fails_later; [apply Hsafe; keep|]. intros _. unfold append_pdu_effects, redaction_effects, member_effects, message_effects.
    apply fails_later; [apply Hsafe; keep|]. intros _. apply fails_later; [apply Hsafe; keep|]. intros _. rewrite Hrel. unfold add_to_thread.
    apply fails_first. intros s5 [_ Hr]. unfold looking, get_pdu_id. rewrite Map_get_row. unfold placed in Hr.
    destruct (table_rows _ !! root) eqn:Er; [by destruct Hr|]. by eexists.
  - destruct (Hf s3 HI) as [e He], (Hs s3 HI) as [[Hp _] _]. eexists e, _. split; [|exact Hp]. rewrite <-He. apply surjective_pairing.
Qed.
End built.
