(* ===== verification/RoomExample.v ===== *)
(** * A room, and what happens in it

    Concrete functions for the parameters of [Append], [Incoming] and [Build],
    and a room with a creator who is joined: the theorems on events that enter
    rooms apply to it. *)

From S2P Require Import Prelude Effects Bytes Slices SetOps DbCodec DbMap Pairs Counter Short Compressor RoomStates PduId Timeline AuthChain MemberCache Memberships RoomMeta Json Sender Core RoomEvents RoomAuth PduFormat StateAccessor Append Incoming Build EventFrames Entry Accepted Built.

Module RoomExample.
#[export] Existing Instance ordered_engine.
#[export] Existing Instance ShortExample.json.
#[export] Existing Instance ShortExample.identifiers.
#[export] Existing Instance MembersExample.users.
#[export] Existing Instance StatesExample.unbounded.
#[export] Existing Instance StatesExample.digest.
#[export] Existing Instance FormatExample.texts.
#[export] Existing Instance ToyRuma.toy_ruma.
#[export] Existing Instance reversed_hash_iter.
#[export] Existing Instance ChainsExample.auth_ruma.
#[export] Existing Instance ChainsExample.reversed.
#[export] Existing Instance TimelineExample.pdu_json.

#[export] Instance services : Services unit unit := MembersExample.services false.

Definition text_in (key : string) (v : Value) : option string := o ← as_object v; o !! key ≫= as_str.

#[export] Instance contents : RoomContents := {|
  content_visibility _ := None;
  content_member v := match text_in "membership" v with
                      | Some "join" => Some MJoin | Some "leave" => Some MLeave | Some "ban" => Some MBan | _ => None
                      end;
  content_room_version v := Some (default "1" (text_in "room_version" v));
  can_redact_other _ _ creators user := bool_decide (user ∈ creators);
  can_redact_own _ _ _ _ := true;
  has_redact_level _ _ creators user := bool_decide (user ∈ creators);
  is_power_levels _ := true;
|}.

#[export] Instance append_contents : AppendContents := {|
  content_body v := Some (text_in "body" v);
  content_relates_event _ := None;
  content_relation v := Thread <$> text_in "thread" v;
  thread_bundle _ p := Str (pdu_event_id p);
  redact_because o _ reason := Some (<["content" := Object ∅]> (<["reason" := Str (pdu_event_id reason)]> o));
|}.

#[export] Instance others : OtherServices unit := {|
  set_read _ _ _ w := w; push_event _ _ w := w; notify_appservices _ _ w := w; evict_space _ w := w;
  index_message _ _ _ w := w; deindex_message _ _ _ w := w; admin_command _ _ w := Some w; save_original _ _ w := w;
  stripped_state _ _ := "";
|}.

#[export] Instance handler_contents : HandlerContents := {| content_acl _ := None; acl_is_allowed _ _ := true |}.

#[export] Instance build_contents : BuildContents := {|
  room_id_format_v2 _ := false;
  room_id_of_event _ := None;
  hash_event := Ok;
  sign_event _ o _ := Ok o;
  content_authorised_via _ := None;
|}.

(** A server on which one user is suspended. *)
#[export] Instance build_services : BuildServices unit := {|
  own_server_name := "a";
  server_user := "@admin:a";
  sender_suspended _ user := bool_decide (user = "@abe:a");
  is_admin_room _ _ := false;
  sign_outgoing_pdu o _ w := (Ok o, w);
  send_pdu_servers _ _ w := (Ok tt, w);
|}.

(** ** The state of the room *)

Definition room : string := "!r:a".
Definition number : Short :=
  match get_or_create_shortroomid ShortExample.empty room with Ok (_, x) => x | Err _ => ShortExample.empty end.
Definition numbered_room : RoomStates := RoomStates.with_shorts number StatesExample.no_rooms.

Definition extended (st : RoomStates) (p : NewPdu) : RoomStates :=
  match append_to_state st p with
  | Ok (h, next) => match set_room_state next room h with Ok next => next | Err _ => st end
  | Err _ => st
  end.

Definition creation : NewPdu := RoomStates.mkPdu "$c" room ROOM_CREATE (Some "").
Definition joining : NewPdu := RoomStates.mkPdu "$m" room ROOM_MEMBER (Some "@ann:a").
Definition states_of_room : RoomStates := extended (extended numbered_room creation) joining.

(** The events of the room, as they are stored. *)
Definition stored_event (id kind key : string) (content : list (string * Value)) (prev auth : list string) : CanonicalJsonObject :=
  list_to_map [("type", Str kind); ("content", obj content); ("event_id", Str id); ("room_id", Str room); ("sender", Str "@ann:a");
    ("state_key", Str key); ("prev_events", Array (Str <$> prev)); ("auth_events", Array (Str <$> auth));
    ("origin_server_ts", json_u64 1); ("depth", json_u64 1); ("hashes", obj [("sha256", Str "")])].
Definition create_json := stored_event "$c" ROOM_CREATE "" [("room_version", Str "1")] [] [].
Definition join_json := stored_event "$m" ROOM_MEMBER "@ann:a" [("membership", Str "join")] ["$c"] ["$c"].

Definition rows (l : list (string * string)) : Table := (list_to_map l : gmap string string).
Definition row_of (n : N) : string := as_bytes (raw_from_id (mkId 1 (Normal n))).
Definition timeline_of_room : Timeline :=
  mkTimeline states_of_room
    (rows [(row_of 1, object_text create_json); (row_of 2, object_text join_json)])
    (rows [("$c", row_of 1); ("$m", row_of 2)]) (rows []) (rows []).

Definition server (tl : Timeline) : Server (W := unit) :=
  mkServer (mkChains tl (rows []) (rows [])) (mkMeta (rows []) (rows []) (rows []) (rows []) (rows []) (rows [])) MembersExample.empty ∅ 0 tt.

Definition in_time : string → bool := λ _, false.
Definition message (body : string) : PduBuilder := mkBuilder "m.room.message" (obj [("body", Str body)]) None None None None.
Definition sent (b : PduBuilder) (sender : string) := build_and_append_pdu (E := unit) in_time 5 b sender room (server timeline_of_room).

(** ** Its invariants *)

(** Adding a state event makes it part of the room's state. *)
Lemma extended_spec (st : RoomStates) (p : NewPdu) key full :
  states_inv st ∅ → (last_number (shorts st) + 4 <= U64_MAX)%N → RoomStates.pdu_state_key p = Some key → RoomStates.pdu_room_id p = room →
  previous_state st (ok (get_room_shortstatehash st room)) full → keyed full → (set_len full < MAX_STATE)%N →
  ∃ h k n, states_inv (extended st p) ∅ ∧ get_room_shortstatehash (extended st p) room = Ok h
    ∧ holds (diff_rows (extended st p)) h (with_entry (compress_state_event k n) full)
    ∧ get_shortstatekey (shorts (extended st p)) (RoomStates.pdu_kind p) key = Ok k ∧ get_shorteventid (shorts (extended st p)) (RoomStates.pdu_event_id p) = Ok n.
Proof.
  intros Hi Hlt Hkey Hroom Hprev Hk Hsz. rewrite <-Hroom in Hprev.
  destruct (append_to_state_spec st ∅ p key full Hi Hlt Hkey Hprev Hk Hsz) as (h & st' & k & n & Ha & [Hi' Hh _ _ _] & Hgk & Hgn & _).
  destruct (set_room_state_spec st' ∅ room h _ Hi' Hh) as (st'' & Hset & Hi'' & Hg & Hrows & Hsh).
  exists h, k, n. unfold extended. rewrite Ha, Hset, Hrows, Hsh. done.
Qed.

Lemma numbered_room_inv : states_inv numbered_room ∅.
Proof.
  destruct (get_or_create_shortroomid_spec ShortExample.empty ∅ room ShortExample.empty_inv) as (n & x & Hg & Hx & Hext & _); [done|].
  assert (x = number) as -> by (unfold number; by rewrite Hg). apply with_shorts_inv; [apply StatesExample.no_rooms_inv|done|done|by vm_compute].
Qed.

(** The state of the room: the numbers of types and state keys and of events. *)
Definition described_by : gmap TypeStateKey string := {[(ROOM_CREATE, "") := "$c"; (ROOM_MEMBER, "@ann:a") := "$m"]}.
Definition room_entries : CompressedState := {[compress_state_event 3 2; compress_state_event 6 5]}.

Lemma creation_holds :
  states_inv (extended numbered_room creation) ∅ ∧ get_room_shortstatehash (extended numbered_room creation) room = Ok 4%N
  ∧ holds (diff_rows (extended numbered_room creation)) 4 {[compress_state_event 3 2]}.
Proof.
  destruct (extended_spec numbered_room creation "" ∅ numbered_room_inv) as (h & k & n & Hi & Hr & Hh & Hk & Hn);
    [by vm_compute|done|done|by vm_compute|by intros e e' He%elem_of_empty|by vm_compute|].
  assert (h = 4%N) as -> by (vm_compute in Hr; congruence). assert (k = 3%N) as -> by (vm_compute in Hk; congruence).
  assert (n = 2%N) as -> by (vm_compute in Hn; congruence). split_and!; [done..|].
  by replace {[compress_state_event 3 2]} with (with_entry (compress_state_event 3 2) ∅) by (unfold with_entry; set_solver).
Qed.

Lemma room_holds :
  states_inv states_of_room ∅ ∧ get_room_shortstatehash states_of_room room = Ok 7%N
  ∧ holds (diff_rows states_of_room) 7 room_entries.
Proof.
  destruct creation_holds as (Hi & Hr & Hh).
  destruct (extended_spec (extended numbered_room creation) joining "@ann:a" {[compress_state_event 3 2]} Hi)
    as (h & k & n & Hi' & Hr' & Hh' & Hk & Hn); [by vm_compute|done|done|by rewrite Hr|..|].
  - by intros e e' ->%elem_of_singleton ->%elem_of_singleton.
  - by vm_compute.
  - fold states_of_room in *. assert (h = 7%N) as -> by (vm_compute in Hr'; congruence).
    assert (k = 6%N) as -> by (vm_compute in Hk; congruence). assert (n = 5%N) as -> by (vm_compute in Hn; congruence).
    split_and!; [done..|]. replace room_entries with (with_entry (compress_state_event 6 5) {[compress_state_event 3 2]}); [done|].
    by apply (bool_decide_unpack _); vm_compute.
Qed.

Lemma room_described : describes (shorts states_of_room) room_entries described_by.
Proof.
  assert (key_as (shorts states_of_room) (ROOM_CREATE, "") 3 ∧ key_as (shorts states_of_room) (ROOM_MEMBER, "@ann:a") 6) as [K1 K2]
    by (by split; split_and!; vm_compute).
  assert (id_as (shorts states_of_room) "$c" 2 ∧ id_as (shorts states_of_room) "$m" 5) as [I1 I2] by (by split; split_and!; vm_compute).
  unfold described_by, room_entries. split.
  - intros t id [[<- <-]|[_ [<- <-]%lookup_singleton_Some]]%lookup_insert_Some.
    + exists 3%N, 2%N. split_and!; [done..|set_solver].
    + exists 6%N, 5%N. split_and!; [done..|set_solver].
  - intros e [->%elem_of_singleton| ->%elem_of_singleton]%elem_of_union.
    + by exists (ROOM_CREATE, ""), "$c", 3%N, 2%N.
    + by exists (ROOM_MEMBER, "@ann:a"), "$m", 6%N, 5%N.
Qed.

Lemma room_readable : readable in_time timeline_of_room.
Proof.
  intros id e. destruct (decide (id = "$c")) as [->|Hc]; [by vm_compute|]. destruct (decide (id = "$m")) as [->|Hm]; [by vm_compute|].
  unfold fetch_pdu, Timeline.get, get_non_outlier, get_pdu_id, get_outlier. rewrite !Map_get_row.
  replace (table_rows (eventid_pduid timeline_of_room) !! id) with (None : option string).
  2:{ symmetry. cbn. by rewrite lookup_insert_ne, lookup_insert_ne, lookup_empty. }
  replace (table_rows (eventid_outlierpdu timeline_of_room) !! id) with (None : option string) by done.
  cbn. by intros [= <-].
Qed.

Lemma room_current : current in_time timeline_of_room ∅ room described_by.
Proof.
  destruct room_holds as (Hi & Hr & Hh). split; [done| |apply room_readable]. exists 7%N, room_entries. split_and!; [done..|]. apply room_described.
Qed.

(** ** Another server *)

(** It has one event, which is not what it is asked for; signatures are good. *)
Definition env : Env := {|
  federation_event _ _ id := if decide (id = "$lost") then Some "nothing" else None;
  federation_state_ids _ _ _ _ := None;
  verify_event _ _ _ := Some VerifiedAll;
  redact o _ := Some o;
  policy_invalid _ o _ := (false, o);
  clock n := N.of_nat n;
  running _ := true;
  max_fetch_prev_events := 3;
  hydra_backports := false;
  chain_run := mkRun 5 (λ n, n) in_time;
  subgraph_width := 5;
  subgraph_fuel := 20;
  subgraph_schedule n := n;
  sort_fuel := 100;
  loop_fuel := 100;
  cut A l := [l];
|}.

Definition reference (id : string) : Value := Array [Str id; Object ∅].
Definition incoming : CanonicalJsonObject :=
  list_to_map [("type", Str "m.room.message"); ("content", obj [("body", Str "hello")]); ("event_id", Str "$x"); ("room_id", Str room);
    ("sender", Str "@ann:a"); ("prev_events", Array [reference "$m"]); ("auth_events", Array [reference "$c"; reference "$m"]);
    ("origin_server_ts", json_u64 9); ("depth", json_u64 2); ("hashes", obj [("sha256", Str "")])].
Definition received := handle_incoming_pdu (E := unit) env "b" room "$x" incoming true (server timeline_of_room).

(** Only the two events are in the timeline, and there are no outliers. *)
Lemma room_sound : sound (E := unit) env [] (server timeline_of_room).
Proof.
  split.
  - intros id raw Hid. assert (id = "$c" ∧ raw = row_of 1 ∨ id = "$m" ∧ raw = row_of 2) as [[-> ->]|[-> ->]].
    { revert Hid. cbn. rewrite lookup_insert_Some, lookup_insert_Some, lookup_empty. naive_solver. }
    1,2: by split; eexists; vm_compute.
  - intros id t Ho. by vm_compute in Ho.
  - intros id t Ho. by vm_compute in Ho.
  - by intros p json Hp%elem_of_nil.
Qed.
End RoomExample.

Section room_witnesses.
Import RoomExample.

(** The creator sends a message: it is in the timeline, and rightly so. *)
Lemma built_guarded_witness :
  (sent (message "hi") "@ann:a").1 = Ok "$hash:a"
  ∧ ∃ p, pdu_event_id p = "$hash:a"
    ∧ authorised_now in_time (server timeline_of_room) (message "hi") "@ann:a" room FormatExample.v1
        [(ROOM_CREATE, ""); (ROOM_POWER_LEVELS, ""); (ROOM_MEMBER, "@ann:a")] described_by p
    ∧ permitted in_time (server timeline_of_room) "@ann:a" p.
Proof.
  split; [by vm_compute|].
  destruct (built_guarded (E := unit) in_time 5 (server timeline_of_room) ∅ room described_by "1" FormatExample.v1
    [(ROOM_CREATE, ""); (ROOM_POWER_LEVELS, ""); (ROOM_MEMBER, "@ann:a")] (message "hi") "@ann:a" "$hash:a") as [[v Hv]|Hp].
  - apply room_current.
  - by vm_compute.
  - done.
  - by vm_compute.
  - by repeat constructor.
  - apply (bool_decide_unpack _). by vm_compute.
  - vm_compute in Hv. congruence.
  - exact Hp.
Defined.


End room_witnesses.
